(* ===== verification/_CoqProject ===== *)
-Q . S2P
Prelude.v
Numbers.v
Utf8.v
TextBuffer.v
HostPath.v
CliOptions.v
Source.v
Literals.v
IfEval.v
Conditional.v
Directives.v
MacroTokens.v
MacroExpand.v
MacroArgs.v
MacroCalls.v
IfExpand.v
Conditions.v
Defines.v
DefineLines.v
InternTable.v
FrozenTable.v
InternMap.v
MacroTables.v
IdTable.v
NameTable.v
Keys.v
KeyParse.v
Bindings.v
Focus.v
UiInput.v
UiStyle.v
TermScreen.v
Sgr.v
TermFeed.v
Grid.v
Spelling.v
MangleType.v
Mangle.v
MangleNames.v
MangleRead.v
Format.v
FormatFloat.v
FormatCalls.v
Tasks.v
Forest.v
Scopes.v
Channels.v
Switch.v
Machine.v
Parked.v
Waiters.v
Coop.v
Verbs.v
Runs.v
