(* ===== verification/Prelude.v ===== *)
(** A verification development of the madc compiler (C++).

    madc is a JIT compiler of a C++-like language with its library and tools
    in one program.  This development models the parts of it that are made of
    bytes, loops, machine integers and linked queues and that stand apart from
    the parser's object graph, and proves what makes each of them correct.

    * The parts

    - [Prelude]: bytes, character classes, loops with fuel, machine integers
      and bit operations, and the tactics the components share.
    - [HostPath]: the lexical path functions of [src/src/madc_posix_io.cpp].
    - [Utf8]: code points and UTF-16 columns, [src/include/madcdis/text_utf16.h]
      and the lexer's encoder.
    - [TextBuffer]: class [text_buffer] of [src/include/madcdis/text_buffer.h],
      the editor's piece table with its undo history and newline cache.
    - [CliOptions]: the option reader, [src/src/cli_options.cpp] and
      [src/include/libmadc/cli_options.h], over [HostPath].
    - [Source]: class [Source] of [src/include/madc.h], the lexer's input with
      its push-back frames and macro paint.
    - [Literals]: the escape, string, character and integer readers of
      [src/src/lexer.cpp], written against the class [Reader] (with the laws
      [ReaderLaws]) that a [source] and a captured text both implement, and the
      escape writer of [src/src/rt/rt_dump.c].
    - [IfEval]: the evaluator of [#if] conditions, against the class [IfMacros]
      of what it asks of the macro tables.
    - [Conditional] and [Directives]: conditional groups as a state machine on
      directive lines, and the readers that drive it from a [source];
      [Directives] joins [Source], [IfEval] and [Conditional].
    - [MacroTokens], [MacroExpand], [MacroArgs] and [MacroCalls]: a macro's body
      as tokens, the substitution of its parameters, its arguments with their
      paint, and the scan that finds a call's arguments, [src/src/lexer.cpp] and
      [src/include/spelling_delim.h].  [IfExpand]: the macro tables' writer, the
      predefined macros and [expandIfMacros]; [Conditions] joins it with [IfEval].
      [Defines]: the reading of [#define] and [#undef]; [DefineLines]: what their
      lines stand for.
    - [InternTable], [FrozenTable] and [InternMap]: the intern table, its frozen
      blocks and the map keyed by its ids, [src/include/madcdis/intern_table.h].
      [MacroTables]: the lexer's two macro tables over them, with the entry
      transaction of [src/src/parser.cpp].
    - [IdTable]: stable ids ([src/include/madcdis/id_table.h]), handles
      ([src/include/handle_table.h]) and the bump allocator
      ([src/include/madcdis/arena.h]), the last against the laws of [malloc].
      [NameTable]: the process-wide names, [src/include/madcdis/istring.h].
    - [Numbers]: [std::to_string] and [atoi].  [Keys]: the key vocabulary and its
      spelling; [Bindings]: the table of key sequences and the chord resolver, both
      of [src/include/madcdis/keys.h].  [KeyParse]: the terminal's bytes as keys and
      back, [src/include/madcdis/tui_keyparse.h].  [Focus]: focus, choices and the
      menu bar, [src/include/madcdis/ui_focus.h].  [UiInput]: a batch of keys
      through all of them, [src/include/madcdis/ui_input.h].
    - [UiStyle]: render styles, their specs and the colour tables,
      [src/include/madcdis/ui_style.h].  [TermScreen]: the screen a program's
      output is folded into, [src/include/madcdis/term_screen.h]; [TermFeed]: the
      document it lives in between two pieces of output, [term_feed] of
      [src/src/ns_ui.cpp]; [Sgr]: how a terminal is told of a style,
      [src/src/ui_term.cpp].  [Grid]: the cell grid, the spans that changed and the
      paint plan, [src/include/madcdis/tui_grid.h].
    - [Spelling]: how a C++ type spelling is cut, [src/include/spelling_delim.h].
      [MangleType], [Mangle] and [MangleNames]: the reader of type spellings, the
      encoder with its substitution table and the entry points over it, the memo
      and the decoder of function names, all of [src/src/madc_mangle.cpp];
      [MangleRead]: a reader of what the encoder writes.
    - [Format] and [FormatFloat]: the engine of [std::format],
      [src/src/rt/rt_format.c], with the C library's conversions of a double as the
      class [Libc].  [FormatCalls]: the compiler's checks and lowering of a
      formatting call ([src/src/cir_format.cpp]), a dynamic value's writer and
      [python::format], all over that engine.
    - [Tasks], [Scopes] and [Channels]: the cooperative task runtime,
      [src/src/rt/rt_task.c] (the queue, the timers, the decision what runs
      next; then scopes, cancellation, sleep, join and the end of a task) and
      [src/src/madc_task_chan.cpp] (value channels, select, scope handles).
      The operating system's clock is the class [Os] and the io layer's hook
      the class [IoLayer]; the laws theorems need of them are [OsLaws] and
      [NoIoWaiters].
    - [Forest]: the abstract specification of structured scopes.
    - [Machine]: all tasks together, as one machine that switches only at the
      code's switch points.  [Switch] says what one task's stretch of
      execution may do to the others, [Parked] and [Waiters] are the invariants
      of the scheduler and of the channels, [Coop] shows that the machine keeps
      them, [Verbs] what each verb promises its caller, and [Runs] has the
      concrete runs.

    * Conventions

    A C++ pointer into a linked structure is a key of a finite map and a lookup
    that fails is a dangling pointer; where the code would follow one, or would
    run into behaviour the language leaves undefined, the model has an outcome
    of its own ([Undef], [Faults]) and a theorem says that it is not reached, or
    a finding that it is.  A C++ [throw] is a value of a sum or a constructor
    of the outcome.  Integers are [Z] with the wrap-around written out.  What
    is not code of the repository is a class or a variable of a section.

    * What the theorems show

    - Text: the piece table refines plain text with two history stacks, an
      edit session undone is the text it began with, line queries agree with
      the text although the cache is lazy; UTF-8 encodes and decodes; columns
      land on code-point boundaries.
    - Options: reading terminates, every word of the command line, the words of
      its response files read in, is accounted for, values obey their declarations, constraints hold of each success.
    - Lexer input: reading all of a source is translation phase 2 of its text;
      pushed-back macro text is served in order with its paint; comments and
      literals are read as their specifications say; what the writers escape
      the readers read back; integer literals have their value or are refused.
    - Preprocessor: a group includes what C11 6.10.1 says; the reader of
      skipped groups drives that machine; conditions, over macros too, evaluate
      to the value C gives their expression tree, where no operand C leaves
      unevaluated overflows; expansion is C's where no operand of ## that begins
      a chain is empty; the include-guard verdict is exact; a [#define] line
      is read as the macro C gives it, and what was read, printed, reads back.
    - Task runtime, for programs within [Machine.allowed] and while no io waiter
      is registered: no state a program can reach leads to undefined behaviour;
      each live task is in exactly one place (running, ready, timed or parked);
      no receiver sleeps while a value it could take is there, nor a sender
      while there is room; a parked task wakes for a cause; a scope that has
      ended has no member left; a cancel reaches exactly the subtree;
      completion wins over cancellation; refused calls change nothing and are
      the documented ones, but for [chan_select] by a cancelled task; the scheduling decision terminates.

    - Terminal: what a key parser reads, written as bytes, reads back; a batch of
      keys is its keys one by one; no operation of the focus owner reads outside its
      vectors; a program's output in pieces shows what it shows whole; the styles
      written are the styles read; a paint plan turns the last screen into the
      next, and the glyphs of a row fill its columns.
    - Names: the intern table, its frozen form, the maps over its ids and the
      macro tables refine finite maps, with exact rollback.
    - Symbols: reading a type spelling ends; the memo of encoded types never
      changes an answer, whatever was switched in between; a function's symbol
      reads back to its scope and name; an encoded type, with its
      back-references, reads back to the canonical key of its tree with a reader
      that numbers the candidates itself, where keys tell entities apart.
    - Formatting: a call compiles exactly where its string, its indices and its
      specs fit its arguments, and what compiled does not fail when it runs but
      for named causes, lack of memory among them; an integer reads back from what is written for it in any base and padding; a
      double's default text reads back to the same bits and its hexadecimal text
      denotes it exactly; specs and format strings read back.

    * Bounds and fuel

    A loop that is not structural takes fuel, and a theorem says how much is
    enough: the text left for readers of a [source] ([read_all_phase2]) and of
    conditions ([condition_evaluates]); twice the words and two for the
    option reader, and some fuel when it reads files of options ([parse_total]); the number of scopes for the
    walks over the scope tree ([cancel_walk], [chain_cancelled]); two turns for
    [task_next_or_wait] while no io waiter is registered
    ([scheduling_decision]).  Chains and probes take the entries or slots there
    are, a length of 32 bits five bytes, a byte of the key parser two calls
    ([feed_byte_spec]); [expand_if] takes its depth of nested calls and the 32
    passes of the source, [parse_type] the length of the spelling ([parse_ends]),
    and a format string the items' loop of its length ([items_end], [call_accepted]).  A step of the machine is taken with any fuel
    that decides it, and a run is a finite list of steps.

    * Findings

    Where the code does something else than it means to, the model follows the
    code and the text at the definition says so.  The larger ones: [line_text]
    can loop under pending push-back; the [#if] evaluator's grammar departs
    from C in the tiers of shifts and equality, in its constants and in computing
    the operands C leaves unevaluated; a comment
    in skipped text can close a group; [chan_select] misses a cancel that came
    before it; a scope handle can outlive its scope; a very long sleep is over
    at once; an empty left operand of ## glues what is around it, and the commas of __VA_ARGS__ are spelt anew; [/*/] and the
    digit separator mislead the scan of a call's arguments; [#if] recurses without
    end on a macro nested in its own argument, and takes the name of a [__has_]
    operator for one after [defined]; clearing an id-keyed map inside a transaction
    cannot be rolled back; Alt and a bracket, and four control letters, do not
    survive the way to bytes and back; [#define] refuses or misreads comments
    before its value; a chord that goes on with Escape never
    fires; a menu without a row to choose lights a separator; two exact colours in
    one sequence overrun the screen's parameters; the nearest grey is missed;
    substitution keys of different types meet, and some symbols are not the ABI's
    (the Examples at the end of [Mangle] and [MangleNames]); a constant under [{:c}]
    that no character has is not refused.

    * Not modelled

    - The rest of the lexer ([_getToken] with its own loop of macro calls), the parser, the CIR builder, its container and the back end: an object graph of several
      hundred classes that no smaller model states faithfully.
    - Processes, sockets, the reactor, storage drivers, the terminal: system
      calls and third-party libraries.  So byte channel endpoints and
      readiness cases of a select are out, and [IoLayer] stands for the hook
      through which the scheduler reaches them.
    - Of the task runtime: machine stacks and saved contexts, the exception
      state that travels with a switch, the reset after a fork.
    - Of the tables: the undo log and the ABI notes of [set_macro], the mutex and
      holds of the name table, token_arena.h; a lazy block source is a parameter.
      What the registries and the header search answer for a [__has_] operand is
      one too.
    - Of terminal input: the models that compose and paint a tree.
    - Of formatting: the binding of an argument by its type, the long double's
      text but for its search, the sink of bytes.
    - Warnings' printing and diagnostics' text.

    * Order of further work

    The loop of macro calls in [_getToken] on top of [MacroCalls]; the dumps of
    [src/src/rt/rt_dump.c] over [Format]; the help printer of the options; the line editor;
    then a trace theorem for channels (values are received in the order they were
    sent, over whole runs). *)
From Stdlib Require Export Ascii String ZArith Lia Bool.
From stdpp Require Export base list strings option relations.

(** * Bytes

    A [std::string] of the program is a list of bytes; a byte is an [ascii].
    [B] turns a Rocq string literal into one. *)
Abbreviation bytes := (list ascii).

Declare Scope bytes_scope.
Delimit Scope bytes_scope with bytes.
Definition B (s : string) : bytes := list_ascii_of_string s.
Arguments B s%_string_scope : simpl never.
Notation "b[ c ]" := (c%char : ascii) (at level 0, c at level 200) : bytes_scope.
#[export] Set Default Goal Selector "!".

#[local] Open Scope Z_scope.

(** The unsigned value of a byte, and the byte of a value ([(char) v]: the low
    eight bits). *)
Definition code (c : ascii) : Z := Z.of_N (N_of_ascii c).
Definition to_byte (z : Z) : ascii := ascii_of_N (Z.to_N (z mod 256)).

Lemma code_range c : 0 <= code c < 256.
Proof. unfold code. pose proof (N_ascii_bounded c). lia. Qed.

Lemma to_byte_code c : to_byte (code c) = c.
Proof.
  unfold to_byte. rewrite Z.mod_small by apply code_range.
  unfold code. rewrite N2Z.id. apply ascii_N_embedding.
Qed.

Lemma code_to_byte z : code (to_byte z) = z mod 256.
Proof.
  unfold code, to_byte. pose proof (Z.mod_pos_bound z 256 ltac:(lia)).
  rewrite N_ascii_embedding by lia. lia.
Qed.

Lemma code_to_byte_small z : 0 <= z < 256 -> code (to_byte z) = z.
Proof. intros. rewrite code_to_byte. by apply Z.mod_small. Qed.

Lemma code_inj c d : code c = code d -> c = d.
Proof. intros H. rewrite <- (to_byte_code c), <- (to_byte_code d). by rewrite H. Qed.

(** * Machine integers

    A w-bit integer is a [Z] in range; the wrap-around is written out. *)
Definition u32 (z : Z) : Z := z mod 2 ^ 32.
Definition u64 (z : Z) : Z := z mod 2 ^ 64.
Definition i8 (z : Z) : Z := (z + 2 ^ 7) mod 2 ^ 8 - 2 ^ 7.
Definition i32 (z : Z) : Z := (z + 2 ^ 31) mod 2 ^ 32 - 2 ^ 31.
Definition i64 (z : Z) : Z := (z + 2 ^ 63) mod 2 ^ 64 - 2 ^ 63.

Lemma u32_range z : 0 <= u32 z < 2 ^ 32.
Proof. apply Z.mod_pos_bound. lia. Qed.
Lemma u32_small z : 0 <= z < 2 ^ 32 -> u32 z = z.
Proof. apply Z.mod_small. Qed.
Lemma i64_range z : - 2 ^ 63 <= i64 z < 2 ^ 63.
Proof. unfold i64. pose proof (Z.mod_pos_bound (z + 2 ^ 63) (2 ^ 64) ltac:(lia)). lia. Qed.
Lemma i64_small z : - 2 ^ 63 <= z < 2 ^ 63 -> i64 z = z.
Proof. intros. unfold i64. rewrite Z.mod_small; lia. Qed.
Lemma i64_idem z : i64 (i64 z) = i64 z.
Proof. apply i64_small, i64_range. Qed.

(** * The character classes of the C locale ([<cctype>]) and the ones the
    sources spell out *)
Definition in_range (lo hi : Z) (c : ascii) : bool := (lo <=? code c) && (code c <=? hi).
Definition isdigit (c : ascii) : bool := in_range 48 57 c.
Definition isupper (c : ascii) : bool := in_range 65 90 c.
Definition islower (c : ascii) : bool := in_range 97 122 c.
Definition isalpha (c : ascii) : bool := isupper c || islower c.
Definition isalnum (c : ascii) : bool := isalpha c || isdigit c.
Definition isxdigit (c : ascii) : bool := isdigit c || in_range 65 70 c || in_range 97 102 c.
Definition isspace (c : ascii) : bool := (code c =? 32) || in_range 9 13 c.
Definition tolower (c : ascii) : ascii := if isupper c then to_byte (code c + 32) else c.

(** The bytes that a Rocq string literal spells awkwardly. *)
Definition c_dquote : ascii := "034"%char.
Definition c_squote : ascii := "039"%char.
Definition c_bslash : ascii := "092"%char.
Definition c_nl : ascii := "010"%char.
Definition c_cr : ascii := "013"%char.
Definition c_tab : ascii := "009"%char.
Definition c_sp : ascii := "032"%char.

(** [std::string::operator==], and a byte of a string ([s[i]]; reading past the
    end of a [std::string] by one yields NUL, which the default models). *)
Definition byte_eqb (a b : ascii) : bool := Ascii.eqb a b.
Definition bytes_eqb (a b : bytes) : bool := bool_decide (a = b).
Definition at_ (s : bytes) (i : nat) : ascii := nth i s Ascii.zero.

Lemma at_lookup s i : (i < length s)%nat -> s !! i = Some (at_ s i).
Proof.
  intros Hi. unfold at_. rewrite nth_lookup.
  destruct (lookup_lt_is_Some_2 s i Hi) as [x Hx]. by rewrite Hx.
Qed.
Lemma drop_at s i : (i < length s)%nat -> drop i s = at_ s i :: drop (S i) s.
Proof. intros. by apply drop_S, at_lookup. Qed.

Lemma bytes_eqb_eq a b : bytes_eqb a b = true <-> a = b.
Proof. unfold bytes_eqb. apply bool_decide_eq_true. Qed.
Lemma bytes_eqb_refl a : bytes_eqb a a = true.
Proof. by apply bytes_eqb_eq. Qed.
Lemma byte_eqb_eq a b : byte_eqb a b = true <-> a = b.
Proof. apply Ascii.eqb_eq. Qed.
Lemma byte_eqb_refl a : byte_eqb a a = true.
Proof. apply Ascii.eqb_refl. Qed.
Lemma byte_eqb_neq a b : byte_eqb a b = false <-> a <> b.
Proof. apply Ascii.eqb_neq. Qed.

(** [empty()] *)
Definition is_nil {A} (l : list A) : bool := match l with [] => true | _ => false end.
Lemma is_nil_true {A} (l : list A) : is_nil l = true <-> l = [].
Proof. by destruct l. Qed.
Lemma is_nil_false {A} (l : list A) : is_nil l = false <-> l <> [].
Proof. by destruct l. Qed.

(** [s.substr(pos, n)] for [pos <= s.size()]. *)
Definition substr (s : bytes) (pos n : nat) : bytes := take n (drop pos s).

(** [s.find(c)]: the first offset of [c]; [None] is [npos]. *)
Fixpoint find_char (c : ascii) (s : bytes) : option nat :=
  match s with
  | [] => None
  | x :: r => if byte_eqb x c then Some O else S <$> find_char c r
  end.

(** [s.rfind(c)]: the last offset of [c]. *)
Fixpoint rfind_char (c : ascii) (s : bytes) : option nat :=
  match s with
  | [] => None
  | x :: r => match rfind_char c r with
              | Some k => Some (S k)
              | None => if byte_eqb x c then Some O else None
              end
  end.

(** [s.compare(0, strlen(p), p) == 0]. *)
Definition starts_with (s p : bytes) : bool := bytes_eqb (take (length p) s) p.

#[global] Arguments starts_with : simpl never.
#[global] Arguments bytes_eqb : simpl never.
#[global] Arguments byte_eqb : simpl never.

Lemma starts_with_app p s : starts_with (p ++ s) p = true.
Proof. unfold starts_with. rewrite take_app_length. apply bytes_eqb_refl. Qed.

Lemma starts_with_inv s p : starts_with s p = true -> s = p ++ drop (length p) s.
Proof.
  unfold starts_with. rewrite bytes_eqb_eq. intros H.
  rewrite <- H at 1. by rewrite take_drop.
Qed.

Lemma find_char_Some c s k :
  find_char c s = Some k -> s = take k s ++ c :: drop (S k) s /\ c ∉ take k s.
Proof.
  revert k. induction s as [|x s IH]; intros k; simpl; [done|].
  destruct (byte_eqb x c) eqn:E.
  - intros [= <-]. apply byte_eqb_eq in E as ->. simpl. split; [by rewrite ?drop_0|].
    apply not_elem_of_nil.
  - intros H. apply fmap_Some in H as [j [Hj ->]].
    destruct (IH j Hj) as [H1 H2]. simpl. split; [by rewrite H1 at 1|].
    apply byte_eqb_neq in E. rewrite elem_of_cons. naive_solver.
Qed.

Lemma find_char_None c s : find_char c s = None <-> c ∉ s.
Proof.
  induction s as [|x s IH]; simpl.
  - split; [intros _; apply not_elem_of_nil|done].
  - destruct (byte_eqb x c) eqn:E.
    + apply byte_eqb_eq in E as ->. split; [done|]. rewrite elem_of_cons. naive_solver.
    + apply byte_eqb_neq in E. rewrite fmap_None, IH, elem_of_cons. naive_solver.
Qed.

Lemma rfind_char_spec c s :
  match rfind_char c s with
  | None => c ∉ s
  | Some k => (k < length s)%nat /\ at_ s k = c /\ c ∉ drop (S k) s
  end.
Proof.
  induction s as [|x s IH]; simpl; [apply not_elem_of_nil|].
  destruct (rfind_char c s) as [k|].
  - destruct IH as (H1 & H2 & H3). split_and!; [lia|exact H2|exact H3].
  - destruct (byte_eqb x c) eqn:E.
    + apply byte_eqb_eq in E. split_and!; [lia|exact E|exact IH].
    + apply byte_eqb_neq in E. rewrite elem_of_cons. naive_solver.
Qed.

Lemma elem_of_drop_in {A} n (l : list A) x : x ∈ drop n l -> x ∈ l.
Proof. intros H. rewrite <- (take_drop n l). apply elem_of_app. by right. Qed.

(** A list cut just after an element. *)
Lemma drop_past {A} (l : list A) t r : drop (S (length l)) (l ++ t :: r) = r.
Proof. replace (S (length l)) with (length l + 1)%nat by lia. by rewrite <- drop_drop, drop_app_length. Qed.
Lemma take_past {A} (l : list A) t r : take (S (length l)) (l ++ t :: r) = l ++ [t].
Proof. induction l as [|x l IH]; simpl; [by rewrite take_0|]. simpl in IH. by rewrite IH. Qed.

(** * Loops

    A C++ loop whose step is not a structural recursion is [loop]: the body
    either goes on with a new state or leaves with a result.  [loop_total] is
    the rule of total correctness every such loop is verified with: an
    invariant, and a measure the fuel exceeds, give a result that satisfies
    the postcondition.  [None] is "out of fuel" only. *)
Section Loop.
Context {St R : Type}.

Fixpoint loop (fuel : nat) (body : St -> St + R) (s : St) : option R :=
  match fuel with
  | O => None
  | S n => match body s with inl s' => loop n body s' | inr r => Some r end
  end.

Lemma loop_total (I : St -> Prop) (Q : R -> Prop) (m : St -> nat) (body : St -> St + R) :
  (forall s, I s -> match body s with
                    | inl s' => I s' /\ (m s' < m s)%nat
                    | inr r => Q r
                    end) ->
  forall fuel s, I s -> (m s < fuel)%nat -> exists r, loop fuel body s = Some r /\ Q r.
Proof.
  intros Hstep fuel. induction fuel as [|n IH]; intros s HI Hm; [lia|].
  simpl. specialize (Hstep s HI). destruct (body s) as [s'|r].
  - destruct Hstep as [HI' Hlt]. apply IH; [done|lia].
  - eauto.
Qed.

(** More fuel never changes a result. *)
Lemma loop_mono (body : St -> St + R) fuel fuel' s r :
  loop fuel body s = Some r -> (fuel <= fuel')%nat -> loop fuel' body s = Some r.
Proof.
  revert fuel' s. induction fuel as [|n IH]; intros [|n'] s; simpl; [done|done|intros; lia|].
  destruct (body s); [|done]. intros ? ?. apply IH; [done|lia].
Qed.

(** A loop whose measure decreases is a recursive function. *)
Lemma loop_unfold (m : St -> nat) (body : St -> St + R) d s :
  (forall s s', body s = inl s' -> (m s' < m s)%nat) ->
  default d (loop (S (m s)) body s) =
    match body s with inl s' => default d (loop (S (m s')) body s') | inr r => r end.
Proof.
  intros Hm. change (loop (S (m s)) body s) with (match body s with inl s' => loop (m s) body s' | inr r => Some r end).
  destruct (body s) as [s'|r] eqn:E; [|done].
  destruct (loop_total (fun _ => True) (fun _ => True) m body) with (fuel := S (m s')) (s := s') as (r & Hr & _); [|done|lia|].
  { intros t _. destruct (body t) eqn:Et; [|done]. split; [done|]. by apply Hm. }
  rewrite Hr. erewrite loop_mono; [reflexivity|exact Hr|]. apply Hm in E. lia.
Qed.

(** Partial correctness alone, when the fuel is someone else's concern. *)
Lemma loop_inv (I : St -> Prop) (Q : R -> Prop) (body : St -> St + R) :
  (forall s, I s -> match body s with inl s' => I s' | inr r => Q r end) ->
  forall fuel s r, I s -> loop fuel body s = Some r -> Q r.
Proof.
  intros Hstep fuel. induction fuel as [|n IH]; intros s r HI; simpl; [done|].
  specialize (Hstep s HI). destruct (body s) as [s'|r'].
  - eauto.
  - by intros [= <-].
Qed.

(** A loop that reaches a leaving state in [n] steps leaves there. *)
Lemma loop_nsteps (body : St -> St + R) n fuel s s' r :
  nsteps (fun a b => body a = inl b) n s s' -> body s' = inr r -> (n < fuel)%nat -> loop fuel body s = Some r.
Proof.
  intros H Hr. revert fuel. induction H as [s|n s s1 s' Hs _ IH]; intros [|fuel] Hf; try lia; simpl.
  - by rewrite Hr.
  - rewrite Hs. apply IH; [done|lia].
Qed.

(** A loop whose states decrease along a well-founded relation has fuel
    enough, whatever the bound. *)
Lemma loop_wf (lt_ : St -> St -> Prop) (I : St -> Prop) (Q : R -> Prop) (body : St -> St + R) :
  well_founded lt_ ->
  (forall s, I s -> match body s with
                    | inl s' => I s' /\ lt_ s' s
                    | inr r => Q r
                    end) ->
  forall s, I s -> exists fuel r, loop fuel body s = Some r /\ Q r.
Proof.
  intros Hwf Hstep s. induction (Hwf s) as [s _ IH]. intros HI.
  pose proof (Hstep s HI) as Hs. destruct (body s) as [s'|r] eqn:Hb.
  - destruct Hs as [HI' Hlt]. destruct (IH s' Hlt HI') as (fuel & r & Hr & HQ).
    exists (S fuel), r. simpl. by rewrite Hb.
  - exists 1%nat, r. simpl. by rewrite Hb.
Qed.
End Loop.

(** The lexicographic order of two measures is well founded. *)
Lemma lex_wf {A} (a b : A -> nat) :
  well_founded (fun s' s => a s' < a s \/ a s' = a s /\ b s' < b s)%nat.
Proof.
  intros s. remember (a s) as n eqn:Hn. revert s Hn.
  induction (lt_wf n) as [n _ IHn]. intros s. remember (b s) as m eqn:Hm. revert s Hm.
  induction (lt_wf m) as [m _ IHm]. intros s -> ->. constructor. intros s' [H|[Ha Hb]].
  - by apply (IHn (a s')).
  - by apply (IHm (b s')).
Qed.

(** [for ( k = a; k < a + n; k++ ) s = f(s, k);] by its invariant. *)
Lemma fold_seq_inv {A} (P : nat -> A -> Prop) (f : A -> nat -> A) a n s :
  P a s -> (forall k s, (a <= k < a + n)%nat -> P k s -> P (S k) (f s k)) ->
  P (a + n)%nat (fold_left f (seq a n) s).
Proof.
  revert a s. induction n as [|n IH]; intros a s H0 Hs; simpl; [by rewrite Nat.add_0_r|].
  rewrite Nat.add_succ_r. apply (IH (S a)); [apply Hs; [lia|done]|].
  intros k s' Hk. apply Hs. lia.
Qed.

(** Along a functional relation two reachable states are comparable. *)
Lemma rtc_functional_total {A} (R : A -> A -> Prop) x y z :
  (forall a b c, R a b -> R a c -> b = c) ->
  rtc R x y -> rtc R x z -> rtc R y z \/ rtc R z y.
Proof.
  intros Hfun Hxy. induction Hxy as [|x x' y Hstep Hxy IH]; intros Hxz; [by left|].
  inversion Hxz as [|? x'' ? Hstep' Hxz']; subst.
  - right. by eapply rtc_l.
  - apply IH. by rewrite (Hfun _ _ _ Hstep Hstep').
Qed.

(** * Bit operations *)

(** A closed check over a finite range is a proof for every value of it. *)
Lemma Z_forall_below (n : nat) (P : Z -> bool) :
  forallb P (map Z.of_nat (seq 0 n)) = true -> forall x, 0 <= x < Z.of_nat n -> P x = true.
Proof.
  intros H x Hx. rewrite forallb_forall in H. apply H.
  apply in_map_iff. exists (Z.to_nat x). split; [lia|]. apply in_seq. lia.
Qed.

(** [Z.lor] of a multiple of [2^k] and a number below it is their sum. *)
Lemma Z_lor_add a b k : 0 <= k -> 0 <= b < 2 ^ k -> Z.lor (a * 2 ^ k) b = a * 2 ^ k + b.
Proof.
  intros Hk Hb. rewrite <- Z.shiftl_mul_pow2 by done.
  rewrite Z.add_nocarry_lxor; [symmetry; apply Z.lxor_lor|].
  all: apply Z.bits_inj'; intros n Hn; rewrite Z.land_spec, Z.bits_0.
  all: destruct (Z.lt_ge_cases n k); [by rewrite Z.shiftl_spec_low|].
  all: rewrite <- (Z.mod_small b (2 ^ k)), Z.mod_pow2_bits_high by lia.
  all: apply andb_false_r.
Qed.

Lemma Z_land_low x k : 0 <= k -> Z.land x (Z.ones k) = x mod 2 ^ k.
Proof. apply Z.land_ones. Qed.

(** * Automation *)
Create HintDb madc.
Create Rewrite HintDb len.
#[export] Hint Rewrite @length_app @length_take @length_drop @length_cons @length_nil
  @length_map @length_rev : len.
#[export] Hint Resolve code_range u32_range i64_range : madc.

(** Case on the first test of a conditional or a match of the goal. *)
Ltac case_if :=
  match goal with
  | |- context [if ?b then _ else _] => destruct b eqn:?
  end.
Ltac case_if_in H :=
  match type of H with
  | context [if ?b then _ else _] => destruct b eqn:?
  end.

(** Turn the boolean tests of the context into the propositions they decide. *)
Ltac reflect_bool :=
  repeat match goal with
  | H : _ && _ = true |- _ => apply andb_true_iff in H as [? ?]
  | H : _ || _ = false |- _ => apply orb_false_iff in H as [? ?]
  | H : negb _ = true |- _ => apply negb_true_iff in H
  | H : negb _ = false |- _ => apply negb_false_iff in H
  | H : (_ <=? _)%Z = true |- _ => apply Z.leb_le in H
  | H : (_ <=? _)%Z = false |- _ => apply Z.leb_gt in H
  | H : (_ <? _)%Z = true |- _ => apply Z.ltb_lt in H
  | H : (_ <? _)%Z = false |- _ => apply Z.ltb_ge in H
  | H : (_ =? _)%Z = true |- _ => apply Z.eqb_eq in H
  | H : (_ =? _)%Z = false |- _ => apply Z.eqb_neq in H
  | H : (_ <=? _)%nat = true |- _ => apply Nat.leb_le in H
  | H : (_ <=? _)%nat = false |- _ => apply Nat.leb_gt in H
  | H : (_ <? _)%nat = true |- _ => apply Nat.ltb_lt in H
  | H : (_ <? _)%nat = false |- _ => apply Nat.ltb_ge in H
  | H : (_ =? _)%nat = true |- _ => apply Nat.eqb_eq in H
  | H : (_ =? _)%nat = false |- _ => apply Nat.eqb_neq in H
  | H : byte_eqb _ _ = true |- _ => apply byte_eqb_eq in H
  | H : byte_eqb _ _ = false |- _ => apply byte_eqb_neq in H
  | H : bytes_eqb _ _ = true |- _ => apply bytes_eqb_eq in H
  | H : bool_decide _ = true |- _ => apply bool_decide_eq_true in H
  | H : bool_decide _ = false |- _ => apply bool_decide_eq_false in H
  end.

(** The same, splitting the disjunctive tests too. *)
Ltac split_bool :=
  repeat (reflect_bool; match goal with
  | H : _ || _ = true |- _ => apply orb_true_iff in H as [H|H]
  | H : _ && _ = false |- _ => apply andb_false_iff in H as [H|H]
  end); reflect_bool.

(** [Forall] over an explicit list. *)
Ltac solve_Forall := repeat first [assumption | apply Forall_nil_2 | apply Forall_cons_2].

(** Linear arithmetic over lengths and the facts [reflect_bool] finds. *)
Ltac len_lia := split_bool; autorewrite with len in *; simpl in *; lia.
