(* ===== verification/Numbers.v ===== *)
(** Numbers as text, the standard library's two directions the sources use:
    [std::to_string] of an [int] and [atoi].  [atoi_to_string]: the one reads back
    what the other wrote. *)
From S2P Require Import Prelude.
#[local] Open Scope Z_scope.

(** [std::to_string] of an [int]. *)
Fixpoint digits_of (fuel : nat) (v : Z) (acc : bytes) : bytes :=
  match fuel with
  | O => acc
  | S n =>
      let acc := to_byte (48 + v mod 10) :: acc in
      if v / 10 =? 0 then acc else digits_of n (v / 10) acc
  end.
Definition to_string (v : Z) : bytes := if v <? 0 then "-"%char :: digits_of 10 (- v) [] else digits_of 10 v [].

(** [atoi]: blanks, a sign, digits.  Beyond an [int] C leaves the value open;
    here it is the low 32 bits, as glibc has it. *)
Fixpoint digits_value (acc : Z) (s : bytes) : Z :=
  match s with c :: r => if isdigit c then digits_value (acc * 10 + (code c - 48)) r else acc | [] => acc end.
Fixpoint atoi (s : bytes) : Z :=
  match s with
  | [] => 0
  | c :: r =>
      if isspace c then atoi r
      else if byte_eqb c "-"%char then i32 (- digits_value 0 r)
      else if byte_eqb c "+"%char then i32 (digits_value 0 r)
      else i32 (digits_value 0 s)
  end.

(** ** The one reads the other *)

Definition digits (s : bytes) : Prop := Forall (fun c => isdigit c = true) s.

Lemma digit_byte v : 0 <= v -> isdigit (to_byte (48 + v mod 10)) = true /\ code (to_byte (48 + v mod 10)) - 48 = v mod 10.
Proof.
  intros Hv. pose proof (Z.mod_pos_bound v 10 ltac:(lia)). unfold isdigit, in_range. rewrite code_to_byte_small by lia.
  split; [apply andb_true_iff; split; apply Z.leb_le; lia|lia].
Qed.

Lemma digits_value_app s t acc : digits s -> digits_value acc (s ++ t) = digits_value (digits_value acc s) t.
Proof. intros H. revert acc. induction H as [|c s Hc _ IH]; intros acc; [done|]. simpl. by rewrite Hc. Qed.

Lemma digits_value_mono ds acc : digits ds -> (0 <= acc) -> (acc <= digits_value acc ds).
Proof.
  intros H. revert acc. induction H as [|c ds Hc _ IH]; intros acc Ha; [done|]. cbn [digits_value]. rewrite Hc.
  assert (48 <= code c) by (unfold isdigit, in_range in Hc; lia). specialize (IH (acc * 10 + (code c - 48)) ltac:(lia)). lia.
Qed.
(** A positive number has no leading zero. *)
Lemma digits_of_head n v acc : 0 < v < 10 ^ Z.of_nat n -> (0 < n)%nat -> exists c r, digits_of n v acc = c :: r /\ isdigit c = true /\ c <> "0"%char.
Proof.
  revert v acc. induction n as [|n IH]; [lia|]. intros v acc Hv _. cbn [digits_of].
  destruct (digit_byte v ltac:(lia)) as [Hd Hval]. pose proof (Z.div_mod v 10 ltac:(lia)). pose proof (Z.mod_pos_bound v 10 ltac:(lia)).
  destruct (Z.eqb_spec (v / 10) 0) as [E|E].
  - eexists _, _. split; [reflexivity|]. split; [done|]. intros E'. rewrite E' in Hval. change (code "0" - 48) with 0 in Hval. lia.
  - rewrite Nat2Z.inj_succ, Z.pow_succ_r in Hv by lia.
    assert (0 <= v / 10 < 10 ^ Z.of_nat n) as Hq by (split; [apply Z.div_pos; lia|apply Z.div_lt_upper_bound; lia]).
    apply IH; [lia|]. destruct n; [simpl in Hq; lia|lia].
Qed.
(** The text of [v] before [acc]: digits whose value is [v]. *)
Lemma digits_of_spec n v acc :
  0 <= v < 10 ^ Z.of_nat n -> (0 < n)%nat ->
  exists ds, digits_of n v acc = ds ++ acc /\ digits ds /\ ds <> [] /\ digits_value 0 ds = v.
Proof.
  revert v acc. induction n as [|n IH]; [lia|]. intros v acc Hv _. simpl. destruct (digit_byte v) as [Hd Hval]; [lia|].
  pose proof (Z.div_mod v 10 ltac:(lia)) as Hdm. pose proof (Z.mod_pos_bound v 10 ltac:(lia)).
  destruct (Z.eqb_spec (v / 10) 0) as [E|E].
  - eexists [_]. split; [done|]. split; [by constructor|]. split; [done|]. cbn [digits_value]. rewrite Hd. lia.
  - rewrite Nat2Z.inj_succ, Z.pow_succ_r in Hv by lia.
    assert (0 <= v / 10 < 10 ^ Z.of_nat n) as Hq by (split; [apply Z.div_pos; lia|apply Z.div_lt_upper_bound; lia]).
    assert (0 < n)%nat by (destruct n; [simpl in Hq; lia|lia]).
    destruct (IH (v / 10) (to_byte (48 + v mod 10) :: acc) Hq ltac:(done)) as (ds & -> & H1 & H2 & H3).
    exists (ds ++ [to_byte (48 + v mod 10)]). rewrite <- app_assoc. split; [done|]. split; [apply Forall_app; split; [done|by constructor]|].
    split; [by destruct ds|]. rewrite digits_value_app by done. rewrite H3. cbn [digits_value]. rewrite Hd. lia.
Qed.

Lemma to_string_digits v : 0 <= v < 2 ^ 31 -> digits (to_string v) /\ to_string v <> [] /\ digits_value 0 (to_string v) = v.
Proof.
  intros Hv. unfold to_string. rewrite (proj2 (Z.ltb_ge v 0)) by lia.
  destruct (digits_of_spec 10 v [] ltac:(lia) ltac:(lia)) as (ds & -> & H1 & H2 & H3). by rewrite app_nil_r.
Qed.

(** A digit is neither blank nor sign. *)
Lemma digit_plain c : isdigit c = true -> isspace c = false /\ byte_eqb c "-"%char = false /\ byte_eqb c "+"%char = false.
Proof.
  intros H. split_and!; [|apply byte_eqb_neq; by intros ->|apply byte_eqb_neq; by intros ->]. unfold isspace, isdigit, in_range in *. apply andb_true_iff in H as [H1 H2]. apply Z.leb_le in H1, H2.
  apply orb_false_iff; split; [apply Z.eqb_neq; lia|apply andb_false_iff; right; apply Z.leb_gt; lia].
Qed.

Lemma atoi_digits s t : digits s -> s <> [] -> match t with c :: _ => isdigit c = false | [] => True end ->
  atoi (s ++ t) = i32 (digits_value 0 s).
Proof.
  intros Hs Hne Ht. destruct s as [|c s]; [done|]. pose proof (Forall_inv Hs) as Hc. destruct (digit_plain c Hc) as (H1 & H2 & H3).
  cbn [atoi app]. rewrite H1, H2, H3. change (c :: s ++ t) with ((c :: s) ++ t). rewrite (digits_value_app (c :: s) t 0 Hs). f_equal.
  destruct t as [|d t]; [done|]. simpl. by rewrite Ht.
Qed.

Lemma i32_small v : - 2 ^ 31 <= v < 2 ^ 31 -> i32 v = v.
Proof. intros H. unfold i32. rewrite Z.mod_small by lia. lia. Qed.

(** What follows the number may be anything but a digit. *)
Lemma atoi_to_string v t : 0 <= v < 2 ^ 31 -> match t with c :: _ => isdigit c = false | [] => True end -> atoi (to_string v ++ t) = v.
Proof. intros Hv Ht. destruct (to_string_digits v Hv) as (H1 & H2 & H3). rewrite atoi_digits, H3 by done. by apply i32_small; lia. Qed.
