(* ===== verification/Utf8.v ===== *)
(** UTF-8 and UTF-16 columns: [include/madcdis/text_utf16.h] and the encoder of
    [src/lexer.cpp] ([append_utf8_codepoint]).

    A line of text is its bytes; a byte index is a [nat], a UTF-16 column a [Z]
    (the C++ [long]), a code point a [Z] (a [uint32_t]). *)
From Stdlib Require Import Sorted.
From S2P Require Import Prelude.
#[local] Open Scope Z_scope.

(** ** The codec *)

(** [utf8_seq_len]: the number of bytes a lead byte begins. *)
Definition utf8_seq_len (lead : ascii) : nat :=
  if code lead <? 0x80 then 1%nat
  else if code lead <? 0xC0 then 1%nat
  else if code lead <? 0xE0 then 2%nat
  else if code lead <? 0xF0 then 3%nat
  else 4%nat.

(** The loop of [utf8_decode_at] over the continuation bytes; [None] is its
    early return on a byte that is not one. *)
Fixpoint decode_tail (cs : bytes) (v : Z) : option Z :=
  match cs with
  | [] => Some v
  | c :: r =>
      if negb (Z.land (code c) 0xC0 =? 0x80) then None
      else decode_tail r (u32 (Z.lor (Z.shiftl v 6) (Z.land (code c) 0x3F)))
  end.

(** [utf8_decode_at]: the bytes the code point at [i] spans, and the code
    point. *)
Definition utf8_decode_at (t : bytes) (i : nat) : nat * Z :=
  let b := code (at_ t i) in
  let n := utf8_seq_len (at_ t i) in
  if (n =? 1)%nat || (length t <? i + n)%nat then (1%nat, b)
  else
    let v := if (n =? 2)%nat then Z.land b 0x1F
             else if (n =? 3)%nat then Z.land b 0x0F
             else Z.land b 0x07 in
    match decode_tail (substr t (i + 1) (n - 1)) v with
    | None => (1%nat, b)
    | Some cp => (n, cp)
    end.

(** [append_utf8_codepoint]: the bytes it appends for [cp]. *)
Definition append_utf8_codepoint (out : bytes) (cp : Z) : bytes :=
  if cp <? 0x80 then out ++ [to_byte cp]
  else if cp <? 0x800 then
    out ++ [to_byte (Z.lor 0xC0 (Z.shiftr cp 6));
            to_byte (Z.lor 0x80 (Z.land cp 0x3F))]
  else if cp <? 0x10000 then
    out ++ [to_byte (Z.lor 0xE0 (Z.shiftr cp 12));
            to_byte (Z.lor 0x80 (Z.land (Z.shiftr cp 6) 0x3F));
            to_byte (Z.lor 0x80 (Z.land cp 0x3F))]
  else
    out ++ [to_byte (Z.lor 0xF0 (Z.shiftr cp 18));
            to_byte (Z.lor 0x80 (Z.land (Z.shiftr cp 12) 0x3F));
            to_byte (Z.lor 0x80 (Z.land (Z.shiftr cp 6) 0x3F));
            to_byte (Z.lor 0x80 (Z.land cp 0x3F))].

(** ** UTF-16 columns *)

(** The step both column scans take at byte [i]: the sequence length, clipped
    to the line, and the UTF-16 units it counts ([n == 4 ? 2 : 1]). *)
Definition col_step (t : bytes) (i : nat) : nat :=
  let n := utf8_seq_len (at_ t i) in
  if (length t <? i + n)%nat then (length t - i)%nat else n.
Definition col_units (n : nat) : Z := if (n =? 4)%nat then 2 else 1.

(** [col16_to_byte]: the loop state is [(i, units)]. *)
Definition col16_to_byte_body (t : bytes) (col16 : Z) (s : nat * Z) : nat * Z + nat :=
  let '(i, units) := s in
  if (i <? length t)%nat && (units <? col16) then
    let n := col_step t i in
    let units' := units + col_units n in
    if col16 <? units' then inr i else inl ((i + n)%nat, units')
  else inr i.

Definition col16_to_byte (t : bytes) (col16 : Z) : nat :=
  if col16 <=? 0 then 0%nat
  else default 0%nat (loop (S (length t)) (col16_to_byte_body t col16) (0%nat, 0)).

(** [col16_of_byte]. *)
Definition col16_of_byte_body (t : bytes) (bytecol : nat) (s : nat * Z) : nat * Z + Z :=
  let '(i, units) := s in
  if (i <? bytecol)%nat then
    let n := col_step t i in
    if (bytecol <? i + n)%nat then inr units
    else inl ((i + n)%nat, units + col_units n)
  else inr units.

Definition col16_of_byte (t : bytes) (bytecol : nat) : Z :=
  let bytecol := if (length t <? bytecol)%nat then length t else bytecol in
  default 0 (loop (S (length t)) (col16_of_byte_body t bytecol) (0%nat, 0)).

(** ** Display columns *)

(** The table of [codepoint_columns]. *)
Definition wide : list (Z * Z) :=
  [ (0x1100, 0x115F); (0x2329, 0x232A); (0x2E80, 0x303E);
    (0x3040, 0xA4CF); (0xAC00, 0xD7A3); (0xF900, 0xFAFF);
    (0xFE10, 0xFE19); (0xFE30, 0xFE6F); (0xFF00, 0xFF60);
    (0xFFE0, 0xFFE6); (0x1F300, 0x1F64F); (0x1F900, 0x1F9FF);
    (0x20000, 0x2FFFD); (0x30000, 0x3FFFD) ].

Definition codepoint_columns (cp : Z) : nat :=
  if existsb (fun r => (r.1 <=? cp) && (cp <=? r.2)) wide then 2%nat else 1%nat.

(** ** One line's layout *)

(** The state of [line_layout]'s loop: the byte index, the display column, the
    bytes shown, and the two tables it fills. *)
Record layout := Layout {
  l_i : nat;
  l_c : nat;
  l_shown : bytes;
  l_col : list nat;
  l_shown_at : list nat
}.

Definition layout_init (line : bytes) (origin : nat) : layout :=
  Layout 0 origin [] (replicate (length line + 1) 0%nat) (replicate (length line + 1) 0%nat).

(** [t[from], .., t[from + n - 1] := x]. *)
Fixpoint fill (t : list nat) (from n x : nat) : list nat :=
  match n with
  | O => t
  | S m => fill (<[from := x]> t) (S from) m x
  end.

Definition layout_body (line : bytes) (tabw : nat) (s : layout) : layout + layout :=
  let '(Layout i c shown col shown_at) := s in
  if (i <? length line)%nat then
    let b := code (at_ line i) in
    let col1 := <[i := c]> col in
    let shown_at1 := <[i := length shown]> shown_at in
    if b =? 9 then
      let next := ((c / tabw + 1) * tabw)%nat in
      inl (Layout (S i) next (shown ++ replicate (next - c) c_sp) col1 shown_at1)
    else if (b <? 0x20) || (b =? 0x7f) then
      inl (Layout (S i) (c + 2)%nat
             (shown ++ ["^"%char; to_byte (if b =? 0x7f then 63 else b + 0x40)]) col1 shown_at1)
    else
      let '(n, cp) := utf8_decode_at line i in
      inl (Layout (i + n)%nat (c + codepoint_columns cp)%nat
             (shown ++ substr line i n)
             (fill col1 (S i) (n - 1) c)
             (fill shown_at1 (S i) (n - 1) (length shown)))
  else
    inr (Layout i c shown (<[length line := c]> col)
           (<[length line := length shown]> shown_at)).

(** [line_layout]: the shown bytes, [col] and [shown_at]. *)
Definition line_layout (line : bytes) (origin tabw : nat) : bytes * list nat * list nat :=
  let tabw := if (tabw <? 1)%nat then 8%nat else tabw in
  let s := default (layout_init line origin)
             (loop (S (length line)) (layout_body line tabw) (layout_init line origin)) in
  (l_shown s, l_col s, l_shown_at s).

(** [line_width]: [col.back()] of the layout from column 0 (tab stops of 8). *)
Definition line_width (s : bytes) : nat :=
  let '(_, col, _) := line_layout s 0 8 in List.last col 0%nat.

(** [line_columns]: the loop state is [(i, c, out)]. *)
Definition line_columns_body (shown : bytes) (from to : nat) (s : nat * nat * bytes)
    : nat * nat * bytes + bytes :=
  let '(i, c, out) := s in
  if (i <? length shown)%nat && (c <? to)%nat then
    let '(n, cp) := utf8_decode_at shown i in
    let w := codepoint_columns cp in
    let out' :=
      if (from <=? c)%nat && (c + w <=? to)%nat then out ++ substr shown i n
      else out ++ replicate (length (filter (fun k => (from <= k < to)%nat) (seq c w))) c_sp in
    inl ((i + n)%nat, (c + w)%nat, out')
  else inr out.

Definition line_columns (shown : bytes) (from width : nat) : bytes :=
  default [] (loop (S (length shown)) (line_columns_body shown from (from + width)) (0%nat, 0%nat, [])).

Example col16_ex : (* "a", U+1F600 (a surrogate pair), "b" *)
  let t := append_utf8_codepoint (B "a") 0x1F600 ++ B "b" in
  map (col16_to_byte t) [0; 1; 2; 3; 4; 9] = [0; 1; 1; 5; 6; 6]%nat
  /\ map (col16_of_byte t) [0; 1; 3; 5; 6]%nat = [0; 1; 1; 3; 4].
Proof. split; vm_compute; reflexivity. Qed.
Example layout_ex :
  line_layout (B "a" ++ [c_tab; to_byte 1] ++ append_utf8_codepoint [] 0x4E00) 0 8
  = (B "a       ^A" ++ append_utf8_codepoint [] 0x4E00, [0; 1; 8; 10; 10; 10; 12]%nat, [0;1;8;10;10;10;13]%nat).
Proof. vm_compute. reflexivity. Qed.

(** ** The codec's theorems *)

(** Arithmetic over quotients and remainders by constants. *)
Ltac dm_lia := Z.div_mod_to_equations; lia.

Lemma utf8_seq_len_range c : (1 <= utf8_seq_len c <= 4)%nat.
Proof. unfold utf8_seq_len. repeat case_if; lia. Qed.

Lemma decode_tail_cons c r v y :
  code c = 128 + y -> 0 <= y < 64 -> 0 <= v < 2 ^ 26 ->
  decode_tail (c :: r) v = decode_tail r (v * 64 + y).
Proof.
  intros Hc Hy Hv. simpl. rewrite Hc.
  assert (Z.land (128 + y) 0xC0 = 0x80) as ->.
  { apply Z.eqb_eq. by apply (Z_forall_below 64 (fun y => Z.land (128 + y) 0xC0 =? 0x80)). }
  simpl. change 0x3F with (Z.ones 6). rewrite Z.land_ones by lia.
  rewrite Z.shiftl_mul_pow2 by lia.
  replace ((128 + y) mod 2 ^ 6) with y by dm_lia.
  rewrite Z_lor_add by lia. by rewrite u32_small by lia.
Qed.

Lemma decode_tail_bound cs v r :
  0 <= v < 2 ^ 32 -> decode_tail cs v = Some r -> 0 <= r < 2 ^ 32.
Proof.
  revert v. induction cs as [|c cs IH]; simpl; intros v Hv; [by intros [= <-]|].
  case_if; [done|]. apply IH, u32_range.
Qed.

(** A scan by [utf8_decode_at] advances and stays inside the line. *)
Lemma utf8_decode_at_step t i :
  (i < length t)%nat -> let '(n, cp) := utf8_decode_at t i in
  (1 <= n)%nat /\ (i + n <= length t)%nat /\ 0 <= cp < 2 ^ 32.
Proof.
  intros Hi. unfold utf8_decode_at. pose proof (code_range (at_ t i)).
  pose proof (utf8_seq_len_range (at_ t i)).
  destruct ((_ =? 1)%nat || _) eqn:E; [split_and!; lia|]. reflect_bool.
  match goal with |- context [decode_tail ?cs ?v] =>
    assert (0 <= v < 2 ^ 32); [|destruct (decode_tail cs v) eqn:Hd] end.
  - change 0x1F with (Z.ones 5). change 0x0F with (Z.ones 4). change 0x07 with (Z.ones 3).
    rewrite !Z.land_ones by lia. repeat case_if; dm_lia.
  - apply decode_tail_bound in Hd; [|done]. split_and!; lia.
  - split_and!; lia.
Qed.

(** The bytes [append_utf8_codepoint] writes, as arithmetic. *)
Definition cont_byte (x : Z) : ascii := to_byte (128 + x mod 64).

Lemma append_utf8_arith out cp :
  0 <= cp < 2 ^ 21 ->
  append_utf8_codepoint out cp = out ++
    (if cp <? 0x80 then [to_byte cp]
     else if cp <? 0x800 then [to_byte (192 + cp / 64); cont_byte cp]
     else if cp <? 0x10000 then [to_byte (224 + cp / 4096); cont_byte (cp / 64); cont_byte cp]
     else [to_byte (240 + cp / 262144); cont_byte (cp / 4096); cont_byte (cp / 64); cont_byte cp]).
Proof.
  intros Hcp. unfold append_utf8_codepoint, cont_byte. change 0x3F with (Z.ones 6).
  rewrite !Z.land_ones, !Z.shiftr_div_pow2 by lia.
  change 0xC0 with (3 * 2 ^ 6). change 0xE0 with (14 * 2 ^ 4).
  change 0xF0 with (30 * 2 ^ 3). change 0x80 with (2 * 2 ^ 6).
  repeat case_if; reflect_bool.
  all: repeat (rewrite Z_lor_add; [|lia|first
    [ apply Z.mod_pos_bound; lia
    | split; [apply Z.div_pos; lia|apply Z.div_lt_upper_bound; lia] ]]).
  all: done.
Qed.

Lemma code_cont_byte x : code (cont_byte x) = 128 + x mod 64.
Proof. apply code_to_byte_small. dm_lia. Qed.

(** How the decoder reads one well-formed sequence off the head of a text. *)
Lemma decode_head pre lead conts post n v cp :
  utf8_seq_len lead = n -> (2 <= n)%nat -> length conts = (n - 1)%nat ->
  (if (n =? 2)%nat then Z.land (code lead) 0x1F
   else if (n =? 3)%nat then Z.land (code lead) 0x0F else Z.land (code lead) 0x07) = v ->
  decode_tail conts v = Some cp ->
  utf8_decode_at (pre ++ (lead :: conts) ++ post) (length pre) = (n, cp).
Proof.
  intros Hn H2 Hlen Hv Hd. unfold utf8_decode_at.
  assert (at_ (pre ++ (lead :: conts) ++ post) (length pre) = lead) as ->.
  { unfold at_. rewrite app_nth2 by lia. by rewrite Nat.sub_diag. }
  rewrite Hn. case_if; [len_lia|].
  rewrite Hv. unfold substr.
  replace (length pre + 1)%nat with (length (pre ++ [lead])) by (autorewrite with len; simpl; lia).
  replace (pre ++ (lead :: conts) ++ post) with ((pre ++ [lead]) ++ conts ++ post)
    by (by rewrite <- app_assoc).
  rewrite drop_app_length, <- Hlen, take_app_length. by rewrite Hd.
Qed.

(** The length a written lead byte announces, and the value its tail restores. *)
Ltac solve_seq_len :=
  unfold utf8_seq_len; rewrite code_to_byte_small by dm_lia; repeat case_if; reflect_bool; dm_lia.
Ltac solve_tail :=
  simpl Nat.eqb; cbv iota;
  change 0x1F with (Z.ones 5); change 0x0F with (Z.ones 4); change 0x07 with (Z.ones 3);
  rewrite Z.land_ones by lia;
  repeat (erewrite decode_tail_cons; [|apply code_cont_byte|apply Z.mod_pos_bound; lia|dm_lia]);
  simpl decode_tail; f_equal; dm_lia.

(** C16: Reading back what [append_utf8_codepoint] wrote gives the code point it
    was given and exactly the bytes it wrote, wherever the sequence stands in a
    text and whatever surrounds it, for every 21-bit value. *)
Theorem utf8_encode_decode pre post cp :
  0 <= cp < 2 ^ 21 ->
  utf8_decode_at (append_utf8_codepoint pre cp ++ post) (length pre)
  = ((length (append_utf8_codepoint pre cp) - length pre)%nat, cp).
Proof.
  intros Hcp. rewrite append_utf8_arith by done.
  rewrite length_app, Nat.add_comm, Nat.add_sub.
  repeat case_if; reflect_bool; rewrite <- app_assoc.
  - unfold utf8_decode_at. simpl.
    assert (at_ (pre ++ to_byte cp :: post) (length pre) = to_byte cp) as ->.
    { unfold at_. rewrite app_nth2 by lia. by rewrite Nat.sub_diag. }
    rewrite code_to_byte_small by lia.
    assert (utf8_seq_len (to_byte cp) = 1%nat) as -> by solve_seq_len. done.
  - eapply (decode_head _ _ _ _ 2); [by solve_seq_len|lia|done|reflexivity|].
    rewrite code_to_byte_small by dm_lia. solve_tail.
  - eapply (decode_head _ _ _ _ 3); [by solve_seq_len|lia|done|reflexivity|].
    rewrite code_to_byte_small by dm_lia. solve_tail.
  - eapply (decode_head _ _ _ _ 4); [by solve_seq_len|lia|done|reflexivity|].
    rewrite code_to_byte_small by dm_lia. solve_tail.
Qed.

(** ** UTF-16 columns: the two maps are the two halves of one correspondence *)

(** One step of a scan: from a boundary to the next one, with its units. *)
Definition bstep (t : bytes) (s s' : nat * Z) : Prop :=
  (s.1 < length t)%nat /\ s' = ((s.1 + col_step t s.1)%nat, s.2 + col_units (col_step t s.1)).

(** [i] is a code-point boundary of [t], [u] UTF-16 units from its start. *)
Definition boundary (t : bytes) (i : nat) (u : Z) : Prop := rtc (bstep t) (0%nat, 0) (i, u).

Lemma col_step_range t i : (i < length t)%nat -> (1 <= col_step t i)%nat /\ (i + col_step t i <= length t)%nat.
Proof.
  intros Hi. pose proof (utf8_seq_len_range (at_ t i)). unfold col_step.
  case_if; reflect_bool; lia.
Qed.

Lemma col_units_range n : 1 <= col_units n <= 2.
Proof. unfold col_units. case_if; lia. Qed.

Lemma bstep_mono t s s' : rtc (bstep t) s s' -> (s.1 <= s'.1)%nat /\ s.2 <= s'.2.
Proof.
  induction 1 as [|s s1 s' [Hi ->] _ IH]; [lia|]. simpl in *.
  pose proof (col_step_range t s.1 Hi). pose proof (col_units_range (col_step t s.1)). lia.
Qed.

Lemma boundary_le t i u : boundary t i u -> (i <= length t)%nat.
Proof.
  intros H. unfold boundary in H. apply rtc_inv_r in H as [[= <- <-]|[s [_ [Hs [= -> ->]]]]]; [lia|].
  by apply col_step_range.
Qed.

(** Two boundaries are the same, or one is at least a whole step further. *)
Lemma boundary_order t i u j v :
  boundary t i u -> boundary t j v ->
  (j <= i)%nat /\ v <= u \/
  (i < length t)%nat /\ (i + col_step t i <= j)%nat /\ u + col_units (col_step t i) <= v.
Proof.
  intros Hi Hj. destruct (rtc_functional_total (bstep t) _ _ _ ltac:(by intros ??? [_ ->] [_ ->]) Hi Hj)
    as [H|H].
  - inversion H as [|? s ? [Hlt ->] H']; subst; [left; simpl; lia|].
    right. apply bstep_mono in H'. simpl in *. lia.
  - left. by apply bstep_mono in H.
Qed.

(** What a scan of a line finds: the last boundary that satisfies [P], a
    property that holds up to some point of the line only. *)
Definition last_boundary (t : bytes) (P : nat -> Z -> Prop) (i : nat) (u : Z) : Prop :=
  boundary t i u /\ P i u /\ forall j v, boundary t j v -> P j v -> (j <= i)%nat /\ v <= u.

Lemma col16_to_byte_scan t col :
  0 <= col -> exists u, last_boundary t (fun _ v => v <= col) (col16_to_byte t col) u.
Proof.
  intros Hcol. unfold col16_to_byte. destruct (col <=? 0) eqn:E; reflect_bool.
  { exists 0. split_and!; [apply rtc_refl|lia|]. intros j v Hj Hv.
    destruct (boundary_order t 0 0 j v (rtc_refl _ _) Hj) as [?|(_ & _ & ?)]; [lia|].
    pose proof (col_units_range (col_step t 0)). lia. }
  edestruct (loop_total (fun s => boundary t s.1 s.2 /\ s.2 <= col)
    (fun i => exists u, last_boundary t (fun _ v => v <= col) i u)
    (fun s => length t - s.1)%nat (col16_to_byte_body t col)) as (r & -> & Hr).
  - intros [i u] [Hb Hu]; simpl in *. unfold col16_to_byte_body.
    assert (Hlast : (length t <= i)%nat \/ col < u + col_units (col_step t i) ->
      last_boundary t (fun _ v => v <= col) i u).
    { intros Hd. split_and!; [done|done|]. intros j v Hj Hv.
      destruct (boundary_order t i u j v Hb Hj) as [?|?]; [lia|].
      pose proof (boundary_le _ _ _ Hj). lia. }
    pose proof (col_units_range (col_step t i)).
    destruct (_ && _) eqn:E1; [|exists u; apply Hlast; split_bool; lia].
    reflect_bool. case_if; reflect_bool; [exists u; apply Hlast; lia|].
    pose proof (col_step_range t i ltac:(lia)). split_and!; [|simpl; lia|simpl; lia].
    eapply rtc_r; [exact Hb|]. split; [simpl; lia|done].
  - split; [apply rtc_refl|simpl; lia].
  - simpl. lia.
  - done.
Qed.

Lemma col16_of_byte_scan t k :
  exists i, last_boundary t (fun j _ => (j <= k)%nat) i (col16_of_byte t k).
Proof.
  unfold col16_of_byte. set (k' := if (length t <? k)%nat then length t else k).
  assert (Hk' : (k' <= length t)%nat) by (unfold k'; case_if; reflect_bool; lia).
  assert (Hkk : forall j v, boundary t j v -> (j <= k <-> j <= k')%nat).
  { intros j v Hj. apply boundary_le in Hj. unfold k'. case_if; reflect_bool; lia. }
  edestruct (loop_total (fun s => boundary t s.1 s.2 /\ (s.1 <= k')%nat)
    (fun u => exists i, last_boundary t (fun j _ => (j <= k)%nat) i u)
    (fun s => length t - s.1)%nat (col16_of_byte_body t k')) as (r & -> & Hr).
  - intros [i u] [Hb Hi]; simpl in *. unfold col16_of_byte_body.
    assert (Hlast : (k' <= i)%nat \/ (k' < i + col_step t i)%nat ->
      last_boundary t (fun j _ => (j <= k)%nat) i u).
    { intros Hd. split_and!; [done|by eapply Hkk|]. intros j v Hj Hv. eapply Hkk in Hv; [|done].
      destruct (boundary_order t i u j v Hb Hj) as [?|[Hlt ?]]; [lia|].
      pose proof (col_step_range t i Hlt). lia. }
    case_if; [|exists i; apply Hlast; split_bool; lia].
    reflect_bool. case_if; reflect_bool; [exists i; apply Hlast; lia|].
    pose proof (col_step_range t i ltac:(lia)). split_and!; [|simpl; lia|simpl; lia].
    eapply rtc_r; [exact Hb|]. split; [simpl; lia|done].
  - split; [apply rtc_refl|simpl; lia].
  - simpl. lia.
  - done.
Qed.

(** A UTF-16 column maps to the last code-point boundary at or before it
    (a column inside a surrogate pair snaps to the pair's start, one past the
    end to the line's end), and a byte index to the column of the last
    boundary at or before it. *)
Theorem col16_maps_to_last_boundary t col k :
  0 <= col ->
  (exists u, last_boundary t (fun _ v => v <= col) (col16_to_byte t col) u) /\
  (exists i, last_boundary t (fun j _ => (j <= k)%nat) i (col16_of_byte t k)).
Proof. intros Hcol. split; [by apply col16_to_byte_scan|apply col16_of_byte_scan]. Qed.

Lemma boundary_inj t i u j v :
  boundary t i u -> boundary t j v -> i = j \/ u = v -> i = j /\ u = v.
Proof.
  intros Hi Hj Heq.
  destruct (boundary_order t i u j v Hi Hj) as [?|(H1 & H2 & H3)];
  destruct (boundary_order t j v i u Hj Hi) as [?|(H1' & H2' & H3')].
  all: try pose proof (col_step_range t i H1); try pose proof (col_step_range t j H1').
  all: pose proof (col_units_range (col_step t i)); pose proof (col_units_range (col_step t j)); lia.
Qed.

(** On the boundaries of a line the two maps are inverse to one another. *)
Theorem col16_roundtrip t i u :
  boundary t i u -> col16_of_byte t i = u /\ col16_to_byte t u = i.
Proof.
  intros Hb. pose proof (bstep_mono t _ _ Hb) as [_ Hu]. simpl in Hu. split.
  - destruct (col16_of_byte_scan t i) as (j & Hj & Hle & Hmax).
    destruct (Hmax i u Hb ltac:(lia)). symmetry. eapply boundary_inj; [exact Hb|exact Hj|lia].
  - destruct (col16_to_byte_scan t u Hu) as (v & Hj & Hle & Hmax).
    destruct (Hmax i u Hb ltac:(lia)). symmetry. eapply boundary_inj; [exact Hb|exact Hj|lia].
Qed.

(** ** One line's layout *)

(** A table filled so far up to [i], with the value [c] due next: it starts at
    [o] and never decreases. *)
Definition filled (t : list nat) (i o c : nat) : Prop :=
  StronglySorted le (take i t ++ [c]) /\ head (take i t ++ [c]) = Some o.

Lemma length_fill t from n x : length (fill t from n x) = length t.
Proof.
  revert t from. induction n as [|n IH]; intros t from; simpl; [done|].
  by rewrite IH, length_insert.
Qed.

Lemma take_fill t from n x :
  (from + n <= length t)%nat -> take (from + n) (fill t from n x) = take from t ++ replicate n x.
Proof.
  revert t from. induction n as [|n IH]; intros t from Hlen; simpl.
  { by rewrite Nat.add_0_r, app_nil_r. }
  replace (from + S n)%nat with (S from + n)%nat by lia.
  rewrite IH by (rewrite length_insert; lia).
  rewrite (take_S_r _ from x) by (apply list_lookup_insert_eq; lia).
  rewrite take_insert_ge by lia. by rewrite <- app_assoc.
Qed.

Lemma StronglySorted_repeat l c n c' :
  StronglySorted le (l ++ [c]) -> (c <= c')%nat -> StronglySorted le (l ++ replicate n c ++ [c']).
Proof.
  intros H Hc. induction l as [|a l IH]; simpl in *.
  - induction n as [|n IHn]; simpl; [repeat constructor|]. constructor; [done|].
    apply Forall_app. split; [|by repeat constructor].
    apply Forall_replicate. lia.
  - inversion H as [|? ? H1 H2]; subst. constructor; [by apply IH|].
    apply Forall_app in H2 as [Ha Hb]. inversion Hb; subst.
    repeat (apply Forall_app; split); [done|by apply Forall_replicate|].
    repeat constructor. lia.
Qed.

Lemma filled_step t i o c n c' :
  filled t i o c -> (i + S n <= length t)%nat -> (c <= c')%nat ->
  filled (fill t i (S n) c) (i + S n) o c'.
Proof.
  intros [Hs Hh] Hlen Hc. unfold filled. rewrite take_fill, <- app_assoc by done.
  split; [by apply StronglySorted_repeat|]. by destruct (take i t).
Qed.

(** A byte a terminal prints: not one of the control codes. *)
Definition printable (c : ascii) : Prop := 0x20 <= code c /\ code c <> 0x7f.

Record layout_inv (line : bytes) (origin : nat) (s : layout) : Prop := {
  li_i : (l_i s <= length line)%nat;
  li_len : length (l_col s) = S (length line) /\ length (l_shown_at s) = S (length line);
  li_col : filled (l_col s) (l_i s) origin (l_c s);
  li_shown_at : filled (l_shown_at s) (l_i s) 0 (length (l_shown s));
  li_shown : Forall printable (l_shown s)
}.

(** What every branch of the loop does to the state: [S n] bytes consumed, the
    tables filled for them, the column and the shown bytes only growing. *)
Lemma layout_inv_step line origin i c shown col shown_at n c' more :
  layout_inv line origin (Layout i c shown col shown_at) ->
  (i + S n <= length line)%nat -> (c <= c')%nat -> Forall printable more ->
  layout_inv line origin (Layout (i + S n) c' (shown ++ more) (fill col i (S n) c)
                            (fill shown_at i (S n) (length shown))).
Proof.
  intros [Hi [Hl1 Hl2] Hc Hs Hp] Hn Hcc Hm. simpl in *. split; simpl.
  - lia.
  - by rewrite !length_fill, !length_insert.
  - by apply (filled_step col i origin c n c'); [|lia|].
  - apply (filled_step shown_at i 0 (length shown) n); [done|lia|].
    rewrite length_app. lia.
  - by apply Forall_app.
Qed.

(** The bytes of one decoded glyph: none is a control byte if its first is not. *)
Lemma decode_tail_conts cs v cp c :
  decode_tail cs v = Some cp -> c ∈ cs -> 128 <= code c < 192.
Proof.
  revert v. induction cs as [|d cs IH]; simpl; intros v.
  - intros _ H. by apply not_elem_of_nil in H.
  - case_if; [done|]. reflect_bool. intros Hd [->|Hin]%elem_of_cons; [|by eapply IH].
    assert (H : implb (Z.land (code d) 0xC0 =? 0x80) ((128 <=? code d) && (code d <? 192)) = true).
    { apply (Z_forall_below 256 (fun z => implb (Z.land z 0xC0 =? 0x80) ((128 <=? z) && (z <? 192))));
        [done|apply code_range]. }
    rewrite (proj2 (Z.eqb_eq _ _) ltac:(eassumption)) in H. simpl in H. reflect_bool. lia.
Qed.

Lemma glyph_printable line i n cp :
  (i < length line)%nat -> utf8_decode_at line i = (n, cp) ->
  printable (at_ line i) -> Forall printable (substr line i n).
Proof.
  intros Hi Hd Hp. unfold substr. rewrite drop_at by done.
  destruct n as [|n]; simpl; [constructor|]. constructor; [done|].
  apply Forall_forall. intros c Hc. unfold utf8_decode_at in Hd.
  destruct ((_ =? 1)%nat || _).
  { injection Hd as <- _. simpl in Hc. by apply not_elem_of_nil in Hc. }
  destruct (decode_tail _ _) eqn:Ht.
  - injection Hd as Hn _. unfold substr in Ht.
    replace (utf8_seq_len (at_ line i) - 1)%nat with n in Ht by lia.
    replace (i + 1)%nat with (S i) in Ht by lia.
    pose proof (decode_tail_conts _ _ _ _ Ht Hc). unfold printable. lia.
  - injection Hd as <- _. simpl in Hc. by apply not_elem_of_nil in Hc.
Qed.

Lemma layout_inv_body line origin tabw s :
  (1 <= tabw)%nat -> layout_inv line origin s -> (l_i s < length line)%nat ->
  exists s', layout_body line tabw s = inl s' /\ layout_inv line origin s' /\ (l_i s < l_i s')%nat.
Proof.
  intros Htab HI Hi. destruct s as [i c shown col shown_at]. simpl in Hi. unfold layout_body.
  rewrite (proj2 (Nat.ltb_lt _ _) Hi).
  pose proof (code_range (at_ line i)) as Hb. set (b := code (at_ line i)) in *.
  destruct (b =? 9) eqn:E9; reflect_bool.
  { eexists. split; [done|]. rewrite <- (Nat.add_1_r i). split; [|simpl; lia].
    apply (layout_inv_step line origin i c shown col shown_at 0); [done|lia| |].
    - pose proof (Nat.div_mod_eq c tabw). pose proof (Nat.mod_upper_bound c tabw). nia.
    - apply Forall_replicate. by vm_compute. }
  destruct (_ || _) eqn:Ec.
  { eexists. split; [done|]. rewrite <- (Nat.add_1_r i). split; [|simpl; lia].
    apply (layout_inv_step line origin i c shown col shown_at 0); [done|lia|lia|].
    repeat constructor; [by vm_compute|by vm_compute| |].
    all: rewrite code_to_byte_small by (case_if; split_bool; lia).
    all: case_if; split_bool; lia. }
  pose proof (utf8_decode_at_step line i Hi) as Hd.
  destruct (utf8_decode_at line i) as [n cp] eqn:Hdec. destruct Hd as (H1 & Hn & _).
  eexists. split; [done|]. split; [|simpl; lia].
  destruct n as [|n]; [lia|]. rewrite Nat.sub_succ, Nat.sub_0_r.
  apply (layout_inv_step line origin i c shown col shown_at n); [done|lia|lia|].
  eapply glyph_printable; [done|done|]. unfold printable. fold b. reflect_bool. lia.
Qed.

(** Laying a line out always ends; the column table starts at the origin
    and never decreases, the shown-offset table starts at 0, never decreases
    and ends at the number of bytes shown, both have one entry per byte and
    one for the end, and no control byte is ever written to the screen. *)
Theorem line_layout_sound line origin tabw :
  let '(shown, col, shown_at) := line_layout line origin tabw in
  length col = S (length line) /\ length shown_at = S (length line) /\
  StronglySorted le col /\ head col = Some origin /\
  StronglySorted le shown_at /\ head shown_at = Some 0%nat /\
  last shown_at = Some (length shown) /\ Forall printable shown.
Proof.
  unfold line_layout. set (tw := if (tabw <? 1)%nat then 8%nat else tabw).
  assert (Htw : (1 <= tw)%nat) by (unfold tw; case_if; reflect_bool; lia).
  edestruct (loop_total (layout_inv line origin)
    (fun s => exists s0, layout_inv line origin s0 /\ l_i s0 = length line /\ layout_body line tw s0 = inr s)
    (fun s => length line - l_i s)%nat (layout_body line tw)) as (r & -> & s0 & HI & Hi & Hr).
  - intros s HI. destruct (Nat.lt_ge_cases (l_i s) (length line)) as [Hlt|Hge].
    + destruct (layout_inv_body line origin tw s Htw HI Hlt) as (s' & -> & HI' & Hlt').
      split; [done|]. pose proof (li_i _ _ _ HI'). lia.
    + pose proof (li_i _ _ _ HI). destruct (layout_body line tw s) eqn:Hb.
      * destruct s. unfold layout_body in Hb. simpl in *. by case_if_in Hb; reflect_bool; [lia|].
      * exists s. split_and!; [done|lia|done].
  - split; simpl; [lia| |by repeat constructor|by repeat constructor|constructor].
    rewrite !length_replicate. lia.
  - simpl. lia.
  - destruct s0 as [i c shown col shown_at], HI as [_ [Hl1 Hl2] [Hc1 Hc2] [Hs1 Hs2] Hp].
    simpl in *. subst i. rewrite Nat.ltb_irrefl in Hr. injection Hr as <-. simpl.
    rewrite !insert_take_drop, !drop_ge by lia.
    autorewrite with len. rewrite last_snoc. simpl. split_and!; done || lia.
Qed.

(** ** Witnesses *)
Lemma utf8_encode_decode_witness :
  utf8_decode_at (append_utf8_codepoint (B "ab") 0x20AC ++ B "c") 2 = (3%nat, 0x20AC).
Proof. apply (utf8_encode_decode (B "ab") (B "c") 0x20AC). lia. Defined.

Lemma col16_maps_to_last_boundary_witness :
  exists u, last_boundary (append_utf8_codepoint (B "a") 0x1F600) (fun _ v => v <= 2) 1%nat u.
Proof.
  apply (proj1 (col16_maps_to_last_boundary (append_utf8_codepoint (B "a") 0x1F600) 2 0 ltac:(lia))).
Defined.

Lemma col16_roundtrip_witness :
  col16_of_byte (append_utf8_codepoint (B "a") 0x1F600) 5 = 3 /\
  col16_to_byte (append_utf8_codepoint (B "a") 0x1F600) 3 = 5%nat.
Proof.
  apply col16_roundtrip. apply rtc_l with (1%nat, 1); [split; [vm_compute; lia|done]|].
  apply rtc_l with (5%nat, 3); [split; [vm_compute; lia|done]|]. apply rtc_refl.
Defined.
