(* ===== verification/TextBuffer.v ===== *)
(** The piece table: [include/madcdis/text_buffer.h], [class text_buffer].

    The state is the class's own fields, one operation per method.  A
    [std::vector] used as a stack ([_history], [_redo]) is a list whose head is
    the top.  [_nl] and [_nl_dirty] are the [mutable] newline cache, so the line
    queries return the buffer they leave.  The payload a checkpoint carries
    ([madc::value], opaque to the component) is the parameter [meta].

    The abstract specification is [doc]: the text, two stacks of (text,
    payload) and the version.  [op_refines] shows every operation implements it. *)
From Stdlib Require Import Sorted.
From S2P Require Import Prelude.

Record piece := Piece { p_add : bool; p_off : nat; p_len : nat }.

Section TextBuffer.
Context {meta : Type}.

Record history_entry := HistoryEntry {
  h_pieces : list piece;
  h_size : nat;
  h_meta : meta
}.

Record text_buffer := TextBuffer {
  _original : bytes;
  _add : bytes;
  _pieces : list piece;
  _size : nat;
  _nl : list nat;
  _nl_dirty : bool;
  _history : list history_entry;
  _redo : list history_entry;
  _version : Z
}.

Definition text_buffer_new : text_buffer := TextBuffer [] [] [] 0 [] true [] [] 0.

(** [source(p)], and the bytes of it a piece names. *)
Definition source (orig add : bytes) (p : piece) : bytes := if p_add p then add else orig.
Definition piece_text (orig add : bytes) (p : piece) : bytes :=
  substr (source orig add p) (p_off p) (p_len p).

Definition pieces_text (orig add : bytes) (ps : list piece) : bytes :=
  mjoin (map (piece_text orig add) ps).

Definition text (tb : text_buffer) : bytes :=
  pieces_text (_original tb) (_add tb) (_pieces tb).

Definition load (tb : text_buffer) (s : bytes) : text_buffer :=
  TextBuffer s []
    (if bool_decide (s = []) then [] else [Piece false 0 (length s)])
    (length s) (_nl tb) true [] [] (u64 (_version tb + 1)).

(** The loop of [slice]: [off] and [len] move with what was taken. *)
Fixpoint slice_pieces (orig add : bytes) (off len pos : nat) (ps : list piece) : bytes :=
  match ps with
  | [] => []
  | p :: r =>
      if len =? 0 then []
      else if off <? pos + p_len p then
        let skip := if pos <? off then off - pos else 0 in
        let take0 := p_len p - skip in
        let take_ := if len <? take0 then len else take0 in
        substr (source orig add p) (p_off p + skip) take_
        ++ slice_pieces orig add (off + take_) (len - take_) (pos + p_len p) r
      else slice_pieces orig add off len (pos + p_len p) r
  end.

Definition slice (tb : text_buffer) (off len : nat) : bytes :=
  if _size tb <=? off then []
  else
    let len := if _size tb - off <? len then _size tb - off else len in
    slice_pieces (_original tb) (_add tb) off len 0 (_pieces tb).

(** The loop of [insert]: before the piece that starts at [off], inside the
    piece that holds it, or at the end. *)
Fixpoint insert_pieces (np : piece) (off pos : nat) (ps : list piece) : list piece :=
  match ps with
  | [] => [np]
  | p :: r =>
      if off =? pos then np :: p :: r
      else if off <? pos + p_len p then
        let head_len := off - pos in
        Piece (p_add p) (p_off p) head_len :: np
          :: Piece (p_add p) (p_off p + head_len) (p_len p - head_len) :: r
      else p :: insert_pieces np off (pos + p_len p) r
  end.

Definition insert (tb : text_buffer) (off : nat) (s : bytes) : text_buffer :=
  if bool_decide (s = []) then tb
  else
    let off := if _size tb <? off then _size tb else off in
    let np := Piece true (length (_add tb)) (length s) in
    TextBuffer (_original tb) (_add tb ++ s) (insert_pieces np off 0 (_pieces tb))
      (_size tb + length s) (_nl tb) true (_history tb) (_redo tb)
      (u64 (_version tb + 1)).

(** The loop of [erase].  In the interior case [cut] is [len] (the range ends
    inside the piece), so [len - cut] is 0 and the loop stops before the
    tail it inserted. *)
Fixpoint erase_pieces (off len pos : nat) (ps : list piece) : list piece :=
  match ps with
  | [] => []
  | p :: r =>
      if len =? 0 then p :: r
      else
        let pend := pos + p_len p in
        if pend <=? off then p :: erase_pieces off len pend r
        else
          let skip := if pos <? off then off - pos else 0 in
          let cut0 := p_len p - skip in
          let cut := if len <? cut0 then len else cut0 in
          if (skip =? 0) && (cut =? p_len p) then
            erase_pieces off (len - cut) pos r
          else if skip =? 0 then
            Piece (p_add p) (p_off p + cut) (p_len p - cut)
              :: erase_pieces off (len - cut) (pos + (p_len p - cut)) r
          else if skip + cut =? p_len p then
            Piece (p_add p) (p_off p) skip :: erase_pieces off (len - cut) (pos + skip) r
          else
            Piece (p_add p) (p_off p) skip
              :: Piece (p_add p) (p_off p + (skip + cut)) (p_len p - (skip + cut)) :: r
  end.

Definition erase (tb : text_buffer) (off len : nat) : text_buffer :=
  if (_size tb <=? off) || (len =? 0) then tb
  else
    let len := if _size tb - off <? len then _size tb - off else len in
    TextBuffer (_original tb) (_add tb) (erase_pieces off len 0 (_pieces tb))
      (_size tb - len) (_nl tb) true (_history tb) (_redo tb) (u64 (_version tb + 1)).

Definition set_version (tb : text_buffer) (v : Z) : text_buffer :=
  TextBuffer (_original tb) (_add tb) (_pieces tb) (_size tb) (_nl tb) (_nl_dirty tb)
    (_history tb) (_redo tb) v.

Definition replace (tb : text_buffer) (off len : nat) (s : bytes) : text_buffer :=
  let v := _version tb in
  let tb := insert (erase tb off len) off s in
  if (v <? _version tb)%Z then set_version tb (u64 (v + 1)) else tb.

(** ** The newline index and the line queries *)

(** The offsets of the newlines among [n] bytes of [src] from [off], the
    first of them at document offset [pos]. *)
Fixpoint newlines_from (s : bytes) (pos : nat) : list nat :=
  match s with
  | [] => []
  | c :: r => if byte_eqb c c_nl then pos :: newlines_from r (S pos) else newlines_from r (S pos)
  end.

Fixpoint index_pieces (orig add : bytes) (pos : nat) (ps : list piece) : list nat :=
  match ps with
  | [] => []
  | p :: r => newlines_from (piece_text orig add p) pos ++ index_pieces orig add (pos + p_len p) r
  end.

Definition index (tb : text_buffer) : list nat * text_buffer :=
  if _nl_dirty tb then
    let nl := index_pieces (_original tb) (_add tb) 0 (_pieces tb) in
    (nl, TextBuffer (_original tb) (_add tb) (_pieces tb) (_size tb) nl false
           (_history tb) (_redo tb) (_version tb))
  else (_nl tb, tb).

Definition trailing_span (tb : text_buffer) (nl : list nat) : bool :=
  (0 <? _size tb) && match last nl with None => true | Some b => negb (b =? _size tb - 1) end.

Definition line_count (tb : text_buffer) : nat * text_buffer :=
  let '(nl, tb) := index tb in
  (length nl + (if trailing_span tb nl then 1 else 0), tb).

(** [line_span]: [None] is the C++ [false]. *)
Definition line_span (tb : text_buffer) (n : nat) : option (nat * nat) * text_buffer :=
  let '(nl, tb) := index tb in
  if (n =? 0) || (length nl + (if trailing_span tb nl then 1 else 0) <? n) then (None, tb)
  else
    let off := if n =? 1 then 0 else nth (n - 2) nl 0 + 1 in
    let len := (if n - 1 <? length nl then nth (n - 1) nl 0 else _size tb) - off in
    (Some (off, len), tb).

(** [std::lower_bound]: the first position whose element is not below [off]
    (the index is sorted, so a scan finds what the bisection finds). *)
Fixpoint lower_bound (nl : list nat) (off : nat) : nat :=
  match nl with
  | [] => 0
  | x :: r => if x <? off then S (lower_bound r off) else 0
  end.

Definition line_of (tb : text_buffer) (off : nat) : nat * text_buffer :=
  let '(nl, tb) := index tb in
  let off := if _size tb <? off then _size tb else off in
  (1 + lower_bound nl off, tb).

(** ** History *)

Definition entry_of (tb : text_buffer) (m : meta) : history_entry :=
  HistoryEntry (_pieces tb) (_size tb) m.

Definition with_stacks (tb : text_buffer) (h r : list history_entry) : text_buffer :=
  TextBuffer (_original tb) (_add tb) (_pieces tb) (_size tb) (_nl tb) (_nl_dirty tb) h r
    (_version tb).

(** The document [restore_from] leaves for the entry it pops. *)
Definition restored (tb : text_buffer) (e : history_entry) : text_buffer :=
  TextBuffer (_original tb) (_add tb) (h_pieces e) (h_size e) (_nl tb) true
    (_history tb) (_redo tb) (u64 (_version tb + 1)).

Definition checkpoint (tb : text_buffer) (m : meta) : text_buffer :=
  with_stacks tb (entry_of tb m :: _history tb) [].

(** [undo(meta_out)]: the form without a capture. *)
Definition undo1 (tb : text_buffer) : option meta * text_buffer :=
  let tb := with_stacks tb (_history tb) [] in
  match _history tb with
  | [] => (None, tb)
  | e :: h => (Some (h_meta e), with_stacks (restored tb e) h (_redo tb))
  end.

(** [undo(meta_out, now_meta)]. *)
Definition undo (tb : text_buffer) (now : meta) : option meta * text_buffer :=
  match _history tb with
  | [] => (None, tb)
  | e :: h => (Some (h_meta e), with_stacks (restored tb e) h (entry_of tb now :: _redo tb))
  end.

Definition redo (tb : text_buffer) (now : meta) : option meta * text_buffer :=
  match _redo tb with
  | [] => (None, tb)
  | e :: r => (Some (h_meta e), with_stacks (restored tb e) (entry_of tb now :: _history tb) r)
  end.

(** ** Search and word motion (on the materialized text) *)

(** [std::string::find(needle, from)] for a non-empty needle. *)
Fixpoint find_from (s needle : bytes) (i : nat) : option nat :=
  if starts_with s needle then Some i
  else match s with [] => None | _ :: r => find_from r needle (S i) end.

Definition find (tb : text_buffer) (from : nat) (needle : bytes) : option nat :=
  if bool_decide (needle = []) || (_size tb <=? from) then None
  else find_from (drop from (text tb)) needle from.

Definition word_byte (c : ascii) : bool :=
  islower c || isupper c || isdigit c || byte_eqb c "_"%char || (0x80 <=? code c)%Z.

Definition space_byte (c : ascii) : bool :=
  byte_eqb c c_sp || byte_eqb c c_tab || byte_eqb c c_nl.

(** [while ( i < t.size() && p(t[i]) ) ++i;] over the bytes from [i] on. *)
Fixpoint scan_right (p : ascii -> bool) (rest : bytes) (i : nat) : nat :=
  match rest with
  | [] => i
  | c :: r => if p c then scan_right p r (S i) else i
  end.
(** [while ( i > 0 && p(t[i - 1]) ) --i;] *)
Fixpoint scan_left (p : ascii -> bool) (t : bytes) (i : nat) : nat :=
  match i with
  | O => O
  | S k => if p (at_ t k) then scan_left p t k else i
  end.

Definition clamp (t : bytes) (from : nat) : nat := if length t <? from then length t else from.

Definition word_right_in (t : bytes) (from : nat) : nat :=
  let i := clamp t from in
  let i := scan_right (fun c => negb (word_byte c)) (drop i t) i in
  scan_right word_byte (drop i t) i.

Definition word_left_in (t : bytes) (from : nat) : nat :=
  let i := clamp t from in
  let i := scan_left (fun c => negb (word_byte c)) t i in
  scan_left word_byte t i.

Definition class_run_right_in (t : bytes) (from : nat) : nat :=
  let i := clamp t from in
  if length t <=? i then i
  else if word_byte (at_ t i) then scan_right word_byte (drop i t) i
  else if space_byte (at_ t i) then scan_right space_byte (drop i t) i
  else i + 1.

Definition word_right (tb : text_buffer) (from : nat) : nat := word_right_in (text tb) from.
Definition word_left (tb : text_buffer) (from : nat) : nat := word_left_in (text tb) from.
Definition class_run_right (tb : text_buffer) (from : nat) : nat :=
  class_run_right_in (text tb) from.

(** ** The abstract specification *)

Record doc := Doc {
  d_text : bytes;
  d_hist : list (bytes * meta);
  d_redo : list (bytes * meta);
  d_version : Z
}.

Definition d_set_text (d : doc) (t : bytes) : doc :=
  Doc t (d_hist d) (d_redo d) (d_version d + 1).

(** An edit of the buffer, or a line query (which may fill its cache). *)
Inductive op :=
| Load (s : bytes)
| Insert (off : nat) (s : bytes)
| Erase (off len : nat)
| Replace (off len : nat) (s : bytes)
| Checkpoint (m : meta)
| Undo1
| Undo (now : meta)
| Redo (now : meta)
| LineQuery.

Definition run (o : op) (tb : text_buffer) : option meta * text_buffer :=
  match o with
  | Load s => (None, load tb s)
  | Insert off s => (None, insert tb off s)
  | Erase off len => (None, erase tb off len)
  | Replace off len s => (None, replace tb off len s)
  | Checkpoint m => (None, checkpoint tb m)
  | Undo1 => undo1 tb
  | Undo now => undo tb now
  | Redo now => redo tb now
  | LineQuery => (None, (index tb).2)
  end.

Definition changes (t : bytes) (off len : nat) (s : bytes) : bool :=
  negb (bool_decide (s = [])) || ((off <? length t) && (0 <? len)).

Definition spec (o : op) (d : doc) : option meta * doc :=
  let t := d_text d in
  match o with
  | Load s => (None, Doc s [] [] (d_version d + 1))
  | Insert off s => (None, if changes t off 0 s then d_set_text d (take off t ++ s ++ drop off t) else d)
  | Erase off len =>
      (None, if changes t off len [] then d_set_text d (take off t ++ drop (off + len) t) else d)
  | Replace off len s =>
      (None, if changes t off len s then d_set_text d (take off t ++ s ++ drop (off + len) t) else d)
  | Checkpoint m => (None, Doc t ((t, m) :: d_hist d) [] (d_version d))
  | Undo1 =>
      match d_hist d with
      | [] => (None, Doc t [] [] (d_version d))
      | (t', m) :: h => (Some m, Doc t' h [] (d_version d + 1))
      end
  | Undo now =>
      match d_hist d with
      | [] => (None, d)
      | (t', m) :: h => (Some m, Doc t' h ((t, now) :: d_redo d) (d_version d + 1))
      end
  | Redo now =>
      match d_redo d with
      | [] => (None, d)
      | (t', m) :: r => (Some m, Doc t' ((t, now) :: d_hist d) r (d_version d + 1))
      end
  | LineQuery => (None, d)
  end.

(** The abstraction function. *)
Definition abs_entry (orig add : bytes) (e : history_entry) : bytes * meta :=
  (pieces_text orig add (h_pieces e), h_meta e).
Definition abs (tb : text_buffer) : doc :=
  Doc (text tb) (map (abs_entry (_original tb) (_add tb)) (_history tb))
    (map (abs_entry (_original tb) (_add tb)) (_redo tb)) (_version tb).

(** ** The invariant *)

(** A piece names at least one byte, and only bytes its source has. *)
Definition in_src (orig add : bytes) (p : piece) : Prop :=
  0 < p_len p /\ p_off p + p_len p <= length (source orig add p).

Definition entry_ok (orig add : bytes) (e : history_entry) : Prop :=
  Forall (in_src orig add) (h_pieces e) /\ h_size e = length (pieces_text orig add (h_pieces e)).

Record wf (tb : text_buffer) : Prop := {
  wf_pieces : Forall (in_src (_original tb) (_add tb)) (_pieces tb);
  wf_size : _size tb = length (text tb);
  wf_nl : _nl_dirty tb = false -> _nl tb = newlines_from (text tb) 0;
  wf_history : Forall (entry_ok (_original tb) (_add tb)) (_history tb);
  wf_redo : Forall (entry_ok (_original tb) (_add tb)) (_redo tb)
}.

(** ** Pieces and their text *)

Lemma length_piece_text orig add p : in_src orig add p -> length (piece_text orig add p) = p_len p.
Proof. intros [_ H]. unfold piece_text, substr. rewrite length_take, length_drop. lia. Qed.

Lemma piece_text_split orig add a o l k :
  k <= l -> piece_text orig add (Piece a o k) = take k (piece_text orig add (Piece a o l)) /\
            piece_text orig add (Piece a (o + k) (l - k)) = drop k (piece_text orig add (Piece a o l)).
Proof.
  intros Hk. unfold piece_text, substr, source; simpl. split.
  - rewrite take_take. f_equal. lia.
  - rewrite <- drop_drop, take_drop_commute. do 2 f_equal. lia.
Qed.

Lemma in_src_split orig add a o l k :
  in_src orig add (Piece a o l) -> 0 < k < l ->
  in_src orig add (Piece a o k) /\ in_src orig add (Piece a (o + k) (l - k)).
Proof. unfold in_src, source; simpl. intros. split; lia. Qed.

Lemma in_src_app orig add s p : in_src orig add p -> in_src orig (add ++ s) p.
Proof. unfold in_src, source. destruct (p_add p); rewrite ?length_app; lia. Qed.

Lemma piece_text_app orig add s p :
  in_src orig add p -> piece_text orig (add ++ s) p = piece_text orig add p.
Proof.
  intros [_ H]. unfold piece_text, substr, source in *. destruct (p_add p); [|done].
  rewrite drop_app_le, take_app_le by (rewrite ?length_drop; lia). done.
Qed.

Lemma pieces_text_app_src orig add s ps :
  Forall (in_src orig add) ps -> pieces_text orig (add ++ s) ps = pieces_text orig add ps.
Proof.
  intros H. unfold pieces_text. f_equal. apply map_ext_in. intros p Hp.
  apply piece_text_app. rewrite Forall_forall in H. apply H. by apply list_elem_of_In.
Qed.

Lemma pieces_text_nil orig add : pieces_text orig add [] = [].
Proof. done. Qed.
Lemma pieces_text_cons orig add p ps :
  pieces_text orig add (p :: ps) = piece_text orig add p ++ pieces_text orig add ps.
Proof. done. Qed.

Lemma entry_ok_app orig add s e : entry_ok orig add e -> entry_ok orig (add ++ s) e.
Proof.
  intros [H1 H2]. split; [|by rewrite pieces_text_app_src].
  eapply Forall_impl; [done|]. intros. by apply in_src_app.
Qed.

(** ** The loops over the pieces are list surgery on the text *)

Lemma insert_pieces_text orig add np off pos ps :
  Forall (in_src orig add) ps -> in_src orig add np -> pos <= off ->
  pieces_text orig add (insert_pieces np off pos ps)
  = take (off - pos) (pieces_text orig add ps) ++ piece_text orig add np
    ++ drop (off - pos) (pieces_text orig add ps)
  /\ Forall (in_src orig add) (insert_pieces np off pos ps).
Proof.
  intros Hps Hnp. revert pos. induction Hps as [|p ps Hp Hps IH]; intros pos Hle; simpl.
  { rewrite pieces_text_cons, pieces_text_nil, take_nil, drop_nil.
    split; [done|solve_Forall]. }
  pose proof (length_piece_text _ _ _ Hp) as Hlen. rewrite !pieces_text_cons.
  destruct (off =? pos) eqn:E; reflect_bool.
  { subst. rewrite Nat.sub_diag, take_0, drop_0, !pieces_text_cons. split; [done|solve_Forall]. }
  destruct (off <? pos + p_len p) eqn:E2; reflect_bool.
  - destruct p as [a o l]; simpl in *.
    destruct (piece_text_split orig add a o l (off - pos)) as [H1 H2]; [lia|].
    rewrite !pieces_text_cons, H1, H2, take_app_le, drop_app_le by lia.
    split; [done|].
    destruct (in_src_split orig add a o l (off - pos)) as [? ?]; [done|lia|].
    solve_Forall.
  - destruct (IH (pos + p_len p) ltac:(lia)) as [IHt ?].
    rewrite pieces_text_cons, IHt. rewrite take_app_ge, drop_app_ge by lia. rewrite Hlen, <- !app_assoc.
    replace (off - (pos + p_len p)) with (off - pos - p_len p) by lia.
    split; [done|solve_Forall].
Qed.

Lemma erase_pieces_done off pos ps : erase_pieces off 0 pos ps = ps.
Proof. by destruct ps. Qed.

Lemma erase_pieces_text orig add off len pos ps :
  Forall (in_src orig add) ps -> pos <= off ->
  pieces_text orig add (erase_pieces off len pos ps)
  = take (off - pos) (pieces_text orig add ps) ++ drop (off - pos + len) (pieces_text orig add ps)
  /\ Forall (in_src orig add) (erase_pieces off len pos ps).
Proof.
  intros Hps. revert len pos. induction Hps as [|p ps Hp Hps IH]; intros len pos Hle; simpl.
  { by rewrite pieces_text_nil, take_nil, drop_nil. }
  pose proof (length_piece_text _ _ _ Hp) as Hlen. pose proof Hp as [Hpos _].
  destruct (len =? 0) eqn:E0; reflect_bool.
  { subst. rewrite Nat.add_0_r, take_drop. split; [done|solve_Forall]. }
  destruct (pos + p_len p <=? off) eqn:E1; reflect_bool.
  { destruct (IH len (pos + p_len p) ltac:(lia)) as [IHt IHf].
    rewrite !pieces_text_cons, IHt, take_app_ge, drop_app_ge, <- app_assoc, Hlen by lia.
    split; [|solve_Forall]. do 3 f_equal; lia. }
  set (skip := if pos <? off then off - pos else 0).
  assert (Hskip : skip = off - pos) by (unfold skip; case_if; reflect_bool; lia).
  set (cut := if len <? p_len p - skip then len else p_len p - skip).
  assert (Hcut : cut = len `min` (p_len p - skip)) by (unfold cut; case_if; reflect_bool; lia).
  clearbody skip cut. destruct p as [a o l]; simpl in *.
  destruct ((skip =? 0) && (cut =? l)) eqn:E2; reflect_bool.
  { destruct (IH (len - cut) pos Hle) as [-> ?]. split; [|done].
    rewrite !pieces_text_cons. replace (off - pos) with 0 by lia. rewrite !take_0. simpl.
    rewrite drop_app_ge by lia. f_equal. lia. }
  destruct (skip =? 0) eqn:E3; reflect_bool.
  { assert (cut < l) by (split_bool; lia). replace (len - cut) with 0 by lia.
    rewrite erase_pieces_done, !pieces_text_cons.
    destruct (piece_text_split orig add a o l cut) as [_ H2]; [lia|]. rewrite H2.
    replace (off - pos) with 0 by lia. rewrite take_0. simpl. rewrite drop_app_le by lia.
    replace len with cut by lia. split; [done|]. constructor; [|done].
    by apply (in_src_split orig add a o l cut); [|lia]. }
  destruct (skip + cut =? l) eqn:E4; reflect_bool.
  { assert (off - pos = skip) as Hs by lia. rewrite Hs.
    destruct (piece_text_split orig add a o l skip) as [H1 _]; [lia|].
    destruct (in_src_split orig add a o l skip) as [Hok _]; [done|lia|].
    destruct (IH (len - cut) (pos + skip) ltac:(lia)) as [IHt IHf].
    rewrite !pieces_text_cons, IHt, H1, take_app_le, drop_app_ge by lia.
    replace (off - (pos + skip)) with 0 by lia. rewrite take_0. simpl.
    split; [|solve_Forall]. do 2 f_equal. lia. }
  assert (off - pos = skip /\ cut = len /\ skip + cut < l) as (Hs & -> & ?) by lia. rewrite Hs.
  destruct (piece_text_split orig add a o l skip) as [H1 _]; [lia|].
  destruct (piece_text_split orig add a o l (skip + len)) as [_ H2]; [lia|].
  destruct (in_src_split orig add a o l skip) as [? _]; [done|lia|].
  destruct (in_src_split orig add a o l (skip + len)) as [_ ?]; [done|lia|].
  rewrite !pieces_text_cons, H1, H2, take_app_le, drop_app_le by lia.
  split; [done|solve_Forall].
Qed.

Lemma slice_pieces_text orig add off len pos ps :
  Forall (in_src orig add) ps ->
  slice_pieces orig add off len pos ps = take len (drop (off - pos) (pieces_text orig add ps)).
Proof.
  intros Hps. revert off len pos.
  induction Hps as [|p ps Hp Hps IH]; intros off len pos; simpl.
  { by rewrite pieces_text_nil, drop_nil, take_nil. }
  pose proof (length_piece_text _ _ _ Hp) as Hlen. pose proof Hp as [Hpos _].
  destruct (len =? 0) eqn:E0; reflect_bool; [by subst|]. rewrite pieces_text_cons.
  destruct (off <? pos + p_len p) eqn:E1; reflect_bool.
  - set (skip := if pos <? off then off - pos else 0).
    assert (Hskip : skip = off - pos) by (unfold skip; case_if; reflect_bool; lia).
    set (tk := if len <? p_len p - skip then len else p_len p - skip).
    assert (Htk : tk = len `min` (p_len p - skip)) by (unfold tk; case_if; reflect_bool; lia).
    clearbody skip tk. rewrite IH, <- Hskip, drop_app_le by lia.
    assert (Hd : substr (source orig add p) (p_off p + skip) tk
                 = take tk (drop skip (piece_text orig add p))).
    { unfold piece_text, substr. rewrite <- drop_drop, !take_drop_commute, take_take.
      do 3 f_equal. lia. }
    rewrite Hd. rewrite (take_app _ _ len), length_drop, Hlen.
    destruct (decide (p_len p - skip <= len)).
    + replace (off + tk - (pos + p_len p)) with 0 by lia. rewrite drop_0.
      rewrite !(take_ge (drop _ _)) by (rewrite length_drop; lia).
      f_equal. f_equal. lia.
    + replace (len - tk) with 0 by lia. replace (len - (p_len p - skip)) with 0 by lia.
      rewrite !take_0. do 2 f_equal. lia.
  - rewrite IH, drop_app_ge by lia. do 2 f_equal. lia.
Qed.

(** ** Each operation implements its specification *)

(** The 64-bit version counter has room for [n] more steps. *)
Definition version_room (tb : text_buffer) (n : Z) : Prop :=
  (0 <= _version tb /\ _version tb + n < 2 ^ 64)%Z.

Lemma u64_succ v : (0 <= v < 2 ^ 64 - 1)%Z -> u64 (v + 1) = (v + 1)%Z.
Proof. intros. apply Z.mod_small. lia. Qed.

(** What an operation must do: keep the invariant and match its spec. *)
Definition refines (o : op) (tb : text_buffer) : Prop :=
  wf (run o tb).2 /\ spec o (abs tb) = ((run o tb).1, abs (run o tb).2).

Lemma wf_new : wf text_buffer_new.
Proof. split; done || constructor. Qed.

Lemma load_refines tb s : version_room tb 1 -> refines (Load s) tb.
Proof.
  intros Hv. unfold version_room in Hv.
  assert (Ht : text (load tb s) = s).
  { unfold load, text; simpl. case_bool_decide as Hs; [by subst|].
    rewrite pieces_text_cons, pieces_text_nil, app_nil_r. unfold piece_text, substr. simpl.
    by rewrite drop_0, take_ge. }
  split.
  - change (wf (load tb s)). split; [|by rewrite Ht|done|constructor|constructor].
    unfold load; simpl. case_bool_decide as Hs; solve_Forall. unfold in_src; simpl.
    destruct s; [done|]. simpl. lia.
  - cbv [run fst snd]. unfold abs at 2. rewrite Ht. simpl. by rewrite u64_succ by lia.
Qed.

Lemma map_abs_entry_app orig add s h :
  Forall (entry_ok orig add) h ->
  map (abs_entry orig (add ++ s)) h = map (abs_entry orig add) h.
Proof.
  intros H. apply map_ext_in. intros e He. unfold abs_entry. f_equal.
  apply pieces_text_app_src. rewrite Forall_forall in H. apply H. by apply list_elem_of_In.
Qed.

Lemma insert_text tb off s :
  wf tb -> s <> [] ->
  text (insert tb off s) = take off (text tb) ++ s ++ drop off (text tb) /\ wf (insert tb off s).
Proof.
  intros [Hp Hs Hn Hh Hr] Hne. unfold insert. rewrite bool_decide_eq_false_2 by done.
  set (off' := if _size tb <? off then _size tb else off).
  assert (Hoff : off' = off `min` length (text tb))
    by (unfold off'; case_if; reflect_bool; lia). clearbody off'.
  set (np := Piece true (length (_add tb)) (length s)).
  assert (Hnp : in_src (_original tb) (_add tb ++ s) np).
  { unfold in_src, source; simpl. rewrite length_app. destruct s; [done|]. simpl. lia. }
  assert (Hp' : Forall (in_src (_original tb) (_add tb ++ s)) (_pieces tb)).
  { eapply Forall_impl; [done|]. intros. by apply in_src_app. }
  destruct (insert_pieces_text _ _ np off' 0 _ Hp' Hnp ltac:(lia)) as [Ht Hf].
  rewrite (pieces_text_app_src _ _ s _ Hp) in Ht.
  assert (Htn : piece_text (_original tb) (_add tb ++ s) np = s).
  { unfold np, piece_text, substr, source; simpl. by rewrite drop_app_length, take_ge. }
  assert (Htext : pieces_text (_original tb) (_add tb ++ s) (insert_pieces np off' 0 (_pieces tb))
    = take off (text tb) ++ s ++ drop off (text tb)).
  { rewrite Ht, Htn, Nat.sub_0_r, Hoff. unfold text. f_equal; [|f_equal].
    - destruct (Nat.le_ge_cases off (length (text tb))); [by rewrite Nat.min_l|].
      rewrite Nat.min_r by done. by rewrite !take_ge.
    - destruct (Nat.le_ge_cases off (length (text tb))); [by rewrite Nat.min_l|].
      rewrite Nat.min_r by done. by rewrite !drop_ge. }
  split; [done|]. split; simpl; [done| |done| |].
  - unfold text; simpl. rewrite Htext, !length_app, length_take, length_drop, Hs. lia.
  - eapply Forall_impl; [done|]. intros. by apply entry_ok_app.
  - eapply Forall_impl; [done|]. intros. by apply entry_ok_app.
Qed.

Lemma erase_text tb off len :
  wf tb -> off < length (text tb) -> 0 < len ->
  text (erase tb off len) = take off (text tb) ++ drop (off + len) (text tb) /\ wf (erase tb off len).
Proof.
  intros [Hp Hs Hn Hh Hr] Hoff Hlen. unfold erase.
  rewrite (proj2 (orb_false_iff _ _)) by (split; [apply Nat.leb_gt|apply Nat.eqb_neq]; lia).
  set (len' := if _size tb - off <? len then _size tb - off else len).
  assert (Hl : len' = len `min` (length (text tb) - off))
    by (unfold len'; case_if; reflect_bool; lia). clearbody len'.
  destruct (erase_pieces_text _ _ off len' 0 _ Hp ltac:(lia)) as [Ht Hf].
  assert (Htext : pieces_text (_original tb) (_add tb) (erase_pieces off len' 0 (_pieces tb))
    = take off (text tb) ++ drop (off + len) (text tb)).
  { rewrite Ht, Nat.sub_0_r. unfold text. f_equal.
    destruct (Nat.le_ge_cases len (length (text tb) - off)).
    - rewrite Hl, Nat.min_l by done. done.
    - rewrite !drop_ge; [done| |]; unfold text in *; lia. }
  split; [done|]. split; simpl; try done.
  unfold text; simpl. rewrite Htext, length_app, length_take, length_drop, Hs. lia.
Qed.

Lemma insert_refines tb off s : wf tb -> version_room tb 1 -> refines (Insert off s) tb.
Proof.
  intros Hwf Hv. unfold refines, version_room in *. simpl. unfold changes. rewrite Nat.ltb_irrefl, andb_false_r, orb_false_r.
  destruct (decide (s = [])) as [->|Hne]; [done|].
  rewrite bool_decide_eq_false_2 by done. simpl.
  destruct (insert_text tb off s Hwf Hne) as [Ht Hwf']. split; [done|].
  unfold abs, d_set_text. rewrite Ht. destruct Hwf. f_equal. unfold insert.
  rewrite bool_decide_eq_false_2 by done. simpl.
  rewrite !map_abs_entry_app, u64_succ by (done || lia). done.
Qed.

Lemma erase_refines tb off len : wf tb -> version_room tb 1 -> refines (Erase off len) tb.
Proof.
  intros Hwf Hv. unfold refines, version_room in *. simpl. unfold changes. simpl.
  destruct ((off <? length (text tb)) && (0 <? len)) eqn:E; reflect_bool.
  - destruct (erase_text tb off len Hwf) as [Ht Hwf']; [done|done|]. split; [done|].
    unfold abs, d_set_text. rewrite Ht. destruct Hwf as [_ Hs _ _ _]. f_equal. unfold erase.
    rewrite (proj2 (orb_false_iff _ _)) by (split; [apply Nat.leb_gt|apply Nat.eqb_neq]; lia).
    simpl. by rewrite u64_succ by lia.
  - unfold erase. rewrite (wf_size tb Hwf).
    rewrite (proj2 (orb_true_iff _ _)); [done|].
    split_bool; [left; apply Nat.leb_le; lia|right; apply Nat.eqb_eq; lia].
Qed.

Lemma abs_erase tb off len :
  wf tb -> version_room tb 1 ->
  wf (erase tb off len) /\ abs (erase tb off len) = (spec (Erase off len) (abs tb)).2.
Proof. intros H1 H2. destruct (erase_refines tb off len H1 H2) as [? Heq]. by rewrite Heq. Qed.

Lemma abs_insert tb off s :
  wf tb -> version_room tb 1 ->
  wf (insert tb off s) /\ abs (insert tb off s) = (spec (Insert off s) (abs tb)).2.
Proof. intros H1 H2. destruct (insert_refines tb off s H1 H2) as [? Heq]. by rewrite Heq. Qed.

Lemma changes_insert t off s : changes t off 0 s = negb (bool_decide (s = [])).
Proof. unfold changes. by rewrite Nat.ltb_irrefl, andb_false_r, orb_false_r. Qed.

Lemma changes_split t off len s :
  changes t off len s = negb (bool_decide (s = [])) || changes t off len [].
Proof. done. Qed.

Lemma splice_erased (t : bytes) off len s :
  take off (take off t ++ drop (off + len) t) ++ s ++ drop off (take off t ++ drop (off + len) t)
  = take off t ++ s ++ drop (off + len) t.
Proof.
  destruct (Nat.le_ge_cases off (length t)).
  - rewrite take_app_le, take_take, Nat.min_id by (rewrite length_take; lia).
    rewrite drop_app_ge by (rewrite length_take; lia). rewrite length_take.
    by replace (off - off `min` length t) with 0 by lia.
  - rewrite (drop_ge t), app_nil_r, (take_ge t), take_ge, drop_ge by lia. done.
Qed.

(** Erasing nothing: the range is empty or past the end. *)
Lemma splice_nothing t off len s :
  changes t off len [] = false -> take off t ++ s ++ drop off t = take off t ++ s ++ drop (off + len) t.
Proof.
  unfold changes. simpl. intros H. do 2 f_equal. split_bool.
  - rewrite !drop_ge by lia. done.
  - f_equal. lia.
Qed.

Lemma wf_set_version tb v : wf tb -> wf (set_version tb v).
Proof. intros [? ? ? ? ?]. by split. Qed.
Lemma abs_set_version tb v :
  abs (set_version tb v) = Doc (d_text (abs tb)) (d_hist (abs tb)) (d_redo (abs tb)) v.
Proof. done. Qed.

Lemma replace_refines tb off len s : wf tb -> version_room tb 2 -> refines (Replace off len s) tb.
Proof.
  intros Hwf [Hv1 Hv2]. unfold refines.
  destruct (abs_erase tb off len Hwf) as [Hwf1 He]; [by split; lia|].
  assert (Hr1 : version_room (erase tb off len) 1).
  { unfold version_room. change (_version (erase tb off len)) with (d_version (abs (erase tb off len))).
    rewrite He. simpl. case_if; simpl; lia. }
  destruct (abs_insert _ off s Hwf1 Hr1) as [Hwf2 Hi]. rewrite He in Hi.
  cbv [run fst snd]. unfold replace.
  set (tb2 := insert (erase tb off len) off s) in *. clearbody tb2.
  change (_version tb2) with (d_version (abs tb2)). rewrite u64_succ by lia.
  split; [by case_if; [apply wf_set_version|]|].
  assert (Hgoal : forall v', (if (_version tb <? d_version (abs tb2))%Z then _version tb + 1
                               else d_version (abs tb2))%Z = v' ->
    abs (if (_version tb <? d_version (abs tb2))%Z then set_version tb2 (_version tb + 1) else tb2)
    = Doc (d_text (abs tb2)) (d_hist (abs tb2)) (d_redo (abs tb2)) v').
  { intros v' <-. by case_if. }
  rewrite (Hgoal _ eq_refl). clear Hgoal.
  simpl in Hi. rewrite changes_insert in Hi. rewrite Hi. simpl. rewrite changes_split.
  destruct (changes (text tb) off len []) eqn:E2.
  all: destruct (bool_decide (s = [])) eqn:E3; [apply bool_decide_eq_true in E3 as ->|]; simpl.
  all: repeat case_if; reflect_bool; try lia; unfold d_set_text; simpl.
  all: rewrite ?splice_erased, ?(splice_nothing _ _ _ _ E2); try done.
  all: do 2 f_equal; lia.
Qed.

(** ** History: a stacked pieces vector keeps its text, whatever is inserted
    after it, because the sources only grow *)

Lemma wf_restored tb e h r :
  wf tb -> Forall (entry_ok (_original tb) (_add tb)) (e :: h) ->
  Forall (entry_ok (_original tb) (_add tb)) r -> wf (with_stacks (restored tb e) h r).
Proof.
  intros Hwf Heh Hr. apply Forall_cons in Heh as [[He1 He2] Hh]. by split.
Qed.

Lemma entry_of_ok tb m : wf tb -> entry_ok (_original tb) (_add tb) (entry_of tb m).
Proof. intros [? ? _ _ _]. by split. Qed.

Lemma history_refines tb o :
  wf tb -> version_room tb 1 ->
  match o with Checkpoint _ | Undo1 | Undo _ | Redo _ => refines o tb | _ => True end.
Proof.
  intros Hwf [Hv1 Hv2]. pose proof Hwf as [Hp Hs Hn Hh Hr].
  destruct o as [| | | |m| |now|now|]; try done; unfold refines; simpl.
  - split; [|done]. split; try done. simpl. apply Forall_cons_2; [by apply entry_of_ok|done].
  - unfold undo1. destruct (_history tb) as [|e h] eqn:E; simpl.
    + split; [split; done|]. unfold abs, with_stacks; simpl. by rewrite ?E.
    + split; [by apply (wf_restored tb e h [])|]. unfold abs; simpl.
      by rewrite u64_succ by lia.
  - unfold undo. destruct (_history tb) as [|e h] eqn:E; simpl.
    + split; [done|]. unfold abs; simpl. by rewrite ?E.
    + split; [|unfold abs; simpl; by rewrite u64_succ by lia].
      apply wf_restored; [done|done|]. apply Forall_cons_2; [by apply entry_of_ok|done].
  - unfold redo. destruct (_redo tb) as [|e h] eqn:E; simpl.
    + split; [done|]. unfold abs; simpl. by rewrite ?E.
    + split; [|unfold abs; simpl; by rewrite u64_succ by lia].
      apply Forall_cons in Hr as [He Hr'].
      apply wf_restored; [done|solve_Forall; by apply entry_of_ok|done].
Qed.

Lemma newlines_from_app s1 s2 pos :
  newlines_from (s1 ++ s2) pos = newlines_from s1 pos ++ newlines_from s2 (pos + length s1).
Proof.
  revert pos. induction s1 as [|c s1 IH]; intros pos; simpl; [by rewrite Nat.add_0_r|].
  rewrite IH, Nat.add_succ_r. by case_if.
Qed.

Lemma index_pieces_text orig add pos ps :
  Forall (in_src orig add) ps ->
  index_pieces orig add pos ps = newlines_from (pieces_text orig add ps) pos.
Proof.
  intros H. revert pos. induction H as [|p ps Hp Hps IH]; intros pos; simpl; [done|].
  rewrite pieces_text_cons, newlines_from_app, IH. by rewrite length_piece_text.
Qed.

(** The newline index is what the text says, cached or not, and reading it
    changes nothing but the cache. *)
Lemma index_spec tb :
  wf tb -> (index tb).1 = newlines_from (text tb) 0 /\ wf (index tb).2 /\ abs (index tb).2 = abs tb.
Proof.
  intros Hwf. pose proof Hwf as [Hp Hs Hn Hh Hr]. unfold index.
  destruct (_nl_dirty tb) eqn:E; simpl; [|by auto].
  rewrite index_pieces_text by done. split; [done|]. split; [by split|done].
Qed.

(** C1: Every operation of the piece table keeps its invariant and does
    exactly what the specification over plain text says: the text, both
    history stacks, the version and the payload it hands back. *)
Theorem op_refines tb o : wf tb -> version_room tb 2 -> refines o tb.
Proof.
  intros Hwf Hv. assert (Hv1 : version_room tb 1) by (destruct Hv; split; lia).
  pose proof (history_refines tb o Hwf Hv1). destruct o; try done.
  - by apply load_refines.
  - by apply insert_refines.
  - by apply erase_refines.
  - by apply replace_refines.
  - destruct (index_spec tb Hwf) as (_ & ? & Ha). by split; [|simpl; rewrite Ha].
Qed.

(** ** Sequences of operations *)

Fixpoint run_all (os : list op) (tb : text_buffer) : list (option meta) * text_buffer :=
  match os with
  | [] => ([], tb)
  | o :: r => let '(m, tb) := run o tb in let '(ms, tb) := run_all r tb in (m :: ms, tb)
  end.
Fixpoint spec_all (os : list op) (d : doc) : list (option meta) * doc :=
  match os with
  | [] => ([], d)
  | o :: r => let '(m, d) := spec o d in let '(ms, d) := spec_all r d in (m :: ms, d)
  end.

Lemma spec_version o d : (d_version d <= d_version (spec o d).2 <= d_version d + 1)%Z.
Proof.
  destruct o; simpl; repeat case_if; simpl; try lia.
  all: destruct (d_hist d) as [|[]], (d_redo d) as [|[]]; simpl; lia.
Qed.

Lemma run_all_refines os tb :
  wf tb -> version_room tb (Z.of_nat (length os) + 2) ->
  wf (run_all os tb).2 /\ spec_all os (abs tb) = ((run_all os tb).1, abs (run_all os tb).2).
Proof.
  revert tb. induction os as [|o os IH]; intros tb Hwf [Hv1 Hv2]; [done|]. simpl.
  destruct (op_refines tb o Hwf) as [Hwf' Hs]; [split; simpl in *; lia|].
  pose proof (spec_version o (abs tb)) as Hv. rewrite Hs in *.
  destruct (run o tb) as [m tb']; simpl in *.
  destruct (IH tb' Hwf') as [Hw Hr]; [split; lia|]. rewrite Hr.
  by destruct (run_all os tb').
Qed.

(** What an editing session promises: a checkpoint, any edits and line
    queries, then an undo: the text of the checkpoint and its payload are
    back, and a redo brings the edited text back with the payload it had. *)
Definition is_edit (o : op) : Prop :=
  match o with Insert _ _ | Erase _ _ | Replace _ _ _ | LineQuery => True | _ => False end.

Lemma spec_edit_stacks o d :
  is_edit o -> (spec o d).1 = None /\ d_hist (spec o d).2 = d_hist d /\ d_redo (spec o d).2 = d_redo d.
Proof. destruct o; try done; intros _; simpl; by repeat case_if. Qed.

Lemma spec_edits_stacks os d :
  Forall is_edit os ->
  d_hist (spec_all os d).2 = d_hist d /\ d_redo (spec_all os d).2 = d_redo d.
Proof.
  intros H. revert d. induction H as [|o os Ho Hos IH]; intros d; simpl; [done|].
  destruct (spec_edit_stacks o d Ho) as (_ & H1 & H2). destruct (spec o d) as [m d']; simpl in *.
  destruct (IH d') as [H3 H4]. destruct (spec_all os d') as [ms d'']; simpl in *. split; congruence.
Qed.

(** After a checkpoint and any number of edits, undo restores the
    checkpoint's text and payload, and redo the edited text and the payload
    undo was given. *)
Theorem undo_redo_session tb m os now :
  wf tb -> version_room tb (Z.of_nat (length os) + 5) -> Forall is_edit os ->
  let edited := (run_all os (checkpoint tb m)).2 in
  let '(m1, undone) := undo edited now in
  let '(m2, redone) := redo undone m in
  m1 = Some m /\ text undone = text tb /\
  m2 = Some now /\ text redone = text edited.
Proof.
  intros Hwf [Hv1 Hv2] Hos edited.
  destruct (op_refines tb (Checkpoint m) Hwf) as [Hw1 Hs1]; [split; lia|].
  cbv [run fst snd] in Hw1, Hs1.
  destruct (run_all_refines os (checkpoint tb m) Hw1) as [Hw2 Hs2]; [split; simpl; lia|].
  fold edited in Hw2, Hs2.
  pose proof (spec_edits_stacks os (abs (checkpoint tb m)) Hos) as [Hh Hr].
  rewrite Hs2 in Hh, Hr. simpl in Hh, Hr.
  unfold undo. destruct (_history edited) as [|e h] eqn:Eh; [by simpl in Hh|].
  simpl in Hh. injection Hh as Ht Hm _. unfold redo. simpl. by rewrite Hm.
Qed.


(** ** Slices and lines *)

(** A slice is the bytes of the live text it names, clamped to it. *)
Theorem slice_is_text tb off len :
  wf tb -> slice tb off len = take len (drop off (text tb)).
Proof.
  intros [Hp Hs _ _ _]. unfold slice. rewrite Hs.
  case_if; reflect_bool; [by rewrite drop_ge, take_nil by lia|].
  rewrite slice_pieces_text, Nat.sub_0_r by done. fold (text tb).
  case_if; reflect_bool; [|done].
  rewrite !take_ge by (rewrite length_drop; lia). done.
Qed.

(** The lines of a text, as the component defines them: the spans between
    newlines, a trailing unterminated span counted, none in the empty text. *)
Fixpoint lines (t : bytes) : list bytes :=
  match t with
  | [] => []
  | c :: r =>
      if byte_eqb c c_nl then [] :: lines r
      else match lines r with [] => [[c]] | l :: ls => (c :: l) :: ls end
  end.

(** The bounds [line_span] computes from an index whose first byte is [pos]. *)
Definition span_start (nl : list nat) (pos n : nat) : nat :=
  if n =? 1 then pos else nth (n - 2) nl 0 + 1.
Definition span_end (nl : list nat) (stop n : nat) : nat :=
  if n - 1 <? length nl then nth (n - 1) nl 0 else stop.

Lemma lines_cons c r : byte_eqb c c_nl = false ->
  exists l ls, lines (c :: r) = (c :: l) :: ls /\
    (lines r = l :: ls \/ r = [] /\ l = [] /\ ls = []).
Proof.
  intros Hc. simpl. rewrite Hc. destruct r as [|d r]; [by exists [], []; auto|].
  destruct (lines (d :: r)) as [|l ls] eqn:E; [|by exists l, ls; auto].
  simpl in E. repeat case_if_in E; [done|]. by destruct (lines r).
Qed.

Lemma take_cons_shift (c : ascii) r p e : S p <= e -> take (e - p) (c :: r) = c :: take (e - S p) r.
Proof. intros. by replace (e - p) with (S (e - S p)) by lia. Qed.

Lemma lines_span t pos n l :
  lines t !! n = Some l ->
  let o := span_start (newlines_from t pos) pos (S n) in
  let e := span_end (newlines_from t pos) (pos + length t) (S n) in
  pos <= o /\ o <= e /\ e <= pos + length t /\ l = take (e - o) (drop (o - pos) t).
Proof.
  revert pos n l. induction t as [|c r IH]; intros pos n l; [done|].
  destruct (byte_eqb c c_nl) eqn:Hc.
  - simpl. rewrite Hc. destruct n as [|n]; simpl.
    { intros [= <-]. unfold span_start, span_end; simpl. rewrite Nat.sub_diag. split_and!; done || lia. }
    intros Hl. specialize (IH (S pos) n l Hl).
    assert (Hs : span_start (pos :: newlines_from r (S pos)) pos (S (S n))
                 = span_start (newlines_from r (S pos)) (S pos) (S n)).
    { unfold span_start. destruct n; simpl; [lia|]. by rewrite Nat.sub_0_r. }
    assert (He : span_end (pos :: newlines_from r (S pos)) (pos + S (length r)) (S (S n))
                 = span_end (newlines_from r (S pos)) (S pos + length r) (S n)).
    { unfold span_end; simpl. rewrite !Nat.sub_0_r, Nat.add_succ_r. done. }
    rewrite Hs, He. destruct IH as (H1 & H2 & H3 & H4). split_and!; try lia.
    by replace (span_start (newlines_from r (S pos)) (S pos) (S n) - pos)
      with (S (span_start (newlines_from r (S pos)) (S pos) (S n) - S pos)) by lia.
  - destruct (lines_cons c r Hc) as (l0 & ls & -> & Hr).
    simpl newlines_from. rewrite Hc. destruct Hr as [Hr|(-> & -> & ->)].
    2:{ destruct n as [|n]; [|done]. intros [= <-]. unfold span_start, span_end; simpl.
        rewrite Nat.sub_diag. replace (pos + 1 - pos) with 1 by lia. split_and!; done || lia. }
    destruct n as [|n]; simpl; intros Hl.
    + injection Hl as <-. specialize (IH (S pos) 0 l0). rewrite Hr in IH. specialize (IH eq_refl).
      simpl in IH. unfold span_start, span_end in *. simpl in *.
      rewrite ?Nat.sub_diag in *. simpl in IH.
      replace (pos + S (length r)) with (S (pos + length r)) by lia.
      destruct IH as (_ & H2 & H3 & ->).
      destruct (0 <? length (newlines_from r (S pos))); split_and!; try lia.
      all: rewrite !drop_0, take_cons_shift by lia; done.
    + specialize (IH (S pos) (S n) l). rewrite Hr in IH. specialize (IH Hl).
      unfold span_start in *. simpl in *. rewrite ?Nat.sub_0_r in *.
      replace (pos + S (length r)) with (S (pos + length r)) by lia.
      destruct IH as (H1 & H2 & H3 & ->). split_and!; try lia.
      replace (nth n (newlines_from r (S pos)) 0 + 1 - pos)
        with (S (nth n (newlines_from r (S pos)) 0 + 1 - S pos)) by lia. done.
Qed.

Lemma last_newlines_from t pos :
  match last (newlines_from t pos) with
  | None => c_nl ∉ t
  | Some b => pos <= b < pos + length t /\ (b + 1 = pos + length t <-> last t = Some c_nl)
  end.
Proof.
  induction t as [|c t IH] using rev_ind; [apply not_elem_of_nil|].
  rewrite newlines_from_app, last_snoc, length_app. simpl.
  destruct (byte_eqb c c_nl) eqn:Hc; reflect_bool.
  - rewrite last_snoc. subst. split; [lia|]. split; [done|lia].
  - rewrite app_nil_r. destruct (last (newlines_from t pos)).
    + destruct IH as [H1 H2]. split; [lia|]. split; [lia|congruence].
    + rewrite elem_of_app, list_elem_of_singleton. naive_solver.
Qed.

Lemma length_lines t pos :
  length (lines t) = length (newlines_from t pos)
    + match last t with Some c => if byte_eqb c c_nl then 0 else 1 | None => 0 end.
Proof.
  revert pos. induction t as [|c r IH]; intros pos; [done|].
  destruct (byte_eqb c c_nl) eqn:Hc.
  - simpl. rewrite Hc. simpl. rewrite (IH (S pos)). destruct r; simpl; [by rewrite Hc|done].
  - destruct (lines_cons c r Hc) as (l & ls & -> & Hr). simpl newlines_from. rewrite Hc.
    destruct r as [|d r]; [destruct Hr as [?|(_ & _ & ->)]; [done|]; simpl; by rewrite Hc|].
    destruct Hr as [Hr|[? _]]; [|done].
    specialize (IH (S pos)). rewrite Hr in IH. simpl in *. by rewrite <- IH.
Qed.

Lemma line_total tb :
  wf tb ->
  length (newlines_from (text tb) 0)
    + (if trailing_span tb (newlines_from (text tb) 0) then 1 else 0) = length (lines (text tb)).
Proof.
  intros Hwf. rewrite (length_lines _ 0). f_equal. unfold trailing_span. rewrite (wf_size _ Hwf).
  pose proof (last_newlines_from (text tb) 0) as H.
  destruct (last (text tb)) as [c|] eqn:El; [|apply last_None in El; rewrite El; done].
  assert (Hpos : 0 < length (text tb)) by (destruct (text tb); [done|simpl; lia]).
  rewrite (proj2 (Nat.ltb_lt _ _) Hpos). simpl.
  destruct (last (newlines_from (text tb) 0)) as [b|].
  - destruct H as [Hb Hiff]. destruct (byte_eqb c c_nl) eqn:Hc; reflect_bool.
    + subst. apply proj2 in Hiff. specialize (Hiff eq_refl).
      by rewrite (proj2 (Nat.eqb_eq _ _)) by lia.
    + rewrite (proj2 (Nat.eqb_neq _ _)); [done|]. intros ->.
      assert (Some c = Some c_nl) by (apply Hiff; lia). congruence.
  - destruct (byte_eqb c c_nl) eqn:Hc; reflect_bool; [|done]. subst. exfalso. apply H.
    apply last_Some in El as [l' ->]. apply elem_of_app. right. by apply list_elem_of_singleton.
Qed.

(** The line queries are the lines of the text: [line_count] counts them,
    and [line_span] answers for exactly the lines there are, with the span
    that slices to the line. *)
Theorem line_queries tb n :
  wf tb ->
  (line_count tb).1 = length (lines (text tb)) /\
  (forall off len, (line_span tb n).1 = Some (off, len) ->
     1 <= n /\ off + len <= _size tb /\ lines (text tb) !! (n - 1) = Some (slice tb off len)) /\
  ((line_span tb n).1 = None <-> n = 0 \/ length (lines (text tb)) < n).
Proof.
  intros Hwf. destruct (index_spec tb Hwf) as (Hi & Hw' & Ha).
  assert (Ht : text (index tb).2 = text tb) by (by injection Ha).
  assert (Hts : forall nl, trailing_span (index tb).2 nl = trailing_span tb nl).
  { intros nl. unfold trailing_span. rewrite !wf_size by done. by rewrite Ht. }
  assert (Hsz : _size (index tb).2 = _size tb) by (rewrite !wf_size by done; by rewrite Ht).
  unfold line_count, line_span. destruct (index tb) as [nl tb'] eqn:E. simpl in *. subst nl.
  rewrite Hts, line_total by done. split; [done|].
  destruct ((n =? 0) || _) eqn:En; simpl.
  { split; [done|]. split; [|done]. intros _. split_bool; lia. }
  reflect_bool. split; [|split; [done|lia]].
  intros off len [= <- <-].
  destruct (lookup_lt_is_Some_2 (lines (text tb)) (n - 1)) as [l Hl]; [lia|].
  pose proof (lines_span (text tb) 0 (n - 1) l Hl) as Hspan.
  replace (S (n - 1)) with n in Hspan by lia. simpl in Hspan.
  unfold span_start, span_end in Hspan. rewrite Nat.sub_0_r in Hspan.
  rewrite Hsz, slice_is_text, wf_size by done.
  destruct Hspan as (_ & H2 & H3 & ->). split_and!; [lia|lia|]. by rewrite Hl.
Qed.

(** ** The line an offset is on *)

Lemma newlines_from_bound t pos x : x ∈ newlines_from t pos -> pos <= x < pos + length t.
Proof.
  revert pos. induction t as [|c r IH]; intros pos; simpl; [intros H; by apply not_elem_of_nil in H|].
  case_if; [intros [->|H]%elem_of_cons; [lia|]|intros H]; apply IH in H; lia.
Qed.

Lemma lower_bound_newlines t pos off :
  lower_bound (newlines_from t pos) off = length (newlines_from (take (off - pos) t) pos).
Proof.
  revert pos. induction t as [|c r IH]; intros pos; [by rewrite take_nil|].
  destruct (Nat.le_gt_cases off pos) as [Hle|Hgt].
  - replace (off - pos) with 0 by lia. rewrite take_0.
    destruct (newlines_from (c :: r) pos) as [|x l] eqn:E; [done|]. simpl.
    assert (pos <= x) by (apply (newlines_from_bound (c :: r)); rewrite E; left).
    by rewrite (proj2 (Nat.ltb_ge _ _)) by lia.
  - simpl. replace (off - pos) with (S (off - S pos)) by lia. simpl.
    case_if; simpl; [|apply IH]. rewrite (proj2 (Nat.ltb_lt _ _)) by lia. by rewrite IH.
Qed.

Lemma lower_bound_spec nl off :
  lower_bound nl off <= length nl /\
  (forall k, k < lower_bound nl off -> nth k nl 0 < off) /\
  (lower_bound nl off < length nl -> off <= nth (lower_bound nl off) nl 0).
Proof.
  induction nl as [|x nl (H1 & H2 & H3)]; simpl; [split_and!; lia|].
  case_if; reflect_bool.
  - split_and!; [lia| |intros; apply H3; lia]. intros [|k] Hk; [done|]. apply H2. lia.
  - split_and!; [lia|lia|done].
Qed.

(** [line_of] is one more than the newlines before the offset, and the
    line it names encloses the offset (its terminating newline included). *)
Theorem line_of_encloses tb off :
  wf tb ->
  (line_of tb off).1 = 1 + length (newlines_from (take off (text tb)) 0) /\
  forall o l, (line_span tb (line_of tb off).1).1 = Some (o, l) ->
    o <= off `min` _size tb <= o + l.
Proof.
  intros Hwf. destruct (index_spec tb Hwf) as (Hi & Hw' & Ha).
  assert (Ht : text (index tb).2 = text tb) by (by injection Ha).
  assert (Hsz : _size (index tb).2 = _size tb) by (rewrite !wf_size by done; by rewrite Ht).
  unfold line_of, line_span. destruct (index tb) as [nl tb'] eqn:E. simpl in Hi, Ht, Hsz, Hw'.
  subst nl. cbv [fst snd].
  assert (Hoff : (if _size tb' <? off then _size tb' else off) = off `min` _size tb)
    by (rewrite Hsz; case_if; reflect_bool; lia). rewrite Hoff.
  split.
  { rewrite lower_bound_newlines, Nat.sub_0_r. simpl. do 2 f_equal.
    rewrite (wf_size _ Hwf). destruct (Nat.le_ge_cases off (length (text tb))).
    - by rewrite Nat.min_l by done.
    - rewrite Nat.min_r by done. by rewrite !take_ge by lia. }
  intros o l. set (nl := newlines_from (text tb) 0). set (x := off `min` _size tb).
  assert (Hx : x <= _size tb) by (unfold x; lia).
  destruct (lower_bound_spec nl x) as (H1 & H2 & H3).
  case_if; [done|]. rewrite Hsz. intros [= <- <-].
  set (k := lower_bound nl x) in *. simpl. rewrite Nat.sub_0_r.
  assert (Ho : (if S k =? 1 then 0 else nth (S k - 2) nl 0 + 1) <= x).
  { case_if; reflect_bool; [lia|]. specialize (H2 (S k - 2) ltac:(lia)). lia. }
  destruct (k <? length nl) eqn:Ek; reflect_bool; [specialize (H3 Ek)|]; simpl in *; lia.
Qed.

(** ** Word motion *)

Lemma scan_right_spec p t i :
  i <= length t ->
  let j := scan_right p (drop i t) i in
  i <= j <= length t /\ (forall k, i <= k < j -> p (at_ t k) = true) /\
  (j < length t -> p (at_ t j) = false).
Proof.
  remember (length t - i) as n eqn:Hn. revert i Hn. induction n as [|n IH]; intros i Hn Hi.
  { rewrite drop_ge by lia. simpl. split_and!; try lia. }
  rewrite drop_at by lia. simpl. destruct (p (at_ t i)) eqn:Hp.
  - destruct (IH (S i) ltac:(lia) ltac:(lia)) as (H1 & H2 & H3). split_and!; [lia|lia| |done].
    intros k Hk. destruct (decide (k = i)) as [->|]; [done|]. apply H2. lia.
  - split_and!; try lia. done.
Qed.

Lemma scan_left_spec p t i :
  i <= length t ->
  let j := scan_left p t i in
  j <= i /\ (forall k, j <= k < i -> p (at_ t k) = true) /\
  (0 < j -> p (at_ t (j - 1)) = false).
Proof.
  induction i as [|i IH]; intros Hi; simpl; [split_and!; lia|].
  destruct (p (at_ t i)) eqn:Hp.
  - destruct (IH ltac:(lia)) as (H1 & H2 & H3). split_and!; [lia| |done].
    intros k Hk. destruct (decide (k = i)) as [->|]; [done|]. apply H2. lia.
  - rewrite Nat.sub_succ, Nat.sub_0_r. split_and!; [lia|lia|done].
Qed.

Lemma word_byte_high c : word_byte c = false -> (code c < 0x80)%Z.
Proof. unfold word_byte. intros. reflect_bool. lia. Qed.

Lemma clamp_min t from : clamp t from = from `min` length t.
Proof. unfold clamp. case_if; reflect_bool; lia. Qed.

(** Word motion: rightwards over the non-word bytes and then the whole
    word, leftwards the mirror, from the clamped offset; and a stop inside
    the text has an ASCII byte beside it, so it never splits a code point. *)
Theorem word_motion_stops (t : bytes) from :
  let i := from `min` length t in
  let r := word_right_in t from in
  let l := word_left_in t from in
  (exists m, i <= m <= r /\ r <= length t /\
     (forall k, i <= k < m -> word_byte (at_ t k) = false) /\
     (forall k, m <= k < r -> word_byte (at_ t k) = true) /\
     (r < length t -> word_byte (at_ t r) = false /\ (code (at_ t r) < 0x80)%Z)) /\
  (exists m, l <= m <= i /\
     (forall k, m <= k < i -> word_byte (at_ t k) = false) /\
     (forall k, l <= k < m -> word_byte (at_ t k) = true) /\
     (0 < l -> word_byte (at_ t (l - 1)) = false /\ (code (at_ t (l - 1)) < 0x80)%Z)).
Proof.
  simpl. unfold word_right_in, word_left_in. rewrite !clamp_min. set (i := from `min` length t).
  assert (Hi : i <= length t) by (unfold i; lia). split.
  - destruct (scan_right_spec (fun c => negb (word_byte c)) t i Hi) as (H1 & H2 & _).
    set (m := scan_right _ _ i) in *.
    destruct (scan_right_spec word_byte t m ltac:(lia)) as (H4 & H5 & H6).
    exists m. split_and!; try lia; [|done|].
    + intros k Hk. apply negb_true_iff. by apply H2.
    + intros Hr. specialize (H6 Hr). split; [done|by apply word_byte_high].
  - destruct (scan_left_spec (fun c => negb (word_byte c)) t i Hi) as (H1 & H2 & _).
    set (m := scan_left (fun c => negb (word_byte c)) t i) in *.
    destruct (scan_left_spec word_byte t m ltac:(lia)) as (H4 & H5 & H6).
    exists m. split_and!; try lia; [|done|].
    + intros k Hk. apply negb_true_iff. by apply H2.
    + intros Hr. specialize (H6 Hr). split; [done|by apply word_byte_high].
Qed.
End TextBuffer.

Arguments load {meta} tb s.
Arguments text_buffer_new {meta}.

(** ** Witnesses: a buffer with a split piece, a newline on each side of it *)
Definition demo : text_buffer (meta := nat) :=
  insert (load text_buffer_new (B "ab" ++ [c_nl] ++ B "cd")) 1 (B "X" ++ [c_nl]).

Example demo_text : text demo = B "aX" ++ [c_nl] ++ B "b" ++ [c_nl] ++ B "cd".
Proof. vm_compute. reflexivity. Qed.
Example demo_pieces : length (_pieces demo) = 3.
Proof. vm_compute. reflexivity. Qed.

Lemma demo_wf : wf demo.
Proof.
  unfold demo. apply (insert_text (load text_buffer_new _)); [|done].
  apply (load_refines text_buffer_new). done.
Qed.

Lemma op_refines_witness :
  refines (Replace 1 3 (B "yy")) demo /\
  text (replace demo 1 3 (B "yy")) = B "ayy" ++ [c_nl] ++ B "cd".
Proof.
  split; [|vm_compute; reflexivity].
  apply (op_refines demo (Replace 1 3 (B "yy")) demo_wf). by vm_compute.
Defined.

Lemma undo_redo_session_witness :
  let os := [Insert 0 (B "q"); Erase 2 2; LineQuery] in
  let edited := (run_all os (checkpoint demo 7)).2 in
  text (undo edited 9).2 = text demo /\ (undo edited 9).1 = Some 7.
Proof.
  pose proof (undo_redo_session demo 7 [Insert 0 (B "q"); Erase 2 2; LineQuery] 9 demo_wf) as H.
  simpl in H. destruct H as (H1 & H2 & _); [by vm_compute|by repeat constructor|].
  split; [exact H2|exact H1].
Defined.

Lemma slice_is_text_witness : slice demo 1 3 = B "X" ++ [c_nl] ++ B "b".
Proof. rewrite (slice_is_text demo 1 3 demo_wf). vm_compute. reflexivity. Defined.

Lemma line_queries_witness : (line_count demo).1 = 3 /\ (line_span demo 2).1 = Some (3, 1).
Proof.
  split; [|vm_compute; reflexivity].
  rewrite (proj1 (line_queries demo 2 demo_wf)). vm_compute. reflexivity.
Defined.

Lemma line_of_encloses_witness : (line_of demo 3).1 = 2.
Proof. rewrite (proj1 (line_of_encloses demo 3 demo_wf)). vm_compute. reflexivity. Defined.
