(* ===== verification/HostPath.v ===== *)
(** Host paths: the string functions of [src/madc_posix_io.cpp].

    The one compile-time fact they depend on, [_WIN32], is the parameter
    [win32]; nothing here touches a file system. *)
From S2P Require Import Prelude.

Section HostPath.
Context (win32 : bool).

(** [host_path_separators], [host_path_is_separator]. *)
Definition host_path_separators : bytes := if win32 then B "/\" else B "/".
Definition host_path_is_separator (c : ascii) : bool :=
  negb (byte_eqb c Ascii.zero) && existsb (byte_eqb c) host_path_separators.

(** [find_last_of]: the offset of the last separator. *)
Fixpoint host_path_last_separator (path : bytes) : option nat :=
  match path with
  | [] => None
  | c :: r =>
      match host_path_last_separator r with
      | Some k => Some (S k)
      | None => if existsb (byte_eqb c) host_path_separators then Some 0 else None
      end
  end.

Definition host_path_dirname (path : bytes) : bytes :=
  match host_path_last_separator path with None => [] | Some sep => take (sep + 1) path end.

Definition host_path_basename (path : bytes) : bytes :=
  match host_path_last_separator path with None => path | Some sep => drop (sep + 1) path end.

Definition host_path_generic (path : bytes) : bytes :=
  map (fun c => if host_path_is_separator c then "/"%char else c) path.

Definition host_path_absolute (path : bytes) : bool :=
  match path with
  | [] => false
  | d :: r =>
      if host_path_is_separator d then true
      else win32 && match r with c :: _ => byte_eqb c ":"%char | [] => false end
           && (isupper d || islower d)
  end.

Definition host_path_join (dir path : bytes) : bytes :=
  if bool_decide (path = []) || host_path_absolute path || bool_decide (dir = [])
     || bytes_eqb dir (B ".") then path
  else if host_path_is_separator (at_ dir (length dir - 1)) then dir ++ path
  else dir ++ B "/" ++ path.

Definition host_path_extension_dot (path : bytes) : option nat :=
  let base := match host_path_last_separator path with None => 0 | Some sep => sep + 1 end in
  match rfind_char "."%char path with
  | None => None
  | Some dot => if dot <=? base then None else Some dot
  end.

Definition host_path_drop_extension (path : bytes) : bytes :=
  match host_path_extension_dot path with None => path | Some dot => take dot path end.

Definition host_path_stem (path : bytes) : bytes := host_path_basename (host_path_drop_extension path).

(** The directories [host_path_make_parents] makes, in order. *)
Definition host_path_make_parents (path : bytes) : list bytes :=
  List.filter (fun dir => negb (win32 && (length dir =? 2) && byte_eqb (at_ dir 1) ":"%char))
    (map (fun i => take i path)
      (List.filter (fun i => host_path_is_separator (at_ path i)) (seq 1 (length path - 1)))).

(** [home] is what the environment says, [None] for no such variable. *)
Definition host_path_expand_home (home : option bytes) (path : bytes) : option bytes :=
  match path with
  | [] => None
  | c :: r =>
      if negb (byte_eqb c "~"%char) || (1 <? length path) && negb (host_path_is_separator (at_ path 1)) then None
      else Some match home with
                | Some ((_ :: _) as h) => h ++ r
                | _ => path
                end
  end.

(** [while ( n > 0 && host_path_is_separator(dir[n - 1]) ) --n;] *)
Fixpoint strip_separators (dir : bytes) (n : nat) : nat :=
  match n with
  | O => O
  | S k => if host_path_is_separator (at_ dir k) then strip_separators dir k else n
  end.

(** The offset [rel_at] gets when the answer is true. *)
Definition host_path_within (dir path : bytes) : option nat :=
  let n := strip_separators dir (length dir) in
  let n := if (n <? length dir) && ((n =? 0) || byte_eqb (at_ dir (n - 1)) ":"%char) then n + 1 else n in
  if (n =? 0) || (length path <=? n) || negb (bytes_eqb (take n path) (take n dir)) then None
  else
    match (if host_path_is_separator (at_ dir (n - 1)) then Some n
           else if host_path_is_separator (at_ path n) then Some (n + 1) else None) with
    | Some at' => if length path <=? at' then None else Some at'
    | None => None
    end.

(** ** Theorems *)

Lemma separator_in c : existsb (byte_eqb c) host_path_separators = host_path_is_separator c.
Proof.
  unfold host_path_is_separator. destruct (byte_eqb c Ascii.zero) eqn:E; [|done].
  apply byte_eqb_eq in E as ->. unfold host_path_separators. by destruct win32.
Qed.

Lemma last_separator_spec path :
  match host_path_last_separator path with
  | None => Forall (fun c => host_path_is_separator c = false) path
  | Some k => k < length path /\ host_path_is_separator (at_ path k) = true /\
      Forall (fun c => host_path_is_separator c = false) (drop (S k) path)
  end.
Proof.
  induction path as [|c path IH]; simpl; [constructor|].
  destruct (host_path_last_separator path) as [k|].
  - destruct IH as (H1 & H2 & H3). split_and!; [lia|exact H2|exact H3].
  - rewrite separator_in. destruct (host_path_is_separator c) eqn:E.
    + split_and!; [lia|exact E|exact IH].
    + by constructor.
Qed.

(** A path is its directory part followed by its last component; the
    component holds no separator, and the directory part is empty or ends in
    one. *)
Theorem dirname_basename path :
  host_path_dirname path ++ host_path_basename path = path /\
  Forall (fun c => host_path_is_separator c = false) (host_path_basename path) /\
  (host_path_dirname path = [] \/
   exists d s, host_path_dirname path = d ++ [s] /\ host_path_is_separator s = true).
Proof.
  unfold host_path_dirname, host_path_basename. pose proof (last_separator_spec path) as H.
  destruct (host_path_last_separator path) as [k|]; [|by auto].
  destruct H as (H1 & H2 & H3). rewrite Nat.add_1_r, take_drop. split_and!; [done|done|right].
  exists (take k path), (at_ path k). split; [|done]. by apply take_S_r, at_lookup.
Qed.

Lemma generic_idem path : host_path_generic (host_path_generic path) = host_path_generic path.
Proof.
  unfold host_path_generic. rewrite map_map. apply map_ext. intros c.
  destruct (host_path_is_separator c) eqn:E; [|by rewrite E].
  by destruct (host_path_is_separator "/"%char).
Qed.

(** *** Extensions *)

Lemma last_separator_unique path k :
  k < length path -> host_path_is_separator (at_ path k) = true ->
  Forall (fun c => host_path_is_separator c = false) (drop (S k) path) ->
  host_path_last_separator path = Some k.
Proof.
  revert k. induction path as [|c path IH]; intros k Hk Hs Hf; simpl in *; [lia|].
  destruct k as [|k]; simpl in *.
  - rewrite drop_0 in Hf. pose proof (last_separator_spec path) as H.
    destruct (host_path_last_separator path) as [j|].
    + destruct H as (Hj & Hsj & _). rewrite Forall_forall in Hf.
      rewrite (Hf (at_ path j)) in Hsj; [done|]. eapply list_elem_of_lookup_2. by apply at_lookup.
    + rewrite separator_in. change (at_ (c :: path) 0) with c in Hs. by rewrite Hs.
  - by rewrite (IH k) by (done || lia).
Qed.

Lemma last_separator_none path :
  Forall (fun c => host_path_is_separator c = false) path -> host_path_last_separator path = None.
Proof.
  induction 1 as [|c path Hc _ IH]; simpl; [done|]. by rewrite IH, separator_in, Hc.
Qed.

Lemma at_take s n k : k < n -> at_ (take n s) k = at_ s k.
Proof. intros H. unfold at_. by rewrite !nth_lookup, lookup_take_lt. Qed.

(** A cut past the last separator keeps the directory part. *)
Lemma dirname_take path n :
  n <= length path -> (forall k, host_path_last_separator path = Some k -> k < n) ->
  host_path_last_separator (take n path) = host_path_last_separator path.
Proof.
  intros Hn Hlt. pose proof (last_separator_spec path) as H.
  destruct (host_path_last_separator path) as [k|] eqn:E.
  - destruct H as (Hk & Hs & Hf). specialize (Hlt k eq_refl). apply last_separator_unique.
    + rewrite length_take. lia.
    + by rewrite at_take.
    + rewrite skipn_firstn_comm. by apply Forall_take.
  - apply last_separator_none. by apply Forall_take.
Qed.

(** Dropping an extension cuts a suffix that starts at the last dot of the
    last component and holds no further dot and no separator; the directory
    stays the same, and a path with a last component keeps a nonempty stem. *)
Theorem drop_extension_spec path :
  let ext := drop (length (host_path_drop_extension path)) path in
  path = host_path_drop_extension path ++ ext /\
  (ext = [] \/ (exists e, ext = "."%char :: e /\ ("."%char ∉ e) /\
     Forall (fun c => host_path_is_separator c = false) ext)) /\
  host_path_dirname (host_path_drop_extension path) = host_path_dirname path /\
  (host_path_basename path <> [] -> host_path_stem path <> []).
Proof.
  unfold host_path_stem, host_path_drop_extension, host_path_extension_dot.
  pose proof (rfind_char_spec "."%char path) as Hd.
  destruct (rfind_char "."%char path) as [dot|]; simpl.
  2:{ rewrite drop_all, app_nil_r. by auto. }
  set (base := match host_path_last_separator path with None => 0 | Some sep => sep + 1 end).
  destruct (dot <=? base) eqn:Eb; simpl; reflect_bool; [rewrite drop_all, app_nil_r; by auto|].
  destruct Hd as (Hl & Hat & Hno). rewrite length_take, Nat.min_l by lia.
  assert (Hext : drop dot path = "."%char :: drop (S dot) path).
  { rewrite <- Hat. by apply drop_at. }
  assert (Hls : host_path_last_separator (take dot path) = host_path_last_separator path).
  { apply dirname_take; [lia|]. intros k Hk. unfold base in Eb. rewrite Hk in Eb. lia. }
  pose proof (last_separator_spec path) as Hsep. split_and!.
  - by rewrite take_drop.
  - right. exists (drop (S dot) path). split_and!; [done|done|]. unfold base in Eb.
    destruct (host_path_last_separator path) as [k|]; [|by apply Forall_drop].
    destruct Hsep as (_ & _ & Hf). replace dot with (S k + (dot - S k)) by lia.
    rewrite <- drop_drop. by apply Forall_drop.
  - unfold host_path_dirname. rewrite Hls. unfold base in Eb.
    destruct (host_path_last_separator path) as [k|]; [|done]. by rewrite take_take, Nat.min_l by lia.
  - intros _ Hnil. apply (f_equal length) in Hnil. unfold host_path_basename in Hnil. rewrite Hls in Hnil.
    unfold base in Eb.
    destruct (host_path_last_separator path) as [k|]; autorewrite with len in Hnil; simpl in Hnil; lia.
Qed.

(** *** Containment *)

Lemma strip_separators_spec dir n :
  n <= length dir ->
  let m := strip_separators dir n in
  m <= n /\ (m = 0 \/ host_path_is_separator (at_ dir (m - 1)) = false) /\
  forall k, m <= k < n -> host_path_is_separator (at_ dir k) = true.
Proof.
  induction n as [|n IH]; intros Hn; simpl; [split_and!; [lia|by left|lia]|].
  destruct (host_path_is_separator (at_ dir n)) eqn:E.
  - destruct IH as (H1 & H2 & H3); [lia|]. split_and!; [lia|done|].
    intros k Hk. destruct (decide (k = n)) as [->|]; [done|]. apply H3. lia.
  - split_and!; [lia|right; by rewrite Nat.sub_succ, Nat.sub_0_r|lia].
Qed.

(** What is joined to a directory is inside it: for a relative path and a
    directory that does not end in a separator, containment holds and the
    offset it reports is where the relative path starts; and containment always
    means a strict extension of the directory (trailing separators aside) by a
    separator and at least one byte. *)
Theorem within_join_and_sound :
  (forall dir rel, dir <> [] -> dir <> B "." -> host_path_is_separator (at_ dir (length dir - 1)) = false ->
     rel <> [] -> host_path_absolute rel = false ->
     host_path_within dir (host_path_join dir rel) = Some (length dir + 1) /\
     drop (length dir + 1) (host_path_join dir rel) = rel) /\
  (forall dir path at', host_path_within dir path = Some at' ->
     exists n, 0 < n <= length dir /\ n <= at' < length path /\ take n path = take n dir /\
       (forall k, n <= k < length dir -> host_path_is_separator (at_ dir k) = true) /\
       host_path_is_separator (at_ path (at' - 1)) = true).
Proof.
  split.
  - intros dir rel Hdir Hdot Hsep Hrel Habs. unfold host_path_join.
    rewrite (bool_decide_eq_false_2 (rel = [])), Habs, (bool_decide_eq_false_2 (dir = [])) by done.
    destruct (bytes_eqb dir (B ".")) eqn:E; reflect_bool; [done|]. cbn [orb]. rewrite Hsep.
    assert (Hd0 : 0 < length dir) by (destruct dir; simpl; [done|lia]).
    assert (Hr0 : 0 < length rel) by (destruct rel; simpl; [done|lia]).
    assert (Hs : strip_separators dir (length dir) = length dir).
    { destruct (length dir) as [|k]; [lia|]. simpl. rewrite Nat.sub_succ, Nat.sub_0_r in Hsep. by rewrite Hsep. }
    split; [|by rewrite app_assoc, drop_app_length' by (rewrite length_app; simpl; lia)].
    unfold host_path_within. rewrite Hs, (Nat.ltb_irrefl (length dir)). cbn [andb].
    assert (Hlen : length (dir ++ B "/" ++ rel) = length dir + 1 + length rel) by (rewrite !length_app; simpl; lia).
    rewrite (proj2 (Nat.eqb_neq (length dir) 0)) by lia.
    rewrite (proj2 (Nat.leb_gt _ (length dir))) by lia.
    rewrite take_app_length, firstn_all, bytes_eqb_refl. cbn [orb negb]. rewrite Hsep.
    unfold at_. rewrite app_nth2, Nat.sub_diag by lia.
    replace (host_path_is_separator (nth 0 (B "/" ++ rel) Ascii.zero)) with true
      by (unfold host_path_is_separator, host_path_separators; by destruct win32).
    by rewrite (proj2 (Nat.leb_gt _ _)) by lia.
  - intros dir path at'. unfold host_path_within.
    destruct (strip_separators_spec dir (length dir) ltac:(lia)) as (H1 & H2 & H3).
    set (m := strip_separators dir (length dir)) in *.
    set (n := if _ && _ then m + 1 else m).
    assert (Hn : m <= n <= length dir) by (unfold n; case_if; reflect_bool; lia).
    case_if; [done|]. split_bool.
    destruct (host_path_is_separator (at_ dir (n - 1))) eqn:Es.
    + case_if; [done|]. intros [= <-]. reflect_bool. exists n. split_and!; try (done || lia).
      * intros k Hk. apply H3. lia.
      * rewrite <- Es, <- (at_take path n), <- (at_take dir n) by lia. congruence.
    + destruct (host_path_is_separator (at_ path n)) eqn:Ep; [|done].
      case_if; [done|]. intros [= <-]. reflect_bool. exists n. split_and!; try (done || lia).
      * intros k Hk. apply H3. lia.
      * by rewrite Nat.add_sub.
Qed.
End HostPath.
