(* ===== verification/CliOptions.v ===== *)
(** The command-line option reader: [include/libmadc/cli_options.h] and the
    reader of [src/cli_options.cpp] ([parse] and everything it calls).

    A C string that may be NULL is an [option bytes]; the NULL-terminated
    arrays are lists.  The C++ functions that return [bool] and report through
    [result &] return the flag and the result they leave.  Outside the program
    and so parameters of the model ([Host]): what a path names and what a file
    holds, and what [strtod] makes of a string; [win32] is the host's path
    convention ([HostPath]). *)
From S2P Require Import Prelude HostPath.
#[local] Open Scope nat_scope.

(** ** The table *)

Inductive value_form :=
| none | separate | joined | prefix | joined_or_separate
| equals | optional_equals | equals_or_separate.

Inductive value_type := text | integer | number | boolean | path.

#[export] Instance value_form_eq_dec : EqDecision value_form.
Proof. solve_decision. Defined.
#[export] Instance value_type_eq_dec : EqDecision value_type.
Proof. solve_decision. Defined.

(** [row_flag] bits. *)
Definition rf_none : Z := 0.
Definition rf_ends_options : Z := Z.shiftl 1 0.
Definition rf_hidden : Z := Z.shiftl 1 1.
Definition rf_negatable : Z := Z.shiftl 1 2.
Definition rf_required : Z := Z.shiftl 1 3.
Definition rf_doc : Z := Z.shiftl 1 4.
Definition has_flag (flags f : Z) : bool := negb (Z.land flags f =? 0)%Z.

Definition max_spellings : nat := 4.

Record spelling := Spelling { sp_text : bytes; sp_form : value_form }.

Record row := Row {
  rw_id : Z;
  rw_name : option bytes;
  rw_spellings : list spelling;
  rw_metavar : option bytes;
  rw_section : nat;
  rw_help : option bytes;
  rw_usage : option bytes;
  rw_flags : Z;
  rw_tags : Z;
  rw_type : value_type;
  rw_choices : option (list bytes);
  rw_default_value : option bytes;
  rw_env : option bytes;
  rw_config_key : option bytes
}.

Record section := Section_ { se_title : bytes; se_note : option bytes }.

Inductive group_rule := exclusive | requires_rest.
Record group := Group { gr_rule : group_rule; gr_ids : list Z }.

Inductive operand_rule := permute | stop_at_first | caller.

Inductive value_source := command_line | environment | config | default_value.
#[export] Instance value_source_eq_dec : EqDecision value_source.
Proof. solve_decision. Defined.

Record occurrence := Occurrence {
  o_id : Z;
  o_value : bytes;
  o_word : bytes;
  o_spelled : option bytes;
  o_negated : bool;
  o_source : value_source
}.

Inductive error_kind :=
| no_error | unknown_option | missing_value | unexpected_value
| bad_value | conflict | missing_required | response_file.
#[export] Instance error_kind_eq_dec : EqDecision error_kind.
Proof. solve_decision. Defined.

Record result := Result {
  r_options : list occurrence;
  r_operands : list bytes;
  r_remainder : list bytes;
  r_option_words : list bytes;
  r_error : error_kind;
  r_message : bytes
}.

Definition result_new : result := Result [] [] [] [] no_error [].
Definition ok (r : result) : bool := bool_decide (r_error r = no_error).

(** [table]; the policy's own [context] and the table it is passed are closed
    over in [t_operand_continues]. *)
Record table := Table {
  t_program : option bytes;
  t_usage : option bytes;
  t_description : option bytes;
  t_epilog : option bytes;
  t_sections : list section;
  t_rows : list row;
  t_groups : list group;
  t_bundling : bool;
  t_response_files : bool;
  t_operands : operand_rule;
  t_operand_continues : option (result -> list bytes -> nat -> bool)
}.

(** [match]: a row and its spelling are found together. *)
Record match_ := Match {
  m_option : option (row * spelling);
  m_has_value : bool;
  m_value : bytes;
  m_negated : bool
}.
Definition match_none : match_ := Match None false [] false.

Record sources := Sources {
  s_environment : option (bytes -> option bytes);
  s_config : option (bytes -> option bytes);
  s_skip_defaults : bool
}.

(** ** Results: updates and queries *)

Definition push_options (r : result) (os : list occurrence) : result :=
  Result (r_options r ++ os) (r_operands r) (r_remainder r) (r_option_words r) (r_error r) (r_message r).
Definition push_operand (r : result) (w : bytes) : result :=
  Result (r_options r) (r_operands r ++ [w]) (r_remainder r) (r_option_words r) (r_error r) (r_message r).
Definition push_remainder (r : result) (ws : list bytes) : result :=
  Result (r_options r) (r_operands r) (r_remainder r ++ ws) (r_option_words r) (r_error r) (r_message r).
Definition push_option_words (r : result) (ws : list bytes) : result :=
  Result (r_options r) (r_operands r) (r_remainder r) (r_option_words r ++ ws) (r_error r) (r_message r).

(** [fail]: the result it leaves; it always returns false. *)
Definition fail (r : result) (kind : error_kind) (message : bytes) : result :=
  Result (r_options r) (r_operands r) (r_remainder r) (r_option_words r) kind message.

Definition result_last (r : result) (id : Z) : option occurrence :=
  last (filter (fun o => o_id o = id) (r_options r)).
Definition result_has (r : result) (id : Z) : bool :=
  match result_last r id with Some o => negb (o_negated o) | None => false end.
Definition given (id : Z) (o : occurrence) : bool := (o_id o =? id)%Z && negb (o_negated o).
Definition result_count (r : result) (id : Z) : nat :=
  length (List.filter (given id) (r_options r)).
Definition result_values (r : result) (id : Z) : list bytes :=
  map o_value (List.filter (given id) (r_options r)).

(** ** Spellings *)

Definition takes_bare_word (f : value_form) : bool :=
  match f with
  | none | separate | prefix | joined_or_separate | optional_equals | equals_or_separate => true
  | joined | equals => false
  end.
Definition takes_equals (f : value_form) : bool :=
  match f with equals | optional_equals | equals_or_separate => true | _ => false end.
Definition takes_glued (f : value_form) : bool :=
  match f with joined | prefix | joined_or_separate => true | _ => false end.
Definition value_follows (f : value_form) : bool :=
  match f with separate | joined_or_separate | equals_or_separate => true | _ => false end.

Definition quoted (s : bytes) : bytes := c_squote :: s ++ [c_squote].

(** [each_spelling]: the callback [f] carries a state and says when to stop. *)
Definition row_spellings (rw : row) : list spelling := take max_spellings (rw_spellings rw).
Definition all_spellings (t : table) : list (row * spelling) :=
  flat_map (fun rw => if has_flag (rw_flags rw) rf_doc then []
                      else map (fun sp => (rw, sp)) (row_spellings rw)) (t_rows t).
Fixpoint each {St : Type} (l : list (row * spelling)) (f : St -> row -> spelling -> St * bool) (s : St) : St :=
  match l with
  | [] => s
  | (rw, sp) :: r => let '(s', stop) := f s rw sp in if stop then s' else each r f s'
  end.
Definition each_spelling {St : Type} (t : table) (f : St -> row -> spelling -> St * bool) (s : St) : St :=
  each (all_spellings t) f s.

Definition find_row (t : table) (id : Z) : option row :=
  List.find (fun rw => (rw_id rw =? id)%Z && negb (has_flag (rw_flags rw) rf_doc)) (t_rows t).

(** ** Near misses *)

(** The table of [edit_distance] as rows of cells, filled in row-major order. *)
Definition dget (d : list (list nat)) (i j : nat) : nat := nth j (nth i d []) 0.
Definition dset (d : list (list nat)) (i j v : nat) : list (list nat) :=
  <[i := <[j := v]> (nth i d [])]> d.

(** The body of the inner loop: the value of cell [i], [j] from the cells
    before it ([d i j] is [d[i][j]]). *)
Definition edit_cell (a b : bytes) (d : nat -> nat -> nat) (i j : nat) : nat :=
  let cost := if byte_eqb (at_ a (i - 1)) (at_ b (j - 1)) then 0 else 1 in
  let v := Nat.min (Nat.min (d (i - 1) j + 1) (d i (j - 1) + 1)) (d (i - 1) (j - 1) + cost) in
  if (1 <? i) && (1 <? j) && byte_eqb (at_ a (i - 1)) (at_ b (j - 2)) && byte_eqb (at_ a (i - 2)) (at_ b (j - 1))
  then Nat.min v (d (i - 2) (j - 2) + 1) else v.

(** [d(n + 1, vector(m + 1))] with its first column and its first row set. *)
Definition edit_init (n m : nat) : list (list nat) :=
  let d := replicate (n + 1) (replicate (m + 1) 0) in
  let d := fold_left (fun d i => dset d i 0 i) (seq 0 (n + 1)) d in
  fold_left (fun d j => dset d 0 j j) (seq 0 (m + 1)) d.

Definition edit_distance (a b : bytes) : nat :=
  let n := length a in
  let m := length b in
  let d := fold_left (fun d i => fold_left (fun d j => dset d i j (edit_cell a b (dget d) i j)) (seq 1 m) d)
             (seq 1 n) (edit_init n m) in
  dget d n m.

Definition edit_cutoff (goal candidate : nat) : nat :=
  let hi := Nat.max goal candidate in
  let lo := Nat.min goal candidate in
  if hi <=? 1 then 0
  else if hi - lo <=? 1 then Nat.max (hi / 3) 1
  else (hi + 2) / 3.

Definition spelling_candidate (sp : spelling) : bytes :=
  sp_text sp ++ if bool_decide (sp_form sp = equals) then B "=" else [].

(** The best spelling so far and its distance; [None] is [best_d]'s initial
    [(size_t)-1], above every distance. *)
Definition nearest_step (goal : bytes) (s : bytes * option nat) (rw : row) (sp : spelling)
    : (bytes * option nat) * bool :=
  if has_flag (rw_flags rw) rf_hidden then (s, false)
  else
    let cand := spelling_candidate sp in
    let gap := if length cand <? length goal then length goal - length cand
               else length cand - length goal in
    if edit_cutoff (length goal) (length cand) <? gap then (s, false)
    else
      let d := edit_distance goal cand in
      if (d <=? edit_cutoff (length goal) (length cand))
         && match s.2 with None => true | Some best_d => d <? best_d end
      then ((cand, Some d), false) else (s, false).

Definition nearest_goal (word : bytes) : bytes :=
  match find_char "="%char word with None => word | Some eq => take (eq + 1) word end.
Definition nearest_spelling (t : table) (word : bytes) : bytes :=
  (each_spelling t (nearest_step (nearest_goal word)) ([], None)).1.

Definition fail_unknown (t : table) (word : bytes) (r : result) : result :=
  let is_flag head := each_spelling t (fun _ _ sp =>
    let flag := bool_decide (sp_form sp = none) && bytes_eqb head (sp_text sp) in (flag, flag)) false in
  let unknown :=
    let near := nearest_spelling t word in
    fail r unknown_option
      (B "unrecognized command-line option " ++ quoted word
       ++ if bool_decide (near = []) then [] else B "; did you mean " ++ quoted near ++ B "?") in
  match find_char "="%char word with
  | Some eq =>
      if is_flag (take eq word)
      then fail r unexpected_value (B "option " ++ quoted (take eq word) ++ B " doesn't allow an argument")
      else unknown
  | None => unknown
  end.

(** ** [match_word] *)

Definition stop_at (p : row -> spelling -> bool) (s : option (row * spelling)) (rw : row) (sp : spelling)
    : option (row * spelling) * bool :=
  if p rw sp then (Some (rw, sp), true) else (s, false).

(** The longest glued spelling so far, with its length. *)
Definition longest_step (word : bytes) (s : nat * option (row * spelling)) (rw : row) (sp : spelling)
    : (nat * option (row * spelling)) * bool :=
  let n := length (sp_text sp) in
  if takes_glued (sp_form sp) && (s.1 <? n) && starts_with word (sp_text sp)
  then ((n, Some (rw, sp)), false) else (s, false).

Definition match_word (t : table) (word : bytes) : match_ :=
  if (length word <? 2) || negb (byte_eqb (at_ word 0) "-"%char) then match_none
  else
    (* 1. The whole word is a spelling. *)
    match each_spelling t (stop_at (fun _ sp => takes_bare_word (sp_form sp) && bytes_eqb word (sp_text sp))) None with
    | Some o => Match (Some o) false [] false
    | None =>
    (* 2. NAME=VALUE. *)
    match match find_char "="%char word with
          | None => None
          | Some eq =>
              (fun o => (o, eq)) <$>
              each_spelling t (stop_at (fun _ sp => takes_equals (sp_form sp) && bytes_eqb (take eq word) (sp_text sp))) None
          end with
    | Some (o, eq) => Match (Some o) true (drop (eq + 1) word) false
    | None =>
    (* 3. A glued value: the longest spelling the word starts with. *)
    match each_spelling t (longest_step word) (0, None) with
    | (longest, Some o) => Match (Some o) true (drop longest word) false
    | (_, None) =>
    (* 4. --no-NAME for a negatable flag. *)
    if starts_with word (B "--no-") then
      let positive := B "--" ++ drop 5 word in
      match each_spelling t (stop_at (fun rw sp => has_flag (rw_flags rw) rf_negatable
               && bool_decide (sp_form sp = none) && bytes_eqb positive (sp_text sp))) None with
      | Some o => Match (Some o) false [] true
      | None => match_none
      end
    else match_none
    end end end.

(** ** Values *)

Definition parse_boolean (s : bytes) : option bool :=
  let l := map tolower s in
  if bytes_eqb l (B "1") || bytes_eqb l (B "yes") || bytes_eqb l (B "true") || bytes_eqb l (B "on") then Some true
  else if bytes_eqb l (B "0") || bytes_eqb l (B "no") || bytes_eqb l (B "false") || bytes_eqb l (B "off") then Some false
  else None.

(** [c_str()]: the bytes before the first NUL. *)
Fixpoint c_str (s : bytes) : bytes :=
  match s with
  | [] => []
  | c :: r => if byte_eqb c Ascii.zero then [] else c :: c_str r
  end.

Fixpoint drop_spaces (s : bytes) : bytes :=
  match s with [] => [] | c :: r => if isspace c then drop_spaces r else s end.
Fixpoint digits_value (s : bytes) (acc : Z) : Z * bytes :=
  match s with
  | c :: r => if isdigit c then digits_value r (acc * 10 + (code c - 48))%Z else (acc, s)
  | [] => (acc, [])
  end.

(** [strtoll(s, &end, 10)]: the value, what [end] points at, and [ERANGE]; no
    digits is no conversion, and [end] is the string itself. *)
Definition strtoll (s : bytes) : Z * bytes * bool :=
  let t := drop_spaces s in
  let '(neg, t) :=
    match t with
    | c :: r => if byte_eqb c "-"%char then (true, r) else if byte_eqb c "+"%char then (false, r) else (false, t)
    | [] => (false, t)
    end in
  match t with
  | c :: _ =>
      if isdigit c then
        let '(n, rest) := digits_value t 0 in
        let v := if neg then (- n)%Z else n in
        if (v <? - 2 ^ 63)%Z then (- 2 ^ 63, rest, true)%Z
        else if (2 ^ 63 - 1 <? v)%Z then (2 ^ 63 - 1, rest, true)%Z
        else (v, rest, false)
      else (0%Z, s, false)
  | [] => (0%Z, s, false)
  end.

Definition whole_integer (s : bytes) : bool :=
  if bool_decide (s = []) then false
  else let '(_, rest, erange) := strtoll (c_str s) in negb erange && bool_decide (rest = []).

Definition carries_value (f : value_form) (value : bytes) : bool :=
  if bool_decide (f = none) then false
  else negb (bool_decide (value = [])) || (negb (bool_decide (f = prefix)) && negb (bool_decide (f = optional_equals))).

Definition given_on_command_line (r : result) (id : Z) : bool :=
  existsb (fun o => (o_id o =? id)%Z && negb (o_negated o) && bool_decide (o_source o = command_line)) (r_options r).

Definition spelled_name (t : table) (r : result) (id : Z) : bytes :=
  match List.find (fun o => (o_id o =? id)%Z && bool_decide (is_Some (o_spelled o))) (r_options r) with
  | Some o => quoted (default [] (o_spelled o))
  | None =>
      quoted (match find_row t id with
              | Some rw => match rw_spellings rw with sp :: _ => sp_text sp | [] => B "?" end
              | None => B "?"
              end)
  end.

Definition result_integer (r : result) (id : Z) (fallback : Z) : Z :=
  match result_last r id with
  | None => fallback
  | Some o =>
      if o_negated o || bool_decide (o_value o = []) then fallback
      else (strtoll (c_str (o_value o))).1.1
  end.

Definition result_boolean (r : result) (id : Z) (fallback : bool) : bool :=
  match result_last r id with
  | None => fallback
  | Some o =>
      if o_negated o then false
      else if bool_decide (o_value o = []) then true
      else default fallback (parse_boolean (o_value o))
  end.

(** ** Response files *)

Definition response_file_limit : nat := 2000.

(** One word of [split_response_text]: the word and the text after it (the
    blank that ended it included). *)
Fixpoint read_word (s : bytes) (squote dquote bsquote : bool) (arg : bytes) : bytes * bytes :=
  match s with
  | [] => (arg, [])
  | c :: r =>
      if isspace c && negb squote && negb dquote && negb bsquote then (arg, s)
      else if bsquote then read_word r squote dquote false (arg ++ [c])
      else if byte_eqb c c_bslash then read_word r squote dquote true arg
      else if squote then
        if byte_eqb c c_squote then read_word r false dquote bsquote arg
        else read_word r squote dquote bsquote (arg ++ [c])
      else if dquote then
        if byte_eqb c c_dquote then read_word r squote false bsquote arg
        else read_word r squote dquote bsquote (arg ++ [c])
      else if byte_eqb c c_squote then read_word r true dquote bsquote arg
      else if byte_eqb c c_dquote then read_word r squote true bsquote arg
      else read_word r squote dquote bsquote (arg ++ [c])
  end.

Definition split_body (st : bytes * list bytes) : bytes * list bytes + list bytes :=
  let '(s, out) := st in
  match drop_spaces s with
  | [] => inr out
  | s' => let '(arg, rest) := read_word s' false false false [] in inl (rest, out ++ [arg])
  end.

Definition split_response_text (s : bytes) : list bytes :=
  default [] (loop (S (length s)) split_body (s, [])).

(** What [stat] and [ifstream] make of a path. *)
Inductive file_kind :=
| no_file | directory | special_file | unreadable_file | regular_file (contents : bytes).

(** The host the reader runs on. *)
Record Host := HostOps {
  host_file : bytes -> file_kind;
  host_strtod : bytes -> nat * bool;	(** characters converted, [ERANGE] *)
  host_win32 : bool
}.

Section Reader.
Context (host : Host).

Definition whole_number (s : bytes) : bool :=
  if bool_decide (s = []) then false
  else let '(n, erange) := host_strtod host (c_str s) in
       negb erange && (n =? length (c_str s)).

(** [check_value]: its verdict, the occurrence it may rewrite, the result. *)
Definition check_value (rw : row) (o : occurrence) (what : bytes) (r : result)
    : bool * occurrence * result :=
  let expected :=
    match rw_type rw with
    | text => None
    | integer => if whole_integer (o_value o) then None else Some (B "an integer")
    | number => if whole_number (o_value o) then None else Some (B "a number")
    | boolean => if bool_decide (is_Some (parse_boolean (o_value o))) then None else Some (B "yes or no")
    | path => None
    end in
  let o := match rw_type rw with
           | path => Occurrence (o_id o) (host_path_generic (host_win32 host) (o_value o)) (o_word o)
                       (o_spelled o) (o_negated o) (o_source o)
           | _ => o
           end in
  let invalid := B "invalid value " ++ quoted (o_value o) ++ B " for " ++ what in
  match expected with
  | Some e => (false, o, fail r bad_value (invalid ++ B ": expected " ++ e))
  | None =>
      match rw_choices rw with
      | None => (true, o, r)
      | Some cs =>
          if existsb (bytes_eqb (o_value o)) cs then (true, o, r)
          else
            let list_ := fold_left (fun l c => l ++ (if bool_decide (l = []) then [] else B ", ") ++ c) cs [] in
            (false, o, fail r bad_value (invalid ++ B ": expected one of " ++ list_))
      end
  end.

(** *** The groups, the required options, the other sources *)

(** The loop over an exclusive group's ids; [first] is the one seen first. *)
Fixpoint check_exclusive (t : table) (r : result) (first : option Z) (ids : list Z) : option result :=
  match ids with
  | [] => None
  | id :: rest =>
      if negb (given_on_command_line r id) then check_exclusive t r first rest
      else
        match first with
        | Some f => Some (fail r conflict (spelled_name t r id ++ B " cannot be used with " ++ spelled_name t r f))
        | None => check_exclusive t r (Some id) rest
        end
  end.

Definition check_requires (t : table) (r : result) (ids : list Z) : option result :=
  match ids with
  | id0 :: rest =>
      if result_has r id0 then
        match List.find (fun id => negb (result_has r id)) rest with
        | Some id => Some (fail r missing_required (spelled_name t r id0 ++ B " requires " ++ spelled_name t r id))
        | None => None
        end
      else None
  | [] => None
  end.

Definition check_group (t : table) (r : result) (gr : group) : option result :=
  match gr_rule gr with
  | exclusive => check_exclusive t r None (gr_ids gr)
  | requires_rest => check_requires t r (gr_ids gr)
  end.

Fixpoint check_groups_from (t : table) (r : result) (gs : list group) : bool * result :=
  match gs with
  | [] => (true, r)
  | gr :: rest =>
      match check_group t r gr with
      | Some r' => (false, r')
      | None => check_groups_from t r rest
      end
  end.
Definition check_groups (t : table) (r : result) : bool * result := check_groups_from t r (t_groups t).

Definition primary (rw : row) : option bytes :=
  match rw_spellings rw with sp :: _ => Some (sp_text sp) | [] => None end.

Definition check_required (t : table) (r : result) : bool * result :=
  match List.find (fun rw => has_flag (rw_flags rw) rf_required && negb (has_flag (rw_flags rw) rf_doc)
                             && negb (bool_decide (is_Some (result_last r (rw_id rw))))) (t_rows t) with
  | Some rw => (false, fail r missing_required (B "the option " ++ quoted (default [] (primary rw)) ++ B " is required"))
  | None => (true, r)
  end.

Definition takes_value (rw : row) : bool :=
  existsb (fun sp => negb (bool_decide (sp_form sp = none))) (row_spellings rw).

(** [source_value]: the value, its source, and its name for messages. *)
Definition source_value (rw : row) (from : sources) : option (bytes * value_source * bytes) :=
  match (env ← s_environment from; name ← rw_env rw; v ← env name;
         if bool_decide (v = []) then None else Some (v, environment, quoted name)) with
  | Some x => Some x
  | None =>
      match (cfg ← s_config from; key ← rw_config_key rw; v ← cfg key;
             Some (c_str v, config, quoted key)) with
      | Some x => Some x
      | None =>
          if s_skip_defaults from then None
          else v ← rw_default_value rw;
            Some (v, default_value, B "the default of " ++ quoted (default (default [] (rw_name rw)) (primary rw)))
      end
  end.

(** One row of [apply_sources]. *)
Definition apply_row (rw : row) (from : sources) (r : result) : bool * result :=
  if has_flag (rw_flags rw) rf_doc || bool_decide (is_Some (result_last r (rw_id rw))) then (true, r)
  else
    match source_value rw from with
    | None => (true, r)
    | Some (v, src, what) =>
        let o := Occurrence (rw_id rw) v [] None false src in
        if takes_value rw then
          let '(good, o, r) := check_value rw o what r in
          if good then (true, push_options r [o]) else (false, r)
        else
          match parse_boolean v with
          | None => (false, fail r bad_value (B "invalid value " ++ quoted v ++ B " for " ++ what ++ B ": expected yes or no"))
          | Some on =>
              let o := Occurrence (rw_id rw) [] [] None (negb on) src in
              if on || has_flag (rw_flags rw) rf_negatable then (true, push_options r [o]) else (true, r)
          end
    end.

Fixpoint apply_rows (rows : list row) (from : sources) (r : result) : bool * result :=
  match rows with
  | [] => (true, r)
  | rw :: rest => let '(good, r) := apply_row rw from r in if good then apply_rows rest from r else (false, r)
  end.
Definition apply_sources (t : table) (from : sources) (r : result) : bool * result :=
  apply_rows (t_rows t) from r.

Definition command_line_occurrence (rw : row) (sp : spelling) (word value : bytes) (negated : bool) : occurrence :=
  Occurrence (rw_id rw) value word (Some (sp_text sp)) negated command_line.

Definition operand_continues (t : table) (r : result) (words : list bytes) (at_ : nat) : bool :=
  match t_operands t with
  | permute => true
  | stop_at_first => false
  | caller => match t_operand_continues t with Some p => p r words at_ | None => true end
  end.

(** *** class reader *)

Record reader := Reader {
  _words : list bytes;
  _r : result;
  _expansions : nat
}.
Definition set_r (rd : reader) (r : result) : reader := Reader (_words rd) r (_expansions rd).
Definition word_at (rd : reader) (i : nat) : bytes := nth i (_words rd) [].

(** [fetch(k)]'s loop. *)
Definition fetch_body (t : table) (k : nat) (rd : reader) : reader + bool * reader :=
  let word := word_at rd k in
  if t_response_files t && (k <? length (_words rd)) && (1 <? length word) && byte_eqb (at_ word 0) "@"%char then
    let path := drop 1 word in
    match host_file host (c_str path) with
    | no_file => inr (true, rd)
    | directory => inr (false, set_r rd (fail (_r rd) response_file (B "@-file refers to a directory: " ++ quoted path)))
    | special_file => inr (true, rd)
    | unreadable_file => inr (true, rd)
    | regular_file contents =>
        let rd := Reader (_words rd) (_r rd) (S (_expansions rd)) in
        if response_file_limit <? _expansions rd
        then inr (false, set_r rd (fail (_r rd) response_file (B "too many @-files encountered")))
        else
          let got := split_response_text contents in
          inl (Reader (take k (_words rd) ++ got ++ drop (k + 1) (_words rd)) (_r rd) (_expansions rd))
    end
  else inr (k <? length (_words rd), rd).

Definition fetch (t : table) (rd : reader) (k : nat) : bool * reader :=
  default (false, rd) (loop (response_file_limit + 2) (fetch_body t k) rd).

(** [take_value]: its verdict, the reader, the index, the occurrence's value. *)
Definition take_value (t : table) (m : match_) (f : value_form) (word : bytes) (rd : reader) (i : nat)
    : bool * reader * nat * bytes :=
  if m_has_value m then
    if bool_decide (f = joined) && bool_decide (m_value m = []) then
      (false, set_r rd (fail (_r rd) missing_value (B "missing argument to " ++ quoted word)), i, [])
    else (true, rd, i, m_value m)
  else if negb (value_follows f) then (true, rd, i, [])
  else
    let '(got, rd) := fetch t rd (i + 1) in
    if negb got then
      (false, if ok (_r rd) then set_r rd (fail (_r rd) missing_value (B "missing argument to " ++ quoted word)) else rd, i, [])
    else
      let v := word_at rd (i + 1) in
      (true, set_r rd (push_option_words (_r rd) [v]), i + 1, v).

(** The spelling of one letter of a bundle. *)
Definition letter_spelling (t : table) (letter : bytes) : option (row * spelling) :=
  each_spelling t (stop_at (fun _ s => bytes_eqb letter (sp_text s))) None.

(** The loop of [read_bundle] over the letters from [k] on: [None] is a failure
    (the result says which), else the occurrences, the words consumed and the
    index. *)
Fixpoint read_letters (t : table) (word : bytes) (rest : bytes) (k : nat) (rd : reader) (i : nat)
    (got : list occurrence) (consumed : list bytes)
    : option (list occurrence * list bytes * nat) * reader :=
  match rest with
  | [] => (Some (got, consumed, i), rd)
  | c :: rest' =>
      let letter := B "-" ++ [c] in
      match letter_spelling t letter with
      | None => (None, set_r rd (fail_unknown t word (_r rd)))
      | Some (owner, sp) =>
          if takes_equals (sp_form sp) then (None, set_r rd (fail_unknown t word (_r rd)))
          else if bool_decide (sp_form sp = none) then
            read_letters t word rest' (S k) rd i
              (got ++ [command_line_occurrence owner sp word [] false]) consumed
          else
            let missing rd := (None, set_r rd (fail (_r rd) missing_value (B "missing argument to " ++ quoted letter))) in
            let finish rd i consumed value :=
              let o := command_line_occurrence owner sp word value false in
              let '(good, o, r) :=
                if carries_value (sp_form sp) value then check_value owner o (quoted letter) (_r rd)
                else (true, o, _r rd) in
              if good then (Some (got ++ [o], consumed, i), set_r rd r) else (None, set_r rd r) in
            let value := drop (k + 1) word in
            if bool_decide (value = []) && value_follows (sp_form sp) then
              let '(fetched, rd) := fetch t rd (i + 1) in
              if negb fetched then (if ok (_r rd) then missing rd else (None, rd))
              else finish rd (i + 1) (consumed ++ [word_at rd (i + 1)]) (word_at rd (i + 1))
            else if bool_decide (value = []) && bool_decide (sp_form sp = joined) then missing rd
            else finish rd i consumed value
      end
  end.

Definition read_bundle (t : table) (rd : reader) (i : nat) : bool * reader * nat :=
  let word := word_at rd i in
  match read_letters t word (drop 1 word) 1 rd i [] [word] with
  | (None, rd) => (false, rd, i)
  | (Some (got, consumed, i), rd) =>
      (true, set_r rd (push_option_words (push_options (_r rd) got) consumed), i + 1)
  end.

Definition read_option (t : table) (rd : reader) (i : nat) : bool * reader * nat :=
  let word := word_at rd i in
  let m := match_word t word in
  match m_option m with
  | None =>
      if t_bundling t && negb (byte_eqb (at_ word 1) "-"%char) then read_bundle t rd i
      else (false, set_r rd (fail_unknown t word (_r rd)), i)
  | Some (rw, sp) =>
      let rd := set_r rd (push_option_words (_r rd) [word]) in
      let '(taken, rd, i, value) := take_value t m (sp_form sp) word rd i in
      if negb taken then (false, rd, i)
      else
        let o := command_line_occurrence rw sp word value (m_negated m) in
        let '(good, o, r) :=
          if carries_value (sp_form sp) value then check_value rw o (quoted (sp_text sp)) (_r rd)
          else (true, o, _r rd) in
        if negb good then (false, set_r rd r, i)
        else (true, set_r rd (push_options r [o]), i + 1)
  end.

(** [run]'s loop: the state is the reader, [reading] and [i]. *)
Definition run_body (t : table) (st : reader * bool * nat) : reader * bool * nat + bool * reader :=
  let '(rd, reading, i) := st in
  if negb reading then inr (true, set_r rd (push_remainder (_r rd) (drop i (_words rd))))
  else
    let '(fetched, rd) := fetch t rd i in
    if negb fetched then inr (ok (_r rd), rd)
    else
      let word := word_at rd i in
      if bytes_eqb word (B "--") then inl (rd, false, i + 1)
      else if (length word <? 2) || negb (byte_eqb (at_ word 0) "-"%char) then
        if negb (operand_continues t (_r rd) (_words rd) i) then inl (rd, false, i)
        else inl (set_r rd (push_operand (_r rd) word), true, i + 1)
      else
        let '(good, rd, i) := read_option t rd i in
        if negb good then inr (false, rd)
        else
          let ends := match last (r_options (_r rd)) with
                      | Some o => match find_row t (o_id o) with
                                  | Some rw => has_flag (rw_flags rw) rf_ends_options
                                  | None => false
                                  end
                      | None => false
                      end in
          inl (rd, negb ends, i).

Definition run (fuel : nat) (t : table) (args : list bytes) : option (bool * reader) :=
  loop fuel (run_body t) (Reader args result_new 0, true, 0).

(** [parse]; [None] is "out of fuel" ([parse_total]: some fuel is enough). *)
Definition parse (fuel : nat) (t : table) (args : list bytes) (from : sources) : option result :=
  '(good, rd) ← run fuel t args;
  Some (if negb good then _r rd
        else
          let '(good, r) := apply_sources t from (_r rd) in
          if negb good then r
          else let '(good, r) := check_groups t r in
               if negb good then r else (check_required t r).2).
End Reader.

(** ** Near misses: the table computes the distance *)

(** The optimal-string-alignment distance of the first [i] bytes of [a] and the
    first [j] of [b], by its recurrence. *)
Fixpoint osa (a b : bytes) (fuel i j : nat) : nat :=
  match fuel with
  | O => 0
  | S k => if i =? 0 then j else if j =? 0 then i else edit_cell a b (osa a b k) i j
  end.

Lemma edit_cell_ext a b g g' i j :
  1 <= i -> 1 <= j ->
  (forall i' j', i' <= i -> j' <= j -> i' + j' < i + j -> g i' j' = g' i' j') ->
  edit_cell a b g i j = edit_cell a b g' i j.
Proof.
  intros Hi Hj H. unfold edit_cell.
  rewrite !(H (i - 1)), (H i (j - 1)) by lia.
  destruct (_ && _) eqn:E; [|done]. reflect_bool. by rewrite (H (i - 2)) by lia.
Qed.

Lemma osa_fuel a b k k' i j : i + j < k -> i + j < k' -> osa a b k i j = osa a b k' i j.
Proof.
  revert k' i j. induction k as [|k IH]; intros [|k'] i j H H'; [lia..|]. simpl.
  destruct (i =? 0) eqn:Ei; [done|]. destruct (j =? 0) eqn:Ej; [done|]. reflect_bool.
  apply edit_cell_ext; [lia|lia|]. intros. apply IH; lia.
Qed.

(** [osa] with fuel enough. *)
Definition osa_distance (a b : bytes) (i j : nat) : nat := osa a b (S (i + j)) i j.

Lemma osa_distance_cell a b i j :
  1 <= i -> 1 <= j -> osa_distance a b i j = edit_cell a b (osa_distance a b) i j.
Proof.
  intros Hi Hj. unfold osa_distance at 1. simpl.
  rewrite (proj2 (Nat.eqb_neq i 0)), (proj2 (Nat.eqb_neq j 0)) by lia.
  apply edit_cell_ext; [lia|lia|]. intros. apply osa_fuel; lia.
Qed.
Lemma osa_distance_0_l a b j : osa_distance a b 0 j = j.
Proof. done. Qed.
Lemma osa_distance_0_r a b i : osa_distance a b i 0 = i.
Proof. unfold osa_distance. simpl. by destruct i. Qed.

(** The table's shape, and its updates. *)
Definition shaped (n m : nat) (d : list (list nat)) : Prop :=
  length d = S n /\ forall i, i <= n -> length (nth i d []) = S m.

Lemma dset_shaped n m d i j v : shaped n m d -> i <= n -> shaped n m (dset d i j v).
Proof.
  intros [H1 H2] Hi. unfold dset. split; [by rewrite length_insert|]. intros i' Hi'.
  rewrite nth_lookup, list_lookup_insert by lia. case_decide as Hd; simpl.
  - destruct Hd as [<- _]. rewrite length_insert. by apply H2.
  - rewrite <- nth_lookup. by apply H2.
Qed.

Lemma dget_dset n m d i j v i' j' :
  shaped n m d -> i <= n -> j <= m -> i' <= n -> j' <= m ->
  dget (dset d i j v) i' j' = if (i =? i') && (j =? j') then v else dget d i' j'.
Proof.
  intros [H1 H2] Hi Hj Hi' Hj'. unfold dget, dset.
  rewrite (nth_lookup (<[i:=_]> d)), list_lookup_insert by lia.
  destruct (decide (i = i')) as [<-|Hne].
  - rewrite decide_True by lia. simpl. rewrite Nat.eqb_refl. simpl.
    rewrite nth_lookup, list_lookup_insert by (rewrite H2; lia).
    destruct (decide (j = j')) as [<-|].
    + rewrite decide_True by (rewrite H2; lia). by rewrite Nat.eqb_refl.
    + rewrite decide_False by naive_solver. rewrite (proj2 (Nat.eqb_neq j j')) by done.
      by rewrite <- nth_lookup.
  - rewrite decide_False by naive_solver. rewrite (proj2 (Nat.eqb_neq i i')) by done. simpl.
    by rewrite <- nth_lookup.
Qed.

Lemma edit_init_spec n m :
  shaped n m (edit_init n m) /\
  (forall i, i <= n -> dget (edit_init n m) i 0 = i) /\ (forall j, j <= m -> dget (edit_init n m) 0 j = j).
Proof.
  unfold edit_init.
  set (d0 := replicate (n + 1) (replicate (m + 1) 0)).
  assert (H0 : shaped n m d0).
  { split; [unfold d0; rewrite length_replicate; lia|]. intros i Hi. unfold d0.
    rewrite nth_lookup, lookup_replicate_2 by lia. simpl. rewrite length_replicate. lia. }
  pose proof (fold_seq_inv (fun k d => shaped n m d /\ forall i, i < k -> i <= n -> dget d i 0 = i)
    (fun d i => dset d i 0 i) 0 (n + 1) d0) as H1. simpl in H1.
  destruct H1 as [Hs1 Hc1]; [split; [done|lia]| |].
  { intros k d Hk [Hs Hc]. split; [apply dset_shaped; [done|lia]|]. intros i Hi Hin.
    rewrite (dget_dset n m) by (done || lia). rewrite Nat.eqb_refl, andb_true_r.
    destruct (k =? i) eqn:E; reflect_bool; [lia|]. apply Hc; lia. }
  set (d1 := fold_left _ (seq 0 (n + 1)) d0) in *. clearbody d1.
  pose proof (fold_seq_inv (fun k d => shaped n m d /\ (forall i, i <= n -> dget d i 0 = i) /\
      forall j, j < k -> j <= m -> dget d 0 j = j)
    (fun d j => dset d 0 j j) 0 (m + 1) d1) as H2. simpl in H2.
  destruct H2 as (Hs2 & Hc2 & Hr2); [split_and!; [done|intros; apply Hc1; lia|lia]| |].
  { intros k d Hk (Hs & Hc & Hr). split_and!; [apply dset_shaped; [done|lia]| |].
    - intros i Hi. rewrite (dget_dset n m) by (done || lia).
      destruct ((0 =? i) && (k =? 0)) eqn:E; [reflect_bool; lia|by apply Hc].
    - intros j Hj Hjm. rewrite (dget_dset n m) by (done || lia).
      destruct ((0 =? 0) && (k =? j)) eqn:E; [reflect_bool; lia|].
      apply Hr; [|done]. simpl in E. reflect_bool. lia. }
  split_and!; [done|done|]. intros j Hj. apply Hr2; lia.
Qed.

(** Cell [i'], [j'] is written before cell [i], [j] in row-major order. *)
Definition before (i j i' j' : nat) : Prop := i' < i \/ i' = i /\ j' < j.

(** The table filled up to cell [i], [j]. *)
Definition filled_to (a b : bytes) (i j : nat) (d : list (list nat)) : Prop :=
  shaped (length a) (length b) d /\
  forall i' j', i' <= length a -> j' <= length b -> i' = 0 \/ j' = 0 \/ before i j i' j' ->
    dget d i' j' = osa_distance a b i' j'.

Lemma filled_cell a b i j d :
  1 <= i <= length a -> 1 <= j <= length b -> filled_to a b i j d ->
  filled_to a b i (S j) (dset d i j (edit_cell a b (dget d) i j)).
Proof.
  intros Hi Hj [Hs Hd]. split; [apply dset_shaped; [done|lia]|].
  intros i' j' Hi' Hj' Hb. rewrite (dget_dset (length a) (length b)) by (done || lia).
  destruct ((i =? i') && (j =? j')) eqn:E.
  - reflect_bool. subst i' j'. rewrite osa_distance_cell by lia. apply edit_cell_ext; [lia|lia|].
    intros x y Hx Hy Hxy. apply Hd; [lia|lia|]. unfold before. lia.
  - apply Hd; [done|done|]. unfold before in *. split_bool; lia.
Qed.

Lemma filled_row a b i d :
  1 <= i <= length a -> filled_to a b i 1 d ->
  filled_to a b (S i) 1 (fold_left (fun d j => dset d i j (edit_cell a b (dget d) i j)) (seq 1 (length b)) d).
Proof.
  intros Hi H.
  pose proof (fold_seq_inv (fun j d => filled_to a b i j d) _ 1 (length b) d H
    (fun j d' Hj Hd => filled_cell a b i j d' Hi ltac:(lia) Hd)) as [Hs Hf].
  split; [done|]. intros i' j' Hi' Hj' Hb. apply Hf; [done|done|]. unfold before in *. lia.
Qed.

(** The table [edit_distance] fills is the optimal-string-alignment distance of
    its recurrence. *)
Lemma edit_distance_osa a b :
  edit_distance a b = osa_distance a b (length a) (length b).
Proof.
  unfold edit_distance. destruct (edit_init_spec (length a) (length b)) as (Hs & Hc & Hr).
  assert (H1 : filled_to a b 1 1 (edit_init (length a) (length b))).
  { split; [done|]. intros i j Hi Hj [->|[->|[?|[? ?]]]].
    - by rewrite Hr.
    - rewrite osa_distance_0_r. by apply Hc.
    - replace i with 0 by lia. by rewrite Hr.
    - replace j with 0 by lia. rewrite osa_distance_0_r. by apply Hc. }
  pose proof (fold_seq_inv (fun i d => filled_to a b i 1 d) _ 1 (length a) _ H1
    (fun i d' Hi Hd => filled_row a b i d' ltac:(lia) Hd)) as [_ Hf].
  apply Hf; [done|done|]. unfold before. lia.
Qed.

Lemma osa_distance_bounds a b i j :
  i - j <= osa_distance a b i j /\ j - i <= osa_distance a b i j /\ osa_distance a b i j <= Nat.max i j.
Proof.
  remember (i + j) as s eqn:Hsum. revert i j Hsum.
  induction (lt_wf s) as [s _ IH]. intros i j ->.
  destruct i as [|i]; [rewrite osa_distance_0_l; lia|].
  destruct j as [|j]; [rewrite osa_distance_0_r; lia|].
  rewrite osa_distance_cell by lia. unfold edit_cell. rewrite !Nat.sub_succ, !Nat.sub_0_r.
  destruct (IH (i + S j) ltac:(lia) i (S j) eq_refl) as (A1 & A2 & A3).
  destruct (IH (S i + j) ltac:(lia) (S i) j eq_refl) as (B1 & B2 & B3).
  destruct (IH (i + j) ltac:(lia) i j eq_refl) as (C1 & C2 & C3).
  destruct (IH (i - 1 + (j - 1)) ltac:(lia) (i - 1) (j - 1) eq_refl) as (D1 & D2 & D3).
  clear IH. destruct (_ && _) eqn:E.
  - reflect_bool. destruct i as [|i]; [lia|]. destruct j as [|j]; [lia|].
    rewrite !Nat.sub_succ, !Nat.sub_0_r in *. case_if; lia.
  - clear D1 D2 D3 E. case_if; lia.
Qed.

Lemma osa_distance_zero a b i :
  i <= length a -> i <= length b -> osa_distance a b i i = 0 <-> take i a = take i b.
Proof.
  induction i as [|i IH]; intros Ha Hb; [done|]. rewrite osa_distance_cell by lia.
  specialize (IH ltac:(lia) ltac:(lia)). unfold edit_cell. rewrite Nat.sub_succ, Nat.sub_0_r.
  rewrite (take_S_r a i _ (at_lookup a i Ha)), (take_S_r b i _ (at_lookup b i Hb)).
  destruct (byte_eqb (at_ a i) (at_ b i)) eqn:E; reflect_bool.
  - rewrite E. split; [intros H|intros H].
    + f_equal. apply IH. case_if_in H; lia.
    + apply app_inj_tail in H as [H _]. apply IH in H. case_if; lia.
  - split; [intros H; case_if_in H; lia|]. intros H. by apply app_inj_tail in H as [_ ?].
Qed.

(** The distance is at least the difference of the lengths and at most the
    longer length, and is zero only between equal words. *)
Lemma edit_distance_bounds a b :
  length a - length b <= edit_distance a b /\ length b - length a <= edit_distance a b /\
  edit_distance a b <= Nat.max (length a) (length b) /\
  (edit_distance a b = 0 <-> a = b).
Proof.
  rewrite edit_distance_osa.
  pose proof (osa_distance_bounds a b (length a) (length b)) as (H1 & H2 & H3).
  split_and!; [done|done|done|]. destruct (decide (length a = length b)) as [Hl|Hl].
  - rewrite <- Hl at 1. rewrite osa_distance_zero by lia. by rewrite take_ge, Hl, take_ge by lia.
  - split; [lia|]. by intros ->.
Qed.

(** [nearest_spelling] without the length filter. *)
Definition nearest_step_all (goal : bytes) (s : bytes * option nat) (rw : row) (sp : spelling)
    : (bytes * option nat) * bool :=
  if has_flag (rw_flags rw) rf_hidden then (s, false)
  else
    let cand := spelling_candidate sp in
    let d := edit_distance goal cand in
    if (d <=? edit_cutoff (length goal) (length cand))
       && match s.2 with None => true | Some best_d => d <? best_d end
    then ((cand, Some d), false) else (s, false).

Lemma nearest_step_filter goal s rw sp : nearest_step goal s rw sp = nearest_step_all goal s rw sp.
Proof.
  unfold nearest_step, nearest_step_all. destruct (has_flag _ _); [done|].
  set (cand := spelling_candidate sp). pose proof (edit_distance_bounds goal cand) as (H1 & H2 & _).
  set (gap := if length cand <? length goal then _ else _).
  assert (gap <= edit_distance goal cand) by (unfold gap; case_if; lia).
  destruct (edit_cutoff _ _ <? gap) eqn:E; [|done]. reflect_bool.
  by rewrite (proj2 (Nat.leb_gt _ _)) by lia.
Qed.

Lemma each_ext {St} l (f g : St -> row -> spelling -> St * bool) s :
  (forall s rw sp, f s rw sp = g s rw sp) -> each l f s = each l g s.
Proof.
  intros H. revert s. induction l as [|[rw sp] l IH]; intros s; simpl; [done|].
  rewrite H. destruct (g s rw sp) as [s' []]; [done|apply IH].
Qed.

(** The nearest spelling: a visible candidate within its cutoff, and no other
    visible candidate within its own is nearer; [None] when there is none. *)
Definition candidate (t : table) (goal cand : bytes) : Prop :=
  exists rw sp, (rw, sp) ∈ all_spellings t /\ has_flag (rw_flags rw) rf_hidden = false /\
    cand = spelling_candidate sp /\ edit_distance goal cand <= edit_cutoff (length goal) (length cand).

Definition best_of (P : bytes -> Prop) (goal : bytes) (s : bytes * option nat) : Prop :=
  match s.2 with
  | None => s.1 = [] /\ forall c, ~ P c
  | Some d => P s.1 /\ d = edit_distance goal s.1 /\ forall c, P c -> d <= edit_distance goal c
  end.

Lemma best_of_iff P Q goal s : (forall c, P c <-> Q c) -> best_of P goal s -> best_of Q goal s.
Proof.
  intros H. unfold best_of. destruct (s.2).
  - intros (H1 & H2 & H3). split_and!; [by apply H|done|]. intros c Hc. by apply H3, H.
  - intros [H1 H2]. split; [done|]. intros c Hc. by apply (H2 c), H.
Qed.

Lemma nearest_step_best goal P s rw sp s' stop :
  best_of P goal s -> nearest_step_all goal s rw sp = (s', stop) ->
  stop = false /\
  best_of (fun c => P c \/ has_flag (rw_flags rw) rf_hidden = false /\
    c = spelling_candidate sp /\ edit_distance goal c <= edit_cutoff (length goal) (length c)) goal s'.
Proof.
  intros Hs. unfold nearest_step_all. destruct (has_flag _ _) eqn:Eh.
  { intros [= <- <-]. split; [done|]. eapply best_of_iff; [|exact Hs]. naive_solver. }
  set (cand := spelling_candidate sp). destruct (_ && _) eqn:E; intros [= <- <-]; split; try done.
  - reflect_bool. unfold best_of in *; simpl. split_and!; [by right; split_and!|done|].
    intros c [Hc|(_ & -> & _)]; [|lia]. destruct s as [b [d|]]; simpl in *.
    + destruct Hs as (_ & -> & Hmin). specialize (Hmin c Hc). reflect_bool. lia.
    + destruct Hs as [_ Hno]. by destruct (Hno c).
  - unfold best_of in *. destruct s as [b [d|]]; simpl in *.
    + destruct Hs as (H1 & -> & Hmin). split_and!; [by left|done|].
      intros c [Hc|(_ & -> & Hd)]; [by apply Hmin|]. split_bool; lia.
    + destruct Hs as [H1 Hno]. split; [done|]. intros c [Hc|(_ & -> & Hd)]; [by apply (Hno c)|].
      split_bool; [lia|done].
Qed.

Lemma each_best goal (P : bytes -> Prop) l s :
  best_of P goal s ->
  best_of (fun c => P c \/ exists rw sp, (rw, sp) ∈ l /\ has_flag (rw_flags rw) rf_hidden = false /\
      c = spelling_candidate sp /\ edit_distance goal c <= edit_cutoff (length goal) (length c)) goal
    (each l (nearest_step_all goal) s).
Proof.
  revert P s. induction l as [|[rw sp] l IH]; intros P s Hs; simpl.
  { eapply best_of_iff; [|exact Hs]. intros c. split; [by auto|].
    intros [?|(? & ? & H & _)]; [done|]. by apply not_elem_of_nil in H. }
  set (Q c := has_flag (rw_flags rw) rf_hidden = false /\
      c = spelling_candidate sp /\ edit_distance goal c <= edit_cutoff (length goal) (length c)).
  destruct (nearest_step_all goal s rw sp) as [s' stop] eqn:Estep.
  destruct (nearest_step_best goal P s rw sp s' stop Hs Estep) as [-> Hs'].
  eapply best_of_iff; [|apply (IH _ _ Hs')]. intros c. simpl. setoid_rewrite elem_of_cons.
  split; [intros [[?|?]|(rw' & sp' & ? & ?)]; [by left|right; exists rw, sp; by auto|right; exists rw', sp'; by auto]|].
  intros [?|(rw' & sp' & [[= -> ->]|?] & ?)]; [by do 2 left|by left; right|right; exists rw', sp'; by auto].
Qed.

(** The suggestion for a mistyped option is a nearest visible spelling
    among those within their cutoff, and is empty only when there is none; the
    length filter of the scan loses nothing. *)
Theorem nearest_spelling_best t word :
  let goal := nearest_goal word in
  let best := nearest_spelling t word in
  (candidate t goal best /\ forall c, candidate t goal c -> edit_distance goal best <= edit_distance goal c) \/
  (best = [] /\ forall c, ~ candidate t goal c).
Proof.
  simpl. unfold nearest_spelling, each_spelling. set (goal := nearest_goal word).
  rewrite (each_ext _ _ (nearest_step_all goal)) by (intros; apply nearest_step_filter).
  pose proof (each_best goal (fun _ => False) (all_spellings t) ([], None)) as H.
  specialize (H ltac:(by split; [|intros ? []])).
  set (s := each _ _ _) in *. clearbody s. unfold best_of in H.
  assert (Hc : forall c, candidate t goal c <-> (False \/ exists rw sp, (rw, sp) ∈ all_spellings t /\
      has_flag (rw_flags rw) rf_hidden = false /\ c = spelling_candidate sp /\
      edit_distance goal c <= edit_cutoff (length goal) (length c))) by (intros c; unfold candidate; tauto).
  destruct s as [best [d|]]; simpl in *.
  - left. destruct H as (H1 & -> & H3). split; [by apply Hc|]. intros c Hcc. by apply H3, Hc.
  - right. destruct H as [-> H]. split; [done|]. intros c Hcc. by apply (H c), Hc.
Qed.

(** ** [match_word] *)

Lemma each_stop_at p l :
  match each l (stop_at p) None with
  | Some (rw, sp) => (rw, sp) ∈ l /\ p rw sp = true
  | None => forall rw sp, (rw, sp) ∈ l -> p rw sp = false
  end.
Proof.
  induction l as [|[rw sp] l IH]; simpl; [intros rw sp H; by apply not_elem_of_nil in H|].
  unfold stop_at at 1. destruct (p rw sp) eqn:E.
  - split; [by left|done].
  - destruct (each l (stop_at p) None) as [[rw' sp']|].
    + destruct IH as [? ?]. split; [by right|done].
    + intros rw' sp' [[= -> ->]|?]%elem_of_cons; [done|by apply IH].
Qed.

Definition glued_to (word : bytes) (sp : spelling) : bool :=
  takes_glued (sp_form sp) && (0 <? length (sp_text sp)) && starts_with word (sp_text sp).

Lemma each_longest word l n o :
  match each l (longest_step word) (n, o) with
  | (n', o') =>
      n <= n' /\ (forall rw sp, (rw, sp) ∈ l -> glued_to word sp = true -> length (sp_text sp) <= n') /\
      ((n' = n /\ o' = o) \/
       exists rw sp, o' = Some (rw, sp) /\ (rw, sp) ∈ l /\ glued_to word sp = true /\ n' = length (sp_text sp))
  end.
Proof.
  revert n o. induction l as [|[rw sp] l IH]; intros n o; simpl.
  { split_and!; [lia|intros rw sp H; by apply not_elem_of_nil in H|by left]. }
  unfold longest_step at 1. simpl. destruct (_ && _) eqn:E.
  - specialize (IH (length (sp_text sp)) (Some (rw, sp))).
    destruct (each l _ _) as [n' o']. destruct IH as (H1 & H2 & H3). reflect_bool.
    assert (Hg : glued_to word sp = true).
    { unfold glued_to. rewrite !andb_true_iff. split_and!; try done. apply Nat.ltb_lt. lia. }
    split_and!; [lia| |].
    + intros rw' sp' [[= -> ->]|?]%elem_of_cons Hg'; [lia|by eapply H2].
    + right. destruct H3 as [[-> ->]|(rw' & sp' & -> & Hin & Hg' & ->)].
      * exists rw, sp. by split_and!; [|left| |].
      * exists rw', sp'. by split_and!; [|right| |].
  - specialize (IH n o). destruct (each l _ _) as [n' o']. destruct IH as (H1 & H2 & H3).
    split_and!; [done| |].
    + intros rw' sp' [[= -> ->]|?]%elem_of_cons Hg'; [|by eapply H2].
      unfold glued_to in Hg'. reflect_bool.
      destruct (n <? length (sp_text sp)) eqn:En; reflect_bool; [|lia].
      repeat match goal with H : _ = true |- _ => rewrite H in E end. done.
    + destruct H3 as [?|(rw' & sp' & -> & Hin & Hg' & ->)]; [by left|].
      right. exists rw', sp'. by split_and!; [|right| |].
Qed.

(** How a word reads as a spelling: the four ways [match_word] tries, in order. *)
Inductive reads (word : bytes) (rw : row) (sp : spelling) : match_ -> Prop :=
| reads_bare :
    takes_bare_word (sp_form sp) = true -> word = sp_text sp ->
    reads word rw sp (Match (Some (rw, sp)) false [] false)
| reads_equals value :
    takes_equals (sp_form sp) = true -> word = sp_text sp ++ B "=" ++ value ->
    reads word rw sp (Match (Some (rw, sp)) true value false)
| reads_glued value :
    takes_glued (sp_form sp) = true -> word = sp_text sp ++ value -> sp_text sp <> [] ->
    reads word rw sp (Match (Some (rw, sp)) true value false)
| reads_negated name :
    has_flag (rw_flags rw) rf_negatable = true -> sp_form sp = none ->
    sp_text sp = B "--" ++ name -> word = B "--no-" ++ name ->
    reads word rw sp (Match (Some (rw, sp)) false [] true).

(** What [match_word] finds is a spelling of the table and accounts for the
    whole word: the spelling with its value, or the negated flag; and it finds
    nothing only when the word is no visible-or-hidden spelling in any of the
    first three ways. *)
Lemma match_word_spec t word :
  match m_option (match_word t word) with
  | Some (rw, sp) => (rw, sp) ∈ all_spellings t /\ reads word rw sp (match_word t word)
  | None =>
      m_has_value (match_word t word) = false /\
      (2 <= length word -> at_ word 0 = "-"%char ->
       forall rw sp, (rw, sp) ∈ all_spellings t ->
         ~ (takes_bare_word (sp_form sp) = true /\ word = sp_text sp) /\
         glued_to word sp = false)
  end.
Proof.
  unfold match_word, each_spelling, match_none. case_if; simpl.
  { split; [done|]. intros Hl Hd. split_bool; [lia|]. by rewrite Hd in *. }
  pose proof (each_stop_at (fun _ sp => takes_bare_word (sp_form sp) && bytes_eqb word (sp_text sp)) (all_spellings t)) as H1.
  destruct (each _ _ None) as [[rw sp]|]; simpl.
  { destruct H1 as [Hin Hp]. reflect_bool. split; [done|by apply reads_bare]. }
  destruct (match find_char _ word with None => None | Some eq => _ end) as [[[rw sp] eq]|] eqn:E2; simpl.
  { destruct (find_char "="%char word) as [k|] eqn:Ef; [|done].
    pose proof (each_stop_at (fun _ sp => takes_equals (sp_form sp) && bytes_eqb (take k word) (sp_text sp)) (all_spellings t)) as H2.
    destruct (each _ _ None) as [[rw' sp']|]; simpl in E2; [|done]. injection E2 as -> -> ->.
    destruct H2 as [Hin Hp]. reflect_bool. split; [done|]. apply reads_equals; [done|].
    destruct (find_char_Some _ _ _ Ef) as [Hw _]. rewrite Nat.add_1_r.
    match goal with H : take eq word = _ |- _ => rewrite <- H end. exact Hw. }
  clear E2. pose proof (each_longest word (all_spellings t) 0 None) as H3.
  destruct (each _ _ (0, None)) as [n o]. destruct H3 as (_ & Hmax & Ho).
  destruct Ho as [[-> ->]|(rw & sp & -> & Hin & Hg & ->)]; simpl.
  2:{ split; [done|]. unfold glued_to in Hg. reflect_bool. apply reads_glued; [done| |].
      - by apply starts_with_inv.
      - intros Hn. rewrite Hn in *. simpl in *. lia. }
  assert (Hno : 2 <= length word -> at_ word 0 = "-"%char ->
       forall rw sp, (rw, sp) ∈ all_spellings t ->
         ~ (takes_bare_word (sp_form sp) = true /\ word = sp_text sp) /\ glued_to word sp = false).
  { intros _ _ rw sp Hin. split.
    - intros [Hb Hw]. specialize (H1 rw sp Hin). by rewrite Hb, <- Hw, bytes_eqb_refl in H1.
    - destruct (glued_to word sp) eqn:Hg; [|done]. specialize (Hmax rw sp Hin Hg).
      unfold glued_to in Hg. reflect_bool. lia. }
  destruct (starts_with word (B "--no-")) eqn:Es; simpl; [|by split].
  pose proof (each_stop_at (fun rw sp => has_flag (rw_flags rw) rf_negatable
     && bool_decide (sp_form sp = none) && bytes_eqb (B "--" ++ drop 5 word) (sp_text sp)) (all_spellings t)) as H4.
  destruct (each _ _ None) as [[rw sp]|]; simpl; [|by split].
  destruct H4 as [Hin Hp]. reflect_bool. split; [done|].
  apply (reads_negated _ _ _ (drop 5 word)); [done|done| |].
  { match goal with H : _ = sp_text sp |- _ => symmetry; exact H end. }
  by apply (starts_with_inv word (B "--no-")).
Qed.

(** ** [split_response_text] *)

Lemma drop_spaces_length s : length (drop_spaces s) <= length s.
Proof. induction s as [|c s IH]; simpl; [lia|]. case_if; simpl; lia. Qed.

Lemma drop_spaces_head s c r : drop_spaces s = c :: r -> isspace c = false.
Proof. induction s as [|d s IH]; simpl; [done|]. case_if; [apply IH|by intros [= <- _]]. Qed.

Lemma read_word_length s q d b arg : length (read_word s q d b arg).2 <= length s.
Proof.
  revert q d b arg. induction s as [|c s IH]; intros q d b arg; simpl; [lia|].
  repeat case_if; simpl; try lia; match goal with |- context [read_word s ?q ?d ?b ?a] =>
    specialize (IH q d b a) end; lia.
Qed.

Lemma read_word_progress c s arg :
  isspace c = false -> length (read_word (c :: s) false false false arg).2 <= length s.
Proof. intros Hc. simpl. rewrite Hc. simpl. repeat case_if; apply read_word_length. Qed.

#[local] Arguments read_word : simpl never.

(** The words of a response text, as the big steps of the scan. *)
Inductive splits : bytes -> list bytes -> Prop :=
| splits_end s : drop_spaces s = [] -> splits s []
| splits_word s w rest ws :
    drop_spaces s <> [] -> read_word (drop_spaces s) false false false [] = (w, rest) ->
    splits rest ws -> splits s (w :: ws).

Lemma split_loop s ws :
  splits s ws -> forall fuel out, length s < fuel -> loop fuel split_body (s, out) = Some (out ++ ws).
Proof.
  induction 1 as [s Hs|s w rest ws Hs Hr _ IH]; intros [|fuel] out Hf; try lia; simpl.
  - by rewrite Hs, app_nil_r.
  - destruct (drop_spaces s) as [|c r] eqn:Hd; [done|]. rewrite Hr, IH; [by rewrite <- app_assoc|].
    pose proof (drop_spaces_length s) as H1. rewrite Hd in H1. simpl in H1.
    pose proof (read_word_progress c r [] (drop_spaces_head s c r Hd)) as H2. rewrite Hr in H2. simpl in H2. lia.
Qed.

Lemma split_response_text_splits s ws : splits s ws -> split_response_text s = ws.
Proof. intros H. unfold split_response_text. by rewrite (split_loop s ws H) by lia. Qed.

(** The scan is total: every text has its words. *)
Lemma splits_total s : exists ws, splits s ws.
Proof.
  remember (length s) as n eqn:Hn. revert s Hn. induction (lt_wf n) as [n _ IH]. intros s ->.
  destruct (drop_spaces s) as [|c r] eqn:Hd; [exists []; by constructor|].
  destruct (read_word (c :: r) false false false []) as [w rest] eqn:Hr.
  destruct (IH (length rest)) with (s := rest) as [ws Hws]; [|done|].
  - pose proof (drop_spaces_length s) as H1. rewrite Hd in H1. simpl in H1.
    pose proof (read_word_progress c r [] (drop_spaces_head s c r Hd)) as H2. rewrite Hr in H2. simpl in H2. lia.
  - exists (w :: ws). eapply splits_word; [by rewrite Hd|by rewrite Hd, Hr|done].
Qed.

(** ** The reader *)

#[global] Opaque response_file_limit.

Section ReaderProofs.
Context (host : Host).

(** A value of a row: of its type, and one of its choices. *)
Definition value_ok (rw : row) (v : bytes) : Prop :=
  match rw_type rw with
  | integer => whole_integer v = true
  | number => whole_number host v = true
  | boolean => is_Some (parse_boolean v)
  | text | path => True
  end /\
  match rw_choices rw with None => True | Some cs => v ∈ cs end.

Lemma check_value_good rw o what r o' r' :
  check_value host rw o what r = (true, o', r') ->
  r' = r /\ value_ok rw (o_value o') /\
  o_id o' = o_id o /\ o_negated o' = o_negated o /\ o_source o' = o_source o /\
  o_spelled o' = o_spelled o.
Proof.
  unfold check_value, value_ok.
  assert (Hcs : forall v cs, existsb (bytes_eqb v) cs = true -> v ∈ cs).
  { intros v cs. rewrite existsb_exists. intros (c & Hc & Heq). apply bytes_eqb_eq in Heq as ->.
    by apply list_elem_of_In. }
  destruct (rw_type rw); repeat case_if; simpl; reflect_bool; try done.
  all: destruct (rw_choices rw) as [cs|]; [case_if|]; intros [= <- <-]; simpl; split_and!; auto.
Qed.

(** Only a failing check touches the result, and it reports an error. *)
Lemma check_value_bad rw o what r o' r' :
  check_value host rw o what r = (false, o', r') -> ok r' = false.
Proof.
  unfold check_value. destruct (rw_type rw); repeat case_if; simpl; try by intros [= _ <-].
  all: destruct (rw_choices rw) as [cs|]; [case_if|]; try done; by intros [= _ <-].
Qed.

Lemma take_1_drop {A} (l : list A) k d : k < length l -> take 1 (drop k l) = [nth k l d].
Proof.
  intros Hk. destruct (lookup_lt_is_Some_2 l k Hk) as [x Hx].
  rewrite (drop_S _ _ _ Hx), nth_lookup, Hx. done.
Qed.

(** What a successful step may do to the words: nothing, or expand @files (and
    then the count of expansions grew, within the limit). *)
Definition grew (t : table) (rd rd' : reader) : Prop :=
  (_words rd' = _words rd /\ _expansions rd' = _expansions rd) \/
  (t_response_files t = true /\ _expansions rd < _expansions rd' <= response_file_limit).

Lemma grew_refl t rd : grew t rd rd.
Proof. by left. Qed.

(** [ws'] is [ws] with words [@path] replaced by the words of the file [path]. *)
Inductive expands (t : table) : list bytes -> list bytes -> Prop :=
| ex_none ws : expands t ws ws
| ex_file pre path contents post ws : t_response_files t = true -> path <> [] -> host_file host (c_str path) = regular_file contents ->
    expands t (pre ++ split_response_text contents ++ post) ws -> expands t (pre ++ ("@"%char :: path) :: post) ws.
(** A word that stays: no [@path] of a file that can be read. *)
Definition plain_word (t : table) (w : bytes) : Prop :=
  t_response_files t = true -> forall path contents, w = "@"%char :: path -> path <> [] -> host_file host (c_str path) <> regular_file contents.

Lemma not_regular_plain t w : (forall c, host_file host (c_str (drop 1 w)) <> regular_file c) -> plain_word t w.
Proof. intros H _ path contents -> _. apply H. Qed.
Lemma expands_trans t a b c : expands t a b -> expands t b c -> expands t a c.
Proof. induction 1; intros; [done|econstructor; eauto]. Qed.
Lemma expands_no_files t a b : expands t a b -> t_response_files t = false -> b = a.
Proof. intros [|]; congruence. Qed.

(** Words from [k] on were expanded, if any. *)
Definition spliced (t : table) (k : nat) (ws ws' : list bytes) : Prop := expands t ws ws' /\ take k ws' = take k ws.
Lemma spliced_refl t k ws : spliced t k ws ws.
Proof. split; [constructor|done]. Qed.
Lemma spliced_trans t j k a b c : j <= k -> spliced t j a b -> spliced t k b c -> spliced t j a c.
Proof.
  intros Hk [H1 H2] [H3 H4]. split; [by eapply expands_trans|]. rewrite <- H2. apply (f_equal (take j)) in H4.
  by rewrite !take_take, !Nat.min_l in H4 by lia.
Qed.
Lemma spliced_file t k ws path contents : k < length ws -> t_response_files t = true -> 1 < length (nth k ws []) -> byte_eqb (at_ (nth k ws []) 0) "@"%char = true ->
  path = drop 1 (nth k ws []) -> host_file host (c_str path) = regular_file contents ->
  spliced t k ws (take k ws ++ split_response_text contents ++ drop (k + 1) ws).
Proof.
  intros Hk Hf Hl Ha Hp Hh. assert (E : ws = take k ws ++ ("@"%char :: path) :: drop (k + 1) ws).
  { rewrite <- (take_drop k ws) at 1. f_equal. destruct (lookup_lt_is_Some_2 ws k Hk) as [w Hw]. rewrite (drop_S _ _ _ Hw), Nat.add_1_r. f_equal.
    assert (Hn : nth k ws [] = w) by (by rewrite nth_lookup, Hw). rewrite Hn in Hl, Ha, Hp. destruct w as [|c w]; [simpl in Hl; lia|]. apply byte_eqb_eq in Ha. change (at_ (c :: w) 0) with c in Ha. by rewrite Ha, Hp. }
  split.
  - rewrite E at 1. eapply ex_file; [done| |done|constructor]. intros ->. apply (f_equal length) in Hp. rewrite length_drop in Hp. simpl in Hp. lia.
  - by rewrite take_app_le, take_take, Nat.min_id by (rewrite length_take; lia).
Qed.

Lemma fetch_spec t rd k :
  _expansions rd <= response_file_limit ->
  let '(b, rd') := fetch host t rd k in
  (b = true -> k < length (_words rd') /\ grew t rd rd' /\ _r rd' = _r rd) /\
  (b = false -> ok (_r rd') = true -> length (_words rd') <= k /\ grew t rd rd' /\ _r rd' = _r rd) /\
  (ok (_r rd') = true -> spliced t k (_words rd) (_words rd') /\ (b = true -> plain_word t (word_at rd' k))).
Proof.
  intros He. unfold fetch.
  edestruct (loop_total
    (fun s => _expansions s <= response_file_limit /\ grew t rd s /\ _r s = _r rd /\ spliced t k (_words rd) (_words s))
    (fun b : bool * reader =>
      (b.1 = true -> k < length (_words b.2) /\ grew t rd b.2 /\ _r b.2 = _r rd) /\
      (b.1 = false -> ok (_r b.2) = true -> length (_words b.2) <= k /\ grew t rd b.2 /\ _r b.2 = _r rd) /\
      (ok (_r b.2) = true -> spliced t k (_words rd) (_words b.2) /\ (b.1 = true -> plain_word t (word_at b.2 k))))
    (fun s => response_file_limit - _expansions s) (fetch_body host t k)) as ([b rd'] & -> & HQ).
  - intros s (Hs & Hg & Hr & Hsp). unfold fetch_body.
    destruct (_ && _) eqn:E.
    + reflect_bool. destruct (host_file host _) eqn:Eh; simpl;
        try (split; [done|]; split; [done|]; intros _; split; [done|]; intros _; apply not_regular_plain; intros c; rewrite Eh; done).
      * split; [done|]. by split.
      * case_if; reflect_bool; simpl; [split; [done|]; by split|].
        split; [|lia]. split_and!; [lia| |done|].
        -- right. split; [done|]. simpl. destruct Hg as [[_ ?]|[_ ?]]; lia.
        -- eapply spliced_trans; [apply Nat.le_refl|exact Hsp|]. eapply spliced_file; try done. by apply byte_eqb_eq.
    + simpl. split_and!.
      * intros Hk. reflect_bool. done.
      * intros Hk _. reflect_bool. split_and!; [lia|done|done].
      * intros _. split; [done|]. intros Hk. reflect_bool. intros Hf path contents Hw Hne. exfalso. rewrite Hf in E. destruct path as [|c path]; [done|].
        rewrite Hw, (proj2 (Nat.ltb_lt k _) Hk) in E. by simpl in E.
  - split_and!; [done|apply grew_refl|done|apply spliced_refl].
  - lia.
  - exact HQ.
Qed.

Lemma fetch_no_files t rd k :
  t_response_files t = false -> fetch host t rd k = (k <? length (_words rd), rd).
Proof.
  intros Hf. unfold fetch. rewrite Nat.add_comm. simpl. unfold fetch_body. rewrite Hf. done.
Qed.

Lemma grew_trans t a b c : grew t a b -> grew t b c -> grew t a c.
Proof.
  intros [[H1 H2]|[H1 H2]] [[H3 H4]|[H3 H4]]; [left; split; congruence|right; split; [done|lia]..].
Qed.

Lemma grew_same_words t a b : grew t a b -> t_response_files t = false -> _words b = _words a.
Proof. intros [[? _]|[H _]] Hf; congruence. Qed.

(** An occurrence the command line put there: of a row of the table, with no
    value or one the row's type and choices allow. *)
Definition occurrence_ok (t : table) (o : occurrence) : Prop :=
  exists rw sp, (rw, sp) ∈ all_spellings t /\ o_id o = rw_id rw /\
    (o_value o = [] \/ value_ok rw (o_value o)).

Lemma not_carries f v : carries_value f v = false -> f = none \/ v = [].
Proof.
  unfold carries_value. destruct (bool_decide (f = none)) eqn:E; reflect_bool; [by left|].
  intros H. reflect_bool. by right.
Qed.

(** What [fetch] and [check_value] settle for an occurrence about to be added. *)
Lemma fetch_good t rd k rd' :
  _expansions rd <= response_file_limit -> fetch host t rd k = (true, rd') ->
  k < length (_words rd') /\ grew t rd rd' /\ _r rd' = _r rd /\
  (ok (_r rd) = true -> spliced t k (_words rd) (_words rd') /\ plain_word t (word_at rd' k)).
Proof.
  intros He Hf. pose proof (fetch_spec t rd k He) as H. rewrite Hf in H. destruct H as (H1 & _ & H2).
  destruct (H1 eq_refl) as (? & ? & Hr). split_and!; try done. intros Ho. rewrite Hr in H2. destruct (H2 Ho) as [? H3]. auto.
Qed.

Lemma checked_ok t rw sp o v what r o' r' :
  (rw, sp) ∈ all_spellings t -> o_id o = rw_id rw -> o_value o = v ->
  (sp_form sp = none -> v = []) ->
  (if carries_value (sp_form sp) v then check_value host rw o what r else (true, o, r)) = (true, o', r') ->
  r' = r /\ occurrence_ok t o'.
Proof.
  intros Hin Hid <- Hnone. destruct (carries_value _ _) eqn:Ec.
  - intros (-> & Hv & Hid' & _)%check_value_good. split; [done|].
    exists rw, sp. split_and!; [done|congruence|by right].
  - intros [= <- <-]. split; [done|]. exists rw, sp. split_and!; [done|done|left].
    apply not_carries in Ec as [?|?]; [by apply Hnone|done].
Qed.

Lemma letter_spelling_in t letter rw sp :
  letter_spelling t letter = Some (rw, sp) -> (rw, sp) ∈ all_spellings t.
Proof.
  unfold letter_spelling, each_spelling.
  pose proof (each_stop_at (fun _ s => bytes_eqb letter (sp_text s)) (all_spellings t)) as H.
  intros E. rewrite E in H. by apply H.
Qed.

(** The words behind [i] up to [i'] were taken, each a word that stays. *)
Definition took (t : table) (rd rd' : reader) (i i' : nat) : Prop :=
  spliced t (i + 1) (_words rd) (_words rd') /\ Forall (plain_word t) (take (i' - i) (drop (i + 1) (_words rd'))).
Lemma took_none t rd i : took t rd rd i i.
Proof. split; [apply spliced_refl|]. rewrite Nat.sub_diag. constructor. Qed.
Lemma took_one t rd rd' i : i + 1 < length (_words rd') -> spliced t (i + 1) (_words rd) (_words rd') -> plain_word t (word_at rd' (i + 1)) ->
  take (i + 1 - i) (drop (i + 1) (_words rd')) = [word_at rd' (i + 1)] /\ took t rd rd' i (i + 1).
Proof.
  intros Hk Hs Hp. assert (E : take (i + 1 - i) (drop (i + 1) (_words rd')) = [word_at rd' (i + 1)]).
  { replace (i + 1 - i) with 1 by lia. by apply take_1_drop. }
  split; [done|]. split; [done|]. rewrite E. by constructor.
Qed.

Lemma read_letters_good t word rest k rd i got consumed got' consumed' i' rd' :
  _expansions rd <= response_file_limit -> i < length (_words rd) -> ok (_r rd) = true ->
  read_letters host t word rest k rd i got consumed = (Some (got', consumed', i'), rd') ->
  i <= i' < length (_words rd') /\ grew t rd rd' /\ _r rd' = _r rd /\
  (consumed' = consumed ++ take (i' - i) (drop (i + 1) (_words rd')) /\ took t rd rd' i i') /\
  exists os, got' = got ++ os /\ Forall (occurrence_ok t) os.
Proof.
  intros He Hi Hok. revert k got. induction rest as [|c rest IH]; intros k got; simpl.
  { intros [= <- <- <- <-]. split_and!; [lia|lia|apply grew_refl|done| |apply took_none|].
    - by rewrite Nat.sub_diag, take_0, app_nil_r.
    - exists []. by rewrite app_nil_r. }
  destruct (letter_spelling t _) as [[owner sp]|] eqn:El; [|done].
  pose proof (letter_spelling_in _ _ _ _ El) as Hin. clear El.
  case_if; [done|]. destruct (bool_decide (sp_form sp = none)) eqn:En; reflect_bool.
  { intros H. apply IH in H as (H1 & H2 & H3 & H4 & os & -> & Hos).
    refine (conj H1 (conj H2 (conj H3 (conj H4 _)))). eexists. rewrite <- app_assoc. split; [done|]. constructor; [|done].
    exists owner, sp. by split_and!; [| |left]. }
  clear IH. set (value := drop (k + 1) word).
  destruct (bool_decide (value = []) && value_follows (sp_form sp)).
  - destruct (fetch host t rd (i + 1)) as [[] rd1] eqn:Ef; simpl; [|by destruct (ok (_r rd1))].
    apply fetch_good in Ef as (Hk & Hg & Hr & Hsp); [|done]. destruct (Hsp Hok) as [Hs Hpl]. destruct (took_one t rd rd1 i Hk Hs Hpl) as [Etake Htook].
    destruct (if carries_value _ _ then _ else _) as [[good o'] r'] eqn:Ec. destruct good; [|done].
    apply (checked_ok t) in Ec as [-> Ho]; [|done|done|done|done].
    intros [= <- <- <- <-]. cbn [set_r _words _r]. split_and!; [lia|lia|exact Hg|done| |exact Htook|].
    + by rewrite Etake.
    + exists [o']. split; [done|by constructor].
  - destruct (bool_decide (value = []) && bool_decide (sp_form sp = joined)); [done|].
    destruct (if carries_value _ _ then _ else _) as [[good o'] r'] eqn:Ec. destruct good; [|done].
    apply (checked_ok t) in Ec as [-> Ho]; [|done|done|done|done].
    intros [= <- <- <- <-]. cbn [set_r _words _r]. split_and!; [lia|lia|by left|done| |exact (took_none t rd i)|].
    + by rewrite Nat.sub_diag, take_0, app_nil_r.
    + exists [o']. split; [done|by constructor].
Qed.

(** Two results that differ in the words of their options alone. *)
Definition same_but_words (r r' : result) : Prop :=
  r_options r' = r_options r /\ r_operands r' = r_operands r /\
  r_remainder r' = r_remainder r /\ r_error r' = r_error r.

Lemma take_drop_head {A} (l : list A) i n d :
  i < length l -> take (S n) (drop i l) = nth i l d :: take n (drop (i + 1) l).
Proof.
  intros Hi. destruct (lookup_lt_is_Some_2 l i Hi) as [x Hx].
  by rewrite (drop_S _ _ _ Hx), nth_lookup, Hx, Nat.add_1_r.
Qed.

Lemma take_value_good t m f word rd i rd' i' v :
  _expansions rd <= response_file_limit -> i < length (_words rd) -> ok (_r rd) = true ->
  take_value host t m f word rd i = (true, rd', i', v) ->
  i <= i' < length (_words rd') /\ grew t rd rd' /\ same_but_words (_r rd) (_r rd') /\
  (r_option_words (_r rd') = r_option_words (_r rd) ++ take (i' - i) (drop (i + 1) (_words rd')) /\ took t rd rd' i i') /\
  (m_has_value m = false -> value_follows f = false -> v = []).
Proof.
  intros He Hi Hok. unfold take_value.
  assert (Hsame : i <= i < length (_words rd) /\ grew t rd rd /\ same_but_words (_r rd) (_r rd) /\
    r_option_words (_r rd) = r_option_words (_r rd) ++ take (i - i) (drop (i + 1) (_words rd)) /\ took t rd rd i i).
  { split; [lia|]. split; [apply grew_refl|]. split; [done|]. split; [by rewrite Nat.sub_diag, take_0, app_nil_r|apply took_none]. }
  destruct Hsame as (S1 & S2 & S3 & S4 & S5).
  destruct (m_has_value m); [case_if; [done|]; by intros [= <- <- <-]|].
  destruct (value_follows f); simpl; [|by intros [= <- <- <-]].
  destruct (fetch host t rd (i + 1)) as [[] rd1] eqn:Ef; simpl; [|done].
  apply fetch_good in Ef as (Hk & Hg & Hr & Hsp); [|done]. destruct (Hsp Hok) as [Hs Hpl]. destruct (took_one t rd rd1 i Hk Hs Hpl) as [Etake Htook].
  intros [= <- <- <-]. cbn [set_r _words _r push_option_words r_option_words]. rewrite Etake. simpl. rewrite Hr.
  split; [lia|]. split; [exact Hg|]. split; [done|]. split; [|done]. split; [done|exact Htook].
Qed.

(** What a successful [read_option] guarantees. *)
Record read_ok (t : table) (rd : reader) (i : nat) (rd' : reader) (i' : nat) : Prop := {
  ro_index : i < i' <= length (_words rd');
  ro_grew : grew t rd rd';
  ro_words : r_option_words (_r rd') = r_option_words (_r rd) ++ take (i' - i) (drop i (_words rd'));
  ro_took : took t rd rd' i (i' - 1);
  ro_operands : r_operands (_r rd') = r_operands (_r rd);
  ro_remainder : r_remainder (_r rd') = r_remainder (_r rd);
  ro_error : r_error (_r rd') = r_error (_r rd);
  ro_options : exists os, r_options (_r rd') = r_options (_r rd) ++ os /\ Forall (occurrence_ok t) os
}.

(** The words up to an index are there still. *)
Lemma spliced_at t k ws ws' i d : spliced t k ws ws' -> i < k -> k <= length ws -> nth i ws' d = nth i ws d.
Proof. intros [_ H] Hi Hl. rewrite !nth_lookup. rewrite <- (lookup_take_lt ws' k i), H, lookup_take_lt by done. done. Qed.
Lemma took_words t rd rd' i j : i < length (_words rd) -> i <= j < length (_words rd') -> took t rd rd' i j ->
  word_at rd i :: take (j - i) (drop (i + 1) (_words rd')) = take (j + 1 - i) (drop i (_words rd')).
Proof.
  intros Hi Hj [Hs _]. replace (j + 1 - i) with (S (j - i)) by lia. rewrite take_drop_head with (d := []) by lia. f_equal.
  unfold word_at. symmetry. eapply spliced_at; [exact Hs|lia|lia].
Qed.

Lemma read_bundle_good t rd i rd' i' :
  _expansions rd <= response_file_limit -> i < length (_words rd) -> ok (_r rd) = true ->
  read_bundle host t rd i = (true, rd', i') -> read_ok t rd i rd' i'.
Proof.
  intros He Hi Hok. unfold read_bundle.
  destruct (read_letters host t _ _ _ _ _ _ _) as [[[[got consumed] j]|] rd1] eqn:E; [|done].
  apply read_letters_good in E as (Hj & Hg & Hr & [Hw Htook] & os & -> & Hos); [|done|done|done].
  intros [= <- <-]. constructor; cbn [set_r _r _words _expansions push_options push_option_words r_options r_operands r_remainder r_option_words r_error]; rewrite ?Hr; try done.
  - lia.
  - rewrite Hw. f_equal. by apply (took_words t).
  - by rewrite Nat.add_sub.
  -  exists os. by split.
Qed.

Lemma match_none_no_value t word rw sp :
  m_option (match_word t word) = Some (rw, sp) -> sp_form sp = none ->
  (rw, sp) ∈ all_spellings t /\ m_has_value (match_word t word) = false.
Proof.
  intros Hm Hf. pose proof (match_word_spec t word) as H. rewrite Hm in H. destruct H as [Hin Hr].
  split; [done|]. destruct Hr as [| ? Ht | ? Ht |]; simpl; try done; by rewrite Hf in Ht.
Qed.

Lemma match_in_table t word rw sp :
  m_option (match_word t word) = Some (rw, sp) -> (rw, sp) ∈ all_spellings t.
Proof.
  intros Hm. pose proof (match_word_spec t word) as H. rewrite Hm in H. by destruct H.
Qed.

Lemma read_option_good t rd i rd' i' :
  _expansions rd <= response_file_limit -> i < length (_words rd) -> ok (_r rd) = true ->
  read_option host t rd i = (true, rd', i') -> read_ok t rd i rd' i'.
Proof.
  intros He Hi Hok. unfold read_option.
  destruct (m_option (match_word t (word_at rd i))) as [[rw sp]|] eqn:Em.
  2:{ case_if; [by apply read_bundle_good|done]. }
  set (word := word_at rd i) in *. set (rd0 := set_r rd _).
  destruct (take_value host t _ _ word rd0 i) as [[[[] rd1] j] v] eqn:Et; simpl; [|done].
  apply take_value_good in Et as (Hj & Hg & (Ho & Hp & Hm & Herr) & [Hw Htook] & Hv); [|done|done|done].
  destruct (if carries_value _ _ then _ else _) as [[good o'] r'] eqn:Ec. destruct good; simpl; [|done].
  apply (checked_ok t) in Ec as [-> Hoc]; [|by eapply match_in_table|done|done|].
  2:{ intros Hf. apply Hv; [by eapply match_none_no_value|by rewrite Hf]. }
  intros [= <- <-]. simpl in *. constructor; simpl; try done.
  - lia.
  - rewrite Hw, <- app_assoc. f_equal. by apply (took_words t rd).
  - by rewrite Nat.add_sub.
  - exists [o']. rewrite Ho. split; [done|by constructor].
Qed.

(** A step that fails leaves an error. *)
Lemma fail_not_ok r k m : k <> no_error -> ok (fail r k m) = false.
Proof. intros Hk. by apply bool_decide_eq_false. Qed.

Lemma fail_unknown_not_ok t word r : ok (fail_unknown t word r) = false.
Proof.
  unfold fail_unknown. destruct (find_char _ word); [case_if|]; by apply fail_not_ok.
Qed.

Lemma take_value_bad t m f word rd i rd' i' v :
  take_value host t m f word rd i = (false, rd', i', v) -> ok (_r rd') = false.
Proof.
  unfold take_value. destruct (m_has_value m).
  { case_if; [|done]. intros [= <- _ _]. by apply fail_not_ok. }
  destruct (value_follows f); simpl; [|done].
  destruct (fetch host t rd (i + 1)) as [[] rd1] eqn:Ef; simpl; [done|].
  intros [= <- _ _]. destruct (ok (_r rd1)) eqn:E; [by apply fail_not_ok|done].
Qed.

Lemma checked_bad rw sp v what o r o' r' :
  (if carries_value (sp_form sp) v then check_value host rw o what r else (true, o, r)) = (false, o', r') ->
  ok r' = false.
Proof. case_if; [apply check_value_bad|done]. Qed.

Lemma read_letters_bad t word rest k rd i got consumed rd' :
  read_letters host t word rest k rd i got consumed = (None, rd') -> ok (_r rd') = false.
Proof.
  revert k got. induction rest as [|c rest IH]; intros k got; simpl; [done|].
  destruct (letter_spelling t _) as [[owner sp]|]; [|intros [= <-]; apply fail_unknown_not_ok].
  case_if; [intros [= <-]; apply fail_unknown_not_ok|]. case_if; [apply IH|].
  case_if.
  - destruct (fetch host t rd (i + 1)) as [[] rd1] eqn:Ef; simpl.
    + destruct (if carries_value _ _ then _ else _) as [[good o'] r'] eqn:Ec. destruct good; [done|].
      intros [= <-]. by apply checked_bad in Ec.
    + destruct (ok (_r rd1)) eqn:E; intros [= <-]; [by apply fail_not_ok|done].
  - case_if; [intros [= <-]; by apply fail_not_ok|].
    destruct (if carries_value _ _ then _ else _) as [[good o'] r'] eqn:Ec. destruct good; [done|].
    intros [= <-]. by apply checked_bad in Ec.
Qed.

Lemma read_option_bad t rd i rd' i' :
  read_option host t rd i = (false, rd', i') -> ok (_r rd') = false.
Proof.
  unfold read_option. destruct (m_option _) as [[rw sp]|].
  - destruct (take_value host t _ _ _ _ i) as [[[[] rd1] j] v] eqn:Et; simpl.
    + destruct (if carries_value _ _ then _ else _) as [[good o'] r'] eqn:Ec. destruct good; [done|].
      intros [= <- _]. by apply checked_bad in Ec.
    + intros [= <- _]. by apply take_value_bad in Et.
  - case_if; [|intros [= <- _]; apply fail_unknown_not_ok]. unfold read_bundle.
    destruct (read_letters host t _ _ _ _ _ _ _) as [[[[got consumed] j]|] rd1] eqn:E; [done|].
    intros [= <- _]. by apply read_letters_bad in E.
Qed.

(** ** The run over the command line *)

(** [l] is an interleaving of [l1] and [l2], each in its order. *)
Inductive interleaves {A} : list A -> list A -> list A -> Prop :=
| il_nil : interleaves [] [] []
| il_left l1 l2 l xs : interleaves l1 l2 l -> interleaves (l1 ++ xs) l2 (l ++ xs)
| il_right l1 l2 l xs : interleaves l1 l2 l -> interleaves l1 (l2 ++ xs) (l ++ xs).

(** The words [args] are the option words and operands read so far, an optional
    [--], and what is left from [i] on. *)
Definition accounted (t : table) (args : list bytes) (r : result) (reading : bool) (i : nat) : Prop :=
  exists pre sep, args = pre ++ sep ++ drop i args /\ Forall (plain_word t) pre /\
    interleaves (r_option_words r) (r_operands r) pre /\
    (sep = [] \/ sep = [B "--"] /\ reading = false).

Record run_inv (t : table) (args : list bytes) (st : reader * bool * nat) : Prop := {
  ri_limit : _expansions st.1.1 <= response_file_limit;
  ri_index : st.2 <= length (_words st.1.1);
  ri_ok : ok (_r st.1.1) = true;
  ri_remainder : r_remainder (_r st.1.1) = [];
  ri_options : Forall (occurrence_ok t) (r_options (_r st.1.1));
  ri_words : expands t args (_words st.1.1) /\ accounted t (_words st.1.1) (_r st.1.1) st.1.2 st.2;
  ri_plain : t_response_files t = false -> _expansions st.1.1 = 0
}.

Record run_done (t : table) (args : list bytes) (r : result) : Prop := {
  rd_options : Forall (occurrence_ok t) (r_options r);
  rd_words : exists words pre sep, expands t args words /\ words = pre ++ sep ++ r_remainder r /\ Forall (plain_word t) pre /\
      interleaves (r_option_words r) (r_operands r) pre /\ (sep = [] \/ sep = [B "--"])
}.

(** The states of the run decrease: fewer expansions left, or the same and
    fewer words (and, at the same word, no longer reading options). *)
Definition left_to_do (st : reader * bool * nat) : nat :=
  2 * (length (_words st.1.1) - st.2) + if st.1.2 then 1 else 0.
Definition run_lt (st' st : reader * bool * nat) : Prop :=
  response_file_limit - _expansions st'.1.1 < response_file_limit - _expansions st.1.1 \/
  response_file_limit - _expansions st'.1.1 = response_file_limit - _expansions st.1.1 /\
  left_to_do st' < left_to_do st.

Lemma grew_lt t rd rd' i i' (b b' : bool) :
  _expansions rd <= response_file_limit -> grew t rd rd' ->
  (length (_words rd) = length (_words rd') -> left_to_do (rd', b', i') < left_to_do (rd, b, i)) ->
  run_lt (rd', b', i') (rd, b, i).
Proof.
  intros He [[Hw Hx]|[_ Hx]] Hl; unfold run_lt; simpl; [right|left; lia].
  rewrite Hx. split; [done|]. apply Hl. by rewrite Hw.
Qed.

Lemma grew_plain t rd rd' :
  grew t rd rd' -> (t_response_files t = false -> _expansions rd = 0) ->
  t_response_files t = false -> _expansions rd' = 0.
Proof. intros [[_ ->]|[H _]] He Hf; [by apply He|congruence]. Qed.

Lemma grew_limit t rd rd' :
  _expansions rd <= response_file_limit -> grew t rd rd' -> _expansions rd' <= response_file_limit.
Proof. intros He [[_ Hx]|[_ Hx]]; lia. Qed.

Lemma accounted_done t args r reading i :
  accounted t args r reading i ->
  exists pre sep, args = pre ++ sep ++ drop i args /\ Forall (plain_word t) pre /\
    interleaves (r_option_words r) (r_operands r) pre /\ (sep = [] \/ sep = [B "--"]).
Proof. intros (pre & sep & H1 & H2 & H3 & H4). exists pre, sep. split_and!; naive_solver. Qed.

(** What was accounted for stays so when words from there on are expanded. *)
Lemma accounted_spliced t ws ws' r reading i : i <= length ws -> spliced t i ws ws' -> accounted t ws r reading i -> accounted t ws' r reading i.
Proof.
  intros Hl [_ Ht] (pre & sep & H1 & H2). exists pre, sep. split; [|done].
  assert (E : pre ++ sep = take i ws).
  { apply (f_equal (take (length (pre ++ sep)))) in H1 as H3. rewrite app_assoc, take_app_length in H3.
    assert (length (pre ++ sep) = i) as <-; [|done]. apply (f_equal length) in H1. rewrite app_assoc, length_app, length_drop in H1. lia. }
  by rewrite app_assoc, E, <- Ht, take_drop.
Qed.
Lemma accounted_advance t args r i j :
  accounted t args r true i -> i <= j -> exists pre,
    args = (pre ++ take (j - i) (drop i args)) ++ drop j args /\ Forall (plain_word t) pre /\
    interleaves (r_option_words r) (r_operands r) pre.
Proof.
  intros (pre & sep & H1 & Hp & H2 & H3) Hj. destruct H3 as [->|[_ H3]]; [|done]. exists pre. split; [|done].
  rewrite H1 at 1. simpl. rewrite <- app_assoc. f_equal.
  by rewrite <- (take_drop (j - i) (drop i args)) at 1; rewrite drop_drop, Nat.add_comm, Nat.sub_add.
Qed.

(** What a step of the run must establish. *)
Definition step_ok (t : table) (args : list bytes) (st : reader * bool * nat)
    (out : reader * bool * nat + bool * reader) : Prop :=
  match out with
  | inl st' => run_inv t args st' /\ run_lt st' st
  | inr (true, rd') => ok (_r rd') = true /\ run_done t args (_r rd')
  | inr (false, rd') => ok (_r rd') = false
  end.

(** Leaving the options: at [--] (its word consumed) or before a word. *)
Lemma step_stop t args rd rd' i (skip : bool) :
  run_inv t args (rd, true, i) -> grew t rd rd' -> spliced t i (_words rd) (_words rd') -> _r rd' = _r rd -> i < length (_words rd') ->
  (skip = true -> word_at rd' i = B "--") ->
  step_ok t args (rd, true, i) (inl (rd', false, if skip then i + 1 else i)).
Proof.
  intros [He Hi Hok Hrem Hos [Hx Hacc] Hpl] Hg Hs Hr Hl Hskip. simpl in *. apply (accounted_spliced t _ _ _ _ _ Hi Hs) in Hacc. split.
  - constructor; simpl; rewrite ?Hr; try done; [by eapply grew_limit|destruct skip; lia| |by eapply grew_plain].
    split; [by eapply expands_trans; [|apply Hs]|]. destruct skip.
    + destruct (accounted_advance t _ _ i (i + 1) Hacc ltac:(lia)) as (pre & Hargs & Hp & Hil).
      exists pre, [B "--"]. split_and!; [|done|done|by right]. rewrite Hargs at 1. rewrite <- app_assoc.
      do 2 f_equal. replace (i + 1 - i) with 1 by lia.
      rewrite take_1_drop with (d := []) by done. f_equal. by apply Hskip.
    + destruct Hacc as (pre & sep & H1 & Hp & H2 & [->|[_ ?]]); [|done]. exists pre, []. split_and!; auto.
  - eapply grew_lt; [done|exact Hg|]. unfold left_to_do. simpl. intros Heq. destruct skip; lia.
Qed.

(** An operand. *)
Lemma step_operand t args rd rd' i :
  run_inv t args (rd, true, i) -> grew t rd rd' -> spliced t i (_words rd) (_words rd') -> plain_word t (word_at rd' i) -> _r rd' = _r rd -> i < length (_words rd') ->
  step_ok t args (rd, true, i) (inl (set_r rd' (push_operand (_r rd') (word_at rd' i)), true, i + 1)).
Proof.
  intros [He Hi Hok Hrem Hos [Hx Hacc] Hpl] Hg Hs Hpw Hr Hl. simpl in *. apply (accounted_spliced t _ _ _ _ _ Hi Hs) in Hacc. split.
  - constructor; simpl; rewrite ?Hr; try done; [by eapply grew_limit|lia| |by eapply grew_plain].
    split; [by eapply expands_trans; [|apply Hs]|].
    destruct (accounted_advance t _ _ i (i + 1) Hacc ltac:(lia)) as (pre & Hargs & Hp & Hil).
    exists (pre ++ [word_at rd' i]), []. split_and!; [|apply Forall_app_2; [done|by constructor]|simpl; by apply il_right|by left].
    unfold word_at. rewrite Hargs at 1.
    replace (i + 1 - i) with 1 by lia. by rewrite take_1_drop with (d := []) by done.
  - eapply grew_lt; [done|exact Hg|]. unfold left_to_do. simpl. lia.
Qed.

(** An option, after which the options may end. *)
Lemma step_option t args rd rd0 rd' i j reading :
  run_inv t args (rd, true, i) -> grew t rd rd0 -> spliced t i (_words rd) (_words rd0) -> plain_word t (word_at rd0 i) -> _r rd0 = _r rd -> i < length (_words rd0) ->
  read_ok t rd0 i rd' j ->
  step_ok t args (rd, true, i) (inl (rd', reading, j)).
Proof.
  intros [He Hi Hok Hrem Hos [Hx Hacc] Hpl] Hg Hs Hpw Hr Hl [Rj Rg Rw [Rs Rp] Rop Rrem Rerr (os & Ro & Rok)]. simpl in *.
  rewrite Hr in *. pose proof (grew_trans _ _ _ _ Hg Rg) as Hg'.
  assert (Hs' : spliced t i (_words rd) (_words rd')) by (eapply spliced_trans; [|exact Hs|exact Rs]; lia).
  apply (accounted_spliced t _ _ _ _ _ Hi Hs') in Hacc. split.
  - constructor; simpl; [by eapply grew_limit|lia| |congruence| | |by eapply grew_plain].
    + unfold ok in *. by rewrite Rerr.
    + rewrite Ro. by apply Forall_app_2.
    + split; [by eapply expands_trans; [|apply Hs']|].
      destruct (accounted_advance t _ _ i j Hacc ltac:(lia)) as (pre & Hargs & Hp & Hil).
      exists (pre ++ take (j - i) (drop i (_words rd'))), []. split_and!; [done| | |by left].
      * apply Forall_app_2; [done|]. replace (j - i) with (S (j - 1 - i)) by lia. rewrite take_drop_head with (d := []) by lia.
        constructor; [|exact Rp]. rewrite (spliced_at t (i + 1) (_words rd0)) by (done || lia). exact Hpw.
      * rewrite Rw, Rop. by apply il_left.
  - eapply grew_lt; [done|exact Hg'|]. unfold left_to_do. simpl. intros Heq. destruct reading; lia.
Qed.

Lemma run_step t args st : run_inv t args st -> step_ok t args st (run_body host t st).
Proof.
  destruct st as [[rd reading] i]. intros Hinv. pose proof Hinv as [He Hi Hok Hrem Hos [Hx Hacc] Hpl]. simpl in *.
  destruct reading; simpl.
  2:{ split; [done|]. constructor; simpl; [done|]. destruct (accounted_done _ _ _ _ _ Hacc) as (pre & sep & H).
      rewrite Hrem. by exists (_words rd), pre, sep. }
  destruct (fetch host t rd i) as [[] rd0] eqn:Ef; simpl.
  2:{ pose proof (fetch_spec t rd i He) as H. rewrite Ef in H. destruct H as (_ & H & Hsp).
      destruct (ok (_r rd0)) eqn:E; [|done]. destruct (H eq_refl eq_refl) as (Hl & Hg & Hr). destruct (Hsp eq_refl) as [Hs _]. simpl.
      split; [done|]. rewrite Hr. constructor; [done|].
      apply (accounted_spliced t _ _ _ _ _ Hi Hs) in Hacc. destruct (accounted_done _ _ _ _ _ Hacc) as (pre & sep & H1 & H2).
      exists (_words rd0), pre, sep. split; [by eapply expands_trans; [|apply Hs]|]. split; [|done]. rewrite Hrem. by rewrite drop_ge in H1. }
  apply fetch_good in Ef as (Hl & Hg & Hr & Hsp); [|done]. destruct (Hsp Hok) as [Hs Hpw].
  destruct (bytes_eqb (word_at rd0 i) (B "--")) eqn:Edd.
  { apply (step_stop t args rd rd0 i true); [done..|]. intros _. by apply bytes_eqb_eq. }
  case_if.
  - case_if; [by apply (step_stop t args rd rd0 i false)|by apply step_operand].
  - destruct (read_option host t rd0 i) as [[[] rd1] j] eqn:Er; simpl.
    + eapply step_option; [done|exact Hg|done..|].
      apply read_option_good; [by eapply grew_limit|done|by rewrite Hr|exact Er].
    + by eapply read_option_bad.
Qed.

Lemma run_start t args : run_inv t args (Reader args result_new 0, true, 0).
Proof.
  constructor; simpl; try done; [lia..|]. split; [constructor|]. exists [], [].
  split_and!; [done|constructor|constructor|by left].
Qed.

Definition run_result (t : table) (args : list bytes) (out : bool * reader) : Prop :=
  match out with
  | (true, rd') => ok (_r rd') = true /\ run_done t args (_r rd')
  | (false, rd') => ok (_r rd') = false
  end.

Lemma run_lt_wf : well_founded run_lt.
Proof. apply (lex_wf (fun st => response_file_limit - _expansions st.1.1) left_to_do). Qed.

Lemma run_total t args : exists fuel out, run host fuel t args = Some out /\ run_result t args out.
Proof.
  unfold run. apply (loop_wf run_lt (run_inv t args)); [apply run_lt_wf| |apply run_start].
  intros st Hst. pose proof (run_step t args st Hst) as H. destruct (run_body host t st) as [st'|[[] rd']]; exact H.
Qed.

(** Without response files the words bound the run. *)
Lemma run_total_plain t args :
  t_response_files t = false ->
  exists out, run host (2 * length args + 2) t args = Some out.
Proof.
  intros Hf. destruct (loop_total (run_inv t args) (fun _ => True) left_to_do (run_body host t)
    ) with (fuel := 2 * length args + 2) (s := (Reader args result_new 0, true, 0)) as (out & Hout & _);
    [|apply run_start|unfold left_to_do; simpl; lia|by exists out].
  intros st Hst. pose proof (run_step t args st Hst) as H. destruct (run_body host t st) as [st'|]; [|done].
  destruct H as [H Hlt]. split; [done|]. destruct Hlt as [Hlt|[_ Hlt]]; [|done].
  rewrite (ri_plain _ _ _ Hst Hf), (ri_plain _ _ _ H Hf) in Hlt. lia.
Qed.

(** ** After the words: the other sources, the groups, the required options *)

Lemma existsb_false_iff {A} (p : A -> bool) l : existsb p l = false <-> forall x, x ∈ l -> p x = false.
Proof.
  induction l as [|x l IH]; simpl; [split; [intros _ y Hy; by apply not_elem_of_nil in Hy|done]|].
  rewrite orb_false_iff, IH. setoid_rewrite elem_of_cons. naive_solver.
Qed.

Lemma find_iff {A} (p : A -> bool) l :
  List.find p l = None <-> forall x, x ∈ l -> p x = false.
Proof.
  split.
  - intros H x Hx. apply (find_none p l H). by apply list_elem_of_In.
  - intros H. destruct (List.find p l) as [x|] eqn:E; [|done].
    apply find_some in E as [Hin Hp]. rewrite H in Hp; [done|by apply list_elem_of_In].
Qed.

Lemma result_last_none r id : result_last r id = None <-> forall o, o ∈ r_options r -> o_id o <> id.
Proof.
  unfold result_last. rewrite last_None. split.
  - intros H o Ho Hid. apply (not_elem_of_nil o). rewrite <- H. by apply list_elem_of_filter.
  - intros H. destruct (filter _ _) as [|o l] eqn:E; [done|].
    assert (Hin : o ∈ o :: l) by left. rewrite <- E in Hin. apply list_elem_of_filter in Hin as [Hid Hin].
    by destruct (H o Hin).
Qed.

(** What a source may add to [r]: the value the row's sources give, checked,
    for an option that has no occurrence yet. *)
Definition filled_from (t : table) (from : sources) (r : result) (o : occurrence) : Prop :=
  (forall o', o' ∈ r_options r -> o_id o' <> o_id o) /\
  exists rw v src what, rw ∈ t_rows t /\ has_flag (rw_flags rw) rf_doc = false /\ o_id o = rw_id rw /\
    source_value rw from = Some (v, src, what) /\ o_source o = src /\ o_spelled o = None /\
    if takes_value rw then value_ok rw (o_value o)
    else o_value o = [] /\ parse_boolean v = Some (negb (o_negated o)).

Lemma apply_row_good t rw from r r' :
  rw ∈ t_rows t -> apply_row host rw from r = (true, r') ->
  r' = r \/ exists o, r' = push_options r [o] /\ filled_from t from r o.
Proof.
  intros Hin. unfold apply_row. case_if; [intros [= <-]; by left|]. reflect_bool.
  assert (Hnone : forall o', o' ∈ r_options r -> o_id o' <> rw_id rw).
  { apply result_last_none. destruct (result_last r (rw_id rw)); [|done]. by exfalso; eauto. }
  destruct (source_value rw from) as [[[v src] what]|] eqn:Es; [|intros [= <-]; by left].
  destruct (takes_value rw) eqn:Et.
  - destruct (check_value host _ _ _ _) as [[[] o] r1] eqn:Ec; [|done].
    apply check_value_good in Ec as (-> & Hv & Hid & Hneg & Hsrc & Hsp). intros [= <-].
    right. exists o. split; [done|]. split; [by rewrite Hid|].
    exists rw, v, src, what. rewrite Et. by split_and!.
  - destruct (parse_boolean v) as [on|] eqn:Eb; [|done].
    case_if; intros [= <-]; [|by left]. right. eexists. split; [done|]. split; [done|].
    exists rw, v, src, what. rewrite Et. split_and!; try done. simpl. by rewrite negb_involutive.
Qed.

Lemma apply_row_bad rw from r r' : apply_row host rw from r = (false, r') -> ok r' = false.
Proof.
  unfold apply_row. case_if; [done|].
  destruct (source_value rw from) as [[[v src] what]|]; [|done]. case_if.
  - destruct (check_value host _ _ _ _) as [[[] o] r1] eqn:Ec; [done|].
    intros [= <-]. by eapply check_value_bad.
  - destruct (parse_boolean v); [by case_if|]. intros [= <-]. by apply fail_not_ok.
Qed.

Lemma push_options_push r os os' : push_options (push_options r os) os' = push_options r (os ++ os').
Proof. unfold push_options. simpl. by rewrite app_assoc. Qed.

Lemma push_options_nil r : push_options r [] = r.
Proof. unfold push_options. destruct r. simpl. by rewrite app_nil_r. Qed.

Lemma apply_rows_good t from rows r r' :
  rows ⊆ t_rows t -> apply_rows host rows from r = (true, r') ->
  exists os, r' = push_options r os /\ NoDup (map o_id os) /\ Forall (filled_from t from r) os.
Proof.
  revert r. induction rows as [|rw rows IH]; intros r Hsub; simpl.
  { intros [= <-]. exists []. split_and!; [by rewrite push_options_nil|constructor|constructor]. }
  destruct (apply_row host rw from r) as [[] r1] eqn:E; [|done].
  apply (apply_row_good t) in E; [|apply Hsub; by left]. intros Hrest.
  apply IH in Hrest as (os & -> & Hnd & Hos); [|intros x Hx; apply Hsub; by right].
  destruct E as [->|(o & -> & Ho)]; [by exists os|].
  exists (o :: os). rewrite push_options_push. split_and!; [done| |].
  - simpl. constructor; [|done]. intros (o' & Heq & Hin)%list_elem_of_fmap.
    rewrite Forall_forall in Hos. destruct (Hos o' Hin) as [Hne _].
    apply (Hne o); [|done]. simpl. apply elem_of_app. right. by left.
  - constructor; [done|]. eapply Forall_impl; [exact Hos|]. intros o' [Hne Hex]. split; [|done].
    intros x Hx. apply Hne. simpl. apply elem_of_app. by left.
Qed.

Lemma apply_rows_bad rows from r r' : apply_rows host rows from r = (false, r') -> ok r' = false.
Proof.
  revert r. induction rows as [|rw rows IH]; intros r; simpl; [done|].
  destruct (apply_row host rw from r) as [[] r1] eqn:E; [apply IH|].
  intros [= <-]. by eapply apply_row_bad.
Qed.

(** What the groups and the required rows ask of a result. *)
Definition group_holds (r : result) (gr : group) : Prop :=
  match gr_rule gr with
  | exclusive => forall i j a b, gr_ids gr !! i = Some a -> gr_ids gr !! j = Some b -> i < j ->
      given_on_command_line r a = true -> given_on_command_line r b = false
  | requires_rest => forall id0 rest, gr_ids gr = id0 :: rest -> result_has r id0 = true ->
      forall id, id ∈ rest -> result_has r id = true
  end.

Definition required_given (t : table) (r : result) : Prop :=
  forall rw, rw ∈ t_rows t -> has_flag (rw_flags rw) rf_required = true ->
    has_flag (rw_flags rw) rf_doc = false -> exists o, o ∈ r_options r /\ o_id o = rw_id rw.

Lemma check_exclusive_some t r f ids :
  check_exclusive t r (Some f) ids = None <-> forall id, id ∈ ids -> given_on_command_line r id = false.
Proof.
  induction ids as [|id ids IH]; simpl; [split; [intros _ x Hx; by apply not_elem_of_nil in Hx|done]|].
  setoid_rewrite elem_of_cons.
  destruct (given_on_command_line r id) eqn:E; simpl; [split; [done|intros H; rewrite H in E; naive_solver]|].
  rewrite IH. naive_solver.
Qed.

Lemma check_exclusive_none t r ids :
  check_exclusive t r None ids = None <->
  forall i j a b, ids !! i = Some a -> ids !! j = Some b -> i < j ->
    given_on_command_line r a = true -> given_on_command_line r b = false.
Proof.
  induction ids as [|id ids IH]; simpl; [by split|].
  destruct (given_on_command_line r id) eqn:E; simpl.
  - rewrite check_exclusive_some. split.
    + intros H i [|j] a b Ha Hb Hij _; [lia|]. apply H. by eapply list_elem_of_lookup_2.
    + intros H x [j Hj]%list_elem_of_lookup_1. by apply (H 0 (S j) id x); [| |lia|].
  - rewrite IH. split.
    + intros H [|i] [|j] a b Ha Hb Hij; simpl in *; [lia| |lia|apply (H i j); try done; lia].
      injection Ha as <-. congruence.
    + intros H i j a b Ha Hb Hij. apply (H (S i) (S j)); try done. lia.
Qed.

Lemma check_group_none t r gr : check_group t r gr = None <-> group_holds r gr.
Proof.
  unfold check_group, group_holds. destruct (gr_rule gr); [apply check_exclusive_none|].
  unfold check_requires. destruct (gr_ids gr) as [|id0 rest]; [by split|].
  destruct (result_has r id0) eqn:E; [|split; [|done]; intros _ ? ? [= <- <-]; congruence].
  assert (Hiff : List.find (fun id => negb (result_has r id)) rest = None <->
    forall id, id ∈ rest -> result_has r id = true).
  { rewrite find_iff. by setoid_rewrite negb_false_iff. }
  destruct (List.find _ rest); split; try done.
  - intros H. exfalso. assert (Some z = None) by (apply Hiff; by apply (H id0)). done.
  - intros _ ? ? [= <- <-] _. by apply Hiff.
Qed.

Lemma check_group_bad t r gr r' : check_group t r gr = Some r' -> ok r' = false.
Proof.
  unfold check_group. destruct (gr_rule gr).
  - generalize (@None Z). induction (gr_ids gr) as [|id ids IH]; intros first; simpl; [done|].
    case_if; [apply IH|]. destruct first; [intros [= <-]; by apply fail_not_ok|apply IH].
  - unfold check_requires. destruct (gr_ids gr); [done|]. case_if; [|done].
    destruct (List.find _ _); [|done]. intros [= <-]. by apply fail_not_ok.
Qed.

Lemma check_groups_verdict t r :
  match check_groups t r with
  | (true, r') => r' = r /\ Forall (group_holds r) (t_groups t)
  | (false, r') => ok r' = false /\ ~ Forall (group_holds r) (t_groups t)
  end.
Proof.
  unfold check_groups. induction (t_groups t) as [|gr gs IH]; simpl; [by split|].
  destruct (check_group t r gr) as [r'|] eqn:E.
  - split; [by eapply check_group_bad|]. intros [H _]%Forall_cons_1.
    apply check_group_none with (t := t) in H. congruence.
  - apply check_group_none in E. destruct (check_groups_from t r gs) as [[] r'].
    + destruct IH as [-> IH]. split; [done|]. by constructor.
    + destruct IH as [Hok IH]. split; [done|]. by intros [_ H]%Forall_cons_1.
Qed.

Lemma check_required_verdict t r :
  match check_required t r with
  | (true, r') => r' = r /\ required_given t r
  | (false, r') => ok r' = false /\ ~ required_given t r
  end.
Proof.
  unfold check_required. destruct (List.find _ _) as [rw|] eqn:E.
  - apply find_some in E as [Hin Hp]. split; [by apply fail_not_ok|]. intros H. reflect_bool.
    destruct (H rw) as (o & Ho & Hid); [by apply list_elem_of_In|done..|].
    destruct (result_last r (rw_id rw)) eqn:El; [by eauto|]. by apply (proj1 (result_last_none r _) El o).
  - split; [done|]. rewrite find_iff in E. intros rw Hin Hreq Hdoc. specialize (E rw Hin).
    rewrite Hreq, Hdoc in E. simpl in E. reflect_bool.
    destruct E as [o Ho]. unfold result_last in Ho. apply last_Some in Ho as [l Hl].
    assert (Hin' : o ∈ filter (fun o => o_id o = rw_id rw) (r_options r)).
    { rewrite Hl. apply elem_of_app. right. by left. }
    apply list_elem_of_filter in Hin' as [? ?]. by exists o.
Qed.

Lemma parse_ok_inv fuel t args from r :
  parse host fuel t args from = Some r -> ok r = true ->
  exists r0 os, run_done t args r0 /\ r = push_options r0 os /\
    NoDup (map o_id os) /\ Forall (filled_from t from r0) os /\
    Forall (group_holds r) (t_groups t) /\ required_given t r.
Proof.
  unfold parse. destruct (run host fuel t args) as [[good rd]|] eqn:Erun; simpl; [|done].
  intros [= Hr] Hok.
  assert (Hrun : run_result t args (good, rd)).
  { unfold run in Erun. eapply (loop_inv (run_inv t args) (run_result t args));
      [|apply run_start|exact Erun].
    intros st Hst. pose proof (run_step t args st Hst) as H. destruct (run_body host t st) as [st'|[[] rd']]; [|exact H..].
    exact (proj1 H). }
  destruct good; simpl in *; [|congruence]. destruct Hrun as [Hok0 Hdone].
  destruct (apply_sources host t from (_r rd)) as [[] r1] eqn:Ea.
  2:{ apply apply_rows_bad in Ea. simpl in *. congruence. }
  apply (apply_rows_good t) in Ea as (os & -> & Hnd & Hos); [|done].
  pose proof (check_groups_verdict t (push_options (_r rd) os)) as Hg.
  destruct (check_groups t _) as [[] r2]; simpl in *; [|destruct Hg; congruence].
  destruct Hg as [-> Hg].
  pose proof (check_required_verdict t (push_options (_r rd) os)) as Hq.
  destruct (check_required t _) as [[] r3]; simpl in *; [|destruct Hq; congruence].
  destruct Hq as [-> Hq]. subst r. exists (_r rd), os. by split_and!.
Qed.

(** Every command line is parsed, whatever its @files hold: with fuel enough
    the run ends and its result does not depend on the fuel.  Without response
    files twice the words and two more steps are enough. *)
Theorem parse_total t args from :
  exists fuel r, (t_response_files t = false -> fuel = 2 * length args + 2) /\
    forall fuel', fuel <= fuel' -> parse host fuel' t args from = Some r.
Proof.
  assert (H : exists fuel out, (t_response_files t = false -> fuel = 2 * length args + 2) /\
    run host fuel t args = Some out).
  { destruct (t_response_files t) eqn:Ef.
    - destruct (run_total t args) as (fuel & out & Hrun & _). exists fuel, out. by split.
    - destruct (run_total_plain t args Ef) as [out Hrun]. by exists (2 * length args + 2), out. }
  destruct H as (fuel & [good rd] & Hf & Hrun). exists fuel. eexists. split; [exact Hf|].
  intros fuel' Hle. unfold parse.
  assert (Hrun' : run host fuel' t args = Some (good, rd)) by (by apply (loop_mono _ fuel)).
  rewrite Hrun'. simpl. reflexivity.
Qed.

(** C14: A successful parse accounts for every word of the command line, @-files
    expanded, once and in order: first the options' words interleaved with the
    operands, none of them an @-file that can be read, then at most one [--], then
    the remainder.  In a table without response files no word is expanded. *)
Theorem parse_accounts_for_words fuel t args from r :
  parse host fuel t args from = Some r -> ok r = true ->
  exists words pre sep, expands t args words /\ (t_response_files t = false -> words = args) /\
    words = pre ++ sep ++ r_remainder r /\ Forall (plain_word t) pre /\
    interleaves (r_option_words r) (r_operands r) pre /\ (sep = [] \/ sep = [B "--"]).
Proof.
  intros Hp Hok. apply parse_ok_inv in Hp as (r0 & os & [_ (words & pre & sep & Hx & H)] & -> & _); [|done].
  exists words, pre, sep. split; [exact Hx|]. split; [by apply expands_no_files|exact H].
Qed.

(** In a successful parse every occurrence, typed or filled in from the
    environment, the configuration or the defaults, belongs to a row of the
    table that is no documentation row, and its value is empty or of the row's
    type and among its choices. *)
Theorem parse_values_ok fuel t args from r :
  parse host fuel t args from = Some r -> ok r = true ->
  forall o, o ∈ r_options r -> exists rw, rw ∈ t_rows t /\ has_flag (rw_flags rw) rf_doc = false /\
    o_id o = rw_id rw /\ (o_value o = [] \/ value_ok rw (o_value o)).
Proof.
  intros Hp Hok o. apply parse_ok_inv in Hp as (r0 & os & [Hcl _] & -> & _ & Hos & _); [|done].
  rewrite Forall_forall in Hcl, Hos. intros [Hin|Hin]%elem_of_app.
  - destruct (Hcl o Hin) as (rw & sp & Hsp & Hid & Hv). exists rw.
    apply list_elem_of_In, in_flat_map in Hsp as (rw' & Hrow & Hsp). case_if_in Hsp; [done|].
    apply in_map_iff in Hsp as (? & [= -> ->] & _). split_and!; [by apply list_elem_of_In|done|done|done].
  - destruct (Hos o Hin) as (_ & rw & v & src & what & Hrow & Hdoc & Hid & _ & _ & _ & Hv).
    exists rw. split_and!; [done|done|done|]. destruct (takes_value rw); [by right|]. left. by destruct Hv.
Qed.

(** A successful parse meets the table's constraints: of an exclusive group
    at most one option is on the command line, a requires group's first option
    brings the others, and every required option is there. *)
Theorem parse_constraints fuel t args from r :
  parse host fuel t args from = Some r -> ok r = true ->
  Forall (group_holds r) (t_groups t) /\ required_given t r.
Proof.
  intros Hp Hok. apply parse_ok_inv in Hp as (r0 & os & _ & _ & _ & _ & Hg & Hq); [|done]. done.
Qed.

(** The other sources only fill gaps: they append at most one occurrence per
    option, only for options the command line left without one, with the value
    of the first source that has one; a source value the row refuses stops the
    parse with an error. *)
Theorem apply_sources_fills t from r good r' :
  apply_sources host t from r = (good, r') ->
  if good then exists os, r' = push_options r os /\ NoDup (map o_id os) /\ Forall (filled_from t from r) os
  else ok r' = false.
Proof.
  destruct good; [by apply apply_rows_good|apply apply_rows_bad].
Qed.
End ReaderProofs.

(** What [match_word] finds is a spelling of the table and accounts for the
    whole word: the spelling with its value, or the negated flag; and it finds
    nothing only when the word is no visible-or-hidden spelling in any of the
    first three ways. *)
Theorem match_word_reads t word :
  match m_option (match_word t word) with
  | Some (rw, sp) => (rw, sp) ∈ all_spellings t /\ reads word rw sp (match_word t word)
  | None =>
      m_has_value (match_word t word) = false /\
      (2 <= length word -> at_ word 0 = "-"%char ->
       forall rw sp, (rw, sp) ∈ all_spellings t ->
         ~ (takes_bare_word (sp_form sp) = true /\ word = sp_text sp) /\
         glued_to word sp = false)
  end.
Proof. exact (match_word_spec t word). Qed.

(** The edit distance is at least the difference of the lengths and at most
    the longer length, it is zero only between equal words, and it is the
    optimal-string-alignment distance of its recurrence. *)
Theorem edit_distance_metric a b :
  edit_distance a b = osa_distance a b (length a) (length b) /\
  length a - length b <= edit_distance a b /\ length b - length a <= edit_distance a b /\
  edit_distance a b <= Nat.max (length a) (length b) /\
  (edit_distance a b = 0 <-> a = b).
Proof. split; [apply edit_distance_osa|apply edit_distance_bounds]. Qed.

(** ** Witnesses: a small table *)
Section Witnesses.
Definition ex_row (id : Z) (sps : list spelling) (ty : value_type) (flags : Z) (env_ dflt : option bytes) : row :=
  Row id None sps None 0 None None flags 0 ty None dflt env_ None.

Definition ex_table : table := Table None None None None []
  [ ex_row 1 [Spelling (B "-o") joined_or_separate; Spelling (B "--output") equals_or_separate] path rf_none None None;
    ex_row 2 [Spelling (B "-v") none; Spelling (B "--verbose") none] text rf_negatable None None;
    ex_row 3 [Spelling (B "--level") equals] integer rf_none (Some (B "LEVEL")) (Some (B "3"));
    ex_row 4 [Spelling (B "-q") none] text rf_required None None ]
  [ Group exclusive [2; 5]%Z; Group requires_rest [1; 2]%Z ]
  true false permute None.

Definition ex_host : Host := HostOps (fun _ => no_file) (fun s => (length s, false)) false.
Definition ex_sources : sources := Sources None None false.
Definition ex_args : list bytes := [B "-vqo"; B "a.out"; B "x.cpp"; B "--"; B "-y"].
Definition ex_result : result :=
  Result [Occurrence 2 [] (B "-vqo") (Some (B "-v")) false command_line;
          Occurrence 4 [] (B "-vqo") (Some (B "-q")) false command_line;
          Occurrence 1 (B "a.out") (B "-vqo") (Some (B "-o")) false command_line;
          Occurrence 3 (B "3") [] None false default_value]
    [B "x.cpp"] [B "-y"] [B "-vqo"; B "a.out"] no_error [].

Example ex_parse : parse ex_host 12 ex_table ex_args ex_sources = Some ex_result.
Proof. vm_compute. reflexivity. Qed.

Example ex_typo : exists r, parse ex_host 12 ex_table [B "--verbsoe"] ex_sources = Some r /\
  r_message r = B "unrecognized command-line option '--verbsoe'; did you mean '--verbose'?".
Proof. eexists. split; vm_compute; reflexivity. Qed.

(** The same table with @-files, and a file with two options and an operand. *)
Definition file_table : table :=
  Table None None None None [] (t_rows ex_table) (t_groups ex_table) true true permute None.
Definition file_host : Host := HostOps (fun p => if bytes_eqb p (B "more") then regular_file (B "-q b.cpp -o") else no_file) (fun s => (length s, false)) false.
Definition file_args : list bytes := [B "-v"; B "@more"; B "a.out"; B "@none"; B "--"; B "@more"].
Definition file_result : result :=
  Result [Occurrence 2 [] (B "-v") (Some (B "-v")) false command_line;
          Occurrence 4 [] (B "-q") (Some (B "-q")) false command_line;
          Occurrence 1 (B "a.out") (B "-o") (Some (B "-o")) false command_line;
          Occurrence 3 (B "3") [] None false default_value]
    [B "b.cpp"; B "@none"] [B "@more"] [B "-v"; B "-q"; B "-o"; B "a.out"] no_error [].
Lemma parse_accounts_witness : exists words pre sep, expands file_host file_table file_args words /\
    (t_response_files file_table = false -> words = file_args) /\
    words = pre ++ sep ++ r_remainder file_result /\ Forall (plain_word file_host file_table) pre /\
    interleaves (r_option_words file_result) (r_operands file_result) pre /\ (sep = [] \/ sep = [B "--"]).
Proof. apply (parse_accounts_for_words file_host 12 file_table file_args ex_sources file_result); vm_compute; reflexivity. Defined.

Lemma parse_values_witness :
  exists rw, rw ∈ t_rows ex_table /\ has_flag (rw_flags rw) rf_doc = false /\
    3%Z = rw_id rw /\ (B "3" = [] \/ value_ok ex_host rw (B "3")).
Proof.
  apply (parse_values_ok ex_host 12 ex_table ex_args ex_sources ex_result) with
    (o := Occurrence 3 (B "3") [] None false default_value); [vm_compute; reflexivity..|].
  do 3 right. left.
Defined.

Lemma parse_constraints_witness :
  Forall (group_holds ex_result) (t_groups ex_table) /\ required_given ex_table ex_result.
Proof. apply (parse_constraints ex_host 12 ex_table ex_args ex_sources ex_result); vm_compute; reflexivity. Defined.

Lemma apply_sources_witness :
  exists os, Result [Occurrence 3 (B "3") [] None false default_value] [] [] [] no_error [] = push_options result_new os /\
    NoDup (map o_id os) /\ Forall (filled_from ex_host ex_table ex_sources result_new) os.
Proof. apply (apply_sources_fills ex_host ex_table ex_sources result_new true). vm_compute. reflexivity. Defined.
End Witnesses.
