(* ===== verification/Source.v ===== *)
(** The lexer's input: class [Source] of [include/madc.h] (with
    [consume_block_comment] and [line_text] of [src/lexer.cpp]).

    A [Source] is a text buffer with a read cursor, and in front of it the
    pushed-back text (stored reversed, the next byte last) that macro
    expansions and lexer rewinds serve, cut into frames that carry what each
    stretch hides from expansion ("paint").  [get] reads through both, folding
    line splices; the lines and columns it counts are [Z].  Names are byte
    lists and paint is a finite set of names.  [fname], [found_dir] and the
    diagnostic cause are data no operation here reads. *)
From S2P Require Import Prelude.
From stdpp Require Import gmap.
#[local] Open Scope nat_scope.

(** ** The state *)

Record frame := Frame {
  remaining : nat;
  disabled_macro : bytes;
  arg_disabled : gset bytes;
  recount : bool;
  synthesized : bool;
  frame_id : nat
}.

Record source := Source {
  _buf : bytes;
  _gpos : nat;
  _pushback : bytes;		(** reversed: the next byte is the last *)
  _frames : list frame;
  _inherited : gset bytes;
  _expanded : gset bytes;
  _served : gset bytes;
  _synth_gets : nat;
  _frame_ids : nat;
  _union_frame : nat;
  _lf : Z;
  _cr : Z;
  _column : Z;
  _last_token_line : Z
}.

Definition source_new : source := Source [] 0 [] [] ∅ ∅ ∅ 0 0 0 0 0 0 0.

(** Field updates. *)
Definition at_cursor (s : source) (gpos : nat) (lf cr column : Z) : source :=
  Source (_buf s) gpos (_pushback s) (_frames s) (_inherited s) (_expanded s) (_served s)
    (_synth_gets s) (_frame_ids s) (_union_frame s) lf cr column (_last_token_line s).
Definition set_frames (s : source) (fs : list frame) : source :=
  Source (_buf s) (_gpos s) (_pushback s) fs (_inherited s) (_expanded s) (_served s)
    (_synth_gets s) (_frame_ids s) (_union_frame s) (_lf s) (_cr s) (_column s) (_last_token_line s).
Definition set_pushed (s : source) (p : bytes) : source :=
  Source (_buf s) (_gpos s) p (_frames s) (_inherited s) (_expanded s) (_served s)
    (_synth_gets s) (_frame_ids s) (_union_frame s) (_lf s) (_cr s) (_column s) (_last_token_line s).
Definition set_served (s : source) (served : gset bytes) (union_frame : nat) : source :=
  Source (_buf s) (_gpos s) (_pushback s) (_frames s) (_inherited s) (_expanded s) served
    (_synth_gets s) (_frame_ids s) union_frame (_lf s) (_cr s) (_column s) (_last_token_line s).
Definition set_expanded (s : source) (expanded : gset bytes) : source :=
  Source (_buf s) (_gpos s) (_pushback s) (_frames s) (_inherited s) expanded (_served s)
    (_synth_gets s) (_frame_ids s) (_union_frame s) (_lf s) (_cr s) (_column s) (_last_token_line s).
Definition set_inherited (s : source) (inherited : gset bytes) : source :=
  Source (_buf s) (_gpos s) (_pushback s) (_frames s) inherited (_expanded s) (_served s)
    (_synth_gets s) (_frame_ids s) (_union_frame s) (_lf s) (_cr s) (_column s) (_last_token_line s).
Definition set_ids (s : source) (frame_ids : nat) : source :=
  Source (_buf s) (_gpos s) (_pushback s) (_frames s) (_inherited s) (_expanded s) (_served s)
    (_synth_gets s) frame_ids (_union_frame s) (_lf s) (_cr s) (_column s) (_last_token_line s).
Definition count_synth (s : source) : source :=
  Source (_buf s) (_gpos s) (_pushback s) (_frames s) (_inherited s) (_expanded s) (_served s)
    (S (_synth_gets s)) (_frame_ids s) (_union_frame s) (_lf s) (_cr s) (_column s) (_last_token_line s).
Definition set_column (s : source) (column : Z) : source := at_cursor s (_gpos s) (_lf s) (_cr s) column.

Definition str (s : source) (text : bytes) : source :=
  Source text 0 (_pushback s) (_frames s) (_inherited s) (_expanded s) (_served s)
    (_synth_gets s) (_frame_ids s) (_union_frame s) (_lf s) (_cr s) (_column s) (_last_token_line s).
Definition start_unit (s : source) (text : bytes) : source :=
  let s := str s text in
  Source (_buf s) (_gpos s) (_pushback s) (_frames s) (_inherited s) (_expanded s) (_served s)
    (_synth_gets s) (_frame_ids s) (_union_frame s) 0 0 0 0.
Definition note_token_line (s : source) (line : Z) : source :=
  Source (_buf s) (_gpos s) (_pushback s) (_frames s) (_inherited s) (_expanded s) (_served s)
    (_synth_gets s) (_frame_ids s) (_union_frame s) (_lf s) (_cr s) (_column s) line.
Definition setpos (s : source) (row col : Z) : source := at_cursor s (_gpos s) (row - 1) (row - 1) col.

Definition good (s : source) : bool := negb (is_nil (_pushback s)) || (_gpos s <? length (_buf s)).
Definition eof (s : source) : bool := is_nil (_pushback s) && (length (_buf s) <=? _gpos s).
Definition line (s : source) : Z := if (_cr s <? _lf s)%Z then (_lf s + 1)%Z else (_cr s + 1)%Z.
Definition column (s : source) : Z := if (_column s =? 0)%Z then 1%Z else _column s.
Definition cursor_column (s : source) : Z := _column s.
Definition pushback_depth (s : source) : nat := length (_frames s).

(** ** Line splices and trigraphs *)

(** The spaces and tabs a text starts with. *)
Fixpoint blank_run (t : bytes) : nat :=
  match t with
  | c :: r => if byte_eqb c c_sp || byte_eqb c c_tab then S (blank_run r) else 0
  | [] => 0
  end.

Definition splice_length_at (s : source) (pos : nat) : nat :=
  let n := length (_buf s) in
  if (n <=? pos) || negb (byte_eqb (at_ (_buf s) pos) c_bslash) then 0
  else
    let p := pos + 1 + blank_run (drop (pos + 1) (_buf s)) in
    if n <=? p then 0
    else if byte_eqb (at_ (_buf s) p) c_nl then p + 1 - pos
    else if byte_eqb (at_ (_buf s) p) c_cr then
      if (p + 1 <? n) && byte_eqb (at_ (_buf s) (p + 1)) c_nl then p + 2 - pos else p + 1 - pos
    else 0.

Definition ends_in_line_splice (s : source) : bool :=
  match rfind_char c_bslash (_buf s) with
  | None => false
  | Some bs => splice_length_at s bs =? length (_buf s) - bs
  end.

Definition trigraph_from : bytes := B "=(/)'<!>-".
Definition trigraph_to : bytes := B "#[\]^{|}~".

(** The loop of [replace_trigraphs] (what comes before the first [??] is
    copied as it is, as the loop itself would). *)
Fixpoint trigraphs (t : bytes) : bytes :=
  match t with
  | [] => []
  | c :: r =>
      match r with
      | d :: x :: rest =>
          if byte_eqb c "?"%char && byte_eqb d "?"%char && negb (byte_eqb x Ascii.zero) then
            match find_char x trigraph_from with
            | Some k => at_ trigraph_to k :: trigraphs rest
            | None => c :: trigraphs r
            end
          else c :: trigraphs r
      | _ => c :: trigraphs r
      end
  end.
Definition replace_trigraphs (s : source) : source :=
  Source (trigraphs (_buf s)) (_gpos s) (_pushback s) (_frames s) (_inherited s) (_expanded s) (_served s)
    (_synth_gets s) (_frame_ids s) (_union_frame s) (_lf s) (_cr s) (_column s) (_last_token_line s).

(** ** Reading *)

(** The frames fully served by an earlier [get]. *)
Fixpoint drop_served (fs : list frame) : list frame :=
  match fs with
  | f :: r => if remaining f =? 0 then drop_served r else fs
  | [] => []
  end.

(** [get_slow] with pushed-back text: [c] is its next byte, [p] the rest. *)
Definition get_pushed (s : source) (c : ascii) (p : bytes) : Z * source :=
  let s := set_pushed (set_frames s (drop_served (_frames s))) p in
  let '(recounts, synth, s) :=
    match _frames s with
    | [] => (true, false, s)
    | f :: fs =>
        let s := if frame_id f =? _union_frame s then s
                 else set_served s (if bool_decide (arg_disabled f = ∅) then _served s
                                    else _served s ∪ arg_disabled f) (frame_id f) in
        let f' := Frame (remaining f - 1) (disabled_macro f) (arg_disabled f) (recount f) (synthesized f) (frame_id f) in
        (recount f, synthesized f, set_frames s (f' :: fs))
    end in
  (code c, if synth : bool then count_synth s
           else if recounts : bool then set_column s (_column s + 1) else s).

(** [get] and [get_slow] (which calls [get] again after a line splice). *)
Fixpoint get_fuel (fuel : nat) (s : source) : Z * source :=
  match fuel with
  | O => ((-1)%Z, s)
  | S k =>
      let ch := at_ (_buf s) (_gpos s) in
      if is_nil (_pushback s) && is_nil (_frames s) && (_gpos s <? length (_buf s))
         && negb (byte_eqb ch c_bslash) && negb (byte_eqb ch c_nl) && negb (byte_eqb ch c_cr)
      then (code ch, at_cursor s (_gpos s + 1) (_lf s) (_cr s) (_column s + 1))
      else
        match last (_pushback s) with
        | Some c => get_pushed s c (removelast (_pushback s))
        | None =>
            let s := set_frames s [] in
            if length (_buf s) <=? _gpos s then ((-1)%Z, s)
            else if 0 <? splice_length_at s (_gpos s) then
              get_fuel k (at_cursor s (_gpos s + splice_length_at s (_gpos s)) (_lf s + 1) (_cr s) 0)
            else
              (code ch,
               if byte_eqb ch c_nl then at_cursor s (_gpos s + 1) (_lf s + 1) (_cr s) 0
               else if byte_eqb ch c_cr then at_cursor s (_gpos s + 1) (_lf s) (_cr s + 1) 0
               else at_cursor s (_gpos s + 1) (_lf s) (_cr s) (_column s + 1))
        end
  end.
Definition get (s : source) : Z * source := get_fuel (S (length (_buf s) - _gpos s)) s.

Definition peek (s : source) : Z * source :=
  if is_nil (_pushback s) && (_gpos s <? length (_buf s)) && negb (byte_eqb (at_ (_buf s) (_gpos s)) c_bslash)
  then (code (at_ (_buf s) (_gpos s)), s)
  else
    match last (_pushback s) with
    | Some c => (code c, s)
    | None =>
        if length (_buf s) <=? _gpos s then ((-1)%Z, s)
        else if 0 <? splice_length_at s (_gpos s) then
          let s := at_cursor s (_gpos s + splice_length_at s (_gpos s)) (_lf s + 1) (_cr s) 0 in
          (if _gpos s <? length (_buf s) then code (at_ (_buf s) (_gpos s)) else (-1)%Z, s)
        else (code (at_ (_buf s) (_gpos s)), s)
    end.

(** The run of bytes [keep] accepts. *)
Fixpoint run_length (keep : ascii -> bool) (t : bytes) : nat :=
  match t with
  | c :: r => if keep c then S (run_length keep r) else 0
  | [] => 0
  end.

(** [fast_span]: [None] while pushed-back text stands in front. *)
Definition fast_span (s : source) (keep : ascii -> bool) : option (bytes * source) :=
  match _pushback s with
  | _ :: _ => None
  | [] =>
      let n := run_length keep (drop (_gpos s) (_buf s)) in
      Some (substr (_buf s) (_gpos s) n,
            at_cursor s (_gpos s + n) (_lf s) (_cr s) (_column s + Z.of_nat n))
  end.

(** What is left to read, in bytes. *)
Definition unread (s : source) : nat := length (_pushback s) + (length (_buf s) - _gpos s).

Definition skip_body (s : source) : source + source :=
  if negb (good s && negb (eof s)) then inr s
  else
    match fast_span s (fun c => negb (byte_eqb c c_nl) && negb (byte_eqb c c_cr) && negb (byte_eqb c c_bslash)) with
    | Some (_ :: _, s) => inl s
    | o =>
        let s := match o with Some (_, s) => s | None => s end in
        let '(c, s) := peek s in
        if (c =? code c_nl)%Z || (c =? code c_cr)%Z then inr s else inl (get s).2
    end.
Definition skip_line_rest (s : source) : source := default s (loop (S (unread s)) skip_body s).

Definition getline_body (st : bytes * nat * bytes) : bytes * nat * bytes + bytes * nat :=
  let '(b, g, acc) := st in
  if (g <? length b) && negb (byte_eqb (at_ b g) c_cr) && negb (byte_eqb (at_ b g) c_nl)
  then inl (b, g + 1, acc ++ [at_ b g]) else inr (acc, g).

(** [getline]: the line, its verdict, the source. *)
Definition getline (s : source) : bytes * bool * source :=
  let '(l, g) := default ([], _gpos s) (loop (S (length (_buf s) - _gpos s)) getline_body (_buf s, _gpos s, [])) in
  let nonempty := negb (is_nil l) in
  if length (_buf s) <=? g then (l, nonempty, at_cursor s g (_lf s) (_cr s) (_column s))
  else
    let s := if byte_eqb (at_ (_buf s) g) c_nl then at_cursor s (g + 1) (_lf s + 1) (_cr s) 0
             else at_cursor s (g + 1) (_lf s) (_cr s + 1) 0 in
    let s := if (_gpos s <? length (_buf s)) && byte_eqb (at_ (_buf s) (_gpos s)) c_nl
             then at_cursor s (_gpos s + 1) (_lf s + 1) (_cr s) (_column s) else s in
    (l, nonempty, s).

(** [line_text]: the loop over the lines; [None] is "out of fuel". *)
Definition line_text_body (row : Z) (st : bytes * source) : bytes * source + bytes :=
  let '(ln, s) := st in
  let '(c, s) := peek s in
  if (c =? -1)%Z then inr ln
  else
    let '(ln, _, s) := getline s in
    if (row <=? line s - 1)%Z then inr ln else inl (ln, s).
Definition line_text (fuel : nat) (s : source) (row : Z) : option bytes :=
  loop fuel (line_text_body row) ([], at_cursor s 0 0 0 (_column s)).

(** [consume_block_comment], after the opening [/*]: the comment's end, or the
    refusal at its start ([row], [col]); [keep] gets the text read. *)
Inductive comment_end := comment_closed (keep : bytes) (s : source) | comment_open (keep : bytes) (s : source).
Definition comment_body (st : Z * bytes * source) : Z * bytes * source + comment_end :=
  let '(prev, keep, s) := st in
  if negb (good s && negb (eof s)) then inr (comment_open keep s)
  else
    let '(c, s) := get s in
    let keep := keep ++ [to_byte c] in
    if (prev =? code "*"%char)%Z && (c =? code "/"%char)%Z then inr (comment_closed keep s)
    else inl (c, keep, s).
Definition consume_block_comment (s : source) (row col : Z) (defer_refusal : bool) : comment_end :=
  match default (comment_open [] s) (loop (S (unread s)) comment_body (0%Z, [], s)) with
  | comment_open keep s => comment_open keep (if defer_refusal then s else setpos s row col)
  | e => e
  end.

(** ** Pushing text back *)

Definition push_front_text (s : source) (text : bytes) : source := set_pushed s (_pushback s ++ rev text).

Definition add_pushback_frame_len (s : source) (len : nat) (name : bytes) (recounts synth : bool)
    (paint : gset bytes) : source :=
  if len =? 0 then s
  else
    let s := set_ids s (S (_frame_ids s)) in
    set_frames s (Frame len name paint recounts synth (_frame_ids s) :: _frames s).
Definition add_pushback_frame (s : source) (text name : bytes) (recounts synth : bool) (paint : gset bytes) : source :=
  add_pushback_frame_len s (length text) name recounts synth paint.

Definition pushback (s : source) (text : bytes) : source :=
  add_pushback_frame (push_front_text s text) text [] true false ∅.

Definition pushback_reread (s : source) (text : bytes) : source :=
  if negb (existsb (byte_eqb c_nl) text) && negb (existsb (byte_eqb c_cr) text)
     && (Z.of_nat (length text) <=? _column s)%Z then
    let s := set_column s (_column s - Z.of_nat (length text)) in
    add_pushback_frame (push_front_text s text) text [] true false ∅
  else add_pushback_frame (push_front_text s text) text [] false false ∅.

(** [PaintSeg], [ArgSpan]. *)
Record paint_seg := PaintSeg { ps_off : nat; ps_paint : gset bytes }.
Record arg_span := ArgSpan { as_off : nat; as_len : nat; as_param : bytes }.

(** The frames of a cut text, pushed last stretch first. *)
Definition push_segs (s : source) (name : bytes) (synth : bool) (segs : list (nat * gset bytes)) : source :=
  fold_right (fun seg s => add_pushback_frame_len s seg.1 name true synth seg.2) s segs.

(** The stretches of [pushback_painted_text]: from each offset (the first from
    the start) to the next; a stretch that ends no later than it starts is none. *)
Fixpoint painted_from (from : nat) (paint : gset bytes) (segs : list paint_seg) (size : nat) : list (nat * gset bytes) :=
  match segs with
  | [] => if from <? size then [(size - from, paint)] else []
  | sg :: r =>
      (if from <? ps_off sg then [(ps_off sg - from, paint)] else []) ++ painted_from (ps_off sg) (ps_paint sg) r size
  end.
Definition pushback_painted_text (s : source) (text : bytes) (segs : list paint_seg) : source :=
  let s := push_front_text s text in
  match segs with
  | [] => s
  | sg :: r => push_segs s [] true (painted_from 0 (ps_paint sg) r (length text))
  end.

Definition insert_name (name : bytes) (s : source) : source :=
  if is_nil name then s else set_expanded s ({[name]} ∪ _expanded s).

Definition paint_of (param_paint : list (bytes * gset bytes)) (param : bytes) : gset bytes :=
  match List.find (fun p => bytes_eqb p.1 param) param_paint with Some p => p.2 | None => ∅ end.

(** The stretches of [pushback_macro_spans], from offset [pos] on: body text
    unpainted, each argument's range under its parameter's paint. *)
Fixpoint span_segs (pos : nat) (spans : list arg_span) (param_paint : list (bytes * gset bytes)) (size : nat)
    : list (nat * gset bytes) :=
  match spans with
  | [] => if pos <? size then [(size - pos, ∅)] else []
  | sp :: r =>
      if (as_off sp <? pos) || (as_len sp =? 0) || (size <? as_off sp + as_len sp) then span_segs pos r param_paint size
      else
        (if pos <? as_off sp then [(as_off sp - pos, ∅)] else [])
        ++ (as_len sp, paint_of param_paint (as_param sp)) :: span_segs (as_off sp + as_len sp) r param_paint size
  end.

(** [param_paint] is the map from parameter to paint, as its entries. *)
Definition pushback_macro_spans (s : source) (text name : bytes) (spans : list arg_span)
    (param_paint : list (bytes * gset bytes)) : source :=
  let s := insert_name name (push_front_text s text) in
  let s := set_expanded s (_expanded s ∪ ⋃ (map snd param_paint)) in
  push_segs s name true (span_segs 0 spans param_paint (length text)).

Definition pushback_macro (s : source) (text name : bytes) (paint : gset bytes) : source :=
  let s := insert_name name (push_front_text s text) in
  let s := set_expanded s (_expanded s ∪ paint) in
  add_pushback_frame s text name true true paint.

(** ** What is hidden from expansion *)

Definition macro_disabled (s : source) (name : bytes) : bool :=
  bool_decide (name ∈ _inherited s)
  || existsb (fun f => bytes_eqb (disabled_macro f) name) (_frames s)
  || match _frames s with f :: _ => bool_decide (name ∈ arg_disabled f) | [] => false end.

Definition inherit_macro_disables (s from : source) (current : bytes) (extra : gset bytes) : source :=
  set_inherited s
    (_inherited from
     ∪ list_to_set (List.filter (fun n => negb (is_nil n)) (map disabled_macro (_frames from)))
     ∪ extra ∪ (if is_nil current then ∅ else {[current]})).

Definition serving_frame (s : source) : nat := match _frames s with f :: _ => frame_id f | [] => 0 end.
Definition current_arg_paint (s : source) : gset bytes :=
  match _frames s with f :: _ => arg_disabled f | [] => ∅ end.
Definition reset_served_arg_paint (s : source) : source := set_served s ∅ 0.

(** ** The raw text ahead *)

Definition raw_line_ahead (s : source) : option bytes :=
  match _pushback s with
  | _ :: _ => None
  | [] => let t := drop (_gpos s) (_buf s) in
          Some (take (run_length (fun c => negb (byte_eqb c c_nl) && negb (byte_eqb c c_cr)) t) t)
  end.
Definition raw_offset (s : source) : option nat :=
  match _pushback s with _ :: _ => None | [] => Some (_gpos s) end.

(** ** Phase 2: the text with its splices folded *)

(** [splice_length_at] on the text from the position on. *)
Definition splice_len (t : bytes) : nat :=
  match t with
  | c :: r =>
      if byte_eqb c c_bslash then
        let k := blank_run r in
        match drop k r with
        | [] => 0
        | x :: r' =>
            if byte_eqb x c_nl then k + 2
            else if byte_eqb x c_cr then
              match r' with y :: _ => if byte_eqb y c_nl then k + 3 else k + 2 | [] => k + 2 end
            else 0
        end
      else 0
  | [] => 0
  end.

Lemma blank_run_le t : blank_run t <= length t.
Proof. induction t as [|c t IH]; simpl; [lia|]. case_if; lia. Qed.

Lemma splice_length_at_suffix s pos : splice_length_at s pos = splice_len (drop pos (_buf s)).
Proof.
  unfold splice_length_at. destruct (length (_buf s) <=? pos) eqn:E; reflect_bool; simpl.
  { by rewrite drop_ge. }
  rewrite (drop_at (_buf s) pos) by done. cbn [splice_len]. destruct (byte_eqb (at_ (_buf s) pos) c_bslash); [|done].
  simpl. rewrite Nat.add_1_r. set (k := blank_run (drop (S pos) (_buf s))). rewrite drop_drop.
  destruct (length (_buf s) <=? S pos + k) eqn:Ep; reflect_bool; [by rewrite drop_ge|].
  rewrite (drop_at (_buf s) (S pos + k)) by done.
  destruct (byte_eqb _ c_nl); [lia|]. destruct (byte_eqb _ c_cr); [|done].
  destruct (S pos + k + 1 <? length (_buf s)) eqn:E2; reflect_bool; cbn [andb].
  - rewrite (drop_at (_buf s) (S (S pos + k))) by lia.
    replace (S pos + k + 1) with (S (S pos + k)) by lia. destruct (byte_eqb _ c_nl); lia.
  - rewrite drop_ge by lia. lia.
Qed.

Lemma splice_len_bounds t : splice_len t = 0 \/ 2 <= splice_len t <= length t.
Proof.
  destruct t as [|c r]; simpl; [by left|]. destruct (byte_eqb c c_bslash); [|by left].
  pose proof (blank_run_le r) as Hk.
  destruct (drop (blank_run r) r) as [|x r'] eqn:Ed; [by left|].
  apply (f_equal length) in Ed. rewrite length_drop in Ed. simpl in Ed.
  destruct (byte_eqb x c_nl); [lia|]. destruct (byte_eqb x c_cr); [|by left].
  destruct r' as [|y r'']; simpl in Ed; [lia|]. case_if; lia.
Qed.

(** C11 5.1.1.2p1, phase 2: every splice deleted. *)
Fixpoint phase2_fuel (fuel : nat) (t : bytes) : bytes :=
  match fuel with
  | O => []
  | S k =>
      match t with
      | [] => []
      | c :: r => if 0 <? splice_len t then phase2_fuel k (drop (splice_len t) t) else c :: phase2_fuel k r
      end
  end.
Definition phase2 (t : bytes) : bytes := phase2_fuel (length t) t.

Lemma phase2_fuel_enough k k' t : length t <= k -> length t <= k' -> phase2_fuel k t = phase2_fuel k' t.
Proof.
  revert k' t. induction k as [|k IH]; intros [|k'] t Hk Hk'; try (destruct t; simpl in *; [done|lia]).
  destruct t as [|c r]; [done|]. cbn [phase2_fuel]. pose proof (splice_len_bounds (c :: r)) as Hb.
  destruct (0 <? splice_len (c :: r)) eqn:E; reflect_bool.
  - apply IH; rewrite length_drop; simpl in *; lia.
  - f_equal. apply IH; simpl in *; lia.
Qed.

Lemma phase2_cons c r :
  phase2 (c :: r) = if 0 <? splice_len (c :: r) then phase2 (drop (splice_len (c :: r)) (c :: r)) else c :: phase2 r.
Proof.
  unfold phase2 at 1. cbn [length phase2_fuel]. pose proof (splice_len_bounds (c :: r)) as Hb.
  destruct (0 <? splice_len (c :: r)) eqn:E; reflect_bool; [|done].
  apply phase2_fuel_enough; rewrite ?length_drop; simpl in *; lia.
Qed.

Lemma phase2_length t : length (phase2 t) <= length t.
Proof.
  unfold phase2. generalize (length t) at 1 as k. intros k. revert t.
  induction k as [|k IH]; intros [|c r]; cbn [phase2_fuel length]; try lia.
  destruct (0 <? splice_len (c :: r)).
  - pose proof (IH (drop (splice_len (c :: r)) (c :: r))) as H. rewrite length_drop in H. simpl length in H at 2. lia.
  - simpl. specialize (IH r). lia.
Qed.

(** The characters still to be read. *)
Definition ahead (s : source) : bytes := rev (_pushback s) ++ phase2 (drop (_gpos s) (_buf s)).


Lemma rev_last {A} (l : list A) x : last l = Some x -> rev l = x :: rev (removelast l).
Proof. intros [l' ->]%last_Some. by rewrite removelast_last, rev_app_distr. Qed.

(** The fields [get] may leave alone. *)
Lemma get_pushed_fields s c p :
  let s' := (get_pushed s c p).2 in
  _buf s' = _buf s /\ _gpos s' = _gpos s /\ _pushback s' = p /\ _lf s' = _lf s /\ _cr s' = _cr s.
Proof.
  unfold get_pushed. simpl. destruct (drop_served (_frames s)) as [|f fs]; simpl; [done|].
  repeat case_if; done.
Qed.

Lemma get_pushed_char s c p : (get_pushed s c p).1 = code c.
Proof.
  unfold get_pushed. simpl. destruct (drop_served (_frames s)) as [|f fs]; simpl; [done|].
  by repeat case_if.
Qed.

Lemma get_fuel_reads fuel s :
  length (_buf s) - _gpos s < fuel ->
  let '(c, s') := get_fuel fuel s in
  match ahead s with
  | [] => c = (-1)%Z /\ ahead s' = []
  | x :: r => c = code x /\ ahead s' = r
  end.
Proof.
  revert s. induction fuel as [|k IH]; intros s Hf; [lia|]. cbn [get_fuel].
  set (ch := at_ (_buf s) (_gpos s)).
  assert (Hplain : _pushback s = [] -> _gpos s < length (_buf s) -> splice_length_at s (_gpos s) = 0 ->
    ahead s = ch :: phase2 (drop (S (_gpos s)) (_buf s))).
  { intros Hp Hl Hs. unfold ahead. rewrite Hp, (drop_at (_buf s) (_gpos s)) by done. simpl rev. simpl app.
    rewrite phase2_cons, <- (drop_at (_buf s) (_gpos s)), <- splice_length_at_suffix, Hs by done. done. }
  destruct (_ && _) eqn:Efast.
  { reflect_bool. apply is_nil_true in H. rewrite Hplain; try done.
    - split; [done|]. unfold ahead. simpl. rewrite H, Nat.add_1_r. done.
    - unfold splice_length_at. fold ch. destruct (length (_buf s) <=? _gpos s); simpl; [done|].
      by rewrite (proj2 (byte_eqb_neq ch c_bslash)) by done. }
  clear Efast. destruct (last (_pushback s)) as [c|] eqn:El.
  { pose proof (get_pushed_fields s c (removelast (_pushback s))) as (H1 & H2 & H3 & _).
    pose proof (get_pushed_char s c (removelast (_pushback s))) as H4.
    destruct (get_pushed s c _) as [c' s']. simpl in *. subst c'.
    unfold ahead. rewrite H1, H2, H3.
    by rewrite (rev_last _ _ El). }
  apply last_None in El. simpl.
  destruct (length (_buf s) <=? _gpos s) eqn:Ee; reflect_bool.
  { unfold ahead. simpl. rewrite El, drop_ge by done. done. }
  change (splice_length_at (set_frames s []) (_gpos s)) with (splice_length_at s (_gpos s)).
  destruct (0 <? splice_length_at s (_gpos s)) eqn:Es; reflect_bool.
  - match goal with |- context [get_fuel k ?s0] => set (s1 := s0) end.
    assert (Ha : ahead s1 = ahead s).
    { unfold ahead, s1. simpl. rewrite El. simpl. rewrite (drop_at (_buf s) (_gpos s)) by done.
      rewrite phase2_cons, <- (drop_at (_buf s) (_gpos s)), <- splice_length_at_suffix by done.
      rewrite (proj2 (Nat.ltb_lt _ _)) by done. by rewrite drop_drop, Nat.add_comm. }
    rewrite <- Ha. apply IH. unfold s1. simpl. lia.
  - rewrite Hplain by (done || lia). split; [done|]. unfold ahead.
    repeat case_if; simpl; by rewrite El, Nat.add_1_r.
Qed.

Lemma get_reads s :
  match ahead s with
  | [] => (get s).1 = (-1)%Z /\ ahead (get s).2 = []
  | x :: r => (get s).1 = code x /\ ahead (get s).2 = r
  end.
Proof.
  pose proof (get_fuel_reads (S (length (_buf s) - _gpos s)) s ltac:(lia)) as H.
  unfold get. by destruct (get_fuel _ s).
Qed.

(** [n] calls of [get]: the characters read and the source after them. *)
Fixpoint gets (n : nat) (s : source) : list Z * source :=
  match n with
  | O => ([], s)
  | S k => let '(c, s) := get s in let '(cs, s) := gets k s in (c :: cs, s)
  end.

Lemma gets_reads n s :
  n <= length (ahead s) ->
  (gets n s).1 = map code (take n (ahead s)) /\ ahead (gets n s).2 = drop n (ahead s).
Proof.
  revert s. induction n as [|n IH]; intros s Hn; simpl; [by rewrite drop_0|].
  pose proof (get_reads s) as H. destruct (ahead s) as [|x r] eqn:E; simpl in Hn; [lia|].
  destruct (get s) as [c s1]. simpl in H. destruct H as [-> H]. specialize (IH s1). rewrite H in IH.
  destruct (gets n s1) as [cs s2]. destruct IH as [IH1 IH2]; [lia|]. simpl in *. by rewrite IH1, IH2.
Qed.

Lemma gets_snoc n s : gets (S n) s = let '(cs, s) := gets n s in let '(c, s) := get s in (cs ++ [c], s).
Proof.
  revert s. induction n as [|n IH]; intros s; [simpl; by destruct (get s)|].
  cbn [gets]. cbn [gets] in IH. destruct (get s) as [c s1]. rewrite (IH s1).
  destruct (gets n s1) as [cs s2]. by destruct (get s2).
Qed.

(** ** The frames: what each pushed-back character is served under *)

(** Each pushed-back character's layer: the macro name its frame disables and
    the paint of its region. *)
Definition layers_of (fs : list frame) : list (bytes * gset bytes) :=
  flat_map (fun f => replicate (remaining f) (disabled_macro f, arg_disabled f)) fs.
Definition layers (s : source) : list (bytes * gset bytes) := layers_of (_frames s).

(** The invariant: the frames cut the pushed-back text. *)
Definition framed (s : source) : Prop := length (layers s) = length (_pushback s).

Lemma drop_served_layers fs : layers_of (drop_served fs) = layers_of fs.
Proof.
  induction fs as [|f fs IH]; simpl; [done|]. destruct (remaining f =? 0) eqn:E; [|done].
  reflect_bool. by rewrite E.
Qed.

Lemma drop_served_head fs :
  match drop_served fs with [] => layers_of fs = [] | f :: r => 0 < remaining f end.
Proof.
  induction fs as [|f fs IH]; simpl; [done|]. destruct (remaining f =? 0) eqn:E; reflect_bool.
  - rewrite E. exact IH.
  - lia.
Qed.

(** The layer the last read character came from: the front frame's. *)
Definition front_layer (s : source) : option (bytes * gset bytes) :=
  match _frames s with [] => None | f :: _ => Some (disabled_macro f, arg_disabled f) end.

Lemma get_pushed_layers s c p :
  framed s -> last (_pushback s) = Some c -> p = removelast (_pushback s) ->
  let s' := (get_pushed s c p).2 in
  exists l, layers s = l :: layers s' /\ front_layer s' = Some l /\ framed s' /\
    _inherited s' = _inherited s /\ tail (_frames s') = tail (drop_served (_frames s)).
Proof.
  intros Hfr Hl ->. unfold framed, layers in *.
  pose proof (drop_served_layers (_frames s)) as Hd. pose proof (drop_served_head (_frames s)) as Hh.
  apply last_Some in Hl as [l' Hl]. rewrite Hl, removelast_last in *. rewrite length_app in Hfr. simpl in Hfr.
  unfold get_pushed. simpl. destruct (drop_served (_frames s)) as [|f fs].
  { rewrite Hh in Hfr. simpl in Hfr. lia. }
  simpl in *. exists (disabled_macro f, arg_disabled f).
  destruct (remaining f) as [|n] eqn:Er; [lia|]. simpl in Hd.
  assert (H : forall s1, _pushback s1 = l' -> _inherited s1 = _inherited s ->
    _frames s1 = Frame n (disabled_macro f) (arg_disabled f) (recount f) (synthesized f) (frame_id f) :: fs ->
    layers_of (_frames s) = (disabled_macro f, arg_disabled f) :: layers_of (_frames s1) /\
    front_layer s1 = Some (disabled_macro f, arg_disabled f) /\
    length (layers_of (_frames s1)) = length (_pushback s1) /\ _inherited s1 = _inherited s /\
    tail (_frames s1) = fs).
  { intros s1 Hp Hi Hf. unfold front_layer. rewrite Hf, Hp. simpl. rewrite <- Hd in *.
    split_and!; [done|done| |done|done]. rewrite length_app in *. simpl in *. rewrite length_app in Hfr. lia. }
  repeat case_if; apply H; simpl; rewrite ?Nat.sub_0_r; done.
Qed.

(** One character of the pushed-back text. *)
Lemma get_layer s :
  framed s -> _pushback s <> [] ->
  exists l, layers s = l :: layers (get s).2 /\ front_layer (get s).2 = Some l /\ framed (get s).2 /\
    _inherited (get s).2 = _inherited s /\ tail (_frames (get s).2) = tail (drop_served (_frames s)) /\
    rev (_pushback s) = to_byte (get s).1 :: rev (_pushback (get s).2).
Proof.
  intros Hfr Hp. unfold get. cbn [get_fuel].
  rewrite (proj2 (is_nil_false (_pushback s))) by done. cbn [andb negb].
  destruct (last (_pushback s)) as [c|] eqn:El; [|by apply last_None in El].
  destruct (get_pushed_layers s c _ Hfr El eq_refl) as (l & H1 & H2 & H3 & H4 & H5).
  exists l. split_and!; try done. rewrite get_pushed_char, to_byte_code, (rev_last _ _ El).
  pose proof (get_pushed_fields s c (removelast (_pushback s))) as (_ & _ & -> & _). done.
Qed.

(** Reading from the buffer leaves no frame behind. *)
Lemma get_fuel_unframed fuel s :
  _pushback s = [] -> fuel <> 0 \/ _frames s = [] ->
  _frames (get_fuel fuel s).2 = [] /\ _pushback (get_fuel fuel s).2 = [] /\
  _inherited (get_fuel fuel s).2 = _inherited s.
Proof.
  revert s. induction fuel as [|k IH]; intros s Hp H0; cbn [get_fuel]; [by destruct H0|].
  destruct (_ && _) eqn:E; reflect_bool.
  - repeat match goal with H : is_nil _ = true |- _ => apply is_nil_true in H end. done.
  - rewrite Hp. cbn [last]. destruct (_ <=? _); [done|]. destruct (0 <? _).
    + match goal with |- context [get_fuel k ?s1] => apply (IH s1); [done|by right] end.
    + repeat case_if; done.
Qed.

Lemma get_unframed s :
  _pushback s = [] ->
  _frames (get s).2 = [] /\ _pushback (get s).2 = [] /\ _inherited (get s).2 = _inherited s.
Proof. intros Hp. apply get_fuel_unframed; [done|by left]. Qed.

Lemma get_inherited s : _inherited (get s).2 = _inherited s.
Proof.
  destruct (decide (_pushback s = [])) as [Hp|Hp]; [by apply get_unframed|].
  unfold get. cbn [get_fuel]. rewrite (proj2 (is_nil_false _)) by done. cbn [andb negb].
  destruct (last (_pushback s)) as [c|] eqn:El; [|by apply last_None in El].
  unfold get_pushed. simpl. destruct (drop_served (_frames s)); [done|]. repeat case_if; done.
Qed.

Lemma get_framed s : framed s -> framed (get s).2.
Proof.
  intros Hf. destruct (decide (_pushback s = [])) as [Hp|Hp].
  - destruct (get_unframed s Hp) as (H1 & H2 & _). unfold framed, layers. by rewrite H1, H2.
  - by destruct (get_layer s Hf Hp) as (l & _ & _ & H & _).
Qed.

(** *** What pushing adds *)

Lemma add_frame_layers s len name r sy paint :
  let s' := add_pushback_frame_len s len name r sy paint in
  layers s' = replicate len (name, paint) ++ layers s /\
  _pushback s' = _pushback s /\ _buf s' = _buf s /\ _gpos s' = _gpos s /\ _inherited s' = _inherited s /\
  _expanded s' = _expanded s.
Proof.
  unfold add_pushback_frame_len. destruct (len =? 0) eqn:E; reflect_bool; [by subst|]. done.
Qed.

Lemma push_segs_layers s name sy segs :
  let s' := push_segs s name sy segs in
  layers s' = flat_map (fun sg => replicate sg.1 (name, sg.2)) segs ++ layers s /\
  _pushback s' = _pushback s /\ _buf s' = _buf s /\ _gpos s' = _gpos s /\ _inherited s' = _inherited s /\
  _expanded s' = _expanded s.
Proof.
  induction segs as [|[n p] segs IH]; simpl; [done|].
  destruct (add_frame_layers (push_segs s name sy segs) n name true sy p) as (H1 & H2 & H3 & H4 & H5 & H6).
  destruct IH as (I1 & I2 & I3 & I4 & I5 & I6). split_and!; [|congruence..].
  unfold push_segs in *. simpl. rewrite H1, I1. by rewrite app_assoc.
Qed.

Lemma push_framed s s' text :
  framed s -> _pushback s' = _pushback s ++ rev text ->
  length (layers s') = length text + length (layers s) -> framed s'.
Proof. intros Hf Hp Hl. unfold framed in *. rewrite Hp, Hl, length_app, length_rev. lia. Qed.

(** The paint of the body or argument range that holds offset [i]. *)
Fixpoint span_at (spans : list arg_span) (param_paint : list (bytes * gset bytes)) (i : nat) : gset bytes :=
  match spans with
  | [] => ∅
  | sp :: r => if (as_off sp <=? i) && (i <? as_off sp + as_len sp) then paint_of param_paint (as_param sp)
               else span_at r param_paint i
  end.

(** The spans stand in order inside a text of [size] bytes, from [pos] on. *)
Fixpoint in_order (pos : nat) (spans : list arg_span) (size : nat) : Prop :=
  match spans with
  | [] => True
  | sp :: r => pos <= as_off sp /\ 0 < as_len sp /\ as_off sp + as_len sp <= size /\ in_order (as_off sp + as_len sp) r size
  end.

Lemma span_at_before pos spans pp size i : in_order pos spans size -> i < pos -> span_at spans pp i = ∅.
Proof.
  revert pos. induction spans as [|sp r IH]; intros pos; simpl; [done|].
  intros (H1 & H2 & H3 & H4) Hi. rewrite (proj2 (Nat.leb_gt (as_off sp) i)) by lia. simpl.
  apply (IH _ H4). lia.
Qed.

Definition layers_from (name : bytes) (spans : list arg_span) (pp : list (bytes * gset bytes)) (pos n : nat) :=
  map (fun i => (name, span_at spans pp i)) (seq pos n).

Lemma layers_from_const name spans pp pos n p :
  (forall i, pos <= i < pos + n -> span_at spans pp i = p) ->
  layers_from name spans pp pos n = replicate n (name, p).
Proof.
  revert pos. induction n as [|n IH]; intros pos H; simpl; [done|].
  unfold layers_from in *. simpl. rewrite H by lia. f_equal. apply IH. intros i Hi. apply H. lia.
Qed.

Lemma layers_from_app name spans pp pos n m :
  layers_from name spans pp pos (n + m) = layers_from name spans pp pos n ++ layers_from name spans pp (pos + n) m.
Proof. unfold layers_from. by rewrite seq_app, map_app. Qed.

Lemma layers_from_skip name sp r pp pos n :
  as_off sp + as_len sp <= pos -> layers_from name (sp :: r) pp pos n = layers_from name r pp pos n.
Proof.
  intros H. unfold layers_from. apply map_ext_in. intros i [Hi _]%in_seq. simpl.
  rewrite (proj2 (Nat.ltb_ge i (as_off sp + as_len sp))) by lia. by rewrite andb_false_r.
Qed.

(** The stretches cut the text, each character under the paint of its range. *)
Lemma span_segs_layers name pp size spans pos :
  pos <= size -> in_order pos spans size ->
  flat_map (fun sg => replicate sg.1 (name, sg.2)) (span_segs pos spans pp size)
  = layers_from name spans pp pos (size - pos).
Proof.
  revert pos. induction spans as [|sp r IH]; intros pos Hpos; simpl.
  { intros _. rewrite layers_from_const with (p := ∅) by done.
    destruct (pos <? size) eqn:E; reflect_bool; simpl; [by rewrite app_nil_r|].
    by replace (size - pos) with 0 by lia. }
  intros (H1 & H2 & H3 & H4).
  rewrite (proj2 (Nat.ltb_ge _ _)), (proj2 (Nat.eqb_neq _ _)), (proj2 (Nat.ltb_ge _ _)) by lia. simpl.
  rewrite flat_map_app. simpl. rewrite IH by (done || lia).
  replace (size - pos) with ((as_off sp - pos) + (as_len sp + (size - (as_off sp + as_len sp)))) by lia.
  rewrite layers_from_app, layers_from_app. replace (pos + (as_off sp - pos)) with (as_off sp) by lia. f_equal.
  - rewrite layers_from_const with (p := ∅).
    + destruct (pos <? as_off sp) eqn:E; reflect_bool; simpl; [by rewrite app_nil_r|].
      by replace (as_off sp - pos) with 0 by lia.
    + intros i Hi. simpl. rewrite (proj2 (Nat.leb_gt _ _)) by lia. simpl. apply (span_at_before _ _ _ _ _ H4). lia.
  - f_equal.
    + rewrite layers_from_const with (p := paint_of pp (as_param sp)); [done|]. intros i Hi. simpl.
      by rewrite (proj2 (Nat.leb_le _ _)), (proj2 (Nat.ltb_lt _ _)) by lia.
    + by rewrite layers_from_skip by lia.
Qed.

(** *** Reading what was pushed *)

Lemma gets_layers n s :
  framed s -> n <= length (_pushback s) ->
  let s' := (gets n s).2 in
  framed s' /\ layers s' = drop n (layers s) /\ rev (_pushback s') = drop n (rev (_pushback s)) /\
  _inherited s' = _inherited s /\ (gets n s).1 = map code (take n (rev (_pushback s))) /\
  (0 < n -> front_layer s' = layers s !! (n - 1)).
Proof.
  revert s. induction n as [|n IH]; intros s Hf Hn; simpl.
  { rewrite !drop_0. split_and!; try done. lia. }
  assert (Hp : _pushback s <> []) by (intros Hp; rewrite Hp in Hn; simpl in Hn; lia).
  destruct (get_layer s Hf Hp) as (l & H1 & H2 & H3 & H4 & _ & H6).
  pose proof (get_reads s) as Hr. unfold ahead in Hr. rewrite H6 in Hr. simpl in Hr. destruct Hr as [Hc _].
  destruct (get s) as [c s1]. simpl in *. rewrite H1, H6.
  destruct (IH s1 H3) as (I1 & I2 & I3 & I4 & I5 & I6).
  { apply (f_equal length) in H6. simpl in H6. rewrite !length_rev in H6. lia. }
  destruct (gets n s1) as [cs s2] eqn:Eg. simpl in *.
  split_and!; try done; [congruence|by f_equal|]. intros _.
  destruct n as [|n]; [injection Eg as _ <-; by rewrite H2|].
  replace (S n - 1) with n in I6 by lia. replace (S (S n) - 1) with (S n) by lia. simpl. apply I6. lia.
Qed.

Lemma gets_zero_frame_front n s f fs :
  _frames s = f :: fs -> n <= remaining f -> remaining f <= length (_pushback s) ->
  exists f', _frames (gets n s).2 = f' :: fs /\ remaining f' = remaining f - n /\
    disabled_macro f' = disabled_macro f /\ arg_disabled f' = arg_disabled f.
Proof.
  revert s f. induction n as [|n IH]; intros s f Hf Hn Hp; simpl.
  { exists f. split_and!; try done. lia. }
  unfold get. cbn [get_fuel].
  assert (Hne : _pushback s <> []) by (intros E; rewrite E in Hp; simpl in Hp; lia).
  rewrite (proj2 (is_nil_false _)) by done. cbn [andb negb].
  destruct (last (_pushback s)) as [c|] eqn:El; [|by apply last_None in El].
  pose proof (get_pushed_fields s c (removelast (_pushback s))) as (_ & _ & H3 & _).
  assert (Hfr : _frames (get_pushed s c (removelast (_pushback s))).2
    = Frame (remaining f - 1) (disabled_macro f) (arg_disabled f) (recount f) (synthesized f) (frame_id f) :: fs).
  { unfold get_pushed. simpl. rewrite Hf. simpl. rewrite (proj2 (Nat.eqb_neq _ _)) by lia.
    repeat case_if; done. }
  destruct (get_pushed s c _) as [c' s1]. simpl in *.
  destruct (IH s1 _ Hfr) as (f' & I1 & I2 & I3 & I4); simpl; [lia| |].
  { rewrite H3. apply last_Some in El as [l' El]. rewrite El, removelast_last. rewrite El, length_app in Hp.
    simpl in Hp. lia. }
  destruct (gets n s1). exists f'. simpl in *. split_and!; try done. lia.
Qed.

(** What the next character's frames are depends on the frames still serving. *)
Lemma get_frames_cong a b :
  _pushback a = _pushback b -> drop_served (_frames a) = drop_served (_frames b) ->
  _frames (get a).2 = _frames (get b).2.
Proof.
  intros Hp Hd. destruct (decide (_pushback b = [])) as [Hb|Hb].
  { destruct (get_unframed a) as [-> _]; [congruence|]. by destruct (get_unframed b Hb) as [-> _]. }
  unfold get. cbn [get_fuel]. rewrite Hp, (proj2 (is_nil_false _)) by done. cbn [andb negb].
  destruct (last (_pushback b)) as [c|] eqn:El; [|by apply last_None in El].
  unfold get_pushed. simpl. rewrite Hd. destruct (drop_served (_frames b)) as [|f fs]; [done|].
  repeat case_if; done.
Qed.

(** The state a macro expansion leaves. *)
Lemma pushback_macro_state s text name paint :
  let s' := pushback_macro s text name paint in
  layers s' = replicate (length text) (name, paint) ++ layers s /\
  _pushback s' = _pushback s ++ rev text /\ _buf s' = _buf s /\ _gpos s' = _gpos s /\ _inherited s' = _inherited s.
Proof.
  unfold pushback_macro, add_pushback_frame, insert_name.
  match goal with |- context [add_pushback_frame_len ?s1 ?len ?nm ?r ?sy ?p] =>
    destruct (add_frame_layers s1 len nm r sy p) as (H1 & H2 & H3 & H4 & H5 & _) end.
  cbv zeta. rewrite H1, H2, H3, H4, H5. by destruct (is_nil name).
Qed.

Lemma pushback_macro_spans_state s text name spans pp :
  in_order 0 spans (length text) ->
  let s' := pushback_macro_spans s text name spans pp in
  layers s' = layers_from name spans pp 0 (length text) ++ layers s /\
  _pushback s' = _pushback s ++ rev text /\ _buf s' = _buf s /\ _gpos s' = _gpos s /\ _inherited s' = _inherited s.
Proof.
  intros Ho. unfold pushback_macro_spans, insert_name.
  match goal with |- context [push_segs ?s1 ?nm ?sy ?sg] =>
    destruct (push_segs_layers s1 nm sy sg) as (H1 & H2 & H3 & H4 & H5 & _) end.
  cbv zeta. rewrite H1, H2, H3, H4, H5, span_segs_layers, Nat.sub_0_r by (done || lia). by destruct (is_nil name).
Qed.

Lemma length_layers_from name spans pp pos n : length (layers_from name spans pp pos n) = n.
Proof. unfold layers_from. by rewrite length_map, length_seq. Qed.

Lemma layers_from_lookup name spans pp n i :
  i < n -> layers_from name spans pp 0 n !! i = Some (name, span_at spans pp i).
Proof.
  intros Hi. unfold layers_from. rewrite list_lookup_fmap, lookup_seq_lt by done. done.
Qed.

(** The front layer answers [macro_disabled]. *)
Lemma front_disabled s name paint :
  front_layer s = Some (name, paint) ->
  macro_disabled s name = true /\ current_arg_paint s = paint /\ (forall n, n ∈ paint -> macro_disabled s n = true).
Proof.
  unfold front_layer, macro_disabled, current_arg_paint. destruct (_frames s) as [|f fs]; [done|].
  intros [= <- <-]. simpl. split_and!; [|done|].
  - rewrite bytes_eqb_refl, orb_true_r. done.
  - intros n Hn. rewrite (bool_decide_eq_true_2 (n ∈ arg_disabled f)) by done. by rewrite orb_true_r.
Qed.

(** C10: A function-like macro's replacement is read back character for
    character with each argument range under its parameter's paint and the body
    text under none, the macro itself hidden from its own rescan throughout;
    then the source goes on as it was. *)
Theorem macro_spans_serve s text name spans pp i :
  framed s -> in_order 0 spans (length text) -> i < length text ->
  let s' := pushback_macro_spans s text name spans pp in
  framed s' /\ ahead s' = text ++ ahead s /\
  (gets (S i) s').1 = map code (take (S i) text) /\
  current_arg_paint (gets (S i) s').2 = span_at spans pp i /\
  macro_disabled (gets (S i) s').2 name = true /\
  (forall n, n ∈ span_at spans pp i -> macro_disabled (gets (S i) s').2 n = true) /\
  layers (gets (length text) s').2 = layers s /\ ahead (gets (length text) s').2 = ahead s.
Proof.
  intros Hf Ho Hi s'.
  destruct (pushback_macro_spans_state s text name spans pp Ho) as (H1 & H2 & H3 & H4 & H5). fold s' in H1, H2, H3, H4, H5.
  assert (Hf' : framed s').
  { apply (push_framed s s' text Hf H2). by rewrite H1, length_app, length_layers_from. }
  assert (Hrev : rev (_pushback s') = text ++ rev (_pushback s)) by (by rewrite H2, rev_app_distr, rev_involutive).
  assert (Hlen : length (_pushback s') = length text + length (_pushback s)) by (rewrite H2, length_app, length_rev; lia).
  assert (Ha : ahead s' = text ++ ahead s) by (unfold ahead; by rewrite Hrev, H3, H4, app_assoc).
  destruct (gets_layers (S i) s' Hf') as (_ & _ & _ & _ & I5 & I6); [lia|].
  destruct (gets_layers (length text) s' Hf') as (_ & J2 & _); [lia|].
  destruct (gets_reads (length text) s') as [_ J]; [rewrite Ha, length_app; lia|].
  rewrite I5, Hrev, take_app_le by lia.
  rewrite H1, lookup_app_l, layers_from_lookup in I6 by (rewrite ?length_layers_from; simpl; lia).
  replace (S i - 1) with i in I6 by lia.
  destruct (front_disabled _ _ _ (I6 ltac:(lia))) as (K1 & K2 & K3).
  split_and!; try done.
  - rewrite J2, H1. rewrite <- (length_layers_from name spans pp 0 (length text)) at 1. apply drop_app_length.
  - by rewrite J, Ha, drop_app_length.
Qed.

(** The delayed pop: the macro stays hidden from expansion while every
    character of its expansion is read, the last included, so the token the
    last character ends is still checked under it; the next [get] hides exactly
    what reading on without the expansion would. *)
Theorem expansion_paint_ends_late s text name paint :
  framed s -> text <> [] ->
  let s' := pushback_macro s text name paint in
  framed s' /\
  (forall i, i < length text ->
     (gets (S i) s').1 = map code (take (S i) text) /\ macro_disabled (gets (S i) s').2 name = true) /\
  (forall x, macro_disabled (get (gets (length text) s').2).2 x = macro_disabled (get s).2 x).
Proof.
  intros Hf Ht s'.
  destruct (pushback_macro_state s text name paint) as (H1 & H2 & H3 & H4 & H5). fold s' in H1, H2, H3, H4, H5.
  assert (Hf' : framed s').
  { apply (push_framed s s' text Hf H2). by rewrite H1, length_app, length_replicate. }
  assert (Hrev : rev (_pushback s') = text ++ rev (_pushback s)) by (by rewrite H2, rev_app_distr, rev_involutive).
  assert (Hlen : length (_pushback s') = length text + length (_pushback s)) by (rewrite H2, length_app, length_rev; lia).
  split; [done|]. split.
  - intros i Hi. destruct (gets_layers (S i) s' Hf') as (_ & _ & _ & _ & I5 & I6); [lia|].
    rewrite H1, lookup_app_l, lookup_replicate_2 in I6 by (rewrite ?length_replicate; lia).
    rewrite I5, Hrev, take_app_le by lia. split; [done|].
    exact (proj1 (front_disabled _ name paint (I6 ltac:(lia)))).
  - set (s1 := (gets (length text) s').2). intros x.
    destruct (gets_layers (length text) s' Hf') as (_ & _ & J3 & J4 & _); [lia|]. fold s1 in J3, J4.
    assert (Hfr : exists f, _frames s' = f :: _frames s /\ remaining f = length text).
    { unfold s', pushback_macro, add_pushback_frame, add_pushback_frame_len, insert_name.
      destruct text as [|c text]; [done|]. simpl. eexists. split; [by destruct (is_nil name)|done]. }
    destruct Hfr as (f & Hfr & Hrem).
    destruct (gets_zero_frame_front (length text) s' f _ Hfr) as (f' & K1 & K2 & _); [lia|lia|]. fold s1 in K1.
    assert (Hp1 : _pushback s1 = _pushback s).
    { rewrite <- (rev_involutive (_pushback s1)), J3, Hrev, drop_app_length. apply rev_involutive. }
    assert (Hg : _frames (get s1).2 = _frames (get s).2).
    { apply get_frames_cong; [done|]. rewrite K1. simpl. by rewrite K2, Hrem, Nat.sub_diag. }
    assert (Hi : _inherited (get s1).2 = _inherited (get s).2).
    { rewrite !get_inherited. congruence. }
    unfold macro_disabled. by rewrite Hg, Hi.
Qed.

(** ** [peek] *)

(** Two splices in a row at the cursor. *)
Definition double_splice (s : source) : Prop :=
  let k := splice_len (drop (_gpos s) (_buf s)) in
  _pushback s = [] /\ 0 < k /\ 0 < splice_len (drop (_gpos s + k) (_buf s)).

Lemma splice_len_not_bslash t : negb (byte_eqb (at_ t 0) c_bslash) = true -> splice_len t = 0.
Proof. destruct t as [|c r]; [done|]. unfold at_. simpl. by destruct (byte_eqb c c_bslash). Qed.

Lemma at_drop s i : at_ (drop i s) 0 = at_ s i.
Proof. unfold at_. by rewrite !nth_lookup, lookup_drop, Nat.add_0_r. Qed.

Lemma ahead_plain s :
  _pushback s = [] -> splice_len (drop (_gpos s) (_buf s)) = 0 -> _gpos s < length (_buf s) ->
  ahead s = at_ (_buf s) (_gpos s) :: phase2 (drop (S (_gpos s)) (_buf s)).
Proof.
  intros Hp Hs Hl. unfold ahead. rewrite Hp. rewrite (drop_at (_buf s) (_gpos s)) in * by done.
  simpl rev. simpl app. by rewrite phase2_cons, Hs.
Qed.

(** What [peek] leaves and answers. *)
Lemma peek_spec s :
  ahead (peek s).2 = ahead s /\ unread (peek s).2 <= unread s /\
  (~ double_splice s -> (peek s).1 = (get s).1).
Proof.
  unfold peek. destruct (_ && _) eqn:E; simpl.
  { reflect_bool. apply is_nil_true in H. split_and!; [done|done|]. intros _. pose proof (get_reads s) as Hg.
    rewrite ahead_plain in Hg by (try done; apply splice_len_not_bslash; rewrite at_drop; by apply negb_true_iff, byte_eqb_neq). by destruct Hg. }
  pose proof (get_reads s) as Hg.
  destruct (last (_pushback s)) as [c|] eqn:El; simpl.
  { split_and!; [done|done|]. intros _. unfold ahead in Hg. rewrite (rev_last _ _ El) in Hg. by destruct Hg. }
  apply last_None in El. destruct (length (_buf s) <=? _gpos s) eqn:Ee; simpl; reflect_bool.
  { split_and!; [done|done|]. intros _. unfold ahead in Hg. rewrite El, drop_ge in Hg by done. by destruct Hg. }
  rewrite splice_length_at_suffix. set (k := splice_len (drop (_gpos s) (_buf s))).
  destruct (0 <? k) eqn:Ek; reflect_bool; simpl.
  2:{ split_and!; [done|done|]. intros _. rewrite ahead_plain in Hg by (try done; fold k; lia). by destruct Hg. }
  assert (Ha : rev (_pushback s) ++ phase2 (drop (_gpos s + k) (_buf s)) = ahead s).
  { unfold ahead. rewrite El. simpl. rewrite (drop_at (_buf s) (_gpos s)) by done.
    rewrite phase2_cons, <- (drop_at (_buf s) (_gpos s)) by done. fold k.
    rewrite (proj2 (Nat.ltb_lt _ _)) by done. by rewrite drop_drop, Nat.add_comm. }
  split_and!; [exact Ha|unfold unread; simpl; lia|]. intros Hnd. rewrite El in Ha. simpl in Ha. rewrite <- Ha in Hg.
  destruct (_gpos s + k <? length (_buf s)) eqn:El2; reflect_bool.
  - rewrite (drop_at (_buf s) (_gpos s + k)), phase2_cons, <- (drop_at (_buf s) (_gpos s + k)) in Hg by done.
    assert (H0 : splice_len (drop (_gpos s + k) (_buf s)) = 0).
    { destruct (splice_len (drop (_gpos s + k) (_buf s))) eqn:Ez; [done|]. exfalso. apply Hnd.
      unfold double_splice. fold k. rewrite Ez. split_and!; [done|done|lia]. }
    rewrite H0 in Hg. by destruct Hg.
  - rewrite drop_ge in Hg by lia. by destruct Hg.
Qed.

(** [peek] moves nothing that is still to be read, and unless two line
    splices follow each other at the cursor it answers what [get] reads next. *)
Theorem peek_agrees s :
  ahead (peek s).2 = ahead s /\ unread (peek s).2 <= unread s /\
  (~ double_splice s -> (peek s).1 = (get s).1).
Proof. exact (peek_spec s). Qed.

(** Two splices in a row: [peek] answers the second one's backslash, which no
    [get] ever reads. *)
Example peek_double_splice :
  let s := str source_new (B "\" ++ [c_nl] ++ B "\" ++ [c_nl] ++ B "x") in
  (peek s).1 = code c_bslash /\ (get s).1 = code "x"%char.
Proof. vm_compute. done. Qed.

(** ... and so a skipped line that ends in one swallows the next line too. *)
Example skip_double_splice :
  let s := str source_new (B "a\" ++ [c_nl] ++ B "\" ++ [c_nl] ++ [c_nl] ++ B "#endif" ++ [c_nl] ++ B "b") in
  ahead s = B "a" ++ [c_nl] ++ B "#endif" ++ [c_nl] ++ B "b" /\
  ahead (skip_line_rest s) = [c_nl] ++ B "b".
Proof. vm_compute. done. Qed.

(** ** [fast_span] *)

Lemma get_plain s c t :
  _pushback s = [] -> _frames s = [] -> drop (_gpos s) (_buf s) = c :: t ->
  byte_eqb c c_bslash = false -> byte_eqb c c_nl = false -> byte_eqb c c_cr = false ->
  get s = (code c, at_cursor s (_gpos s + 1) (_lf s) (_cr s) (_column s + 1)).
Proof.
  intros Hp Hf Hd H1 H2 H3. unfold get. cbn [get_fuel].
  assert (Hl : _gpos s < length (_buf s)).
  { apply (f_equal length) in Hd. rewrite length_drop in Hd. simpl in Hd. lia. }
  rewrite (drop_at _ _ Hl) in Hd. injection Hd as Hc _.
  rewrite Hp, Hf, Hc, H1, H2, H3, (proj2 (Nat.ltb_lt _ _)) by done. done.
Qed.

(** The fast path reads as the character loop would: for a test that refuses
    the backslash and the line ends, [fast_span] returns the maximal accepted
    run and leaves the source exactly where that many [get]s leave it. *)
Theorem fast_span_is_gets s keep :
  _pushback s = [] -> _frames s = [] ->
  (forall c, keep c = true -> c <> c_bslash /\ c <> c_nl /\ c <> c_cr) ->
  exists run s', fast_span s keep = Some (run, s') /\
    gets (length run) s = (map code run, s') /\ Forall (fun c => keep c = true) run /\
    match drop (_gpos s') (_buf s') with [] => True | c :: _ => keep c = false end.
Proof.
  intros Hp Hf Hk. unfold fast_span. rewrite Hp. eexists _, _. split; [reflexivity|]. unfold substr.
  remember (drop (_gpos s) (_buf s)) as t eqn:Ht. revert s Hp Hf Ht.
  induction t as [|c t IH]; intros s Hp Hf Ht; simpl.
  { rewrite Nat.add_0_r, <- Ht, Z.add_0_r.
    split_and!; [by destruct s|by constructor|done]. }
  destruct (keep c) eqn:Ekc; simpl.
  2:{ rewrite Nat.add_0_r, <- Ht, Z.add_0_r. split_and!; [by destruct s|by constructor|done]. }
  destruct (Hk c Ekc) as (H1 & H2 & H3).
  rewrite (get_plain s c t) by (done || by apply byte_eqb_neq).
  set (s1 := at_cursor s (_gpos s + 1) (_lf s) (_cr s) (_column s + 1)).
  destruct (IH s1 Hp Hf) as (I1 & I2 & I3).
  { unfold s1. simpl. rewrite <- drop_drop, <- Ht. done. }
  rewrite I1. unfold s1 in *. simpl in *. rewrite <- Nat.add_assoc in I3.
  split_and!; [|by constructor|exact I3]. f_equal. unfold at_cursor. simpl. f_equal; lia.
Qed.

(** ** Positions *)

(** The line ends read and the bytes since the last one, of a text. *)
Definition pos_step (p : Z * Z) (c : ascii) : Z * Z :=
  if byte_eqb c c_nl then (p.1 + 1, 0)%Z else (p.1, p.2 + 1)%Z.
Definition pos_after (t : bytes) : Z * Z := fold_left pos_step t (0, 0)%Z.

Lemma pos_after_app t u : pos_after (t ++ u) = fold_left pos_step u (pos_after t).
Proof. unfold pos_after. by rewrite fold_left_app. Qed.

Lemma pos_after_plain t u :
  Forall (fun c => byte_eqb c c_nl = false) u ->
  pos_after (t ++ u) = ((pos_after t).1, ((pos_after t).2 + Z.of_nat (length u))%Z).
Proof.
  intros H. rewrite pos_after_app. revert H. generalize (pos_after t) as p.
  induction u as [|c u IH]; intros p H; simpl; [rewrite Z.add_0_r; by destruct p|].
  apply Forall_cons_1 in H as [Hc Hu]. rewrite IH by done. unfold pos_step. rewrite Hc. simpl. f_equal. lia.
Qed.

Lemma blank_run_plain t : Forall (fun c => byte_eqb c c_nl = false) (take (blank_run t) t).
Proof.
  induction t as [|c t IH]; simpl; [constructor|].
  destruct (byte_eqb c c_sp || byte_eqb c c_tab) eqn:E; [|constructor]. constructor; [|done].
  split_bool; by subst c.
Qed.

(** Without carriage returns a splice is a backslash, blanks and a new-line. *)
Lemma splice_text t :
  c_cr ∉ t -> 0 < splice_len t ->
  exists u, take (splice_len t) t = u ++ [c_nl] /\ Forall (fun c => byte_eqb c c_nl = false) u.
Proof.
  destruct t as [|c r]; simpl; [lia|]. intros Hcr.
  destruct (byte_eqb c c_bslash) eqn:Ec; [|lia]. reflect_bool. subst c.
  destruct (drop (blank_run r) r) as [|x r'] eqn:Ed; [lia|].
  assert (Hx : byte_eqb x c_cr = false).
  { apply byte_eqb_neq. intros ->. apply Hcr. right. apply (elem_of_drop_in (blank_run r)). rewrite Ed. by left. }
  rewrite Hx. destruct (byte_eqb x c_nl) eqn:En; [|lia]. reflect_bool. subst x. intros _.
  exists (c_bslash :: take (blank_run r) r). split; [|constructor; [done|apply blank_run_plain]].
  rewrite Nat.add_comm. simpl. f_equal. rewrite <- (take_drop (blank_run r) r) at 2. rewrite Ed.
  rewrite take_app_ge by (rewrite length_take; lia). f_equal.
  rewrite length_take, Nat.min_l by apply blank_run_le. by replace (S (blank_run r) - blank_run r) with 1 by lia.
Qed.

(** The cursor's line count and column are those of the text before it. *)
Record at_pos (s : source) : Prop := {
  ap_pushback : _pushback s = [];
  ap_bound : _gpos s <= length (_buf s);
  ap_cr : c_cr ∉ _buf s;
  ap_pos : (_lf s, _column s) = pos_after (take (_gpos s) (_buf s));
  ap_no_cr : _cr s = 0%Z
}.

Lemma at_pos_plain s n lf col :
  at_pos s -> _gpos s + n <= length (_buf s) ->
  Forall (fun c => byte_eqb c c_nl = false) (take n (drop (_gpos s) (_buf s))) ->
  lf = _lf s -> col = (_column s + Z.of_nat n)%Z ->
  at_pos (at_cursor s (_gpos s + n) lf (_cr s) col).
Proof.
  intros [H1 H2 H3 H4 H5] Hn Hf -> ->. constructor; simpl; try done.
  rewrite <- (take_take_drop _ (_gpos s) n), pos_after_plain, <- H4 by done. simpl.
  rewrite length_take, length_drop, Nat.min_l by lia. done.
Qed.

Lemma at_pos_line_end s n u :
  at_pos s -> _gpos s + n <= length (_buf s) ->
  take n (drop (_gpos s) (_buf s)) = u ++ [c_nl] -> Forall (fun c => byte_eqb c c_nl = false) u ->
  at_pos (at_cursor s (_gpos s + n) (_lf s + 1) (_cr s) 0).
Proof.
  intros [H1 H2 H3 H4 H5] Hn Ht Hu. constructor; simpl; try done.
  rewrite <- (take_take_drop _ (_gpos s) n), Ht, app_assoc, pos_after_app, pos_after_plain, <- H4 by done. done.
Qed.

Lemma at_pos_splice s :
  at_pos s -> 0 < splice_len (drop (_gpos s) (_buf s)) ->
  at_pos (at_cursor s (_gpos s + splice_length_at s (_gpos s)) (_lf s + 1) (_cr s) 0).
Proof.
  intros Hs Hk. rewrite splice_length_at_suffix.
  destruct (splice_text (drop (_gpos s) (_buf s))) as (u & Hu & Hf); [|done|].
  { intros Hin. by apply (ap_cr s Hs), (elem_of_drop_in (_gpos s)). }
  eapply at_pos_line_end; [done| |exact Hu|done].
  destruct (splice_len_bounds (drop (_gpos s) (_buf s))) as [?|[_ Hb]]; [lia|].
  rewrite length_drop in Hb. pose proof (ap_bound s Hs). lia.
Qed.

Lemma at_pos_set_frames s fs : at_pos s -> at_pos (set_frames s fs).
Proof. by intros [? ? ? ? ?]. Qed.

Lemma at_pos_get_fuel fuel s : at_pos s -> at_pos (get_fuel fuel s).2.
Proof.
  revert s. induction fuel as [|k IH]; intros s Hs; cbn [get_fuel]; [done|].
  assert (Htake : _gpos s < length (_buf s) -> take 1 (drop (_gpos s) (_buf s)) = [at_ (_buf s) (_gpos s)]).
  { intros Hl. by rewrite (drop_at _ _ Hl). }
  destruct (_ && _) eqn:E; reflect_bool.
  { simpl. apply at_pos_plain; [done|lia| |done|done]. rewrite Htake by done.
    constructor; [by apply byte_eqb_neq|done]. }
  clear E. rewrite (ap_pushback s Hs). cbn [last].
  apply (at_pos_set_frames s []) in Hs. set (s0 := set_frames s []) in *.
  change (_buf s) with (_buf s0) in *. change (_gpos s) with (_gpos s0) in *.
  destruct (_ <=? _) eqn:El; [done|]. reflect_bool. specialize (Htake El).
  destruct (0 <? splice_length_at s0 (_gpos s0)) eqn:Es; reflect_bool.
  - apply IH, at_pos_splice; [done|]. by rewrite <- splice_length_at_suffix.
  - cbn [snd]. assert (Hcr : byte_eqb (at_ (_buf s0) (_gpos s0)) c_cr = false).
    { apply byte_eqb_neq. intros Hc. apply (ap_cr s0 Hs). rewrite <- Hc.
      eapply list_elem_of_lookup_2. by apply at_lookup. }
    rewrite Hcr. destruct (byte_eqb _ c_nl) eqn:En.
    + apply (at_pos_line_end s0 1 []); [done|lia| |constructor]. rewrite Htake. by reflect_bool; rewrite En.
    + apply at_pos_plain; [done|lia| |done|done]. rewrite Htake. by constructor.
Qed.

Lemma at_pos_peek s : at_pos s -> at_pos (peek s).2.
Proof.
  intros Hs. unfold peek. destruct (_ && _); [done|]. rewrite (ap_pushback s Hs). cbn [last].
  destruct (_ <=? _); [done|]. destruct (0 <? splice_length_at s (_gpos s)) eqn:E; [|done].
  reflect_bool. apply at_pos_splice; [done|]. by rewrite <- splice_length_at_suffix.
Qed.

Lemma run_length_spec keep t :
  run_length keep t <= length t /\ Forall (fun c => keep c = true) (take (run_length keep t) t).
Proof.
  induction t as [|c t [IH1 IH2]]; simpl; [split; [lia|constructor]|].
  destruct (keep c) eqn:E; simpl; [split; [lia|by constructor]|split; [lia|constructor]].
Qed.

Lemma at_pos_fast_span s keep run s' :
  at_pos s -> (forall c, keep c = true -> c <> c_nl) -> fast_span s keep = Some (run, s') -> at_pos s'.
Proof.
  intros Hs Hk. unfold fast_span. rewrite (ap_pushback s Hs). intros [= <- <-].
  destruct (run_length_spec keep (drop (_gpos s) (_buf s))) as [H1 H2]. rewrite length_drop in H1.
  apply at_pos_plain; [done|pose proof (ap_bound s Hs); lia| |done|done].
  eapply Forall_impl; [exact H2|]. intros c Hc. by apply byte_eqb_neq, Hk.
Qed.

(** Reading keeps the position exact: in a text without carriage returns the
    line count is the number of new-lines before the cursor and the column the
    bytes since the last one, line splices included, through [get], [peek],
    [fast_span] and a skipped line. *)
Theorem reading_keeps_position s :
  at_pos s ->
  (forall n, at_pos (gets n s).2) /\ at_pos (peek s).2 /\ at_pos (skip_line_rest s) /\
  (forall keep run s', (forall c, keep c = true -> c <> c_nl) -> fast_span s keep = Some (run, s') -> at_pos s').
Proof.
  intros Hs. split_and!.
  - intros n. revert s Hs. induction n as [|n IH]; intros s Hs; simpl; [done|].
    pose proof (at_pos_get_fuel (S (length (_buf s) - _gpos s)) s Hs) as H. fold (get s) in H.
    destruct (get s) as [c s1]. specialize (IH s1 H). by destruct (gets n s1).
  - by apply at_pos_peek.
  - unfold skip_line_rest. destruct (loop _ skip_body s) as [s'|] eqn:E; [|done].
    simpl. revert E. apply (loop_inv at_pos at_pos); [|done]. clear s Hs. intros s Hs. unfold skip_body.
    destruct (negb _); [done|].
    destruct (fast_span s _) as [[run s1]|] eqn:Ef.
    2:{ unfold fast_span in Ef. by rewrite (ap_pushback s Hs) in Ef. }
    apply at_pos_fast_span in Ef; [|done|intros c Hc; reflect_bool; congruence].
    destruct run as [|c run]; [|done]. pose proof (at_pos_peek s1 Ef) as Hp. destruct (peek s1) as [c s2].
    destruct (_ || _); [done|]. by apply at_pos_get_fuel.
  - intros keep run s' Hk Hf. by eapply at_pos_fast_span.
Qed.

(** ** Reading to the end *)

Lemma get_fuel_unread fuel s :
  (_pushback s = [] -> length (_buf s) - _gpos s < fuel) -> fuel <> 0 -> good s = true ->
  unread (get_fuel fuel s).2 < unread s.
Proof.
  destruct fuel as [|k]; [done|]. intros Hf _ Hg.
  assert (Hbuf : forall k s, _pushback s = [] -> unread (get_fuel k s).2 <= unread s).
  { clear. induction k as [|k IH]; intros s Hp; cbn [get_fuel]; [done|].
    destruct (_ && _); [unfold unread; simpl; lia|]. rewrite Hp. cbn [last].
    destruct (_ <=? _); [done|]. destruct (0 <? _).
    - etransitivity; [by apply IH|]. unfold unread. simpl. lia.
    - unfold unread. simpl. repeat case_if; simpl; lia. }
  cbn [get_fuel]. destruct (_ && _) eqn:E; reflect_bool; [unfold unread; simpl; lia|]. clear E.
  destruct (last (_pushback s)) as [c|] eqn:El.
  - pose proof (get_pushed_fields s c (removelast (_pushback s))) as (H1 & H2 & H3 & _).
    unfold unread. rewrite H1, H2, H3. apply last_Some in El as [l' ->].
    rewrite removelast_last, length_app. simpl. lia.
  - apply last_None in El. unfold good in Hg. rewrite El in Hg. simpl in Hg. reflect_bool.
    destruct (_ <=? _) eqn:Ee; reflect_bool; [simpl in *; lia|].
    destruct (0 <? splice_length_at _ _) eqn:Es; reflect_bool.
    + eapply Nat.le_lt_trans; [apply Hbuf; by simpl|]. unfold unread. simpl in *. lia.
    + unfold unread. simpl in *. repeat case_if; simpl; lia.
Qed.

Lemma get_unread s : good s = true -> unread (get s).2 < unread s.
Proof. intros Hg. apply get_fuel_unread; [lia|done|done]. Qed.

Lemma get_unread_le s : unread (get s).2 <= unread s.
Proof.
  destruct (good s) eqn:E; [by apply Nat.lt_le_incl, get_unread|].
  unfold good in E. reflect_bool. apply is_nil_true in H.
  unfold get. replace (length (_buf s) - _gpos s) with 0 by lia. cbn [get_fuel].
  rewrite H, (proj2 (Nat.ltb_ge _ _)), andb_false_r by done. cbn [last andb].
  simpl. by rewrite (proj2 (Nat.leb_le _ _)) by done.
Qed.

Lemma not_good_ahead s : good s = false -> ahead s = [].
Proof.
  unfold good. intros H. reflect_bool. apply is_nil_true in H. unfold ahead. by rewrite H, drop_ge.
Qed.

Lemma get_fuel_end fuel s :
  length (_buf s) - _gpos s < fuel -> ahead s = [] -> good (get_fuel fuel s).2 = false.
Proof.
  revert s. induction fuel as [|k IH]; intros s Hf Ha; [lia|]. cbn [get_fuel].
  assert (Hp : _pushback s = []).
  { unfold ahead in Ha. apply app_nil in Ha as [Hr _]. by rewrite <- (rev_involutive (_pushback s)), Hr. }
  assert (Hsp : _gpos s < length (_buf s) -> 0 < splice_length_at s (_gpos s)).
  { intros Hl. rewrite splice_length_at_suffix. destruct (splice_len _) eqn:Es; [|lia].
    by rewrite (ahead_plain s Hp Es Hl) in Ha. }
  destruct (_ && _) eqn:E; reflect_bool.
  { specialize (Hsp ltac:(done)). rewrite splice_length_at_suffix, splice_len_not_bslash in Hsp; [lia|].
    rewrite at_drop. by apply negb_true_iff, byte_eqb_neq. }
  rewrite Hp. cbn [last]. destruct (_ <=? _) eqn:Ee; reflect_bool.
  { unfold good. simpl in *. rewrite Hp. simpl. by apply Nat.ltb_ge. }
  specialize (Hsp Ee). change (splice_length_at (set_frames s []) _) with (splice_length_at s (_gpos s)).
  rewrite (proj2 (Nat.ltb_lt _ _)) by done. apply IH; [simpl in *; lia|].
  rewrite <- Ha. unfold ahead. simpl. rewrite Hp. simpl. simpl in Ee. rewrite (drop_at (_buf s) (_gpos s)) by done.
  rewrite phase2_cons, <- (drop_at (_buf s) (_gpos s)), <- splice_length_at_suffix by done.
  rewrite (proj2 (Nat.ltb_lt _ _)) by done. by rewrite drop_drop, Nat.add_comm.
Qed.

(** The whole of a source, read as the lexer reads it: while [good], [get]. *)
Definition read_all_body (st : list Z * source) : list Z * source + list Z :=
  let '(acc, s) := st in
  if good s then let '(c, s) := get s in inl (acc ++ [c], s) else inr acc.

Definition reading (all : bytes) (st : list Z * source) : Prop :=
  (exists pre, all = pre ++ ahead st.2 /\ st.1 = map code pre) \/
  (st.1 = map code all ++ [(-1)%Z] /\ good st.2 = false).

(** Reading ends, and what it reads is the pushed-back text followed by
    translation phase 2 of the buffer: every line splice deleted and every other
    byte once, in order (a splice that ends the buffer reads as the end, [-1]). *)
Theorem read_all_phase2 s :
  exists tl, loop (S (unread s)) read_all_body ([], s) = Some (map code (ahead s) ++ tl) /\
    (tl = [] \/ tl = [(-1)%Z]).
Proof.
  destruct (loop_total (reading (ahead s))
    (fun r => exists tl, r = map code (ahead s) ++ tl /\ (tl = [] \/ tl = [(-1)%Z]))
    (fun st => unread st.2) read_all_body) with (fuel := S (unread s)) (s := (@nil Z, s)) as (r & Hr & tl & -> & Htl).
  - intros [acc s1] Hst. unfold read_all_body. destruct (good s1) eqn:Eg.
    + pose proof (get_reads s1) as Hget. pose proof (get_unread s1 Eg) as Hu.
      destruct Hst as [(pre & Hall & Hacc)|[_ Hg]]; simpl in *; [|congruence].
      pose proof (get_fuel_end (S (length (_buf s1) - _gpos s1)) s1 ltac:(lia)) as Hend. fold (get s1) in Hend.
      destruct (get s1) as [c s2]. simpl in *. split; [|done].
      destruct (ahead s1) as [|x r] eqn:Ea.
      * right. destruct Hget as [-> _]. rewrite app_nil_r in Hall. simpl. rewrite Hall, Hacc. by split; [|apply Hend].
      * left. destruct Hget as [-> <-]. exists (pre ++ [x]). simpl.
        by rewrite Hall, <- app_assoc, Hacc, map_app.
    + destruct Hst as [(pre & Hall & Hacc)|[Hacc Hg]]; simpl in *.
      * exists []. rewrite Hall, (not_good_ahead s1 Eg), !app_nil_r. by auto.
      * exists [(-1)%Z]. by auto.
  - left. by exists [].
  - simpl. lia.
  - by exists tl.
Qed.

(** ** Block comments *)

(** The text up to the first close, after a character [p], and what follows. *)
Fixpoint close_at (p : ascii) (t : bytes) : option (bytes * bytes) :=
  match t with
  | [] => None
  | c :: r =>
      if byte_eqb p "*"%char && byte_eqb c "/"%char then Some ([c], r)
      else match close_at c r with Some (k, r') => Some (c :: k, r') | None => None end
  end.

Lemma close_at_spec p t :
  match close_at p t with
  | Some (k, r) => t = k ++ r /\ (exists body, p :: k = body ++ B "*/") /\
      forall a b, p :: k = a ++ B "*/" ++ b -> b = []
  | None => forall a b, p :: t <> a ++ B "*/" ++ b
  end.
Proof.
  revert p. induction t as [|c r IH]; intros p; simpl.
  { intros a b H. apply (f_equal length) in H. rewrite !length_app in H. simpl in H. lia. }
  destruct (_ && _) eqn:E.
  { reflect_bool. subst p c. split_and!; [done|by exists []|]. intros a b H.
    apply (f_equal length) in H. rewrite !length_app in H. simpl in H. apply length_zero_iff_nil. lia. }
  specialize (IH c).
  assert (Hno : forall l a b, p :: c :: l = a ++ B "*/" ++ b -> exists a', a = p :: a').
  { intros l [|x a] b H; [|injection H as -> _; by exists a].
    injection H as -> -> _. by rewrite !byte_eqb_refl in E. }
  destruct (close_at c r) as [[k r']|].
  - destruct IH as (-> & (body & Hb) & Hfirst). split_and!; [done|by exists (p :: body); rewrite Hb|].
    intros a b H. destruct (Hno _ _ _ H) as [a' ->]. injection H as H. by apply (Hfirst a' b).
  - intros a b H. destruct (Hno _ _ _ H) as [a' ->]. injection H as H. by apply (IH a' b).
Qed.

(** What the scan has established at each step. *)
Definition scanning (all : bytes) (st : Z * bytes * source) : Prop :=
  let '(prev, keep, s) := st in
  (exists p, prev = code p /\
     close_at Ascii.zero all = match close_at p (ahead s) with Some (k, r) => Some (keep ++ k, r) | None => None end) \/
  (good s = false /\ close_at Ascii.zero all = None).

Lemma comment_step all st :
  scanning all st ->
  match comment_body st with
  | inl st' => scanning all st' /\ unread st'.2 < unread st.2
  | inr (comment_closed keep s') => close_at Ascii.zero all = Some (keep, ahead s')
  | inr (comment_open keep s') => close_at Ascii.zero all = None /\ ahead s' = []
  end.
Proof.
  destruct st as [[prev keep] s]. intros Hst. unfold comment_body, eof.
  destruct (good s) eqn:Eg; simpl.
  2:{ rewrite (not_good_ahead s Eg). destruct Hst as [(p & _ & Hc)|[_ Hc]]; [|done].
      by rewrite (not_good_ahead s Eg) in Hc. }
  destruct Hst as [(p & -> & Hc)|[? _]]; [|congruence].
  replace (negb (is_nil (_pushback s) && (length (_buf s) <=? _gpos s))) with true.
  2:{ unfold good in Eg. symmetry. apply negb_true_iff. destruct (is_nil (_pushback s)); [|done].
      simpl in *. apply Nat.leb_gt. by apply Nat.ltb_lt in Eg. }
  cbn [negb]. pose proof (get_reads s) as Hget. pose proof (get_unread s Eg) as Hu.
  pose proof (get_fuel_end (S (length (_buf s) - _gpos s)) s ltac:(lia)) as Hend. fold (get s) in Hend.
  assert (Hcode : forall x y, (code x =? code y)%Z = byte_eqb x y).
  { intros x y. destruct (byte_eqb x y) eqn:E; reflect_bool; [subst; apply Z.eqb_refl|].
    apply Z.eqb_neq. intros H. by apply code_inj in H. }
  destruct (get s) as [c s1]. simpl in Hget, Hu, Hend. destruct (ahead s) as [|x r] eqn:Ea.
  - destruct Hget as [-> Ha1]. replace (-1 =? code "/"%char)%Z with false by done. rewrite andb_false_r. simpl.
    split; [|done]. right. split; [by apply Hend|done].
  - destruct Hget as [-> <-]. rewrite !Hcode. rewrite to_byte_code. cbn [close_at] in Hc. destruct (_ && _).
    + by rewrite Hc.
    + simpl. split; [|done]. left. exists x. split; [done|]. rewrite Hc.
      destruct (close_at x (ahead s1)) as [[k r']|]; [|done]. by rewrite <- app_assoc.
Qed.

(** Skipping a block comment ends; it reads up to and including the first
    close of what is ahead, and reports the comment open exactly when there is
    none: then everything was read, and unless the refusal waits the position is
    the comment's own. *)
Theorem consume_block_comment_spec s row col defer :
  match consume_block_comment s row col defer with
  | comment_closed keep s' =>
      ahead s = keep ++ ahead s' /\ (exists body, keep = body ++ B "*/") /\
      forall a b, keep = a ++ B "*/" ++ b -> b = []
  | comment_open keep s' =>
      (forall a b, ahead s <> a ++ B "*/" ++ b) /\ ahead s' = [] /\
      (defer = false -> line s' = row /\ _column s' = col)
  end.
Proof.
  unfold consume_block_comment.
  destruct (loop_total (scanning (ahead s))
    (fun r => match r with
              | comment_closed keep s' => close_at Ascii.zero (ahead s) = Some (keep, ahead s')
              | comment_open keep s' => close_at Ascii.zero (ahead s) = None /\ ahead s' = []
              end) (fun st => unread st.2) comment_body (comment_step (ahead s)))
    with (fuel := S (unread s)) (s := (0%Z, @nil ascii, s)) as (r & -> & Hr).
  { left. exists Ascii.zero. split; [done|]. by destruct (close_at _ (ahead s)) as [[? ?]|]. }
  { simpl. lia. }
  simpl. pose proof (close_at_spec Ascii.zero (ahead s)) as Hs. destruct r as [keep s'|keep s'].
  - rewrite Hr in Hs. destruct Hs as (H1 & (body & H2) & H3). split; [done|]. split.
    + destruct body as [|z body]; [by apply (f_equal head) in H2|]. injection H2 as _ ->. by exists body.
    + intros a b ->. by apply (H3 (Ascii.zero :: a)).
  - destruct Hr as [Hr Ha]. rewrite Hr in Hs. split_and!.
    + intros a b H. apply (Hs (Ascii.zero :: a) b). by rewrite H.
    + destruct defer; [done|]. unfold ahead in *. simpl. done.
    + intros ->. unfold line. simpl. rewrite Z.ltb_irrefl. split; [lia|done].
Qed.

(** ** [line_text] *)

(** A blank line after a new-line is swallowed: asked for line 2, [line_text]
    answers line 1's text. *)
Example line_text_blank :
  line_text 9 (str source_new (B "a" ++ [c_nl; c_nl] ++ B "b" ++ [c_nl])) 2 = Some (B "a").
Proof. vm_compute. done. Qed.

Definition line_ends (t : bytes) : nat := length (List.filter (byte_eqb c_nl) t).

Lemma line_ends_drop t g :
  g < length t -> line_ends (drop g t) = (if byte_eqb (at_ t g) c_nl then 1 else 0) + line_ends (drop (S g) t).
Proof.
  intros Hg. rewrite (drop_at t g Hg). unfold line_ends. simpl. unfold byte_eqb. rewrite Ascii.eqb_sym.
  by destruct (Ascii.eqb _ _).
Qed.

Lemma getline_scan s :
  exists l g, loop (S (length (_buf s) - _gpos s)) getline_body (_buf s, _gpos s, []) = Some (l, g) /\
    _gpos s <= g /\ line_ends (drop g (_buf s)) = line_ends (drop (_gpos s) (_buf s)) /\
    (g < length (_buf s) -> at_ (_buf s) g = c_cr \/ at_ (_buf s) g = c_nl).
Proof.
  edestruct (loop_total
    (fun st : bytes * nat * bytes => st.1.1 = _buf s /\ _gpos s <= st.1.2 /\
       line_ends (drop st.1.2 (_buf s)) = line_ends (drop (_gpos s) (_buf s)))
    (fun r : bytes * nat => _gpos s <= r.2 /\ line_ends (drop r.2 (_buf s)) = line_ends (drop (_gpos s) (_buf s)) /\
       (r.2 < length (_buf s) -> at_ (_buf s) r.2 = c_cr \/ at_ (_buf s) r.2 = c_nl))
    (fun st => length (_buf s) - st.1.2) getline_body)
    with (fuel := S (length (_buf s) - _gpos s)) (s := (_buf s, _gpos s, @nil ascii))
    as ([l g] & Hl & Hr); [|done|simpl; lia|by exists l, g].
  intros [[b g] acc] (Hb & Hg & Hn). simpl in *. subst b.
  destruct (_ && _) eqn:E; simpl; reflect_bool.
  - split; [|lia]. split_and!; [done|lia|]. rewrite <- Hn, (line_ends_drop _ g) by done.
    rewrite Nat.add_1_r. by rewrite (proj2 (byte_eqb_neq _ _)) by done.
  - split_and!; [done|done|]. intros Hlt. rewrite (proj2 (Nat.ltb_lt _ _)) in E by done. simpl in E.
    split_bool; auto.
Qed.

Lemma getline_counts s :
  c_cr ∉ _buf s ->
  let '(_, _, s') := getline s in
  _buf s' = _buf s /\ _pushback s' = _pushback s /\ _cr s' = _cr s /\
  (_lf s' + Z.of_nat (line_ends (drop (_gpos s') (_buf s))) = _lf s + Z.of_nat (line_ends (drop (_gpos s) (_buf s))))%Z.
Proof.
  intros Hcr. unfold getline. destruct (getline_scan s) as (l & g & -> & Hg & Hn & Hend). simpl.
  destruct (length (_buf s) <=? g) eqn:E; simpl; reflect_bool; [split_and!; lia || done|].
  destruct (Hend E) as [Hc|Hc].
  { exfalso. apply Hcr. rewrite <- Hc. eapply list_elem_of_lookup_2. by apply at_lookup. }
  rewrite Hc, byte_eqb_refl. simpl. rewrite <- Hn, (line_ends_drop _ g E), Hc, byte_eqb_refl, !Nat.add_1_r.
  destruct (_ && _) eqn:E2; simpl; reflect_bool; [|split_and!; done || lia].
  rewrite (line_ends_drop _ (S g)) by done.
  match goal with Heq : at_ (_buf s) (S g) = c_nl |- _ => rewrite Heq, byte_eqb_refl end.
  split_and!; done || lia.
Qed.

(** Asked for a line past the text's last line end, the last line of a text
    that does not end in a new-line among them, while pushed-back text stands in
    front of the cursor, [line_text] never returns: at the end of the buffer
    [peek] still answers the pushed-back character, and no further line can be
    counted. *)
Theorem line_text_loops s row :
  _pushback s <> [] -> c_cr ∉ _buf s -> (Z.of_nat (line_ends (_buf s)) < row)%Z ->
  forall fuel, line_text fuel s row = None.
Proof.
  intros Hp Hcr Hrow fuel. unfold line_text.
  assert (H : forall fuel ln s1, _buf s1 = _buf s -> _pushback s1 = _pushback s -> _cr s1 = 0%Z ->
    (_lf s1 + Z.of_nat (line_ends (drop (_gpos s1) (_buf s))) <= Z.of_nat (line_ends (_buf s)))%Z ->
    loop fuel (line_text_body row) (ln, s1) = None).
  { clear fuel. induction fuel as [|k IH]; intros ln s1 Hb Hps Hc Hl; [done|]. cbn [loop]. unfold line_text_body.
    assert (Hpeek : exists c, peek s1 = (code c, s1)).
    { unfold peek. rewrite Hps, (proj2 (is_nil_false _)) by done. cbn [andb].
      destruct (last (_pushback s)) as [c|] eqn:El; [by exists c|by apply last_None in El]. }
    destruct Hpeek as [c ->]. pose proof (code_range c).
    destruct (code c =? -1)%Z eqn:E; reflect_bool; [lia|].
    pose proof (getline_counts s1) as Hg. rewrite Hb in Hg. specialize (Hg Hcr).
    destruct (getline s1) as [[l v] s2]. destruct Hg as (G1 & G2 & G3 & G4).
    assert (Hline : (line s2 - 1 < row)%Z) by (unfold line; case_if; reflect_bool; lia).
    rewrite (proj2 (Z.leb_gt _ _)) by done. apply IH; [congruence|congruence|congruence|lia]. }
  apply H; done.
Qed.

(** ** Witnesses *)

Definition ex_source : source := str source_new (B "a" ++ [c_nl] ++ B "bc\" ++ [c_nl] ++ B "d").

Lemma macro_spans_witness :
  let s' := pushback_macro_spans ex_source (B "x + y") (B "ADD") [ArgSpan 0 1 (B "p"); ArgSpan 4 1 (B "q")]
              [(B "q", {[B "y"]})] in
  macro_disabled (gets 5 s').2 (B "ADD") = true /\ macro_disabled (gets 5 s').2 (B "y") = true.
Proof.
  destruct (macro_spans_serve ex_source (B "x + y") (B "ADD") [ArgSpan 0 1 (B "p"); ArgSpan 4 1 (B "q")]
              [(B "q", {[B "y"]})] 4) as (_ & _ & _ & _ & H1 & H2 & _).
  - reflexivity.
  - vm_compute. repeat split; repeat constructor.
  - simpl. lia.
  - split; [exact H1|]. apply H2. vm_compute. constructor.
Defined.

Lemma expansion_paint_witness :
  macro_disabled (gets 1 (pushback_macro ex_source (B "A") (B "A") ∅)).2 (B "A") = true /\
  macro_disabled (get (gets 1 (pushback_macro ex_source (B "A") (B "A") ∅)).2).2 (B "A") = false.
Proof.
  destruct (expansion_paint_ends_late ex_source (B "A") (B "A") ∅) as (_ & H1 & H2); [reflexivity|discriminate|].
  split; [apply (H1 0); simpl; lia|]. etransitivity; [apply (H2 (B "A"))|]. vm_compute. reflexivity.
Defined.

Lemma fast_span_witness :
  exists run s', fast_span ex_source isalnum = Some (run, s') /\ gets (length run) ex_source = (map code run, s') /\
    Forall (fun c => isalnum c = true) run /\ match drop (_gpos s') (_buf s') with [] => True | c :: _ => isalnum c = false end.
Proof.
  apply (fast_span_is_gets ex_source isalnum); [reflexivity|reflexivity|].
  intros c H. repeat split; intros ->; discriminate H.
Defined.

Lemma position_witness : at_pos (gets 5 ex_source).2 /\ line (gets 5 ex_source).2 = 3%Z /\ column (gets 5 ex_source).2 = 1%Z.
Proof.
  split; [|by vm_compute]. apply (reading_keeps_position ex_source). constructor; try done; [simpl; lia|].
  apply (bool_decide_eq_true_1 _). vm_compute. reflexivity.
Defined.

Lemma line_text_witness :
  line_text 50 (pushback ex_source (B "m")) 3 = None.
Proof.
  apply (line_text_loops (pushback ex_source (B "m")) 3); [discriminate| |reflexivity].
  apply (bool_decide_eq_true_1 _). vm_compute. reflexivity.
Defined.
