(* ===== verification/Literals.v ===== *)
(** Literals: the escape, string, character and integer literal readers of
    [src/lexer.cpp] and the C-escape writers they read back ([src/lexer.cpp],
    [src/rt/rt_dump.c]).

    The readers are templates over anything with [good], [peek] and [get]: the
    class [Reader], with the live [source] and a captured text as instances.
    A C++ [throw] of a message is [inl]; the warnings a reader reports are
    returned with its value; diagnostics' printing is not modelled.  An
    [unsigned __int128] is a [Z] below [2 ^ 128]. *)
From S2P Require Import Prelude Utf8 Source.
#[local] Open Scope Z_scope.

(** ** Readers *)

Class Reader (R : Type) := {
  rd_good : R -> bool;
  rd_peek : R -> Z * R;
  rd_get : R -> Z * R;
  rd_unread : R -> nat		(** what is left to read, at most *)
}.

(** What a reader promises from a state it can be in: the characters ahead,
    one per [get], [peek] the next of them. *)
Class ReaderLaws (R : Type) `{Reader R} := {
  rd_ok : R -> Prop;
  rd_ahead : R -> bytes;
  rl_good : forall r, rd_ok r -> rd_good r = negb (is_nil (rd_ahead r));
  rl_peek : forall r, rd_ok r -> rd_ok (rd_peek r).2 /\ rd_ahead (rd_peek r).2 = rd_ahead r /\
    (rd_unread (rd_peek r).2 <= rd_unread r)%nat /\
    match rd_ahead r with x :: _ => (rd_peek r).1 = code x | [] => True end;
  rl_get : forall r x t, rd_ok r -> rd_ahead r = x :: t ->
    (rd_get r).1 = code x /\ rd_ok (rd_get r).2 /\ rd_ahead (rd_get r).2 = t /\
    (rd_unread (rd_get r).2 < rd_unread r)%nat
}.

#[export] Instance source_reader : Reader source :=
  { rd_good := good; rd_peek := peek; rd_get := get; rd_unread := unread }.

(** [CapturedTextReader]. *)
Record CapturedTextReader := Captured { ct_text : bytes; ct_pos : nat }.
#[export] Instance captured_reader : Reader CapturedTextReader :=
  { rd_good r := (ct_pos r <? length (ct_text r))%nat;
    rd_peek r := (code (at_ (ct_text r) (ct_pos r)), r);
    rd_get r := (code (at_ (ct_text r) (ct_pos r)), Captured (ct_text r) (ct_pos r + 1));
    rd_unread r := (length (ct_text r) - ct_pos r)%nat }.

(** ** Escapes *)

Inductive EscapeKind := Simple | Octal | Hex | Ucn.
Record LiteralEscape := Escape { le_kind : EscapeKind; value : Z }.

Definition hex_digit (c : Z) : Z :=
  if (48 <=? c) && (c <=? 57) then c - 48
  else if (97 <=? c) && (c <=? 102) then c - 97 + 10
  else if (65 <=? c) && (c <=? 70) then c - 65 + 10
  else -1.

Section Escapes.
Context {R : Type} `{Reader R}.

(** [in.good() && p(in.peek())]: the second test is made only after the first. *)
Definition next_is (p : Z -> bool) (r : R) : bool * R :=
  if rd_good r then let '(c, r) := rd_peek r in (p c, r) else (false, r).

(** The hex digits of [\x]: the value, the count, whether it passed [unit_max]. *)
Definition hex_body (unit_max : Z) (st : Z * nat * bool * R) : Z * nat * bool * R + Z * nat * bool * R :=
  let '(val, dig, over, r) := st in
  let '(more, r) := next_is (fun c => 0 <=? hex_digit c) r in
  if more then
    let '(c, r) := rd_get r in
    let val := Z.lor (u64 (Z.shiftl val 4)) (hex_digit c) in
    inl (val, S dig, over || (unit_max <? val), r)
  else inr (val, dig, over, r).

(** The [need] digits of [\u] and [\U]. *)
Fixpoint ucn_digits (need : nat) (val : Z) (r : R) : (bytes * R) + (Z * R) :=
  match need with
  | O => inr (val, r)
  | S k =>
      let '(more, r) := next_is (fun c => 0 <=? hex_digit c) r in
      if more then
        let '(c, r) := rd_get r in ucn_digits k (Z.lor (u32 (Z.shiftl val 4)) (hex_digit c)) r
      else inl (B "incomplete universal character name", r)
  end.

(** The further digits of an octal escape, [left] of them at most. *)
Fixpoint octal_digits (left : nat) (val : Z) (r : R) : Z * R :=
  match left with
  | O => (val, r)
  | S k =>
      let '(more, r) := next_is (fun c => (48 <=? c) && (c <=? 55)) r in
      if more then let '(c, r) := rd_get r in octal_digits k (Z.lor (u32 (Z.shiftl val 3)) (c - 48)) r
      else (val, r)
  end.

(** [read_literal_escape]: the escape, whether it is the unknown one that is
    warned about, the reader. *)
Definition read_literal_escape (r : R) (esc : ascii) (unit_max : Z) : (bytes * R) + (LiteralEscape * bool * R) :=
  let simple v := inr (Escape Simple v, false, r) in
  if byte_eqb esc "n"%char then simple 10
  else if byte_eqb esc "t"%char then simple 9
  else if byte_eqb esc "r"%char then simple 13
  else if byte_eqb esc "a"%char then simple 7
  else if byte_eqb esc "b"%char then simple 8
  else if byte_eqb esc "f"%char then simple 12
  else if byte_eqb esc "v"%char then simple 11
  else if byte_eqb esc "e"%char || byte_eqb esc "E"%char then simple 0x1B
  else if byte_eqb esc c_bslash || byte_eqb esc c_dquote || byte_eqb esc c_squote || byte_eqb esc "?"%char
  then simple (code esc)
  else if byte_eqb esc "x"%char then
    let '(val, dig, over, r) := default (0, O, false, r) (loop (S (rd_unread r)) (hex_body unit_max) (0, O, false, r)) in
    if (dig =? 0)%nat then inl (B "\x used with no following hex digits", r)
    else if over : bool then inl (B "hex escape sequence out of range", r)
    else inr (Escape Hex (u32 val), false, r)
  else if byte_eqb esc "u"%char || byte_eqb esc "U"%char then
    match ucn_digits (if byte_eqb esc "u"%char then 4 else 8) 0 r with
    | inl e => inl e
    | inr (val, r) => inr (Escape Ucn val, false, r)
    end
  else if in_range 48 55 esc then
    let '(val, r) := octal_digits 2 (code esc - 48) r in
    if unit_max <? val then inl (B "octal escape sequence out of range", r)
    else inr (Escape Octal val, false, r)
  else inr (Escape Simple (code esc), true, r).

(** [read_utf8_codepoint]: the continuation bytes. *)
Fixpoint utf8_tail (need : nat) (first cp : Z) (r : R) : Z * R :=
  match need with
  | O => (cp, r)
  | S k =>
      if negb (rd_good r) then (first, r)
      else
        let '(next, r) := rd_peek r in
        let next := next mod 256 in
        if negb (Z.land next 0xC0 =? 0x80) then (first, r)
        else let '(_, r) := rd_get r in utf8_tail k first (Z.lor (u32 (Z.shiftl cp 6)) (Z.land next 0x3F)) r
  end.
Definition read_utf8_codepoint (r : R) (first : Z) : Z * R :=
  if first <? 0x80 then (first, r)
  else if Z.land first 0xE0 =? 0xC0 then utf8_tail 1 first (Z.land first 0x1F) r
  else if Z.land first 0xF0 =? 0xE0 then utf8_tail 2 first (Z.land first 0x0F) r
  else if Z.land first 0xF8 =? 0xF0 then utf8_tail 3 first (Z.land first 0x07) r
  else (first, r).
End Escapes.

Definition append_wide_codepoint (out : bytes) (cp : Z) : bytes :=
  out ++ [to_byte (Z.land cp 0xff); to_byte (Z.land (Z.shiftr cp 8) 0xff);
          to_byte (Z.land (Z.shiftr cp 16) 0xff); to_byte (Z.land (Z.shiftr cp 24) 0xff)].
Definition append_narrow_string_as_wide (out narrow : bytes) : bytes :=
  fold_left (fun out c => append_wide_codepoint out (code c)) narrow out.
Definition narrow_string_as_wide (narrow : bytes) : bytes := append_narrow_string_as_wide [] narrow.

Definition append_byte_escape (out : bytes) (e : LiteralEscape) : bytes :=
  match le_kind e with
  | Ucn => append_utf8_codepoint out (value e)
  | _ => out ++ [to_byte (value e)]
  end.

(** ** Character constants *)

Inductive char_warning := too_long | multi_character.
(** [narrow_char_constant_value]; [char_unsigned] is [ddCHAR.is_unsigned()]. *)
Definition narrow_char_constant_value (char_unsigned : bool) (bs : bytes) : bytes + (Z * option char_warning) :=
  match bs with
  | [] => inl (B "empty character constant")
  | _ =>
      let v := fold_left (fun v b => Z.lor (u32 (Z.shiftl v 8)) (code b)) bs 0 in
      if (length bs =? 1)%nat then inr (if char_unsigned then i32 (v mod 256) else i8 v, None)
      else inr (i32 v, Some (if (4 <? length bs)%nat then too_long else multi_character))
  end.

Definition prefixed_literal_unit_max (prefix : bytes) (llp64 : bool) : Z :=
  if bytes_eqb prefix (B "u8") then 0xFF
  else if bytes_eqb prefix (B "u") || bytes_eqb prefix (B "L") && llp64 then 0xFFFF
  else 0xFFFFFFFF.

(** ** Quoted literals on the live source *)

(** A throw leaves the source where it is; [refuse_unterminated_literal] first
    moves its position to the opening quote. *)
Definition thrown (A : Type) : Type := (bytes * source) + A.

Definition refuse_unterminated_literal {A} (s : source) (quote : ascii) (row col : Z) : thrown A :=
  inl (if byte_eqb quote c_dquote then B "missing terminating " ++ [c_dquote] ++ B " character"
       else B "missing terminating ' character", setpos s row col).

Definition literal_body_continues (s : source) (quote : ascii) (row col : Z) : thrown (bool * source) :=
  if negb (good s) then refuse_unterminated_literal s quote row col
  else
    let '(c, s) := peek s in
    if (c =? code c_nl) || (c =? code c_cr) then refuse_unterminated_literal s quote row col
    else inr (negb (c =? code quote), s).

(** The body loop the quoted literals share: [on_escape] and [on_char] add an
    escape or the next character to what was read, [w] counts the warnings. *)
Definition literal_body {A} (quote : ascii) (row col unit_max : Z) (on_escape : A -> LiteralEscape -> A)
    (on_char : A -> source -> A * source) (st : A * nat * source) : A * nat * source + thrown (A * nat * source) :=
  let '(acc, w, s) := st in
  match literal_body_continues s quote row col with
  | inl e => inr (inl e)
  | inr (false, s) => inr (inr (acc, w, s))
  | inr (true, s) =>
      let '(c, s) := peek s in
      if c =? code c_bslash then
        let '(_, s) := get s in
        if negb (good s) then inr (inr (acc, w, s))
        else
          let '(esc, s) := get s in
          match read_literal_escape s (to_byte esc) unit_max with
          | inl e => inr (inl e)
          | inr (e, warned, s) => inl (on_escape acc e, if warned then S w else w, s)
          end
      else let '(acc, s) := on_char acc s in inl (acc, w, s)
  end.

(** The loop, then the closing quote. *)
Definition read_quoted {A} (quote : ascii) (row col unit_max : Z) (on_escape : A -> LiteralEscape -> A)
    (on_char : A -> source -> A * source) (init : A) (s : source) : thrown (A * nat * source) :=
  match default (inl ([], s)) (loop (S (unread s)) (literal_body quote row col unit_max on_escape on_char) (init, O, s)) with
  | inl e => inl e
  | inr (acc, w, s) =>
      if negb (good s) then refuse_unterminated_literal s quote row col
      else inr (acc, w, (get s).2)
  end.

Definition append_raw (word : bytes) (s : source) : bytes * source :=
  let '(c, s) := get s in (word ++ [to_byte c], s).

(** The string case of the tokenizer, after the opening quote: the bytes. *)
Definition read_string_literal (s : source) : thrown (bytes * nat * source) :=
  read_quoted c_dquote (line s) (column s) 0xFF append_byte_escape append_raw [] s.

(** Its character case: the value, the number of its bytes, the warning. *)
Definition read_char_literal (char_unsigned : bool) (s : source)
    : thrown (Z * nat * option char_warning * source) :=
  let row := line s in
  let col := column s in
  match read_quoted c_squote row col 0xFF append_byte_escape append_raw [] s with
  | inl e => inl e
  | inr (word, _, s) =>
      match narrow_char_constant_value char_unsigned word with
      | inl e => inl (e, setpos s row col)
      | inr (v, warn) => inr (v, length word, warn, s)
      end
  end.

(** What [read_wide_literal] makes: a string's payload and whether its units are
    wide, or a character's value. *)
Inductive wide_literal := WideString (payload : bytes) (wide : bool) | WideChar (cp : Z).

Definition read_codepoint (s : source) : Z * source :=
  let '(c, s) := get s in read_utf8_codepoint s (c mod 256).

Definition read_wide_literal (llp64 : bool) (prefix : bytes) (s : source) : thrown (wide_literal * source) :=
  let '(q, s) := get s in
  let quote := to_byte q in
  let row := line s in
  let col := column s in
  let unit_max := prefixed_literal_unit_max prefix llp64 in
  let u8 := bytes_eqb prefix (B "u8") in
  if byte_eqb quote c_dquote then
    if bytes_eqb prefix (B "u") then
      inl (B "UTF-16 string literals (u" ++ [c_dquote] ++ B "..." ++ [c_dquote] ++ B ") are not supported", s)
    else if bytes_eqb prefix (B "U") && llp64 then
      inl (B "char32_t string literals (U" ++ [c_dquote] ++ B "..." ++ [c_dquote]
           ++ B ") are not supported on the LLP64 target", s)
    else
      match read_quoted c_dquote row col unit_max
              (fun out e => if u8 then append_byte_escape out e else append_wide_codepoint out (value e))
              (fun out s => let '(cp, s) := read_codepoint s in
                 (if u8 then append_utf8_codepoint out cp else append_wide_codepoint out cp, s)) [] s with
      | inl e => inl e
      | inr (payload, _, s) => inr (WideString payload (negb u8), s)
      end
  else
    match read_quoted c_squote row col unit_max (fun _ e => value e) (fun _ s => read_codepoint s) 0 s with
    | inl e => inl e
    | inr (cp, _, s) => inr (WideChar cp, s)
    end.

(** ** Integer literals *)

Definition u128 (z : Z) : Z := z mod 2 ^ 128.

Definition is_digit_separator (ch : Z) : bool := ch =? code c_squote.
Definition is_binary_prefix (ch : Z) (s : source) : bool * source :=
  if negb (ch =? 48) || negb (good s) then (false, s)
  else let '(c, s) := peek s in ((c =? 98) || (c =? 66), s).

(** The digit loops: the value, whether it ran past 128 bits, the digits as
    spelled, without their separators. *)
Definition digits_body (is_digit : Z -> bool) (accept : Z -> Z -> Z * bool) (st : Z * bool * bytes * source)
    : Z * bool * bytes * source + Z * bool * bytes * source :=
  let '(v, ovf, txt, s) := st in
  if negb (good s) then inr (v, ovf, txt, s)
  else
    let '(c, s) := peek s in
    if is_digit_separator c then inl (v, ovf, txt, (get s).2)
    else if negb (is_digit c) then inr (v, ovf, txt, s)
    else
      let '(c, s) := get s in
      let '(v', past) := accept v c in
      inl (v', ovf || past, txt ++ [to_byte c], s).
Definition read_digits (is_digit : Z -> bool) (accept : Z -> Z -> Z * bool) (v : Z) (s : source)
    : Z * bool * bytes * source :=
  default (v, false, [], s) (loop (S (unread s)) (digits_body is_digit accept) (v, false, [], s)).

Definition binary_accept (v c : Z) : Z * bool :=
  (u128 (u128 (Z.shiftl v 1) + (c - 48)), negb (Z.shiftr v 127 =? 0)).
(** [read_binary_literal], from the [b] on. *)
Definition read_binary_literal (s : source) : Z * bool * source :=
  let '(v, ovf, _, s) := read_digits (fun c => (c =? 48) || (c =? 49)) binary_accept 0 (get s).2 in (v, ovf, s).

Definition isdigit_z (c : Z) : bool := (48 <=? c) && (c <=? 57).
Definition isxdigit_z (c : Z) : bool := isdigit_z c || ((65 <=? c) && (c <=? 70)) || ((97 <=? c) && (c <=? 102)).

Definition hex_accept (v c : Z) : Z * bool :=
  (u128 (u128 (v * 16)
         + (if (48 <=? c) && (c <=? 57) then c - 48
            else if (97 <=? c) && (c <=? 102) then c - 97 + 10 else c - 65 + 10)),
   negb (Z.shiftr v 124 =? 0)).
Definition octal_accept (v c : Z) : Z * bool :=
  (u128 (v * 8 + Z.land c 0xf), negb (Z.shiftr v 125 =? 0)).
Definition dec_limit : Z := (2 ^ 128 - 1) / 10.
Definition decimal_accept (v c : Z) : Z * bool :=
  (u128 (u128 (v * 10) + Z.land c 0xf), (dec_limit <? v) || (v =? dec_limit) && (5 <? Z.land c 0xf)).

(** ** The C escapes the writers spell *)

(** [utf8_sequence_at], on the text from the position on. *)
Definition utf8_lead (c : Z) : nat * Z * Z :=
  if (0xC2 <=? c) && (c <=? 0xDF) then (2%nat, 0x80, 0xBF)
  else if (0xE0 <=? c) && (c <=? 0xEF) then
    (3%nat, if c =? 0xE0 then 0xA0 else 0x80, if c =? 0xED then 0x9F else 0xBF)
  else if (0xF0 <=? c) && (c <=? 0xF4) then
    (4%nat, if c =? 0xF0 then 0x90 else 0x80, if c =? 0xF4 then 0x8F else 0xBF)
  else (O, 0, 0).
Definition utf8_sequence (t : bytes) : nat :=
  let '(len, lo, hi) := utf8_lead (code (at_ t 0)) in
  if (len =? 0)%nat || (length t <? len)%nat then O
  else if forallb (fun k => let d := code (at_ t k) in
            if (k =? 1)%nat then (lo <=? d) && (d <=? hi) else (0x80 <=? d) && (d <=? 0xBF)) (seq 1 (len - 1))
  then len else O.

Definition octal_escape (c : Z) : bytes :=
  [c_bslash; to_byte (48 + Z.land (Z.shiftr c 6) 7); to_byte (48 + Z.land (Z.shiftr c 3) 7); to_byte (48 + Z.land c 7)].

(** [__madc_c_escape]: the text it spells (its count is the text's length). *)
Fixpoint c_escape_fuel (fuel : nat) (quote : ascii) (s : bytes) : bytes :=
  match fuel, s with
  | S k, c :: r =>
      if byte_eqb c quote || byte_eqb c c_bslash then [c_bslash; c] ++ c_escape_fuel k quote r
      else if byte_eqb c c_nl || byte_eqb c c_tab || byte_eqb c c_cr then
        [c_bslash; if byte_eqb c c_nl then "n"%char else if byte_eqb c c_tab then "t"%char else "r"%char]
        ++ c_escape_fuel k quote r
      else if (0x20 <=? code c) && (code c <=? 0x7e) then [c] ++ c_escape_fuel k quote r
      else if (0x80 <=? code c) && (0 <? utf8_sequence s)%nat then
        take (utf8_sequence s) s ++ c_escape_fuel k quote (drop (utf8_sequence s) s)
      else octal_escape (code c) ++ c_escape_fuel k quote r
  | _, _ => []
  end.
Definition c_escape (quote : ascii) (s : bytes) : bytes := c_escape_fuel (length s) quote s.
(** What the buffer of [cap] bytes holds before its NUL, and the count. *)
Definition madc_c_escape (s : bytes) (quote : ascii) (cap : nat) : bytes * nat :=
  (take (cap - 1) (c_escape quote s), length (c_escape quote s)).

Definition madc_c_escape_string (s : bytes) : bytes :=
  let n := (madc_c_escape s c_dquote 0).2 in
  take n (madc_c_escape s c_dquote (n + 1)).1.

(** [%x] of a 32-bit value. *)
Definition hex_char (d : Z) : ascii := to_byte (if d <? 10 then 48 + d else 87 + d).
Fixpoint hex_text (fuel : nat) (v : Z) (acc : bytes) : bytes :=
  match fuel with
  | O => acc
  | S k => let acc := hex_char (v mod 16) :: acc in if v / 16 =? 0 then acc else hex_text k (v / 16) acc
  end.

(** [madc_c_escape_wide_string]: the units, four bytes each. *)
Definition wide_piece (cp : Z) : bytes :=
  if cp <? 0x80 then madc_c_escape_string [to_byte cp]
  else if (cp <=? 0x10FFFF) && ((cp <? 0xD800) || (0xDFFF <? cp)) then append_utf8_codepoint [] cp
  else B "\x" ++ hex_text 8 cp [].
Fixpoint escape_wide (s : bytes) (hex_open : bool) : bytes :=
  match s with
  | a :: b :: c :: d :: r =>
      let cp := Z.lor (Z.lor (Z.lor (code a) (Z.shiftl (code b) 8)) (Z.shiftl (code c) 16)) (Z.shiftl (code d) 24) in
      let piece := wide_piece cp in
      (if hex_open && isxdigit (at_ piece 0) then [c_dquote] ++ B " L" ++ [c_dquote] else [])
      ++ piece
      ++ escape_wide r ((1 <? length piece)%nat && byte_eqb (at_ piece 0) c_bslash && byte_eqb (at_ piece 1) "x"%char)
  | _ => []
  end.
Definition madc_c_escape_wide_string (s : bytes) : bytes := escape_wide s false.

(** ** The readers keep their promises *)

#[export] Program Instance captured_laws : ReaderLaws CapturedTextReader :=
  { rd_ok _ := True; rd_ahead r := drop (ct_pos r) (ct_text r) }.
Next Obligation.
  intros [t p] _. simpl. destruct (p <? length t)%nat eqn:E; reflect_bool.
  - by rewrite (drop_at t p).
  - by rewrite drop_ge.
Qed.
Next Obligation.
  intros [t p] _. simpl. split_and!; [done|done|lia|]. destruct (drop p t) as [|x r] eqn:E; [done|].
  f_equal. rewrite <- (at_drop t p), E. done.
Qed.
Next Obligation.
  intros [t p] x r _ E. simpl in *. split_and!; [|done| |].
  - f_equal. rewrite <- (at_drop t p), E. done.
  - rewrite <- drop_drop, E. done.
  - apply (f_equal length) in E. rewrite length_drop in E. simpl in E. lia.
Qed.

(** A buffer in which every line splice is followed by an ordinary character. *)
Definition steady (b : bytes) : Prop :=
  forall i, let k := splice_len (drop i b) in (0 < k -> i + k < length b /\ splice_len (drop (i + k) b) = 0)%nat.

Lemma get_fuel_buf fuel s : _buf (get_fuel fuel s).2 = _buf s.
Proof.
  revert s. induction fuel as [|k IH]; intros s; cbn [get_fuel]; [done|].
  destruct (_ && _); [done|]. destruct (last (_pushback s)) as [c|].
  - apply get_pushed_fields.
  - destruct (_ <=? _)%nat; [done|]. destruct (0 <? _)%nat; [by rewrite IH|]. repeat case_if; done.
Qed.
Lemma get_buf s : _buf (get s).2 = _buf s.
Proof. apply get_fuel_buf. Qed.
Lemma peek_buf s : _buf (peek s).2 = _buf s.
Proof. unfold peek. destruct (_ && _); [done|]. destruct (last _); [done|]. repeat case_if; done. Qed.

Lemma steady_ahead s : steady (_buf s) -> good s = negb (is_nil (ahead s)).
Proof.
  intros Hs. destruct (good s) eqn:Eg; [|by rewrite not_good_ahead].
  symmetry. apply negb_true_iff, is_nil_false. intros Ha. unfold good in Eg.
  unfold ahead in Ha. apply app_nil in Ha as [Hp Ha].
  assert (Hp' : _pushback s = []) by (by rewrite <- (rev_involutive (_pushback s)), Hp).
  rewrite Hp' in Eg. simpl in Eg. reflect_bool. specialize (Hs (_gpos s)). simpl in Hs.
  rewrite (drop_at _ _ Eg), phase2_cons, <- (drop_at _ _ Eg) in Ha.
  destruct (0 <? splice_len (drop (_gpos s) (_buf s)))%nat eqn:Es; [|done]. reflect_bool.
  destruct (Hs Es) as [Hl H0]. rewrite drop_drop, (drop_at (_buf s)), phase2_cons, <- (drop_at (_buf s)) in Ha by lia.
  by rewrite H0 in Ha.
Qed.

#[export] Program Instance source_laws : ReaderLaws source :=
  { rd_ok s := steady (_buf s); rd_ahead := ahead }.
Next Obligation. intros s Hs. by apply steady_ahead. Qed.
Next Obligation.
  intros s Hs. simpl. destruct (peek_spec s) as (H1 & H2 & H3). split_and!; [by rewrite peek_buf|done|done|].
  pose proof (get_reads s) as Hg. destruct (ahead s); [done|]. rewrite H3; [by destruct Hg|].
  intros (_ & Hk & Hk2). destruct (Hs _ Hk) as [_ H0]. simpl in *. lia.
Qed.
Next Obligation.
  intros s x t Hs Ha. simpl. pose proof (get_reads s) as Hg. rewrite Ha in Hg. destruct Hg as [Hc Hg].
  split_and!; [done|by rewrite get_buf|done|]. apply get_unread. rewrite steady_ahead by done. by rewrite Ha.
Qed.

(** ** What an escape denotes *)

Definition is_octal (c : ascii) : bool := in_range 48 55 c.
Definition base_value (base : Z) (digit : ascii -> Z) (v : Z) (ds : bytes) : Z :=
  fold_left (fun v c => v * base + digit c) ds v.
Definition hex_value (ds : bytes) : Z := base_value 16 (fun c => hex_digit (code c)) 0 ds.
Definition octal_value (v : Z) (ds : bytes) : Z := base_value 8 (fun c => code c - 48) v ds.

Lemma base_value_snoc base digit v ds c :
  base_value base digit v (ds ++ [c]) = base_value base digit v ds * base + digit c.
Proof. unfold base_value. by rewrite fold_left_app. Qed.

Lemma hex_digit_range c : isxdigit c = true -> 0 <= hex_digit (code c) < 16.
Proof.
  unfold isxdigit, isdigit, in_range, hex_digit. intros H.
  repeat case_if; split_bool; lia.
Qed.

Lemma hex_digit_isxdigit c : (0 <=? hex_digit (code c)) = isxdigit c.
Proof.
  destruct (isxdigit c) eqn:E; [apply Z.leb_le; by apply hex_digit_range|].
  unfold isxdigit, isdigit, in_range in E. unfold hex_digit.
  repeat match goal with |- context [if ?b then _ else _] => destruct b eqn:? end; split_bool; lia.
Qed.

(** The text of an escape, from the character [esc] after its backslash on:
    its value and the text left, or the error. *)
Definition escape_spec (esc : ascii) (t : bytes) (unit_max : Z) : bytes + (LiteralEscape * bool * bytes) :=
  if byte_eqb esc "x"%char then
    let ds := take (run_length isxdigit t) t in
    if bool_decide (ds = []) then inl (B "\x used with no following hex digits")
    else if unit_max <? hex_value ds then inl (B "hex escape sequence out of range")
    else inr (Escape Hex (hex_value ds), false, drop (length ds) t)
  else if byte_eqb esc "u"%char || byte_eqb esc "U"%char then
    let need := if byte_eqb esc "u"%char then 4%nat else 8%nat in
    if (need <=? run_length isxdigit t)%nat then inr (Escape Ucn (hex_value (take need t)), false, drop need t)
    else inl (B "incomplete universal character name")
  else if is_octal esc then
    let ds := take (Nat.min 2 (run_length is_octal t)) t in
    let v := octal_value (code esc - 48) ds in
    if unit_max <? v then inl (B "octal escape sequence out of range")
    else inr (Escape Octal v, false, drop (length ds) t)
  else
    match find_char esc (B "ntrabfveE") with
    | Some k => inr (Escape Simple (nth k [10; 9; 13; 7; 8; 12; 11; 27; 27] 0), false, t)
    | None => inr (Escape Simple (code esc),
                   negb (existsb (byte_eqb esc) [c_bslash; c_dquote; c_squote; "?"%char]), t)
    end.

Section EscapeProofs.
Context {R : Type} `{ReaderLaws R}.

Lemma next_is_spec p r :
  rd_ok r ->
  let '(b, r') := next_is p r in
  rd_ok r' /\ rd_ahead r' = rd_ahead r /\ (rd_unread r' <= rd_unread r)%nat /\
  b = match rd_ahead r with x :: _ => p (code x) | [] => false end.
Proof.
  intros Hok. unfold next_is. rewrite rl_good by done. pose proof (rl_peek r Hok) as (H1 & H2 & H3 & H4).
  destruct (rd_ahead r) as [|x t] eqn:E; simpl; [by rewrite E|].
  destruct (rd_peek r) as [c r']. simpl in *. by subst c.
Qed.

(** [\x]: the value is exact until it passes [unit_max], and then the flag
    stays. *)
Definition hex_inv (unit_max : Z) (r0 : R) (st : Z * nat * bool * R) : Prop :=
  let '(val, dig, over, r) := st in
  rd_ok r /\ exists ds, rd_ahead r0 = ds ++ rd_ahead r /\ Forall (fun c => isxdigit c = true) ds /\
    dig = length ds /\ over = (unit_max <? hex_value ds) /\ (over = false -> val = hex_value ds /\ 0 <= val).

Lemma hex_value_snoc ds c : hex_value (ds ++ [c]) = hex_value ds * 16 + hex_digit (code c).
Proof. apply base_value_snoc. Qed.

Lemma hex_value_nonneg ds : Forall (fun c => isxdigit c = true) ds -> 0 <= hex_value ds.
Proof.
  induction ds as [|c ds IH] using rev_ind; [done|]. intros [H1 H2]%Forall_app.
  apply Forall_cons_1 in H2 as [H2 _].
  rewrite hex_value_snoc. pose proof (hex_digit_range c H2). specialize (IH H1). lia.
Qed.

Lemma hex_step unit_max r0 st :
  0 <= unit_max < 2 ^ 32 -> hex_inv unit_max r0 st ->
  match hex_body unit_max st with
  | inl st' => hex_inv unit_max r0 st' /\ (rd_unread st'.2 < rd_unread st.2)%nat
  | inr st' => hex_inv unit_max r0 st' /\ match rd_ahead st'.2 with c :: _ => isxdigit c = false | [] => True end
  end.
Proof.
  intros Hum. destruct st as [[[val dig] over] r]. intros (Hok & ds & Ha & Hds & -> & Hover & Hval).
  unfold hex_body. pose proof (next_is_spec (fun c => 0 <=? hex_digit c) r Hok) as Hn.
  destruct (next_is _ r) as [more r1]. destruct Hn as (Hok1 & Ha1 & Hu1 & ->).
  destruct (rd_ahead r) as [|x t] eqn:Er; simpl.
  { rewrite Ha1. split; [|done]. split; [done|]. by exists ds. }
  rewrite hex_digit_isxdigit. destruct (isxdigit x) eqn:Ex; simpl.
  2:{ rewrite Ha1. split; [|done]. split; [done|]. by exists ds. }
  destruct (rl_get r1 x t Hok1 Ha1) as (Hc & Hok2 & Ha2 & Hu2). destruct (rd_get r1) as [c r2]. simpl in *. subst c.
  split; [|lia]. split; [done|]. exists (ds ++ [x]). rewrite Ha2, Ha, <- app_assoc.
  pose proof (hex_digit_range x Ex) as Hx. pose proof (hex_value_nonneg ds Hds) as Hnn.
  rewrite length_app, hex_value_snoc. simpl. split_and!; [done|apply Forall_app_2; by repeat constructor|lia| |].
  - destruct over; simpl; [symmetry in Hover; reflect_bool; symmetry; apply Z.ltb_lt; lia|].
    destruct (Hval eq_refl) as [-> _]. symmetry in Hover. reflect_bool.
    unfold u64. rewrite Z.shiftl_mul_pow2, Z.mod_small, (Z_lor_add _ _ 4) by lia. done.
  - destruct over; [done|]. destruct (Hval eq_refl) as [-> _]. symmetry in Hover. simpl. reflect_bool. intros _.
    unfold u64. rewrite Z.shiftl_mul_pow2, Z.mod_small, (Z_lor_add _ _ 4) by lia. lia.
Qed.

Lemma run_of_prefix p (ds t : bytes) :
  Forall (fun c => p c = true) ds -> match t with c :: _ => p c = false | [] => True end ->
  run_length p (ds ++ t) = length ds.
Proof.
  induction 1 as [|c ds Hc _ IH]; intros Ht; simpl; [destruct t; simpl; [done|by rewrite Ht]|].
  by rewrite Hc, IH.
Qed.

Lemma hex_loop unit_max r :
  0 <= unit_max < 2 ^ 32 -> rd_ok r ->
  exists val dig over r', loop (S (rd_unread r)) (hex_body unit_max) (0, O, false, r) = Some (val, dig, over, r') /\
    let ds := take (run_length isxdigit (rd_ahead r)) (rd_ahead r) in
    rd_ok r' /\ rd_ahead r' = drop (length ds) (rd_ahead r) /\ dig = length ds /\ over = (unit_max <? hex_value ds) /\
    (over = false -> val = hex_value ds) /\ Forall (fun c => isxdigit c = true) ds.
Proof.
  intros Hum Hok.
  destruct (loop_total (hex_inv unit_max r)
    (fun st => hex_inv unit_max r st /\ match rd_ahead st.2 with c :: _ => isxdigit c = false | [] => True end)
    (fun st => rd_unread st.2) (hex_body unit_max)) with (fuel := S (rd_unread r)) (s := (0, O, false, r))
    as ([[[val dig] over] r'] & Hl & (Hok' & ds & Ha & Hds & Hdig & Hover & Hval) & Hend).
  - intros st Hst. exact (hex_step unit_max r st Hum Hst).
  - split; [done|]. exists []. split_and!; try done. symmetry. apply Z.ltb_ge. unfold hex_value. simpl. lia.
  - simpl. lia.
  - exists val, dig, over, r'. split; [done|]. simpl in Hend. rewrite Ha, (run_of_prefix _ ds) by done.
    cbv zeta. rewrite take_app_length, drop_app_length. split_and!; try done. intros Ho. by apply Hval.
Qed.

Lemma ucn_digits_spec need val r :
  rd_ok r -> 0 <= val -> val * 16 ^ Z.of_nat need < 2 ^ 32 - 16 ^ Z.of_nat need + 1 ->
  let t := rd_ahead r in
  match ucn_digits need val r with
  | inl (m, _) => (run_length isxdigit t < need)%nat /\ m = B "incomplete universal character name"
  | inr (v, r') => (need <= run_length isxdigit t)%nat /\
      v = base_value 16 (fun c => hex_digit (code c)) val (take need t) /\ rd_ok r' /\ rd_ahead r' = drop need t
  end.
Proof.
  revert val r. induction need as [|k IH]; intros val r Hok Hv Hb; cbn [ucn_digits].
  { simpl. rewrite drop_0. split_and!; try done. lia. }
  pose proof (next_is_spec (fun c => 0 <=? hex_digit c) r Hok) as Hn.
  destruct (next_is _ r) as [more r1]. destruct Hn as (Hok1 & Ha1 & _ & ->).
  destruct (rd_ahead r) as [|x t] eqn:Er; [simpl; split; [lia|done]|].
  rewrite hex_digit_isxdigit. destruct (isxdigit x) eqn:Ex; [|simpl; rewrite Ex; split; [lia|done]].
  destruct (rl_get r1 x t Hok1 Ha1) as (Hc & Hok2 & Ha2 & _). destruct (rd_get r1) as [c r2]. cbn [fst snd] in *. subst c.
  pose proof (hex_digit_range x Ex) as Hx. rewrite Nat2Z.inj_succ, Z.pow_succ_r in Hb by lia.
  pose proof (Z.pow_pos_nonneg 16 (Z.of_nat k) ltac:(lia) ltac:(lia)) as Hp.
  assert (Hval : Z.lor (u32 (Z.shiftl val 4)) (hex_digit (code x)) = val * 16 + hex_digit (code x)).
  { unfold u32. rewrite Z.shiftl_mul_pow2, Z.mod_small by nia. by rewrite (Z_lor_add _ _ 4) by lia. }
  rewrite Hval. specialize (IH (val * 16 + hex_digit (code x)) r2 Hok2 ltac:(lia) ltac:(nia)). rewrite Ha2 in IH.
  cbv zeta in IH. cbn [run_length]. rewrite Ex. destruct (ucn_digits k _ r2) as [[m r3]|[v r3]].
  - destruct IH. split; [lia|done].
  - destruct IH as (I1 & -> & I3 & I4). split_and!; try done. lia.
Qed.

Lemma octal_digits_spec left val r :
  rd_ok r -> 0 <= val < 2 ^ 8 -> (left <= 2)%nat ->
  let t := rd_ahead r in
  let ds := take (Nat.min left (run_length is_octal t)) t in
  let '(v, r') := octal_digits left val r in
  v = octal_value val ds /\ rd_ok r' /\ rd_ahead r' = drop (length ds) t.
Proof.
  intros Hok Hv Hl. assert (Hb : val < 8 ^ (5 - Z.of_nat left)).
  { assert (8 ^ 3 <= 8 ^ (5 - Z.of_nat left)) by (apply Z.pow_le_mono_r; lia). lia. }
  destruct Hv as [Hv _]. revert val r Hok Hv Hb. induction left as [|k IH]; intros val r Hok Hv Hb; cbn [octal_digits].
  { simpl. by rewrite drop_0. }
  pose proof (next_is_spec (fun c => (48 <=? c) && (c <=? 55)) r Hok) as Hn.
  destruct (next_is _ r) as [more r1]. destruct Hn as (Hok1 & Ha1 & _ & ->).
  destruct (rd_ahead r) as [|x t] eqn:Er; [by rewrite Ha1|].
  change ((48 <=? code x) && (code x <=? 55)) with (is_octal x).
  destruct (is_octal x) eqn:Ex; [|cbn [run_length]; by rewrite Ex, Ha1].
  destruct (rl_get r1 x t Hok1 Ha1) as (Hc & Hok2 & Ha2 & _). destruct (rd_get r1) as [c r2]. cbn [fst snd] in *. subst c.
  pose proof Ex as Hx. unfold is_octal, in_range in Hx. reflect_bool.
  assert (Hp : 8 ^ (5 - Z.of_nat k) = 8 * 8 ^ (5 - Z.of_nat (S k))).
  { replace (5 - Z.of_nat k) with (Z.succ (5 - Z.of_nat (S k))) by lia. apply Z.pow_succ_r. lia. }
  assert (8 ^ (5 - Z.of_nat (S k)) <= 8 ^ 5) by (apply Z.pow_le_mono_r; lia).
  assert (Hval : Z.lor (u32 (Z.shiftl val 3)) (code x - 48) = val * 8 + (code x - 48)).
  { unfold u32. rewrite Z.shiftl_mul_pow2, Z.mod_small by lia. by rewrite (Z_lor_add _ _ 3) by lia. }
  rewrite Hval. specialize (IH ltac:(lia) (val * 8 + (code x - 48)) r2 Hok2 ltac:(lia) ltac:(lia)).
  rewrite Ha2 in IH. cbv zeta in IH. cbn [run_length]. rewrite Ex. destruct (octal_digits k _ r2) as [v r3].
  destruct IH as (-> & I2 & I3). split_and!; done.
Qed.

(** The branch each escape character takes. *)
Lemma read_escape_hex (r : R) unit_max :
  read_literal_escape r "x"%char unit_max =
  let '(val, dig, over, r) := default (0, O, false, r) (loop (S (rd_unread r)) (hex_body unit_max) (0, O, false, r)) in
  if (dig =? 0)%nat then inl (B "\x used with no following hex digits", r)
  else if over : bool then inl (B "hex escape sequence out of range", r)
  else inr (Escape Hex (u32 val), false, r).
Proof. reflexivity. Qed.

Lemma read_escape_octal (r : R) esc unit_max :
  is_octal esc = true ->
  read_literal_escape r esc unit_max =
  let '(val, r) := octal_digits 2 (code esc - 48) r in
  if unit_max <? val then inl (B "octal escape sequence out of range", r) else inr (Escape Octal val, false, r).
Proof. destruct esc as [[] [] [] [] [] [] [] []]; try discriminate 1; reflexivity. Qed.

Lemma read_escape_ucn (r : R) esc unit_max :
  byte_eqb esc "u"%char || byte_eqb esc "U"%char = true ->
  read_literal_escape r esc unit_max =
  match ucn_digits (if byte_eqb esc "u"%char then 4 else 8) 0 r with
  | inl e => inl e
  | inr (val, r) => inr (Escape Ucn val, false, r)
  end.
Proof. destruct esc as [[] [] [] [] [] [] [] []]; try discriminate 1; reflexivity. Qed.

Lemma read_escape_simple (r : R) esc unit_max :
  byte_eqb esc "x"%char || (byte_eqb esc "u"%char || byte_eqb esc "U"%char) || is_octal esc = false ->
  exists e w, read_literal_escape r esc unit_max = inr (e, w, r) /\
    forall t, escape_spec esc t unit_max = inr (e, w, t).
Proof.
  destruct esc as [[] [] [] [] [] [] [] []]; try discriminate 1; intros _; do 2 eexists; split; reflexivity.
Qed.

Lemma escape_reads (r : R) esc unit_max :
  rd_ok r -> 0 <= unit_max < 2 ^ 32 ->
  match read_literal_escape r esc unit_max, escape_spec esc (rd_ahead r) unit_max with
  | inl (m, _), inl m' => m = m'
  | inr (e, w, r'), inr (e', w', t) => e = e' /\ w = w' /\ rd_ok r' /\ rd_ahead r' = t
  | _, _ => False
  end.
Proof.
  intros Hok Hum.
  destruct (byte_eqb esc "x"%char || (byte_eqb esc "u"%char || byte_eqb esc "U"%char) || is_octal esc) eqn:Ebr.
  2:{ destruct (read_escape_simple r esc unit_max Ebr) as (e & w & -> & Hspec). by rewrite Hspec. }
  unfold escape_spec. destruct (byte_eqb esc "x"%char) eqn:Ex.
  { apply byte_eqb_eq in Ex as ->. rewrite read_escape_hex.
    destruct (hex_loop unit_max r Hum Hok) as (val & dig & over & r' & -> & Hok' & Ha & Hdig & Hover & Hval & Hds).
    simpl. set (ds := take _ _) in *. clearbody ds. subst dig.
    destruct ds as [|d ds]; [by rewrite bool_decide_eq_true_2|]. rewrite bool_decide_eq_false_2 by done. simpl.
    rewrite <- Hover. destruct over; [done|]. rewrite (Hval eq_refl). split_and!; try done.
    f_equal. apply u32_small. symmetry in Hover. reflect_bool. pose proof (hex_value_nonneg _ Hds). lia. }
  destruct (byte_eqb esc "u"%char || byte_eqb esc "U"%char) eqn:Eu.
  { rewrite (read_escape_ucn r esc unit_max Eu). set (need := if byte_eqb esc "u"%char then 4%nat else 8%nat).
    assert (Hn : need = 4%nat \/ need = 8%nat) by (unfold need; case_if; auto).
    pose proof (ucn_digits_spec need 0 r Hok ltac:(lia) ltac:(destruct Hn as [-> | ->]; lia)) as Hd. cbv zeta in Hd.
    destruct (ucn_digits need 0 r) as [[m r']|[v r']].
    - destruct Hd as [Hd ->]. by rewrite (proj2 (Nat.leb_gt _ _)).
    - destruct Hd as (Hd & -> & Hok' & Ha). rewrite (proj2 (Nat.leb_le _ _)) by done. done. }
  destruct (is_octal esc) eqn:Eo; [|done].
  rewrite (read_escape_octal r esc unit_max Eo).
  pose proof Eo as Hr. unfold is_octal, in_range in Hr. reflect_bool.
  pose proof (octal_digits_spec 2 (code esc - 48) r Hok ltac:(lia) ltac:(lia)) as Hd. cbv zeta in Hd.
  destruct (octal_digits 2 _ r) as [v r']. destruct Hd as (-> & Hok' & Ha).
  by destruct (unit_max <? _).
Qed.
End EscapeProofs.

(** C15: The escape reader is one function of the text after the backslash,
    whatever it reads from: the maximal run of hex digits, at most three octal
    digits, exactly four or eight digits of a universal character name, a simple
    escape or an unknown one; and an octal or hex value that does not fit the
    literal's unit, however many digits overflow it, is refused. *)
Theorem escape_reader_implements_spec :
  forall (R : Type) (Hr : Reader R) (Hl : ReaderLaws R) (r : R) esc unit_max,
  rd_ok r -> 0 <= unit_max < 2 ^ 32 ->
  match read_literal_escape r esc unit_max, escape_spec esc (rd_ahead r) unit_max with
  | inl (m, _), inl m' => m = m'
  | inr (e, w, r'), inr (e', w', t) => e = e' /\ w = w' /\ rd_ok r' /\ rd_ahead r' = t
  | _, _ => False
  end.
Proof. intros R Hr Hl r esc unit_max Hok Hum. exact (escape_reads r esc unit_max Hok Hum). Qed.

(** ** A literal's body reads back *)

Lemma unread_ahead s : (length (ahead s) <= unread s)%nat.
Proof.
  unfold ahead, unread. rewrite length_app, length_rev. pose proof (phase2_length (drop (_gpos s) (_buf s))) as H.
  rewrite length_drop in H. lia.
Qed.

Lemma source_peek s :
  steady (_buf s) -> steady (_buf (peek s).2) /\ ahead (peek s).2 = ahead s /\ (unread (peek s).2 <= unread s)%nat /\
  match ahead s with x :: _ => (peek s).1 = code x | [] => True end.
Proof. exact (rl_peek (R := source) s). Qed.
Lemma source_get s x t :
  steady (_buf s) -> ahead s = x :: t ->
  (get s).1 = code x /\ steady (_buf (get s).2) /\ ahead (get s).2 = t /\ (unread (get s).2 < unread s)%nat.
Proof. exact (rl_get (R := source) s x t). Qed.

Section BodyRoundTrip.
Context (quote : ascii) (row col : Z).
Hypothesis Hquote : quote = c_dquote \/ quote = c_squote.
Let step := literal_body quote row col 0xFF append_byte_escape append_raw.

(** The body's next character is not the quote, nor a line end. *)
Lemma body_continues s x t :
  steady (_buf s) -> ahead s = x :: t -> x <> c_nl -> x <> c_cr ->
  exists s', literal_body_continues s quote row col = inr (negb (byte_eqb x quote), s') /\
    steady (_buf s') /\ ahead s' = x :: t.
Proof.
  intros Hs Ha Hnl Hcr. unfold literal_body_continues. rewrite steady_ahead, Ha by done. simpl.
  destruct (source_peek s Hs) as (H1 & H2 & _ & H4). simpl in *. rewrite Ha in *.
  destruct (peek s) as [c s']. simpl in *. subst c. exists s'.
  assert (Hcode : forall a b : ascii, (code a =? code b) = byte_eqb a b).
  { intros a b. destruct (byte_eqb a b) eqn:E; reflect_bool; [subst; apply Z.eqb_refl|].
    apply Z.eqb_neq. intros Hc. by apply code_inj in Hc. }
  rewrite !Hcode, (proj2 (byte_eqb_neq x c_nl)), (proj2 (byte_eqb_neq x c_cr)) by done. done.
Qed.

Lemma body_raw acc w s x t :
  steady (_buf s) -> ahead s = x :: t -> x <> c_nl -> x <> c_cr -> x <> c_bslash -> x <> quote ->
  exists s', step (acc, w, s) = inl (acc ++ [x], w, s') /\ steady (_buf s') /\ ahead s' = t.
Proof.
  intros Hs Ha H1 H2 H3 H4. unfold step, literal_body.
  destruct (body_continues s x t Hs Ha H1 H2) as (s1 & -> & Hs1 & Ha1).
  rewrite (proj2 (byte_eqb_neq x quote)) by done. simpl.
  destruct (source_peek s1 Hs1) as (Hs2 & Ha2 & _ & Hc). simpl in *. rewrite Ha1 in *.
  destruct (peek s1) as [c s2]. simpl in *. subst c.
  destruct (code x =? code c_bslash) eqn:E; reflect_bool; [by apply code_inj in E|].
  destruct (source_get s2 x t Hs2 Ha2) as (Hc & Hs3 & Ha3 & _). simpl in *. unfold append_raw.
  destruct (get s2) as [c s3]. simpl in *. subst c. exists s3. by rewrite to_byte_code.
Qed.

Lemma body_escape acc w s e t esc t' :
  steady (_buf s) -> ahead s = c_bslash :: e :: t -> escape_spec e t 0xFF = inr (esc, false, t') ->
  exists s', step (acc, w, s) = inl (append_byte_escape acc esc, w, s') /\ steady (_buf s') /\ ahead s' = t'.
Proof.
  intros Hs Ha Hspec. unfold step, literal_body.
  destruct (body_continues s _ _ Hs Ha ltac:(done) ltac:(done)) as (s1 & -> & Hs1 & Ha1).
  replace (byte_eqb c_bslash quote) with false by (by destruct Hquote as [-> | ->]). simpl.
  destruct (source_peek s1 Hs1) as (Hs2 & Ha2 & _ & Hc). simpl in *. rewrite Ha1 in *.
  destruct (peek s1) as [c s2]. simpl in *. subst c. rewrite Z.eqb_refl.
  destruct (source_get s2 _ _ Hs2 Ha2) as (_ & Hs3 & Ha3 & _). simpl in *.
  destruct (get s2) as [c s3]. simpl in *. rewrite steady_ahead, Ha3 by done. simpl.
  destruct (source_get s3 _ _ Hs3 Ha3) as (Hc & Hs4 & Ha4 & _). simpl in *.
  destruct (get s3) as [c' s4]. simpl in *. subst c'. rewrite to_byte_code.
  pose proof (escape_reads (R := source) s4 e 0xFF Hs4 ltac:(lia)) as He. simpl in He. rewrite Ha4, Hspec in He.
  destruct (read_literal_escape s4 e 0xFF) as [[? ?]|[[esc' w'] s5]]; [done|].
  destruct He as (-> & -> & Hs5 & Ha5). by exists s5.
Qed.

(** The body over raw bytes. *)
Lemma body_raws xs acc w s t :
  steady (_buf s) -> ahead s = xs ++ t -> Forall (fun x => x <> c_nl /\ x <> c_cr /\ x <> c_bslash /\ x <> quote) xs ->
  exists s', nsteps (fun a b => step a = inl b) (length xs) (acc, w, s) (acc ++ xs, w, s') /\
    steady (_buf s') /\ ahead s' = t.
Proof.
  revert acc s. induction xs as [|x xs IH]; intros acc s Hs Ha Hf; simpl.
  { exists s. rewrite app_nil_r. split; [constructor|done]. }
  apply Forall_cons_1 in Hf as [(H1 & H2 & H3 & H4) Hf].
  destruct (body_raw acc w s x (xs ++ t) Hs Ha H1 H2 H3 H4) as (s1 & Hstep & Hs1 & Ha1).
  destruct (IH (acc ++ [x]) s1 Hs1 Ha1 Hf) as (s2 & Hn & Hs2 & Ha2). rewrite <- app_assoc in Hn.
  exists s2. split; [|done]. by eapply nsteps_l.
Qed.

Lemma octal_escape_reads c t :
  exists d1 d2 d3, octal_escape (code c) = [c_bslash; d1; d2; d3] /\
    escape_spec d1 (d2 :: d3 :: t) 0xFF = inr (Escape Octal (code c), false, t).
Proof. destruct c as [[] [] [] [] [] [] [] []]; do 3 eexists; split; reflexivity. Qed.

Lemma utf8_sequence_bytes s :
  (0 < utf8_sequence s)%nat -> 0x80 <= code (at_ s 0) ->
  (utf8_sequence s <= length s)%nat /\ Forall (fun c => 0x80 <= code c) (take (utf8_sequence s) s).
Proof.
  unfold utf8_sequence. destruct (utf8_lead _) as [[len lo] hi] eqn:El.
  assert (Hlo : len = 0%nat \/ 0x80 <= lo).
  { unfold utf8_lead in El. repeat case_if_in El; injection El as <- <- <-; auto; right; repeat case_if; lia. }
  clear El. destruct (_ || _) eqn:E1; [lia|]. destruct (forallb _ _) eqn:E2; [|lia].
  intros _ H0. reflect_bool. split; [lia|].
  apply Forall_lookup. intros i c Hi. apply lookup_take_Some in Hi as [Hi Hlt].
  destruct i as [|i]; [unfold at_ in H0; rewrite nth_lookup, Hi in H0; done|].
  rewrite forallb_forall in E2. specialize (E2 (S i) ltac:(apply in_seq; lia)).
  unfold at_ in E2. rewrite nth_lookup, Hi in E2. simpl in E2. destruct i; simpl in E2; reflect_bool; lia.
Qed.

(** The whole escaped body, in at most one step per byte. *)
Lemma body_escaped fuel body acc w s rest :
  (length body <= fuel)%nat -> steady (_buf s) -> ahead s = c_escape_fuel fuel quote body ++ rest ->
  exists n s', (n <= length (c_escape_fuel fuel quote body))%nat /\
    nsteps (fun a b => step a = inl b) n (acc, w, s) (acc ++ body, w, s') /\
    steady (_buf s') /\ ahead s' = rest.
Proof.
  revert body acc s. induction fuel as [|k IH]; intros body acc s Hf Hs Ha.
  { destruct body; simpl in *; [|lia]. exists O, s. rewrite app_nil_r. split_and!; try done. constructor. }
  destruct body as [|c r]; simpl in Hf.
  { exists O, s. rewrite app_nil_r. split_and!; try done. constructor. }
  (* one escape, then the rest *)
  assert (Hesc : forall e d1 used, (forall t, escape_spec d1 (used ++ t) 0xFF = inr (e, false, t)) ->
    append_byte_escape acc e = acc ++ [c] ->
    c_escape_fuel (S k) quote (c :: r) = c_bslash :: d1 :: used ++ c_escape_fuel k quote r ->
    exists n s', (n <= length (c_escape_fuel (S k) quote (c :: r)))%nat /\
      nsteps (fun a b => step a = inl b) n (acc, w, s) (acc ++ c :: r, w, s') /\ steady (_buf s') /\ ahead s' = rest).
  { intros e d1 used Hspec Happ Heq. rewrite Heq in *. simpl in Ha. rewrite <- app_assoc in Ha.
    destruct (body_escape acc w s d1 _ e _ Hs Ha (Hspec _)) as (s1 & Hstep & Hs1 & Ha1). rewrite Happ in Hstep.
    destruct (IH r (acc ++ [c]) s1 ltac:(lia) Hs1 Ha1) as (n & s2 & Hn & Hsteps & Hs2 & Ha2).
    rewrite <- app_assoc in Hsteps. exists (S n), s2. split_and!; try done; [|by eapply nsteps_l].
    simpl. rewrite length_app. lia. }
  (* raw bytes, then the rest *)
  assert (Hraw : forall xs r', c :: r = xs ++ r' -> (length r' <= k)%nat ->
    Forall (fun x => x <> c_nl /\ x <> c_cr /\ x <> c_bslash /\ x <> quote) xs ->
    c_escape_fuel (S k) quote (c :: r) = xs ++ c_escape_fuel k quote r' ->
    exists n s', (n <= length (c_escape_fuel (S k) quote (c :: r)))%nat /\
      nsteps (fun a b => step a = inl b) n (acc, w, s) (acc ++ c :: r, w, s') /\ steady (_buf s') /\ ahead s' = rest).
  { intros xs r' Hbody Hlen Hxs Heq. rewrite Heq in *. rewrite <- app_assoc in Ha.
    destruct (body_raws xs acc w s _ Hs Ha Hxs) as (s1 & Hsteps1 & Hs1 & Ha1).
    destruct (IH r' (acc ++ xs) s1 Hlen Hs1 Ha1) as (n & s2 & Hn & Hsteps & Hs2 & Ha2).
    rewrite <- app_assoc, <- Hbody in Hsteps. exists (length xs + n)%nat, s2.
    split_and!; try done; [rewrite length_app; lia|]. by eapply nsteps_trans. }
  cbn [c_escape_fuel] in Hesc, Hraw |- *.
  destruct (byte_eqb c quote || byte_eqb c c_bslash) eqn:E1.
  { apply (Hesc (Escape Simple (code c)) c []); [|unfold append_byte_escape; simpl; by rewrite to_byte_code|done].
    intros t. split_bool; subst c; [destruct Hquote as [-> | ->]|]; reflexivity. }
  destruct (byte_eqb c c_nl || byte_eqb c c_tab || byte_eqb c c_cr) eqn:E2.
  { destruct (byte_eqb c c_nl) eqn:En; [|destruct (byte_eqb c c_tab) eqn:Et; [|destruct (byte_eqb c c_cr) eqn:Er; [|done]]].
    - reflect_bool. subst c. apply (Hesc (Escape Simple 10) "n"%char []); reflexivity.
    - reflect_bool. subst c. apply (Hesc (Escape Simple 9) "t"%char []); reflexivity.
    - reflect_bool. subst c. apply (Hesc (Escape Simple 13) "r"%char []); reflexivity. }
  destruct ((32 <=? code c) && (code c <=? 126)) eqn:E3.
  { apply (Hraw [c] r); [done|lia| |done]. constructor; [|done]. reflect_bool. done. }
  destruct ((128 <=? code c) && (0 <? utf8_sequence (c :: r))%nat) eqn:E4.
  - reflect_bool. destruct (utf8_sequence_bytes (c :: r) ltac:(done) ltac:(done)) as [Hl Hhi].
    apply (Hraw (take (utf8_sequence (c :: r)) (c :: r)) (drop (utf8_sequence (c :: r)) (c :: r)));
      [by rewrite take_drop|rewrite length_drop; simpl in *; lia| |done].
    eapply Forall_impl; [exact Hhi|]. intros x Hx. simpl in Hx.
    assert (Hlow : forall y, code y < 128 -> x <> y) by (intros y Hy ->; lia).
    split_and!; apply Hlow; try done. by destruct Hquote as [-> | ->].
  - destruct (octal_escape_reads c []) as (d1 & d2 & d3 & Ho & _).
    apply (Hesc (Escape Octal (code c)) d1 [d2; d3]).
    + intros t. destruct (octal_escape_reads c t) as (e1 & e2 & e3 & Ho' & Hspec).
      rewrite Ho in Ho'. injection Ho' as <- <- <-. exact Hspec.
    + unfold append_byte_escape. simpl. by rewrite to_byte_code.
    + rewrite Ho. done.
Qed.

Lemma body_end acc w s rest :
  steady (_buf s) -> ahead s = quote :: rest ->
  exists s', step (acc, w, s) = inr (inr (acc, w, s')) /\ steady (_buf s') /\ ahead s' = quote :: rest.
Proof.
  intros Hs Ha. unfold step, literal_body.
  destruct (body_continues s quote rest Hs Ha) as (s1 & -> & Hs1 & Ha1); [by destruct Hquote as [-> | ->]..|].
  rewrite byte_eqb_refl. by exists s1.
Qed.

Lemma read_escaped_body body s rest :
  steady (_buf s) -> ahead s = c_escape quote body ++ quote :: rest ->
  exists s', read_quoted quote row col 0xFF append_byte_escape append_raw [] s = inr (body, O, s') /\
    steady (_buf s') /\ ahead s' = rest.
Proof.
  intros Hs Ha. destruct (body_escaped (length body) body [] 0 s (quote :: rest) ltac:(lia) Hs Ha)
    as (n & s1 & Hn & Hsteps & Hs1 & Ha1).
  destruct (body_end ([] ++ body) 0 s1 rest Hs1 Ha1) as (s2 & Hend & Hs2 & Ha2).
  unfold read_quoted. rewrite (loop_nsteps _ n _ _ _ _ Hsteps Hend).
  2:{ pose proof (unread_ahead s) as Hu. rewrite Ha, length_app in Hu. unfold c_escape in Hu. simpl in Hu. lia. }
  simpl. rewrite steady_ahead, Ha2 by done. simpl.
  destruct (source_get s2 quote rest Hs2 Ha2) as (_ & Hs3 & Ha3 & _). by exists (get s2).2.
Qed.
End BodyRoundTrip.


(** ** Integer literals *)

Inductive radix := Bin | Oct | Dec | Hexa.
Definition radix_base (x : radix) : Z := match x with Bin => 2 | Oct => 8 | Dec => 10 | Hexa => 16 end.
(** The digit test and the accumulation each loop of the tokenizer uses. *)
Definition radix_digit (x : radix) : Z -> bool :=
  match x with
  | Bin => fun c => (c =? 48) || (c =? 49)
  | Oct => fun c => (48 <=? c) && (c <=? 55)
  | Dec => isdigit_z
  | Hexa => isxdigit_z
  end.
Definition radix_accept (x : radix) : Z -> Z -> Z * bool :=
  match x with Bin => binary_accept | Oct => octal_accept | Dec => decimal_accept | Hexa => hex_accept end.

Lemma radix_digit_range x c :
  0 <= c < 256 -> radix_digit x c = true -> 0 <= hex_digit c < radix_base x /\
  (x <> Hexa -> Z.land c 15 = hex_digit c /\ c - 48 = hex_digit c).
Proof.
  intros Hc Hd.
  pose proof (Z_forall_below 256 (fun c => implb (radix_digit x c)
    ((0 <=? hex_digit c) && (hex_digit c <? radix_base x) &&
     match x with Hexa => true | _ => (Z.land c 15 =? hex_digit c) && (c - 48 =? hex_digit c) end))
    ltac:(by destruct x; vm_compute) c Hc) as H. simpl in H. rewrite Hd in H. simpl in H.
  destruct x; reflect_bool; split; try lia; intros; try done; lia.
Qed.

Lemma shiftr_zero v n : 0 <= n -> 0 <= v -> negb (Z.shiftr v n =? 0) = (2 ^ n <=? v).
Proof.
  intros Hn Hv. rewrite Z.shiftr_div_pow2 by done. pose proof (Z.pow_pos_nonneg 2 n ltac:(lia) Hn) as Hp.
  destruct (2 ^ n <=? v) eqn:E; reflect_bool.
  - apply negb_true_iff, Z.eqb_neq. pose proof (Z.div_le_mono (2 ^ n) v (2 ^ n) Hp E) as H.
    rewrite Z.div_same in H by lia. lia.
  - rewrite Z.div_small by lia. done.
Qed.

(** One digit: the value modulo [2 ^ 128], and whether it went past it. *)
Lemma radix_accept_spec x v c :
  0 <= v < 2 ^ 128 -> 0 <= c < 256 -> radix_digit x c = true ->
  radix_accept x v c = (u128 (v * radix_base x + hex_digit c), 2 ^ 128 <=? v * radix_base x + hex_digit c).
Proof.
  intros Hv Hc Hd. destruct (radix_digit_range x c Hc Hd) as [Hr Heq].
  assert (Hb : forall a b n, (a <= b <-> n <= v) -> (a <=? b) = (n <=? v)).
  { intros a b n Hiff. destruct (n <=? v) eqn:E; reflect_bool; [apply Z.leb_le|apply Z.leb_gt]; lia. }
  destruct x; simpl in *.
  - destruct (Heq ltac:(done)) as [_ Hc48]. unfold binary_accept. rewrite shiftr_zero, Z.shiftl_mul_pow2, Hc48 by lia.
    unfold u128. rewrite Zplus_mod_idemp_l. f_equal. symmetry. apply Hb. lia.
  - destruct (Heq ltac:(done)) as [Hl _]. unfold octal_accept. rewrite shiftr_zero, Hl by lia.
    f_equal. symmetry. apply Hb. lia.
  - destruct (Heq ltac:(done)) as [Hl _]. unfold decimal_accept. rewrite Hl.
    unfold u128. rewrite Zplus_mod_idemp_l. f_equal.
    replace dec_limit with 34028236692093846346337460743176821145 by (by vm_compute).
    destruct (2 ^ 128 <=? v * 10 + hex_digit c) eqn:E; reflect_bool.
    + apply orb_true_iff. destruct (34028236692093846346337460743176821145 <? v) eqn:E1; [by left|right].
      reflect_bool. apply andb_true_iff. split; [apply Z.eqb_eq; lia|apply Z.ltb_lt; lia].
    + apply orb_false_iff. split; [apply Z.ltb_ge; lia|].
      destruct (v =? _) eqn:E1; [|done]. simpl. reflect_bool. apply Z.ltb_ge. lia.
  - unfold hex_accept. rewrite shiftr_zero by lia. unfold u128. rewrite Zplus_mod_idemp_l. f_equal.
    2:{ symmetry. apply Hb. lia. }
    do 2 f_equal. unfold hex_digit, isxdigit_z, isdigit_z in *. repeat case_if; split_bool; lia.
Qed.

(** The stretch of digits and separators ahead, and its digits. *)
Definition literal_char (x : radix) (c : ascii) : bool := byte_eqb c c_squote || radix_digit x (code c).
Definition literal_digits (t : bytes) : bytes := List.filter (fun c => negb (byte_eqb c c_squote)) t.
Definition literal_value (x : radix) (v0 : Z) (ds : bytes) : Z :=
  base_value (radix_base x) (fun c => hex_digit (code c)) v0 ds.

Definition digits_inv (x : radix) (v0 : Z) (s0 : source) (st : Z * bool * bytes * source) : Prop :=
  let '(v, ovf, txt, s) := st in
  steady (_buf s) /\ exists used, ahead s0 = used ++ ahead s /\ Forall (fun c => literal_char x c = true) used /\
    txt = literal_digits used /\ 0 <= literal_value x v0 txt /\
    v = u128 (literal_value x v0 txt) /\ ovf = (2 ^ 128 <=? literal_value x v0 txt).

Lemma digits_step x v0 s0 st :
  digits_inv x v0 s0 st ->
  match digits_body (radix_digit x) (radix_accept x) st with
  | inl st' => digits_inv x v0 s0 st' /\ (unread st'.2 < unread st.2)%nat
  | inr st' => digits_inv x v0 s0 st' /\ match ahead st'.2 with c :: _ => literal_char x c = false | [] => True end
  end.
Proof.
  destruct st as [[[v ovf] txt] s]. intros Hinv. pose proof Hinv as (Hs & used & Ha & Hu & Htxt & Hnn & Hv & Hovf).
  unfold digits_body. rewrite steady_ahead by done. destruct (ahead s) as [|c t] eqn:Es; simpl.
  { split; [exact Hinv|by rewrite Es]. }
  destruct (source_peek s Hs) as (Hs1 & Ha1 & Hu1 & Hc). rewrite Es in *.
  destruct (peek s) as [z s1]. simpl in *. subst z.
  destruct (source_get s1 c t Hs1 Ha1) as (Hc2 & Hs2 & Ha2 & Hu2).
  assert (Hsep : is_digit_separator (code c) = byte_eqb c c_squote).
  { unfold is_digit_separator. destruct (byte_eqb c c_squote) eqn:E; reflect_bool; [by subst|].
    apply Z.eqb_neq. intros Hcode. by apply code_inj in Hcode. }
  assert (Hused : ahead s0 = (used ++ [c]) ++ ahead (get s1).2) by (by rewrite Ha2, Ha, <- app_assoc).
  rewrite Hsep. destruct (byte_eqb c c_squote) eqn:Eq.
  { split; [|simpl; lia]. split; [done|]. exists (used ++ [c]). split_and!; try done.
    - apply Forall_app_2; [done|]. constructor; [|done]. unfold literal_char. by rewrite Eq.
    - unfold literal_digits. rewrite List.filter_app. simpl. by rewrite Eq, app_nil_r. }
  destruct (radix_digit x (code c)) eqn:Ed; simpl.
  2:{ rewrite Ha1. unfold literal_char. rewrite Eq, Ed. split; [|done]. split; [done|]. by exists used. }
  destruct (get s1) as [z s2]. simpl in *. subst z. rewrite to_byte_code.
  pose proof (code_range c) as Hcr. destruct (radix_digit_range x (code c) Hcr Ed) as [Hdr _].
  rewrite Hv, radix_accept_spec by (done || apply Z.mod_pos_bound; lia). simpl. split; [|lia]. split; [done|].
  set (V := literal_value x v0 txt) in *.
  assert (HV : literal_value x v0 (txt ++ [c]) = V * radix_base x + hex_digit (code c)) by apply base_value_snoc.
  assert (Hbase : 2 <= radix_base x) by (by destruct x).
  exists (used ++ [c]). rewrite HV. split_and!; try done.
  - apply Forall_app_2; [done|]. constructor; [|done]. unfold literal_char. by rewrite Ed, orb_true_r.
  - unfold literal_digits. rewrite List.filter_app. simpl. rewrite Eq. simpl. by rewrite Htxt.
  - nia.
  - unfold u128. by rewrite <- Zplus_mod_idemp_l, Zmult_mod_idemp_l, Zplus_mod_idemp_l.
  - rewrite Hovf. destruct (2 ^ 128 <=? V) eqn:EV; reflect_bool; simpl.
    + symmetry. apply Z.leb_le. nia.
    + unfold u128. by rewrite Z.mod_small by lia.
Qed.

(** Integer literals of every radix: the digits read are the maximal stretch
    of digits and separators, the value is theirs modulo [2 ^ 128], and the
    overflow flag is raised exactly when the exact value does not fit 128 bits. *)
Theorem integer_literal_value x v0 s :
  steady (_buf s) -> 0 <= v0 < 2 ^ 128 ->
  let used := take (run_length (literal_char x) (ahead s)) (ahead s) in
  let V := literal_value x v0 (literal_digits used) in
  exists s', read_digits (radix_digit x) (radix_accept x) v0 s
      = (V mod 2 ^ 128, 2 ^ 128 <=? V, literal_digits used, s') /\
    ahead s' = drop (length used) (ahead s).
Proof.
  intros Hs Hv0. unfold read_digits.
  destruct (loop_total (digits_inv x v0 s)
    (fun st => digits_inv x v0 s st /\ match ahead st.2 with c :: _ => literal_char x c = false | [] => True end)
    (fun st => unread st.2) (digits_body (radix_digit x) (radix_accept x)) (digits_step x v0 s))
    with (fuel := S (unread s)) (s := (v0, false, @nil ascii, s)) as ([[[v ovf] txt] s'] & -> & Hinv & Hend).
  - split; [done|]. exists []. unfold literal_value, base_value, u128. simpl.
    split_and!; try done; [lia|by rewrite Z.mod_small|]. symmetry. apply Z.leb_gt. lia.
  - simpl. lia.
  - destruct Hinv as (_ & used & Ha & Hu & -> & _ & -> & ->). simpl in *.
    rewrite Ha, (run_of_prefix _ used) by done. cbv zeta. rewrite take_app_length.
    exists s'. split; [done|]. by rewrite drop_app_length.
Qed.

Lemma base256_app v l m :
  base_value 256 code v (l ++ m) = base_value 256 code (base_value 256 code v l) m.
Proof. unfold base_value. by rewrite fold_left_app. Qed.

Lemma base256_scale v l : base_value 256 code v l = v * 256 ^ Z.of_nat (length l) + base_value 256 code 0 l.
Proof.
  induction l as [|c l IH] using rev_ind; [unfold base_value; simpl; lia|].
  rewrite !base_value_snoc, IH, length_app. simpl. rewrite Nat2Z.inj_add, Z.pow_add_r by lia.
  change (256 ^ Z.of_nat 1) with 256. lia.
Qed.

Lemma base256_range l : 0 <= base_value 256 code 0 l < 256 ^ Z.of_nat (length l).
Proof.
  induction l as [|c l IH] using rev_ind; [unfold base_value; simpl; lia|].
  rewrite base_value_snoc, length_app. simpl. rewrite Nat2Z.inj_add, Z.pow_add_r by lia.
  change (256 ^ Z.of_nat 1) with 256. pose proof (code_range c). lia.
Qed.

Lemma char_fold bs :
  fold_left (fun v b => Z.lor (u32 (Z.shiftl v 8)) (code b)) bs 0 = u32 (base_value 256 code 0 bs).
Proof.
  induction bs as [|c bs IH] using rev_ind; [done|].
  rewrite fold_left_app. simpl. rewrite IH, base_value_snoc. set (V := base_value 256 code 0 bs). unfold u32.
  rewrite Z.shiftl_mul_pow2 by lia. pose proof (code_range c) as Hc.
  assert (Hm : (V mod 2 ^ 32 * 2 ^ 8) mod 2 ^ 32 = (V mod 2 ^ 24) * 2 ^ 8).
  { rewrite Zmult_mod_idemp_l. change (2 ^ 32) with (2 ^ 24 * 2 ^ 8). rewrite Z.mul_mod_distr_r by lia. done. }
  rewrite Hm, (Z_lor_add _ _ 8) by lia. apply (Z.mod_unique_pos _ _ (V / 2 ^ 24)).
  - pose proof (Z.mod_pos_bound V (2 ^ 24) ltac:(lia)). lia.
  - pose proof (Z.div_mod V (2 ^ 24) ltac:(lia)). lia.
Qed.

Lemma char_last_four bs : u32 (base_value 256 code 0 bs) = base_value 256 code 0 (drop (length bs - 4) bs).
Proof.
  rewrite <- (take_drop (length bs - 4) bs) at 1. rewrite base256_app, base256_scale, length_drop.
  set (low := base_value 256 code 0 (drop (length bs - 4) bs)).
  assert (Hlow : 0 <= low < 2 ^ 32).
  { pose proof (base256_range (drop (length bs - 4) bs)) as H. fold low in H. rewrite length_drop in H.
    assert (256 ^ Z.of_nat (length bs - (length bs - 4)) <= 256 ^ 4) by (apply Z.pow_le_mono_r; lia). lia. }
  unfold u32. destruct (Nat.le_gt_cases 4 (length bs)) as [Hl|Hl].
  - replace (length bs - (length bs - 4))%nat with 4%nat by lia. change (256 ^ Z.of_nat 4) with (2 ^ 32).
    rewrite Z.add_comm, Z.mod_add by lia. by apply Z.mod_small.
  - replace (length bs - 4)%nat with O by lia. rewrite take_0. unfold base_value at 1. simpl fold_left.
    rewrite Z.mul_0_l, Z.add_0_l. by apply Z.mod_small.
Qed.

(** A narrow character constant's value: one byte sign-extends as the plain
    char type does, several are big-endian with the last four surviving (and a
    warning), none is an error. *)
Theorem char_constant_value char_unsigned bs :
  narrow_char_constant_value char_unsigned bs =
  match bs with
  | [] => inl (B "empty character constant")
  | [c] => inr (if char_unsigned then code c else if 128 <=? code c then code c - 256 else code c, None)
  | _ => inr (i32 (base_value 256 code 0 (drop (length bs - 4) bs)),
              Some (if (4 <? length bs)%nat then too_long else multi_character))
  end.
Proof.
  destruct bs as [|c [|d r]]; [done| |].
  - unfold narrow_char_constant_value. cbn [length Nat.eqb]. rewrite char_fold, char_last_four. simpl drop.
    unfold base_value. simpl fold_left. pose proof (code_range c) as Hc. rewrite Z.mul_0_l, Z.add_0_l. f_equal. f_equal.
    destruct char_unsigned; [rewrite Z.mod_small by lia; unfold i32; rewrite Z.mod_small; lia|].
    unfold i8. destruct (128 <=? code c) eqn:E; reflect_bool.
    + rewrite <- (Z.mod_unique_pos (code c + 2 ^ 7) (2 ^ 8) 1 (code c - 128)); lia.
    + rewrite Z.mod_small; lia.
  - unfold narrow_char_constant_value. rewrite char_fold, char_last_four. done.
Qed.

(** ** Witnesses *)

Definition plain_source (t : bytes) : source := str source_new t.

(** A text without backslashes before a line end is steady. *)
Lemma steady_no_splice b : (forall i, (i < length b)%nat -> splice_len (drop i b) = O) -> steady b.
Proof.
  intros H i k Hk. destruct (Nat.lt_ge_cases i (length b)) as [Hl|Hl].
  - unfold k in Hk. rewrite H in Hk by done. lia.
  - unfold k in Hk. rewrite drop_ge in Hk by done. simpl in Hk. lia.
Qed.
Definition no_splice (b : bytes) : bool := forallb (fun i => (splice_len (drop i b) =? 0)%nat) (seq 0 (length b)).
Lemma no_splice_steady b : no_splice b = true -> steady b.
Proof.
  intros H. apply steady_no_splice. intros i Hi. unfold no_splice in H. rewrite forallb_forall in H.
  apply Nat.eqb_eq, H, in_seq. lia.
Qed.

Definition ex_escape : CapturedTextReader := Captured (B "1Fz") 0.
Lemma escape_witness :
  match read_literal_escape ex_escape "x"%char 0xFF with
  | inr (e, w, r') => e = Escape Hex 31 /\ w = false /\ rd_ahead r' = B "z"
  | inl _ => False
  end.
Proof.
  pose proof (escape_reader_implements_spec CapturedTextReader captured_reader captured_laws ex_escape "x"%char 0xFF I
    ltac:(lia)) as H.
  destruct (read_literal_escape ex_escape "x"%char 0xFF) as [[m r]|[[e w] r]] eqn:E; [discriminate E|].
  destruct H as (H1 & H2 & _ & H4). repeat split; [exact H1|exact H2|exact H4].
Defined.

Definition ex_body : bytes := [to_byte 200; c_nl; c_dquote; to_byte 0xC3; to_byte 0xA9; Ascii.zero].
Definition ex_string : source := plain_source (madc_c_escape_string ex_body ++ c_dquote :: B " + 1").

Lemma integer_witness :
  exists s', read_digits (radix_digit Dec) (radix_accept Dec) 3 (plain_source (B "40282366920938463463374607431768211456;"))
    = (0, true, B "40282366920938463463374607431768211456", s') /\ ahead s' = B ";".
Proof.
  destruct (integer_literal_value Dec 3 (plain_source (B "40282366920938463463374607431768211456;"))) as (s' & H1 & H2).
  - apply no_splice_steady. vm_compute. reflexivity.
  - lia.
  - exists s'. split; [rewrite H1; vm_compute; reflexivity|rewrite H2; vm_compute; reflexivity].
Defined.
