(* ===== verification/IfEval.v ===== *)
(** The condition of an [#if] or [#elif]: [read_if_condition_text] and
    [evaluate_if_text] of [src/lexer.cpp].

    The evaluator is a recursive descent over the condition's text; what it
    asks of the macro tables is the interface [IfMacros].  The values are
    [int64_t]; where C++ leaves an operation undefined (signed overflow, a shift
    out of range) the outcome is [Undef].  The recursion is on fuel, and
    [condition_evaluates] shows the text's length is enough. *)
From S2P Require Import Prelude Source Literals.
#[local] Open Scope Z_scope.

(** ** What the evaluator asks of the macro tables *)

Class IfMacros := {
  expandIfMacros : bytes -> bytes;
  macro_name_defined : bytes -> bool;
  define_find : bytes -> option bytes;		(** [define_map.find] *)
  macro_count : bytes -> bool;			(** [macro_map.count(word) > 0] *)
  evaluateHasQuery : bytes -> bytes -> nat -> Z * nat;
  char_is_unsigned : bool			(** [ddCHAR.is_unsigned()] *)
}.

(** An operator never moves the position back. *)
Class IfMacrosLaws `{IfMacros} := {
  has_query_forward : forall op expr pos, (pos <= (evaluateHasQuery op expr pos).2)%nat
}.

(** ** Outcomes *)

(** [Fuel] stands for no behaviour of the program. *)
Inductive outcome :=
| Fuel
| Undef
| Throw (message : bytes)
| Val (v : Z) (pos : nat) (warnings : nat).

Definition bind (o : outcome) (f : Z -> nat -> nat -> outcome) : outcome :=
  match o with Val v pos w => f v pos w | o => o end.
Notation "'let!' ( v , pos , w ) := o 'in' k" := (bind o (fun v pos w => k))
  (at level 10, v name, pos name, w name, o at level 100, k at level 200).

Definition fits (v : Z) : bool := (- 2 ^ 63 <=? v) && (v <? 2 ^ 63).
Definition checked (v : Z) : option Z := if fits v then Some v else None.
(** [v << r]: in C++11 a result that fits [uint64_t] is converted back. *)
Definition shifted (v r : Z) : option Z :=
  if (0 <=? r) && (r <? 64) && (0 <=? v) && (Z.shiftl v r <? 2 ^ 64) then Some (i64 (Z.shiftl v r)) else None.

(** ** Character constants of the condition *)

Definition escape_at (expr : bytes) (pos : nat) (wide : bool) : (bytes + (LiteralEscape * bool * nat)) :=
  let '(esc, r) := rd_get (Captured expr pos) in
  match read_literal_escape r (to_byte esc) (if wide then 0xFFFFFFFF else 0xFF) with
  | inl (m, _) => inl m
  | inr (e, warned, r) => inr (e, warned, ct_pos r)
  end.

Definition in_text (expr : bytes) (pos : nat) (c : ascii) : bool :=
  (pos <? length expr)%nat && byte_eqb (at_ expr pos) c.

(** The loop over the constant's characters: the last value, the bytes. *)
Definition char_body (expr : bytes) (wide : bool) (st : Z * bytes * nat * nat)
    : Z * bytes * nat * nat + (bytes + Z * bytes * nat * nat) :=
  let '(value_, bs, pos, w) := st in
  if negb (pos <? length expr)%nat || byte_eqb (at_ expr pos) c_squote then inr (inr (value_, bs, pos, w))
  else if byte_eqb (at_ expr pos) c_bslash && (pos + 1 <? length expr)%nat then
    match escape_at expr (pos + 1) wide with
    | inl m => inr (inl m)
    | inr (e, warned, pos) => inl (value e, append_byte_escape bs e, pos, if warned : bool then S w else w)
    end
  else inl (code (at_ expr pos), bs ++ [at_ expr pos], (pos + 1)%nat, w).

Section Evaluator.
Context `{IfMacros} (expr : bytes).

Definition read_char_constant (wide : bool) (pos w : nat) : outcome :=
  let pos := if wide then (pos + 1)%nat else pos in
  if negb (in_text expr pos c_squote) then Val 0 pos w
  else
    match loop (S (length expr)) (char_body expr wide) (0, [], (pos + 1)%nat, w) with
    | None => Fuel
    | Some (inl m) => Throw m
    | Some (inr (value_, bs, pos, w)) =>
        let pos := if in_text expr pos c_squote then (pos + 1)%nat else pos in
        if wide then Val value_ pos w
        else match narrow_char_constant_value char_is_unsigned bs with
             | inl m => Throw m
             | inr (v, warn) => Val v pos (match warn with Some _ => S w | None => w end)
             end
    end.

(** ** Primaries *)

Definition skip_ws (pos : nat) : nat := (pos + blank_run (drop pos expr))%nat.

Definition suffix_char (c : ascii) : bool := existsb (byte_eqb c) (B "uUlL").
Definition word_char (c : ascii) : bool := isalnum c || byte_eqb c "_"%char.

(** Digits, accumulated in [int64_t]: [val *= 10] or [val <<= 4], then the digit. *)
Definition digit_step (base v d : Z) : option Z :=
  if base =? 16 then v ← shifted v 4; checked (v + d) else checked (v * base + d).
Fixpoint number (base : Z) (ds : bytes) (v : Z) : option Z :=
  match ds with
  | [] => Some v
  | c :: r => match digit_step base v (hex_digit (code c)) with Some v => number base r v | None => None end
  end.

Definition number_at (base : Z) (digit : ascii -> bool) (pos w : nat) : outcome :=
  let n := run_length digit (drop pos expr) in
  match number base (substr expr pos n) 0 with
  | None => Undef
  | Some v => Val v (pos + n + run_length suffix_char (drop (pos + n) expr))%nat w
  end.

(** [strtoll(s, NULL, 0)] of a macro's text. *)
Definition clamp (v : Z) : Z := Z.max (- 2 ^ 63) (Z.min (2 ^ 63 - 1) v).
Fixpoint skip_spaces (s : bytes) : bytes :=
  match s with [] => [] | c :: r => if isspace c then skip_spaces r else s end.
Definition strtoll0 (s : bytes) : Z :=
  let s := skip_spaces s in
  let '(neg, s) :=
    match s with
    | c :: r => if byte_eqb c "-"%char then (true, r) else if byte_eqb c "+"%char then (false, r) else (false, s)
    | [] => (false, s)
    end in
  let '(base, digit, s) :=
    if byte_eqb (at_ s 0) "0"%char then
      if (byte_eqb (at_ s 1) "x"%char || byte_eqb (at_ s 1) "X"%char) && isxdigit (at_ s 2) then (16, isxdigit, drop 2 s)
      else (8, is_octal, s)
    else (10, isdigit, s) in
  let v := base_value base (fun c => hex_digit (code c)) 0 (take (run_length digit s) s) in
  clamp (if neg : bool then - v else v).

(** The [defined] operator, from after the word. *)
Definition defined_at (pos w : nat) : outcome :=
  let pos := skip_ws pos in
  let has_paren := in_text expr pos "("%char in
  let pos := if has_paren then skip_ws (pos + 1)%nat else pos in
  let n := run_length word_char (drop pos expr) in
  let name := substr expr pos n in
  let pos := skip_ws (pos + n)%nat in
  let pos := if has_paren && in_text expr pos ")"%char then (pos + 1)%nat else pos in
  Val (if macro_name_defined name then 1 else 0) pos w.

Definition word_at (pos w : nat) : outcome :=
  let n := run_length word_char (drop pos expr) in
  let word := substr expr pos n in
  let pos := (pos + n)%nat in
  if bytes_eqb word (B "defined") then defined_at pos w
  else if starts_with word (B "__has_") then
    let '(v, pos) := evaluateHasQuery word expr pos in Val v pos w
  else
    match define_find word with
    | Some [] => Val 1 pos w
    | Some text => Val (strtoll0 text) pos w
    | None => Val (if macro_count word then 1 else 0) pos w
    end.

Section Recursion.
Variable parse_cond : nat -> nat -> outcome.

Definition parse_primary (pos w : nat) : outcome :=
  let pos := skip_ws pos in
  if negb (pos <? length expr)%nat then Val 0 pos w
  else
    let c := at_ expr pos in
    let c1 := at_ expr (pos + 1) in
    let next := (pos + 1 <? length expr)%nat in
    if byte_eqb c "("%char then
      let! (v, pos, w) := parse_cond (pos + 1)%nat w in
      let pos := skip_ws pos in
      Val v (if in_text expr pos ")"%char then pos + 1 else pos)%nat w
    else if next && byte_eqb c "L"%char && byte_eqb c1 c_squote then read_char_constant true pos w
    else if byte_eqb c c_squote then read_char_constant false pos w
    else if next && byte_eqb c "0"%char && (byte_eqb c1 "x"%char || byte_eqb c1 "X"%char) then
      number_at 16 isxdigit (pos + 2)%nat w
    else if isdigit c then number_at 10 isdigit pos w
    else if isalpha c || byte_eqb c "_"%char then word_at pos w
    else Val 0 (pos + 1)%nat w.

(** [n] bounds the depth of unary operators. *)
Fixpoint parse_unary_fuel (n : nat) (pos w : nat) : outcome :=
  match n with
  | O => Fuel
  | S k =>
      let pos := skip_ws pos in
      if in_text expr pos "!"%char then
        let! (v, pos, w) := parse_unary_fuel k (pos + 1)%nat w in Val (if v =? 0 then 1 else 0) pos w
      else if in_text expr pos "~"%char then
        let! (v, pos, w) := parse_unary_fuel k (pos + 1)%nat w in Val (Z.lnot v) pos w
      else if in_text expr pos "-"%char && (pos + 1 <? length expr)%nat
              && (let d := at_ expr (pos + 1) in isdigit d || byte_eqb d "("%char || isalpha d) then
        let! (v, pos, w) := parse_unary_fuel k (pos + 1)%nat w in
        match checked (- v) with Some v => Val v pos w | None => Undef end
      else parse_primary pos w
  end.
Definition parse_unary : nat -> nat -> outcome := parse_unary_fuel (S (length expr)).

(** ** The binary tiers *)

(** A tier's operator at a position: its length and its effect. *)
Definition operator : Type := nat -> option (nat * (Z -> Z -> option Z)).

(** The loop each tier runs: [op] at the position, then the right operand by
    [rhs], left to right. *)
Fixpoint tier_loop (n : nat) (op : operator) (rhs : nat -> nat -> outcome) (v : Z) (pos w : nat) : outcome :=
  match n with
  | O => Fuel
  | S k =>
      let pos := skip_ws pos in
      match op pos with
      | None => Val v pos w
      | Some (len, f) =>
          let! (r, pos, w) := rhs (pos + len)%nat w in
          match f v r with Some v => tier_loop k op rhs v pos w | None => Undef end
      end
  end.
Definition tier (op : operator) (first rhs : nat -> nat -> outcome) (pos w : nat) : outcome :=
  let! (v, pos, w) := first pos w in tier_loop (S (length expr)) op rhs v pos w.

Definition one (pos : nat) (c : ascii) : bool := in_text expr pos c.
Definition two (pos : nat) (c d : ascii) : bool :=
  (pos + 1 <? length expr)%nat && byte_eqb (at_ expr pos) c && byte_eqb (at_ expr (pos + 1)) d.
(** The character stands alone: another does not follow it. *)
Definition alone (pos : nat) (c : ascii) : bool :=
  in_text expr pos c && ((length expr <=? pos + 1)%nat || negb (byte_eqb (at_ expr (pos + 1)) c)).
Definition flag (b : bool) : option Z := Some (if b then 1 else 0).

(** [/] and [%]: by zero is 0; [INT64_MIN] by [-1] is undefined. *)
Definition divide (v r : Z) : option Z := if r =? 0 then Some 0 else checked (Z.quot v r).
Definition modulo (v r : Z) : option Z :=
  if r =? 0 then Some 0 else if fits (Z.quot v r) then Some (Z.rem v r) else None.
Definition shift_left (v r : Z) : option Z := shifted v r.
Definition shift_right (v r : Z) : option Z := if (0 <=? r) && (r <? 64) then Some (Z.shiftr v r) else None.

Definition mul_op : operator := fun pos =>
  if one pos "*"%char then Some (1%nat, fun v r => checked (v * r))
  else if one pos "/"%char then Some (1%nat, divide)
  else if one pos "%"%char then Some (1%nat, modulo) else None.
Definition add_op : operator := fun pos =>
  if one pos "+"%char then Some (1%nat, fun v r => checked (v + r))
  else if one pos "-"%char then Some (1%nat, fun v r => checked (v - r)) else None.
Definition shift_op : operator := fun pos =>
  if two pos "<"%char "<"%char then Some (2%nat, shift_left)
  else if two pos ">"%char ">"%char then Some (2%nat, shift_right) else None.
Definition cmp_op : operator := fun pos =>
  if two pos "="%char "="%char then Some (2%nat, fun v r => flag (v =? r))
  else if two pos "!"%char "="%char then Some (2%nat, fun v r => flag (negb (v =? r)))
  else if two pos "<"%char "="%char then Some (2%nat, fun v r => flag (v <=? r))
  else if two pos ">"%char "="%char then Some (2%nat, fun v r => flag (r <=? v))
  else if alone pos "<"%char then Some (1%nat, fun v r => flag (v <? r))
  else if alone pos ">"%char then Some (1%nat, fun v r => flag (r <? v)) else None.
Definition bitand_op : operator := fun pos =>
  if alone pos "&"%char then Some (1%nat, fun v r => Some (Z.land v r)) else None.
Definition bitxor_op : operator := fun pos =>
  if one pos "^"%char then Some (1%nat, fun v r => Some (Z.lxor v r)) else None.
Definition bitor_op : operator := fun pos =>
  if alone pos "|"%char then Some (1%nat, fun v r => Some (Z.lor v r)) else None.
Definition and_op : operator := fun pos =>
  if two pos "&"%char "&"%char then Some (2%nat, fun v r => flag (negb (v =? 0) && negb (r =? 0))) else None.
Definition or_op : operator := fun pos =>
  if two pos "|"%char "|"%char then Some (2%nat, fun v r => flag (negb (v =? 0) || negb (r =? 0))) else None.

Definition parse_multiplicative := tier mul_op parse_unary parse_unary.
Definition parse_additive := tier add_op parse_multiplicative parse_multiplicative.
Definition parse_shift := tier shift_op parse_additive parse_unary.
Definition parse_comparison := tier cmp_op parse_shift parse_shift.
Definition parse_bitand := tier bitand_op parse_comparison parse_comparison.
Definition parse_bitxor := tier bitxor_op parse_bitand parse_bitand.
Definition parse_bitor := tier bitor_op parse_bitxor parse_bitxor.
Definition parse_and := tier and_op parse_bitor parse_bitor.
Definition parse_or := tier or_op parse_and parse_and.
End Recursion.

Fixpoint parse_cond (fuel : nat) (pos w : nat) : outcome :=
  match fuel with
  | O => Fuel
  | S k =>
      let! (cond, pos, w) := parse_or (parse_cond k) pos w in
      let pos := skip_ws pos in
      if in_text expr pos "?"%char then
        let! (then_v, pos, w) := parse_cond k (pos + 1)%nat w in
        let pos := skip_ws pos in
        let pos := if in_text expr pos ":"%char then (pos + 1)%nat else pos in
        let! (else_v, pos, w) := parse_cond k pos w in
        Val (if cond =? 0 then else_v else then_v) pos w
      else Val cond pos w
  end.
End Evaluator.

(** [evaluate_if_text]: the verdict, or what stopped it. *)
Inductive verdict := no_verdict | undefined | refused (message : bytes) | decided (taken : bool) (warnings : nat).
Definition evaluate_if_text `{IfMacros} (raw_expr : bytes) : verdict :=
  let expr := expandIfMacros raw_expr in
  match parse_cond expr (S (S (length expr))) 0 0 with
  | Fuel => no_verdict
  | Undef => undefined
  | Throw m => refused m
  | Val v _ w => decided (negb (v =? 0)) w
  end.

(** ** Evaluation ends *)

(** The outcome is a behaviour, and what it read lies ahead of [pos]. *)
Definition forward (pos : nat) (o : outcome) : Prop :=
  match o with Fuel => False | Val _ p _ => (pos <= p)%nat | _ => True end.

Lemma bind_forward pos pos' o f :
  forward pos o -> (forall v p w, (pos <= p)%nat -> forward pos' (f v p w)) -> forward pos' (bind o f).
Proof. destruct o; simpl; auto. Qed.

Lemma forward_le pos pos' o : (pos' <= pos)%nat -> forward pos o -> forward pos' o.
Proof. destruct o; simpl; auto. lia. Qed.

(** A captured text is only read forward. *)
Lemma captured_next p (r : CapturedTextReader) : (next_is p r).2 = r.
Proof. unfold next_is. destruct (rd_good r); [|done]. by destruct r. Qed.

Lemma captured_escape_forward (r : CapturedTextReader) esc um e w r' :
  read_literal_escape r esc um = inr (e, w, r') -> (ct_pos r <= ct_pos r')%nat.
Proof.
  destruct (byte_eqb esc "x"%char || (byte_eqb esc "u"%char || byte_eqb esc "U"%char) || is_octal esc) eqn:Eb.
  2:{ destruct (read_escape_simple r esc um Eb) as (e0 & w0 & -> & _). by intros [= <- <- <-]. }
  destruct (byte_eqb esc "x"%char) eqn:Ex.
  { apply byte_eqb_eq in Ex as ->. rewrite read_escape_hex.
    destruct (loop _ (hex_body um) _) as [[[[val dig] over] r1]|] eqn:El; simpl; [|done].
    apply (loop_inv (fun st => (ct_pos r <= ct_pos st.2)%nat) (fun st => (ct_pos r <= ct_pos st.2)%nat)) in El;
      [|intros [[[v d] o] r2]|done].
    - intros Heq. repeat case_if_in Heq; try discriminate Heq. by injection Heq as _ _ <-.
    - intros Hle. unfold hex_body. pose proof (captured_next (fun c => 0 <=? hex_digit c) r2) as Hn.
      destruct (next_is _ r2) as [more r3]. simpl in Hn. subst r3. destruct more; [simpl in *; lia|done]. }
  destruct (byte_eqb esc "u"%char || byte_eqb esc "U"%char) eqn:Eu.
  { rewrite (read_escape_ucn r esc um Eu). generalize (if byte_eqb esc "u"%char then 4%nat else 8%nat) as need. intros need.
    assert (H : forall need v (r0 : CapturedTextReader), match ucn_digits need v r0 with inl _ => True | inr (_, r2) => (ct_pos r0 <= ct_pos r2)%nat end).
    { clear. induction need as [|k IH]; intros v r0; cbn [ucn_digits]; [done|].
      pose proof (captured_next (fun c => 0 <=? hex_digit c) r0) as Hn.
      destruct (next_is _ r0) as [more r1]. simpl in Hn. subst r1. destruct more; [|done]. simpl.
      match goal with |- context [ucn_digits k ?v ?r1] => specialize (IH v r1) end.
      destruct (ucn_digits k _ _) as [|[v2 r2]]; [done|]. simpl in IH. lia. }
    specialize (H need 0 r). destruct (ucn_digits need 0 r) as [|[v r2]]; [done|]. by intros [= _ _ <-]. }
  simpl in Eb. rewrite (read_escape_octal r esc um Eb).
  assert (H : forall n v (r0 : CapturedTextReader), (ct_pos r0 <= ct_pos (octal_digits n v r0).2)%nat).
  { clear. induction n as [|k IH]; intros v r0; cbn [octal_digits]; [done|].
    pose proof (captured_next (fun c => (48 <=? c) && (c <=? 55)) r0) as Hn.
    destruct (next_is _ r0) as [more r1]. simpl in Hn. subst r1. destruct more; [|done]. simpl.
    match goal with |- context [octal_digits k ?v ?r1] => specialize (IH v r1) end. simpl in IH. lia. }
  specialize (H 2%nat (code esc - 48) r). destruct (octal_digits 2 _ r) as [v r2].
  case_if; [done|]. by intros [= _ _ <-].
Qed.

Section Termination.
Context `{HL : IfMacrosLaws} (expr : bytes).

Lemma skip_ws_le pos : (pos <= skip_ws expr pos)%nat.
Proof. unfold skip_ws. lia. Qed.

Lemma in_text_lt pos c : in_text expr pos c = true -> (pos < length expr)%nat.
Proof. unfold in_text. intros H0. reflect_bool. done. Qed.

Lemma char_loop wide v bs pos w :
  exists out, loop (S (length expr)) (char_body expr wide) (v, bs, pos, w) = Some out /\
    match out with inl _ => True | inr (_, _, pos', _) => (pos <= pos')%nat end.
Proof.
  destruct (loop_total (fun st : Z * bytes * nat * nat => (pos <= st.1.2)%nat)
    (fun out => match out with inl _ => True | inr (_, _, pos', _) => (pos <= pos')%nat end)
    (fun st => length expr - st.1.2)%nat (char_body expr wide))
    with (fuel := S (length expr)) (s := (v, bs, pos, w)) as (out & Ho & Hout);
    [|simpl; lia|simpl; lia|by exists out].
  intros [[[v0 bs0] p0] w0]. simpl. intros Hp. unfold char_body.
  destruct (_ || _) eqn:E; [done|]. reflect_bool.
  destruct (_ && _) eqn:E2; [|simpl; lia].
  unfold escape_at. destruct (rd_get _) as [esc r] eqn:Er.
  assert (Hr : ct_pos r = (p0 + 1 + 1)%nat) by (simpl in Er; by injection Er as _ <-).
  destruct (read_literal_escape r _ _) as [[m ?]|[[e warned] r']] eqn:Ee; [done|].
  apply captured_escape_forward in Ee. rewrite Hr in Ee. simpl. lia.
Qed.

Lemma char_constant_forward wide pos w : forward pos (read_char_constant expr wide pos w).
Proof.
  unfold read_char_constant. set (pos1 := if wide then (pos + 1)%nat else pos).
  assert (Hp1 : (pos <= pos1)%nat) by (unfold pos1; destruct wide; lia).
  destruct (negb _); [done|].
  destruct (char_loop wide 0 [] (pos1 + 1) w) as (out & -> & Hout).
  destruct out as [m|[[[v bs] p] w']]; [done|].
  destruct wide; [simpl; case_if; lia|].
  destruct (narrow_char_constant_value _ _) as [m|[v' warn]]; simpl; [done|case_if; lia].
Qed.

Lemma word_forward pos w : forward pos (word_at expr pos w).
Proof.
  unfold word_at. case_if.
  - unfold defined_at. simpl.
    match goal with |- context [skip_ws expr ?p] => pose proof (skip_ws_le p) end.
    match goal with |- (pos <= if _ then ?a + 1 else _)%nat => assert (pos <= a)%nat end; [|case_if; lia].
    etransitivity; [|apply skip_ws_le]. etransitivity; [|apply Nat.le_add_r]. case_if; [|lia].
    etransitivity; [|apply skip_ws_le]. lia.
  - case_if.
    + match goal with |- context [evaluateHasQuery ?a ?b ?c] => pose proof (has_query_forward a b c) as Hq;
        destruct (evaluateHasQuery a b c) as [v p] end. simpl in *. lia.
    + destruct (define_find _) as [[|c r]|]; simpl; lia.
Qed.

Section Step.
Variable pc : nat -> nat -> outcome.
(** What the recursive calls promise, from positions past [from]. *)
Variable from : nat.
Hypothesis Hpc : (from < length expr)%nat -> forall p w, (from < p)%nat -> forward p (pc p w).

Lemma primary_forward pos w : (from <= pos)%nat -> forward pos (parse_primary expr pc pos w).
Proof.
  intros Hpos. unfold parse_primary. pose proof (skip_ws_le pos) as Hw. set (p := skip_ws expr pos) in *. clearbody p.
  apply (forward_le p); [done|]. destruct (negb _) eqn:El; [simpl; lia|]. reflect_bool.
  case_if.
  - apply (bind_forward (p + 1)); [apply Hpc; lia|]. intros v q w' Hq. pose proof (skip_ws_le q). simpl. case_if; lia.
  - case_if; [apply char_constant_forward|]. case_if; [apply char_constant_forward|].
    case_if; [unfold number_at; destruct (number _ _ _); simpl; [lia|done]|].
    case_if; [unfold number_at; destruct (number _ _ _); simpl; [lia|done]|].
    case_if; [apply word_forward|simpl; lia].
Qed.

Lemma unary_forward n pos w :
  (from <= pos)%nat -> (length expr - pos < n)%nat -> forward pos (parse_unary_fuel expr pc n pos w).
Proof.
  revert pos w. induction n as [|k IH]; intros pos w Hpos Hn; [lia|]. cbn [parse_unary_fuel].
  pose proof (skip_ws_le pos) as Hw. set (p := skip_ws expr pos) in *. clearbody p. apply (forward_le p); [done|].
  assert (Hrec : forall c f, in_text expr p c = true -> (forall v q w', (p <= q)%nat -> forward p (f v q w')) ->
    forward p (bind (parse_unary_fuel expr pc k (p + 1) w) f)).
  { intros c f Hc Hf. apply in_text_lt in Hc. apply (bind_forward (p + 1)); [apply IH; lia|].
    intros v q w' Hq. apply Hf. lia. }
  destruct (in_text expr p "!"%char) eqn:E1; [by eapply Hrec|].
  destruct (in_text expr p "~"%char) eqn:E2; [by eapply Hrec|].
  destruct (in_text expr p "-"%char && _ && _) eqn:E3; [|apply primary_forward; lia].
  reflect_bool. eapply Hrec; [done|]. intros v q w' Hq. by destruct (checked _).
Qed.

(** A parse that promises to end, from [from] on. *)
Definition ends (f : nat -> nat -> outcome) : Prop := forall pos w, (from <= pos)%nat -> forward pos (f pos w).

Lemma tier_loop_forward n op rhs v pos w :
  (forall p len f, op p = Some (len, f) -> (p < length expr)%nat /\ (0 < len)%nat) -> ends rhs ->
  (from <= pos)%nat -> (length expr - pos < n)%nat -> forward pos (tier_loop expr n op rhs v pos w).
Proof.
  intros Hop Hrhs. revert v pos w. induction n as [|k IH]; intros v pos w Hpos Hn; [lia|]. cbn [tier_loop].
  pose proof (skip_ws_le pos) as Hw. set (p := skip_ws expr pos) in *. clearbody p. apply (forward_le p); [done|].
  destruct (op p) as [[len f]|] eqn:Eo; [|simpl; lia]. destruct (Hop _ _ _ Eo) as [Hlt Hlen].
  apply (bind_forward (p + len)); [apply Hrhs; lia|]. intros r q w' Hq. destruct (f v r) as [v'|]; [|done].
  apply (forward_le q); [lia|]. apply IH; lia.
Qed.

Lemma tier_ends op first rhs :
  (forall p len f, op p = Some (len, f) -> (p < length expr)%nat /\ (0 < len)%nat) ->
  ends first -> ends rhs -> ends (tier expr op first rhs).
Proof.
  intros Hop Hf Hr pos w Hpos. unfold tier. apply (bind_forward pos); [by apply Hf|].
  intros v q w' Hq. apply (forward_le q); [done|]. apply tier_loop_forward; [done|done|lia|lia].
Qed.

Lemma operator_consumes p len f (b : bool) (o : option (nat * (Z -> Z -> option Z))) :
  (b = true -> (p < length expr)%nat) -> (o = Some (len, f) -> (p < length expr)%nat /\ (0 < len)%nat) ->
  forall n g, (0 < n)%nat -> (if b then Some (n, g) else o) = Some (len, f) -> (p < length expr)%nat /\ (0 < len)%nat.
Proof. intros Hb Ho n g Hn. destruct b; [|exact Ho]. intros [= <- <-]. auto. Qed.

Lemma one_lt p c : one expr p c = true -> (p < length expr)%nat.
Proof. apply in_text_lt. Qed.
Lemma two_lt p c d : two expr p c d = true -> (p < length expr)%nat.
Proof. unfold two. intros H0. reflect_bool. lia. Qed.
Lemma alone_lt p c : alone expr p c = true -> (p < length expr)%nat.
Proof. unfold alone. intros [H0 _]%andb_true_iff. by eapply in_text_lt. Qed.

Ltac consumes :=
  repeat (apply operator_consumes; [first [apply one_lt | apply two_lt | apply alone_lt]| |lia]); discriminate 1.

Lemma or_ends : ends (parse_or expr pc).
Proof.
  assert (Hu : ends (parse_unary expr pc)) by (intros pos w Hpos; apply unary_forward; lia).
  unfold parse_or, parse_and, parse_bitor, parse_bitxor, parse_bitand, parse_comparison, parse_shift,
    parse_additive, parse_multiplicative.
  repeat (apply tier_ends; [intros p len f; unfold mul_op, add_op, shift_op, cmp_op, bitand_op, bitxor_op, bitor_op,
    and_op, or_op; consumes| |]); exact Hu.
Qed.
End Step.

Lemma cond_forward fuel pos w : (length expr - pos < fuel)%nat -> forward pos (parse_cond expr fuel pos w).
Proof.
  revert pos w. induction fuel as [|k IH]; intros pos w Hf; [lia|]. cbn [parse_cond].
  apply (bind_forward pos).
  { apply (or_ends (parse_cond expr k) pos); [|done]. intros Hlt p w' Hp. apply IH. lia. }
  intros v q w' Hq. pose proof (skip_ws_le q) as Hw. set (p := skip_ws expr q) in *. clearbody p.
  destruct (in_text expr p "?"%char) eqn:E; [|simpl; lia]. apply in_text_lt in E.
  apply (bind_forward (p + 1)); [apply IH; lia|]. intros v2 q2 w2 Hq2. pose proof (skip_ws_le q2) as Hw2.
  match goal with |- context [parse_cond expr k ?p2 w2] => apply (bind_forward p2); [apply IH|] end.
  - case_if; lia.
  - intros v3 q3 w3 Hq3. simpl. case_if_in Hq3; lia.
Qed.
End Termination.

(** Evaluating a condition ends: for every text and every state of the macro
    tables the fuel [evaluate_if_text] gives is enough. *)
Theorem condition_evaluates :
  forall (M : IfMacros) (HL : IfMacrosLaws) raw_expr, evaluate_if_text raw_expr <> no_verdict.
Proof.
  intros M HL raw_expr. unfold evaluate_if_text.
  pose proof (cond_forward (expandIfMacros raw_expr) (S (S (length (expandIfMacros raw_expr)))) 0 0 ltac:(lia)) as H.
  by destruct (parse_cond _ _ 0 0).
Qed.

(** ** What a condition means *)

Inductive binop := Mul | Div | Mod | Add | Sub | Shl | Shr | Eq | Ne | Le | Ge | Lt | Gt | BitAnd | BitXor | BitOr | And | Or.
#[export] Instance binop_eq_dec : EqDecision binop.
Proof. solve_decision. Defined.

(** Conditions with every operand parenthesized. *)
Inductive cexpr :=
| Word (w : bytes)		(** a constant, or a name no macro has *)
| Defined (name : bytes)
| Not (e : cexpr)
| Compl (e : cexpr)
| Minus (e : cexpr)
| Bin (o : binop) (l r : cexpr)
| Cond (c t e : cexpr).

Definition binop_text (o : binop) : bytes :=
  match o with
  | Mul => B "*" | Div => B "/" | Mod => B "%" | Add => B "+" | Sub => B "-" | Shl => B "<<" | Shr => B ">>"
  | Eq => B "==" | Ne => B "!=" | Le => B "<=" | Ge => B ">=" | Lt => B "<" | Gt => B ">"
  | BitAnd => B "&" | BitXor => B "^" | BitOr => B "|" | And => B "&&" | Or => B "||"
  end.

Fixpoint print (e : cexpr) : bytes :=
  match e with
  | Word w => w
  | Defined name => B "defined(" ++ name ++ B ")"
  | Not e => B "(!" ++ print e ++ B ")"
  | Compl e => B "(~" ++ print e ++ B ")"
  | Minus e => B "(-" ++ print e ++ B ")"
  | Bin o l r => B "(" ++ print l ++ B " " ++ binop_text o ++ B " " ++ print r ++ B ")"
  | Cond c t e => B "(" ++ print c ++ B " ? " ++ print t ++ B " : " ++ print e ++ B ")"
  end.

(** A decimal constant without a leading zero. *)
Definition constant (w : bytes) : Prop := w <> [] /\ Forall (fun c => isdigit c = true) w /\ (at_ w 0 = "0"%char -> length w = 1%nat).
(** A name that stands for no macro and is no operator. *)
Definition name_start (c : ascii) : bool := isalpha c || byte_eqb c "_"%char.
Definition name_head (w : bytes) : bool := match w with c :: _ => name_start c | [] => false end.
Definition free_name `{IfMacros} (w : bytes) : Prop :=
  name_head w = true /\ Forall (fun c => word_char c = true) w /\ bytes_eqb w (B "defined") = false /\ starts_with w (B "__has_") = false /\
  define_find w = None /\ macro_count w = false.
Fixpoint well_formed `{IfMacros} (e : cexpr) : Prop :=
  match e with
  | Word w => constant w \/ free_name w
  | Defined name => name <> [] /\ Forall (fun c => word_char c = true) name
  | Not e | Compl e => well_formed e
  | Minus e => well_formed e /\ at_ (print e) 0 <> "_"%char	(** a minus before it is no sign to the evaluator *)
  | Bin _ l r => well_formed l /\ well_formed r
  | Cond c t e => well_formed c /\ well_formed t /\ well_formed e
  end.

(** C's values (C11 6.10.1, 6.6): [None] where the value does not fit or the
    operation is undefined.  [&&], [||] and [?:] leave operands unevaluated. *)
Definition word_value (w : bytes) : option Z := if isdigit (at_ w 0) then checked (base_value 10 (fun c => code c - 48) 0 w) else Some 0.
Definition binop_value (o : binop) (v r : Z) : option Z :=
  match o with
  | Mul => checked (v * r) | Add => checked (v + r) | Sub => checked (v - r)
  | Div => if r =? 0 then None else checked (Z.quot v r)
  | Mod => if (r =? 0) || negb (fits (Z.quot v r)) then None else Some (Z.rem v r)
  | Shl => if (0 <=? r) && (r <? 64) && (0 <=? v) then checked (v * 2 ^ r) else None
  | Shr => if (0 <=? r) && (r <? 64) then Some (v / 2 ^ r) else None
  | Eq => flag (v =? r) | Ne => flag (negb (v =? r)) | Le => flag (v <=? r) | Ge => flag (r <=? v)
  | Lt => flag (v <? r) | Gt => flag (r <? v)
  | BitAnd => Some (Z.land v r) | BitXor => Some (Z.lxor v r) | BitOr => Some (Z.lor v r)
  | And | Or => flag (negb (r =? 0))	(** the left operand left it open *)
  end.
Fixpoint denote `{IfMacros} (e : cexpr) : option Z :=
  match e with
  | Word w => word_value w
  | Defined name => Some (if macro_name_defined name then 1 else 0)
  | Not e => v ← denote e; Some (if v =? 0 then 1 else 0)
  | Compl e => v ← denote e; Some (- v - 1)
  | Minus e => v ← denote e; checked (- v)
  | Bin o l r => v ← denote l; match o with
      | And => if v =? 0 then Some 0 else w ← denote r; binop_value And v w
      | Or => if v =? 0 then w ← denote r; binop_value Or v w else Some 1
      | _ => w ← denote r; binop_value o v w end
  | Cond c t e => v ← denote c; if v =? 0 then denote e else denote t
  end.

(** What the evaluator computes: every operand, a quotient by zero as 0; [None]
    where an [int64_t] overflows or a shift is out of range, undefined in C++. *)
Definition binop_code (o : binop) : Z -> Z -> option Z :=
  match o with
  | Mul => fun v r => checked (v * r) | Div => divide | Mod => modulo
  | Add => fun v r => checked (v + r) | Sub => fun v r => checked (v - r)
  | Shl => shift_left | Shr => shift_right
  | Eq => fun v r => flag (v =? r) | Ne => fun v r => flag (negb (v =? r)) | Le => fun v r => flag (v <=? r)
  | Ge => fun v r => flag (r <=? v) | Lt => fun v r => flag (v <? r) | Gt => fun v r => flag (r <? v)
  | BitAnd => fun v r => Some (Z.land v r) | BitXor => fun v r => Some (Z.lxor v r) | BitOr => fun v r => Some (Z.lor v r)
  | And => fun v r => flag (negb (v =? 0) && negb (r =? 0))
  | Or => fun v r => flag (negb (v =? 0) || negb (r =? 0))
  end.
Fixpoint computed `{IfMacros} (e : cexpr) : option Z :=
  match e with
  | Word w => word_value w
  | Defined name => Some (if macro_name_defined name then 1 else 0)
  | Not e => v ← computed e; Some (if v =? 0 then 1 else 0)
  | Compl e => v ← computed e; Some (- v - 1)
  | Minus e => v ← computed e; checked (- v)
  | Bin o l r => v ← computed l; w ← computed r; binop_code o v w
  | Cond c t e => v ← computed c; a ← computed t; b ← computed e; Some (if v =? 0 then b else a)
  end.

(** Where C gives a value and the evaluator computes one, it is the same. *)
Lemma binop_code_value o v r x y : o <> And -> o <> Or -> binop_value o v r = Some x -> binop_code o v r = Some y -> y = x.
Proof.
  intros H1 H2. destruct o; cbn [binop_value binop_code]; try done; try congruence.
  - unfold divide. destruct (r =? 0); [done|congruence].
  - unfold modulo. destruct (r =? 0); [done|]. cbn [orb]. destruct (fits _); [cbn [negb]; congruence|done].
  - unfold shift_left, shifted, checked. destruct (_ && _) eqn:E; [|done]. rewrite Z.shiftl_mul_pow2 by (reflect_bool; lia).
    destruct (fits _) eqn:Ef; [|done]. unfold fits in Ef. reflect_bool. intros [= <-]. cbn [andb].
    replace (v * 2 ^ r <? 2 ^ 64) with true by (symmetry; apply Z.ltb_lt; lia). rewrite i64_small by lia. congruence.
  - unfold shift_right. destruct (_ && _) eqn:E; [|done]. reflect_bool. rewrite Z.shiftr_div_pow2 by lia. congruence.
Qed.
Lemma computed_denote `{IfMacros} e v x : denote e = Some v -> computed e = Some x -> x = v.
Proof.
  revert v x. induction e as [w|name|e IH|e IH|e IH|o l IHl r IHr|c IHc t IHt e IHe]; intros v x; cbn [denote computed]; [congruence|congruence| | | | |].
  1-3: intros (a & Ha & Hv)%bind_Some (b & Hb & Hx)%bind_Some; assert (b = a) as -> by (by apply IH); congruence.
  - intros (a & Ha & Hv)%bind_Some (a' & Ha' & Hx)%bind_Some. assert (a' = a) as -> by (by apply IHl). apply bind_Some in Hx as (b & Hb & Hx).
    destruct (decide (o = And)) as [->|N1]; [|destruct (decide (o = Or)) as [->|N2]].
    + cbn [binop_code] in Hx. destruct (a =? 0); [unfold flag in Hx; cbn [negb andb] in Hx; congruence|]. apply bind_Some in Hv as (w & Hw & Hv).
      assert (b = w) as -> by (by apply IHr). cbn [binop_value] in Hv. cbn [negb andb] in Hx. congruence.
    + cbn [binop_code] in Hx. destruct (a =? 0); [|unfold flag in Hx; cbn [negb orb] in Hx; congruence]. apply bind_Some in Hv as (w & Hw & Hv).
      assert (b = w) as -> by (by apply IHr). cbn [binop_value] in Hv. cbn [negb orb] in Hx. congruence.
    + assert (Hv' : (w ← denote r; binop_value o a w) = Some v) by (by destruct o). apply bind_Some in Hv' as (w & Hw & Hv').
      assert (b = w) as -> by (by apply IHr). by eapply binop_code_value.
  - intros (a & Ha & Hv)%bind_Some (a' & Ha' & Hx)%bind_Some. assert (a' = a) as -> by (by apply IHc). apply bind_Some in Hx as (b & Hb & Hx).
    apply bind_Some in Hx as (d & Hd & [= <-]). destruct (a =? 0); [by apply IHe|by apply IHt].
Qed.

Fixpoint depth (e : cexpr) : nat :=
  match e with
  | Word _ | Defined _ => 0
  | Not e | Compl e | Minus e => S (depth e)
  | Bin _ l r => S (Nat.max (depth l) (depth r))
  | Cond c t e => S (S (Nat.max (depth c) (Nat.max (depth t) (depth e))))
  end.

Section Meaning.
Context `{M : IfMacros} (expr : bytes).

Definition here (pos : nat) (t : bytes) : Prop := drop pos expr = t.

Lemma here_app pos a b : here pos (a ++ b) -> here (pos + length a) b.
Proof. unfold here. intros H. rewrite <- drop_drop, H. apply drop_app_length. Qed.

Lemma here_cons pos c t :
  here pos (c :: t) -> at_ expr pos = c /\ (pos < length expr)%nat /\ here (pos + 1) t.
Proof.
  unfold here. intros H. assert (Hl : (pos < length expr)%nat).
  { apply (f_equal length) in H. rewrite length_drop in H. simpl in H. lia. }
  rewrite (drop_at _ _ Hl) in H. injection H as H1 H2. by rewrite Nat.add_1_r.
Qed.

Lemma here_ws pos t : here pos t -> skip_ws expr pos = (pos + blank_run t)%nat.
Proof. unfold here, skip_ws. by intros ->. Qed.

Lemma here_ws_space pos t : here pos (c_sp :: t) -> skip_ws expr pos = skip_ws expr (pos + 1).
Proof.
  intros H. rewrite (here_ws _ _ H). apply here_cons in H as (_ & _ & H). rewrite (here_ws _ _ H). simpl. lia.
Qed.

(** A text that starts with no blank. *)
Definition solid (t : bytes) : Prop := blank_run t = O.
Lemma here_ws_solid pos t : here pos t -> solid t -> skip_ws expr pos = pos.
Proof. intros H Ht. rewrite (here_ws _ _ H), Ht. lia. Qed.

Lemma skip_ws_idem pos : skip_ws expr (skip_ws expr pos) = skip_ws expr pos.
Proof.
  unfold skip_ws. rewrite <- drop_drop.
  assert (H : forall t, blank_run (drop (blank_run t) t) = O).
  { induction t as [|c t IH]; simpl; [done|]. destruct (_ || _) eqn:E; simpl; [done|by rewrite E]. }
  rewrite H. lia.
Qed.

(** ** The tiers, as levels *)

Definition tier_op (i : nat) : operator :=
  match i with
  | 0 => mul_op expr | 1 => add_op expr | 2 => shift_op expr | 3 => cmp_op expr | 4 => bitand_op expr
  | 5 => bitxor_op expr | 6 => bitor_op expr | 7 => and_op expr | _ => or_op expr
  end%nat.
Fixpoint level (pc : nat -> nat -> outcome) (i : nat) : nat -> nat -> outcome :=
  match i with
  | O => parse_unary expr pc
  | S j => tier expr (tier_op j) (level pc j) (if (j =? 2)%nat then parse_unary expr pc else level pc j)
  end.
Lemma level_S pc j :
  level pc (S j) = tier expr (tier_op j) (level pc j) (if (j =? 2)%nat then parse_unary expr pc else level pc j).
Proof. reflexivity. Qed.
#[local] Opaque level.
Lemma level_or pc : parse_or expr pc = level pc 9.
Proof.
  assert (H1 : parse_multiplicative expr pc = level pc 1) by (unfold parse_multiplicative; rewrite (level_S pc 0); cbn [tier_op Nat.eqb]; reflexivity).
  assert (H2 : parse_additive expr pc = level pc 2) by (unfold parse_additive; rewrite H1, (level_S pc 1); cbn [tier_op Nat.eqb]; reflexivity).
  assert (H3 : parse_shift expr pc = level pc 3) by (unfold parse_shift; rewrite H2, (level_S pc 2); cbn [tier_op Nat.eqb]; reflexivity).
  assert (H4 : parse_comparison expr pc = level pc 4) by (unfold parse_comparison; rewrite H3, (level_S pc 3); cbn [tier_op Nat.eqb]; reflexivity).
  assert (H5 : parse_bitand expr pc = level pc 5) by (unfold parse_bitand; rewrite H4, (level_S pc 4); cbn [tier_op Nat.eqb]; reflexivity).
  assert (H6 : parse_bitxor expr pc = level pc 6) by (unfold parse_bitxor; rewrite H5, (level_S pc 5); cbn [tier_op Nat.eqb]; reflexivity).
  assert (H7 : parse_bitor expr pc = level pc 7) by (unfold parse_bitor; rewrite H6, (level_S pc 6); cbn [tier_op Nat.eqb]; reflexivity).
  assert (H8 : parse_and expr pc = level pc 8) by (unfold parse_and; rewrite H7, (level_S pc 7); cbn [tier_op Nat.eqb]; reflexivity).
  unfold parse_or. rewrite H8, (level_S pc 8). cbn [tier_op Nat.eqb]. reflexivity.
Qed.
(** No operator from tier [i] up to tier [j] at [pos]. *)
Definition quiet (i j pos : nat) : Prop := forall k, (i <= k < j)%nat -> tier_op k pos = None.

Lemma quiet_weaken i j i' j' pos : quiet i j pos -> (i <= i')%nat -> (j' <= j)%nat -> quiet i' j' pos.
Proof. intros H Hi Hj k Hk. apply H. lia. Qed.

(** A value climbs the tiers whose operators do not follow it. *)
Lemma level_climb pc i n pos w v q :
  level pc i pos w = Val v q w -> quiet i (i + n) (skip_ws expr q) ->
  exists q', level pc (i + n) pos w = Val v q' w /\ skip_ws expr q' = skip_ws expr q.
Proof.
  revert q. induction n as [|n IH]; intros q Hl Hq; [rewrite Nat.add_0_r; by exists q|].
  destruct (IH q Hl) as (q' & Hl' & Hw'). { eapply quiet_weaken; [exact Hq|lia|lia]. }
  exists (skip_ws expr q'). rewrite Nat.add_succ_r, level_S. unfold tier. rewrite Hl'. cbn [bind tier_loop].
  rewrite Hw', (Hq (i + n)%nat) by lia. rewrite skip_ws_idem. done.
Qed.

Lemma stop_quiet pos c t i j : here pos (c :: t) -> c ∈ B ")?:" -> quiet i j pos.
Proof.
  intros H Hc k _. apply here_cons in H as (Hat & Hlt & _). apply Nat.ltb_lt in Hlt.
  unfold B in Hc. simpl in Hc. rewrite !elem_of_cons in Hc.
  assert (Hone : forall x, byte_eqb c x = false -> one expr pos x = false).
  { intros x Hx. unfold one, in_text. by rewrite Hat, Hx, andb_false_r. }
  assert (Htwo : forall x y, byte_eqb c x = false -> two expr pos x y = false).
  { intros x y Hx. unfold two. by rewrite Hat, Hx, andb_false_r. }
  assert (Halone : forall x, byte_eqb c x = false -> alone expr pos x = false).
  { intros x Hx. unfold alone, in_text. by rewrite Hat, Hx, andb_false_r. }
  assert (Hc' : forall x, x ∈ B "*/%+-<>=!&^|" -> byte_eqb c x = false).
  { intros x Hx. unfold B in Hx. simpl in Hx. rewrite !elem_of_cons in Hx.
    destruct Hc as [-> | [-> | [-> | Hc]]]; [| | |by apply not_elem_of_nil in Hc].
    all: repeat (destruct Hx as [->|Hx]; [reflexivity|]); by apply not_elem_of_nil in Hx. }
  assert (Hin : forall x, bool_decide (x ∈ B "*/%+-<>=!&^|") = true -> byte_eqb c x = false).
  { intros x Hx. apply Hc'. by apply bool_decide_eq_true in Hx. }
  destruct k as [|[|[|[|[|[|[|[|k]]]]]]]]; cbn [tier_op];
    unfold mul_op, add_op, shift_op, cmp_op, bitand_op, bitxor_op, bitor_op, and_op, or_op;
    rewrite ?Hone, ?Htwo, ?Halone by (apply Hin; reflexivity); reflexivity.
Qed.

(** Each operator's tier. *)
Definition binop_tier (o : binop) : nat :=
  match o with
  | Mul | Div | Mod => 0 | Add | Sub => 1 | Shl | Shr => 2 | Eq | Ne | Le | Ge | Lt | Gt => 3
  | BitAnd => 4 | BitXor => 5 | BitOr => 6 | And => 7 | Or => 8
  end%nat.

Lemma binop_here o pos t :
  here pos (binop_text o ++ c_sp :: t) ->
  quiet 0 (binop_tier o) pos /\ tier_op (binop_tier o) pos = Some (length (binop_text o), binop_code o).
Proof.
  intros H.
  assert (Hat : at_ expr pos = at_ (binop_text o ++ [c_sp]) 0 /\ at_ expr (pos + 1) = at_ (binop_text o ++ [c_sp]) 1 /\
    (pos + 1 <? length expr)%nat = true /\ (pos <? length expr)%nat = true /\ (length expr <=? pos + 1)%nat = false).
  { destruct o; apply here_cons in H as (H1 & H2 & H3); apply here_cons in H3 as (H4 & H5 & _);
      split_and!; try done; try (by apply Nat.ltb_lt); by apply Nat.leb_gt. }
  destruct Hat as (H1 & H2 & H3 & H4 & H5).
  assert (Htier : forall k, tier_op k pos = match k with
    | 0 => mul_op expr pos | 1 => add_op expr pos | 2 => shift_op expr pos | 3 => cmp_op expr pos
    | 4 => bitand_op expr pos | 5 => bitxor_op expr pos | 6 => bitor_op expr pos | 7 => and_op expr pos
    | _ => or_op expr pos end%nat) by (by intros [|[|[|[|[|[|[|[|k]]]]]]]]).
  unfold quiet. setoid_rewrite Htier.
  unfold mul_op, add_op, shift_op, cmp_op, bitand_op, bitxor_op, bitor_op, and_op, or_op, one, two, alone, in_text.
  rewrite H1, H2, H3, H4, H5. destruct o; (split; [|reflexivity]); intros k Hk; simpl in Hk.
  all: destruct k as [|[|[|[|[|[|[|[|k]]]]]]]]; try reflexivity; lia.
Qed.

(** ** A printed condition is read back *)

Definition ends_operand (t : bytes) : Prop :=
  match t with [] => True | c :: _ => byte_eqb c c_sp || byte_eqb c ")"%char = true end.

(** The first characters a printed condition can have. *)
Lemma print_head e :
  well_formed e -> exists c t, print e = c :: t /\ (isdigit c || name_start c || byte_eqb c "("%char = true).
Proof.
  destruct e as [w|name|e|e|e|o l r|c t e]; simpl; intros H0; try (eexists _, _; split; reflexivity).
  destruct H0 as [(H1 & H2 & _)|(H1 & _)].
  - destruct w as [|c w]; [done|]. apply Forall_cons_1 in H2 as [H2 _]. exists c, w. by rewrite H2.
  - destruct w as [|c w]; [done|]. exists c, w. cbn in H1. by rewrite H1, orb_true_r.
Qed.

Lemma here_byte pos c t x : here pos (c :: t) -> in_text expr pos x = byte_eqb c x.
Proof. intros (Hat & Hlt & _)%here_cons. unfold in_text. apply Nat.ltb_lt in Hlt. by rewrite Hlt, Hat. Qed.
Lemma here_lt pos c t : here pos (c :: t) -> (pos <? length expr)%nat = true.
Proof. intros (_ & H & _)%here_cons. by apply Nat.ltb_lt. Qed.

(** An operand goes to [parse_primary], whatever blanks precede it. *)
Lemma unary_spaced pc n pos w :
  parse_unary_fuel expr pc (S n) pos w = parse_unary_fuel expr pc (S n) (skip_ws expr pos) w.
Proof. cbn [parse_unary_fuel]. by rewrite skip_ws_idem. Qed.

Lemma unary_primary pc n pos w c t :
  here pos (c :: t) -> isdigit c || name_start c || byte_eqb c "("%char = true ->
  skip_ws expr pos = pos /\ parse_unary_fuel expr pc (S n) pos w = parse_primary expr pc pos w.
Proof.
  intros H Hc.
  assert (Hh : (byte_eqb c c_sp || byte_eqb c c_tab) = false /\ byte_eqb c "!"%char = false /\
    byte_eqb c "~"%char = false /\ byte_eqb c "-"%char = false).
  { destruct c as [[] [] [] [] [] [] [] []]; try discriminate; repeat split; reflexivity. }
  destruct Hh as (H1 & H2 & H3 & H4).
  assert (Hw : skip_ws expr pos = pos). { eapply here_ws_solid; [exact H|]. unfold solid. simpl. by rewrite H1. }
  split; [exact Hw|]. cbn [parse_unary_fuel]. by rewrite Hw, !(here_byte _ _ _ _ H), H2, H3, H4.
Qed.

(** *** Atoms *)

Lemma digit_value c : isdigit c = true -> hex_digit (code c) = code c - 48 /\ 0 <= code c - 48.
Proof. unfold isdigit, in_range, hex_digit. intros H. rewrite H. reflect_bool. lia. Qed.

Lemma number_value ds v :
  Forall (fun c => isdigit c = true) ds -> 0 <= v -> fits (base_value 10 (fun c => code c - 48) v ds) = true ->
  number 10 ds v = Some (base_value 10 (fun c => code c - 48) v ds) /\ v <= base_value 10 (fun c => code c - 48) v ds.
Proof.
  revert v. induction ds as [|c ds IH]; intros v H Hv Hf; [by split|].
  apply Forall_cons_1 in H as [Hc H]. destruct (digit_value c Hc) as [Hd Hd0].
  change (base_value 10 (fun c => code c - 48) v (c :: ds)) with
    (base_value 10 (fun c => code c - 48) (v * 10 + (code c - 48)) ds) in *.
  destruct (IH (v * 10 + (code c - 48))) as [H1 H2]; [done|lia|done|].
  split; [|lia]. cbn [number]. rewrite Hd. change (digit_step 10) with (fun v d => checked (v * 10 + d)). unfold checked.
  replace (fits (v * 10 + (code c - 48))) with true; [exact H1|].
  symmetry. unfold fits in *. reflect_bool. apply andb_true_iff. split; [apply Z.leb_le|apply Z.ltb_lt]; lia.
Qed.

Lemma operand_stops t p :
  ends_operand t -> p c_sp = false -> p ")"%char = false -> match t with [] => True | c :: _ => p c = false end.
Proof.
  destruct t as [|c t]; [done|]. simpl. intros Hc H1 H2. apply orb_true_iff in Hc as [Hc|Hc]; apply byte_eqb_eq in Hc; by subst c.
Qed.

Lemma read_number pc pos w ds rest v :
  constant ds -> computed (Word ds) = Some v -> here pos (ds ++ rest) -> ends_operand rest ->
  parse_primary expr pc pos w = Val v (pos + length ds) w.
Proof.
  intros (H1 & H2 & H3) Hd H Hr. destruct ds as [|c ds]; [done|]. pose proof H as Hh. simpl in Hh.
  pose proof (Forall_cons_1 _ _ _ H2) as [Hc _].
  destruct (unary_primary pc 0 pos w c (ds ++ rest) Hh ltac:(by rewrite Hc)) as [Hw _].
  unfold parse_primary. rewrite Hw, (here_lt _ _ _ Hh). cbn [negb].
  destruct (here_cons _ _ _ Hh) as (Hat & _ & Hn). rewrite Hat.
  assert (Hx : byte_eqb c "0"%char && (byte_eqb (at_ expr (pos + 1)) "x"%char || byte_eqb (at_ expr (pos + 1)) "X"%char)
    && (pos + 1 <? length expr)%nat = false).
  { destruct (byte_eqb c "0"%char) eqn:E0; [|done]. apply byte_eqb_eq in E0. cbn [andb].
    assert (ds = []) as -> by (destruct ds; [done|]; specialize (H3 E0); simpl in H3; lia).
    simpl in Hn. destruct rest as [|x rest].
    - unfold here in Hn. apply (f_equal length) in Hn. rewrite length_drop in Hn. simpl in Hn.
      replace (pos + 1 <? length expr)%nat with false by (symmetry; apply Nat.ltb_ge; lia). apply andb_false_r.
    - apply here_cons in Hn as (-> & _ & _). simpl in Hr. apply orb_true_iff in Hr as [Hr|Hr]; apply byte_eqb_eq in Hr; by subst x. }
  assert (Hc' : byte_eqb c "("%char = false /\ byte_eqb c "L"%char = false /\ byte_eqb c c_squote = false).
  { destruct c as [[] [] [] [] [] [] [] []]; try discriminate; repeat split; reflexivity. }
  destruct Hc' as (E1 & E2 & E3). rewrite E1, E2, E3, Hc, andb_false_r. cbn [andb].
  replace ((pos + 1 <? length expr)%nat && byte_eqb c "0"%char && (byte_eqb (at_ expr (pos + 1)) "x"%char || byte_eqb (at_ expr (pos + 1)) "X"%char))
    with false by (symmetry; destruct (pos + 1 <? length expr)%nat; cbn [andb]; [by rewrite andb_true_r in Hx|done]).
  unfold number_at. unfold here in H. rewrite H, run_of_prefix; [|done|by apply operand_stops].
  unfold substr. rewrite H, take_app_length.
  cbn [computed] in Hd. unfold word_value in Hd. change (at_ (c :: ds) 0) with c in Hd. rewrite Hc in Hd. unfold checked in Hd. destruct (fits _) eqn:Hf; [|done]. injection Hd as <-.
  destruct (number_value (c :: ds) 0 H2 ltac:(lia) Hf) as [-> _].
  assert (Hs : run_length suffix_char (drop (pos + length (c :: ds)) expr) = 0%nat).
  { rewrite <- drop_drop, H, drop_app_length. pose proof (operand_stops rest suffix_char Hr eq_refl eq_refl) as Hs.
    destruct rest; simpl; [done|by rewrite Hs]. }
  rewrite Hs. f_equal. lia.
Qed.

Lemma read_name pc pos w name rest :
  free_name name -> here pos (name ++ rest) -> ends_operand rest -> parse_primary expr pc pos w = Val 0 (pos + length name) w.
Proof.
  intros (Hh & Hw & Hd & Hp & Hdef & Hm) H Hr. destruct name as [|c r]; [done|]. cbn [name_head] in Hh. pose proof H as H0. simpl in H0.
  destruct (unary_primary pc 0 pos w c _ H0 ltac:(by rewrite Hh, orb_true_r)) as [Hs _].
  unfold parse_primary. rewrite Hs, (here_lt _ _ _ H0). cbn [negb]. destruct (here_cons _ _ _ H0) as (Hat & _ & Hn). rewrite Hat.
  assert (Hc : byte_eqb c "("%char = false /\ byte_eqb c c_squote = false /\ byte_eqb c "0"%char = false /\ isdigit c = false).
  { destruct c as [[] [] [] [] [] [] [] []]; try discriminate Hh; repeat split; reflexivity. }
  destruct Hc as (-> & -> & -> & ->). rewrite !andb_false_r. cbn [andb].
  assert (HL : (pos + 1 <? length expr)%nat && byte_eqb c "L"%char && byte_eqb (at_ expr (pos + 1)) c_squote = false).
  { apply Forall_cons_1 in Hw as [_ Hw]. destruct (pos + 1 <? length expr)%nat eqn:El; [|done]. cbn [andb]. apply andb_false_iff. right. apply Nat.ltb_lt in El.
    destruct (r ++ rest) as [|d t] eqn:Ed; [unfold here in Hn; apply (f_equal length) in Hn; rewrite length_drop in Hn; simpl in Hn; lia|].
    apply here_cons in Hn as (-> & _ & _). apply byte_eqb_neq. intros ->. destruct r as [|x r]; [simpl in Ed; subst rest; by vm_compute in Hr|].
    injection Ed as -> _. apply Forall_cons_1 in Hw as [Hw _]. by vm_compute in Hw. }
  rewrite HL. unfold name_start in Hh. rewrite Hh. unfold word_at. pose proof H as H'. unfold here in H'. unfold substr. rewrite H'.
  rewrite run_of_prefix by (done || by apply operand_stops). rewrite take_app_length, Hd, Hp, Hdef, Hm. done.
Qed.
Lemma read_word pc pos w x rest v :
  well_formed (Word x) -> computed (Word x) = Some v -> here pos (x ++ rest) -> ends_operand rest ->
  parse_primary expr pc pos w = Val v (pos + length x) w.
Proof.
  intros [Hx|Hx] Hv H Hr; [by eapply read_number|]. rewrite (read_name pc pos w x rest Hx H Hr). f_equal. cbn [computed] in Hv. unfold word_value in Hv.
  destruct Hx as (Hh & _). destruct x as [|c x]; [done|]. change (at_ (c :: x) 0) with c in Hv.
  replace (isdigit c) with false in Hv; [congruence|]. cbn [name_head] in Hh. by destruct c as [[] [] [] [] [] [] [] []].
Qed.

Lemma read_defined pc pos w name rest v :
  well_formed (Defined name) -> computed (Defined name) = Some v -> here pos (print (Defined name) ++ rest) ->
  parse_primary expr pc pos w = Val v (pos + length (print (Defined name))) w.
Proof.
  intros (Hn & Hw) [= <-] H. cbn [print] in H.
  destruct (unary_primary pc 0 pos w "d"%char _ H eq_refl) as [Hs _].
  unfold parse_primary. rewrite Hs, (here_lt _ _ _ H). cbn [negb].
  destruct (here_cons _ _ _ H) as (Hat & _ & _). rewrite Hat. 
  change (byte_eqb "d" "(") with false. change (byte_eqb "d" "L") with false. change (byte_eqb "d" c_squote) with false.
  change (byte_eqb "d" "0") with false. rewrite !andb_false_r. cbn [andb orb isdigit in_range].
  change (isdigit "d") with false. change (isalpha "d") with true. cbn [orb].
  assert (H1 : here pos (B "defined" ++ (B "(" ++ name ++ B ")" ++ rest))).
  { unfold here in *. rewrite H. by rewrite <- !app_assoc. }
  unfold word_at. pose proof H1 as H1'. unfold here in H1'. unfold substr. rewrite H1'.
  rewrite run_of_prefix by (try reflexivity; repeat constructor). rewrite take_app_length.
  change (bytes_eqb (B "defined") (B "defined")) with true. cbv iota.
  apply here_app in H1. unfold defined_at. rewrite (here_ws_solid _ _ H1) by reflexivity.
  rewrite (here_byte _ _ _ _ H1). change (byte_eqb "(" "(") with true. cbv iota.
  apply here_cons in H1 as (_ & _ & H2). simpl app in H2.
  assert (Hsol : solid (name ++ B ")" ++ rest)).
  { destruct name as [|c name]; [done|]. apply Forall_cons_1 in Hw as [Hc _]. unfold solid. simpl.
    by destruct c as [[] [] [] [] [] [] [] []]; try discriminate Hc. }
  rewrite (here_ws_solid _ _ H2 Hsol). pose proof H2 as H2'. unfold here in H2'. unfold substr. rewrite H2'.
  rewrite run_of_prefix by (done || reflexivity). rewrite take_app_length.
  apply here_app in H2. rewrite (here_ws_solid _ _ H2) by reflexivity.
  rewrite (here_byte _ _ _ _ H2). change (byte_eqb ")" ")") with true. cbn [andb].
  f_equal. cbn [print]. rewrite !length_app.
  change (length (B "defined(")) with 8%nat. change (length (B "defined")) with 7%nat.
  change (length (B ")")) with 1%nat. lia.
Qed.

(** *** Composite conditions *)

Lemma length_S pos c t : here pos (c :: t) -> exists m, length expr = S m.
Proof. intros (_ & H & _)%here_cons. destruct (length expr) as [|m]; [lia|by exists m]. Qed.

Lemma read_or pc pos w v q :
  parse_unary expr pc pos w = Val v q w -> quiet 0 9 (skip_ws expr q) ->
  exists q', parse_or expr pc pos w = Val v q' w /\ skip_ws expr q' = skip_ws expr q.
Proof. intros H Hq. rewrite level_or. exact (level_climb pc 0 9 pos w v q H Hq). Qed.

Lemma read_bin pc o pos w a b x qa qb t :
  parse_unary expr pc pos w = Val a qa w -> here (skip_ws expr qa) (binop_text o ++ c_sp :: t) ->
  parse_unary expr pc (skip_ws expr qa + length (binop_text o)) w = Val b qb w ->
  quiet 0 9 (skip_ws expr qb) -> binop_code o a b = Some x ->
  exists q, parse_or expr pc pos w = Val x q w /\ skip_ws expr q = skip_ws expr qb.
Proof.
  intros Ha Ho Hb Hq Hx. destruct (binop_here o _ _ Ho) as [Hquiet Hop]. set (i := binop_tier o) in *.
  assert (Hi : (i < 9)%nat) by (subst i; destruct o; simpl; lia).
  assert (exists m, length expr = S m) as [m Hm].
  { destruct o; by apply length_S in Ho. }
  destruct (level_climb pc 0 i pos w a qa Ha Hquiet) as (qa' & Hl & Hw1).
  assert (exists qb', (if (i =? 2)%nat then parse_unary expr pc else level pc i)
      (skip_ws expr qa + length (binop_text o))%nat w = Val b qb' w /\ skip_ws expr qb' = skip_ws expr qb)
    as (qb' & Hr & Hw2).
  { destruct (i =? 2)%nat; [by exists qb|]. apply (level_climb pc 0 i _ w b qb Hb).
    eapply quiet_weaken; [exact Hq|lia|lia]. }
  assert (Hs : level pc (S i) pos w = Val x (skip_ws expr qb') w).
  { rewrite level_S. unfold tier. simpl (0 + i)%nat in Hl. rewrite Hl. cbn [bind tier_loop].
    rewrite Hw1, Hop, Hr. cbn [bind]. rewrite Hx, Hm. cbn [tier_loop].
    by rewrite Hw2, (Hq i) by lia. }
  destruct (level_climb pc (S i) (8 - i) pos w x _ Hs) as (q & Hl9 & Hw3).
  { rewrite skip_ws_idem, Hw2. eapply quiet_weaken; [exact Hq|lia|lia]. }
  exists q. rewrite level_or. replace 9%nat with (S i + (8 - i))%nat by lia. split; [exact Hl9|].
  by rewrite Hw3, skip_ws_idem.
Qed.

Lemma read_paren k n pos w v q t rest :
  here pos ("("%char :: t) -> parse_cond expr k (pos + 1) w = Val v q w ->
  here (skip_ws expr q) (")"%char :: rest) ->
  parse_unary_fuel expr (parse_cond expr k) (S n) pos w = Val v (skip_ws expr q + 1) w.
Proof.
  intros H Hp Hc. destruct (unary_primary (parse_cond expr k) n pos w _ _ H eq_refl) as [Hw ->].
  unfold parse_primary. rewrite Hw, (here_lt _ _ _ H). cbn [negb].
  destruct (here_cons _ _ _ H) as (-> & _ & _). change (byte_eqb "(" "(") with true. cbv iota.
  rewrite Hp. cbn [bind]. by rewrite (here_byte _ _ _ _ Hc).
Qed.

(** Without a [?] after it, a condition is an [||] expression. *)
Lemma cond_or k pos w v q c t :
  parse_or expr (parse_cond expr k) pos w = Val v q w -> here (skip_ws expr q) (c :: t) -> byte_eqb c "?"%char = false ->
  parse_cond expr (S k) pos w = Val v (skip_ws expr q) w.
Proof. intros H Hh Hc. cbn [parse_cond]. rewrite H. cbn [bind]. by rewrite (here_byte _ _ _ _ Hh), Hc. Qed.

Definition reads (k : nat) (e : cexpr) : Prop :=
  forall n pos w rest v, computed e = Some v -> here pos (print e ++ rest) -> ends_operand rest ->
  parse_unary_fuel expr (parse_cond expr k) (S n) pos w = Val v (pos + length (print e)) w.

(** An operand after a blank, up to a stop. *)
Lemma read_operand k (e : cexpr) pos w c t v :
  reads k e -> well_formed e -> computed e = Some v -> here pos (c_sp :: print e ++ c :: t) ->
  byte_eqb c c_sp || byte_eqb c ")"%char = true ->
  parse_unary expr (parse_cond expr k) pos w = Val v (pos + 1 + length (print e)) w /\
  here (pos + 1 + length (print e)) (c :: t).
Proof.
  intros He Hwf Hv H Hc. pose proof (here_ws_space _ _ H) as Hs. apply here_cons in H as (_ & _ & H).
  split; [|by apply here_app]. unfold parse_unary. rewrite unary_spaced, Hs, <- unary_spaced.
  by eapply He.
Qed.

(** A sub-condition up to its stop. *)
Lemma read_sub k pos w v q c t :
  parse_unary expr (parse_cond expr k) pos w = Val v q w -> here (skip_ws expr q) (c :: t) ->
  c ∈ B ")?:" ->
  exists q', parse_or expr (parse_cond expr k) pos w = Val v q' w /\ skip_ws expr q' = skip_ws expr q.
Proof. intros H Hh Hc. eapply read_or; [exact H|]. by eapply stop_quiet. Qed.

(** The unary operators. *)
Definition unary_code (c : ascii) (v : Z) : option Z :=
  if byte_eqb c "!"%char then Some (if v =? 0 then 1 else 0)
  else if byte_eqb c "~"%char then Some (Z.lnot v) else checked (- v).

Lemma unary_op pc m p w v q c d t x :
  here p (c :: d :: t) -> c ∈ B "!~-" -> isdigit d || name_start d || byte_eqb d "("%char = true -> (c = "-"%char -> d <> "_"%char) ->
  parse_unary_fuel expr pc m (p + 1) w = Val v q w -> unary_code c v = Some x ->
  parse_unary_fuel expr pc (S m) p w = Val x q w.
Proof.
  intros H Hc Hd Hm Hu Hx. assert (Hs : skip_ws expr p = p).
  { eapply here_ws_solid; [exact H|]. unfold solid. simpl. unfold B in Hc. simpl in Hc. rewrite !elem_of_cons in Hc.
    destruct Hc as [->|[->|[->|Hc]]]; [done..|by apply not_elem_of_nil in Hc]. }
  cbn [parse_unary_fuel]. rewrite Hs, !(here_byte _ _ _ _ H), Hu. cbn [bind].
  unfold unary_code in Hx. destruct (byte_eqb c "!") eqn:E1; [by injection Hx as ->|].
  destruct (byte_eqb c "~") eqn:E2; [by injection Hx as ->|].
  assert (c = "-"%char) as ->.
  { unfold B in Hc. simpl in Hc. rewrite !elem_of_cons in Hc.
    by destruct Hc as [->|[->|[->|Hc%not_elem_of_nil]]]. }
  change (byte_eqb "-" "-") with true. apply here_cons in H as (_ & _ & H).
  rewrite (here_lt _ _ _ H). apply here_cons in H as (-> & _ & _).
  replace (isdigit d || byte_eqb d "(" || isalpha d) with true.
  { cbn [andb]. by rewrite Hx. }
  specialize (Hm eq_refl). unfold name_start in Hd. apply byte_eqb_neq in Hm. rewrite Hm, orb_false_r in Hd.
  by destruct (isdigit d), (isalpha d), (byte_eqb d "(").
Qed.

Lemma read_unary k e n pos w v c rest x :
  reads k e -> well_formed e -> (c = "-"%char -> at_ (print e) 0 <> "_"%char) -> computed e = Some v -> c ∈ B "!~-" -> unary_code c v = Some x ->
  here pos ("("%char :: c :: print e ++ ")"%char :: rest) ->
  parse_unary_fuel expr (parse_cond expr (S k)) (S n) pos w = Val x (pos + 2 + length (print e) + 1) w.
Proof.
  intros He Hwf Hm' Hv Hc Hx H. pose proof (here_cons _ _ _ H) as (_ & _ & H1).
  pose proof (here_cons _ _ _ H1) as (_ & _ & H2). destruct (length_S _ _ _ H) as [m Hm].
  assert (Hu : parse_unary expr (parse_cond expr k) (pos + 1) w = Val x (pos + 1 + 1 + length (print e)) w).
  { unfold parse_unary. destruct (print_head e Hwf) as (d & t & Hd & Hd'). rewrite Hd in H1. simpl in H1.
    eapply unary_op; [exact H1|exact Hc|exact Hd'|by rewrite Hd in Hm'| |exact Hx]. rewrite Hm. eapply He; [exact Hv|exact H2|done]. }
  apply here_app in H2. pose proof (here_ws_solid _ _ H2 eq_refl) as Hs.
  destruct (read_sub k _ _ _ _ ")"%char rest Hu) as (q & Hq & Hw); [by rewrite Hs|by left|].
  rewrite (read_paren (S k) n pos w x (skip_ws expr q) _ rest H).
  - f_equal. rewrite skip_ws_idem, Hw, Hs. lia.
  - eapply cond_or; [exact Hq|by rewrite Hw, Hs|reflexivity].
  - by rewrite skip_ws_idem, Hw, Hs.
Qed.

Lemma read_binary k l r o n pos w a b x rest :
  reads k l -> reads k r -> well_formed l -> well_formed r -> computed l = Some a -> computed r = Some b ->
  binop_code o a b = Some x ->
  here pos ("("%char :: print l ++ c_sp :: binop_text o ++ c_sp :: print r ++ ")"%char :: rest) ->
  parse_unary_fuel expr (parse_cond expr (S k)) (S n) pos w =
    Val x (pos + 1 + length (print l) + 1 + length (binop_text o) + 1 + length (print r) + 1) w.
Proof.
  intros Hl Hr Hwl Hwr Ha Hb Hx H. pose proof (here_cons _ _ _ H) as (_ & _ & H1).
  assert (Hul : parse_unary expr (parse_cond expr k) (pos + 1) w = Val a (pos + 1 + length (print l)) w)
    by (unfold parse_unary; by eapply Hl).
  apply here_app in H1. pose proof (here_ws_space _ _ H1) as Hs1.
  pose proof (here_cons _ _ _ H1) as (_ & _ & H2).
  rewrite (here_ws_solid _ _ H2) in Hs1 by (unfold solid; by destruct o).
  pose proof (here_app _ _ _ H2) as H3.
  destruct (read_operand k r _ w ")"%char rest b Hr Hwr Hb H3 eq_refl) as [Hur H4].
  pose proof (here_ws_solid _ _ H4 eq_refl) as Hs4.
  set (qb := (pos + 1 + length (print l) + 1 + length (binop_text o) + 1 + length (print r))%nat) in *.
  destruct (read_bin (parse_cond expr k) o (pos + 1) w a b x _ qb (print r ++ ")"%char :: rest) Hul) as (q & Hq & Hw).
  - by rewrite Hs1.
  - by rewrite Hs1.
  - rewrite Hs4. eapply stop_quiet; [exact H4|by left].
  - exact Hx.
  - rewrite (read_paren (S k) n pos w x (skip_ws expr q) _ rest H).
    + f_equal. rewrite skip_ws_idem, Hw, Hs4. lia.
    + eapply cond_or; [exact Hq|by rewrite Hw, Hs4|reflexivity].
    + by rewrite skip_ws_idem, Hw, Hs4.
Qed.

Lemma cond_S k pos w :
  parse_cond expr (S k) pos w =
    let! (cond, pos, w) := parse_or expr (parse_cond expr k) pos w in
    let pos := skip_ws expr pos in
    if in_text expr pos "?"%char then
      let! (then_v, pos, w) := parse_cond expr k (pos + 1)%nat w in
      let pos := skip_ws expr pos in
      let pos := if in_text expr pos ":"%char then (pos + 1)%nat else pos in
      let! (else_v, pos, w) := parse_cond expr k pos w in
      Val (if cond =? 0 then else_v else then_v) pos w
    else Val cond pos w.
Proof. reflexivity. Qed.

(** A branch of [? :]. *)
Lemma read_branch k e pos w v u c t :
  reads k e -> computed e = Some v -> here pos (c_sp :: print e ++ u) -> ends_operand u ->
  here (skip_ws expr (pos + 1 + length (print e))) (c :: t) -> c ∈ B "):" ->
  parse_cond expr (S k) pos w = Val v (skip_ws expr (pos + 1 + length (print e))) w.
Proof.
  intros He Hv H Hu Hh Hc. pose proof (here_ws_space _ _ H) as Hs. apply here_cons in H as (_ & _ & H).
  assert (Hp : parse_unary expr (parse_cond expr k) pos w = Val v (pos + 1 + length (print e)) w).
  { unfold parse_unary. rewrite unary_spaced, Hs, <- unary_spaced. by eapply He. }
  unfold B in Hc. simpl in Hc. rewrite !elem_of_cons in Hc.
  assert (Hc' : c ∈ B ")?:" /\ byte_eqb c "?"%char = false).
  { destruct Hc as [->|[->|Hc%not_elem_of_nil]]; [split; [left|done]|split; [right; right; left|done]|done]. }
  destruct Hc' as [Hc1 Hc2]. destruct (read_sub k _ _ _ _ c t Hp Hh Hc1) as (q & Hq & Hw).
  rewrite <- Hw. eapply cond_or; [exact Hq|by rewrite Hw|exact Hc2].
Qed.

Lemma read_conditional k b t e n pos w vb vt ve rest :
  reads (S k) b -> reads k t -> reads k e -> computed b = Some vb -> computed t = Some vt -> computed e = Some ve ->
  here pos ("("%char :: print b ++ c_sp :: "?"%char :: c_sp :: print t ++ c_sp :: ":"%char :: c_sp :: print e ++ ")"%char :: rest) ->
  parse_unary_fuel expr (parse_cond expr (S (S k))) (S n) pos w =
    Val (if vb =? 0 then ve else vt) (pos + 1 + length (print b) + 3 + length (print t) + 3 + length (print e) + 1) w.
Proof.
  intros Hb Ht He Hvb Hvt Hve H. pose proof (here_cons _ _ _ H) as (_ & _ & H1).
  assert (Hu : parse_unary expr (parse_cond expr (S k)) (pos + 1) w = Val vb (pos + 1 + length (print b)) w)
    by (unfold parse_unary; by eapply Hb).
  apply here_app in H1. pose proof (here_ws_space _ _ H1) as Hs1. apply here_cons in H1 as (_ & _ & H1).
  rewrite (here_ws_solid _ _ H1 eq_refl) in Hs1.
  pose proof H1 as Hh. rewrite <- Hs1 in Hh.
  destruct (read_sub (S k) _ _ _ _ "?"%char _ Hu Hh) as (q & Hq & Hw); [right; left|].
  pose proof (here_cons _ _ _ H1) as (_ & _ & H2). pose proof H2 as H2'.
  apply here_cons in H2' as (_ & _ & H3). apply here_app in H3. pose proof (here_ws_space _ _ H3) as Hs3.
  apply here_cons in H3 as (_ & _ & H3). rewrite (here_ws_solid _ _ H3 eq_refl) in Hs3.
  pose proof (here_cons _ _ _ H3) as (_ & _ & H4). pose proof H4 as H4'.
  apply here_cons in H4' as (_ & _ & H5). apply here_app in H5. pose proof (here_ws_solid _ _ H5 eq_refl) as Hs5.
  pose proof (read_branch k t _ w vt _ ":"%char _ Ht Hvt H2 eq_refl ltac:(rewrite Hs3; exact H3) ltac:(right; left)) as Pt.
  pose proof (read_branch k e _ w ve _ ")"%char _ He Hve H4 eq_refl ltac:(rewrite Hs5; exact H5) ltac:(left)) as Pe.
  rewrite (read_paren (S (S k)) n pos w (if vb =? 0 then ve else vt)
    (pos + 1 + length (print b) + 1 + 1 + 1 + length (print t) + 1 + 1 + 1 + length (print e)) _ rest H).
  - f_equal. rewrite Hs5. lia.
  - rewrite cond_S, Hq. cbn [bind]. rewrite Hw, Hs1, (here_byte _ _ _ _ H1).
    change (byte_eqb "?" "?") with true. cbv zeta iota. rewrite Pt, Hs3. cbn [bind].
    rewrite (here_ws_solid _ _ H3 eq_refl), (here_byte _ _ _ _ H3). change (byte_eqb ":" ":") with true. cbv iota.
    rewrite Pe, Hs5. reflexivity.
  - by rewrite Hs5.
Qed.

(** What a printed condition occupies; its text, right-associated. *)
Ltac lengths := f_equal; cbn [print]; rewrite !length_app; unfold B; cbn [length list_ascii_of_string]; lia.
Ltac reshape H := unfold here in *; rewrite H; cbn [print]; by rewrite <- !app_assoc.

Lemma print_reads e : well_formed e -> forall k, (depth e <= k)%nat -> reads k e.
Proof.
  induction e as [ds|name|e IH|e IH|e IH|o l IHl r IHr|b IHb t IHt e IHe];
    intros Hwf k Hk n pos w rest v Hv H Hr; pose proof Hwf as Hwf'; simpl in Hwf.
  1: { destruct (print_head _ Hwf') as (d & t & Hd & Hd'). pose proof H as H'. rewrite Hd in H'.
    destruct (unary_primary (parse_cond expr k) n pos w _ _ H' Hd') as [_ ->]. by eapply read_word. }
  1: { destruct (unary_primary (parse_cond expr k) n pos w _ _ H eq_refl) as [_ ->]. by eapply read_defined. }
  all: destruct k as [|k]; [simpl in Hk; lia|]; simpl in Hv, Hk.
  1-3: apply bind_Some in Hv as (a & Ha & Hv); assert (He : reads k e) by (apply IH; [by apply Hwf || tauto|lia]).
  - injection Hv as <-. rewrite (read_unary k e n pos w a "!"%char rest (if a =? 0 then 1 else 0) He Hwf ltac:(done) Ha);
      [lengths|left|done|reshape H].
  - injection Hv as <-. rewrite (read_unary k e n pos w a "~"%char rest (- a - 1) He Hwf ltac:(done) Ha); [lengths|right; left|done|reshape H].
  - destruct Hwf as [Hwf Hm]. rewrite (read_unary k e n pos w a "-"%char rest v He Hwf ltac:(done) Ha); [lengths|right; right; left|exact Hv|reshape H].
  - destruct Hwf as [Hl0 Hr0]. apply bind_Some in Hv as (a & Ha & Hv). apply bind_Some in Hv as (c & Hc & Hv).
    rewrite (read_binary k l r o n pos w a c v rest);
      [lengths|apply IHl; [done|lia]|apply IHr; [done|lia]|done..|reshape H].
  - destruct Hwf as (Hb0 & Ht0 & He0). destruct k as [|k]; [lia|].
    apply bind_Some in Hv as (a & Ha & Hv). apply bind_Some in Hv as (c & Hc & Hv). apply bind_Some in Hv as (d & Hd & [= <-]).
    rewrite (read_conditional k b t e n pos w a c d rest);
      [lengths|apply IHb; [done|lia]|apply IHt; [done|lia]|apply IHe; [done|lia]|done..|reshape H].
Qed.

Lemma depth_length e : (depth e <= length (print e))%nat.
Proof.
  induction e; cbn [depth print]; rewrite ?length_app; unfold B; cbn [length list_ascii_of_string]; lia.
Qed.

Lemma end_quiet pos i j : here pos [] -> quiet i j pos.
Proof.
  intros H k _. unfold here in H. apply (f_equal length) in H. rewrite length_drop in H. simpl in H.
  assert (H1 : (pos <? length expr)%nat = false) by (apply Nat.ltb_ge; lia).
  assert (H2 : (pos + 1 <? length expr)%nat = false) by (apply Nat.ltb_ge; lia).
  destruct k as [|[|[|[|[|[|[|[|k]]]]]]]]; cbn [tier_op];
    unfold mul_op, add_op, shift_op, cmp_op, bitand_op, bitxor_op, bitor_op, and_op, or_op, one, two, alone, in_text;
    by rewrite ?H1, ?H2.
Qed.

(** A whole text that is a printed condition. *)
Lemma read_whole e v :
  expr = print e -> well_formed e -> computed e = Some v ->
  exists q, parse_cond expr (S (S (length expr))) 0 0 = Val v q 0.
Proof.
  intros He Hwf Hv. remember (S (length expr)) as k eqn:Hk.
  assert (Hd : (depth e <= k)%nat) by (pose proof (depth_length e); rewrite Hk, He; lia).
  assert (H0 : here 0 (print e ++ [])) by (unfold here; by rewrite app_nil_r, He, drop_0).
  assert (Hu : parse_unary expr (parse_cond expr k) 0 0 = Val v (0 + length (print e)) 0)
    by (unfold parse_unary; by eapply (print_reads e Hwf k Hd)).
  apply here_app in H0. pose proof (here_ws_solid _ _ H0 eq_refl) as Hs.
  destruct (read_or (parse_cond expr k) 0 0 v _ Hu) as (q & Hq & Hw); [rewrite Hs; by apply end_quiet|].
  exists (skip_ws expr q). rewrite cond_S, Hq. cbn [bind]. rewrite Hw, Hs.
  assert (Hl : (0 + length (print e) <? length expr)%nat = false) by (apply Nat.ltb_ge; rewrite He; lia).
  unfold in_text. rewrite Hl. reflexivity.
Qed.
End Meaning.


(** Well-formedness, decided. *)
Definition constantb (w : bytes) : bool := negb (is_nil w) && forallb isdigit w && (negb (byte_eqb (at_ w 0) "0"%char) || (length w =? 1)%nat).
Definition free_nameb `{IfMacros} (w : bytes) : bool :=
  name_head w && forallb word_char w && negb (bytes_eqb w (B "defined")) && negb (starts_with w (B "__has_")) &&
  match define_find w with None => true | _ => false end && negb (macro_count w).
Fixpoint well_formedb `{IfMacros} (e : cexpr) : bool :=
  match e with
  | Word w => constantb w || free_nameb w
  | Defined name => negb (is_nil name) && forallb word_char name
  | Not e | Compl e => well_formedb e
  | Minus e => well_formedb e && negb (byte_eqb (at_ (print e) 0) "_"%char)
  | Bin _ l r => well_formedb l && well_formedb r
  | Cond c t e => well_formedb c && (well_formedb t && well_formedb e)
  end.
Lemma forallb_Forall p (w : bytes) : forallb p w = true -> Forall (fun c => p c = true) w.
Proof. intros H. by apply List.Forall_forall, forallb_forall. Qed.
Lemma constantb_ok w : constantb w = true -> constant w.
Proof.
  unfold constantb. intros [[H1 H2]%andb_prop H3]%andb_prop. split_and!; [by intros ->|by apply forallb_Forall|].
  intros E0. rewrite E0, byte_eqb_refl in H3. by apply Nat.eqb_eq.
Qed.
Lemma free_nameb_ok `{IfMacros} w : free_nameb w = true -> free_name w.
Proof.
  unfold free_nameb. intros [[[[[H1 H2]%andb_prop H3]%andb_prop H4]%andb_prop H5]%andb_prop H6]%andb_prop.
  apply negb_true_iff in H3, H4, H6. split_and!; try done; [by apply forallb_Forall|by destruct (define_find w)].
Qed.
Lemma well_formedb_ok `{IfMacros} e : well_formedb e = true -> well_formed e.
Proof.
  induction e as [w|name|e IH|e IH|e IH|o l IHl r IHr|c IHc t IHt e IHe]; cbn [well_formedb well_formed]; auto.
  - intros [Hw|Hw]%orb_prop; [left; by apply constantb_ok|right; by apply free_nameb_ok].
  - intros [H1 H2]%andb_prop. split; [by intros ->|by apply forallb_Forall].
  - intros [H1 H2]%andb_prop. split; [by apply IH|]. apply negb_true_iff in H2. by apply byte_eqb_neq.
  - intros [H1 H2]%andb_prop. auto.
  - intros [H1 [H2 H3]%andb_prop]%andb_prop. auto.
Qed.

(** *** Witnesses, over tables in which one macro is defined *)

#[local] Instance one_macro : IfMacros := {
  expandIfMacros e := e;
  macro_name_defined n := bytes_eqb n (B "HAVE_X");
  define_find n := if bytes_eqb n (B "HAVE_X") then Some (B " 0x10") else None;
  macro_count n := false;
  evaluateHasQuery op e pos := (1, S pos);
  char_is_unsigned := false
}.
#[local] Instance one_macro_laws : IfMacrosLaws.
Proof. constructor. intros. simpl. lia. Qed.

Definition sample_condition : cexpr :=
  Cond (Bin And (Defined (B "HAVE_X")) (Not (Bin And (Word (B "_Y")) (Bin Div (Word (B "1")) (Word (B "0"))))))
    (Bin Ge (Bin Mod (Bin Mul (Word (B "201")) (Word (B "100"))) (Minus (Word (B "7")))) (Bin Shl (Word (B "1")) (Word (B "1"))))
    (Compl (Word (B "0"))).
Definition sample_text : bytes := print sample_condition.


Lemma condition_evaluates_witness :
  evaluate_if_text (B "2 + (HAVE_X * 'ab' ? !-(1) : __has_include(<x>)") <> no_verdict.
Proof. apply (condition_evaluates one_macro one_macro_laws). Defined.

(** *** Where the evaluator departs from C *)

(** The right operand of a shift is a unary expression, after which the rest of
    the condition is not read: C's value is 0. *)
Example shift_operand : evaluate_if_text (B "1 << 1 + 1 != 4") = decided true 0.
Proof. vm_compute. reflexivity. Qed.
(** Equality and the relational operators are one tier: C's value is 0. *)
Example equality_tier : evaluate_if_text (B "2 == 1 < 2") = decided true 0.
Proof. vm_compute. reflexivity. Qed.
(** A leading zero does not make a constant octal: C's value is 1. *)
Example octal_constant : evaluate_if_text (B "010 == 8") = decided false 0.
Proof. vm_compute. reflexivity. Qed.
(** Unary plus, and a minus a blank follows, read as 0. *)
Example unary_plus : evaluate_if_text (B "+1 == 1") = decided false 0 /\ evaluate_if_text (B "- 1 == -1") = decided false 0.
Proof. vm_compute. done. Qed.
(** Operands C leaves unevaluated are computed: C's value is 0. *)
Example unevaluated_operand : evaluate_if_text (B "0 && (1 << 64)") = undefined /\ evaluate_if_text (B "0 && (1 / 0)") = decided false 0.
Proof. vm_compute. done. Qed.
(** A minus is no sign before a name with a leading underscore: C's value is 1. *)
Example minus_underscore : evaluate_if_text (B "(-_Y) == 0") = decided false 0 /\ evaluate_if_text (B "(-Y) == 0") = decided true 0.
Proof. vm_compute. done. Qed.
(** A binary constant reads as its leading 0. *)
Example binary_constant : evaluate_if_text (B "0b11") = decided false 0.
Proof. vm_compute. reflexivity. Qed.
(** The least integer divided by -1 traps. *)
Example least_quotient : evaluate_if_text (B "(-9223372036854775807 - 1) / -1") = undefined.
Proof. vm_compute. reflexivity. Qed.
(** An unsigned constant is signed: C's value is 1. *)
Example unsigned_constant : evaluate_if_text (B "-1 > 0u") = decided false 0 /\ evaluate_if_text (B "0xFFFFFFFFFFFFFFFF == -1") = decided true 0.
Proof. vm_compute. done. Qed.
