(* ===== verification/Conditional.v ===== *)
(** Conditional inclusion: the [#if] ... [#endif] groups of [src/lexer.cpp] and
    the include-guard watch of [include/madc.h].

    [Module Groups] is the state machine the directive handlers and
    [skipConditionalBlock] run on, over the directive lines of a file;
    [conditional_inclusion] shows it computes C11 6.10.1, [guard_verdict] that the
    guard watch finds exactly the files one guarded group makes up.  The second
    half reads those lines from a [source]: [skipConditionalBlock] and
    [read_if_condition_text].  The [pack_cond_*] hooks, which act only while a
    freeze records, are not modelled. *)
From S2P Require Import Prelude Source IfEval.
#[local] Open Scope nat_scope.

(** ** The state *)

Inductive CondDirective := If | Ifdef | Ifndef | Elif | Else.
Record ConditionalGroup := OpenGroup { taken : bool; directive : CondDirective; g_line : Z; g_column : Z }.
Record IncludeGuardWatch := Watch { key : bytes; base : nat; guard : bytes; valid : bool; closed : bool }.
Definition verdict (w : IncludeGuardWatch) : bytes := if valid w && closed w then guard w else [].

(** The top of a stack is its head. *)
Record conditionals := Conditionals {
  ifdef_stack : list bool;
  cond_groups : list ConditionalGroup;
  guard_watch : IncludeGuardWatch
}.

Definition set_watch (st : conditionals) (guard : bytes) (valid closed : bool) : conditionals :=
  Conditionals (ifdef_stack st) (cond_groups st) (Watch (key (guard_watch st)) (base (guard_watch st)) guard valid closed).
Definition invalidate (st : conditionals) : conditionals :=
  set_watch st (guard (guard_watch st)) false (closed (guard_watch st)).

(** ** The guard watch *)

(** The watch is on and the group depth is [n] past the file's own. *)
Definition watching_at (st : conditionals) (n : nat) : bool :=
  negb (is_nil (key (guard_watch st))) && (length (cond_groups st) =? base (guard_watch st) + n).

Definition guard_watch_content (st : conditionals) : conditionals :=
  if watching_at st 0 then invalidate st else st.
Definition guard_watch_open (st : conditionals) (cmacro : bytes) : conditionals :=
  if negb (watching_at st 0) then st
  else
    let w := guard_watch st in
    if valid w && is_nil (guard w) && negb (is_nil cmacro) then set_watch st cmacro (valid w) (closed w)
    else invalidate st.
Definition guard_watch_branch (st : conditionals) : conditionals :=
  if watching_at st 1 then invalidate st else st.
Definition guard_watch_close (st : conditionals) : conditionals :=
  if negb (watching_at st 0) then st
  else
    let w := guard_watch st in
    if valid w && negb (is_nil (guard w)) && negb (closed w) then set_watch st (guard w) (valid w) true
    else invalidate st.

(** ** The directives' handlers *)

(** [ifdef_stack.push(active)]; the group opened at ([row], [col]). *)
Definition open_group (st : conditionals) (kind : CondDirective) (cmacro : bytes) (active : bool) (row col : Z) : conditionals :=
  let st := guard_watch_open st cmacro in
  Conditionals (active :: ifdef_stack st) (OpenGroup active kind row col :: cond_groups st) (guard_watch st).

Definition top_taken (st : conditionals) : bool :=
  match cond_groups st with g :: _ => taken g | [] => false end.
Definition set_top (st : conditionals) (f : ConditionalGroup -> ConditionalGroup) : conditionals :=
  Conditionals (ifdef_stack st) (match cond_groups st with g :: r => f g :: r | [] => [] end) (guard_watch st).
Definition set_active (st : conditionals) (active : bool) : conditionals :=
  Conditionals (active :: tail (ifdef_stack st)) (cond_groups st) (guard_watch st).
Definition take_arm (g : ConditionalGroup) : ConditionalGroup := OpenGroup true (directive g) (g_line g) (g_column g).
Definition move (d : CondDirective) (g : ConditionalGroup) : ConditionalGroup := OpenGroup (taken g) d (g_line g) (g_column g).

(** A branch is reached: its arm is [active] or not. *)
Definition branch (st : conditionals) (d : CondDirective) : conditionals := set_top (guard_watch_branch st) (move d).
Definition enter_arm (st : conditionals) (active : bool) : conditionals :=
  let st := set_active st active in if active then set_top st take_arm else st.
Definition close_group (st : conditionals) : conditionals :=
  guard_watch_close (Conditionals (tail (ifdef_stack st)) (tail (cond_groups st)) (guard_watch st)).

Definition directive_name (d : CondDirective) : bytes :=
  match d with If => B "if" | Ifdef => B "ifdef" | Ifndef => B "ifndef" | Elif => B "elif" | Else => B "else" end.

(** The refusal and its position. *)
Definition refuse_open_conditional_groups (st : conditionals) (groups_at_entry : nat) : option (bytes * Z * Z) :=
  if length (cond_groups st) <=? groups_at_entry then None
  else match cond_groups st with
       | g :: _ => Some (B "unterminated #" ++ directive_name (directive g), g_line g, g_column g)
       | [] => None
       end.

(** ** The machine over directive lines *)
Module Groups.
Section Machine.
(** A text line; a condition, its value unless the evaluation throws. *)
Context {T C : Type} (evaluate : C -> option bool).

Inductive pp_line :=
| Text (t : T)
| Open (kind : CondDirective) (c : C) (cmacro : bytes) (row col : Z)
| ElifLine (c : C)
| ElseLine
| EndifLine.

Inductive mode := Live | Skipping (depth : nat).

(** [None]: the directive is refused. *)
Definition live_line (st : conditionals) (l : pp_line) : option (conditionals * mode * list T) :=
  match l with
  | Text t => Some (guard_watch_content st, Live, [t])
  | Open kind c cmacro row col =>
      active ← evaluate c; Some (open_group st kind cmacro active row col, if active : bool then Live else Skipping 0, [])
  | ElifLine c =>
      if is_nil (ifdef_stack st) then None
      else
        let st := branch st Elif in
        if top_taken st then Some (set_active st false, Skipping 0, [])
        else active ← evaluate c; Some (enter_arm st active, if active : bool then Live else Skipping 0, [])
  | ElseLine =>
      if is_nil (ifdef_stack st) then None
      else
        let st := branch st Else in
        let active := negb (top_taken st) in
        Some (enter_arm st active, if active then Live else Skipping 0, [])
  | EndifLine => if is_nil (ifdef_stack st) then None else Some (close_group st, Live, [])
  end.

(** A line of a skipped group ([skipConditionalBlock]). *)
Definition skipped_line (st : conditionals) (depth : nat) (l : pp_line) : option (conditionals * mode) :=
  match l, depth with
  | Text _, _ => Some (st, Skipping depth)
  | Open _ _ _ _ _, _ => Some (st, Skipping (S depth))
  | EndifLine, O => Some (close_group st, Live)
  | EndifLine, S d => Some (st, Skipping d)
  | ElseLine, O =>
      let st := branch st Else in
      let active := negb (top_taken st) in
      Some (enter_arm st active, if active then Live else Skipping 0)
  | ElifLine c, O =>
      let st := branch st Elif in
      if top_taken st then Some (set_active st false, Skipping 0)
      else active ← evaluate c; Some (enter_arm st active, if active : bool then Live else Skipping 0)
  | _, _ => Some (st, Skipping depth)
  end.

Definition run_line (c : conditionals * mode * list T) (l : pp_line) : option (conditionals * mode * list T) :=
  let '(st, m, out) := c in
  match m with
  | Live => '(st, m, o) ← live_line st l; Some (st, m, out ++ o)
  | Skipping d => '(st, m) ← skipped_line st d l; Some (st, m, out)
  end.
Definition run (ls : list pp_line) (c : conditionals * mode * list T) : option (conditionals * mode * list T) :=
  fold_left (fun c l => c ← c; run_line c l) ls (Some c).

(** ** The reference: a file as a tree of groups *)

Inductive items :=
| nothing
| text (t : T) (rest : items)
| group (kind : CondDirective) (c : C) (cmacro : bytes) (row col : Z) (body : items) (more : arms) (rest : items)
with arms :=
| endif
| els (body : items)
| elif (c : C) (body : items) (more : arms).

Scheme items_ind2 := Induction for items Sort Prop
  with arms_ind2 := Induction for arms Sort Prop.
Combined Scheme tree_ind from items_ind2, arms_ind2.

Fixpoint lines (i : items) : list pp_line :=
  match i with
  | nothing => []
  | text t r => Text t :: lines r
  | group kind c m row col b a r => Open kind c m row col :: lines b ++ arm_lines a ++ lines r
  end
with arm_lines (a : arms) : list pp_line :=
  match a with
  | endif => [EndifLine]
  | els b => ElseLine :: lines b ++ [EndifLine]
  | elif c b a => ElifLine c :: lines b ++ arm_lines a
  end.

(** C11 6.10.1p6: of each group the first arm whose condition holds, or the
    [#else]; the conditions after it are not evaluated. *)
Fixpoint kept (i : items) : option (list T) :=
  match i with
  | nothing => Some []
  | text t r => out ← kept r; Some (t :: out)
  | group _ c _ _ _ b a r =>
      active ← evaluate c;
      x ← (if active : bool then kept b else kept_arms a);
      y ← kept r; Some (x ++ y)
  end
with kept_arms (a : arms) : option (list T) :=
  match a with
  | endif => Some []
  | els b => kept b
  | elif c b a => active ← evaluate c; if active : bool then kept b else kept_arms a
  end.

(** The macro a file is guarded by: it is one group, opened on the macro, with
    no other arm. *)
Definition guarded_by (i : items) : bytes :=
  match i with group _ _ m _ _ _ endif nothing => m | _ => [] end.

(** ** The machine computes the reference *)

Lemma run_app ls ls' c : run (ls ++ ls') c = c ← run ls c; run ls' c.
Proof.
  assert (Hnone : forall ls, fold_left (fun c l => c ← c; run_line c l) ls (None : option (conditionals * mode * list T)) = None)
    by (induction ls0; done).
  unfold run. rewrite fold_left_app. destruct (fold_left _ ls (Some c)) as [c'|]; simpl; [done|apply Hnone].
Qed.
Lemma run_cons l ls c : run (l :: ls) c = c ← run_line c l; run ls c.
Proof. exact (run_app [l] ls c). Qed.

(** A skipped part changes nothing; a nested group's end is its own. *)
Lemma run_skipped :
  (forall i st d out, run (lines i) (st, Skipping d, out) = Some (st, Skipping d, out)) /\
  (forall a st d out, run (arm_lines a) (st, Skipping (S d), out) = Some (st, Skipping d, out)).
Proof.
  apply tree_ind; simpl; intros; rewrite ?run_cons, ?run_app; simpl; auto.
  - rewrite run_app, H. simpl. rewrite run_app, H0. simpl. done.
  - rewrite run_app, H. done.
  - rewrite run_app, H. simpl. done.
Qed.

(** *** What a part of a file does to the watch

    [n] is the group depth the part starts and ends at. *)

Definition watched (n : nat) (w : IncludeGuardWatch) : bool := negb (is_nil (key w)) && (n =? base w).
Definition same_file (w w' : IncludeGuardWatch) : Prop := key w' = key w /\ base w' = base w.
Definition watch_part (n : nat) (w w' : IncludeGuardWatch) (spec : Prop) : Prop :=
  base w <= n -> if watched n w then same_file w w' /\ (valid w = false -> valid w' = false) /\ spec else w' = w.

Definition items_watch (i : items) (w w' : IncludeGuardWatch) : Prop :=
  (i = nothing -> w' = w) /\ (guard w <> [] -> i <> nothing -> valid w' = false) /\
  (valid w = true -> guard w = [] -> closed w = false -> verdict w' = guarded_by i).
(** The arms of a group, to its end. *)
Definition arms_watch (a : arms) (w w' : IncludeGuardWatch) : Prop :=
  (a <> endif -> valid w' = false) /\
  (a = endif -> guard w' = guard w /\ (valid w = true -> guard w <> [] -> closed w = false -> valid w' = true /\ closed w' = true)).

Lemma close_watch K G w x g :
  exists w', close_group (Conditionals (x :: K) (g :: G) w) = Conditionals K G w' /\
    watch_part (length G) w w' (arms_watch endif w w').
Proof.
  unfold close_group, guard_watch_close, watching_at, watch_part, watched. simpl. rewrite Nat.add_0_r.
  destruct (_ && _) eqn:E; simpl; [|by eexists].
  destruct w as [k b gd v c]. simpl in *.
  destruct (v && negb (is_nil gd) && negb c) eqn:E2; simpl; eexists; (split; [reflexivity|]); intros _;
    unfold same_file, arms_watch; simpl; rewrite ?E; split_and!; try done; reflect_bool; try congruence.
  intros _. split; [done|]. intros -> Hg ->. exfalso. destruct gd; [done|]. simpl in *. done.
Qed.

Lemma branch_watch K G w x g d :
  exists w', branch (Conditionals (x :: K) (g :: G) w) d = Conditionals (x :: K) (move d g :: G) w' /\
    watch_part (length G) w w' (valid w' = false /\ guard w' = guard w).
Proof.
  unfold branch, guard_watch_branch, watching_at, watch_part, watched. cbn [guard_watch ifdef_stack cond_groups length].
  replace (S (length G) =? base w + 1) with (length G =? base w).
  2:{ destruct (length G =? base w) eqn:E; symmetry; [apply Nat.eqb_eq in E; apply Nat.eqb_eq; lia|].
      apply Nat.eqb_neq in E. apply Nat.eqb_neq. lia. }
  destruct (_ && _) eqn:E; simpl; eexists; (split; [reflexivity|]); intros _; [|done].
  unfold same_file. simpl. by split_and!.
Qed.

(** Deeper than the file's own depth the watch sees nothing. *)
Lemma watch_deep n w w' P : watch_part (S n) w w' P -> base w <= n -> w' = w.
Proof.
  unfold watch_part, watched. intros H Hn. specialize (H ltac:(lia)).
  rewrite (proj2 (Nat.eqb_neq (S n) (base w))) in H by lia. by rewrite andb_false_r in H.
Qed.

(** A part after another. *)
Lemma watch_after n w w1 w2 P Q R :
  watch_part n w w1 P -> watch_part n w1 w2 Q ->
  (P -> Q -> (valid w1 = false -> valid w2 = false) -> R) -> watch_part n w w2 R.
Proof.
  unfold watch_part, watched, same_file. intros H1 H2 HR Hn. specialize (H1 Hn).
  destruct (negb (is_nil (key w)) && (n =? base w)) eqn:E.
  - destruct H1 as ((Hk & Hb) & Hv & HP). rewrite Hk, Hb, E in H2. destruct (H2 Hn) as ((Hk2 & Hb2) & Hv2 & HQ).
    split_and!; try congruence; eauto.
  - subst w1. rewrite E in H2. by apply H2.
Qed.

Definition items_ok (i : items) : Prop :=
  forall K G w out,
  match kept i with
  | None => run (lines i) (Conditionals K G w, Live, out) = None
  | Some o => exists w', run (lines i) (Conditionals K G w, Live, out) = Some (Conditionals K G w', Live, out ++ o) /\
      watch_part (length G) w w' (items_watch i w w')
  end.

(** In an arm that is being kept, or skipped at its own depth. *)
Definition arms_ok (a : arms) : Prop :=
  forall x K g G w m out, m = Live /\ taken g = true \/ m = Skipping 0 ->
  match (if taken g then Some [] else kept_arms a) with
  | None => run (arm_lines a) (Conditionals (x :: K) (g :: G) w, m, out) = None
  | Some o => exists w', run (arm_lines a) (Conditionals (x :: K) (g :: G) w, m, out) = Some (Conditionals K G w', Live, out ++ o) /\
      watch_part (length G) w w' (arms_watch a w w')
  end.

Lemma endif_ok : arms_ok endif.
Proof.
  intros x K g G w m out Hm. destruct (close_watch K G w x g) as (w' & Hc & Hw).
  assert (Hr : run (arm_lines endif) (Conditionals (x :: K) (g :: G) w, m, out) = Some (Conditionals K G w', Live, out)).
  { simpl arm_lines. by destruct Hm as [[-> _]| ->]; rewrite run_cons; cbn [run_line live_line skipped_line is_nil ifdef_stack mbind option_bind]; rewrite Hc, ?app_nil_r. }
  simpl kept_arms. destruct (taken g); exists w'; rewrite Hr, app_nil_r; done.
Qed.

(** The first line of a further arm. *)
Lemma else_line x K g G w m out :
  m = Live /\ taken g = true \/ m = Skipping 0 ->
  exists w1 x' g', run_line (Conditionals (x :: K) (g :: G) w, m, out) ElseLine =
    Some (Conditionals (x' :: K) (g' :: G) w1, if taken g then Skipping 0 else Live, out) /\
    watch_part (length G) w w1 (valid w1 = false /\ guard w1 = guard w).
Proof.
  intros Hm. destruct (branch_watch K G w x g Else) as (w1 & Hb & Hw).
  exists w1. unfold run_line, live_line, skipped_line. cbn [is_nil ifdef_stack].
  rewrite Hb. unfold enter_arm, set_active, top_taken, set_top. cbn [cond_groups ifdef_stack guard_watch tail taken move].
  destruct Hm as [[-> Ht]| ->]; [rewrite Ht|destruct (taken g) eqn:Ht]; simpl; rewrite ?app_nil_r; eexists _, _; (split; [reflexivity|exact Hw]).
Qed.

Lemma elif_line x K g G w m out c :
  m = Live /\ taken g = true \/ m = Skipping 0 ->
  exists w1 x' g', watch_part (length G) w w1 (valid w1 = false /\ guard w1 = guard w) /\
  match (if taken g then Some false else evaluate c) with
  | None => run_line (Conditionals (x :: K) (g :: G) w, m, out) (ElifLine c) = None
  | Some active => taken g' = taken g || active /\
      run_line (Conditionals (x :: K) (g :: G) w, m, out) (ElifLine c) =
        Some (Conditionals (x' :: K) (g' :: G) w1, if active then Live else Skipping 0, out)
  end.
Proof.
  intros Hm. destruct (branch_watch K G w x g Elif) as (w1 & Hb & Hw).
  exists w1. unfold run_line, live_line, skipped_line. cbn [is_nil ifdef_stack].
  rewrite Hb. unfold enter_arm, set_active, top_taken, set_top. cbn [cond_groups ifdef_stack guard_watch tail taken move].
  destruct (taken g) eqn:Ht.
  - destruct Hm as [[-> _]| ->]; simpl; rewrite ?app_nil_r; eexists _, (move Elif g); (split; [exact Hw|]); simpl; by rewrite Ht.
  - destruct Hm as [[_ H]| ->]; [congruence|]. destruct (evaluate c) as [[]|]; simpl.
    + eexists _, (take_arm (move Elif g)). split; [exact Hw|]. done.
    + eexists _, (move Elif g). split; [exact Hw|]. simpl. by rewrite Ht.
    + exists x, g. by split.
Qed.

Lemma els_ok b : items_ok b -> arms_ok (els b).
Proof.
  intros IH x K g G w m out Hm. cbn [arm_lines kept_arms].
  destruct (else_line x K g G w m out Hm) as (w1 & x' & g' & H1 & Hw1). rewrite run_cons, H1. cbn [mbind option_bind].
  assert (Hend : forall w2 m out, m = Live \/ m = Skipping 0 -> exists w', 
    run [EndifLine] (Conditionals (x' :: K) (g' :: G) w2, m, out) = Some (Conditionals K G w', Live, out) /\
    watch_part (length G) w2 w' True).
  { intros w2 m2 out2 Hm2. destruct (close_watch K G w2 x' g') as (w' & Hc & Hw). exists w'. rewrite <- Hc. split.
    - by destruct Hm2 as [-> | ->]; rewrite run_cons; cbn [run_line live_line skipped_line is_nil ifdef_stack mbind option_bind]; rewrite ?app_nil_r.
    - eapply watch_after; [|exact Hw|done]. intros _. case_if; done. }
  destruct (taken g).
  - rewrite run_app, (proj1 run_skipped). cbn [mbind option_bind].
    destruct (Hend w1 (Skipping 0) out (or_intror eq_refl)) as (w' & Hr & Hw). exists w'. rewrite app_nil_r. split; [exact Hr|].
    eapply watch_after; [exact Hw1|exact Hw|]. intros [Hv _] _ Hm'. split; [intros _; by apply Hm'|done].
  - rewrite run_app. specialize (IH (x' :: K) (g' :: G) w1 out). destruct (kept b) as [o|]; [|by rewrite IH].
    destruct IH as (w2 & -> & Hw2). cbn [mbind option_bind].
    destruct (Hend w2 Live (out ++ o) (or_introl eq_refl)) as (w' & Hr & Hw). exists w'. split; [exact Hr|].
    eapply watch_after; [exact Hw1| |intros [Hv _] _ Hm'; split; [intros _; by apply Hm'|done]].
    intros Hn. rewrite (watch_deep _ _ _ _ Hw2 Hn) in Hw. by apply Hw.
Qed.

Lemma elif_ok c b a : items_ok b -> arms_ok a -> arms_ok (elif c b a).
Proof.
  intros IHb IHa x K g G w m out Hm. cbn [arm_lines kept_arms].
  destruct (elif_line x K g G w m out c Hm) as (w1 & x' & g' & Hw1 & H1). rewrite run_cons.
  assert (Hrest : forall w2 w3 Q, watch_part (length G) w1 w2 Q -> watch_part (length G) w2 w3 (arms_watch a w2 w3) ->
    watch_part (length G) w w3 (arms_watch (elif c b a) w w3)).
  { intros w2 w3 Q H2 H3. eapply watch_after; [exact Hw1|exact (watch_after _ _ _ _ _ _ True H2 H3 (fun _ _ _ => I))|].
    intros [Hv _] _ H. split; [intros _; by apply H|done]. }
  assert (Hskip : forall w1', watch_part (length G) w1 w1' True ->
    match (if taken g' then Some [] else kept_arms a) with
    | None => run (lines b ++ arm_lines a) (Conditionals (x' :: K) (g' :: G) w1', Skipping 0, out) = None
    | Some o => exists w', run (lines b ++ arm_lines a) (Conditionals (x' :: K) (g' :: G) w1', Skipping 0, out) =
        Some (Conditionals K G w', Live, out ++ o) /\ watch_part (length G) w w' (arms_watch (elif c b a) w w')
    end).
  { intros w1' Hw1'. rewrite run_app, (proj1 run_skipped). cbn [mbind option_bind].
    specialize (IHa x' K g' G w1' (Skipping 0) out (or_intror eq_refl)).
    destruct (if taken g' then Some [] else kept_arms a); [|exact IHa].
    destruct IHa as (w3 & Hr & Hw3). exists w3. split; [exact Hr|]. by eapply Hrest. }
  assert (Hself : watch_part (length G) w1 w1 True) by (intros _; by case_if).
  destruct (taken g) eqn:Ht.
  - destruct H1 as [Ht' ->]. cbn [mbind option_bind]. specialize (Hskip w1 Hself). by rewrite Ht' in Hskip.
  - destruct (evaluate c) as [[]|]; cbn [mbind option_bind orb] in *; [| |by rewrite H1]; destruct H1 as [Ht' ->]; cbn [mbind option_bind].
    2:{ specialize (Hskip w1 Hself). by rewrite Ht' in Hskip. }
    rewrite run_app. specialize (IHb (x' :: K) (g' :: G) w1 out). destruct (kept b) as [o|]; [|by rewrite IHb].
    destruct IHb as (w2 & -> & Hw2). cbn [mbind option_bind].
    specialize (IHa x' K g' G w2 Live (out ++ o) (or_introl (conj eq_refl Ht'))). rewrite Ht' in IHa.
    simpl in IHa. destruct IHa as (w3 & Hr & Hw3). rewrite app_nil_r in Hr. exists w3. split; [exact Hr|].
    intros Hn. assert (Hd : base w1 <= length G).
    { specialize (Hw1 Hn). destruct (watched _ w); [destruct Hw1 as ((_ & ->) & _); done|by subst]. }
    rewrite (watch_deep _ _ _ _ Hw2 Hd) in Hw3. by apply (Hrest w1 w3 True Hself Hw3).
Qed.

Lemma open_watch K G w kind m active row col :
  exists w1, open_group (Conditionals K G w) kind m active row col = Conditionals (active :: K) (OpenGroup active kind row col :: G) w1 /\
    watch_part (length G) w w1
      ((guard w <> [] -> valid w1 = false) /\
       (valid w = true -> guard w = [] -> closed w1 = closed w /\
        if is_nil m then valid w1 = false else valid w1 = true /\ guard w1 = m)).
Proof.
  unfold open_group, guard_watch_open, watching_at, watch_part, watched. cbn [guard_watch cond_groups ifdef_stack].
  rewrite Nat.add_0_r. destruct (_ && _) eqn:E; simpl; [|by eexists].
  destruct w as [k b gd v c]. cbn [key base guard valid closed] in *.
  destruct (v && is_nil gd && negb (is_nil m)) eqn:E2; simpl; eexists; (split; [reflexivity|]); intros _;
    unfold same_file; simpl; (split; [done|]); (split; [reflect_bool; congruence || done|]).
  - reflect_bool. apply is_nil_true in H1. subst gd v. split; [done|]. intros _ _. rewrite H0. done.
  - split; [done|]. intros -> ->. simpl in E2. split; [done|]. by destruct (is_nil m).
Qed.

Lemma group_ok kind c m row col b a r :
  items_ok b -> arms_ok a -> items_ok r -> items_ok (group kind c m row col b a r).
Proof.
  intros IHb IHa IHr K G w out. cbn [lines kept]. rewrite run_cons. cbn [run_line live_line].
  destruct (evaluate c) as [active|] eqn:Ec; cbn [mbind option_bind]; [|done].
  destruct (open_watch K G w kind m active row col) as (w1 & -> & Hw1). rewrite app_nil_r. set (g := OpenGroup active kind row col).
  assert (Hgroup : match (if active then kept b else kept_arms a) with
    | None => run (lines b ++ arm_lines a) (Conditionals (active :: K) (g :: G) w1, if active then Live else Skipping 0, out) = None
    | Some o => exists w2, run (lines b ++ arm_lines a) (Conditionals (active :: K) (g :: G) w1, if active then Live else Skipping 0, out)
        = Some (Conditionals K G w2, Live, out ++ o) /\ watch_part (length G) w1 w2 (arms_watch a w1 w2)
    end).
  { rewrite run_app. destruct active.
    - specialize (IHb (true :: K) (g :: G) w1 out). destruct (kept b) as [o|]; [|by rewrite IHb].
      destruct IHb as (w2 & -> & Hw2). cbn [mbind option_bind].
      specialize (IHa true K g G w2 Live (out ++ o) (or_introl (conj eq_refl eq_refl))). simpl in IHa.
      destruct IHa as (w3 & Hr & Hw3). rewrite app_nil_r in Hr. exists w3. split; [exact Hr|]. intros Hn.
      rewrite (watch_deep _ _ _ _ Hw2 Hn) in Hw3. by apply Hw3.
    - rewrite (proj1 run_skipped). cbn [mbind option_bind].
      exact (IHa false K g G w1 (Skipping 0) out (or_intror eq_refl)). }
  rewrite app_assoc, run_app. destruct (if active then kept b else kept_arms a) as [o|]; cbn [mbind option_bind]; [|by rewrite Hgroup].
  destruct Hgroup as (w2 & -> & Hw2). cbn [mbind option_bind]. specialize (IHr K G w2 (out ++ o)).
  destruct (kept r) as [o'|]; cbn [mbind option_bind]; [|exact IHr].
  destruct IHr as (w3 & Hr & Hw3). exists w3. rewrite app_assoc. split; [exact Hr|].
  eapply watch_after; [exact (watch_after _ _ _ _ _ _ _ Hw1 Hw2 (fun P Q H => conj P (conj Q H)))|exact Hw3|].
  intros ([Ho1 Ho2] & [Ha1 Ha2] & Hv2) (Hr1 & Hr2 & Hr3) Hv3. split; [done|]. split.
  { intros Hg _. by apply Hv3, Hv2, Ho1. }
  intros Hv Hg Hc. destruct (Ho2 Hv Hg) as [Hc1 Hm]. unfold verdict, guarded_by.
  assert (Hbad : valid w3 = false -> (if valid w3 && closed w3 then guard w3 else []) = []) by (by intros ->).
  destruct (is_nil m) eqn:Em.
  { rewrite Hbad by auto. apply is_nil_true in Em. subst m. by destruct a, r. }
  destruct Hm as [Hvm Hgm]. apply is_nil_false in Em.
  destruct a as [|b2|c2 b2 a2]; [|rewrite Hbad; [done|by apply Hv3, Ha1]..].
  destruct (Ha2 eq_refl) as [Hg2 Hc2]. destruct (Hc2 Hvm) as [Hv2' Hc2']; [congruence|congruence|].
  destruct r as [|t r|k c3 m3 row3 col3 b3 a3 r3].
  - rewrite (Hr1 eq_refl), Hv2', Hc2'. simpl. congruence.
  - rewrite Hbad; [done|]. apply Hr2; [congruence|done].
  - rewrite Hbad; [done|]. apply Hr2; [congruence|done].
Qed.

Lemma text_ok t r : items_ok r -> items_ok (text t r).
Proof.
  intros IHr K G w out. cbn [lines kept]. rewrite run_cons. cbn [run_line live_line mbind option_bind].
  assert (exists w1, guard_watch_content (Conditionals K G w) = Conditionals K G w1 /\ watch_part (length G) w w1 (valid w1 = false))
    as (w1 & -> & Hw1).
  { unfold guard_watch_content, watching_at, watch_part, watched. cbn [guard_watch cond_groups]. rewrite Nat.add_0_r.
    destruct (_ && _); eexists; (split; [reflexivity|]); intros _; done. }
  specialize (IHr K G w1 (out ++ [t])). destruct (kept r) as [o|]; [|exact IHr].
  destruct IHr as (w2 & Hr & Hw2). exists w2. rewrite <- app_assoc in Hr. split; [exact Hr|].
  eapply watch_after; [exact Hw1|exact Hw2|]. intros Hv _ Hv2. split; [done|]. split; [intros _ _; by apply Hv2|].
  intros _ _ _. unfold verdict. by rewrite (Hv2 Hv).
Qed.

Lemma tree_ok : (forall i, items_ok i) /\ (forall a, arms_ok a).
Proof.
  apply tree_ind; [|by intros; apply text_ok|by intros; apply group_ok|exact endif_ok|by intros; apply els_ok|by intros; apply elif_ok].
  intros K G w out. exists w. simpl. rewrite app_nil_r. split; [done|]. intros _. case_if; [|done].
  split; [done|]. split; [done|]. split; [done|]. split; [done|].
  intros Hv Hg Hc. unfold verdict. rewrite Hc. by rewrite andb_false_r.
Qed.

(** C4: On the lines of a file whose groups are balanced the directive handlers
    and the group skipper compute C's conditional inclusion: exactly the text of
    the selected arms is kept, in order, no condition after a selected arm is
    evaluated, and the group stacks end as they began; the run is refused exactly
    when a condition that is reached is. *)
Theorem conditional_inclusion i st :
  match kept i with
  | None => run (lines i) (st, Live, []) = None
  | Some out => exists w, run (lines i) (st, Live, []) = Some (Conditionals (ifdef_stack st) (cond_groups st) w, Live, out)
  end.
Proof.
  destruct st as [K G w]. pose proof (proj1 tree_ok i K G w []) as H. destruct (kept i); [|exact H].
  destruct H as (w' & Hr & _). by exists w'.
Qed.

(** The guard watch of a file decides its multiple-include verdict: lexing the
    file from its start leaves the guarding macro when the file is one group
    opened on that macro with no other arm and nothing outside it, and no macro
    otherwise. *)
Theorem guard_verdict i K G k out :
  k <> [] -> kept i = Some out ->
  exists st, run (lines i) (Conditionals K G (Watch k (length G) [] true false), Live, []) = Some (st, Live, out) /\
    verdict (guard_watch st) = guarded_by i.
Proof.
  intros Hk Ho. pose proof (proj1 tree_ok i K G (Watch k (length G) [] true false) []) as H. rewrite Ho in H.
  destruct H as (w' & Hr & Hw). eexists. split; [exact Hr|]. simpl. specialize (Hw ltac:(done)).
  unfold watched in Hw. simpl in Hw. rewrite Nat.eqb_refl in Hw. destruct k; [done|]. simpl in Hw.
  destruct Hw as (_ & _ & _ & _ & Hv). by apply Hv.
Qed.

(** *** Any sequence of lines *)

(** The stacks are in step, an active arm's group is taken, and only the group a
    skip is in is not active. *)
Definition consistent (st : conditionals) (m : mode) : Prop :=
  Forall2 (fun (a : bool) g => a = true -> taken g = true) (ifdef_stack st) (cond_groups st) /\
  match m with
  | Live => Forall (eq true) (ifdef_stack st)
  | Skipping _ => exists r, ifdef_stack st = false :: r /\ Forall (eq true) r
  end.

Lemma guard_watch_stacks st :
  (forall st', st' = guard_watch_content st \/ (exists m, st' = guard_watch_open st m) \/ st' = guard_watch_branch st \/ st' = guard_watch_close st ->
   ifdef_stack st' = ifdef_stack st /\ cond_groups st' = cond_groups st).
Proof.
  unfold guard_watch_content, guard_watch_open, guard_watch_branch, guard_watch_close.
  intros st' [->|[[m ->]|[-> | ->]]]; repeat case_if; done.
Qed.

Lemma branch_stacks st d :
  ifdef_stack (branch st d) = ifdef_stack st /\
  cond_groups (branch st d) = match cond_groups st with g :: r => move d g :: r | [] => [] end.
Proof.
  unfold branch, set_top. simpl. destruct (guard_watch_stacks st _ (or_intror (or_intror (or_introl eq_refl)))) as [-> ->]. done.
Qed.

(** What a branch line makes of a group on top. *)
Lemma branch_consistent st a g K G d :
  ifdef_stack st = a :: K -> cond_groups st = g :: G -> Forall2 (fun (a : bool) g => a = true -> taken g = true) K G ->
  Forall (eq true) K ->
  top_taken (branch st d) = taken g /\
  consistent (set_active (branch st d) false) (Skipping 0) /\
  forall active, consistent (enter_arm (branch st d) active) (if active : bool then Live else Skipping 0).
Proof.
  intros HK HG H2 HT. destruct (branch_stacks st d) as [Hs Hg]. rewrite HK in Hs. rewrite HG in Hg.
  generalize dependent (branch st d). intros b Hs Hg. unfold top_taken, consistent, enter_arm, set_active, set_top. rewrite Hg. simpl. rewrite Hs. split; [done|]. split.
  { split; [by constructor|by eexists]. }
  intros []; simpl; rewrite ?Hg, ?Hs; simpl; (split; [by constructor|]); [by constructor|by eexists].
Qed.

Lemma open_stacks st kind m active row col :
  ifdef_stack (open_group st kind m active row col) = active :: ifdef_stack st /\
  cond_groups (open_group st kind m active row col) = OpenGroup active kind row col :: cond_groups st.
Proof.
  unfold open_group. simpl.
  by destruct (guard_watch_stacks st _ (or_intror (or_introl (ex_intro _ m eq_refl)))) as [-> ->].
Qed.
Lemma close_stacks st :
  ifdef_stack (close_group st) = tail (ifdef_stack st) /\ cond_groups (close_group st) = tail (cond_groups st).
Proof. unfold close_group. exact (guard_watch_stacks _ _ (or_intror (or_intror (or_intror eq_refl)))). Qed.

Lemma line_consistent st m out l st' m' out' :
  consistent st m -> run_line (st, m, out) l = Some (st', m', out') -> consistent st' m'.
Proof.
  intros [H2 Hm] Hr. unfold run_line in Hr. destruct m as [|d].
  - apply bind_Some in Hr as ([[st1 m1] o] & Hr & [= -> -> _]). destruct l as [t|kind c m row col|c| |]; simpl in Hr.
    + injection Hr as <- <- _. destruct (guard_watch_stacks st _ (or_introl eq_refl)) as [Hs Hg]. split; [by rewrite Hs, Hg|by rewrite Hs].
    + apply bind_Some in Hr as (active & _ & [= <- <- _]). destruct (open_stacks st kind m active row col) as [Hs Hg].
      unfold consistent. rewrite Hs, Hg. split; [by constructor|]. destruct active; [by constructor|by eexists].
    + destruct (ifdef_stack st) as [|a K] eqn:HK; [done|]. simpl in Hr. apply Forall_cons_1 in Hm as [_ Hm].
      inversion H2 as [|? g ? G Ha HF Ha' HG]; subst. symmetry in HG.
      destruct (branch_consistent st a g K G Elif HK HG HF Hm) as (_ & C1 & C2).
      destruct (top_taken _); [by injection Hr as <- <- _|]. apply bind_Some in Hr as (active & _ & [= <- <- _]). apply C2.
    + destruct (ifdef_stack st) as [|a K] eqn:HK; [done|]. simpl in Hr. apply Forall_cons_1 in Hm as [_ Hm].
      inversion H2 as [|? g ? G Ha HF Ha' HG]; subst. symmetry in HG.
      destruct (branch_consistent st a g K G Else HK HG HF Hm) as (_ & _ & C2). injection Hr as <- <- _. apply C2.
    + destruct (ifdef_stack st) as [|a K] eqn:HK; [done|]. injection Hr as <- <- _. destruct (close_stacks st) as [Hs Hg].
      unfold consistent. rewrite Hs, Hg, HK. apply Forall_cons_1 in Hm as [_ Hm]. by inversion H2; subst.
  - apply bind_Some in Hr as ([st1 m1] & Hr & [= -> -> _]). destruct Hm as (r & Hr0 & Hm).
    assert (Hsame : forall d', consistent st (Skipping d')) by (intros d'; split; [done|by exists r]).
    rewrite Hr0 in H2. inversion H2 as [|? g ? G Ha HF Ha' HG]; subst. symmetry in HG.
    destruct l as [t|kind c m row col|c| |], d as [|d]; simpl in Hr; try (injection Hr as <- <-; by apply Hsame).
    + destruct (branch_consistent st false g r G Elif Hr0 HG HF Hm) as (_ & C1 & C2).
      destruct (top_taken _); [by injection Hr as <- <-|]. apply bind_Some in Hr as (active & _ & [= <- <-]). apply C2.
    + destruct (branch_consistent st false g r G Else Hr0 HG HF Hm) as (_ & _ & C2). injection Hr as <- <-. apply C2.
    + injection Hr as <- <-. destruct (close_stacks st) as [Hs Hg]. unfold consistent. by rewrite Hs, Hg, Hr0, HG.
Qed.

(** Whatever the lines, balanced or not, the two stacks stay in step, every
    active arm's group is taken, and only the innermost group of a skip is
    inactive; so an [#elif] the lexer reaches in a kept arm is never evaluated. *)
Theorem stacks_consistent ls st m out st' m' out' :
  consistent st m -> run ls (st, m, out) = Some (st', m', out') ->
  consistent st' m' /\
  forall c, m' = Live -> ifdef_stack st' <> [] -> live_line st' (ElifLine c) = Some (set_active (branch st' Elif) false, Skipping 0, []).
Proof.
  revert st m out. induction ls as [|l ls IH]; intros st m out Hc Hr.
  - injection Hr as <- <- _. split; [done|]. intros c -> Hn. destruct Hc as [H2 Hm]. simpl.
    destruct (ifdef_stack st) as [|a K] eqn:HK; [done|]. simpl. apply Forall_cons_1 in Hm as [<- Hm].
    inversion H2 as [|? g ? G Ha HF Ha' HG]; subst. symmetry in HG.
    destruct (branch_consistent st true g K G Elif HK HG HF Hm) as (-> & _ & _). by rewrite Ha.
  - rewrite run_cons in Hr. apply bind_Some in Hr as ([[st1 m1] out1] & Hl & Hr).
    eapply IH; [|exact Hr]. by eapply line_consistent.
Qed.
End Machine.
End Groups.

(** ** Witnesses and examples *)

Definition no_groups : conditionals := Conditionals [] [] (Watch (B "f.h") 0 [] true false).

(** [#ifndef F_H], a nested [#if] with an [#else], [#endif]. *)
Definition guarded_file : Groups.items (T := bytes) (C := bool) :=
  Groups.group Ifndef true (B "F_H") 1 1
    (Groups.group If false [] 2 1 (Groups.text (B "a") Groups.nothing) (Groups.els (Groups.text (B "b") Groups.nothing)) Groups.nothing)
    Groups.endif Groups.nothing.

Lemma guard_verdict_witness :
  exists st, Groups.run Some (Groups.lines guarded_file) (no_groups, Groups.Live, []) = Some (st, Groups.Live, [B "b"]) /\
    verdict (guard_watch st) = B "F_H".
Proof. apply (Groups.guard_verdict Some guarded_file [] [] (B "f.h") [B "b"]); [discriminate|reflexivity]. Defined.

(** An [#elif] live, in a group opened by a true condition. *)
Definition taken_group : conditionals := Conditionals [true] [OpenGroup true If 1 1] (Watch [] 0 [] true false).
Lemma stacks_consistent_witness :
  Groups.run Some [@Groups.Open bytes bool If true [] 1 1] (Conditionals [] [] (Watch [] 0 [] true false), Groups.Live, []) =
    Some (taken_group, Groups.Live, []) /\
  Groups.live_line (T := bytes) (fun _ : bool => None) taken_group (Groups.ElifLine true) =
    Some (set_active (branch taken_group Elif) false, Groups.Skipping 0, []).
Proof.
  split; [reflexivity|].
  apply (proj2 (Groups.stacks_consistent (fun _ : bool => None) [] taken_group Groups.Live ([] : list bytes) taken_group Groups.Live []
    ltac:(split; repeat constructor) eq_refl) true); [reflexivity|discriminate].
Defined.

(** Groups are matched by the stack alone: an [#endif] in an included file closes
    the group its includer opened, and no refusal follows (C11 6.10.1 has groups
    balanced in each file). *)
Example endif_of_includer :
  exists st, Groups.run Some [@Groups.EndifLine bytes bool] (taken_group, Groups.Live, []) = Some (st, Groups.Live, []) /\
    cond_groups st = [] /\ refuse_open_conditional_groups st (length (cond_groups taken_group)) = None.
Proof. eexists. split; [reflexivity|]. done. Qed.

(** A second [#else] of a group is not refused. *)
Example second_else :
  exists st, Groups.run (T := bytes) Some [Groups.Open If true [] 1 1; Groups.Text (B "a"); Groups.ElseLine; Groups.ElseLine;
      Groups.Text (B "b"); Groups.EndifLine] (no_groups, Groups.Live, []) = Some (st, Groups.Live, [B "a"]).
Proof. eexists. reflexivity. Qed.
