(* ===== verification/Directives.v ===== *)
(** The directive reader of [src/lexer.cpp]: the white space and the rest of a
    directive line, the condition of an [#if], and [skipConditionalBlock], which
    reads a skipped group from a [source].

    Each reader is a loop over [get] and [peek]; its specification is a function
    of the text ahead (the pushed-back text, then translation phase 2 of the
    buffer), for a buffer in which every line splice is followed by an ordinary
    character ([steady]).  [skip_block_reads] shows that [skipConditionalBlock]
    drives the machine of [Conditional] with the lines that text holds. *)
From S2P Require Import Prelude Source Literals IfEval Conditional.
#[local] Open Scope nat_scope.

(** ** The readers *)

(** A C++ [throw], at the position of the source. *)
Inductive res (A : Type) := Ok (a : A) | Raise (message : bytes) (s : source).
Arguments Ok {A} a.
Arguments Raise {A} message s.

Definition at_end (s : source) : bool := negb (good s && negb (eof s)).
Definition is_line_end (c : Z) : bool := (c =? code c_nl)%Z || (c =? code c_cr)%Z.
Definition not_line_end (s : source) : bool * source :=
  let '(c, s) := peek s in
  if (c =? code c_nl)%Z then (false, s) else let '(c, s) := peek s in (negb (c =? code c_cr)%Z, s).
Definition blank_ahead (s : source) : bool * source :=
  let '(c, s) := peek s in
  if (c =? code c_sp)%Z then (true, s) else let '(c, s) := peek s in ((c =? code c_tab)%Z, s).

(** A letter of the basic character set: [(unsigned char)((c | 0x20) - 'a') < 26]. *)
Definition is_ascii_letter (c : ascii) : bool := ((Z.lor (code c) 0x20 - 97) mod 256 <? 26)%Z.
Definition letter_ahead (s : source) : bool * source := let '(c, s) := peek s in (is_ascii_letter (to_byte c), s).

(** [while ( good() && !eof() && test ) get();], the characters read. *)
Definition while_body (test : source -> bool * source) (st : bytes * source) : bytes * source + bytes * source :=
  let '(acc, s) := st in
  if at_end s then inr (acc, s)
  else
    let '(more, s) := test s in
    if more : bool then let '(c, s) := get s in inl (acc ++ [to_byte c], s) else inr (acc, s).
Definition read_while (p : source -> bool * source) (s : source) : bytes * source :=
  default ([], s) (loop (S (unread s)) (while_body p) ([], s)).

Definition is_space (c : Z) : bool :=
  (c =? code c_sp)%Z || (c =? code c_tab)%Z || (c =? 12)%Z || (c =? 11)%Z.

Definition unterminated_comment : bytes := B "unterminated comment".

Definition space_body (s : source) : source + res source :=
  if at_end s then inr (Ok s)
  else
    let '(c, s) := peek s in
    if is_space c then inl (get s).2
    else if negb (c =? code "/"%char)%Z then inr (Ok s)
    else
      let row := line s in
      let s := (get s).2 in
      let col := column s in
      let '(n, s) := peek s in
      if (n =? code "*"%char)%Z then
        match consume_block_comment (get s).2 row col false with
        | comment_closed _ s => inl s
        | comment_open _ s => inr (Raise unterminated_comment s)
        end
      else if (n =? code "/"%char)%Z then inr (Ok (read_while not_line_end s).2)
      else inr (Ok (pushback_reread s (B "/"))).
Definition skip_directive_space (s : source) : res source := default (Ok s) (loop (S (unread s)) space_body s).

Definition tail_body (s : source) : source + res source :=
  match skip_directive_space s with
  | Raise m s => inr (Raise m s)
  | Ok s =>
      if at_end s then inr (Ok s)
      else
        let '(c, s) := peek s in
        if is_line_end c || (c <? 0)%Z then inr (Ok s) else inl (get s).2
  end.
Definition skip_directive_line_tail (s : source) : res source := default (Ok s) (loop (S (unread s)) tail_body s).

(** ** The condition of an [#if] *)

Record reading_state := Reading { raw_expr : bytes; in_str : bool; in_chr : bool }.
Definition add (st : reading_state) (t : bytes) : reading_state := Reading (raw_expr st ++ t) (in_str st) (in_chr st).

(** The bytes no state acts on. *)
Definition plain_byte (st : reading_state) (c : ascii) : bool :=
  if byte_eqb c c_nl || byte_eqb c c_cr || byte_eqb c c_bslash then false
  else if in_str st then negb (byte_eqb c c_dquote)
  else if in_chr st then negb (byte_eqb c c_squote)
  else negb (byte_eqb c "/"%char) && negb (byte_eqb c c_dquote) && negb (byte_eqb c c_squote).

(** After [get] of [ch]: an escape's second character, or the end of the literal. *)
Definition literal_char (st : reading_state) (ch : Z) (s : source) : reading_state * source :=
  let escape := (ch =? code c_bslash)%Z in
  let '(more, s) :=
    if escape && negb (at_end s) then not_line_end s else (false, s) in
  if more : bool then
    let st := add st [to_byte ch] in
    let '(ch, s) := get s in (add st [to_byte ch], s)
  else
    let st := if negb escape && in_str st && (ch =? code c_dquote)%Z then Reading (raw_expr st) false (in_chr st)
              else if negb escape && negb (in_str st) && (ch =? code c_squote)%Z then Reading (raw_expr st) (in_str st) false
              else st in
    (add st [to_byte ch], s).

(** The character loop's step, at a character. *)
Definition condition_char (st : reading_state) (s : source) : reading_state * source + res (bytes * source) :=
  let '(ch, s) := peek s in
  if is_line_end ch then inr (Ok (raw_expr st, s))
  else if negb (in_str st) && negb (in_chr st) && (ch =? code "/"%char)%Z then
    let row := line s in
    let s := (get s).2 in
    let col := column s in
    let '(nx, s) := peek s in
    if (nx =? code "*"%char)%Z then
      match consume_block_comment (get s).2 row col false with
      | comment_closed _ s => inl (add st (B " "), s)
      | comment_open _ s => inr (Raise unterminated_comment s)
      end
    else if (nx =? code "/"%char)%Z then inr (Ok (raw_expr st, (read_while not_line_end s).2))
    else inl (add st (B "/"), s)
  else
    let s := (get s).2 in
    if in_str st || in_chr st then inl (literal_char st ch s)
    else
      let st := if (ch =? code c_dquote)%Z then Reading (raw_expr st) true (in_chr st)
                else if (ch =? code c_squote)%Z then Reading (raw_expr st) (in_str st) true else st in
      inl (add st [to_byte ch], s).
Definition condition_body (x : reading_state * source) : reading_state * source + res (bytes * source) :=
  let '(st, s) := x in
  if at_end s then inr (Ok (raw_expr st, s))
  else
    match fast_span s (plain_byte st) with
    | Some ((_ :: _) as run, s) => inl (add st run, s)
    | Some ([], s) => condition_char st s
    | None => condition_char st s
    end.
Definition read_if_condition_text (s : source) : res (bytes * source) :=
  default (Ok ([], s)) (loop (S (unread s)) condition_body (Reading [] false false, s)).

(** ** A skipped group *)

Inductive PpDirectiveWord := W_Other | W_If | W_Ifdef | W_Ifndef | W_Elif | W_Else | W_Endif | W_Define | W_Include.
Definition pp_directive_word (w : bytes) : PpDirectiveWord :=
  let eqw x := bytes_eqb w (B x) in
  if eqw "if" then W_If else if eqw "else" then W_Else else if eqw "elif" then W_Elif
  else if eqw "ifdef" then W_Ifdef else if eqw "endif" then W_Endif
  else if eqw "ifndef" then W_Ifndef else if eqw "define" then W_Define else if eqw "import" then W_Include
  else if eqw "include" then W_Include else if eqw "include_next" then W_Include else W_Other.

(** The directive's word: in one run, the char loop for what is left of it. *)
Definition skip_word (s : source) : bytes * source :=
  let '(w, s) := match fast_span s is_ascii_letter with Some r => r | None => ([], s) end in
  let '(more, s) := if at_end s then (false, s) else letter_ahead s in
  if more : bool then let '(r, s) := read_while letter_ahead s in (w ++ r, s) else (w, s).

(** [SkippedArmCapture], while one is in progress. *)
Record SkippedArmCapture := Capture { c_begin : nat; c_closed : bool; c_text : bytes }.

Inductive skip_end :=
| Resume (st : conditionals) (s : source) (cap : option SkippedArmCapture)
| Refused (message : bytes) (s : source)
| Undefined
| FileEnd (st : conditionals) (refusal : option (bytes * Z * Z)).

Section Skip.
Context `{IfMacros}.

(** The end of the arm being captured: the text from its first line. *)
Definition end_capture (cap : option SkippedArmCapture) (line_at : option nat) (s : source) : option SkippedArmCapture :=
  match cap, line_at with
  | Some c, Some n => if c_begin c <=? n then Some (Capture (c_begin c) true (substr (_buf s) (c_begin c) (n - c_begin c))) else Some c
  | _, _ => cap
  end.

Definition file_end (st : conditionals) : skip_end :=
  FileEnd st (refuse_open_conditional_groups st (if is_nil (cond_groups st) then 0 else length (cond_groups st) - 1)).

Definition skip_state : Type := nat * source * conditionals * option SkippedArmCapture.

(** The rest of the directive's line, then [k]. *)
Definition after_tail (s : source) (k : source -> skip_state + skip_end) : skip_state + skip_end :=
  match skip_directive_line_tail s with Raise m s => inr (Refused m s) | Ok s => k s end.

Definition skip_directive (depth : nat) (line_at : option nat) (w : bytes) (s : source) (st : conditionals)
    (cap : option SkippedArmCapture) : skip_state + skip_end :=
  match pp_directive_word w, depth with
  | (W_If | W_Ifdef | W_Ifndef), _ => after_tail s (fun s => inl (S depth, s, st, cap))
  | W_Endif, S d => after_tail s (fun s => inl (d, s, st, cap))
  | W_Endif, O => after_tail s (fun s => inr (Resume (close_group st) s (end_capture cap line_at s)))
  | W_Else, O =>
      after_tail s (fun s =>
        let st := branch st Else in
        let active := negb (top_taken st) in
        let st := enter_arm st active in
        if active then inr (Resume st s None) else inl (0, s, st, None))
  | W_Elif, O =>
      let st := branch st Elif in
      if top_taken st then after_tail s (fun s => inl (0, s, set_active st false, None))
      else
        match read_if_condition_text s with
        | Raise m s => inr (Refused m s)
        | Ok (cond, s) =>
            match evaluate_if_text cond with
            | decided active _ =>
                let st := enter_arm st active in if active then inr (Resume st s None) else inl (0, s, st, None)
            | refused m => inr (Refused m s)
            | undefined | no_verdict => inr Undefined
            end
        end
  | _, _ => inl (depth, skip_line_rest s, st, cap)
  end.

Definition skip_block_body (x : skip_state) : skip_state + skip_end :=
  let '(depth, s, st, cap) := x in
  if at_end s then inr (file_end st)
  else
    let line_at := match cap with Some _ => raw_offset s | None => None end in
    let s := (read_while blank_ahead s).2 in
    if at_end s then inr (file_end st)
    else
      let '(ch, s) := get s in
      let ch := to_byte ch in
      if byte_eqb ch c_nl || byte_eqb ch c_cr then inl (depth, s, st, cap)
      else if negb (byte_eqb ch "#"%char) then inl (depth, skip_line_rest s, st, cap)
      else
        match skip_directive_space s with
        | Raise m s => inr (Refused m s)
        | Ok s => let '(w, s) := skip_word s in skip_directive depth line_at w s st cap
        end.

(** [None] is "out of fuel". *)
Definition skipConditionalBlock (s : source) (st : conditionals) (cap : option SkippedArmCapture) : option skip_end :=
  loop (S (unread s)) skip_block_body (0, s, st, cap).
End Skip.

(** ** Reading ahead

    [at_ s t n]: the source [s] has [t] ahead and at most [n] bytes unread. *)

Definition ahead_is (s : source) (t : bytes) (n : nat) : Prop := steady (_buf s) /\ ahead s = t /\ unread s <= n.

Lemma ahead_self s : steady (_buf s) -> ahead_is s (ahead s) (unread s).
Proof. done. Qed.
Lemma ahead_le s t n m : ahead_is s t n -> n <= m -> ahead_is s t m.
Proof. intros (H1 & H2 & H3) H. split_and!; [done|done|lia]. Qed.

Lemma at_end_ahead s t n : ahead_is s t n -> at_end s = is_nil t.
Proof.
  intros (Hs & <- & _). unfold at_end. replace (eof s) with (negb (good s)).
  { rewrite negb_involutive, andb_diag, steady_ahead by done. apply negb_involutive. }
  unfold eof, good. rewrite negb_orb, negb_involutive. f_equal. by rewrite Nat.leb_antisym.
Qed.

Lemma peek_ahead s t n :
  ahead_is s t n -> exists s', peek s = (match t with x :: _ => code x | [] => -1 end, s')%Z /\ ahead_is s' t n.
Proof.
  intros (Hs & Ha & Hn). destruct (source_peek s Hs) as (H1 & H2 & H3 & H4). destruct (peek_spec s) as (_ & _ & Hp).
  destruct (peek s) as [c s'] eqn:Ep. simpl in *. exists s'. split; [|split_and!; [done|congruence|lia]]. f_equal.
  rewrite Ha in H4. destruct t; [|done]. rewrite Hp.
  - pose proof (get_reads s) as Hg. rewrite Ha in Hg. by destruct Hg.
  - intros (_ & Hk & Hk2). destruct (Hs _ Hk) as [_ H0]. simpl in *. lia.
Qed.

Lemma get_ahead s x t n :
  ahead_is s (x :: t) n -> exists s', get s = (code x, s') /\ ahead_is s' t (n - 1) /\ 0 < n.
Proof.
  intros (Hs & Ha & Hn). destruct (source_get s x t Hs Ha) as (H1 & H2 & H3 & H4). destruct (get s) as [c s'] eqn:Eg.
  simpl in *. subst c. exists s'. split_and!; [done| |lia]. split_and!; [done|done|lia].
Qed.

Lemma code_eqb x y : (code x =? code y)%Z = byte_eqb x y.
Proof.
  destruct (byte_eqb x y) eqn:E; reflect_bool; [subst; apply Z.eqb_refl|].
  apply Z.eqb_neq. intros H. by apply code_inj in H.
Qed.

(** *** Loops that read while a test holds *)

Definition tests (test : source -> bool * source) (p : ascii -> bool) : Prop :=
  forall s x t n, ahead_is s (x :: t) n -> exists s', test s = (p x, s') /\ ahead_is s' (x :: t) n.

Lemma read_while_ahead test p s t n :
  tests test p -> ahead_is s t n ->
  exists s', read_while test s = (take (run_length p t) t, s') /\ ahead_is s' (drop (run_length p t) t) n.
Proof.
  intros Ht Hs. unfold read_while.
  destruct (loop_total (fun st : bytes * source => exists u, ahead_is st.2 u n /\
      st.1 ++ take (run_length p u) u = take (run_length p t) t /\ drop (run_length p u) u = drop (run_length p t) t /\ unread st.2 <= n)
    (fun r => r.1 = take (run_length p t) t /\ ahead_is r.2 (drop (run_length p t) t) n)
    (fun st => unread st.2) (while_body test)) with (fuel := S (unread s)) (s := (@nil ascii, s)) as ([acc s'] & -> & H1 & H2).
  - intros [acc s1] (u & Hu & H1 & H2 & H3). simpl in *. rewrite (at_end_ahead _ _ _ Hu).
    destruct u as [|x u]; simpl in *.
    { rewrite app_nil_r in H1. rewrite H1, <- H2. split; [done|]. done. }
    destruct (Ht s1 x u (unread s1)) as (s2 & -> & Hs2).
    { destruct Hu as (A & B & _). split_and!; done. }
    destruct (p x); simpl in *.
    + destruct (get_ahead _ _ _ _ Hs2) as (s3 & -> & (A & B & D) & Hlt). simpl. split; [|lia].
      exists u. rewrite to_byte_code, <- app_assoc. split_and!; [split_and!; [done|done|lia]|done|done|lia].
    + rewrite app_nil_r in H1. rewrite H1, <- H2. split; [done|]. destruct Hs2 as (A & B & D). split_and!; [done|done|lia].
  - exists t. simpl. destruct Hs as (A & B & D). by split_and!.
  - simpl. lia.
  - exists s'. simpl in *. subst acc. by split.
Qed.

Definition line_end_char (c : ascii) : bool := byte_eqb c c_nl || byte_eqb c c_cr.
Definition blank_char (c : ascii) : bool := byte_eqb c c_sp || byte_eqb c c_tab.

Lemma not_line_end_tests : tests not_line_end (fun c => negb (line_end_char c)).
Proof.
  intros s x t n Hs. unfold not_line_end, line_end_char. destruct (peek_ahead _ _ _ Hs) as (s1 & -> & H1).
  rewrite code_eqb. destruct (byte_eqb x c_nl); [by exists s1|].
  destruct (peek_ahead _ _ _ H1) as (s2 & -> & H2). rewrite code_eqb. by exists s2.
Qed.
Lemma blank_tests : tests blank_ahead blank_char.
Proof.
  intros s x t n Hs. unfold blank_ahead, blank_char. destruct (peek_ahead _ _ _ Hs) as (s1 & -> & H1).
  rewrite code_eqb. destruct (byte_eqb x c_sp); [by exists s1|].
  destruct (peek_ahead _ _ _ H1) as (s2 & -> & H2). rewrite code_eqb. by exists s2.
Qed.
Lemma letter_tests : tests letter_ahead is_ascii_letter.
Proof.
  intros s x t n Hs. unfold letter_ahead. destruct (peek_ahead _ _ _ Hs) as (s1 & -> & H1).
  rewrite to_byte_code. by exists s1.
Qed.

(** *** Runs read in one step, comments, text given back *)

Lemma phase2_plain run t :
  Forall (fun c => byte_eqb c c_bslash = false) run -> phase2 (run ++ t) = run ++ phase2 t.
Proof.
  induction 1 as [|c run Hc _ IH]; [done|]. simpl. rewrite phase2_cons. 
  rewrite splice_len_not_bslash; [simpl; by rewrite IH|by apply negb_true_iff].
Qed.

(** [fast_span] reads a prefix of what is ahead that [keep] accepts. *)
Lemma fast_span_ahead s t n keep run s' :
  ahead_is s t n -> (forall c, keep c = true -> byte_eqb c c_bslash = false) -> fast_span s keep = Some (run, s') ->
  t = run ++ ahead s' /\ Forall (fun c => keep c = true) run /\ ahead_is s' (ahead s') (n - length run) /\ length run <= n.
Proof.
  intros (Hs & <- & Hn) Hk. unfold fast_span. destruct (_pushback s) eqn:Ep; [|done]. intros [= <- <-].
  set (k := run_length keep (drop (_gpos s) (_buf s))).
  destruct (run_length_spec keep (drop (_gpos s) (_buf s))) as [H1 H2]. fold k in H1, H2. rewrite length_drop in H1.
  unfold substr, ahead. rewrite Ep. simpl. rewrite Ep. simpl.
  assert (Hlen : length (take k (drop (_gpos s) (_buf s))) = k) by (rewrite length_take, length_drop; lia).
  unfold unread in Hn. rewrite Ep in Hn. simpl in Hn. split_and!.
  - rewrite <- (take_drop k (drop (_gpos s) (_buf s))) at 1. rewrite drop_drop. apply phase2_plain.
    eapply Forall_impl; [exact H2|]. auto.
  - exact H2.
  - unfold ahead_is, ahead, unread. simpl. rewrite Ep, Hlen. simpl. split_and!; [done|done|lia].
  - lia.
Qed.

Lemma push_slash_ahead s t n : ahead_is s t n -> ahead_is (pushback_reread s (B "/")) ("/"%char :: t) (S n).
Proof.
  intros (Hs & Ha & Hn). unfold pushback_reread, add_pushback_frame, add_pushback_frame_len, push_front_text, ahead_is, ahead, unread in *.
  case_if; cbn [_buf _pushback _gpos set_frames set_ids set_pushed set_column at_cursor length Nat.eqb];
    (split_and!; [done| |]).
  all: change (length (B "/") =? 0) with false; cbn [_buf _pushback _gpos set_frames set_ids set_pushed set_column at_cursor].
  all: first [rewrite rev_app_distr, rev_involutive, <- Ha; reflexivity|rewrite length_app; change (length (rev (B "/"))) with 1; lia].
Qed.

Lemma comment_ahead s t n row col :
  ahead_is s t n ->
  match close_at Ascii.zero t with
  | Some (k, r) => exists s', consume_block_comment s row col false = comment_closed k s' /\ ahead_is s' r n
  | None => exists k s', consume_block_comment s row col false = comment_open k s'
  end.
Proof.
  intros (Hs & Ha & Hn). unfold consume_block_comment.
  destruct (loop_total (fun st => scanning t st /\ _buf st.2 = _buf s /\ unread st.2 <= n)
    (fun r => match r with
              | comment_closed k s' => close_at Ascii.zero t = Some (k, ahead s') /\ _buf s' = _buf s /\ unread s' <= n
              | comment_open k s' => close_at Ascii.zero t = None
              end) (fun st => unread st.2) comment_body) with (fuel := S (unread s)) (s := (0%Z, @nil ascii, s)) as (r & -> & Hr).
  - intros [[prev k] s1] (Hsc & Hb & Hu). pose proof (comment_step t _ Hsc) as Hst.
    assert (Hbu : match comment_body (prev, k, s1) with
      | inl st => _buf st.2 = _buf s1 /\ unread st.2 <= unread s1
      | inr (comment_closed _ s') => _buf s' = _buf s1 /\ unread s' <= unread s1
      | _ => True end).
    { unfold comment_body. case_if; [done|]. pose proof (get_buf s1). pose proof (get_unread_le s1).
      destruct (get s1) as [c s2]. case_if; done. }
    destruct (comment_body _) as [st'|[k' s'|k' s']]; simpl in *.
    + destruct Hst, Hbu. split_and!; [done|congruence|lia|done].
    + destruct Hbu. split_and!; [done|congruence|lia].
    + by destruct Hst.
  - split_and!; [|done|done]. left. exists Ascii.zero. split; [done|]. simpl. rewrite Ha. by destruct (close_at _ t) as [[? ?]|].
  - simpl. lia.
  - simpl. destruct r as [k s'|k s'].
    + destruct Hr as (-> & Hb & Hu). exists s'. split; [done|]. rewrite <- Hb in Hs. split_and!; done.
    + rewrite Hr. by eexists _, _.
Qed.

(** ** The specifications: functions of the text ahead *)

Definition drop_line (t : bytes) : bytes := drop (run_length (fun c => negb (line_end_char c)) t) t.
Definition space_char (c : ascii) : bool := is_space (code c).

(** White space and comments; [None]: a comment does not end. *)
Fixpoint text_space_fuel (k : nat) (t : bytes) : option bytes :=
  match k with
  | O => Some t
  | S k =>
      match t with
      | [] => Some []
      | c :: r =>
          if space_char c then text_space_fuel k r
          else if negb (byte_eqb c "/"%char) then Some t
          else match r with
               | [] => Some t
               | d :: r' =>
                   if byte_eqb d "*"%char then
                     match close_at Ascii.zero r' with Some (_, u) => text_space_fuel k u | None => None end
                   else if byte_eqb d "/"%char then Some (drop_line r) else Some t
               end
      end
  end.
Definition text_space (t : bytes) : option bytes := text_space_fuel (length t) t.

Lemma close_at_length p t k u : close_at p t = Some (k, u) -> length u < length t.
Proof.
  revert p k. induction t as [|c t IH]; intros p k; simpl; [done|]. destruct (_ && _); [intros [= <- <-]; lia|].
  destruct (close_at c t) as [[k' u']|] eqn:E; [|done]. intros [= <- <-]. pose proof (IH _ _ E). lia.
Qed.

Lemma text_space_fuel_enough k k' t : length t <= k -> length t <= k' -> text_space_fuel k t = text_space_fuel k' t.
Proof.
  revert k' t. induction k as [|k IH]; intros [|k'] [|c r]; simpl; intros H1 H2; try done; try lia.
  destruct (space_char c); [apply IH; lia|]. destruct (negb _); [done|]. destruct r as [|d r']; [done|].
  destruct (byte_eqb d "*"); [|done]. destruct (close_at _ r') as [[x u]|] eqn:E; [|done].
  apply close_at_length in E. simpl in *. apply IH; lia.
Qed.

Lemma text_space_cons c r :
  text_space (c :: r) =
    if space_char c then text_space r
    else if negb (byte_eqb c "/"%char) then Some (c :: r)
    else match r with
         | [] => Some (c :: r)
         | d :: r' =>
             if byte_eqb d "*"%char then match close_at Ascii.zero r' with Some (_, u) => text_space u | None => None end
             else if byte_eqb d "/"%char then Some (drop_line r) else Some (c :: r)
         end.
Proof.
  unfold text_space. cbn [length text_space_fuel]. destruct (space_char c); [done|]. destruct (negb _); [done|].
  destruct r as [|d r']; [done|]. destruct (byte_eqb d "*"); [|done].
  destruct (close_at _ r') as [[x u]|] eqn:E; [|done]. apply close_at_length in E. apply text_space_fuel_enough; simpl; lia.
Qed.

Lemma drop_line_length t : length (drop_line t) <= length t.
Proof. unfold drop_line. rewrite length_drop. lia. Qed.

Lemma text_space_length t u : text_space t = Some u -> length u <= length t.
Proof.
  remember (length t) as n eqn:Hn. revert t u Hn. induction (lt_wf n) as [n _ IH]. intros t u ->.
  destruct t as [|c r]; [by intros [= <-]|]. rewrite text_space_cons.
  destruct (space_char c); [intros H; eapply (IH (length r)) in H; simpl; [lia|lia|done]|].
  destruct (negb _); [by intros [= <-]|]. destruct r as [|d r']; [by intros [= <-]|].
  destruct (byte_eqb d "*").
  - destruct (close_at _ r') as [[x v]|] eqn:E; [|done]. apply close_at_length in E.
    intros H. eapply (IH (length v)) in H; simpl in *; [lia|lia|done].
  - destruct (byte_eqb d "/"); intros [= <-]; [|done]. pose proof (drop_line_length (d :: r')). simpl in *. lia.
Qed.

(** What a reader with a refusal does, against its text function. *)
Definition reads_res (o : res source) (spec : option bytes) (n : nat) : Prop :=
  match spec with
  | Some u => exists s', o = Ok s' /\ ahead_is s' u n
  | None => exists s', o = Raise unterminated_comment s'
  end.

Lemma space_ahead s t n : ahead_is s t n -> reads_res (skip_directive_space s) (text_space t) n.
Proof.
  intros Hs. unfold skip_directive_space.
  destruct (loop_total (fun s1 => exists u, ahead_is s1 u n /\ text_space u = text_space t)
    (fun o => reads_res o (text_space t) n) unread space_body) with (fuel := S (unread s)) (s := s) as (r & -> & Hr);
    [|by exists t|lia|exact Hr].
  intros s1 (u & Hu & <-). unfold space_body. rewrite (at_end_ahead _ _ _ Hu). destruct u as [|c u]; simpl is_nil; cbv iota.
  { by exists s1. }
  rewrite text_space_cons. unfold space_char.
  assert (Hu1 : ahead_is s1 (c :: u) (unread s1)) by (destruct Hu as (A & B0 & _); by split_and!).
  assert (Hn : unread s1 <= n) by (by destruct Hu as (_ & _ & D)).
  destruct (peek_ahead _ _ _ Hu1) as (s2 & -> & H2). destruct (get_ahead _ _ _ _ H2) as (s3 & Hg & H3 & Hlt). rewrite Hg. cbn [snd].
  destruct (is_space (code c)).
  { split; [|destruct H3 as (_ & _ & D); lia]. exists u. split; [|done]. eapply ahead_le; [exact H3|lia]. }
  change 47%Z with (code "/"%char). rewrite code_eqb. destruct (negb (byte_eqb c "/")) eqn:Ec.
  { exists s2. split; [done|]. eapply ahead_le; [exact H2|done]. }
  reflect_bool. subst c. destruct (peek_ahead _ _ _ H3) as (s4 & -> & H4).
  destruct u as [|d u].
  { simpl. eexists. split; [reflexivity|]. eapply ahead_le; [by apply push_slash_ahead|lia]. }
  rewrite !code_eqb. destruct (byte_eqb d "*") eqn:Ed.
  { destruct (get_ahead _ _ _ _ H4) as (s5 & -> & H5 & Hlt5). cbn [snd].
    pose proof (comment_ahead _ _ _ (line s2) (column s3) H5) as Hc.
    destruct (close_at _ u) as [[k v]|]; [|destruct Hc as (k & s6 & ->); by eexists].
    destruct Hc as (s6 & -> & H6). split; [|destruct H6 as (_ & _ & D); lia]. exists v. split; [|done]. eapply ahead_le; [exact H6|lia]. }
  destruct (byte_eqb d "/") eqn:Ed2.
  { destruct (read_while_ahead _ _ _ _ _ not_line_end_tests H4) as (s5 & -> & H5). cbn [snd].
    eexists. split; [reflexivity|]. eapply ahead_le; [exact H5|lia]. }
  eexists. split; [reflexivity|]. eapply ahead_le; [by apply push_slash_ahead|lia].
Qed.

(** The rest of a directive's line: up to the first line end outside a comment. *)
Fixpoint text_tail_fuel (k : nat) (t : bytes) : option bytes :=
  match k with
  | O => Some t
  | S k =>
      match text_space t with
      | None => None
      | Some [] => Some []
      | Some ((c :: r) as u) => if line_end_char c then Some u else text_tail_fuel k r
      end
  end.
Definition text_tail (t : bytes) : option bytes := text_tail_fuel (length t) t.

Lemma text_tail_enough k k' t : length t <= k -> length t <= k' -> text_tail_fuel k t = text_tail_fuel k' t.
Proof.
  revert k' t. induction k as [|k IH]; intros [|k'] t H1 H2; try done; simpl.
  - destruct t; [done|simpl in *; lia].
  - destruct t; [done|simpl in *; lia].
  - destruct (text_space t) as [[|c r]|] eqn:E; try done. apply text_space_length in E. simpl in E.
    destruct (line_end_char c); [done|]. apply IH; lia.
Qed.

Lemma text_tail_eq t :
  text_tail t = match text_space t with
                | None => None
                | Some [] => Some []
                | Some ((c :: r) as u) => if line_end_char c then Some u else text_tail r
                end.
Proof.
  unfold text_tail. destruct t as [|x t]; [done|]. cbn [length text_tail_fuel].
  destruct (text_space (x :: t)) as [[|c r]|] eqn:E; try done. apply text_space_length in E. simpl in E.
  destruct (line_end_char c); [done|]. apply text_tail_enough; lia.
Qed.

Lemma text_tail_length t u : text_tail t = Some u -> length u <= length t.
Proof.
  remember (length t) as n eqn:Hn. revert t u Hn. induction (lt_wf n) as [n _ IH]. intros t u ->.
  rewrite text_tail_eq. destruct (text_space t) as [[|c r]|] eqn:E; [intros [= <-]; simpl; lia| |done].
  apply text_space_length in E. simpl in E. destruct (line_end_char c); [intros [= <-]; simpl; lia|].
  intros H. eapply (IH (length r)) in H; [lia|lia|done].
Qed.

Lemma is_line_end_char c : is_line_end (code c) = line_end_char c.
Proof. unfold is_line_end, line_end_char. by rewrite !code_eqb. Qed.

Lemma tail_ahead s t n : ahead_is s t n -> reads_res (skip_directive_line_tail s) (text_tail t) n.
Proof.
  intros Hs. unfold skip_directive_line_tail.
  destruct (loop_total (fun s1 => exists u, ahead_is s1 u n /\ text_tail u = text_tail t)
    (fun o => reads_res o (text_tail t) n) unread tail_body) with (fuel := S (unread s)) (s := s) as (r & -> & Hr);
    [|by exists t|lia|exact Hr].
  intros s1 (u & Hu & <-). unfold tail_body. rewrite text_tail_eq.
  assert (Hu1 : ahead_is s1 u (unread s1)) by (destruct Hu as (A & B0 & _); by split_and!).
  assert (Hn : unread s1 <= n) by (by destruct Hu as (_ & _ & D)).
  pose proof (space_ahead _ _ _ Hu1) as Hsp. destruct (text_space u) as [v|]; simpl in Hsp; [|destruct Hsp as (s2 & ->); by exists s2].
  destruct Hsp as (s2 & -> & H2). rewrite (at_end_ahead _ _ _ H2). destruct v as [|c v]; simpl is_nil; cbv iota.
  { exists s2. split; [done|]. by eapply ahead_le. }
  destruct (peek_ahead _ _ _ H2) as (s3 & -> & H3). rewrite is_line_end_char.
  replace (code c <? 0)%Z with false by (symmetry; apply Z.ltb_ge; pose proof (code_range c); lia). rewrite orb_false_r.
  destruct (line_end_char c); [exists s3; split; [done|eapply ahead_le; [exact H3|done]]|].
  destruct (get_ahead _ _ _ _ H3) as (s4 & -> & H4 & Hlt). simpl. split; [|destruct H4 as (_ & _ & D); lia].
  exists v. split; [|done]. eapply ahead_le; [exact H4|lia].
Qed.

(** *** A line's rest; a directive's word *)

Lemma run_length_app p a b : Forall (fun c => p c = true) a -> run_length p (a ++ b) = length a + run_length p b.
Proof. induction 1 as [|c a Hc _ IH]; simpl; [done|]. by rewrite Hc, IH. Qed.

Lemma drop_line_app a b : Forall (fun c => line_end_char c = false) a -> drop_line (a ++ b) = drop_line b.
Proof.
  intros H. unfold drop_line. rewrite run_length_app.
  - rewrite <- drop_drop, drop_app_length. done.
  - eapply Forall_impl; [exact H|]. simpl. by intros c ->.
Qed.

Lemma line_rest_ahead s t n : ahead_is s t n -> ahead_is (skip_line_rest s) (drop_line t) n.
Proof.
  intros Hs. unfold skip_line_rest.
  destruct (loop_total (fun s1 => exists u, ahead_is s1 u n /\ drop_line u = drop_line t)
    (fun s' => ahead_is s' (drop_line t) n) unread skip_body) with (fuel := S (unread s)) (s := s) as (r & -> & Hr);
    [|by exists t|lia|exact Hr].
  intros s1 (u & Hu & <-). unfold skip_body. change (negb (good s1 && negb (eof s1))) with (at_end s1). rewrite (at_end_ahead _ _ _ Hu).
  assert (Hu1 : ahead_is s1 u (unread s1)) by (destruct Hu as (A & B0 & _); by split_and!).
  assert (Hn : unread s1 <= n) by (by destruct Hu as (_ & _ & D)).
  destruct u as [|c u]; simpl is_nil; cbv iota; [exact Hu|].
  set (keep := fun c => negb (byte_eqb c c_nl) && negb (byte_eqb c c_cr) && negb (byte_eqb c c_bslash)).
  assert (Hslow : forall s2, ahead_is s2 (c :: u) (unread s1) ->
    match (let '(x, s) := peek s2 in if (x =? code c_nl)%Z || (x =? code c_cr)%Z then inr s else inl (get s).2) with
    | inl s' => (exists v, ahead_is s' v n /\ drop_line v = drop_line (c :: u)) /\ unread s' < unread s1
    | inr s' => ahead_is s' (drop_line (c :: u)) n
    end).
  { intros s2 H2. destruct (peek_ahead _ _ _ H2) as (s3 & -> & H3).
    change ((code c =? code c_nl)%Z || (code c =? code c_cr)%Z) with (is_line_end (code c)). rewrite is_line_end_char.
    unfold drop_line. cbn [run_length]. destruct (line_end_char c); cbn [negb].
    - eapply ahead_le; [exact H3|done].
    - destruct (get_ahead _ _ _ _ H3) as (s4 & -> & H4 & Hlt). simpl. split; [|destruct H4 as (_ & _ & D); lia].
      exists u. split; [|done]. eapply ahead_le; [exact H4|lia]. }
  destruct (fast_span s1 keep) as [[run s2]|] eqn:Ef; [|by apply Hslow].
  assert (Hk : forall x, keep x = true -> byte_eqb x c_bslash = false)
    by (unfold keep; intros x Hx; apply andb_true_iff in Hx as [_ Hx]; by apply negb_true_iff).
  destruct (fast_span_ahead _ _ _ keep _ _ Hu1 Hk Ef) as (Hrun & Hall & H2 & Hle).
  destruct run as [|x run]; [apply Hslow; simpl in *; rewrite Hrun, Nat.sub_0_r in *; exact H2|].
  simpl in *. split; [|destruct H2 as (_ & _ & D); lia]. exists (ahead s2). split; [eapply ahead_le; [exact H2|lia]|].
  rewrite Hrun. change (x :: run ++ ahead s2) with ((x :: run) ++ ahead s2). symmetry. apply drop_line_app.
  eapply Forall_impl; [exact Hall|]. intros y Hy. unfold keep in Hy. unfold line_end_char.
  by destruct (byte_eqb y c_nl), (byte_eqb y c_cr).
Qed.

Definition text_word (t : bytes) : bytes * bytes :=
  let n := run_length is_ascii_letter t in (take n t, drop n t).

Lemma word_ahead s t n :
  ahead_is s t n -> exists s', skip_word s = ((text_word t).1, s') /\ ahead_is s' (text_word t).2 n.
Proof.
  intros Hs. unfold skip_word, text_word. simpl.
  assert (exists run s1, match fast_span s is_ascii_letter with Some r => r | None => ([], s) end = (run, s1) /\
    t = run ++ ahead s1 /\ Forall (fun c => is_ascii_letter c = true) run /\ ahead_is s1 (ahead s1) n) as (run & s1 & -> & Ht & Hall & H1).
  { destruct (fast_span s is_ascii_letter) as [[run s1]|] eqn:Ef.
    - assert (Hk : forall x, is_ascii_letter x = true -> byte_eqb x c_bslash = false)
        by (intros x; by destruct x as [[] [] [] [] [] [] [] []]).
      destruct (fast_span_ahead _ _ _ is_ascii_letter _ _ Hs Hk Ef) as (Hrun & Hall & H2 & Hle).
      exists run, s1. split_and!; [done|done|done|]. eapply ahead_le; [exact H2|lia].
    - exists [], s. destruct Hs as (A & <- & D). by split_and!. }
  rewrite (at_end_ahead _ _ _ H1). rewrite Ht. rewrite run_length_app by done.
  set (v := ahead s1) in *. rewrite take_app_add, drop_app_add. destruct v as [|c v]; cbn [is_nil run_length].
  { rewrite app_nil_r. exists s1. split; [done|]. exact H1. }
  destruct (letter_tests _ _ _ _ H1) as (s2 & -> & H2). cbv iota beta.
  destruct (is_ascii_letter c) eqn:Ec.
  - destruct (read_while_ahead _ _ _ _ _ letter_tests H2) as (s3 & -> & H3). cbn [run_length] in H3 |- *. rewrite Ec in *.
    by exists s3.
  - simpl. rewrite app_nil_r. by exists s2.
Qed.

(** ** The condition's text *)

Definition condition_step (x : reading_state * bytes) : reading_state * bytes + option (bytes * bytes) :=
  let '(st, t) := x in
  match t with
  | [] => inr (Some (raw_expr st, []))
  | c :: r =>
      if line_end_char c then inr (Some (raw_expr st, t))
      else if in_str st || in_chr st then
        match r with
        | d :: r' =>
            if byte_eqb c c_bslash && negb (line_end_char d) then inl (add st [c; d], r')
            else inl (add (if in_str st then if byte_eqb c c_dquote then Reading (raw_expr st) false (in_chr st) else st
                           else if byte_eqb c c_squote then Reading (raw_expr st) (in_str st) false else st) [c], r)
        | [] => inl (add (if in_str st then if byte_eqb c c_dquote then Reading (raw_expr st) false (in_chr st) else st
                          else if byte_eqb c c_squote then Reading (raw_expr st) (in_str st) false else st) [c], r)
        end
      else if byte_eqb c "/"%char then
        match r with
        | d :: r' =>
            if byte_eqb d "*"%char then
              match close_at Ascii.zero r' with Some (_, u) => inl (add st (B " "), u) | None => inr None end
            else if byte_eqb d "/"%char then inr (Some (raw_expr st, drop_line r))
            else inl (add st [c], r)
        | [] => inl (add st [c], r)
        end
      else
        inl (add (if byte_eqb c c_dquote then Reading (raw_expr st) true (in_chr st)
                  else if byte_eqb c c_squote then Reading (raw_expr st) (in_str st) true else st) [c], r)
  end.
Definition condition_from (st : reading_state) (t : bytes) : option (bytes * bytes) :=
  default None (loop (S (length t)) condition_step (st, t)).
(** The text up to the line's end, each comment one space; what is left. *)
Definition condition_text (t : bytes) : option (bytes * bytes) := condition_from (Reading [] false false) t.

Lemma condition_step_shorter x x' : condition_step x = inl x' -> length x'.2 < length x.2.
Proof.
  destruct x as [st [|c r]]; simpl; [done|]. destruct (line_end_char c); [done|].
  destruct (in_str st || in_chr st).
  - destruct r as [|d r']; [intros [= <-]; simpl; lia|]. destruct (_ && _); intros [= <-]; simpl; lia.
  - destruct (byte_eqb c "/"); [|intros [= <-]; simpl; lia]. destruct r as [|d r']; [intros [= <-]; simpl; lia|].
    destruct (byte_eqb d "*"); [|destruct (byte_eqb d "/"); [done|intros [= <-]; simpl; lia]].
    destruct (close_at _ r') as [[k u]|] eqn:E; [|done]. apply close_at_length in E. intros [= <-]. simpl. lia.
Qed.
Lemma condition_unfold st t :
  condition_from st t = match condition_step (st, t) with inl (st', t') => condition_from st' t' | inr r => r end.
Proof.
  unfold condition_from. etransitivity; [exact (loop_unfold (fun x => length x.2) condition_step None (st, t) condition_step_shorter)|].
  by destruct (condition_step (st, t)) as [[st' t']|].
Qed.

Lemma condition_plain st run t :
  Forall (fun c => plain_byte st c = true) run -> condition_from st (run ++ t) = condition_from (add st run) t.
Proof.
  intros H. revert st H. induction run as [|c run IH]; intros st H.
  { destruct st. unfold add. simpl. by rewrite app_nil_r. }
  apply Forall_cons_1 in H as [Hc H]. rewrite condition_unfold.
  assert (Hs : condition_step (st, (c :: run) ++ t) = inl (add st [c], run ++ t)).
  { unfold plain_byte in Hc. cbn [condition_step app]. unfold line_end_char. destruct (byte_eqb c c_nl || byte_eqb c c_cr) eqn:E1; [done|].
    simpl in Hc. destruct (byte_eqb c c_bslash); [done|]. cbn [andb].
    destruct (in_str st); [|destruct (in_chr st)]; cbn [orb].
    - apply negb_true_iff in Hc. rewrite Hc. by destruct (run ++ t).
    - apply negb_true_iff in Hc. rewrite Hc. by destruct (run ++ t).
    - apply andb_true_iff in Hc as [Hc H3]. apply andb_true_iff in Hc as [H1 H2]. apply negb_true_iff in H1, H2, H3. by rewrite H1, H2, H3. }
  rewrite Hs, IH; [unfold add; cbn [raw_expr in_str in_chr]; by rewrite <- app_assoc|].
  eapply Forall_impl; [exact H|]. done.
Qed.

Definition reads_text (o : res (bytes * source)) (spec : option (bytes * bytes)) (n : nat) : Prop :=
  match spec with
  | Some (raw, u) => exists s', o = Ok (raw, s') /\ ahead_is s' u n
  | None => exists s', o = Raise unterminated_comment s'
  end.

(** After the character of a literal was read. *)
Lemma literal_ahead st c s r n :
  ahead_is s r n -> line_end_char c = false -> in_str st || in_chr st = true ->
  exists st' s' u, condition_step (st, c :: r) = inl (st', u) /\ literal_char st (code c) s = (st', s') /\ ahead_is s' u n.
Proof.
  intros Hs Hc Hl. unfold literal_char. cbn [condition_step]. rewrite Hc, Hl, !code_eqb, to_byte_code.
  rewrite (at_end_ahead _ _ _ Hs). destruct r as [|d r].
  { rewrite andb_false_r. eexists _, s, []. split; [reflexivity|]. split; [|done]. f_equal. f_equal.
    destruct (byte_eqb c c_bslash) eqn:E; reflect_bool; [subst c|]; by destruct (in_str st). }
  cbn [is_nil negb]. rewrite andb_true_r. destruct (byte_eqb c c_bslash) eqn:E; cbn [andb negb].
  2:{ eexists _, s, (d :: r). split; [reflexivity|]. split; [|done]. by destruct (in_str st). }
  destruct (not_line_end_tests _ _ _ _ Hs) as (s1 & -> & H1). destruct (line_end_char d); cbn [negb].
  - eexists _, s1, (d :: r). split; [reflexivity|]. split; [|done]. reflect_bool. subst c. by destruct (in_str st).
  - destruct (get_ahead _ _ _ _ H1) as (s2 & -> & H2 & _). eexists _, s2, r. split; [reflexivity|]. split.
    + rewrite to_byte_code. unfold add. simpl. by rewrite <- app_assoc.
    + eapply ahead_le; [exact H2|lia].
Qed.

Lemma condition_char_ahead st c r s n :
  ahead_is s (c :: r) n ->
  match condition_char st s with
  | inl (st', s') => exists u, condition_step (st, c :: r) = inl (st', u) /\ ahead_is s' u (n - 1) /\ 0 < n
  | inr o => exists spec, condition_step (st, c :: r) = inr spec /\ reads_text o spec n
  end.
Proof.
  intros Hs. unfold condition_char. destruct (peek_ahead _ _ _ Hs) as (s1 & -> & H1). rewrite is_line_end_char.
  destruct (get_ahead _ _ _ _ H1) as (s2 & Hg & H2 & Hn). rewrite Hg. cbn [snd].
  destruct (line_end_char c) eqn:Ec.
  { eexists. cbn [condition_step]. rewrite Ec. split; [reflexivity|]. by exists s1. }
  destruct (in_str st || in_chr st) eqn:El.
  { rewrite <- negb_orb, El. cbn [negb andb].
    destruct (literal_ahead st c s2 r (n - 1) H2 Ec El) as (st' & s' & u & -> & -> & H3). by exists u. }
  rewrite <- negb_orb, El. cbn [negb andb]. cbn [condition_step]. rewrite Ec, El, !code_eqb.
  destruct (byte_eqb c "/") eqn:Es.
  2:{ rewrite to_byte_code. by exists r. }
  reflect_bool. subst c. destruct (peek_ahead _ _ _ H2) as (s3 & -> & H3). destruct r as [|d r].
  { exists []. split; [done|]. by split. }
  rewrite !code_eqb. destruct (byte_eqb d "*").
  { destruct (get_ahead _ _ _ _ H3) as (s4 & -> & H4 & Hn4). cbn [snd].
    pose proof (comment_ahead _ _ _ (line s1) (column s2) H4) as Hc.
    destruct (close_at _ r) as [[k u]|].
    - destruct Hc as (s5 & -> & H5). exists u. split; [done|]. split; [eapply ahead_le; [exact H5|lia]|done].
    - destruct Hc as (k & s5 & ->). eexists. split; [reflexivity|]. by exists s5. }
  destruct (byte_eqb d "/").
  - destruct (read_while_ahead _ _ _ _ _ not_line_end_tests H3) as (s4 & -> & H4). cbn [snd].
    eexists. split; [reflexivity|]. exists s4. split; [done|]. eapply ahead_le; [exact H4|lia].
  - by exists (d :: r).
Qed.

Lemma condition_ahead s t n : ahead_is s t n -> reads_text (read_if_condition_text s) (condition_text t) n.
Proof.
  intros Hs. unfold read_if_condition_text.
  destruct (loop_total (fun x => exists u, ahead_is x.2 u n /\ condition_from x.1 u = condition_text t)
    (fun o => reads_text o (condition_text t) n) (fun x => unread x.2) condition_body)
    with (fuel := S (unread s)) (s := (Reading [] false false, s)) as (r & -> & Hr);
    [|by exists t|simpl; lia|exact Hr].
  intros [st s1] (u & Hu & <-). simpl in Hu. cbn [fst snd]. unfold condition_body.
  assert (Hu1 : ahead_is s1 u (unread s1)) by (destruct Hu as (A & B0 & _); by split_and!).
  assert (Hn : unread s1 <= n) by (by destruct Hu as (_ & _ & D)).
  rewrite (at_end_ahead _ _ _ Hu). destruct u as [|c u]; cbn [is_nil].
  { rewrite condition_unfold. by exists s1. }
  assert (Hslow : forall s2, ahead_is s2 (c :: u) (unread s1) ->
    match condition_char st s2 with
    | inl x => (exists v, ahead_is x.2 v n /\ condition_from x.1 v = condition_from st (c :: u)) /\ unread x.2 < unread s1
    | inr o => reads_text o (condition_from st (c :: u)) n
    end).
  { intros s2 H2. pose proof (condition_char_ahead st c u s2 _ H2) as Hc. rewrite condition_unfold.
    destruct (condition_char st s2) as [[st' s']|o].
    - destruct Hc as (v & -> & H3 & Hlt). simpl. split; [|destruct H3 as (_ & _ & D); lia].
      exists v. split; [|done]. eapply ahead_le; [exact H3|lia].
    - destruct Hc as (spec & -> & Hr). destruct spec as [[raw v]|]; [|exact Hr].
      destruct Hr as (s' & -> & H3). exists s'. split; [done|]. by eapply ahead_le. }
  destruct (fast_span s1 (plain_byte st)) as [[[|x run] s2]|] eqn:Ef; [| |by apply Hslow].
  all: assert (Hk : forall x, plain_byte st x = true -> byte_eqb x c_bslash = false)
    by (intros y; unfold plain_byte; destruct (byte_eqb y c_bslash); rewrite ?orb_true_r; done).
  all: destruct (fast_span_ahead _ _ _ _ _ _ Hu1 Hk Ef) as (Hrun & Hall & H2 & Hle).
  - apply Hslow. simpl in Hrun. rewrite <- Hrun, Nat.sub_0_r in H2. exact H2.
  - simpl in Hle, H2 |- *. split; [|destruct H2 as (_ & _ & D); lia]. exists (ahead s2). split; [eapply ahead_le; [exact H2|lia]|].
    rewrite Hrun. symmetry. by apply condition_plain.
Qed.

(** ** A skipped group's text *)

Section SkipText.
Context `{IfMacros}.

Definition evaluate_text (t : bytes) : option bool :=
  match evaluate_if_text t with decided active _ => Some active | _ => None end.

(** The line [t] starts with, as a directive line of the machine; [NoLine] at
    the end, [BadLine] where a comment does not end.  The text of a line that is
    no directive of a group is skipped unread. *)
Inductive line_read := NoLine | BadLine | Line (l : Groups.pp_line (T := unit) (C := bytes)) (rest : bytes).

Definition read_tail (l : Groups.pp_line) (t : bytes) : line_read :=
  match text_tail t with Some u => Line l u | None => BadLine end.
Definition directive_text (st : conditionals) (depth : nat) (w t : bytes) : line_read :=
  match pp_directive_word w, depth with
  | W_If, _ => read_tail (Groups.Open If [] [] 0 0) t
  | W_Ifdef, _ => read_tail (Groups.Open Ifdef [] [] 0 0) t
  | W_Ifndef, _ => read_tail (Groups.Open Ifndef [] [] 0 0) t
  | W_Endif, _ => read_tail Groups.EndifLine t
  | W_Else, O => read_tail Groups.ElseLine t
  | W_Elif, O =>
      if top_taken (branch st Elif) then read_tail (Groups.ElifLine []) t
      else match condition_text t with Some (cond, u) => Line (Groups.ElifLine cond) u | None => BadLine end
  | W_Else, S _ => Line Groups.ElseLine (drop_line t)
  | W_Elif, S _ => Line (Groups.ElifLine []) (drop_line t)
  | _, _ => Line (Groups.Text tt) (drop_line t)
  end.
Definition line_text_ahead (st : conditionals) (depth : nat) (t : bytes) : line_read :=
  match drop (run_length blank_char t) t with
  | [] => NoLine
  | c :: r =>
      if line_end_char c then Line (Groups.Text tt) r
      else if negb (byte_eqb c "#"%char) then Line (Groups.Text tt) (drop_line r)
      else match text_space r with
           | None => BadLine
           | Some u => directive_text st depth (text_word u).1 (text_word u).2
           end
  end.

(** The machine run on the lines of a text. *)
Inductive text_end := TextResume (st : conditionals) (rest : bytes) | TextRefused | TextEnd (st : conditionals).
Definition skip_text_step (x : nat * conditionals * bytes) : nat * conditionals * bytes + text_end :=
  let '(depth, st, t) := x in
  match line_text_ahead st depth t with
  | NoLine => inr (TextEnd st)
  | BadLine => inr TextRefused
  | Line l t =>
      match Groups.skipped_line evaluate_text st depth l with
      | Some (st, Groups.Skipping depth) => inl (depth, st, t)
      | Some (st, Groups.Live) => inr (TextResume st t)
      | None => inr TextRefused
      end
  end.
Definition skip_text_from (x : nat * conditionals * bytes) : text_end :=
  default TextRefused (loop (S (length x.2)) skip_text_step x).
Definition skip_text (st : conditionals) (t : bytes) : text_end := skip_text_from (0, st, t).

Lemma condition_text_length t raw u : condition_text t = Some (raw, u) -> length u <= length t.
Proof.
  unfold condition_text. generalize (Reading [] false false) as st. remember (length t) as n eqn:Hn.
  revert t Hn. induction (lt_wf n) as [n _ IH]. intros t -> st. rewrite condition_unfold.
  destruct (condition_step (st, t)) as [[st' t']|r] eqn:E.
  - apply condition_step_shorter in E. simpl in E. intros Hc. eapply (IH (length t')) in Hc; [lia|lia|done].
  - intros ->. destruct t as [|c r]; simpl in E; [by injection E as _ <-|].
    destruct (line_end_char c); [by injection E as _ <-|]. destruct (in_str st || in_chr st).
    { destruct r; [done|]. by destruct (_ && _). }
    destruct (byte_eqb c "/"); [|done]. destruct r as [|d r']; [done|].
    destruct (byte_eqb d "*"); [by destruct (close_at _ r') as [[? ?]|]|]. destruct (byte_eqb d "/"); [|done].
    injection E as _ <-. pose proof (drop_line_length (d :: r')). simpl in *. lia.
Qed.

Lemma read_tail_length l t l' u : read_tail l t = Line l' u -> length u <= length t.
Proof. unfold read_tail. destruct (text_tail t) eqn:E; [|done]. intros [= _ <-]. by apply text_tail_length. Qed.

Lemma line_shorter st depth t l u : line_text_ahead st depth t = Line l u -> length u < length t.
Proof.
  unfold line_text_ahead. pose proof (length_drop t (run_length blank_char t)) as Hd.
  destruct (drop _ t) as [|c r]; [done|]. simpl in Hd. destruct (line_end_char c); [intros [= _ <-]; lia|].
  pose proof (drop_line_length r). destruct (negb _); [intros [= _ <-]; lia|].
  destruct (text_space r) as [v|] eqn:Ev; [|done]. apply text_space_length in Ev.
  unfold text_word. set (z := drop _ v). assert (Hz : length z <= length v) by (subst z; rewrite length_drop; lia). clearbody z.
  pose proof (drop_line_length z) as Hdl. simpl. unfold directive_text. intros Hl.
  destruct (pp_directive_word _), depth; try (apply read_tail_length in Hl; lia); try (injection Hl as _ <-; lia).
  destruct (top_taken _); [apply read_tail_length in Hl; lia|].
  destruct (condition_text z) as [[raw y]|] eqn:Ec; [|done]. apply condition_text_length in Ec. injection Hl as _ <-. lia.
Qed.

Lemma skip_text_unfold x :
  skip_text_from x = match skip_text_step x with inl x' => skip_text_from x' | inr r => r end.
Proof.
  apply (loop_unfold (fun x : nat * conditionals * bytes => length x.2)). clear x. intros [[d st] t] x'. unfold skip_text_step.
  destruct (line_text_ahead st d t) as [| |l u] eqn:E; [done|done|]. apply line_shorter in E.
  destruct (Groups.skipped_line _ st d l) as [[st' [|d']]|]; [done| |done]. by intros [= <-].
Qed.

(** An end of the skip is the text's. *)
Definition ends_as (e : skip_end) (r : text_end) : Prop :=
  match r, e with
  | TextResume st t, Resume st' s' _ => st' = st /\ steady (_buf s') /\ ahead s' = t
  | TextRefused, (Refused _ _ | Undefined) => True
  | TextEnd st, FileEnd st' refusal => st' = st /\
      refusal = refuse_open_conditional_groups st (if is_nil (cond_groups st) then 0 else length (cond_groups st) - 1)
  | _, _ => False
  end.
Definition step_as (o : skip_state + skip_end) (x : nat * conditionals * bytes + text_end) (n : nat) : Prop :=
  match o, x with
  | inl (d, s, st, _), inl (d', st', t) => d = d' /\ st = st' /\ ahead_is s t n
  | inr e, inr r => ends_as e r
  | _, _ => False
  end.

Definition act (st : conditionals) (depth : nat) (o : line_read) : nat * conditionals * bytes + text_end :=
  match o with
  | NoLine => inr (TextEnd st)
  | BadLine => inr TextRefused
  | Line l t =>
      match Groups.skipped_line evaluate_text st depth l with
      | Some (st, Groups.Skipping depth) => inl (depth, st, t)
      | Some (st, Groups.Live) => inr (TextResume st t)
      | None => inr TextRefused
      end
  end.

Lemma tail_step st depth l s t n k :
  ahead_is s t n ->
  (forall s' u, ahead_is s' u n -> step_as (k s') (act st depth (Line l u)) n) ->
  step_as (after_tail s k) (act st depth (read_tail l t)) n.
Proof.
  intros Hs Hk. unfold after_tail, read_tail. pose proof (tail_ahead _ _ _ Hs) as Ht.
  destruct (text_tail t) as [u|]; simpl in Ht.
  - destruct Ht as (s' & -> & H1). by apply Hk.
  - by destruct Ht as (s' & ->).
Qed.

Lemma directive_step st depth line_at w s t n cap :
  ahead_is s t n ->
  step_as (skip_directive depth line_at w s st cap) (act st depth (directive_text st depth w t)) n.
Proof.
  intros Hs. pose proof (line_rest_ahead _ _ _ Hs) as Hrest. unfold skip_directive, directive_text.
  destruct (pp_directive_word w), depth as [|d]; try (simpl; by split_and!);
    try (apply tail_step; [exact Hs|]; intros s' u Hu; simpl; by split_and!).
  - destruct (top_taken (branch st Elif)) eqn:Et.
    { apply tail_step; [exact Hs|]. intros s' u Hu. simpl. rewrite Et. simpl. by split_and!. }
    pose proof (condition_ahead _ _ _ Hs) as Hc. destruct (condition_text t) as [[cond u]|]; simpl in Hc.
    2:{ destruct Hc as (s' & ->). done. }
    destruct Hc as (s' & -> & Hu). cbn [act Groups.skipped_line]. rewrite Et. unfold evaluate_text.
    destruct Hu as (A & B0 & D).
    destruct (evaluate_if_text cond) as [| |m|[] w']; simpl; try done; by split_and!.
  - apply tail_step; [exact Hs|]. intros s' u (Hst & Ha & Hu). cbn [act Groups.skipped_line].
    destruct (negb (top_taken (branch st Else))); simpl; by split_and!.
  - apply tail_step; [exact Hs|]. intros s' u (Hst & Ha & Hu). simpl. by split_and!.
Qed.

Lemma block_step depth s st cap t n :
  ahead_is s t n -> 
  step_as (skip_block_body (depth, s, st, cap)) (skip_text_step (depth, st, t)) (n - 1).
Proof.
  intros Hs. change (skip_text_step (depth, st, t)) with (act st depth (line_text_ahead st depth t)).
  unfold skip_block_body, line_text_ahead. rewrite (at_end_ahead _ _ _ Hs).
  destruct (read_while_ahead _ _ _ _ _ blank_tests Hs) as (s1 & -> & H1). cbn [snd].
  destruct t as [|x t]; [simpl; by split|]. cbn [is_nil]. rewrite (at_end_ahead _ _ _ H1).
  set (u := drop _ (x :: t)) in *. clearbody u. destruct u as [|c r]; [simpl; by split|]. cbn [is_nil].
  destruct (get_ahead _ _ _ _ H1) as (s2 & -> & H2 & Hn). rewrite to_byte_code.
  fold (line_end_char c). destruct (line_end_char c); [simpl; by split_and!|].
  destruct (negb (byte_eqb c "#")); [simpl; split_and!; [done|done|by apply line_rest_ahead]|].
  pose proof (space_ahead _ _ _ H2) as Hsp. destruct (text_space r) as [v|]; simpl in Hsp; [|by destruct Hsp as (s3 & ->)].
  destruct Hsp as (s3 & -> & H3). destruct (word_ahead _ _ _ H3) as (s4 & -> & H4). by apply directive_step.
Qed.

Lemma skip_block_spec s st cap :
  steady (_buf s) ->
  exists e, skipConditionalBlock s st cap = Some e /\ ends_as e (skip_text st (ahead s)).
Proof.
  intros Hs. unfold skipConditionalBlock, skip_text.
  destruct (loop_total (fun x : skip_state => let '(d, s1, st1, _) := x in
      steady (_buf s1) /\ skip_text_from (d, st1, ahead s1) = skip_text_from (0, st, ahead s))
    (fun e => ends_as e (skip_text_from (0, st, ahead s))) (fun x => unread x.1.1.2) skip_block_body)
    with (fuel := S (unread s)) (s := (0, s, st, cap)) as (e & -> & He); [|done|simpl; lia|by exists e].
  intros [[[d s1] st1] cap1] (Hs1 & <-). rewrite skip_text_unfold.
  pose proof (block_step d s1 st1 cap1 (ahead s1) (unread s1) (ahead_self s1 Hs1)) as Hb.
  destruct (skip_block_body _) as [[[[d' s'] st'] cap']|e] eqn:Eb, (skip_text_step _) as [[[d2 st2] t]|r]; try done.
  destruct Hb as (-> & -> & (A & <- & D)). split; [done|]. simpl.
  assert (0 < unread s1); [|lia]. destruct (unread s1) eqn:Eu; [|lia]. exfalso.
  assert (Hg : good s1 = false). { unfold good, unread in *. destruct (_pushback s1); [simpl|done]. apply Nat.ltb_ge. simpl in Eu. lia. }
  unfold skip_block_body, at_end in Eb. rewrite Hg in Eb. done.
Qed.
End SkipText.

(** C5: Skipping a group ends, and it drives the machine of directive lines with
    the lines of the phase-2 text ahead: it resumes in the same state at the same
    text, refuses, or finds the end of the file exactly when the machine does. *)
Theorem skip_block_reads :
  forall (M : IfMacros) s st cap, steady (_buf s) ->
  exists e, skipConditionalBlock s st cap = Some e /\ ends_as e (skip_text st (ahead s)).
Proof. intros M. exact skip_block_spec. Qed.

(** The text of an [#if]'s condition is what is ahead up to the line's end,
    each comment replaced by one space and a [//] comment dropped, quoted text
    kept as it is; an open comment is refused. *)
Theorem condition_text_read s :
  steady (_buf s) -> reads_text (read_if_condition_text s) (condition_text (ahead s)) (unread s).
Proof. intros Hs. by apply condition_ahead. Qed.

(** ** Witnesses and examples *)

(** Tables in which nothing is defined. *)
#[local] Instance no_macros : IfMacros := {
  expandIfMacros e := e;
  macro_name_defined n := false;
  define_find n := None;
  macro_count n := false;
  evaluateHasQuery op e pos := (0%Z, S pos);
  char_is_unsigned := false
}.

Definition unlines (ls : list bytes) : bytes := flat_map (fun l => l ++ [c_nl]) ls.
Definition skipped_group : conditionals := Conditionals [false] [OpenGroup false If 1 1] (Watch [] 0 [] true false).

(** A skipped group with a nested one, and an [#elif] whose line goes on after a
    splice; the buffer's splices stand before ordinary characters. *)
Definition skip_sample : source :=
  str source_new (unlines [B "text /* a"; B " # ifdef X // c"; B "#else"; B "#endif"; B "#elif 2 \"; B "/* two */ > 1"; B "kept"]).

Lemma steady_checked b :
  forallb (fun i => let k := splice_len (drop i b) in
    (k =? 0) || ((i + k <? length b) && (splice_len (drop (i + k) b) =? 0))) (seq 0 (length b)) = true ->
  steady b.
Proof.
  rewrite forallb_forall. intros H i k Hk. subst k. destruct (Nat.lt_ge_cases i (length b)) as [Hi|Hi].
  2:{ rewrite drop_ge in Hk by done. simpl in Hk. lia. }
  specialize (H i ltac:(apply in_seq; lia)). cbv zeta in H. apply orb_true_iff in H as [H|H]; reflect_bool; lia.
Qed.

Lemma skip_block_witness :
  steady (_buf skip_sample) /\
  skip_text skipped_group (ahead skip_sample) =
    TextResume (Conditionals [true] [OpenGroup true Elif 1 1] (Watch [] 0 [] true false)) (unlines [[]; B "kept"]) /\
  exists e, skipConditionalBlock skip_sample skipped_group None = Some e /\ ends_as e (skip_text skipped_group (ahead skip_sample)).
Proof.
  assert (Hs : steady (_buf skip_sample)) by (apply steady_checked; vm_compute; reflexivity).
  split; [exact Hs|]. split; [vm_compute; reflexivity|].
  apply (skip_block_reads no_macros skip_sample skipped_group None Hs).
Defined.

Definition condition_sample : source := str source_new (B "A /* b" ++ [c_nl] ++ B "c */ + '/*' // d" ++ [c_nl] ++ B "e").
Lemma condition_text_witness :
  condition_text (ahead condition_sample) = Some (B "A   + '/*' ", [c_nl] ++ B "e") /\
  reads_text (read_if_condition_text condition_sample) (condition_text (ahead condition_sample)) (unread condition_sample).
Proof.
  split; [vm_compute; reflexivity|].
  apply (condition_text_read condition_sample), steady_checked. vm_compute. reflexivity.
Defined.

(** Where the text's lines are not C's: a directive inside a comment of the
    skipped text ends the skip ... *)
Example endif_in_comment :
  skip_text skipped_group (unlines [B "/*"; B "#endif"; B "*/"; B "#endif"; B "kept"]) =
    TextResume (Conditionals [] [] (Watch [] 0 [] true false)) (unlines [[]; B "*/"; B "#endif"; B "kept"]).
Proof. vm_compute. reflexivity. Qed.
(** ... and a directive after a comment on its line does not. *)
Example endif_after_comment :
  skip_text skipped_group (unlines [B "/**/ #endif"; B "kept"]) = TextEnd skipped_group.
Proof. vm_compute. reflexivity. Qed.
