(* ===== verification/MacroTokens.v ===== *)
(** The macro spelling tokenizer of [src/src/lexer.cpp]: what the preprocessor
    cuts replacement lists, macro arguments and conditions into.

    A [ReplacementToken] is a kind and a range of the text; the tokenizer is a
    loop over the text whose turn scans one token from what is left.
    [tokens_cover] shows that the tokens are the text, cut without a gap, and
    that each has the shape of its kind and is as long as its kind allows. *)
From S2P Require Import Prelude Source Directives.
#[local] Open Scope nat_scope.

(** ** Data *)

Inductive Kind := rtWhitespace | rtComment | rtIdentifier | rtPpNumber | rtLiteral | rtHash | rtPaste | rtPunct.
#[export] Instance Kind_eq_dec : EqDecision Kind.
Proof. solve_decision. Defined.

Record ReplacementToken := RT { kind : Kind; begin : nat; end_ : nat }.

(** ** Characters *)

Definition macro_body_space (c : ascii) : bool :=
  byte_eqb c c_sp || byte_eqb c c_tab || byte_eqb c c_nl || byte_eqb c c_cr.
Definition is_ident_start (c : ascii) : bool := byte_eqb c "_"%char || is_ascii_letter c.
Definition is_ident_char (c : ascii) : bool := is_ident_start c || ((code c - 48) mod 256 <? 10)%Z.

(** What ends a raw string's delimiter: [strchr] also finds the NUL. *)
Definition raw_delim_stop (c : ascii) : bool :=
  existsb (byte_eqb c) [c_sp; c_tab; "011"%char; "012"%char; c_nl; c_cr; c_dquote; c_bslash; ")"%char; Ascii.zero].

(** ** One token

    [t] is the text from the token's first character on, and the result its
    kind and length. *)

(** From after the opening [/*]; [prev] is the character before. *)
Fixpoint comment_end (prev : ascii) (t : bytes) : nat :=
  match t with
  | [] => 0
  | c :: r => if byte_eqb prev "*"%char && byte_eqb c "/"%char then 1 else S (comment_end c r)
  end.

(** Whether a literal starts here: its quote's offset, and whether it is raw. *)
Definition pp_literal_start (t : bytes) : option (nat * bool) :=
  let c := at_ t 0 in
  let p := if byte_eqb c "u"%char then if (1 <? length t) && byte_eqb (at_ t 1) "8"%char then 2 else 1
           else if byte_eqb c "U"%char || byte_eqb c "L"%char then 1 else 0 in
  let r := (p <? length t) && byte_eqb (at_ t p) "R"%char in
  let p := if r then S p else p in
  if (length t <=? p) || (negb (byte_eqb (at_ t p) c_dquote) && (r || negb (byte_eqb (at_ t p) c_squote)))
  then None else Some (p, r).

(** An ordinary literal from after its quote [q]. *)
Fixpoint literal_run (q : ascii) (escaped : bool) (t : bytes) : nat :=
  match t with
  | [] => 0
  | c :: r =>
      if negb escaped && (byte_eqb c c_nl || byte_eqb c c_cr) then 0
      else if escaped then S (literal_run q false r)
      else if byte_eqb c c_bslash then S (literal_run q true r)
      else if byte_eqb c q then 1
      else S (literal_run q false r)
  end.

(** The delimiter's loop from after the quote: at most 17 turns. *)
Fixpoint delim_run (left : nat) (t : bytes) : nat :=
  match left, t with
  | S n, c :: r => if byte_eqb c "("%char || raw_delim_stop c then 0 else S (delim_run n r)
  | _, _ => 0
  end.

(** [text.find(sub)]. *)
Fixpoint find_sub (sub t : bytes) : option nat :=
  if starts_with t sub then Some 0
  else match t with [] => None | _ :: r => S <$> find_sub sub r end.

(** [t] starts after the quote: the raw literal's length from there, or [None]
    for a prefix that is a name. *)
Definition raw_literal (t : bytes) : option nat :=
  let d := delim_run 17 t in
  if (length t <=? d) || negb (byte_eqb (at_ t d) "("%char) || (16 <? d) then None
  else
    let close := ")"%char :: take d t ++ [c_dquote] in
    Some match find_sub close (drop (S d) t) with
         | None => length t
         | Some k => S d + k + length close
         end.

Definition exponent_mark (c : ascii) : bool := existsb (byte_eqb c) (B "eEpP").
#[global] Arguments exponent_mark : simpl never.

(** A pp-number from after its first character [prev]. *)
Fixpoint number_run (prev : ascii) (t : bytes) : nat :=
  match t with
  | [] => 0
  | c :: r =>
      if byte_eqb c "."%char || byte_eqb c c_squote || is_ident_char c then S (number_run c r)
      else if (byte_eqb c "+"%char || byte_eqb c "-"%char) && exponent_mark prev then S (number_run c r)
      else 0
  end.

Definition scan_literal (t : bytes) (quote : nat) (raw : bool) : Kind * nat :=
  if raw then
    match raw_literal (drop (S quote) t) with
    | None => (rtIdentifier, quote)
    | Some n => (rtLiteral, S quote + n)
    end
  else (rtLiteral, S quote + literal_run (at_ t quote) false (drop (S quote) t)).

Definition scan_token (t : bytes) : Kind * nat :=
  let c := at_ t 0 in
  let next c := (1 <? length t) && byte_eqb (at_ t 1) c in
  if macro_body_space c then (rtWhitespace, run_length macro_body_space t)
  else if byte_eqb c "/"%char && next "/"%char then
    (rtComment, 2 + run_length (fun c => negb (line_end_char c)) (drop 2 t))
  else if byte_eqb c "/"%char && next "*"%char then (rtComment, 2 + comment_end "*"%char (drop 2 t))
  else
    match pp_literal_start t with
    | Some (quote, raw) => scan_literal t quote raw
    | None =>
        if is_ident_start c then (rtIdentifier, S (run_length is_ident_char (drop 1 t)))
        else if isdigit c || (byte_eqb c "."%char && (1 <? length t) && isdigit (at_ t 1)) then
          (rtPpNumber, S (number_run c (drop 1 t)))
        else if byte_eqb c "#"%char then if next "#"%char then (rtPaste, 2) else (rtHash, 1)
        else (rtPunct, 1)
    end.

Fixpoint tokenize_from (fuel i : nat) (t : bytes) : list ReplacementToken :=
  match fuel, t with
  | S n, _ :: _ => let '(k, len) := scan_token t in RT k i (i + len) :: tokenize_from n (i + len) (drop len t)
  | _, _ => []
  end.
Definition tokenize_macro_spelling (text : bytes) : list ReplacementToken := tokenize_from (length text) 0 text.

Definition macro_token_space (t : ReplacementToken) : bool :=
  bool_decide (kind t = rtWhitespace) || bool_decide (kind t = rtComment).
Definition macro_token_text (text : bytes) (t : ReplacementToken) : bytes := substr text (begin t) (end_ t - begin t).

Definition spell (text : bytes) : list (Kind * bytes) :=
  map (fun t => (kind t, macro_token_text text t)) (tokenize_macro_spelling text).

Example spell_ex :
  spell (B "x2+=0x1e+3 /*c*/ u8'\''R#a##b//") =
  [(rtIdentifier, B "x2"); (rtPunct, B "+"); (rtPunct, B "="); (rtPpNumber, B "0x1e+3"); (rtWhitespace, B " ");
   (rtComment, B "/*c*/"); (rtWhitespace, B " "); (rtLiteral, B "u8'\''"); (rtIdentifier, B "R"); (rtHash, B "#");
   (rtIdentifier, B "a"); (rtPaste, B "##"); (rtIdentifier, B "b"); (rtComment, B "//")].
Proof. reflexivity. Qed.
Example spell_raw :
  spell (B "R" ++ [c_dquote] ++ B "x(a)" ++ [c_dquote] ++ B ")x" ++ [c_dquote] ++ B "+") =
  [(rtLiteral, B "R" ++ [c_dquote] ++ B "x(a)" ++ [c_dquote] ++ B ")x" ++ [c_dquote]); (rtPunct, B "+")].
Proof. reflexivity. Qed.

(** ** What each kind looks like

    The C11 shapes (6.4), [s] the token and [next] the text after it. *)

Definition begins (p : ascii -> bool) (t : bytes) : Prop := match t with c :: _ => p c = true | [] => False end.
Definition line_end_or_nil (t : bytes) : Prop := t = [] \/ begins line_end_char t.

(** A pp-number (6.4.8), with C++14's digit separators. *)
Inductive ppnumber : bytes -> Prop :=
| pp_digit c : isdigit c = true -> ppnumber [c]
| pp_dot c : isdigit c = true -> ppnumber ["."%char; c]
| pp_more s c : ppnumber s -> c = "."%char \/ c = c_squote \/ is_ident_char c = true -> ppnumber (s ++ [c])
| pp_sign s e c : ppnumber (s ++ [e]) -> e ∈ B "eEpP" -> c ∈ B "+-" -> ppnumber (s ++ [e; c]).

(** A literal's characters: escapes are pairs, the quote and the line's end do
    not occur plain. *)
Inductive literal_chars (q : ascii) : bytes -> Prop :=
| lc_nil : literal_chars q []
| lc_plain c s : c <> q -> c <> c_bslash -> line_end_char c = false -> literal_chars q s -> literal_chars q (c :: s)
| lc_escape c s : literal_chars q s -> literal_chars q (c_bslash :: c :: s).

Definition encoding_prefix (s : bytes) : Prop := s = [] \/ s = B "u" \/ s = B "u8" \/ s = B "U" \/ s = B "L".

(** Closed by the quote, or, never closed, ended by the line's or the text's end
    (there a last backslash may stand alone). *)
Definition ordinary_literal (s next : bytes) : Prop :=
  exists pre q body, encoding_prefix pre /\ (q = c_dquote \/ q = c_squote) /\ literal_chars q body /\
    (s = pre ++ q :: body ++ [q]
     \/ s = pre ++ q :: body /\ line_end_or_nil next
     \/ s = pre ++ q :: body ++ [c_bslash] /\ next = []).

Definition raw_opening (pre d : bytes) : bytes := pre ++ "R"%char :: c_dquote :: d ++ ["("%char].
Definition raw_closing (d : bytes) : bytes := ")"%char :: d ++ [c_dquote].

Definition raw_string (s next : bytes) : Prop :=
  exists pre d body, encoding_prefix pre /\ length d <= 16 /\ Forall (fun c => c <> "("%char /\ raw_delim_stop c = false) d /\
    (s = raw_opening pre d ++ body ++ raw_closing d /\ find_sub (raw_closing d) (body ++ raw_closing d) = Some (length body)
     \/ s = raw_opening pre d ++ body /\ next = [] /\ find_sub (raw_closing d) body = None).

Definition identifier (s next : bytes) : Prop :=
  (exists c r, s = c :: r /\ is_ident_start c = true /\ Forall (fun c => is_ident_char c = true) r /\ ~ begins is_ident_char next)
  \/ exists pre, encoding_prefix pre /\ s = pre ++ B "R" /\ begins (byte_eqb c_dquote) next.

(** [/*/] counts as closed: the loop looks for a star and a slash from the
    opening star on. *)
Definition comment (s next : bytes) : Prop :=
  (exists r, s = B "//" ++ r /\ Forall (fun c => line_end_char c = false) r /\ line_end_or_nil next)
  \/ exists r, s = B "/" ++ r /\ begins (byte_eqb "*"%char) r /\
       (find_sub (B "*/") r = Some (length r - 2) /\ 3 <= length s \/ find_sub (B "*/") r = None /\ next = []).

Definition token_shape (k : Kind) (s next : bytes) : Prop :=
  match k with
  | rtWhitespace => s <> [] /\ Forall (fun c => macro_body_space c = true) s /\ ~ begins macro_body_space next
  | rtComment => comment s next
  | rtIdentifier => identifier s next
  | rtPpNumber => ppnumber s /\ forall c r, next = c :: r -> ~ ppnumber (s ++ [c])
  | rtLiteral => ordinary_literal s next \/ raw_string s next
  | rtHash => s = B "#" /\ ~ begins (byte_eqb "#"%char) next
  | rtPaste => s = B "##"
  | rtPunct => exists c, s = [c] /\ macro_body_space c = false /\ is_ident_start c = false /\ isdigit c = false /\
                 c <> c_dquote /\ c <> c_squote /\ c <> "#"%char
  end.

(** The text from offset [i] on, cut into tokens without a gap. *)
Inductive lexed : nat -> bytes -> list ReplacementToken -> Prop :=
| lexed_nil i : lexed i [] []
| lexed_cons i k s next ts :
    s <> [] -> token_shape k s next -> lexed (i + length s) next ts -> lexed i (s ++ next) (RT k i (i + length s) :: ts).

(** ** Splitting a text where a scan stops *)

Lemma run_split keep t :
  exists a b, t = a ++ b /\ run_length keep t = length a /\ Forall (fun c => keep c = true) a /\ ~ begins keep b.
Proof.
  induction t as [|c t (a & b & -> & Hl & Ha & Hb)]; simpl.
  { exists [], []. split_and!; auto. }
  destruct (keep c) eqn:E.
  - exists (c :: a), b. simpl. split_and!; auto.
  - exists [], (c :: a ++ b). simpl. split_and!; auto. by rewrite E.
Qed.

Lemma find_sub_Some sub t k :
  find_sub sub t = Some k ->
  exists pre post, t = pre ++ sub ++ post /\ length pre = k /\ find_sub sub (pre ++ sub) = Some k.
Proof.
  revert k. induction t as [|c t IH]; intros k; simpl.
  - destruct (starts_with [] sub) eqn:E; [|done]. intros [= <-]. apply starts_with_inv in E.
    destruct sub; [|done]. by exists [], [].
  - destruct (starts_with (c :: t) sub) eqn:E.
    + intros [= <-]. apply starts_with_inv in E. exists [], (drop (length sub) (c :: t)). split_and!; [done|done|].
      simpl. pose proof (starts_with_app sub []) as Hs. rewrite app_nil_r in Hs.
      destruct sub as [|x r]; [reflexivity|]. cbn [find_sub]. by rewrite Hs.
    + intros Hk. apply fmap_Some in Hk as (k' & Hk & ->). destruct (IH k' Hk) as (pre & post & -> & Hl & Hf).
      exists (c :: pre), post. split_and!; [done|simpl; by rewrite Hl|]. simpl.
      unfold starts_with in *. rewrite app_assoc in E. rewrite app_comm_cons, take_app_le in E by (simpl; rewrite length_app; lia).
      rewrite E. by rewrite Hf.
Qed.

Lemma comment_end_find prev t :
  comment_end prev t = match find_sub (B "*/") (prev :: t) with Some k => S k | None => length t end.
Proof.
  revert prev. induction t as [|c t IH]; intros prev.
  - simpl. replace (starts_with [prev] (B "*/")) with false; [done|].
    symmetry. unfold starts_with. apply not_true_iff_false. intros Hb. by apply bytes_eqb_eq in Hb.
  - cbn [comment_end]. rewrite IH. clear IH.
    change (find_sub (B "*/") (prev :: c :: t)) with
      (if starts_with (prev :: c :: t) (B "*/") then Some 0 else S <$> find_sub (B "*/") (c :: t)).
    assert (Es : starts_with (prev :: c :: t) (B "*/") = byte_eqb prev "*"%char && byte_eqb c "/"%char).
    { unfold starts_with. simpl. unfold bytes_eqb. destruct (byte_eqb prev _ && byte_eqb c _) eqn:E; reflect_bool.
      - apply bool_decide_eq_true. by subst.
      - apply bool_decide_eq_false. intros [= -> ->]. by rewrite !byte_eqb_refl in E. }
    rewrite Es. destruct (_ && _); [done|]. by destruct (find_sub (B "*/") (c :: t)).
Qed.

Lemma literal_run_split q t :
  exists body tail next, t = body ++ tail ++ next /\ literal_run q false t = length (body ++ tail) /\ literal_chars q body /\
    (tail = [q] \/ tail = [] /\ line_end_or_nil next \/ tail = [c_bslash] /\ next = []).
Proof.
  remember (length t) as n eqn:Hn. revert t Hn. induction (lt_wf n) as [n _ IH]. intros [|c t] ->.
  { exists [], [], []. split_and!; try done; [constructor|]. right; left. split; [done|by left]. }
  cbn [literal_run negb andb]. destruct (byte_eqb c c_nl || byte_eqb c c_cr) eqn:E1.
  { exists [], [], (c :: t). split_and!; try done; [constructor|]. right; left. split; [done|]. by right. }
  destruct (byte_eqb c c_bslash) eqn:E2.
  - reflect_bool. subst c. destruct t as [|d t].
    { exists [], [c_bslash], []. split_and!; try done; [constructor|]. by right; right. }
    cbn [literal_run negb andb]. destruct (IH (length t) ltac:(simpl; lia) t eq_refl) as (body & tail & next & -> & Hr & Hb & Ht).
    exists (c_bslash :: d :: body), tail, next. split_and!; [done|simpl; by rewrite Hr|by constructor|done].
  - destruct (byte_eqb c q) eqn:E3.
    + reflect_bool. subst c. exists [], [q], t. split_and!; try done; [constructor|by left].
    + destruct (IH (length t) ltac:(simpl; lia) t eq_refl) as (body & tail & next & -> & Hr & Hb & Ht).
      exists (c :: body), tail, next. reflect_bool. split_and!; [done|simpl; by rewrite Hr| |done].
      constructor; auto. unfold line_end_char. by apply orb_false_iff; split; apply byte_eqb_neq.
Qed.

Lemma delim_run_split n t :
  exists d b, t = d ++ b /\ delim_run n t = length d /\ length d <= n /\ Forall (fun c => c <> "("%char /\ raw_delim_stop c = false) d.
Proof.
  revert t. induction n as [|n IH]; intros [|c t]; simpl; try (by exists [], []); try (exists [], (c :: t); split_and!; [done|done|simpl; lia|done]).
  - exists [], []. split_and!; [done|done|simpl; lia|done].
  - destruct (byte_eqb c "("%char || raw_delim_stop c) eqn:E.
    + exists [], (c :: t). split_and!; [done|done|simpl; lia|done].
    + destruct (IH t) as (d & b & -> & Hr & Hl & Hd). reflect_bool. exists (c :: d), b.
      split_and!; [done|simpl; by rewrite Hr|simpl; lia|by constructor].
Qed.

Lemma isdigit_ident c : isdigit c = true -> is_ident_char c = true.
Proof. destruct c as [[] [] [] [] [] [] [] []]; vm_compute; done. Qed.

Lemma ppnumber_last s e c :
  ppnumber (s ++ [e; c]) -> c = "."%char \/ c = c_squote \/ is_ident_char c = true \/ e ∈ B "eEpP" /\ c ∈ B "+-".
Proof.
  intros Hp. inversion Hp as [x Hx Hs|x Hx Hs|s' x _ Hx Hs|s' e' x _ He Hx Hs].
  - destruct s as [|? [|]]; done.
  - destruct s as [|? [|? []]]; try done. injection Hs as <- <-. right; right; left. by apply isdigit_ident.
  - change [e; c] with ([e] ++ [c]) in Hs. rewrite app_assoc in Hs. apply app_inj_tail in Hs as [_ <-].
    destruct Hx as [Hx|[Hx|Hx]]; auto.
  - change [e'; x] with ([e'] ++ [x]) in Hs. change [e; c] with ([e] ++ [c]) in Hs. rewrite !app_assoc in Hs.
    apply app_inj_tail in Hs as [Hs <-]. apply app_inj_tail in Hs as [_ <-]. auto.
Qed.

(** ** Each scan has the shape of its kind *)

(** [s] is the token the scan of [s ++ next] cuts off. *)
Definition cuts (t : bytes) (r : Kind * nat) : Prop :=
  exists s next, t = s ++ next /\ s <> [] /\ r.2 = length s /\ token_shape r.1 s next.

Lemma cuts_intro s next k : s <> [] -> token_shape k s next -> cuts (s ++ next) (k, length s).
Proof. intros Hs Hk. by exists s, next. Qed.

Lemma byte_neq c d : byte_eqb c d = false -> c <> d.
Proof. apply byte_eqb_neq. Qed.

Lemma block_comment_cuts t : cuts ("/"%char :: "*"%char :: t) (rtComment, 2 + comment_end "*"%char t).
Proof.
  rewrite comment_end_find. destruct (find_sub (B "*/") ("*"%char :: t)) as [k|] eqn:E.
  - destruct (find_sub_Some _ _ _ E) as (pre & post & Ht & Hk & Hf).
    assert (Hb : begins (byte_eqb "*"%char) (pre ++ B "*/")).
    { destruct pre as [|c pre]; [done|]. injection Ht as <- _. done. }
    assert (Hl : 2 + S k = length ("/"%char :: pre ++ B "*/")) by (simpl; rewrite length_app; simpl; lia).
    rewrite Hl, Ht, app_assoc. apply (cuts_intro ("/"%char :: pre ++ B "*/")); [done|].
    right. exists (pre ++ B "*/"). split_and!; [done|done|]. left. rewrite Hf, length_app. simpl.
    rewrite length_app. simpl. split; [f_equal; lia|lia].
  - replace (2 + length t) with (length ("/"%char :: "*"%char :: t)) by done.
    rewrite <- (app_nil_r ("/"%char :: "*"%char :: t)) at 1. apply cuts_intro; [done|].
    right. exists ("*"%char :: t). split_and!; [done|by vm_compute|]. by right.
Qed.

Lemma line_comment_cuts t :
  cuts ("/"%char :: "/"%char :: t) (rtComment, 2 + run_length (fun c => negb (line_end_char c)) t).
Proof.
  destruct (run_split (fun c => negb (line_end_char c)) t) as (a & b & -> & -> & Ha & Hb).
  apply (cuts_intro ("/"%char :: "/"%char :: a)); [done|]. left. exists a. split_and!; [done| |].
  - eapply Forall_impl; [exact Ha|]. intros c. apply negb_true_iff.
  - destruct b as [|c b]; [by left|right]. simpl in *. by destruct (line_end_char c).
Qed.

(** The prefix before a literal's quote. *)
Lemma pp_literal_start_Some t p raw :
  pp_literal_start t = Some (p, raw) ->
  exists pre q rest, encoding_prefix pre /\ p = length (pre ++ if raw : bool then B "R" else []) /\
    t = (pre ++ if raw then B "R" else []) ++ q :: rest /\ (q = c_dquote \/ raw = false /\ q = c_squote).
Proof.
  assert (Hgen : forall pre u, encoding_prefix pre -> t = pre ++ u ->
    (let r := (0 <? length u) && byte_eqb (at_ u 0) "R"%char in let p := if r then 1 else 0 in
     if (length u <=? p) || (negb (byte_eqb (at_ u p) c_dquote) && (r || negb (byte_eqb (at_ u p) c_squote)))
     then None else Some (length pre + p, r)) = Some (p, raw) ->
    exists pre q rest, encoding_prefix pre /\ p = length (pre ++ if raw : bool then B "R" else []) /\
      t = (pre ++ if raw then B "R" else []) ++ q :: rest /\ (q = c_dquote \/ raw = false /\ q = c_squote)).
  { intros pre u Hpre -> Hs. destruct u as [|x u]; [done|]. cbn [length at_ nth] in Hs.
    destruct (byte_eqb x "R"%char) eqn:Er; simpl in Hs.
    - destruct u as [|q u]; [done|]. simpl in Hs. destruct (byte_eqb q c_dquote) eqn:Eq; [|done]. simpl in Hs.
      injection Hs as <- <-. reflect_bool. subst. exists pre, c_dquote, u. rewrite length_app, <- app_assoc. by split_and!; auto.
    - case_if_in Hs; [done|]. injection Hs as <- <-. reflect_bool. exists pre, x, u. rewrite !app_nil_r.
      split_and!; [done|lia|done|]. apply andb_false_iff in Heqb as [Hb|Hb]; apply negb_false_iff in Hb; reflect_bool; auto. }
  unfold pp_literal_start. destruct t as [|c t]; [by vm_compute|].
  cbn [at_ nth]. destruct (byte_eqb c "u"%char) eqn:E1; [|destruct (byte_eqb c "U"%char || byte_eqb c "L"%char) eqn:E2].
  - reflect_bool. subst c. destruct t as [|d t]; [by vm_compute|]. cbn [length at_ nth Nat.ltb Nat.leb andb].
    destruct (byte_eqb d "8"%char) eqn:E2.
    + reflect_bool. subst d. intros Hs. eapply (Hgen (B "u8") t); [unfold encoding_prefix; auto|done|]. rewrite <- Hs.
      unfold at_. simpl. destruct t as [|x t]; [done|]. simpl. by destruct (byte_eqb x "R"%char).
    + intros Hs. eapply (Hgen (B "u") (d :: t)); [unfold encoding_prefix; auto|done|]. rewrite <- Hs. unfold at_. simpl.
      by destruct (byte_eqb d "R"%char).
  - intros Hs. eapply (Hgen [c] t).
    + unfold encoding_prefix. split_bool; subst c; auto 6.
    + done.
    + rewrite <- Hs. unfold at_. simpl. destruct t as [|x t]; [done|]. simpl. by destruct (byte_eqb x "R"%char).
  - intros Hs. eapply (Hgen [] (c :: t)); [by left|done|]. rewrite <- Hs. unfold at_. simpl.
    by destruct (byte_eqb c "R"%char).
Qed.

Lemma pp_literal_start_None c t : pp_literal_start (c :: t) = None -> c <> c_dquote /\ c <> c_squote.
Proof. intros Hs. split; intros ->; by vm_compute in Hs. Qed.

Lemma at_app a b : at_ (a ++ b) (length a) = at_ b 0.
Proof. unfold at_. rewrite app_nth2 by lia. by rewrite Nat.sub_diag. Qed.

Lemma literal_cuts t quote raw : pp_literal_start t = Some (quote, raw) -> cuts t (scan_literal t quote raw).
Proof.
  intros Hs. destruct (pp_literal_start_Some _ _ _ Hs) as (pre & q & rest & Hpre & -> & Ht & Hq). clear Hs.
  set (px := pre ++ if raw then B "R" else []) in *. unfold scan_literal.
  assert (Hd : drop (S (length px)) t = rest).
  { by rewrite Ht, drop_past. }
  assert (Hat : at_ t (length px) = q) by (by rewrite Ht, at_app).
  rewrite Hd, Hat. destruct raw.
  - destruct Hq as [-> |[? _]]; [|done]. unfold raw_literal.
    destruct (delim_run_split 17 rest) as (d & b & Hr & -> & Hl & Hf).
    assert (Hb : at_ rest (length d) = at_ b 0) by (by rewrite Hr, at_app).
    destruct (_ || _) eqn:E.
    + rewrite Ht. apply cuts_intro; [unfold px; by destruct pre|]. right. by exists pre.
    + reflect_bool. destruct b as [|x b]; [rewrite Hr, app_nil_r in *; lia|]. change (at_ (x :: b) 0) with x in Hb. assert (x = "("%char) as -> by congruence.
      assert (Htk : take (length d) rest = d) by (by rewrite Hr, take_app_length).
      assert (Hdr : drop (S (length d)) rest = b).
      { by rewrite Hr, drop_past. }
      rewrite Htk, Hdr. change (")"%char :: d ++ [c_dquote]) with (raw_closing d).
      assert (Ho : px ++ c_dquote :: d ++ ["("%char] = raw_opening pre d) by (unfold px, raw_opening; by rewrite <- app_assoc).
      destruct (find_sub (raw_closing d) b) as [k|] eqn:Ef.
      * destruct (find_sub_Some _ _ _ Ef) as (body & post & -> & Hk & Hf2).
        exists (raw_opening pre d ++ body ++ raw_closing d), post. split_and!.
        -- by (rewrite Ht, Hr, <- Ho, <- !app_assoc; simpl; rewrite <- !app_assoc).
        -- unfold raw_opening. by destruct pre.
        -- simpl. rewrite <- Ho. unfold raw_closing. autorewrite with len. simpl. autorewrite with len. simpl. lia.
        -- right. exists pre, d, body. split_and!; [done|lia|done|]. left. by rewrite Hf2, Hk.
      * exists t, []. split_and!; [by rewrite app_nil_r|by rewrite Ht; destruct px| |].
        -- simpl. rewrite Ht, !length_app. simpl. lia.
        -- right. exists pre, d, b. split_and!; [done|lia|done|]. right. split_and!; [|done|done].
           by (rewrite Ht, Hr, <- Ho, <- !app_assoc; simpl; rewrite <- !app_assoc).
  - destruct (literal_run_split q rest) as (body & tail & next & Hr & -> & Hc & Htl).
    assert (Hpx : px = pre) by (unfold px; by rewrite app_nil_r). rewrite Hpx in *.
    exists (pre ++ q :: body ++ tail), next. split_and!.
    + rewrite Ht, Hr, <- !app_assoc. simpl. by rewrite <- !app_assoc.
    + by destruct pre.
    + simpl. autorewrite with len. simpl. autorewrite with len. lia.
    + left. exists pre, q, body. split_and!; [done|by destruct Hq as [-> |[_ ->]]; auto|done|].
      destruct Htl as [-> |[[-> ?]|[-> ->]]]; rewrite ?app_nil_r; auto.
Qed.

Lemma exponent_mark_spec c : exponent_mark c = true <-> c ∈ B "eEpP".
Proof.
  unfold exponent_mark. rewrite existsb_exists. setoid_rewrite list_elem_of_In. split.
  - intros (x & Hx & E). reflect_bool. by subst.
  - intros Hc. exists c. split; [done|apply byte_eqb_refl].
Qed.

Lemma number_run_split s e t :
  ppnumber (s ++ [e]) ->
  exists a b, t = a ++ b /\ number_run e t = length a /\ ppnumber (s ++ e :: a) /\
    forall c r, b = c :: r -> ~ ppnumber (s ++ e :: a ++ [c]).
Proof.
  revert s e. induction t as [|c t IH]; intros s e Hp; simpl.
  { exists [], []. by split_and!. }
  assert (Hstep : ppnumber ((s ++ [e]) ++ [c]) -> exists a b, c :: t = a ++ b /\ S (number_run c t) = length a /\
    ppnumber (s ++ e :: a) /\ forall c' r, b = c' :: r -> ~ ppnumber (s ++ e :: a ++ [c'])).
  { intros Hc. destruct (IH _ c Hc) as (a & b & -> & -> & Ha & Hb). rewrite <- app_assoc in Ha.
    exists (c :: a), b. split_and!; [done|done|done|]. intros c' r Hr Hn. apply (Hb c' r Hr). by rewrite <- app_assoc. }
  destruct (byte_eqb c "."%char || byte_eqb c c_squote || is_ident_char c) eqn:E1.
  { apply Hstep. apply pp_more; [done|]. split_bool; subst; auto. }
  destruct (_ && _) eqn:E2.
  - apply Hstep. rewrite <- app_assoc. apply pp_sign; [done| |].
    + apply andb_true_iff in E2 as [_ E2]. by apply exponent_mark_spec.
    + apply andb_true_iff in E2 as [E2 _]. split_bool; subst; by vm_compute; repeat constructor.
  - exists [], (c :: t). split_and!; [done|done|done|]. intros c' r [= <- <-] Hn. simpl in Hn.
    change (s ++ [e; c]) with (s ++ [e; c]) in Hn. apply ppnumber_last in Hn. split_bool.
    all: destruct Hn as [-> |[-> |[Hn|[He Hc]]]]; try done; try congruence.
    + apply list_elem_of_In in Hc. simpl in Hc. destruct Hc as [<-|[<-|[]]]; done.
    + apply exponent_mark_spec in He. congruence.
Qed.

Lemma ident_start_neq c : is_ident_start c = true -> isdigit c = false /\ is_ident_char c = true.
Proof. destruct c as [[] [] [] [] [] [] [] []]; vm_compute; done. Qed.

Lemma number_cuts c t :
  isdigit c || (byte_eqb c "."%char && (1 <? length (c :: t)) && isdigit (at_ (c :: t) 1)) = true ->
  cuts (c :: t) (rtPpNumber, S (number_run c t)).
Proof.
  intros Hc. destruct (isdigit c) eqn:Ed.
  - destruct (number_run_split [] c t (pp_digit c Ed)) as (a & b & -> & -> & Ha & Hb).
    by apply (cuts_intro (c :: a)).
  - simpl in Hc. reflect_bool. subst c. destruct t as [|d t]; [done|]. unfold at_ in *. simpl in *.
    assert (Hi := isdigit_ident d ltac:(done)).
    destruct (number_run_split ["."%char] d t (pp_dot d ltac:(done))) as (a & b & -> & Hr & Ha & Hb).
    rewrite Hi, orb_true_r, Hr. by apply (cuts_intro ("."%char :: d :: a)).
Qed.

Lemma ident_cuts c t : is_ident_start c = true -> cuts (c :: t) (rtIdentifier, S (run_length is_ident_char t)).
Proof.
  intros Hc. destruct (run_split is_ident_char t) as (a & b & -> & -> & Ha & Hb).
  apply (cuts_intro (c :: a)); [done|]. left. by exists c, a.
Qed.

Lemma scan_token_cuts c t : cuts (c :: t) (scan_token (c :: t)).
Proof.
  unfold scan_token. cbn [at_ nth drop]. fold (at_ (c :: t) 1).
  destruct (macro_body_space c) eqn:E1.
  { destruct (run_split macro_body_space (c :: t)) as (a & b & Heq & -> & Ha & Hb). rewrite Heq.
    assert (Hn : a <> []) by (intros ->; simpl in Heq; subst b; simpl in Hb; congruence). by apply cuts_intro. }
  destruct t as [|d t].
  all: cbn [length Nat.ltb Nat.leb andb at_ nth]; rewrite ?andb_false_r, ?andb_true_r.
  2: destruct (byte_eqb c "/"%char && byte_eqb d "/"%char) eqn:E2; [reflect_bool; subst; apply line_comment_cuts|].
  2: destruct (byte_eqb c "/"%char && byte_eqb d "*"%char) eqn:E3; [reflect_bool; subst; apply block_comment_cuts|].
  all: destruct (pp_literal_start _) as [[quote raw]|] eqn:El; [by apply literal_cuts|].
  all: destruct (is_ident_start c) eqn:E4; [by apply ident_cuts|].
  all: destruct (_ || _) eqn:E5; [apply number_cuts; cbn [length Nat.ltb Nat.leb andb at_ nth]; rewrite ?andb_false_r, ?andb_true_r; exact E5|].
  all: apply orb_false_iff in E5 as [E5 _].
  all: destruct (byte_eqb c "#"%char) eqn:E6.
  - reflect_bool. subst c. apply (cuts_intro ["#"%char] []); [done|]. split; [done|auto].
  - apply (cuts_intro [c] []); [done|]. destruct (pp_literal_start_None _ _ El). reflect_bool. by exists c.
  - reflect_bool. subst c. destruct (byte_eqb d "#"%char) eqn:E7.
    + reflect_bool. subst d. by apply (cuts_intro (B "##") t).
    + apply (cuts_intro ["#"%char] (d :: t)); [done|]. split; [done|]. simpl. reflect_bool. rewrite (proj2 (byte_eqb_neq _ _)); [done|congruence].
  - apply (cuts_intro [c] (d :: t)); [done|]. destruct (pp_literal_start_None _ _ El). reflect_bool. by exists c.
Qed.

Lemma tokenize_from_lexed fuel i t : length t <= fuel -> lexed i t (tokenize_from fuel i t).
Proof.
  revert i t. induction fuel as [|n IH]; intros i [|c t] Hf; simpl in Hf; try constructor; try lia.
  cbn [tokenize_from]. destruct (scan_token_cuts c t) as (s & next & Ht & Hs & Hl & Hk).
  destruct (scan_token (c :: t)) as [k len]. simpl in *. rewrite Ht, Hl, drop_app_length.
  apply lexed_cons; [done|done|]. apply IH. apply (f_equal length) in Ht. simpl in Ht. rewrite length_app in Ht.
  destruct s; [done|]. simpl in *. lia.
Qed.

Lemma lexed_spell text i t ts :
  lexed i t ts -> drop i text = t -> flat_map (macro_token_text text) ts = t.
Proof.
  intros H. revert text. induction H as [i|i k s next ts Hs Hk H IH]; intros text Ht; [done|].
  simpl. unfold macro_token_text at 1. simpl. unfold substr. rewrite Ht, Nat.add_comm, Nat.add_sub, take_app_length.
  f_equal. apply IH. rewrite <- drop_drop, Ht. by rewrite drop_app_length.
Qed.

(** What [lexed] says of one token. *)
Lemma lexed_lookup text i t ts j tok :
  lexed i t ts -> drop i text = t -> ts !! j = Some tok ->
  macro_token_text text tok <> [] /\ token_shape (kind tok) (macro_token_text text tok) (drop (end_ tok) text) /\
  drop (begin tok) text = macro_token_text text tok ++ drop (end_ tok) text.
Proof.
  intros H. revert text j. induction H as [|i k s next ts Hs Hk H IH]; intros text j Ht Hj; [done|].
  assert (Hn : drop (i + length s) text = next) by (by rewrite <- drop_drop, Ht, drop_app_length).
  destruct j as [|j]; [|by apply (IH text j)]. injection Hj as <-. unfold macro_token_text, substr. simpl.
  rewrite Ht, Hn, Nat.add_comm, Nat.add_sub, take_app_length. auto.
Qed.

Lemma lexed_adjacent i t ts j tok tok' :
  lexed i t ts -> ts !! j = Some tok -> ts !! S j = Some tok' -> begin tok' = end_ tok.
Proof.
  intros H. revert j. induction H as [|i k s next ts Hs Hk H IH]; intros j Hj Hj'; [done|].
  destruct j as [|j]; [|by apply (IH j)]. injection Hj as <-. simpl in *. inversion H; subst; [done|].
  by injection Hj' as <-.
Qed.

(** Two identifiers are never neighbours. *)
Lemma no_adjacent_identifiers text j tok tok' :
  let ts := tokenize_macro_spelling text in
  ts !! j = Some tok -> ts !! S j = Some tok' -> kind tok = rtIdentifier -> kind tok' <> rtIdentifier.
Proof.
  intros ts Hj Hj' Hk Hk'. assert (Hl : lexed 0 text ts) by (by apply tokenize_from_lexed).
  destruct (lexed_lookup _ _ _ _ _ _ Hl eq_refl Hj) as (_ & Hs & _).
  destruct (lexed_lookup _ _ _ _ _ _ Hl eq_refl Hj') as (Hn & Hs' & Hd).
  rewrite (lexed_adjacent _ _ _ _ _ _ Hl Hj Hj') in Hd. rewrite Hk in Hs. rewrite Hk' in Hs'. rewrite Hd in Hs.
  destruct (macro_token_text text tok') as [|c r]; [done|].
  assert (Hc : is_ident_start c = true).
  { destruct Hs' as [(c' & r' & [= <- <-] & Hc & _)|(pre & Hp & Hpre & _)]; [done|].
    destruct Hp as [-> |[-> |[-> |[-> | ->]]]]; injection Hpre as -> _; reflexivity. }
  destruct Hs as [(_ & _ & _ & _ & _ & Hb)|(pre & _ & _ & Hb)]; simpl in Hb.
  - apply Hb. by apply ident_start_neq.
  - reflect_bool. by subst c.
Qed.

(** The macro tokenizer's tokens are well formed, for any bytes at all:
    they are the text cut without a gap (their spellings in order are the
    text), and each has the shape of its kind and is as long as it can be:
    white space, comment, identifier, pp-number, literal with its encoding
    prefix, raw string up to its own closing delimiter, [#], [##] or one other
    character. *)
Theorem tokens_cover text :
  lexed 0 text (tokenize_macro_spelling text) /\
  flat_map (macro_token_text text) (tokenize_macro_spelling text) = text.
Proof.
  assert (Hl : lexed 0 text (tokenize_macro_spelling text)) by (by apply tokenize_from_lexed).
  split; [exact Hl|]. by eapply lexed_spell.
Qed.
