(* ===== verification/MacroExpand.v ===== *)
(** Function-like macros of [src/src/lexer.cpp]: a definition with its cached
    replacement list, what happens to an argument on its way in (trimming, the
    paint its stretches carry, stringification), and the substitution of the
    arguments into the body.

    A name is interned in the program and compared by identity; here it is its
    bytes.  [expansion_is_c11] shows that the substitution is C11 6.10.3.1-3 for
    replacement lists in which every [##] has a left operand that is not empty,
    and where each argument lies in the result. *)
From S2P Require Import Prelude Source MacroTokens.
#[local] Open Scope nat_scope.

(** ** Definitions *)

Record MacroDef := Macro {
  params : list bytes;
  variadic : bool;
  variadic_param : bytes;
  body : bytes;
  replacement_tokens_for : bytes;
  replacement_tokens : list ReplacementToken
}.

(** A definition just read: the cache is empty. *)
Definition new_macro (ps : list bytes) (v : bool) (vp b : bytes) : MacroDef := Macro ps v vp b [] [].

(** The tokens of the body, and the macro with its cache filled. *)
Definition macro_replacement_tokens (m : MacroDef) : list ReplacementToken * MacroDef :=
  if bytes_eqb (replacement_tokens_for m) (body m) then (replacement_tokens m, m)
  else
    let ts := tokenize_macro_spelling (body m) in
    (ts, Macro (params m) (variadic m) (variadic_param m) (body m) (body m) ts).

(** The tokens a run of white space is at the head of a list. *)
Fixpoint space_run (ts : list ReplacementToken) : nat :=
  match ts with t :: r => if macro_token_space t then S (space_run r) else 0 | [] => 0 end.

(** [while ( left > 0 && macro_token_space(tokens[left - 1]) ) --left;] *)
Fixpoint skip_left (ts : list ReplacementToken) (left : nat) : nat :=
  match left with
  | 0 => 0
  | S l => match ts !! l with Some t => if macro_token_space t then skip_left ts l else left | None => left end
  end.

Definition kind_at (ts : list ReplacementToken) (i : nat) (k : Kind) : bool :=
  match ts !! i with Some t => bool_decide (kind t = k) | None => false end.

Definition macro_param_use_is_raw (ts : list ReplacementToken) (use : nat) : bool :=
  let left := skip_left ts use in
  if (0 <? left) && (kind_at ts (left - 1) rtHash || kind_at ts (left - 1) rtPaste) then true
  else kind_at ts (S use + space_run (drop (S use) ts)) rtPaste.

Definition macro_param_has_expanded_use (m : MacroDef) (param : bytes) : bool :=
  let ts := (macro_replacement_tokens m).1 in
  existsb (fun i => match ts !! i with
                    | Some t => bool_decide (kind t = rtIdentifier) && bytes_eqb (macro_token_text (body m) t) param
                                && negb (macro_param_use_is_raw ts i)
                    | None => false
                    end) (seq 0 (length ts)).

Definition macro_fixed_param_count (m : MacroDef) : nat :=
  if variadic m && negb (is_nil (variadic_param m)) && negb (is_nil (params m)) then length (params m) - 1
  else length (params m).

(** ** An argument's text *)

Fixpoint ltrim (s : bytes) : bytes :=
  match s with c :: r => if macro_body_space c then ltrim r else s | [] => [] end.
Definition rtrim (s : bytes) : bytes := rev (ltrim (rev s)).
Definition trim_macro_argument (s : bytes) : bytes := rtrim (ltrim s).

(** One spelling of [stringify_macro_arg]: in a literal a backslash goes before
    each double quote and each backslash. *)
Definition stringify_token (literal : bool) (s : bytes) : bytes :=
  flat_map (fun c => if literal && (byte_eqb c c_dquote || byte_eqb c c_bslash) then [c_bslash; c] else [c]) s.

(** The loop over the argument's tokens; [pending] and [wrote] as in the code. *)
Fixpoint stringify_tokens (raw : bytes) (ts : list ReplacementToken) (pending wrote : bool) : bytes :=
  match ts with
  | [] => []
  | t :: r =>
      if macro_token_space t then stringify_tokens raw r (pending || wrote) wrote
      else (if pending then [c_sp] else [])
           ++ stringify_token (bool_decide (kind t = rtLiteral)) (macro_token_text raw t)
           ++ stringify_tokens raw r false true
  end.
Definition stringify_macro_arg (raw : bytes) : bytes :=
  c_dquote :: stringify_tokens raw (tokenize_macro_spelling raw) false false ++ [c_dquote].

(** ** Substitution *)

Definition va_args : bytes := B "__VA_ARGS__".

(** The list's texts, [", "] between. *)
Definition join (l : list bytes) : bytes :=
  match l with [] => [] | x :: r => x ++ flat_map (fun y => B ", " ++ y) r end.

Section Substitution.
Context (m : MacroDef) (raw_args expanded_args : list bytes).
Let fixed := macro_fixed_param_count m.

Definition raw_varargs : bytes := if variadic m then join (drop fixed raw_args) else [].
Definition expanded_varargs : bytes :=
  if variadic m
  then join (map (fun i => default (default [] (raw_args !! i)) (expanded_args !! i)) (seq fixed (length raw_args - fixed)))
  else [].

Fixpoint find_param (ps : list bytes) (k : nat) (id : bytes) : option nat :=
  match ps with p :: r => if bytes_eqb p id then Some k else find_param r (S k) id | [] => None end.

Definition param_of (id : bytes) : option nat :=
  match find_param (take fixed (params m)) 0 id with
  | Some k => Some k
  | None =>
      if variadic m && (bytes_eqb id va_args || (negb (is_nil (variadic_param m)) && bytes_eqb id (variadic_param m)))
      then Some fixed else None
  end.

Definition raw_text (k : nat) : bytes :=
  if variadic m && (k =? fixed) then raw_varargs else default [] (raw_args !! k).
Definition expanded_text (k : nat) : bytes :=
  if variadic m && (k =? fixed) then expanded_varargs else default [] (expanded_args !! k).

Definition token_param (t : ReplacementToken) : option nat :=
  if bool_decide (kind t = rtIdentifier) then param_of (macro_token_text (body m) t) else None.

(** The parameter a [#] token at [i] stringifies, and the token it is. *)
Definition hash_param (ts : list ReplacementToken) (i : nat) : option (nat * nat) :=
  let param := S i + space_run (drop (S i) ts) in
  if kind_at ts i rtHash then p ← ts !! param; k ← token_param p; Some (param, k) else None.

Definition token_spelling (t : ReplacementToken) : bytes :=
  if bool_decide (kind t = rtComment) then [c_sp] else macro_token_text (body m) t.

Definition subst_state : Type := nat * bytes * list arg_span * bool.

(** One turn of the loop over the tokens [ts] of the body. *)
Definition subst_step (ts : list ReplacementToken) (st : subst_state) : subst_state + bytes * list arg_span :=
  let '(i, expanded, arg_spans, after_paste) := st in
  match ts !! i with
  | None => inr (expanded, arg_spans)
  | Some t =>
      match hash_param ts i with
      | Some (param, k) => inl (S param, expanded ++ stringify_macro_arg (raw_text k), arg_spans, after_paste)
      | None =>
          if bool_decide (kind t = rtPaste) then
            inl (S i + space_run (drop (S i) ts), rtrim expanded, arg_spans, true)
          else
            match token_param t with
            | Some k =>
                let raw_use := macro_param_use_is_raw ts i in
                let sub := if raw_use then raw_text k else expanded_text k in
                inl (S i, expanded ++ sub ++ (if after_paste && is_nil sub then [c_sp] else []),
                     (if negb raw_use && negb (is_nil sub)
                      then arg_spans ++ [ArgSpan (length expanded) (length sub) (macro_token_text (body m) t)] else arg_spans),
                     false)
            | None => inl (S i, expanded ++ token_spelling t, arg_spans, false)
            end
      end
  end.

(** [expand_function_macro_body]: the text, and where the arguments are in it. *)
Definition expand_function_macro_body : bytes * list arg_span :=
  let ts := (macro_replacement_tokens m).1 in
  default ([], []) (loop (S (length ts)) (subst_step ts) (0, [], [], false)).
End Substitution.

(** The expansion of a macro of this text, for tests: the argument texts are
    their own expansions. *)
Definition expand (ps : list string) (v : bool) (vp b : string) (args : list string) : bytes * list (nat * nat) :=
  let '(out, spans) := expand_function_macro_body (new_macro (map B ps) v (B vp) (B b)) (map B args) (map B args) in
  (out, map (fun s => (as_off s, as_len s)) spans).
Example expand_ex1 : expand ["a"; "b"]%string false EmptyString "(a+b)*a##b - a/**/x" ["x"; "y z"]%string = (B "(x+y z)*xy z - x x", [(1, 1); (3, 3); (15, 1)]).
Proof. reflexivity. Qed.
Example expand_ex2 : expand ["f"]%string true EmptyString "p(f, __VA_ARGS__) #f" ["q"; "r"; "s"]%string = (B "p(q, r, s) " ++ [c_dquote] ++ B "q" ++ [c_dquote], [(2, 1); (5, 4)]).
Proof. reflexivity. Qed.

(** ** The reading of a replacement list (C11 6.10.3)

    A list is white space and chains of operands joined by [##]; an operand is
    a parameter, a stringified parameter or any other token. *)

Inductive operand := OToken (s : bytes) | OParam (k : nat) (name : bytes) | OString (k : nat).
Inductive atom := ASpace (s : bytes) | APaste | AOperand (o : operand).
Inductive piece := Space (s : bytes) | Chain (o : operand) (os : list operand).

Section Reading.
Context (m : MacroDef).

(** [#], white space and a parameter are one operand; [skip] counts the tokens
    an operand has taken already. *)
Definition string_operand (t : ReplacementToken) (r : list ReplacementToken) : option nat :=
  if bool_decide (kind t = rtHash) then p ← r !! space_run r; token_param m p else None.

Fixpoint atoms (skip : nat) (ts : list ReplacementToken) : list atom :=
  match ts with
  | [] => []
  | t :: r =>
      match skip with
      | S n => atoms n r
      | 0 =>
          match string_operand t r with
          | Some k => AOperand (OString k) :: atoms (S (space_run r)) r
          | None =>
              (if bool_decide (kind t = rtPaste) then APaste
               else if macro_token_space t then ASpace (token_spelling m t)
               else match token_param m t with
                    | Some k => AOperand (OParam k (macro_token_text (body m) t))
                    | None => AOperand (OToken (macro_token_text (body m) t))
                    end) :: atoms 0 r
          end
      end
  end.

(** The chain being read and the white space after it; [joined]: a [##] waits
    for its right operand.  [None]: a [##] without an operand on each side, which
    6.10.3.3 forbids. *)
Definition flush (cur : option (operand * list operand)) (sp : list bytes) : list piece :=
  match cur with Some (o, os) => [Chain o os] | None => [] end ++ map Space sp.

Fixpoint chains (cur : option (operand * list operand)) (sp : list bytes) (joined : bool) (l : list atom) : option (list piece) :=
  match l with
  | [] => if joined then None else Some (flush cur sp)
  | ASpace s :: r => chains cur (if joined then sp else sp ++ [s]) joined r
  | APaste :: r => match cur, joined with Some _, false => chains cur [] true r | _, _ => None end
  | AOperand o :: r =>
      match joined, cur with
      | true, Some (o1, os) => chains (Some (o1, os ++ [o])) [] false r
      | true, None => None
      | false, _ => app (flush cur sp) <$> chains (Some (o, [])) [] false r
      end
  end.

Definition replacement_pieces : option (list piece) := chains None [] false (atoms 0 (macro_replacement_tokens m).1).
End Reading.

(** The variable argument (6.10.3p12): the arguments past the named parameters
    and the commas between them, each comma taken as followed by one blank. *)
Fixpoint with_commas (l : list bytes) : bytes :=
  match l with [] => [] | [x] => x | x :: r => x ++ B "," ++ [c_sp] ++ with_commas r end.

(** The argument of parameter [k]: [__VA_ARGS__] stands behind the named ones. *)
Definition argument (m : MacroDef) (args : list bytes) (k : nat) : bytes :=
  let named := macro_fixed_param_count m in
  if variadic m && (k =? named) then with_commas (drop named args) else default [] (args !! k).

(** What a piece stands for, given the arguments: an operand of [##] is its raw
    spelling, any other parameter its expanded argument. *)
Section Meaning.
Context (m : MacroDef) (raw_args expanded_args : list bytes).
Let raw := argument m raw_args.
Let expanded := argument m expanded_args.

Definition operand_text (o : operand) : bytes :=
  match o with OToken s => s | OParam k _ => raw k | OString k => stringify_macro_arg (raw k) end.

(** An empty right operand at the end of a chain leaves a separating blank. *)
Definition placemarker (os : list operand) : bytes :=
  match last os with Some (OParam k _) => if is_nil (raw k) then [c_sp] else [] | _ => [] end.

Definition piece_text (p : piece) : bytes :=
  match p with
  | Space s => s
  | Chain (OParam k _) [] => expanded k
  | Chain o os => operand_text o ++ flat_map operand_text os ++ placemarker os
  end.

Definition piece_spans (off : nat) (p : piece) : list arg_span :=
  match p with
  | Chain (OParam k name) [] => if is_nil (expanded k) then [] else [ArgSpan off (length (expanded k)) name]
  | _ => []
  end.

Fixpoint pieces_text (ps : list piece) : bytes := match ps with [] => [] | p :: r => piece_text p ++ pieces_text r end.
Fixpoint pieces_spans (off : nat) (ps : list piece) : list arg_span :=
  match ps with [] => [] | p :: r => piece_spans off p ++ pieces_spans (off + length (piece_text p)) r end.

(** The operands of a [##] are as [trim_macro_argument] and the tokenizer leave
    them (no blank at the end), and the chain's first is not empty. *)
Definition ends_blank (s : bytes) : bool := match last s with Some c => macro_body_space c | None => false end.
Definition pasteable (p : piece) : Prop :=
  match p with
  | Chain o ((_ :: _) as os) => operand_text o <> [] /\ Forall (fun o => ends_blank (operand_text o) = false) (o :: os)
  | _ => True
  end.
End Meaning.

Example pieces_ex :
  replacement_pieces (new_macro [B "a"; B "b"] false [] (B "x a ## b # a-a")) =
  Some [Chain (OToken (B "x")) []; Space (B " "); Chain (OParam 0 (B "a")) [OParam 1 (B "b")]; Space (B " ");
        Chain (OString 0) []; Chain (OToken (B "-")) []; Chain (OParam 0 (B "a")) []].
Proof. reflexivity. Qed.

(** ** The substitution computes the reading *)

(** The kind of the last token that is not white space. *)
Definition last_solid (ts : list ReplacementToken) : option Kind :=
  fold_left (fun acc t => if macro_token_space t then acc else Some (kind t)) ts None.

Lemma last_solid_snoc l t : last_solid (l ++ [t]) = if macro_token_space t then last_solid l else Some (kind t).
Proof. unfold last_solid. by rewrite fold_left_app. Qed.

Lemma last_solid_spaces l r : Forall (fun t => macro_token_space t = true) r -> last_solid (l ++ r) = last_solid l.
Proof.
  revert l. induction r as [|t r IH]; intros l Hr; [by rewrite app_nil_r|]. apply Forall_cons_1 in Hr as [Ht Hr].
  rewrite cons_middle, app_assoc, IH, last_solid_snoc by done. by rewrite Ht.
Qed.

Lemma space_run_spec r :
  space_run r <= length r /\ Forall (fun t => macro_token_space t = true) (take (space_run r) r) /\
  match drop (space_run r) r with t :: _ => macro_token_space t = false | [] => True end.
Proof.
  induction r as [|t r (IH1 & IH2 & IH3)]; simpl; [split_and!; auto|].
  destruct (macro_token_space t) eqn:E; simpl; split_and!; auto; lia.
Qed.

Lemma kind_at_app l r n k : kind_at (l ++ r) (length l + n) k = kind_at r n k.
Proof. unfold kind_at. by rewrite lookup_app_r, Nat.add_comm, Nat.add_sub by lia. Qed.

Lemma skip_left_spec ts use :
  use <= length ts ->
  match last_solid (take use ts) with
  | None => skip_left ts use = 0
  | Some k => 0 < skip_left ts use /\ exists t, ts !! (skip_left ts use - 1) = Some t /\ kind t = k
  end.
Proof.
  induction use as [|u IH]; intros Hu; [done|].
  destruct (lookup_lt_is_Some_2 ts u) as [t Ht]; [lia|]. rewrite (take_S_r _ _ t) by done. rewrite last_solid_snoc. simpl. rewrite Ht.
  destruct (macro_token_space t); [apply IH; lia|]. split; [lia|]. exists t. by replace (S u - 1) with u by lia.
Qed.

(** Whether the next token that is not white space is a [##]. *)
Definition next_paste (r : list ReplacementToken) : bool := kind_at r (space_run r) rtPaste.

Lemma use_is_raw l t r :
  macro_param_use_is_raw (l ++ t :: r) (length l) =
  bool_decide (last_solid l = Some rtHash) || bool_decide (last_solid l = Some rtPaste) || next_paste r.
Proof.
  unfold macro_param_use_is_raw. pose proof (skip_left_spec (l ++ t :: r) (length l) ltac:(rewrite length_app; lia)) as Hs.
  rewrite take_app_length in Hs.
  pose proof (drop_past l t r) as Hd.
  assert (Hn : kind_at (l ++ t :: r) (S (length l) + space_run r) rtPaste = next_paste r).
  { unfold next_paste, kind_at. rewrite lookup_app_r by lia. by replace (S (length l) + space_run r - length l) with (S (space_run r)) by lia. }
  rewrite Hd, Hn. destruct (last_solid l) as [k|].
  - destruct Hs as [H0 (t' & Ht & Hk)]. rewrite (proj2 (Nat.ltb_lt _ _) H0). unfold kind_at. rewrite Ht, Hk.
    destruct k; reflexivity.
  - rewrite Hs. reflexivity.
Qed.

(** White space at the end of the output. *)
Lemma ltrim_blank s t : Forall (fun c => macro_body_space c = true) s -> ltrim (s ++ t) = ltrim t.
Proof. induction 1 as [|c s Hc _ IH]; simpl; [done|]. by rewrite Hc. Qed.

Lemma rtrim_app s t : s <> [] -> ends_blank s = false -> Forall (fun c => macro_body_space c = true) t -> rtrim (s ++ t) = s.
Proof.
  intros Hs He Ht. unfold rtrim. rewrite rev_app_distr, ltrim_blank by (by apply Forall_rev).
  destruct s as [|c s _] using rev_ind; [done|]. unfold ends_blank in He. rewrite last_snoc in He.
  rewrite rev_app_distr. simpl. rewrite He. simpl. by rewrite rev_involutive.
Qed.

Lemma ends_blank_app s t : ends_blank (s ++ t) = if is_nil t then ends_blank s else ends_blank t.
Proof.
  destruct t as [|c t _] using rev_ind; [by rewrite app_nil_r|]. unfold ends_blank. rewrite app_assoc, !last_snoc.
  by destruct t.
Qed.

(** The texts the substitution takes for a parameter are its arguments. *)
Lemma join_commas l : join l = with_commas l.
Proof.
  destruct l as [|x l]; [done|]. unfold join. revert x. induction l as [|y l IH]; intros x; [by rewrite app_nil_r|].
  cbn [flat_map with_commas]. rewrite <- app_assoc. f_equal. by rewrite IH.
Qed.

Lemma raw_text_argument m raw_args k : raw_text m raw_args k = argument m raw_args k.
Proof.
  unfold raw_text, argument, raw_varargs. destruct (variadic m); [|done]. simpl.
  destruct (k =? macro_fixed_param_count m); [|done]. apply join_commas.
Qed.

Lemma expanded_text_argument m raw_args expanded_args k :
  length expanded_args = length raw_args -> expanded_text m raw_args expanded_args k = argument m expanded_args k.
Proof.
  intros Hl. unfold expanded_text, argument, expanded_varargs. destruct (variadic m); [|done]. simpl.
  destruct (k =? macro_fixed_param_count m); [|done]. rewrite join_commas. f_equal.
  apply list_eq. intros i. rewrite list_lookup_fmap, lookup_drop.
  destruct (decide (i < length raw_args - macro_fixed_param_count m)) as [Hi|Hi].
  - rewrite lookup_seq_lt by done. simpl.
    destruct (lookup_lt_is_Some_2 expanded_args (macro_fixed_param_count m + i) ltac:(lia)) as [x ->]. done.
  - rewrite lookup_seq_ge, lookup_ge_None_2 by lia. done.
Qed.

Section Simulation.
Context (m : MacroDef) (raw_args expanded_args : list bytes).
Abbreviation blank := (fun c => macro_body_space c = true).
Let ts := tokenize_macro_spelling (body m).
Let otext := operand_text m raw_args.
Let ptext := piece_text m raw_args expanded_args.
Let pspans := piece_spans m expanded_args.
Let psok := pasteable m raw_args.
Context (known : length expanded_args = length raw_args).

(** What the loop has put out for the chain being read, once it is known
    whether a [##] follows. *)
Definition chain_text (o : operand) (os : list operand) : bytes := otext o ++ flat_map otext os.
Definition cur_body (o : operand) (os : list operand) (pasted : bool) : bytes :=
  if pasted && is_nil os then otext o else ptext (Chain o os).
Definition cur_out (cur : option (operand * list operand)) (sp : list bytes) (joined pasted : bool) : bytes :=
  match cur with
  | None => concat sp
  | Some (o, os) => if joined then chain_text o os else cur_body o os pasted ++ concat sp
  end.
Definition cur_spans (off : nat) (cur : option (operand * list operand)) (joined pasted : bool) : list arg_span :=
  match cur with Some (o, []) => if joined || pasted then [] else pspans off (Chain o []) | _ => [] end.

Record sim (l r : list ReplacementToken) (cur : option (operand * list operand)) (sp : list bytes) (joined : bool)
    (pre : bytes) (psp : list arg_span) (out : bytes) (spans : list arg_span) (ap : bool) : Prop := {
  sim_ts : ts = l ++ r;
  sim_left : joined = bool_decide (last_solid l = Some rtPaste);
  sim_hash : last_solid l = Some rtHash -> match drop (space_run r) r with t :: _ => token_param m t = None | [] => True end;
  sim_ap : ap = joined \/ joined = false /\ match r with t :: _ => kind t <> rtIdentifier | [] => True end;
  sim_blank : Forall blank (concat sp);
  sim_joined : joined = true -> cur <> None /\ sp = [] /\ match r with t :: _ => macro_token_space t = false | [] => True end;
  sim_out : out = pre ++ cur_out cur sp joined (next_paste r);
  sim_spans : spans = psp ++ cur_spans (length pre) cur joined (next_paste r);
}.

Lemma ptext_chain o os : os <> [] -> ptext (Chain o os) = chain_text o os ++ placemarker m raw_args os.
Proof. intros Hos. unfold ptext, piece_text, chain_text. destruct o; destruct os; try done; by rewrite <- app_assoc. Qed.

Lemma pspans_chain off o os : os <> [] -> pspans off (Chain o os) = [].
Proof. by destruct o, os. Qed.

Lemma pieces_flush off cur sp rest :
  pieces_text m raw_args expanded_args (flush cur sp ++ rest) = cur_out cur sp false false ++ pieces_text m raw_args expanded_args rest /\
  pieces_spans m raw_args expanded_args off (flush cur sp ++ rest) =
    cur_spans off cur false false ++ pieces_spans m raw_args expanded_args (off + length (cur_out cur sp false false)) rest.
Proof.
  assert (Hsp : forall off, pieces_text m raw_args expanded_args (map Space sp ++ rest) = concat sp ++ pieces_text m raw_args expanded_args rest /\
    pieces_spans m raw_args expanded_args off (map Space sp ++ rest) = pieces_spans m raw_args expanded_args (off + length (concat sp)) rest).
  { induction sp as [|s sp IH]; intros o; simpl; [by rewrite Nat.add_0_r|]. destruct (IH (o + length s)) as [-> ->].
    by rewrite length_app, Nat.add_assoc, app_assoc. }
  unfold flush, cur_out, cur_spans. destruct cur as [[o os]|]; [|by apply Hsp].
  change (cur_body o os false) with (ptext (Chain o os)).
  change (([Chain o os] ++ map Space sp) ++ rest) with (Chain o os :: (map Space sp ++ rest)). cbn [pieces_text pieces_spans]. fold ptext pspans.
  destruct (Hsp (off + length (ptext (Chain o os)))) as [-> ->]. rewrite <- app_assoc, length_app, Nat.add_assoc.
  split; [done|]. f_equal. destruct os; [done|]. by apply pspans_chain.
Qed.

Lemma atoms_skip n r : atoms m n r = atoms m 0 (drop n r).
Proof.
  revert r. induction n as [|n IH]; intros [|t r]; [done..|]. simpl. apply IH.
Qed.

Lemma space_atoms t r : macro_token_space t = true -> atoms m 0 (t :: r) = ASpace (token_spelling m t) :: atoms m 0 r.
Proof.
  unfold macro_token_space. intros Ht. simpl. unfold string_operand.
  destruct (kind t) eqn:Ek; simpl in Ht; try done; by rewrite !bool_decide_eq_false_2 by done; unfold macro_token_space; rewrite Ek.
Qed.

Lemma joined_spaces cur sp r : chains cur sp true (atoms m 0 r) = chains cur sp true (atoms m 0 (drop (space_run r) r)).
Proof.
  induction r as [|t r IH]; [done|]. cbn [space_run]. destruct (macro_token_space t) eqn:E; [|done].
  rewrite space_atoms by done. cbn [drop]. rewrite <- IH. done.
Qed.

(** A chain that a [##] joins goes on. *)
Lemma chains_joined o os sp as_ ps :
  chains (Some (o, os)) sp true as_ = Some ps -> exists o' os' ps', ps = Chain o (os ++ o' :: os') :: ps'.
Proof.
  assert (Hgen : forall as_ os sp joined ps, chains (Some (o, os)) sp joined as_ = Some ps ->
    exists os' ps', ps = Chain o (os ++ os') :: ps' /\ (joined = true -> os' <> [])).
  { clear. induction as_ as [|a as_ IH]; intros os sp joined ps Hc; simpl in Hc.
    - destruct joined; [done|]. injection Hc as <-. exists [], (map Space sp). by rewrite app_nil_r.
    - destruct a as [s| |o'].
      + by apply IH in Hc.
      + destruct joined; [done|]. destruct (IH _ _ _ _ Hc) as (os' & ps' & -> & _). by exists os', ps'.
      + destruct joined.
        * destruct (IH _ _ _ _ Hc) as (os' & ps' & -> & _). exists (o' :: os'), ps'. by rewrite <- app_assoc.
        * apply fmap_Some in Hc as (ps1 & _ & ->). exists [], (map Space sp ++ ps1). by rewrite app_nil_r. }
  intros Hc. destruct (Hgen _ _ _ _ _ Hc) as ([|o' os'] & ps' & -> & Hn); [by destruct Hn|]. by exists o', os', ps'.
Qed.

Lemma chain_text_solid o os :
  otext o <> [] -> Forall (fun o => ends_blank (otext o) = false) (o :: os) ->
  chain_text o os <> [] /\ ends_blank (chain_text o os) = false.
Proof.
  intros Ho Hf. apply Forall_cons_1 in Hf as [H1 Hf]. unfold chain_text. split; [by destruct (otext o)|].
  rewrite ends_blank_app. destruct (is_nil (flat_map otext os)) eqn:E; [done|].
  clear -Hf E. induction Hf as [|o' os Ho Hf IH]; [done|]. simpl in *. rewrite ends_blank_app.
  destruct (flat_map otext os); [by rewrite app_nil_r in *|by apply IH].
Qed.

Let ptexts := pieces_text m raw_args expanded_args.
Let pspanss := pieces_spans m raw_args expanded_args.

(** The goal of the simulation, from one loop head to another. *)
Definition same_end (pre : bytes) (psp : list arg_span) (ps : list piece) (pre' : bytes) (psp' : list arg_span) (ps' : list piece) : Prop :=
  pre' ++ ptexts ps' = pre ++ ptexts ps /\ psp' ++ pspanss (length pre') ps' = psp ++ pspanss (length pre) ps.

Lemma operand_step l us r0 r o cur sp joined pre psp out spans ap ap' k ps :
  sim l r0 cur sp joined pre psp out spans ap -> next_paste r0 = false ->
  ts = (l ++ us) ++ r -> last_solid (l ++ us) = Some k -> k <> rtPaste ->
  (k = rtHash -> match drop (space_run r) r with t :: _ => token_param m t = None | [] => True end) ->
  (ap' = false \/ match r with t :: _ => kind t <> rtIdentifier | [] => True end) ->
  chains cur sp joined (AOperand o :: atoms m 0 r) = Some ps -> Forall psok ps ->
  let X := if joined then otext o ++ placemarker m raw_args [o] else cur_body o [] (next_paste r) in
  let Y := if joined then [] else cur_spans (length out) (Some (o, [])) false (next_paste r) in
  exists cur' pre' psp' ps',
    sim (l ++ us) r cur' [] false pre' psp' (out ++ X) (spans ++ Y) ap' /\
    chains cur' [] false (atoms m 0 r) = Some ps' /\ Forall psok ps' /\ same_end pre psp ps pre' psp' ps'.
Proof.
  intros Hs Hnp Hts Hl Hk Hh Hap Hc Hps X Y.
  assert (Hl' : false = bool_decide (last_solid (l ++ us) = Some rtPaste)).
  { symmetry. apply bool_decide_eq_false. rewrite Hl. by intros [= ->]. }
  assert (Hap' : ap' = false \/ false = false /\ match r with t :: _ => kind t <> rtIdentifier | [] => True end) by (destruct Hap; auto).
  destruct Hs as [_ _ _ _ Hb Hj Ho Hsp]. rewrite Hnp in *. destruct joined.
  - destruct (Hj eq_refl) as (Hcur & -> & _). destruct cur as [[o1 os]|]; [|done]. simpl in Hc.
    exists (Some (o1, os ++ [o])), pre, psp, ps. split_and!; [|done|done|done].
    assert (Hcb : cur_body o1 (os ++ [o]) (next_paste r) = ptext (Chain o1 (os ++ [o]))).
    { unfold cur_body. by destruct os; rewrite andb_false_r. }
    split; try done; try apply Forall_nil_2.
    + intros Hh'. apply Hh. congruence.
    + unfold X. rewrite Ho. cbn [cur_out concat]. rewrite app_nil_r, Hcb, ptext_chain by (by destruct os).
      unfold chain_text, placemarker. rewrite flat_map_app, last_snoc. simpl. by rewrite app_nil_r, <- !app_assoc.
    + unfold Y. rewrite Hsp. cbn [cur_spans]. by destruct os; rewrite ?app_nil_r.
  - simpl in Hc. apply fmap_Some in Hc as (ps' & Hc & ->). apply Forall_app in Hps as [_ Hps].
    destruct (pieces_flush (length pre) cur sp ps') as [Ht Hps2].
    exists (Some (o, [])), (pre ++ cur_out cur sp false false), (psp ++ cur_spans (length pre) cur false false), ps'.
    split_and!; [|done|done|].
    + split; try done; try apply Forall_nil_2.
      * intros Hh'. apply Hh. congruence.
      * unfold X. rewrite Ho. cbn [cur_out concat]. by rewrite app_nil_r, <- app_assoc.
      * unfold Y. by rewrite Hsp, Ho.
    + split; unfold ptexts, pspanss; [by rewrite Ht, <- app_assoc|]. by rewrite Hps2, length_app, <- app_assoc.
Qed.

Lemma paste_step l t r1 cur sp joined pre psp out spans ap ps :
  sim l (t :: r1) cur sp joined pre psp out spans ap -> kind t = rtPaste ->
  chains cur sp joined (atoms m 0 (t :: r1)) = Some ps -> Forall psok ps ->
  let n := space_run r1 in
  sim (l ++ t :: take n r1) (drop n r1) cur [] true pre psp (rtrim out) spans true /\
  chains cur [] true (atoms m 0 (drop n r1)) = Some ps.
Proof.
  intros Hs Hk Hc Hps n. destruct (space_run_spec r1) as (Hn & Hsr & Hd). fold n in Hn, Hsr, Hd.
  assert (Hsp : macro_token_space t = false) by (unfold macro_token_space; by rewrite Hk).
  assert (Hnp : next_paste (t :: r1) = true).
  { unfold next_paste. cbn [space_run]. rewrite Hsp. unfold kind_at. simpl. by rewrite Hk. }
  destruct Hs as [Hts Hlf _ _ Hb Hj Ho Hspn]. rewrite Hnp in *.
  cbn [atoms] in Hc. unfold string_operand in Hc. rewrite Hk in Hc. rewrite bool_decide_eq_false_2 in Hc by done. rewrite bool_decide_eq_true_2 in Hc by done.
  cbn [chains] in Hc. destruct cur as [[o os]|]; [|done]. destruct joined; [done|]. cbn [cur_out cur_spans] in *.
  rewrite joined_spaces in Hc. fold n in Hc. split; [|done].
  assert (Hl : last_solid (l ++ t :: take n r1) = Some rtPaste).
  { rewrite cons_middle, app_assoc, last_solid_spaces, last_solid_snoc, Hsp by done. by rewrite Hk. }
  split; try done; try apply Forall_nil_2.
  - rewrite Hts, <- app_assoc. simpl. by rewrite take_drop.
  - by rewrite Hl.
  - by rewrite Hl.
  - by left.
  - destruct (chains_joined _ _ _ _ _ Hc) as (o' & os' & ps' & ->). apply Forall_cons_1 in Hps as [Hp _].
    assert (Hpo : otext o <> [] /\ Forall (fun o => ends_blank (otext o) = false) (o :: os)).
    { unfold psok, pasteable in Hp. destruct os as [|o2 os]; simpl in Hp; destruct Hp as [H1 H2]; split; try done.
      - apply Forall_cons_1 in H2 as [H2 _]. by constructor.
      - by apply (Forall_app _ (o :: o2 :: os) (o' :: os')) in H2 as [H2 _]. }
    destruct Hpo as [Hpo1 Hpo2]. destruct (chain_text_solid o os Hpo1 Hpo2) as [Hne Heb]. cbn [cur_out].
    assert (Hbl : exists b, Forall blank b /\ out = (pre ++ chain_text o os) ++ b).
    { rewrite Ho. destruct os as [|o2 os].
      - exists (concat sp). split; [done|]. unfold cur_body, chain_text. simpl. by rewrite app_nil_r, app_assoc.
      - exists (placemarker m raw_args (o2 :: os) ++ concat sp). split.
        + apply Forall_app_2; [|done]. unfold placemarker. destruct (last _) as [[]|]; try constructor. case_if; by repeat constructor.
        + unfold cur_body. rewrite andb_false_r, ptext_chain by done. by rewrite <- !app_assoc. }
    destruct Hbl as (b & Hb' & ->). apply rtrim_app; [|by rewrite ends_blank_app; destruct (chain_text o os)|done].
    intros Hn'. by apply app_nil in Hn' as [_ ?].
Qed.

Lemma blank_spelling l t r : ts = l ++ t :: r -> macro_token_space t = true -> Forall blank (token_spelling m t).
Proof.
  intros Hts Ht. unfold token_spelling. destruct (decide (kind t = rtComment)) as [Hc|Hc].
  { rewrite bool_decide_eq_true_2 by done. by apply Forall_singleton. }
  rewrite bool_decide_eq_false_2 by done.
  assert (Hk : kind t = rtWhitespace).
  { unfold macro_token_space in Ht. rewrite (bool_decide_eq_false_2 (kind t = rtComment)), orb_false_r in Ht by done. by reflect_bool. }
  destruct (lexed_lookup (body m) 0 (body m) ts (length l) t) as (_ & Hs & _); [by apply tokenize_from_lexed|done| |].
  - rewrite Hts. by apply list_lookup_middle.
  - rewrite Hk in Hs. apply Hs.
Qed.

Lemma space_step l t r1 cur sp pre psp out spans ap :
  sim l (t :: r1) cur sp false pre psp out spans ap -> macro_token_space t = true ->
  sim (l ++ [t]) r1 cur (sp ++ [token_spelling m t]) false pre psp (out ++ token_spelling m t) spans false.
Proof.
  intros [Hts Hlf Hh _ Hb _ Ho Hsp] Ht.
  assert (Hl : last_solid (l ++ [t]) = last_solid l) by (by rewrite last_solid_snoc, Ht).
  assert (Hnp : next_paste (t :: r1) = next_paste r1).
  { unfold next_paste. cbn [space_run]. by rewrite Ht. }
  rewrite Hnp in *. split; try done.
  - by rewrite <- app_assoc.
  - by rewrite Hl.
  - rewrite Hl. intros H1. specialize (Hh H1). cbn [space_run] in Hh. by rewrite Ht in Hh.
  - by left.
  - rewrite concat_app. apply Forall_app_2; [done|]. simpl. rewrite app_nil_r. by eapply blank_spelling.
  - rewrite Ho. unfold cur_out. destruct cur as [[o os]|]; rewrite concat_app; simpl; by rewrite app_nil_r, <- !app_assoc.
Qed.

(** The loop's look at a [#] is the reading's. *)
Lemma hash_param_at l t r1 :
  hash_param m (l ++ t :: r1) (length l) = (fun k => (S (length l) + space_run r1, k)) <$> string_operand m t r1.
Proof.
  unfold hash_param, string_operand, kind_at. rewrite list_lookup_middle by done.
  pose proof (drop_past l t r1) as Hd.
  rewrite Hd. case_bool_decide; [|done]. rewrite lookup_app_r by lia.
  replace (S (length l) + space_run r1 - length l) with (S (space_run r1)) by lia. simpl.
  destruct (r1 !! space_run r1); [|done]. simpl. by destruct (token_param _ _).
Qed.

Lemma string_operand_Some t r k :
  string_operand m t r = Some k -> kind t = rtHash /\
  exists t' r2, drop (space_run r) r = t' :: r2 /\ token_param m t' = Some k /\ kind t' = rtIdentifier /\
    drop (S (space_run r)) r = r2 /\ r = take (space_run r) r ++ t' :: r2.
Proof.
  unfold string_operand. case_bool_decide as Hk; [|done]. intros Ho.
  destruct (r !! space_run r) as [t'|] eqn:E; [|done]. simpl in Ho. split; [done|].
  exists t', (drop (S (space_run r)) r). split_and!; [by apply drop_S|done| |done|].
  - unfold token_param in Ho. by case_bool_decide.
  - rewrite <- (drop_S _ _ _ E). by rewrite take_drop.
Qed.

Lemma string_operand_None t r :
  string_operand m t r = None -> kind t = rtHash ->
  match drop (space_run r) r with t :: _ => token_param m t = None | [] => True end.
Proof.
  unfold string_operand. intros Ho Hk. rewrite bool_decide_eq_true_2 in Ho by done.
  destruct (drop (space_run r) r) as [|t' r2] eqn:E; [done|].
  assert (Hl : r !! space_run r = Some t').
  { rewrite <- (Nat.add_0_r (space_run r)), <- lookup_drop, E. done. }
  by rewrite Hl in Ho.
Qed.

Lemma not_space t k : kind t = k -> k <> rtWhitespace -> k <> rtComment -> macro_token_space t = false.
Proof. intros <- ? ?. unfold macro_token_space. by rewrite !bool_decide_eq_false_2. Qed.

Lemma next_paste_solid t r : macro_token_space t = false -> kind t <> rtPaste -> next_paste (t :: r) = false.
Proof. intros Ht Hk. unfold next_paste, kind_at. cbn [space_run]. rewrite Ht. simpl. by apply bool_decide_eq_false. Qed.

Lemma ident_follow l t r1 : ts = l ++ t :: r1 -> kind t = rtIdentifier -> match r1 with t' :: _ => kind t' <> rtIdentifier | [] => True end.
Proof.
  intros Hts Hk. destruct r1 as [|t' r1]; [done|].
  apply (no_adjacent_identifiers (body m) (length l) t); [| |done]; fold ts; rewrite Hts.
  - by rewrite list_lookup_middle.
  - rewrite cons_middle, app_assoc. apply list_lookup_middle. rewrite length_app. simpl. lia.
Qed.

(** A turn of the loop that follows the reading. *)
Definition turned (l r0 : list ReplacementToken) (pre : bytes) (psp : list arg_span) (ps : list piece)
    (res : subst_state + bytes * list arg_span) : Prop :=
  exists us r cur sp joined pre' psp' out spans ap ps',
    r0 = us ++ r /\ us <> [] /\ res = inl (length (l ++ us), out, spans, ap) /\
    sim (l ++ us) r cur sp joined pre' psp' out spans ap /\
    chains cur sp joined (atoms m 0 r) = Some ps' /\ Forall psok ps' /\ same_end pre psp ps pre' psp' ps'.

(** A stringified parameter. *)
Lemma string_turn l t r1 cur sp joined pre psp out spans ap ps k :
  sim l (t :: r1) cur sp joined pre psp out spans ap ->
  chains cur sp joined (atoms m 0 (t :: r1)) = Some ps -> Forall psok ps -> string_operand m t r1 = Some k ->
  turned l (t :: r1) pre psp ps
    (inl (S (S (length l) + space_run r1), out ++ stringify_macro_arg (argument m raw_args k), spans, ap)).
Proof.
  intros Hs Hc Hps Eo. assert (Hts : ts = l ++ t :: r1) by apply Hs.
  destruct (string_operand_Some _ _ _ Eo) as (Hk & t' & r2 & Hd & Htp & Hk' & Hd2 & Hr).
  cbn [atoms] in Hc. rewrite Eo, atoms_skip, Hd2 in Hc.
  set (us := t :: take (space_run r1) r1 ++ [t']).
  assert (Hus : t :: r1 = us ++ r2) by (rewrite Hr at 1; unfold us; simpl; by rewrite <- app_assoc).
  assert (Hlast : l ++ us = (l ++ t :: take (space_run r1) r1) ++ [t']) by (unfold us; by rewrite app_comm_cons, app_assoc).
  destruct (operand_step l us (t :: r1) r2 (OString k) cur sp joined pre psp out spans ap ap rtIdentifier ps)
    as (cur' & pre' & psp' & ps' & H1 & H2 & H3 & H4); try done.
  - by apply next_paste_solid; [eapply not_space|rewrite Hk].
  - by rewrite Hts, Hus, app_assoc.
  - rewrite Hlast, last_solid_snoc. by rewrite (not_space t' rtIdentifier), Hk'.
  - right. apply (ident_follow (l ++ t :: take (space_run r1) r1) t'); [|done].
    rewrite Hts, Hus, app_assoc, Hlast. by rewrite <- !app_assoc.
  - exists us, r2, cur', [], false, pre', psp', (out ++ stringify_macro_arg (argument m raw_args k)), spans, ap, ps'.
    split_and!; try done.
    + do 2 f_equal. f_equal. f_equal. unfold us. rewrite !length_app. simpl. rewrite length_app, length_take. simpl.
      destruct (space_run_spec r1) as [Hn _]. lia.
    + replace (out ++ stringify_macro_arg (argument m raw_args k)) with
        (out ++ if joined then otext (OString k) ++ placemarker m raw_args [OString k] else cur_body (OString k) [] (next_paste r2)).
      2:{ f_equal. unfold cur_body, ptext, otext. simpl. rewrite ?app_nil_r. by destruct joined, (next_paste r2). }
      replace spans with (spans ++ if joined then [] else cur_spans (length out) (Some (OString k, [])) false (next_paste r2)).
      2:{ destruct joined; [by rewrite app_nil_r|]. cbn [cur_spans orb]. destruct (next_paste r2); by rewrite app_nil_r. }
      done.
Qed.

(** Any other operand, one token long. *)
Lemma operand_turn l t r1 o cur sp joined pre psp out spans ap ap' ps X Y :
  sim l (t :: r1) cur sp joined pre psp out spans ap ->
  chains cur sp joined (AOperand o :: atoms m 0 r1) = Some ps -> Forall psok ps ->
  string_operand m t r1 = None -> kind t <> rtPaste -> macro_token_space t = false ->
  (ap' = false \/ match r1 with t :: _ => kind t <> rtIdentifier | [] => True end) ->
  X = (if joined then otext o ++ placemarker m raw_args [o] else cur_body o [] (next_paste r1)) ->
  Y = (if joined then [] else cur_spans (length out) (Some (o, [])) false (next_paste r1)) ->
  turned l (t :: r1) pre psp ps (inl (S (length l), out ++ X, spans ++ Y, ap')).
Proof.
  intros Hs Hc Hps Eo Hk Et Hap -> ->.
  destruct (operand_step l [t] (t :: r1) r1 o cur sp joined pre psp out spans ap ap' (kind t) ps)
    as (cur' & pre' & psp' & ps' & H1 & H2 & H3 & H4); try done.
  - by apply next_paste_solid.
  - rewrite (sim_ts _ _ _ _ _ _ _ _ _ _ Hs), <- app_assoc. done.
  - by rewrite last_solid_snoc, Et.
  - intros Hh. by apply (string_operand_None t).
  - eexists [t], r1, cur', [], false, pre', psp', _, _, ap', ps'. split_and!; [done|done| |exact H1|exact H2|exact H3|apply H4..].
    by rewrite length_app, Nat.add_comm.
Qed.

(** A parameter: what the loop substitutes is what the reading says. *)
Lemma param_turn l t r1 cur sp joined pre psp out spans ap ps k :
  sim l (t :: r1) cur sp joined pre psp out spans ap -> token_param m t = Some k -> string_operand m t r1 = None ->
  chains cur sp joined (AOperand (OParam k (macro_token_text (body m) t)) :: atoms m 0 r1) = Some ps -> Forall psok ps ->
  let raw_use := macro_param_use_is_raw ts (length l) in
  let sub := if raw_use then argument m raw_args k else argument m expanded_args k in
  turned l (t :: r1) pre psp ps
    (inl (S (length l), out ++ sub ++ (if ap && is_nil sub then [c_sp] else []),
          (if negb raw_use && negb (is_nil sub)
           then spans ++ [ArgSpan (length out) (length sub) (macro_token_text (body m) t)] else spans), false)).
Proof.
  intros Hs Ep Eo Hc Hps raw_use sub.
  assert (Hi : kind t = rtIdentifier) by (unfold token_param in Ep; by case_bool_decide).
  assert (Et : macro_token_space t = false) by (by apply (not_space t rtIdentifier)).
  assert (Hap : ap = joined).
  { destruct (sim_ap _ _ _ _ _ _ _ _ _ _ Hs) as [->|[_ Hn]]; done. }
  assert (Hraw : raw_use = joined || next_paste r1).
  { unfold raw_use. rewrite (sim_ts _ _ _ _ _ _ _ _ _ _ Hs), use_is_raw, (sim_left _ _ _ _ _ _ _ _ _ _ Hs).
    rewrite (bool_decide_eq_false_2 (last_solid l = Some rtHash)); [done|]. intros Hh.
    pose proof (sim_hash _ _ _ _ _ _ _ _ _ _ Hs Hh) as Hn. cbn [space_run] in Hn. rewrite Et in Hn. simpl in Hn. congruence. }
  unfold sub. rewrite Hraw, Hap. clear sub.
  set (text := macro_token_text (body m) t) in *. set (rt := argument m raw_args k).
  set (et := argument m expanded_args k).
  assert (Hspans : (if negb (joined || next_paste r1) && negb (is_nil (if joined || next_paste r1 then rt else et))
      then spans ++ [ArgSpan (length out) (length (if joined || next_paste r1 then rt else et)) text] else spans) =
      spans ++ if joined then [] else cur_spans (length out) (Some (OParam k text, [])) false (next_paste r1)).
  { destruct joined; simpl; [by rewrite app_nil_r|]. destruct (next_paste r1); simpl; [by rewrite app_nil_r|].
    unfold pspans. simpl. fold et. destruct (is_nil et); simpl; [by rewrite app_nil_r|done]. }
  rewrite Hspans. eapply operand_turn; [exact Hs|exact Hc|done|done|by rewrite Hi|done|by left| |done].
  unfold cur_body, ptext, otext. simpl. fold rt et. destruct joined; simpl; [reflexivity|].
  rewrite app_nil_r. by destruct (next_paste r1).
Qed.

(** One turn of the loop is one step of the reading. *)
Lemma subst_turn l t r1 cur sp joined pre psp out spans ap ps :
  sim l (t :: r1) cur sp joined pre psp out spans ap ->
  chains cur sp joined (atoms m 0 (t :: r1)) = Some ps -> Forall psok ps ->
  turned l (t :: r1) pre psp ps (subst_step m raw_args expanded_args ts (length l, out, spans, ap)).
Proof.
  intros Hs Hc Hps. assert (Hts : ts = l ++ t :: r1) by apply Hs.
  unfold subst_step. rewrite Hts, list_lookup_middle, hash_param_at by done. rewrite <- Hts.
  destruct (string_operand m t r1) as [k|] eqn:Eo; cbn [fmap option_fmap option_map]; [rewrite raw_text_argument; by eapply string_turn|].
  destruct (decide (kind t = rtPaste)) as [Hk|Hk].
  { rewrite bool_decide_eq_true_2 by done.
    destruct (paste_step l t r1 cur sp joined pre psp out spans ap ps Hs Hk Hc Hps) as [H1 H2].
    exists (t :: take (space_run r1) r1), (drop (space_run r1) r1), cur, [], true, pre, psp, (rtrim out), spans, true, ps.
    split_and!; try done; [by simpl; rewrite take_drop|].
    do 2 f_equal. f_equal. f_equal. rewrite !length_app. simpl. rewrite length_take, Hts, drop_past.
    destruct (space_run_spec r1) as [Hn _]. lia. }
  rewrite bool_decide_eq_false_2 by done.
  destruct (macro_token_space t) eqn:Et.
  { rewrite space_atoms in Hc by done.
    assert (Hj : joined = false).
    { destruct joined; [|done]. destruct (sim_joined _ _ _ _ _ _ _ _ _ _ Hs eq_refl) as (_ & _ & Ht). congruence. }
    subst joined. assert (Hp : token_param m t = None).
    { unfold token_param. case_bool_decide as Hi; [|done]. by rewrite (not_space t rtIdentifier) in Et. }
    rewrite Hp. exists [t], r1, cur, (sp ++ [token_spelling m t]), false, pre, psp, (out ++ token_spelling m t), spans, false, ps.
    split_and!; try done; [by rewrite length_app, Nat.add_comm|by eapply space_step]. }
  cbn [atoms] in Hc. rewrite Eo, bool_decide_eq_false_2, Et in Hc by done.
  destruct (token_param m t) as [k|] eqn:Ep.
  { rewrite raw_text_argument, (expanded_text_argument m raw_args expanded_args k known). by eapply param_turn. }
  assert (Hsp : token_spelling m t = macro_token_text (body m) t).
  { unfold token_spelling. rewrite bool_decide_eq_false_2; [done|]. intros Hc'. unfold macro_token_space in Et.
    by rewrite Hc', orb_true_r in Et. }
  rewrite Hsp, <- (app_nil_r spans). eapply operand_turn; [exact Hs|exact Hc|done|done|done|done|by left| |].
  - unfold cur_body, ptext, otext. simpl. rewrite ?app_nil_r. by destruct joined, (next_paste r1).
  - destruct joined; [done|]. simpl. by destruct (next_paste r1).
Qed.

Lemma subst_reads l r cur sp joined pre psp out spans ap ps fuel :
  sim l r cur sp joined pre psp out spans ap -> chains cur sp joined (atoms m 0 r) = Some ps -> Forall psok ps ->
  length r < fuel ->
  loop fuel (subst_step m raw_args expanded_args ts) (length l, out, spans, ap) =
    Some (pre ++ ptexts ps, psp ++ pspanss (length pre) ps).
Proof.
  revert l r cur sp joined pre psp out spans ap ps. induction fuel as [|n IH]; intros l r cur sp joined pre psp out spans ap ps Hs Hc Hps Hf; [lia|].
  destruct r as [|t r1].
  - simpl. rewrite (sim_ts _ _ _ _ _ _ _ _ _ _ Hs), app_nil_r, lookup_ge_None_2 by done.
    destruct Hs as [_ _ _ _ _ _ Ho Hsp]. destruct joined; [done|]. injection Hc as <-.
    destruct (pieces_flush (length pre) cur sp []) as [H1 H2]. rewrite app_nil_r in H1, H2. unfold ptexts, pspanss.
    rewrite H1, H2, Ho, Hsp. simpl. by rewrite !app_nil_r.
  - destruct (subst_turn l t r1 cur sp joined pre psp out spans ap ps Hs Hc Hps)
      as (us & r & cur' & sp' & joined' & pre' & psp' & out' & spans' & ap' & ps' & Hr & Hus & Hstep & Hs' & Hc' & Hps' & [He1 He2]).
    cbn [loop]. rewrite Hstep, <- He1, <- He2. eapply IH; try done.
    apply (f_equal length) in Hr. rewrite length_app in Hr. destruct us; [done|]. simpl in *. lia.
Qed.
End Simulation.

(** ** What the substitution promises *)

(** The cache holds the tokens of the text it was built from. *)
Definition cache_ok (m : MacroDef) : Prop := replacement_tokens m = tokenize_macro_spelling (replacement_tokens_for m).

Lemma new_macro_ok ps v vp b : cache_ok (new_macro ps v vp b).
Proof. done. Qed.

Lemma cached_tokens m :
  cache_ok m -> (macro_replacement_tokens m).1 = tokenize_macro_spelling (body m) /\ cache_ok (macro_replacement_tokens m).2.
Proof.
  intros Hm. unfold macro_replacement_tokens. destruct (bytes_eqb _ _) eqn:E; [|done]. reflect_bool. simpl. by rewrite Hm, E.
Qed.

Section Spans.
Context (m : MacroDef) (raw_args expanded_args : list bytes).
Abbreviation texts := (pieces_text m raw_args expanded_args).
Abbreviation spans_of := (pieces_spans m raw_args expanded_args).

Lemma spans_in_order off ps n : n = off + length (texts ps) -> in_order off (spans_of off ps) n.
Proof.
  revert off n. assert (Hw : forall sps a b n, a <= b -> in_order b sps n -> in_order a sps n).
  { intros [|sp sps] a b n Hab; [done|]. simpl. intros (H1 & H2). split; [lia|done]. }
  induction ps as [|p ps IH]; intros off n Hn; [done|]. cbn [pieces_spans pieces_text] in *. rewrite length_app in Hn.
  specialize (IH (off + length (piece_text m raw_args expanded_args p)) n ltac:(lia)).
  destruct p as [s|[s|k name|k] [|o2 os]]; cbn [piece_spans app]; try (eapply Hw; [|exact IH]; lia).
  destruct (is_nil _) eqn:E; cbn [app]; [eapply Hw; [|exact IH]; lia|]. simpl in *.
  split_and!; [done| |lia|done]. by destruct (argument _ _ _); [|simpl; lia].
Qed.

Lemma spans_hold ps : forall pre,
  Forall (fun sp => exists k, Chain (OParam k (as_param sp)) [] ∈ ps /\
    substr (pre ++ texts ps) (as_off sp) (as_len sp) = argument m expanded_args k) (spans_of (length pre) ps).
Proof.
  induction ps as [|p ps IH]; intros pre; [constructor|]. cbn [pieces_spans pieces_text]. apply Forall_app_2.
  - destruct p as [s|[s|k name|k] [|o2 os]]; cbn [piece_spans]; try constructor.
    destruct (is_nil _) eqn:E; [constructor|]. apply Forall_singleton. exists k. split; [constructor|].
    unfold substr. simpl. by rewrite drop_app_length, take_app_length.
  - rewrite <- length_app, app_assoc. eapply Forall_impl; [apply IH|]. intros sp (k & H1 & H2). exists k.
    split; [by apply list_elem_of_further|done].
Qed.
End Spans.

(** C19: A function-like macro's expansion is C11 6.10.3.1 to 6.10.3.3: reading
    the replacement list as chains of operands, a parameter on its own becomes
    its expanded argument, [#] of one the string of its raw spelling, and a
    chain of [##] the operands' raw spellings set end to end; and each span
    handed to the rescan is, in order, the place of one expanded argument.  It
    is stated for arguments as the collector leaves them, each with its
    expansion, and a list in which every [##] has an operand on each side
    and a chain's first operand is not empty ([pasteable]); the commas of the
    variable argument count as written with one blank behind them. *)
Theorem expansion_is_c11 m raw_args expanded_args ps :
  cache_ok m -> length expanded_args = length raw_args ->
  replacement_pieces m = Some ps -> Forall (pasteable m raw_args) ps ->
  let '(out, spans) := expand_function_macro_body m raw_args expanded_args in
  out = pieces_text m raw_args expanded_args ps /\
  spans = pieces_spans m raw_args expanded_args 0 ps /\
  in_order 0 spans (length out) /\
  Forall (fun sp => exists k, Chain (OParam k (as_param sp)) [] ∈ ps /\
    substr out (as_off sp) (as_len sp) = argument m expanded_args k) spans.
Proof.
  intros Hm Hl Hr Hp. unfold expand_function_macro_body, replacement_pieces in *.
  destruct (cached_tokens m Hm) as [Ht _]. rewrite Ht in *. set (ts := tokenize_macro_spelling (body m)) in *.
  rewrite (subst_reads m raw_args expanded_args Hl [] ts None [] false [] [] [] [] false ps); [|split|done|done|simpl; lia]; try done.
  - simpl. split_and!; [done|done|by apply spans_in_order|by apply (spans_hold _ _ _ ps [])].
  - by left.
Qed.

Lemma expansion_is_c11_witness :
  (expand_function_macro_body (new_macro [B "a"; B "b"] false [] (B "(a+1)*a##b - # b"))
     [B "f(x)"; B "y z"] [B "2"; B "y z"]).1 = B "(2+1)*f(x)y z - " ++ [c_dquote] ++ B "y z" ++ [c_dquote].
Proof.
  pose proof (expansion_is_c11 (new_macro [B "a"; B "b"] false [] (B "(a+1)*a##b - # b")) [B "f(x)"; B "y z"] [B "2"; B "y z"]
    [Chain (OToken (B "(")) []; Chain (OParam 0 (B "a")) []; Chain (OToken (B "+")) []; Chain (OToken (B "1")) [];
     Chain (OToken (B ")")) []; Chain (OToken (B "*")) []; Chain (OParam 0 (B "a")) [OParam 1 (B "b")]; Space (B " ");
     Chain (OToken (B "-")) []; Space (B " "); Chain (OString 1) []]
    (new_macro_ok _ _ _ _) eq_refl ltac:(vm_compute; reflexivity)
    ltac:(repeat first [apply Forall_cons_2 | apply Forall_nil_2]; vm_compute; repeat constructor; discriminate)) as He.
  destruct (expand_function_macro_body _ _ _) as [out spans].
  destruct He as [-> _]. vm_compute. reflexivity.
Defined.

(** Where the left operand of a [##] is empty and white space stands before it,
    the white space goes with it: [x a##b] of [int], nothing and [y] is [inty],
    one identifier; in C it is [int y]. *)
Example empty_left_operand_glues :
  (expand ["x"; "a"; "b"]%string false EmptyString "x a##b" ["int"; EmptyString; "y"]%string).1 = B "inty".
Proof. reflexivity. Qed.

(** The commas of [__VA_ARGS__] are spelt anew: [#__VA_ARGS__] of a call written
    [s(a,b)] is the string [a, b]; in C it is [a,b]. *)
Example commas_spelt_anew :
  (expand []%list true EmptyString "#__VA_ARGS__" ["a"; "b"]%string).1 = [c_dquote] ++ B "a, b" ++ [c_dquote].
Proof. reflexivity. Qed.
