(* ===== verification/MacroArgs.v ===== *)
(** Macro arguments on their way into a replacement list ([src/src/lexer.cpp]):
    what [#] makes of one, and the paint its stretches keep through trimming.

    [stringify_reads_back] closes the circle with [Literals]: the string literal
    [#] writes for an argument whose backslashes stand in literals is read, by
    the lexer's own reader, as the argument's spelling with each run of white
    space one blank.  [ArgPaintStretches] collects where
    the paint changes within an argument. *)
From stdpp Require Import gmap.
From S2P Require Import Prelude Source Literals MacroTokens MacroExpand.
#[local] Open Scope nat_scope.

(** ** The spelling [#] denotes (C11 6.10.3.2) *)

(** The tokens' spellings, each run of white space and comments between two of
    them one blank. *)
Fixpoint spaced (raw : bytes) (ts : list ReplacementToken) (pending wrote : bool) : bytes :=
  match ts with
  | [] => []
  | t :: r =>
      if macro_token_space t then spaced raw r (pending || wrote) wrote
      else (if pending then [c_sp] else []) ++ macro_token_text raw t ++ spaced raw r false true
  end.
Definition normal_spelling (raw : bytes) : bytes := spaced raw (tokenize_macro_spelling raw) false false.

(** A backslash stands in literals only, and no literal runs over a line's end:
    what 6.10.3.2 asks of an argument for its string to be one literal. *)
Definition line_char (c : ascii) : bool := negb (byte_eqb c c_nl || byte_eqb c c_cr).
Definition stringifiable (raw : bytes) : Prop :=
  Forall (fun t => match kind t with
                   | rtLiteral => forallb line_char (macro_token_text raw t) = true
                   | rtPunct => macro_token_text raw t <> [c_bslash]
                   | _ => True
                   end) (tokenize_macro_spelling raw).

(** ** Reading it back *)

Lemma ppnumber_chars s : ppnumber s -> Forall (fun c => is_ident_char c = true \/ c ∈ [".";"'";"+";"-"]%char) s.
Proof.
  induction 1 as [c Hc|c Hc|s c _ IH Hc|s e c _ IH He Hc].
  - apply Forall_singleton. left. by apply isdigit_ident.
  - apply Forall_cons_2; [right; by constructor|]. apply Forall_singleton. left. by apply isdigit_ident.
  - apply Forall_app_2; [done|]. apply Forall_singleton. destruct Hc as [->|[->|Hc]]; auto; right; by repeat constructor.
  - change [e; c] with ([e] ++ [c]). rewrite app_assoc. apply Forall_app_2; [done|]. apply Forall_singleton. right.
    apply list_elem_of_In in Hc. destruct Hc as [<-|[<-|[]]]; by repeat constructor.
Qed.

Lemma ident_char_plain c : is_ident_char c = true -> c <> c_nl /\ c <> c_cr /\ c <> c_bslash /\ c <> c_dquote.
Proof. intros Hc. split_and!; intros ->; by vm_compute in Hc. Qed.

(** No other token holds a quote, a line's end or, but for the lone one, a
    backslash. *)
Lemma plain_token k s next :
  token_shape k s next -> k <> rtWhitespace -> k <> rtComment -> k <> rtLiteral -> (k = rtPunct -> s <> [c_bslash]) ->
  Forall (fun c => c <> c_nl /\ c <> c_cr /\ c <> c_bslash /\ c <> c_dquote) s.
Proof.
  intros Hs ? ? ? Hb. destruct k; try done; simpl in Hs.
  - destruct Hs as [(c & r & -> & Hc & Hr & _)|(pre & Hp & -> & _)].
    + constructor; [by apply ident_char_plain, ident_start_neq|]. eapply Forall_impl; [exact Hr|]. apply ident_char_plain.
    + destruct Hp as [->|[->|[->|[->| ->]]]]; by repeat constructor.
  - destruct Hs as [Hs _]. eapply Forall_impl; [by apply ppnumber_chars|]. intros c [Hc|Hc]; [by apply ident_char_plain|].
    apply list_elem_of_In in Hc. simpl in Hc. by repeat destruct Hc as [<-|Hc].
  - destruct Hs as [-> _]. by repeat constructor.
  - subst. by repeat constructor.
  - destruct Hs as (c & -> & Hsp & _ & _ & Hd & _). apply Forall_singleton. unfold macro_body_space in Hsp. reflect_bool.
    split_and!; try done. intros ->. by destruct (Hb eq_refl).
Qed.

Section ReadBack.
Context (row col : Z).
Let step := literal_body c_dquote row col 0xFF append_byte_escape append_raw.

Lemma char_reads (literal : bool) c acc w s t :
  steady (_buf s) -> ahead s = stringify_token literal [c] ++ t -> c <> c_nl -> c <> c_cr ->
  literal = true \/ c <> c_bslash /\ c <> c_dquote ->
  exists s', step (acc, w, s) = inl (acc ++ [c], w, s') /\ steady (_buf s') /\ ahead s' = t.
Proof.
  intros Hs Ha Hnl Hcr Hc. unfold stringify_token in Ha. simpl in Ha. rewrite app_nil_r in Ha.
  destruct (literal && (byte_eqb c c_dquote || byte_eqb c c_bslash)) eqn:E.
  - destruct (body_escape c_dquote row col ltac:(by left) acc w s c t (Escape Simple (code c)) t Hs Ha) as (s' & Hst & H).
    + split_bool; subst c; reflexivity.
    + exists s'. split; [|done]. unfold step. rewrite Hst. unfold append_byte_escape. simpl. by rewrite to_byte_code.
  - apply body_raw; try done.
    + intros ->. destruct Hc as [->|[Hc _]]; done.
    + intros ->. destruct Hc as [->|[_ Hc]]; done.
Qed.

Lemma token_reads literal x acc w s t :
  steady (_buf s) -> ahead s = stringify_token literal x ++ t ->
  Forall (fun c => c <> c_nl /\ c <> c_cr /\ (literal = true \/ c <> c_bslash /\ c <> c_dquote)) x ->
  exists s', nsteps (fun a b => step a = inl b) (length x) (acc, w, s) (acc ++ x, w, s') /\ steady (_buf s') /\ ahead s' = t.
Proof.
  revert acc s. induction x as [|c x IH]; intros acc s Hs Ha Hf.
  { exists s. rewrite app_nil_r. split; [constructor|done]. }
  apply Forall_cons_1 in Hf as [(H1 & H2 & H3) Hf]. unfold stringify_token in Ha. cbn [flat_map] in Ha. rewrite <- app_assoc in Ha.
  destruct (char_reads literal c acc w s (stringify_token literal x ++ t) Hs) as (s1 & Hst & Hs1 & Ha1); try done.
  { unfold stringify_token. cbn [flat_map]. by rewrite app_nil_r. }
  destruct (IH (acc ++ [c]) s1 Hs1 Ha1 Hf) as (s2 & Hn & H). rewrite <- app_assoc in Hn. exists s2. split; [|done].
  simpl. by eapply nsteps_l.
Qed.

Lemma stringify_token_length literal x : length x <= length (stringify_token literal x).
Proof. induction x as [|c x IH]; simpl; [done|]. rewrite length_app. case_if; simpl; lia. Qed.

Lemma tokens_read raw ts pending wrote acc w s t :
  steady (_buf s) -> ahead s = stringify_tokens raw ts pending wrote ++ t ->
  Forall (fun tok => macro_token_space tok = false ->
    Forall (fun c => c <> c_nl /\ c <> c_cr /\ (kind tok = rtLiteral \/ c <> c_bslash /\ c <> c_dquote)) (macro_token_text raw tok)) ts ->
  exists n s', n <= length (stringify_tokens raw ts pending wrote) /\
    nsteps (fun a b => step a = inl b) n (acc, w, s) (acc ++ spaced raw ts pending wrote, w, s') /\ steady (_buf s') /\ ahead s' = t.
Proof.
  revert pending wrote acc s. induction ts as [|tok ts IH]; intros pending wrote acc s Hs Ha Hf; simpl in *.
  { exists 0, s. rewrite app_nil_r. split_and!; try done. constructor. }
  apply Forall_cons_1 in Hf as [Hk Hf]. destruct (macro_token_space tok); [by apply IH|]. specialize (Hk eq_refl).
  set (lit := bool_decide (kind tok = rtLiteral)) in *. set (x := macro_token_text raw tok) in *.
  rewrite <- !app_assoc in Ha.
  assert (Hsp : exists s1, nsteps (fun a b => step a = inl b) (length (if pending then [c_sp] else [])) (acc, w, s)
      (acc ++ (if pending then [c_sp] else []), w, s1) /\ steady (_buf s1) /\
      ahead s1 = stringify_token lit x ++ stringify_tokens raw ts false true ++ t).
  { apply (token_reads false); [done| |].
    - rewrite Ha. by destruct pending.
    - destruct pending; [|apply Forall_nil_2]. apply Forall_singleton. split_and!; [done|done|by right]. }
  destruct Hsp as (s1 & Hn1 & Hs1 & Ha1).
  destruct (token_reads lit x (acc ++ if pending then [c_sp] else []) w s1 _ Hs1 Ha1) as (s2 & Hn2 & Hs2 & Ha2).
  { eapply Forall_impl; [exact Hk|]. intros c (H1 & H2 & H3). split_and!; try done. unfold lit.
    destruct H3 as [H3|H3]; [left; by apply bool_decide_eq_true_2|by right]. }
  destruct (IH false true ((acc ++ if pending then [c_sp] else []) ++ x) s2 Hs2 Ha2 Hf) as (n3 & s3 & Hl3 & Hn3 & H3).
  rewrite <- !app_assoc in *. eexists (_ + (_ + n3)), s3. split_and!; [|eapply nsteps_trans; [exact Hn1|eapply nsteps_trans; [exact Hn2|exact Hn3]]|apply H3..].
  rewrite !length_app. pose proof (stringify_token_length lit x). lia.
Qed.
End ReadBack.

(** C22: [#] and the string reader are inverse on an argument that has no
    backslash outside its literals and no literal that runs over a line's end
    ([stringifiable]): reading the literal that stringification writes for it
    gives the argument's spelling, its tokens unchanged and each run of white
    space between them one blank, with no warning and nothing of what follows
    consumed. *)
Theorem stringify_reads_back raw s rest :
  steady (_buf s) -> stringifiable raw -> c_dquote :: ahead s = stringify_macro_arg raw ++ rest ->
  exists s', read_string_literal s = inr (normal_spelling raw, 0, s') /\ ahead s' = rest.
Proof.
  intros Hs Hr Ha. injection Ha as Ha. rewrite <- app_assoc in Ha. simpl in Ha.
  destruct (tokens_read (line s) (column s) raw (tokenize_macro_spelling raw) false false [] 0 s (c_dquote :: rest) Hs Ha)
    as (n & s1 & Hl & Hn & Hs1 & Ha1).
  - apply Forall_lookup. intros i tok Hi Hsp. unfold stringifiable in Hr. rewrite Forall_lookup in Hr. specialize (Hr i tok Hi).
    destruct (lexed_lookup raw 0 raw _ i tok ltac:(by apply tokenize_from_lexed) eq_refl Hi) as (_ & Hk & _).
    unfold macro_token_space in Hsp. reflect_bool. destruct (decide (kind tok = rtLiteral)) as [Hlit|Hlit].
    + rewrite Hlit in Hr. apply Forall_forall. intros c Hc.
      rewrite forallb_forall in Hr. apply list_elem_of_In in Hc. specialize (Hr c Hc). unfold line_char in Hr. reflect_bool. auto.
    + eapply Forall_impl; [eapply plain_token; [exact Hk|done..|]|].
      * intros Hp. by rewrite Hp in Hr.
      * simpl. intros c Hc. tauto.
  - destruct (body_end c_dquote (line s) (column s) ltac:(by left) ([] ++ normal_spelling raw) 0 s1 rest Hs1 Ha1) as (s2 & He & Hs2 & Ha2).
    unfold read_string_literal, read_quoted. erewrite loop_nsteps; [|exact Hn|exact He|].
    2:{ pose proof (unread_ahead s) as Hu. rewrite Ha, length_app in Hu. simpl in Hu. lia. }
    simpl. rewrite steady_ahead, Ha2 by done. simpl. destruct (source_get s2 c_dquote rest Hs2 Ha2) as (_ & _ & Ha3 & _).
    by exists (get s2).2.
Qed.

(** For tests: a backquote of the Rocq string is a double quote. *)
Definition bq (s : string) : bytes := map (fun c => if byte_eqb c "`"%char then c_dquote else c) (B s).
Example stringify_ex : stringify_macro_arg (bq " a  /*x*/ + `p\\\`` ") = bq "`a + \`p\\\\\\\`\``".
Proof. reflexivity. Qed.

Lemma stringify_witness :
  exists s', read_string_literal (plain_source (drop 1 (stringify_macro_arg (bq " a  /*x*/ + `p\n` ")) ++ B ";")) =
    inr (bq "a + `p\n`", 0, s') /\ ahead s' = B ";".
Proof.
  apply (stringify_reads_back (bq " a  /*x*/ + `p\n` ") (plain_source (drop 1 (stringify_macro_arg (bq " a  /*x*/ + `p\n` ")) ++ B ";")) (B ";")).
  - apply no_splice_steady. vm_compute. reflexivity.
  - unfold stringifiable. vm_compute. repeat constructor; discriminate.
  - vm_compute. reflexivity.
Defined.

(** ** The paint of an argument's stretches

    [trim_macro_argument] with the stretches, and [ArgPaintStretches]. *)

(** The loop over the stretches: [lead] characters are cut off, [size] are left;
    [kept] is the result so far, its last first. *)
Fixpoint keep_segs (lead size : nat) (segs kept : list paint_seg) : list paint_seg :=
  match segs with
  | [] => rev kept
  | sg :: r =>
      let off := if lead <? ps_off sg then ps_off sg - lead else 0 in
      if size <=? off then rev kept
      else
        let kept := match kept with k :: ks => if ps_off k =? off then ks else kept | [] => [] end in
        match kept with
        | k :: _ => if bool_decide (ps_paint k = ps_paint sg) then keep_segs lead size r kept
                    else keep_segs lead size r (PaintSeg off (ps_paint sg) :: kept)
        | [] => keep_segs lead size r [PaintSeg off (ps_paint sg)]
        end
  end.

Definition trim_painted (s : bytes) (segs : list paint_seg) : bytes * list paint_seg :=
  let t := trim_macro_argument s in
  match segs with
  | [] => (t, [])
  | [sg] => (t, [PaintSeg 0 (ps_paint sg)])
  | _ => if is_nil t then (t, []) else (t, keep_segs (default 0 (find_sub t s)) (length t) segs [])
  end.

(** [_first] (meaningful once [_started]) and [_segs]. *)
Record ArgPaintStretches := Stretches { first : paint_seg; segs : list paint_seg; started : bool }.
Definition no_stretches : ArgPaintStretches := Stretches (PaintSeg 0 ∅) [] false.

Definition last_paint (a : ArgPaintStretches) : gset bytes :=
  match last (segs a) with Some sg => ps_paint sg | None => ps_paint (first a) end.

Definition note_paint (a : ArgPaintStretches) (off : nat) (paint : gset bytes) : ArgPaintStretches :=
  if negb (started a) then Stretches (PaintSeg off paint) (segs a) true
  else if bool_decide (last_paint a = paint) then a
  else Stretches (first a) ((if is_nil (segs a) then [first a] else segs a) ++ [PaintSeg off paint]) true.

Definition note (a : ArgPaintStretches) (off : nat) (paint : gset bytes) : ArgPaintStretches :=
  if started a && bool_decide (paint = ∅) && bool_decide (last_paint a = ∅) then a else note_paint a off paint.

(** [finish]: the trimmed argument, whether it is stretched, its stretches (what
    [out] holds then), and the collector ready for the next. *)
Definition finish (a : ArgPaintStretches) (arg : bytes) : bytes * bool * list paint_seg * ArgPaintStretches :=
  if is_nil (segs a) then (trim_macro_argument arg, false, [], Stretches (first a) (segs a) false)
  else
    let '(t, sgs) := trim_painted arg (segs a) in
    let stretched := 1 <? length sgs in
    (t, stretched, if stretched then sgs else [], Stretches (first a) [] false).

(** An argument collected run by run: each run's text was served under one
    paint, and [note] is called at its start. *)
Fixpoint collect (runs : list (gset bytes * bytes)) (a : ArgPaintStretches) (arg : bytes) : ArgPaintStretches * bytes :=
  match runs with
  | [] => (a, arg)
  | (p, t) :: r => collect r (note a (length arg) p) (arg ++ t)
  end.

(** The paint of each character of the runs. *)
Definition run_paints (runs : list (gset bytes * bytes)) : list (gset bytes) :=
  flat_map (fun '(p, t) => replicate (length t) p) runs.

(** The paint the stretches give offset [i]: the last that starts at or before it. *)
Fixpoint seg_paint (sgs : list paint_seg) (d : gset bytes) (i : nat) : gset bytes :=
  match sgs with
  | [] => d
  | sg :: r => if ps_off sg <=? i then seg_paint r (ps_paint sg) i else d
  end.

(** ** Each character keeps its paint *)

Fixpoint sorted_from (n : nat) (sgs : list paint_seg) : Prop :=
  match sgs with [] => True | sg :: r => n <= ps_off sg /\ sorted_from (ps_off sg) r end.

Lemma sorted_from_app n a b :
  sorted_from n (a ++ b) <-> sorted_from n a /\ sorted_from (match last a with Some sg => ps_off sg | None => n end) b.
Proof.
  revert n. induction a as [|sg a IH]; intros n; simpl; [tauto|]. rewrite IH.
  destruct a as [|sg' a]; [simpl; tauto|]. change (last (sg :: sg' :: a)) with (last (sg' :: a)).
  destruct (last (sg' :: a)) eqn:E; [tauto|]. by apply last_None in E.
Qed.

Lemma seg_paint_app a b d i : 
  sorted_from 0 (a ++ b) ->
  seg_paint (a ++ b) d i =
    match b with sg :: _ => if ps_off sg <=? i then seg_paint b d i else seg_paint a d i | [] => seg_paint a d i end.
Proof.
  generalize 0 as n. revert d. induction a as [|sg a IH]; intros d n Hs; simpl in *.
  { destruct b as [|sg b]; simpl; [done|]. by destruct (ps_off sg <=? i). }
  destruct Hs as [Hn Hs]. destruct (ps_off sg <=? i) eqn:E; reflect_bool.
  - rewrite (IH _ _ Hs). destruct b as [|sg' b]; [done|]. destruct (ps_off sg' <=? i) eqn:E'; [|done]. simpl. by rewrite E'.
  - destruct b as [|sg' b]; [done|]. apply sorted_from_app in Hs as [H1 [H2 _]].
    assert (Hle : ps_off sg <= ps_off sg').
    { destruct (last a) as [l|] eqn:El; [|done]. assert (ps_off sg <= ps_off l); [|lia]. clear -H1 El.
      revert sg H1 El. induction a as [|x a IH]; intros sg H1 El; [done|]. destruct H1 as [Hx H1]. destruct a as [|y a].
      - by injection El as ->.
      - specialize (IH x H1 El). lia. }
    by rewrite (proj2 (Nat.leb_gt _ _)) by lia.
Qed.

Lemma seg_paint_snoc a sg d i :
  sorted_from 0 (a ++ [sg]) -> seg_paint (a ++ [sg]) d i = if ps_off sg <=? i then ps_paint sg else seg_paint a d i.
Proof. intros Hs. rewrite seg_paint_app by done. simpl. by destruct (ps_off sg <=? i). Qed.

(** All the stretches of the collector. *)
Definition all_segs (a : ArgPaintStretches) : list paint_seg := if is_nil (segs a) then [first a] else segs a.

(** What the collector has learnt of the [paints] of the characters so far. *)
Record shows (a : ArgPaintStretches) (paints : list (gset bytes)) : Prop := {
  sh_first : match all_segs a with sg :: _ => ps_off sg = 0 | [] => False end;
  sh_sorted : sorted_from 0 (all_segs a);
  sh_bound : Forall (fun sg => ps_off sg <= length paints) (all_segs a);
  sh_paint : forall i, i < length paints -> paints !! i = Some (seg_paint (all_segs a) ∅ i);
  sh_last : forall i, length paints <= i -> seg_paint (all_segs a) ∅ i = last_paint a
}.

Lemma last_paint_all a : last_paint a = match last (all_segs a) with Some sg => ps_paint sg | None => ∅ end.
Proof.
  unfold last_paint, all_segs. destruct (segs a) as [|sg l]; [done|]. cbn [is_nil].
  destruct (last (sg :: l)) eqn:E; [done|]. by apply last_None in E.
Qed.

Lemma note_is_note_paint a off p : note a off p = note_paint a off p.
Proof.
  unfold note, note_paint. destruct (started a); [|done]. simpl.
  destruct (bool_decide (p = ∅)) eqn:E1; simpl; [|done]. destruct (bool_decide (last_paint a = ∅)) eqn:E2; [|done].
  reflect_bool. subst p. by rewrite bool_decide_eq_true_2.
Qed.

Lemma note_first p : shows (note no_stretches 0 p) [].
Proof.
  rewrite note_is_note_paint. split; simpl; [done|split; [lia|done]| |intros; lia|done].
  by apply Forall_singleton.
Qed.

Lemma note_shows a paints p :
  started a = true -> shows a paints -> shows (note a (length paints) p) paints /\
  started (note a (length paints) p) = true /\ last_paint (note a (length paints) p) = p.
Proof.
  intros Hst [H1 H2 H3 H4 H5]. rewrite note_is_note_paint. unfold note_paint. rewrite Hst. simpl.
  destruct (bool_decide (last_paint a = p)) eqn:E; reflect_bool; [by split|].
  fold (all_segs a). set (a' := Stretches _ _ _).
  assert (Hall : all_segs a' = all_segs a ++ [PaintSeg (length paints) p]).
  { unfold a', all_segs at 1. simpl. by destruct (all_segs a). }
  assert (Hs' : sorted_from 0 (all_segs a')).
  { rewrite Hall. apply sorted_from_app. split; [done|]. simpl. split; [|done].
    destruct (last (all_segs a)) as [sg|] eqn:El; [|lia]. rewrite Forall_forall in H3. apply H3. apply last_Some in El as [l ->].
    apply elem_of_app. right. by constructor. }
  assert (Hlp : last_paint a' = p) by (by rewrite last_paint_all, Hall, last_snoc).
  split; [|done]. split; [| done| | |].
  - rewrite Hall. by destruct (all_segs a).
  - rewrite Hall. apply Forall_app_2; [done|]. by apply Forall_singleton.
  - intros i Hi. rewrite Hall in *. rewrite seg_paint_snoc by done. simpl. rewrite (proj2 (Nat.leb_gt _ _)) by lia. by apply H4.
  - intros i Hi. rewrite Hlp. rewrite Hall in *. rewrite seg_paint_snoc by done. simpl. by rewrite (proj2 (Nat.leb_le _ _)) by lia.
Qed.

Lemma shows_more a paints t p : shows a paints -> last_paint a = p -> shows a (paints ++ replicate t p).
Proof.
  intros [H1 H2 H3 H4 H5] <-. split; try done.
  - eapply Forall_impl; [exact H3|]. intros sg Hsg. simpl in *. rewrite length_app. lia.
  - intros i Hi. rewrite length_app, length_replicate in Hi. destruct (decide (i < length paints)) as [Hlt|Hge].
    + rewrite lookup_app_l by done. by apply H4.
    + rewrite lookup_app_r, lookup_replicate_2 by lia. by rewrite H5 by lia.
  - intros i Hi. rewrite length_app in Hi. apply H5. lia.
Qed.

Lemma collect_shows runs a arg paints :
  started a = true -> shows a paints -> length arg = length paints ->
  let '(a', arg') := collect runs a arg in
  shows a' (paints ++ run_paints runs) /\ arg' = arg ++ flat_map snd runs /\ length arg' = length (paints ++ run_paints runs).
Proof.
  revert a arg paints. induction runs as [|[p t] runs IH]; intros a arg paints Hst Hs Hl.
  { simpl. by rewrite !app_nil_r. }
  cbn [collect]. destruct (note_shows a paints p Hst Hs) as (H1 & H2 & H3). rewrite Hl.
  specialize (IH (note a (length paints) p) (arg ++ t) (paints ++ replicate (length t) p) H2
    (shows_more _ _ _ _ H1 H3) ltac:(by rewrite !length_app, length_replicate, Hl)).
  destruct (collect runs _ _) as [a' arg']. cbn [run_paints flat_map snd]. by rewrite <- !app_assoc in IH.
Qed.

Lemma sorted_weaken n n' l : n' <= n -> sorted_from n l -> sorted_from n' l.
Proof. destruct l as [|sg l]; simpl; [done|]. intros ? []. split; [lia|done]. Qed.

Lemma sorted_remove n a x b : sorted_from n (a ++ x :: b) -> sorted_from n (a ++ b).
Proof.
  revert n. induction a as [|y a IH]; intros n; simpl.
  - intros [H1 H2]. by eapply sorted_weaken.
  - intros [H1 H2]. split; [done|]. by apply IH.
Qed.

(** The later of two stretches with one start, or with one paint, decides. *)
Lemma seg_paint_same_start a k sg r d i :
  sorted_from 0 (a ++ k :: sg :: r) -> ps_off k = ps_off sg -> seg_paint (a ++ k :: sg :: r) d i = seg_paint (a ++ sg :: r) d i.
Proof.
  intros Hs Hk. rewrite !seg_paint_app by (try done; by eapply sorted_remove). rewrite Hk. simpl. rewrite Hk.
  by destruct (ps_off sg <=? i).
Qed.

Lemma seg_paint_same_paint a k sg r d i :
  sorted_from 0 (a ++ k :: sg :: r) -> ps_paint k = ps_paint sg ->
  seg_paint (a ++ k :: sg :: r) d i = seg_paint (a ++ k :: r) d i.
Proof.
  intros Hs Hk. assert (Hs' : sorted_from 0 (a ++ k :: r)).
  { rewrite cons_middle, app_assoc in Hs. apply sorted_remove in Hs. by rewrite <- app_assoc in Hs. }
  rewrite !seg_paint_app by done. destruct (ps_off k <=? i) eqn:E; [|done]. simpl. rewrite E.
  apply sorted_from_app in Hs as [_ Hs]. cbn [sorted_from] in Hs. destruct Hs as (_ & H1 & H2).
  destruct (ps_off sg <=? i) eqn:E'; [by rewrite Hk|]. destruct r as [|sg' r]; simpl; [done|]. destruct H2 as [H2 _].
  reflect_bool. by rewrite (proj2 (Nat.leb_gt _ _)) by lia.
Qed.

Definition shift (lead : nat) (sg : paint_seg) : paint_seg := PaintSeg (ps_off sg - lead) (ps_paint sg).

Lemma keep_segs_paint lead size sgs kept d i :
  sorted_from 0 (rev kept ++ map (shift lead) sgs) -> i < size ->
  seg_paint (keep_segs lead size sgs kept) d i = seg_paint (rev kept ++ map (shift lead) sgs) d i.
Proof.
  revert kept. induction sgs as [|sg r IH]; intros kept Hs Hi; [by simpl; rewrite app_nil_r|]. cbn [keep_segs map].
  replace (if lead <? ps_off sg then ps_off sg - lead else 0) with (ps_off sg - lead) by (case_if; reflect_bool; lia).
  change (PaintSeg (ps_off sg - lead) (ps_paint sg)) with (shift lead sg).
  set (x := shift lead sg) in *. change (ps_off sg - lead) with (ps_off x).
  destruct (size <=? ps_off x) eqn:E1; reflect_bool.
  { rewrite seg_paint_app by done. by rewrite (proj2 (Nat.leb_gt (ps_off x) i)) by lia. }
  assert (Hpush : forall kept, sorted_from 0 (rev kept ++ x :: map (shift lead) r) ->
    seg_paint (match kept with
               | k :: _ => if bool_decide (ps_paint k = ps_paint sg) then keep_segs lead size r kept else keep_segs lead size r (x :: kept)
               | [] => keep_segs lead size r [x]
               end) d i = seg_paint (rev kept ++ x :: map (shift lead) r) d i).
  { clear kept Hs. intros kept Hs.
    assert (Hp : seg_paint (keep_segs lead size r (x :: kept)) d i = seg_paint (rev kept ++ x :: map (shift lead) r) d i).
    { rewrite IH; [| |done]; simpl; by rewrite <- app_assoc. }
    destruct kept as [|k ks]; [exact Hp|]. destruct (bool_decide _) eqn:Ep; [|exact Hp]. reflect_bool. simpl in *.
    rewrite <- app_assoc in *. simpl in *. rewrite seg_paint_same_paint by done. rewrite IH; [|simpl|done].
    - simpl. by rewrite <- app_assoc.
    - rewrite <- app_assoc. simpl. rewrite cons_middle, app_assoc in Hs. apply sorted_remove in Hs. by rewrite <- app_assoc in Hs. }
  destruct kept as [|k ks]; [by apply (Hpush [])|]. destruct (ps_off k =? ps_off x) eqn:E2; [|by apply (Hpush (k :: ks))].
  reflect_bool. simpl in *. rewrite <- app_assoc in *. simpl in *. rewrite seg_paint_same_start by done.
  apply (Hpush ks). by eapply sorted_remove.
Qed.

(** ** Trimming *)

Lemma trim_split s :
  exists b e, s = b ++ trim_macro_argument s ++ e /\ Forall (fun c => macro_body_space c = true) b /\
    match trim_macro_argument s with c :: _ => macro_body_space c = false | [] => True end.
Proof.
  assert (Hl : forall s, exists b, s = b ++ ltrim s /\ Forall (fun c => macro_body_space c = true) b /\
    match ltrim s with c :: _ => macro_body_space c = false | [] => True end).
  { clear. induction s as [|c s (b & Hb & Hf & Hh)]; simpl; [by exists []|]. destruct (macro_body_space c) eqn:E.
    - exists (c :: b). simpl. split_and!; [by f_equal|by constructor|done].
    - exists []. by rewrite E. }
  unfold trim_macro_argument, rtrim. destruct (Hl s) as (b & Hs & Hb & Hh). set (l := ltrim s) in *.
  destruct (Hl (rev l)) as (e & He & Hf & _). set (t := ltrim (rev l)) in *.
  assert (Hlt : l = rev t ++ rev e) by (by rewrite <- rev_app_distr, <- He, rev_involutive).
  exists b, (rev e). split_and!; [by rewrite Hs at 1; rewrite Hlt|done|]. rewrite Hlt in Hh. by destruct (rev t).
Qed.

Lemma find_sub_lead b t e :
  Forall (fun c => macro_body_space c = true) b -> match t with c :: _ => macro_body_space c = false | [] => False end ->
  find_sub t (b ++ t ++ e) = Some (length b).
Proof.
  intros Hb Ht. induction Hb as [|c b Hc Hb IH]; simpl.
  - destruct (t ++ e) eqn:E; simpl; rewrite <- E, starts_with_app; done.
  - destruct t as [|d t]; [done|]. replace (starts_with _ _) with false; [by rewrite IH|]. symmetry.
    apply not_true_iff_false. intros Hs. apply starts_with_inv in Hs. injection Hs as -> _. congruence.
Qed.

(** A macro argument keeps the paint of every character: collected run by
    run from differently painted text and trimmed, the stretches it is handed on
    with give each character left the paint it was served under; an argument
    handed on without stretches was served under one paint throughout. *)
Theorem stretches_keep_paint p t runs :
  let '(a, arg) := collect ((p, t) :: runs) no_stretches [] in
  let '(text, stretched, out, a') := finish a arg in
  started a' = false /\ segs a' = [] /\ arg = t ++ flat_map snd runs /\ text = trim_macro_argument arg /\
  exists lead, substr arg lead (length text) = text /\
    if stretched then forall i, i < length text -> run_paints ((p, t) :: runs) !! (lead + i) = Some (seg_paint out ∅ i)
    else exists q, forall i, i < length text -> run_paints ((p, t) :: runs) !! (lead + i) = Some q.
Proof.
  cbn [collect]. set (a0 := note no_stretches (length []) p). set (arg0 := [] ++ t).
  assert (Hl : last_paint a0 = p) by (unfold a0; by rewrite note_is_note_paint).
  pose proof (collect_shows runs a0 arg0 ([] ++ replicate (length t) p) ltac:(unfold a0; by rewrite note_is_note_paint)
    (shows_more a0 [] (length t) p (note_first p) Hl) ltac:(by rewrite !length_app, length_replicate)) as Hc.
  destruct (collect runs a0 arg0) as [a arg]. destruct Hc as (Hs & Harg & Hlen). simpl in Harg.
  change (([] ++ replicate (length t) p) ++ run_paints runs) with (run_paints ((p, t) :: runs)) in *.
  set (paints := run_paints ((p, t) :: runs)) in *.
  destruct (trim_split arg) as (b & e & Hb & Hf & Hh). set (text := trim_macro_argument arg) in *.
  assert (Hsub : substr arg (length b) (length text) = text) by (unfold substr; by rewrite Hb, drop_app_length, take_app_length).
  assert (Hin : forall i, i < length text -> length b + i < length paints).
  { intros i Hi. rewrite <- Hlen. apply (f_equal length) in Hb. rewrite !length_app in Hb. lia. }
  unfold finish. destruct Hs as [H1 H2 H3 H4 H5]. unfold all_segs in *. destruct (segs a) as [|sg1 sgs] eqn:Es; cbn [is_nil] in *.
  { split_and!; try done. exists (length b). split; [done|]. exists (ps_paint (first a)). intros i Hi.
    rewrite H4 by auto. simpl. by rewrite H1. }
  assert (Hsh : sorted_from 0 (map (shift (length b)) (sg1 :: sgs))).
  { clear -H2. revert H2. generalize (sg1 :: sgs) as l. assert (H : forall n l, sorted_from n l -> sorted_from (n - length b) (map (shift (length b)) l)).
    { intros n l. revert n. induction l as [|x l IH]; intros n; simpl; [done|]. intros [? ?]. split; [lia|by apply IH]. }
    intros l Hl. by apply (H 0). }
  assert (Hpaint : forall d i, i < length text -> paints !! (length b + i) = Some (seg_paint (keep_segs (length b) (length text) (sg1 :: sgs) []) d i)).
  { intros d i Hi. rewrite keep_segs_paint by done. rewrite H4 by auto. f_equal.
    assert (Hgen : forall d, seg_paint (sg1 :: sgs) d (length b + i) = seg_paint (map (shift (length b)) (sg1 :: sgs)) d i).
    2:{ cbn [rev app]. rewrite <- Hgen. simpl. by rewrite H1. }
    clear. generalize (sg1 :: sgs) as l. induction l as [|x l IH]; intros d; simpl; [done|].
    replace (ps_off x - length b <=? i) with (ps_off x <=? length b + i); [by rewrite IH|].
    destruct (Nat.leb_spec (ps_off x) (length b + i)), (Nat.leb_spec (ps_off x - length b) i); try done; lia. }
  destruct sgs as [|sg2 sgs].
  { simpl. split_and!; try done. exists (length b). split; [done|]. exists (ps_paint sg1). intros i Hi. rewrite H4 by auto. simpl in *. by rewrite H1. }
  unfold trim_painted. fold text. destruct (is_nil text) eqn:En.
  { simpl. split_and!; try done. exists (length b). split; [done|]. exists ∅. intros i Hi. destruct text; simpl in *; [lia|done]. }
  assert (Hlead : find_sub text arg = Some (length b)) by (rewrite Hb; apply find_sub_lead; [done|by destruct text]).
  rewrite Hlead. change (default 0 (Some (length b))) with (length b). set (out := keep_segs _ _ _ _) in *. simpl. split_and!; try done.
  exists (length b). split; [done|]. destruct (1 <? length out) eqn:E1; [intros i Hi; by apply Hpaint|]. reflect_bool.
  destruct out as [|o1 [|o2 out]]; simpl in E1; [exists ∅; by apply (Hpaint ∅)| |lia].
  exists (ps_paint o1). intros i Hi. rewrite (Hpaint ∅ i Hi). simpl. destruct (ps_off o1 <=? i) eqn:Eo; [done|].
  pose proof (Hpaint {[ [] ]} i Hi) as Hd. rewrite (Hpaint ∅ i Hi) in Hd. simpl in Hd. rewrite Eo in Hd.
  apply (inj Some) in Hd. assert (He : ([] : bytes) ∈ (∅ : gset bytes)) by (rewrite Hd; by apply elem_of_singleton).
  by apply elem_of_empty in He.
Qed.
