(* ===== verification/MacroCalls.v ===== *)
(** Macro invocations in a text: the parenthesised groups the preprocessor of
    [src/src/lexer.cpp] scans ([PpLexicalShield], [PpGroupScan],
    [consume_pp_group], [pp_group_end]) with the delimiter counts of
    [src/include/spelling_delim.h], and the argument list of an invocation in a
    condition.

    [call_arguments] is their specification: a text of balanced code, literals
    and comments is cut at exactly its top-level commas and ends at its own
    closing parenthesis. *)
From S2P Require Import Prelude Source Literals Directives MacroTokens.
#[local] Open Scope nat_scope.

(** ** Delimiter depths *)

Record SpellingDelimDepth := Depth { paren : Z; square : Z; brace : Z; angle : Z; prev : ascii }.

Definition name_char (c : ascii) : bool := isalnum c || byte_eqb c "_"%char.
Definition down (n : Z) : Z := if (0 <? n)%Z then (n - 1)%Z else n.
Definition only_angle (d : SpellingDelimDepth) : bool := ((paren d =? 0) && (square d =? 0) && (brace d =? 0))%Z.

Definition update (d : SpellingDelimDepth) (c : ascii) : SpellingDelimDepth :=
  let '(Depth p s b a pv) := d in
  let pv' := if byte_eqb c c_sp then pv else c in
  if byte_eqb c "("%char then Depth (p + 1) s b a pv'
  else if byte_eqb c ")"%char then Depth (down p) s b a pv'
  else if byte_eqb c "["%char then Depth p (s + 1) b a pv'
  else if byte_eqb c "]"%char then Depth p (down s) b a pv'
  else if byte_eqb c "{"%char then Depth p s (b + 1) a pv'
  else if byte_eqb c "}"%char then Depth p s (down b) a pv'
  else if byte_eqb c "<"%char then
    Depth p s b (if only_angle d && (byte_eqb pv Ascii.zero || name_char pv) then a + 1 else a)%Z pv'
  else if byte_eqb c ">"%char then Depth p s b (if only_angle d then down a else a) pv'
  else Depth p s b a pv'.

(** ** What is code *)

Inductive Mode := Code | InString | InCharacter | LineComment | BlockComment | BlockCommentClose.
Record PpLexicalShield := Shield { mode : Mode; escaped : bool }.

(** [structural]: whether [c], with [next] after it, is a character of code. *)
Definition structural (sh : PpLexicalShield) (c next : ascii) : bool * PpLexicalShield :=
  match mode sh with
  | LineComment => (false, if byte_eqb c c_nl || byte_eqb c c_cr then Shield Code (escaped sh) else sh)
  | BlockComment => (false, if byte_eqb c "*"%char && byte_eqb next "/"%char then Shield BlockCommentClose (escaped sh) else sh)
  | BlockCommentClose => (false, Shield Code (escaped sh))
  | InString | InCharacter =>
      if escaped sh then (false, Shield (mode sh) false)
      else if byte_eqb c c_bslash then (false, Shield (mode sh) true)
      else if match mode sh with InString => byte_eqb c c_dquote | _ => byte_eqb c c_squote end then (false, Shield Code false)
      else (false, sh)
  | Code =>
      if byte_eqb c c_dquote then (false, Shield InString (escaped sh))
      else if byte_eqb c c_squote then (false, Shield InCharacter (escaped sh))
      else if byte_eqb c "/"%char && byte_eqb next "/"%char then (false, Shield LineComment (escaped sh))
      else if byte_eqb c "/"%char && byte_eqb next "*"%char then (false, Shield BlockComment (escaped sh))
      else (true, sh)
  end.

Record PpGroupScan := Scan { depth : SpellingDelimDepth; shield : PpLexicalShield; started : bool; finished : bool }.
Definition new_scan : PpGroupScan := Scan (Depth 0 0 0 0 Ascii.zero) (Shield Code false) false false.

Definition step (g : PpGroupScan) (c next : ascii) : bool * PpGroupScan :=
  let '(s, sh) := structural (shield g) c next in
  if negb s then (false, Scan (depth g) sh (started g) (finished g))
  else
    let before := paren (depth g) in
    let d := update (depth g) c in
    let st := started g || (byte_eqb c "("%char && (paren d =? 1)%Z) in
    (true, Scan d sh st (finished g || (st && byte_eqb c ")"%char && (before =? 1)%Z && (paren d =? 0)%Z))).

Definition at_argument_level (g : PpGroupScan) : bool := started g && (paren (depth g) =? 1)%Z.
Definition closed (g : PpGroupScan) : bool := finished g.

(** ** Groups *)

(** [text[i + 1]], NUL after the end. *)
Definition next_char (t : bytes) : ascii := match t with c :: _ => c | [] => Ascii.zero end.

(** The loop of [pp_group_end]: the characters up to and with the closing one. *)
Fixpoint group_end (g : PpGroupScan) (t : bytes) : option nat :=
  match t with
  | [] => None
  | c :: r => let '(_, g) := step g c (next_char r) in if closed g then Some 1 else S <$> group_end g r
  end.

Definition pp_group_end (text : bytes) (open : nat) : option nat :=
  if (length text <=? open) || negb (byte_eqb (at_ text open) "("%char) then None
  else (fun n => open + n) <$> group_end new_scan (drop open text).

(** [consume_pp_group]: what was copied, and the source after it. *)
Definition consume_body (st : PpGroupScan * bytes * source) : PpGroupScan * bytes * source + bool * bytes * source :=
  let '(g, copy, s) := st in
  if negb (good s) then inr (false, copy, s)
  else
    let '(c, s) := get s in
    let '(next, s) := if good s then peek s else (0%Z, s) in
    let '(_, g) := step g (to_byte c) (to_byte next) in
    let copy := copy ++ [to_byte c] in
    if closed g then inr (true, copy, s) else inl (g, copy, s).

Definition consume_pp_group (s : source) : bool * bytes * source :=
  if negb (good s) then (false, [], s)
  else
    let '(c, s) := peek s in
    if negb (c =? code "("%char)%Z then (false, [], s)
    else default (false, [], s) (loop (S (unread s)) consume_body (new_scan, [], s)).

(** The argument list of [expandIfMacros], from after the opening parenthesis:
    whether it was closed, the characters read, the arguments so far and the
    one being read. *)
Fixpoint collect_args (g : PpGroupScan) (t : bytes) (margs : list bytes) (marg : bytes) : bool * nat * list bytes * bytes :=
  match t with
  | [] => (false, 0, margs, marg)
  | c :: r =>
      let '(s, g) := step g c (next_char r) in
      if s && closed g then (true, 1, margs, marg)
      else
        let '(fin, n, margs, marg) :=
          if s && byte_eqb c ","%char && at_argument_level g then collect_args g r (margs ++ [marg]) []
          else collect_args g r margs (marg ++ [c]) in
        (fin, S n, margs, marg)
  end.

(** The group that opens at offset [open]: its arguments, untrimmed, and the
    offset after it. *)
Definition call_args (expr : bytes) (open : nat) : list bytes * nat :=
  let j := S open in
  let '(_, g) := step new_scan "("%char (next_char (drop j expr)) in
  let '(_, n, margs, marg) := collect_args g (drop j expr) [] [] in
  (if negb (is_nil marg) || negb (is_nil margs) then margs ++ [marg] else margs, j + n).

Example call_args_ex :
  call_args (B "f(a, g(b,c)[1,2], ',', /*,)*/ x) + 1") 1 = ([B "a"; B " g(b,c)[1"; B "2]"; B " ','"; B " /*,)*/ x"], 32).
Proof. reflexivity. Qed.

(** ** The text of a call

    Balanced code: any character but the parentheses and quotes, groups, and
    opaque stretches (literals and comments).  Without [commas], no comma stands
    outside a group. *)

Inductive quoted (q : ascii) : bytes -> Prop :=
| q_nil : quoted q []
| q_plain c s : c <> q -> c <> c_bslash -> quoted q s -> quoted q (c :: s)
| q_escape c s : quoted q s -> quoted q (c_bslash :: c :: s).

(** A line comment goes with its line's end; a block comment closes at the first
    star and slash, the opening star included. *)
Inductive opaque : bytes -> Prop :=
| op_literal q s : q = c_dquote \/ q = c_squote -> quoted q s -> opaque (q :: s ++ [q])
| op_line s e : Forall (fun c => line_end_char c = false) s -> line_end_char e = true -> opaque (B "//" ++ s ++ [e])
| op_block s : begins (byte_eqb "*"%char) s -> find_sub (B "*/") s = Some (length s - 2) -> opaque ("/"%char :: s).

Definition comment_start (c : ascii) : bool := byte_eqb c "/"%char || byte_eqb c "*"%char.

Inductive code_text (commas : bool) : bytes -> Prop :=
| ct_nil : code_text commas []
| ct_plain c s :
    ~ c ∈ ["("%char; ")"%char; c_dquote; c_squote] -> (c = "/"%char -> ~ begins comment_start s) ->
    (commas = false -> c <> ","%char) -> code_text commas s -> code_text commas (c :: s)
| ct_group b s : code_text true b -> code_text commas s -> code_text commas ("("%char :: b ++ ")"%char :: s)
| ct_opaque o s : opaque o -> code_text commas s -> code_text commas (o ++ s).

(** ** The scan of it *)

(** In code, [n] parentheses deep in an open group. *)
Definition in_code (n : Z) (g : PpGroupScan) : Prop :=
  shield g = Shield Code false /\ started g = true /\ finished g = false /\ paren (depth g) = n.

(** Reading [x] appends it to the argument and ends in code, [n] deep. *)
Definition passes (n : Z) (x t : bytes) (g : PpGroupScan) : Prop :=
  exists g', in_code n g' /\ forall margs marg,
    collect_args g (x ++ t) margs marg =
    let '(fin, k, ms, m) := collect_args g' t margs (marg ++ x) in (fin, length x + k, ms, m).

Lemma passes_nil n t g : in_code n g -> passes n [] t g.
Proof. intros Hg. exists g. split; [done|]. intros margs marg. rewrite app_nil_r. simpl. by destruct (collect_args _ _ _ _) as [[[? ?] ?] ?]. Qed.

Lemma passes_app n n' x y t g : passes n x (y ++ t) g -> (forall g', in_code n g' -> passes n' y t g') -> passes n' (x ++ y) t g.
Proof.
  intros (g1 & H1 & Hx) Hy. destruct (Hy g1 H1) as (g2 & H2 & Hy2). exists g2. split; [done|]. intros margs marg.
  rewrite <- app_assoc, Hx, Hy2, <- app_assoc. destruct (collect_args g2 _ _ _) as [[[? ?] ?] ?]. by rewrite length_app, Nat.add_assoc.
Qed.

(** A turn that neither closes the group nor ends an argument. *)
Lemma collect_turn g c t margs marg g' s :
  step g c (next_char t) = (s, g') -> s && closed g' = false -> s && byte_eqb c ","%char && at_argument_level g' = false ->
  collect_args g (c :: t) margs marg = let '(fin, k, ms, m) := collect_args g' t margs (marg ++ [c]) in (fin, S k, ms, m).
Proof. intros Hst Hc Ha. cbn [collect_args]. by rewrite Hst, Hc, Ha. Qed.

Lemma passes_one n c t g g' s :
  step g c (next_char t) = (s, g') -> s && closed g' = false -> s && byte_eqb c ","%char && at_argument_level g' = false ->
  in_code n g' -> passes n [c] t g.
Proof.
  intros Hst Hc Ha Hg. exists g'. split; [done|]. intros margs marg. cbn [app]. by erewrite collect_turn.
Qed.

(** Characters shielded one after another. *)
Lemma shielded_turn g c t margs marg sh :
  structural (shield g) c (next_char t) = (false, sh) ->
  collect_args g (c :: t) margs marg =
  let '(fin, k, ms, m) := collect_args (Scan (depth g) sh (started g) (finished g)) t margs (marg ++ [c]) in (fin, S k, ms, m).
Proof. intros Hs. eapply (collect_turn _ _ _ _ _ _ false); [|done|done]. unfold step. by rewrite Hs. Qed.

(** [x] is shielded from the state [sh] on, and the next character is code. *)
Definition shields (sh : PpLexicalShield) (x t : bytes) : Prop :=
  forall g margs marg, shield g = sh ->
    collect_args g (x ++ t) margs marg =
    let '(fin, k, ms, m) := collect_args (Scan (depth g) (Shield Code false) (started g) (finished g)) t margs (marg ++ x) in
    (fin, length x + k, ms, m).

Lemma shields_cons sh c x t sh' :
  structural sh c (next_char (x ++ t)) = (false, sh') -> shields sh' x t -> shields sh (c :: x) t.
Proof.
  intros Hs Hx g margs marg Hg. cbn [app]. erewrite shielded_turn by (by rewrite Hg).
  rewrite (Hx (Scan _ sh' _ _)) by done. simpl. rewrite <- app_assoc. by destruct (collect_args _ _ _ _) as [[[? ?] ?] ?].
Qed.

Lemma shields_nil t : shields (Shield Code false) [] t.
Proof.
  intros [d sh st f] margs marg Hg. simpl in *. subst sh. rewrite app_nil_r. by destruct (collect_args _ _ _ _) as [[[? ?] ?] ?].
Qed.

Lemma quoted_shields q s t :
  q = c_dquote \/ q = c_squote -> quoted q s ->
  shields (Shield (if byte_eqb q c_dquote then InString else InCharacter) false) (s ++ [q]) t.
Proof.
  intros Hq Hs. set (sh := Shield _ false).
  assert (Hmode : forall c next, structural sh c next =
    if byte_eqb c c_bslash then (false, Shield (mode sh) true) else if byte_eqb c q then (false, Shield Code false) else (false, sh)).
  { intros c next. unfold structural, sh. by destruct Hq as [-> | ->]. }
  assert (Hesc : forall c next, structural (Shield (mode sh) true) c next = (false, sh)).
  { intros c next. unfold structural, sh. by destruct Hq as [-> | ->]. }
  induction Hs as [|c s H1 H2 Hs IH|c s Hs IH]; cbn [app].
  - eapply shields_cons; [rewrite Hmode|apply shields_nil].
    rewrite byte_eqb_refl. by destruct Hq as [-> | ->].
  - eapply shields_cons; [|exact IH]. rewrite Hmode. by rewrite !(proj2 (byte_eqb_neq _ _)) by done.
  - eapply shields_cons; [by rewrite Hmode|]. eapply shields_cons; [apply Hesc|exact IH].
Qed.

Lemma line_shields s e t :
  Forall (fun c => line_end_char c = false) s -> line_end_char e = true -> shields (Shield LineComment false) (s ++ [e]) t.
Proof.
  intros Hs He. unfold line_end_char in *. induction Hs as [|c s Hc Hs IH]; cbn [app].
  - eapply shields_cons; [|apply shields_nil]. unfold structural. cbn [mode]. by rewrite He.
  - eapply shields_cons; [|exact IH]. unfold structural. cbn [mode]. by rewrite Hc.
Qed.

Lemma block_shields s t : find_sub (B "*/") s = Some (length s - 2) -> shields (Shield BlockComment false) s t.
Proof.
  induction s as [|c s IH]; [done|]. intros Hf.
  assert (Hpos : 2 <= length (c :: s)).
  { destruct (find_sub_Some _ _ _ Hf) as (pre & post & -> & _ & _). rewrite !length_app. simpl. lia. }
  change (find_sub (B "*/") (c :: s)) with (if starts_with (c :: s) (B "*/") then Some 0 else S <$> find_sub (B "*/") s) in Hf.
  destruct (starts_with (c :: s) (B "*/")) eqn:E.
  - injection Hf as Hf. destruct s as [|d [|e s]]; simpl in *; try lia. apply starts_with_inv in E. injection E as -> ->.
    eapply shields_cons; [reflexivity|]. eapply shields_cons; [reflexivity|apply shields_nil].
  - apply fmap_Some in Hf as (k & Hf & Hk). eapply shields_cons; [|apply IH; rewrite Hf; f_equal; simpl in *; lia].
    unfold structural. cbn [mode escaped]. destruct (byte_eqb c "*"%char && byte_eqb (next_char (s ++ t)) "/"%char) eqn:Eb; [|done].
    reflect_bool. subst c. destruct s as [|d s]; [done|]. simpl in *. subst d.
    pose proof (starts_with_app (B "*/") s : starts_with ("*"%char :: "/"%char :: s) (B "*/") = true). congruence.
Qed.

Lemma opaque_passes n o t g : opaque o -> in_code n g -> passes n o t g.
Proof.
  intros Ho (Hsh & Hst & Hf & Hp). assert (Hs : shields (Shield Code false) o t).
  { destruct Ho as [q s Hq Hs|s e Hs He|s Hb Hf'].
    - eapply shields_cons; [|by apply quoted_shields]. by destruct Hq as [-> | ->].
    - simpl. eapply shields_cons; [reflexivity|]. eapply shields_cons; [|by apply line_shields]. reflexivity.
    - eapply shields_cons; [|by apply block_shields]. destruct s as [|c s]; [done|]. simpl in Hb. reflect_bool. by subst c. }
  exists (Scan (depth g) (Shield Code false) (started g) (finished g)). split; [done|]. intros margs marg. by rewrite (Hs g).
Qed.

(** Code leaves the scan where it found it. *)
Lemma update_paren d c : c <> "("%char -> c <> ")"%char -> paren (update d c) = paren d.
Proof.
  intros H1 H2. destruct d as [p s b a pv]. unfold update. rewrite !(proj2 (byte_eqb_neq c _)) by done.
  by repeat case_if.
Qed.

Lemma step_code n g c next :
  in_code n g -> c <> c_dquote -> c <> c_squote -> (c = "/"%char -> comment_start next = false) ->
  exists g', step g c next = (true, g') /\ shield g' = Shield Code false /\ started g' = true /\ depth g' = update (depth g) c /\
    finished g' = (byte_eqb c ")"%char && (n =? 1)%Z && (paren (depth g') =? 0)%Z).
Proof.
  intros (Hsh & Hst & Hf & Hp) H1 H2 H3. unfold step, structural. rewrite Hsh. cbn [mode].
  rewrite !(proj2 (byte_eqb_neq c _)) by done.
  assert (Hc : byte_eqb c "/"%char && byte_eqb next "/"%char = false /\ byte_eqb c "/"%char && byte_eqb next "*"%char = false).
  { destruct (byte_eqb c "/"%char) eqn:E; [|done]. reflect_bool. specialize (H3 E). unfold comment_start in H3. reflect_bool.
    split; simpl; by apply byte_eqb_neq. }
  destruct Hc as [-> ->]. eexists. split; [reflexivity|]. simpl. rewrite Hst, Hf, Hp. split_and!; try done.
Qed.

Lemma next_char_app s t : ~ begins comment_start s -> ~ begins comment_start t -> comment_start (next_char (s ++ t)) = false.
Proof.
  intros Hs Ht. destruct s as [|c s]; simpl in *; [|by destruct (comment_start c)].
  destruct t as [|c t]; simpl in *; [done|by destruct (comment_start c)].
Qed.

(** A parenthesis inside the group. *)
Lemma open_passes n t g : in_code n g -> (1 <= n)%Z -> passes (n + 1) ["("%char] t g.
Proof.
  intros Hg Hn. destruct (step_code n g "("%char (next_char t) Hg ltac:(done) ltac:(done) ltac:(done)) as (g1 & Hst & Hsh & Hs & Hd & Hf).
  apply (passes_one (n + 1) "("%char t g g1 true Hst); [by unfold closed; rewrite Hf|done|]. split_and!; try done.
  rewrite Hd. destruct Hg as (_ & _ & _ & <-). by destruct (depth g).
Qed.

Lemma close_passes n t g : in_code (n + 1) g -> (1 <= n)%Z -> passes n [")"%char] t g.
Proof.
  intros Hg Hn. destruct (step_code (n + 1) g ")"%char (next_char t) Hg ltac:(done) ltac:(done) ltac:(done)) as (g1 & Hst & Hsh & Hs & Hd & Hf).
  rewrite (proj2 (Z.eqb_neq (n + 1) 1)) in Hf by lia. simpl in Hf.
  apply (passes_one n ")"%char t g g1 true Hst); [by unfold closed; rewrite Hf|done|]. split_and!; try done.
  rewrite Hd. destruct Hg as (_ & _ & _ & Hp). destruct (depth g) as [p ? ? ? ?]. simpl in *. subst p. unfold down.
  rewrite (proj2 (Z.ltb_lt _ _)) by lia. lia.
Qed.

Lemma plain_passes commas n c t g :
  in_code n g -> (1 <= n)%Z -> (commas = true -> 2 <= n)%Z -> ~ c ∈ ["("%char; ")"%char; c_dquote; c_squote] ->
  (c = "/"%char -> comment_start (next_char t) = false) -> (commas = false -> c <> ","%char) -> passes n [c] t g.
Proof.
  intros Hg Hn Hcn Hc Hsl Hcm. rewrite !not_elem_of_cons in Hc. destruct Hc as (H1 & H2 & H3 & H4 & _).
  destruct (step_code n g c (next_char t) Hg H3 H4 Hsl) as (g' & Hst & Hsh & Hs' & Hd & Hf).
  rewrite (proj2 (byte_eqb_neq c ")"%char)) in Hf by done. simpl in Hf.
  assert (Hp : paren (depth g') = n) by (rewrite Hd, update_paren by done; apply Hg).
  apply (passes_one n c t g g' true Hst); [by unfold closed; rewrite Hf| |by split_and!].
  simpl. unfold at_argument_level. rewrite Hs', Hp. destruct commas.
  - specialize (Hcn eq_refl). rewrite (proj2 (Z.eqb_neq n 1)) by lia. by rewrite andb_false_r.
  - by rewrite (proj2 (byte_eqb_neq c ","%char)) by auto.
Qed.

Lemma code_passes commas x n t g :
  code_text commas x -> in_code n g -> (1 <= n)%Z -> (commas = true -> 2 <= n)%Z -> ~ begins comment_start t -> passes n x t g.
Proof.
  intros Hx. revert n t g. induction Hx as [|commas c s Hc Hsl Hcm Hs IH|commas b s Hb IHb Hs IHs|commas o s Ho Hs IH]; intros n t g Hg Hn Hcn Ht.
  - by apply passes_nil.
  - change (c :: s) with ([c] ++ s). apply (passes_app n); [|intros g' Hg'; by apply IH].
    apply (plain_passes commas); try done. intros Hc'. by apply next_char_app; [apply Hsl|].
  - change ("("%char :: b ++ ")"%char :: s) with (["("%char] ++ b ++ [")"%char] ++ s).
    apply (passes_app (n + 1)); [by apply open_passes|]. intros g1 Hg1.
    apply (passes_app (n + 1)); [apply IHb; try done; lia|]. intros g2 Hg2.
    apply (passes_app n); [by apply close_passes|]. intros g3 Hg3. by apply IHs.
  - apply (passes_app n); [by apply opaque_passes|]. intros g' Hg'. by apply IH.
Qed.

(** ** Arguments *)

Definition comma_join (args : list bytes) : bytes :=
  match args with [] => [] | a :: r => a ++ flat_map (fun b => ","%char :: b) r end.

Lemma collect_close g t margs marg :
  in_code 1 g -> collect_args g (")"%char :: t) margs marg = (true, 1, margs, marg).
Proof.
  intros Hg. destruct (step_code 1 g ")"%char (next_char t) Hg ltac:(done) ltac:(done) ltac:(done)) as (g' & Hst & _ & _ & Hd & Hf).
  cbn [collect_args]. rewrite Hst. assert (Hp : paren (depth g') = 0%Z).
  { rewrite Hd. destruct Hg as (_ & _ & _ & Hp). destruct (depth g). simpl in *. by subst. }
  unfold closed. by rewrite Hf, Hp.
Qed.

Lemma collect_comma g t margs marg :
  in_code 1 g -> exists g', in_code 1 g' /\ collect_args g (","%char :: t) margs marg =
    let '(fin, k, ms, m) := collect_args g' t (margs ++ [marg]) [] in (fin, S k, ms, m).
Proof.
  intros Hg. destruct (step_code 1 g ","%char (next_char t) Hg ltac:(done) ltac:(done) ltac:(done)) as (g' & Hst & Hsh & Hs & Hd & Hf).
  assert (Hp : paren (depth g') = 1%Z) by (rewrite Hd, update_paren by done; apply Hg).
  exists g'. split; [by split_and!|]. cbn [collect_args]. rewrite Hst. unfold closed, at_argument_level. rewrite Hf, Hs, Hp. simpl.
  by destruct (collect_args _ _ _ _) as [[[? ?] ?] ?].
Qed.

Lemma collect_list a r t g margs :
  Forall (code_text false) (a :: r) -> in_code 1 g ->
  exists ms m, collect_args g (comma_join (a :: r) ++ ")"%char :: t) margs [] = (true, S (length (comma_join (a :: r))), ms, m)
    /\ ms ++ [m] = margs ++ a :: r /\ length ms = length margs + length r.
Proof.
  revert a g margs. induction r as [|b r IH]; intros a g margs Hf Hg; apply Forall_cons_1 in Hf as [Ha Hf].
  - destruct (code_passes false a 1 (")"%char :: t) g Ha Hg ltac:(lia) ltac:(done) ltac:(done)) as (g1 & Hg1 & H1).
    exists margs, a. simpl. rewrite app_nil_r, H1, collect_close by done. simpl. split_and!; [|done|lia]. do 3 f_equal. lia.
  - destruct (code_passes false a 1 (","%char :: comma_join (b :: r) ++ ")"%char :: t) g Ha Hg ltac:(lia) ltac:(done) ltac:(done)) as (g1 & Hg1 & H1).
    destruct (collect_comma g1 (comma_join (b :: r) ++ ")"%char :: t) margs a Hg1) as (g2 & Hg2 & H2).
    destruct (IH b g2 (margs ++ [a]) Hf Hg2) as (ms & m & H3 & H4 & H5). exists ms, m.
    assert (Hj : comma_join (a :: b :: r) = a ++ ","%char :: comma_join (b :: r)) by done.
    rewrite Hj, <- app_assoc. cbn [app]. rewrite H1. cbn [app]. rewrite H2, H3. split_and!.
    + do 3 f_equal. rewrite length_app. simpl. lia.
    + by rewrite H4, <- app_assoc.
    + rewrite H5, length_app. simpl. lia.
Qed.

(** The group's end is where its arguments end. *)
Lemma group_end_collect g t margs marg :
  finished g = false ->
  let '(fin, n, _, _) := collect_args g t margs marg in group_end g t = if fin then Some n else None.
Proof.
  revert g margs marg. induction t as [|c t IH]; intros g margs marg Hf; [done|]. cbn [collect_args group_end].
  destruct (step g c (next_char t)) as [s g'] eqn:Hst.
  assert (Hs : s = false -> closed g' = false).
  { intros ->. unfold step in Hst. destruct (structural _ _ _) as [[] sh]; [done|]. by injection Hst as <-. }
  destruct (closed g') eqn:Hc; [by destruct s; [|specialize (Hs eq_refl)]|]. rewrite andb_false_r.
  destruct (_ && _).
  - specialize (IH g' (margs ++ [marg]) [] Hc). destruct (collect_args _ _ _ _) as [[[[] ?] ?] ?]; by rewrite IH.
  - specialize (IH g' margs (marg ++ [c]) Hc). destruct (collect_args _ _ _ _) as [[[[] ?] ?] ?]; by rewrite IH.
Qed.

(** Reading the group from a source. *)
Lemma consume_reads t g copy s n fuel :
  steady (_buf s) -> ahead s = t -> group_end g t = Some n -> length t < fuel ->
  exists s', loop fuel consume_body (g, copy, s) = Some (true, copy ++ take n t, s') /\ steady (_buf s') /\ ahead s' = drop n t.
Proof.
  revert g copy s n fuel. induction t as [|c t IH]; intros g copy s n fuel Hs Ha Hg Hf; [done|].
  destruct fuel as [|fuel]; [simpl in Hf; lia|]. cbn [loop group_end] in *. unfold consume_body at 1.
  rewrite steady_ahead, Ha by done. cbn [is_nil negb]. destruct (source_get s c t Hs Ha) as (Hc & Hs1 & Ha1 & _).
  destruct (get s) as [z s1]. simpl in Hc, Hs1, Ha1. subst z.
  assert (Hp : exists z s2, (if good s1 then peek s1 else (0%Z, s1)) = (z, s2) /\ to_byte z = next_char t /\ steady (_buf s2) /\ ahead s2 = t).
  { rewrite steady_ahead by done. destruct t as [|d t]; rewrite Ha1; simpl; [by exists 0%Z, s1|].
    destruct (source_peek s1 Hs1) as (H1 & H2 & _ & H4). rewrite Ha1 in *. destruct (peek s1) as [z s2]. simpl in *. subst z.
    exists (code d), s2. by rewrite to_byte_code. }
  destruct Hp as (z & s2 & -> & Hz & Hs2 & Ha2). rewrite Hz, !to_byte_code. destruct (step g c (next_char t)) as [st g'].
  destruct (closed g').
  - injection Hg as <-. exists s2. simpl. by rewrite drop_0.
  - apply fmap_Some in Hg as (k & Hk & ->). destruct (IH g' (copy ++ [c]) s2 k fuel Hs2 Ha2 Hk ltac:(simpl in *; lia)) as (s' & H & H').
    exists s'. simpl. by rewrite H, <- app_assoc.
Qed.

(** C21: A macro call's argument list is what C11 6.10.3 says: for arguments that
    are balanced code with literals and comments, the scan cuts at the top-level
    commas and nowhere else, ends at the group's own parenthesis, and the three
    scans (arguments, the group's end in a text, the group read from a source)
    agree on where that is. *)
Theorem call_arguments expr open args rest :
  drop open expr = "("%char :: comma_join args ++ ")"%char :: rest -> args <> [] -> Forall (code_text false) args ->
  call_args expr open = ((if bool_decide (args = [ [] ]) then [] else args), open + 2 + length (comma_join args)) /\
  pp_group_end expr open = Some (open + 2 + length (comma_join args)) /\
  forall s, steady (_buf s) -> ahead s = "("%char :: comma_join args ++ ")"%char :: rest ->
    exists s', consume_pp_group s = (true, "("%char :: comma_join args ++ [")"%char], s') /\ ahead s' = rest.
Proof.
  intros Hd Hn Hf. set (t := comma_join args ++ ")"%char :: rest) in *.
  assert (Hst : exists g, step new_scan "("%char (next_char t) = (true, g) /\ in_code 1 g) by (by eexists).
  destruct Hst as (g & Hst & Hg). destruct args as [|a r]; [done|].
  destruct (collect_list a r rest g [] Hf Hg) as (ms & m & Hc & Hms & Hlen). fold t in Hc. simpl in Hms, Hlen.
  assert (Hge : group_end new_scan ("("%char :: t) = Some (S (S (length (comma_join (a :: r)))))).
  { cbn [group_end]. rewrite Hst. destruct Hg as (_ & _ & Hfin & _). unfold closed. rewrite Hfin.
    pose proof (group_end_collect g t [] [] Hfin) as He. rewrite Hc in He. by rewrite He. }
  assert (Hop : open < length expr).
  { apply not_ge. intros Hge'. by rewrite drop_ge in Hd by lia. }
  split_and!.
  - unfold call_args. assert (Hdt : drop (S open) expr = t) by (replace (S open) with (open + 1) by lia; by rewrite <- drop_drop, Hd).
    rewrite Hdt, Hst, Hc. f_equal; [|lia]. case_bool_decide as He.
    + injection He as -> ->. destruct ms as [|? [|]]; [|done..]. by injection Hms as ->.
    + rewrite Hms. destruct ms as [|x ms]; [|by rewrite orb_true_r]. destruct m as [|c m]; [|done]. destruct r; [|done]. by injection Hms as <-.
  - unfold pp_group_end. rewrite (proj2 (Nat.leb_gt _ _)) by lia. rewrite (drop_at _ _ Hop) in Hd. injection Hd as Hat Hdt.
    rewrite Hat. simpl. rewrite (drop_at _ _ Hop), Hat, Hdt. rewrite Hge. simpl. f_equal. lia.
  - intros s Hs Ha. unfold consume_pp_group. rewrite steady_ahead, Ha by done. cbn [is_nil negb].
    destruct (source_peek s Hs) as (H1 & H2 & _ & H4). rewrite Ha in H2, H4. destruct (peek s) as [z s1]. simpl in H1, H2, H4. subst z.
    rewrite Z.eqb_refl. cbn [negb].
    destruct (consume_reads _ new_scan [] s1 _ (S (unread s1)) H1 H2 Hge) as (s' & Hl & _ & Ha').
    { pose proof (unread_ahead s1) as Hu. rewrite H2 in Hu. lia. }
    rewrite Hl. exists s'. rewrite Ha'. unfold t. cbn [take drop]. rewrite drop_past, take_past. done.
Qed.

(** The call of [call_args_ex]: a nested call and a parenthesised comma inside
    the arguments, a character constant that is a comma. *)
Lemma call_arguments_witness :
  call_args (B "f(a, g(b,c), ',') + 1") 1 = ([B "a"; B " g(b,c)"; B " ','"], 17) /\
  pp_group_end (B "f(a, g(b,c), ',') + 1") 1 = Some 17.
Proof.
  assert (H : drop 1 (B "f(a, g(b,c), ',') + 1") = "("%char :: comma_join [B "a"; B " g(b,c)"; B " ','"] ++ ")"%char :: B " + 1") by reflexivity.
  destruct (call_arguments _ _ _ _ H) as (H1 & H2 & _).
  - discriminate.
  - assert (Hp : forall b (c : ascii) s, ~ c ∈ ["("%char; ")"%char; c_dquote; c_squote] -> c <> "/"%char ->
      (b = false -> c <> ","%char) -> code_text b s -> code_text b (c :: s)) by (intros; by apply ct_plain).
    constructor; [|constructor; [|constructor; [|constructor]]].
    + apply Hp; [set_solver|done|done|constructor].
    + do 2 (apply Hp; [set_solver|done|done|]). apply (ct_group false (B "b,c") []); [|constructor].
      do 3 (apply Hp; [set_solver|done|done|]). constructor.
    + apply Hp; [set_solver|done|done|]. apply (ct_opaque false (c_squote :: B "," ++ [c_squote]) []); [|constructor].
      apply op_literal; [by right|]. by apply q_plain; [..|constructor].
  - split; [exact H1|exact H2].
Defined.

(** *** What the model shows *)

(** A digit separator in an argument, [(1'000, 2)], opens a character constant
    that nothing closes, and the group has no end. *)
Example digit_separator_never_closes : pp_group_end (B "(1'000, 2)") 0 = None.
Proof. reflexivity. Qed.

(** [/*/] is read as a whole comment: [(/*/)] closes, in C the comment goes on. *)
Example slash_star_slash_closes : pp_group_end (B "(/*/)") 0 = Some 5.
Proof. reflexivity. Qed.
