(* ===== verification/IfExpand.v ===== *)
(** Macro expansion in conditions: [expandIfMacros] of [src/src/lexer.cpp] over
    the macro tables, the predefined macros' texts and the [__has_*] operators'
    operand, and with them the tables' side of [IfEval]'s interface [IfMacros].

    [expandIfMacros] calls itself on the arguments of an invocation; [fuel]
    bounds the depth of those calls, and [None] is the recursion that has not
    come back.  [condition_with_macros] joins it with the evaluator. *)
From stdpp Require Import gmap.
From S2P Require Import Prelude Numbers Source Literals HostPath IfEval MacroTokens MacroExpand MacroArgs MacroCalls.
#[local] Open Scope nat_scope.

(** ** The tables *)

Record tables := Tables { define_map : gmap bytes bytes; macro_map : gmap bytes MacroDef }.

(** [set_macro]: one name is object-like, function-like or undefined. *)
Definition set_macro (T : tables) (name : bytes) (object : option bytes) (function : option MacroDef) : tables :=
  match object, function with
  | Some v, _ => Tables (<[name := v]> (define_map T)) (delete name (macro_map T))
  | None, Some m => Tables (delete name (define_map T)) (<[name := m]> (macro_map T))
  | None, None => Tables (delete name (define_map T)) (delete name (macro_map T))
  end.

(** What the predefined macros read: the source's line and name ([NULL] is
    [None]), and the texts made from the clock. *)
Record translation := Translation {
  tr_line : Z;
  tr_fname : option bytes;
  translation_date_text : bytes;
  translation_time_text : bytes;
  source_timestamp_text : bytes
}.

Section Expansion.
Context (win32 : bool) (E : translation) (T : tables).

Definition builtin_macro_text (name : bytes) : option bytes :=
  if negb (byte_eqb (at_ name 0) "_"%char && byte_eqb (at_ name 1) "_"%char) then None
  else if bytes_eqb name (B "__LINE__") then Some (to_string (tr_line E))
  else if bytes_eqb name (B "__TIMESTAMP__") then Some (source_timestamp_text E)
  else if bytes_eqb name (B "__DATE__") then Some (translation_date_text E)
  else if bytes_eqb name (B "__TIME__") then Some (translation_time_text E)
  else if negb (bytes_eqb name (B "__FILE__") || bytes_eqb name (B "__FILE_NAME__")) then None
  else
    let path := default (B "<unknown>") (tr_fname E) in
    let path := if bytes_eqb name (B "__FILE_NAME__") then host_path_basename win32 path else path in
    Some (c_dquote :: flat_map (fun c => if byte_eqb c c_bslash || byte_eqb c c_dquote then [c_bslash; c] else [c]) path ++ [c_dquote]).

Definition has_query_operator_implemented (op : bytes) : bool :=
  existsb (bytes_eqb op) [B "__has_builtin"; B "__has_attribute"; B "__has_include"; B "__has_include_next"].

Definition macro_name_defined (name : bytes) : bool :=
  bool_decide (is_Some (define_map T !! name)) || bool_decide (is_Some (macro_map T !! name))
  || has_query_operator_implemented name || bool_decide (is_Some (builtin_macro_text name)).

(** ** One pass over the expression *)

Definition is_has_op (word : bytes) : bool := (6 <? length word) && starts_with word (B "__has_").

(** The offset of the parenthesis that follows, white space aside. *)
Definition paren_after (expr : bytes) (r : list ReplacementToken) : option nat :=
  match drop (space_run r) r with
  | g :: _ => if bool_decide (kind g = rtPunct) && bytes_eqb (macro_token_text expr g) (B "(") then Some (begin g) else None
  | [] => None
  end.

(** [while ( ... tokens[ti].begin < end ) ++ti;] *)
Fixpoint skip_to (e : nat) (ts : list ReplacementToken) : list ReplacementToken :=
  match ts with t :: r => if begin t <? e then skip_to e r else ts | [] => [] end.

(** The parameter an argument is for; [None] is the empty name. *)
Definition arg_param (m : MacroDef) (ai : nat) : option bytes :=
  if ai <? macro_fixed_param_count m then params m !! ai
  else if variadic m then Some (if is_nil (variadic_param m) then va_args else variadic_param m) else None.

Section Pass.
Context (rec : bytes -> option bytes) (expr : bytes).

Fixpoint expand_args (m : MacroDef) (ai : nat) (margs : list bytes) : option (list bytes) :=
  match margs with
  | [] => Some []
  | a :: r =>
      let used := match arg_param m ai with Some p => negb (is_nil p) && macro_param_has_expanded_use m p | None => false end in
      a' ← (if used then rec a else Some a);
      r' ← expand_args m (S ai) r;
      Some (a' :: r')
  end.

(** An invocation whose parenthesis is at [b]: its expansion and the offset after it. *)
Definition invoke (m : MacroDef) (b : nat) : option (bytes * nat) :=
  let '(margs, j) := call_args expr b in
  let margs := map trim_macro_argument margs in
  expanded_args ← expand_args m 0 margs;
  Some (B "(" ++ (expand_function_macro_body m margs expanded_args).1 ++ B ")", j).

(** The loop over the tokens: the text put out and whether anything changed. *)
Fixpoint pass (n : nat) (ts : list ReplacementToken) (out : bytes) (changed preserve : bool) : option (bytes * bool) :=
  match n, ts with
  | S n, t :: r =>
      let word := macro_token_text expr t in
      if negb (bool_decide (kind t = rtIdentifier)) then
        pass n r (out ++ if bool_decide (kind t = rtComment) then [c_sp] else word) changed preserve
      else if bytes_eqb word (B "defined") then pass n r (out ++ word) changed true
      else if is_has_op word then
        match (b ← paren_after expr r; pp_group_end expr b) with
        | Some e => pass n (skip_to e ts) (out ++ word ++ substr expr (end_ t) (e - end_ t)) changed preserve
        | None => pass n r (out ++ word) changed preserve
        end
      else if preserve then pass n r (out ++ word) changed false
      else
        match define_map T !! word with
        | Some v => pass n r (out ++ if is_nil v then B "1" else v) true preserve
        | None =>
            match macro_map T !! word with
            | Some m =>
                match paren_after expr r with
                | Some b => '(text, j) ← invoke m b; pass n (skip_to j ts) (out ++ text) true preserve
                | None => pass n r (out ++ word) changed preserve
                end
            | None =>
                match builtin_macro_text word with
                | Some text => pass n r (out ++ text) true preserve
                | None => pass n r (out ++ word) changed preserve
                end
            end
        end
  | _, _ => Some (out, changed)
  end.

Definition one_pass : option (bytes * bool) :=
  let ts := tokenize_macro_spelling expr in pass (length ts) ts [] false false.
End Pass.

(** Passes until one changes nothing, at most [k]. *)
Fixpoint passes (rec : bytes -> option bytes) (k : nat) (expr : bytes) : option bytes :=
  match k with
  | 0 => Some expr
  | S k => '(out, changed) ← one_pass rec expr; if changed : bool then passes rec k out else Some out
  end.

Fixpoint expand_if (fuel : nat) (raw : bytes) : option bytes :=
  match fuel with
  | 0 => None
  | S f => passes (expand_if f) 32 raw
  end.
End Expansion.

(** ** The operand of a [__has_*] operator

    [answer] is what the registries and the search for a header say of the
    operand's text. *)
Definition trim_blanks (s : bytes) : bytes :=
  let l s := drop (blank_run s) s in rev (l (rev (l s))).

Definition evaluate_has_query (answer : bytes -> bytes -> Z) (op expr : bytes) (pos : nat) : Z * nat :=
  if negb (has_query_operator_implemented op) then (0%Z, pos)
  else
    let pos := pos + blank_run (drop pos expr) in
    if (length expr <=? pos) || negb (byte_eqb (at_ expr pos) "("%char) then (0%Z, pos)
    else
      match pp_group_end expr pos with
      | None => (0%Z, pos)
      | Some e =>
          let arg := trim_blanks (substr expr (pos + 1) (e - pos - 2)) in
          (if is_nil arg then 0%Z else answer op arg, e)
      end.

Definition ex_translation : translation := Translation 7 (Some (B "a/b.c")) [] [] [].
Definition ex_tables : tables :=
  set_macro (set_macro (set_macro (Tables ∅ ∅) (B "V") (Some (B "2")) None)
    (B "MAX") None (Some (new_macro [B "a"; B "b"] false [] (B "((a) > (b) ? (a) : (b))"))))
    (B "W") (Some (B "V")) None.
Example expand_if_ex :
  expand_if false ex_translation ex_tables 2 (B "MAX(W, 1) == V && defined(V) && __LINE__ == 7 && __has_include(<V>) /**/ && MAX") =
  Some (B "(((2) > (1) ? (2) : (1))) == 2 && defined(V) && 7 == 7 && __has_include(<V>)   && MAX").
Proof. vm_compute. reflexivity. Qed.

(** ** The depth of the calls *)

Section Depth.
Context (win32 : bool) (E : translation) (T : tables).

(** [rec'] answers whatever [rec] does. *)
Definition extends (rec rec' : bytes -> option bytes) : Prop := forall x o, rec x = Some o -> rec' x = Some o.

Lemma expand_args_extends rec rec' m ai margs out :
  extends rec rec' -> expand_args rec m ai margs = Some out -> expand_args rec' m ai margs = Some out.
Proof.
  intros Hr. revert ai out. induction margs as [|a r IH]; intros ai out; simpl; [done|]. intros H.
  apply bind_Some in H as (a' & Ha & H). apply bind_Some in H as (r' & Hr' & H).
  assert (Ha' : (if match arg_param m ai with Some p => negb (is_nil p) && macro_param_has_expanded_use m p | None => false end
                 then rec' a else Some a) = Some a') by (case_if; [by apply Hr|done]).
  rewrite Ha'. simpl. by rewrite (IH _ _ Hr').
Qed.

Lemma pass_extends rec rec' expr n ts out ch pr res :
  extends rec rec' -> pass win32 E T rec expr n ts out ch pr = Some res -> pass win32 E T rec' expr n ts out ch pr = Some res.
Proof.
  intros Hr. revert ts out ch pr. induction n as [|n IH]; intros [|t r] out ch pr; try done. cbn [pass]. cbv zeta.
  destruct (negb _); [apply IH|]. destruct (bytes_eqb _ _); [apply IH|].
  destruct (is_has_op _); [destruct (_ ≫= _); apply IH|]. destruct pr; [apply IH|].
  destruct (define_map T !! _); [apply IH|]. destruct (macro_map T !! _) as [m|].
  - destruct (paren_after expr r) as [b|]; [|apply IH]. intros H. apply bind_Some in H as ([text j] & Hi & H).
    assert (Hi' : invoke rec' expr m b = Some (text, j)).
    { unfold invoke in *. destruct (call_args expr b) as [margs j']. apply bind_Some in Hi as (ea & Hea & Hi).
      by rewrite (expand_args_extends _ _ _ _ _ _ Hr Hea). }
    rewrite Hi'. by apply IH.
  - destruct (builtin_macro_text _ _ _); apply IH.
Qed.

Lemma passes_extends rec rec' k expr res :
  extends rec rec' -> passes win32 E T rec k expr = Some res -> passes win32 E T rec' k expr = Some res.
Proof.
  intros Hr. revert expr. induction k as [|k IH]; intros expr; [done|]. cbn [passes]. intros H.
  apply bind_Some in H as ([out ch] & Hp & H). unfold one_pass in *. rewrite (pass_extends _ _ _ _ _ _ _ _ _ Hr Hp). simpl.
  destruct ch; [by apply IH|done].
Qed.

(** Deeper calls do not change a result. *)
Lemma expand_if_mono f f' raw res :
  expand_if win32 E T f raw = Some res -> f <= f' -> expand_if win32 E T f' raw = Some res.
Proof.
  revert f' raw res. induction f as [|f IH]; intros f' raw res H Hf; [done|]. destruct f' as [|f']; [lia|].
  cbn [expand_if] in *. eapply passes_extends; [|exact H]. intros x o Hx. apply IH; [done|lia].
Qed.

(** Where no name is function-like, a pass asks nothing of [rec]. *)
Lemma pass_objects rec expr n ts out ch pr :
  macro_map T = ∅ -> exists res, forall rec', pass win32 E T rec' expr n ts out ch pr = Some res /\ pass win32 E T rec expr n ts out ch pr = Some res.
Proof.
  intros HT. revert ts out ch pr. induction n as [|n IH]; intros [|t r] out ch pr; try (by eexists). cbn [pass]. cbv zeta.
  rewrite HT, lookup_empty.
  destruct (negb _); [apply IH|]. destruct (bytes_eqb _ _); [apply IH|].
  destruct (is_has_op _); [destruct (_ ≫= _); apply IH|]. destruct pr; [apply IH|].
  destruct (define_map T !! _); [apply IH|]. destruct (builtin_macro_text _ _ _); apply IH.
Qed.

(** Expanding the macros of a condition ends where every macro is
    object-like, self-referential ones included: at most 32 passes, no nested
    call, and the result is the same at every depth. *)
Theorem object_macros_terminate raw :
  macro_map T = ∅ -> exists res, forall f, 1 <= f -> expand_if win32 E T f raw = Some res.
Proof.
  intros HT. assert (Hp : forall k rec expr, exists res, passes win32 E T rec k expr = Some res).
  { induction k as [|k IH]; intros rec expr; [by eexists|]. cbn [passes]. unfold one_pass.
    destruct (pass_objects rec expr (length (tokenize_macro_spelling expr)) (tokenize_macro_spelling expr) [] false false HT)
      as ([out ch] & H). destruct (H rec) as [-> _]. simpl. destruct ch; [apply IH|by eexists]. }
  destruct (Hp 32 (expand_if win32 E T 0) raw) as [res Hres]. exists res. intros f Hf.
  apply (expand_if_mono 1); [exact Hres|done].
Qed.
End Depth.

Lemma object_macros_witness :
  exists res, forall f, 1 <= f ->
    expand_if false ex_translation (set_macro (Tables ∅ ∅) (B "LOOP") (Some (B "LOOP + 1")) None) f (B "LOOP") = Some res.
Proof. apply object_macros_terminate. reflexivity. Defined.

(** *** A macro that names itself in its own argument

    [#define f(x) f(f(x))], [#if f(1)]: C expands [f] once, the inner names are
    hidden.  Here the second pass calls [expandIfMacros] on [f(1)] again. *)
Definition nested_tables : tables := set_macro (Tables ∅ ∅) (B "f") None (Some (new_macro [B "x"] false [] (B "f(f(x))"))).

(** A call that answers [1] and has not come back from [f(1)]. *)
Definition pending (rec : bytes -> option bytes) (x : bytes) : option bytes :=
  if bytes_eqb x (B "1") then Some (B "1") else if bytes_eqb x (B "f(1)") then None else rec x.

Lemma nested_pass rec : passes false ex_translation nested_tables (pending rec) 32 (B "f(1)") = None.
Proof. vm_compute. reflexivity. Qed.

Lemma unexpanded_one f : expand_if false ex_translation nested_tables (S f) (B "1") = Some (B "1").
Proof. apply (expand_if_mono _ _ _ 1); [vm_compute; reflexivity|lia]. Qed.

(** However deep the calls may go, this one does not come back. *)
Lemma nested_argument_recurses f : expand_if false ex_translation nested_tables f (B "f(1)") = None.
Proof.
  induction f as [|f IH]; [done|]. cbn [expand_if]. set (rec := expand_if false ex_translation nested_tables f) in *.
  destruct (passes false ex_translation nested_tables rec 32 (B "f(1)")) as [res|] eqn:H; [|done].
  rewrite <- (nested_pass rec). symmetry. eapply passes_extends; [|exact H].
  intros x o Hx. unfold pending. destruct (bytes_eqb x (B "1")) eqn:E1; reflect_bool.
  - subst x. destruct f as [|f]; [done|]. unfold rec in Hx. rewrite unexpanded_one in Hx. done.
  - destruct (bytes_eqb x (B "f(1)")) eqn:E2; reflect_bool; [|done]. subst x. rewrite IH in Hx. done.
Qed.

(** ** The tables behind the evaluator *)

Section Tables.
Context (win32 char_unsigned : bool) (E : translation) (T : tables) (answer : bytes -> bytes -> Z) (fuel : nat).

(** What [evaluate_if_text] asks, answered by the tables.  Calls deeper than
    [fuel] leave the text alone; the theorems below need one level. *)
#[export] Instance table_macros : IfMacros := {
  IfEval.expandIfMacros raw := default raw (expand_if win32 E T fuel raw);
  IfEval.macro_name_defined := macro_name_defined win32 E T;
  IfEval.define_find name := define_map T !! name;
  IfEval.macro_count name := bool_decide (is_Some (macro_map T !! name));
  IfEval.evaluateHasQuery := evaluate_has_query answer;
  IfEval.char_is_unsigned := char_unsigned
}.

#[export] Instance table_macros_laws : IfMacrosLaws.
Proof.
  constructor. intros op expr pos. simpl. unfold evaluate_has_query. destruct (negb _); [done|].
  destruct (_ || _); [simpl; lia|]. destruct (pp_group_end _ _) as [e|] eqn:He; [|simpl; lia]. simpl.
  unfold pp_group_end in He. destruct (_ || _); [done|]. apply fmap_Some in He as (k & _ & ->). lia.
Qed.
End Tables.
