(* ===== verification/Conditions.v ===== *)
(** Conditions over macros: [expandIfMacros] and [evaluate_if_text] together
    ([src/src/lexer.cpp]).

    [condition_with_macros] follows a condition from its text, whose operands
    may be names of macros, through the passes of [IfExpand] to the value
    [IfEval] computes; [defined] keeps its operand all the way. *)
From stdpp Require Import gmap.
From S2P Require Import Prelude Source Literals Directives IfEval MacroTokens MacroExpand MacroCalls IfExpand.
#[local] Open Scope nat_scope.

(** ** What the tokenizer makes of a condition *)

(** The tokens of [t], which stands at offset [i]. *)
Definition toks (i : nat) (t : bytes) : list ReplacementToken := tokenize_from (length t) i t.

Lemma tokenize_from_more n i t : length t <= n -> tokenize_from n i t = toks i t.
Proof.
  unfold toks. revert n i t. assert (H : forall k n i t, length t <= k -> k <= n -> tokenize_from n i t = tokenize_from k i t).
  { induction k as [|k IH]; intros n i [|c t] Ht Hn; simpl in Ht; try lia; [by destruct n|by destruct n|].
    destruct n as [|n]; [lia|]. cbn [tokenize_from]. destruct (scan_token_cuts c t) as (s & next & Hs & Hne & Hl & _).
    destruct (scan_token (c :: t)) as [k' len]. simpl in Hl. subst len. rewrite Hs, drop_app_length. f_equal.
    apply IH; [|lia]. apply (f_equal length) in Hs. rewrite length_app in Hs. simpl in Hs. destruct s; [done|]. simpl in *. lia. }
  intros n i t Ht. by apply H.
Qed.

Lemma toks_cons a t i k :
  scan_token (a ++ t) = (k, length a) -> a <> [] -> toks i (a ++ t) = RT k i (i + length a) :: toks (i + length a) t.
Proof.
  intros Hs Ha. unfold toks at 1. destruct a as [|c a]; [done|]. cbn [app length tokenize_from]. rewrite app_comm_cons, Hs, drop_app_length.
  f_equal. apply tokenize_from_more. rewrite length_app. lia.
Qed.

(** What follows an operand of a printed condition. *)
Definition stops (t : bytes) : Prop := match t with [] => True | c :: _ => c = c_sp \/ c = ")"%char end.

Definition plain_name (w : bytes) : Prop :=
  (exists c r, w = c :: r /\ is_ident_start c = true /\ Forall (fun c => is_ident_char c = true) r)
  /\ w <> B "defined" /\ is_has_op w = false.

Lemma run_length_stop keep a t :
  Forall (fun c => keep c = true) a -> ~ begins keep t -> run_length keep (a ++ t) = length a.
Proof.
  intros Ha Ht. induction Ha as [|c a Hc Ha IH]; simpl; [|by rewrite Hc, IH].
  destruct t as [|c t]; simpl in *; [done|by destruct (keep c)].
Qed.

Lemma stops_not_ident t : stops t -> ~ begins is_ident_char t.
Proof. destruct t as [|c t]; simpl; [auto|]. by intros [-> | ->]. Qed.

Lemma name_scan w t : 
  (exists c r, w = c :: r /\ is_ident_start c = true /\ Forall (fun c => is_ident_char c = true) r) -> 
  ~ begins is_ident_char t -> ~ begins (fun c => byte_eqb c c_dquote || byte_eqb c c_squote) t ->
  scan_token (w ++ t) = (rtIdentifier, length w).
Proof.
  intros (c & r & -> & Hc & Hr) Ht Hq. unfold scan_token. cbn [app at_ nth drop].
  assert (H0 : macro_body_space c = false /\ byte_eqb c "/"%char = false).
  { clear -Hc. destruct c as [[] [] [] [] [] [] [] []]; by vm_compute in Hc |- *. }
  destruct H0 as [-> ->]. simpl.
  destruct (pp_literal_start (c :: r ++ t)) as [[p raw]|] eqn:E.
  { exfalso. destruct (pp_literal_start_Some _ _ _ E) as (pre & q & rest & Hpre & _ & Heq & Hq').
    set (px := pre ++ if raw then B "R" else []) in *.
    assert (Hpx : Forall (fun c => is_ident_char c = true) px).
    { apply Forall_app_2; [by destruct Hpre as [->|[->|[->|[->| ->]]]]; repeat constructor|destruct raw; by repeat constructor]. }
    assert (Hqi : is_ident_char q = false) by (by destruct Hq' as [->|[_ ->]]).
    assert (Hw : Forall (fun c => is_ident_char c = true) (c :: r)) by (constructor; [by apply ident_start_neq|done]).
    clear -Heq Hpx Hqi Hw Ht Hq Hq'. change (c :: r ++ t) with ((c :: r) ++ t) in Heq. revert Heq Hw. generalize (c :: r) as w.
    induction Hpx as [|x px Hx Hpx IH]; intros w Heq Hw.
    - destruct w as [|y w]; [|injection Heq as -> _; apply Forall_cons_1 in Hw as [Hw _]; congruence].
      simpl in Heq. subst t. apply Hq. simpl. destruct Hq' as [->|[_ ->]]; reflexivity.
    - destruct w as [|y w]; [simpl in Heq; subst t; by apply Ht|]. injection Heq as -> Heq. apply Forall_cons_1 in Hw as [_ Hw]. by apply (IH w). }
  rewrite Hc. change (drop 0 (r ++ t)) with (r ++ t). rewrite run_length_stop by done. done.
Qed.

Lemma stops_not_quote t : stops t -> ~ begins (fun c => byte_eqb c c_dquote || byte_eqb c c_squote) t.
Proof. destruct t as [|c t]; simpl; [auto|]. by intros [-> | ->]. Qed.

Lemma number_scan w t : constant w -> stops t -> scan_token (w ++ t) = (rtPpNumber, length w).
Proof.
  intros (Hne & Hd & _) Ht. destruct w as [|c r]; [done|]. apply Forall_cons_1 in Hd as [Hc Hr]. unfold scan_token. cbn [app at_ nth drop].
  assert (H0 : macro_body_space c = false /\ byte_eqb c "/"%char = false /\ is_ident_start c = false /\
    pp_literal_start (c :: r ++ t) = None).
  { clear -Hc. destruct c as [[] [] [] [] [] [] [] []]; try (by vm_compute in Hc); split_and!; reflexivity. }
  destruct H0 as (-> & -> & Hi & ->). simpl. rewrite Hi, Hc. simpl. do 2 f_equal. clear -Hr Ht. revert c. induction Hr as [|d r Hd Hr IH]; intros c; simpl.
  - destruct t as [|x t]; [done|]. simpl in *. by destruct Ht as [-> | ->]; simpl.
  - rewrite (isdigit_ident d) by done. by rewrite orb_true_r, IH.
Qed.

(** The characters a condition has besides its operands. *)
Definition mark (c : ascii) : bool := existsb (byte_eqb c) (B "()!~-*%+<>=&^|?:").

Lemma mark_scan c t : mark c = true -> scan_token ([c] ++ t) = (rtPunct, 1).
Proof. destruct c as [[] [] [] [] [] [] [] []]; intros Hc; vm_compute in Hc; try done; destruct t; reflexivity. Qed.

Lemma slash_scan t : scan_token (["/"%char] ++ c_sp :: t) = (rtPunct, 1).
Proof. by destruct t. Qed.

Lemma blank_scan t : ~ begins macro_body_space t -> scan_token ([c_sp] ++ t) = (rtWhitespace, 1).
Proof.
  intros Ht. unfold scan_token. cbn [app at_ nth]. change (macro_body_space c_sp) with true. cbv iota. f_equal.
  assert (Hs : Forall (fun c => macro_body_space c = true) [c_sp]) by (by apply Forall_singleton).
  exact (run_length_stop macro_body_space [c_sp] t Hs Ht).
Qed.

(** ** A pass, operand by operand *)

Section Conditions.
Context (win32 : bool) (E : translation) (T : tables).
(** The expression a macro's body is. *)
Context (body : bytes -> cexpr).

(** What one pass makes of an operand's word. *)
Definition replaced (w : bytes) : cexpr :=
  if isdigit (at_ w 0) then Word w
  else match define_map T !! w with Some v => if is_nil v then Word (B "1") else body w | None => Word w end.
Definition moved (w : bytes) : bool := negb (isdigit (at_ w 0)) && bool_decide (is_Some (define_map T !! w)).

Fixpoint step (e : cexpr) : cexpr :=
  match e with
  | Word w => replaced w
  | Defined n => Defined n
  | Not e => Not (step e) | Compl e => Compl (step e) | Minus e => Minus (step e)
  | Bin o l r => Bin o (step l) (step r)
  | Cond c t e => Cond (step c) (step t) (step e)
  end.
Fixpoint moves (e : cexpr) : bool :=
  match e with
  | Word w => moved w
  | Defined n => false
  | Not e | Compl e | Minus e => moves e
  | Bin _ l r => moves l || moves r
  | Cond c t e => moves c || (moves t || moves e)
  end.

(** An operand: a constant, or a name that is an object-like macro or no macro. *)
Definition operand_ok (w : bytes) : Prop :=
  constant w \/ plain_name w /\ (is_Some (define_map T !! w) \/ macro_map T !! w = None /\ builtin_macro_text win32 E w = None).
Fixpoint operands_ok (e : cexpr) : Prop :=
  match e with
  | Word w => operand_ok w
  | Defined n => plain_name n
  | Not e | Compl e | Minus e => operands_ok e
  | Bin _ l r => operands_ok l /\ operands_ok r
  | Cond c t e => operands_ok c /\ operands_ok t /\ operands_ok e
  end.
(** Object-like macros stand for parenthesized expressions over constants and
    names, or for nothing. *)
Definition tables_ok : Prop := forall name v, define_map T !! name = Some v -> v = [] \/ v = print (body name) /\ operands_ok (body name).

Context (rec : bytes -> option bytes) (expr : bytes).

(** The loop from offset [i] on, where [t] is what is left of the text. *)
Definition run (i : nat) (t out : bytes) (changed preserve : bool) : option (bytes * bool) :=
  pass win32 E T rec expr (length (toks i t)) (toks i t) out changed preserve.

Definition at_offset (i : nat) (t : bytes) : Prop := drop i expr = t.
Lemma at_offset_app i a t : at_offset i (a ++ t) -> at_offset (i + length a) t.
Proof. unfold at_offset. intros H. by rewrite <- drop_drop, H, drop_app_length. Qed.

Lemma token_text i a t k : at_offset i (a ++ t) -> macro_token_text expr (RT k i (i + length a)) = a.
Proof. unfold at_offset, macro_token_text, substr. simpl. intros ->. by rewrite Nat.add_comm, Nat.add_sub, take_app_length. Qed.

Lemma run_other i a t out ch pr k :
  at_offset i (a ++ t) -> scan_token (a ++ t) = (k, length a) -> a <> [] -> k <> rtIdentifier -> k <> rtComment ->
  run i (a ++ t) out ch pr = run (i + length a) t (out ++ a) ch pr.
Proof.
  intros Hi Hs Ha H1 H2. unfold run. rewrite (toks_cons a t i k Hs Ha). cbn [length pass]. cbv zeta.
  rewrite (token_text i a t k Hi). simpl. by rewrite !bool_decide_eq_false_2.
Qed.

Lemma run_defined i t out ch pr :
  at_offset i (B "defined" ++ t) -> ~ begins is_ident_char t -> ~ begins (fun c => byte_eqb c c_dquote || byte_eqb c c_squote) t ->
  run i (B "defined" ++ t) out ch pr = run (i + 7) t (out ++ B "defined") ch true.
Proof.
  intros Hi Ht Hq. assert (Hs : scan_token (B "defined" ++ t) = (rtIdentifier, length (B "defined"))).
  { apply name_scan; [|done|done]. exists "d"%char, (B "efined"). split_and!; [done|done|]. by repeat constructor. }
  unfold run. rewrite (toks_cons _ t i _ Hs) by done. cbn [length pass]. cbv zeta. rewrite (token_text i _ t rtIdentifier Hi).
  rewrite bool_decide_eq_true_2 by done. cbn [negb]. by rewrite bytes_eqb_refl.
Qed.

Lemma run_kept i w t out ch :
  at_offset i (w ++ t) -> plain_name w -> stops t -> run i (w ++ t) out ch true = run (i + length w) t (out ++ w) ch false.
Proof.
  intros Hi (Hn & Hd & Hh) Ht. pose proof (name_scan w t Hn (stops_not_ident t Ht) (stops_not_quote t Ht)) as Hs.
  unfold run. rewrite (toks_cons _ t i _ Hs) by (by destruct Hn as (? & ? & -> & _)). cbn [length pass]. cbv zeta. rewrite (token_text i _ t rtIdentifier Hi).
  rewrite bool_decide_eq_true_2 by done. cbn [negb]. destruct (bytes_eqb w (B "defined")) eqn:Eb; [by reflect_bool|]. by rewrite Hh.
Qed.

Lemma run_operand i w t out ch :
  at_offset i (w ++ t) -> tables_ok -> operand_ok w -> stops t ->
  run i (w ++ t) out ch false = run (i + length w) t (out ++ print (replaced w)) (ch || moved w) false.
Proof.
  intros Hi HT Hw Ht. unfold replaced, moved. destruct Hw as [Hw|[(Hn & Hd & Hh) Hm]].
  - assert (H0 : isdigit (at_ w 0) = true).
    { destruct Hw as (Hne & Hf & _). destruct w as [|c w]; [done|]. by apply Forall_cons_1 in Hf as [? _]. }
    rewrite H0. simpl. rewrite orb_false_r. eapply run_other; [done|by apply number_scan|by apply Hw|done|done].
  - pose proof (name_scan w t Hn (stops_not_ident t Ht) (stops_not_quote t Ht)) as Hs.
    assert (H0 : isdigit (at_ w 0) = false) by (destruct Hn as (c & r & -> & Hc & _); by apply ident_start_neq in Hc as [? _]).
    rewrite H0. simpl. unfold run. rewrite (toks_cons _ t i _ Hs) by (by destruct Hn as (? & ? & -> & _)).
    cbn [length pass]. cbv zeta. rewrite (token_text i _ t rtIdentifier Hi). rewrite bool_decide_eq_true_2 by done. cbn [negb].
    destruct (bytes_eqb w (B "defined")) eqn:Eb; [by reflect_bool|]. rewrite Hh.
    destruct (define_map T !! w) as [v|] eqn:Ev.
    { rewrite orb_true_r. destruct (HT _ _ Ev) as [->|[-> _]]; [done|]. destruct (is_nil (print (body w))) eqn:En; [|done]. done. }
    rewrite orb_false_r.
    destruct Hm as [[? [=]]|[-> ->]]. done.
Qed.

Lemma run_mark i c t out ch : at_offset i (c :: t) -> mark c = true -> run i (c :: t) out ch false = run (i + 1) t (out ++ [c]) ch false.
Proof. intros Hi Hc. apply (run_other i [c] t out ch false rtPunct); try done. by apply mark_scan. Qed.
Lemma run_mark_kept i c t out ch : at_offset i (c :: t) -> mark c = true -> run i (c :: t) out ch true = run (i + 1) t (out ++ [c]) ch true.
Proof. intros Hi Hc. apply (run_other i [c] t out ch true rtPunct); try done. by apply mark_scan. Qed.
Lemma run_blank i t out ch :
  at_offset i (c_sp :: t) -> ~ begins macro_body_space t -> run i (c_sp :: t) out ch false = run (i + 1) t (out ++ [c_sp]) ch false.
Proof. intros Hi Ht. apply (run_other i [c_sp] t out ch false rtWhitespace); try done. by apply blank_scan. Qed.

(** A run of marks. *)
Lemma run_marks i s t out ch :
  at_offset i (s ++ t) -> forallb mark s = true -> run i (s ++ t) out ch false = run (i + length s) t (out ++ s) ch false.
Proof.
  revert i out. induction s as [|c s IH]; intros i out Hi Hs; [by simpl; rewrite Nat.add_0_r, app_nil_r|].
  simpl in Hs. reflect_bool. cbn [app]. rewrite run_mark by done. rewrite IH; [|by apply (at_offset_app i [c])|done].
  rewrite <- app_assoc. simpl. by replace (i + 1 + length s) with (i + S (length s)) by lia.
Qed.

Lemma run_binop i o t out ch :
  at_offset i (binop_text o ++ c_sp :: t) ->
  run i (binop_text o ++ c_sp :: t) out ch false = run (i + length (binop_text o)) (c_sp :: t) (out ++ binop_text o) ch false.
Proof.
  intros Hi. destruct o; try (by apply run_marks).
  by apply (run_other i (B "/") (c_sp :: t) out ch false rtPunct).
Qed.

Lemma print_first e : operands_ok e -> exists c r, print e = c :: r /\ macro_body_space c = false.
Proof.
  destruct e as [w|n|e|e|e|o l r|c t e]; intros Hok; simpl; try (eexists _, _; split; [reflexivity|reflexivity]).
  destruct Hok as [(Hne & Hf & _)|[((c & r & -> & Hc & _) & _) _]].
  - destruct w as [|c r]; [done|]. apply Forall_cons_1 in Hf as [Hc _]. exists c, r. split; [done|].
    clear -Hc. destruct c as [[] [] [] [] [] [] [] []]; by vm_compute in Hc |- *.
  - exists c, r. split; [done|]. clear -Hc. destruct c as [[] [] [] [] [] [] [] []]; by vm_compute in Hc |- *.
Qed.

Lemma print_not_blank e t : operands_ok e -> ~ begins macro_body_space (print e ++ t).
Proof. intros Hok. destruct (print_first e Hok) as (c & r & -> & Hc). simpl. by rewrite Hc. Qed.

(** *** The whole expression *)

(** [a], before [t], goes through a pass as [a']; [m]: something in it changes. *)
Definition reads (a a' : bytes) (m : bool) (t : bytes) : Prop :=
  forall i out ch, at_offset i (a ++ t) -> run i (a ++ t) out ch false = run (i + length a) t (out ++ a') (ch || m) false.

Lemma reads_app a b a' b' m m' t : reads a a' m (b ++ t) -> reads b b' m' t -> reads (a ++ b) (a' ++ b') (m || m') t.
Proof.
  intros Ha Hb i out ch Hi. rewrite <- app_assoc in *. rewrite Ha, Hb by (try done; by apply at_offset_app).
  by rewrite length_app, Nat.add_assoc, app_assoc, orb_assoc.
Qed.

Lemma reads_marks s t : forallb mark s = true -> reads s s false t.
Proof. intros Hs i out ch Hi. rewrite orb_false_r. by apply run_marks. Qed.
Lemma reads_blank t : ~ begins macro_body_space t -> reads [c_sp] [c_sp] false t.
Proof. intros Ht i out ch Hi. rewrite orb_false_r. by apply run_blank. Qed.
Lemma reads_binop o t : reads (binop_text o) (binop_text o) false (c_sp :: t).
Proof. intros i out ch Hi. rewrite orb_false_r. by apply run_binop. Qed.

Lemma reads_defined n t : plain_name n -> stops t -> reads (B "defined(" ++ n ++ B ")") (B "defined(" ++ n ++ B ")") false t.
Proof.
  intros Hn Ht i out ch Hi. rewrite orb_false_r. change (B "defined(") with (B "defined" ++ B "(") in *. rewrite <- !app_assoc in *.
  rewrite run_defined by done. apply at_offset_app in Hi. change (B "(" ++ n ++ B ")" ++ t) with ("("%char :: n ++ B ")" ++ t) in *.
  rewrite run_mark_kept by done. apply (at_offset_app _ ["("%char]) in Hi.
  rewrite run_kept by (try done; simpl; auto). apply at_offset_app in Hi.
  change (B ")" ++ t) with (")"%char :: t) in *. rewrite run_mark by done. rewrite <- !app_assoc. f_equal.
  rewrite !length_app. change (length (B "defined")) with 7. simpl. lia.
Qed.

Lemma binop_not_blank o t : ~ begins macro_body_space (binop_text o ++ t).
Proof. by destruct o. Qed.

Lemma reads_expr e t : tables_ok -> operands_ok e -> stops t -> reads (print e) (print (step e)) (moves e) t.
Proof.
  assert (Hun : forall s x x' m t, forallb mark s = true -> (forall t, stops t -> reads x x' m t) ->
    reads (s ++ x ++ B ")") (s ++ x' ++ B ")") m t).
  { clear t. intros s x x' m t Hs Hx. replace m with (false || (m || false)) by (by rewrite orb_false_r).
    apply reads_app; [by apply reads_marks|]. apply reads_app; [apply Hx; simpl; auto|by apply reads_marks]. }
  intros HT. revert t. induction e as [w|n|e IH|e IH|e IH|o l IHl r IHr|c IHc a IHa b IHb]; intros t Hok Ht; simpl in Hok.
  - intros i out ch Hi. by apply run_operand.
  - by apply reads_defined.
  - apply Hun; [done|auto].
  - apply Hun; [done|auto].
  - apply Hun; [done|auto].
  - destruct Hok as [Hl Hr]. cbn [print step moves].
    replace (moves l || moves r) with (false || (moves l || (false || (false || (false || (moves r || false)))))) by (by rewrite orb_false_r).
    repeat apply reads_app; try by apply reads_marks.
    + apply IHl; [done|]. simpl. auto.
    + apply reads_blank. rewrite <- app_assoc. apply binop_not_blank.
    + apply reads_binop.
    + apply reads_blank. rewrite <- app_assoc. by apply print_not_blank.
    + apply IHr; [done|]. simpl. auto.
  - destruct Hok as (Hc & Ha & Hb). cbn [print step moves].
    change (B " ? ") with (B " " ++ B "?" ++ B " "). change (B " : ") with (B " " ++ B ":" ++ B " "). rewrite <- !app_assoc.
    replace (moves c || (moves a || moves b)) with
      (false || (moves c || (false || (false || (false || (moves a || (false || (false || (false || (moves b || false))))))))))
      by (by rewrite !orb_false_l, orb_false_r).
    repeat apply reads_app; try (by apply reads_marks); try (apply reads_blank; try done).
    + apply IHc; [done|]. simpl. auto.
    + rewrite <- !app_assoc. by apply print_not_blank.
    + apply IHa; [done|]. simpl. auto.
    + rewrite <- !app_assoc. by apply print_not_blank.
    + apply IHb; [done|]. simpl. auto.
Qed.
End Conditions.

(** ** The passes *)

Section Settled.
Context (win32 : bool) (E : translation) (T : tables) (body : bytes -> cexpr) (HT : tables_ok win32 E T body).
Abbreviation ok := (operands_ok win32 E T).
Abbreviation step := (step T body).

Lemma one_pass_print rec e : ok e -> one_pass win32 E T rec (print e) = Some (print (step e), moves T e).
Proof.
  intros Hok. unfold one_pass. pose proof (reads_expr win32 E T body rec (print e) e [] HT Hok I 0 [] false) as H.
  unfold run, at_offset in H. rewrite app_nil_r, drop_0 in H. specialize (H eq_refl). unfold toks in H. exact H.
Qed.

Lemma replaced_ok w : operand_ok win32 E T w -> ok (replaced T body w).
Proof.
  intros Hw. unfold replaced. destruct (isdigit _); [done|]. destruct (define_map T !! w) as [v|] eqn:E1; [|done].
  destruct (HT _ _ E1) as [->|[-> Hv]]; [left; split_and!; [done|by repeat constructor|done]|].
  destruct (is_nil _); [left; split_and!; [done|by repeat constructor|done]|done].
Qed.

Lemma step_operands_ok e : ok e -> ok (step e).
Proof. induction e; simpl; try tauto. by apply replaced_ok. Qed.

Lemma step_still e : moves T e = false -> step e = e.
Proof.
  induction e as [w| | | | |o l IHl r IHr|c IHc a IHa b IHb]; simpl; intros H; reflect_bool; f_equal; auto.
  unfold moved, replaced in *. destruct (isdigit _); [done|]. simpl in H. destruct (define_map T !! w); [|done].
  apply bool_decide_eq_false in H. by destruct H.
Qed.

Lemma iter_still k e : step e = e -> Nat.iter k step e = e.
Proof. intros H. induction k as [|k IH]; [done|]. simpl. by rewrite IH. Qed.

Lemma passes_print rec k e : ok e -> passes win32 E T rec k (print e) = Some (print (Nat.iter k step e)).
Proof.
  revert e. induction k as [|k IH]; intros e Hok; [done|]. cbn [passes]. rewrite one_pass_print by done. simpl.
  assert (Hit : step (Nat.iter k step e) = Nat.iter k step (step e)).
  { clear. induction k as [|k IH]; [done|]. simpl. by rewrite IH. }
  rewrite Hit. destruct (moves T e) eqn:Em; [by apply IH, step_operands_ok|].
  rewrite (step_still e Em), iter_still by (by apply step_still). done.
Qed.
End Settled.


Definition version_tables : tables :=
  set_macro (set_macro (set_macro (Tables ∅ ∅) (B "HAVE_X") (Some []) None) (B "MAJOR") (Some (B "3")) None) (B "VERSION") (Some (B "(MAJOR * 100)")) None.
Definition version_body (name : bytes) : cexpr := if bytes_eqb name (B "MAJOR") then Word (B "3") else Bin Mul (Word (B "MAJOR")) (Word (B "100")).
Definition version_condition : cexpr :=
  Bin And (Bin And (Defined (B "VERSION")) (Bin Eq (Word (B "Z")) (Word (B "0")))) (Bin Gt (Bin Add (Word (B "VERSION")) (Word (B "HAVE_X"))) (Word (B "300"))).

Definition plain_nameb (w : bytes) : bool :=
  match w with c :: r => is_ident_start c && forallb is_ident_char r && negb (bytes_eqb w (B "defined")) && negb (is_has_op w) | [] => false end.
Lemma plain_name_check w : plain_nameb w = true -> plain_name w.
Proof.
  destruct w as [|c r]; [done|]. unfold plain_nameb. intros H. apply andb_true_iff in H as [H Hh].
  apply andb_true_iff in H as [H Hd]. apply andb_true_iff in H as [Hc Hr].
  apply negb_true_iff in Hd, Hh. split_and!; [|intros He; by rewrite He, bytes_eqb_refl in Hd|done].
  exists c, r. split_and!; [done|done|]. apply List.Forall_forall. by apply forallb_forall.
Qed.

Lemma version_tables_ok : tables_ok false ex_translation version_tables version_body.
Proof.
  intros name v H. unfold version_tables, set_macro in H. cbn [define_map] in H.
  repeat apply lookup_insert_Some in H as [[<- <-]|[_ H]]; [| |by left|by rewrite lookup_empty in H].
  - right. split; [done|]. split; [right|by left; apply constantb_ok]. split; [by apply plain_name_check|]. left. vm_compute. by eexists.
  - right. split; [done|]. by left; apply constantb_ok.
Qed.

Lemma version_condition_ok : operands_ok false ex_translation version_tables version_condition.
Proof.
  cbn [version_condition operands_ok]. split_and!; try (by apply plain_name_check); try (by left; apply constantb_ok).
  - right. split; [by apply plain_name_check|]. right. by vm_compute.
  - right. split; [by apply plain_name_check|]. left. vm_compute. by eexists.
  - right. split; [by apply plain_name_check|]. left. vm_compute. by eexists.
Qed.


(** *** What the model shows *)

(** [defined(__has_include)]: the operand is not taken for [defined]'s, so the
    next name of the condition is, and is not expanded: with [VER] as [(2+1)],
    [VER >= 3] holds and [defined(__has_include) && VER >= 3] does not. *)
Example defined_operator_name :
  let M := table_macros false false ex_translation (set_macro (Tables ∅ ∅) (B "VER") (Some (B "(2+1)")) None) (fun _ _ => 0%Z) 1 in
  evaluate_if_text (H := M) (B "VER >= 3") = decided true 0 /\
  evaluate_if_text (H := M) (B "defined(__has_include)") = decided true 0 /\
  evaluate_if_text (H := M) (B "defined(__has_include) && VER >= 3") = decided false 0.
Proof. vm_compute. auto. Qed.
