(* ===== verification/Defines.v ===== *)
(** The reading of [#define] and [#undef] in [src/src/lexer.cpp]: the name, the
    parameter list, the body with its comments and line continuations
    ([read_macro_body]), and what is written to the macro tables.

    The readers are loops over a [source]; for each there is a function of the text
    ahead that it computes ([body_ahead], [params_ahead], [define_ahead]), from which
    [DefineLines] says which definition a line holds. *)
From stdpp Require Import gmap.
From S2P Require Import Prelude Source Literals Conditional Directives MacroTokens MacroExpand IfExpand.
#[local] Open Scope nat_scope.

(** ** Loops without a test for the end *)

(** [while ( test ) source.get();] and [while ( test ) text += source.get();] *)
Definition peek_body (test : source -> bool * source) (st : bytes * source) : bytes * source + bytes * source :=
  let '(acc, s) := st in
  let '(more, s) := test s in
  if more : bool then let '(c, s) := get s in inl (acc ++ [to_byte c], s) else inr (acc, s).
Definition while_peek (test : source -> bool * source) (s : source) : bytes * source :=
  default ([], s) (loop (S (unread s)) (peek_body test) ([], s)).

(** [isalnum(source.peek()) || source.peek() == '_'] *)
Definition isalnum_code (c : Z) : bool := (0 <=? c)%Z && isalnum (to_byte c).
Definition name_ahead (s : source) : bool * source :=
  let '(c, s) := peek s in
  if isalnum_code c then (true, s) else let '(c, s) := peek s in ((c =? code "_"%char)%Z, s).
Definition peek_is (s : source) (c : ascii) : bool * source := let '(x, s) := peek s in ((x =? code c)%Z, s).

(** ** The body *)

Inductive LiteralMode := lmNone | lmString | lmCharacter.
#[export] Instance literal_mode_eq : EqDecision LiteralMode.
Proof. solve_decision. Defined.
Record body_state := Body { b_text : bytes; literal : LiteralMode; b_escaped : bool }.
Definition push (st : body_state) (t : bytes) : body_state := Body (b_text st ++ t) (literal st) (b_escaped st).
Definition in_literal (st : body_state) : bool := negb (bool_decide (literal st = lmNone)).
Definition blank_end (t : bytes) : bool := match last t with Some c => byte_eqb c c_sp || byte_eqb c c_tab | None => true end.

(** A character of a literal; the quote that opened it ends it. *)
Definition literal_step (st : body_state) (ch : ascii) : body_state :=
  let closes := bool_decide (literal st = lmString) && byte_eqb ch c_dquote || bool_decide (literal st = lmCharacter) && byte_eqb ch c_squote in
  if b_escaped st then Body (b_text st) (literal st) false
  else if closes then Body (b_text st) lmNone (b_escaped st) else st.
Definition open_literal (st : body_state) (ch : ascii) : body_state :=
  Body (b_text st) (if byte_eqb ch c_dquote then lmString else lmCharacter) false.
Definition backslash_step (st : body_state) : body_state :=
  Body (b_text st ++ [c_bslash]) (literal st) (if in_literal st then negb (b_escaped st) else b_escaped st).
Definition comment_blank (st : body_state) : body_state := if blank_end (b_text st) then st else push st (B " ").

Definition body_step (x : body_state * source) : body_state * source + res (bytes * source) :=
  let '(st, s) := x in
  if at_end s then inr (Ok (b_text st, s))
  else
    let '(c, s) := peek s in
    let ch := to_byte c in
    if is_line_end c then inr (Ok (b_text st, s))
    else if (c =? code c_bslash)%Z then
      let s := (get s).2 in
      let '(next, s) := peek s in
      if is_line_end next then
        let s := (get s).2 in
        let '(nl, s) := peek_is s c_nl in
        inl (st, if nl then (get s).2 else s)
      else inl (backslash_step st, s)
    else if in_literal st then
      let '(g, s) := get s in inl (literal_step (push st [to_byte g]) ch, s)
    else if (c =? code c_dquote)%Z || (c =? code c_squote)%Z then
      let '(g, s) := get s in inl (push (open_literal st ch) [to_byte g], s)
    else if (c =? code "/"%char)%Z then
      let row := line s in
      let s := (get s).2 in
      let col := column s in
      let '(nx, s) := peek s in
      if (nx =? code "/"%char)%Z then inr (Ok (b_text st, (read_while not_line_end (get s).2).2))
      else if (nx =? code "*"%char)%Z then
        match consume_block_comment (get s).2 row col false with
        | comment_closed _ s => inl (comment_blank st, s)
        | comment_open _ s => inr (Raise unterminated_comment s)
        end
      else inl (push st (B "/"), s)
    else let '(g, s) := get s in inl (push st [to_byte g], s).

Fixpoint trim_end_rev (t : bytes) : bytes :=
  match t with c :: r => if byte_eqb c c_sp || byte_eqb c c_tab then trim_end_rev r else t | [] => [] end.
(** The blanks popped off the back. *)
Definition trim_end (t : bytes) : bytes := rev (trim_end_rev (rev t)).

Definition body_start : body_state := Body [] lmNone false.
Definition read_macro_body (s : source) : res (bytes * source) :=
  match default (Ok ([], s)) (loop (S (unread s)) body_step (body_start, s)) with
  | Ok (t, s) => Ok (trim_end t, s)
  | Raise m s => Raise m s
  end.

(** ** The parameters *)

Record param_state := Params { p_params : list bytes; p_variadic : bool; p_variadic_param : bytes }.
Definition ellipsis_error : bytes := B "Expecting '...' in variadic macro parameter list".
Definition named_ellipsis_error : bytes := B "Expecting '...' after named variadic macro parameter".
Definition last_error : bytes := B "Variadic macro '...' must be the last parameter".
Definition param_error : bytes := B "Expecting macro parameter name".

(** After the first dot: two more, blanks, and the parenthesis. *)
Definition ellipsis (err : bytes) (s : source) : res source :=
  let s := (get s).2 in
  let '(dot, s) := peek_is s "."%char in
  if negb dot then Raise err s
  else
    let s := (get s).2 in
    let '(dot, s) := peek_is s "."%char in
    if negb dot then Raise err s
    else
      let s := (while_peek blank_ahead (get s).2).2 in
      let '(close, s) := peek_is s ")"%char in
      if close then Ok s else Raise last_error s.

Definition blank_or_comma (s : source) : bool * source :=
  let '(b, s) := blank_ahead s in if b then (true, s) else peek_is s ","%char.

Definition param_body (x : param_state * source) : param_state * source + res (param_state * source) :=
  let '(st, s) := x in
  if negb (good s) then inr (Ok (st, s))
  else
    let '(close, s) := peek_is s ")"%char in
    if close then inr (Ok (st, s))
    else
      let s := (while_peek blank_or_comma s).2 in
      let '(close, s) := peek_is s ")"%char in
      if close then inr (Ok (st, s))
      else
        let '(dot, s) := peek_is s "."%char in
        if dot then
          match ellipsis ellipsis_error s with
          | Ok s => inr (Ok (Params (p_params st) true (p_variadic_param st), s))
          | Raise m s => inr (Raise m s)
          end
        else
          let '(param, s) := read_while name_ahead s in
          if is_nil param then inr (Raise param_error s)
          else
            let '(dot, s) := peek_is s "."%char in
            if dot then
              match ellipsis named_ellipsis_error s with
              | Ok s => inr (Ok (Params (p_params st ++ [param]) true param, s))
              | Raise m s => inr (Raise m s)
              end
            else inl (Params (p_params st ++ [param]) (p_variadic st) (p_variadic_param st), s).
Definition read_params (s : source) : res (param_state * source) :=
  default (Ok (Params [] false [], s)) (loop (S (unread s)) param_body (Params [] false [], s)).

(** ** The directives, after their word *)

Inductive definition := ObjectLike (name value : bytes) | FunctionLike (name : bytes) (m : MacroDef).

Definition read_name (s : source) : bytes * source := read_while name_ahead (while_peek blank_ahead s).2.
Definition read_define (s : source) : res (definition * source) :=
  let '(name, s) := read_name s in
  let '(paren, s) := peek_is s "("%char in
  if paren then
    match read_params (get s).2 with
    | Raise m s => Raise m s
    | Ok (ps, s) =>
        let '(close, s) := peek_is s ")"%char in
        let s := if close then (get s).2 else s in
        match read_macro_body (while_peek blank_ahead s).2 with
        | Raise m s => Raise m s
        | Ok (body, s) => Ok (FunctionLike name (new_macro (p_params ps) (p_variadic ps) (p_variadic_param ps) body), s)
        end
    end
  else
    match read_macro_body (while_peek blank_ahead s).2 with
    | Raise m s => Raise m s
    | Ok (value, s) => Ok (ObjectLike name value, s)
    end.

(** What the tables are written ([MadcSharedPreludeCache::set_macro]). *)
Definition define_macro (T : tables) (d : definition) : tables :=
  match d with ObjectLike n v => set_macro T n (Some v) None | FunctionLike n m => set_macro T n None (Some m) end.
Definition define_directive (T : tables) (s : source) : res (tables * source) :=
  match read_define s with Ok (d, s) => Ok (define_macro T d, s) | Raise m s => Raise m s end.
Definition undef_directive (T : tables) (s : source) : tables * source :=
  let '(name, s) := read_name s in (set_macro T name None None, s).

Definition define_of (t : string) : option (definition * bytes) :=
  match read_define (str source_new (B t)) with Ok (d, s) => Some (d, ahead s) | Raise _ _ => None end.
Example define_ex :
  (define_of " X  a /* b */  'c//'  // d", define_of "F(a, b)  a ## b /**/ /**/ c ", define_of "V( x , ... ) x", define_of "N(args...) args", define_of "E", define_of "G(a..) x") =
  (Some (ObjectLike (B "X") (B "a   'c//'"), []),
   Some (FunctionLike (B "F") (new_macro [B "a"; B "b"] false [] (B "a ## b   c")), []),
   Some (FunctionLike (B "V") (new_macro [B "x"] true [] (B "x")), []),
   Some (FunctionLike (B "N") (new_macro [B "args"] true (B "args") (B "args")), []), Some (ObjectLike (B "E") [], []), None).
Proof. vm_compute. reflexivity. Qed.

(** A comment in the parameter list, which C allows, is refused; a list without
    commas, which it does not, is taken. *)
Example parameter_comments : (define_of "F(a /* first */, b) a", define_of "F(a b) a") =
  (None, Some (FunctionLike (B "F") (new_macro [B "a"; B "b"] false [] (B "a")), [])).
Proof. vm_compute. reflexivity. Qed.

(** A comment between [#define] and the name, which C allows, makes the name
    empty and the name a part of the value. *)
Example comment_before_name : define_of " /* c */ X 1" = Some (ObjectLike [] (B " X 1"), []).
Proof. vm_compute. reflexivity. Qed.

(** ** Functions of the text ahead *)

Definition head_is (c : ascii) (t : bytes) : bool := match t with x :: _ => byte_eqb x c | [] => false end.
Definition while_text (p : ascii -> bool) (t : bytes) : bytes * bytes := (take (run_length p t) t, drop (run_length p t) t).
Definition skip_text_while (p : ascii -> bool) (t : bytes) : bytes := drop (run_length p t) t.
Definition name_char (c : ascii) : bool := isalnum c || byte_eqb c "_"%char.

(** The result of a reader, of the text: a value and the text left, or a message. *)
Definition reads {A} (o : res (A * source)) (spec : A * bytes + bytes) (n : nat) : Prop :=
  match spec with
  | inl (a, u) => exists s', o = Ok (a, s') /\ ahead_is s' u n
  | inr m => exists s', o = Raise m s'
  end.

(** A test that fails at the end of the text. *)
Definition tests_all (test : source -> bool * source) (p : ascii -> bool) : Prop :=
  tests test p /\ forall s n, ahead_is s [] n -> exists s', test s = (false, s') /\ ahead_is s' [] n.

Lemma head_is_peek c t : (match t with y :: _ => code y | [] => -1 end =? code c)%Z = head_is c t.
Proof. destruct t; [|apply code_eqb]. pose proof (code_range c). apply Z.eqb_neq. lia. Qed.
Lemma peek_is_ahead s c t n : ahead_is s t n -> exists s', peek_is s c = (head_is c t, s') /\ ahead_is s' t n.
Proof.
  intros Hs. unfold peek_is. destruct (peek_ahead _ _ _ Hs) as (s' & -> & H). exists s'. split; [|done]. f_equal.
  apply head_is_peek.
Qed.
Lemma blank_tests_all : tests_all blank_ahead blank_char.
Proof.
  split; [exact blank_tests|]. intros s n Hs. unfold blank_ahead.
  destruct (peek_ahead _ _ _ Hs) as (s1 & -> & H1). destruct (peek_ahead _ _ _ H1) as (s2 & E & H2).
  change (-1 =? code c_sp)%Z with false. cbv iota. rewrite E. by exists s2.
Qed.
Definition comma_char (c : ascii) : bool := blank_char c || byte_eqb c ","%char.
Lemma comma_tests_all : tests_all blank_or_comma comma_char.
Proof.
  split.
  - intros s x t n Hs. unfold blank_or_comma, comma_char. destruct (blank_tests _ _ _ _ Hs) as (s1 & -> & H1).
    destruct (blank_char x); [by exists s1|]. exact (peek_is_ahead _ ","%char _ _ H1).
  - intros s n Hs. unfold blank_or_comma. destruct (proj2 blank_tests_all _ _ Hs) as (s1 & -> & H1).
    exact (peek_is_ahead _ ","%char _ _ H1).
Qed.
Lemma name_tests : tests name_ahead name_char.
Proof.
  intros s x t n Hs. unfold name_ahead, name_char, isalnum_code. destruct (peek_ahead _ _ _ Hs) as (s1 & -> & H1).
  rewrite to_byte_code. replace (0 <=? code x)%Z with true by (pose proof (code_range x); symmetry; apply Z.leb_le; lia).
  destruct (isalnum x); [by exists s1|]. destruct (peek_ahead _ _ _ H1) as (s2 & -> & H2).
  rewrite code_eqb. by exists s2.
Qed.

Lemma while_peek_ahead test p s t n :
  tests_all test p -> ahead_is s t n ->
  exists s', while_peek test s = (take (run_length p t) t, s') /\ ahead_is s' (drop (run_length p t) t) n.
Proof.
  intros [Ht Hend] Hs. unfold while_peek.
  destruct (loop_total (fun st : bytes * source => exists u, ahead_is st.2 u n /\
      st.1 ++ take (run_length p u) u = take (run_length p t) t /\ drop (run_length p u) u = drop (run_length p t) t)
    (fun r => r.1 = take (run_length p t) t /\ ahead_is r.2 (drop (run_length p t) t) n)
    (fun st => unread st.2) (peek_body test)) with (fuel := S (unread s)) (s := (@nil ascii, s)) as ([acc s'] & -> & H1 & H2).
  - intros [acc s1] (u & Hu & H1 & H2). simpl in *.
    assert (Hn : unread s1 <= n) by (by destruct Hu as (_ & _ & D)).
    destruct u as [|x u]; simpl in *.
    { destruct (Hend _ _ Hu) as (s2 & -> & Hs2). simpl. rewrite app_nil_r in H1. by rewrite <- H2. }
    destruct (Ht s1 x u (unread s1)) as (s2 & -> & Hs2); [by destruct Hu as (A & B0 & _); split_and!|].
    destruct (p x); simpl in *.
    + destruct (get_ahead _ _ _ _ Hs2) as (s3 & -> & H3 & Hlt). simpl. split; [|destruct H3 as (_ & _ & D); lia].
      exists u. rewrite to_byte_code, <- app_assoc. split_and!; [eapply ahead_le; [exact H3|lia]|done|done].
    + rewrite app_nil_r in H1. rewrite <- H2. split; [done|]. by eapply ahead_le.
  - by exists t.
  - simpl. lia.
  - exists s'. simpl in *. by subst acc.
Qed.
Lemma blanks_ahead s t n :
  ahead_is s t n -> exists s', (while_peek blank_ahead s).2 = s' /\ ahead_is s' (skip_text_while blank_char t) n.
Proof. intros Hs. destruct (while_peek_ahead _ _ _ _ _ blank_tests_all Hs) as (s' & -> & H). by exists s'. Qed.
Lemma good_ahead s t n : ahead_is s t n -> good s = negb (is_nil t).
Proof. intros (Hs & <- & _). by apply steady_ahead. Qed.

(** *** The body *)

Definition splice_end (t : bytes) : bytes := if head_is c_nl t then drop 1 t else t.
Definition body_text_step (x : body_state * bytes) : body_state * bytes + (bytes * bytes + bytes) :=
  let '(st, t) := x in
  match t with
  | [] => inr (inl (b_text st, []))
  | c :: r =>
      if line_end_char c then inr (inl (b_text st, t))
      else if byte_eqb c c_bslash then
        match r with
        | d :: r' => if line_end_char d then inl (st, splice_end r') else inl (backslash_step st, r)
        | [] => inl (backslash_step st, r)
        end
      else if in_literal st then inl (literal_step (push st [c]) c, r)
      else if byte_eqb c c_dquote || byte_eqb c c_squote then inl (push (open_literal st c) [c], r)
      else if byte_eqb c "/"%char then
        if head_is "/"%char r then inr (inl (b_text st, drop_line r))
        else if head_is "*"%char r then
          match close_at Ascii.zero (drop 1 r) with
          | Some (_, u) => inl (comment_blank st, u)
          | None => inr (inr unterminated_comment)
          end
        else inl (push st (B "/"), r)
      else inl (push st [c], r)
  end.
Definition body_from (st : body_state) (t : bytes) : bytes * bytes + bytes :=
  default (inr []) (loop (S (length t)) body_text_step (st, t)).
(** The replacement list of a line's text, and what is left. *)
Definition body_text (t : bytes) : bytes * bytes + bytes :=
  match body_from body_start t with inl (b, u) => inl (trim_end b, u) | inr m => inr m end.

Lemma splice_end_length t : length (splice_end t) <= length t.
Proof. unfold splice_end. case_if; [rewrite length_drop|]; lia. Qed.
Lemma body_step_shorter x x' : body_text_step x = inl x' -> length x'.2 < length x.2.
Proof.
  destruct x as [st [|c r]]; [done|]. cbn [body_text_step snd length].
  destruct (line_end_char c); [done|]. destruct (byte_eqb c c_bslash).
  { destruct r as [|d r']; [intros [= <-]; simpl; lia|]. pose proof (splice_end_length r').
    destruct (line_end_char d); intros [= <-]; simpl; lia. }
  destruct (in_literal st); [intros [= <-]; simpl; lia|]. destruct (_ || _); [intros [= <-]; simpl; lia|].
  destruct (byte_eqb c "/"); [|intros [= <-]; simpl; lia]. destruct (head_is "/" r); [done|].
  destruct (head_is "*" r); [|intros [= <-]; simpl; lia].
  destruct (close_at _ _) as [[k u]|] eqn:E; [|done]. apply close_at_length in E. rewrite length_drop in E. intros [= <-]. simpl. lia.
Qed.
Lemma body_unfold st t :
  body_from st t = match body_text_step (st, t) with inl (st', t') => body_from st' t' | inr r => r end.
Proof.
  unfold body_from. etransitivity; [exact (loop_unfold (fun x => length x.2) body_text_step (inr []) (st, t) body_step_shorter)|].
  by destruct (body_text_step (st, t)) as [[st' t']|].
Qed.

Definition step_reads (o : body_state * source + res (bytes * source)) (spec : body_state * bytes + (bytes * bytes + bytes)) (n : nat) : Prop :=
  match o with
  | inl (st, s) => exists v, spec = inl (st, v) /\ ahead_is s v (n - 1) /\ 0 < n
  | inr o => exists sp, spec = inr sp /\ reads o sp n
  end.

(** After a backslash that was read: the end of a line, or the backslash. *)
Lemma backslash_ahead st s r n :
  ahead_is s r n ->
  step_reads (let '(next, s) := peek s in
              if is_line_end next then
                let s := (get s).2 in
                let '(nl, s) := peek_is s c_nl in
                inl (st, if nl then (get s).2 else s)
              else inl (backslash_step st, s))
    (match r with
     | d :: r' => if line_end_char d then inl (st, splice_end r') else inl (backslash_step st, r)
     | [] => inl (backslash_step st, r)
     end) (S n).
Proof.
  intros Hs. destruct (peek_ahead _ _ _ Hs) as (s1 & -> & H1). destruct r as [|d r].
  { exists []. rewrite Nat.sub_succ, Nat.sub_0_r. split_and!; [done|done|lia]. }
  rewrite is_line_end_char. destruct (line_end_char d).
  2:{ exists (d :: r). rewrite Nat.sub_succ, Nat.sub_0_r. split_and!; [done|done|lia]. }
  destruct (get_ahead _ _ _ _ H1) as (s2 & -> & H2 & Hn). cbn [snd].
  destruct (peek_is_ahead _ c_nl _ _ H2) as (s3 & -> & H3). exists (splice_end r). rewrite Nat.sub_succ, Nat.sub_0_r.
  split_and!; [done| |lia]. unfold splice_end. destruct r as [|e r]; simpl in *; [eapply ahead_le; [exact H3|lia]|].
  destruct (byte_eqb e c_nl); [|eapply ahead_le; [exact H3|lia]].
  destruct (get_ahead _ _ _ _ H3) as (s4 & -> & H4 & _). eapply ahead_le; [exact H4|lia].
Qed.

(** After a slash that was read outside literals. *)
Lemma slash_ahead st s row r n :
  ahead_is s r n ->
  step_reads (let col := column s in
              let '(nx, s) := peek s in
              if (nx =? code "/"%char)%Z then inr (Ok (b_text st, (read_while not_line_end (get s).2).2))
              else if (nx =? code "*"%char)%Z then
                match consume_block_comment (get s).2 row col false with
                | comment_closed _ s => inl (comment_blank st, s)
                | comment_open _ s => inr (Raise unterminated_comment s)
                end
              else inl (push st (B "/"), s))
    (if head_is "/"%char r then inr (inl (b_text st, drop_line r))
     else if head_is "*"%char r then
       match close_at Ascii.zero (drop 1 r) with
       | Some (_, u) => inl (comment_blank st, u)
       | None => inr (inr unterminated_comment)
       end
     else inl (push st (B "/"), r)) (S n).
Proof.
  intros Hs. cbv zeta. destruct (peek_ahead _ _ _ Hs) as (s1 & -> & H1). rewrite !head_is_peek.
  destruct r as [|d r]; cbn [head_is].
  { exists []. rewrite Nat.sub_succ, Nat.sub_0_r. split_and!; [done|done|lia]. }
  destruct (byte_eqb d "/") eqn:E1.
  { destruct (get_ahead _ _ _ _ H1) as (s2 & -> & H2 & _). cbn [snd].
    destruct (read_while_ahead _ _ _ _ _ not_line_end_tests H2) as (s3 & -> & H3). cbn [snd].
    eexists. split; [reflexivity|]. exists s3. split; [done|]. reflect_bool. subst d.
    change (drop_line ("/"%char :: r)) with (drop_line r). eapply ahead_le; [exact H3|lia]. }
  destruct (byte_eqb d "*").
  2:{ exists (d :: r). rewrite Nat.sub_succ, Nat.sub_0_r. split_and!; [done|done|lia]. }
  destruct (get_ahead _ _ _ _ H1) as (s2 & -> & H2 & _). cbn [snd]. change (drop 1 (d :: r)) with r.
  pose proof (comment_ahead _ _ _ row (column s) H2) as Hc. destruct (close_at _ r) as [[k u]|].
  - destruct Hc as (s3 & -> & H3). exists u. split_and!; [done|eapply ahead_le; [exact H3|lia]|lia].
  - destruct Hc as (k & s3 & ->). eexists. split; [reflexivity|]. by exists s3.
Qed.

Lemma body_step_ahead st s t n : ahead_is s t n -> step_reads (body_step (st, s)) (body_text_step (st, t)) n.
Proof.
  intros Hs. unfold body_step. rewrite (at_end_ahead _ _ _ Hs). destruct t as [|c r]; cbn [is_nil body_text_step].
  { eexists. split; [reflexivity|]. by exists s. }
  destruct (peek_ahead _ _ _ Hs) as (s1 & -> & H1). rewrite is_line_end_char, !code_eqb, to_byte_code.
  destruct (line_end_char c).
  { eexists. split; [reflexivity|]. by exists s1. }
  destruct (get_ahead _ _ _ _ H1) as (s2 & Hg & H2 & Hn). rewrite Hg. cbn [snd]. rewrite to_byte_code.
  destruct (byte_eqb c c_bslash).
  { replace n with (S (n - 1)) by lia. by apply backslash_ahead. }
  destruct (in_literal st); [by exists r|]. destruct (_ || _); [by exists r|].
  destruct (byte_eqb c "/"); [|by exists r].
  replace n with (S (n - 1)) by lia. by apply slash_ahead.
Qed.

(** [read_macro_body] reads [body_text] of the text ahead. *)
Lemma body_ahead s t n : ahead_is s t n -> reads (read_macro_body s) (body_text t) n.
Proof.
  intros Hs. unfold read_macro_body, body_text.
  destruct (loop_total (fun x => exists u, ahead_is x.2 u n /\ body_from x.1 u = body_from body_start t)
    (fun o => reads o (body_from body_start t) n) (fun x => unread x.2) body_step)
    with (fuel := S (unread s)) (s := (body_start, s)) as (r & -> & Hr); [|by exists t|simpl; lia|].
  - intros [st s1] (u & Hu & <-). cbn [fst snd] in *.
    assert (Hu1 : ahead_is s1 u (unread s1)) by (destruct Hu as (A & B0 & _); by split_and!).
    assert (Hn : unread s1 <= n) by (by destruct Hu as (_ & _ & D)).
    pose proof (body_step_ahead st s1 u _ Hu1) as H. rewrite body_unfold. unfold step_reads in H.
    destruct (body_step (st, s1)) as [[st' s']|o].
    + destruct H as (v & -> & H2 & H3). cbn [fst snd]. split; [|destruct H2 as (_ & _ & D); lia].
      exists v. split; [eapply ahead_le; [exact H2|lia]|done].
    + destruct H as (sp & -> & H2). destruct sp as [[b v]|m]; [|exact H2].
      destruct H2 as (s' & -> & H2). exists s'. split; [done|]. by eapply ahead_le.
  - simpl. destruct (body_from body_start t) as [[b u]|m].
    + destruct Hr as (s' & -> & H). by exists s'.
    + destruct Hr as (s' & ->). by exists s'.
Qed.

(** *** The parameters *)

Definition ellipsis_text (err t : bytes) : bytes + bytes :=
  let t := drop 1 t in
  if negb (head_is "."%char t) then inr err
  else
    let t := drop 1 t in
    if negb (head_is "."%char t) then inr err
    else
      let t := skip_text_while blank_char (drop 1 t) in
      if head_is ")"%char t then inl t else inr last_error.

Definition param_text_step (x : param_state * bytes) : param_state * bytes + (param_state * bytes + bytes) :=
  let '(st, t) := x in
  if is_nil t then inr (inl (st, t))
  else if head_is ")"%char t then inr (inl (st, t))
  else
    let t := skip_text_while comma_char t in
    if head_is ")"%char t then inr (inl (st, t))
    else if head_is "."%char t then
      match ellipsis_text ellipsis_error t with
      | inl u => inr (inl (Params (p_params st) true (p_variadic_param st), u))
      | inr m => inr (inr m)
      end
    else
      let '(param, t) := while_text name_char t in
      if is_nil param then inr (inr param_error)
      else if head_is "."%char t then
        match ellipsis_text named_ellipsis_error t with
        | inl u => inr (inl (Params (p_params st ++ [param]) true param, u))
        | inr m => inr (inr m)
        end
      else inl (Params (p_params st ++ [param]) (p_variadic st) (p_variadic_param st), t).
Definition params_from (st : param_state) (t : bytes) : param_state * bytes + bytes :=
  default (inr []) (loop (S (length t)) param_text_step (st, t)).
Definition params_start : param_state := Params [] false [].
Definition params_text (t : bytes) : param_state * bytes + bytes := params_from params_start t.

Lemma while_text_length p t : length (while_text p t).1 + length (while_text p t).2 = length t.
Proof. unfold while_text. simpl. rewrite length_take, length_drop. pose proof (run_length_spec p t). lia. Qed.
Lemma param_step_shorter x x' : param_text_step x = inl x' -> length x'.2 < length x.2.
Proof.
  destruct x as [st t]. unfold param_text_step. cbn [snd]. destruct (is_nil t); [done|]. destruct (head_is ")" t); [done|].
  cbv zeta. destruct (head_is ")" (skip_text_while _ t)); [done|]. destruct (head_is "." (skip_text_while _ t)).
  { destruct (ellipsis_text _ _); [discriminate|]. discriminate. }
  pose proof (while_text_length name_char (skip_text_while comma_char t)) as H.
  destruct (while_text _ _) as [param u]. destruct param as [|c param]; [done|].
  destruct (head_is "." u); [destruct (ellipsis_text _ _); discriminate|]. intros [= <-].
  simpl in *. unfold skip_text_while in H. rewrite length_drop in H. lia.
Qed.
Lemma params_unfold st t :
  params_from st t = match param_text_step (st, t) with inl (st', t') => params_from st' t' | inr r => r end.
Proof.
  unfold params_from. etransitivity; [exact (loop_unfold (fun x => length x.2) param_text_step (inr []) (st, t) param_step_shorter)|].
  by destruct (param_text_step (st, t)) as [[st' t']|].
Qed.

Lemma get_head c s t n : ahead_is s t n -> head_is c t = true -> ahead_is (get s).2 (drop 1 t) (n - 1) /\ 0 < n.
Proof.
  intros Hs. destruct t as [|x t]; simpl; [done|]. intros _. destruct (get_ahead _ _ _ _ Hs) as (s' & -> & H & Hn).
  simpl. by rewrite drop_0.
Qed.
Definition reads_end (o : res source) (spec : bytes + bytes) (n : nat) : Prop :=
  match spec with inl u => exists s', o = Ok s' /\ ahead_is s' u n | inr m => exists s', o = Raise m s' end.

Lemma ellipsis_ahead err s t n : ahead_is s t n -> head_is "."%char t = true -> reads_end (ellipsis err s) (ellipsis_text err t) n.
Proof.
  intros Hs Hd. destruct (get_head _ _ _ _ Hs Hd) as [H1 _]. unfold ellipsis, ellipsis_text.
  destruct (peek_is_ahead _ "."%char _ _ H1) as (s1 & -> & H2).
  destruct (head_is "." (drop 1 t)) eqn:E1; cbn [negb]; [|by exists s1].
  destruct (get_head _ _ _ _ H2 E1) as [H3 _]. destruct (peek_is_ahead _ "."%char _ _ H3) as (s2 & -> & H4).
  destruct (head_is "." (drop 1 (drop 1 t))) eqn:E2; cbn [negb]; [|by exists s2].
  destruct (get_head _ _ _ _ H4 E2) as [H5 _]. destruct (blanks_ahead _ _ _ H5) as (s3 & -> & H6).
  destruct (peek_is_ahead _ ")"%char _ _ H6) as (s4 & -> & H7).
  destruct (head_is ")" _); [|by exists s4]. exists s4. split; [done|]. eapply ahead_le; [exact H7|lia].
Qed.

Lemma param_body_ahead st s t n :
  ahead_is s t n ->
  match param_body (st, s) with
  | inl (st', s') => exists v, param_text_step (st, t) = inl (st', v) /\ ahead_is s' v n
  | inr o => exists sp, param_text_step (st, t) = inr sp /\ reads o sp n
  end.
Proof.
  intros Hs. unfold param_body, param_text_step. rewrite (good_ahead _ _ _ Hs), negb_involutive.
  destruct (is_nil t).
  { eexists. split; [reflexivity|]. by exists s. }
  destruct (peek_is_ahead _ ")"%char _ _ Hs) as (s1 & -> & H1). destruct (head_is ")" t).
  { eexists. split; [reflexivity|]. by exists s1. }
  destruct (while_peek_ahead _ _ _ _ _ comma_tests_all H1) as (s2 & -> & H2). cbn [snd]. cbv zeta.
  change (drop (run_length comma_char t) t) with (skip_text_while comma_char t) in H2. set (u := skip_text_while comma_char t) in *.
  destruct (peek_is_ahead _ ")"%char _ _ H2) as (s3 & -> & H3). destruct (head_is ")" u).
  { eexists. split; [reflexivity|]. by exists s3. }
  destruct (peek_is_ahead _ "."%char _ _ H3) as (s4 & -> & H4). destruct (head_is "." u) eqn:Ed.
  { pose proof (ellipsis_ahead ellipsis_error _ _ _ H4 Ed) as He. destruct (ellipsis_text _ _) as [v|m].
    - destruct He as (s5 & -> & H5). eexists. split; [reflexivity|]. by exists s5.
    - destruct He as (s5 & ->). eexists. split; [reflexivity|]. by exists s5. }
  destruct (read_while_ahead _ _ _ _ _ name_tests H4) as (s5 & -> & H5). unfold while_text.
  set (param := take _ u) in *. set (v := drop _ u) in *. destruct (is_nil param).
  { eexists. split; [reflexivity|]. by exists s5. }
  destruct (peek_is_ahead _ "."%char _ _ H5) as (s6 & -> & H6). destruct (head_is "." v) eqn:Ev; [|by exists v].
  pose proof (ellipsis_ahead named_ellipsis_error _ _ _ H6 Ev) as He. destruct (ellipsis_text _ _) as [w|m].
  - destruct He as (s7 & -> & H7). eexists. split; [reflexivity|]. by exists s7.
  - destruct He as (s7 & ->). eexists. split; [reflexivity|]. by exists s7.
Qed.

Lemma ahead_unread s : length (ahead s) <= unread s.
Proof.
  unfold ahead, unread. rewrite length_app, length_rev. pose proof (phase2_length (drop (_gpos s) (_buf s))) as H.
  rewrite length_drop in H. lia.
Qed.

(** [read_params] reads [params_text] of the text ahead. *)
Lemma params_ahead s t n : ahead_is s t n -> reads (read_params s) (params_text t) n.
Proof.
  intros Hs. unfold read_params, params_text.
  destruct (loop_total (fun x => exists u, ahead_is x.2 u n /\ params_from x.1 u = params_from params_start t)
    (fun o => reads o (params_from params_start t) n) (fun x => length (ahead x.2)) param_body)
    with (fuel := S (unread s)) (s := (params_start, s)) as (r & Hr & Hq); [|by exists t| |].
  - intros [st s1] (u & Hu & <-). cbn [fst snd] in *. pose proof (param_body_ahead st s1 u n Hu) as H.
    rewrite params_unfold. destruct (param_body (st, s1)) as [[st' s']|o].
    + destruct H as (v & E & H). cbn [fst snd]. rewrite E. split; [by exists v|].
      apply param_step_shorter in E. simpl in E. destruct H as (_ & -> & _). by destruct Hu as (_ & -> & _).
    + destruct H as (sp & -> & H). exact H.
  - simpl. pose proof (ahead_unread s). lia.
  - unfold params_start in Hr. rewrite Hr. exact Hq.
Qed.

(** *** A definition *)

Definition skip_blanks : bytes -> bytes := skip_text_while blank_char.
Definition value_text (t : bytes) : bytes * bytes + bytes := body_text (skip_blanks t).
Definition after_params (name : bytes) (ps : param_state) (t : bytes) : definition * bytes + bytes :=
  match value_text (if head_is ")"%char t then drop 1 t else t) with
  | inl (b, u) => inl (FunctionLike name (new_macro (p_params ps) (p_variadic ps) (p_variadic_param ps) b), u)
  | inr m => inr m
  end.
(** The definition the text of a line holds, and what is left. *)
Definition define_text (t : bytes) : definition * bytes + bytes :=
  let '(name, t) := while_text name_char (skip_blanks t) in
  if head_is "("%char t then
    match params_text (drop 1 t) with
    | inr m => inr m
    | inl (ps, t) => after_params name ps t
    end
  else match value_text t with inl (v, u) => inl (ObjectLike name v, u) | inr m => inr m end.

Lemma name_ahead_text s t n :
  ahead_is s t n -> exists s', read_name s = ((while_text name_char (skip_blanks t)).1, s') /\ ahead_is s' (while_text name_char (skip_blanks t)).2 n.
Proof.
  intros Hs. unfold read_name. destruct (blanks_ahead _ _ _ Hs) as (s1 & -> & H1).
  exact (read_while_ahead _ _ _ _ _ name_tests H1).
Qed.
Lemma value_ahead s t n : ahead_is s t n -> reads (read_macro_body (while_peek blank_ahead s).2) (value_text t) n.
Proof. intros Hs. destruct (blanks_ahead _ _ _ Hs) as (s1 & -> & H1). by apply body_ahead. Qed.

Lemma define_ahead s t n : ahead_is s t n -> reads (read_define s) (define_text t) n.
Proof.
  intros Hs. unfold read_define, define_text. destruct (name_ahead_text _ _ _ Hs) as (s1 & -> & H1).
  destruct (while_text name_char (skip_blanks t)) as [name u]. cbn [fst snd] in *.
  destruct (peek_is_ahead _ "("%char _ _ H1) as (s2 & -> & H2). destruct (head_is "(" u) eqn:Ep.
  - destruct (get_head _ _ _ _ H2 Ep) as [H3 _]. pose proof (params_ahead _ _ _ H3) as Hp.
    destruct (params_text (drop 1 u)) as [[ps v]|m].
    2:{ destruct Hp as (s3 & ->). by exists s3. }
    destruct Hp as (s3 & -> & H4). destruct (peek_is_ahead _ ")"%char _ _ H4) as (s4 & -> & H5). unfold after_params.
    set (w := if head_is ")" v then drop 1 v else v).
    assert (H6 : ahead_is (if head_is ")" v then (get s4).2 else s4) w n).
    { unfold w. destruct (head_is ")" v) eqn:Ec; [|eapply ahead_le; [exact H5|lia]].
      destruct (get_head _ _ _ _ H5 Ec) as [H6 _]. eapply ahead_le; [exact H6|lia]. }
    pose proof (value_ahead _ _ _ H6) as Hv. destruct (value_text w) as [[b x]|m].
    + destruct Hv as (s5 & -> & H7). by exists s5.
    + destruct Hv as (s5 & ->). by exists s5.
  - pose proof (value_ahead _ _ _ H2) as Hv. destruct (value_text u) as [[b x]|m].
    + destruct Hv as (s5 & -> & H7). by exists s5.
    + destruct Hv as (s5 & ->). by exists s5.
Qed.
