(* ===== verification/DefineLines.v ===== *)
(** What a [#define] line of C stands for, and the printing of what was read.

    [define_reads_c]: the line of a name, a parameter list, a replacement list of
    characters, literals and comments and a comment at the end is read as the
    macro C gives it.  [define_reads_back]: a definition that was read, printed
    as one line, is read as the same definition. *)
From stdpp Require Import gmap.
From S2P Require Import Prelude Source Literals Conditional Directives MacroTokens MacroExpand IfExpand Defines.
#[local] Open Scope nat_scope.

(** ** What a line of C stands for

    The replacement list is characters, literals and comments ([piece]), to the
    end of the line or a comment that ends with it. *)

Inductive piece := Plain (c : ascii) | Quoted (q : ascii) (t : bytes) | Comment (t : bytes).
Definition spell (p : piece) : bytes :=
  match p with Plain c => [c] | Quoted q t => [q] ++ t ++ [q] | Comment t => B "/*" ++ t ++ B "*/" end.
(** The characters between the quotes: escapes in pairs, no quote of its own. *)
Fixpoint inner (q : ascii) (t : bytes) : bool :=
  match t with
  | [] => true
  | c :: r =>
      if byte_eqb c c_bslash then match r with d :: r' => negb (line_end_char d) && inner q r' | [] => false end
      else negb (byte_eqb c q) && negb (line_end_char c) && inner q r
  end.
Definition piece_ok (p : piece) (after : bytes) : bool :=
  match p with
  | Plain c =>
      negb (line_end_char c) && negb (byte_eqb c c_dquote || byte_eqb c c_squote) &&
      negb (byte_eqb c "/"%char && (head_is "/"%char after || head_is "*"%char after)) &&
      negb (byte_eqb c c_bslash && match after with d :: _ => line_end_char d | [] => false end)
  | Quoted q t => (byte_eqb q c_dquote || byte_eqb q c_squote) && inner q t
  | Comment t => bool_decide (close_at Ascii.zero (t ++ B "*/") = Some (t ++ B "*/", []))
  end.
Fixpoint pieces_ok (l : list piece) (after : bytes) : bool :=
  match l with [] => true | p :: l => piece_ok p (flat_map spell l ++ after) && pieces_ok l after end.
(** C's translation phase 3: a comment is one blank, none where one stands. *)
Definition render_piece (out : bytes) (p : piece) : bytes :=
  match p with Comment _ => if blank_end out then out else out ++ B " " | _ => out ++ spell p end.
Definition render (l : list piece) : bytes := fold_left render_piece l [].
Definition plain_line (t : bytes) : Prop := Forall (fun c => line_end_char c = false) t.
(** The end of the line, and what of it is read. *)
Definition line_rest (rest : bytes) : Prop := match rest with c :: _ => line_end_char c = true | [] => True end.
Definition line_tail (e : bytes) : Prop := e = [] \/ exists t, e = B "//" ++ t /\ plain_line t.

Definition outside (out : bytes) : body_state := Body out lmNone false.
Definition mode_of (q : ascii) : LiteralMode := if byte_eqb q c_dquote then lmString else lmCharacter.
Definition quote (q : ascii) : Prop := byte_eqb q c_dquote || byte_eqb q c_squote = true.

Lemma quote_cases q : quote q -> q = c_dquote \/ q = c_squote.
Proof. unfold quote. intros H. apply orb_true_iff in H as [H|H]; reflect_bool; auto. Qed.
Lemma mode_in_literal out q e : in_literal (Body out (mode_of q) e) = true.
Proof. unfold in_literal, mode_of. cbn [literal]. by destruct (byte_eqb q c_dquote). Qed.

Lemma escape_read q out d t :
  line_end_char d = false -> match t with x :: _ => line_end_char x = false | [] => True end ->
  body_from (Body out (mode_of q) false) (c_bslash :: d :: t) = body_from (Body (out ++ [c_bslash; d]) (mode_of q) false) t.
Proof.
  intros Hd Ht. rewrite body_unfold. cbn [body_text_step]. change (line_end_char c_bslash) with false.
  change (byte_eqb c_bslash c_bslash) with true. cbv iota. rewrite Hd. unfold backslash_step at 1. rewrite mode_in_literal.
  cbn [b_text literal b_escaped negb]. rewrite body_unfold. cbn [body_text_step]. rewrite Hd. destruct (byte_eqb d c_bslash) eqn:Hb.
  - apply byte_eqb_eq in Hb. subst d. unfold backslash_step. rewrite mode_in_literal. cbn [b_text literal b_escaped negb].
    rewrite <- app_assoc. destruct t as [|x t]; [done|]. by rewrite Ht.
  - rewrite mode_in_literal. unfold literal_step, push. cbn [b_text literal b_escaped]. by rewrite <- app_assoc.
Qed.
Lemma literal_char_read q out c t :
  quote q -> line_end_char c = false -> byte_eqb c c_bslash = false ->
  body_from (Body out (mode_of q) false) (c :: t) = body_from (Body (out ++ [c]) (if byte_eqb c q then lmNone else mode_of q) false) t.
Proof.
  intros Hq He Hb. rewrite body_unfold. cbn [body_text_step]. rewrite He, Hb, mode_in_literal.
  assert (Hs : literal_step (push (Body out (mode_of q) false) [c]) c = Body (out ++ [c]) (if byte_eqb c q then lmNone else mode_of q) false); [|by rewrite Hs].
  unfold literal_step, push. cbn [b_text literal b_escaped]. apply quote_cases in Hq as [-> | ->];
    [change (mode_of c_dquote) with lmString|change (mode_of c_squote) with lmCharacter]; destruct (byte_eqb c c_dquote), (byte_eqb c c_squote); reflexivity.
Qed.
Lemma inner_head q t r : quote q -> inner q t = true -> match t ++ [q] ++ r with x :: _ => line_end_char x = false | [] => True end.
Proof.
  intros Hq. destruct t as [|z t]; [intros _; by apply quote_cases in Hq as [-> | ->]|]. cbn [inner app].
  destruct (byte_eqb z c_bslash) eqn:Ez; [apply byte_eqb_eq in Ez; by subst z|]. intros H. apply andb_true_iff in H as [H _].
  apply andb_true_iff in H as [_ H]. by apply negb_true_iff in H.
Qed.
Lemma inner_read q t r : quote q -> forall n out, length t <= n -> inner q t = true ->
  body_from (Body out (mode_of q) false) (t ++ [q] ++ r) = body_from (outside (out ++ t ++ [q])) r.
Proof.
  intros Hq n. revert t. induction n as [|n IH]; intros [|c t] out Hn Hi; try (simpl in Hn; lia).
  1-2: cbn [app]; rewrite literal_char_read by (done || by apply quote_cases in Hq as [-> | ->]); by rewrite byte_eqb_refl.
  cbn [inner] in Hi. simpl in Hn. destruct (byte_eqb c c_bslash) eqn:Hb.
  - apply byte_eqb_eq in Hb. subst c. destruct t as [|d t]; [done|]. apply andb_true_iff in Hi as [Hd Hi]. apply negb_true_iff in Hd.
    rewrite <- !app_comm_cons, escape_read by (done || by apply inner_head). rewrite IH by (simpl in *; lia || done).
    by rewrite <- app_assoc.
  - apply andb_true_iff in Hi as [Hi Ht]. apply andb_true_iff in Hi as [Hc He]. apply negb_true_iff in Hc, He.
    rewrite <- app_comm_cons, literal_char_read, Hc by done. rewrite IH by (lia || done). by rewrite <- app_assoc.
Qed.

Lemma open_read q out t : quote q -> body_from (outside out) (q :: t) = body_from (Body (out ++ [q]) (mode_of q) false) t.
Proof. intros Hq. rewrite body_unfold. by apply quote_cases in Hq as [-> | ->]. Qed.

Lemma close_at_app p t k u v : close_at p t = Some (k, u) -> close_at p (t ++ v) = Some (k, u ++ v).
Proof.
  revert p k. induction t as [|c t IH]; [done|]. intros p k. cbn [close_at app]. case_if; [by intros [= <- <-]|].
  destruct (close_at c t) as [[k' u']|] eqn:E; [|done]. intros [= <- <-]. by rewrite (IH _ _ E).
Qed.

Lemma piece_read p out after : piece_ok p after = true -> body_from (outside out) (spell p ++ after) = body_from (outside (render_piece out p)) after.
Proof.
  destruct p as [c|q t|t]; cbn [piece_ok spell render_piece]; intros H.
  - apply andb_true_iff in H as [H Hb]. apply andb_true_iff in H as [H Hs]. apply andb_true_iff in H as [Hl Hq].
    apply negb_true_iff in Hl, Hq, Hs, Hb. cbn [app]. rewrite body_unfold. cbn [body_text_step]. rewrite Hl, Hq.
    destruct (byte_eqb c c_bslash) eqn:E.
    { apply byte_eqb_eq in E. subst c. cbn [andb] in Hb. by destruct after as [|d after]; [|rewrite Hb]. }
    change (in_literal (outside out)) with false. cbv iota. destruct (byte_eqb c "/") eqn:Es; [|done].
    apply byte_eqb_eq in Es. subst c. cbn [andb] in Hs. apply orb_false_iff in Hs as [-> ->]. done.
  - apply andb_true_iff in H as [Hq Hi]. cbn [app]. rewrite open_read, <- app_assoc by done.
    rewrite (inner_read q t after Hq (length t)) by done. by rewrite <- app_assoc.
  - apply bool_decide_eq_true in H. apply (close_at_app _ _ _ _ after) in H. rewrite <- !app_assoc in *.
    rewrite body_unfold. change (body_text_step (outside out, B "/*" ++ t ++ B "*/" ++ after)) with
      (match close_at Ascii.zero (t ++ B "*/" ++ after) with
       | Some (_, u) => @inl _ (bytes * bytes + bytes) (comment_blank (outside out), u)
       | None => inr (inr unterminated_comment) end).
    rewrite H. unfold comment_blank. cbn [b_text outside app]. by destruct (blank_end out).
Qed.
Lemma pieces_read l out after : pieces_ok l after = true ->
  body_from (outside out) (flat_map spell l ++ after) = body_from (outside (fold_left render_piece l out)) after.
Proof.
  revert out. induction l as [|p l IH]; intros out H; [done|]. cbn [pieces_ok flat_map fold_left] in *.
  apply andb_true_iff in H as [Hp Hl]. rewrite <- app_assoc, piece_read by done. by apply IH.
Qed.
Lemma tail_read out e rest : line_tail e -> line_rest rest -> body_from (outside out) (e ++ rest) = inl (out, rest).
Proof.
  intros [->|(t & -> & Ht)] Hr; rewrite body_unfold.
  - destruct rest as [|c rest]; [done|]. cbn [app body_text_step]. by rewrite Hr.
  - change (body_text_step (outside out, (B "//" ++ t) ++ rest)) with
      (@inr (body_state * bytes) (bytes * bytes + bytes) (inl (out, drop_line (("/"%char :: t) ++ rest)))).
    rewrite drop_line_app by (by constructor). unfold drop_line. destruct rest as [|c rest]; [done|].
    cbn [run_length]. by rewrite Hr.
Qed.
Lemma body_of_pieces l e rest : line_tail e -> line_rest rest -> pieces_ok l (e ++ rest) = true ->
  body_text (flat_map spell l ++ e ++ rest) = inl (trim_end (render l), rest).
Proof.
  intros He Hr Hl. unfold body_text. change body_start with (outside []). by rewrite pieces_read, tail_read.
Qed.

(** ** The parameter list of C

    Each name after blanks and commas; then the parenthesis, [...], or a last
    name with [...] glued to it. *)

Inductive params_close := Closed (w : bytes) | Dots (sep w : bytes) | NamedDots (sep x w : bytes).
Definition is_name (p : bytes) : Prop := p <> [] /\ Forall (fun c => name_char c = true) p.
Definition separator (s : bytes) : Prop := Forall (fun c => comma_char c = true) s.
Definition blanks (w : bytes) : Prop := Forall (fun c => blank_char c = true) w.
Definition list_text (l : list (bytes * bytes)) : bytes := flat_map (fun x => x.1 ++ x.2) l.
Definition close_text (e : params_close) : bytes :=
  match e with Closed w => w | Dots sep w => sep ++ B "..." ++ w | NamedDots sep x w => sep ++ x ++ B "..." ++ w end.
Definition list_state (l : list (bytes * bytes)) (e : params_close) : param_state :=
  match e with
  | Closed _ => Params (map snd l) false []
  | Dots _ _ => Params (map snd l) true []
  | NamedDots _ x _ => Params (map snd l ++ [x]) true x
  end.
(** Names stand apart. *)
Fixpoint list_ok (l : list (bytes * bytes)) (first : bool) : Prop :=
  match l with [] => True | (sep, x) :: l => separator sep /\ (first = false -> sep <> []) /\ is_name x /\ list_ok l false end.
Definition close_ok (e : params_close) (first : bool) : Prop :=
  match e with
  | Closed w => blanks w
  | Dots sep w => separator sep /\ (first = false -> sep <> []) /\ blanks w
  | NamedDots sep x w => separator sep /\ (first = false -> sep <> []) /\ is_name x /\ blanks w
  end.

Lemma name_char_other c : name_char c = true ->
  comma_char c = false /\ blank_char c = false /\ byte_eqb c ")"%char = false /\ byte_eqb c "."%char = false /\ byte_eqb c "("%char = false.
Proof. destruct c as [[] [] [] [] [] [] [] []]; vm_compute; done. Qed.
Lemma comma_char_other c : comma_char c = true -> name_char c = false /\ byte_eqb c ")"%char = false /\ byte_eqb c "."%char = false.
Proof. destruct c as [[] [] [] [] [] [] [] []]; vm_compute; done. Qed.
Lemma blanks_separator w : blanks w -> separator w.
Proof. intros H. eapply Forall_impl; [exact H|]. unfold comma_char. by intros c ->. Qed.

Lemma while_text_app p a b :
  Forall (fun c => p c = true) a -> match b with c :: _ => p c = false | [] => True end -> while_text p (a ++ b) = (a, b).
Proof.
  intros Ha Hb. unfold while_text. rewrite run_length_app by done.
  replace (run_length p b) with 0 by (destruct b as [|c b]; [done|]; simpl; by rewrite Hb).
  rewrite Nat.add_0_r, take_app_length, drop_app_length. done.
Qed.
Lemma skip_while_app p a b :
  Forall (fun c => p c = true) a -> match b with c :: _ => p c = false | [] => True end -> skip_text_while p (a ++ b) = b.
Proof. intros Ha Hb. change (skip_text_while p (a ++ b)) with (while_text p (a ++ b)).2. by rewrite while_text_app. Qed.

(** What the reader looks at after a separator. *)
Lemma separator_step st sep t :
  separator sep -> t <> [] -> match t with c :: _ => comma_char c = false /\ byte_eqb c ")"%char = false | [] => True end ->
  param_text_step (st, sep ++ t) =
    if head_is "."%char t then
      match ellipsis_text ellipsis_error t with
      | inl u => inr (inl (Params (p_params st) true (p_variadic_param st), u))
      | inr m => inr (inr m)
      end
    else
      let '(param, t) := while_text name_char t in
      if is_nil param then inr (inr param_error)
      else if head_is "."%char t then
        match ellipsis_text named_ellipsis_error t with
        | inl u => inr (inl (Params (p_params st ++ [param]) true param, u))
        | inr m => inr (inr m)
        end
      else inl (Params (p_params st ++ [param]) (p_variadic st) (p_variadic_param st), t).
Proof.
  intros Hs Ht Hc. unfold param_text_step. destruct t as [|c t]; [done|]. destruct Hc as [Hc1 Hc2].
  rewrite skip_while_app by done. cbv zeta. replace (is_nil (sep ++ c :: t)) with false by (by destruct sep).
  replace (head_is ")" (sep ++ c :: t)) with false. { cbn [head_is]. by rewrite Hc2. }
  destruct sep as [|d sep]; [by cbn [app head_is]; rewrite Hc2|]. inversion Hs as [|? ? Hd _]. subst.
  cbn [app head_is]. by destruct (comma_char_other d Hd) as (_ & -> & _).
Qed.

Definition stops (v : bytes) : Prop := match v with c :: _ => name_char c = false | [] => True end.

Lemma name_step st sep x v :
  separator sep -> is_name x -> stops v -> head_is "."%char v = false ->
  params_from st (sep ++ x ++ v) = params_from (Params (p_params st ++ [x]) (p_variadic st) (p_variadic_param st)) v.
Proof.
  intros Hsep [Hx Hn] Hv Hd. rewrite params_unfold. destruct x as [|c x]; [done|].
  assert (Hc : name_char c = true) by (by inversion Hn). destruct (name_char_other c Hc) as (H1 & _ & H3 & H4 & _).
  rewrite separator_step by done. replace (head_is "." ((c :: x) ++ v)) with false by (cbn [app head_is]; by rewrite H4).
  rewrite while_text_app by done.
  cbn [is_nil]. by rewrite Hd.
Qed.
Lemma dots_text err w v : blanks w -> ellipsis_text err (B "..." ++ w ++ ")"%char :: v) = inl (")"%char :: v).
Proof.
  intros Hw. unfold ellipsis_text. change (drop 1 (B "..." ++ w ++ ")"%char :: v)) with (B ".." ++ w ++ ")"%char :: v).
  change (head_is "." (B ".." ++ w ++ ")"%char :: v)) with true. cbn [negb]. cbv zeta.
  change (drop 1 (B ".." ++ w ++ ")"%char :: v)) with (B "." ++ w ++ ")"%char :: v).
  change (head_is "." (B "." ++ w ++ ")"%char :: v)) with true. cbn [negb].
  change (drop 1 (B "." ++ w ++ ")"%char :: v)) with (w ++ ")"%char :: v). by rewrite skip_while_app.
Qed.
Lemma close_step st e v : close_ok e true -> p_variadic st = false ->
  params_from st (close_text e ++ ")"%char :: v) =
    inl (match e with
         | Closed _ => st
         | Dots _ _ => Params (p_params st) true (p_variadic_param st)
         | NamedDots _ x _ => Params (p_params st ++ [x]) true x end, ")"%char :: v).
Proof.
  intros He Hst. rewrite params_unfold. destruct e as [w|sep w|sep x w]; cbn [close_ok close_text] in *.
  - unfold param_text_step. apply blanks_separator in He. rewrite skip_while_app by done. cbv zeta. change (head_is ")" (")"%char :: v)) with true.
    cbv iota. destruct w as [|c w]; [done|]. inversion He as [|? ? Hc _]. subst. cbn [app is_nil head_is].
    by destruct (comma_char_other c Hc) as (_ & -> & _).
  - destruct He as (Hsep & _ & Hw). rewrite <- !app_assoc, separator_step by done.
    change (head_is "." (B "..." ++ w ++ ")"%char :: v)) with true. cbv iota. by rewrite dots_text.
  - destruct He as (Hsep & _ & [Hx Hn] & Hw). destruct x as [|c x]; [done|].
    assert (Hc : name_char c = true) by (by inversion Hn). destruct (name_char_other c Hc) as (H1 & _ & H3 & H4 & _).
    rewrite <- !app_assoc, separator_step by done.
    replace (head_is "." ((c :: x) ++ B "..." ++ w ++ ")"%char :: v)) with false by (cbn [app head_is]; by rewrite H4).
    rewrite while_text_app by done. cbn [is_nil].
    change (head_is "." (B "..." ++ w ++ ")"%char :: v)) with true. cbv iota. by rewrite dots_text.
Qed.

Lemma stops_list l v : list_ok l false -> (stops v /\ head_is "."%char v = false) ->
  stops (list_text l ++ v) /\ head_is "."%char (list_text l ++ v) = false.
Proof.
  destruct l as [|[sep x] l]; [done|]. intros (Hs & Hn & _) _. specialize (Hn eq_refl). destruct sep as [|c sep]; [done|].
  inversion Hs as [|? ? Hc _]. subst. by destruct (comma_char_other c Hc) as (H1 & _ & H3).
Qed.
Lemma list_read l first acc v :
  list_ok l first -> (l <> [] -> stops v /\ head_is "."%char v = false) ->
  params_from (Params acc false []) (list_text l ++ v) = params_from (Params (acc ++ map snd l) false []) v.
Proof.
  revert first acc. induction l as [|[sep x] l IH]; intros first acc H Hv; [by rewrite app_nil_r|].
  destruct H as (Hs & _ & Hx & Hl). specialize (Hv ltac:(done)). destruct (stops_list l v Hl Hv) as [H1 H2].
  change (list_text ((sep, x) :: l)) with ((sep ++ x) ++ list_text l). rewrite <- !app_assoc, name_step by done.
  cbn [p_params p_variadic p_variadic_param]. rewrite (IH false) by done. by rewrite <- app_assoc.
Qed.

Lemma close_stops e v : close_ok e false ->
  stops (close_text e ++ ")"%char :: v) /\ head_is "."%char (close_text e ++ ")"%char :: v) = false.
Proof.
  assert (Hsep : forall c sep t, separator (c :: sep) -> stops ((c :: sep) ++ t) /\ head_is "."%char ((c :: sep) ++ t) = false).
  { intros c sep t H. inversion H as [|? ? Hc _]. subst. by destruct (comma_char_other c Hc) as (H1 & _ & H3). }
  intros He. destruct e as [w|sep w|sep x w]; cbn [close_text close_ok] in *.
  - destruct w as [|c w]; [done|]. by apply Hsep, blanks_separator.
  - destruct He as (Hs & Hne & _). rewrite <- app_assoc. destruct sep as [|c sep]; [by destruct Hne|]. by apply Hsep.
  - destruct He as (Hs & Hne & _). rewrite <- app_assoc. destruct sep as [|c sep]; [by destruct Hne|]. by apply Hsep.
Qed.
Lemma close_first e first : close_ok e first -> close_ok e true.
Proof. destruct e; cbn [close_ok]; [done| |]; intros (Hs & _ & Hr); (split; [done|split; [done|exact Hr]]). Qed.

(** The parameter list read. *)
Lemma params_of_list l e v : list_ok l true -> close_ok e (is_nil l) ->
  params_text (list_text l ++ close_text e ++ ")"%char :: v) = inl (list_state l e, ")"%char :: v).
Proof.
  intros Hl He. unfold params_text, params_start. rewrite (list_read l true); [|done|].
  - rewrite close_step; [by destruct e|by eapply close_first|done].
  - intros Hn. apply is_nil_false in Hn. rewrite Hn in He. by apply close_stops.
Qed.

(** ** A line read

    [line_of name ps w l e]: the name, the parameter list if there is one, blanks,
    the replacement list, the comment at the end. *)
Definition head_text (ps : option (list (bytes * bytes) * params_close)) : bytes :=
  match ps with Some (l, e) => B "(" ++ list_text l ++ close_text e ++ B ")" | None => [] end.
Definition macro_of (ps : param_state) (b : bytes) : MacroDef := new_macro (p_params ps) (p_variadic ps) (p_variadic_param ps) b.
Definition stands_for (name : bytes) (ps : option (list (bytes * bytes) * params_close)) (l : list piece) : definition :=
  match ps with
  | Some (ns, e) => FunctionLike name (macro_of (list_state ns e) (trim_end (render l)))
  | None => ObjectLike name (trim_end (render l))
  end.
Definition head_ok (ps : option (list (bytes * bytes) * params_close)) (w : bytes) (l : list piece) : Prop :=
  match ps with Some (ns, e) => list_ok ns true /\ close_ok e (is_nil ns) | None => w <> [] \/ l = [] end.
Definition starts_value (l : list piece) : Prop := match l with Plain c :: _ => blank_char c = false | _ => True end.

Lemma tail_head e rest : line_tail e -> line_rest rest ->
  match e ++ rest with c :: _ => blank_char c = false /\ name_char c = false /\ byte_eqb c "("%char = false | [] => True end.
Proof.
  intros [->|(t & -> & _)] Hr; [|done]. destruct rest as [|c rest]; [done|]. simpl in *.
  revert Hr. destruct c as [[] [] [] [] [] [] [] []]; vm_compute; done.
Qed.
Lemma value_of_pieces w l e rest : blanks w -> starts_value l -> line_tail e -> line_rest rest -> pieces_ok l (e ++ rest) = true ->
  value_text (w ++ flat_map spell l ++ e ++ rest) = inl (trim_end (render l), rest).
Proof.
  intros Hw Hs He Hr Hl. unfold value_text, skip_blanks. rewrite skip_while_app; [by apply body_of_pieces|done|].
  pose proof (tail_head e rest He Hr) as Ht. destruct l as [|[c|q t|t] l]; [by destruct (e ++ rest) as [|c u]; [|apply Ht]|exact Hs| |done].
  cbn [pieces_ok piece_ok flat_map spell app] in *. apply andb_true_iff in Hl as [Hl _]. apply andb_true_iff in Hl as [Hq _].
  by apply quote_cases in Hq as [-> | ->].
Qed.

Lemma name_read name v : name <> [] -> Forall (fun c => name_char c = true) name -> stops v ->
  while_text name_char (skip_blanks (name ++ v)) = (name, v).
Proof.
  intros Hn Hf Hv. destruct name as [|c name]; [done|].
  assert (Hc : name_char c = true) by (by inversion Hf). destruct (name_char_other c Hc) as (_ & Hb & _).
  replace (skip_blanks ((c :: name) ++ v)) with ((c :: name) ++ v); [by apply while_text_app|].
  symmetry. exact (skip_while_app blank_char [] ((c :: name) ++ v) (Forall_nil_2 _) Hb).
Qed.

Lemma line_reads name ps w l e rest :
  is_name name -> head_ok ps w l -> blanks w -> starts_value l -> line_tail e -> line_rest rest -> pieces_ok l (e ++ rest) = true ->
  define_text (name ++ head_text ps ++ w ++ flat_map spell l ++ e ++ rest) = inl (stands_for name ps l, rest).
Proof.
  intros [Hn Hf] Hh Hw Hs He Hr Hl. unfold define_text. destruct ps as [[ns ce]|]; cbn [head_text head_ok stands_for] in *.
  - rewrite name_read by done. set (v := w ++ flat_map spell l ++ e ++ rest). rewrite <- !app_assoc.
    change (head_is "(" (B "(" ++ list_text ns ++ close_text ce ++ B ")" ++ v)) with true. cbv iota.
    change (drop 1 (B "(" ++ list_text ns ++ close_text ce ++ B ")" ++ v)) with (list_text ns ++ close_text ce ++ ")"%char :: v).
    destruct Hh as [Hh1 Hh2]. rewrite params_of_list by done. unfold after_params. change (head_is ")" (")"%char :: v)) with true. cbv iota.
    change (drop 1 (")"%char :: v)) with v. unfold v. by rewrite value_of_pieces.
  - assert (Hv : match w ++ flat_map spell l ++ e ++ rest with c :: _ => name_char c = false /\ byte_eqb c "("%char = false | [] => True end).
    { destruct w as [|c w].
      - destruct Hh as [Hh| ->]; [done|]. pose proof (tail_head e rest He Hr) as Ht. simpl. by destruct (e ++ rest) as [|c u]; [|destruct Ht].
      - inversion Hw as [|? ? Hc _]. subst. simpl. revert Hc. destruct c as [[] [] [] [] [] [] [] []]; vm_compute; done. }
    cbn [app]. rewrite name_read; [|done|done|by destruct (w ++ _); [|destruct Hv]].
    replace (head_is "(" (w ++ flat_map spell l ++ e ++ rest)) with false by (destruct (w ++ _); [done|destruct Hv as [_ Hv]; by cbn [head_is]; rewrite Hv]).
    by rewrite value_of_pieces.
Qed.

(** C20: [#define] reads what C's grammar says.  A line of a name, for a
    function-like macro the parameters (names set apart by blanks and commas,
    [...] last or glued to a last name), the replacement list and perhaps a
    [//] comment is read as that macro: its parameters in order, and as its
    value the replacement list with the literals as they stand, whatever they
    hold, each comment one blank where none stands, and no blanks at the end.
    Nothing after the line's end is read. *)
Theorem define_reads_c s name ps w l e rest :
  steady (_buf s) -> ahead s = name ++ head_text ps ++ w ++ flat_map spell l ++ e ++ rest ->
  is_name name -> head_ok ps w l -> blanks w -> starts_value l -> line_tail e -> line_rest rest -> pieces_ok l (e ++ rest) = true ->
  exists s', read_define s = Ok (stands_for name ps l, s') /\ ahead s' = rest.
Proof.
  intros Hs Ha Hn Hh Hw Hv He Hr Hl. pose proof (define_ahead s _ _ (ahead_self s Hs)) as H.
  rewrite Ha, line_reads in H by done. destruct H as (s' & -> & _ & Hu & _). by exists s'.
Qed.

(** A function-like macro with a quoted comment and one that is none, and an
    object-like one before another line. *)
Definition line_pieces : list piece :=
  map Plain (B "a") ++ [Comment (B " c *")] ++ map Plain (B "## r ") ++ [Quoted c_squote (B "/*\'")] ++ map Plain (B "  ").
Definition line_params : list (bytes * bytes) * params_close := ([([], B "a")], NamedDots (B " , ") (B "r") (B " ")).
Definition line_sample : source := str source_new (B "F(a , r... ) a/* c **/## r '/*\''  // end" ++ [c_nl] ++ B "b").
Lemma define_reads_c_witness :
  stands_for (B "F") (Some line_params) line_pieces =
    FunctionLike (B "F") (new_macro [B "a"; B "r"] true (B "r") (B "a ## r '/*\''")) /\
  exists s', read_define line_sample = Ok (stands_for (B "F") (Some line_params) line_pieces, s') /\ ahead s' = [c_nl] ++ B "b".
Proof.
  split; [vm_compute; reflexivity|].
  apply (define_reads_c line_sample (B "F") (Some line_params) (B " ") line_pieces (B "// end") ([c_nl] ++ B "b")).
  - apply steady_checked. vm_compute. reflexivity.
  - vm_compute. reflexivity.
  - split; [discriminate|repeat constructor].
  - repeat (split; try discriminate; try reflexivity); repeat constructor.
  - repeat constructor.
  - reflexivity.
  - right. exists (B " end"). split; [reflexivity|repeat constructor].
  - reflexivity.
  - vm_compute. reflexivity.
Defined.

(** ** What was read reads back

    A text is clean when reading it gives it back: reading goes through its
    characters, and at each prefix the state is the one the prefix was built in. *)

(** No comment begins between the text read and [c]. *)
Definition slash_ok (st : body_state) (c : ascii) : Prop :=
  literal st = lmNone -> last (b_text st) = Some "/"%char -> byte_eqb c "/"%char = false /\ byte_eqb c "*"%char = false.
Definition may_follow (st : body_state) (u : bytes) : Prop :=
  plain_line u /\ match u with c :: _ => slash_ok st c | [] => True end.
Record clean (st : body_state) : Prop := {
  clean_read : forall u, may_follow st u -> body_from body_start (b_text st ++ u) = body_from st u;
  clean_prefix : forall p, p `prefix_of` b_text st -> body_from body_start p = inl (p, []);
  clean_empty : b_text st = [] -> st = body_start;
  clean_plain : plain_line (b_text st)
}.

Lemma body_done st : body_from st [] = inl (b_text st, []).
Proof. by rewrite body_unfold. Qed.
Lemma clean_start : clean body_start.
Proof.
  constructor; [done| |done|constructor]. intros p Hp. apply prefix_nil_inv in Hp as ->. by rewrite body_done.
Qed.
Lemma prefix_snoc_inv {A} (p l : list A) x : p `prefix_of` l ++ [x] -> p `prefix_of` l \/ p = l ++ [x].
Proof.
  intros [k Hk]. destruct k as [|y k _] using rev_ind; [right; by rewrite app_nil_r in Hk|].
  rewrite app_assoc in Hk. apply app_inj_tail in Hk as [-> _]. left. by exists k.
Qed.

Lemma clean_step st st' c :
  clean st -> b_text st' = b_text st ++ [c] -> line_end_char c = false -> slash_ok st c ->
  (forall u, may_follow st' u -> body_text_step (st, c :: u) = inl (st', u)) -> clean st'.
Proof.
  intros [Hr Hp _ Hl] Ht Hc Hk Hs.
  assert (Hread : forall u, may_follow st' u -> body_from body_start (b_text st' ++ u) = body_from st' u).
  { intros u Hu. rewrite Ht, <- app_assoc. simpl. rewrite Hr.
    - by rewrite body_unfold, Hs.
    - split; [|done]. constructor; [done|apply Hu]. }
  constructor; [done| | |].
  - intros p Hpre. rewrite Ht in Hpre. apply prefix_snoc_inv in Hpre as [Hpre| ->]; [by apply Hp|].
    rewrite <- Ht. specialize (Hread [] ltac:(by split; [constructor|])). rewrite app_nil_r in Hread. by rewrite Hread, body_done.
  - rewrite Ht. intros H. by destruct (b_text st).
  - rewrite Ht. apply Forall_app. split; [done|]. by constructor.
Qed.

(** The text without the blanks at its front, which a directive skips. *)
Definition front (st : body_state) : body_state := Body (skip_blanks (b_text st)) (literal st) (b_escaped st).

Lemma skip_blanks_cons c t : skip_blanks (c :: t) = if blank_char c then skip_blanks t else c :: t.
Proof. unfold skip_blanks, skip_text_while. simpl. by destruct (blank_char c). Qed.
Lemma skip_blanks_app t u : skip_blanks t <> [] -> skip_blanks (t ++ u) = skip_blanks t ++ u.
Proof.
  induction t as [|c t IH]; [done|]. rewrite <- app_comm_cons, !skip_blanks_cons. destruct (blank_char c); [apply IH|done].
Qed.
Lemma skip_blanks_nil t u : skip_blanks t = [] -> skip_blanks (t ++ u) = skip_blanks u.
Proof. induction t as [|c t IH]; [done|]. rewrite <- app_comm_cons, !skip_blanks_cons. by destruct (blank_char c). Qed.
Lemma skip_blanks_snoc t c : blank_char c = false \/ skip_blanks t <> [] -> skip_blanks (t ++ [c]) = skip_blanks t ++ [c].
Proof.
  intros H. destruct (skip_blanks t) as [|x o] eqn:E; [|rewrite skip_blanks_app; [by rewrite E|by rewrite E]].
  destruct H as [H|H]; [|done]. rewrite skip_blanks_nil by done. rewrite skip_blanks_cons. by rewrite H.
Qed.
Lemma skip_blanks_last t : skip_blanks t <> [] -> last (skip_blanks t) = last t.
Proof.
  induction t as [|c t IH]; [done|]. rewrite skip_blanks_cons. destruct (blank_char c); [|done]. intros H. rewrite (IH H).
  destruct t; [done|]. done.
Qed.

Fixpoint spliced (t : bytes) : bool :=
  match t with
  | c :: r => negb (byte_eqb c c_bslash && match r with d :: _ => line_end_char d | [] => false end) && spliced r
  | [] => true
  end.
Lemma spliced_app_r a b : spliced (a ++ b) = true -> spliced b = true.
Proof. induction a as [|c a IH]; [done|]. simpl. intros H. apply andb_true_iff in H as [_ H]. by apply IH. Qed.

(** The loop's invariant: what was collected is clean, and no comment begins
    across its end. *)
Definition reading_clean (x : body_state * bytes) : Prop :=
  clean (front x.1) /\ spliced x.2 = true /\ match x.2 with c :: _ => slash_ok (front x.1) c | [] => True end.

Lemma slash_ok_last st c : last (b_text st) <> Some "/"%char -> slash_ok st c.
Proof. intros H _ E. by rewrite E in H. Qed.
Lemma slash_ok_snoc st t x c : b_text st = t ++ [x] -> x <> "/"%char -> slash_ok st c.
Proof. intros E H. apply slash_ok_last. rewrite E, last_snoc. by intros [= ->]. Qed.
Lemma line_end_not_slash c st : line_end_char c = true -> slash_ok st c.
Proof.
  unfold line_end_char. intros H _ _. apply orb_true_iff in H as [H|H]; reflect_bool; subst c; done.
Qed.

(** A character that is collected: the state without its leading blanks takes the
    same step. *)
Lemma collect_clean st st' c r :
  reading_clean (st, c :: r) -> line_end_char c = false -> b_text st' = b_text st ++ [c] ->
  blank_char c = false \/ skip_blanks (b_text st) <> [] ->
  (forall u, may_follow (front st') u -> body_text_step (front st, c :: u) = inl (front st', u)) ->
  match r with d :: _ => slash_ok (front st') d | [] => True end ->
  reading_clean (st', r).
Proof.
  intros (Hc & Hs & Hk) Hl Ht Hb Hstep Hn. cbn [fst snd] in *. split; [|split; [|done]].
  - apply (clean_step (front st) (front st') c); [done| |done|done|exact Hstep].
    cbn [front b_text]. rewrite Ht. by apply skip_blanks_snoc.
  - change (c :: r) with ([c] ++ r) in Hs. by apply spliced_app_r in Hs.
Qed.

Lemma in_literal_front st : clean (front st) -> in_literal st = true -> skip_blanks (b_text st) <> [].
Proof.
  intros [_ _ H _] Hl E. specialize (H E). unfold in_literal in Hl. unfold front, body_start in H. injection H as _ H _. by rewrite H in Hl.
Qed.

Lemma backslash_clean st r :
  reading_clean (st, c_bslash :: r) -> match r with d :: _ => line_end_char d = false | [] => True end ->
  reading_clean (backslash_step st, r).
Proof.
  intros H Hd. assert (Ef : front (backslash_step st) = backslash_step (front st)).
  { unfold front, backslash_step. cbn [b_text literal b_escaped]. rewrite skip_blanks_snoc by (by left). done. }
  eapply collect_clean; [exact H|done|done|by left| |].
  - intros u [Hu _]. rewrite Ef. destruct u as [|d u]; [done|]. apply Forall_cons_1 in Hu as [Hu _].
    cbn [body_text_step]. change (line_end_char c_bslash) with false. change (byte_eqb c_bslash c_bslash) with true.
    cbv iota. by rewrite Hu.
  - destruct r as [|d r]; [done|]. rewrite Ef. by eapply slash_ok_snoc.
Qed.
Lemma literal_clean st c r :
  reading_clean (st, c :: r) -> line_end_char c = false -> byte_eqb c c_bslash = false -> in_literal st = true ->
  reading_clean (literal_step (push st [c]) c, r).
Proof.
  intros H Hl Hb Hi. assert (Hn : skip_blanks (b_text st) <> []) by (apply in_literal_front; [apply H|done]).
  assert (Ht : forall st, b_text (literal_step st c) = b_text st) by (intros s1; unfold literal_step; by repeat case_if).
  assert (Ef : front (literal_step (push st [c]) c) = literal_step (push (front st) [c]) c).
  { unfold front, literal_step, push. cbn [b_text literal b_escaped]. rewrite <- skip_blanks_app by done. by repeat case_if. }
  eapply collect_clean; [exact H|done|by rewrite Ht|by right| |].
  - intros u _. rewrite Ef. cbn [body_text_step]. rewrite Hl, Hb. unfold in_literal in Hi |- *. cbn [front literal] in *. by rewrite Hi.
  - destruct r as [|d r]; [done|]. rewrite Ef. destruct (byte_eqb c "/") eqn:E.
    + reflect_bool. subst c. intros El. unfold literal_step in El. exfalso. revert El.
      unfold in_literal, push, front in *. cbn [b_text literal b_escaped] in *.
      destruct (b_escaped st), (literal st); done.
    + eapply slash_ok_snoc; [rewrite Ht; reflexivity|]. reflect_bool. done.
Qed.
Lemma open_clean st c r :
  reading_clean (st, c :: r) -> line_end_char c = false -> byte_eqb c c_bslash = false -> in_literal st = false ->
  byte_eqb c c_dquote || byte_eqb c c_squote = true -> reading_clean (push (open_literal st c) [c], r).
Proof.
  intros H Hl Hb Hi Hq. assert (Hblank : blank_char c = false) by (apply orb_true_iff in Hq as [Hq|Hq]; reflect_bool; by subst c).
  assert (Ef : front (push (open_literal st c) [c]) = push (open_literal (front st) c) [c]).
  { unfold front, open_literal, push. cbn [b_text literal b_escaped]. by rewrite skip_blanks_snoc by (by left). }
  eapply collect_clean; [exact H|done|done|by left| |].
  - intros u _. rewrite Ef. cbn [body_text_step]. rewrite Hl, Hb. unfold in_literal in Hi |- *. cbn [front literal] in *. by rewrite Hi, Hq.
  - destruct r as [|d r]; [done|]. rewrite Ef. eapply slash_ok_snoc; [reflexivity|].
    apply orb_true_iff in Hq as [Hq|Hq]; reflect_bool; by subst c.
Qed.

Lemma slash_clean st r :
  reading_clean (st, "/"%char :: r) -> in_literal st = false -> head_is "/"%char r = false -> head_is "*"%char r = false ->
  reading_clean (push st (B "/"), r).
Proof.
  intros H Hi H1 H2. change (B "/") with ["/"%char]. assert (Ef : front (push st ["/"%char]) = push (front st) ["/"%char]).
  { unfold front, push. cbn [b_text literal b_escaped]. by rewrite skip_blanks_snoc by (by left). }
  eapply collect_clean; [exact H|done|done|by left| |].
  - intros u [_ Hu]. rewrite Ef in *. cbn [body_text_step]. unfold in_literal in Hi |- *. cbn [front literal] in *.
    change (line_end_char "/") with false. change (byte_eqb "/" c_bslash) with false. cbv iota. rewrite Hi.
    assert (Hh : head_is "/" u = false /\ head_is "*" u = false); [|destruct Hh as [-> ->]; done].
    destruct u as [|d u]; [done|]. apply negb_false_iff, bool_decide_eq_true in Hi. apply Hu; [done|].
    cbn [push b_text]. apply last_snoc.
  - destruct r as [|d r]; [done|]. by intros _ _.
Qed.
Lemma plain_clean st c r :
  reading_clean (st, c :: r) -> line_end_char c = false -> byte_eqb c c_bslash = false -> in_literal st = false ->
  byte_eqb c c_dquote || byte_eqb c c_squote = false -> byte_eqb c "/"%char = false -> reading_clean (push st [c], r).
Proof.
  intros H Hl Hb Hi Hq Hs. destruct (decide (blank_char c = false \/ skip_blanks (b_text st) <> [])) as [Hn|Hn].
  - assert (Ef : front (push st [c]) = push (front st) [c]).
    { unfold front, push. cbn [b_text literal b_escaped]. by rewrite skip_blanks_snoc. }
    eapply collect_clean; [exact H|done|done|done| |].
    + intros u _. rewrite Ef. cbn [body_text_step]. rewrite Hl, Hb. unfold in_literal in Hi |- *. cbn [front literal] in *. by rewrite Hi, Hq, Hs.
    + destruct r as [|d r]; [done|]. rewrite Ef. eapply slash_ok_snoc; [reflexivity|]. by reflect_bool.
  - assert (Hn' : blank_char c = true /\ skip_blanks (b_text st) = []).
    { destruct (blank_char c), (skip_blanks (b_text st)); [done|by destruct Hn; right|by destruct Hn; left|by destruct Hn; left]. }
    destruct Hn' as [Hc He]. assert (Ef : front (push st [c]) = front st).
    { unfold front, push. cbn [b_text literal b_escaped]. rewrite skip_blanks_nil, He by done. rewrite skip_blanks_cons. by rewrite Hc. }
    destruct H as (Hcl & Hsp & _). unfold reading_clean. cbn [fst snd] in *. rewrite Ef. split; [done|]. split.
    + change (c :: r) with ([c] ++ r) in Hsp. by apply spliced_app_r in Hsp.
    + destruct r as [|d r]; [done|]. apply slash_ok_last. cbn [front b_text]. by rewrite He.
Qed.
Lemma comment_clean st c r u :
  reading_clean (st, c :: r) -> in_literal st = false -> spliced u = true -> reading_clean (comment_blank st, u).
Proof.
  intros (Hc & _ & _) Hi Hu. cbn [fst snd] in *. unfold comment_blank. destruct (blank_end (b_text st)) eqn:Eb.
  - split; [done|]. split; [done|]. destruct u as [|d u]; [done|]. apply slash_ok_last. cbn [front b_text fst].
    destruct (skip_blanks (b_text st)) as [|x o] eqn:E; [done|]. rewrite <- E, skip_blanks_last by (by rewrite E).
    unfold blank_end in Eb. destruct (last (b_text st)) as [y|]; [|done]. intros [= ->]. done.
  - assert (Hn : skip_blanks (b_text st) <> []).
    { intros E. unfold blank_end in Eb. destruct (last (b_text st)) as [y|] eqn:El; [|done].
      apply last_Some in El as [t Et]. rewrite Et, skip_blanks_snoc in E by (by left). by destruct (skip_blanks t). }
    apply (plain_clean st " "%char u); [|done|done|done|done|done]. split; [done|]. split; [done|]. cbn [fst snd].
    intros _ _. done.
Qed.

(** The body collected by the loop is clean. *)
Lemma body_from_clean t b u :
  spliced t = true -> body_from body_start t = inl (b, u) -> exists st, b = b_text st /\ clean (front st).
Proof.
  intros Ht. unfold body_from. destruct (loop _ _ _) as [r|] eqn:El; [|done]. cbn [default Datatypes.id].
  intros ->. revert El. set (Q := fun r : bytes * bytes + bytes => match r with inl (b, _) => exists st, b = b_text st /\ clean (front st) | inr _ => True end).
  intros El. refine (loop_inv reading_clean Q body_text_step _ _ _ _ _ El); unfold Q; clear -Ht.
  - clear. intros [st [|c r]] H; cbn [body_text_step]; [exists st; by split; [|apply H]|].
    destruct (line_end_char c) eqn:Hl; [exists st; by split; [|apply H]|]. destruct (byte_eqb c c_bslash) eqn:Hb.
    { reflect_bool. subst c. destruct r as [|d r]; [by apply backslash_clean|].
      destruct (line_end_char d) eqn:Hd; [|by apply backslash_clean].
      destruct H as (_ & H & _). simpl in H. by rewrite Hd in H. }
    destruct (in_literal st) eqn:Hi; [by apply literal_clean|]. destruct (_ || _) eqn:Hq; [by apply open_clean|].
    destruct (byte_eqb c "/") eqn:Hs; [|by apply plain_clean]. apply byte_eqb_eq in Hs. subst c.
    destruct (head_is "/" r) eqn:Hs1; [exists st; by split; [|apply H]|].
    destruct (head_is "*" r) eqn:Hs2; [|by apply slash_clean]. destruct (close_at _ _) as [[k v]|] eqn:Ec; [|done].
    eapply comment_clean; [exact H|done|]. pose proof (close_at_spec Ascii.zero (drop 1 r)) as Hsp. rewrite Ec in Hsp.
    destruct Hsp as [Hsp _]. destruct r as [|d r]; [done|]. change (drop 1 (d :: r)) with r in Hsp.
    destruct H as (_ & H & _). cbn [snd] in H. change ("/"%char :: d :: r) with (["/"%char; d] ++ r) in H.
    apply spliced_app_r in H. rewrite Hsp in H. by apply spliced_app_r in H.
  - split; [exact clean_start|]. split; [exact Ht|]. destruct t as [|c t]; [exact I|]. by apply slash_ok_last.
Qed.

(** *** The value *)

Lemma trim_end_rev_spec t : exists w, t = w ++ trim_end_rev t /\ match trim_end_rev t with c :: _ => blank_char c = false | [] => True end.
Proof.
  induction t as [|c t IH]; [by exists []|]. cbn [trim_end_rev]. change (byte_eqb c c_sp || byte_eqb c c_tab) with (blank_char c).
  destruct (blank_char c) eqn:E; [|by exists []]. destruct IH as (w & Ew & H). exists (c :: w). split; [|done]. by rewrite Ew at 1.
Qed.
Lemma trim_end_prefix t : trim_end t `prefix_of` t.
Proof.
  unfold trim_end. destruct (trim_end_rev_spec (rev t)) as (w & E & _). exists (rev w).
  by rewrite <- rev_app_distr, <- E, rev_involutive.
Qed.
Lemma trim_end_last t c : last (trim_end t) = Some c -> blank_char c = false.
Proof.
  unfold trim_end. destruct (trim_end_rev_spec (rev t)) as (w & _ & H). destruct (trim_end_rev (rev t)) as [|x r]; [done|].
  simpl. rewrite last_snoc. by intros [= <-].
Qed.
Lemma trim_end_id t : (forall c, last t = Some c -> blank_char c = false) -> trim_end t = t.
Proof.
  intros H. unfold trim_end. destruct t as [|x t _] using rev_ind; [done|]. rewrite rev_app_distr. simpl.
  change (byte_eqb x c_sp || byte_eqb x c_tab) with (blank_char x). rewrite (H x) by apply last_snoc.
  simpl. by rewrite rev_involutive.
Qed.
Lemma skip_blanks_prefix t b : t `prefix_of` b -> (forall c, last t = Some c -> blank_char c = false) ->
  skip_blanks t `prefix_of` skip_blanks b.
Proof.
  intros [k ->] H. destruct (skip_blanks t) as [|x o] eqn:E; [apply prefix_nil|]. rewrite skip_blanks_app by (by rewrite E).
  rewrite E. by exists k.
Qed.

Lemma spliced_drop n t : spliced t = true -> spliced (drop n t) = true.
Proof. rewrite <- (take_drop n t) at 1. apply spliced_app_r. Qed.

Lemma value_reads_back t b u :
  spliced t = true -> value_text t = inl (b, u) -> value_text (B " " ++ b) = inl (skip_blanks b, []).
Proof.
  unfold value_text, body_text. intros Ht H. destruct (body_from body_start (skip_blanks t)) as [[b0 v]|] eqn:E; [|done].
  injection H as <- ->. apply body_from_clean in E as (st & -> & Hc); [|by apply spliced_drop].
  change (B " " ++ trim_end (b_text st)) with (" "%char :: trim_end (b_text st)). rewrite skip_blanks_cons. cbn [blank_char].
  change (blank_char " ") with true. cbv iota. set (p := skip_blanks (trim_end (b_text st))).
  pose proof (trim_end_last (b_text st)) as Hl.
  rewrite (clean_prefix _ Hc p) by (apply skip_blanks_prefix; [apply trim_end_prefix|done]).
  do 2 f_equal. apply trim_end_id. intros c. destruct (decide (p = [])) as [->|Hp]; [done|].
  unfold p. rewrite skip_blanks_last by done. apply Hl.
Qed.

(** *** The parameters *)

(** What a definition shows of its parameters, and its line. *)
Fixpoint join (l : list bytes) : bytes := match l with [] => [] | [x] => x | x :: l => x ++ B ", " ++ join l end.
Definition shown_params (m : MacroDef) : list bytes :=
  if variadic m then
    if is_nil (variadic_param m) then params m ++ [B "..."] else removelast (params m) ++ [variadic_param m ++ B "..."]
  else params m.
Definition print_definition (d : definition) : bytes :=
  match d with
  | ObjectLike name value => name ++ B " " ++ value
  | FunctionLike name m => name ++ B "(" ++ join (shown_params m) ++ B ") " ++ body m
  end.
(** The definition without the blanks a comment before the value left. *)
Definition unindented (d : definition) : definition :=
  match d with
  | ObjectLike name value => ObjectLike name (skip_blanks value)
  | FunctionLike name m => FunctionLike name (new_macro (params m) (variadic m) (variadic_param m) (skip_blanks (body m)))
  end.

Record params_ok (ps : param_state) : Prop := {
  names_ok : Forall is_name (p_params ps);
  variadic_ok : p_variadic_param ps = [] \/ p_variadic ps = true /\ last (p_params ps) = Some (p_variadic_param ps)
}.

Lemma run_length_take p t : Forall (fun c => p c = true) (take (run_length p t) t).
Proof. induction t as [|c t IH]; simpl; [constructor|]. destruct (p c) eqn:E; [|constructor]. simpl. by constructor. Qed.

Lemma params_from_ok t ps u : params_text t = inl (ps, u) -> params_ok ps.
Proof.
  unfold params_text, params_from. destruct (loop _ _ _) as [r|] eqn:El; [|done]. cbn [default Datatypes.id]. intros ->. revert El.
  set (Q := fun r : param_state * bytes + bytes => match r with inl (ps, _) => params_ok ps | inr _ => True end). intros El.
  refine (loop_inv (fun x => Forall is_name (p_params x.1) /\ p_variadic_param x.1 = []) Q param_text_step _ _ _ _ _ El); unfold Q; clear; [|done].
  intros [st v] [Hf Hv]. cbn [fst] in *. unfold param_text_step.
  assert (Hst : params_ok st) by (constructor; [done|by left]).
  destruct (is_nil v); [done|]. destruct (head_is ")" v); [done|]. cbv zeta. set (w := skip_text_while comma_char v).
  destruct (head_is ")" w); [done|]. destruct (head_is "." w).
  { destruct (ellipsis_text _ w); [|done]. constructor; [done|by left]. }
  unfold while_text. destruct (is_nil (take _ w)) eqn:En; [done|].
  assert (Hn : Forall is_name (p_params st ++ [take (run_length name_char w) w])).
  { apply Forall_app. split; [done|]. constructor; [|constructor]. split; [by apply is_nil_false|apply run_length_take]. }
  destruct (head_is "." (drop _ w)); [|done]. destruct (ellipsis_text _ _); [|done].
  constructor; [done|]. right. split; [done|]. cbn [p_params p_variadic_param]. apply last_snoc.
Qed.

(** The list as it is printed. *)
Definition spaced (names : list bytes) : list (bytes * bytes) :=
  match names with [] => [] | x :: l => ([], x) :: map (pair (B ", ")) l end.
Definition gap (names : list bytes) : bytes := if is_nil names then [] else B ", ".

Lemma map_pair_snoc names y : list_text (map (pair (B ", ")) (names ++ [y])) = list_text (map (pair (B ", ")) names) ++ B ", " ++ y.
Proof. unfold list_text. rewrite map_app, flat_map_app. simpl. by rewrite app_nil_r. Qed.
Lemma join_spaced names : join names = list_text (spaced names).
Proof.
  destruct names as [|x l]; [done|]. cbn [spaced]. change (list_text (([], x) :: map (pair (B ", ")) l)) with (x ++ list_text (map (pair (B ", ")) l)).
  revert x. induction l as [|y l IH]; intros x; [by rewrite app_nil_r|]. change (join (x :: y :: l)) with (x ++ B ", " ++ join (y :: l)). by rewrite IH.
Qed.
Lemma join_snoc names y : join (names ++ [y]) = list_text (spaced names) ++ gap names ++ y.
Proof.
  rewrite join_spaced. destruct names as [|x l]; [by cbn; rewrite app_nil_r|]. cbn [app spaced].
  change (list_text (([], x) :: map (pair (B ", ")) (l ++ [y]))) with (x ++ list_text (map (pair (B ", ")) (l ++ [y]))).
  rewrite map_pair_snoc. change (list_text (([], x) :: map (pair (B ", ")) l)) with (x ++ list_text (map (pair (B ", ")) l)).
  by rewrite <- !app_assoc.
Qed.
Lemma spaced_ok names : Forall is_name names -> list_ok (spaced names) true.
Proof.
  destruct 1 as [|x l Hx Hl]; [done|]. split_and!; [constructor|done|done|].
  induction Hl as [|y l Hy Hl IH]; [done|]. by split_and!; [repeat constructor| | |].
Qed.
Lemma spaced_names names : map snd (spaced names) = names.
Proof. destruct names as [|x l]; [done|]. cbn [spaced map snd]. f_equal. rewrite map_map. apply map_id. Qed.
Lemma gap_ok names : separator (gap names) /\ (is_nil (spaced names) = false -> gap names <> []).
Proof. unfold gap. destruct names; [split; [constructor|done]|split; [by repeat constructor|done]]. Qed.

Lemma params_read_back ps b v :
  params_ok ps -> params_text (join (shown_params (macro_of ps b)) ++ ")"%char :: v) = inl (ps, ")"%char :: v).
Proof.
  intros [Hn Hv]. destruct ps as [names vd vp]. unfold shown_params, macro_of, new_macro in *.
  cbn [p_params p_variadic p_variadic_param variadic variadic_param params] in *. destruct vd.
  - destruct (is_nil vp) eqn:En.
    + apply is_nil_true in En as ->. destruct (gap_ok names) as [H1 H2]. rewrite join_snoc, <- !app_assoc.
      pose proof (params_of_list (spaced names) (Dots (gap names) []) v (spaced_ok names Hn) (conj H1 (conj H2 (Forall_nil_2 _)))) as H.
      cbn [close_text list_state] in H. rewrite spaced_names, <- !app_assoc in H. exact H.
    + destruct Hv as [->|[_ Hv]]; [done|]. apply last_Some in Hv as [init Hi]. rewrite Hi in *. rewrite removelast_last, join_snoc.
      apply Forall_app in Hn as [Hn Hx]. inversion Hx as [|? ? Hx' _]. subst. destruct (gap_ok init) as [H1 H2].
      pose proof (params_of_list (spaced init) (NamedDots (gap init) vp []) v (spaced_ok init Hn) (conj H1 (conj H2 (conj Hx' (Forall_nil_2 _))))) as H.
      cbn [close_text list_state] in H. rewrite spaced_names, <- !app_assoc in H. rewrite <- !app_assoc. exact H.
  - destruct Hv as [->|[? _]]; [|done]. rewrite join_spaced.
    pose proof (params_of_list (spaced names) (Closed []) v (spaced_ok names Hn) ltac:(constructor)) as H.
    cbn [close_text list_state app] in H. by rewrite spaced_names in H.
Qed.

(** *** A definition *)

Lemma value_plain t b u : spliced t = true -> value_text t = inl (b, u) -> plain_line b.
Proof.
  unfold value_text, body_text. intros Ht H. destruct (body_from body_start (skip_blanks t)) as [[b0 v]|] eqn:E; [|done].
  injection H as <- ->. apply body_from_clean in E as (st & -> & Hc); [|by apply spliced_drop].
  apply clean_plain in Hc. cbn [front b_text] in Hc. unfold plain_line.
  assert (Hb : plain_line (b_text st)).
  { unfold skip_blanks, skip_text_while in Hc. rewrite <- (take_drop (run_length blank_char (b_text st)) (b_text st)).
    apply Forall_app. split; [|exact Hc]. eapply Forall_impl; [apply run_length_take|].
    intros c. by destruct c as [[] [] [] [] [] [] [] []]. }
  destruct (trim_end_prefix (b_text st)) as [k Hk]. rewrite Hk in Hb. by apply Forall_app in Hb as [Hb _].
Qed.

(** What was read is a name, a parameter list that was read, and a value that
    was read. *)
Inductive was_read : definition -> Prop :=
| object_read name t b u : Forall (fun c => name_char c = true) name -> spliced t = true -> value_text t = inl (b, u) ->
    was_read (ObjectLike name b)
| function_read name ps t b u : Forall (fun c => name_char c = true) name -> params_ok ps -> spliced t = true ->
    value_text t = inl (b, u) -> was_read (FunctionLike name (macro_of ps b)).

Lemma params_rest t ps u : params_text t = inl (ps, u) -> spliced t = true -> spliced u = true.
Proof.
  unfold params_text, params_from. destruct (loop _ _ _) as [r|] eqn:El; [|done]. cbn [default Datatypes.id]. intros -> Ht. revert El.
  set (Q := fun r : param_state * bytes + bytes => match r with inl (_, u) => spliced u = true | inr _ => True end). intros El.
  refine (loop_inv (fun x => spliced x.2 = true) Q param_text_step _ _ _ _ _ El); unfold Q; clear -Ht; [|done].
  clear. intros [st v] Hv. cbn [snd] in *. unfold param_text_step. destruct (is_nil v); [done|]. destruct (head_is ")" v); [done|].
  assert (Hw : forall p t, spliced t = true -> spliced (skip_text_while p t) = true) by (intros; by apply spliced_drop).
  cbv zeta. set (w := skip_text_while comma_char v). assert (Hws : spliced w = true) by by apply Hw.
  assert (He : forall e t, spliced t = true -> match ellipsis_text e t with inl u => spliced u = true | inr _ => True end).
  { intros e t Ht. unfold ellipsis_text. cbv zeta. do 2 (destruct (negb _); [done|]). destruct (head_is ")" _); [|done]. apply Hw. by do 3 apply spliced_drop. }
  destruct (head_is ")" w); [done|]. destruct (head_is "." w).
  { specialize (He ellipsis_error w Hws). by destruct (ellipsis_text _ w). }
  unfold while_text. destruct (is_nil (take _ w)); [done|].
  assert (Hd : spliced (drop (run_length name_char w) w) = true) by by apply spliced_drop.
  destruct (head_is "." (drop _ w)); [|done]. specialize (He named_ellipsis_error _ Hd). by destruct (ellipsis_text _ _).
Qed.

Lemma define_was_read t d u : spliced t = true -> define_text t = inl (d, u) -> was_read d.
Proof.
  unfold define_text, while_text. intros Ht. set (w := skip_blanks t).
  assert (Hw : spliced (drop (run_length name_char w) w) = true) by (do 2 apply spliced_drop; done).
  pose proof (run_length_take name_char w) as Hn. destruct (head_is "(" (drop _ w)).
  - destruct (params_text _) as [[ps v]|] eqn:Ep; [|done]. unfold after_params.
    assert (Hv : spliced (if head_is ")" v then drop 1 v else v) = true).
    { apply params_rest in Ep; [|by apply spliced_drop]. destruct (head_is ")" v); [by apply spliced_drop|done]. }
    destruct (value_text _) as [[b x]|] eqn:Ev; [|done]. intros [= <- _].
    eapply function_read; [done|by eapply params_from_ok|exact Hv|exact Ev].
  - destruct (value_text _) as [[b x]|] eqn:Ev; [|done]. intros [= <- _]. by eapply object_read.
Qed.

Definition def_name (d : definition) : bytes := match d with ObjectLike n _ | FunctionLike n _ => n end.

Lemma print_read d : was_read d -> def_name d <> [] -> define_text (print_definition d) = inl (unindented d, []).
Proof.
  intros [name t b u Hf Ht Hv|name ps t b u Hf Hp Ht Hv] Hn; cbn [def_name print_definition unindented] in *; unfold define_text.
  - rewrite name_read by done. change (head_is "(" (B " " ++ b)) with false. cbv iota. by rewrite (value_reads_back t b u).
  - rewrite name_read by done. set (rest := B ") " ++ body (macro_of ps b)).
    change (head_is "(" (B "(" ++ join (shown_params (macro_of ps b)) ++ rest)) with true. cbv iota.
    change (drop 1 (B "(" ++ join (shown_params (macro_of ps b)) ++ rest)) with (join (shown_params (macro_of ps b)) ++ ")"%char :: B " " ++ b).
    rewrite params_read_back by done. unfold after_params. change (head_is ")" (")"%char :: B " " ++ b)) with true. cbv iota.
    change (drop 1 (")"%char :: B " " ++ b)) with (B " " ++ b). by rewrite (value_reads_back t b u).
Qed.

(** A printed definition is one line: the buffer is its text. *)
Lemma plain_splice t : plain_line t -> splice_len t = 0.
Proof.
  destruct t as [|c r]; [done|]. intros H. apply Forall_cons_1 in H as [_ H]. cbn [splice_len]. case_if; [|done].
  assert (Hd : plain_line (drop (blank_run r) r)) by by apply Forall_drop.
  destruct (drop (blank_run r) r) as [|x r']; [done|]. apply Forall_cons_1 in Hd as [Hx _].
  unfold line_end_char in Hx. apply orb_false_iff in Hx as [-> ->]. done.
Qed.
Lemma plain_phase2 t : plain_line t -> phase2 t = t.
Proof.
  induction 1 as [|c r Hc Hr IH]; [done|]. rewrite phase2_cons. rewrite plain_splice by (by constructor). simpl. by rewrite IH.
Qed.
Lemma plain_source t : plain_line t -> ahead_is (str source_new t) t (length t).
Proof.
  intros H. split.
  - intros i k Hk. subst k. rewrite plain_splice in Hk by (by apply Forall_drop). lia.
  - split; [|unfold unread; simpl; lia]. unfold ahead. simpl. rewrite drop_0. by apply plain_phase2.
Qed.
Lemma name_plain n : Forall (fun c => name_char c = true) n -> plain_line n.
Proof. intros H. eapply Forall_impl; [exact H|]. intros c. by destruct c as [[] [] [] [] [] [] [] []]. Qed.
Lemma join_plain l : Forall plain_line l -> plain_line (join l).
Proof.
  induction l as [|x l IH]; intros H; [constructor|]. apply Forall_cons_1 in H as [Hx Hl]. destruct l as [|y l]; [done|].
  change (join (x :: y :: l)) with (x ++ B ", " ++ join (y :: l)). repeat (apply Forall_app; split); [done| |by apply IH].
  by repeat constructor.
Qed.
Lemma print_plain d : was_read d -> plain_line (print_definition d).
Proof.
  assert (Hk : forall s, forallb (fun c => negb (line_end_char c)) (B s) = true -> plain_line (B s)).
  { intros s H. unfold plain_line. rewrite Forall_forall. intros c Hc.
    rewrite forallb_forall in H. apply negb_true_iff, H. by apply list_elem_of_In. }
  intros [name t b u Hf Ht Hv|name ps t b u Hf Hp Ht Hv]; cbn [print_definition];
    repeat (apply Forall_app; split); try (by apply name_plain); try (by apply Hk); try (by eapply value_plain).
  destruct Hp as [Hn Hvp]. assert (Hns : Forall plain_line (p_params ps)).
  { eapply Forall_impl; [exact Hn|]. intros p [_ H]. by apply name_plain. }
  apply join_plain. unfold shown_params, macro_of, new_macro. cbn [variadic params variadic_param].
  destruct (p_variadic ps); [|done]. assert (Hd : plain_line (B "...")) by by apply Hk.
  destruct (is_nil (p_variadic_param ps)) eqn:En; [apply Forall_app; split; [done|by constructor]|].
  destruct Hvp as [E|[_ E]]; [by rewrite E in En|]. apply last_Some in E as [l El]. rewrite El in *. rewrite removelast_last.
  apply Forall_app in Hns as [Hl Hx]. inversion Hx. apply Forall_app. split; [done|]. constructor; [|constructor].
  by apply Forall_app.
Qed.

(** reading is a fixed point of printing.  A definition the directive read,
    written as one line of C ([print_definition]: the name, the parameters with
    [...] at their place, one space, the value), is read as the same definition,
    to the end of the line.  The value differs at most by blanks at its front,
    which a comment before the value leaves ([unindented]).  The text read has
    a name, and no backslash is left before an end of line once phase 2 is done. *)
Theorem define_reads_back s d s' :
  steady (_buf s) -> spliced (ahead s) = true -> read_define s = Ok (d, s') -> def_name d <> [] ->
  exists s'', read_define (str source_new (print_definition d)) = Ok (unindented d, s'') /\ ahead s'' = [].
Proof.
  intros Hs Hsp Hr Hn. pose proof (define_ahead s _ _ (ahead_self s Hs)) as H. rewrite Hr in H.
  destruct (define_text (ahead s)) as [[d' u]|m] eqn:Ed; [|by destruct H].
  destruct H as (s1 & [= <- <-] & _). pose proof (define_was_read _ _ _ Hsp Ed) as Hw.
  pose proof (define_ahead _ _ _ (plain_source _ (print_plain _ Hw))) as H. rewrite (print_read _ Hw Hn) in H.
  destruct H as (s2 & -> & _ & Ha & _). by exists s2.
Qed.

Definition define_sample : source := str source_new (B " F(a , rest...)/* b */ a ## rest '/*' /* c" ++ [c_nl] ++ B "*/ ") .
Definition sample_macro : MacroDef := new_macro [B "a"; B "rest"] true (B "rest") (B " a ## rest '/*'").
Lemma define_reads_back_witness :
  print_definition (FunctionLike (B "F") sample_macro) = B "F(a, rest...)  a ## rest '/*'" /\
  exists s'', read_define (str source_new (print_definition (FunctionLike (B "F") sample_macro))) =
      Ok (FunctionLike (B "F") (new_macro [B "a"; B "rest"] true (B "rest") (B "a ## rest '/*'")), s'') /\ ahead s'' = [].
Proof.
  split; [vm_compute; reflexivity|].
  assert (Hr : match read_define define_sample with Ok (d, _) => d = FunctionLike (B "F") sample_macro | Raise _ _ => False end) by (vm_compute; reflexivity).
  destruct (read_define define_sample) as [[d s']|] eqn:E; [|contradiction]. subst d.
  apply (define_reads_back define_sample (FunctionLike (B "F") sample_macro) s'); [|vm_compute; reflexivity|exact E|discriminate].
  apply steady_checked. vm_compute. reflexivity.
Defined.
