(* ===== verification/InternTable.v ===== *)
(** Interned spellings: [intern_table] of [src/include/madcdis/intern_table.h],
    the dictionary from spellings to ids under the lexer's tables, and the frozen
    form a loaded segment reads ([frozen_intern_table]).

    [intern_refines] is its specification: a list of distinct spellings, the id
    of one its place.  The hash chains, their growth and the rollback of a
    transaction are under it.  [frozen_roundtrip] and [frozen_reads_inside] are
    about the frozen blocks, the second for blocks of any bytes at all. *)
From S2P Require Import Prelude.
#[local] Open Scope Z_scope.

(** ** The table *)

Definition NIL : Z := 0xffffffff.
Record Entry := MkEntry { off : Z; len : Z; hash : Z; next : Z }.
Record intern_table := Table { _bytes : bytes; _entries : list Entry; _buckets : list Z; _names : list bytes }.

(** [vector::size] *)
Definition size {A} (l : list A) : Z := Z.of_nat (length l).

(** The mask of [n] buckets, and a hash's bucket. *)
Definition mask_of (n : Z) : Z := u32 (u32 n - 1).
Definition bucket (mask h : Z) : nat := Z.to_nat (Z.land h mask).

(** The loop of [rehash]: entry [i] goes to the head of its chain.  [None] is an
    index out of range. *)
Definition rehash_step (mask : Z) (st : option (list Entry * list Z)) (i : nat) : option (list Entry * list Z) :=
  '(entries, buckets) ← st;
  e ← entries !! i;
  let b := bucket mask (hash e) in
  head ← buckets !! b;
  Some (<[i := MkEntry (off e) (len e) (hash e) head]> entries, <[b := Z.of_nat i]> buckets).

Definition rehash (t : intern_table) (nbuckets : Z) : option intern_table :=
  '(es, bs) ← fold_left (rehash_step (mask_of nbuckets)) (seq 1 (length (_entries t) - 1))
                        (Some (_entries t, replicate (Z.to_nat nbuckets) NIL));
  Some (Table (_bytes t) es bs (_names t)).

(** [nb = 1024; while ( nb < nentries ) nb <<= 1;] *)
Fixpoint round_up (fuel : nat) (nb n : Z) : option Z :=
  if nb <? n then match fuel with O => None | S f => round_up f (u64 (Z.shiftl nb 1)) n end else Some nb.

Definition reserve (t : intern_table) (nentries : Z) : option intern_table :=
  nb ← round_up 64 1024 nentries;
  if size (_buckets t) <? nb then
    if size (_entries t) <=? 1 then Some (Table (_bytes t) (_entries t) (replicate (Z.to_nat nb) NIL) (_names t)) else rehash t nb
  else Some t.

Definition first_entry : Entry := MkEntry 0 0 0 NIL.
Definition new_table : option intern_table :=
  t ← reserve (Table [] [] [] []) (2 ^ 12);
  let t := Table (_bytes t ++ [Ascii.zero]) (_entries t ++ [first_entry]) (_buckets t) (_names t) in
  Some (if is_nil (_buckets t) then Table (_bytes t) (_entries t) (replicate (Z.to_nat (2 ^ 10)) NIL) (_names t) else t).

(** ** Hashing *)

Definition hash_init : Z := 1.
Definition hash_step (h c : Z) : Z := u32 (h + Z.shiftl h 5 + Z.shiftr h 27 + c).
Definition hash_bytes (s : bytes) : Z := fold_left (fun h c => hash_step h (code c)) s hash_init.

(** ** Interning *)

Definition spelling_of (bs : bytes) (e : Entry) : bytes := substr bs (Z.to_nat (off e)) (Z.to_nat (len e)).

(** The loop over a chain from [i]: the matching entry, or [NIL].  [None]: it
    does not end, or follows an index out of range. *)
Fixpoint chain_find (fuel : nat) (t : intern_table) (s : bytes) (h i : Z) : option Z :=
  if i =? NIL then Some NIL
  else match fuel with
       | O => None
       | S f =>
           e ← _entries t !! Z.to_nat i;
           if (hash e =? h) && (len e =? size s) && bytes_eqb (spelling_of (_bytes t) e) s then Some i
           else chain_find f t s h (next e)
       end.

Definition find_hashed (t : intern_table) (s : bytes) (h : Z) : option Z :=
  if is_nil s then Some 0
  else i ← _buckets t !! bucket (mask_of (size (_buckets t))) h; chain_find (length (_entries t)) t s h i.

Definition intern_hashed (t : intern_table) (s : bytes) (h : Z) : option (Z * intern_table) :=
  if is_nil s then Some (0, t)
  else
    i ← find_hashed t s h;
    if negb (i =? NIL) then Some (i, t)
    else
      t ← (if size (_buckets t) <? size (_entries t) then rehash t (size (_buckets t) * 2) else Some t);
      let b := bucket (mask_of (size (_buckets t))) h in
      head ← _buckets t !! b;
      let id := u32 (size (_entries t)) in
      Some (id, Table (_bytes t ++ s ++ [Ascii.zero])
                      (_entries t ++ [MkEntry (u32 (size (_bytes t))) (size s) h head])
                      (<[b := id]> (_buckets t)) (_names t)).

(** A string's length is cut to 32 bits. *)
Definition cut (s : bytes) : bytes := take (Z.to_nat (u32 (size s))) s.
Definition intern (t : intern_table) (s : bytes) : option (Z * intern_table) := intern_hashed t (cut s) (hash_bytes (cut s)).
Definition find (t : intern_table) (s : bytes) : option Z := find_hashed t (cut s) (hash_bytes (cut s)).

(** ** Transactions *)

Record transaction_state := Transaction { bytes_size : nat; entries_size : nat }.
Definition begin_transaction (t : intern_table) : transaction_state := Transaction (length (_bytes t)) (length (_entries t)).
Definition rollback_transaction (t : intern_table) (st : transaction_state) : option intern_table :=
  let es := take (entries_size st) (_entries t) in
  rehash (Table (take (bytes_size st) (_bytes t)) es (_buckets t)
                (if (entries_size st <? length (_names t))%nat then take (entries_size st) (_names t) else _names t))
         (size (_buckets t)).

(** ** Reading *)

Definition str (t : intern_table) (id : Z) : option bytes := spelling_of (_bytes t) <$> _entries t !! Z.to_nat id.
Definition length_of (t : intern_table) (id : Z) : option Z := len <$> _entries t !! Z.to_nat id.
Definition count (t : intern_table) : Z := size (_entries t) - 1.

(** The memo of names.  An empty slot has not been asked. *)
Definition name_slow (t : intern_table) (id : Z) : option (bytes * intern_table) :=
  if id =? 0 then Some ([], t)
  else
    let names := if size (_names t) <=? id then resize (length (_entries t)) [] (_names t) else _names t in
    n ← names !! Z.to_nat id;
    n ← (if is_nil n then str t id else Some n);
    Some (n, Table (_bytes t) (_entries t) (_buckets t) (<[Z.to_nat id := n]> names)).
Definition name (t : intern_table) (id : Z) : option (bytes * intern_table) :=
  match _names t !! Z.to_nat id with
  | Some (c :: n) => Some (c :: n, t)
  | _ => name_slow t id
  end.

Example session_ex :
  (t ← new_table; '(a, t) ← intern t (B "int"); '(b, t) ← intern t (B "x"); '(c, t) ← intern t (B "int");
   '(n, t) ← name t b; x ← find t (B "y"); Some (a, b, c, n, x, count t)) = Some (1, 2, 1, B "x", NIL, 2).
Proof. vm_compute. reflexivity. Qed.

(** ** Chains *)

(** [ids] is the chain from [i] on. *)
Fixpoint chain (es : list Entry) (i : Z) (ids : list nat) : Prop :=
  match ids with
  | [] => i = NIL
  | k :: r => i = Z.of_nat k /\ exists e, es !! k = Some e /\ chain es (next e) r
  end.

(** The entries up to [n] of bucket [b], the latest first. *)
Fixpoint members (mask : Z) (es : list Entry) (b n : nat) : list nat :=
  match n with
  | O => []
  | S m => match es !! n with
           | Some e => if (bucket mask (hash e) =? b)%nat then n :: members mask es b m else members mask es b m
           | None => members mask es b m
           end
  end.

Definition chained (mask : Z) (es : list Entry) (bs : list Z) (n : nat) : Prop :=
  forall b h, bs !! b = Some h -> chain es h (members mask es b n).

Lemma elem_of_members mask es b n k :
  k ∈ members mask es b n <-> (1 <= k <= n)%nat /\ exists e, es !! k = Some e /\ bucket mask (hash e) = b.
Proof.
  induction n as [|n IH]; cbn [members].
  - rewrite elem_of_nil. split; [done|lia].
  - assert (Hs : forall P, k ∈ members mask es b n \/ k = S n /\ P <-> (k = S n /\ P) \/ k ∈ members mask es b n) by tauto.
    destruct (es !! S n) as [e|] eqn:He; [destruct (Nat.eqb_spec (bucket mask (hash e)) b) as [Hb|Hb]|];
      rewrite ?elem_of_cons, IH; split.
    + intros [->|[? ?]]; [split; [lia|by exists e]|split; [lia|done]].
    + intros [? ?]. destruct (decide (k = S n)); [by left|right; split; [lia|done]].
    + intros [? ?]. split; [lia|done].
    + intros [? (e' & H1 & H2)]. destruct (decide (k = S n)) as [->|]; [congruence|split; [lia|by exists e']].
    + intros [? ?]. split; [lia|done].
    + intros [? (e' & H1 & H2)]. destruct (decide (k = S n)) as [->|]; [congruence|split; [lia|by exists e']].
Qed.

Lemma members_le mask es b n : Forall (fun k => (k <= n)%nat) (members mask es b n).
Proof. apply Forall_forall. intros k Hk. apply elem_of_members in Hk as [? _]. lia. Qed.

Lemma members_length mask es b n : (length (members mask es b n) <= n)%nat.
Proof. induction n as [|n IH]; cbn [members]; [done|]. destruct (es !! S n); [destruct (_ =? _)%nat|]; simpl; lia. Qed.

(** Only the hashes matter, and only up to [n]. *)
Lemma members_ext mask es es' b n :
  (forall k, (1 <= k <= n)%nat -> hash <$> es !! k = hash <$> es' !! k) -> members mask es b n = members mask es' b n.
Proof.
  induction n as [|n IH]; intros H; [done|]. cbn [members]. rewrite IH by (intros; apply H; lia).
  specialize (H (S n) ltac:(lia)). destruct (es !! S n), (es' !! S n); simplify_eq/=; by try rewrite H.
Qed.

Lemma chain_ext es es' i ids : (forall k, k ∈ ids -> es !! k = es' !! k) -> chain es i ids -> chain es' i ids.
Proof.
  revert i. induction ids as [|k r IH]; intros i H; [done|]. intros [-> (e & He & Hr)].
  split; [done|]. exists e. rewrite <- H by apply list_elem_of_here. split; [done|]. apply IH; [|done].
  intros. apply H. by apply list_elem_of_further.
Qed.

(** An entry put at the head of its chain. *)
Lemma chained_link mask es bs n e head :
  chained mask es bs n -> es !! S n = Some e -> bs !! bucket mask (hash e) = Some head ->
  chained mask (<[S n := MkEntry (off e) (len e) (hash e) head]> es) (<[bucket mask (hash e) := Z.of_nat (S n)]> bs) (S n).
Proof.
  intros Hc He Hh b h Hb. set (e' := MkEntry _ _ _ _). set (es' := <[S n := e']> es).
  assert (Hl : es' !! S n = Some e') by (apply list_lookup_insert_eq; by eapply lookup_lt_Some).
  assert (Hm : members mask es' b n = members mask es b n).
  { apply members_ext. intros k Hk. unfold es'. by rewrite list_lookup_insert_ne by lia. }
  assert (Hr : forall i, chain es i (members mask es b n) -> chain es' i (members mask es b n)).
  { intros i. apply chain_ext. intros k Hk. unfold es'. rewrite list_lookup_insert_ne; [done|].
    pose proof (members_le mask es b n) as Hle. rewrite Forall_forall in Hle. specialize (Hle k Hk). simpl in Hle. lia. }
  cbn [members]. rewrite Hl, Hm. simpl. destruct (Nat.eqb_spec (bucket mask (hash e)) b) as [<-|Hne].
  - rewrite list_lookup_insert_eq in Hb by (by eapply lookup_lt_Some). injection Hb as <-.
    split; [done|]. exists e'. split; [done|]. by apply Hr, Hc.
  - rewrite list_lookup_insert_ne in Hb by done. by apply Hr, Hc.
Qed.

(** The tables only differ in the chains. *)
Definition relinked (es es' : list Entry) : Prop :=
  length es' = length es /\ es' !! O = es !! O /\
  forall k e, es !! k = Some e -> exists n, es' !! k = Some (MkEntry (off e) (len e) (hash e) n).

Lemma relinked_refl es : relinked es es.
Proof. split_and!; [done|done|]. intros k [o l h n] He. exists n. done. Qed.

Lemma relinked_trans es1 es2 es3 : relinked es1 es2 -> relinked es2 es3 -> relinked es1 es3.
Proof.
  intros (H1 & H2 & H3) (G1 & G2 & G3). split_and!; [congruence|congruence|]. intros k e He.
  destruct (H3 _ _ He) as [n Hn]. destruct (G3 _ _ Hn) as [m Hm]. by exists m.
Qed.

Lemma relinked_set es k e n : (1 <= k)%nat -> es !! k = Some e -> relinked es (<[k := MkEntry (off e) (len e) (hash e) n]> es).
Proof.
  intros Hk He. split_and!; [by rewrite length_insert|by rewrite list_lookup_insert_ne by lia|]. intros j e' He'.
  destruct (decide (j = k)) as [->|Hj].
  - exists n. rewrite list_lookup_insert_eq by (by eapply lookup_lt_Some). congruence.
  - exists (next e'). rewrite list_lookup_insert_ne by done. by destruct e'.
Qed.

Lemma rehash_loop mask n es bs :
  (n <= length es - 1)%nat -> (forall h, bucket mask h < length bs)%nat -> chained mask es bs 0 ->
  exists es' bs', fold_left (rehash_step mask) (seq 1 n) (Some (es, bs)) = Some (es', bs') /\
    length bs' = length bs /\ relinked es es' /\ chained mask es' bs' n.
Proof.
  intros Hn Hb Hc. induction n as [|n IH]; [exists es, bs; split_and!; [done..|apply relinked_refl|done]|].
  destruct IH as (es1 & bs1 & Hf & Hl & Hr & Hc1); [lia|]. rewrite seq_S, fold_left_app, Hf. simpl.
  assert (Hlt : (S n < length es)%nat) by lia. apply lookup_lt_is_Some in Hlt as [e He].
  destruct Hr as (Hr1 & Hr2 & Hr3). destruct (Hr3 _ _ He) as [nx He1]. rewrite He1. simpl.
  destruct (lookup_lt_is_Some_2 bs1 (bucket mask (hash e))) as [head Hh]; [rewrite Hl; apply Hb|]. rewrite Hh. simpl.
  eexists _, _. split_and!; [done|by rewrite length_insert| |by apply (chained_link mask es1 bs1 n (MkEntry (off e) (len e) (hash e) nx))].
  apply (relinked_trans _ es1); [done|]. by apply (relinked_set es1 (S n) (MkEntry (off e) (len e) (hash e) nx)); [lia|].
Qed.

(** ** The search of a chain *)

Definition entry_is (t : intern_table) (s : bytes) (h : Z) (k : nat) : Prop :=
  exists e, _entries t !! k = Some e /\ hash e = h /\ len e = size s /\ spelling_of (_bytes t) e = s.

Lemma chain_find_spec fuel t s h i ids :
  chain (_entries t) i ids -> Forall (fun k => Z.of_nat k < NIL) ids -> (length ids <= fuel)%nat ->
  exists r, chain_find fuel t s h i = Some r /\
    ((exists k, k ∈ ids /\ entry_is t s h k /\ r = Z.of_nat k) \/ r = NIL /\ forall k, k ∈ ids -> ~ entry_is t s h k).
Proof.
  revert fuel i. induction ids as [|k r IH]; intros fuel i Hc Hf Hl.
  - simpl in Hc. subst i. exists NIL. split; [by destruct fuel|]. right. split; [done|]. intros k Hk. by apply elem_of_nil in Hk.
  - destruct Hc as [-> (e & He & Hr)]. apply Forall_cons_1 in Hf as [Hk Hf]. simpl in Hl. destruct fuel as [|fuel]; [lia|].
    cbn [chain_find]. rewrite (proj2 (Z.eqb_neq _ _)) by lia. rewrite Nat2Z.id, He. simpl.
    destruct ((hash e =? h) && (len e =? size s) && bytes_eqb (spelling_of (_bytes t) e) s) eqn:E.
    + reflect_bool. exists (Z.of_nat k). split; [done|]. left. exists k. split_and!; [apply list_elem_of_here| |done]. by exists e.
    + destruct (IH fuel (next e) Hr Hf ltac:(lia)) as (x & Hx & Hcase). exists x. split; [done|].
      destruct Hcase as [(j & Hj & Hm & ->)|[-> Hno]]; [left; exists j; split_and!; [by apply list_elem_of_further|done|done]|].
      right. split; [done|]. intros j Hj (e' & He' & H1 & H2 & H3).
      apply elem_of_cons in Hj as [->|Hj]; [|apply (Hno j Hj); by exists e'].
      replace e' with e in * by congruence. subst s h. rewrite H2, !Z.eqb_refl, bytes_eqb_refl in E. done.
Qed.

(** ** The invariant *)

Definition spellings (t : intern_table) : list bytes := map (spelling_of (_bytes t)) (_entries t).

(** An entry's text lies within the arena, a NUL after it. *)
Definition entry_ok (bs : bytes) (i : nat) (e : Entry) : Prop :=
  0 <= off e /\ 0 <= len e /\ bs !! Z.to_nat (off e + len e) = Some Ascii.zero /\
  ((1 <= i)%nat -> 0 < len e /\ hash e = hash_bytes (spelling_of bs e)).

Record wf (t : intern_table) : Prop := {
  wf_bytes : size (_bytes t) < 2 ^ 32;
  wf_size : size (_entries t) <= NIL;
  wf_first : _entries t !! O = Some first_entry;
  wf_entries : forall i e, _entries t !! i = Some e -> entry_ok (_bytes t) i e;
  wf_nodup : NoDup (spellings t);
  wf_buckets : exists k, 0 <= k <= 32 /\ size (_buckets t) = 2 ^ k;
  wf_chained : chained (mask_of (size (_buckets t))) (_entries t) (_buckets t) (length (_entries t) - 1);
  wf_names : forall i n, _names t !! i = Some n -> n = [] \/ spellings t !! i = Some n
}.

Lemma wf_nonempty t : wf t -> _entries t <> [].
Proof. intros Hw He. pose proof (wf_first t Hw) as H. by rewrite He in H. Qed.

Lemma mask_pow k : 0 <= k <= 32 -> mask_of (2 ^ k) = Z.ones k.
Proof.
  intros Hk. unfold mask_of. rewrite Z.ones_equiv. destruct (decide (k = 32)) as [->|]; [done|].
  assert (2 ^ k <= 2 ^ 31) by (apply Z.pow_le_mono_r; lia). assert (0 < 2 ^ k) by lia.
  rewrite (u32_small (2 ^ k)) by lia. rewrite u32_small; lia.
Qed.

Lemma bucket_lt bs h k : 0 <= k <= 32 -> size bs = 2 ^ k -> (bucket (mask_of (size (A:=Z) bs)) h < length bs)%nat.
Proof.
  intros Hk Hs. unfold bucket. rewrite Hs, mask_pow, Z_land_low by lia.
  pose proof (Z.mod_pos_bound h (2 ^ k) ltac:(lia)). unfold size in Hs. lia.
Qed.

Lemma relinked_spelling es es' k e bs : relinked es es' -> es !! k = Some e -> exists e', es' !! k = Some e' /\
  off e' = off e /\ len e' = len e /\ hash e' = hash e /\ spelling_of bs e' = spelling_of bs e.
Proof. intros (_ & _ & H) He. destruct (H k e He) as [n Hn]. by eexists. Qed.

Lemma relinked_spellings es es' bs : relinked es es' -> map (spelling_of bs) es' = map (spelling_of bs) es.
Proof.
  intros Hr. apply list_eq. intros i. rewrite !list_lookup_fmap. destruct (es !! i) as [e|] eqn:He.
  - destruct (relinked_spelling _ _ _ _ bs Hr He) as (e' & He' & _ & _ & _ & Hs). rewrite He'. simpl. by f_equal.
  - apply lookup_ge_None in He. destruct Hr as (Hl & _). by rewrite lookup_ge_None_2 by lia.
Qed.

Lemma chained_replicate mask es n : chained mask es (replicate n NIL) 0.
Proof. intros b h Hb. apply lookup_replicate in Hb as [-> _]. done. Qed.

(** What [rehash] needs of the table, and gives it. *)
Lemma rehash_spec t k : 0 <= k <= 32 -> _entries t <> [] ->
  exists es bs, rehash t (2 ^ k) = Some (Table (_bytes t) es bs (_names t)) /\ size bs = 2 ^ k /\ relinked (_entries t) es /\
    chained (mask_of (2 ^ k)) es bs (length es - 1).
Proof.
  intros Hk Hne. unfold rehash. assert (Hs : size (replicate (Z.to_nat (2 ^ k)) NIL) = 2 ^ k).
  { unfold size. rewrite length_replicate. lia. }
  destruct (rehash_loop (mask_of (2 ^ k)) (length (_entries t) - 1) (_entries t) (replicate (Z.to_nat (2 ^ k)) NIL))
    as (es & bs & -> & Hl & Hr & Hc); [lia| |by apply chained_replicate|].
  { intros h. pose proof (bucket_lt _ h k Hk Hs) as Hb. by rewrite Hs in Hb. }
  exists es, bs. simpl. split_and!; [done| |done|].
  - unfold size in *. by rewrite Hl.
  - by destruct Hr as [-> _].
Qed.

Lemma wf_relink t es bs k :
  wf t -> 0 <= k <= 32 -> size bs = 2 ^ k -> relinked (_entries t) es -> chained (mask_of (2 ^ k)) es bs (length es - 1) ->
  wf (Table (_bytes t) es bs (_names t)) /\ spellings (Table (_bytes t) es bs (_names t)) = spellings t.
Proof.
  intros Hw Hk Hs Hr Hc. destruct Hw as [H1 H2 H3 H4 H5 H6 H7 H8].
  assert (Hsp : spellings (Table (_bytes t) es bs (_names t)) = spellings t) by (by apply relinked_spellings).
  split; [|done]. pose proof Hr as (Hl & H0 & Hk'). constructor; cbn [_bytes _entries _buckets _names]; try done.
  - unfold size in *. by rewrite Hl.
  - by rewrite H0.
  - intros i e' He'. destruct (lookup_lt_is_Some_2 (_entries t) i) as [e He]; [rewrite <- Hl; by eapply lookup_lt_Some|].
    destruct (Hk' i e He) as [n Hn]. assert (e' = MkEntry (off e) (len e) (hash e) n) as -> by congruence. exact (H4 i e He).
  - by rewrite Hsp.
  - by exists k.
  - by rewrite Hs.
  - intros i n. rewrite Hsp. apply H8.
Qed.

(** ** The search of the table *)

Definition index_of (s : bytes) (l : list bytes) : option nat := fst <$> list_find (fun x => x = s) l.

Lemma wf_lookup t i e : wf t -> _entries t !! i = Some e -> spellings t !! i = Some (spelling_of (_bytes t) e).
Proof. intros _ H. unfold spellings. by rewrite list_lookup_fmap, H. Qed.

Lemma spelling_length bs i e : entry_ok bs i e -> size (spelling_of bs e) = len e.
Proof.
  intros (H1 & H2 & H3 & _). unfold spelling_of, substr, size. apply lookup_lt_Some in H3.
  rewrite length_take, length_drop. lia.
Qed.

Lemma first_empty t : wf t -> spellings t !! O = Some [].
Proof. intros Hw. by rewrite (wf_lookup t O first_entry) by (done || apply Hw). Qed.

Lemma entry_is_index t s k :
  wf t -> s <> [] -> entry_is t s (hash_bytes s) k <-> spellings t !! k = Some s.
Proof.
  intros Hw Hne. split.
  - intros (e & He & _ & _ & Hs). rewrite (wf_lookup t k e Hw He). by f_equal.
  - intros H. unfold spellings in H. rewrite list_lookup_fmap in H. apply fmap_Some in H as (e & He & ->). exists e.
    pose proof (wf_entries t Hw k e He) as Ho. split_and!; [done| |by rewrite (spelling_length _ k)|done].
    destruct k as [|k]; [|by apply Ho; lia]. pose proof (wf_first t Hw) as Hf. rewrite He in Hf. injection Hf as ->. done.
Qed.

(** The id of a spelling, [NIL] for none. *)
Definition id_of (s : bytes) (l : list bytes) : Z := match index_of s l with Some k => Z.of_nat k | None => NIL end.

Lemma index_of_Some s l k : NoDup l -> l !! k = Some s -> index_of s l = Some k.
Proof.
  intros Hn Hk. unfold index_of. destruct (list_find (fun x => x = s) l) as [[j x]|] eqn:E.
  - apply list_find_Some in E as (Hj & -> & _). simpl. f_equal. by eapply NoDup_lookup.
  - exfalso. apply list_find_None in E. rewrite Forall_lookup in E. by apply (E k s).
Qed.

Lemma index_of_None s l : index_of s l = None <-> s ∉ l.
Proof.
  unfold index_of. rewrite fmap_None, list_find_None, Forall_forall. split.
  - intros H Hs. by apply (H s).
  - intros H x Hx ->. done.
Qed.

Lemma find_hashed_spec t s : wf t -> find_hashed t s (hash_bytes s) = Some (id_of s (spellings t)).
Proof.
  intros Hw. unfold find_hashed, id_of. destruct (is_nil s) eqn:En.
  { apply is_nil_true in En. subst s. rewrite (index_of_Some [] _ O) by (apply Hw || by apply first_empty). done. }
  apply is_nil_false in En. destruct (wf_buckets t Hw) as (k & Hk & Hs). set (b := bucket _ _).
  destruct (lookup_lt_is_Some_2 (_buckets t) b) as [h Hb]; [by apply (bucket_lt _ _ k)|]. rewrite Hb. simpl.
  pose proof (wf_chained t Hw b h Hb) as Hc. pose proof (wf_size t Hw) as Hsz. unfold size in Hsz.
  destruct (chain_find_spec (length (_entries t)) t s (hash_bytes s) h _ Hc) as (r & -> & Hr).
  { eapply Forall_impl; [apply members_le|]. simpl. intros x Hx.
    pose proof (lookup_lt_Some _ _ _ (wf_first t Hw)). lia. }
  { pose proof (members_length (mask_of (size (_buckets t))) (_entries t) b (length (_entries t) - 1)). lia. }
  f_equal. destruct Hr as [(j & _ & Hj & ->)|[-> Hno]].
  - apply entry_is_index in Hj; [|done..]. by rewrite (index_of_Some s _ j) by (apply Hw || done).
  - destruct (index_of s (spellings t)) as [j|] eqn:Ej; [|done]. exfalso.
    assert (Hj : spellings t !! j = Some s).
    { unfold index_of in Ej. apply fmap_Some in Ej as ([j' x] & Hf & ->). by apply list_find_Some in Hf as (H & -> & _). }
    pose proof Hj as He. apply (entry_is_index t s j Hw En) in He. apply (Hno j); [|done].
    destruct He as (e & He & Hh & _). apply elem_of_members. split; [|exists e; split; [done|by rewrite Hh]].
    pose proof (lookup_lt_Some _ _ _ He). destruct j; [|lia]. rewrite first_empty in Hj by done. congruence.
Qed.

(** ** The specification *)

(** A dictionary is its spellings in the order of their ids. *)
Definition spec_intern (l : list bytes) (s : bytes) : nat * list bytes :=
  match index_of s l with Some k => (k, l) | None => (length l, l ++ [s]) end.

(** The arena and the ids a spelling needs are there. *)
Definition room (t : intern_table) (s : bytes) : Prop :=
  size (_bytes t) + size s + 1 < 2 ^ 32 /\ size (_entries t) < NIL.

(** What interning leaves alone: the arena so far and the entries' texts. *)
Record extends (t t' : intern_table) : Prop := {
  ext_bytes : exists more, _bytes t' = _bytes t ++ more;
  ext_entries : exists more, relinked (_entries t ++ more) (_entries t')
}.

Lemma extends_refl t : extends t t.
Proof. constructor; [exists []; by rewrite app_nil_r|exists []; rewrite app_nil_r; apply relinked_refl]. Qed.

Lemma relinked_app es es' more : relinked es es' -> es <> [] -> relinked (es ++ more) (es' ++ more).
Proof.
  intros (H1 & H2 & H3) Hne. split_and!.
  - rewrite !length_app. lia.
  - destruct es, es'; done.
  - intros k e He. apply lookup_app_Some in He as [He|[Hk He]].
    + destruct (H3 k e He) as [n Hn]. exists n. by apply lookup_app_l_Some.
    + exists (next e). rewrite lookup_app_r by lia. rewrite H1. rewrite He. by destruct e.
Qed.

Lemma extends_trans t1 t2 t3 : _entries t1 <> [] -> extends t1 t2 -> extends t2 t3 -> extends t1 t3.
Proof.
  intros Hne [[m1 B1] [e1 E1]] [[m2 B2] [e2 E2]]. constructor.
  - exists (m1 ++ m2). by rewrite B2, B1, app_assoc.
  - exists (e1 ++ e2). rewrite app_assoc. eapply relinked_trans; [|exact E2]. apply relinked_app; [done|].
    by destruct (_entries t1).
Qed.

(** A new spelling at the head of its chain. *)
Definition add (t : intern_table) (s : bytes) (h head : Z) : intern_table :=
  Table (_bytes t ++ s ++ [Ascii.zero])
        (_entries t ++ [MkEntry (u32 (size (_bytes t))) (size s) h head])
        (<[bucket (mask_of (size (_buckets t))) h := u32 (size (_entries t))]> (_buckets t)) (_names t).

Lemma spelling_of_app bs more i e : entry_ok bs i e -> spelling_of (bs ++ more) e = spelling_of bs e.
Proof.
  intros (H1 & H2 & H3 & _). apply lookup_lt_Some in H3. unfold spelling_of, substr.
  rewrite drop_app_le by lia. rewrite take_app_le; [done|]. rewrite length_drop. lia.
Qed.

Lemma add_spellings t s h head : wf t -> room t s -> spellings (add t s h head) = spellings t ++ [s].
Proof.
  intros Hw [Hr _]. unfold spellings, add. cbn [_bytes _entries]. rewrite map_app. f_equal.
  - apply map_ext_in. intros e He. apply list_elem_of_In, list_elem_of_lookup in He as [i Hi].
    by eapply spelling_of_app, wf_entries.
  - simpl. f_equal. unfold spelling_of, substr. cbn [off len]. unfold size in *. rewrite u32_small by lia.
    rewrite !Nat2Z.id, drop_app_length. apply take_app_length.
Qed.

Lemma add_chained t s h head k :
  wf t -> room t s -> 0 <= k <= 32 -> size (_buckets t) = 2 ^ k ->
  _buckets t !! bucket (mask_of (size (_buckets t))) h = Some head ->
  let t' := add t s h head in
  chained (mask_of (size (_buckets t'))) (_entries t') (_buckets t') (length (_entries t') - 1).
Proof.
  intros Hw [Hr1 Hr2] Hk Hs Hh t'. pose proof (lookup_lt_Some _ _ _ (wf_first t Hw)) as Hpos.
  set (e := MkEntry (u32 (size (_bytes t))) (size s) h head). set (es := _entries t ++ [e]).
  set (n := (length (_entries t) - 1)%nat).
  assert (Hc : chained (mask_of (size (_buckets t))) es (_buckets t) n).
  { intros b h' Hb. pose proof (wf_chained t Hw b h' Hb) as Hc. fold n in Hc.
    assert (Hl : forall j, (j <= n)%nat -> _entries t !! j = es !! j) by (intros j Hj; unfold es; by rewrite lookup_app_l by lia).
    rewrite (members_ext _ es (_entries t)); [|intros j Hj; by rewrite Hl by lia]. eapply chain_ext; [|exact Hc].
    intros j Hj. apply Hl. pose proof (members_le (mask_of (size (_buckets t))) (_entries t) b n) as Hle.
    rewrite Forall_forall in Hle. by apply Hle. }
  assert (He : es !! S n = Some e) by (unfold es; apply list_lookup_middle; lia).
  pose proof (chained_link _ es (_buckets t) n e head Hc He Hh) as Hl.
  rewrite list_insert_id in Hl by done. unfold t', add. cbn [_entries _buckets]. fold e es.
  replace (length es - 1)%nat with (S n) by (unfold es; rewrite length_app; simpl; lia).
  replace (u32 (size (_entries t))) with (Z.of_nat (S n)) by (unfold size in *; unfold NIL in *; rewrite u32_small; lia).
  unfold size in *. rewrite length_insert. exact Hl.
Qed.

Lemma add_wf t s head :
  wf t -> room t s -> s ∉ spellings t -> _buckets t !! bucket (mask_of (size (_buckets t))) (hash_bytes s) = Some head ->
  wf (add t s (hash_bytes s) head).
Proof.
  intros Hw Hr Hs Hh. destruct (wf_buckets t Hw) as (k & Hk & Hb).
  pose proof (add_chained t s (hash_bytes s) head k Hw Hr Hk Hb Hh) as Hc. pose proof Hr as [Hr1 Hr2].
  pose proof (add_spellings t s (hash_bytes s) head Hw Hr) as Hsp.
  assert (Hne : s <> []) by (intros ->; apply Hs; eapply list_elem_of_lookup_2, first_empty, Hw).
  constructor; try done.
  - unfold add, size in *. cbn [_bytes]. rewrite !length_app. simpl. lia.
  - unfold add, size in *. cbn [_entries]. rewrite length_app. simpl. lia.
  - unfold add. cbn [_entries]. apply lookup_app_l_Some, Hw.
  - intros i e He. unfold add in *. cbn [_entries _bytes] in *. apply lookup_app_Some in He as [He|[Hi He]].
    + pose proof (wf_entries t Hw i e He) as Ho. pose proof Ho as (H1 & H2 & H3 & H4). split_and!; [done|done| |].
      * by apply lookup_app_l_Some.
      * intros Hi. by rewrite (spelling_of_app _ _ i) by done; apply H4.
    + apply list_lookup_singleton_Some in He as [_ <-]. pose proof (add_spellings t s (hash_bytes s) head Hw Hr) as Ha.
      unfold spellings, add in Ha. cbn [_bytes _entries] in Ha. rewrite map_app in Ha. apply (f_equal last) in Ha.
      simpl in Ha. rewrite !last_snoc in Ha. injection Ha as Ha. unfold entry_ok. cbn [off len hash].
      unfold size in *. rewrite u32_small in * by lia. split_and!; [lia|lia| |].
      * rewrite app_assoc. apply list_lookup_middle. rewrite length_app. lia.
      * intros _. split; [destruct s; [done|simpl; lia]|by rewrite Ha].
  - rewrite Hsp. apply NoDup_app. split_and!; [apply Hw| |apply NoDup_singleton].
    intros x Hx ->%list_elem_of_singleton. done.
  - unfold add. cbn [_buckets]. exists k. unfold size in *. by rewrite length_insert.
  - intros i n Hn. rewrite Hsp. unfold add in Hn. cbn [_names] in Hn. destruct (wf_names t Hw i n Hn) as [->|H]; [by left|].
    right. by apply lookup_app_l_Some.
Qed.

(** The table grows before it would be more than full. *)
Lemma grow_spec t : wf t -> exists t1,
  (if size (_buckets t) <? size (_entries t) then rehash t (size (_buckets t) * 2) else Some t) = Some t1 /\
  wf t1 /\ spellings t1 = spellings t /\ _bytes t1 = _bytes t /\ _names t1 = _names t /\ relinked (_entries t) (_entries t1).
Proof.
  intros Hw. destruct (size (_buckets t) <? size (_entries t)) eqn:E; [|exists t; split_and!; try done; apply relinked_refl].
  destruct (wf_buckets t Hw) as (k & Hk & Hb). pose proof (wf_size t Hw) as Hz. apply Z.ltb_lt in E.
  assert (k <= 31). { apply Z.le_ngt. intros Hk'. assert (k = 32) by lia. subst k. unfold NIL in Hz. lia. }
  assert (Hd : size (_buckets t) * 2 = 2 ^ (k + 1)) by (rewrite Hb, Z.pow_add_r by lia; lia). rewrite Hd.
  destruct (rehash_spec t (k + 1)) as (es & bs & -> & Hs & Hr & Hc); [lia|by apply wf_nonempty|].
  destruct (wf_relink t es bs (k + 1) Hw ltac:(lia) Hs Hr Hc) as [Hw' Hsp]. eexists. split_and!; done.
Qed.

Lemma intern_hashed_spec t s :
  wf t -> room t s -> exists t', intern_hashed t s (hash_bytes s) = Some (Z.of_nat (spec_intern (spellings t) s).1, t') /\
    wf t' /\ spellings t' = (spec_intern (spellings t) s).2 /\ extends t t'.
Proof.
  intros Hw Hr. pose proof (lookup_lt_Some _ _ _ (wf_first t Hw)) as Hpos. unfold intern_hashed, spec_intern.
  destruct (is_nil s) eqn:En.
  { apply is_nil_true in En. subst s. rewrite (index_of_Some [] _ O) by (apply Hw || by apply first_empty).
    exists t. split_and!; try done. apply extends_refl. }
  rewrite find_hashed_spec by done. unfold id_of. destruct (index_of s (spellings t)) as [k|] eqn:Ei; simpl.
  - assert (Hk : (k < length (_entries t))%nat).
    { unfold index_of in Ei. apply fmap_Some in Ei as ([j x] & Hf & ->). apply list_find_Some in Hf as (H & _).
      apply lookup_lt_Some in H. unfold spellings in H. by rewrite length_map in H. }
    pose proof (wf_size t Hw). unfold size in *. rewrite (proj2 (Z.eqb_neq _ _)) by lia. simpl.
    exists t. split_and!; try done. apply extends_refl.
  - destruct (grow_spec t Hw) as (t1 & -> & Hw1 & Hs1 & Hb1 & Hn1 & He1). simpl.
    destruct (wf_buckets t1 Hw1) as (k & Hk & Hb).
    destruct (lookup_lt_is_Some_2 (_buckets t1) (bucket (mask_of (size (_buckets t1))) (hash_bytes s))) as [head Hh];
      [by apply (bucket_lt _ _ k)|]. rewrite Hh. simpl. fold (add t1 s (hash_bytes s) head).
    assert (Hl : length (_entries t1) = length (_entries t)) by apply He1.
    assert (Hr1 : room t1 s) by (unfold room, size in *; by rewrite Hb1, Hl).
    eexists. split_and!.
    + do 2 f_equal. destruct Hr as [_ Hr]. unfold size, NIL, spellings in *. rewrite u32_small, length_map by lia. lia.
    + apply add_wf; try done. rewrite Hs1. by apply index_of_None.
    + by rewrite add_spellings, Hs1.
    + constructor; unfold add; cbn [_bytes _entries _names]; [eexists; by rewrite Hb1|].
      eexists. apply relinked_app; [exact He1|by apply wf_nonempty].
Qed.

Lemma extends_spellings t t' : wf t -> extends t t' -> exists more, spellings t' = spellings t ++ more.
Proof.
  intros Hw [[mb Hb] [me He]]. exists (map (spelling_of (_bytes t')) me).
  unfold spellings. rewrite (relinked_spellings _ _ _ He), map_app. f_equal. apply map_ext_in. intros e Hin.
  apply list_elem_of_In, list_elem_of_lookup in Hin as [i Hi]. rewrite Hb. by eapply spelling_of_app, wf_entries.
Qed.

(** *** The memo of names *)

Lemma str_spelling t id : str t id = spellings t !! Z.to_nat id.
Proof. unfold str, spellings. by rewrite list_lookup_fmap. Qed.

(** The memo, asked for [id]. *)
Definition asked (t : intern_table) (id : Z) : list bytes :=
  if size (_names t) <=? id then resize (length (_entries t)) [] (_names t) else _names t.

Lemma asked_ok t id :
  wf t -> 0 <= id -> (Z.to_nat id < length (_entries t))%nat ->
  is_Some (asked t id !! Z.to_nat id) /\ forall i n, asked t id !! i = Some n -> n = [] \/ spellings t !! i = Some n.
Proof.
  intros Hw Hz Hid. unfold asked, size. destruct (Z.leb_spec (Z.of_nat (length (_names t))) id) as [Hle|Hgt].
  - split; [apply lookup_lt_is_Some_2; by rewrite length_resize|]. intros i n Hi.
    pose proof (lookup_lt_Some _ _ _ Hi) as Hl. rewrite length_resize in Hl.
    destruct (decide (i < length (_names t))%nat) as [Hi'|Hi'].
    + rewrite lookup_resize in Hi by lia. by apply (wf_names t Hw).
    + rewrite lookup_resize_new in Hi by lia. left. congruence.
  - split; [apply lookup_lt_is_Some_2; lia|apply (wf_names t Hw)].
Qed.

Lemma set_names_wf t names : wf t -> (forall i n, names !! i = Some n -> n = [] \/ spellings t !! i = Some n) ->
  wf (Table (_bytes t) (_entries t) (_buckets t) names).
Proof. intros [] H. by constructor. Qed.

Lemma name_spec t id s : wf t -> 0 <= id -> str t id = Some s ->
  exists t', name t id = Some (s, t') /\ wf t' /\ spellings t' = spellings t /\ extends t t'.
Proof.
  intros Hw Hid Hs. rewrite str_spelling in Hs.
  assert (Hslow : exists t', name_slow t id = Some (s, t') /\ wf t' /\ spellings t' = spellings t /\ extends t t').
  { unfold name_slow. destruct (Z.eqb_spec id 0) as [->|Hnz].
    { rewrite first_empty in Hs by done. injection Hs as <-. exists t. split_and!; try done. apply extends_refl. }
    assert (Hlt : (Z.to_nat id < length (_entries t))%nat)
      by (apply lookup_lt_Some in Hs; unfold spellings in Hs; by rewrite length_map in Hs).
    destruct (asked_ok t id Hw Hid Hlt) as [[n Hn] Hok]. fold (asked t id). rewrite Hn. simpl.
    assert (Hv : (if is_nil n then str t id else Some n) = Some s).
    { rewrite str_spelling. destruct (Hok _ _ Hn) as [->|H]; [done|]. destruct n; [done|]. simpl. congruence. }
    rewrite Hv. simpl. eexists. split_and!; [done| |done|by constructor; [exists []; rewrite app_nil_r|exists []; rewrite app_nil_r; apply relinked_refl]].
    apply set_names_wf; [done|]. intros i m Hi. destruct (decide (i = Z.to_nat id)) as [->|Hne].
    - rewrite list_lookup_insert_eq in Hi by (by eapply lookup_lt_Some). right. congruence.
    - rewrite list_lookup_insert_ne in Hi by done. by apply Hok. }
  unfold name. destruct (_names t !! Z.to_nat id) as [[|c n]|] eqn:En; [done| |done].
  destruct (wf_names t Hw _ _ En) as [|H]; [done|]. exists t. split_and!; [congruence|done|done|apply extends_refl].
Qed.

(** ** A session *)

Lemma cut_small s : size s < 2 ^ 32 -> cut s = s.
Proof. intros H. unfold cut. apply take_ge. unfold size in *. rewrite u32_small; lia. Qed.

(** Interning and naming, while there is room. *)
Inductive session : intern_table -> intern_table -> Prop :=
| ses_nil t : session t t
| ses_intern t s id t1 t2 : room t s -> intern t s = Some (id, t1) -> session t1 t2 -> session t t2
| ses_name t id s n t1 t2 : 0 <= id -> str t id = Some s -> name t id = Some (n, t1) -> session t1 t2 -> session t t2.

Lemma room_small t s : room t s -> size s < 2 ^ 32.
Proof. unfold room, size. lia. Qed.

Lemma intern_spec t s : wf t -> room t s ->
  exists t', intern t s = Some (Z.of_nat (spec_intern (spellings t) s).1, t') /\
    wf t' /\ spellings t' = (spec_intern (spellings t) s).2 /\ extends t t'.
Proof. intros Hw Hr. unfold intern. rewrite cut_small by (by eapply room_small). by apply intern_hashed_spec. Qed.

Lemma session_extends t t' : session t t' -> wf t -> wf t' /\ extends t t'.
Proof.
  induction 1 as [t|t s id t1 t2 Hr Hi Hs IH|t id s n t1 t2 Hid Hst Hn Hs IH]; intros Hw; [split; [done|apply extends_refl]| |].
  - destruct (intern_spec t s Hw Hr) as (t1' & Hi' & Hw1 & _ & He). rewrite Hi in Hi'. injection Hi' as -> ->.
    destruct (IH Hw1) as [Hw2 He2]. split; [done|]. eapply extends_trans; [by apply wf_nonempty|exact He|exact He2].
  - destruct (name_spec t id s Hw Hid Hst) as (t1' & Hn' & Hw1 & _ & He). rewrite Hn in Hn'. injection Hn' as -> ->.
    destruct (IH Hw1) as [Hw2 He2]. split; [done|]. eapply extends_trans; [by apply wf_nonempty|exact He|exact He2].
Qed.

Lemma new_wf : exists t, new_table = Some t /\ wf t /\ spellings t = [ [] ].
Proof.
  set (t := Table [Ascii.zero] [first_entry] (replicate (Z.to_nat (2 ^ 12)) NIL) []). exists t.
  assert (Hs : size (_buckets t) = 2 ^ 12) by (unfold size, t; cbn [_buckets]; rewrite length_replicate; lia).
  split_and!; [by vm_compute| |done]. constructor; try done.
  - intros [|i] e He; [|by destruct i]. injection He as <-. split_and!; [done|done|done|lia].
  - apply NoDup_singleton.
  - exists 12. by split.
  - apply chained_replicate.
Qed.

(** The same spelling has the same id as long as it is there. *)
Lemma find_spec t s : wf t -> size s < 2 ^ 32 -> find t s = Some (id_of s (spellings t)).
Proof. intros Hw Hs. unfold find. rewrite cut_small by done. by apply find_hashed_spec. Qed.

Lemma index_of_lookup s l k : index_of s l = Some k -> l !! k = Some s.
Proof. unfold index_of. intros H. apply fmap_Some in H as ([j x] & Hf & ->). by apply list_find_Some in Hf as (H & -> & _). Qed.

(** C25: The intern table is a dictionary: a spelling's id is its place among the
    distinct spellings in the order they came, the empty one's is 0, whatever
    the hash chains and their growth make of it; a later session changes no
    spelling and no id. *)
Theorem intern_refines t s :
  wf t -> room t s ->
  let '(k, l) := spec_intern (spellings t) s in
  exists t', intern t s = Some (Z.of_nat k, t') /\ wf t' /\ spellings t' = l /\ NoDup l /\
    forall t'', session t' t'' -> wf t'' /\ str t'' (Z.of_nat k) = Some s /\ find t'' s = Some (Z.of_nat k) /\
      intern t'' s = Some (Z.of_nat k, t'') /\ forall id w, str t id = Some w -> str t'' id = Some w.
Proof.
  intros Hw Hr. destruct (intern_spec t s Hw Hr) as (t' & Hi & Hw' & Hs & He). destruct (spec_intern (spellings t) s) as [k l] eqn:Es.
  simpl in *. exists t'. split_and!; [done..|by rewrite <- Hs; apply Hw'|]. intros t'' Hses.
  destruct (session_extends t' t'' Hses Hw') as [Hw'' He'']. destruct (extends_spellings t t' Hw He) as [m1 Hm1].
  destruct (extends_spellings t' t'' Hw' He'') as [m2 Hm2].
  assert (Hk : spellings t'' !! k = Some s).
  { rewrite Hm2, Hs. apply lookup_app_l_Some. unfold spec_intern in Es. destruct (index_of s (spellings t)) as [j|] eqn:Ej.
    - injection Es as <- <-. by apply index_of_lookup.
    - injection Es as <- <-. by apply list_lookup_middle. }
  assert (Hf : find t'' s = Some (Z.of_nat k)).
  { rewrite find_spec by (done || by eapply room_small). unfold id_of. rewrite (index_of_Some s _ k) by (apply Hw'' || done). done. }
  split_and!; [done|by rewrite str_spelling, Nat2Z.id|done| |].
  - unfold intern, intern_hashed. unfold find in Hf. destruct (is_nil (cut s)) eqn:En.
    + unfold find_hashed in Hf. rewrite En in Hf. by injection Hf as <-.
    + rewrite Hf. simpl. apply lookup_lt_Some in Hk. unfold spellings in Hk. rewrite length_map in Hk.
      pose proof (wf_size t'' Hw''). unfold size in *. by rewrite (proj2 (Z.eqb_neq _ _)) by lia.
  - intros id w H. rewrite str_spelling in *. rewrite Hm2, Hm1, <- app_assoc. by apply lookup_app_l_Some.
Qed.

Lemma intern_refines_witness :
  exists t t', new_table = Some t /\ intern t (B "int") = Some (1, t') /\ str t' 1 = Some (B "int").
Proof.
  destruct new_wf as (t & Ht & Hw & Hs).
  assert (Hr : room t (B "int")).
  { vm_compute in Ht. injection Ht as <-. vm_compute. by split. }
  pose proof (intern_refines t (B "int") Hw Hr) as H. rewrite Hs in H.
  destruct H as (t' & Hi & _ & _ & _ & H). destruct (H t' (ses_nil t')) as (_ & Hst & _).
  exists t, t'. split_and!; [exact Ht|exact Hi|exact Hst].
Defined.

(** ** Rollback *)

Lemma take_relinked es more es' : relinked (es ++ more) es' -> es <> [] -> relinked es (take (length es) es').
Proof.
  intros (H1 & H2 & H3) Hne. rewrite length_app in H1. split_and!.
  - rewrite length_take. lia.
  - rewrite lookup_take_lt by (destruct es; [done|simpl; lia]). rewrite H2. by destruct es.
  - intros k e He. pose proof (lookup_lt_Some _ _ _ He). rewrite lookup_take_lt by done.
    apply H3. by apply lookup_app_l_Some.
Qed.

(** Rolling back a transaction gives the dictionary of its start: the same
    spellings under the same ids, and none of those that came since, although
    the buckets may have grown and chains run through entries that are gone. *)
Theorem rollback_restores t t' :
  wf t -> session t t' ->
  exists t'', rollback_transaction t' (begin_transaction t) = Some t'' /\ wf t'' /\ spellings t'' = spellings t /\
    _bytes t'' = _bytes t /\ forall s, size s < 2 ^ 32 -> find t'' s = find t s.
Proof.
  intros Hw Hs. destruct (session_extends t t' Hs Hw) as [Hw' He]. destruct (extends_spellings t t' Hw He) as [msp Hsp].
  destruct He as [[mb Hb] [me Hr]]. pose proof (wf_nonempty t Hw) as Hne.
  pose proof (take_relinked _ _ _ Hr Hne) as Ht. destruct (wf_buckets t' Hw') as (k & Hk & Hbk).
  unfold rollback_transaction, begin_transaction. cbn [bytes_size entries_size]. rewrite Hb, take_app_length, Hbk.
  set (names := if (_ <? _)%nat then _ else _). set (es0 := take _ _) in *.
  assert (Hn : forall i n, names !! i = Some n -> n = [] \/ spellings t !! i = Some n).
  { intros i n Hi. assert (Hi' : _names t' !! i = Some n /\ (i < length (_entries t))%nat).
    { unfold names in Hi. destruct (Nat.ltb_spec (length (_entries t)) (length (_names t'))).
      - by apply lookup_take_Some in Hi as [? ?].
      - split; [done|]. apply lookup_lt_Some in Hi. lia. }
    destruct Hi' as [Hi' Hl]. destruct (wf_names t' Hw' i n Hi') as [->|H]; [by left|]. right.
    rewrite Hsp in H. rewrite lookup_app_l in H; [done|]. unfold spellings. by rewrite length_map. }
  destruct (rehash_spec (Table (_bytes t) es0 (_buckets t') names) k Hk) as (es & bs & -> & Hs' & Hr' & Hc').
  { cbn [_entries]. intros E. destruct Ht as (Hl & _). rewrite E in Hl. by destruct (_entries t). }
  cbn [_bytes _entries _names] in *. pose proof (relinked_trans _ _ _ Ht Hr') as Hrel.
  destruct (wf_relink (Table (_bytes t) (_entries t) (_buckets t) names) es bs k) as [Hw1 Hs1]; try done; [by apply set_names_wf|].
  cbn [_bytes _entries _buckets _names] in *. eexists. split_and!; [done|done|exact Hs1|done|].
  intros s Hss. rewrite !find_spec by done. by rewrite Hs1.
Qed.

Lemma rollback_restores_witness :
  exists t t' t'', new_table = Some t /\ intern t (B "x") = Some (1, t') /\
    rollback_transaction t' (begin_transaction t) = Some t'' /\ spellings t'' = [ [] ].
Proof.
  destruct new_wf as (t & Ht & Hw & Hs).
  assert (Hi : exists t', room t (B "x") /\ intern t (B "x") = Some (1, t')).
  { vm_compute in Ht. injection Ht as <-. eexists. split; [vm_compute; by split|vm_compute; reflexivity]. }
  destruct Hi as (t' & Hr & Hi).
  destruct (rollback_restores t t' Hw (ses_intern t (B "x") 1 t' t' Hr Hi (ses_nil t'))) as (t'' & H & _ & Hsp & _).
  exists t, t', t''. split_and!; [exact Ht|exact Hi|exact H|by rewrite Hsp, Hs].
Defined.
