(* ===== verification/FrozenTable.v ===== *)
(** Frozen interned spellings: the blocks a live table writes
    ([intern_table::frozen_blocks] of [src/include/madcdis/intern_table.h]) and
    the view a loaded segment reads them through ([frozen_intern_table]).

    [frozen_roundtrip]: every id of the live table reads back its spelling and its
    length.
    [frozen_reads_inside]: over blocks of any bytes at all no read leaves them,
    and what a read answers is a stretch of the block with a NUL after it. *)
From S2P Require Import Prelude InternTable.
#[local] Open Scope Z_scope.

(** ** Writing *)

(** [do ... while ( n );]: seven bits a byte, the low ones first.  Five turns are
    enough for 32 bits. *)
Fixpoint leb128 (fuel : nat) (n : Z) : bytes :=
  match fuel with
  | O => []
  | S f =>
      let b := Z.land n 0x7f in
      let n := Z.shiftr n 7 in
      if n =? 0 then [to_byte b] else to_byte (Z.lor b 0x80) :: leb128 f n
  end.

Definition frozen_record (bs : bytes) (e : Entry) : bytes := leb128 5 (len e) ++ spelling_of bs e ++ [Ascii.zero].

(** The loop over the entries. *)
Fixpoint freeze (bs : bytes) (es : list Entry) (out : bytes) (offs : list Z) : bytes * list Z :=
  match es with
  | [] => (out, offs ++ [u32 (size out)])
  | e :: r => freeze bs r (out ++ frozen_record bs e) (offs ++ [u32 (size out)])
  end.
Definition frozen_blocks (t : intern_table) : bytes * list Z := freeze (_bytes t) (_entries t) [] [].

(** ** Reading

    A NULL block has size 0.  [ensure] is the lazy source's decoder: whether a
    range could be made readable ([true] throughout for a resident block). *)
Record frozen_intern_table := Frozen { f_bytes : bytes; f_offsets : list Z; ensure : nat -> Z -> bool }.

Inductive spelling_at := Outside | Absent | At (at_ : nat) (len : Z).

(** The bytes of the spelling and its NUL. *)
Definition read_text (fz : frozen_intern_table) (at_ : nat) (n : Z) : spelling_at :=
  if (size (f_bytes fz) - Z.of_nat at_ <=? n) || negb (ensure fz at_ (n + 1)) then Absent
  else match f_bytes fz !! (at_ + Z.to_nat n)%nat with
       | None => Outside
       | Some c => if byte_eqb c Ascii.zero then At at_ n else Absent
       end.

(** The length's bytes; [k] is how often [sh] may still grow. *)
Fixpoint read_len (k : nat) (fz : frozen_intern_table) (sh n : Z) (at_ : nat) : spelling_at :=
  match k with
  | O => Absent
  | S k =>
      if (length (f_bytes fz) <=? at_)%nat || negb (ensure fz at_ 1) then Absent
      else match f_bytes fz !! at_ with
           | None => Outside
           | Some c =>
               let n := Z.lor n (u32 (Z.shiftl (Z.land (code c) 0x7f) sh)) in
               if Z.land (code c) 0x80 =? 0 then read_text fz (S at_) n else read_len k fz (sh + 7) n (S at_)
           end
  end.

Definition spelling (fz : frozen_intern_table) (id : Z) : spelling_at :=
  if size (f_offsets fz) <=? id + 1 then Absent
  else match f_offsets fz !! Z.to_nat id with
       | None => Outside
       | Some o => read_len 5 fz 0 0 (Z.to_nat o)
       end.

Definition valid (fz : frozen_intern_table) : bool :=
  negb (is_nil (f_bytes fz)) && (2 <=? size (f_offsets fz)) && (default (-1) (f_offsets fz !! O) =? 0)
  && (default (-1) (last (f_offsets fz)) =? size (f_bytes fz)).

(** [str]; [None] is a read outside. *)
Definition f_str (fz : frozen_intern_table) (id : Z) : option bytes :=
  match spelling fz id with
  | Outside => None
  | Absent => Some []
  | At a n => Some (substr (f_bytes fz) a (Z.to_nat n))
  end.
Definition f_length (fz : frozen_intern_table) (id : Z) : option Z :=
  match spelling fz id with Outside => None | Absent => Some 0 | At _ n => Some n end.
Definition f_count (fz : frozen_intern_table) : Z := if 2 <=? size (f_offsets fz) then size (f_offsets fz) - 2 else 0.

Definition resident (blocks : bytes * list Z) : frozen_intern_table := Frozen blocks.1 blocks.2 (fun _ _ => true).
Example frozen_ex :
  (t ← new_table; '(_, t) ← intern t (B "int"); '(_, t) ← intern t (B "x");
   let fz := resident (frozen_blocks t) in
   Some (f_bytes fz, f_offsets fz, f_str fz 1, f_str fz 2, f_str fz 3, valid fz, f_count fz)) =
  Some ([Ascii.zero; Ascii.zero; "003"%char; "i"%char; "n"%char; "t"%char; Ascii.zero; "001"%char; "x"%char; Ascii.zero],
        [0; 2; 7; 10], Some (B "int"), Some (B "x"), Some [], true, 2).
Proof. vm_compute. reflexivity. Qed.

(** ** No read leaves the blocks *)

Lemma read_text_inside fz a n : 0 <= n ->
  match read_text fz a n with
  | Outside => False
  | Absent => True
  | At a' n' => a' = a /\ n' = n /\ Z.of_nat a + n < size (f_bytes fz) /\
                f_bytes fz !! (a + Z.to_nat n)%nat = Some Ascii.zero /\ ensure fz a (n + 1) = true
  end.
Proof.
  intros Hn. unfold read_text. destruct (_ || _) eqn:E; [done|]. reflect_bool. unfold size in *.
  destruct (f_bytes fz !! (a + Z.to_nat n)%nat) as [c|] eqn:Hc.
  - destruct (byte_eqb c Ascii.zero) eqn:Ec; [|done]. reflect_bool. subst c. split_and!; [done|done|lia|done|by destruct (ensure _ _ _)].
  - apply lookup_ge_None in Hc. lia.
Qed.

Lemma read_len_inside k fz sh n a : 0 <= n -> 0 <= sh ->
  match read_len k fz sh n a with
  | Outside => False
  | Absent => True
  | At a' n' => 0 <= n' /\ Z.of_nat a' + n' < size (f_bytes fz) /\
                f_bytes fz !! (a' + Z.to_nat n')%nat = Some Ascii.zero /\ ensure fz a' (n' + 1) = true
  end.
Proof.
  revert sh n a. induction k as [|k IH]; intros sh n a Hn Hsh; [done|]. cbn [read_len].
  destruct (_ || _) eqn:E; [done|]. reflect_bool. destruct (lookup_lt_is_Some_2 (f_bytes fz) a) as [c Hc]; [lia|]. rewrite Hc.
  cbv zeta. set (m := Z.lor n _).
  assert (Hm : 0 <= m) by (apply Z.lor_nonneg; split; [done|apply u32_range]).
  destruct (_ =? 0); [|apply IH; lia]. pose proof (read_text_inside fz (S a) m Hm) as Hin.
  destruct (read_text fz (S a) m) as [| |a' n']; [done..|]. destruct Hin as (-> & -> & H'). by split.
Qed.

(** Reading a frozen table of any bytes, a corrupt one too, never leaves its
    blocks: every id is absent or a stretch of the byte block that was made
    readable, with its NUL, whether or not the table passes [valid]. *)
Theorem frozen_reads_inside fz id :
  0 <= id ->
  match spelling fz id with
  | Outside => False
  | Absent => f_str fz id = Some [] /\ f_length fz id = Some 0
  | At a n => 0 <= n /\ Z.of_nat a + n < size (f_bytes fz) /\ ensure fz a (n + 1) = true /\
              f_bytes fz !! (a + Z.to_nat n)%nat = Some Ascii.zero /\
              f_str fz id = Some (substr (f_bytes fz) a (Z.to_nat n)) /\ f_length fz id = Some n
  end.
Proof.
  intros Hid. unfold f_str, f_length, spelling. destruct (Z.leb_spec (size (f_offsets fz)) (id + 1)) as [|Hlt]; [done|].
  unfold size in Hlt. destruct (lookup_lt_is_Some_2 (f_offsets fz) (Z.to_nat id)) as [o Ho]; [lia|]. rewrite Ho.
  pose proof (read_len_inside 5 fz 0 0 (Z.to_nat o) ltac:(lia) ltac:(lia)) as H.
  destruct (read_len _ _ _ _ _) as [| |a n]; [done..|]. destruct H as (H1 & H2 & H3 & H4). done.
Qed.

Lemma frozen_reads_inside_witness :
  spelling (resident (B "AB", [9; 1; 0])) 0 = Absent /\ f_str (resident (B "AB", [9; 1; 0])) 0 = Some [].
Proof.
  split; [reflexivity|].
  pose proof (frozen_reads_inside (resident (B "AB", [9; 1; 0])) 0 ltac:(discriminate)) as H.
  destruct H as [H _]. exact H.
Defined.

(** ** What was written reads back *)

Lemma leb_byte b : 0 <= b < 128 ->
  (Z.land (code (to_byte b)) 0x7f = b /\ Z.land (code (to_byte b)) 0x80 = 0) /\
  (Z.land (code (to_byte (Z.lor b 0x80))) 0x7f = b /\ Z.land (code (to_byte (Z.lor b 0x80))) 0x80 = 0x80).
Proof.
  intros Hb. set (P b := (Z.land (code (to_byte b)) 0x7f =? b) && (Z.land (code (to_byte b)) 0x80 =? 0) &&
    (Z.land (code (to_byte (Z.lor b 0x80))) 0x7f =? b) && (Z.land (code (to_byte (Z.lor b 0x80))) 0x80 =? 0x80)).
  assert (H : P b = true) by (by apply (Z_forall_below 128 P); [vm_compute|]). unfold P in H. reflect_bool. done.
Qed.

(** The bits of a number's low and high part. *)
Lemma leb_acc acc n sh : 0 <= sh -> 0 <= acc < 2 ^ sh -> 0 <= n -> n * 2 ^ sh < 2 ^ 32 ->
  Z.lor acc (u32 (Z.shiftl (n mod 128) sh)) = acc + (n mod 128) * 2 ^ sh /\
  acc + (n mod 128) * 2 ^ sh + n / 128 * 2 ^ (sh + 7) = acc + n * 2 ^ sh /\
  0 <= acc + (n mod 128) * 2 ^ sh < 2 ^ (sh + 7).
Proof.
  intros Hsh Ha Hn Hb. pose proof (Z.mod_pos_bound n 128 ltac:(lia)). pose proof (Z.div_mod n 128 ltac:(lia)) as Hd.
  pose proof (Z.div_pos n 128 ltac:(lia) ltac:(lia)). rewrite Z.pow_add_r by lia. change (2 ^ 7) with 128.
  assert (Hm : n mod 128 * 2 ^ sh < 2 ^ 32) by nia. split_and!; [|nia|nia|nia].
  rewrite Z.shiftl_mul_pow2, u32_small by nia. rewrite Z.lor_comm, Z_lor_add by lia. lia.
Qed.

Lemma leb_reads k bs offs a n acc rest sh :
  (1 <= k)%nat -> 0 <= sh -> sh + 7 * Z.of_nat k = 35 -> 0 <= acc < 2 ^ sh -> 0 <= n -> n * 2 ^ sh < 2 ^ 32 ->
  drop a bs = leb128 k n ++ rest ->
  exists a', read_len k (resident (bs, offs)) sh acc a = read_text (resident (bs, offs)) a' (acc + n * 2 ^ sh) /\ drop a' bs = rest.
Proof.
  revert a n acc sh. induction k as [|k IH]; intros a n acc sh Hk1 Hsh Hk Ha Hn Hb Hd; [lia|].
  destruct (leb_acc acc n sh Hsh Ha Hn Hb) as (Hl & Hsum & Hacc). cbn [read_len leb128] in *. cbv zeta in *.
  change 0x7f with (Z.ones 7) in Hd. rewrite !Z_land_low, Z.shiftr_div_pow2 in Hd by lia.
  change (2 ^ 7) with 128 in Hd. pose proof (Z.mod_pos_bound n 128 ltac:(lia)) as Hmod.
  destruct (leb_byte (n mod 128) Hmod) as [[B1 B2] [B3 B4]]. cbn [resident f_bytes ensure fst].
  assert (Hlt : (a < length bs)%nat).
  { apply not_ge. intros Hge. rewrite drop_ge in Hd by lia. by destruct (n / 128 =? 0). }
  rewrite (proj2 (Nat.leb_gt _ _)) by done. cbn [negb orb]. rewrite (drop_at _ _ Hlt) in Hd. rewrite (at_lookup _ _ Hlt).
  destruct (Z.eqb_spec (n / 128) 0) as [Hz|Hnz]; simpl in Hd; injection Hd as Hc Hr; rewrite Hc.
  - rewrite B1, B2, Hl, Z.eqb_refl. exists (S a). split; [|done]. do 2 f_equal. rewrite Hz in Hsum. lia.
  - assert (Hdiv : 0 < n / 128) by (pose proof (Z.div_pos n 128 ltac:(lia) ltac:(lia)); lia).
    assert (Hb' : n / 128 * 2 ^ (sh + 7) < 2 ^ 32).
    { rewrite Z.pow_add_r by lia. change (2 ^ 7) with 128. pose proof (Z.mul_div_le n 128 ltac:(lia)). nia. }
    assert (Hk' : (1 <= k)%nat) by (destruct k; [assert (sh = 28) as -> by lia; simpl in Hb'; lia|lia]).
    rewrite B3, B4, Hl. change (128 =? 0) with false. cbv iota.
    destruct (IH (S a) (n / 128) (acc + n mod 128 * 2 ^ sh) (sh + 7)) as (a' & Hr' & Ha'); [done|lia|lia|done|lia|done|done|].
    exists a'. split; [|done]. rewrite Hr'. f_equal. lia.
Qed.

Lemma freeze_spec bs es out offs :
  freeze bs es out offs =
  (out ++ flat_map (frozen_record bs) es,
   offs ++ map (fun i => u32 (size (out ++ flat_map (frozen_record bs) (take i es)))) (seq 0 (S (length es)))).
Proof.
  revert out offs. induction es as [|e es IH]; intros out offs; cbn [freeze].
  - simpl. by rewrite !app_nil_r.
  - rewrite IH. cbn [flat_map]. rewrite <- app_assoc. f_equal. rewrite <- app_assoc. f_equal.
    cbn [length]. change (seq 0 (S (S (length es)))) with (0%nat :: seq 1 (S (length es))). cbn [map take flat_map].
    rewrite app_nil_r. cbn [app]. f_equal. rewrite <- (seq_shift (S (length es))), map_map. apply map_ext. intros i.
    cbn [take flat_map]. by rewrite app_assoc.
Qed.

Lemma frozen_offset t i : (i <= length (_entries t))%nat -> size (frozen_blocks t).1 < 2 ^ 32 ->
  (frozen_blocks t).2 !! i = Some (size (flat_map (frozen_record (_bytes t)) (take i (_entries t)))).
Proof.
  unfold frozen_blocks. rewrite freeze_spec. cbn [fst snd app]. intros Hi Hs. rewrite list_lookup_fmap, lookup_seq_lt by lia. simpl.
  f_equal. apply u32_small. unfold size in *. split; [lia|]. eapply Z.le_lt_trans; [|exact Hs].
  rewrite <- (take_drop i (_entries t)) at 2. rewrite flat_map_app, length_app. lia.
Qed.

Lemma frozen_length t : length (frozen_blocks t).2 = S (length (_entries t)).
Proof. unfold frozen_blocks. rewrite freeze_spec. cbn [snd app]. by rewrite length_map, length_seq. Qed.

(** A record in its block. *)
Lemma record_reads t i e :
  wf t -> size (frozen_blocks t).1 < 2 ^ 32 -> _entries t !! i = Some e ->
  exists a, spelling (resident (frozen_blocks t)) (Z.of_nat i) = At a (len e) /\
    substr (frozen_blocks t).1 a (Z.to_nat (len e)) = spelling_of (_bytes t) e.
Proof.
  intros Hw Hs He. pose proof (lookup_lt_Some _ _ _ He) as Hi. pose proof (wf_entries t Hw i e He) as Ho.
  pose proof (spelling_length _ i e Ho) as Hlen. set (p := flat_map (frozen_record (_bytes t)) (take i (_entries t))).
  set (rest := flat_map (frozen_record (_bytes t)) (drop (S i) (_entries t))).
  assert (Hb : (frozen_blocks t).1 = p ++ frozen_record (_bytes t) e ++ rest).
  { unfold frozen_blocks. rewrite freeze_spec. cbn [fst app]. rewrite <- (take_drop_middle _ _ _ He) at 1.
    by rewrite flat_map_app. }
  assert (H32 : 0 <= len e < 2 ^ 32).
  { rewrite <- Hlen. unfold frozen_record, size in *. rewrite Hb, !length_app in Hs. lia. }
  unfold spelling, resident. cbn [f_offsets f_bytes]. unfold size. rewrite frozen_length, (proj2 (Z.leb_gt _ _)) by lia.
  rewrite Nat2Z.id, frozen_offset by (done || lia). fold p. unfold size. rewrite Nat2Z.id.
  destruct (leb_reads 5 (frozen_blocks t).1 (frozen_blocks t).2 (length p) (len e) 0 (spelling_of (_bytes t) e ++ Ascii.zero :: rest) 0)
    as (a & Hr & Ha); try lia.
  { rewrite Hb, drop_app_length. unfold frozen_record. by rewrite <- !app_assoc. }
  unfold resident in Hr. cbn [fst snd] in Hr. rewrite Hr, Z.mul_1_r, Z.add_0_l.
  assert (Hsub : substr (frozen_blocks t).1 a (Z.to_nat (len e)) = spelling_of (_bytes t) e).
  { unfold substr. rewrite Ha, <- Hlen. unfold size. by rewrite Nat2Z.id, take_app_length. }
  assert (Ha' : (frozen_blocks t).1 !! (a + Z.to_nat (len e))%nat = Some Ascii.zero).
  { rewrite <- lookup_drop, Ha, <- Hlen. unfold size. rewrite Nat2Z.id. by apply list_lookup_middle. }
  exists a. split; [|done]. unfold read_text. cbn [f_bytes ensure]. rewrite Ha'.
  apply lookup_lt_Some in Ha'. unfold size. by rewrite (proj2 (Z.leb_gt _ _)) by lia.
Qed.

(** C26: A table frozen into fewer than 2^32 bytes and bound again reads as it did
    live: it passes [valid], has as many spellings, gives each id its spelling,
    NUL bytes included, and its length, and any other id the empty one and 0. *)
Theorem frozen_roundtrip t :
  wf t -> size (frozen_blocks t).1 < 2 ^ 32 ->
  let fz := resident (frozen_blocks t) in
  valid fz = true /\ f_count fz = count t /\
  forall id, 0 <= id -> f_str fz id = Some (default [] (str t id)) /\ f_length fz id = Some (default 0 (length_of t id)).
Proof.
  intros Hw Hs fz. pose proof (wf_first t Hw) as H0. pose proof (lookup_lt_Some _ _ _ H0) as Hpos. split_and!.
  - unfold valid, fz, resident. cbn [f_bytes f_offsets]. rewrite frozen_offset by (done || lia). rewrite last_lookup, frozen_length.
    cbn [pred]. rewrite frozen_offset by (done || lia). rewrite firstn_all. simpl. unfold frozen_blocks in *.
    rewrite freeze_spec in *. cbn [fst snd app] in *. rewrite Z.eqb_refl, andb_true_r. unfold size. rewrite length_map, length_seq.
    rewrite (proj2 (Z.leb_le _ _)) by lia. rewrite !andb_true_r. apply negb_true_iff, is_nil_false.
    destruct (_entries t) as [|e es]; [done|]. cbn [flat_map]. unfold frozen_record. intros H. apply app_eq_nil in H as [H _].
    apply app_eq_nil in H as [_ H]. by apply app_eq_nil in H as [_ H].
  - unfold f_count, count, fz, resident, size. cbn [f_offsets]. rewrite frozen_length. case_if; [lia|]. apply Z.leb_gt in Heqb. lia.
  - intros id Hid. unfold str, length_of. destruct (_entries t !! Z.to_nat id) as [e|] eqn:He; simpl.
    + destruct (record_reads t _ e Hw Hs He) as (a & Ha & Hsub). rewrite Z2Nat.id in Ha by done. unfold f_str, f_length. fold fz in Ha.
      rewrite Ha. split; [by f_equal|done].
    + unfold f_str, f_length, spelling, fz, resident. cbn [f_offsets]. apply lookup_ge_None in He. unfold size.
      by rewrite frozen_length, (proj2 (Z.leb_le _ _)) by lia.
Qed.

Lemma frozen_roundtrip_witness :
  exists t, new_table = Some t /\ valid (resident (frozen_blocks t)) = true /\ f_str (resident (frozen_blocks t)) 0 = Some [] /\
    f_length (resident (frozen_blocks t)) 0 = Some 0.
Proof.
  destruct new_wf as (t & Ht & Hw & Hs). exists t. split; [exact Ht|].
  destruct (frozen_roundtrip t Hw) as (H1 & _ & H3).
  - vm_compute in Ht. injection Ht as <-. reflexivity.
  - destruct (H3 0 ltac:(discriminate)) as [-> ->]. split; [exact H1|]. rewrite str_spelling, Hs. split; [reflexivity|].
    vm_compute in Ht. injection Ht as <-. reflexivity.
Defined.
