(* ===== verification/InternMap.v ===== *)
(** Maps keyed by interned spellings: [intern_keyed_map] of
    [src/include/madcdis/intern_table.h], with its nested transactions.

    A map is a slot per id into a pool of values; a transaction keeps the first
    saved value of each key it touches and the keys it inserts.  [map_refines]:
    such a map is a finite map with a stack of copies, one per open transaction;
    [rollback_exact]: a rollback gives back the slots and the values themselves,
    not only an equal map. *)
From stdpp Require Import gmap.
From S2P Require Import Prelude InternTable.
#[local] Open Scope nat_scope.

Section Map.
Context {V : Type} (V0 : V).

(** ** The data

    Ids are [uint32_t], slots [int32_t]; the transactions open are a list, the
    innermost first, which the code links through [enclosing]. *)
Record saved_value := Saved { sv_id : nat; sv_slot : Z; sv_value : V }.
Record transaction := Transaction {
  slot_size : nat; vals_size : nat; t_live : Z; saved : list saved_value; inserted : list nat
}.
Record intern_map := Map { _slot : list Z; _vals : list V; _live : Z; _transaction : list transaction }.
Definition empty_map : intern_map := Map [] [] 0 [].

Definition saved_id (l : list saved_value) (id : nat) : bool := existsb (fun s => sv_id s =? id) l.

(** [id < _slot.size() && _slot[id] >= 0], and the slot. *)
Definition slot_of (m : intern_map) (id : nat) : option Z :=
  match _slot m !! id with Some s => if (0 <=? s)%Z then Some s else None | None => None end.

(** [_vals[(size_t)s]]; [None] is out of range. *)
Definition value_at (m : intern_map) (s : Z) : option V := _vals m !! Z.to_nat s.
Definition set_value (m : intern_map) (s : Z) (v : V) : intern_map :=
  Map (_slot m) (<[Z.to_nat s := v]> (_vals m)) (_live m) (_transaction m).
Definition set_saved (t : transaction) (l : list saved_value) : transaction :=
  Transaction (slot_size t) (vals_size t) (t_live t) l (inserted t).

(** ** Transactions *)

Definition save_transaction_value (m : intern_map) (id : nat) : option intern_map :=
  match _transaction m, slot_of m id with
  | t :: ts, Some s =>
      if (vals_size t <=? Z.to_nat s) || saved_id (saved t) id then Some m
      else v ← value_at m s; Some (Map (_slot m) (_vals m) (_live m) (set_saved t (saved t ++ [Saved id s v]) :: ts))
  | _, _ => Some m
  end.

Definition begin_transaction (m : intern_map) : intern_map :=
  Map (_slot m) (_vals m) (_live m) (Transaction (length (_slot m)) (length (_vals m)) (_live m) [] [] :: _transaction m).

(** The loop of a nested commit over the inner transaction's saved values. *)
Fixpoint hand_over (n : nat) (l acc : list saved_value) : list saved_value :=
  match l with
  | [] => acc
  | s :: r => hand_over n r (if (Z.to_nat (sv_slot s) <? n) && negb (saved_id acc (sv_id s)) then acc ++ [s] else acc)
  end.

(** No open transaction is the assertion's failure. *)
Definition commit_transaction (m : intern_map) : option intern_map :=
  match _transaction m with
  | [] => None
  | [_] => Some (Map (_slot m) (_vals m) (_live m) [])
  | t :: t' :: ts =>
      let t' := Transaction (slot_size t') (vals_size t') (t_live t') (hand_over (vals_size t') (saved t) (saved t'))
                            (inserted t' ++ inserted t) in
      Some (Map (_slot m) (_vals m) (_live m) (t' :: ts))
  end.

(** The two loops of a rollback. *)
Definition forget (slots : list Z) (ids : list nat) : list Z :=
  fold_left (fun l id => if id <? length l then <[id := (-1)%Z]> l else l) ids slots.
Fixpoint restore (l : list saved_value) (slots : list Z) (vals : list V) : option (list Z * list V) :=
  match l with
  | [] => Some (slots, vals)
  | s :: r =>
      if (Z.to_nat (sv_slot s) <? length vals) && (sv_id s <? length slots)
      then restore r (<[sv_id s := sv_slot s]> slots) (<[Z.to_nat (sv_slot s) := sv_value s]> vals) else None
  end.
Definition rollback_transaction (m : intern_map) : option intern_map :=
  match _transaction m with
  | [] => None
  | t :: ts =>
      let vals := resize (vals_size t) V0 (_vals m) in
      let slots := forget (resize (slot_size t) (-1)%Z (_slot m)) (inserted t) in
      '(slots, vals) ← restore (saved t) slots vals;
      Some (Map slots vals (t_live t) ts)
  end.

(** ** Operations by id

    A [V *] or [V &] is the slot it points into. *)
Definition find (m : intern_map) (id : nat) : option (option Z * intern_map) :=
  match slot_of m id with
  | Some s => m ← save_transaction_value m id; Some (Some s, m)
  | None => Some (None, m)
  end.
Definition find_readonly (m : intern_map) (id : nat) : option (option V) :=
  match slot_of m id with Some s => v ← value_at m s; Some (Some v) | None => Some None end.
Definition count (m : intern_map) (id : nat) : nat := match slot_of m id with Some _ => 1 | None => 0 end.

Definition reserve (m : intern_map) (max_id : nat) : intern_map :=
  if negb (max_id =? 0) && (length (_slot m) <? max_id + 1)
  then Map (resize (max_id + 1) (-1)%Z (_slot m)) (_vals m) (_live m) (_transaction m) else m.

Definition note_inserted (ts : list transaction) (id : nat) : list transaction :=
  match ts with
  | t :: ts => Transaction (slot_size t) (vals_size t) (t_live t) (saved t) (inserted t ++ [id]) :: ts
  | [] => []
  end.

(** [operator[]]: the slot of the key, a new one for a new key. *)
Definition subscript (m : intern_map) (id : nat) : option (Z * intern_map) :=
  m ← save_transaction_value m id;
  let slots := if length (_slot m) <=? id then resize (Z.to_nat (u32 (Z.of_nat id + 1))) (-1)%Z (_slot m) else _slot m in
  s ← slots !! id;
  if (s <? 0)%Z then
    let s := i32 (Z.of_nat (length (_vals m))) in
    Some (s, Map (<[id := s]> slots) (_vals m ++ [V0]) (_live m + 1) (note_inserted (_transaction m) id))
  else Some (s, Map slots (_vals m) (_live m) (_transaction m)).

Definition erase (m : intern_map) (id : nat) : option (nat * intern_map) :=
  match slot_of m id with
  | Some s =>
      m ← save_transaction_value m id;
      Some (1, Map (<[id := (-1)%Z]> (_slot m)) (<[Z.to_nat s := V0]> (_vals m)) (_live m - 1) (_transaction m))
  | None => Some (0, m)
  end.

(** The keys from [id] on, [n] of them. *)
Fixpoint save_all (n id : nat) (m : intern_map) : option intern_map :=
  match n with
  | O => Some m
  | S n => m ← save_transaction_value m id; save_all n (S id) m
  end.
Definition clear (m : intern_map) : option intern_map :=
  m ← (if is_nil (_transaction m) then Some m else save_all (length (_slot m)) 0 m);
  Some (Map [] [] 0 (_transaction m)).

(** [m[id] = v], and a write through the pointer [find] gives. *)
Definition put (m : intern_map) (id : nat) (v : V) : option intern_map :=
  '(s, m) ← subscript m id; Some (set_value m s v).
Definition update (m : intern_map) (id : nat) (f : V -> V) : option intern_map :=
  '(p, m) ← find m id;
  match p with Some s => v ← value_at m s; Some (set_value m s (f v)) | None => Some m end.

(** The enumeration: [fn] sees a live key's value and may change it; [true]
    stops. *)
Fixpoint for_each (n id : nat) (fn : nat -> V -> V * bool) (m : intern_map) : option intern_map :=
  match n with
  | O => Some m
  | S n =>
      match slot_of m id with
      | Some s =>
          m ← save_transaction_value m id;
          v ← value_at m s;
          let '(v, stop) := fn id v in
          let m := set_value m s v in
          if stop : bool then Some m else for_each n (S id) fn m
      | None => for_each n (S id) fn m
      end
  end.

(** ** The invariant *)

Definition wf (m : intern_map) : Prop :=
  (forall id s, _slot m !! id = Some s -> s = (-1)%Z \/ (0 <= s < Z.of_nat (length (_vals m)))%Z) /\
  (forall i j s, _slot m !! i = Some s -> _slot m !! j = Some s -> (0 <= s)%Z -> i = j).

(** The transaction [t], begun at [m0], can be rolled back from [m]. *)
Record restores (t : transaction) (m0 m : intern_map) : Prop := {
  rs_sizes : slot_size t = length (_slot m0) /\ vals_size t = length (_vals m0) /\ t_live t = _live m0;
  rs_grown : length (_slot m0) <= length (_slot m) /\ length (_vals m0) <= length (_vals m);
  rs_vals : forall j v, _vals m0 !! j = Some v -> _vals m !! j = Some v \/ exists id, Saved id (Z.of_nat j) v ∈ saved t;
  rs_slots : forall id s, _slot m0 !! id = Some s -> _slot m !! id = Some s \/
    ((0 <= s)%Z /\ saved_id (saved t) id = true) \/ (s = (-1)%Z /\ id ∈ inserted t);
  rs_saved : forall id s v, Saved id s v ∈ saved t ->
    _slot m0 !! id = Some s /\ (0 <= s)%Z /\ _vals m0 !! Z.to_nat s = Some v;
  rs_inserted : forall id s, id ∈ inserted t -> _slot m0 !! id = Some s -> s = (-1)%Z \/ saved_id (saved t) id = true;
  rs_same : forall id s, _slot m !! id = Some s -> (0 <= s < Z.of_nat (length (_vals m0)))%Z -> _slot m0 !! id = Some s
}.

(** [ms] are the maps the open transactions began at. *)
Fixpoint nested (m : intern_map) (ms : list intern_map) : Prop :=
  wf m /\
  match _transaction m, ms with
  | [], [] => True
  | t :: ts, m0 :: r => restores t m0 m /\ _transaction m0 = ts /\ nested m0 r
  | _, _ => False
  end.

Lemma saved_id_spec l id : saved_id l id = true <-> exists s v, Saved id s v ∈ l.
Proof.
  unfold saved_id. rewrite existsb_exists. split.
  - intros ([i s v] & Hin & He). apply Nat.eqb_eq in He. simpl in He. subst i. exists s, v. by apply list_elem_of_In.
  - intros (s & v & Hin). exists (Saved id s v). split; [by apply list_elem_of_In|apply Nat.eqb_refl].
Qed.

Lemma saved_id_app l l' id : saved_id (l ++ l') id = saved_id l id || saved_id l' id.
Proof. apply existsb_app. Qed.

Lemma slot_of_spec m id s : slot_of m id = Some s <-> _slot m !! id = Some s /\ (0 <= s)%Z.
Proof.
  unfold slot_of. destruct (_slot m !! id) as [x|]; [|naive_solver]. destruct (Z.leb_spec 0 x); [naive_solver|].
  split; [done|]. intros [[= ->] ?]. lia.
Qed.

Lemma wf_value m id s : wf m -> slot_of m id = Some s -> exists v, value_at m s = Some v.
Proof.
  intros [H _] Hs. apply slot_of_spec in Hs as [Hs H0]. destruct (H id s Hs) as [->|Hb]; [lia|].
  apply lookup_lt_is_Some_2. lia.
Qed.

(** [value_at] of a saved slot. *)
Lemma restores_saved t m0 m id s :
  wf m0 -> restores t m0 m -> slot_of m id = Some s -> Z.to_nat s < vals_size t -> saved_id (saved t) id = false ->
  _slot m0 !! id = Some s /\ value_at m s = _vals m0 !! Z.to_nat s.
Proof.
  intros [_ Hinj] Hr Hs Hlt Hns. destruct (rs_sizes _ _ _ Hr) as (_ & Hv & _). rewrite Hv in Hlt.
  apply slot_of_spec in Hs as [Hs H0]. pose proof (rs_same _ _ _ Hr id s Hs ltac:(lia)) as Hs0. split; [done|].
  destruct (lookup_lt_is_Some_2 (_vals m0) (Z.to_nat s) Hlt) as [v Hv0]. rewrite Hv0. unfold value_at.
  destruct (rs_vals _ _ _ Hr _ _ Hv0) as [H|[id' Hin]]; [done|]. exfalso.
  destruct (rs_saved _ _ _ Hr _ _ _ Hin) as (H & _ & _). rewrite Z2Nat.id in H by done.
  assert (id' = id) as -> by (by apply (Hinj _ _ s)). assert (saved_id (saved t) id = true) by (apply saved_id_spec; eauto). congruence.
Qed.

(** ** Saving before a write *)

(** The key's value is saved, or is newer than the transaction. *)
Definition covered (m : intern_map) (id : nat) : Prop :=
  forall t ts s, _transaction m = t :: ts -> slot_of m id = Some s -> Z.to_nat s < vals_size t -> saved_id (saved t) id = true.

(** A change to the map under the same transactions. *)
Lemma nested_change m m' ms t ts :
  nested m ms -> _transaction m = t :: ts -> wf m' -> (exists t', _transaction m' = t' :: ts /\ forall m0 r, ms = m0 :: r -> wf m0 -> restores t m0 m -> restores t' m0 m') ->
  nested m' ms.
Proof.
  intros Hn Ht Hw (t' & Ht' & Hr). destruct ms as [|m0 r]; simpl in *; rewrite Ht in Hn; destruct Hn as [_ Hn]; [done|].
  rewrite Ht'. destruct Hn as (H1 & H2 & H3). split_and!; try done. apply (Hr m0 r); try done. by destruct r, H3.
Qed.

Lemma nested_none m m' ms : nested m ms -> _transaction m = [] -> _transaction m' = [] -> wf m' -> nested m' ms.
Proof. intros Hn Ht Ht' Hw. destruct ms; simpl in *; rewrite Ht in Hn; rewrite Ht'; by destruct Hn. Qed.

Lemma nested_wf m ms : nested m ms -> wf m.
Proof. by destruct ms as [|? ?]; intros [? _]. Qed.

Lemma save_spec m ms id : nested m ms ->
  exists m', save_transaction_value m id = Some m' /\ nested m' ms /\ covered m' id /\
    _slot m' = _slot m /\ _vals m' = _vals m /\ _live m' = _live m.
Proof.
  intros Hn. pose proof (nested_wf _ _ Hn) as Hw. unfold save_transaction_value. destruct (_transaction m) as [|t ts] eqn:Et.
  { exists m. split_and!; try done. intros t ts s H. congruence. }
  destruct (slot_of m id) as [s|] eqn:Es.
  2: { exists m. split_and!; try done. intros t' ts' s _ H. congruence. }
  destruct (_ || _) eqn:Eo.
  { exists m. split_and!; try done. intros t' ts' s' H1 H2 H3. assert (t' = t) as -> by congruence. assert (s' = s) as -> by congruence.
    apply orb_true_iff in Eo as [Eo|Eo]; [|done]. apply Nat.leb_le in Eo. lia. }
  apply orb_false_iff in Eo as [Eo1 Eo2]. apply Nat.leb_gt in Eo1. destruct (wf_value m id s Hw Es) as [v Hv]. rewrite Hv. simpl.
  eexists. split_and!; try done.
  - eapply (nested_change m); [done|done|done|]. eexists. split; [done|]. intros m0 r -> Hw0 Hr.
    destruct (restores_saved t m0 m id s Hw0 Hr Es Eo1 Eo2) as [Hs0 Hv0]. destruct Hr as [H1 H2 H3 H4 H5 H6 H7].
    pose proof Es as Hs. apply slot_of_spec in Hs as [_ Hs]. constructor; cbn [set_saved slot_size vals_size t_live saved inserted _slot _vals]; try done.
    + intros j w Hj. destruct (H3 j w Hj) as [H|[i Hi]]; [by left|]. right. exists i. apply elem_of_app. by left.
    + intros i x Hi. destruct (H4 i x Hi) as [H|[[? H]|H]]; [by left| |by right; right]. right; left. split; [done|].
      by rewrite saved_id_app, H.
    + intros i x w [Hi|Hi]%elem_of_app; [by apply H5|]. apply list_elem_of_singleton in Hi as [= -> -> ->].
      split_and!; [done|done|by rewrite <- Hv0].
    + intros i x Hi Hx. destruct (H6 i x Hi Hx) as [H|H]; [by left|]. right. by rewrite saved_id_app, H.
  - intros t' ts' s' [= <- <-] _ _. cbn [set_saved saved]. rewrite saved_id_app. simpl. by rewrite Nat.eqb_refl, orb_true_r.
Qed.

(** ** Writes *)

Lemma set_value_wf m s v : wf m -> wf (set_value m s v).
Proof. intros [H1 H2]. split; cbn [set_value _slot _vals]; [by rewrite length_insert|done]. Qed.

Lemma write_nested m ms id s v : nested m ms -> slot_of m id = Some s -> covered m id -> nested (set_value m s v) ms.
Proof.
  intros Hn Hs Hc. pose proof (nested_wf _ _ Hn) as Hw. pose proof (set_value_wf m s v Hw) as Hw'.
  destruct (_transaction m) as [|t ts] eqn:Et; [by apply (nested_none m)|].
  eapply (nested_change m); [done|done|done|]. exists t. split; [done|]. intros m0 r -> Hw0 Hr.
  pose proof Hr as [H1 H2 H3 H4 H5 H6 H7]. constructor; cbn [set_value _slot _vals _live _transaction]; try done.
  - by rewrite length_insert.
  - intros j w Hj. destruct (H3 j w Hj) as [H|H]; [|by right]. destruct (decide (j = Z.to_nat s)) as [->|Hne].
    + right. pose proof (lookup_lt_Some _ _ _ Hj) as Hlt. pose proof Hs as Hs'. apply slot_of_spec in Hs' as [Hs' H0].
      destruct H1 as (_ & Hvs & _). pose proof (Hc t ts s Et Hs ltac:(lia)) as Hsv. apply saved_id_spec in Hsv as (x & u & Hin).
      destruct (H5 _ _ _ Hin) as (G1 & G2 & G3). pose proof (H7 id s Hs' ltac:(lia)) as Hs0.
      assert (x = s) as -> by congruence. exists id. rewrite Z2Nat.id by done. by replace w with u by congruence.
    + left. by rewrite list_lookup_insert_ne.
Qed.

(** An erased key keeps its saved value. *)
Lemma erase_nested m ms id s : nested m ms -> slot_of m id = Some s -> covered m id ->
  nested (Map (<[id := (-1)%Z]> (_slot m)) (<[Z.to_nat s := V0]> (_vals m)) (_live m - 1) (_transaction m)) ms.
Proof.
  intros Hn Hs Hc. pose proof (write_nested m ms id s V0 Hn Hs Hc) as Hn1. set (m1 := set_value m s V0) in *.
  set (m2 := Map _ _ _ _). pose proof (nested_wf _ _ Hn1) as [W1 W2]. pose proof Hs as Hs'. apply slot_of_spec in Hs' as [Hs' H0].
  pose proof (lookup_lt_Some _ _ _ Hs') as Hid.
  assert (Hl : forall i x, _slot m2 !! i = Some x -> (i = id /\ x = (-1)%Z) \/ (i <> id /\ _slot m1 !! i = Some x)).
  { intros i x Hi. unfold m2 in Hi. cbn [_slot] in Hi. destruct (decide (i = id)) as [->|Hne].
    - rewrite list_lookup_insert_eq in Hi by done. left. split; [done|congruence].
    - rewrite list_lookup_insert_ne in Hi by done. by right. }
  assert (Hw2 : wf m2).
  { split.
    - intros i x Hi. destruct (Hl i x Hi) as [[_ ->]|[_ Hi']]; [by left|by apply (W1 i)].
    - intros i j x Hi Hj Hx. destruct (Hl i x Hi) as [[_ ->]|[_ Hi']]; [lia|]. destruct (Hl j x Hj) as [[_ ->]|[_ Hj']]; [lia|].
      by apply (W2 i j x). }
  destruct (_transaction m) as [|t ts] eqn:Et; [by apply (nested_none m1)|].
  eapply (nested_change m1); [done|done|done|]. exists t. split; [done|]. intros m0 r -> Hw0 [H1 H2 H3 H4 H5 H6 H7].
  constructor; try done.
  - unfold m2. cbn [_slot _vals]. by rewrite length_insert.
  - intros i x Hi. destruct (H4 i x Hi) as [H|H]; [|by right]. destruct (decide (i = id)) as [->|Hne].
    + right. left. assert (x = s) as -> by (unfold m1 in H; cbn [set_value _slot] in H; congruence). split; [done|].
      destruct Hw0 as [Hw0 _]. destruct (Hw0 id s Hi) as [->|Hb]; [lia|]. destruct H1 as (_ & Hvs & _).
      by apply (Hc t ts s Et Hs); lia.
    + left. unfold m2. cbn [_slot]. by rewrite list_lookup_insert_ne by done.
  - intros i x Hi Hx. destruct (Hl i x Hi) as [[_ ->]|[_ Hi']]; [lia|by apply H7].
Qed.

(** Slots that no key uses. *)
Lemma resize_nested m ms n : nested m ms -> length (_slot m) <= n -> nested (Map (resize n (-1)%Z (_slot m)) (_vals m) (_live m) (_transaction m)) ms.
Proof.
  intros Hn Hle. pose proof (nested_wf _ _ Hn) as [W1 W2]. set (m' := Map _ _ _ _).
  assert (Hl : forall i x, _slot m' !! i = Some x -> x = (-1)%Z \/ _slot m !! i = Some x).
  { intros i x Hi. unfold m' in Hi. cbn [_slot] in Hi. rewrite resize_ge in Hi by done.
    apply lookup_app_Some in Hi as [Hi|[_ Hi]]; [by right|]. apply lookup_replicate in Hi as [-> _]. by left. }
  assert (Hk : forall i x, _slot m !! i = Some x -> _slot m' !! i = Some x).
  { intros i x Hi. unfold m'. cbn [_slot]. rewrite resize_ge by done. by apply lookup_app_l_Some. }
  assert (Hw : wf m').
  { split.
    - intros i x Hi. destruct (Hl i x Hi) as [->|Hi']; [by left|by apply (W1 i)].
    - intros i j x Hi Hj Hx. destruct (Hl i x Hi) as [->|Hi']; [lia|]. destruct (Hl j x Hj) as [->|Hj']; [lia|]. by apply (W2 i j x). }
  destruct (_transaction m) as [|t ts] eqn:Et; [by apply (nested_none m)|].
  eapply (nested_change m); [done|done|done|]. exists t. split; [done|]. intros m0 r -> Hw0 [H1 H2 H3 H4 H5 H6 H7].
  constructor; try done.
  - unfold m'. cbn [_slot _vals]. rewrite length_resize. lia.
  - intros i x Hi. destruct (H4 i x Hi) as [H|H]; [left; by apply Hk|by right].
  - intros i x Hi Hx. destruct (Hl i x Hi) as [->|Hi']; [lia|by apply H7].
Qed.

Lemma insert_nested m ms id : nested m ms -> _slot m !! id = Some (-1)%Z ->
  nested (Map (<[id := Z.of_nat (length (_vals m))]> (_slot m)) (_vals m ++ [V0]) (_live m + 1) (note_inserted (_transaction m) id)) ms.
Proof.
  intros Hn Hs. pose proof (nested_wf _ _ Hn) as [W1 W2]. set (m' := Map _ _ _ _). pose proof (lookup_lt_Some _ _ _ Hs) as Hid.
  assert (Hl : forall i x, _slot m' !! i = Some x -> (i = id /\ x = Z.of_nat (length (_vals m))) \/ (i <> id /\ _slot m !! i = Some x)).
  { intros i x Hi. unfold m' in Hi. cbn [_slot] in Hi. destruct (decide (i = id)) as [->|Hne].
    - rewrite list_lookup_insert_eq in Hi by done. left. split; [done|congruence].
    - rewrite list_lookup_insert_ne in Hi by done. by right. }
  assert (Hb : forall i x, _slot m !! i = Some x -> (x < Z.of_nat (length (_vals m)))%Z).
  { intros i x Hi. destruct (W1 i x Hi); lia. }
  assert (Hw : wf m').
  { split.
    - intros i x Hi. unfold m' at 1. cbn [_vals]. rewrite length_app. simpl.
      destruct (Hl i x Hi) as [[_ ->]|[_ Hi']]; [right; lia|]. destruct (W1 i x Hi'); [by left|right; lia].
    - intros i j x Hi Hj Hx. destruct (Hl i x Hi) as [[-> ->]|[_ Hi']], (Hl j _ Hj) as [[-> Hx']|[_ Hj']]; try done.
      + apply Hb in Hj'. lia.
      + subst x. apply Hb in Hi'. lia.
      + by apply (W2 i j x). }
  destruct (_transaction m) as [|t ts] eqn:Et; [by apply (nested_none m)|].
  eapply (nested_change m); [done|done|done|]. eexists. split; [unfold m'; cbn [_transaction note_inserted]; reflexivity|].
  intros m0 r -> Hw0 [H1 H2 H3 H4 H5 H6 H7]. constructor; cbn [slot_size vals_size t_live saved inserted]; try done.
  - unfold m'. cbn [_slot _vals]. rewrite length_insert, length_app. simpl. lia.
  - intros j w Hj. destruct (H3 j w Hj) as [H|H]; [left|by right]. unfold m'. cbn [_vals]. by apply lookup_app_l_Some.
  - intros i x Hi. destruct (decide (i = id)) as [->|Hne].
    + destruct (H4 id x Hi) as [H|[H|[-> H]]]; [|by right; left|].
      * right; right. split; [congruence|]. apply elem_of_app. right. by apply list_elem_of_singleton.
      * right; right. split; [done|]. apply elem_of_app. by left.
    + destruct (H4 i x Hi) as [H|[H|[-> H]]]; [|by right; left|].
      * left. unfold m'. cbn [_slot]. by rewrite list_lookup_insert_ne by done.
      * right; right. split; [done|]. apply elem_of_app. by left.
  - intros i x [Hi|Hi]%elem_of_app Hx; [by apply H6|]. apply list_elem_of_singleton in Hi as ->.
    destruct (H4 id x Hx) as [H|[[_ H]|[-> _]]]; [left; congruence|by right|by left].
  - intros i x Hi Hx. destruct (Hl i x Hi) as [[_ ->]|[_ Hi']]; [lia|by apply H7].
Qed.

(** ** Rolling back *)

Lemma forget_length slots ids : length (forget slots ids) = length slots.
Proof.
  unfold forget. revert slots. induction ids as [|i ids IH]; intros slots; simpl; [done|]. rewrite IH.
  destruct (_ <? _); [apply length_insert|done].
Qed.

Lemma forget_lookup slots ids i x : slots !! i = Some x ->
  forget slots ids !! i = Some (if existsb (Nat.eqb i) ids then (-1)%Z else x).
Proof.
  unfold forget. revert slots x. induction ids as [|k ids IH]; intros slots x Hi; simpl; [done|].
  pose proof (lookup_lt_Some _ _ _ Hi) as Hlt. destruct (Nat.eqb_spec i k) as [<-|Hne].
  - rewrite (proj2 (Nat.ltb_lt _ _)) by done. rewrite (IH _ (-1)%Z) by (by apply list_lookup_insert_eq). simpl.
    by destruct (existsb _ _).
  - simpl. apply IH. destruct (_ <? _); [by rewrite list_lookup_insert_ne|done].
Qed.

(** The saved values all agree with the map the transaction began at. *)
Lemma restore_spec l slots vals slots0 vals0 :
  length slots = length slots0 -> length vals = length vals0 ->
  (forall id s v, Saved id s v ∈ l -> slots0 !! id = Some s /\ vals0 !! Z.to_nat s = Some v) ->
  (forall i x, slots0 !! i = Some x -> slots !! i = Some x \/ saved_id l i = true) ->
  (forall j v, vals0 !! j = Some v -> vals !! j = Some v \/ exists id s, Saved id s v ∈ l /\ Z.to_nat s = j) ->
  restore l slots vals = Some (slots0, vals0).
Proof.
  revert slots vals. induction l as [|[id s v] l IH]; intros slots vals Hl1 Hl2 Hs H1 H2; cbn [restore].
  - assert (slots = slots0) as ->.
    { apply (list_eq_same_length _ _ (length slots0)); [done|done|]. intros i x y _ Hx Hy.
      destruct (H1 i y Hy) as [H|H]; [congruence|done]. }
    assert (vals = vals0) as ->; [|done].
    apply (list_eq_same_length _ _ (length vals0)); [done|done|]. intros j x y _ Hx Hy.
    destruct (H2 j y Hy) as [H|(? & ? & H & _)]; [congruence|by apply elem_of_nil in H].
  - destruct (Hs id s v (list_elem_of_here _ _)) as [Hid Hv]. cbn [sv_slot sv_id sv_value].
    pose proof (lookup_lt_Some _ _ _ Hid) as Hil. pose proof (lookup_lt_Some _ _ _ Hv) as Hvl.
    rewrite !(proj2 (Nat.ltb_lt _ _)) by lia. cbn [andb]. apply IH.
    + by rewrite length_insert.
    + by rewrite length_insert.
    + intros i x w Hin. apply Hs. by apply list_elem_of_further.
    + intros i x Hi. destruct (decide (i = id)) as [->|Hne].
      * left. rewrite list_lookup_insert_eq by lia. congruence.
      * rewrite list_lookup_insert_ne by done. destruct (H1 i x Hi) as [H|H]; [by left|]. right.
        unfold saved_id in H. simpl in H. by rewrite (proj2 (Nat.eqb_neq _ _)) in H by done.
    + intros j w Hj. destruct (decide (j = Z.to_nat s)) as [->|Hne].
      * left. rewrite list_lookup_insert_eq by lia. congruence.
      * rewrite list_lookup_insert_ne by done. destruct (H2 j w Hj) as [H|(i & x & Hin & Hx)]; [by left|]. right.
        apply elem_of_cons in Hin as [[= -> -> ->]|Hin]; [done|]. by exists i, x.
Qed.

Lemma rollback_spec m t ts m0 : _transaction m = t :: ts -> wf m0 -> restores t m0 m ->
  rollback_transaction m = Some (Map (_slot m0) (_vals m0) (_live m0) ts).
Proof.
  intros Ht Hw0 [(S1 & S2 & S3) [G1 G2] H3 H4 H5 H6 H7]. unfold rollback_transaction. rewrite Ht, S1, S2, S3.
  rewrite !resize_le by done.
  rewrite (restore_spec _ _ _ (_slot m0) (_vals m0)); [done|..].
  - rewrite forget_length, length_take. lia.
  - rewrite length_take. lia.
  - intros id s v Hin. destruct (H5 id s v Hin) as (? & _ & ?). done.
  - intros i x Hi. pose proof (lookup_lt_Some _ _ _ Hi) as Hil. destruct (saved_id (saved t) i) eqn:Es; [by right|]. left.
    assert (Hins : x <> (-1)%Z -> existsb (Nat.eqb i) (inserted t) = false).
    { intros Hx. destruct (existsb _ _) eqn:Ee; [|done]. apply existsb_exists in Ee as (k & Hk & Hik). apply Nat.eqb_eq in Hik. subst k.
      apply list_elem_of_In in Hk. destruct (H6 i x Hk Hi) as [?|?]; [done|congruence]. }
    destruct (lookup_lt_is_Some_2 (take (length (_slot m0)) (_slot m)) i) as [y Hy]; [rewrite length_take; lia|].
    rewrite (forget_lookup _ _ _ _ Hy). rewrite lookup_take_lt in Hy by done. f_equal.
    destruct (H4 i x Hi) as [H|[[_ H]|[-> H]]]; [|congruence|].
    + assert (y = x) as -> by congruence. destruct (decide (x = (-1)%Z)) as [->|Hx]; [by destruct (existsb _ _)|]. by rewrite Hins.
    + assert (Ee : existsb (Nat.eqb i) (inserted t) = true); [|by rewrite Ee].
      apply existsb_exists. exists i. split; [by apply list_elem_of_In|apply Nat.eqb_refl].
  - intros j v Hj. pose proof (lookup_lt_Some _ _ _ Hj) as Hl. destruct (H3 j v Hj) as [H|[id Hin]].
    + left. by rewrite lookup_take_lt.
    + right. exists id, (Z.of_nat j). split; [done|lia].
Qed.

(** ** Committing into the enclosing transaction *)

Lemma hand_over_in n l acc x : x ∈ hand_over n l acc -> x ∈ acc \/ (x ∈ l /\ Z.to_nat (sv_slot x) < n /\ saved_id acc (sv_id x) = false).
Proof.
  revert acc. induction l as [|s l IH]; intros acc; cbn [hand_over]; [by left|]. intros H. apply IH in H as [H|(H1 & H2 & H3)].
  - destruct (_ && _) eqn:E; [|by left]. apply andb_true_iff in E as [E1 E2]. apply negb_true_iff in E2. apply Nat.ltb_lt in E1.
    apply elem_of_app in H as [H|H]; [by left|]. apply list_elem_of_singleton in H as ->. right.
    split_and!; [apply list_elem_of_here|done|done].
  - right. split_and!; [by apply list_elem_of_further|done|]. destruct (_ && _); [|done].
    rewrite saved_id_app in H3. by apply orb_false_iff in H3 as [? _].
Qed.

Lemma hand_over_old n l acc x : x ∈ acc -> x ∈ hand_over n l acc.
Proof.
  revert acc. induction l as [|s l IH]; intros acc H; cbn [hand_over]; [done|]. apply IH. destruct (_ && _); [|done].
  apply elem_of_app. by left.
Qed.

Lemma hand_over_new n l acc id s v : Saved id s v ∈ l -> Z.to_nat s < n -> saved_id (hand_over n l acc) id = true.
Proof.
  revert acc. induction l as [|x l IH]; intros acc Hin Hs; [by apply elem_of_nil in Hin|]. cbn [hand_over].
  apply elem_of_cons in Hin as [<-|Hin]; [|by apply IH]. cbn [sv_slot sv_id]. rewrite (proj2 (Nat.ltb_lt _ _)) by done.
  destruct (saved_id acc id) eqn:E; cbn [negb andb].
  - apply saved_id_spec in E as (s' & v' & E). apply saved_id_spec. exists s', v'. by apply hand_over_old.
  - apply saved_id_spec. exists s, v. apply hand_over_old, elem_of_app. right. by apply list_elem_of_singleton.
Qed.

Lemma commit_restores t t' m m1 m2 :
  wf m2 -> restores t m1 m -> restores t' m2 m1 ->
  restores (Transaction (slot_size t') (vals_size t') (t_live t') (hand_over (vals_size t') (saved t) (saved t')) (inserted t' ++ inserted t)) m2 m.
Proof.
  intros [W1 W2] [A1 [A2 A2'] A3 A4 A5 A6 A7] [B1 [B2 B2'] B3 B4 B5 B6 B7]. destruct B1 as (B1 & Bv & B1').
  set (hs := hand_over _ _ _).
  assert (Hold : forall id, saved_id (saved t') id = true -> saved_id hs id = true).
  { intros id H. apply saved_id_spec in H as (s & v & H). apply saved_id_spec. exists s, v. by apply hand_over_old. }
  assert (Hnew : forall id s v, Saved id s v ∈ saved t -> Z.to_nat s < length (_vals m2) -> saved_id hs id = true).
  { intros id s v Hin Hs. eapply hand_over_new; [exact Hin|]. by rewrite Bv. }
  assert (Hin : forall id s v, Saved id s v ∈ hs -> _slot m2 !! id = Some s /\ (0 <= s)%Z /\ _vals m2 !! Z.to_nat s = Some v).
  { intros id s v H. apply hand_over_in in H as [H|(H & Hs & Hno)]; [by apply B5|]. cbn [sv_slot sv_id] in *. rewrite Bv in Hs.
    destruct (A5 id s v H) as (C1 & C2 & C3). pose proof (B7 id s C1 ltac:(lia)) as D. split_and!; [done|done|].
    destruct (lookup_lt_is_Some_2 (_vals m2) (Z.to_nat s) Hs) as [w Hw]. rewrite Hw. f_equal.
    destruct (B3 _ _ Hw) as [E|[id' E]]; [congruence|]. rewrite Z2Nat.id in E by done. destruct (B5 _ _ _ E) as (F & _ & _).
    assert (id' = id) as -> by (by apply (W2 _ _ s)). assert (saved_id (saved t') id = true) by (apply saved_id_spec; eauto). congruence. }
  constructor; cbn [slot_size vals_size t_live saved inserted]; fold hs; try done.
  - split; lia.
  - intros j v Hj. pose proof (lookup_lt_Some _ _ _ Hj) as Hl.
    assert (Hget : forall id, saved_id hs id = true -> _slot m2 !! id = Some (Z.of_nat j) -> exists i, Saved i (Z.of_nat j) v ∈ hs).
    { intros id H Hs. apply saved_id_spec in H as (s & w & H). destruct (Hin _ _ _ H) as (C1 & _ & C3). assert (s = Z.of_nat j) as -> by congruence.
      rewrite Nat2Z.id in C3. assert (w = v) as -> by congruence. by exists id. }
    destruct (B3 j v Hj) as [E|[id E]].
    + destruct (A3 j v E) as [F|[id F]]; [by left|]. right. destruct (A5 _ _ _ F) as (C1 & C2 & _).
      apply (Hget id); [eapply Hnew; [exact F|lia]|]. apply B7; [done|lia].
    + right. exists id. by apply hand_over_old.
  - intros id s Hs. destruct (B4 id s Hs) as [E|[[E1 E2]|[-> E]]].
    + destruct (A4 id s E) as [F|[[F1 F2]|[-> F]]]; [by left| |].
      * right; left. split; [done|]. apply saved_id_spec in F2 as (x & v & F2). destruct (A5 _ _ _ F2) as (C1 & _ & _).
        eapply Hnew; [exact F2|]. assert (x = s) as -> by congruence. destruct (W1 id s Hs) as [->|]; lia.
      * right; right. split; [done|]. apply elem_of_app. by right.
    + right; left. split; [done|by apply Hold].
    + right; right. split; [done|]. apply elem_of_app. by left.
  - intros id s [Hi|Hi]%elem_of_app Hs.
    + destruct (B6 id s Hi Hs) as [->|H]; [by left|right; by apply Hold].
    + destruct (W1 id s Hs) as [->|Hb]; [by left|]. right. destruct (B4 id s Hs) as [E|[[_ E]|[-> _]]]; [|by apply Hold|lia].
      destruct (A6 id s Hi E) as [->|H]; [lia|]. apply saved_id_spec in H as (x & v & H). destruct (A5 _ _ _ H) as (C1 & _ & _).
      assert (x = s) as -> by congruence. eapply Hnew; [exact H|lia].
  - intros id s Hs Hb. apply B7; [|done]. apply A7; [done|lia].
Qed.

(** ** Operations and their specification *)

Inductive op :=
| Put (id : nat) (v : V) | Update (id : nat) (f : V -> V) | Erase (id : nat) | Find (id : nat) | Reserve (max_id : nat)
| Clear | Begin | Commit | Rollback.

Definition run_op (m : intern_map) (o : op) : option intern_map :=
  match o with
  | Put id v => put m id v
  | Update id f => update m id f
  | Erase id => snd <$> erase m id
  | Find id => snd <$> find m id
  | Reserve n => Some (reserve m n)
  | Clear => clear m
  | Begin => Some (begin_transaction m)
  | Commit => commit_transaction m
  | Rollback => rollback_transaction m
  end.

(** A map now, and as it was when each open transaction began.  A map is only
    cleared outside transactions. *)
Definition spec_op (st : gmap nat V * list (gmap nat V)) (o : op) : option (gmap nat V * list (gmap nat V)) :=
  let '(M, Ms) := st in
  match o, Ms with
  | Put id v, _ => Some (<[id := v]> M, Ms)
  | Update id f, _ => Some (alter f id M, Ms)
  | Erase id, _ => Some (delete id M, Ms)
  | Find _, _ | Reserve _, _ => Some (M, Ms)
  | Clear, [] => Some (∅, [])
  | Begin, _ => Some (M, M :: Ms)
  | Commit, _ :: r => Some (M, r)
  | Rollback, M0 :: r => Some (M0, r)
  | _, [] | Clear, _ => None
  end.

(** The widths hold what the operation adds. *)
Definition fits (m : intern_map) (o : op) : Prop :=
  match o with
  | Put id _ => (Z.of_nat id < 2 ^ 32 - 1)%Z /\ (Z.of_nat (length (_vals m)) < 2 ^ 31)%Z
  | _ => True
  end.

Definition lookup_id (m : intern_map) (id : nat) : option V := s ← slot_of m id; value_at m s.
Definition repr (m : intern_map) (M : gmap nat V) : Prop :=
  (forall id, lookup_id m id = M !! id) /\ _live m = Z.of_nat (base.size M).
Definition related (m : intern_map) (st : gmap nat V * list (gmap nat V)) : Prop :=
  exists ms, nested m ms /\ repr m st.1 /\ Forall2 repr ms st.2.

Lemma lookup_same m m' : _slot m' = _slot m -> _vals m' = _vals m -> forall id, lookup_id m' id = lookup_id m id.
Proof. intros H1 H2 id. unfold lookup_id, slot_of, value_at. by rewrite H1, H2. Qed.

Lemma slot_same m m' id : _slot m' = _slot m -> slot_of m' id = slot_of m id.
Proof. intros H. unfold slot_of. by rewrite H. Qed.

Lemma lookup_live m id M : wf m -> repr m M -> is_Some (M !! id) <-> is_Some (slot_of m id).
Proof.
  intros Hw [Hr _]. rewrite <- Hr. unfold lookup_id. destruct (slot_of m id) as [s|] eqn:Hs; simpl.
  - destruct (wf_value m id s Hw Hs) as [v ->]. split; by eexists.
  - split; by intros [? ?].
Qed.

Lemma lookup_set_value m id s v i : wf m -> slot_of m id = Some s ->
  lookup_id (set_value m s v) i = if decide (i = id) then Some v else lookup_id m i.
Proof.
  intros Hw Hs. destruct (wf_value m id s Hw Hs) as [w Hv]. apply lookup_lt_Some in Hv. unfold lookup_id.
  rewrite (slot_same m (set_value m s v)) by done. destruct (decide (i = id)) as [->|Hne].
  - rewrite Hs. simpl. unfold value_at. cbn [set_value _vals]. by apply list_lookup_insert_eq.
  - destruct (slot_of m i) as [x|] eqn:Hx; [|done]. simpl. unfold value_at. cbn [set_value _vals].
    rewrite list_lookup_insert_ne; [done|]. intros E. apply Hne. apply slot_of_spec in Hs as [Hs H0], Hx as [Hx Hx0].
    destruct Hw as [_ Hw]. apply (Hw _ _ s); [|done|done]. by replace s with x by lia.
Qed.

(** Writing to a key that is there. *)
Lemma write_repr m M id s v : wf m -> repr m M -> slot_of m id = Some s -> repr (set_value m s v) (<[id := v]> M).
Proof.
  intros Hw Hr Hs. destruct (proj2 (lookup_live m id M Hw Hr) (mk_is_Some _ _ Hs)) as [w Hm]. destruct Hr as [Hr Hl]. split.
  - intros i. rewrite (lookup_set_value m id) by done. destruct (decide (i = id)) as [->|Hne].
    + by rewrite lookup_insert_eq.
    + by rewrite lookup_insert_ne.
  - cbn [set_value _live]. by rewrite map_size_insert, Hm.
Qed.

Lemma slot_resize m n i : length (_slot m) <= n ->
  slot_of (Map (resize n (-1)%Z (_slot m)) (_vals m) (_live m) (_transaction m)) i = slot_of m i.
Proof.
  intros Hn. unfold slot_of. cbn [_slot]. rewrite resize_ge by done. destruct (decide (i < length (_slot m))).
  - by rewrite lookup_app_l.
  - rewrite lookup_app_r by lia. rewrite (lookup_ge_None_2 (_slot m)) by lia.
    destruct (replicate _ _ !! _) as [x|] eqn:E; [|done]. by apply lookup_replicate in E as [-> _].
Qed.

Lemma repr_ext m m' M : (forall id, lookup_id m' id = lookup_id m id) -> _live m' = _live m -> repr m M -> repr m' M.
Proof. intros H1 H2 [H3 H4]. split; [intros id; by rewrite H1|by rewrite H2]. Qed.

(** The key of a subscript, and the map with its slot. *)
Lemma subscript_spec m ms M id :
  nested m ms -> repr m M -> fits m (Put id V0) ->
  exists s m', subscript m id = Some (s, m') /\ nested m' ms /\ covered m' id /\ slot_of m' id = Some s /\
    repr m' (match M !! id with Some v => M | None => <[id := V0]> M end).
Proof.
  intros Hn Hr [Hid Hvs]. unfold subscript. destruct (save_spec m ms id Hn) as (m1 & -> & Hn1 & Hc1 & Hs1 & Hv1 & Hl1). simpl.
  assert (Hr1 : repr m1 M) by (apply (repr_ext m); [by apply lookup_same|done|done]). rewrite <- Hv1 in Hvs. clear Hn Hr Hs1 Hv1 Hl1 m.
  set (slots := if _ <=? _ then _ else _).
  assert (Hg : exists m2, m2 = Map slots (_vals m1) (_live m1) (_transaction m1) /\ nested m2 ms /\ covered m2 id /\ repr m2 M /\ id < length slots).
  { eexists. split; [done|]. unfold slots. destruct (Nat.leb_spec (length (_slot m1)) id) as [Hle|Hlt].
    - replace (Z.to_nat (u32 (Z.of_nat id + 1))) with (S id) by (rewrite u32_small; lia). split_and!.
      + apply resize_nested; [done|lia].
      + intros t ts s Ht Hs. rewrite slot_resize in Hs by lia. by apply (Hc1 t ts s).
      + apply (repr_ext m1); [|done|exact Hr1]. intros i. unfold lookup_id. rewrite slot_resize by lia. done.
      + rewrite length_resize. lia.
    - split_and!; by destruct m1. }
  destruct Hg as (m2 & Hm2 & Hn2 & Hc2 & Hr2 & Hlt). pose proof (nested_wf _ _ Hn2) as Hw2.
  assert (Hslot : _slot m2 = slots /\ _vals m2 = _vals m1 /\ _live m2 = _live m1 /\ _transaction m2 = _transaction m1) by (by subst m2).
  destruct Hslot as (E1 & E2 & E3 & E4). rewrite <- E1 in *. rewrite <- E2, <- E3, <- E4 in *. clear E1 E2 E3 E4 slots Hm2 Hn1 Hc1 Hr1 m1.
  destruct (lookup_lt_is_Some_2 _ _ Hlt) as [s Hs]. rewrite Hs. simpl. destruct (Z.ltb_spec s 0) as [Hneg|Hpos].
  - assert (s = (-1)%Z) as -> by (destruct Hw2 as [Hw2 _]; destruct (Hw2 id s Hs); lia).
    assert (Hi : i32 (Z.of_nat (length (_vals m2))) = Z.of_nat (length (_vals m2))).
    { unfold i32. rewrite Z.mod_small; lia. }
    rewrite Hi. eexists _, _. split; [done|]. pose proof (insert_nested m2 ms id Hn2 Hs) as Hn3. set (m3 := Map _ _ _ _) in *.
    assert (Hno : slot_of m2 id = None) by (unfold slot_of; by rewrite Hs).
    assert (Hslot : slot_of m3 id = Some (Z.of_nat (length (_vals m2)))).
    { apply slot_of_spec. unfold m3. cbn [_slot]. split; [by apply list_lookup_insert_eq|lia]. }
    assert (HM : M !! id = None) by (destruct Hr2 as [H _]; rewrite <- H; unfold lookup_id; by rewrite Hno).
    rewrite HM. split_and!; [done| |done|].
    + intros t ts s Ht Hs' Hvl. exfalso. rewrite Hslot in Hs'. injection Hs' as <-. unfold m3 in Ht. cbn [_transaction] in Ht.
      destruct (_transaction m2) as [|t0 ts0] eqn:Et; [done|]. injection Ht as <- <-. cbn [vals_size] in Hvl.
      destruct ms as [|m0 r]; cbn [nested] in Hn2; rewrite Et in Hn2; destruct Hn2 as [_ Hn2]; [done|].
      destruct Hn2 as ([(_ & Hvz & _) [_ Hgr] _ _ _ _ _] & _). lia.
    + destruct Hr2 as [Hr2 Hl2]. split.
      * intros i. destruct (decide (i = id)) as [->|Hne].
        -- rewrite lookup_insert_eq. unfold lookup_id. rewrite Hslot. simpl. unfold value_at, m3. cbn [_vals].
           rewrite Nat2Z.id. by apply list_lookup_middle.
        -- rewrite lookup_insert_ne by done. rewrite <- Hr2. unfold lookup_id.
           assert (slot_of m3 i = slot_of m2 i) as -> by (unfold slot_of, m3; cbn [_slot]; by rewrite list_lookup_insert_ne).
           destruct (slot_of m2 i) as [x|] eqn:Hx; [|done]. simpl. destruct (wf_value m2 i x Hw2 Hx) as [v Hv].
           rewrite Hv. unfold value_at, m3 in *. cbn [_vals]. by apply lookup_app_l_Some.
      * unfold m3. cbn [_live]. rewrite map_size_insert, HM, Hl2. lia.
  - assert (Hslot : slot_of m2 id = Some s) by (by apply slot_of_spec). exists s, m2. destruct m2 as [sl vl lv tr]. cbn [_slot _vals _live _transaction] in *.
    split_and!; try done. destruct (proj2 (lookup_live _ id M Hw2 Hr2) (mk_is_Some _ _ Hslot)) as [v ->]. done.
Qed.

Lemma empty_nested : nested empty_map [].
Proof. split; [|done]. by split; [intros [|id] s|intros [|i] j s]. Qed.

Lemma empty_repr : repr empty_map ∅.
Proof. split; [intros id; by rewrite lookup_empty|by rewrite map_size_empty]. Qed.

(** What an operation does to the maps the transactions began at. *)
Definition marks_after (m : intern_map) (ms : list intern_map) (o : op) : list intern_map :=
  match o with Begin => m :: ms | Commit | Rollback => tl ms | _ => ms end.

Lemma update_spec m ms M id f : nested m ms -> repr m M ->
  exists m', update m id f = Some m' /\ nested m' ms /\ repr m' (alter f id M).
Proof.
  intros Hn Hr. pose proof (nested_wf _ _ Hn) as Hw. unfold update, find. destruct (slot_of m id) as [s|] eqn:Hs.
  - destruct (save_spec m ms id Hn) as (m1 & -> & Hn1 & Hc1 & Hs1 & Hv1 & Hl1). simpl. pose proof (nested_wf _ _ Hn1) as Hw1.
    assert (Hr1 : repr m1 M) by (apply (repr_ext m); [by apply lookup_same|done|done]).
    assert (Hs' : slot_of m1 id = Some s) by (by rewrite (slot_same m) by done).
    destruct (wf_value m1 id s Hw1 Hs') as [v Hv]. rewrite Hv. simpl. eexists. split_and!; [done|by apply (write_nested m1 ms id)|].
    assert (HM : M !! id = Some v) by (destruct Hr1 as [H _]; rewrite <- H; unfold lookup_id; by rewrite Hs').
    assert (Ha : alter f id M = <[id := f v]> M).
    { apply map_eq. intros i. destruct (decide (i = id)) as [->|Hne].
      - by rewrite lookup_alter_eq, lookup_insert_eq, HM.
      - by rewrite lookup_alter_ne, lookup_insert_ne by done. }
    rewrite Ha. by apply write_repr.
  - simpl. exists m. split_and!; [done|done|]. destruct (M !! id) eqn:E.
    + exfalso. assert (Hi : is_Some (M !! id)) by (by rewrite E). apply (lookup_live m id M Hw Hr) in Hi as [? ?]. congruence.
    + assert (alter f id M = M) as ->; [|done]. apply map_eq. intros i. destruct (decide (i = id)) as [->|Hne].
      * by rewrite lookup_alter_eq, E.
      * by rewrite lookup_alter_ne.
Qed.

Lemma erase_spec m ms M id : nested m ms -> repr m M ->
  exists n m', erase m id = Some (n, m') /\ nested m' ms /\ repr m' (delete id M).
Proof.
  intros Hn Hr. pose proof (nested_wf _ _ Hn) as Hw. unfold erase. destruct (slot_of m id) as [s|] eqn:Hs.
  - destruct (save_spec m ms id Hn) as (m1 & -> & Hn1 & Hc1 & Hs1 & Hv1 & Hl1). simpl. pose proof (nested_wf _ _ Hn1) as Hw1.
    assert (Hr1 : repr m1 M) by (apply (repr_ext m); [by apply lookup_same|done|done]).
    assert (Hs' : slot_of m1 id = Some s) by (by rewrite (slot_same m) by done).
    eexists _, _. split_and!; [done|by apply erase_nested|]. set (m2 := Map _ _ _ _).
    pose proof (proj2 (lookup_live m1 id M Hw1 Hr1) (mk_is_Some _ _ Hs')) as [v HM].
    pose proof Hs' as Hsl. apply slot_of_spec in Hsl as [Hsl H0]. pose proof (lookup_lt_Some _ _ _ Hsl) as Hlt.
    destruct Hr1 as [Hr1 Hl]. split.
    + intros i. unfold lookup_id. destruct (decide (i = id)) as [->|Hne].
      * unfold slot_of, m2. cbn [_slot]. rewrite list_lookup_insert_eq by done. simpl. by rewrite lookup_delete_eq.
      * assert (slot_of m2 i = slot_of m1 i) as -> by (unfold slot_of, m2; cbn [_slot]; by rewrite list_lookup_insert_ne).
        rewrite lookup_delete_ne, <- Hr1 by done. pose proof (lookup_set_value m1 id s V0 i Hw1 Hs') as H.
        rewrite decide_False in H by done. unfold lookup_id in *.
        rewrite <- H. by rewrite (slot_same m1 (set_value m1 s V0)) by done.
    + unfold m2. cbn [_live]. rewrite map_size_delete, HM, Hl. assert (base.size M <> 0); [|lia].
      rewrite map_size_ne_0_lookup. by exists id.
  - simpl. exists 0, m. split_and!; [done|done|]. destruct (M !! id) eqn:E.
    + exfalso. assert (Hi : is_Some (M !! id)) by (by rewrite E). apply (lookup_live m id M Hw Hr) in Hi as [? ?]. congruence.
    + by rewrite delete_id.
Qed.

Lemma put_spec m ms M id v : nested m ms -> repr m M -> fits m (Put id v) ->
  exists m', put m id v = Some m' /\ nested m' ms /\ repr m' (<[id := v]> M).
Proof.
  intros Hn Hr Hf. destruct (subscript_spec m ms M id Hn Hr Hf) as (s & m1 & Hp & Hn1 & Hc1 & Hs1 & Hr1). unfold put. rewrite Hp. simpl.
  pose proof (nested_wf _ _ Hn1) as Hw1. eexists. split_and!; [done|by apply (write_nested m1 ms id)|].
  pose proof (write_repr m1 _ id s v Hw1 Hr1 Hs1) as H. destruct (M !! id); [done|]. by rewrite insert_insert_eq in H.
Qed.

Lemma begin_nested m ms : nested m ms -> nested (begin_transaction m) (m :: ms).
Proof.
  intros Hn. pose proof (nested_wf _ _ Hn) as Hw. simpl. split_and!; [done| |done|done].
  constructor; cbn [slot_size vals_size t_live saved inserted begin_transaction _slot _vals _live]; try done.
  - intros j v H. by left.
  - intros i s H. by left.
  - intros i s v H. by apply elem_of_nil in H.
  - intros i s H. by apply elem_of_nil in H.
Qed.

Lemma commit_nested m m0 ms : nested m (m0 :: ms) ->
  exists m', commit_transaction m = Some m' /\ nested m' ms /\ _slot m' = _slot m /\ _vals m' = _vals m /\ _live m' = _live m.
Proof.
  intros Hn. cbn [nested] in Hn. destruct Hn as [Hw Hn]. unfold commit_transaction. destruct (_transaction m) as [|t ts]; [done|].
  destruct Hn as (Hr & Ht & Hn). destruct ms as [|m1 ms]; cbn [nested] in Hn; rewrite Ht in Hn; destruct Hn as [Hw0 Hn];
    destruct ts as [|t' ts]; try done.
  - by eexists.
  - destruct Hn as (Hr' & Ht' & Hn). pose proof (nested_wf _ _ Hn) as Hw1. eexists. split_and!; try done. cbn [nested _transaction].
    split_and!; try done. destruct (commit_restores t t' m m0 m1 Hw1 Hr Hr'). by constructor.
Qed.

Lemma rollback_nested m m0 ms : nested m (m0 :: ms) -> rollback_transaction m = Some m0 /\ nested m0 ms.
Proof.
  intros Hn. cbn [nested] in Hn. destruct Hn as [Hw Hn]. destruct (_transaction m) as [|t ts] eqn:Et; [done|].
  destruct Hn as (Hr & Ht & Hn). split; [|done]. rewrite (rollback_spec m t ts m0 Et) by (done || by eapply nested_wf).
  rewrite <- Ht. by destruct m0.
Qed.

(** One operation, with the maps its transactions began at. *)
Lemma op_spec m ms M Ms o M' Ms' :
  nested m ms -> repr m M -> Forall2 repr ms Ms -> fits m o -> spec_op (M, Ms) o = Some (M', Ms') ->
  exists m', run_op m o = Some m' /\ nested m' (marks_after m ms o) /\ repr m' M' /\ Forall2 repr (marks_after m ms o) Ms'.
Proof.
  intros Hn Hr HM Hf Hs. destruct o as [id v|id f|id|id|n| | | |]; cbn [spec_op run_op marks_after] in *.
  - assert (M' = <[id := v]> M /\ Ms' = Ms) as [-> ->] by (destruct Ms; by injection Hs).
    destruct (put_spec m ms M id v Hn Hr Hf) as (m' & H1 & H2 & H3). by exists m'.
  - assert (M' = alter f id M /\ Ms' = Ms) as [-> ->] by (destruct Ms; by injection Hs).
    destruct (update_spec m ms M id f Hn Hr) as (m' & H1 & H2 & H3). by exists m'.
  - assert (M' = delete id M /\ Ms' = Ms) as [-> ->] by (destruct Ms; by injection Hs).
    destruct (erase_spec m ms M id Hn Hr) as (n & m' & H1 & H2 & H3). exists m'. by rewrite H1.
  - assert (M' = M /\ Ms' = Ms) as [-> ->] by (destruct Ms; by injection Hs). unfold find.
    destruct (slot_of m id) as [s|]; [|by exists m].
    destruct (save_spec m ms id Hn) as (m1 & -> & Hn1 & _ & Hs1 & Hv1 & Hl1). exists m1. split_and!; try done.
    by apply (repr_ext m); [by apply lookup_same|..].
  - assert (M' = M /\ Ms' = Ms) as [-> ->] by (destruct Ms; by injection Hs). eexists. split; [done|]. unfold reserve.
    destruct (_ && _) eqn:E; [|done]. apply andb_true_iff in E as [_ E]. apply Nat.ltb_lt in E. split_and!; [apply resize_nested; [done|lia]| |done].
    apply (repr_ext m); [|done|done]. intros i. unfold lookup_id. rewrite slot_resize by lia. done.
  - destruct Ms as [|]; [|done]. injection Hs as <- <-. apply Forall2_nil_inv_r in HM as ->. unfold clear.
    cbn [nested] in Hn. destruct (_transaction m) eqn:Et; [|by destruct Hn]. cbn [is_nil mbind option_bind]. eexists. split; [done|]. rewrite Et. fold empty_map. split; [apply empty_nested|]. split; [apply empty_repr|constructor].
  - assert (M' = M /\ Ms' = M :: Ms) as [-> ->] by (destruct Ms; by injection Hs). eexists. split_and!; [done|by apply begin_nested| |].
    + by apply (repr_ext m).
    + by constructor.
  - destruct Ms as [|M1 Ms]; [done|]. injection Hs as <- <-. destruct ms as [|m1 ms]; [by apply Forall2_nil_inv_l in HM|].
    apply Forall2_cons_1 in HM as [_ HM]. destruct (commit_nested m m1 ms Hn) as (m' & H1 & H2 & H3 & H4 & H5).
    exists m'. split_and!; try done. by apply (repr_ext m); [by apply lookup_same|..].
  - destruct Ms as [|M1 Ms]; [done|]. injection Hs as <- <-. destruct ms as [|m1 ms]; [by apply Forall2_nil_inv_l in HM|].
    apply Forall2_cons_1 in HM as [H1 HM]. destruct (rollback_nested m m1 ms Hn) as [Hb Hn']. by exists m1.
Qed.

(** C23: A map keyed by ids is a finite map with a stack of copies: every
    operation, transactions begun, committed and rolled back inside one another
    included, goes through without an index out of range and gives the map and
    the stack the specification says; lookups, counts and the size then read
    that map. *)
Theorem map_refines m M Ms o M' Ms' :
  related m (M, Ms) -> fits m o -> spec_op (M, Ms) o = Some (M', Ms') ->
  exists m', run_op m o = Some m' /\ related m' (M', Ms') /\
    (forall id, find_readonly m' id = Some (M' !! id) /\ count m' id = if bool_decide (is_Some (M' !! id)) then 1 else 0) /\
    _live m' = Z.of_nat (base.size M').
Proof.
  intros (ms & Hn & Hr & HM) Hf Hs. destruct (op_spec m ms M Ms o M' Ms' Hn Hr HM Hf Hs) as (m' & H1 & H2 & H3 & H4).
  exists m'. pose proof (nested_wf _ _ H2) as Hw'. split_and!; [done|by eexists| |apply H3]. intros id. pose proof (proj1 H3 id) as Hl.
  pose proof (lookup_live m' id M' Hw' H3) as Hi. unfold find_readonly, count, lookup_id in *. destruct (slot_of m' id) as [s|] eqn:Es.
  - destruct (wf_value m' id s Hw' Es) as [v Hv]. simpl in Hl. rewrite Hv in *. simpl. rewrite <- Hl. by rewrite bool_decide_eq_true_2.
  - simpl in Hl. rewrite <- Hl. split; [done|]. rewrite bool_decide_eq_false_2; [done|]. by intros [? ?].
Qed.

(** *** A rolled-back transaction leaves no trace *)

(** A run of operations within one transaction: [n] more are open inside. *)
Inductive inside : nat -> intern_map -> intern_map -> Prop :=
| in_nil m : inside 0 m m
| in_op n m o m1 m2 : fits m o -> ~ o ∈ [Clear; Begin; Commit; Rollback] -> run_op m o = Some m1 -> inside n m1 m2 -> inside n m m2
| in_begin n m m2 : inside (S n) (begin_transaction m) m2 -> inside n m m2
| in_end n m o m1 m2 : o ∈ [Commit; Rollback] -> run_op m o = Some m1 -> inside n m1 m2 -> inside (S n) m m2.

Lemma inside_nested n m m' : inside n m m' -> forall xs base M Ms,
  length xs = n -> nested m (xs ++ base) -> repr m M -> Forall2 repr (xs ++ base) Ms -> nested m' base.
Proof.
  induction 1 as [m|n m o m1 m2 Hf Ho Hrun _ IH|n m m2 _ IH|n m o m1 m2 Ho Hrun _ IH]; intros xs base M Ms Hl Hn Hr HM.
  - by destruct xs.
  - assert (Hs : exists M', spec_op (M, Ms) o = Some (M', Ms) /\ marks_after m (xs ++ base) o = xs ++ base).
    { destruct o, Ms; (by eexists) || (exfalso; apply Ho; set_solver). }
    destruct Hs as (M' & Hs & Hma). destruct (op_spec m _ M Ms o M' Ms Hn Hr HM Hf Hs) as (m1' & H1 & H2 & H3 & H4).
    rewrite Hma in *. assert (m1' = m1) as -> by congruence. by apply (IH xs base M' Ms).
  - apply (IH (m :: xs) base M (M :: Ms)); [by simpl; f_equal|by apply begin_nested|by apply (repr_ext m)|by constructor].
  - destruct xs as [|x xs]; [done|]. destruct Ms as [|M0 Ms]; [by apply Forall2_nil_inv_r in HM|].
    assert (Hs : exists M', spec_op (M, M0 :: Ms) o = Some (M', Ms) /\ marks_after m ((x :: xs) ++ base) o = xs ++ base /\ fits m o).
    { apply elem_of_cons in Ho as [->|Ho]; [by eexists|]. apply list_elem_of_singleton in Ho as ->. by eexists. }
    destruct Hs as (M' & Hs & Hma & Hf). destruct (op_spec m _ M (M0 :: Ms) o M' Ms Hn Hr HM Hf Hs) as (m1' & H1 & H2 & H3 & H4).
    rewrite Hma in *. assert (m1' = m1) as -> by congruence. apply (IH xs base M' Ms); [simpl in Hl; lia|done..].
Qed.

(** A transaction rolled back leaves the map as it found it, slots, values,
    size and enclosing transactions included, whatever was inserted, erased or
    written since and whichever transactions were committed or rolled back
    inside it. *)
Theorem rollback_exact m st m' :
  related m st -> inside 0 (begin_transaction m) m' -> rollback_transaction m' = Some m.
Proof.
  destruct st as [M Ms]. intros (ms & Hn & Hr & HM) Hi.
  pose proof (inside_nested 0 _ _ Hi [] (m :: ms) M (M :: Ms) eq_refl (begin_nested m ms Hn)) as H.
  apply (rollback_nested m' m ms), H; [by apply (repr_ext m)|by constructor].
Qed.

Lemma empty_related : related empty_map (∅, []).
Proof. exists []. split_and!; [apply empty_nested|apply empty_repr|constructor]. Qed.
End Map.

(** ** Concrete runs *)

Definition run_ops {V} (V0 : V) (m : intern_map) (l : list op) : option intern_map :=
  fold_left (fun m o => m ← m; run_op V0 m o) l (Some m).

Lemma map_refines_witness :
  exists m', run_op 0 empty_map (Put 3 7) = Some m' /\ find_readonly m' 3 = Some (Some 7).
Proof.
  destruct (map_refines 0 empty_map ∅ [] (Put 3 7) (<[3 := 7]> ∅) [] empty_related) as (m' & H1 & _ & H3 & _).
  - split; reflexivity.
  - reflexivity.
  - exists m'. split; [exact H1|]. destruct (H3 3) as [H _]. rewrite H. reflexivity.
Defined.

Lemma rollback_exact_witness :
  exists m', run_ops 0 (begin_transaction empty_map) [Put 3 7; Begin; Erase 3; Commit; Put 1 2] = Some m' /\
    rollback_transaction 0 m' = Some empty_map.
Proof.
  eexists. split; [vm_compute; reflexivity|].
  apply (rollback_exact 0 empty_map (∅, []) _ empty_related).
  eapply (in_op _ 0 _ (Put 3 7)); [split; reflexivity|set_solver|vm_compute; reflexivity|].
  apply in_begin. eapply (in_op _ 1 _ (Erase 3)); [exact I|set_solver|vm_compute; reflexivity|].
  eapply (in_end _ 0 _ Commit); [set_solver|vm_compute; reflexivity|].
  eapply (in_op _ 0 _ (Put 1 2)); [split; reflexivity|set_solver|vm_compute; reflexivity|]. apply in_nil.
Defined.

(** Clearing inside a transaction starts the slots again from 0, and a key that
    comes after it and is touched twice is saved as if it had been there before.
    Rolled back, a map of key 5 alone has key 4 as well, and key 5 has its value. *)
Example clear_in_transaction :
  (m ← run_ops 0 empty_map [Put 5 1];
   m' ← run_ops 0 m [Begin; Clear; Put 4 3; Update 4 S; Rollback];
   Some (find_readonly m 5, find_readonly m 4, find_readonly m' 5, find_readonly m' 4)) =
  Some (Some (Some 1), Some None, Some (Some 3), Some (Some 3)).
Proof. vm_compute. reflexivity. Qed.
