(* ===== verification/MacroTables.v ===== *)
(** The macro tables as the lexer keeps them: two id-keyed maps over one pool of
    spellings ([set_macro] of [src/src/lexer.cpp] on [InternMap] and
    [InternTable]), under the transaction of a session's entry
    ([EntryTransaction] of [src/src/parser.cpp]).

    [macro_tables_refine]: they are the two finite maps keyed by name that
    [IfExpand] works on.  An entry that is rolled back leaves them as they were,
    although the pool keeps the spellings it met. *)
From stdpp Require Import gmap.
From S2P Require Import Prelude InternTable InternMap MacroExpand IfExpand.
#[local] Open Scope nat_scope.

(** ** String keys *)

Section Named.
Context {V : Type} (V0 : V).

(** [find_readonly(k)], [erase(k)]: by the id the spelling already has; one
    never interned ([npos]) is beyond the slots. *)
Definition in_slots (m : intern_map) (id : Z) : bool := (id <? size (_slot (V := V) m))%Z.
Definition find_named (pool : intern_table) (m : intern_map) (k : bytes) : option (option V) :=
  id ← InternTable.find pool k; if in_slots m id then find_readonly m (Z.to_nat id) else Some None.
Definition erase_id (m : intern_map) (id : Z) : option intern_map :=
  if in_slots m id then snd <$> erase V0 m (Z.to_nat id) else Some m.

(** The map of names that a map of ids stands for, over the spellings [l]. *)
Definition named (l : list bytes) (I : gmap nat V) (M : gmap bytes V) : Prop :=
  (forall id, is_Some (I !! id) -> id < length l) /\ forall s, M !! s = (k ← index_of s l; I !! k).

Lemma index_of_lt s l k : index_of s l = Some k -> k < length l.
Proof. intros H. apply index_of_lookup in H. by eapply lookup_lt_Some. Qed.

Lemma index_of_app s l m : s ∈ l -> index_of s (l ++ m) = index_of s l.
Proof.
  intros Hs. unfold index_of. destruct (list_find (fun x => x = s) l) as [[i x]|] eqn:E.
  - by rewrite (list_find_app_l _ _ _ _ _ E).
  - apply list_find_None in E. rewrite Forall_forall in E. exfalso. by apply (E s).
Qed.

(** New spellings change nothing. *)
Lemma named_more l m I M : named l I M -> named (l ++ m) I M.
Proof.
  intros [H1 H2]. split; [intros id Hid; rewrite length_app; specialize (H1 id Hid); lia|]. intros s. rewrite H2.
  destruct (decide (s ∈ l)) as [Hs|Hs]; [by rewrite index_of_app|].
  rewrite (proj2 (index_of_None s l) Hs). simpl. destruct (index_of s (l ++ m)) as [k|] eqn:E; [|done]. simpl.
  destruct (I !! k) eqn:Ek; [|done]. exfalso. apply Hs. pose proof (H1 k ltac:(by rewrite Ek)) as Hk.
  apply index_of_lookup in E. rewrite lookup_app_l in E by done. by eapply list_elem_of_lookup_2.
Qed.

Lemma named_insert l I M s k v : NoDup l -> l !! k = Some s -> named l I M -> named l (<[k := v]> I) (<[s := v]> M).
Proof.
  intros Hn Hk [H1 H2]. split.
  - intros id Hid. destruct (decide (id = k)) as [->|Hne]; [by eapply lookup_lt_Some|]. rewrite lookup_insert_ne in Hid by done. auto.
  - intros s'. destruct (decide (s' = s)) as [->|Hne].
    + rewrite lookup_insert_eq, (index_of_Some s l k Hn Hk). simpl. by rewrite lookup_insert_eq.
    + rewrite lookup_insert_ne, H2 by done. destruct (index_of s' l) as [j|] eqn:Ej; [|done]. simpl.
      rewrite lookup_insert_ne; [done|]. intros ->. apply index_of_lookup in Ej. congruence.
Qed.

Lemma named_delete l I M s k : NoDup l -> l !! k = Some s -> named l I M -> named l (delete k I) (delete s M).
Proof.
  intros Hn Hk [H1 H2]. split.
  - intros id Hid. destruct (decide (id = k)) as [->|Hne]; [by eapply lookup_lt_Some|]. rewrite lookup_delete_ne in Hid by done. auto.
  - intros s'. destruct (decide (s' = s)) as [->|Hne].
    + rewrite lookup_delete_eq, (index_of_Some s l k Hn Hk). simpl. by rewrite lookup_delete_eq.
    + rewrite lookup_delete_ne, H2 by done. destruct (index_of s' l) as [j|] eqn:Ej; [|done]. simpl.
      rewrite lookup_delete_ne; [done|]. intros ->. apply index_of_lookup in Ej. congruence.
Qed.

Lemma named_empty l : named l ∅ ∅.
Proof. split; [intros id [? H]; by rewrite lookup_empty in H|]. intros s. rewrite lookup_empty. by destruct (index_of s l). Qed.

(** Ids beyond the slots have no entry. *)
Lemma beyond_slots m ms M id : nested m ms -> repr m M -> in_slots m (Z.of_nat id) = false -> M !! id = None.
Proof.
  intros Hn [Hr _] Hs. rewrite <- Hr. unfold lookup_id, slot_of. unfold in_slots, size in Hs. apply Z.ltb_ge in Hs.
  by rewrite lookup_ge_None_2 by lia.
Qed.

Lemma find_named_spec pool m I Is M k :
  InternTable.wf pool -> related m (I, Is) -> named (spellings pool) I M -> (size k < 2 ^ 32)%Z ->
  (size (_slot m) <= NIL)%Z -> find_named pool m k = Some (M !! k).
Proof.
  intros Hw (ms & Hn & Hr & _) [Hd Hm] Hk Hsl. unfold find_named. rewrite find_spec by done. cbn [mbind option_bind].
  rewrite Hm. unfold id_of. destruct (index_of k (spellings pool)) as [j|] eqn:Ej; simpl.
  - destruct (in_slots m (Z.of_nat j)) eqn:Es; [|by rewrite (beyond_slots m ms I j)]. rewrite Nat2Z.id.
    pose proof (nested_wf _ _ Hn) as Hwm. destruct Hr as [Hr _]. rewrite <- Hr. unfold find_readonly, lookup_id.
    destruct (slot_of m j) as [s|] eqn:E; [|done]. simpl. by destruct (wf_value m j s Hwm E) as [v ->].
  - unfold in_slots. by rewrite (proj2 (Z.ltb_ge _ _)).
Qed.

(** The slots stay below [npos]. *)
Definition small (m : intern_map (V := V)) : Prop := (size (_slot m) <= NIL)%Z.

Lemma save_slot m id m' : save_transaction_value m id = Some m' -> _slot m' = _slot (V := V) m.
Proof.
  unfold save_transaction_value. destruct (_transaction m), (slot_of m id); try (by intros [= <-]).
  destruct (_ || _); [by intros [= <-]|]. destruct (value_at _ _); [by intros [= <-]|done].
Qed.

Lemma put_small m id v m' : put V0 m id v = Some m' -> small m -> (Z.of_nat id < NIL)%Z -> small m'.
Proof.
  unfold put, subscript, small, size. intros H Hs Hid. apply bind_Some in H as ([s m2] & H & [= <-]).
  apply bind_Some in H as (m1 & Hm1 & H). apply save_slot in Hm1. rewrite Hm1 in H.
  set (slots := if _ <=? _ then _ else _) in H. assert (Hl : (Z.of_nat (length slots) <= NIL)%Z).
  { unfold slots. case_if; [|done]. rewrite length_resize. unfold NIL in *. rewrite u32_small; lia. }
  apply bind_Some in H as (x & _ & H). destruct (x <? 0)%Z; injection H as _ <-; cbn [set_value _slot]; by rewrite ?length_insert.
Qed.

Lemma erase_id_spec m ms I id : nested m ms -> repr m I -> small m ->
  exists m', erase_id m (Z.of_nat id) = Some m' /\ nested m' ms /\ repr m' (delete id I) /\ small m'.
Proof.
  intros Hn Hr Hsm. unfold erase_id. destruct (in_slots m (Z.of_nat id)) eqn:Es.
  - rewrite Nat2Z.id. destruct (erase_spec V0 m ms I id Hn Hr) as (n & m' & He & Hn' & Hr'). rewrite He. exists m'. split_and!; try done.
    unfold erase in He. destruct (slot_of m id); [|by injection He as _ <-]. apply bind_Some in He as (m1 & Hm1 & [= _ <-]).
    apply save_slot in Hm1. unfold small, size in *. cbn [_slot]. by rewrite length_insert, Hm1.
  - exists m. split_and!; try done. rewrite delete_id; [done|by apply (beyond_slots m ms)].
Qed.

(** ** One map of names, and its copies *)

Definition table_of (l : list bytes) (m : intern_map) (M : gmap bytes V) (Ms : list (gmap bytes V)) : Prop :=
  exists ms I Is, nested m ms /\ Forall small (m :: ms) /\ repr m I /\ Forall2 repr ms Is /\ named l I M /\ Forall2 (named l) Is Ms.

Lemma table_more l l' m M Ms : table_of l m M Ms -> table_of (l ++ l') m M Ms.
Proof.
  intros (ms & I & Is & H1 & H2 & H3 & H4 & H5 & H6). exists ms, I, Is. split_and!; try done; [by apply named_more|].
  eapply Forall2_impl; [exact H6|]. intros. by apply named_more.
Qed.

Lemma table_find pool m M Ms k : InternTable.wf pool -> table_of (spellings pool) m M Ms -> (size k < 2 ^ 32)%Z ->
  find_named pool m k = Some (M !! k).
Proof.
  intros Hw (ms & I & Is & H1 & H2 & H3 & H4 & H5 & H6) Hk. apply Forall_cons_1 in H2 as [H2 _].
  apply (find_named_spec pool m I Is); try done. by exists ms.
Qed.

Lemma table_put l m M Ms k s v : NoDup l -> l !! k = Some s -> (Z.of_nat k < NIL)%Z -> (Z.of_nat (length (_vals m)) < 2 ^ 31)%Z ->
  table_of l m M Ms -> exists m', put V0 m k v = Some m' /\ table_of l m' (<[s := v]> M) Ms.
Proof.
  intros Hl Hk Hid Hv (ms & I & Is & H1 & H2 & H3 & H4 & H5 & H6). apply Forall_cons_1 in H2 as [H2 H2'].
  destruct (put_spec V0 m ms I k v H1 H3) as (m' & Hp & Hn & Hr); [by unfold NIL in Hid; split; [lia|]|].
  exists m'. split; [done|]. exists ms, (<[k := v]> I), Is. split_and!; try done; [|by apply named_insert].
  constructor; [by eapply put_small|done].
Qed.

Lemma table_erase l m M Ms k s : NoDup l -> l !! k = Some s ->
  table_of l m M Ms -> exists m', erase_id m (Z.of_nat k) = Some m' /\ table_of l m' (delete s M) Ms.
Proof.
  intros Hl Hk (ms & I & Is & H1 & H2 & H3 & H4 & H5 & H6). apply Forall_cons_1 in H2 as [H2 H2'].
  destruct (erase_id_spec m ms I k H1 H3 H2) as (m' & Hp & Hn & Hr & Hs). exists m'. split; [done|].
  exists ms, (delete k I), Is. split_and!; try done; [by constructor|by apply named_delete].
Qed.

Lemma table_begin l m M Ms : table_of l m M Ms -> table_of l (begin_transaction m) M (M :: Ms).
Proof.
  intros (ms & I & Is & H1 & H2 & H3 & H4 & H5 & H6). pose proof (Forall_cons_1 _ _ _ H2) as [Hs _].
  exists (m :: ms), I, (I :: Is). split_and!; try done; [by apply begin_nested|by constructor|by constructor|by constructor].
Qed.

Lemma table_commit l m M M0 Ms : table_of l m M (M0 :: Ms) -> exists m', commit_transaction m = Some m' /\ table_of l m' M Ms.
Proof.
  intros (ms & I & Is & H1 & H2 & H3 & H4 & H5 & H6). destruct Is as [|I0 Is]; [by apply Forall2_nil_inv_l in H6|].
  destruct ms as [|m0 ms]; [by apply Forall2_nil_inv_l in H4|]. apply Forall2_cons_1 in H4 as [_ H4], H6 as [_ H6].
  destruct (commit_nested m m0 ms H1) as (m' & Hc & Hn & E1 & E2 & E3). exists m'. split; [done|]. exists ms, I, Is.
  apply Forall_cons_1 in H2 as [Hs H2]. apply Forall_cons_1 in H2 as [_ H2].
  split_and!; try done; [constructor; [unfold small; by rewrite E1|done]|by apply (repr_ext m); [by apply lookup_same|..]].
Qed.

Lemma table_rollback l m M M0 Ms : table_of l m M (M0 :: Ms) -> exists m', rollback_transaction V0 m = Some m' /\ table_of l m' M0 Ms.
Proof.
  intros (ms & I & Is & H1 & H2 & H3 & H4 & H5 & H6). destruct Is as [|I0 Is]; [by apply Forall2_nil_inv_l in H6|].
  destruct ms as [|m0 ms]; [by apply Forall2_nil_inv_l in H4|]. apply Forall2_cons_1 in H4 as [Hr H4], H6 as [Hm H6].
  destruct (rollback_nested V0 m m0 ms H1) as [Hc Hn]. exists m0. split; [done|]. apply Forall_cons_1 in H2 as [_ H2].
  by exists ms, I0, Is.
Qed.

Lemma table_empty l : table_of l empty_map ∅ [].
Proof.
  exists [], ∅, []. split_and!; [apply empty_nested|by constructor|apply empty_repr|constructor|apply named_empty|constructor].
Qed.
End Named.

(** ** The two tables *)

Definition V0_macro : MacroDef := new_macro [] false [] [].
Record macro_tables := MacroTables { strpool : intern_table; defines : intern_map (V := bytes); macros : intern_map (V := MacroDef) }.

(** [set_macro] and [set_macro_id]. *)
Definition set_macro_id (st : macro_tables) (sid : Z) (object : option bytes) (function : option MacroDef) : option macro_tables :=
  let '(MacroTables pool ds ms) := st in
  match object, function with
  | Some v, _ => ms ← erase_id V0_macro ms sid; ds ← put [] ds (Z.to_nat sid) v; Some (MacroTables pool ds ms)
  | None, Some f => ds ← erase_id [] ds sid; ms ← put V0_macro ms (Z.to_nat sid) f; Some (MacroTables pool ds ms)
  | None, None => ds ← erase_id [] ds sid; ms ← erase_id V0_macro ms sid; Some (MacroTables pool ds ms)
  end.
Definition set_macro_named (st : macro_tables) (name : bytes) (object : option bytes) (function : option MacroDef) : option macro_tables :=
  '(sid, pool) ← intern (strpool st) name;
  set_macro_id (MacroTables pool (defines st) (macros st)) sid object function.

(** An entry: its transaction covers both tables and not the pool. *)
Definition entry_begin (st : macro_tables) : macro_tables :=
  MacroTables (strpool st) (begin_transaction (defines st)) (begin_transaction (macros st)).
Definition entry_commit (st : macro_tables) : option macro_tables :=
  ds ← commit_transaction (defines st); ms ← commit_transaction (macros st); Some (MacroTables (strpool st) ds ms).
Definition entry_rollback (st : macro_tables) : option macro_tables :=
  ds ← rollback_transaction [] (defines st); ms ← rollback_transaction V0_macro (macros st); Some (MacroTables (strpool st) ds ms).

Inductive table_op :=
| SetMacro (name : bytes) (object : option bytes) (function : option MacroDef)
| EntryBegin | EntryCommit | EntryRollback.
Definition run_table (st : macro_tables) (o : table_op) : option macro_tables :=
  match o with
  | SetMacro n ob f => set_macro_named st n ob f
  | EntryBegin => Some (entry_begin st)
  | EntryCommit => entry_commit st
  | EntryRollback => entry_rollback st
  end.

(** ** The specification *)

(** The tables now, and as they were when each entry began. *)
Definition spec_table (st : tables * list tables) (o : table_op) : option (tables * list tables) :=
  let '(T, Ts) := st in
  match o, Ts with
  | SetMacro n ob f, _ => Some (set_macro T n ob f, Ts)
  | EntryBegin, _ => Some (T, T :: Ts)
  | EntryCommit, _ :: r => Some (T, r)
  | EntryRollback, T0 :: r => Some (T0, r)
  | _, [] => None
  end.

Definition models (st : macro_tables) (s : tables * list tables) : Prop :=
  let l := spellings (strpool st) in
  InternTable.wf (strpool st) /\ table_of l (defines st) (define_map s.1) (map define_map s.2)
  /\ table_of l (macros st) (macro_map s.1) (map macro_map s.2).

Definition table_room (st : macro_tables) (o : table_op) : Prop :=
  match o with
  | SetMacro n _ _ => room (strpool st) n /\ (Z.of_nat (length (_vals (defines st))) < 2 ^ 31)%Z /\ (Z.of_nat (length (_vals (macros st))) < 2 ^ 31)%Z
  | _ => True
  end.

Lemma set_macro_models st T Ts n ob f : models st (T, Ts) -> table_room st (SetMacro n ob f) ->
  exists st', set_macro_named st n ob f = Some st' /\ models st' (set_macro T n ob f, Ts).
Proof.
  intros (Hw & Hd & Hm) (Hr & Hvd & Hvm). unfold set_macro_named. cbn [fst snd] in *.
  destruct (intern_spec (strpool st) n Hw Hr) as (pool & Hi & Hw' & Hs & He). rewrite Hi. cbn [mbind option_bind].
  destruct (extends_spellings _ _ Hw He) as [more Hmore]. set (k := (spec_intern _ _).1) in *.
  assert (Hk : spellings pool !! k = Some n).
  { rewrite Hs. unfold k, spec_intern. destruct (index_of n _) as [j|] eqn:Ej; [by apply index_of_lookup|by apply list_lookup_middle]. }
  pose proof (wf_nodup _ Hw') as Hnd. assert (Hid : (Z.of_nat k < NIL)%Z).
  { apply lookup_lt_Some in Hk. unfold spellings in Hk. rewrite length_map in Hk. pose proof (wf_size _ Hw'). unfold size in *. lia. }
  apply (table_more _ more) in Hd, Hm. rewrite <- Hmore in Hd, Hm. unfold set_macro_id. rewrite Nat2Z.id. destruct ob as [v|], f as [g|].
  1,2: destruct (table_erase V0_macro _ _ _ _ k n Hnd Hk Hm) as (ms & -> & Hm'); cbn [mbind option_bind];
       destruct (table_put [] _ _ _ _ k n v Hnd Hk Hid Hvd Hd) as (ds & -> & Hd'); by eexists.
  - destruct (table_erase [] _ _ _ _ k n Hnd Hk Hd) as (ds & -> & Hd'). cbn [mbind option_bind].
    destruct (table_put V0_macro _ _ _ _ k n g Hnd Hk Hid Hvm Hm) as (ms & -> & Hm'). by eexists.
  - destruct (table_erase [] _ _ _ _ k n Hnd Hk Hd) as (ds & -> & Hd'). cbn [mbind option_bind].
    destruct (table_erase V0_macro _ _ _ _ k n Hnd Hk Hm) as (ms & -> & Hm'). by eexists.
Qed.

(** C24: The lexer's macro tables, two id-keyed maps over one growing pool of
    spellings, are finite maps keyed by name: defining, redefining as the other
    kind and undefining do what [IfExpand]'s tables say, an entry rolled back
    restores both tables, and every lookup by name reads them. *)
Theorem macro_tables_refine st s o s' :
  models st s -> table_room st o -> spec_table s o = Some s' ->
  exists st', run_table st o = Some st' /\ models st' s' /\
    forall n, (size n < 2 ^ 32)%Z -> find_named (strpool st') (defines st') n = Some (define_map s'.1 !! n) /\
                                     find_named (strpool st') (macros st') n = Some (macro_map s'.1 !! n).
Proof.
  intros Hm Hr Hs. assert (H : exists st', run_table st o = Some st' /\ models st' s').
  { destruct s as [T Ts]. destruct o as [n ob f| | |]; cbn [spec_table run_table] in *.
    - assert (s' = (set_macro T n ob f, Ts)) as -> by (destruct Ts; by injection Hs). by apply set_macro_models.
    - assert (s' = (T, T :: Ts)) as -> by (destruct Ts; by injection Hs). eexists. split; [done|].
      destruct Hm as (Hw & Hd & Hm). split_and!; [done|by apply table_begin|by apply table_begin].
    - destruct Ts as [|T0 Ts]; [done|]. injection Hs as <-. destruct Hm as (Hw & Hd & Hm). unfold entry_commit.
      destruct (table_commit _ _ _ _ _ Hd) as (ds & -> & Hd'), (table_commit _ _ _ _ _ Hm) as (ms & -> & Hm'). by eexists.
    - destruct Ts as [|T0 Ts]; [done|]. injection Hs as <-. destruct Hm as (Hw & Hd & Hm). unfold entry_rollback.
      destruct (table_rollback [] _ _ _ _ _ Hd) as (ds & -> & Hd'), (table_rollback V0_macro _ _ _ _ _ Hm) as (ms & -> & Hm'). by eexists. }
  destruct H as (st' & H1 & H2). exists st'. split_and!; [done|done|]. destruct H2 as (Hw & Hd & Hmm). intros n Hn.
  split; by eapply table_find.
Qed.

(** ** A session's entries *)

Definition new_tables : option macro_tables := pool ← new_table; Some (MacroTables pool empty_map empty_map).
Lemma new_models : exists st, new_tables = Some st /\ models st (Tables ∅ ∅, []).
Proof.
  destruct new_wf as (pool & Hp & Hw & _). exists (MacroTables pool empty_map empty_map). unfold new_tables. rewrite Hp.
  split; [done|]. split_and!; [done|apply table_empty|apply table_empty].
Qed.

Definition run_tables (st : macro_tables) (l : list table_op) : option macro_tables :=
  fold_left (fun st o => st ← st; run_table st o) l (Some st).
Example entry_ex :
  let M := Some (new_macro [B "x"] false [] (B "x+1")) in
  let get st := (find_named (strpool st) (defines st) (B "N"), bool_decide (is_Some (default None (find_named (strpool st) (macros st) (B "N"))))) in
  (st ← new_tables; a ← run_tables st [SetMacro (B "N") (Some (B "1")) None];
   b ← run_tables a [EntryBegin; SetMacro (B "N") None M; SetMacro (B "K") (Some []) None];
   c ← run_tables b [EntryRollback]; d ← run_tables b [EntryCommit];
   Some (get a, get b, get c, get d)) =
  Some ((Some (Some (B "1")), false), (Some None, true), (Some (Some (B "1")), false), (Some None, true)).
Proof. vm_compute. reflexivity. Qed.

Lemma macro_tables_refine_witness :
  exists st st', new_tables = Some st /\ run_table st (SetMacro (B "N") (Some (B "1")) None) = Some st' /\
    find_named (strpool st') (defines st') (B "N") = Some (Some (B "1")).
Proof.
  destruct new_models as (st & Hn & Hm).
  assert (Hr : table_room st (SetMacro (B "N") (Some (B "1")) None)).
  { vm_compute in Hn. injection Hn as <-. vm_compute. by repeat split. }
  destruct (macro_tables_refine st _ (SetMacro (B "N") (Some (B "1")) None) _ Hm Hr eq_refl) as (st' & H1 & _ & H3).
  exists st, st'. split; [exact Hn|]. split; [exact H1|]. destruct (H3 (B "N") ltac:(reflexivity)) as [H _]. rewrite H. reflexivity.
Defined.
