(* ===== verification/IdTable.v ===== *)
(** Tables of stable ids and handles: [id_table] of
    [src/include/madcdis/id_table.h] with its nested transactions,
    [handle_table] of [src/include/handle_table.h] and the bump allocator
    [arena] of [src/include/madcdis/arena.h].

    [id_table_refines]: a table is a list of objects with a stack of copies, one
    per open transaction.  [handles_never_reused] and [allocations_apart] are
    what the other two promise over any history. *)
From Stdlib Require Import Sorted.
From S2P Require Import Prelude.
#[local] Open Scope nat_scope.

(** ** id_table

    A [T *] is an address, 0 is NULL. *)
Module IdTable.
Record SavedSlot := Saved { index : nat; value : Z }.
Record transaction_state := Transaction { original_size : nat; saved : list SavedSlot; touched : list nat }.
Record id_table := Table { _objs : list Z; _base : Z; _transaction : list transaction_state }.

Definition new_table (base : Z) : id_table := Table [] base [].
Definition add (t : id_table) (obj : Z) : Z * id_table :=
  let objs := _objs t ++ [obj] in
  (u32 (_base t + u32 (Z.of_nat (length objs) - 1)), Table objs (_base t) (_transaction t)).

Definition index_of (t : id_table) (id : Z) : Z := u32 (id - _base t).
Definition get (t : id_table) (id : Z) : Z :=
  if (id <? _base t)%Z then 0%Z
  else if (index_of t id <? Z.of_nat (length (_objs t)))%Z then default 0%Z (_objs t !! Z.to_nat (index_of t id)) else 0%Z.
Definition at_index (t : id_table) (i : nat) : Z := if i <? length (_objs t) then default 0%Z (_objs t !! i) else 0%Z.

Definition touch (ts : list transaction_state) (i : nat) (old : Z) : list transaction_state :=
  match ts with
  | t :: r => if existsb (Nat.eqb i) (touched t) then ts
              else Transaction (original_size t) (saved t ++ [Saved i old]) (i :: touched t) :: r
  | [] => []
  end.
Definition set (t : id_table) (id obj : Z) : bool * id_table :=
  if (id <? _base t)%Z then (false, t)
  else
    let idx := Z.to_nat (index_of t id) in
    match _objs t !! idx with
    | None => (false, t)
    | Some old => (true, Table (<[idx := obj]> (_objs t)) (_base t) (touch (_transaction t) idx old))
    end.

Definition begin_transaction (t : id_table) : id_table :=
  Table (_objs t) (_base t) (Transaction (length (_objs t)) [] [] :: _transaction t).

(** The loop of a nested commit over the saved slots. *)
Fixpoint hand_over (l : list SavedSlot) (t : transaction_state) : transaction_state :=
  match l with
  | [] => t
  | s :: r =>
      hand_over r (if (index s <? original_size t) && negb (existsb (Nat.eqb (index s)) (touched t))
                   then Transaction (original_size t) (saved t ++ [s]) (index s :: touched t) else t)
  end.
Definition commit_transaction (t : id_table) : option id_table :=
  match _transaction t with
  | [] => None
  | [_] => Some (Table (_objs t) (_base t) [])
  | st :: st' :: r => Some (Table (_objs t) (_base t) (hand_over (saved st) st' :: r))
  end.

(** The saved slots from the last to the first; [None] is out of range. *)
Fixpoint restore (l : list SavedSlot) (objs : list Z) : option (list Z) :=
  match l with
  | [] => Some objs
  | s :: r => if index s <? length objs then restore r (<[index s := value s]> objs) else None
  end.
Definition rollback_transaction (t : id_table) : option id_table :=
  match _transaction t with
  | [] => None
  | st :: r => objs ← restore (rev (saved st)) (_objs t); Some (Table (resize (original_size st) 0%Z objs) (_base t) r)
  end.

(** *** The specification *)

Inductive op := Add (obj : Z) | Set_ (i : nat) (obj : Z) | Begin | Commit | Rollback.
Definition run_op (t : id_table) (o : op) : option id_table :=
  match o with
  | Add obj => Some (add t obj).2
  | Set_ i obj => Some (set t (_base t + Z.of_nat i) obj).2
  | Begin => Some (begin_transaction t)
  | Commit => commit_transaction t
  | Rollback => rollback_transaction t
  end.
Definition spec_op (st : list Z * list (list Z)) (o : op) : option (list Z * list (list Z)) :=
  let '(l, ls) := st in
  match o, ls with
  | Add obj, _ => Some (l ++ [obj], ls)
  | Set_ i obj, _ => Some (<[i := obj]> l, ls)
  | Begin, _ => Some (l, l :: ls)
  | Commit, _ :: r => Some (l, r)
  | Rollback, l0 :: r => Some (l0, r)
  | _, [] => None
  end.

(** [st], begun at [l0], can be rolled back from [l]. *)
Record restores (st : transaction_state) (l0 l : list Z) : Prop := {
  rs_size : original_size st = length l0;
  rs_grown : length l0 <= length l;
  rs_objs : forall j v, l0 !! j = Some v -> (l !! j = Some v /\ j ∉ map index (saved st)) \/ Saved j v ∈ saved st;
  rs_saved : forall j v, Saved j v ∈ saved st -> j < length l /\ (j < length l0 -> l0 !! j = Some v);
  rs_touched : forall j, existsb (Nat.eqb j) (touched st) = true <-> j ∈ map index (saved st)
}.
Fixpoint nested (l : list Z) (ts : list transaction_state) (ls : list (list Z)) : Prop :=
  match ts, ls with
  | [], [] => True
  | t :: ts, l0 :: ls => restores t l0 l /\ nested l0 ts ls
  | _, _ => False
  end.
(** The ids fit their type. *)
Definition related (t : id_table) (st : list Z * list (list Z)) : Prop :=
  _objs t = st.1 /\ nested st.1 (_transaction t) st.2 /\ (0 <= _base t)%Z /\ (_base t + Z.of_nat (length st.1) <= 2 ^ 32)%Z.

Lemma ids_in_index j l : j ∈ map index l <-> exists v, Saved j v ∈ l.
Proof.
  rewrite list_elem_of_fmap. split; [intros ([i v] & -> & H); by exists v|intros [v H]; by exists (Saved j v)].
Qed.

Lemma ids_nested_change l l' ts ts' ls :
  nested l ts ls ->
  match ts, ts' with
  | [], [] => True
  | t :: r, t' :: r' => r' = r /\ forall l0, restores t l0 l -> restores t' l0 l'
  | _, _ => False
  end -> nested l' ts' ls.
Proof.
  destruct ts as [|t r], ts' as [|t' r'], ls as [|l0 ls]; simpl; try tauto. intros [H1 H2] [-> H]. auto.
Qed.

Lemma ids_add_nested l ts ls obj : nested l ts ls -> nested (l ++ [obj]) ts ls.
Proof.
  intros Hn. apply (ids_nested_change l _ ts); [done|]. destruct ts as [|t r]; [done|]. split; [done|]. intros l0 [H1 H2 H3 H4 H5].
  constructor; try done.
  - rewrite length_app. lia.
  - intros j v Hj. destruct (H3 j v Hj) as [[H H']|H]; [|by right]. left. split; [by apply lookup_app_l_Some|done].
  - intros j v Hj. destruct (H4 j v Hj). split; [rewrite length_app; lia|done].
Qed.

Lemma ids_set_nested l ts ls i old obj : nested l ts ls -> l !! i = Some old -> nested (<[i := obj]> l) (touch ts i old) ls.
Proof.
  intros Hn Hi. pose proof (lookup_lt_Some _ _ _ Hi) as Hlt. apply (ids_nested_change l _ ts); [done|]. destruct ts as [|t r]; [done|]. cbn [touch].
  destruct (existsb (Nat.eqb i) (touched t)) eqn:E; (split; [done|]); intros l0 [H1 H2 H3 H4 H5].
  - constructor; try done.
    + by rewrite length_insert.
    + intros j v Hj. destruct (H3 j v Hj) as [[H H']|H]; [|by right]. left. split; [|done].
      rewrite list_lookup_insert_ne; [done|]. intros ->. by apply H', H5.
    + intros j v Hj. rewrite length_insert. by apply H4.
  - assert (Hni : i ∉ map index (saved t)) by (intros H; apply H5 in H; congruence).
    constructor; cbn [original_size saved touched]; try done.
    + by rewrite length_insert.
    + intros j v Hj. destruct (decide (j = i)) as [->|Hne].
      * right. apply elem_of_app. right. apply list_elem_of_singleton. destruct (H3 i v Hj) as [[H _]|H]; [congruence|].
        exfalso. apply Hni, ids_in_index. eauto.
      * destruct (H3 j v Hj) as [[H H']|H]; [left|right; apply elem_of_app; by left]. split; [by rewrite list_lookup_insert_ne|].
        rewrite map_app, elem_of_app. intros [?|Hin]; [done|]. by apply list_elem_of_singleton in Hin.
    + intros j v [Hj|Hj]%elem_of_app; rewrite length_insert; [by apply H4|]. apply list_elem_of_singleton in Hj as [= -> ->].
      split; [done|]. intros Hl0. destruct (lookup_lt_is_Some_2 l0 i Hl0) as [v Hv]. destruct (H3 i v Hv) as [[H _]|H]; [congruence|].
      exfalso. apply Hni, ids_in_index. eauto.
    + intros j. cbn [existsb]. rewrite orb_true_iff, H5, Nat.eqb_eq, map_app, elem_of_app. cbn [map index]. rewrite list_elem_of_singleton. tauto.
Qed.

Lemma ids_begin_restores l : restores (Transaction (length l) [] []) l l.
Proof.
  constructor; cbn [original_size saved touched]; try done.
  - intros j v H. left. split; [done|]. apply not_elem_of_nil.
  - intros j v H. by apply elem_of_nil in H.
  - intros j. simpl. split; [done|]. intros H. by apply elem_of_nil in H.
Qed.

Lemma ids_hand_over_spec l t t' :
  hand_over l t = t' -> (forall j, existsb (Nat.eqb j) (touched t) = true <-> j ∈ map index (saved t)) ->
  original_size t' = original_size t /\ (forall j, existsb (Nat.eqb j) (touched t') = true <-> j ∈ map index (saved t')) /\
  (forall j v, Saved j v ∈ saved t' -> Saved j v ∈ saved t \/ Saved j v ∈ l /\ j < original_size t /\ j ∉ map index (saved t)) /\
  (forall s, s ∈ saved t -> s ∈ saved t') /\
  (forall j, j ∈ map index l -> j < original_size t -> j ∈ map index (saved t')).
Proof.
  revert t. induction l as [|[i x] l IH]; intros t Ht Hk; cbn [hand_over] in Ht.
  - subst t'. split_and!; try done; [by left|]. intros j Hj. by apply elem_of_nil in Hj.
  - cbn [index] in Ht. destruct (_ && _) eqn:E.
    + apply andb_true_iff in E as [E1 E2]. apply Nat.ltb_lt in E1. apply negb_true_iff in E2.
      assert (Hni : i ∉ map index (saved t)) by (intros H; apply Hk in H; congruence).
      destruct (IH _ Ht) as (H1 & H2 & H3 & H4 & H5).
      { intros j. cbn [existsb saved touched]. rewrite orb_true_iff, Hk, Nat.eqb_eq, map_app, elem_of_app. cbn [map index].
        rewrite list_elem_of_singleton. tauto. }
      cbn [original_size saved touched] in *. split_and!; try done.
      * intros j v Hj. destruct (H3 j v Hj) as [H|(Ha & Hb & Hc)].
        -- apply elem_of_app in H as [H|H]; [by left|]. apply list_elem_of_singleton in H as [= -> ->]. right.
           split_and!; [apply list_elem_of_here|done|done].
        -- right. split_and!; [by apply list_elem_of_further|done|]. intros H. apply Hc. rewrite map_app. apply elem_of_app. by left.
      * intros s Hs. apply H4, elem_of_app. by left.
      * intros j [->|Hj]%elem_of_cons Hlt; [|by apply H5]. apply ids_in_index. exists x. apply H4, elem_of_app. right.
        by apply list_elem_of_singleton.
    + destruct (IH _ Ht Hk) as (H1 & H2 & H3 & H4 & H5). split_and!; try done.
      * intros j v Hj. destruct (H3 j v Hj) as [H|(Ha & Hb & Hc)]; [by left|]. right. split_and!; [by apply list_elem_of_further|done|done].
      * intros j [->|Hj]%elem_of_cons Hlt; [|by apply H5]. cbn [index] in Hlt |- *. apply andb_false_iff in E as [E|E].
        -- apply Nat.ltb_ge in E. lia.
        -- apply negb_false_iff in E. apply Hk, ids_in_index in E as [v Hv]. apply ids_in_index. exists v. by apply H4.
Qed.

Lemma ids_commit_restores t t' l l1 l2 : restores t l1 l -> restores t' l2 l1 -> restores (hand_over (saved t) t') l2 l.
Proof.
  intros [A1 A2 A3 A4 A5] [B1 B2 B3 B4 B5].
  destruct (ids_hand_over_spec (saved t) t' _ eq_refl B5) as (C1 & C2 & C3 & C4 & C5).
  assert (Hval : forall j v, Saved j v ∈ saved (hand_over (saved t) t') -> j < length l2 -> l2 !! j = Some v).
  { intros j v Hj Hl. destruct (C3 j v Hj) as [H|(H & Hs & Hn)]; [by apply B4|]. destruct (A4 j v H) as [_ Hv].
    specialize (Hv ltac:(lia)). destruct (lookup_lt_is_Some_2 l2 j Hl) as [w Hw]. destruct (B3 j w Hw) as [[H' _]|H']; [congruence|].
    exfalso. apply Hn, ids_in_index. eauto. }
  constructor; try done; try (rewrite C1; lia || done); try lia.
  - intros j v Hj. pose proof (lookup_lt_Some _ _ _ Hj) as Hl. destruct (decide (j ∈ map index (saved (hand_over (saved t) t')))) as [Hin|Hno].
    + right. apply ids_in_index in Hin as [w Hin]. pose proof (Hval _ _ Hin Hl). by replace v with w by congruence.
    + left. split; [|done]. destruct (B3 j v Hj) as [[H _]|H]; [|exfalso; apply Hno, ids_in_index; eauto].
      destruct (A3 j v H) as [[H' _]|H']; [done|]. exfalso. apply Hno, C5; [apply ids_in_index; eauto|lia].
  - intros j v Hj. split; [|intros Hl; by apply Hval]. destruct (C3 j v Hj) as [H|(H & _)].
    + destruct (B4 j v H). lia.
    + by destruct (A4 j v H).
Qed.

Lemma in_rev_list {A} (x : A) l : x ∈ rev l <-> x ∈ l.
Proof. by rewrite !list_elem_of_In, <- in_rev. Qed.

Lemma ids_restore_spec ss l l0 :
  (forall j v, Saved j v ∈ ss -> j < length l /\ (j < length l0 -> l0 !! j = Some v)) -> length l0 <= length l ->
  (forall j v, l0 !! j = Some v -> l !! j = Some v \/ exists w, Saved j w ∈ ss) ->
  exists l', restore ss l = Some l' /\ resize (length l0) 0%Z l' = l0.
Proof.
  revert l. induction ss as [|[i x] ss IH]; intros l Hs Hl H; cbn [restore index value].
  - exists l. split; [done|]. rewrite resize_le by done. apply (list_eq_same_length _ _ (length l0)); [done|rewrite length_take; lia|].
    intros j a b Hj Ha Hb. rewrite lookup_take_lt in Ha by done. destruct (H j b Hb) as [H'|[w H']]; [congruence|by apply elem_of_nil in H'].
  - destruct (Hs i x (list_elem_of_here _ _)) as [Hi Hx]. rewrite (proj2 (Nat.ltb_lt _ _)) by done. apply IH.
    + intros j v Hj. rewrite length_insert. apply Hs. by apply list_elem_of_further.
    + by rewrite length_insert.
    + intros j v Hj. destruct (decide (j = i)) as [->|Hne].
      * left. rewrite list_lookup_insert_eq by done. rewrite <- Hx by (by eapply lookup_lt_Some). done.
      * rewrite list_lookup_insert_ne by done. destruct (H j v Hj) as [H'|[w H']]; [by left|]. right. exists w.
        apply elem_of_cons in H' as [[= ? ?]|H']; done.
Qed.

Lemma ids_rollback_spec t st r l0 ls : _transaction t = st :: r -> restores st l0 (_objs t) -> nested l0 r ls ->
  rollback_transaction t = Some (Table l0 (_base t) r).
Proof.
  intros Ht [H1 H2 H3 H4 H5] _. unfold rollback_transaction. rewrite Ht.
  destruct (ids_restore_spec (rev (saved st)) (_objs t) l0) as (l' & -> & Hl'); [|done| |].
  - intros j v Hj. apply H4. by rewrite in_rev_list in Hj.
  - intros j v Hj. destruct (H3 j v Hj) as [[H _]|H]; [by left|]. right. exists v. by rewrite in_rev_list.
  - simpl. by rewrite H1, Hl'.
Qed.

Lemma ids_index_base t st i : related t st -> i < length st.1 -> index_of t (_base t + Z.of_nat i) = Z.of_nat i.
Proof. intros (_ & _ & H0 & Hb) Hi. unfold index_of. replace (_base t + Z.of_nat i - _base t)%Z with (Z.of_nat i) by lia. apply u32_small. lia. Qed.

(** An id table is a list of objects with a stack of copies: a new object
    gets the next id, every assigned id resolves to the object last set for it
    and any other to none, a transaction rolled back restores the objects and
    one committed belongs to the transaction around it. *)
Theorem id_table_refines t st o st' :
  related t st -> spec_op st o = Some st' ->
  (_base t + Z.of_nat (length st'.1) <= 2 ^ 32)%Z -> (forall i obj, o = Set_ i obj -> i < length st.1) ->
  exists t', run_op t o = Some t' /\ _base t' = _base t /\ related t' st' /\
    (forall obj, o = Add obj -> (add t obj).1 = (_base t + Z.of_nat (length st.1))%Z) /\
    (forall i, i < length st'.1 -> get t' (_base t + Z.of_nat i) = default 0%Z (st'.1 !! i)) /\
    (forall id, (0 <= id < 2 ^ 32)%Z -> (id < _base t \/ _base t + Z.of_nat (length st'.1) <= id)%Z -> get t' id = 0%Z).
Proof.
  intros Hrel Hs Hsz Hset. assert (H : exists t', run_op t o = Some t' /\ _base t' = _base t /\ related t' st').
  { destruct st as [l ls]. pose proof Hrel as (Ho & Hn & H0 & Hb). cbn [fst snd] in *. destruct o as [obj|i obj| | |]; cbn [spec_op run_op] in *.
    - assert (st' = (l ++ [obj], ls)) as -> by (destruct ls; by injection Hs). eexists. split_and!; [done|done|].
      split_and!; [by cbn; rewrite Ho|by apply ids_add_nested|done|done].
    - assert (st' = (<[i := obj]> l, ls)) as -> by (destruct ls; by injection Hs). specialize (Hset i obj eq_refl).
      destruct (lookup_lt_is_Some_2 l i Hset) as [old Hold]. unfold set. rewrite (proj2 (Z.ltb_ge _ _)) by lia.
      rewrite (ids_index_base t (l, ls) i Hrel Hset), Nat2Z.id, Ho, Hold. eexists. split_and!; [done|done|].
      split_and!; [done|by apply ids_set_nested|done|done].
    - assert (st' = (l, l :: ls)) as -> by (destruct ls; by injection Hs). eexists. split_and!; [done|done|].
      split_and!; [done| |done|done]. cbn. rewrite Ho. split; [apply ids_begin_restores|done].
    - destruct ls as [|l0 ls]; [done|]. injection Hs as <-. unfold commit_transaction. destruct (_transaction t) as [|a [|b r]]; [done| |].
      + eexists. split_and!; [done|done|]. split_and!; try done. destruct Hn as [_ Hn]. by destruct ls.
      + destruct Hn as [Ha Hn]. destruct ls as [|l1 ls]; [done|]. destruct Hn as [Hb' Hn]. eexists. split_and!; [done|done|].
        split_and!; try done. cbn [_transaction fst snd nested]. split; [by eapply ids_commit_restores|done].
    - destruct ls as [|l0 ls]; [done|]. injection Hs as <-. destruct (_transaction t) as [|a r] eqn:Et; [done|]. destruct Hn as [Ha Hn].
      rewrite (ids_rollback_spec t a r l0 ls Et) by (by rewrite ?Ho). eexists. split_and!; [done|done|]. by split_and!. }
  destruct H as (t' & H1 & H2 & H3). exists t'. split_and!; try done.
  - intros obj ->. destruct Hrel as (Ho & _ & H0 & Hb). unfold add. cbn [fst]. rewrite Ho, length_app. simpl.
    assert (length st'.1 = length st.1 + 1) as Hl by (destruct st as [l [|]]; injection Hs as <-; simpl; by rewrite length_app).
    rewrite u32_small; rewrite u32_small; lia.
  - intros i Hi. unfold get. rewrite <- H2, (ids_index_base t' st' i H3 Hi). pose proof H3 as (Ho & _). rewrite Ho.
    rewrite (proj2 (Z.ltb_ge _ _)) by lia. rewrite (proj2 (Z.ltb_lt _ _)) by lia. by rewrite Nat2Z.id.
  - intros id Hid Hout. unfold get. rewrite H2. destruct (Z.ltb_spec id (_base t)); [done|]. pose proof H3 as (Ho & _ & H0 & _). rewrite Ho.
    unfold index_of. rewrite H2 in *. rewrite (proj2 (Z.ltb_ge _ _)); [done|]. rewrite u32_small; lia.
Qed.

Lemma id_table_refines_witness :
  exists t', run_op (new_table 100) (Add 7) = Some t' /\ get t' 100 = 7%Z /\ get t' 101 = 0%Z.
Proof.
  destruct (id_table_refines (new_table 100) ([], []) (Add 7) ([7%Z], [])) as (t' & H1 & _ & _ & _ & H2 & H3).
  - by split_and!.
  - reflexivity.
  - done.
  - done.
  - exists t'. split; [exact H1|]. split; [exact (H2 0 ltac:(simpl; lia))|]. apply H3; [done|right; done].
Defined.
End IdTable.

(** ** handle_table

    A handle is a slot's index and 1; a closed slot is NULL for good. *)
Module Handles.
Record handle_table := Table { slots : list Z }.
Definition empty : handle_table := Table [].
Definition open (t : handle_table) (obj : Z) : Z * handle_table :=
  let s := slots t ++ [obj] in (Z.of_nat (length s), Table s).
Definition get (t : handle_table) (handle : Z) : Z :=
  if (handle <? 1)%Z || (Z.of_nat (length (slots t)) <? handle)%Z then 0%Z else default 0%Z (slots t !! Z.to_nat (handle - 1)).
(** The object that was deleted, if any. *)
Definition close (t : handle_table) (handle : Z) : option Z * handle_table :=
  let obj := get t handle in
  if (obj =? 0)%Z then (None, t) else (Some obj, Table (<[Z.to_nat (handle - 1) := 0%Z]> (slots t))).

Inductive op := Open (obj : Z) | Close (handle : Z).
(** An event: the handle an open gave, or the handle that was closed and its object. *)
Inductive event := Opened (handle obj : Z) | Closed (handle obj : Z) | Refused (handle : Z).
Definition run_op (t : handle_table) (o : op) : event * handle_table :=
  match o with
  | Open obj => let '(h, t) := open t obj in (Opened h obj, t)
  | Close h => match close t h with (Some obj, t) => (Closed h obj, t) | (None, t) => (Refused h, t) end
  end.
Fixpoint history (t : handle_table) (l : list op) : list event * handle_table :=
  match l with
  | [] => ([], t)
  | o :: r => let '(e, t) := run_op t o in let '(es, t) := history t r in (e :: es, t)
  end.

Lemma get_spec t h : get t h = if bool_decide (1 <= h)%Z then default 0%Z (slots t !! Z.to_nat (h - 1)) else 0%Z.
Proof.
  unfold get. case_bool_decide as Hh; [|by rewrite (proj2 (Z.ltb_lt _ _)) by lia]. rewrite (proj2 (Z.ltb_ge h 1)) by lia. simpl.
  destruct (Z.ltb_spec (Z.of_nat (length (slots t))) h); [|done]. by rewrite lookup_ge_None_2 by lia.
Qed.

Lemma get_open t obj h : get (open t obj).2 h = if bool_decide (h = (open t obj).1) then obj else get t h.
Proof.
  unfold open. cbn [fst snd]. rewrite !get_spec. cbn [slots]. rewrite length_app. simpl.
  destruct (decide (h = Z.of_nat (length (slots t) + 1))) as [Hh|Hh].
  - rewrite !bool_decide_eq_true_2 by lia. rewrite list_lookup_middle by lia. done.
  - rewrite (bool_decide_eq_false_2 (h = _)) by done. case_bool_decide as H1; [|done]. destruct (decide (Z.to_nat (h - 1) < length (slots t))).
    + by rewrite lookup_app_l.
    + rewrite (lookup_ge_None_2 (slots t)) by lia. rewrite lookup_ge_None_2; [done|]. rewrite length_app. simpl. lia.
Qed.

Lemma get_close t h h' : get (close t h).2 h' = if bool_decide (h' = h) then 0%Z else get t h'.
Proof.
  unfold close. destruct (Z.eqb_spec (get t h) 0) as [Hz|Hz]; cbn [snd]; [by case_bool_decide; [subst|]|].
  rewrite !get_spec in *. cbn [slots]. case_bool_decide as H1; [|done]. destruct (slots t !! Z.to_nat (h - 1)) eqn:E; [|done].
  pose proof (lookup_lt_Some _ _ _ E). destruct (decide (h' = h)) as [->|Hh].
  - rewrite !bool_decide_eq_true_2 by done. by rewrite list_lookup_insert_eq.
  - rewrite (bool_decide_eq_false_2 (h' = h)) by done. case_bool_decide as H2; [|done]. by rewrite list_lookup_insert_ne by lia.
Qed.

(** Everything known of a handle from the events since: open until closed. *)
Definition meaning (es : list event) (h : Z) (obj : Z) : Z :=
  fold_left (fun v e => match e with
                        | Opened h' o => if bool_decide (h' = h) then o else v
                        | Closed h' _ => if bool_decide (h' = h) then 0%Z else v
                        | Refused _ => v
                        end) es obj.

Lemma run_op_get t o h : let '(e, t') := run_op t o in get t' h = meaning [e] h (get t h).
Proof.
  destruct o as [obj|h']; cbn [run_op].
  - pose proof (get_open t obj h) as H. destruct (open t obj) as [k t']. cbn [fst snd] in H. rewrite H. simpl.
    by repeat case_bool_decide; subst.
  - pose proof (get_close t h' h) as H. unfold close in *. destruct (get t h' =? 0)%Z eqn:E; cbn [snd] in *; simpl.
    + done.
    + rewrite H. by repeat case_bool_decide; subst.
Qed.

Lemma run_op_length t o : length (slots t) <= length (slots (run_op t o).2) /\
  match (run_op t o).1 with Opened h _ => h = (Z.of_nat (length (slots t)) + 1)%Z /\ length (slots (run_op t o).2) = S (length (slots t)) | _ => True end.
Proof.
  destruct o as [obj|h]; cbn [run_op].
  - unfold open. cbn [fst snd slots]. rewrite length_app. simpl. lia.
  - unfold close. destruct (_ =? _)%Z; cbn [fst snd slots]; [lia|]. by rewrite length_insert.
Qed.

(** Over any history a handle an open gives was given by no open before it and
    by none after, 0 is none, and it resolves to its object until it is closed
    and to nothing from then on: closing twice, or what was never open, is
    refused. *)
Lemma handles_never_reused t l :
  let '(es, t') := history t l in
  (forall h, get t' h = meaning es h (get t h)) /\
  StronglySorted Z.lt (Z.of_nat (length (slots t)) :: flat_map (fun e => match e with Opened h _ => [h] | _ => [] end) es) /\
  length (slots t) <= length (slots t').
Proof.
  revert t. induction l as [|o l IH]; intros t; cbn [history]; [split_and!; [done|by repeat constructor|lia]|].
  pose proof (run_op_length t o) as Hl. pose proof (fun h => run_op_get t o h) as Hg. destruct (run_op t o) as [e t1]. cbn [fst snd] in Hl.
  specialize (IH t1). destruct (history t1 l) as [es t2]. destruct IH as (H1 & H2 & H3). destruct Hl as [Hl He]. split_and!; [|..|lia].
  - intros h. rewrite H1, Hg. unfold meaning. done.
  - apply StronglySorted_inv in H2 as [H2 H2']. cbn [flat_map].
    assert (Hlt : forall n, (n <= Z.of_nat (length (slots t1)))%Z -> StronglySorted Z.lt (n :: flat_map (fun e => match e with Opened h _ => [h] | _ => [] end) es)).
    { intros n Hn. constructor; [done|]. eapply Forall_impl; [exact H2'|]. simpl. lia. }
    destruct e as [h obj|h obj|h]; cbn [app]; try (apply Hlt; lia). destruct He as [-> He]. constructor; [apply Hlt; lia|].
    constructor; [lia|]. eapply Forall_impl; [exact H2'|]. simpl. lia.
Qed.

Example reuse_ex : (history empty [Open 5; Open 6; Close 1; Close 1; Open 7]).1 = [Opened 1 5; Opened 2 6; Closed 1 5; Refused 1; Opened 3 7].
Proof. reflexivity. Qed.
End Handles.

(** ** arena

    [malloc] is asked for a capacity and answers an address; what it promises of
    the blocks is [MallocLaws]. *)
Module Arena.
Open Scope Z_scope.
Record Chunk := MkChunk { base : Z; used : Z; cap : Z }.
Record arena := MkArena { _chunks : list Chunk; _default_cap : Z; _total : Z; _count : Z }.
Definition new_arena (chunk_bytes : Z) : arena := MkArena [] chunk_bytes 0 0.

(** [(sz + 15) & ~(size_t)15] *)
Definition round16 (sz : Z) : Z := Z.land (u64 (sz + 15)) (2 ^ 64 - 1 - 15).

(** [add_chunk]; [None] is [bad_alloc]: the handler's retry is [malloc]'s own. *)
Definition add_chunk (malloc : list Chunk -> Z -> option Z) (a : arena) (need : Z) : option arena :=
  let c := if _default_cap a <? need then need else _default_cap a in
  p ← malloc (_chunks a) c;
  Some (MkArena (_chunks a ++ [MkChunk p 0 c]) (_default_cap a) (_total a) (_count a)).

Definition full (a : arena) (sz : Z) : bool :=
  match last (_chunks a) with Some c => cap c <? u64 (used c + sz) | None => true end.

Definition alloc (malloc : list Chunk -> Z -> option Z) (a : arena) (sz : Z) : option (Z * arena) :=
  let sz := round16 sz in
  a ← (if full a sz then add_chunk malloc a sz else Some a);
  c ← last (_chunks a);
  Some (base c + used c,
        MkArena (removelast (_chunks a) ++ [MkChunk (base c) (used c + sz) (cap c)]) (_default_cap a) (u64 (_total a + sz)) (u64 (_count a + 1))).

(** Two stretches of memory. *)
Definition apart (p n q m : Z) : Prop := p + n <= q \/ q + m <= p.

(** What C says of [malloc]: a block apart from every other, aligned for any
    object (to 16), and no size beyond half the address space. *)
Class MallocLaws (malloc : list Chunk -> Z -> option Z) := {
  malloc_fresh : forall cs n p, malloc cs n = Some p -> Forall (fun c => apart (base c) (cap c) p n) cs;
  malloc_aligned : forall cs n p, malloc cs n = Some p -> p mod 16 = 0;
  malloc_bounded : forall cs n p, malloc cs n = Some p -> n < 2 ^ 63
}.

Section Laws.
Context (malloc : list Chunk -> Z -> option Z) `{MallocLaws malloc}.

(** Every chunk holds what it was asked for, and the chunks are apart. *)
Definition chunk_ok (c : Chunk) : Prop := 0 <= used c <= cap c /\ cap c < 2 ^ 63 /\ used c mod 16 = 0 /\ base c mod 16 = 0.
Definition disjoint (cs : list Chunk) : Prop :=
  forall i j c d, cs !! i = Some c -> cs !! j = Some d -> i <> j -> apart (base c) (cap c) (base d) (cap d).
(** [(p, n)] was handed out: it lies in what a chunk has used. *)
Definition held (cs : list Chunk) (p n : Z) : Prop := exists c, c ∈ cs /\ base c <= p /\ p + n <= base c + used c.
Definition wf (a : arena) (out : list (Z * Z)) : Prop :=
  Forall chunk_ok (_chunks a) /\ disjoint (_chunks a) /\
  Forall (fun r => held (_chunks a) r.1 r.2 /\ r.1 mod 16 = 0 /\ 0 <= r.2) out /\
  (forall i j r s, out !! i = Some r -> out !! j = Some s -> i <> j -> apart r.1 r.2 s.1 s.2).

Lemma round16_spec sz : 0 <= sz < 2 ^ 62 -> sz <= round16 sz < sz + 16 /\ round16 sz mod 16 = 0.
Proof.
  intros Hs. unfold round16. assert (u64 (sz + 15) = sz + 15) as -> by (unfold u64; rewrite Z.mod_small; lia).
  assert (Hland : Z.land (sz + 15) (2 ^ 64 - 1 - 15) = (sz + 15) / 16 * 16).
  { rewrite <- Z.shiftr_div_pow2 with (n := 4), <- Z.shiftl_mul_pow2 with (n := 4) by lia. apply Z.bits_inj'. intros n Hn.
    rewrite Z.land_spec. destruct (Z.lt_ge_cases n 4) as [Hlt|Hge].
    - rewrite Z.shiftl_spec_low by lia. assert (Z.testbit (2 ^ 64 - 1 - 15) n = false) as ->; [|apply andb_false_r].
      assert (n = 0 \/ n = 1 \/ n = 2 \/ n = 3) as [->|[->|[->| ->]]] by lia; done.
    - rewrite Z.shiftl_spec_high, Z.shiftr_spec by lia. replace (n - 4 + 4) with n by lia.
      destruct (Z.lt_ge_cases n 64) as [Hl|Hg].
      + assert (Z.testbit (2 ^ 64 - 1 - 15) n = true) as ->; [|apply andb_true_r].
        change (2 ^ 64 - 1 - 15) with (Z.shiftl (Z.ones 60) 4). rewrite Z.shiftl_spec_high, Z.ones_spec_low by lia. done.
      + rewrite (Z.bits_above_log2 (sz + 15)); [done|lia|].
        apply Z.log2_lt_pow2; [lia|]. eapply Z.lt_le_trans; [|apply (Z.pow_le_mono_r 2 64 n); lia]. lia. }
  rewrite Hland. pose proof (Z.div_mod (sz + 15) 16 ltac:(lia)). pose proof (Z.mod_pos_bound (sz + 15) 16 ltac:(lia)).
  split; [lia|]. by rewrite Z.mul_comm, Z.mul_comm, Z.mod_mul.
Qed.

Lemma held_more cs c p n : held cs p n -> held (cs ++ [c]) p n.
Proof. intros (d & Hd & H1). exists d. split; [apply elem_of_app; by left|done]. Qed.

Lemma add_chunk_wf a out n a1 : wf a out -> 0 <= n -> add_chunk malloc a n = Some a1 ->
  wf a1 out /\ exists c, last (_chunks a1) = Some c /\ n <= cap c /\ used c = 0.
Proof.
  intros (H1 & H2 & H3 & H4) Hn Ha. unfold add_chunk in Ha. set (k := if _ <? _ then _ else _) in Ha.
  assert (Hk : n <= k) by (unfold k; case_if; lia). destruct (malloc (_chunks a) k) as [p|] eqn:Hp; [|done]. injection Ha as <-.
  pose proof (malloc_fresh _ _ _ Hp) as Hf. rewrite Forall_forall in Hf. split; [split_and!|].
  - cbn [_chunks]. apply Forall_app_2; [done|]. apply Forall_singleton. unfold chunk_ok. cbn [used cap base].
    split_and!; [lia|lia|by eapply malloc_bounded|done|by eapply malloc_aligned].
  - cbn [_chunks]. intros i j c d Hi Hj Hij. apply lookup_app_Some in Hi as [Hi|[Hi Hi']], Hj as [Hj|[Hj Hj']].
    + by apply (H2 i j).
    + apply list_lookup_singleton_Some in Hj' as [_ <-]. by apply Hf, (list_elem_of_lookup_2 _ i).
    + apply list_lookup_singleton_Some in Hi' as [_ <-]. destruct (Hf d) as [?|?]; [by apply (list_elem_of_lookup_2 _ j)|by right|by left].
    + apply list_lookup_singleton_Some in Hi' as [Hi' _], Hj' as [Hj' _]. lia.
  - eapply Forall_impl; [exact H3|]. intros r (Hr & Hr'). split; [by apply held_more|done].
  - done.
  - cbn [_chunks]. rewrite last_snoc. eexists. split; [done|]. by split.
Qed.

(** The region at the end of the last chunk. *)
Lemma bump_wf l c out n tot cnt d : 0 <= n -> n mod 16 = 0 -> used c + n <= cap c ->
  wf (MkArena (l ++ [c]) d tot cnt) out -> forall tot' cnt',
  wf (MkArena (l ++ [MkChunk (base c) (used c + n) (cap c)]) d tot' cnt') ((base c + used c, n) :: out).
Proof.
  intros Hn H16 Hfit (H1 & H2 & H3 & H4) tot' cnt'. cbn [_chunks] in *. set (c' := MkChunk _ _ _).
  apply Forall_app in H1 as [Hl Hc]. apply Forall_cons_1 in Hc as [Hc _]. destruct Hc as ((U1 & U2) & U3 & U4 & U5).
  assert (Heq : forall i x, (l ++ [c']) !! i = Some x -> exists y, (l ++ [c]) !! i = Some y /\ base x = base y /\ cap x = cap y).
  { intros i x Hi. apply lookup_app_Some in Hi as [Hi|[Hi Hi']]; [exists x; split; [by apply lookup_app_l_Some|done]|].
    apply list_lookup_singleton_Some in Hi' as [H0 <-]. exists c. split; [|done]. apply list_lookup_middle. lia. }
  assert (Hheld : forall p m, held (l ++ [c]) p m -> held (l ++ [c']) p m).
  { intros p m (x & [Hx|Hx]%elem_of_app & Hb & He); [exists x; split; [apply elem_of_app; by left|done]|].
    apply list_elem_of_singleton in Hx as ->. exists c'. split; [apply elem_of_app; right; by apply list_elem_of_singleton|]. simpl. lia. }
  assert (Hnew : forall p m, held (l ++ [c]) p m -> apart (base c + used c) n p m).
  { intros p m (x & Hx & Hb & He). apply elem_of_app in Hx as [Hx|Hx].
    - apply list_elem_of_lookup in Hx as [i Hi]. pose proof (lookup_lt_Some _ _ _ Hi) as Hlt.
      assert (Hxc : apart (base x) (cap x) (base c) (cap c)).
      { apply (H2 i (length l)); [by apply lookup_app_l_Some|by apply list_lookup_middle|lia]. }
      rewrite Forall_lookup in Hl. destruct (Hl i x Hi) as ((V1 & V2) & _). destruct Hxc; [right|left]; lia.
    - apply list_elem_of_singleton in Hx as ->. right. lia. }
  assert (Hold : forall i r, out !! i = Some r -> held (l ++ [c]) r.1 r.2).
  { intros i r Hi. rewrite Forall_lookup in H3. by apply (H3 i r). }
  split_and!; cbn [_chunks].
  - apply Forall_app_2; [done|]. apply Forall_singleton. unfold chunk_ok, c'. cbn [used cap base].
    split_and!; [lia|lia|done| |done]. by rewrite Z.add_mod, U4, H16.
  - intros i j x y Hi Hj Hij. destruct (Heq i x Hi) as (x' & Hx & -> & ->), (Heq j y Hj) as (y' & Hy & -> & ->). by apply (H2 i j).
  - constructor; cbn [fst snd].
    + split_and!; [|by rewrite Z.add_mod, U5, U4|done]. exists c'. split; [apply elem_of_app; right; by apply list_elem_of_singleton|]. simpl. lia.
    + eapply Forall_impl; [exact H3|]. intros r (Hr & Hr'). split; [by apply Hheld|done].
  - intros [|i] [|j] r s Hi Hj Hij; simpl in Hi, Hj.
    + done.
    + injection Hi as <-. by apply Hnew, (Hold j).
    + injection Hj as <-. destruct (Hnew r.1 r.2 (Hold i r Hi)); [by right|by left].
    + apply (H4 i j); [done|done|lia].
Qed.

(** What the arena hands out never overlaps: each allocation is aligned to
    16, at least as long as asked, within a block [malloc] gave, and apart from
    all earlier ones, which stay where they are. *)
Theorem allocations_apart a out sz p a' :
  wf a out -> 0 <= sz < 2 ^ 62 -> alloc malloc a sz = Some (p, a') ->
  sz <= round16 sz /\ p mod 16 = 0 /\ wf a' ((p, round16 sz) :: out).
Proof.
  intros Hw Hsz Ha. destruct (round16_spec sz Hsz) as [Hr H16]. unfold alloc in Ha. set (n := round16 sz) in *.
  assert (H1 : exists a1 c, (if full a n then add_chunk malloc a n else Some a) = Some a1 /\ wf a1 out /\ last (_chunks a1) = Some c /\ used c + n <= cap c).
  { destruct (full a n) eqn:Ef.
    - destruct (add_chunk malloc a n) as [a1|] eqn:E; [|done]. destruct (add_chunk_wf a out n a1 Hw ltac:(lia) E) as (Hw1 & c & Hc & Hk & Hu).
      exists a1, c. split_and!; [done|done|done|lia].
    - unfold full in Ef. destruct (last (_chunks a)) as [c|] eqn:Hc; [|done]. exists a, c. split_and!; [done|done|done|].
      apply Z.ltb_ge in Ef. destruct Hw as (Hcs & _). rewrite Forall_forall in Hcs. destruct (Hcs c) as ((V1 & V2) & V3 & _).
      { apply last_Some in Hc as [l ->]. apply elem_of_app. right. by apply list_elem_of_singleton. }
      unfold u64 in Ef. rewrite Z.mod_small in Ef; lia. }
  destruct H1 as (a1 & c & He & Hw1 & Hc & Hfit). rewrite He in Ha. cbn [mbind option_bind] in Ha. rewrite Hc in Ha.
  injection Ha as <- <-. apply last_Some in Hc as [l Hl]. destruct a1 as [cs d tot cnt]. cbn [_chunks _default_cap _total _count] in *. subst cs.
  rewrite removelast_last. pose proof (bump_wf l c out n tot cnt d ltac:(lia) H16 Hfit Hw1 (u64 (tot + n)) (u64 (cnt + 1))) as Hb.
  split_and!; [lia| |exact Hb]. destruct Hb as (_ & _ & Hb & _). apply Forall_cons_1 in Hb as [Hb _]. apply Hb.
Qed.
End Laws.

(** A [malloc] that hands out one block after another. *)
Definition bump_malloc (cs : list Chunk) (n : Z) : option Z :=
  if n <? 2 ^ 63 then Some (fold_right Z.max 0 (map (fun c => (base c + cap c + 15) / 16 * 16) cs)) else None.
#[export] Instance bump_malloc_laws : MallocLaws bump_malloc.
Proof.
  constructor; unfold bump_malloc; intros cs n p Hp; destruct (Z.ltb_spec n (2 ^ 63)); try done; injection Hp as <-.
  - apply (Forall_impl (fun c => base c + cap c <= fold_right Z.max 0 (map (fun c => (base c + cap c + 15) / 16 * 16) cs)));
      [|intros c Hc; by left].
    induction cs as [|c cs IH]; [constructor|]. cbn [map fold_right]. constructor.
    + pose proof (Z.div_mod (base c + cap c + 15) 16 ltac:(lia)). pose proof (Z.mod_pos_bound (base c + cap c + 15) 16 ltac:(lia)). lia.
    + eapply Forall_impl; [exact IH|]. simpl. lia.
  - induction cs as [|c cs IH]; [done|]. simpl. set (m := fold_right _ _ _) in *.
    destruct (Z.max_spec ((base c + cap c + 15) / 16 * 16) m) as [[_ ->]|[_ ->]]; [done|]. by rewrite Z.mod_mul.
Qed.

Lemma allocations_apart_witness :
  exists a a', alloc bump_malloc (new_arena 64) 20 = Some (0, a) /\ alloc bump_malloc a 40 = Some (64, a') /\ wf a' [(64, 48); (0, 32)].
Proof.
  eexists _, _. split; [vm_compute; reflexivity|]. split; [vm_compute; reflexivity|].
  assert (H0 : wf (new_arena 64) []) by (split; [apply Forall_nil_2|split; [by intros i|split; [apply Forall_nil_2|by intros i]]]).
  destruct (allocations_apart bump_malloc (new_arena 64) [] 20 0 _ H0 ltac:(by split) ltac:(vm_compute; reflexivity)) as (_ & _ & H1).
  destruct (allocations_apart bump_malloc _ _ 40 64 _ H1 ltac:(by split) ltac:(vm_compute; reflexivity)) as (_ & _ & H2).
  exact H2.
Defined.
End Arena.
