(* ===== verification/NameTable.v ===== *)
(** Interned names: the process-wide [istring_table] of
    [src/include/madcdis/istring.h], a hash table with linear probing over
    entries that never move, and the identity of [istring]s.

    [names_are_identities]: two names are the same entry exactly when they have
    the same bytes, for good; the probes end, the table growing before it is
    more than half full. *)
From S2P Require Import Prelude.
#[local] Open Scope Z_scope.

(** ** Hashing

    [memcpy] of the bytes into a word, little-endian. *)
Fixpoint little_endian (s : bytes) : Z := match s with [] => 0 | c :: r => code c + 256 * little_endian r end.

Definition K : Z := 0x9E3779B97F4A7C15.
Definition rotl (x r : Z) : Z := Z.lor (u64 (Z.shiftl x r)) (Z.shiftr x (64 - r)).
Definition fold_word (h w : Z) : Z := u64 (Z.lxor (rotl h 5) w * K).

(** The words of eight bytes, and the tail. *)
Fixpoint hash_words (fuel : nat) (h : Z) (s : bytes) : Z * bytes :=
  match fuel with
  | O => (h, s)
  | S f => if (8 <=? length s)%nat then hash_words f (fold_word h (little_endian (take 8 s))) (drop 8 s) else (h, s)
  end.
Definition hash_tail (h : Z) (s : bytes) : Z :=
  let n := length s in
  if (4 <=? n)%nat then
    fold_word h (Z.lor (Z.shiftl (little_endian (take 4 s)) 32) (little_endian (take 4 (drop (n - 4) s))))
  else if (0 <? n)%nat then
    fold_word h (Z.lor (Z.lor (Z.shiftl (code (at_ s 0)) 16) (Z.shiftl (code (at_ s (n / 2))) 8)) (code (at_ s (n - 1))))
  else h.
Definition mix (h : Z) : Z :=
  let h := Z.lxor h (Z.shiftr h 33) in
  let h := u64 (h * 0xFF51AFD7ED558CCD) in
  let h := Z.lxor h (Z.shiftr h 33) in
  let h := u64 (h * 0xC4CEB9FE1A85EC53) in
  Z.lxor h (Z.shiftr h 33).
Definition hash_bytes (s : bytes) : Z :=
  let '(h, t) := hash_words (length s) (u64 (Z.of_nat (length s) * K)) s in mix (hash_tail h t).

(** ** The table

    An entry's address is its index in the arena. *)
Record Slot := MkSlot { hash : Z; entry : option nat }.
Record istring_table := Table { _slots : list Slot; _store : list bytes; _count : Z }.
Definition none : Slot := MkSlot 0 None.
Definition new_table : istring_table := Table (replicate (Z.to_nat (2 ^ 15)) none) [] 0.

(** [h & mask] and [(i + 1) & mask] for [n] slots. *)
Definition home (n : nat) (h : Z) : nat := Z.to_nat (Z.land h (Z.of_nat n - 1)).

(** The probe of [place]: the first free slot from [i]. *)
Fixpoint free_slot (fuel : nat) (slots : list Slot) (i : nat) : option nat :=
  match fuel with
  | O => None
  | S f =>
      s ← slots !! i;
      match entry s with None => Some i | Some _ => free_slot f slots (home (length slots) (Z.of_nat i + 1)) end
  end.
Definition place (slots : list Slot) (h : Z) (e : nat) : option (list Slot) :=
  i ← free_slot (length slots) slots (home (length slots) h); Some (<[i := MkSlot h (Some e)]> slots).

Definition grow (old : list Slot) : option (list Slot) :=
  fold_left (fun slots s => slots ← slots; match entry s with Some e => place slots (hash s) e | None => Some slots end)
            old (Some (replicate (length old * 2) none)).

(** The probe of [lookup_or_insert]: the entry of these bytes, [None] at a free
    slot. *)
Fixpoint find_entry (fuel : nat) (t : istring_table) (s : bytes) (h : Z) (i : nat) : option (option nat) :=
  match fuel with
  | O => None
  | S f =>
      sl ← _slots t !! i;
      match entry sl with
      | None => Some None
      | Some e =>
          w ← _store t !! e;
          if (hash sl =? h) && (length w =? length s)%nat && bytes_eqb w s then Some (Some e)
          else find_entry f t s h (home (length (_slots t)) (Z.of_nat i + 1))
      end
  end.

Definition lookup_or_insert (t : istring_table) (s : bytes) : option (nat * istring_table) :=
  let h := hash_bytes s in
  r ← find_entry (length (_slots t)) t s h (home (length (_slots t)) h);
  match r with
  | Some e => Some (e, t)
  | None =>
      let e := length (_store t) in
      slots ← (if Z.of_nat (length (_slots t)) <? (_count t + 1) * 2 then grow (_slots t) else Some (_slots t));
      slots ← place slots h e;
      Some (e, Table slots (_store t ++ [s]) (_count t + 1))
  end.

(** An [istring]: the empty name's entry ([None]) or one of the arena's. *)
Definition istring := option nat.
Definition intern (t : istring_table) (s : bytes) : option (istring * istring_table) :=
  if is_nil s then Some (None, t) else '(e, t) ← lookup_or_insert t s; Some (Some e, t).
Definition str (t : istring_table) (p : istring) : option bytes :=
  match p with None => Some [] | Some e => _store t !! e end.

Example names_ex :
  ('(a, t) ← intern new_table (B "int"); '(b, t) ← intern t (B "a_longer_name"); '(c, t) ← intern t (B "int");
   '(d, t) ← intern t []; Some (a, b, c, d, str t b, _count t)) =
  Some (Some 0%nat, Some 1%nat, Some 0%nat, None, Some (B "a_longer_name"), 2).
Proof. vm_compute. reflexivity. Qed.

(** ** Probing *)

#[local] Open Scope nat_scope.

Definition occupied (slots : list Slot) (i : nat) : Prop := exists s e, slots !! i = Some s /\ entry s = Some e.
Definition at_step (n i d : nat) : nat := (i + d) mod n.

Lemma home_mod n k h : n = 2 ^ k -> home n h = Z.to_nat (h mod Z.of_nat n).
Proof.
  intros ->. unfold home. assert (Z.of_nat (2 ^ k) - 1 = Z.ones (Z.of_nat k))%Z as -> by (rewrite Z.ones_equiv, Nat2Z.inj_pow; lia).
  rewrite Z_land_low by lia. by rewrite Nat2Z.inj_pow.
Qed.

Lemma home_lt n k h : n = 2 ^ k -> home n h < n.
Proof.
  intros Hn. rewrite (home_mod n k) by done. assert (0 < n) by (subst n; pose proof (Nat.pow_nonzero 2 k); lia).
  pose proof (Z.mod_pos_bound h (Z.of_nat n) ltac:(lia)). lia.
Qed.

Lemma home_next n k i d : n = 2 ^ k -> i < n -> at_step n (home n (Z.of_nat i + 1)) d = at_step n i (S d).
Proof.
  intros Hn Hi. rewrite (home_mod n k) by done. unfold at_step. assert (Hp : 0 < n) by lia.
  replace (Z.of_nat i + 1)%Z with (Z.of_nat (i + 1)) by lia. rewrite <- Nat2Z.inj_mod, Nat2Z.id.
  rewrite Nat.Div0.add_mod_idemp_l. f_equal. lia.
Qed.

Lemma at_step_0 n i : i < n -> at_step n i 0 = i.
Proof. intros Hi. unfold at_step. rewrite Nat.add_0_r. by apply Nat.mod_small. Qed.

Lemma at_step_onto n i j : i < n -> j < n -> exists d, d < n /\ at_step n i d = j.
Proof.
  intros Hi Hj. exists ((j + n - i) mod n). split; [apply Nat.mod_upper_bound; lia|]. unfold at_step.
  rewrite Nat.Div0.add_mod_idemp_r. replace (i + (j + n - i)) with (j + 1 * n) by lia.
  rewrite Nat.Div0.mod_add. by apply Nat.mod_small.
Qed.

(** The least number a property has. *)
Lemma least (p : nat -> bool) n : p n = true -> exists m, m <= n /\ p m = true /\ forall j, j < m -> p j = false.
Proof.
  induction n as [n IH] using lt_wf_ind. intros Hn. destruct (existsb p (seq 0 n)) eqn:E.
  - apply existsb_exists in E as (j & Hj & Hp). apply in_seq in Hj. destruct (IH j ltac:(lia) Hp) as (m & H1 & H2). exists m. split; [lia|done].
  - exists n. split_and!; [lia|done|]. intros j Hj. destruct (p j) eqn:Ej; [|done].
    assert (existsb p (seq 0 n) = true); [|congruence]. apply existsb_exists. exists j. split; [apply in_seq; lia|done].
Qed.

Definition is_free (s : Slot) : bool := match entry s with None => true | Some _ => false end.

Section Probe.
Context (slots : list Slot) (k : nat) (Hn : length slots = 2 ^ k).
Let n := length slots.

Lemma free_slot_walk d fuel i :
  d < fuel -> i < n -> (forall j, j < d -> occupied slots (at_step n i j)) ->
  (exists s, slots !! at_step n i d = Some s /\ entry s = None) -> free_slot fuel slots i = Some (at_step n i d).
Proof.
  revert fuel i. induction d as [|d IH]; intros fuel i Hd Hi Ho Hf; (destruct fuel as [|fuel]; [lia|]); cbn [free_slot].
  - destruct Hf as (s & Hs & He). rewrite at_step_0 in * by done. by rewrite Hs; simpl; rewrite He.
  - destruct (Ho 0 ltac:(lia)) as (s & e & Hs & He). rewrite at_step_0 in Hs by done. rewrite Hs. simpl. rewrite He. fold n.
    rewrite <- (home_next n k) by done. apply IH; [lia|by apply (home_lt n k)| |].
    + intros j Hj. rewrite (home_next n k) by done. apply Ho. lia.
    + by rewrite (home_next n k).
Qed.

Lemma free_exists : existsb is_free slots = true -> exists j, j < n /\ exists s, slots !! j = Some s /\ entry s = None.
Proof.
  intros H. apply existsb_exists in H as (s & Hs & Hf). apply list_elem_of_In, list_elem_of_lookup in Hs as [j Hj].
  exists j. split; [by eapply lookup_lt_Some|]. exists s. split; [done|]. unfold is_free in Hf. by destruct (entry s).
Qed.

(** From any slot, the first free one. *)
Lemma first_free i : i < n -> existsb is_free slots = true ->
  exists d, d < n /\ (forall j, j < d -> occupied slots (at_step n i j)) /\ exists s, slots !! at_step n i d = Some s /\ entry s = None.
Proof.
  intros Hi Hf. destruct (free_exists Hf) as (j & Hj & s & Hs & He). destruct (at_step_onto n i j Hi Hj) as (d & Hd & <-).
  set (p d := match slots !! at_step n i d with Some s => is_free s | None => false end).
  destruct (least p d) as (m & Hm & Hpm & Hl); [unfold p, is_free; by rewrite Hs, He|]. exists m. split; [lia|]. split.
  - intros x Hx. specialize (Hl x Hx). unfold p in Hl.
    assert (Hlt : at_step n i x < length slots) by (apply Nat.mod_upper_bound; lia).
    apply lookup_lt_is_Some in Hlt as [y Hy]. rewrite Hy in Hl. unfold is_free in Hl. destruct (entry y) as [e|] eqn:Ey; [|done]. by exists y, e.
  - unfold p in Hpm. destruct (slots !! at_step n i m) as [y|]; [|done]. exists y. split; [done|]. unfold is_free in Hpm. by destruct (entry y).
Qed.
End Probe.

(** ** The invariant of the slots *)

(** [e] can be found from [h]: nothing free before it. *)
Definition reach (slots : list Slot) (h : Z) (e : nat) : Prop :=
  let n := length slots in
  exists d, d < n /\ slots !! at_step n (home n h) d = Some (MkSlot h (Some e)) /\
    forall j, j < d -> occupied slots (at_step n (home n h) j).

Fixpoint held (slots : list Slot) : list (Z * nat) :=
  match slots with
  | [] => []
  | s :: r => match entry s with Some e => (hash s, e) :: held r | None => held r end
  end.

Lemma held_app l r : held (l ++ r) = held l ++ held r.
Proof. induction l as [|s l IH]; simpl; [done|]. destruct (entry s); simpl; by rewrite IH. Qed.

(** The slots hold exactly the entries [P], each reachable. *)
Record slots_ok (slots : list Slot) (P : list (Z * nat)) : Prop := {
  so_size : exists k, length slots = 2 ^ k;
  so_held : forall x, x ∈ held slots <-> x ∈ P;
  so_length : length (held slots) = length P;
  so_reach : forall h e, (h, e) ∈ P -> reach slots h e
}.

Lemma held_length slots : length (held slots) <= length slots.
Proof. induction slots as [|s l IH]; simpl; [done|]. destruct (entry s); simpl; lia. Qed.

Lemma not_full slots : length (held slots) < length slots -> existsb is_free slots = true.
Proof.
  induction slots as [|[h [e|]] l IH]; simpl; [lia| |done]. intros H. unfold is_free at 1. simpl. apply IH. lia.
Qed.

Lemma in_held slots h e : (h, e) ∈ held slots <-> exists i, slots !! i = Some (MkSlot h (Some e)).
Proof.
  induction slots as [|[h' [e'|]] l IH]; cbn [held entry hash].
  - rewrite elem_of_nil. split; [done|]. by intros [i Hi].
  - rewrite elem_of_cons, IH. split.
    + intros [[= -> ->]|[i Hi]]; [by exists 0|by exists (S i)].
    + intros [[|i] Hi]; [left; by injection Hi as -> ->|right; by exists i].
  - rewrite IH. split; [intros [i Hi]; by exists (S i)|intros [[|i] Hi]; [done|by exists i]].
Qed.

Lemma held_insert slots i s h e : slots !! i = Some s -> entry s = None ->
  length (held (<[i := MkSlot h (Some e)]> slots)) = S (length (held slots)) /\
  forall x, x ∈ held (<[i := MkSlot h (Some e)]> slots) <-> x = (h, e) \/ x ∈ held slots.
Proof.
  intros Hi He. pose proof (lookup_lt_Some _ _ _ Hi) as Hlt. rewrite insert_take_drop by done.
  assert (Hs : held slots = held (take i slots) ++ held (drop (S i) slots)).
  { rewrite <- (take_drop_middle slots i s Hi) at 1. rewrite held_app. cbn [held]. by rewrite He. }
  rewrite Hs, held_app. cbn [held entry hash]. split.
  - rewrite !length_app. simpl. lia.
  - intros x. rewrite !elem_of_app, elem_of_cons. tauto.
Qed.

Lemma place_ok slots P h e :
  slots_ok slots P -> length P < length slots -> exists slots', place slots h e = Some slots' /\ length slots' = length slots /\
  slots_ok slots' ((h, e) :: P).
Proof.
  intros [[k Hk] Hh Hl Hr] Hlt. set (n := length slots) in *. assert (Hi : home n h < n) by (by apply (home_lt n k)).
  destruct (first_free slots k Hk (home n h) Hi) as (d & Hd & Ho & s & Hs & He); [apply not_full; lia|].
  fold n in Hd, Ho, Hs. unfold place. fold n. rewrite (free_slot_walk slots k Hk d n (home n h)) by (try done; by exists s). simpl. fold n.
  set (i := at_step n (home n h) d) in *. eexists. split; [done|]. split; [by rewrite length_insert|].
  destruct (held_insert slots i s h e Hs He) as [Hc Hin].
  assert (Hocc : forall j, occupied slots j -> occupied (<[i := MkSlot h (Some e)]> slots) j).
  { intros j (y & e' & Hy & He'). exists y, e'. split; [|done]. rewrite list_lookup_insert_ne; [done|].
    intros E. rewrite <- E, Hs in Hy. congruence. }
  assert (Hsame : forall j y, slots !! j = Some y -> entry y <> None -> <[i := MkSlot h (Some e)]> slots !! j = Some y).
  { intros j y Hy Hne. rewrite list_lookup_insert_ne; [done|]. intros E. apply Hne. rewrite <- E, Hs in Hy. congruence. }
  constructor.
  - exists k. by rewrite length_insert.
  - intros x. by rewrite Hin, elem_of_cons, Hh.
  - rewrite Hc, Hl. done.
  - intros h' e' [[= -> ->]|Hx]%elem_of_cons; unfold reach; rewrite length_insert; fold n.
    + exists d. split_and!; [done|apply list_lookup_insert_eq; by eapply lookup_lt_Some|]. intros j Hj. by apply Hocc, Ho.
    + destruct (Hr h' e' Hx) as (d' & Hd' & Hs' & Ho'). exists d'. split_and!; [done|by apply Hsame|]. intros j Hj. by apply Hocc, Ho'.
Qed.

(** Only membership and number count. *)
Lemma slots_ok_perm slots P P' : slots_ok slots P -> length P = length P' -> (forall x, x ∈ P <-> x ∈ P') -> slots_ok slots P'.
Proof.
  intros [H1 H2 H3 H4] Hl Hp. constructor; [done| |lia|].
  - intros x. by rewrite H2, Hp.
  - intros h e He. apply H4. by apply Hp.
Qed.

Lemma empty_ok k : slots_ok (replicate (2 ^ k) none) [].
Proof.
  assert (H : held (replicate (2 ^ k) none) = []).
  { induction (2 ^ k) as [|n IH]; [done|exact IH]. }
  constructor; [exists k; apply length_replicate|intros x; by rewrite H|by rewrite H|]. intros h e He. by apply elem_of_nil in He.
Qed.

Lemma grow_loop old slots P :
  slots_ok slots P -> length P + length (held old) <= length slots ->
  exists slots', fold_left (fun slots s => slots ← slots; match entry s with Some e => place slots (hash s) e | None => Some slots end) old (Some slots) = Some slots' /\
    length slots' = length slots /\ slots_ok slots' (rev (held old) ++ P).
Proof.
  revert slots P. induction old as [|[h [e|]] old IH]; intros slots P Hok Hl; cbn [fold_left entry hash].
  - by exists slots.
  - cbn [held entry hash] in *. simpl in Hl. cbn [mbind option_bind].
    destruct (place_ok slots P h e Hok ltac:(lia)) as (s1 & -> & Hl1 & Hok1).
    destruct (IH s1 ((h, e) :: P) Hok1) as (s2 & H1 & H2 & H3); [simpl; lia|]. exists s2. split_and!; [done|lia|].
    eapply slots_ok_perm; [exact H3| |].
    + simpl. rewrite !length_app, !length_rev. simpl. lia.
    + intros x. simpl. rewrite !elem_of_app, !elem_of_cons, elem_of_nil. tauto.
  - cbn [mbind option_bind]. by apply IH.
Qed.

Lemma grow_ok old P : slots_ok old P -> exists slots', grow old = Some slots' /\ length slots' = length old * 2 /\ slots_ok slots' P.
Proof.
  intros [[k Hk] Hh Hl Hr]. unfold grow. pose proof (empty_ok (S k)) as Hok. rewrite Nat.pow_succ_r', <- Hk in Hok. rewrite Nat.mul_comm in Hok.
  pose proof (held_length old). destruct (grow_loop old _ [] Hok) as (s & H1 & H2 & H3); [rewrite length_replicate; simpl; lia|].
  exists s. split_and!; [done|by rewrite H2, length_replicate|]. rewrite app_nil_r in H3. eapply slots_ok_perm; [exact H3|by rewrite length_rev|].
  intros x. rewrite <- Hh. by rewrite !list_elem_of_In, <- in_rev.
Qed.

(** ** The invariant of the table *)

Definition entries_of (store : list bytes) : list (Z * nat) := imap (fun e s => (hash_bytes s, e)) store.

Record wf (t : istring_table) : Prop := {
  wf_slots : slots_ok (_slots t) (entries_of (_store t));
  wf_distinct : NoDup (_store t);
  wf_nonempty : Forall (fun s => s <> []) (_store t);
  wf_count : _count t = Z.of_nat (length (_store t));
  wf_half : (_count t * 2 <= Z.of_nat (length (_slots t)))%Z;
  wf_room : 1 < length (_slots t)
}.

Lemma in_entries store h e : (h, e) ∈ entries_of store <-> exists s, store !! e = Some s /\ h = hash_bytes s.
Proof.
  unfold entries_of. rewrite list_elem_of_lookup. split.
  - intros [i Hi]. rewrite list_lookup_imap in Hi. apply fmap_Some in Hi as (s & Hs & [= -> ->]). by exists s.
  - intros (s & Hs & ->). exists e. by rewrite list_lookup_imap, Hs.
Qed.

(** A slot the probe for [s] stops at: free, or of the entry [s]. *)
Definition matches (t : istring_table) (s : bytes) (sl : Slot) : bool :=
  match entry sl with
  | None => true
  | Some e => match _store t !! e with Some w => (hash sl =? hash_bytes s)%Z && bytes_eqb w s | None => false end
  end.

Lemma slot_stored t i sl e : wf t -> _slots t !! i = Some sl -> entry sl = Some e ->
  exists w, _store t !! e = Some w /\ hash sl = hash_bytes w.
Proof.
  intros Hw Hi He. assert (Hin : (hash sl, e) ∈ held (_slots t)).
  { apply in_held. exists i. destruct sl as [h o]. simpl in *. by subst o. }
  apply (so_held _ _ (wf_slots t Hw)), in_entries in Hin. exact Hin.
Qed.

Lemma find_entry_walk t s k d fuel i :
  wf t -> length (_slots t) = 2 ^ k -> d < fuel -> i < length (_slots t) ->
  (forall j sl, j < d -> _slots t !! at_step (length (_slots t)) i j = Some sl -> matches t s sl = false) ->
  (exists sl, _slots t !! at_step (length (_slots t)) i d = Some sl /\ matches t s sl = true) ->
  exists sl, _slots t !! at_step (length (_slots t)) i d = Some sl /\ find_entry fuel t s (hash_bytes s) i = Some (entry sl).
Proof.
  intros Hw Hk. set (n := length (_slots t)) in *. revert fuel i. induction d as [|d IH]; intros fuel i Hd Hi Hno (sl & Hsl & Hm);
    (destruct fuel as [|fuel]; [lia|]); cbn [find_entry].
  - exists sl. split; [done|]. rewrite at_step_0 in Hsl by done. rewrite Hsl. simpl. unfold matches in Hm. destruct (entry sl) as [e|] eqn:He; [|done].
    destruct (_store t !! e) as [w|]; [|done]. simpl. apply andb_true_iff in Hm as [Hh Hb]. rewrite Hh, Hb. apply bytes_eqb_eq in Hb as ->.
    by rewrite Nat.eqb_refl.
  - assert (Hlt : i < length (_slots t)) by done. apply lookup_lt_is_Some in Hlt as [x Hx]. rewrite Hx. simpl.
    pose proof (Hno 0 x ltac:(lia)) as Hm0. rewrite at_step_0 in Hm0 by done. specialize (Hm0 Hx). unfold matches in Hm0.
    destruct (entry x) as [e|] eqn:He; [|done]. destruct (slot_stored t i x e Hw Hx He) as (w & Hw' & _). rewrite Hw' in *. simpl.
    assert (Hc : (hash x =? hash_bytes s)%Z && (length w =? length s) && bytes_eqb w s = false).
    { destruct (hash x =? hash_bytes s)%Z; [|done]. simpl in *. rewrite Hm0. by rewrite andb_false_r. }
    rewrite Hc. fold n. destruct (IH fuel (home n (Z.of_nat i + 1))) as (y & Hy & Hf); [lia|by apply (home_lt n k)| | |].
    + intros j y Hj. rewrite (home_next n k) by done. apply Hno. lia.
    + exists sl. by rewrite (home_next n k).
    + exists y. rewrite (home_next n k) in Hy by done. done.
Qed.

(** The probe ends: at the entry of these bytes, or at a free slot. *)
Lemma find_entry_spec t s : wf t -> exists r,
  find_entry (length (_slots t)) t s (hash_bytes s) (home (length (_slots t)) (hash_bytes s)) = Some r /\
  match r with Some e => _store t !! e = Some s | None => s ∉ _store t end.
Proof.
  intros Hw. destruct (wf_slots t Hw) as [[k Hk] Hh Hl Hr]. set (n := length (_slots t)) in *. set (i := home n (hash_bytes s)) in *.
  assert (Hi : i < n) by (by apply (home_lt n k)). assert (Hlen : length (held (_slots t)) < n).
  { rewrite Hl. unfold entries_of. rewrite length_imap. pose proof (wf_half t Hw) as H1. rewrite (wf_count t Hw) in H1. fold n in H1.
    pose proof (wf_room t Hw) as H2. fold n in H2. lia. }
  set (p d := match _slots t !! at_step n i d with Some sl => matches t s sl | None => false end).
  assert (Hstop : exists d, d < n /\ p d = true /\ forall e, _store t !! e = Some s -> forall j sl, j < d -> _slots t !! at_step n i j = Some sl -> entry sl <> None).
  { destruct (decide (s ∈ _store t)) as [Hin|Hin].
    - apply list_elem_of_lookup in Hin as [e He]. destruct (Hr (hash_bytes s) e) as (d & Hd & Hs & Ho); [apply in_entries; by exists s|].
      exists d. split_and!; [done| |].
      + unfold p. fold n in Hs. fold i in Hs. rewrite Hs. unfold matches. simpl. by rewrite He, Z.eqb_refl, bytes_eqb_refl.
      + intros e' _ j sl Hj Hsl. destruct (Ho j Hj) as (y & e0 & Hy & Hye). fold n in Hy. fold i in Hy. congruence.
    - destruct (first_free (_slots t) k Hk i Hi (not_full _ Hlen)) as (d & Hd & _ & y & Hy & Hye). exists d. split_and!; [done| |].
      + unfold p. fold n in Hy. rewrite Hy. unfold matches. by rewrite Hye.
      + intros e He. exfalso. apply Hin. by eapply list_elem_of_lookup_2. }
  destruct Hstop as (d & Hd & Hp & Hocc). destruct (least p d Hp) as (m & Hm & Hpm & Hmin).
  destruct (find_entry_walk t s k m n i Hw Hk) as (sl & Hsl & Hf); [lia|done| | |].
  - intros j y Hj Hy. specialize (Hmin j Hj). unfold p in Hmin. fold n in Hy. by rewrite Hy in Hmin.
  - unfold p in Hpm. destruct (_slots t !! at_step n i m) as [y|] eqn:Hy; [|done]. exists y. by split.
  - exists (entry sl). split; [done|]. unfold p in Hpm. fold n in Hsl. rewrite Hsl in Hpm. unfold matches in Hpm. destruct (entry sl) as [e|] eqn:He.
    + destruct (_store t !! e) as [w|] eqn:Ew; [|done]. apply andb_true_iff in Hpm as [_ Hb]. apply bytes_eqb_eq in Hb as ->. done.
    + intros Hin. apply list_elem_of_lookup in Hin as [e' He'].
      destruct (decide (m = d)) as [->|Hne]; [|by apply (Hocc e' He' m sl ltac:(lia) Hsl)].
      destruct (Hr (hash_bytes s) e') as (x & Hx & Hs & Ho); [apply in_entries; by exists s|]. fold n in Hs, Ho, Hx. fold i in Hs, Ho.
      destruct (Nat.lt_trichotomy d x) as [Hlt|[->|Hlt]].
      * destruct (Ho d Hlt) as (y & e0 & Hy & Hye). congruence.
      * rewrite Hs in Hsl. injection Hsl as <-. done.
      * specialize (Hmin x Hlt). unfold p in Hmin. rewrite Hs in Hmin. unfold matches in Hmin. simpl in Hmin.
        by rewrite He', Z.eqb_refl, bytes_eqb_refl in Hmin.
Qed.

Lemma lookup_or_insert_spec t s : wf t -> s <> [] -> exists e t', lookup_or_insert t s = Some (e, t') /\ wf t' /\
  _store t' !! e = Some s /\ (t' = t \/ _store t' = _store t ++ [s]).
Proof.
  intros Hw Hne. unfold lookup_or_insert. destruct (find_entry_spec t s Hw) as (r & -> & Hr). cbn [mbind option_bind].
  destruct r as [e|]; [exists e, t; split_and!; try done; by left|]. pose proof Hw as [Hs Hd Hn Hc Hh Hroom].
  assert (Hg : exists slots, (if (Z.of_nat (length (_slots t)) <? (_count t + 1) * 2)%Z then grow (_slots t) else Some (_slots t)) = Some slots /\
    slots_ok slots (entries_of (_store t)) /\ ((_count t + 1) * 2 <= Z.of_nat (length slots))%Z /\ 1 < length slots).
  { destruct (Z.ltb_spec (Z.of_nat (length (_slots t))) ((_count t + 1) * 2)) as [Hlt|Hge].
    - destruct (grow_ok _ _ Hs) as (sl & -> & Hl & Hok). exists sl. split_and!; [done|done|lia|lia].
    - exists (_slots t). split_and!; [done|done|lia|done]. }
  destruct Hg as (sl & -> & Hok & Hle & H1). cbn [mbind option_bind].
  destruct (place_ok sl _ (hash_bytes s) (length (_store t)) Hok) as (sl' & -> & Hl' & Hok').
  { unfold entries_of. rewrite length_imap. lia. }
  cbn [mbind option_bind]. eexists _, _. split; [done|]. split_and!; [|by apply list_lookup_middle|by right].
  constructor; cbn [_slots _store _count].
  - eapply slots_ok_perm; [exact Hok'| |].
    + unfold entries_of. simpl. rewrite !length_imap, length_app. simpl. lia.
    + intros x. unfold entries_of. rewrite imap_app. rewrite elem_of_app, elem_of_cons. cbn [imap]. simpl.
      rewrite list_elem_of_singleton, Nat.add_0_r. tauto.
  - apply NoDup_app. split_and!; [done| |apply NoDup_singleton]. intros x Hx ->%list_elem_of_singleton. done.
  - apply Forall_app_2; [done|]. by apply Forall_singleton.
  - rewrite length_app. simpl. lia.
  - lia.
  - lia.
Qed.

(** ** Names *)

(** Any number of names made. *)
Inductive made : istring_table -> istring_table -> Prop :=
| made_nil t : made t t
| made_intern t s p t1 t2 : intern t s = Some (p, t1) -> made t1 t2 -> made t t2.

Lemma intern_wf t s : wf t -> exists p t', intern t s = Some (p, t') /\ wf t' /\ str t' p = Some s /\ exists more, _store t' = _store t ++ more.
Proof.
  intros Hw. unfold intern. destruct (is_nil s) eqn:E.
  - apply is_nil_true in E as ->. exists None, t. split_and!; try done. exists []. by rewrite app_nil_r.
  - apply is_nil_false in E. destruct (lookup_or_insert_spec t s Hw E) as (e & t' & -> & Hw' & He & Ht). exists (Some e), t'.
    split_and!; try done. destruct Ht as [->|Ht]; [exists []; by rewrite app_nil_r|by exists [s]].
Qed.

Lemma made_wf t t' : made t t' -> wf t -> wf t' /\ exists more, _store t' = _store t ++ more.
Proof.
  induction 1 as [t|t s p t1 t2 Hi _ IH]; intros Hw; [split; [done|exists []; by rewrite app_nil_r]|].
  destruct (intern_wf t s Hw) as (p' & t1' & Hi' & Hw1 & _ & m1 & Hm1). rewrite Hi in Hi'. injection Hi' as -> ->.
  destruct (IH Hw1) as [Hw2 [m2 Hm2]]. split; [done|]. exists (m1 ++ m2). by rewrite Hm2, Hm1, app_assoc.
Qed.

Lemma names_new_wf : wf new_table.
Proof.
  constructor; [exact (empty_ok 15)|constructor|constructor|done|vm_compute; discriminate|].
  unfold new_table. cbn [_slots]. rewrite length_replicate. apply Nat.ltb_lt. vm_compute. reflexivity.
Qed.

(** C27: A name is its bytes: making one always ends and gives the entry of its
    bytes; whatever is made later the entry stays and reads the same, the same
    bytes give it again, and two names are equal exactly when their bytes are. *)
Theorem names_are_identities t s :
  wf t -> exists p t', intern t s = Some (p, t') /\ wf t' /\ str t' p = Some s /\
    forall t'', made t' t'' ->
      str t'' p = Some s /\ (exists t3, intern t'' s = Some (p, t3) /\ _store t3 = _store t'') /\
      forall q w, str t'' q = Some w -> q = p <-> w = s.
Proof.
  intros Hw. destruct (intern_wf t s Hw) as (p & t' & Hi & Hw' & Hp & _). exists p, t'. split_and!; try done.
  intros t'' Hm. destruct (made_wf t' t'' Hm Hw') as [Hw'' [more Hmore]].
  assert (Hp' : str t'' p = Some s).
  { destruct p as [e|]; [|done]. simpl in *. rewrite Hmore. by apply lookup_app_l_Some. }
  assert (Hinj : forall q q' w, str t'' q = Some w -> str t'' q' = Some w -> q = q').
  { assert (Hne : forall e w, _store t'' !! e = Some w -> w <> []).
    { intros e w He. pose proof (wf_nonempty t'' Hw'') as Hf. rewrite Forall_lookup in Hf. by apply (Hf e). }
    intros [e|] [e'|] w Hq Hq'; simpl in *; [|exfalso|exfalso|done].
    - f_equal. eapply NoDup_lookup; [apply (wf_distinct t'' Hw'')|done|done].
    - by apply (Hne e w); [|congruence].
    - by apply (Hne e' w); [|congruence]. }
  split_and!; [done| |].
  - destruct (intern_wf t'' s Hw'') as (q & t3 & Hi3 & Hw3 & Hq & m3 & Hm3). exists t3.
    unfold intern in Hi3 |- *. destruct (is_nil s) eqn:E.
    + injection Hi3 as <- <-. apply is_nil_true in E as ->. split; [|done]. do 2 f_equal. apply (Hinj _ _ []); done.
    + apply bind_Some in Hi3 as ([e t4] & H4 & [= <- <-]). unfold lookup_or_insert in *.
      destruct (find_entry_spec t'' s Hw'') as (r & Hr & Hr'). rewrite Hr in *. cbn [mbind option_bind] in *. destruct r as [e'|].
      * injection H4 as <- <-. simpl. split; [|done]. do 2 f_equal. by apply (Hinj _ _ s).
      * exfalso. destruct p as [e'|]; [|simpl in Hp'; injection Hp' as <-; done]. simpl in Hp'. apply Hr'. by eapply list_elem_of_lookup_2.
  - intros q w Hq. split; [intros ->; congruence|intros ->; by apply (Hinj _ _ s)].
Qed.

Lemma names_are_identities_witness :
  exists p t', intern new_table (B "int") = Some (p, t') /\ str t' p = Some (B "int").
Proof.
  destruct (names_are_identities new_table (B "int") names_new_wf) as (p & t' & H1 & _ & H2 & _). exists p, t'. split; [exact H1|exact H2].
Defined.
