(* ===== verification/Keys.v ===== *)
(** The key vocabulary and its spelling: [src/include/madcdis/keys.h] and the
    enumerations of [src/include/madc/bits/ui_enums].

    A spelling is read back as the key it was written for, and whatever a
    spelling names is a key in canonical form ([name_roundtrip]).  A [char] is compared here as an unsigned byte: each
    comparison of the source with one has a bound below 128, so it says the same
    of a signed one. *)
From S2P Require Import Prelude Numbers.
#[local] Open Scope Z_scope.

(** ** Keys *)

Inductive key :=
| K_none | K_ch | K_ctrl | K_enter | K_tab | K_backspace | K_esc | K_up | K_down | K_left | K_right | K_home | K_end
| K_pgup | K_pgdn | K_del | K_ins | K_resize | K_wake | K_fkey | K_pointer.
#[export] Instance key_eq : EqDecision key.
Proof. solve_decision. Defined.

Inductive tui_button := B_left | B_middle | B_right | B_wheel_up | B_wheel_down.
#[export] Instance button_eq : EqDecision tui_button.
Proof. solve_decision. Defined.
Inductive pointer_phase := P_down | P_drag | P_up.
#[export] Instance phase_eq : EqDecision pointer_phase.
Proof. solve_decision. Defined.

Definition shift : Z := 1.
Definition alt : Z := 2.
Definition ctrl : Z := 4.
Definition cmd : Z := 8.

Record tui_keyev := Keyev { kind : key; ch : ascii; mods : Z; row : Z; col : Z; button : tui_button; phase : pointer_phase }.
#[export] Instance keyev_eq : EqDecision tui_keyev.
Proof. solve_decision. Defined.
Definition new_key (k : key) (c : ascii) (m : Z) : tui_keyev := Keyev k c m 0 0 B_left P_down.
Definition is_key (k : key) (e : tui_keyev) : bool := bool_decide (kind e = k).

(** The platform: [__APPLE__]. *)
Class Platform := { apple : bool }.

(** ** Modifiers *)

(** [m & bit] as a condition. *)
Definition has (m bit : Z) : bool := negb (Z.land m bit =? 0).

Definition key_holds_chord_mods (k : tui_keyev) : bool :=
  is_key K_ctrl k || has (mods k) (Z.lor alt (Z.lor ctrl cmd)).
Definition key_types (k : tui_keyev) : bool := is_key K_ch k && negb (key_holds_chord_mods k).
Definition key_unmodified (k : tui_keyev) : tui_keyev := new_key (kind k) (ch k) 0.
Definition key_without_shift (k : tui_keyev) : tui_keyev := new_key (kind k) (ch k) (Z.land (mods k) (255 - shift)).

(** As pressed; without Shift; without any modifier. *)
Definition key_lookups (k : tui_keyev) : list tui_keyev :=
  let shifted := has (mods k) shift in
  let out := k :: if shifted then [key_without_shift k] else [] in
  let top := if shifted then key_without_shift k else k in
  out ++ if negb (mods k =? 0) && negb (mods top =? 0) then [key_unmodified k] else [].

Definition key_primary_mod `{Platform} : Z := if apple then cmd else ctrl.

(** The four control punctuations [\ ] ^ _]. *)
Definition ctrl_punct (c : ascii) : bool := in_range 92 95 c.

Definition set_mods (k : tui_keyev) (m : Z) : tui_keyev := Keyev (kind k) (ch k) m (row k) (col k) (button k) (phase k).
Definition set_ch (k : tui_keyev) (c : ascii) : tui_keyev := Keyev (kind k) c (mods k) (row k) (col k) (button k) (phase k).
Definition set_kind (k : tui_keyev) (t : key) : tui_keyev := Keyev t (ch k) (mods k) (row k) (col k) (button k) (phase k).

Definition no_ctrl (m : Z) : Z := Z.land m (255 - ctrl).

(** The canonical form, one [if] after the other. *)
Definition ctrl_bare (k : tui_keyev) : tui_keyev := if is_key K_ctrl k then set_mods k (no_ctrl (mods k)) else k.
Definition as_ctrl (k : tui_keyev) : tui_keyev :=
  if is_key K_ch k && has (mods k) ctrl then
    let c := tolower (ch k) in
    if islower c || ctrl_punct c then set_mods (set_ch (set_kind k K_ctrl) c) (no_ctrl (mods k)) else k
  else k.
Definition chord_lower (k : tui_keyev) : tui_keyev :=
  if is_key K_ch k && key_holds_chord_mods k && isupper (ch k) then set_ch k (tolower (ch k)) else k.
Definition shift_bare (k : tui_keyev) : tui_keyev := if is_key K_ch k && (mods k =? shift) then set_mods k 0 else k.
Definition key_normalized (k : tui_keyev) : tui_keyev := shift_bare (chord_lower (as_ctrl (ctrl_bare k))).

(** ** Spelling *)

Definition tui_key_base_name (k : tui_keyev) : bytes :=
  match kind k with
  | K_ch => if byte_eqb (ch k) " "%char then B "space" else [ch k]
  | K_ctrl => ["^"%char; ch k]
  | K_enter => B "enter" | K_tab => B "tab" | K_backspace => B "backspace" | K_esc => B "esc"
  | K_up => B "up" | K_down => B "down" | K_left => B "left" | K_right => B "right"
  | K_home => B "home" | K_end => B "end" | K_pgup => B "pgup" | K_pgdn => B "pgdn" | K_del => B "del" | K_ins => B "ins"
  | K_fkey => if in_range 1 12 (ch k) then "f"%char :: to_string (code (ch k)) else []
  | _ => []
  end.

Definition tui_key_name (k : tui_keyev) : bytes :=
  if mods k =? 0 then tui_key_base_name k
  else
    let out := (if is_key K_ctrl k || has (mods k) ctrl then B "ctrl+" else []) ++
               (if has (mods k) shift then B "shift+" else []) ++
               (if has (mods k) alt then B "alt+" else []) ++ (if has (mods k) cmd then B "cmd+" else []) in
    let base := if is_key K_ctrl k then [ch k]
                else if is_key K_ch k && byte_eqb (ch k) "+"%char then B "plus"
                else tui_key_base_name (new_key (kind k) (ch k) 0) in
    if is_nil base then [] else out ++ base.

Definition named : list (bytes * key) :=
  [(B "space", K_ch); (B "enter", K_enter); (B "tab", K_tab); (B "backspace", K_backspace); (B "esc", K_esc); (B "up", K_up);
   (B "down", K_down); (B "left", K_left); (B "right", K_right); (B "home", K_home); (B "end", K_end); (B "pgup", K_pgup);
   (B "pgdn", K_pgdn); (B "del", K_del); (B "ins", K_ins)].

(** [name.size() == 2 || name.size() == 3], an [f] and digits. *)
Definition fkey_shaped (name : bytes) : bool :=
  match name with
  | [f; a] => byte_eqb f "f"%char && in_range 49 57 a
  | [f; a; b] => byte_eqb f "f"%char && in_range 49 57 a && isdigit b
  | _ => false
  end.

(** The key a word of [named] gives. *)
Fixpoint named_key (l : list (bytes * key)) (name : bytes) : option tui_keyev :=
  match l with
  | [] => None
  | (n, k) :: r => if bytes_eqb name n then Some (new_key k (if bool_decide (k = K_ch) then " "%char else Ascii.zero) 0)
                   else named_key r name
  end.

Definition is_ctrl_name (name : bytes) : bool := (length name =? 2)%nat && byte_eqb (at_ name 0) "^"%char.
Definition is_char_name (name : bytes) : bool := (length name =? 1)%nat && in_range 0x20 0x7e (at_ name 0).

Definition tui_key_base_from_name (name : bytes) : option tui_keyev :=
  if is_nil name then None
  else if is_ctrl_name name then
    let c := tolower (at_ name 1) in
    if negb (islower c) && negb (ctrl_punct c) then None else Some (new_key K_ctrl c 0)
  else if is_char_name name then Some (new_key K_ch (at_ name 0) 0)
  else if fkey_shaped name then
    let n := atoi (drop 1 name) in
    if (n <? 1) || (12 <? n) then None else Some (new_key K_fkey (to_byte n) 0)
  else named_key named name.

Definition key_mod_of_word `{Platform} (w : bytes) : Z :=
  let w := map tolower w in
  if bytes_eqb w (B "ctrl") then ctrl
  else if bytes_eqb w (B "shift") then shift
  else if bytes_eqb w (B "alt") then alt
  else if bytes_eqb w (B "cmd") then cmd
  else if bytes_eqb w (B "primary") then key_primary_mod
  else 0.

(** The modifier words: the bits so far and the text from [at]. *)
Fixpoint mod_words `{Platform} (fuel : nat) (mods : Z) (rest : bytes) : Z * bytes :=
  match fuel with
  | O => (mods, rest)
  | S f =>
      match find_char "+"%char rest with
      | None | Some O => (mods, rest)
      | Some plus =>
          let bit := key_mod_of_word (take plus rest) in
          if bit =? 0 then (mods, rest) else mod_words f (Z.lor mods bit) (drop (S plus) rest)
      end
  end.

Definition tui_key_from_name `{Platform} (name : bytes) : option tui_keyev :=
  let '(m, base) := mod_words (length name) 0 name in
  if m =? 0 then tui_key_base_from_name name
  else
    k ← (if bytes_eqb base (B "plus") || bytes_eqb base (B "+") then Some (new_key K_ch "+"%char 0)
         else tui_key_base_from_name base);
    Some (key_normalized (set_mods k (Z.lor (mods k) m))).

#[export] Instance linux : Platform := { apple := false }.
Example spelling_ex :
  (tui_key_from_name (B "Ctrl+Shift+S"), tui_key_from_name (B "ctrl++"), tui_key_from_name (B "f12"), tui_key_from_name (B "alt+f0"),
   tui_key_from_name (B "primary+3"), tui_key_name <$> tui_key_from_name (B "ALT+CTRL+plus"), tui_key_name <$> tui_key_from_name (B "ctrl+S"),
   tui_key_from_name (B "shift+a")) =
  (Some (new_key K_ctrl "s"%char shift), Some (new_key K_ch "+"%char ctrl), Some (new_key K_fkey "012"%char 0), None,
   Some (new_key K_ch "3"%char ctrl), Some (B "ctrl+alt+plus"), Some (B "^s"), Some (new_key K_ch "a"%char 0)).
Proof. vm_compute. reflexivity. Qed.

(** ** The canonical form *)

(** The keys that have a spelling, in the form [key_normalized] gives. *)
Definition base_ok (k : tui_keyev) : bool :=
  match kind k with
  | K_ch => in_range 0x20 0x7e (ch k)
  | K_ctrl => islower (ch k) || ctrl_punct (ch k)
  | K_fkey => in_range 1 12 (ch k)
  | K_none | K_resize | K_wake | K_pointer => false
  | _ => byte_eqb (ch k) Ascii.zero
  end.
Definition nameable (k : tui_keyev) : Prop :=
  0 <= mods k < 16 /\ base_ok k = true /\ key_normalized k = k /\ k = new_key (kind k) (ch k) (mods k).

Lemma tolower_idem c : tolower (tolower c) = tolower c.
Proof. destruct c as [[] [] [] [] [] [] [] []]; vm_compute; reflexivity. Qed.

(** The modifier bits, one by one. *)
Lemma mods_cases m : 0 <= m < 16 ->
  m = 0 \/ m = 1 \/ m = 2 \/ m = 3 \/ m = 4 \/ m = 5 \/ m = 6 \/ m = 7 \/ m = 8 \/ m = 9 \/ m = 10 \/ m = 11 \/ m = 12 \/ m = 13 \/ m = 14 \/ m = 15.
Proof. lia. Qed.

Lemma tolower_not_upper c : isupper (tolower c) = false.
Proof. destruct c as [[] [] [] [] [] [] [] []]; vm_compute; reflexivity. Qed.
Lemma upper_lower c : isupper c = true -> islower (tolower c) = true.
Proof. destruct c as [[] [] [] [] [] [] [] []]; vm_compute; done. Qed.

(** What normalizing does with each kind of key. *)
Lemma normalized_ctrl c m r l b p : key_normalized (Keyev K_ctrl c m r l b p) = Keyev K_ctrl c (Z.land m 251) r l b p.
Proof. done. Qed.
Lemma normalized_other k c m r l b p : k <> K_ch -> k <> K_ctrl -> key_normalized (Keyev k c m r l b p) = Keyev k c m r l b p.
Proof. by destruct k. Qed.
Lemma is_ch c m r l b p : is_key K_ch (Keyev K_ch c m r l b p) = true.
Proof. done. Qed.
Lemma holds_ch c m r l b p : key_holds_chord_mods (Keyev K_ch c m r l b p) = has m ctrl || has m (Z.lor alt cmd).
Proof.
  unfold key_holds_chord_mods, has. cbn [mods]. change (is_key K_ctrl _) with false. cbn [orb].
  change (Z.lor alt (Z.lor ctrl cmd)) with (Z.lor ctrl (Z.lor alt cmd)). rewrite Z.land_lor_distr_r.
  destruct (Z.eqb_spec (Z.land m ctrl) 0) as [->|H1]; [by rewrite Z.lor_0_l|]. apply negb_true_iff, Z.eqb_neq.
  intros H. by apply Z.lor_eq_0_iff in H as [? _].
Qed.
Lemma normalized_ch c m r l b p :
  key_normalized (Keyev K_ch c m r l b p) =
  if has m ctrl then
    if islower (tolower c) || ctrl_punct (tolower c) then Keyev K_ctrl (tolower c) (Z.land m 251) r l b p else Keyev K_ch c m r l b p
  else if has m (Z.lor alt cmd) && isupper c then Keyev K_ch (tolower c) m r l b p
  else if m =? shift then Keyev K_ch c 0 r l b p else Keyev K_ch c m r l b p.
Proof.
  unfold key_normalized. change (ctrl_bare (Keyev K_ch c m r l b p)) with (Keyev K_ch c m r l b p).
  unfold as_ctrl. cbn [is_key kind ch mods]. rewrite is_ch. cbn [andb ch mods]. destruct (has m ctrl) eqn:E4.
  - destruct (islower _ || _) eqn:El; [done|]. unfold chord_lower. rewrite is_ch. cbn [ch andb].
    destruct (isupper c) eqn:Eu; [apply upper_lower in Eu; by rewrite Eu in El|]. rewrite andb_false_r.
    unfold shift_bare. rewrite is_ch. cbn [mods andb]. by destruct (Z.eqb_spec m shift) as [->|_].
  - unfold chord_lower. rewrite is_ch, holds_ch, E4. cbn [ch andb orb]. destruct (has m (Z.lor alt cmd) && isupper c) eqn:Ea.
    + unfold set_ch, shift_bare. cbn [kind ch mods row col button phase]. rewrite is_ch. cbn [mods andb]. by destruct (Z.eqb_spec m shift) as [->|_].
    + unfold shift_bare. rewrite is_ch. cbn [mods andb]. by destruct (m =? shift).
Qed.

(** Normalizing is done once. *)
Lemma key_normalized_idem k : key_normalized (key_normalized k) = key_normalized k.
Proof.
  destruct k as [t c m r l b p]. destruct (decide (t = K_ch)) as [->|H1].
  - rewrite (normalized_ch c m). destruct (has m ctrl) eqn:E4.
    + destruct (islower _ || _) eqn:El; [by rewrite normalized_ctrl, <- Z.land_assoc|]. by rewrite normalized_ch, E4, El.
    + destruct (has m (Z.lor alt cmd) && isupper c) eqn:Ea.
      * rewrite normalized_ch, E4, tolower_not_upper, andb_false_r. destruct (Z.eqb_spec m shift) as [->|_]; done.
      * destruct (Z.eqb_spec m shift) as [->|Es]; [done|]. rewrite normalized_ch, E4, Ea. by rewrite (proj2 (Z.eqb_neq _ _)).
  - destruct (decide (t = K_ctrl)) as [->|H2]; [by rewrite !normalized_ctrl, <- Z.land_assoc|]. by rewrite !normalized_other.
Qed.

Lemma lowered_ok c : in_range 0x20 0x7e c = true -> in_range 0x20 0x7e (tolower c) = true.
Proof. destruct c as [[] [] [] [] [] [] [] []]; vm_compute; done. Qed.

Lemma land_mods m : 0 <= m < 16 -> 0 <= Z.land m 251 < 16.
Proof.
  intros Hm. destruct (mods_cases m Hm) as [->|[->|[->|[->|[->|[->|[->|[->|[->|[->|[->|[->|[->|[->|[->| ->]]]]]]]]]]]]]]]; by vm_compute.
Qed.

Lemma nameable_intro t c m :
  0 <= m < 16 -> base_ok (new_key t c 0) = true -> key_normalized (new_key t c m) = new_key t c m -> nameable (new_key t c m).
Proof. intros [? ?] Hb ?. split_and!; [done|done|exact Hb|done|done]. Qed.

Lemma normalized_nameable t c m :
  0 <= m < 16 -> base_ok (new_key t c 0) = true -> nameable (key_normalized (new_key t c m)).
Proof.
  intros Hm Hb. pose proof (key_normalized_idem (new_key t c m)) as Hn. pose proof (land_mods m Hm) as Hl.
  destruct (decide (t = K_ch)) as [->|H1].
  - pose proof (lowered_ok c Hb). unfold new_key in Hn |- *. rewrite normalized_ch in Hn |- *. destruct (has m ctrl).
    + destruct (islower _ || _) eqn:El; by apply nameable_intro.
    + destruct (has m _ && _); [by apply nameable_intro|]. destruct (Z.eqb_spec m shift); by apply nameable_intro.
  - destruct (decide (t = K_ctrl)) as [->|H2].
    + unfold new_key in Hn |- *. rewrite normalized_ctrl in Hn |- *. by apply nameable_intro.
    + unfold new_key in Hn |- *. rewrite normalized_other in Hn |- * by done. by apply nameable_intro.
Qed.

(** ** Spelling and reading *)

Section Spelling.
Context `{Platform}.

Definition plus_free (s : bytes) : Prop := match find_char "+"%char s with Some (S _) => False | _ => True end.

Lemma mod_words_end n m s : plus_free s -> mod_words n m s = (m, s).
Proof. intros Hs. destruct n as [|n]; [done|]. simpl. unfold plus_free in Hs. by destruct (find_char _ s) as [[]|]. Qed.

(** A modifier word before the rest. *)
Lemma mod_words_word n m w bit rest :
  find_char "+"%char (w ++ "+"%char :: rest) = Some (length w) -> w <> [] -> key_mod_of_word w = bit -> bit <> 0 ->
  mod_words (S n) m (w ++ "+"%char :: rest) = mod_words n (Z.lor m bit) rest.
Proof.
  intros Hf Hw Hb Hn. cbn [mod_words]. rewrite Hf. destruct (length w) as [|k] eqn:El; [by destruct w|]. rewrite <- El.
  rewrite take_app_length, Hb, (proj2 (Z.eqb_neq _ _) Hn). f_equal. rewrite <- app_comm_cons || idtac. apply drop_past.
Qed.

Definition mod_prefix (a : Z) : bytes :=
  (if has a ctrl then B "ctrl+" else []) ++ (if has a shift then B "shift+" else []) ++
  (if has a alt then B "alt+" else []) ++ (if has a cmd then B "cmd+" else []).

Lemma word_ctrl n m r : mod_words (S n) m (B "ctrl+" ++ r) = mod_words n (Z.lor m ctrl) r.
Proof. by apply (mod_words_word n m (B "ctrl")). Qed.
Lemma word_shift n m r : mod_words (S n) m (B "shift+" ++ r) = mod_words n (Z.lor m shift) r.
Proof. by apply (mod_words_word n m (B "shift")). Qed.
Lemma word_alt n m r : mod_words (S n) m (B "alt+" ++ r) = mod_words n (Z.lor m alt) r.
Proof. by apply (mod_words_word n m (B "alt")). Qed.
Lemma word_cmd n m r : mod_words (S n) m (B "cmd+" ++ r) = mod_words n (Z.lor m cmd) r.
Proof. by apply (mod_words_word n m (B "cmd")). Qed.

Lemma prefix_read n a base : 0 <= a < 16 -> plus_free base -> (4 <= n)%nat -> mod_words n 0 (mod_prefix a ++ base) = (a, base).
Proof.
  intros Ha Hb Hn. do 4 (destruct n as [|n]; [lia|]). unfold mod_prefix. rewrite <- !app_assoc.
  destruct (mods_cases a Ha) as [->|[->|[->|[->|[->|[->|[->|[->|[->|[->|[->|[->|[->|[->|[->| ->]]]]]]]]]]]]]]];
    cbn [has ctrl shift alt cmd Z.land Z.eqb negb Pos.land]; rewrite ?app_nil_l;
    repeat first [rewrite word_ctrl | rewrite word_shift | rewrite word_alt | rewrite word_cmd];
    by rewrite mod_words_end.
Qed.

Lemma prefix_length a base : 0 <= a < 16 -> a <> 0 -> (4 <= length (mod_prefix a ++ base))%nat.
Proof.
  intros Ha. rewrite length_app.
  destruct (mods_cases a Ha) as [->|[->|[->|[->|[->|[->|[->|[->|[->|[->|[->|[->|[->|[->|[->| ->]]]]]]]]]]]]]]]; simpl; lia.
Qed.

(** An unmodified key's spelling. *)
Lemma base_name_read t c : base_ok (new_key t c 0) = true ->
  let s := tui_key_base_name (new_key t c 0) in
  tui_key_base_from_name s = Some (new_key t c 0) /\ s <> [] /\ plus_free s /\
  (byte_eqb c "+"%char = false \/ t <> K_ch -> find_char "+"%char s = None /\ s <> B "plus").
Proof.
  intros Hb. destruct t; try done; try (apply byte_eqb_eq in Hb; cbn in Hb; subst c; vm_compute; by split_and!);
  destruct c as [[] [] [] [] [] [] [] []]; vm_compute in Hb; try done; vm_compute; (split_and!; [done|done|done|]); intros [?|?]; done.
Qed.
(** A key's own modifiers and the [ctrl] of a control chord. *)
Definition all_mods (k : tui_keyev) : Z := if is_key K_ctrl k then Z.lor (mods k) ctrl else mods k.
Definition modified_base (t : key) (c : ascii) : bytes :=
  if bool_decide (t = K_ctrl) then [c] else if bool_decide (t = K_ch) && byte_eqb c "+"%char then B "plus" else tui_key_base_name (new_key t c 0).

Lemma has_zero m : 0 <= m < 16 -> has m ctrl = false -> Z.land (Z.lor m ctrl) 251 = m /\ 0 <= Z.lor m ctrl < 16 /\ Z.lor m ctrl <> 0 /\
  mod_prefix (Z.lor m ctrl) = B "ctrl+" ++ mod_prefix m.
Proof.
  intros Hm. destruct (mods_cases m Hm) as [->|[->|[->|[->|[->|[->|[->|[->|[->|[->|[->|[->|[->|[->|[->| ->]]]]]]]]]]]]]]]; by vm_compute.
Qed.

Lemma name_split k : nameable k -> mods k <> 0 ->
  tui_key_name k = mod_prefix (all_mods k) ++ modified_base (kind k) (ch k) /\ 0 <= all_mods k < 16 /\ all_mods k <> 0.
Proof.
  intros (Hm & Hb & Hn & Hk) H0. destruct k as [t c m r l b p]. cbn [mods kind ch] in *. unfold tui_key_name.
  cbn [mods]. rewrite (proj2 (Z.eqb_neq _ _) H0). injection Hk as -> -> -> ->. destruct (base_name_read t c Hb) as (_ & Hne & _).
  unfold all_mods, modified_base. destruct (decide (t = K_ctrl)) as [->|H1].
  - unfold new_key in Hn. rewrite normalized_ctrl in Hn. injection Hn as Hn.
    assert (Hz : has m ctrl = false).
    { unfold has. rewrite <- Hn, <- Z.land_assoc. apply negb_false_iff, Z.eqb_eq. by rewrite Z.land_0_r. }
    destruct (has_zero m Hm Hz) as (_ & H3 & H4 & H5). cbn [is_key kind mods ch is_nil]. change (is_key K_ctrl _) with true. cbn [orb]. rewrite H5.
    split_and!; try lia. unfold mod_prefix. rewrite Hz. rewrite !app_nil_l, <- !app_assoc. done.
  - assert (E : is_key K_ctrl (Keyev t c m 0 0 B_left P_down) = false) by (unfold is_key; by rewrite bool_decide_eq_false_2).
    rewrite E. cbn [orb mods kind ch]. rewrite (bool_decide_eq_false_2 (t = K_ctrl)) by done.
    split_and!; [|lia|lia|done]. unfold is_key. cbn [kind]. unfold mod_prefix. rewrite <- !app_assoc. destruct (_ && _) eqn:Ep; [done|].
    destruct (is_nil _) eqn:En; [by apply is_nil_true in En|done].
Qed.

Lemma tolower_ctrl c : islower c || ctrl_punct c = true -> tolower c = c.
Proof. destruct c as [[] [] [] [] [] [] [] []]; vm_compute; done. Qed.

(** The base of a modified spelling. *)
Lemma modified_base_read t c : base_ok (new_key t c 0) = true ->
  let s := modified_base t c in
  plus_free s /\
  (if bytes_eqb s (B "plus") || bytes_eqb s (B "+") then Some (new_key K_ch "+"%char 0) else tui_key_base_from_name s) =
  Some (new_key (if bool_decide (t = K_ctrl) then K_ch else t) c 0) /\ s <> [].
Proof.
  intros Hb. destruct t; try done; try (apply byte_eqb_eq in Hb; cbn in Hb; subst c; vm_compute; by split_and!);
  destruct c as [[] [] [] [] [] [] [] []]; vm_compute in Hb; try done; vm_compute; by split_and!.
Qed.

Lemma read_own_name k : nameable k -> tui_key_from_name (tui_key_name k) = Some k.
Proof.
  intros Hk. destruct (decide (mods k = 0)) as [H0|H0].
  - destruct Hk as (Hm & Hb & Hn & Hk). rewrite H0 in Hk. unfold tui_key_name. rewrite H0. simpl.
    destruct (base_name_read (kind k) (ch k) Hb) as (H1 & H2 & H3 & _). rewrite <- Hk in *. unfold tui_key_from_name. by rewrite mod_words_end.
  - destruct (name_split k Hk H0) as (-> & Ha & Ha0). destruct Hk as (Hm & Hb & Hn & Hk).
    destruct k as [t c m r l b p]. cbn [mods kind ch] in *. injection Hk as -> -> -> ->. unfold tui_key_from_name.
    destruct (modified_base_read t c Hb) as (H1 & H2 & H3). rewrite prefix_read by (done || by apply prefix_length).
    rewrite (proj2 (Z.eqb_neq _ _) Ha0), H2. unfold all_mods, is_key. cbn [mbind option_bind kind mods new_key Z.lor]. f_equal.
    destruct (decide (t = K_ctrl)) as [->|Ht].
    + rewrite bool_decide_eq_true_2 by done. unfold set_mods, new_key in *. cbn [kind ch mods row col button phase].
      rewrite normalized_ctrl in Hn. injection Hn as Hn. destruct (has_zero m Hm) as (Hz & H4 & _).
      { unfold has. rewrite <- Hn, <- Z.land_assoc. apply negb_false_iff, Z.eqb_eq. by rewrite Z.land_0_r. }
      rewrite Z.lor_0_l, normalized_ch.
      assert (has (Z.lor m ctrl) ctrl = true) as ->.
      { unfold has. apply negb_true_iff, Z.eqb_neq. intros E. rewrite Z.land_lor_distr_l in E. by apply Z.lor_eq_0_iff in E as [_ ?]. }
      unfold base_ok in Hb. cbn in Hb. rewrite (tolower_ctrl c Hb), Hb, Hz. done.
    + rewrite !(bool_decide_eq_false_2 (t = K_ctrl)) by done. exact Hn.
Qed.

(** What spellings name. *)
Lemma base_from_name_ok s k : tui_key_base_from_name s = Some k -> base_ok k = true /\ k = new_key (kind k) (ch k) 0.
Proof.
  unfold tui_key_base_from_name. destruct (is_nil s); [done|]. destruct (is_ctrl_name s).
  - destruct (_ && _) eqn:E; [done|]. intros [= <-]. split; [|done]. unfold base_ok. cbn [kind new_key ch].
    by destruct (islower _), (ctrl_punct _).
  - destruct (is_char_name s) eqn:Ec.
    + intros [= <-]. unfold is_char_name in Ec. apply andb_true_iff in Ec as [_ Ec]. by split.
    + destruct (fkey_shaped s).
      * destruct (_ || _) eqn:E; [done|]. intros [= <-]. split; [|done]. unfold base_ok, in_range. cbn [kind new_key ch].
        apply orb_false_iff in E as [E1 E2]. apply Z.ltb_ge in E1, E2. rewrite code_to_byte_small by lia.
        apply andb_true_iff. split; apply Z.leb_le; lia.
      * cbn [named named_key]. repeat (destruct (bytes_eqb s _); [intros [= <-]; by split|]). done.
Qed.

Lemma lor_mods a b : 0 <= a < 16 -> 0 <= b < 16 -> 0 <= Z.lor a b < 16.
Proof.
  intros Ha Hb. destruct (mods_cases b Hb) as [->|[->|[->|[->|[->|[->|[->|[->|[->|[->|[->|[->|[->|[->|[->| ->]]]]]]]]]]]]]]];
  destruct (mods_cases a Ha) as [->|[->|[->|[->|[->|[->|[->|[->|[->|[->|[->|[->|[->|[->|[->| ->]]]]]]]]]]]]]]]; by vm_compute.
Qed.
Lemma word_range w : 0 <= key_mod_of_word w < 16.
Proof. unfold key_mod_of_word, key_primary_mod. repeat destruct (bytes_eqb _ _); try by vm_compute. by destruct apple. Qed.
Lemma mod_words_range n m s : 0 <= m < 16 -> 0 <= (mod_words n m s).1 < 16.
Proof.
  revert m s. induction n as [|n IH]; intros m s Hm; [done|]. simpl. destruct (find_char _ s) as [[|k]|]; [done| |done].
  destruct (_ =? 0); [done|]. apply IH, lor_mods; [done|apply word_range].
Qed.

Lemma named_nameable s k : tui_key_from_name s = Some k -> nameable k.
Proof.
  unfold tui_key_from_name. pose proof (mod_words_range (length s) 0 s ltac:(lia)) as Hm. destruct (mod_words _ _ _) as [m base].
  cbn [fst] in Hm. assert (Hbase : forall t c, base_ok (new_key t c 0) = true -> nameable (new_key t c 0)).
  { intros t c Hb. apply nameable_intro; [lia|done|]. destruct (decide (t = K_ch)) as [->|?]; [by unfold new_key; rewrite normalized_ch|].
    destruct (decide (t = K_ctrl)) as [->|?]; [done|by apply normalized_other]. }
  destruct (m =? 0).
  - intros H1. destruct (base_from_name_ok s k H1) as [H2 H3]. rewrite H3 in *. by apply Hbase.
  - destruct (_ || _); cbn [mbind option_bind].
    + intros [= <-]. by apply normalized_nameable.
    + destruct (tui_key_base_from_name base) as [k0|] eqn:E; [|done]. intros [= <-]. destruct (base_from_name_ok base k0 E) as [H2 H3].
      rewrite H3 in H2 |- *. by apply normalized_nameable.
Qed.

(** A key's spelling names the key: the modifiers in one order before the
    base, control chords with and without other modifiers, the plus and the blank
    that are spelled out, all read back as the key they were written for; and any
    spelling, in whatever case and order its modifiers are written, names a key in
    canonical form, which its own spelling names again. *)
Theorem name_roundtrip :
  (forall k, nameable k -> tui_key_from_name (tui_key_name k) = Some k) /\
  (forall s k, tui_key_from_name s = Some k -> nameable k /\ tui_key_from_name (tui_key_name k) = Some k).
Proof. split; [apply read_own_name|]. intros s k H1. pose proof (named_nameable s k H1). split; [done|by apply read_own_name]. Qed.
End Spelling.

Lemma name_roundtrip_witness : let k := new_key K_ctrl "s"%char shift in
  tui_key_name k = B "ctrl+shift+s" /\ tui_key_from_name (tui_key_name k) = Some k /\ nameable (new_key K_ch "+"%char (Z.lor alt ctrl)).
Proof.
  split; [vm_compute; reflexivity|]. split.
  - apply (proj2 name_roundtrip (B "ctrl+shift+s")). vm_compute. reflexivity.
  - apply (proj2 name_roundtrip (B "ALT+Ctrl+plus")). vm_compute. reflexivity.
Defined.
