(* ===== verification/KeyParse.v ===== *)
(** The terminal's bytes as keys and back: [tui_keyparse], [tui_key_bytes] and the
    function keys' table of [src/include/madcdis/tui_keyparse.h].

    The parser is a machine on bytes ([feed_byte]) that the reader feeds and,
    when the input pauses, flushes.  [keys_read_back]: the bytes of a key it gave
    read as that key, but for the keys [exempt] lists; [paste_keys]: what stands
    between the markers of a paste is text, with its line breaks made one. *)
From S2P Require Import Prelude Numbers Keys.
#[local] Open Scope Z_scope.

(** ** Function keys *)

Definition tilde_codes : list Z := [0; 11; 12; 13; 14; 15; 17; 18; 19; 20; 21; 23; 24].
Definition fkey_tilde_code (n : Z) : Z := if (1 <=? n) && (n <=? 12) then nth (Z.to_nat n) tilde_codes 0 else 0.
Definition fkey_of_tilde_code (c : Z) : Z :=
  match list_find (fun n => fkey_tilde_code n = c) (seqZ 1 12) with Some (_, n) => n | None => 0 end.

(** ** The parser *)

Inductive state := S_normal | S_esc | S_csi | S_ss3 | S_console_fkey | S_paste.
#[export] Instance state_eq : EqDecision state.
Proof. solve_decision. Defined.
Record tui_keyparse := Keyparse { _st : state; _params : bytes; _paste_end : bytes; _paste_cr : bool }.
Definition new_parser : tui_keyparse := Keyparse S_normal [] [] false.
Definition set_st (p : tui_keyparse) (s : state) : tui_keyparse := Keyparse s (_params p) (_paste_end p) (_paste_cr p).

Definition emit (k : key) (c : ascii) (m : Z) : list tui_keyev := [key_normalized (new_key k c m)].

Definition emit_code (c m : Z) : list tui_keyev :=
  if c =? 9 then emit K_tab Ascii.zero m
  else if c =? 13 then emit K_enter Ascii.zero m
  else if c =? 27 then emit K_esc Ascii.zero m
  else if (c =? 8) || (c =? 127) then emit K_backspace Ascii.zero m
  else if (0x20 <=? c) && (c <=? 0x7e) then emit K_ch (to_byte c) m
  else [].

(** [int p[3]]: at most three numbers between semicolons. *)
Fixpoint numbers (n : nat) (s : bytes) : list Z :=
  match n with
  | O => []
  | S n => match find_char ";"%char s with
           | None => [atoi s]
           | Some i => atoi (take i s) :: numbers n (drop (S i) s)
           end
  end.

Definition which_button (b : Z) : tui_button := if b =? 0 then B_left else if b =? 1 then B_middle else B_right.

(** [None]: not that report. *)
Definition resolve_sgr_mouse (params : bytes) (final_byte : ascii) : option (list tui_keyev) :=
  let up := byte_eqb final_byte "m"%char in
  if negb (byte_eqb (at_ params 0) "<"%char) || negb (byte_eqb final_byte "M"%char || up) then None
  else
    match numbers 3 (drop 1 params) with
    | [b; x; y] =>
        if (x <? 1) || (y <? 1) then Some []
        else
          let m := Z.lor (if has b 4 then shift else 0) (Z.lor (if has b 8 then alt else 0) (if has b 16 then ctrl else 0)) in
          let at_cell btn ph := Some [Keyev K_pointer Ascii.zero m ((y - 1) mod 2 ^ 16) ((x - 1) mod 2 ^ 16) btn ph] in
          if has b 64 then
            if up then Some [] else at_cell (if has b 1 then B_wheel_down else B_wheel_up) P_down
          else if Z.land b 3 =? 3 then Some []
          else at_cell (which_button (Z.land b 3)) (if up then P_up else if has b 32 then P_drag else P_down)
    | _ => Some []
    end.

(** A final byte that names a key by itself. *)
Definition csi_key (c : ascii) : option key :=
  if byte_eqb c "A"%char then Some K_up else if byte_eqb c "B"%char then Some K_down
  else if byte_eqb c "C"%char then Some K_right else if byte_eqb c "D"%char then Some K_left
  else if byte_eqb c "H"%char then Some K_home else if byte_eqb c "F"%char then Some K_end else None.

(** The number of a tilde sequence. *)
Definition tilde_key (n : Z) : option key :=
  if (n =? 1) || (n =? 7) then Some K_home else if (n =? 4) || (n =? 8) then Some K_end
  else if n =? 2 then Some K_ins else if n =? 3 then Some K_del
  else if n =? 5 then Some K_pgup else if n =? 6 then Some K_pgdn else None.

Definition resolve_csi (params : bytes) (final_byte : ascii) : list tui_keyev :=
  match resolve_sgr_mouse params final_byte with
  | Some out => out
  | None =>
      let p := numbers 3 params in
      let p0 := nth 0 p 0 in let p1 := nth 1 p 0 in let p2 := nth 2 p 0 in
      let m := if 1 <? p1 then (p1 - 1) mod 2 ^ 8 else 0 in
      match csi_key final_byte with
      | Some k => emit k Ascii.zero m
      | None =>
          if in_range 80 83 final_byte then emit K_fkey (to_byte (code final_byte - 80 + 1)) m
          else if byte_eqb final_byte "Z"%char then emit K_tab Ascii.zero (Z.lor m shift)
          else if byte_eqb final_byte "u"%char then emit_code p0 m
          else if byte_eqb final_byte "~"%char then
            match tilde_key p0 with
            | Some k => emit k Ascii.zero m
            | None =>
                if p0 =? 27 then emit_code p2 m
                else let n := fkey_of_tilde_code p0 in if n =? 0 then [] else emit K_fkey (to_byte n) m
            end
          else []
      end
  end.

(** A pasted byte: the text and the next [_paste_cr]. *)
Definition paste_byte (cr : bool) (b : ascii) : bool * list tui_keyev :=
  (byte_eqb b c_cr, if byte_eqb b c_nl && cr then [] else emit K_ch (if byte_eqb b c_cr then c_nl else b) 0).
Fixpoint paste_bytes (cr : bool) (s : bytes) : bool * list tui_keyev :=
  match s with
  | [] => (cr, [])
  | b :: r => let '(cr, out) := paste_byte cr b in let '(cr, out') := paste_bytes cr r in (cr, out ++ out')
  end.

Definition ESC : ascii := "027"%char.
Definition DEL : ascii := "127"%char.
Definition BS : ascii := "008"%char.
Definition end_marker : bytes := ESC :: B "[201~".

Definition feed_normal (p : tui_keyparse) (b : ascii) : tui_keyparse * list tui_keyev :=
  let p := set_st p S_normal in
  if byte_eqb b ESC then (set_st p S_esc, [])
  else (p, if byte_eqb b c_cr || byte_eqb b c_nl then emit K_enter Ascii.zero 0
           else if byte_eqb b c_tab then emit K_tab Ascii.zero 0
           else if byte_eqb b DEL || byte_eqb b BS then emit K_backspace Ascii.zero 0
           else if in_range 0x01 0x1a b then emit K_ctrl (to_byte (code b + 96)) 0
           else if in_range 0x1c 0x1f b then emit K_ctrl (to_byte (code b + 0x40)) 0
           else if 0x20 <=? code b then emit K_ch b 0
           else emit K_ch " "%char ctrl).

(** [feed_byte] of a state that calls itself for a byte it does not take; [None]:
    the calls do not end. *)
Fixpoint feed_byte (fuel : nat) (p : tui_keyparse) (b : ascii) : option (tui_keyparse * list tui_keyev) :=
  match fuel with
  | O => None
  | S f =>
      match _st p with
      | S_paste =>
          if byte_eqb b (at_ end_marker (length (_paste_end p))) then
            let e := _paste_end p ++ [b] in
            Some (if (length e =? length end_marker)%nat then (Keyparse S_normal (_params p) [] (_paste_cr p), [])
                  else (Keyparse S_paste (_params p) e (_paste_cr p), []))
          else if negb (is_nil (_paste_end p)) then
            let '(cr, out) := paste_bytes (_paste_cr p) (_paste_end p) in
            '(p, out') ← feed_byte f (Keyparse S_paste (_params p) [] cr) b;
            Some (p, out ++ out')
          else
            let '(cr, out) := paste_byte (_paste_cr p) b in Some (Keyparse S_paste (_params p) [] cr, out)
      | S_esc =>
          if byte_eqb b "["%char then Some (Keyparse S_csi [] (_paste_end p) (_paste_cr p), [])
          else if byte_eqb b "O"%char then Some (set_st p S_ss3, [])
          else if in_range 0x20 0x7e b then Some (set_st p S_normal, emit K_ch b alt)
          else '(p, out) ← feed_byte f (set_st p S_normal) b; Some (p, emit K_esc Ascii.zero 0 ++ out)
      | S_csi =>
          Some (if byte_eqb b "["%char && is_nil (_params p) then (set_st p S_console_fkey, [])
                else if in_range 0x40 0x7e b then
                  if byte_eqb b "~"%char && bytes_eqb (_params p) (B "200") then (Keyparse S_paste (_params p) [] false, [])
                  else (set_st p S_normal, resolve_csi (_params p) b)
                else if (length (_params p) <? 16)%nat then (Keyparse S_csi (_params p ++ [b]) (_paste_end p) (_paste_cr p), [])
                else (set_st p S_normal, []))
      | S_ss3 =>
          Some (set_st p S_normal,
                match csi_key b with
                | Some k => emit k Ascii.zero 0
                | None => if in_range 80 83 b then emit K_fkey (to_byte (code b - 80 + 1)) 0 else []
                end)
      | S_console_fkey =>
          Some (set_st p S_normal, if in_range 65 69 b then emit K_fkey (to_byte (code b - 65 + 1)) 0 else [])
      | S_normal => Some (feed_normal p b)
      end
  end.

Fixpoint feed (p : tui_keyparse) (s : bytes) : option (tui_keyparse * list tui_keyev) :=
  match s with
  | [] => Some (p, [])
  | b :: r => '(p, out) ← feed_byte 2 p b; '(p, out') ← feed p r; Some (p, out ++ out')
  end.

Definition pending (p : tui_keyparse) : bool := negb (bool_decide (_st p = S_normal)) && negb (bool_decide (_st p = S_paste)).
Definition flush (p : tui_keyparse) : tui_keyparse * list tui_keyev :=
  match _st p with
  | S_paste => (p, [])
  | S_esc => (Keyparse S_normal [] (_paste_end p) (_paste_cr p), emit K_esc Ascii.zero 0)
  | _ => (Keyparse S_normal [] (_paste_end p) (_paste_cr p), [])
  end.

(** ** A key's bytes *)

Definition csi (s : bytes) : bytes := ESC :: "["%char :: s.

Definition tui_key_base_bytes (k : tui_keyev) : bytes :=
  match kind k with
  | K_ch => [ch k]
  | K_ctrl => if islower (ch k) then [to_byte (code (ch k) - 96)]
              else if ctrl_punct (ch k) then [to_byte (code (ch k) - 0x40)] else []
  | K_enter => [c_cr] | K_tab => [c_tab] | K_backspace => [DEL] | K_esc => [ESC]
  | K_up => csi (B "A") | K_down => csi (B "B") | K_right => csi (B "C") | K_left => csi (B "D")
  | K_home => csi (B "H") | K_end => csi (B "F") | K_ins => csi (B "2~") | K_del => csi (B "3~")
  | K_pgup => csi (B "5~") | K_pgdn => csi (B "6~")
  | K_fkey => if in_range 1 4 (ch k) then [ESC; "O"%char; to_byte (80 + code (ch k) - 1)]
              else if in_range 5 12 (ch k) then csi (to_string (fkey_tilde_code (code (ch k))) ++ B "~") else []
  | _ => []
  end.

Definition tui_key_bytes (k : tui_keyev) : bytes :=
  if mods k =? 0 then tui_key_base_bytes k
  else
    let m := to_string (1 + if is_key K_ctrl k then Z.lor (mods k) ctrl else mods k) in
    let cursor c := csi (B "1;" ++ m ++ [c]) in
    let tilde n := csi (n ++ B ";" ++ m ++ B "~") in
    let other c := csi (B "27;" ++ m ++ B ";" ++ c ++ B "~") in
    match kind k with
    | K_up => cursor "A"%char | K_down => cursor "B"%char | K_right => cursor "C"%char | K_left => cursor "D"%char
    | K_home => cursor "H"%char | K_end => cursor "F"%char
    | K_ins => tilde (B "2") | K_del => tilde (B "3") | K_pgup => tilde (B "5") | K_pgdn => tilde (B "6")
    | K_fkey => if in_range 1 4 (ch k) then cursor (to_byte (80 + code (ch k) - 1))
                else if in_range 5 12 (ch k) then tilde (to_string (fkey_tilde_code (code (ch k)))) else []
    | K_tab => if mods k =? shift then csi (B "Z") else other (B "9")
    | K_enter => other (B "13") | K_esc => other (B "27") | K_backspace => other (B "127")
    | K_ch =>
        if byte_eqb (ch k) " "%char && (mods k =? ctrl) then [Ascii.zero]
        else if (mods k =? alt) && in_range 0x20 0x7e (ch k) then [ESC; ch k]
        else other (to_string (code (ch k)))
    | K_ctrl => other (to_string (code (if has (mods k) shift && islower (ch k) then to_byte (code (ch k) - 97 + 65) else ch k)))
    | _ => []
    end.

(** What a reader makes of some bytes and a pause. *)
Definition read (s : bytes) : option (tui_keyparse * list tui_keyev) :=
  '(p, out) ← feed new_parser s; let '(p, out') := flush p in Some (p, out ++ out').
Definition keys_of (s : bytes) : option (list bytes) := (fun r => map tui_key_name r.2) <$> read s.

Example read_ex :
  (keys_of (csi (B "1;5A") ++ [c_cr; "001"%char] ++ [ESC; "x"%char]), keys_of (csi (B "27;6;83~")), keys_of [ESC],
   keys_of (ESC :: B "OP" ++ csi (B "[C") ++ csi (B "15;2~") ++ csi (B "Z")),
   keys_of (csi (B "200~") ++ ["a"%char; c_cr; c_nl; ESC; "["%char] ++ end_marker ++ B "b")) =
  (Some [B "ctrl+up"; B "enter"; B "^a"; B "alt+x"], Some [B "ctrl+shift+s"], Some [B "esc"],
   Some [B "f1"; B "f3"; B "shift+f5"; B "shift+tab"], Some [B "a"; [c_nl]; [ESC]; B "["; B "b"]).
Proof. vm_compute. reflexivity. Qed.

(** Keys whose bytes mean something else to a terminal: what a paste gives
    literally, the control letters that are the bytes of [backspace], [tab] and
    [enter], and Alt before the byte that opens a sequence. *)
Definition exempt (k : tui_keyev) : bool :=
  match kind k with
  | K_pointer => true
  | K_ch => (mods k =? 0) && ((code (ch k) <? 0x20) || byte_eqb (ch k) DEL) || (mods k =? alt) && byte_eqb (ch k) "["%char
  | K_ctrl => (mods k =? 0) && (byte_eqb (ch k) "h"%char || byte_eqb (ch k) "i"%char || byte_eqb (ch k) "j"%char || byte_eqb (ch k) "m"%char)
  | _ => false
  end.

(** The parser gives those keys, and their bytes are read as others. *)
Example exempt_keys :
  (keys_of (csi (B "27;3;91~")), keys_of (tui_key_bytes (new_key K_ch "["%char alt)),
   keys_of (csi (B "105;5u")), keys_of (tui_key_bytes (new_key K_ctrl "i"%char 0))) =
  (Some [B "alt+["], Some [], Some [B "^i"], Some [B "tab"]).
Proof. vm_compute. reflexivity. Qed.

(** ** The keys a parser gives *)

Definition base_given (t : key) (c : ascii) (m : Z) : Prop :=
  match t with
  | K_ch => m = 0 \/ in_range 0x20 0x7e c = true
  | K_ctrl => islower c || ctrl_punct c = true
  | K_fkey => in_range 1 12 c = true
  | K_none | K_resize | K_wake | K_pointer => False
  | _ => c = Ascii.zero
  end.
Definition given (k : tui_keyev) : Prop :=
  kind k = K_pointer \/
  k = new_key (kind k) (ch k) (mods k) /\ 0 <= mods k < 256 /\ key_normalized k = k /\ base_given (kind k) (ch k) (mods k).

Lemma land_byte m : 0 <= m -> 0 <= Z.land m 251 < 256.
Proof.
  intros Hm. change 251 with (Z.land 251 (Z.ones 8)). rewrite Z.land_assoc, Z_land_low by lia. apply Z.mod_pos_bound. lia.
Qed.
Lemma lor_byte m : 0 <= m < 256 -> 0 <= Z.lor m shift < 256.
Proof.
  intros Hm. assert (Z.lor m shift = Z.lor m shift mod 2 ^ 8) as ->; [|apply Z.mod_pos_bound; lia].
  rewrite <- Z_land_low, Z.land_lor_distr_l, !Z_land_low by lia. by rewrite (Z.mod_small m) by lia.
Qed.

Lemma given_intro t c m : 0 <= m < 256 -> key_normalized (new_key t c m) = new_key t c m -> base_given t c m -> given (new_key t c m).
Proof. intros. right. by split. Qed.

Lemma emit_given t c m : 0 <= m < 256 -> base_given t c m -> Forall given (emit t c m).
Proof.
  intros Hm Hb. apply Forall_singleton. unfold emit. pose proof (key_normalized_idem (new_key t c m)) as Hn.
  pose proof (land_byte m ltac:(lia)) as Hl. destruct (decide (t = K_ch)) as [->|H1].
  - assert (Hlow : base_given K_ch (tolower c) m) by (destruct Hb as [?|?]; [by left|right; by apply lowered_ok]).
    unfold new_key in Hn |- *. rewrite normalized_ch in Hn |- *. destruct (has m ctrl).
    + destruct (islower _ || _) eqn:El; by apply given_intro.
    + destruct (has m _ && _); [by apply given_intro|]. destruct (Z.eqb_spec m shift); apply given_intro; try done. by left.
  - destruct (decide (t = K_ctrl)) as [->|H2]; unfold new_key in Hn |- *.
    + rewrite normalized_ctrl in Hn |- *. by apply given_intro.
    + rewrite normalized_other in Hn |- * by done. by apply given_intro.
Qed.

Lemma emit_code_given c m : 0 <= m < 256 -> Forall given (emit_code c m).
Proof.
  intros Hm. unfold emit_code. repeat (case_if; [by apply emit_given|]). case_if; [|constructor]. apply emit_given; [done|].
  right. unfold in_range. reflect_bool. rewrite code_to_byte_small by lia. apply andb_true_iff. split; apply Z.leb_le; lia.
Qed.

Lemma fkey_of_range c : 0 <= fkey_of_tilde_code c <= 12.
Proof.
  unfold fkey_of_tilde_code. destruct (list_find _ _) as [[i n]|] eqn:E; [|lia]. apply list_find_Some in E as (E & _ & _).
  apply lookup_seqZ in E. lia.
Qed.

Lemma csi_key_given c k m : 0 <= m < 256 -> csi_key c = Some k -> Forall given (emit k Ascii.zero m).
Proof. intros Hm H. apply emit_given; [done|]. unfold csi_key in H. repeat case_if_in H; by simplify_eq. Qed.
Lemma tilde_key_given n k m : 0 <= m < 256 -> tilde_key n = Some k -> Forall given (emit k Ascii.zero m).
Proof. intros Hm H. apply emit_given; [done|]. unfold tilde_key in H. repeat case_if_in H; by simplify_eq. Qed.
Lemma fkey_given n m : 0 <= m < 256 -> 1 <= n <= 12 -> Forall given (emit K_fkey (to_byte n) m).
Proof.
  intros Hm Hn. apply emit_given; [done|]. simpl. unfold in_range. rewrite code_to_byte_small by lia.
  apply andb_true_iff. split; apply Z.leb_le; lia.
Qed.
Lemma fkey_letter lo b m : 0 <= m < 256 -> 0 <= lo -> in_range lo (lo + 11) b = true -> Forall given (emit K_fkey (to_byte (code b - lo + 1)) m).
Proof. intros Hm Hlo Hb. apply fkey_given; [done|]. unfold in_range in Hb. reflect_bool. lia. Qed.
Lemma in_range_wider lo hi hi' c : hi <= hi' -> in_range lo hi c = true -> in_range lo hi' c = true.
Proof. unfold in_range. intros H1 H2. reflect_bool. apply andb_true_iff. split; apply Z.leb_le; lia. Qed.

Lemma resolve_csi_given s f : Forall given (resolve_csi s f).
Proof.
  unfold resolve_csi. destruct (resolve_sgr_mouse s f) as [out|] eqn:Es.
  - unfold resolve_sgr_mouse in Es. cbv zeta in Es. destruct (_ || _) in Es; [done|].
    destruct (numbers _ _) as [|b [|x [|y [|z l]]]]; try (by simplify_eq). repeat case_if_in Es; simplify_eq; by repeat constructor.
  - set (m := if _ <? _ then _ else _). assert (Hm : 0 <= m < 256) by (unfold m; case_if; [apply Z.mod_pos_bound; lia|lia]).
    destruct (csi_key f) as [k|] eqn:Ek; [by eapply csi_key_given|].
    case_if; [apply fkey_letter; [done|lia|]; by eapply in_range_wider; [|done]|].
    case_if; [apply emit_given; [by apply lor_byte|done]|]. case_if; [by apply emit_code_given|]. case_if; [|constructor].
    destruct (tilde_key _) as [k|] eqn:Et; [by eapply tilde_key_given|]. case_if; [by apply emit_code_given|].
    pose proof (fkey_of_range (nth 0 (numbers 3 s) 0)). case_if; [constructor|]. reflect_bool. apply fkey_given; [done|lia].
Qed.

Lemma ctrl_letter_given b lo : in_range 0x01 0x1a b = true -> base_given K_ctrl (to_byte (code b + 96)) lo.
Proof. destruct b as [[] [] [] [] [] [] [] []]; vm_compute; done. Qed.
Lemma ctrl_punct_given b lo : in_range 0x1c 0x1f b = true -> base_given K_ctrl (to_byte (code b + 0x40)) lo.
Proof. destruct b as [[] [] [] [] [] [] [] []]; vm_compute; done. Qed.

Lemma feed_normal_given p b : Forall given (feed_normal p b).2.
Proof.
  unfold feed_normal. case_if; [constructor|]. cbn [snd]. do 3 (case_if; [by apply emit_given|]).
  case_if; [by apply emit_given, ctrl_letter_given|]. case_if; [by apply emit_given, ctrl_punct_given|].
  case_if; apply emit_given; try done; [by left|by right].
Qed.

Lemma paste_byte_given cr b : Forall given (paste_byte cr b).2.
Proof. unfold paste_byte. cbn [snd]. case_if; [constructor|]. apply emit_given; [done|by left]. Qed.
Lemma paste_bytes_given cr s : Forall given (paste_bytes cr s).2.
Proof.
  revert cr. induction s as [|b s IH]; intros cr; [constructor|]. cbn [paste_bytes]. pose proof (paste_byte_given cr b) as Hb.
  destruct (paste_byte cr b) as [cr1 out]. specialize (IH cr1). destruct (paste_bytes cr1 s) as [cr2 out']. by apply Forall_app.
Qed.

(** One byte is always taken, in at most two calls, and gives such keys. *)
Lemma feed_byte_spec n p b : (2 <= n)%nat -> exists p' out, feed_byte n p b = Some (p', out) /\ Forall given out.
Proof.
  intros Hn. destruct n as [|[|n]]; [lia|lia|]. cbn [feed_byte]. destruct (_st p).
  - do 2 eexists. split; [apply f_equal, surjective_pairing|apply feed_normal_given].
  - case_if; [by do 2 eexists|]. case_if; [by do 2 eexists|].
    case_if; [do 2 eexists; split; [done|]; apply emit_given; [done|by right]|].
    cbn [set_st _st]. eexists _, _. cbn [mbind option_bind]. rewrite (surjective_pairing (feed_normal _ _)). split; [done|].
    apply Forall_app. split; [by apply emit_given|apply feed_normal_given].
  - do 2 eexists. split; [apply f_equal, surjective_pairing|]. repeat case_if; try constructor. apply resolve_csi_given.
  - do 2 eexists. split; [done|]. destruct (csi_key b) as [k|] eqn:Ek; [by eapply csi_key_given|]. case_if; [|constructor].
    apply fkey_letter; [done|lia|]. by eapply in_range_wider; [|done].
  - do 2 eexists. split; [done|]. case_if; [|constructor]. apply fkey_letter; [done|lia|]. by eapply in_range_wider; [|done].
  - case_if; [eexists _, _; split; [apply f_equal, surjective_pairing|]; by case_if|]. case_if.
    + pose proof (paste_bytes_given (_paste_cr p) (_paste_end p)) as H1. destruct (paste_bytes _ _) as [cr out]. cbn [_st _paste_end length].
      pose proof (paste_byte_given cr b) as H2. cbn [_paste_cr is_nil negb]. destruct (paste_byte cr b) as [cr' out'].
      case_if; cbn [mbind option_bind].
      * eexists _, _. split; [done|]. apply Forall_app. by split.
      * eexists _, _. split; [done|]. by apply Forall_app.
    + pose proof (paste_byte_given (_paste_cr p) b) as H2. destruct (paste_byte _ _) as [cr out]. by eexists _, _.
Qed.

Lemma feed_spec p s : exists p' out, feed p s = Some (p', out) /\ Forall given out.
Proof.
  revert p. induction s as [|b s IH]; intros p; [by eexists _, _|]. cbn [feed].
  destruct (feed_byte_spec 2 p b ltac:(lia)) as (p1 & o1 & -> & H1). destruct (IH p1) as (p2 & o2 & E & H2). cbn [mbind option_bind].
  rewrite E. eexists _, _. split; [done|]. by apply Forall_app.
Qed.

(** ** Reading a key's bytes *)

Lemma forall_bytes (P : ascii -> bool) : forallb P (map to_byte (seqZ 0 256)) = true -> forall c, P c = true.
Proof.
  intros H c. rewrite forallb_forall in H. apply H. rewrite <- (to_byte_code c). apply in_map, list_elem_of_In, elem_of_seqZ.
  pose proof (code_range c). lia.
Qed.

(** A sequence's parameters: no byte that ends it. *)
Definition param (c : ascii) : Prop := code c < 0x40.

Lemma feed_params a s f e cr :
  Forall param s -> (length a + length s <= 16)%nat -> in_range 0x40 0x7e f = true ->
  (byte_eqb f "["%char = false \/ a ++ s <> []) -> (byte_eqb f "~"%char = false \/ a ++ s <> B "200") ->
  feed (Keyparse S_csi a e cr) (s ++ [f]) = Some (Keyparse S_normal (a ++ s) e cr, resolve_csi (a ++ s) f).
Proof.
  intros Hs. revert a. induction Hs as [|c s Hc Hs IH]; intros a Hl Hf H1 H2.
  - rewrite app_nil_r in *. cbn [app feed feed_byte _st _params]. rewrite Hf.
    assert (byte_eqb f "["%char && is_nil a = false) as ->.
    { apply andb_false_iff. destruct H1 as [?|?]; [by left|right; by apply is_nil_false]. }
    assert (byte_eqb f "~"%char && bytes_eqb a (B "200") = false) as ->.
    { apply andb_false_iff. destruct H2 as [?|?]; [by left|right]. by apply bool_decide_eq_false. }
    cbn [mbind option_bind]. by rewrite app_nil_r.
  - cbn [app feed feed_byte _st _params]. assert (in_range 0x40 0x7e c = false) as ->.
    { unfold in_range, param in *. apply andb_false_iff. left. apply Z.leb_gt. lia. }
    assert (byte_eqb c "["%char = false) as -> by (apply byte_eqb_neq; intros ->; by vm_compute in Hc).
    cbn [andb]. rewrite (proj2 (Nat.ltb_lt _ _)) by (simpl in Hl; lia). cbn [mbind option_bind _paste_end _paste_cr].
    rewrite IH; [by rewrite <- app_assoc|rewrite length_app; simpl in *; lia|done|right; by destruct a|by rewrite <- app_assoc].
Qed.

Lemma feed_one p b r p' out : feed_byte 2 p b = Some (p', out) ->
  feed p (b :: r) = ('(p', out') ← feed p' r; Some (p', out ++ out')).
Proof. intros H. cbn [feed]. by rewrite H. Qed.
Lemma feed_csi t : feed new_parser (csi t) = feed (Keyparse S_csi [] [] false) t.
Proof.
  unfold csi. rewrite (feed_one _ _ _ (Keyparse S_esc [] [] false) []) by done. rewrite (feed_one _ _ _ (Keyparse S_csi [] [] false) []) by done.
  by destruct (feed _ t) as [[? ?]|].
Qed.

Lemma read_csi s f :
  Forall param s -> (length s <= 16)%nat -> in_range 0x40 0x7e f = true ->
  (byte_eqb f "["%char = false \/ s <> []) -> (byte_eqb f "~"%char = false \/ s <> B "200") ->
  read (csi (s ++ [f])) = Some (new_parser, resolve_csi s f).
Proof.
  intros Hs Hl Hf H1 H2. unfold read. rewrite feed_csi, feed_params by done. cbn [mbind option_bind app flush _st]. by rewrite app_nil_r.
Qed.

Lemma digits_param s : digits s -> Forall param s.
Proof. intros H. eapply Forall_impl; [exact H|]. unfold param, isdigit, in_range. intros c Hc. reflect_bool. lia. Qed.
Lemma digits_no_semi s t : digits s -> find_char ";"%char (s ++ ";"%char :: t) = Some (length s).
Proof.
  induction 1 as [|c s Hc _ IH]; [done|]. simpl. rewrite IH. assert (byte_eqb c ";"%char = false) as ->; [|done].
  apply byte_eqb_neq. by intros ->.
Qed.
Lemma digits_semi_none s : digits s -> find_char ";"%char s = None.
Proof. intros H. apply find_char_None. intros Hin. unfold digits in H. rewrite Forall_forall in H. by specialize (H _ Hin). Qed.

(** The numbers back from their texts. *)
Lemma numbers_last n v : 0 <= v < 2 ^ 31 -> numbers (S n) (to_string v) = [v].
Proof.
  intros Hv. destruct (to_string_digits v Hv) as (Hd & _). cbn [numbers]. rewrite digits_semi_none by done.
  rewrite <- (app_nil_r (to_string v)). by rewrite atoi_to_string.
Qed.
Lemma numbers_semi n v t : 0 <= v < 2 ^ 31 -> numbers (S n) (to_string v ++ ";"%char :: t) = v :: numbers n t.
Proof.
  intros Hv. destruct (to_string_digits v Hv) as (Hd & _). cbn [numbers]. rewrite digits_no_semi by done.
  rewrite take_app_length, drop_past. f_equal. rewrite <- (app_nil_r (to_string v)). by rewrite atoi_to_string.
Qed.

Lemma short_number v : 0 <= v < 300 -> (length (to_string v) <= 3)%nat.
Proof.
  intros Hv. apply Nat.leb_le. revert v Hv. change 300 with (Z.of_nat 300). intros v Hv.
  apply (Z_forall_below 300 (fun v => (length (to_string v) <=? 3)%nat)); [vm_compute; reflexivity|done].
Qed.

(** A sequence of two numbers, and of three. *)
Definition two (n m : Z) : bytes := to_string n ++ ";"%char :: to_string m.
Definition three (n m v : Z) : bytes := to_string n ++ ";"%char :: to_string m ++ ";"%char :: to_string v.

Lemma number_params v : 0 <= v < 300 -> Forall param (to_string v) /\ (length (to_string v) <= 3)%nat /\ to_string v <> [] /\
  byte_eqb (at_ (to_string v) 0) "<"%char = false.
Proof.
  intros Hv. destruct (to_string_digits v ltac:(lia)) as (Hd & Hn & _). split_and!; [by apply digits_param|by apply short_number|done|].
  destruct (to_string v) as [|c s] eqn:E; [done|]. apply byte_eqb_neq. cbn. intros ->. by apply Forall_inv in Hd.
Qed.

Lemma at_app_head s t : s <> [] -> at_ (s ++ t) 0 = at_ s 0.
Proof. by destruct s. Qed.

Lemma not_sgr s f : byte_eqb (at_ s 0) "<"%char = false -> resolve_sgr_mouse s f = None.
Proof. intros H. unfold resolve_sgr_mouse. by rewrite H. Qed.

Lemma read_two n m f : 0 <= n < 300 -> 1 < m < 300 -> in_range 0x40 0x7e f = true ->
  read (csi (two n m ++ [f])) = Some (new_parser, resolve_csi (two n m) f) /\
  numbers 3 (two n m) = [n; m] /\ resolve_sgr_mouse (two n m) f = None.
Proof.
  intros Hn Hm Hf. destruct (number_params n Hn) as (P1 & L1 & N1 & S1), (number_params m ltac:(lia)) as (P2 & L2 & N2 & S2). unfold two. split_and!.
  - apply read_csi; [apply Forall_app; split; [done|by constructor]|rewrite length_app; simpl; lia|done|right; by destruct (to_string n)|].
    right. intros E. assert (Hin : ";"%char ∈ to_string n ++ ";"%char :: to_string m) by (apply elem_of_app; right; apply elem_of_cons; by left).
    rewrite E in Hin. vm_compute in Hin. by repeat (apply elem_of_cons in Hin as [Hin|Hin]; [done|]); apply elem_of_nil in Hin.
  - rewrite numbers_semi, numbers_last by lia. done.
  - apply not_sgr. by rewrite at_app_head.
Qed.

Lemma read_three n m v : 0 <= n < 300 -> 1 < m < 300 -> 0 <= v < 300 ->
  read (csi (three n m v ++ B "~")) = Some (new_parser, resolve_csi (three n m v) "~"%char) /\
  numbers 3 (three n m v) = [n; m; v] /\ resolve_sgr_mouse (three n m v) "~"%char = None.
Proof.
  intros Hn Hm Hv. destruct (number_params n Hn) as (P1 & L1 & N1 & S1), (number_params m ltac:(lia)) as (P2 & L2 & N2 & S2),
    (number_params v Hv) as (P3 & L3 & N3 & S3). unfold three. split_and!.
  - apply read_csi; [repeat (apply Forall_app; split; [done|]; constructor; [done|]); done|repeat (rewrite length_app; simpl); lia|done|by left|].
    right. intros E. assert (Hin : ";"%char ∈ to_string n ++ ";"%char :: to_string m ++ ";"%char :: to_string v)
      by (apply elem_of_app; right; apply elem_of_cons; by left).
    rewrite E in Hin. vm_compute in Hin. by repeat (apply elem_of_cons in Hin as [Hin|Hin]; [done|]); apply elem_of_nil in Hin.
  - rewrite !numbers_semi, numbers_last by lia. done.
  - apply not_sgr. by rewrite at_app_head.
Qed.

Section Modified.
Variable m : Z.
Hypothesis Hm : 0 < m < 256.

Lemma csi_mods : (if 1 <? 1 + m then (1 + m - 1) mod 2 ^ 8 else 0) = m.
Proof. rewrite (proj2 (Z.ltb_lt _ _)) by lia. rewrite Z.mod_small by lia. lia. Qed.

Lemma read_cursor f k : csi_key f = Some k -> in_range 0x40 0x7e f = true ->
  read (csi (B "1;" ++ to_string (1 + m) ++ [f])) = Some (new_parser, emit k Ascii.zero m).
Proof.
  intros Hk Hf. destruct (read_two 1 (1 + m) f ltac:(lia) ltac:(lia) Hf) as (Hr & Hn & Hs).
  change (B "1;" ++ to_string (1 + m) ++ [f]) with (two 1 (1 + m) ++ [f]). rewrite Hr. unfold resolve_csi.
  rewrite Hs, Hn. cbv zeta. cbn [nth]. by rewrite csi_mods, Hk.
Qed.
Lemma read_fkey_cursor c : in_range 1 4 c = true ->
  read (csi (B "1;" ++ to_string (1 + m) ++ [to_byte (80 + code c - 1)])) = Some (new_parser, emit K_fkey c m).
Proof.
  intros Hc. set (f := to_byte (80 + code c - 1)).
  assert (Hf : in_range 0x40 0x7e f = true /\ csi_key f = None /\ in_range 80 83 f = true /\ to_byte (code f - 80 + 1) = c).
  { subst f. by destruct c as [[] [] [] [] [] [] [] []]; vm_compute in Hc; try done; vm_compute. }
  destruct Hf as (Hf & Hk & H80 & Hb). destruct (read_two 1 (1 + m) f ltac:(lia) ltac:(lia) Hf) as (Hr & Hn & Hs).
  change (B "1;" ++ to_string (1 + m) ++ [f]) with (two 1 (1 + m) ++ [f]). rewrite Hr. unfold resolve_csi.
  rewrite Hs, Hn. cbv zeta. cbn [nth]. by rewrite csi_mods, Hk, H80, Hb.
Qed.

(** A tilde sequence of two numbers. *)
Lemma tilde_two n : 0 <= n < 300 ->
  read (csi (to_string n ++ B ";" ++ to_string (1 + m) ++ B "~")) =
  Some (new_parser, match tilde_key n with
                    | Some k => emit k Ascii.zero m
                    | None => if n =? 27 then emit_code 0 m
                              else if fkey_of_tilde_code n =? 0 then [] else emit K_fkey (to_byte (fkey_of_tilde_code n)) m
                    end).
Proof.
  intros Hn0. destruct (read_two n (1 + m) "~"%char Hn0 ltac:(lia) eq_refl) as (Hr & Hn & Hs).
  replace (to_string n ++ B ";" ++ to_string (1 + m) ++ B "~") with (two n (1 + m) ++ ["~"%char]) by (unfold two; by rewrite <- app_assoc).
  rewrite Hr. unfold resolve_csi. rewrite Hs, Hn. cbv zeta. cbn [nth]. by rewrite csi_mods.
Qed.

(** [modifyOtherKeys]. *)
Lemma read_other v : 0 <= v < 300 ->
  read (csi (B "27;" ++ to_string (1 + m) ++ B ";" ++ to_string v ++ B "~")) = Some (new_parser, emit_code v m).
Proof.
  intros Hv. destruct (read_three 27 (1 + m) v ltac:(lia) ltac:(lia) Hv) as (Hr & Hn & Hs).
  replace (B "27;" ++ to_string (1 + m) ++ B ";" ++ to_string v ++ B "~") with (three 27 (1 + m) v ++ B "~").
  - rewrite Hr. unfold resolve_csi. rewrite Hs, Hn. cbv zeta. cbn [nth]. by rewrite csi_mods.
  - unfold three. change (to_string 27) with (B "27"). simpl. by rewrite <- app_assoc.
Qed.
End Modified.

Lemma emit_fixed t c m : key_normalized (new_key t c m) = new_key t c m -> emit t c m = [new_key t c m].
Proof. intros H. unfold emit. by rewrite H. Qed.
Lemma emit_code_char c m : in_range 0x20 0x7e c = true -> emit_code (code c) m = emit K_ch c m.
Proof.
  intros H. unfold in_range in H. reflect_bool. unfold emit_code.
  rewrite !(proj2 (Z.eqb_neq (code c) _)), !(proj2 (Z.leb_le _ _)) by lia. cbn [orb andb]. by rewrite to_byte_code.
Qed.

(** The unmodified keys' bytes. *)
Lemma plain_reads t c : base_given t c 0 -> exempt (new_key t c 0) = false ->
  read (tui_key_base_bytes (new_key t c 0)) = Some (new_parser, [new_key t c 0]).
Proof.
  intros Hb He. destruct t; try done; try (simpl in Hb; subst c; vm_compute; reflexivity);
  destruct c as [[] [] [] [] [] [] [] []]; try (vm_compute in He; discriminate); try (vm_compute in Hb; discriminate); vm_compute; reflexivity.
Qed.

Lemma modified_ch c m : 0 < m < 256 -> in_range 0x20 0x7e c = true -> key_normalized (new_key K_ch c m) = new_key K_ch c m ->
  exempt (new_key K_ch c m) = false ->
  read (if byte_eqb c " "%char && (m =? ctrl) then [Ascii.zero]
        else if (m =? alt) && in_range 0x20 0x7e c then [ESC; c]
        else csi (B "27;" ++ to_string (1 + m) ++ B ";" ++ to_string (code c) ++ B "~")) = Some (new_parser, emit K_ch c m).
Proof.
  intros Hm Hc Hn He. case_if; [reflect_bool; subst; vm_compute; reflexivity|]. rewrite Hc, andb_true_r.
  destruct (Z.eqb_spec m alt) as [->|_].
  - destruct c as [[] [] [] [] [] [] [] []]; try (vm_compute in He; discriminate); try (vm_compute in Hc; discriminate);
      try (vm_compute in Hn; discriminate); vm_compute; reflexivity.
  - pose proof (code_range c). rewrite (read_other m Hm) by (unfold in_range in Hc; reflect_bool; lia). by rewrite emit_code_char.
Qed.

Lemma ctrl_letter c m : islower c || ctrl_punct c = true ->
  let c' := if has m shift && islower c then to_byte (code c - 97 + 65) else c in
  in_range 0x20 0x7e c' = true /\ tolower c' = c.
Proof. intros H. destruct (has m shift); destruct c as [[] [] [] [] [] [] [] []]; vm_compute in H |- *; done. Qed.

Lemma modified_ctrl c m : 0 < m < 256 -> islower c || ctrl_punct c = true -> key_normalized (new_key K_ctrl c m) = new_key K_ctrl c m ->
  read (csi (B "27;" ++ to_string (1 + Z.lor m ctrl) ++ B ";" ++
             to_string (code (if has m shift && islower c then to_byte (code c - 97 + 65) else c)) ++ B "~")) =
  Some (new_parser, emit K_ctrl c m).
Proof.
  intros Hm Hc Hn. destruct (ctrl_letter c m Hc) as [H1 H2]. set (c' := if has m shift && islower c then _ else c) in *.
  rewrite (emit_fixed _ _ _ Hn). unfold new_key in Hn. rewrite normalized_ctrl in Hn. injection Hn as Hn.
  assert (Hl : 0 < Z.lor m ctrl < 256).
  { assert (Z.lor m ctrl = Z.lor m ctrl mod 2 ^ 8) as ->.
    - rewrite <- Z_land_low, Z.land_lor_distr_l, !Z_land_low by lia. by rewrite (Z.mod_small m) by lia.
    - pose proof (Z.mod_pos_bound (Z.lor m ctrl) (2 ^ 8) ltac:(lia)) as Hb.
      assert (Z.lor m ctrl mod 2 ^ 8 <> 0) by (rewrite <- Z_land_low, Z.land_lor_distr_l, !Z_land_low by lia; rewrite Z.mod_small by lia;
        intros E; by apply Z.lor_eq_0_iff in E as [_ ?]). lia. }
  assert (0 <= code c' < 300) by (pose proof (code_range c'); lia). rewrite read_other, emit_code_char by done.
  unfold emit, new_key. rewrite normalized_ch, H2, Hc. assert (has (Z.lor m ctrl) ctrl = true) as ->.
  { unfold has. apply negb_true_iff, Z.eqb_neq. intros E. rewrite Z.land_lor_distr_l in E. by apply Z.lor_eq_0_iff in E as [_ ?]. }
  by rewrite Z.land_lor_distr_l, Hn, Z.lor_0_r.
Qed.

Lemma modified_tab m : 0 < m < 256 ->
  read (if m =? shift then csi (B "Z") else csi (B "27;" ++ to_string (1 + m) ++ B ";" ++ B "9" ++ B "~")) = Some (new_parser, emit K_tab Ascii.zero m).
Proof.
  intros Hm. destruct (Z.eqb_spec m shift) as [->|_]; [vm_compute; reflexivity|].
  change (csi (B "27;" ++ to_string (1 + m) ++ B ";" ++ B "9" ++ B "~")) with (csi (B "27;" ++ to_string (1 + m) ++ B ";" ++ to_string 9 ++ B "~")).
  by rewrite (read_other m Hm 9).
Qed.

Lemma modified_fkey c m : 0 < m < 256 -> in_range 1 12 c = true ->
  read (if in_range 1 4 c then csi (B "1;" ++ to_string (1 + m) ++ [to_byte (80 + code c - 1)])
        else if in_range 5 12 c then csi (to_string (fkey_tilde_code (code c)) ++ B ";" ++ to_string (1 + m) ++ B "~") else []) =
  Some (new_parser, emit K_fkey c m).
Proof.
  intros Hm Hc. destruct (in_range 1 4 c) eqn:E1; [by apply read_fkey_cursor|].
  assert (H : in_range 5 12 c = true /\ let n := fkey_tilde_code (code c) in
    0 <= n < 300 /\ tilde_key n = None /\ (n =? 27) = false /\ (fkey_of_tilde_code n =? 0) = false /\ to_byte (fkey_of_tilde_code n) = c).
  { destruct c as [[] [] [] [] [] [] [] []]; try (vm_compute in Hc; discriminate); try (vm_compute in E1; discriminate); by vm_compute. }
  destruct H as (-> & Hn & H1 & H2 & H3 & H4). rewrite tilde_two by done. by rewrite H1, H2, H3, H4.
Qed.

Lemma modified_reads t c m : 0 < m < 256 -> base_given t c m -> key_normalized (new_key t c m) = new_key t c m ->
  exempt (new_key t c m) = false -> read (tui_key_bytes (new_key t c m)) = Some (new_parser, [new_key t c m]).
Proof.
  intros Hm Hb Hn He. rewrite <- (emit_fixed t c m Hn). unfold tui_key_bytes. cbn [mods kind ch new_key].
  rewrite (proj2 (Z.eqb_neq m 0)) by lia. assert (Hc : t <> K_ctrl -> is_key K_ctrl (new_key t c m) = false).
  { intros H. by apply bool_decide_eq_false. }
  destruct t; try contradiction; cbn [base_given] in Hb; try (rewrite Hc by discriminate; clear Hc); try subst c; cbv zeta.
  - destruct Hb as [?|Hb]; [lia|by apply modified_ch].
  - by apply modified_ctrl.
  - change (B "13") with (to_string 13). by rewrite (read_other m Hm 13).
  - by apply modified_tab.
  - change (B "127") with (to_string 127). by rewrite (read_other m Hm 127).
  - change (csi (B "27;" ++ to_string (1 + m) ++ B ";" ++ B "27" ++ B "~")) with
      (csi (B "27;" ++ to_string (1 + m) ++ B ";" ++ to_string 27 ++ B "~")). by rewrite (read_other m Hm 27).
  - by rewrite (read_cursor m Hm "A" K_up).
  - by rewrite (read_cursor m Hm "B" K_down).
  - by rewrite (read_cursor m Hm "D" K_left).
  - by rewrite (read_cursor m Hm "C" K_right).
  - by rewrite (read_cursor m Hm "H" K_home).
  - by rewrite (read_cursor m Hm "F" K_end).
  - change (B "5") with (to_string 5). by rewrite (tilde_two m Hm 5).
  - change (B "6") with (to_string 6). by rewrite (tilde_two m Hm 6).
  - change (B "3") with (to_string 3). by rewrite (tilde_two m Hm 3).
  - change (B "2") with (to_string 2). by rewrite (tilde_two m Hm 2).
  - by apply modified_fkey.
Qed.

Lemma given_reads k : given k -> exempt k = false -> read (tui_key_bytes k) = Some (new_parser, [k]).
Proof.
  intros [H|(Hk & Hm & Hn & Hb)] He; [unfold exempt in He; by rewrite H in He|]. rewrite Hk in Hn, He |- *.
  destruct (decide (mods k = 0)) as [H0|H0]; [|apply modified_reads; [lia|done..]].
  rewrite H0 in *. unfold tui_key_bytes. cbn [mods new_key Z.eqb]. by apply plain_reads.
Qed.

(** C28: Any bytes fed to the parser in any state, and the pause after them, give
    keys, and the bytes written for such a key are read as that key and nothing
    else, the parser where it was: modified keys, control chords, the function
    keys' three families.  Left out are the keys of [exempt]. *)
Theorem keys_read_back p s :
  exists p' out, feed p s = Some (p', out) /\
    Forall (fun k => exempt k = false -> read (tui_key_bytes k) = Some (new_parser, [k])) (out ++ (flush p').2).
Proof.
  destruct (feed_spec p s) as (p' & out & H1 & H2). exists p', out. split; [done|]. apply Forall_app. split.
  - eapply Forall_impl; [exact H2|]. apply given_reads.
  - unfold flush. destruct (_st p'); try apply Forall_nil_2. eapply Forall_impl; [by apply (emit_given K_esc Ascii.zero 0)|]. apply given_reads.
Qed.

(** ** Pastes *)

(** Line breaks made one: [CR LF], [CR] and [LF]. *)
Fixpoint unix_lines (s : bytes) : bytes :=
  match s with
  | [] => []
  | c :: r =>
      if byte_eqb c c_cr then c_nl :: match r with d :: r' => if byte_eqb d c_nl then unix_lines r' else unix_lines r | [] => [] end
      else c :: unix_lines r
  end.
Definition typed (s : bytes) : list tui_keyev := map (fun c => new_key K_ch c 0) s.

Definition after_cr (cr : bool) (s : bytes) : bytes :=
  if cr then match s with d :: r => if byte_eqb d c_nl then unix_lines r else unix_lines s | [] => [] end else unix_lines s.

Lemma emit_plain c : emit K_ch c 0 = [new_key K_ch c 0].
Proof. apply emit_fixed. unfold new_key. by rewrite normalized_ch. Qed.

Lemma paste_bytes_text cr s : (paste_bytes cr s).2 = typed (after_cr cr s).
Proof.
  revert cr. induction s as [|b s IH]; intros cr; [by destruct cr|]. cbn [paste_bytes]. unfold paste_byte.
  specialize (IH (byte_eqb b c_cr)). destruct (paste_bytes (byte_eqb b c_cr) s) as [cr' out]. cbn [snd] in *. rewrite IH.
  unfold after_cr. cbn [unix_lines]. destruct (byte_eqb b c_nl) eqn:En.
  - apply byte_eqb_eq in En as ->. destruct cr; [done|]. change (byte_eqb c_nl c_cr) with false. cbn [andb]. by rewrite emit_plain.
  - destruct (byte_eqb b c_cr); rewrite emit_plain; by destruct cr.
Qed.

Lemma paste_bytes_app cr a b :
  paste_bytes cr (a ++ b) = let '(cr1, o1) := paste_bytes cr a in let '(cr2, o2) := paste_bytes cr1 b in (cr2, o1 ++ o2).
Proof.
  revert cr. induction a as [|x a IH]; intros cr; [cbn; by destruct (paste_bytes cr b)|]. cbn [app paste_bytes].
  destruct (paste_byte cr x) as [cr0 o0]. rewrite IH. destruct (paste_bytes cr0 a) as [cr1 o1]. destruct (paste_bytes cr1 b) as [cr2 o2].
  by rewrite app_assoc.
Qed.
Lemma paste_bytes_one cr b : paste_bytes cr [b] = paste_byte cr b.
Proof. cbn [paste_bytes]. destruct (paste_byte cr b). by rewrite app_nil_r. Qed.

(** The parser within a paste of which it has read [u]: the marker's part held
    back is the longest end of [u] the marker begins with. *)
Record pasting (u : bytes) (p : tui_keyparse) (o : list tui_keyev) (v : bytes) (j : nat) : Prop := {
  pa_state : _st p = S_paste;
  pa_part : (j < 6)%nat;
  pa_held : _paste_end p = take j end_marker;
  pa_text : u = v ++ take j end_marker;
  pa_out : paste_bytes false v = (_paste_cr p, o);
  pa_longest k w : (k <= 6)%nat -> u = w ++ take k end_marker -> (k <= j)%nat
}.

Lemma marker_snoc k : (k < 6)%nat -> take (S k) end_marker = take k end_marker ++ [at_ end_marker k].
Proof. intros H. do 6 (destruct k as [|k]; [done|]). lia. Qed.

(** No part of the marker ends in a smaller one. *)
Lemma marker_borders x j k : (j < 6)%nat -> take j end_marker = x ++ take (S k) end_marker -> x = [].
Proof.
  intros Hj H. destruct x as [|c x]; [done|]. exfalso.
  assert (Hin : ESC ∈ drop 1 (take j end_marker)).
  { rewrite H. simpl. rewrite drop_0. apply elem_of_app. right. apply elem_of_cons. by left. }
  do 6 (destruct j as [|j]; [vm_compute in Hin; repeat (apply elem_of_cons in Hin as [Hin|Hin]; [discriminate|]); by apply elem_of_nil in Hin|]). lia.
Qed.

Lemma app_suffix {A} (v w a c : list A) : v ++ a = w ++ c -> (length c <= length a)%nat -> exists x, a = x ++ c.
Proof.
  revert w. induction v as [|y v IH]; intros w H Hl; [by exists w|]. destruct w as [|z w].
  - simpl in H. exfalso. apply (f_equal length) in H. rewrite length_cons, length_app in H. lia.
  - injection H as _ H. by apply (IH w).
Qed.

(** Which ends of [u] and a byte begin the marker. *)
Lemma longest_step u v j b k w :
  (j < 6)%nat -> u = v ++ take j end_marker -> (forall k w, (k <= 6)%nat -> u = w ++ take k end_marker -> (k <= j)%nat) ->
  (k <= 6)%nat -> u ++ [b] = w ++ take k end_marker -> k = O \/ k = 1%nat /\ b = ESC \/ k = S j /\ b = at_ end_marker j.
Proof.
  intros Hj Hu Hmax Hk H. destruct k as [|k]; [by left|right]. rewrite marker_snoc, app_assoc in H by lia.
  apply app_inj_tail in H as [H ->]. pose proof (Hmax k w ltac:(lia) H) as Hle. destruct k as [|k]; [by left|right].
  destruct (decide (S k = j)) as [->|Hne]; [done|]. exfalso. rewrite Hu in H.
  destruct (app_suffix _ _ _ _ H) as [x Hx]; [rewrite !length_take; lia|]. pose proof (marker_borders x j k Hj Hx) as ->.
  apply (f_equal length) in Hx. rewrite length_app, !length_take in Hx. simpl in Hx. lia.
Qed.

Lemma paste_byte_step u p o v j b : pasting u p o v j -> (forall w, u ++ [b] <> w ++ end_marker) ->
  exists p' o' v' j', feed_byte 2 p b = Some (p', o') /\ pasting (u ++ [b]) p' (o ++ o') v' j'.
Proof.
  intros [Hst Hj Hh Hu Ho Hmax] Hno. destruct p as [st ps e cr]. cbn [_st _paste_end _paste_cr] in *. subst st e.
  pose proof (longest_step u v j b) as Hl. cbn [feed_byte _st _paste_end _params _paste_cr]. rewrite length_take.
  replace (j `min` length end_marker)%nat with j by (simpl; lia).
  destruct (byte_eqb b (at_ end_marker j)) eqn:Eb.
  - apply byte_eqb_eq in Eb. assert (Hs : take j end_marker ++ [b] = take (S j) end_marker) by (rewrite marker_snoc by done; by rewrite Eb).
    assert (Hj' : (S j < 6)%nat).
    { destruct (decide (j = 5)%nat) as [->|]; [|lia]. exfalso. apply (Hno v). by rewrite Hu, <- app_assoc, Hs. }
    rewrite Hs. rewrite length_take. replace (S j `min` length end_marker)%nat with (S j) by (simpl; lia).
    rewrite (proj2 (Nat.eqb_neq _ _)) by (simpl; lia). eexists _, [], v, (S j). split; [done|]. rewrite app_nil_r.
    constructor; cbn [_st _paste_end _paste_cr]; try done; [by rewrite Hu, <- app_assoc, Hs|].
    intros k w Hk H. destruct (Hl k w Hj Hu Hmax Hk H) as [->|[[-> _]|[-> _]]]; lia.
  - assert (Hb : b <> at_ end_marker j) by by apply byte_eqb_neq.
    destruct j as [|j].
    + cbn [take is_nil negb]. destruct (paste_byte cr b) as [cr' o'] eqn:Ep. eexists _, _, (u ++ [b]), O. split; [done|].
      constructor; cbn [_st _paste_end _paste_cr take]; try done; try lia; [by rewrite app_nil_r| |].
      * rewrite Hu. cbn [take]. rewrite app_nil_r, paste_bytes_app, Ho, paste_bytes_one, Ep. done.
      * intros k w Hk H. destruct (Hl k w Hj Hu Hmax Hk H) as [->|[[-> ?]|[-> ?]]]; done.
    + assert (is_nil (take (S j) end_marker) = false) as -> by done. cbn [negb].
      destruct (paste_bytes cr (take (S j) end_marker)) as [cr1 o1] eqn:E1.
      assert (Hu1 : paste_bytes false u = (cr1, o ++ o1)) by (rewrite Hu, paste_bytes_app, Ho, E1; done).
      cbn [length]. change (at_ end_marker 0) with ESC. destruct (byte_eqb b ESC) eqn:Ee.
      * apply byte_eqb_eq in Ee. cbn [app length Nat.eqb end_marker mbind option_bind]. eexists _, _, u, 1%nat. split; [done|].
        rewrite app_nil_r. constructor; cbn [_st _paste_end _paste_cr]; try done; try lia; [by rewrite Ee..|].
        intros k w Hk H. destruct (Hl k w Hj Hu Hmax Hk H) as [->|[[-> ?]|[-> ?]]]; [lia|lia|done].
      * cbn [is_nil negb]. destruct (paste_byte cr1 b) as [cr2 o2] eqn:E2. cbn [mbind option_bind]. eexists _, _, (u ++ [b]), O.
        split; [done|]. constructor; cbn [_st _paste_end _paste_cr take]; try done; try lia; [by rewrite app_nil_r| |].
        { rewrite paste_bytes_app, Hu1, paste_bytes_one, E2. by rewrite app_assoc. }
        intros k w Hk H. apply byte_eqb_neq in Ee. destruct (Hl k w Hj Hu Hmax Hk H) as [->|[[-> ?]|[-> ?]]]; [lia|done|done].
Qed.

Lemma feed_app p a b : feed p (a ++ b) = ('(p1, o1) ← feed p a; '(p2, o2) ← feed p1 b; Some (p2, o1 ++ o2)).
Proof.
  revert p. induction a as [|x a IH]; intros p; cbn [app feed].
  - cbn [mbind option_bind]. by destruct (feed p b) as [[? ?]|].
  - destruct (feed_byte 2 p x) as [[p0 o0]|]; [|done]. cbn [mbind option_bind]. rewrite IH. destruct (feed p0 a) as [[p1 o1]|]; [|done].
    cbn [mbind option_bind]. destruct (feed p1 b) as [[p2 o2]|]; [|done]. cbn [mbind option_bind]. by rewrite app_assoc.
Qed.

Lemma paste_feed u s p o v j : pasting u p o v j -> (forall a b w, s = a ++ b -> u ++ a <> w ++ end_marker) ->
  exists p' o' v' j', feed p s = Some (p', o') /\ pasting (u ++ s) p' (o ++ o') v' j'.
Proof.
  revert u p o v j. induction s as [|b s IH]; intros u p o v j Hp Hno.
  - exists p, [], v, j. rewrite !app_nil_r. by split.
  - destruct (paste_byte_step u p o v j b Hp) as (p1 & o1 & v1 & j1 & H1 & Hp1); [intros w; by apply (Hno [b] s)|].
    destruct (IH _ _ _ _ _ Hp1) as (p2 & o2 & v2 & j2 & H2 & Hp2).
    { intros a b0 w ->. rewrite <- app_assoc. by apply (Hno (b :: a) b0). }
    exists p2, (o1 ++ o2), v2, j2. cbn [feed]. rewrite H1. cbn [mbind option_bind]. rewrite H2. split; [done|].
    rewrite <- !app_assoc in Hp2. exact Hp2.
Qed.

(** What stands between the markers of a bracketed paste is typed as it is,
    line breaks made one and control bytes and escape sequences included: up to
    the first end marker, though parts of it come earlier; the parser is then
    back where keys are read. *)
Lemma paste_keys t p :
  _st p = S_normal -> (forall i, (i < length t)%nat -> take 6 (drop i (t ++ end_marker)) <> end_marker) ->
  exists p', feed p (csi (B "200~") ++ t ++ end_marker) = Some (p', typed (unix_lines t)) /\ _st p' = S_normal.
Proof.
  intros Hp Hfirst. destruct p as [st ps e cr]. simpl in Hp. subst st.
  assert (Hopen : feed (Keyparse S_normal ps e cr) (csi (B "200~")) = Some (Keyparse S_paste (B "200") [] false, [])) by done.
  rewrite feed_app, Hopen. cbn [mbind option_bind]. set (p0 := Keyparse S_paste _ _ _).
  assert (H0 : pasting [] p0 [] [] 0).
  { constructor; try done; [lia|]. intros k w Hk H. symmetry in H. apply app_eq_nil in H as [_ H].
    destruct k; [lia|]. by simpl in H. }
  change (t ++ end_marker) with (t ++ take 5 end_marker ++ ["~"%char]) in Hfirst |- *. rewrite app_assoc in Hfirst |- *. rewrite feed_app.
  destruct (paste_feed [] (t ++ take 5 end_marker) p0 [] [] 0 H0) as (p1 & o1 & v1 & j1 & H1 & Hp1).
  { intros a b w H Ha. simpl in Ha. subst a. assert (Hl : (length w < length t)%nat).
    { apply (f_equal length) in H. rewrite !length_app, length_take in H. simpl in H. lia. }
    apply (Hfirst (length w) Hl). rewrite H, <- !app_assoc, drop_app_length. done. }
  rewrite H1. cbn [mbind option_bind app] in *. destruct Hp1 as [Hst Hj Hh Hu Ho Hmax].
  assert (j1 = 5)%nat as -> by (pose proof (Hmax 5%nat t ltac:(lia) eq_refl); lia). apply app_inv_tail in Hu as <-.
  destruct p1 as [st1 ps1 e1 cr1]. simpl in Hst, Hh, Ho. subst st1 e1. eexists. split.
  - rewrite (feed_one _ _ _ (Keyparse S_normal ps1 [] cr1) []) by done. cbn [feed mbind option_bind app]. rewrite app_nil_r. do 2 f_equal.
    pose proof (paste_bytes_text false t) as Ht. by rewrite Ho in Ht.
  - done.
Qed.
