(* ===== verification/Bindings.v ===== *)
(** Key bindings and chords: [tui_bindings] and [key_resolver] of
    [src/include/madcdis/keys.h].

    [finalize_spec]: what a table that passed [finalize] is; [chords_fire]: in such
    a table the keys of a bound sequence, however their modifiers are held, fire
    its action with the last one and nothing before; [resolver_sound]: what each
    key does otherwise. *)
From stdpp Require Import gmap.
From S2P Require Import Prelude Numbers Keys.
#[local] Open Scope Z_scope.

(** ** A [std::map] of strings

    A list in ascending order of the keys, which compare as unsigned bytes. *)
Fixpoint bytes_ltb (a b : bytes) : bool :=
  match a, b with
  | [], _ :: _ => true
  | x :: a, y :: b => (code x <? code y) || byte_eqb x y && bytes_ltb a b
  | _, [] => false
  end.

Section Assoc.
Context {V : Type}.
Fixpoint map_find (l : list (bytes * V)) (k : bytes) : option V :=
  match l with [] => None | (k', v) :: r => if bytes_eqb k k' then Some v else map_find r k end.
Fixpoint map_put (l : list (bytes * V)) (k : bytes) (v : V) : list (bytes * V) :=
  match l with
  | [] => [(k, v)]
  | (k', v') :: r => if bytes_eqb k k' then (k, v) :: r else if bytes_ltb k k' then (k, v) :: l else (k', v') :: map_put r k v
  end.
End Assoc.

(** ** The table *)

Record tui_binding := Binding { name : bytes; action_code : Z }.
Definition no_binding : tui_binding := Binding [] 0.
Record tui_bindings := Bindings { _actions : list (bytes * tui_binding); _prefixes : gset bytes }.
Definition no_bindings : tui_bindings := Bindings [] ∅.

Definition seq_spelling (k : tui_keyev) : bytes :=
  if is_key K_ch k && (mods k =? 0) && isupper (ch k) then [tolower (ch k)] else tui_key_name k.
Definition cont_spelling (k : tui_keyev) : bytes := if is_key K_ctrl k && islower (ch k) then [ch k] else seq_spelling k.

(** The words between the blanks. *)
Fixpoint words (s : bytes) : list bytes :=
  match s with
  | [] => []
  | c :: r =>
      if byte_eqb c " "%char then words r
      else match r with
           | [] => [[c]]
           | d :: _ => if byte_eqb d " "%char then [c] :: words r
                       else match words r with w :: ws => (c :: w) :: ws | [] => [[c]] end
           end
  end.

Section Platform.
Context `{Platform}.

(** The canonical spelling as far as it has come, and the words left. *)
Fixpoint canon_words (canon : bytes) (ws : list bytes) : option bytes :=
  match ws with
  | [] => Some canon
  | w :: r =>
      k ← tui_key_from_name w;
      canon_words (if is_nil canon then seq_spelling k else canon ++ " "%char :: cont_spelling k) r
  end.

(** [false] is [None]: the table is untouched. *)
Definition bind (t : tui_bindings) (seq action : bytes) (c : Z) : option tui_bindings :=
  canon ← canon_words [] (words seq);
  if is_nil canon then None else Some (Bindings (map_put (_actions t) canon (Binding action c)) (_prefixes t)).

Definition bound (t : tui_bindings) (s : bytes) : bool := match map_find (_actions t) s with Some _ => true | None => false end.
Definition prefix (t : tui_bindings) (s : bytes) : bool := bool_decide (s ∈ _prefixes t).
Definition action_of (t : tui_bindings) (s : bytes) : tui_binding := default no_binding (map_find (_actions t) s).

(** The stretches of a sequence before its blanks. *)
Fixpoint before_blanks (pre s : bytes) : list bytes :=
  match s with
  | [] => []
  | c :: r => (if byte_eqb c " "%char then [pre] else []) ++ before_blanks (pre ++ [c]) r
  end.

(** The inner loop of [finalize]: [true] is the error. *)
Fixpoint add_prefixes (t : tui_bindings) (l : list bytes) : tui_bindings * bool :=
  match l with
  | [] => (t, false)
  | p :: r => if bound t p then (t, true) else add_prefixes (Bindings (_actions t) ({[p]} ∪ _prefixes t)) r
  end.
Definition head_word (seq : bytes) : bytes := match find_char " "%char seq with Some i => take i seq | None => seq end.
Definition printable_head (seq : bytes) : bool :=
  match tui_key_from_name (head_word seq) with Some k => key_types k | None => false end.
Fixpoint finalize_from (t : tui_bindings) (l : list (bytes * tui_binding)) : tui_bindings * option bytes :=
  match l with
  | [] => (t, None)
  | (seq, _) :: r =>
      if printable_head seq then (t, Some (B "printable-headed sequence: " ++ seq))
      else let '(t, shadows) := add_prefixes t (before_blanks [] seq) in
           if shadows then (t, Some (B "sequence shadows a shorter binding: " ++ seq)) else finalize_from t r
  end.
Definition finalize (t : tui_bindings) : tui_bindings * option bytes :=
  finalize_from (Bindings (_actions t) ∅) (_actions t).

(** ** The sequence shown for an action *)

Definition keys_in (seq : bytes) : Z := 1 + Z.of_nat (length (filter (fun c => c = " "%char) seq)).
Definition better (best : bytes * Z) (seq : bytes) : bytes * Z :=
  let keys := keys_in seq in
  if is_nil best.1 || (keys <? best.2) || (keys =? best.2) && (length seq <? length best.1)%nat then (seq, keys) else best.
Definition shortest (t : tui_bindings) (sel : tui_binding -> bool) : bytes :=
  (fold_left (fun best e => if sel e.2 then better best e.1 else best) (_actions t) ([], 0)).1.
Definition seq_for_action (t : tui_bindings) (action : bytes) : bytes := shortest t (fun b => bytes_eqb (name b) action).
Definition seq_for_code (t : tui_bindings) (c : Z) : bytes := if c =? 0 then [] else shortest t (fun b => action_code b =? c).
Definition chord_for (t : tui_bindings) (c : Z) (action : bytes) : bytes :=
  let key := seq_for_code t c in if is_nil key then seq_for_action t action else key.

(** ** The resolver *)

Inductive step_kind := Passthrough | Pending | Cancelled | Action | Transparent.
#[export] Instance step_kind_eq : EqDecision step_kind.
Proof. solve_decision. Defined.
Record key_step := Step { k_kind : step_kind; s_name : bytes; s_seq : bytes; s_code : Z; s_mods : Z }.
Definition plain_step (k : step_kind) : key_step := Step k [] [] 0 0.
Record key_resolver := Resolver { _bindings : tui_bindings; _pending : bytes }.
Definition set_bindings (r : key_resolver) (b : tui_bindings) : key_resolver := Resolver b [].

Definition action_step (t : tui_bindings) (seq : bytes) (m : Z) : key_step :=
  Step Action (name (action_of t seq)) seq (action_code (action_of t seq)) m.

(** [head_step]; [None] is [false]. *)
Definition head_step (r : key_resolver) (k : tui_keyev) (m : Z) : option (key_step * key_resolver) :=
  let head := seq_spelling k in
  if bound (_bindings r) head then Some (action_step (_bindings r) head m, r)
  else if prefix (_bindings r) head then Some (Step Pending [] [] 0 m, Resolver (_bindings r) head)
  else None.

(** The loop over the lookups of a head; the first is the key as pressed. *)
Fixpoint head_steps (r : key_resolver) (first : bool) (l : list tui_keyev) (m : Z) : option (key_step * key_resolver) :=
  match l with
  | [] => None
  | k :: l =>
      if negb first && key_types k then head_steps r false l m
      else match head_step r k m with Some s => Some s | None => head_steps r false l m end
  end.

(** The loop over the lookups of a continuation: the candidate it stops at. *)
Fixpoint continuation (r : key_resolver) (candidate : bytes) (l : list tui_keyev) : bytes :=
  match l with
  | [] => candidate
  | k :: l => if prefix (_bindings r) candidate || bound (_bindings r) candidate then candidate
              else continuation r (_pending r ++ " "%char :: cont_spelling k) l
  end.

Definition synthesized (k : tui_keyev) : bool := is_key K_resize k || is_key K_wake k.

Definition step (r : key_resolver) (k : tui_keyev) : key_step * key_resolver :=
  if negb (is_nil (_pending r)) then
    if synthesized k then (plain_step Transparent, r)
    else if is_key K_esc k then (plain_step Cancelled, Resolver (_bindings r) [])
    else
      let candidate := continuation r (_pending r ++ " "%char :: cont_spelling k) (drop 1 (key_lookups k)) in
      if prefix (_bindings r) candidate then (plain_step Pending, Resolver (_bindings r) candidate)
      else (action_step (_bindings r) candidate (mods k), Resolver (_bindings r) [])
  else if key_types k then (plain_step Passthrough, r)
  else if negb (is_nil (_actions (_bindings r))) && negb (synthesized k) then
    match head_steps r true (key_lookups k) (mods k) with Some s => s | None => (plain_step Passthrough, r) end
  else (plain_step Passthrough, r).

Fixpoint steps (r : key_resolver) (ks : list tui_keyev) : list key_step * key_resolver :=
  match ks with
  | [] => ([], r)
  | k :: ks => let '(s, r) := step r k in let '(l, r) := steps r ks in (s :: l, r)
  end.
End Platform.

Definition press (t : tui_bindings) (ks : list string) : list (step_kind * bytes * bytes) :=
  let keys := omap (fun s => tui_key_from_name (B s)) ks in
  map (fun s => (k_kind s, s_name s, s_seq s)) (steps (Resolver t []) keys).1.
Definition sample : option (tui_bindings * option bytes) :=
  t ← bind no_bindings (B "^K s") (B "save") 1; t ← bind t (B "Ctrl+left") (B "word") 2; t ← bind t (B "^k  ^Q f") (B "quit") 3; Some (finalize t).
Example press_ex :
  ('(t, e) ← sample; Some (e, map fst (_actions t), press t ["^k"; "S"], press t ["^k"; "ctrl+s"], press t ["ctrl+shift+left"; "x"],
                           press t ["^k"; "q"; "esc"], press t ["^k"; "x"; "^x"])) =
  Some (None, [B "^k q f"; B "^k s"; B "ctrl+left"], [(Pending, [], []); (Action, B "save", B "^k s")],
        [(Pending, [], []); (Action, B "save", B "^k s")], [(Action, B "word", B "ctrl+left"); (Passthrough, [], [])],
        [(Pending, [], []); (Pending, [], []); (Cancelled, [], [])],
        [(Pending, [], []); (Action, [], B "^k x"); (Passthrough, [], [])]).
Proof. vm_compute. reflexivity. Qed.

(** A sequence that goes on with Escape is accepted and never fires: the key
    cancels the chord. *)
Example escape_never_fires :
  ('(t, e) ← (t ← bind no_bindings (B "^k esc") (B "leave") 1; Some (finalize t));
   Some (e, seq_for_action t (B "leave"), press t ["^k"; "esc"])) =
  Some (None, B "^k esc", [(Pending, [], []); (Cancelled, [], [])]).
Proof. vm_compute. reflexivity. Qed.

(** ** Tables *)

Lemma map_find_put {V} (l : list (bytes * V)) k v k' :
  map_find (map_put l k v) k' = if bytes_eqb k' k then Some v else map_find l k'.
Proof.
  induction l as [|[k1 v1] l IH]; [done|]. cbn [map_put]. destruct (bytes_eqb k k1) eqn:E1.
  - apply bytes_eqb_eq in E1 as ->. cbn [map_find]. by destruct (bytes_eqb k' k1).
  - destruct (bytes_ltb k k1); [done|]. cbn [map_find]. rewrite IH. destruct (bytes_eqb k' k1) eqn:E2; [|done].
    apply bytes_eqb_eq in E2 as ->. destruct (bytes_eqb k1 k) eqn:E3; [|done]. apply bytes_eqb_eq in E3 as ->. by rewrite bytes_eqb_refl in E1.
Qed.
Lemma map_put_in {V} (l : list (bytes * V)) k v : (k, v) ∈ map_put l k v.
Proof.
  induction l as [|[k1 v1] l IH]; cbn [map_put]; [by apply elem_of_cons; left|]. destruct (bytes_eqb k k1); [by apply elem_of_cons; left|].
  destruct (bytes_ltb k k1); apply elem_of_cons; [by left|by right].
Qed.

(** [p] is where a sequence breaks at a blank. *)
Definition breaks (seq p : bytes) : Prop := exists rest, seq = p ++ " "%char :: rest.

Lemma before_blanks_spec pre s p : p ∈ before_blanks pre s <-> exists a, p = pre ++ a /\ breaks s a.
Proof.
  revert pre. induction s as [|c s IH]; intros pre.
  - split; [by intros H%elem_of_nil|]. intros (a & _ & rest & H). by destruct a.
  - cbn [before_blanks]. rewrite elem_of_app, IH. split.
    + intros [H|(a & -> & rest & ->)].
      * destruct (byte_eqb c " "%char) eqn:E; [|by apply elem_of_nil in H]. apply byte_eqb_eq in E as ->.
        apply list_elem_of_singleton in H as ->. exists []. rewrite app_nil_r. split; [done|by exists s].
      * exists (c :: a). rewrite <- app_assoc. split; [done|by exists rest].
    + intros (a & -> & rest & H). destruct a as [|x a]; simpl in H; injection H as -> ->.
      * left. apply list_elem_of_singleton. by rewrite app_nil_r.
      * right. exists a. rewrite <- app_assoc. split; [done|by exists rest].
Qed.

Section Finalize.
Context `{Platform}.

Lemma add_prefixes_spec t l t' : add_prefixes t l = (t', false) ->
  _actions t' = _actions t /\ (forall p, p ∈ _prefixes t' <-> p ∈ l \/ p ∈ _prefixes t) /\ (forall p, p ∈ l -> bound t p = false).
Proof.
  revert t. induction l as [|q l IH]; intros t; cbn [add_prefixes].
  - intros [= <-]. split_and!; [done|intros p; rewrite elem_of_nil; naive_solver|by intros p ?%elem_of_nil].
  - destruct (bound t q) eqn:Eq; [done|]. intros H1. destruct (IH _ H1) as (H2 & H3 & H4). cbn [_actions _prefixes] in *.
    split_and!; [done|intros p; rewrite H3, elem_of_cons; set_solver|]. intros p [->|Hp]%elem_of_cons; [done|by apply H4].
Qed.

Lemma finalize_from_spec t l t' : finalize_from t l = (t', None) ->
  _actions t' = _actions t /\
  (forall p, p ∈ _prefixes t' <-> p ∈ _prefixes t \/ exists e, e ∈ l /\ breaks e.1 p) /\
  (forall p e, e ∈ l -> breaks e.1 p -> bound t p = false) /\ (forall e, e ∈ l -> printable_head e.1 = false).
Proof.
  revert t. induction l as [|[seq b] l IH]; intros t; cbn [finalize_from].
  - intros [= <-]. split_and!; [done|intros p; split; [by left|intros [?|(e & ?%elem_of_nil & _)]; done]|by intros p e ?%elem_of_nil|by intros e ?%elem_of_nil].
  - destruct (printable_head seq) eqn:Eh; [done|]. destruct (add_prefixes _ _) as [t1 []] eqn:Ea; [done|].
    destruct (add_prefixes_spec _ _ _ Ea) as (H1 & H2 & H3). intros Hf. destruct (IH _ Hf) as (H4 & H5 & H6 & H7).
    assert (Hb : forall p, bound t1 p = bound t p) by (intros p; unfold bound; by rewrite H1). split_and!.
    + congruence.
    + intros p. rewrite H5, H2, before_blanks_spec. split.
      * intros [[(a & -> & Hp)|?]|(e & ? & ?)]; [right; exists (seq, b); split; [by left|done]|by left|right; exists e; split; [by right|done]].
      * intros [?|(e & [->|He]%elem_of_cons & Hp)]; [left; by right|left; left; by exists p|right; by exists e].
    + intros p e [->|He]%elem_of_cons Hp; [apply H3, before_blanks_spec; by exists p|rewrite <- Hb; by apply (H6 p e)].
    + intros e [->|He]%elem_of_cons; [done|by apply H7].
Qed.

(** A table that passed: what the prefixes are, that none is bound and that no
    sequence begins with a key that types. *)
Lemma finalize_spec t t' : finalize t = (t', None) ->
  _actions t' = _actions t /\
  (forall p, prefix t' p = true <-> exists e, e ∈ _actions t /\ breaks e.1 p) /\
  (forall p, prefix t' p = true -> bound t' p = false) /\ (forall e, e ∈ _actions t -> printable_head e.1 = false).
Proof.
  unfold finalize. intros Hf. destruct (finalize_from_spec _ _ _ Hf) as (H1 & H2 & H3 & H4). cbn [_actions _prefixes] in *.
  assert (Hp : forall p, prefix t' p = true <-> exists e, e ∈ _actions t /\ breaks e.1 p).
  { intros p. unfold prefix. rewrite bool_decide_eq_true, H2. split; [intros [?|?]; [set_solver|done]|by right]. }
  split_and!; [done|done| |done]. intros p (e & He & Hb)%Hp. unfold bound. rewrite H1. by apply (H3 p e).
Qed.
End Finalize.

(** ** Chords *)

(** The sequence a run of keys spells, from a head on. *)
Fixpoint cont_join (canon : bytes) (ks : list tui_keyev) : bytes :=
  match ks with [] => canon | k :: r => cont_join (canon ++ " "%char :: cont_spelling k) r end.
Definition spelled (k0 : tui_keyev) (ks : list tui_keyev) : bytes := cont_join (seq_spelling k0) ks.

Lemma cont_join_app c ks : exists rest, cont_join c ks = c ++ rest /\ (ks <> [] -> breaks (cont_join c ks) c).
Proof.
  revert c. induction ks as [|k ks IH]; intros c; cbn [cont_join]; [exists []; by rewrite app_nil_r|].
  destruct (IH (c ++ " "%char :: cont_spelling k)) as (rest & -> & _). exists (" "%char :: cont_spelling k ++ rest).
  rewrite <- app_assoc. split; [done|]. intros _. by exists (cont_spelling k ++ rest).
Qed.

Lemma lookups_head k : exists l, key_lookups k = k :: l.
Proof. unfold key_lookups. cbv zeta. by eexists. Qed.

Section Fire.
Context `{Platform} (t2 : tui_bindings).

Lemma continuation_here r c l : prefix (_bindings r) c = true \/ bound (_bindings r) c = true -> continuation r c l = c.
Proof. intros H1. destruct l as [|k l]; [done|]. cbn [continuation]. destruct H1 as [->| ->]; [done|by rewrite orb_true_r]. Qed.

Lemma nameable_real k : nameable k -> synthesized k = false.
Proof. intros (_ & Hb & _). unfold synthesized, is_key. by destruct k as [[] c m r l b p]. Qed.

(** A continuation that is a prefix, and one that is bound. *)
Lemma step_more p k : p <> [] -> nameable k -> kind k <> K_esc -> let c := p ++ " "%char :: cont_spelling k in
  (prefix t2 c = true -> step (Resolver t2 p) k = (plain_step Pending, Resolver t2 c)) /\
  (prefix t2 c = false -> bound t2 c = true -> step (Resolver t2 p) k = (action_step t2 c (mods k), Resolver t2 [])).
Proof.
  intros Hp Hk He c. unfold step. cbn [_pending _bindings]. rewrite (proj2 (is_nil_false p) Hp), nameable_real by done. cbn [negb].
  assert (is_key K_esc k = false) as -> by by apply bool_decide_eq_false. split.
  - intros Hc. rewrite continuation_here by by left. fold c. by rewrite Hc.
  - intros Hc Hb. rewrite continuation_here by by right. fold c. by rewrite Hc.
Qed.

Lemma steps_more ks p full : p <> [] -> Forall nameable ks -> Forall (fun k => kind k <> K_esc) ks -> full = cont_join p ks -> ks <> [] ->
  (forall q, breaks full q -> prefix t2 q = true) -> bound t2 full = true -> prefix t2 full = false ->
  exists l k, last ks = Some k /\ Forall (fun s => s = plain_step Pending) l /\
    steps (Resolver t2 p) ks = (l ++ [action_step t2 full (mods k)], Resolver t2 []).
Proof.
  intros Hp Hk He Hfull Hne Hpre Hb Hnb. revert p Hp Hfull Hne. induction ks as [|k ks IH]; intros p Hp Hfull Hne; [done|].
  apply Forall_cons_1 in Hk as [Hk1 Hk], He as [He1 He]. specialize (IH Hk He). cbn [cont_join] in Hfull.
  destruct (step_more p k Hp Hk1 He1) as [S1 S2]. cbn [steps]. set (c := p ++ " "%char :: cont_spelling k) in *. destruct ks as [|k' ks].
  - simpl in Hfull. subst full. rewrite S2 by done. exists [], k. split_and!; [done|constructor|done].
  - destruct (cont_join_app c (k' :: ks)) as (rest & _ & Hbr). rewrite S1 by (apply Hpre; rewrite Hfull; by apply Hbr).
    destruct (IH c) as (l & k1 & Hl & Hall & Hs); [by destruct p|done|done|]. rewrite Hs.
    exists (plain_step Pending :: l), k1. split_and!; [done|by constructor|done].
Qed.

(** A head that is a prefix, and one that is bound. *)
Lemma step_head k : nameable k -> key_types k = false -> _actions t2 <> [] -> let c := seq_spelling k in
  (prefix t2 c = true -> bound t2 c = false -> step (Resolver t2 []) k = (Step Pending [] [] 0 (mods k), Resolver t2 c)) /\
  (bound t2 c = true -> step (Resolver t2 []) k = (action_step t2 c (mods k), Resolver t2 [])).
Proof.
  intros Hk Ht Ha c. unfold step. cbn [_pending _bindings is_nil negb]. rewrite Ht, nameable_real by done.
  rewrite (proj2 (is_nil_false _) Ha). cbn [negb andb]. destruct (lookups_head k) as [l ->]. cbn [head_steps negb andb]. unfold head_step.
  cbn [_bindings]. fold c. split; [intros -> ->|intros ->]; done.
Qed.

(** A typed key's spelling begins no sequence of a table that passed. *)
Lemma head_word_app w tail : find_char " "%char w = None -> match tail with c :: _ => c = " "%char | [] => True end -> head_word (w ++ tail) = w.
Proof.
  intros Hw Ht. unfold head_word. destruct tail as [|c tail]; [by rewrite app_nil_r, Hw|]. subst c.
  assert (find_char " "%char (w ++ " "%char :: tail) = Some (length w)) as ->; [|by rewrite take_app_length].
  clear -Hw. induction w as [|x w IH]; [done|]. simpl in *. destruct (byte_eqb x " "%char); [done|]. rewrite IH; [done|]. by destruct (find_char _ w).
Qed.

Lemma typed_head k tail : nameable k -> match tail with c :: _ => c = " "%char | [] => True end ->
  printable_head (seq_spelling k ++ tail) = false -> key_types k = false.
Proof.
  intros (Hm & Hb & Hn & Hk) Ht Hp. destruct (key_types k) eqn:E; [|done]. exfalso. rewrite Hk in Hn, Hb, E, Hp.
  unfold key_types, is_key in E. cbn [kind new_key] in E. destruct (decide (kind k = K_ch)) as [Ek|?]; [|by rewrite bool_decide_eq_false_2 in E].
  rewrite Ek in *. cbn in Hb. assert (Hz : mods k = 0).
  { unfold new_key in Hn. rewrite normalized_ch in Hn. unfold key_holds_chord_mods in E. cbn [mods new_key] in E.
    destruct (mods_cases (mods k) Hm) as [Q|[Q|[Q|[Q|[Q|[Q|[Q|[Q|[Q|[Q|[Q|[Q|[Q|[Q|[Q|Q]]]]]]]]]]]]]]]; rewrite Q in E, Hn |- *;
      try done; vm_compute in E; try discriminate; by vm_compute in Hn. }
  rewrite Hz in *. assert (Hw : find_char " "%char (seq_spelling (new_key K_ch (ch k) 0)) = None /\
    match tui_key_from_name (seq_spelling (new_key K_ch (ch k) 0)) with Some k => key_types k | None => false end = true).
  { destruct (ch k) as [[] [] [] [] [] [] [] []]; try (vm_compute in Hb; discriminate); vm_compute; by split. }
  destruct Hw as [Hw1 Hw2]. unfold printable_head in Hp. rewrite head_word_app in Hp by done. by rewrite Hw2 in Hp.
Qed.
End Fire.

Lemma spelling_nonempty k : nameable k -> seq_spelling k <> [].
Proof.
  intros Hk. unfold seq_spelling. case_if; [done|]. destruct (decide (mods k = 0)) as [H0|H0].
  - destruct Hk as (_ & Hb & _ & Hk). unfold tui_key_name. rewrite H0. cbn [Z.eqb]. rewrite H0 in Hk. rewrite Hk. by apply base_name_read.
  - destruct (name_split k Hk H0) as (-> & _). destruct Hk as (_ & Hb & _). intros E. apply app_eq_nil in E as [_ E].
    by destruct (modified_base_read (kind k) (ch k) Hb) as (_ & _ & ?).
Qed.

Lemma spelled_tail k0 ks : exists tail, spelled k0 ks = seq_spelling k0 ++ tail /\
  match tail with c :: _ => c = " "%char | [] => True end.
Proof.
  destruct ks as [|k ks]; [exists []; by rewrite app_nil_r|]. destruct (cont_join_app (seq_spelling k0) (k :: ks)) as (_ & _ & Hb).
  destruct Hb as [rest Hb]; [done|]. by exists (" "%char :: rest).
Qed.

(** In a table that passed [finalize], the keys of a bound sequence fire its
    action: each key but the last is held as a chord, the last gives the action's
    name and code with the modifiers held, and no chord is left; whatever else is
    bound, and whichever keys of the same spelling are pressed (a chord's letters
    in either case, Ctrl held on or not).  Escape cancels instead. *)
Theorem chords_fire `{Platform} t t1 t2 seq action c k0 ks :
  bind t seq action c = Some t1 -> finalize t1 = (t2, None) ->
  canon_words [] (words seq) = Some (spelled k0 ks) ->
  Forall nameable (k0 :: ks) -> Forall (fun k => kind k <> K_esc) ks ->
  exists l k, last (k0 :: ks) = Some k /\ Forall (fun s => k_kind s = Pending) l /\
    steps (Resolver t2 []) (k0 :: ks) = (l ++ [Step Action action (spelled k0 ks) c (mods k)], Resolver t2 []).
Proof.
  intros Hbind Hfin Hcanon Hks He. set (full := spelled k0 ks) in *. apply Forall_cons_1 in Hks as [Hk0 Hks].
  destruct (spelled_tail k0 ks) as (tail & Htail & Hblank). fold full in Htail. pose proof (spelling_nonempty k0 Hk0) as Hne.
  unfold bind in Hbind. rewrite Hcanon in Hbind. cbn [mbind option_bind] in Hbind.
  destruct (is_nil full) eqn:En; [by destruct (seq_spelling k0); rewrite Htail in En|]. injection Hbind as <-.
  destruct (finalize_spec _ _ Hfin) as (Hact & Hpre & Hfree & Hhead). cbn [_actions] in *.
  pose proof (map_put_in (_actions t) full (Binding action c)) as Hin.
  assert (Hfind : map_find (_actions t2) full = Some (Binding action c)) by (rewrite Hact, map_find_put; by rewrite bytes_eqb_refl).
  assert (Hb : bound t2 full = true) by (unfold bound; by rewrite Hfind).
  assert (Hnp : prefix t2 full = false) by (destruct (prefix t2 full) eqn:E; [apply Hfree in E; congruence|done]).
  assert (Hbr : forall q, breaks full q -> prefix t2 q = true) by (intros q Hq; apply Hpre; by exists (full, Binding action c)).
  assert (Hty : key_types k0 = false).
  { apply (typed_head k0 tail Hk0 Hblank). rewrite <- Htail. apply (Hhead (full, Binding action c) Hin). }
  assert (Hsome : _actions t2 <> []) by (intros E; by rewrite E in Hfind).
  assert (Hstep : forall m, action_step t2 full m = Step Action action full c m) by (intros m; unfold action_step, action_of; by rewrite Hfind).
  destruct (step_head t2 k0 Hk0 Hty Hsome) as [S1 S2]. cbn [steps]. destruct ks as [|k ks].
  - change full with (seq_spelling k0) in *. rewrite S2 by done. cbn [steps]. exists [], k0. rewrite Hstep. by split_and!.
  - assert (Hp : prefix t2 (seq_spelling k0) = true).
    { apply Hbr. destruct (cont_join_app (seq_spelling k0) (k :: ks)) as (_ & _ & Hq). by apply Hq. }
    rewrite S1 by (done || by apply Hfree). destruct (steps_more t2 (k :: ks) (seq_spelling k0) full) as (l & k1 & Hl & Hall & Hs); try done.
    rewrite Hs, Hstep. exists (Step Pending [] [] 0 (mods k0) :: l), k1. split_and!; [done| |done].
    constructor; [done|]. eapply Forall_impl; [exact Hall|]. by intros s ->.
Qed.

Lemma chords_fire_witness :
  exists t1 t2 l k, bind no_bindings (B "^K  S") (B "save") 7 = Some t1 /\ finalize t1 = (t2, None) /\ Forall (fun s => k_kind s = Pending) l /\
    steps (Resolver t2 []) [new_key K_ctrl "k"%char 0; new_key K_ctrl "s"%char 0] =
      (l ++ [Step Action (B "save") (B "^k s") 7 (mods k)], Resolver t2 []).
Proof.
  eexists _, _. assert (Hk : Forall nameable [new_key K_ctrl "k"%char 0; new_key K_ctrl "s"%char 0]).
  { repeat constructor; vm_compute; done. }
  destruct (chords_fire no_bindings _ _ (B "^K  S") (B "save") 7 (new_key K_ctrl "k"%char 0) [new_key K_ctrl "s"%char 0]
              ltac:(vm_compute; reflexivity) ltac:(vm_compute; reflexivity) ltac:(vm_compute; reflexivity) Hk ltac:(repeat constructor; done))
    as (l & k & _ & H2 & H3).
  exists l, k. split; [vm_compute; reflexivity|]. split; [vm_compute; reflexivity|]. split; [exact H2|exact H3].
Defined.

Lemma action_step_binding t s m : Binding (s_name (action_step t s m)) (s_code (action_step t s m)) = action_of t s.
Proof. unfold action_step. cbn [s_name s_code]. by destruct (action_of t s). Qed.

Lemma continuation_in r k l : exists j, j ∈ k :: l /\
  continuation r (_pending r ++ " "%char :: cont_spelling k) l = _pending r ++ " "%char :: cont_spelling j.
Proof.
  revert k. induction l as [|k' l IH]; intros k; cbn [continuation]; [exists k; split; [by left|done]|].
  destruct (_ || _); [exists k; split; [by left|done]|]. destruct (IH k') as (j & Hj & ->). exists j. split; [by right|done].
Qed.

Lemma head_steps_in r first l m s r' : head_steps r first l m = Some (s, r') -> exists j, j ∈ l /\
  (bound (_bindings r) (seq_spelling j) = true /\ s = action_step (_bindings r) (seq_spelling j) m /\ r' = r \/
   prefix (_bindings r) (seq_spelling j) = true /\ s = Step Pending [] [] 0 m /\ r' = Resolver (_bindings r) (seq_spelling j)).
Proof.
  revert first. induction l as [|k l IH]; intros first; cbn [head_steps]; [done|]. case_if.
  - intros Hs. destruct (IH false Hs) as (j & ? & ?). exists j. split; [by right|done].
  - destruct (head_step r k m) as [[s1 r1]|] eqn:E.
    + intros [= <- <-]. exists k. split; [by left|]. unfold head_step in E. repeat case_if_in E; simplify_eq; [by left|by right].
    + intros Hs. destruct (IH false Hs) as (j & ? & ?). exists j. split; [by right|done].
Qed.

Lemma resolver_ready `{Platform} r k :
  _pending r = [] \/ prefix (_bindings r) (_pending r) = true ->
  let '(s, r') := step r k in _bindings r' = _bindings r /\ (_pending r' = [] \/ prefix (_bindings r') (_pending r') = true).
Proof.
  intros Hr. unfold step. case_if.
  - case_if; [done|]. case_if; [by split; [|left]|]. cbv zeta. case_if; cbn [_bindings _pending]; [by split; [|right]|by split; [|left]].
  - case_if; [done|]. case_if; [|done]. destruct (head_steps _ _ _ _) as [[s r']|] eqn:Eh; [|done].
    destruct (head_steps_in _ _ _ _ _ _ Eh) as (j & _ & [(_ & _ & ->)|(Hp & _ & ->)]); cbn [_bindings _pending]; [done|by split; [|right]].
Qed.

(** What a key does: a chord in progress is always one some sequence goes on
    from; a key that types passes through untouched while none is; what completes
    gives the bound name and code, or none; and Escape, a resize or a wake leave
    the table's sequences alone. *)
Theorem resolver_sound `{Platform} r k :
  _pending r = [] \/ prefix (_bindings r) (_pending r) = true ->
  let '(s, r') := step r k in
  _bindings r' = _bindings r /\ (_pending r' = [] \/ prefix (_bindings r) (_pending r') = true) /\
  match k_kind s with
  | Passthrough => _pending r = [] /\ r' = r
  | Transparent => _pending r <> [] /\ r' = r /\ synthesized k = true
  | Cancelled => _pending r <> [] /\ kind k = K_esc /\ _pending r' = []
  | Pending => prefix (_bindings r) (_pending r') = true /\ exists j, j ∈ key_lookups k /\
      _pending r' = if is_nil (_pending r) then seq_spelling j else _pending r ++ " "%char :: cont_spelling j
  | Action => _pending r' = [] /\ Binding (s_name s) (s_code s) = action_of (_bindings r) (s_seq s) /\ exists j, j ∈ key_lookups k /\
      if is_nil (_pending r) then s_seq s = seq_spelling j /\ bound (_bindings r) (s_seq s) = true
      else s_seq s = _pending r ++ " "%char :: cont_spelling j
  end /\
  (_pending r = [] -> key_types k = true -> s = plain_step Passthrough).
Proof.
  intros Hr. unfold step. destruct (is_nil (_pending r)) eqn:En; cbn [negb].
  - apply is_nil_true in En. destruct (key_types k) eqn:Et; [by rewrite En; split_and!; try left|]. case_if; [|by split_and!].
    destruct (head_steps r true (key_lookups k) (mods k)) as [[s r']|] eqn:Eh; [|by split_and!].
    destruct (head_steps_in _ _ _ _ _ _ Eh) as (j & Hj & [(Hb & -> & ->)|(Hp & -> & ->)]); cbn [k_kind action_step plain_step _bindings _pending].
    + refine (conj _ (conj _ (conj _ _))); [done|by left| |done]. split; [done|]. split; [apply action_step_binding|]. exists j. by split_and!.
    + refine (conj _ (conj _ (conj _ _))); [done|by right| |done]. split; [done|]. by exists j.
  - pose proof (proj1 (is_nil_false _) En) as Hne. case_if; [by split_and!|]. case_if.
    { cbn [k_kind plain_step _bindings _pending]. unfold is_key in *. reflect_bool. split_and!; try done. by left. }
    destruct (lookups_head k) as [l Hl]. rewrite Hl. cbn [drop]. rewrite drop_0. destruct (continuation_in r k l) as (j & Hj & ->). case_if;
      cbn [k_kind action_step plain_step _bindings _pending].
    + refine (conj _ (conj _ (conj _ _))); [done|by right| |done]. split; [done|]. by exists j.
    + refine (conj _ (conj _ (conj _ _))); [done|by left| |done]. split; [done|]. split; [apply action_step_binding|]. by exists j.
Qed.

Lemma resolver_sound_witness :
  exists t s r', (fst <$> sample) = Some t /\ step (Resolver t (B "^k q")) (new_key K_ch "F"%char 0) = (s, r') /\
    k_kind s = Action /\ _pending r' = [] /\ Binding (s_name s) (s_code s) = action_of t (s_seq s).
Proof.
  destruct (fst <$> sample) as [t|] eqn:Et; [|by vm_compute in Et]. exists t.
  assert (Hp : prefix t (B "^k q") = true) by (vm_compute in Et; injection Et as <-; vm_compute; reflexivity).
  assert (Hk : k_kind (step (Resolver t (B "^k q")) (new_key K_ch "F"%char 0)).1 = Action)
    by (vm_compute in Et; injection Et as <-; vm_compute; reflexivity).
  pose proof (resolver_sound (Resolver t (B "^k q")) (new_key K_ch "F"%char 0) (or_intror Hp)) as Hs.
  destruct (step _ _) as [s r']. exists s, r'. destruct Hs as (_ & _ & Hs & _). cbn [fst] in Hk. rewrite Hk in Hs.
  destruct Hs as (H1 & H2 & _). split_and!; done.
Defined.
