(* ===== verification/Focus.v ===== *)
(** Focus and the menu bar: [focus_state], the hotkey letters of
    [src/include/madcdis/ui_focus.h] and the event record of
    [src/include/madcdis/ui_events.h].

    An index out of a vector is [None]; [focus_safe] says that from a state the
    composer built no operation reaches one, and that each leaves such a state.
    [menu_moves]: what the arrows light.  [hotkey_picks]: Alt and a title's letter
    open its menu. *)
From stdpp Require Import gmap.
From S2P Require Import Prelude Numbers Keys.
#[local] Open Scope Z_scope.

(** ** Events *)

Inductive event_kind := E_none | E_text | E_key | E_choose | E_focus | E_resize | E_action | E_wake | E_snapshot | E_pointer | E_dialog.
#[export] Instance event_kind_eq : EqDecision event_kind.
Proof. solve_decision. Defined.
Record tui_event := Event {
  e_kind : event_kind; e_text : bytes; e_key : key; e_ch : ascii; e_mods : Z; e_option : nat; e_choice_focused : bool;
  e_action : Z; e_action_name : bytes; e_action_code : Z; e_seq : bytes;
  e_phase : pointer_phase; e_offset : Z; e_subject : Z; e_tag : Z }.
Definition new_event : tui_event := Event E_none [] K_none Ascii.zero 0 0 false 0 [] 0 [] P_down 0 0 (-1).
Definition event (k : event_kind) : tui_event := Event k [] K_none Ascii.zero 0 0 false 0 [] 0 [] P_down 0 0 (-1).
Definition set_event_kind (e : tui_event) (k : event_kind) : tui_event :=
  Event k (e_text e) (e_key e) (e_ch e) (e_mods e) (e_option e) (e_choice_focused e) (e_action e) (e_action_name e) (e_action_code e) (e_seq e)
        (e_phase e) (e_offset e) (e_subject e) (e_tag e).
Definition set_choose (e : tui_event) (sel : nat) (a c : Z) : tui_event :=
  Event E_choose (e_text e) (e_key e) (e_ch e) (e_mods e) sel (e_choice_focused e) a (e_action_name e) c (e_seq e)
        (e_phase e) (e_offset e) (e_subject e) (e_tag e).
Definition set_key (e : tui_event) (k : tui_keyev) : tui_event :=
  Event E_key (e_text e) (kind k) (ch k) (mods k) (e_option e) (e_choice_focused e) (e_action e) (e_action_name e) (e_action_code e) (e_seq e)
        (e_phase e) (e_offset e) (e_subject e) (e_tag e).
Definition set_option (e : tui_event) (sel : nat) : tui_event :=
  Event (e_kind e) (e_text e) (e_key e) (e_ch e) (e_mods e) sel true (e_action e) (e_action_name e) (e_action_code e) (e_seq e)
        (e_phase e) (e_offset e) (e_subject e) (e_tag e).
Definition set_action (e : tui_event) (n : bytes) (c : Z) : tui_event :=
  Event E_action (e_text e) (e_key e) (e_ch e) (e_mods e) (e_option e) (e_choice_focused e) (e_action e) n c (e_seq e)
        (e_phase e) (e_offset e) (e_subject e) (e_tag e).

(** ** The state *)

Inductive focusable_kind := F_choice | F_edit.
#[export] Instance focusable_kind_eq : EqDecision focusable_kind.
Proof. solve_decision. Defined.
Record focusable := Focusable { f_kind : focusable_kind; option_count : nat; option_actions : list Z; option_codes : list Z; takes_tab : bool }.
Record menu_row := MenuRow { id : bytes; code_ : Z; title : bytes; enabled : bool; sep : bool; hot : ascii }.
Record menu_col := MenuCol { m_title : bytes; m_hot : ascii; rows : list menu_row }.

(** [npos] of [_menu_open] is [None]. *)
Record focus_state := Focus {
  _focusables : list focusable; _focus : nat; _selection : gmap nat nat;
  _menus : list menu_col; _menu_open : option nat; _menu_row : nat; _menu_anchor : Z }.
Definition npos : Z := 2 ^ 64 - 1.
Definition new_focus : focus_state := Focus [] 0 ∅ [] None 0 npos.

Definition set_open (f : focus_state) (o : option nat) : focus_state :=
  Focus (_focusables f) (_focus f) (_selection f) (_menus f) o (_menu_row f) (_menu_anchor f).
Definition set_row (f : focus_state) (r : nat) : focus_state :=
  Focus (_focusables f) (_focus f) (_selection f) (_menus f) (_menu_open f) r (_menu_anchor f).
Definition set_anchor (f : focus_state) (a : Z) : focus_state :=
  Focus (_focusables f) (_focus f) (_selection f) (_menus f) (_menu_open f) (_menu_row f) a.

(** ** The hotkey letters *)

(** The letter and the letters taken; NUL is none. *)
Fixpoint menu_hotkey_of (title taken : bytes) : ascii * bytes :=
  match title with
  | [] => (Ascii.zero, taken)
  | c :: r =>
      let c := tolower c in
      if negb (islower c || isdigit c) then menu_hotkey_of r taken
      else match find_char c taken with Some _ => menu_hotkey_of r taken | None => (c, taken ++ [c]) end
  end.
Fixpoint row_hotkeys (l : list menu_row) (taken : bytes) : list menu_row :=
  match l with
  | [] => []
  | r :: l =>
      if sep r then r :: row_hotkeys l taken
      else let '(c, taken) := menu_hotkey_of (title r) taken in
           MenuRow (id r) (code_ r) (title r) (enabled r) (sep r) c :: row_hotkeys l taken
  end.
Fixpoint bar_hotkeys (l : list menu_col) (taken : bytes) : list menu_col :=
  match l with
  | [] => []
  | m :: l => let '(c, taken) := menu_hotkey_of (m_title m) taken in MenuCol (m_title m) c (row_hotkeys (rows m) []) :: bar_hotkeys l taken
  end.
Definition menu_hotkeys (l : list menu_col) : list menu_col := bar_hotkeys l [].

(** ** Menus *)

Definition menu_row_selectable (r : menu_row) : bool := negb (sep r) && enabled r.

(** [(from + n + (size_t)(step * (long)k)) % n] *)
Definition row_at (n from : nat) (step : Z) (k : nat) : nat :=
  Z.to_nat (u64 (Z.of_nat from + Z.of_nat n + step * Z.of_nat k) mod Z.of_nat n).
Fixpoint row_search (rs : list menu_row) (from : nat) (step : Z) (ks : list nat) : option (option nat) :=
  match ks with
  | [] => Some None
  | k :: ks =>
      let i := row_at (length rs) from step k in
      r ← rs !! i; if menu_row_selectable r then Some (Some i) else row_search rs from step ks
  end.

(** The open menu's rows; the inner [None] is [npos]. *)
Definition open_rows (f : focus_state) : option (list menu_row) := m ← _menu_open f; c ← _menus f !! m; Some (rows c).
Definition menu_row_from (f : focus_state) (from : nat) (step : Z) : option (option nat) :=
  rs ← open_rows f; row_search rs from step (seq 0 (length rs)).

Definition menu_show (f : focus_state) (m : nat) : option focus_state :=
  c ← _menus f !! m;
  let f := set_anchor (set_open f (Some m)) npos in
  r ← (if is_nil (rows c) then Some (Some O) else menu_row_from f 0 1);
  Some (set_row f (default O r)).

(** NUL: no letter. *)
Definition menu_letter (k : tui_keyev) : ascii :=
  if negb (is_key K_ch k) || negb (Z.land (mods k) (255 - alt) =? 0) then Ascii.zero else tolower (ch k).

Definition begin_compose (f : focus_state) : focus_state :=
  Focus [] (_focus f) (_selection f) (_menus f) (_menu_open f) (_menu_row f) (_menu_anchor f).
Definition add (f : focus_state) (x : focusable) : nat * focus_state :=
  (length (_focusables f),
   Focus (_focusables f ++ [x]) (_focus f) (_selection f) (_menus f) (_menu_open f) (_menu_row f) (_menu_anchor f)).
Definition set_focus (f : focus_state) (slot : nat) : focus_state :=
  Focus (_focusables f) slot (_selection f) (_menus f) (_menu_open f) (_menu_row f) (_menu_anchor f).
Definition end_compose (f : focus_state) : focus_state :=
  if (length (_focusables f) <=? _focus f)%nat then set_focus f 0 else f.

(** ** Navigation *)

Definition is_choice (x : focusable) : bool := bool_decide (f_kind x = F_choice).
Definition selection_of (f : focus_state) (slot : nat) : nat :=
  let sel := default O (_selection f !! slot) in
  match _focusables f !! slot with
  | Some x => if is_choice x && (0 <? option_count x)%nat && (option_count x <=? sel)%nat then (option_count x - 1)%nat else sel
  | None => sel
  end.
Definition on_choice (f : focus_state) : bool :=
  match _focusables f !! _focus f with Some x => is_choice x && (0 <? option_count x)%nat | None => false end.
Definition on_tab_field (f : focus_state) : bool :=
  match _focusables f !! _focus f with Some x => bool_decide (f_kind x = F_edit) && takes_tab x | None => false end.
Definition set_selection (f : focus_state) (slot sel : nat) : focus_state :=
  Focus (_focusables f) (_focus f) (<[slot := sel]> (_selection f)) (_menus f) (_menu_open f) (_menu_row f) (_menu_anchor f).

Definition is_arrow (k : tui_keyev) : bool := is_key K_left k || is_key K_up k || is_key K_right k || is_key K_down k.
Definition is_back (k : tui_keyev) : bool := is_key K_left k || is_key K_up k.
Definition chosen (x : focusable) (sel : nat) (e : tui_event) : option tui_event :=
  a ← option_actions x !! sel; Some (set_choose e sel a (default 0 (option_codes x !! sel))).

Definition navigate (f : focus_state) (k : tui_keyev) (e : tui_event) : option (bool * focus_state * tui_event) :=
  let n := length (_focusables f) in
  if is_key K_tab k && (1 <? n)%nat && negb (on_tab_field f) then
    Some (true, set_focus f ((_focus f + 1) mod n)%nat, set_event_kind e E_focus)
  else if on_choice f && is_arrow k then
    x ← _focusables f !! _focus f;
    let c := option_count x in let sel := selection_of f (_focus f) in
    let sel := (if is_back k then (sel + c - 1) mod c else (sel + 1) mod c)%nat in
    Some (true, set_selection f (_focus f) sel, set_event_kind e E_focus)
  else if on_choice f && is_key K_enter k then
    x ← _focusables f !! _focus f;
    e ← chosen x (selection_of f (_focus f)) e; Some (true, f, e)
  else
    let e := set_key e k in
    Some (false, f, if on_choice f then set_option e (selection_of f (_focus f)) else e).

(** [index < 0] is [None]. *)
Definition choose (f : focus_state) (slot : nat) (index : option nat) (e : tui_event) : option (bool * focus_state * tui_event) :=
  match _focusables f !! slot with
  | Some x =>
      if negb (is_choice x) || (option_count x =? 0)%nat then Some (false, f, e)
      else
        let f := set_focus f slot in
        let sel := match index with None => selection_of f slot | Some i => if (i <? option_count x)%nat then i else (option_count x - 1)%nat end in
        e ← chosen x sel e; Some (true, set_selection f slot sel, e)
  | None => Some (false, f, e)
  end.

(** ** The menu bar *)

Definition lit_selectable (rs : list menu_row) (r : nat) : bool :=
  match rs !! r with Some x => menu_row_selectable x | None => false end.
Definition set_menus (f : focus_state) (menus : list menu_col) : option focus_state :=
  let f := Focus (_focusables f) (_focus f) (_selection f) menus (_menu_open f) (_menu_row f) (_menu_anchor f) in
  match _menu_open f with
  | None => Some f
  | Some m =>
      match menus !! m with
      | None => Some (set_open f None)
      | Some c =>
          if lit_selectable (rows c) (_menu_row f) then Some f
          else r ← (if is_nil (rows c) then Some None else menu_row_from f 0 1); Some (set_row f (default O r))
      end
  end.
Definition menu_is_open (f : focus_state) : bool := match _menu_open f with Some _ => true | None => false end.

Definition menu_open_titled (f : focus_state) (t : bytes) (anchor : Z) : option (bool * focus_state) :=
  match list_find (fun c => m_title c = t) (_menus f) with
  | Some (m, _) => f ← menu_show f m; Some (true, set_anchor f anchor)
  | None => Some (false, f)
  end.

(** The first menu of a letter. *)
Definition menu_of_letter (f : focus_state) (c : ascii) : option nat := fst <$> list_find (fun m => m_hot m = c) (_menus f).
Definition row_of_letter (rs : list menu_row) (c : ascii) : option nat := fst <$> list_find (fun r => sep r = false /\ hot r = c) rs.

Definition menu_opens (f : focus_state) (k : tui_keyev) (e : tui_event) : option (bool * focus_state * tui_event) :=
  if is_nil (_menus f) || menu_is_open f then Some (false, f, e)
  else if is_key K_fkey k && (code (ch k) =? 10) && (mods k =? 0) then
    f ← menu_show f 0; Some (true, f, set_event_kind e E_focus)
  else if is_key K_ch k && (mods k =? alt) then
    let c := menu_letter k in
    match (if byte_eqb c Ascii.zero then None else menu_of_letter f c) with
    | Some m => f ← menu_show f m; Some (true, f, set_event_kind e E_focus)
    | None => Some (false, f, e)
    end
  else Some (false, f, e).

Definition menu_choose (f : focus_state) (i : nat) (e : tui_event) : option (bool * focus_state * tui_event) :=
  match _menu_open f with
  | None => Some (false, f, e)
  | Some _ =>
      rs ← open_rows f;
      match rs !! i with
      | Some r => if menu_row_selectable r then Some (true, set_open f None, set_action e (id r) (code_ r)) else Some (false, f, e)
      | None => Some (false, f, e)
      end
  end.

(** The cases of [menu_key]: up and down, and a letter. *)
Definition menu_arrow (f : focus_state) (step : Z) : option focus_state :=
  rs ← open_rows f;
  if is_nil rs then Some f
  else
    r ← menu_row_from f (row_at (length rs) (_menu_row f) step 1) step;
    Some (match r with Some r => set_row f r | None => f end).
Definition menu_by_letter (f : focus_state) (k : tui_keyev) (e : tui_event) : option (focus_state * tui_event) :=
  let c := menu_letter k in
  if byte_eqb c Ascii.zero then Some (f, e)
  else
    match (if mods k =? 0 then None else menu_of_letter f c) with
    | Some m => f ← menu_show f m; Some (f, e)
    | None =>
        rs ← open_rows f;
        match row_of_letter rs c with
        | Some i => '(_, f, e) ← menu_choose f i e; Some (f, e)
        | None => Some (f, e)
        end
    end.
Definition menu_key (f : focus_state) (k : tui_keyev) (e : tui_event) : option (focus_state * tui_event) :=
  let e := set_event_kind e E_focus in
  let nm := length (_menus f) in
  match kind k with
  | K_esc => Some (set_open f None, e)
  | K_fkey => Some (if code (ch k) =? 10 then set_open f None else f, e)
  | K_left => m ← _menu_open f; f ← menu_show f ((m + nm - 1) mod nm)%nat; Some (f, e)
  | K_right => m ← _menu_open f; f ← menu_show f ((m + 1) mod nm)%nat; Some (f, e)
  | K_up => f ← menu_arrow f (-1); Some (f, e)
  | K_down => f ← menu_arrow f 1; Some (f, e)
  | K_enter => '(_, f, e) ← menu_choose f (_menu_row f) e; Some (f, e)
  | _ => menu_by_letter f k e
  end.

Definition menu_toggle (f : focus_state) (m : nat) : option focus_state :=
  if (length (_menus f) <=? m)%nat then Some f
  else if bool_decide (_menu_open f = Some m) then Some (set_open f None) else menu_show f m.
Definition menu_close (f : focus_state) : focus_state := set_open f None.

(** A bar of two menus. *)
Definition row (t : string) (en sp : bool) : menu_row := MenuRow (B t) 0 (B t) en sp Ascii.zero.
Definition bar : list menu_col :=
  menu_hotkeys [MenuCol (B "File") Ascii.zero [row "New" true false; row "Open" false false; row "" true true; row "Quit" true false];
                MenuCol (B "Fold") Ascii.zero [row "" true true; row "all" false false]].
Definition menu_run (ks : list tui_keyev) : option (list (option nat * nat * event_kind * bytes)) :=
  f ← set_menus new_focus bar; '(_, f, _) ← menu_opens f (new_key K_fkey "010"%char 0) new_event;
  (fix run f ks := match ks with
                   | [] => Some []
                   | k :: ks => '(f, e) ← menu_key f k new_event; l ← run f ks;
                                Some ((_menu_open f, _menu_row f, e_kind e, e_action_name e) :: l)
                   end) f ks.
Definition plain (k : key) : tui_keyev := new_key k Ascii.zero 0.
Example menu_ex :
  (map m_hot bar, map hot (rows (nth 0 bar (MenuCol [] Ascii.zero []))),
   menu_run [plain K_down; plain K_down; plain K_up; plain K_enter], menu_run [plain K_left; new_key K_ch "f"%char alt; new_key K_ch "q"%char 0]) =
  (["f"%char; "o"%char], ["n"%char; "o"%char; Ascii.zero; "q"%char],
   Some [(Some 0%nat, 3%nat, E_focus, []); (Some 0%nat, 0%nat, E_focus, []); (Some 0%nat, 3%nat, E_focus, []); (None, 3%nat, E_action, B "Quit")],
   Some [(Some 1%nat, 0%nat, E_focus, []); (Some 0%nat, 0%nat, E_focus, []); (None, 0%nat, E_action, B "Quit")]).
Proof. vm_compute. reflexivity. Qed.

(** A menu with no row to choose lights its first one all the same. *)
Example separator_lit : (f ← set_menus new_focus bar; f ← menu_show f 1; rs ← open_rows f; Some (_menu_row f, sep <$> rs !! 0%nat)) = Some (0%nat, Some true).
Proof. vm_compute. reflexivity. Qed.

(** ** Searching the rows *)

Definition small (rs : list menu_row) : Prop := Z.of_nat (length rs) < 2 ^ 62.
Definition direction (step : Z) : Prop := step = 1 \/ step = -1.

Lemma row_at_spec n from step k : Z.of_nat n < 2 ^ 62 -> direction step -> (from < n)%nat -> (k <= n)%nat ->
  Z.of_nat (row_at n from step k) = (Z.of_nat from + step * Z.of_nat k) mod Z.of_nat n /\ (row_at n from step k < n)%nat.
Proof.
  intros Hn Hs Hf Hk. unfold row_at, u64. rewrite (Z.mod_small _ (2 ^ 64)) by (destruct Hs as [->| ->]; lia).
  replace (Z.of_nat from + Z.of_nat n + step * Z.of_nat k) with (Z.of_nat from + step * Z.of_nat k + 1 * Z.of_nat n) by lia.
  rewrite Z_mod_plus_full. pose proof (Z.mod_pos_bound (Z.of_nat from + step * Z.of_nat k) (Z.of_nat n) ltac:(lia)). lia.
Qed.

(** Each row is reached. *)
Lemma row_at_covers n from step i : Z.of_nat n < 2 ^ 62 -> direction step -> (from < n)%nat -> (i < n)%nat ->
  exists k, (k < n)%nat /\ row_at n from step k = i.
Proof.
  intros Hn Hs Hf Hi. set (d := (step * (Z.of_nat i - Z.of_nat from)) mod Z.of_nat n).
  pose proof (Z.mod_pos_bound (step * (Z.of_nat i - Z.of_nat from)) (Z.of_nat n) ltac:(lia)) as Hd. fold d in Hd.
  exists (Z.to_nat d). split; [lia|]. destruct (row_at_spec n from step (Z.to_nat d) Hn Hs Hf ltac:(lia)) as [H1 _].
  apply Nat2Z.inj. rewrite H1, Z2Nat.id by lia. unfold d. rewrite Zplus_mod, Zmult_mod_idemp_r, <- Zplus_mod.
  destruct Hs as [->| ->].
  - replace (Z.of_nat from + 1 * (1 * (Z.of_nat i - Z.of_nat from))) with (Z.of_nat i) by lia. apply Z.mod_small. lia.
  - replace (Z.of_nat from + -1 * (-1 * (Z.of_nat i - Z.of_nat from))) with (Z.of_nat i) by lia. apply Z.mod_small. lia.
Qed.

(** The first of [ks] whose row can be chosen. *)
Lemma row_search_spec rs from step ks : small rs -> direction step -> (from < length rs)%nat -> Forall (fun k => (k <= length rs)%nat) ks ->
  exists r, row_search rs from step ks = Some r /\
    match r with
    | None => forall k, k ∈ ks -> lit_selectable rs (row_at (length rs) from step k) = false
    | Some i => lit_selectable rs i = true /\ exists l1 k l2, ks = l1 ++ k :: l2 /\ i = row_at (length rs) from step k /\
        forall k', k' ∈ l1 -> lit_selectable rs (row_at (length rs) from step k') = false
    end.
Proof.
  intros Hsm Hs Hf. induction 1 as [|k ks Hk _ IH]; cbn [row_search]; [eexists; split; [done|by intros k ?%elem_of_nil]|].
  destruct (row_at_spec _ from step k Hsm Hs Hf Hk) as [_ Hlt]. set (i := row_at _ from step k) in *.
  destruct (lookup_lt_is_Some_2 rs i Hlt) as [x Hx]. rewrite Hx. cbn [mbind option_bind]. destruct (menu_row_selectable x) eqn:Ex.
  - eexists. split; [done|]. split; [unfold lit_selectable; by rewrite Hx|]. exists [], k, ks. split_and!; [done|done|by intros k' ?%elem_of_nil].
  - assert (Hi : lit_selectable rs i = false) by (unfold lit_selectable; by rewrite Hx). destruct IH as (r & -> & Hr). exists r. split; [done|].
    destruct r as [j|].
    + destruct Hr as (H1 & l1 & k1 & l2 & -> & -> & H2). split; [done|]. exists (k :: l1), k1, l2. split_and!; [done|done|].
      intros k' [->|?]%elem_of_cons; [done|by apply H2].
    + intros k' [->|?]%elem_of_cons; [done|by apply Hr].
Qed.

Definition none_selectable (rs : list menu_row) : Prop := forall i, lit_selectable rs i = false.
Lemma row_from_spec rs from step : small rs -> direction step -> (from < length rs)%nat ->
  exists r, row_search rs from step (seq 0 (length rs)) = Some r /\
    match r with Some i => lit_selectable rs i = true | None => none_selectable rs end.
Proof.
  intros Hsm Hs Hf. destruct (row_search_spec rs from step (seq 0 (length rs)) Hsm Hs Hf) as (r & Hr & Hspec).
  { apply Forall_forall. intros k Hk%elem_of_seq. lia. }
  exists r. split; [done|]. destruct r as [i|]; [by apply Hspec|]. intros i. destruct (decide (i < length rs)%nat) as [Hi|Hi].
  - destruct (row_at_covers _ from step i Hsm Hs Hf Hi) as (k & Hk & <-). apply Hspec. apply elem_of_seq. lia.
  - unfold lit_selectable. by rewrite lookup_ge_None_2 by lia.
Qed.

Lemma selectable_lt rs i : lit_selectable rs i = true -> (i < length rs)%nat.
Proof. unfold lit_selectable. destruct (rs !! i) eqn:E; [|done]. intros _. by eapply lookup_lt_Some. Qed.

(** ** What the composer builds and the operations keep *)

Definition focusable_ok (x : focusable) : Prop := is_choice x = true -> (option_count x <= length (option_actions x))%nat.
Definition lit_ok (rs : list menu_row) (r : nat) : Prop := lit_selectable rs r = true \/ none_selectable rs /\ r = O.
Record inv (f : focus_state) : Prop := {
  inv_focusables : Forall focusable_ok (_focusables f);
  inv_menus : Forall (fun c => small (rows c)) (_menus f);
  inv_open : match _menu_open f with Some m => exists c, _menus f !! m = Some c /\ lit_ok (rows c) (_menu_row f) | None => True end
}.

Lemma new_inv : inv new_focus.
Proof. by split; try constructor. Qed.

(** Showing a menu lights its first row to choose. *)
Lemma settle rs f : small rs -> open_rows f = Some rs ->
  exists r, (if is_nil rs then Some None else menu_row_from f 0 1) = Some r /\ lit_ok rs (default O r) /\
    (if is_nil rs then Some (Some O) else menu_row_from f 0 1) = Some (if is_nil rs then Some O else r).
Proof.
  intros Hsm Ho. destruct rs as [|x rs].
  - exists None. split_and!; [done| |done]. right. by split.
  - unfold menu_row_from. rewrite Ho. cbn [is_nil mbind option_bind].
    destruct (row_from_spec (x :: rs) 0 1 Hsm ltac:(by left) ltac:(simpl; lia)) as (r & -> & Hr). exists r. split_and!; [done| |done].
    destruct r as [i|]; [by left|by right].
Qed.

Lemma menu_show_inv f m c : inv f -> _menus f !! m = Some c ->
  exists f', menu_show f m = Some f' /\ inv f' /\ _menu_open f' = Some m /\ _menus f' = _menus f /\ _focusables f' = _focusables f.
Proof.
  intros [H1 H2 H3] Hm. unfold menu_show. rewrite Hm. cbn [mbind option_bind].
  assert (Hsm : small (rows c)) by (rewrite Forall_lookup in H2; by apply (H2 m)).
  set (f1 := set_anchor (set_open f (Some m)) npos).
  destruct (settle (rows c) f1 Hsm) as (r & _ & Hlit & Hr); [unfold open_rows; cbn; by rewrite Hm|]. rewrite Hr. cbn [mbind option_bind].
  eexists. split; [done|]. split_and!; [|done|done|done]. split; [done|done|]. cbn. exists c. split; [done|].
  destruct (is_nil (rows c)) eqn:En; [|done]. apply is_nil_true in En. rewrite En. right. by split.
Qed.

Lemma set_open_None f : inv f -> inv (set_open f None).
Proof. intros [H1 H2 H3]. by split. Qed.

Lemma open_spec f m : inv f -> _menu_open f = Some m ->
  exists c, _menus f !! m = Some c /\ open_rows f = Some (rows c) /\ small (rows c) /\ lit_ok (rows c) (_menu_row f) /\ (m < length (_menus f))%nat.
Proof.
  intros [H1 H2 H3] Hm. rewrite Hm in H3. destruct H3 as (c & Hc & Hl). exists c. unfold open_rows. rewrite Hm. cbn [mbind option_bind].
  rewrite Hc. split_and!; try done; [rewrite Forall_lookup in H2; by apply (H2 m)|by eapply lookup_lt_Some].
Qed.
Lemma lit_lt rs r : lit_ok rs r -> rs <> [] -> (r < length rs)%nat.
Proof. intros [H|[_ ->]] Hne; [by apply selectable_lt|]. destruct rs; [done|simpl; lia]. Qed.

Lemma set_menus_inv f ms : inv f -> Forall (fun c => small (rows c)) ms -> exists f', set_menus f ms = Some f' /\ inv f'.
Proof.
  intros [H1 H2 H3] Hms. unfold set_menus. cbn [_menu_open _menu_row]. destruct (_menu_open f) as [m|] eqn:Eo; [|by eexists].
  destruct (ms !! m) as [c|] eqn:Em; [|eexists; by split].
  assert (Hsm : small (rows c)) by (rewrite Forall_lookup in Hms; by apply (Hms m)).
  destruct (lit_selectable (rows c) (_menu_row f)) eqn:El.
  - eexists. split; [done|]. split; [done|done|]. cbn. exists c. split; [done|by left].
  - set (f1 := Focus _ _ _ ms _ _ _). destruct (settle (rows c) f1 Hsm) as (r & Hr & Hlit & _); [unfold open_rows; cbn; by rewrite Em|].
    rewrite Hr. cbn [mbind option_bind]. eexists. split; [done|]. split; [done|done|]. cbn. exists c. by split.
Qed.

Lemma menu_choose_inv f i e : inv f -> exists b f' e', menu_choose f i e = Some (b, f', e') /\ inv f' /\
  if b then _menu_open f' = None /\ exists c r, (m ← _menu_open f; _menus f !! m) = Some c /\ rows c !! i = Some r /\
              menu_row_selectable r = true /\ e_action_name e' = id r /\ e_action_code e' = code_ r /\ e_kind e' = E_action
  else f' = f /\ e' = e.
Proof.
  intros Hf. unfold menu_choose. destruct (_menu_open f) as [m|] eqn:Eo; [|by exists false, f, e].
  destruct (open_spec f m Hf Eo) as (c & Hc & Hr & _). rewrite Hr. cbn [mbind option_bind].
  destruct (rows c !! i) as [r|] eqn:Ei; [|by exists false, f, e]. destruct (menu_row_selectable r) eqn:Er; [|by exists false, f, e].
  exists true, (set_open f None). eexists. split; [done|]. split; [by apply set_open_None|]. split; [done|]. exists c, r. by split_and!.
Qed.

(** Up and down in an open menu: the next row to choose that way, around the ends;
    where there is none the light stays. *)
Definition next_lit (rs : list menu_row) (from : nat) (step : Z) (r : nat) : Prop :=
  (exists d, (1 <= d <= length rs)%nat /\ Z.of_nat r = (Z.of_nat from + step * Z.of_nat d) mod Z.of_nat (length rs) /\
     lit_selectable rs r = true /\
     forall d', (1 <= d' < d)%nat -> lit_selectable rs (row_at (length rs) from step d') = false) \/
  none_selectable rs /\ r = from.

Lemma row_at_twice n from step k : Z.of_nat n < 2 ^ 62 -> direction step -> (from < n)%nat -> (k < n)%nat ->
  row_at n (row_at n from step 1) step k = row_at n from step (S k).
Proof.
  intros Hn Hs Hf Hk. destruct (row_at_spec n from step 1 Hn Hs Hf ltac:(lia)) as [H1 L1].
  destruct (row_at_spec n (row_at n from step 1) step k Hn Hs L1 ltac:(lia)) as [H2 _].
  destruct (row_at_spec n from step (S k) Hn Hs Hf ltac:(lia)) as [H3 _]. apply Nat2Z.inj. rewrite H2, H3, H1, Zplus_mod_idemp_l.
  f_equal. lia.
Qed.

Lemma arrows_light f m c step : inv f -> _menu_open f = Some m -> _menus f !! m = Some c -> rows c <> [] -> direction step ->
  exists r, menu_row_from f (row_at (length (rows c)) (_menu_row f) step 1) step = Some r /\
    next_lit (rows c) (_menu_row f) step (default (_menu_row f) r) /\ lit_ok (rows c) (default (_menu_row f) r).
Proof.
  intros Hf Hm Hc Hne Hs. destruct (open_spec f m Hf Hm) as (c' & Hc' & Ho & Hsm & Hlit & _). assert (c' = c) as -> by congruence.
  pose proof (lit_lt _ _ Hlit Hne) as Hlt. destruct (row_at_spec _ (_menu_row f) step 1 Hsm Hs Hlt ltac:(lia)) as [_ L1].
  unfold menu_row_from. rewrite Ho. cbn [mbind option_bind]. set (n := length (rows c)) in *.
  destruct (row_search_spec (rows c) (row_at n (_menu_row f) step 1) step (seq 0 n) Hsm Hs L1) as (r & Hr & Hspec).
  { apply Forall_forall. intros k Hk%elem_of_seq. unfold n in Hk. lia. }
  exists r. split; [done|]. destruct r as [i|]; cbn [default]; unfold Datatypes.id.
  - destruct Hspec as (Hi & l1 & k & l2 & Hseq & -> & Hfirst). split; [|by left]. left.
    assert (Hk : (k < n)%nat /\ l1 = seq 0 k).
    { assert (k = length l1) as Hkl.
      { assert (Hl : seq 0 n !! length l1 = Some k) by (rewrite Hseq; by apply list_lookup_middle). apply lookup_seq in Hl. lia. }
      assert (k < n)%nat by (apply (f_equal length) in Hseq; rewrite length_app, length_seq in Hseq; simpl in Hseq; lia). split; [done|].
      apply (f_equal (take k)) in Hseq. rewrite Hkl in Hseq at 2. rewrite take_app_length in Hseq. rewrite <- Hseq.
      replace n with (k + (n - k))%nat by lia. rewrite seq_app, take_app_le by (rewrite length_seq; lia).
      rewrite take_ge by (rewrite length_seq; lia). done. }
    destruct Hk as [Hk ->]. exists (S k). split; [lia|]. fold n in Hi |- *. rewrite (row_at_twice n) in Hi |- * by done.
    destruct (row_at_spec n (_menu_row f) step (S k) Hsm Hs Hlt ltac:(lia)) as [-> _]. split_and!; [done|done|].
    intros d' Hd'. specialize (Hfirst (d' - 1)%nat). fold n in Hfirst. rewrite row_at_twice in Hfirst by (done || lia).
    replace (S (d' - 1)) with d' in Hfirst by lia. apply Hfirst. apply elem_of_seq. lia.
  - assert (Hnone : none_selectable (rows c)).
    { intros i. destruct (decide (i < n)%nat) as [Hi|Hi]; [|unfold lit_selectable; by rewrite lookup_ge_None_2 by (unfold n in Hi; lia)].
      destruct (row_at_covers n _ step i Hsm Hs L1 Hi) as (k & Hk & <-). apply Hspec. apply elem_of_seq. lia. }
    split; [by right|]. right. split; [done|]. destruct Hlit as [H|[_ H]]; [by rewrite Hnone in H|done].
Qed.

Lemma chosen_ok x sel e : focusable_ok x -> is_choice x = true -> (sel < option_count x)%nat -> exists e', chosen x sel e = Some e'.
Proof.
  intros Hx Hc Hs. specialize (Hx Hc). unfold chosen. destruct (lookup_lt_is_Some_2 (option_actions x) sel ltac:(lia)) as [a ->]. by eexists.
Qed.

Lemma selection_lt f slot x : _focusables f !! slot = Some x -> is_choice x = true -> (0 < option_count x)%nat -> (selection_of f slot < option_count x)%nat.
Proof.
  intros Hx Hc Hn. unfold selection_of. rewrite Hx, Hc. rewrite (proj2 (Nat.ltb_lt _ _)) by done. cbn [andb].
  destruct (Nat.leb_spec (option_count x) (default O (_selection f !! slot))); lia.
Qed.

Lemma inv_change f f' : inv f -> _focusables f' = _focusables f -> _menus f' = _menus f -> _menu_open f' = _menu_open f -> _menu_row f' = _menu_row f -> inv f'.
Proof. intros [H1 H2 H3] E1 E2 E3 E4. split; by rewrite ?E1, ?E2, ?E3, ?E4. Qed.

Lemma navigate_inv f k e : inv f -> exists b f' e', navigate f k e = Some (b, f', e') /\ inv f' /\ _menu_open f' = _menu_open f.
Proof.
  intros Hf. unfold navigate. case_if; [eexists _, _, _; split; [done|]; split; [by apply (inv_change f)|done]|].
  assert (Hch : on_choice f = true -> exists x, _focusables f !! _focus f = Some x /\ is_choice x = true /\ (0 < option_count x)%nat).
  { unfold on_choice. destruct (_focusables f !! _focus f) as [x|]; [|done]. intros H. reflect_bool. by exists x. }
  case_if.
  { reflect_bool. destruct Hch as (x & Hx & Hc & Hn); [done|]. rewrite Hx. cbn [mbind option_bind]. eexists _, _, _. split; [done|].
    split; [by apply (inv_change f)|done]. }
  case_if; [|eexists _, _, _; by split].
  reflect_bool. destruct Hch as (x & Hx & Hc & Hn); [done|]. rewrite Hx. cbn [mbind option_bind].
  destruct (chosen_ok x (selection_of f (_focus f)) e) as [e' ->]; [|done|by apply selection_lt|by eexists _, _, _].
  pose proof (inv_focusables f Hf) as H1. rewrite Forall_lookup in H1. by apply (H1 (_focus f)).
Qed.

Lemma choose_inv f slot i e : inv f -> exists b f' e', choose f slot i e = Some (b, f', e') /\ inv f'.
Proof.
  intros Hf. unfold choose. destruct (_focusables f !! slot) as [x|] eqn:Ex; [|by eexists _, _, _]. case_if; [by eexists _, _, _|].
  reflect_bool. assert (Hc : is_choice x = true) by by destruct (is_choice x). cbv zeta.
  match goal with |- context [chosen x ?s e] => destruct (chosen_ok x s e) as [e' ->] end.
  - pose proof (inv_focusables f Hf) as H1. rewrite Forall_lookup in H1. by apply (H1 slot).
  - done.
  - destruct i as [i|]; [destruct (Nat.ltb_spec i (option_count x)); lia|]. change (selection_of (set_focus f slot) slot) with (selection_of f slot).
    apply selection_lt; [done|done|lia].
  - cbn [mbind option_bind]. eexists _, _, _. split; [done|]. by apply (inv_change f).
Qed.

Lemma menu_opens_inv f k e : inv f -> exists b f' e', menu_opens f k e = Some (b, f', e') /\ inv f'.
Proof.
  intros Hf. unfold menu_opens. destruct (is_nil (_menus f)) eqn:En; [by eexists _, _, _|]. cbn [orb]. case_if; [by eexists _, _, _|]. case_if.
  - destruct (_menus f) as [|c ms] eqn:Em; [done|]. destruct (menu_show_inv f 0 c Hf) as (f' & -> & Hf' & _); [by rewrite Em|].
    cbn [mbind option_bind]. by eexists _, _, _.
  - case_if; [|by eexists _, _, _]. destruct (if byte_eqb _ _ then _ else _) as [m|] eqn:Ec; [|by eexists _, _, _].
    case_if_in Ec; [done|]. apply fmap_Some in Ec as ([m' c] & Hfind & ->). apply list_find_Some in Hfind as (Hc & _).
    cbn [fst]. destruct (menu_show_inv f m' c Hf Hc) as (f' & -> & Hf' & _). cbn [mbind option_bind]. by eexists _, _, _.
Qed.

Lemma menu_arrow_inv f m step : inv f -> _menu_open f = Some m -> direction step ->
  exists f', menu_arrow f step = Some f' /\ inv f' /\ f' = set_row f (_menu_row f') /\
    forall c, _menus f !! m = Some c -> rows c = [] /\ f' = f \/ next_lit (rows c) (_menu_row f) step (_menu_row f').
Proof.
  intros Hf Em Hs. destruct (open_spec f m Hf Em) as (c & Hc & Hr & Hsm & Hlit & _). unfold menu_arrow. rewrite Hr. cbn [mbind option_bind].
  destruct (is_nil (rows c)) eqn:En.
  - apply is_nil_true in En. exists f. split_and!; [done|done|by destruct f|]. intros c' Hc'. left. split; [congruence|done].
  - apply is_nil_false in En. destruct (arrows_light f m c step Hf Em Hc En Hs) as (r & -> & Hn & Hl). cbn [mbind option_bind].
    assert (Hinv : inv (set_row f (default (_menu_row f) r))).
    { destruct Hf as [H1 H2 H3]. split; [done|done|]. cbn [_menu_open set_row _menus _menu_row]. rewrite Em. by exists c. }
    assert (E : (match r with Some r => set_row f r | None => f end) = set_row f (default (_menu_row f) r)) by (destruct r; [done|by destruct f]).
    rewrite E. eexists. split_and!; [done|done|done|]. intros c' Hc'. right. by assert (c' = c) as -> by congruence.
Qed.

Lemma menu_by_letter_inv f m k e : inv f -> _menu_open f = Some m -> exists f' e', menu_by_letter f k e = Some (f', e') /\ inv f'.
Proof.
  intros Hf Em. destruct (open_spec f m Hf Em) as (c & Hc & Hr & _). unfold menu_by_letter. cbv zeta. case_if; [by eexists _, _|].
  destruct (if mods k =? 0 then None else _) as [m'|] eqn:El.
  - case_if_in El; [done|]. apply fmap_Some in El as ([m1 c1] & Hfind & ->). apply list_find_Some in Hfind as (Hc1 & _). cbn [fst].
    destruct (menu_show_inv f m1 c1 Hf Hc1) as (f' & -> & ? & _). by eexists _, _.
  - rewrite Hr. cbn [mbind option_bind]. destruct (row_of_letter _ _) as [i|]; [|by eexists _, _].
    destruct (menu_choose_inv f i e Hf) as (b & f' & e' & -> & ? & _). by eexists _, _.
Qed.

Lemma menu_key_inv f k e : inv f -> menu_is_open f = true -> exists f' e', menu_key f k e = Some (f', e') /\ inv f'.
Proof.
  intros Hf Ho. unfold menu_is_open in Ho. destruct (_menu_open f) as [m|] eqn:Em; [|done].
  destruct (open_spec f m Hf Em) as (c & Hc & Hr & Hsm & Hlit & Hm).
  assert (Hshow : forall x (e' : tui_event), exists f' e1, (f0 ← menu_show f (x mod length (_menus f))%nat; Some (f0, e')) = Some (f', e1) /\ inv f').
  { intros x e'. destruct (lookup_lt_is_Some_2 (_menus f) (x mod length (_menus f))) as [c' Hc']; [apply Nat.mod_upper_bound; lia|].
    destruct (menu_show_inv f _ c' Hf Hc') as (f' & -> & ? & _). by eexists _, _. }
  pose proof (set_open_None f Hf) as Hclose. unfold menu_key. rewrite Em.
  destruct (kind k); try (by apply menu_by_letter_inv with m); try (by eexists _, _); try apply Hshow.
  - destruct (menu_choose_inv f (_menu_row f) (set_event_kind e E_focus) Hf) as (b & f' & e' & -> & ? & _). by eexists _, _.
  - destruct (menu_arrow_inv f m (-1) Hf Em) as (f' & -> & ? & _); [by right|]. by eexists _, _.
  - destruct (menu_arrow_inv f m 1 Hf Em) as (f' & -> & ? & _); [by left|]. by eexists _, _.
  - eexists _, _. split; [done|]. by case_if.
Qed.

(** ** Every operation *)

Inductive op :=
| Compose (l : list focusable) (autofocus : option nat) | SetMenus (ms : list menu_col) | Navigate (k : tui_keyev) | Choose (slot : nat) (i : option nat)
| MenuOpens (k : tui_keyev) | OpenTitled (t : bytes) (anchor : Z) | MenuKey (k : tui_keyev) | Toggle (m : nat) | ChooseRow (i : nat) | Close.
Definition compose (f : focus_state) (l : list focusable) (autofocus : option nat) : focus_state :=
  let f := fold_left (fun f x => (add f x).2) l (begin_compose f) in
  end_compose (match autofocus with Some s => set_focus f s | None => f end).
Definition run_op (f : focus_state) (o : op) (e : tui_event) : option (focus_state * tui_event) :=
  match o with
  | Compose l a => Some (compose f l a, e)
  | SetMenus ms => f ← set_menus f ms; Some (f, e)
  | Navigate k => '(_, f, e) ← navigate f k e; Some (f, e)
  | Choose s i => '(_, f, e) ← choose f s i e; Some (f, e)
  | MenuOpens k => '(_, f, e) ← menu_opens f k e; Some (f, e)
  | OpenTitled t a => '(_, f) ← menu_open_titled f t a; Some (f, e)
  | MenuKey k => menu_key f k e
  | Toggle m => f ← menu_toggle f m; Some (f, e)
  | ChooseRow i => '(_, f, e) ← menu_choose f i e; Some (f, e)
  | Close => Some (menu_close f, e)
  end.
(** What the caller sees to: options have actions, a vector is no longer than
    memory, an open bar before its keys. *)
Definition op_ok (f : focus_state) (o : op) : Prop :=
  match o with
  | Compose l _ => Forall focusable_ok l
  | SetMenus ms => Forall (fun c => small (rows c)) ms
  | MenuKey _ => menu_is_open f = true
  | _ => True
  end.

Lemma compose_inv f l a : inv f -> Forall focusable_ok l -> inv (compose f l a).
Proof.
  intros Hf Hl. unfold compose. assert (H0 : inv (begin_compose f)) by (destruct Hf; by split).
  assert (H1 : inv (fold_left (fun f x => (add f x).2) l (begin_compose f))).
  { revert H0. generalize (begin_compose f). induction Hl as [|x l Hx _ IH]; intros f0 H0; [done|]. simpl. apply IH. destruct H0 as [I1 I2 I3].
    split; [|done|done]. cbn. apply Forall_app. split; [done|by constructor]. }
  assert (Hset : forall g s, inv g -> inv (set_focus g s)) by (intros g s [? ? ?]; by split).
  assert (Hend : forall g, inv g -> inv (end_compose g)) by (intros g Hg; unfold end_compose; case_if; [by apply Hset|done]).
  apply Hend. destruct a; [by apply Hset|done].
Qed.

(** No operation of the focus owner and its menu bar reads outside a vector,
    and each keeps what the others rely on: an open menu is one of the bar, the
    lit row is one that can be chosen wherever the menu has such a row, and a row
    chosen is one that can be. *)
Theorem focus_safe f o e : inv f -> op_ok f o -> exists f' e', run_op f o e = Some (f', e') /\ inv f'.
Proof.
  intros Hf Ho. destruct o as [l a|ms|k|s i|k|t a|k|m|i|]; cbn [run_op op_ok] in *.
  - eexists _, _. split; [done|]. by apply compose_inv.
  - destruct (set_menus_inv f ms Hf Ho) as (f' & -> & ?). by eexists _, _.
  - destruct (navigate_inv f k e Hf) as (b & f' & e' & -> & ? & _). by eexists _, _.
  - destruct (choose_inv f s i e Hf) as (b & f' & e' & -> & ?). by eexists _, _.
  - destruct (menu_opens_inv f k e Hf) as (b & f' & e' & -> & ?). by eexists _, _.
  - unfold menu_open_titled. destruct (list_find _ _) as [[m c]|] eqn:E; [|by eexists _, _]. apply list_find_Some in E as (Hc & _).
    destruct (menu_show_inv f m c Hf Hc) as (f' & -> & Hf' & _). cbn [mbind option_bind]. eexists _, _. split; [done|]. by apply (inv_change f').
  - by apply menu_key_inv.
  - unfold menu_toggle. case_if; [by eexists _, _|]. case_if; [eexists _, _; split; [done|by apply set_open_None]|]. reflect_bool.
    destruct (lookup_lt_is_Some_2 (_menus f) m ltac:(done)) as [c Hc]. destruct (menu_show_inv f m c Hf Hc) as (f' & -> & ? & _). by eexists _, _.
  - destruct (menu_choose_inv f i e Hf) as (b & f' & e' & -> & ? & _). by eexists _, _.
  - eexists _, _. split; [done|]. by apply set_open_None.
Qed.

Lemma focus_safe_witness :
  exists f f' e', set_menus new_focus bar = Some f /\ run_op f (Toggle 1) new_event = Some (f', e') /\ inv f'.
Proof.
  assert (Hb : Forall (fun c => small (rows c)) bar) by (repeat constructor; vm_compute; reflexivity).
  destruct (focus_safe new_focus (SetMenus bar) new_event new_inv Hb) as (f & e & H1 & Hf).
  destruct (focus_safe f (Toggle 1) new_event Hf I) as (f' & e' & H2 & Hf').
  exists f, f', e'. split_and!; [|exact H2|exact Hf'|..]; try apply Hf'. cbn [run_op] in H1. destruct (set_menus new_focus bar); [|done]. by injection H1 as -> _.
Defined.

(** Up and down in an open menu light the next row that can be chosen in that
    direction, around the ends, skipping separators and disabled rows, and change
    nothing else; in a menu with nothing to choose they do nothing. *)
Theorem menu_moves f m c k e step :
  inv f -> _menu_open f = Some m -> _menus f !! m = Some c -> kind k = K_down /\ step = 1 \/ kind k = K_up /\ step = -1 ->
  exists f', menu_key f k e = Some (f', set_event_kind e E_focus) /\ f' = set_row f (_menu_row f') /\
    (rows c = [] /\ f' = f \/ next_lit (rows c) (_menu_row f) step (_menu_row f')).
Proof.
  intros Hf Hm Hc Hk. assert (Hs : direction step) by (destruct Hk as [[_ ->]|[_ ->]]; [by left|by right]).
  destruct (menu_arrow_inv f m step Hf Hm Hs) as (f' & Ha & _ & Hset & Hn). exists f'. split; [|split; [done|by apply Hn]].
  unfold menu_key. destruct Hk as [[-> ->]|[-> ->]]; by rewrite Ha.
Qed.
Lemma menu_moves_witness :
  exists f f', set_menus (set_open (set_row new_focus 0) None) bar = Some f /\ menu_key (set_open f (Some 0%nat)) (plain K_down) new_event = Some (f', event E_focus) /\
    _menu_row f' = 3%nat.
Proof.
  assert (Hi : exists f, set_menus new_focus bar = Some f /\ inv (set_open f (Some 0%nat))).
  { eexists. split; [vm_compute; reflexivity|]. split; [constructor|repeat constructor; vm_compute; reflexivity|].
    cbn [_menu_open set_open]. eexists. split; [vm_compute; reflexivity|]. left. vm_compute. reflexivity. }
  destruct Hi as (f & Hf & Hi). assert (Hc : exists c, _menus f !! 0%nat = Some c) by (injection Hf as <-; eexists; vm_compute; reflexivity).
  destruct Hc as [c Hc]. destruct (menu_moves (set_open f (Some 0%nat)) 0 c (plain K_down) new_event 1 Hi eq_refl Hc) as (f' & H1 & _); [by left|].
  exists f, f'. split; [exact Hf|]. split; [exact H1|]. injection Hf as <-. vm_compute in H1. injection H1 as <-. reflexivity.
Defined.

(** ** Hotkeys *)

Lemma hotkey_of_spec t taken c taken' : menu_hotkey_of t taken = (c, taken') ->
  c = Ascii.zero /\ taken' = taken \/ c <> Ascii.zero /\ c ∉ taken /\ taken' = taken ++ [c] /\ c ∈ map tolower t /\ tolower c = c.
Proof.
  revert taken. induction t as [|x t IH]; intros taken; cbn [menu_hotkey_of]; [intros [= <- <-]; by left|].
  destruct (negb _) eqn:El; [intros H; destruct (IH _ H) as [?|(? & ? & ? & ? & ?)]; [by left|right; split_and!; try done; by apply elem_of_cons; right]|].
  destruct (find_char _ taken) as [i|] eqn:Ef.
  - intros H; destruct (IH _ H) as [?|(? & ? & ? & ? & ?)]; [by left|right; split_and!; try done; by apply elem_of_cons; right].
  - intros [= <- <-]. right. apply find_char_None in Ef. split_and!; [|done|done|by apply elem_of_cons; left|apply tolower_idem].
    intros E. rewrite E in El. by vm_compute in El.
Qed.

(** No letter is given twice, nor one of [taken]. *)
Lemma bar_hotkeys_spec l taken : forall i j m m' c, bar_hotkeys l taken !! i = Some m -> m_hot m = c -> c <> Ascii.zero ->
  c ∉ taken /\ tolower c = c /\ (bar_hotkeys l taken !! j = Some m' -> m_hot m' = c -> i = j).
Proof.
  revert taken. induction l as [|x l IH]; intros taken i j m m' c Hi Hc Hn; [done|]. cbn [bar_hotkeys] in *.
  destruct (menu_hotkey_of (m_title x) taken) as [c0 taken0] eqn:Eh. pose proof (hotkey_of_spec _ _ _ _ Eh) as Hh.
  destruct i as [|i].
  - injection Hi as <-. cbn in Hc. subst c0. destruct Hh as [[? _]|(_ & Hnin & -> & _ & Hlow)]; [done|]. split_and!; [done|done|].
    destruct j as [|j]; [done|]. cbn [lookup list_lookup]. intros Hj Hc'. exfalso.
    destruct (IH (taken ++ [c]) j j m' m' c Hj Hc' Hn) as [Ht _]. apply Ht, elem_of_app. right. by apply list_elem_of_singleton.
  - cbn [lookup list_lookup] in Hi. destruct (IH taken0 i (pred j) m m' c Hi Hc Hn) as (Ht & Hlow & Hj). split_and!; [|done|].
    + destruct Hh as [[_ ->]|(_ & _ & -> & _)]; [done|]. intros H. apply Ht, elem_of_app. by left.
    + destruct j as [|j]; [|cbn [lookup list_lookup pred] in *; intros H1 H2; f_equal; by apply Hj]. cbn [lookup list_lookup]. intros [= <-] E. exfalso.
      cbn in E. subst c0. destruct Hh as [[? _]|(_ & _ & -> & _)]; [done|]. apply Ht, elem_of_app. right. by apply list_elem_of_singleton.
Qed.

Lemma list_find_unique {A} (P : A -> Prop) `{forall x, Decision (P x)} (l : list A) i x :
  l !! i = Some x -> P x -> (forall j y, l !! j = Some y -> P y -> i = j) -> list_find P l = Some (i, x).
Proof.
  intros Hi HP Hu. apply list_find_Some. split_and!; [done|done|]. intros j y Hj Hlt HPy. pose proof (Hu j y Hj HPy). lia.
Qed.

(** Alt and the letter of a title open its menu, whatever titles come before. *)
Lemma hotkey_picks l f i m k e : _menus f = menu_hotkeys l -> inv f -> _menu_open f = None ->
  _menus f !! i = Some m -> m_hot m <> Ascii.zero -> kind k = K_ch -> mods k = alt -> tolower (ch k) = m_hot m ->
  exists f', menu_opens f k e = Some (true, f', set_event_kind e E_focus) /\ _menu_open f' = Some i.
Proof.
  intros Hm Hf Ho Hi Hn Hk Ha Hc. unfold menu_opens. destruct (is_nil (_menus f)) eqn:En; [apply is_nil_true in En; by rewrite En in Hi|].
  unfold menu_is_open. rewrite Ho. cbn [orb]. unfold is_key. rewrite Hk, Ha. cbn [andb bool_decide]. change (alt =? alt) with true. cbn [andb].
  rewrite bool_decide_eq_false_2, bool_decide_eq_true_2 by done. cbn [andb].
  assert (menu_letter k = m_hot m) as ->. { unfold menu_letter, is_key. rewrite Hk, Ha, bool_decide_eq_true_2 by done. done. }
  cbv zeta. rewrite (proj2 (byte_eqb_neq _ _)) by done. unfold menu_of_letter.
  rewrite (list_find_unique _ _ i m); [|done|done|].
  - cbn [fmap option_fmap option_map fst]. destruct (menu_show_inv f i m Hf Hi) as (f' & -> & _ & Hopen & _). by exists f'.
  - intros j y Hj Hy. rewrite Hm in Hi, Hj. destruct (bar_hotkeys_spec l [] i j m y (m_hot m) Hi eq_refl Hn) as (_ & _ & H). by apply H.
Qed.
