(* ===== verification/UiInput.v ===== *)
(** Keys to events: [ui_apply_keys] of [src/include/madcdis/ui_input.h], which puts
    the open menu bar, the key owner ([Bindings]), the menu bar's own keys and the
    focus owner ([Focus]) in their order over a batch of keys.

    [apply_keys_spec]: a batch does what its keys do one by one, runs of typed
    characters joined.  [paste_one_event]: a paste read by [KeyParse] is one text
    event. *)
From stdpp Require Import gmap.
From S2P Require Import Prelude Numbers Keys KeyParse Bindings Focus.
#[local] Open Scope Z_scope.

Definition text_event (run : bytes) : tui_event := Event E_text run K_none Ascii.zero 0 0 false 0 [] 0 [] P_down 0 0 (-1).
Definition flush_run (run : bytes) : list tui_event := if is_nil run then [] else [text_event run].

(** A key that the key owner gave back or made a step of, and that is not typed. *)
Definition step_event (f : focus_state) (s : key_step) (k : tui_keyev) : option (focus_state * tui_event) :=
  let synthesized_event := event (if is_key K_resize k then E_resize else E_wake) in
  match k_kind s with
  | Pending | Cancelled => Some (f, event E_focus)
  | Action => Some (f, Event E_action [] K_none Ascii.zero (s_mods s) 0 false 0 (s_name s) (s_code s) (s_seq s) P_down 0 0 (-1))
  | Transparent => Some (f, synthesized_event)
  | Passthrough =>
      if synthesized k then Some (f, synthesized_event)
      else
        match menu_opens f k new_event with
        | Some (true, f, e) => Some (f, e)
        | Some (false, f, _) => '(_, f, e) ← navigate f k new_event; Some (f, e)
        | None => None
        end
  end.

Fixpoint apply_from (r : key_resolver) (f : focus_state) (run : bytes) (keys : list tui_keyev) :
  option (list tui_event * key_resolver * focus_state) :=
  match keys with
  | [] => Some (flush_run run, r, f)
  | k :: keys =>
      if menu_is_open f && negb (synthesized k) then
        '(f, e) ← menu_key f k new_event;
        '(out, r, f) ← apply_from r f [] keys;
        Some (flush_run run ++ e :: out, r, f)
      else
        let '(s, r) := step r k in
        if bool_decide (k_kind s = Passthrough) && key_types k then apply_from r f (run ++ [ch k]) keys
        else
          '(f, e) ← step_event f s k;
          '(out, r, f) ← apply_from r f [] keys;
          Some (flush_run run ++ e :: out, r, f)
  end.
Definition ui_apply_keys (r : key_resolver) (f : focus_state) (keys : list tui_keyev) := apply_from r f [] keys.

Definition keys_named (l : list string) : list tui_keyev := omap (fun s => tui_key_from_name (B s)) l.
Example apply_ex :
  ('(t, _) ← sample; f ← set_menus new_focus bar;
   '(out, _, f) ← ui_apply_keys (Resolver t []) f (keys_named ["a"; "b"; "^k"; "s"; "c"; "f10"; "down"; "x"; "enter"; "d"; "e"]);
   Some (map (fun e => (e_kind e, e_text e, e_action_name e)) out, _menu_open f)) =
  Some ([(E_text, B "ab", []); (E_focus, [], []); (E_action, [], B "save"); (E_text, B "c", []); (E_focus, [], []); (E_focus, [], []);
         (E_focus, [], []); (E_action, [], B "Quit"); (E_text, B "de", [])], None).
Proof. vm_compute. reflexivity. Qed.

(** ** One key at a time *)

(** What a key does alone: a typed character or an event. *)
Definition one_key (r : key_resolver) (f : focus_state) (k : tui_keyev) : option ((ascii + tui_event) * key_resolver * focus_state) :=
  if menu_is_open f && negb (synthesized k) then '(f, e) ← menu_key f k new_event; Some (inr e, r, f)
  else
    let '(s, r) := step r k in
    if bool_decide (k_kind s = Passthrough) && key_types k then Some (inl (ch k), r, f)
    else '(f, e) ← step_event f s k; Some (inr e, r, f).
Fixpoint one_by_one (r : key_resolver) (f : focus_state) (keys : list tui_keyev) : option (list (ascii + tui_event) * key_resolver * focus_state) :=
  match keys with
  | [] => Some ([], r, f)
  | k :: keys => '(x, r, f) ← one_key r f k; '(l, r, f) ← one_by_one r f keys; Some (x :: l, r, f)
  end.

(** Neighbouring characters as one text event. *)
Fixpoint join_typed (run : bytes) (l : list (ascii + tui_event)) : list tui_event :=
  match l with
  | [] => flush_run run
  | inl c :: l => join_typed (run ++ [c]) l
  | inr e :: l => flush_run run ++ e :: join_typed [] l
  end.

Lemma apply_from_spec r f run keys :
  apply_from r f run keys = '(l, r, f) ← one_by_one r f keys; Some (join_typed run l, r, f).
Proof.
  revert r f run. induction keys as [|k keys IH]; intros r f run; [done|]. cbn [apply_from one_by_one]. unfold one_key.
  destruct (menu_is_open f && _).
  - destruct (menu_key f k new_event) as [[f' e]|]; [|done]. cbn [mbind option_bind]. rewrite IH.
    by destruct (one_by_one r f' keys) as [[[l r'] f1]|].
  - destruct (step r k) as [s r']. destruct (_ && _).
    + cbn [mbind option_bind]. rewrite IH. by destruct (one_by_one r' f keys) as [[[l r1] f1]|].
    + destruct (step_event f s k) as [[f' e]|]; [|done]. cbn [mbind option_bind]. rewrite IH.
      by destruct (one_by_one r' f' keys) as [[[l r1] f1]|].
Qed.

Section Total.
Context `{Platform}.

Definition ready (r : key_resolver) : Prop := _pending r = [] \/ prefix (_bindings r) (_pending r) = true.

Lemma navigate_kind f k b f' e' : navigate f k new_event = Some (b, f', e') -> e_kind e' <> E_text.
Proof.
  unfold navigate. case_if; [by intros [= _ _ <-]|]. case_if.
  { destruct (_focusables f !! _focus f); [|done]. by intros [= _ _ <-]. }
  case_if.
  { destruct (_focusables f !! _focus f) as [x|]; [|done]. cbn [mbind option_bind]. unfold chosen. destruct (option_actions x !! _); [|done].
    by intros [= _ _ <-]. }
  intros [= _ _ <-]. by destruct (on_choice f).
Qed.
Lemma menu_opens_kind f k f' e' : menu_opens f k new_event = Some (true, f', e') -> e_kind e' = E_focus.
Proof.
  unfold menu_opens. case_if; [done|]. case_if; [destruct (menu_show f 0); [|done]; by intros [= _ <-]|]. case_if; [|done].
  destruct (if byte_eqb _ _ then _ else _) as [m|]; [|done]. destruct (menu_show f m); [|done]. by intros [= _ <-].
Qed.
Lemma menu_choose_kind f i e b f' e' : menu_choose f i e = Some (b, f', e') -> e_kind e <> E_text -> e_kind e' <> E_text.
Proof.
  unfold menu_choose. destruct (_menu_open f); [|by intros [= _ _ <-]]. destruct (open_rows f) as [rs|]; [|done]. cbn [mbind option_bind].
  destruct (rs !! i) as [r|]; [|by intros [= _ _ <-]]. case_if; by intros [= _ _ <-].
Qed.
Lemma menu_key_kind f k f' e' : menu_key f k new_event = Some (f', e') -> e_kind e' <> E_text.
Proof.
  assert (He : e_kind (set_event_kind new_event E_focus) <> E_text) by done. revert He. unfold menu_key. generalize (set_event_kind new_event E_focus).
  intros e He. assert (Hc : forall i, ('(_, f0, e0) ← menu_choose f i e; Some (f0, e0)) = Some (f', e') -> e_kind e' <> E_text).
  { intros i. destruct (menu_choose f i e) as [[[b f0] e0]|] eqn:E; [|done]. intros [= _ <-]. by eapply menu_choose_kind. }
  assert (Hl : menu_by_letter f k e = Some (f', e') -> e_kind e' <> E_text).
  { unfold menu_by_letter. cbv zeta. case_if; [by intros [= _ <-]|]. destruct (if mods k =? 0 then _ else _) as [m|].
    - destruct (menu_show f m); [|done]. by intros [= _ <-].
    - destruct (open_rows f) as [rs|]; [|done]. cbn [mbind option_bind]. destruct (row_of_letter _ _); [apply Hc|by intros [= _ <-]]. }
  destruct (kind k); try exact Hl; try apply Hc; try (by intros [= _ <-]).
  - destruct (menu_arrow f (-1)); [|done]. by intros [= _ <-].
  - destruct (menu_arrow f 1); [|done]. by intros [= _ <-].
  - destruct (_menu_open f) as [m|]; [|done]. cbn [mbind option_bind]. destruct (menu_show f _); [|done]. by intros [= _ <-].
  - destruct (_menu_open f) as [m|]; [|done]. cbn [mbind option_bind]. destruct (menu_show f _); [|done]. by intros [= _ <-].
Qed.

Definition not_typed (x : ascii + tui_event) : Prop := match x with inl _ => True | inr e => e_kind e <> E_text end.

Lemma step_event_spec f s k : inv f -> exists f' e, step_event f s k = Some (f', e) /\ inv f' /\ e_kind e <> E_text.
Proof.
  intros Hf. unfold step_event. destruct (k_kind s); try (by eexists _, _); [|eexists _, _; split_and!; [done|done|by case_if]].
  case_if; [eexists _, _; split_and!; [done|done|by case_if]|].
  destruct (menu_opens_inv f k new_event Hf) as (b & f' & e & E & Hf'). rewrite E. destruct b.
  - eexists _, _. split_and!; [done|done|]. by rewrite (menu_opens_kind f k f' e).
  - destruct (navigate_inv f' k new_event Hf') as (b & f2 & e2 & E2 & Hf2 & _). rewrite E2. cbn [mbind option_bind]. eexists _, _.
    split_and!; [done|done|]. by eapply navigate_kind.
Qed.

Lemma one_key_spec r f k : inv f -> ready r -> exists x r' f', one_key r f k = Some (x, r', f') /\ inv f' /\ ready r' /\ not_typed x.
Proof.
  intros Hf Hr. unfold one_key. destruct (menu_is_open f) eqn:Eo; cbn [andb].
  - destruct (negb (synthesized k)).
    + destruct (menu_key_inv f k new_event Hf Eo) as (f' & e & E & Hf'). rewrite E. cbn [mbind option_bind]. eexists _, _, _.
      split_and!; [done|done|done|]. by eapply menu_key_kind.
    + pose proof (resolver_ready r k Hr) as Hr'. destruct (step r k) as [s r']. destruct Hr' as [_ Hr']. case_if; [by eexists _, _, _|].
      destruct (step_event_spec f s k Hf) as (f' & e & -> & Hf' & He). cbn [mbind option_bind]. by eexists _, _, _.
  - pose proof (resolver_ready r k Hr) as Hr'. destruct (step r k) as [s r']. destruct Hr' as [_ Hr']. case_if; [by eexists _, _, _|].
    destruct (step_event_spec f s k Hf) as (f' & e & -> & Hf' & He). cbn [mbind option_bind]. by eexists _, _, _.
Qed.

Lemma one_by_one_spec r f keys : inv f -> ready r ->
  exists l r' f', one_by_one r f keys = Some (l, r', f') /\ inv f' /\ ready r' /\ Forall not_typed l /\ length l = length keys.
Proof.
  revert r f. induction keys as [|k keys IH]; intros r f Hf Hr; [by eexists _, _, _|]. cbn [one_by_one].
  destruct (one_key_spec r f k Hf Hr) as (x & r1 & f1 & -> & Hf1 & Hr1 & Hx). cbn [mbind option_bind].
  destruct (IH r1 f1 Hf1 Hr1) as (l & r2 & f2 & -> & Hf2 & Hr2 & Hl & Hn). cbn [mbind option_bind]. eexists _, _, _.
  split_and!; [done|done|done|by constructor|by simpl; f_equal].
Qed.
End Total.

(** ** Joined runs *)

Definition is_text (e : tui_event) : bool := bool_decide (e_kind e = E_text).
(** The text of the text events, and the typed characters. *)
Definition text_of (l : list tui_event) : bytes := concat (map (fun e => if is_text e then e_text e else []) l).
Definition typed_of (l : list (ascii + tui_event)) : bytes := omap (fun x => match x with inl c => Some c | inr _ => None end) l.
Definition events_of (l : list (ascii + tui_event)) : list tui_event := omap (fun x => match x with inl _ => None | inr e => Some e end) l.

(** No text event is empty or follows another. *)
Fixpoint runs_ok (after_text : bool) (l : list tui_event) : bool :=
  match l with
  | [] => true
  | e :: r => (if is_text e then negb after_text && negb (is_nil (e_text e)) else true) && runs_ok (is_text e) r
  end.

Lemma not_typed_text e : e_kind e <> E_text -> is_text e = false.
Proof. intros H. by apply bool_decide_eq_false. Qed.

Lemma join_typed_ok run l : Forall not_typed l ->
  runs_ok false (join_typed run l) = true /\ text_of (join_typed run l) = run ++ typed_of l /\
  filter (fun e => is_text e = false) (join_typed run l) = events_of l.
Proof.
  intros Hl. revert run. induction Hl as [|x l Hx _ IH]; intros run; cbn [join_typed].
  - unfold flush_run. destruct (is_nil run) eqn:En; [apply is_nil_true in En; by subst|]. split_and!; [cbn; by rewrite En|cbn; by rewrite !app_nil_r|done].
  - destruct x as [c|e].
    + destruct (IH (run ++ [c])) as (H1 & H2 & H3). rewrite <- app_assoc in H2. by split_and!.
    + destruct (IH []) as (H1 & H2 & H3). pose proof (not_typed_text e Hx) as He.
      assert (Ht : text_of (e :: join_typed [] l) = typed_of l) by (unfold text_of in *; cbn [map concat]; by rewrite He, H2).
      assert (Hf : filter (fun e => is_text e = false) (e :: join_typed [] l) = e :: events_of l) by (rewrite filter_cons_True by done; by rewrite H3).
      unfold flush_run. destruct (is_nil run) eqn:En.
      * apply is_nil_true in En. subst run. cbn [app runs_ok]. rewrite He. by split_and!.
      * cbn [app runs_ok]. change (is_text (text_event run)) with true. cbn [text_event e_text]. rewrite En, He. split_and!; [done| |done].
        change (text_of (text_event run :: e :: join_typed [] l)) with (run ++ text_of (e :: join_typed [] l)). by rewrite Ht.
Qed.

(** A batch of keys gives, for any table of bindings and any state of focus
    and menus, what the keys give one by one, in order, with the typed characters
    between two events joined into one text event: none is lost, none empty, no
    two stand side by side. *)
Theorem apply_keys_spec `{Platform} r f keys :
  inv f -> ready r ->
  exists l r' f' out, one_by_one r f keys = Some (l, r', f') /\ ui_apply_keys r f keys = Some (out, r', f') /\
    length l = length keys /\ inv f' /\ ready r' /\
    text_of out = typed_of l /\ filter (fun e => is_text e = false) out = events_of l /\ runs_ok false out = true.
Proof.
  intros Hf Hr. destruct (one_by_one_spec r f keys Hf Hr) as (l & r' & f' & E & Hf' & Hr' & Hl & Hn).
  destruct (join_typed_ok [] l Hl) as (H1 & H2 & H3). exists l, r', f', (join_typed [] l). unfold ui_apply_keys. rewrite apply_from_spec, E.
  by split_and!.
Qed.

Lemma apply_keys_spec_witness :
  exists out r' f', ui_apply_keys (Resolver no_bindings []) new_focus (keys_named ["a"; "b"; "up"; "c"]) = Some (out, r', f') /\
    text_of out = B "abc" /\ length out = 3%nat.
Proof.
  destruct (apply_keys_spec (Resolver no_bindings []) new_focus (keys_named ["a"; "b"; "up"; "c"]) new_inv (or_introl eq_refl))
    as (l & r' & f' & out & H1 & H2 & _ & _ & _ & H3 & _).
  exists out, r', f'. split; [exact H2|]. split; [|vm_compute in H2; injection H2 as <- _ _; reflexivity].
  rewrite H3. vm_compute in H1. injection H1 as <- _ _. reflexivity.
Defined.

(** ** A paste, from bytes to the event *)

Lemma one_by_one_typed `{Platform} r f s : _pending r = [] -> menu_is_open f = false ->
  one_by_one r f (typed s) = Some (map inl s, r, f).
Proof.
  intros Hr Hf. induction s as [|c s IH]; [done|]. change (typed (c :: s)) with (new_key K_ch c 0 :: typed s). cbn [one_by_one]. unfold one_key.
  rewrite Hf. cbn [andb]. unfold step. rewrite Hr. cbn [is_nil negb]. change (key_types (new_key K_ch c 0)) with true. cbn [negb k_kind plain_step].
  rewrite bool_decide_eq_true_2 by done. cbn [andb mbind option_bind]. by rewrite IH.
Qed.
Lemma join_typed_chars run s : join_typed run (map inl s) = flush_run (run ++ s).
Proof. revert run. induction s as [|c s IH]; intros run; cbn [map join_typed]; [by rewrite app_nil_r|]. by rewrite IH, <- app_assoc. Qed.

(** A bracketed paste reaches the application as one text event with the
    pasted bytes, whatever they are and whatever is bound, when no chord is in
    progress and no menu open; the key owner and the focus stay as they are. *)
Theorem paste_one_event `{Platform} p r f t :
  _st p = S_normal -> _pending r = [] -> menu_is_open f = false -> t <> [] ->
  (forall i, (i < length t)%nat -> take 6 (drop i (t ++ end_marker)) <> end_marker) ->
  exists p' keys, feed p (csi (B "200~") ++ t ++ end_marker) = Some (p', keys) /\
    ui_apply_keys r f keys = Some ([text_event (unix_lines t)], r, f).
Proof.
  intros Hp Hr Hf Ht Hfirst. destruct (paste_keys t p Hp Hfirst) as (p' & E & _). exists p', (typed (unix_lines t)). split; [done|].
  unfold ui_apply_keys. rewrite apply_from_spec, one_by_one_typed by done. cbn [mbind option_bind]. rewrite join_typed_chars. cbn [app].
  unfold flush_run. destruct (is_nil (unix_lines t)) eqn:En; [|done]. apply is_nil_true in En. destruct t as [|c t]; [done|].
  cbn [unix_lines] in En. by destruct (byte_eqb c c_cr).
Qed.
Lemma paste_one_event_witness :
  exists p' keys, feed new_parser (csi (B "200~") ++ csi (B "A") ++ end_marker) = Some (p', keys) /\
    ui_apply_keys (Resolver no_bindings []) new_focus keys = Some ([text_event (csi (B "A"))], Resolver no_bindings [], new_focus).
Proof.
  apply (paste_one_event new_parser (Resolver no_bindings []) new_focus (csi (B "A"))); [reflexivity|reflexivity|reflexivity|discriminate|].
  intros i Hi. do 3 (destruct i as [|i]; [vm_compute; discriminate|]). vm_compute in Hi. lia.
Defined.
