(* ===== verification/UiStyle.v ===== *)
(** The render style of [src/include/madcdis/ui_style.h]: colours, the parser of
    style specs and its inverse, the xterm palette.

    [spec_roundtrip]: a style's spec is read as that style.  [nearest_256_found]: the
    256-colour palette and the search in it agree. *)
From S2P Require Import Prelude.
#[local] Open Scope Z_scope.

(** ** The style *)

Definition BOLD : Z := 1.
Definition DIM : Z := 2.
Definition ITALIC : Z := 4.
Definition UNDERLINE : Z := 8.
Definition BLINK : Z := 16.
Definition INVERSE : Z := 32.
Definition RGB_SET : Z := 0x01000000.

Record ui_style := Style { fg : Z; bg : Z; flags : Z; fg_rgb : Z; bg_rgb : Z }.
#[export] Instance style_eq : EqDecision ui_style.
Proof. solve_decision. Defined.
Definition normal : ui_style := Style 0 0 0 0 0.
Definition reverse : ui_style := Style 0 0 INVERSE 0 0.
Definition style_eqb (a b : ui_style) : bool := bool_decide (a = b).
Definition is_normal (s : ui_style) : bool := (fg s =? 0) && (bg s =? 0) && (flags s =? 0).
Definition is_reverse (s : ui_style) : bool := (fg s =? 0) && (bg s =? 0) && (flags s =? INVERSE).

Definition set_flag (s : ui_style) (b : Z) : ui_style := Style (fg s) (bg s) (Z.lor (flags s) b) (fg_rgb s) (bg_rgb s).
Definition set_fg (s : ui_style) (i rgb : Z) : ui_style := Style i (bg s) (flags s) rgb (bg_rgb s).
Definition set_bg (s : ui_style) (i rgb : Z) : ui_style := Style (fg s) i (flags s) (fg_rgb s) rgb.

Definition colours : list bytes := map B ["black"; "red"; "green"; "yellow"; "blue"; "magenta"; "cyan"; "white"]%string.
Definition ui_style_colour_name (index : Z) : bytes :=
  if (1 <=? index) && (index <=? 8) then nth (Z.to_nat (index - 1)) colours [] else [].

(** ** Colours *)

Definition red (rgb : Z) : Z := Z.land (Z.shiftr rgb 16) 0xff.
Definition green (rgb : Z) : Z := Z.land (Z.shiftr rgb 8) 0xff.
Definition blue (rgb : Z) : Z := Z.land rgb 0xff.

Definition by_sextant : list Z := [2; 4; 3; 7; 5; 6].
(** The divisions truncate, as C's do. *)
Definition ui_rgb_nearest_ansi (rgb : Z) : Z :=
  let r := red rgb in let g := green rgb in let b := blue rgb in
  let mx := if g <? r then (if b <? r then r else b) else (if b <? g then g else b) in
  let mn := if r <? g then (if r <? b then r else b) else (if g <? b then g else b) in
  if (mx =? 0) || ((mx - mn) * 100 <? mx * 25) then (if mx <? 128 then 1 else 8)
  else
    let d := mx - mn in
    let hue :=
      if mx =? r then Z.rem (Z.quot (60 * (g - b)) d + 360) 360
      else if mx =? g then Z.quot (60 * (b - r)) d + 120
      else Z.quot (60 * (r - g)) d + 240 in
    nth (Z.to_nat (Z.rem (Z.quot (hue + 30) 60) 6)) by_sextant 0.

Definition lv : list Z := [0; 95; 135; 175; 215; 255].
Definition level (j : Z) : Z := nth (Z.to_nat j) lv 0.
Definition sq (x : Z) : Z := x * x.
Definition nearest_level (c : Z) : Z :=
  fold_left (fun best j => if sq (c - level j) <? sq (c - level best) then j else best) [1; 2; 3; 4; 5] 0.
Definition grey_step (avg : Z) : Z := if avg <? 8 then 0 else if 238 <? avg then 23 else Z.quot (avg - 8) 10.
Definition ui_rgb_nearest_256 (rgb : Z) : Z :=
  let c0 := red rgb in let c1 := green rgb in let c2 := blue rgb in
  let i0 := nearest_level c0 in let i1 := nearest_level c1 in let i2 := nearest_level c2 in
  let cube := 16 + 36 * i0 + 6 * i1 + i2 in
  let cd := sq (c0 - level i0) + sq (c1 - level i1) + sq (c2 - level i2) in
  let step := grey_step (Z.quot (c0 + c1 + c2) 3) in
  let gv := 8 + 10 * step in
  let gd := sq (c0 - gv) + sq (c1 - gv) + sq (c2 - gv) in
  if gd <? cd then 232 + step else cube.

Definition sys : list Z :=
  [0x000000; 0xcd0000; 0x00cd00; 0xcdcd00; 0x0000ee; 0xcd00cd; 0x00cdcd; 0xe5e5e5;
   0x7f7f7f; 0xff0000; 0x00ff00; 0xffff00; 0x5c5cff; 0xff00ff; 0x00ffff; 0xffffff].
Definition pack_rgb (r g b : Z) : Z := Z.lor (Z.lor (Z.shiftl r 16) (Z.shiftl g 8)) b.
Definition ui_xterm256_rgb (n : Z) : Z :=
  if (n <? 0) || (255 <? n) then 0
  else if n <? 16 then nth (Z.to_nat n) sys 0
  else if 232 <=? n then let g := 8 + 10 * (n - 232) in pack_rgb g g g
  else let n := n - 16 in pack_rgb (level (Z.quot n 36)) (level (Z.rem (Z.quot n 6) 6)) (level (Z.rem n 6)).

(** ** Specs *)

Definition hex_value (c : ascii) : Z :=
  if in_range 48 57 c then code c - 48
  else if in_range 97 102 c then code c - 97 + 10
  else if in_range 65 70 c then code c - 65 + 10
  else -1.
Fixpoint hex_from (v : Z) (w : bytes) : option Z :=
  match w with
  | [] => Some v
  | c :: r => let d := hex_value c in if d <? 0 then None else hex_from (Z.lor (u32 (Z.shiftl v 4)) d) r
  end.
Definition ui_rgb_of (w : bytes) : option Z :=
  match w with
  | c :: r => if (length w =? 7)%nat && byte_eqb c "#"%char then hex_from 0 r else None
  | [] => None
  end.

Definition attrs : list (Z * bytes) :=
  [(BOLD, B "bold"); (DIM, B "dim"); (ITALIC, B "italic"); (UNDERLINE, B "underline"); (BLINK, B "blink"); (INVERSE, B "inverse")].
Definition bg_mark : bytes := B "bg_".

(** The colour a word names, the first of the eight that does. *)
Fixpoint colour_word (a : ui_style) (w : bytes) (c : Z) (names : list bytes) : option ui_style :=
  match names with
  | [] => None
  | name :: r =>
      if bytes_eqb w name then Some (set_fg a c (fg_rgb a))
      else if starts_with w bg_mark && bytes_eqb (drop 3 w) name then Some (set_bg a c (bg_rgb a))
      else colour_word a w (c + 1) r
  end.
Definition exact_colour (rgb : Z) : Z := Z.lor RGB_SET rgb.
Definition spec_word (a : ui_style) (w : bytes) : option ui_style :=
  if bytes_eqb w (B "normal") then Some a
  else if bytes_eqb w (B "bold") then Some (set_flag a BOLD)
  else if bytes_eqb w (B "dim") then Some (set_flag a DIM)
  else if bytes_eqb w (B "italic") then Some (set_flag a ITALIC)
  else if bytes_eqb w (B "underline") then Some (set_flag a UNDERLINE)
  else if bytes_eqb w (B "blink") then Some (set_flag a BLINK)
  else if bytes_eqb w (B "inverse") || bytes_eqb w (B "reverse") then Some (set_flag a INVERSE)
  else
    match ui_rgb_of w with
    | Some rgb => Some (set_fg a (ui_rgb_nearest_ansi rgb) (exact_colour rgb))
    | None =>
        match (if starts_with w bg_mark then ui_rgb_of (drop 3 w) else None) with
        | Some rgb => Some (set_bg a (ui_rgb_nearest_ansi rgb) (exact_colour rgb))
        | None => colour_word a w 1 colours
        end
    end.

Definition blank (c : ascii) : bool := byte_eqb c c_sp || byte_eqb c c_tab.
Fixpoint skip_while (p : ascii -> bool) (t : bytes) : bytes :=
  match t with c :: r => if p c then skip_while p r else t | [] => [] end.
Fixpoint take_while (p : ascii -> bool) (t : bytes) : bytes :=
  match t with c :: r => if p c then c :: take_while p r else [] | [] => [] end.
(** One word of the spec: the style so far, whether there was a word, what is left. *)
Definition spec_body (s : ui_style * bool * bytes) : ui_style * bool * bytes + option ui_style :=
  let '(a, any, t) := s in
  let finish := inr (if any : bool then Some a else None) in
  if is_nil t then finish
  else
    let t := skip_while blank t in
    let w := take_while (fun c => negb (blank c)) t in
    if is_nil w then finish
    else match spec_word a w with Some a => inl (a, true, drop (length w) t) | None => inr None end.
Definition ui_style_of (spec : bytes) : option ui_style :=
  default None (loop (S (length spec)) spec_body (normal, false, spec)).

(** [%06x] of a 24-bit value. *)
Definition hex_digit (v : Z) : ascii := to_byte (if v <? 10 then 48 + v else 87 + v).
Fixpoint hex_digits (n : nat) (v : Z) : bytes :=
  match n with O => [] | S k => hex_digits k (Z.shiftr v 4) ++ [hex_digit (Z.land v 15)] end.
Definition hex6 (rgb : Z) : bytes := "#"%char :: hex_digits 6 (Z.land rgb 0xffffff).

Definition add_word (out w : bytes) : bytes := out ++ (if is_nil out then [] else B " ") ++ w.
Definition colour_spec (rgb index : Z) : bytes :=
  if negb (Z.land rgb RGB_SET =? 0) then hex6 rgb
  else if (1 <=? index) && (index <=? 8) then ui_style_colour_name index else [].
Definition ui_style_spec (s : ui_style) : bytes :=
  let out := fold_left (fun out x => if negb (Z.land (flags s) x.1 =? 0) then add_word out x.2 else out) attrs [] in
  let f := colour_spec (fg_rgb s) (fg s) in
  let out := if is_nil f then out else add_word out f in
  let b := colour_spec (bg_rgb s) (bg s) in
  let out := if is_nil b then out else add_word out (bg_mark ++ b) in
  if is_nil out then B "normal" else out.

Example spec_ex :
  (ui_style_of (B " bold  bg_#6A9955 inverse cyan"), ui_style_spec (Style 7 3 33 0 (exact_colour 0x6a9955)), ui_style_of (B "bold pink"), ui_style_of (B " ")) =
  (Some (Style 7 3 33 0 (exact_colour 0x6a9955)), B "bold inverse cyan bg_#6a9955", None, None).
Proof. vm_compute. reflexivity. Qed.

(** ** Words *)

Definition word (w : bytes) : Prop := w <> [] /\ Forall (fun c => blank c = false) w.
Definition spaced (ws : list bytes) : bytes := fold_left add_word ws [].
Definition spec_words (a : ui_style) (ws : list bytes) : option ui_style :=
  fold_left (fun o w => a ← o; spec_word a w) ws (Some a).
Definition spec_from (s : ui_style * bool * bytes) : option ui_style := default None (loop (S (length s.2)) spec_body s).

Lemma skip_while_length p t : (length (skip_while p t) <= length t)%nat.
Proof. induction t as [|c t IH]; simpl; [lia|]. destruct (p c); simpl; lia. Qed.
Lemma take_while_length p t : (length (take_while p t) <= length t)%nat.
Proof. induction t as [|c t IH]; simpl; [lia|]. destruct (p c); simpl; lia. Qed.

Lemma spec_body_shorter s s' : spec_body s = inl s' -> (length s'.2 < length s.2)%nat.
Proof.
  destruct s as [[a any] t]. unfold spec_body. destruct (is_nil t); [done|]. cbv zeta. cbn [snd].
  pose proof (skip_while_length blank t). set (u := skip_while blank t) in *. set (w := take_while _ u).
  destruct (is_nil w) eqn:Ew; [done|]. destruct (spec_word a w) as [a'|]; [|done]. intros [= <-]. cbn [snd].
  assert (0 < length w)%nat by (destruct w; [done|simpl; lia]). pose proof (take_while_length (fun c => negb (blank c)) u : (length w <= _)%nat).
  rewrite length_drop. lia.
Qed.
Lemma spec_unfold a any t :
  spec_from (a, any, t) = match spec_body (a, any, t) with inl s => spec_from s | inr r => r end.
Proof.
  unfold spec_from. etransitivity; [exact (loop_unfold (fun s => length s.2) spec_body None (a, any, t) spec_body_shorter)|].
  by destruct (spec_body (a, any, t)).
Qed.

Lemma take_word w t : Forall (fun c => blank c = false) w -> match t with c :: _ => blank c = true | [] => True end ->
  take_while (fun c => negb (blank c)) (w ++ t) = w.
Proof.
  intros H Ht. induction H as [|c w Hc _ IH]; simpl; [destruct t as [|c t]; [done|]; simpl; by rewrite Ht|]. by rewrite Hc, IH.
Qed.
Lemma spec_step a any lead w t :
  word w -> (lead = [] \/ lead = B " ") -> match t with c :: _ => blank c = true | [] => True end ->
  spec_from (a, any, lead ++ w ++ t) = match spec_word a w with Some a => spec_from (a, true, t) | None => None end.
Proof.
  intros [Hw Hf] Hl Ht. rewrite spec_unfold. destruct w as [|c w]; [done|].
  assert (Hc : blank c = false) by (by inversion Hf).
  assert (Hs : skip_while blank (lead ++ (c :: w) ++ t) = (c :: w) ++ t) by (by destruct Hl as [-> | ->]; simpl; rewrite Hc).
  unfold spec_body. replace (is_nil (lead ++ (c :: w) ++ t)) with false by (by destruct Hl as [-> | ->]).
  cbv zeta. rewrite Hs, take_word by done. cbn [is_nil]. rewrite drop_app_length. by destruct (spec_word a (c :: w)).
Qed.

Lemma add_word_app out w : out <> [] -> add_word out w = out ++ B " " ++ w.
Proof. intros H. unfold add_word. by destruct out. Qed.
Lemma add_words ws out : out <> [] -> fold_left add_word ws out = out ++ flat_map (app (B " ")) ws.
Proof.
  revert out. induction ws as [|w ws IH]; intros out H; [by rewrite app_nil_r|]. cbn [fold_left flat_map].
  rewrite add_word_app, IH by (by destruct out). by rewrite <- !app_assoc.
Qed.

Lemma spec_blanks_words a any ws : Forall word ws -> spec_from (a, any, flat_map (app (B " ")) ws) = if any || negb (is_nil ws) then spec_words a ws else None.
Proof.
  intros H. revert a any. induction H as [|w ws Hw Hws IH]; intros a any; [rewrite spec_unfold; by destruct any|].
  cbn [flat_map is_nil negb]. rewrite orb_true_r, <- app_assoc, (spec_step a any (B " ")); [|done|by right|by destruct ws].
  unfold spec_words. cbn [fold_left mbind option_bind]. destruct (spec_word a w) as [a'|]; [by rewrite IH|].
  clear. induction ws as [|w ws IH]; [done|exact IH].
Qed.
(** The parser reads the words one after another. *)
Lemma spec_of_words ws : Forall word ws -> ws <> [] -> ui_style_of (spaced ws) = spec_words normal ws.
Proof.
  intros H Hn. destruct H as [|w ws Hw Hws]; [done|]. change (ui_style_of (spaced (w :: ws))) with (spec_from (normal, false, spaced (w :: ws))).
  unfold spaced. cbn [fold_left]. change (add_word [] w) with w. rewrite add_words by apply Hw.
  change (w ++ flat_map (app (B " ")) ws) with ([] ++ w ++ flat_map (app (B " ")) ws). rewrite (spec_step normal false []); [|done|by left|by destruct ws]. unfold spec_words. cbn [fold_left mbind option_bind].
  destruct (spec_word normal w) as [a|]; [by rewrite spec_blanks_words|]. clear. induction ws as [|w ws IH]; [done|exact IH].
Qed.

(** ** Hexadecimal *)

Lemma hex_digit_value v : 0 <= v < 16 -> hex_value (hex_digit v) = v.
Proof.
  assert (H : forallb (fun k => hex_value (hex_digit (Z.of_nat k)) =? Z.of_nat k) (seq 0 16) = true) by (vm_compute; reflexivity).
  intros Hv. rewrite forallb_forall in H. specialize (H (Z.to_nat v) ltac:(apply in_seq; lia)). apply Z.eqb_eq in H. by rewrite Z2Nat.id in H by lia.
Qed.
Lemma hex_digits_read n x t v : (n <= 6)%nat -> 0 <= v -> v * 16 ^ Z.of_nat n + 16 ^ Z.of_nat n <= 2 ^ 24 ->
  hex_from v (hex_digits n x ++ t) = hex_from (v * 16 ^ Z.of_nat n + x mod 16 ^ Z.of_nat n) t.
Proof.
  revert x v t. induction n as [|n IH]; intros x v t Hn Hv Hb.
  { cbn [hex_digits app]. rewrite Z.mod_1_r. f_equal. lia. }
  rewrite Nat2Z.inj_succ, Z.pow_succ_r in * by lia. set (p := 16 ^ Z.of_nat n) in *.
  assert (Hp : 0 < p) by (apply Z.pow_pos_nonneg; lia). cbn [hex_digits]. rewrite <- app_assoc, IH by lia. cbn [app hex_from].
  change 15 with (Z.ones 4). rewrite Z_land_low, Z.shiftr_div_pow2 by lia. change (2 ^ 4) with 16.
  pose proof (Z.mod_pos_bound x 16 ltac:(lia)) as Hm. rewrite hex_digit_value by lia. rewrite (proj2 (Z.ltb_ge _ 0)) by lia.
  pose proof (Z.mod_pos_bound (x / 16) p Hp). rewrite Z.shiftl_mul_pow2 by lia. change (2 ^ 4) with 16.
  rewrite u32_small by (change (2 ^ 32) with (256 * 2 ^ 24); nia). change 16 with (2 ^ 4) at 2. rewrite Z_lor_add by (change (2 ^ 4) with 16; lia). f_equal.
  change (2 ^ 4) with 16. fold p. rewrite (Z.rem_mul_r x 16 p) by lia. lia.
Qed.
Lemma length_hex_digits n x : length (hex_digits n x) = n.
Proof. revert x. induction n as [|n IH]; intros x; [done|]. cbn [hex_digits]. rewrite length_app, IH. simpl. lia. Qed.

Lemma hex6_read rgb : 0 <= rgb < 2 ^ 24 -> ui_rgb_of (hex6 rgb) = Some rgb.
Proof.
  intros H. unfold hex6, ui_rgb_of. cbn [length]. rewrite length_hex_digits. change ((7 =? 7)%nat && byte_eqb "#" "#") with true. cbv iota.
  rewrite <- (app_nil_r (hex_digits _ _)), hex_digits_read by (change (16 ^ Z.of_nat 6) with (2 ^ 24); lia).
  cbn [hex_from]. f_equal. change 0xffffff with (Z.ones 24). rewrite Z_land_low by lia. change (16 ^ Z.of_nat 6) with (2 ^ 24).
  rewrite !(Z.mod_small rgb) by lia. lia.
Qed.
Lemma hex_digits_word n x : Forall (fun c => blank c = false) (hex_digits n x).
Proof.
  revert x. induction n as [|n IH]; intros x; [constructor|]. cbn [hex_digits]. apply Forall_app. split; [apply IH|]. repeat constructor.
  change 15 with (Z.ones 4). rewrite Z_land_low by lia. change (2 ^ 4) with 16. pose proof (Z.mod_pos_bound x 16 ltac:(lia)).
  assert (H1 : forallb (fun k => negb (blank (hex_digit (Z.of_nat k)))) (seq 0 16) = true) by (vm_compute; reflexivity).
  rewrite forallb_forall in H1. specialize (H1 (Z.to_nat (x mod 16)) ltac:(apply in_seq; lia)). rewrite Z2Nat.id in H1 by lia. by apply negb_true_iff.
Qed.

(** ** Specs read back *)

(** A colour the vocabulary can say: none, one of eight, or an exact one with its
    index beside it. *)
Definition colour_ok (i rgb : Z) : Prop :=
  rgb = 0 /\ 0 <= i <= 8 \/ exists v, 0 <= v < 2 ^ 24 /\ rgb = exact_colour v /\ i = ui_rgb_nearest_ansi v.
Record style_ok (s : ui_style) : Prop := {
  fg_ok : colour_ok (fg s) (fg_rgb s);
  bg_ok : colour_ok (bg s) (bg_rgb s);
  flags_ok : 0 <= flags s < 64
}.

Definition attr_words (f : Z) : list bytes := omap (fun x => if negb (Z.land f x.1 =? 0) then Some x.2 else None) attrs.
Definition opt_word (w : bytes) : list bytes := if is_nil w then [] else [w].
Definition bg_word (b : bytes) : list bytes := if is_nil b then [] else [bg_mark ++ b].
Definition style_words (s : ui_style) : list bytes :=
  attr_words (flags s) ++ opt_word (colour_spec (fg_rgb s) (fg s)) ++ bg_word (colour_spec (bg_rgb s) (bg s)).

Lemma spec_spaced s : ui_style_spec s = if is_nil (style_words s) then B "normal" else spaced (style_words s).
Proof.
  unfold ui_style_spec, style_words, spaced. cbv zeta. rewrite !fold_left_app.
  assert (Ha : forall l out, fold_left (fun out (x : Z * bytes) => if negb (Z.land (flags s) x.1 =? 0) then add_word out x.2 else out) l out =
    fold_left add_word (omap (fun x : Z * bytes => if negb (Z.land (flags s) x.1 =? 0) then Some x.2 else None) l) out).
  { induction l as [|x l IH]; intros out; [done|]. cbn [fold_left omap list_omap]. rewrite IH. by destruct (negb _). }
  rewrite Ha. fold (attr_words (flags s)). set (o := fold_left add_word (attr_words (flags s)) []).
  assert (Hn : forall w out, is_nil (add_word out w) = is_nil out && is_nil w) by (intros w [|c out]; [done|done]).
  unfold opt_word, bg_word. destruct (colour_spec (fg_rgb s) (fg s)) as [|c cs], (colour_spec (bg_rgb s) (bg s)) as [|d ds]; cbn [is_nil fold_left app].
  2,4: rewrite Hn, andb_false_r; by destruct (attr_words (flags s)).
  2: rewrite Hn, andb_false_r; by destruct (attr_words (flags s)).
  rewrite app_nil_r. unfold o. destruct (attr_words (flags s)) as [|w ws] eqn:E; [done|]. cbn [is_nil].
  assert (Hw : w <> []).
  { assert (Hin : w ∈ attr_words (flags s)) by (rewrite E; by left). unfold attr_words in Hin. apply list_elem_of_omap in Hin as (x & Hx & Hx2).
    case_if_in Hx2; [|done]. injection Hx2 as <-. unfold attrs in Hx. by repeat (apply elem_of_cons in Hx as [->|Hx]; [done|]); apply elem_of_nil in Hx. }
  cbn [fold_left]. change (add_word [] w) with w. rewrite add_words by done. by destruct w.
Qed.

Lemma attr_words_read f : 0 <= f < 64 -> spec_words normal (attr_words f) = Some (Style 0 0 f 0 0) /\ Forall word (attr_words f).
Proof.
  intros Hf. assert (H : forallb (fun k => bool_decide (spec_words normal (attr_words (Z.of_nat k)) = Some (Style 0 0 (Z.of_nat k) 0 0))) (seq 0 64) = true)
    by (vm_compute; reflexivity).
  rewrite forallb_forall in H. specialize (H (Z.to_nat f) ltac:(apply in_seq; lia)). rewrite Z2Nat.id in H by lia.
  split; [by apply bool_decide_eq_true in H|]. apply Forall_forall. intros w Hw. unfold attr_words in Hw. apply list_elem_of_omap in Hw as (x & Hx & Hx2).
  case_if_in Hx2; [|done]. injection Hx2 as <-. unfold attrs in Hx.
  by repeat (apply elem_of_cons in Hx as [->|Hx]; [split; [done|repeat constructor]|]); apply elem_of_nil in Hx.
Qed.

Lemma exact_value v : 0 <= v < 2 ^ 24 -> exact_colour v = 2 ^ 24 + v.
Proof. intros H. unfold exact_colour, RGB_SET. change 0x01000000 with (1 * 2 ^ 24). rewrite Z_lor_add by lia. lia. Qed.
Lemma exact_low v : 0 <= v < 2 ^ 24 -> Z.land (exact_colour v) 0xffffff = v /\ negb (Z.land (exact_colour v) RGB_SET =? 0) = true.
Proof.
  intros H. split.
  - change 0xffffff with (Z.ones 24). rewrite Z_land_low, exact_value by lia. rewrite <- (Z.mod_small v (2 ^ 24)) at 2 by lia.
    rewrite Z.add_mod, Z.mod_same, Z.add_0_l, Z.mod_mod by lia. done.
  - apply negb_true_iff, Z.eqb_neq. intros E. apply (f_equal (fun z => Z.testbit z 24)) in E. rewrite Z.land_spec in E.
    unfold exact_colour in E. rewrite Z.lor_spec in E. change (Z.testbit RGB_SET 24) with true in E. by rewrite orb_true_l in E.
Qed.
Lemma exact_spec v i : 0 <= v < 2 ^ 24 -> colour_spec (exact_colour v) i = hex6 v.
Proof.
  intros H. unfold colour_spec. destruct (exact_low v H) as [H1 ->]. unfold hex6. rewrite H1. change 0xffffff with (Z.ones 24) .
  rewrite Z_land_low by lia. by rewrite Z.mod_small by lia.
Qed.

(** A word that starts with another character. *)
Lemma other_word c r s : match s with d :: _ => byte_eqb c d = false | [] => True end -> bytes_eqb (c :: r) s = false.
Proof.
  intros H. apply bool_decide_eq_false. intros E. destruct s as [|d s]; [done|]. injection E as -> _. by rewrite byte_eqb_refl in H.
Qed.
Lemma exact_word a v : 0 <= v < 2 ^ 24 -> spec_word a (hex6 v) = Some (set_fg a (ui_rgb_nearest_ansi v) (exact_colour v)).
Proof.
  intros H. unfold spec_word. assert (Ho : forall s, match s with d :: _ => byte_eqb "#" d = false | [] => True end -> bytes_eqb (hex6 v) s = false) by (intros s; apply other_word).
  rewrite !Ho by done. cbn [orb]. by rewrite hex6_read.
Qed.
Lemma exact_bg_word a v : 0 <= v < 2 ^ 24 -> spec_word a (bg_mark ++ hex6 v) = Some (set_bg a (ui_rgb_nearest_ansi v) (exact_colour v)).
Proof.
  intros H. unfold spec_word. assert (Ho : forall s, at_ s 0 <> "b"%char \/ at_ s 1 <> "g"%char -> s <> [] -> bytes_eqb (bg_mark ++ hex6 v) s = false).
  { intros s Hs Hn. apply bool_decide_eq_false. intros <-. by destruct Hs. }
  rewrite !Ho by (done || by left || by right). cbn [orb].
  replace (ui_rgb_of (bg_mark ++ hex6 v)) with (@None Z).
  2:{ change (bg_mark ++ hex6 v) with ("b"%char :: B "g_" ++ hex6 v). unfold ui_rgb_of.
    change (byte_eqb "b" "#") with false. by rewrite andb_false_r. }
  rewrite starts_with_app. change (drop 3 (bg_mark ++ hex6 v)) with (hex6 v). by rewrite hex6_read.
Qed.
Lemma hex6_word v : word (hex6 v).
Proof. split; [done|]. constructor; [done|apply hex_digits_word]. Qed.

Lemma index_cases (P : Z -> Prop) i : 0 <= i <= 8 -> (forall k, (k <= 8)%nat -> P (Z.of_nat k)) -> P i.
Proof. intros H Hk. rewrite <- (Z2Nat.id i) by lia. apply Hk. lia. Qed.
Lemma fg_words_read f i rgb : colour_ok i rgb ->
  spec_words (Style 0 0 f 0 0) (opt_word (colour_spec rgb i)) = Some (Style i 0 f rgb 0) /\ Forall word (opt_word (colour_spec rgb i)).
Proof.
  intros [[-> Hi]|(v & Hv & -> & ->)].
  - pattern i. apply index_cases; [done|]. clear Hi. intros k Hk.
    do 9 (destruct k as [|k]; [split; [reflexivity|vm_compute; repeat constructor; discriminate]|]). lia.
  - rewrite exact_spec by done. change (opt_word (hex6 v)) with [hex6 v]. split; [|by constructor; [apply hex6_word|]].
    unfold spec_words. cbn [fold_left mbind option_bind]. by rewrite exact_word.
Qed.
Lemma bg_words_read a i rgb : bg a = 0 -> bg_rgb a = 0 -> colour_ok i rgb ->
  spec_words a (bg_word (colour_spec rgb i)) = Some (set_bg a i rgb) /\ Forall word (bg_word (colour_spec rgb i)).
Proof.
  destruct a as [f b fl fr br]. cbn [bg bg_rgb]. intros -> -> [[-> Hi]|(v & Hv & -> & ->)].
  - pattern i. apply index_cases; [done|]. clear Hi. intros k Hk.
    do 9 (destruct k as [|k]; [split; [reflexivity|vm_compute; repeat constructor; discriminate]|]). lia.
  - rewrite exact_spec by done. change (bg_word (hex6 v)) with [bg_mark ++ hex6 v]. split.
    + unfold spec_words. cbn [fold_left mbind option_bind]. by rewrite exact_bg_word.
    + constructor; [|done]. split; [done|]. apply Forall_app. split; [by repeat constructor|apply hex6_word].
Qed.

(** A style's spec is read as that style.  For each style the vocabulary can
    say (attributes, one of the eight colours or an exact one for each of
    foreground and background, its nearest index beside it), the words written
    are read back as the same style. *)
Theorem spec_roundtrip s : style_ok s -> ui_style_of (ui_style_spec s) = Some s.
Proof.
  intros [Hf Hb Hl]. rewrite spec_spaced. destruct (attr_words_read (flags s) Hl) as [Ha Hwa].
  destruct (fg_words_read (flags s) _ _ Hf) as [Hfr Hwf].
  destruct (bg_words_read (Style (fg s) 0 (flags s) (fg_rgb s) 0) _ _ eq_refl eq_refl Hb) as [Hbr Hwb].
  assert (Hall : spec_words normal (style_words s) = Some s).
  { unfold style_words, spec_words in *. rewrite !fold_left_app, Ha, Hfr, Hbr. by destruct s. }
  destruct (is_nil (style_words s)) eqn:En.
  - apply is_nil_true in En. rewrite En in Hall. injection Hall as <-. reflexivity.
  - rewrite spec_of_words; [done| |by apply is_nil_false]. unfold style_words. by repeat (apply Forall_app; split).
Qed.

(** ** The palette *)

Definition palette_dist (rgb n : Z) : Z :=
  let p := ui_xterm256_rgb n in sq (red rgb - red p) + sq (green rgb - green p) + sq (blue rgb - blue p).

Lemma Z_forall_range (lo : Z) (n : nat) (P : Z -> bool) :
  forallb P (map (fun k => lo + Z.of_nat k) (seq 0 n)) = true -> forall z, lo <= z < lo + Z.of_nat n -> P z = true.
Proof.
  intros H z Hz. rewrite forallb_forall in H. apply H, in_map_iff. exists (Z.to_nat (z - lo)). split; [lia|]. apply in_seq. lia.
Qed.
Lemma channel_range rgb : 0 <= red rgb < 256 /\ 0 <= green rgb < 256 /\ 0 <= blue rgb < 256.
Proof.
  unfold red, green, blue. change 0xff with (Z.ones 8). rewrite !Z_land_low by lia. change (2 ^ 8) with 256.
  split_and!; apply Z.mod_pos_bound; lia.
Qed.
Lemma nearest_level_best c j : 0 <= c < 256 -> 0 <= j <= 5 ->
  0 <= nearest_level c <= 5 /\ sq (c - level (nearest_level c)) <= sq (c - level j).
Proof.
  intros Hc Hj. assert (H : forallb (fun c => (0 <=? nearest_level c) && (nearest_level c <=? 5) &&
    forallb (fun j => sq (c - level (nearest_level c)) <=? sq (c - level j)) [0; 1; 2; 3; 4; 5]) (map (fun k => 0 + Z.of_nat k) (seq 0 256)) = true)
    by (vm_compute; reflexivity).
  apply Z_forall_range with (z := c) in H; [|lia]. apply andb_true_iff in H as [H H2]. apply andb_true_iff in H as [H0 H1].
  apply Z.leb_le in H0, H1. split; [lia|]. rewrite forallb_forall in H2. apply Z.leb_le, H2. simpl. lia.
Qed.
(** An entry of the cube has its levels. *)
Lemma cube_levels i0 i1 i2 : 0 <= i0 <= 5 -> 0 <= i1 <= 5 -> 0 <= i2 <= 5 ->
  let p := ui_xterm256_rgb (16 + 36 * i0 + 6 * i1 + i2) in red p = level i0 /\ green p = level i1 /\ blue p = level i2.
Proof.
  intros H0 H1 H2. pose (P := fun i0 i1 i2 => let p := ui_xterm256_rgb (16 + 36 * i0 + 6 * i1 + i2) in
    (red p =? level i0) && (green p =? level i1) && (blue p =? level i2)).
  assert (H : forallb (fun i0 => forallb (fun i1 => forallb (P i0 i1) (map (fun k => 0 + Z.of_nat k) (seq 0 6))) (map (fun k => 0 + Z.of_nat k) (seq 0 6)))
    (map (fun k => 0 + Z.of_nat k) (seq 0 6)) = true) by (vm_compute; reflexivity).
  apply Z_forall_range with (z := i0) in H; [|lia]. apply Z_forall_range with (z := i1) in H; [|lia]. apply Z_forall_range with (z := i2) in H; [|lia].
  unfold P in H. cbv zeta in *. apply andb_true_iff in H as [H ?]. apply andb_true_iff in H as [? ?]. by split_and!; apply Z.eqb_eq.
Qed.
Lemma cube_index n : 16 <= n < 232 -> exists i0 i1 i2, n = 16 + 36 * i0 + 6 * i1 + i2 /\ 0 <= i0 <= 5 /\ 0 <= i1 <= 5 /\ 0 <= i2 <= 5.
Proof.
  intros Hn. exists ((n - 16) / 36), ((n - 16) mod 36 / 6), ((n - 16) mod 36 mod 6).
  pose proof (Z.div_mod (n - 16) 36 ltac:(lia)). pose proof (Z.mod_pos_bound (n - 16) 36 ltac:(lia)).
  pose proof (Z.div_mod ((n - 16) mod 36) 6 ltac:(lia)). pose proof (Z.mod_pos_bound ((n - 16) mod 36) 6 ltac:(lia)). lia.
Qed.
Lemma grey_levels step : 0 <= step <= 23 -> let p := ui_xterm256_rgb (232 + step) in red p = 8 + 10 * step /\ green p = 8 + 10 * step /\ blue p = 8 + 10 * step.
Proof.
  intros Hs. assert (H : forallb (fun s => let p := ui_xterm256_rgb (232 + s) in (red p =? 8 + 10 * s) && (green p =? 8 + 10 * s) && (blue p =? 8 + 10 * s))
    (map (fun k => 0 + Z.of_nat k) (seq 0 24)) = true) by (vm_compute; reflexivity).
  apply Z_forall_range with (z := step) in H; [|lia]. cbv zeta in *. apply andb_true_iff in H as [H ?]. apply andb_true_iff in H as [? ?]. by split_and!; apply Z.eqb_eq.
Qed.
Lemma grey_step_range avg : 0 <= avg < 256 -> 0 <= grey_step avg <= 23.
Proof.
  intros H. unfold grey_step. destruct (Z.ltb_spec avg 8); [lia|]. destruct (Z.ltb_spec 238 avg); [lia|].
  rewrite Z.quot_div_nonneg by lia. split; [apply Z.div_pos; lia|]. apply Z.lt_succ_r, Z.div_lt_upper_bound; lia.
Qed.

(** The palette and the search in it agree.  Every entry of the cube and of
    the grey ramp is found again from its own colour, and for any colour the
    entry found is one of the 240 and no entry of the cube is nearer. *)
Theorem nearest_256_found rgb n :
  16 <= n <= 255 ->
  ui_rgb_nearest_256 (ui_xterm256_rgb n) = n /\ 16 <= ui_rgb_nearest_256 rgb <= 255 /\
  (n < 232 -> palette_dist rgb (ui_rgb_nearest_256 rgb) <= palette_dist rgb n).
Proof.
  intros Hn. split.
  { assert (H : forallb (fun n => ui_rgb_nearest_256 (ui_xterm256_rgb n) =? n) (map (fun k => 16 + Z.of_nat k) (seq 0 240)) = true) by (vm_compute; reflexivity).
    apply Z_forall_range with (z := n) in H; [|lia]. by apply Z.eqb_eq. }
  destruct (channel_range rgb) as (Hr & Hg & Hb). unfold ui_rgb_nearest_256. cbv zeta.
  destruct (nearest_level_best (red rgb) 0 Hr ltac:(lia)) as [H0 _]. destruct (nearest_level_best (green rgb) 0 Hg ltac:(lia)) as [H1 _].
  destruct (nearest_level_best (blue rgb) 0 Hb ltac:(lia)) as [H2 _].
  assert (Havg : 0 <= Z.quot (red rgb + green rgb + blue rgb) 3 < 256).
  { rewrite Z.quot_div_nonneg by lia. split; [apply Z.div_pos; lia|apply Z.div_lt_upper_bound; lia]. }
  pose proof (grey_step_range _ Havg) as Hs. set (step := grey_step _) in *.
  destruct (Z.ltb_spec (sq (red rgb - (8 + 10 * step)) + sq (green rgb - (8 + 10 * step)) + sq (blue rgb - (8 + 10 * step)))
    (sq (red rgb - level (nearest_level (red rgb))) + sq (green rgb - level (nearest_level (green rgb))) + sq (blue rgb - level (nearest_level (blue rgb))))) as [Hlt|Hlt].
  all: split; [lia|]; intros Hc; destruct (cube_index n ltac:(lia)) as (i0 & i1 & i2 & -> & Hi0 & Hi1 & Hi2).
  all: destruct (nearest_level_best (red rgb) i0 Hr Hi0) as [_ B0]; destruct (nearest_level_best (green rgb) i1 Hg Hi1) as [_ B1]; destruct (nearest_level_best (blue rgb) i2 Hb Hi2) as [_ B2].
  all: unfold palette_dist; cbv zeta; destruct (cube_levels i0 i1 i2 Hi0 Hi1 Hi2) as (-> & -> & ->).
  - destruct (grey_levels step Hs) as (-> & -> & ->). lia.
  - destruct (cube_levels _ _ _ H0 H1 H2) as (-> & -> & ->). lia.
Qed.
Lemma nearest_256_witness : 16 <= 59 <= 255 /\ ui_rgb_nearest_256 (ui_xterm256_rgb 59) = 59.
Proof. split; [lia|]. apply (nearest_256_found 0 59). lia. Defined.

(** The step of the grey ramp is cut off, not rounded: a nearer grey is missed. *)
Example nearest_grey_missed :
  (ui_rgb_nearest_256 0x111111, palette_dist 0x111111 232, palette_dist 0x111111 233) = (232, 243, 3).
Proof. vm_compute. reflexivity. Qed.

(** A colour word after an exact colour leaves the exact one beside an index that
    is not its own: the spec of that style names another one. *)
Example spec_mixed_colours :
  (ui_style_of (B "#6a9955 red"), a ← ui_style_of (B "#6a9955 red"); ui_style_of (ui_style_spec a)) =
  (Some (Style 2 0 0 (exact_colour 0x6a9955) 0), Some (Style 3 0 0 (exact_colour 0x6a9955) 0)).
Proof. vm_compute. reflexivity. Qed.

Lemma spec_roundtrip_witness :
  let s := Style 3 8 9 (exact_colour 0x6a9955) 0 in
  ui_style_spec s = B "bold underline #6a9955 bg_white" /\ ui_style_of (ui_style_spec s) = Some s.
Proof.
  split; [vm_compute; reflexivity|]. apply (spec_roundtrip (Style 3 8 9 (exact_colour 0x6a9955) 0)). constructor.
  - right. exists 0x6a9955. split; [lia|]. split; reflexivity.
  - left. split; [reflexivity|]. cbn [bg]. lia.
  - cbn [flags]. lia.
Defined.
