(* ===== verification/TermScreen.v ===== *)
(** The bounded terminal screen of [src/include/madcdis/term_screen.h]: the bytes a
    program writes, folded into lines with a style for each byte.

    [feed_sound]: no bytes lead out of the invariant.  [kept_text_loads]: the text
    and the runs kept of a screen load as the same lines and styles.
    [plain_text_appends]: plain text is appended. *)
From S2P Require Import Prelude Numbers UiStyle.
#[local] Open Scope nat_scope.

(** ** The state *)

Inductive esc_state := S_normal | S_esc | S_csi | S_osc | S_osc_esc.
#[export] Instance esc_state_eq : EqDecision esc_state.
Proof. solve_decision. Defined.

Record term_screen := Screen {
  lines : list bytes; cur : bytes; col : nat; st : esc_state; params : bytes; cap : nat;
  pen : ui_style; pens : list ui_style; line_ids : list bytes; cur_ids : bytes
}.
Definition new_screen : term_screen := Screen [] [] 0 S_normal [] 5000 normal [normal] [] [].
Record span := Span { s_from : nat; s_end : nat; s_spec : bytes }.

Definition set_text (s : term_screen) (ls : list bytes) (c : bytes) (ids : list bytes) (cids : bytes) (n : nat) : term_screen :=
  Screen ls c n (st s) (params s) (cap s) (pen s) (pens s) ids cids.
Definition set_cur (s : term_screen) (c cids : bytes) : term_screen := set_text s (lines s) c (line_ids s) cids (col s).
Definition set_col (s : term_screen) (n : nat) : term_screen := set_text s (lines s) (cur s) (line_ids s) (cur_ids s) n.
Definition set_st (s : term_screen) (x : esc_state) (p : bytes) : term_screen :=
  Screen (lines s) (cur s) (col s) x p (cap s) (pen s) (pens s) (line_ids s) (cur_ids s).
Definition set_pen (s : term_screen) (p : ui_style) : term_screen :=
  Screen (lines s) (cur s) (col s) (st s) (params s) (cap s) p (pens s) (line_ids s) (cur_ids s).
Definition set_pens (s : term_screen) (ps : list ui_style) : term_screen :=
  Screen (lines s) (cur s) (col s) (st s) (params s) (cap s) (pen s) ps (line_ids s) (cur_ids s).

(** ** Writing *)

Definition c_nul : ascii := Ascii.zero.
Definition blanks (n : nat) : bytes := replicate n c_sp.
Definition nuls (n : nat) : bytes := replicate n c_nul.
(** An id as the [char] it is kept as, and back. *)
Definition id_char (n : nat) : ascii := to_byte (Z.of_nat n).
Definition char_id (c : ascii) : nat := Z.to_nat (code c).

Definition newline (s : term_screen) : term_screen :=
  let ls := lines s ++ [cur s] in
  let ids := line_ids s ++ [cur_ids s] in
  if cap s <? length ls then set_text s (drop (length ls - cap s) ls) [] (drop (length ids - cap s) ids) [] 0
  else set_text s ls [] ids [] 0.

(** The first entry of a style from index 1 on. *)
Fixpoint find_pen (x : ui_style) (ps : list ui_style) (i : nat) : option nat :=
  match ps with [] => None | p :: r => if style_eqb p x then Some i else find_pen x r (S i) end.
Definition intern (s : term_screen) (x : ui_style) : ascii * term_screen :=
  if style_eqb x normal then (c_nul, s)
  else
    match find_pen x (drop 1 (pens s)) 1 with
    | Some i => (id_char i, s)
    | None =>
        if 256 <=? length (pens s) then (c_nul, s)
        else (id_char (length (pens s)), set_pens s (pens s ++ [x]))
    end.

Definition put (s : term_screen) (c : ascii) : term_screen :=
  let '(id, s) := intern s (pen s) in
  let n := col s in
  let s :=
    if n <? length (cur s) then set_cur s (<[n := c]> (cur s)) (<[n := id]> (cur_ids s))
    else if length (cur s) <? n then
      set_cur s (cur s ++ blanks (n - length (cur s)) ++ [c]) (cur_ids s ++ nuls (n - length (cur_ids s)) ++ [id])
    else set_cur s (cur s ++ [c]) (cur_ids s ++ [id]) in
  set_col s (S n).

Definition tab_body (next : nat) (s : term_screen) : term_screen + term_screen :=
  if col s <? next then inl (put s c_sp) else inr s.
Definition put_tab (s : term_screen) : term_screen :=
  let next := (col s / 8 + 1) * 8 in default s (loop (S (next - col s)) (tab_body next) s).

Definition clear (s : term_screen) : term_screen := set_text s [] [] [] [] 0.

(** ** SGR *)

Fixpoint split_params (acc p : bytes) : list bytes :=
  match p with
  | [] => [acc]
  | c :: r => if byte_eqb c ";"%char || byte_eqb c ":"%char then acc :: split_params [] r else split_params (acc ++ [c]) r
  end.
Definition set_index (p : ui_style) (back : bool) (c : Z) : ui_style :=
  if back then set_bg p ((c + 1) mod 256) 0 else set_fg p ((c + 1) mod 256) 0.
Definition set_rgb (p : ui_style) (back : bool) (rgb : Z) : ui_style :=
  if back then set_bg p (ui_rgb_nearest_ansi rgb) (exact_colour rgb) else set_fg p (ui_rgb_nearest_ansi rgb) (exact_colour rgb).
Definition drop_flags (p : ui_style) (b : Z) : ui_style := Style (fg p) (bg p) (Z.land (flags p) (255 - b)) (fg_rgb p) (bg_rgb p).
Definition within (lo hi n : Z) : bool := ((lo <=? n) && (n <=? hi))%Z.
Definition rgb_of (r g b : Z) : Z := Z.lor (Z.lor (Z.shiftl (Z.land r 0xff) 16) (Z.shiftl (Z.land g 0xff) 8)) (Z.land b 0xff).
(** The codes that take no parameter of their own. *)
Definition sgr_code (p : ui_style) (n : Z) : ui_style :=
  (if n =? 0 then normal
   else if n =? 1 then set_flag p BOLD else if n =? 2 then set_flag p DIM else if n =? 3 then set_flag p ITALIC
   else if n =? 4 then set_flag p UNDERLINE else if n =? 5 then set_flag p BLINK else if n =? 7 then set_flag p INVERSE
   else if n =? 22 then drop_flags p (Z.lor BOLD DIM) else if n =? 23 then drop_flags p ITALIC else if n =? 24 then drop_flags p UNDERLINE
   else if n =? 25 then drop_flags p BLINK else if n =? 27 then drop_flags p INVERSE
   else if within 30 37 n then set_index p false (n - 30) else if within 40 47 n then set_index p true (n - 40)
   else if within 90 97 n then set_rgb p false (ui_xterm256_rgb (n - 90 + 8)) else if within 100 107 n then set_rgb p true (ui_xterm256_rgb (n - 100 + 8))
   else if n =? 39 then set_fg p 0 0 else if n =? 49 then set_bg p 0 0 else p)%Z.
Fixpoint sgr_codes (p : ui_style) (l : list Z) : ui_style :=
  match l with
  | [] => p
  | n :: r =>
      if ((n =? 38) || (n =? 48))%Z then
        let back := (n =? 48)%Z in
        match r with
        | [] => p
        | k :: c :: r' =>
            if (k =? 5)%Z then
              sgr_codes (if ((0 <=? c) && (c <? 8))%Z then set_index p back c else set_rgb p back (ui_xterm256_rgb c)) r'
            else if (k =? 2)%Z then
              match r' with g :: b :: r'' => sgr_codes (set_rgb p back (rgb_of c g b)) r'' | _ => p end
            else p
        | _ => p
        end
      else sgr_codes (sgr_code p n) r
  end.
Definition sgr_params (s : term_screen) : term_screen := set_pen s (sgr_codes (pen s) (map atoi (split_params [] (params s)))).

(** ** Bytes *)

Definition erase_line (s : term_screen) : term_screen :=
  if bytes_eqb (params s) (B "1") then
    let n := if col s <? length (cur s) then col s else length (cur s) in
    set_cur s (blanks n ++ drop n (cur s)) (nuls n ++ drop n (cur_ids s))
  else if bytes_eqb (params s) (B "2") then set_cur s (blanks (length (cur s))) (nuls (length (cur_ids s)))
  else if col s <? length (cur s) then set_cur s (take (col s) (cur s)) (take (col s) (cur_ids s))
  else s.
Definition csi_final (s : term_screen) (c : ascii) : term_screen :=
  if byte_eqb c "K"%char then erase_line s
  else if byte_eqb c "J"%char then (if bytes_eqb (params s) (B "2") || bytes_eqb (params s) (B "3") then clear s else s)
  else if byte_eqb c "m"%char then sgr_params s
  else s.

Definition c_esc : ascii := "027"%char.
Definition c_bel : ascii := "007"%char.
Definition c_bs : ascii := "008"%char.
Definition control (b : ascii) : bool := ((code b <? 0x20) || (code b =? 0x7f))%Z.
Definition normal_byte (s : term_screen) (b : ascii) : term_screen :=
  if byte_eqb b c_esc then set_st s S_esc (params s)
  else if byte_eqb b c_nl then newline s
  else if byte_eqb b c_cr then set_col s 0
  else if byte_eqb b c_bs then (if 0 <? col s then set_col s (col s - 1) else s)
  else if byte_eqb b c_tab then put_tab s
  else if control b then s else put s b.
Definition feed_byte (s : term_screen) (b : ascii) : term_screen :=
  match st s with
  | S_esc =>
      if byte_eqb b "["%char then set_st s S_csi []
      else if byte_eqb b "]"%char then set_st s S_osc (params s) else set_st s S_normal (params s)
  | S_csi =>
      if within 0x40 0x7e (code b) then let s := csi_final s b in set_st s S_normal (params s)
      else if length (params s) <? 32 then set_st s S_csi (params s ++ [b]) else set_st s S_normal (params s)
  | S_osc => if byte_eqb b c_bel then set_st s S_normal (params s) else if byte_eqb b c_esc then set_st s S_osc_esc (params s) else s
  | S_osc_esc => set_st s S_normal (params s)
  | S_normal => normal_byte s b
  end.
Definition feed (s : term_screen) (t : bytes) : term_screen := fold_left feed_byte t s.

(** ** What an owner keeps *)

Definition text (s : term_screen) : bytes := flat_map (fun l => l ++ [c_nl]) (lines s) ++ cur s.
Definition pen_spec (s : term_screen) : bytes := ui_style_spec (pen s).

(** The runs of one line's ids. *)
Fixpoint line_spans (ps : list ui_style) (off : nat) (run : option (nat * ascii)) (b : nat) (ids : bytes) : list span :=
  let flush := match run with
               | Some (from, c) =>
                   let id := char_id c in
                   if negb (id =? 0) && (id <? length ps) then [Span (off + from) (off + b) (ui_style_spec (nth id ps normal))] else []
               | None => [] end in
  match ids with
  | [] => flush
  | c :: r =>
      match run with
      | Some (from, d) => if byte_eqb c d then line_spans ps off run (S b) r else flush ++ line_spans ps off (Some (b, c)) (S b) r
      | None => line_spans ps off (Some (b, c)) (S b) r
      end
  end.
Fixpoint spans_from (ps : list ui_style) (off : nat) (rows : list bytes) : list span :=
  match rows with [] => [] | ids :: r => line_spans ps off None 0 ids ++ spans_from ps (off + length ids + 1) r end.
Definition spans (s : term_screen) : list span := spans_from (pens s) 0 (line_ids s ++ [cur_ids s]).

Fixpoint split_lines (acc t : bytes) : list bytes * bytes :=
  match t with
  | [] => ([], acc)
  | c :: r => if byte_eqb c c_nl then let '(ls, c) := split_lines [] r in (acc :: ls, c) else split_lines (acc ++ [c]) r
  end.
Definition load (s : term_screen) (t : bytes) (column : nat) : term_screen :=
  let '(ls, c) := split_lines [] t in
  set_text s ls c (map (fun l => nuls (length l)) ls) (nuls (length c)) (if column <=? length c then column else length c).

Definition mark_row (off from to : nat) (id : ascii) (ids : bytes) : bytes :=
  imap (fun b x => if (from <=? off + b) && (off + b <? to) then id else x) ids.
Fixpoint mark_rows (off from to : nat) (id : ascii) (rows : list bytes) : list bytes :=
  match rows with
  | [] => []
  | ids :: r =>
      mark_row off from to id ids ::
        let off := off + length ids + 1 in if to <? off then r else mark_rows off from to id r
  end.
Definition load_span (s : term_screen) (k : span) : term_screen :=
  match ui_style_of (s_spec k) with
  | None => s
  | Some x =>
      let '(id, s) := intern s x in
      let rows := mark_rows 0 (s_from k) (s_end k) id (line_ids s ++ [cur_ids s]) in
      set_text s (lines s) (cur s) (removelast rows) (default [] (last rows)) (col s)
  end.
Definition load_spans (s : term_screen) (l : list span) : term_screen := fold_left load_span l s.
Definition load_pen (s : term_screen) (spec : bytes) : term_screen :=
  set_pen s (if is_nil spec then normal else default normal (ui_style_of spec)).

Definition screen_of (t : string) : term_screen := feed new_screen (B t).
Definition esc (t : string) : bytes := c_esc :: B t.
Example feed_ex :
  let s := feed new_screen (B "ab" ++ [c_tab] ++ B "c" ++ [c_cr] ++ esc "[1;31mX" ++ esc "[0m" ++ [c_nl] ++ B "50%" ++ [c_cr] ++ B "100%" ++ esc "[K") in
  (text s, col s, spans s) = (B "Xb      c" ++ [c_nl] ++ B "100%", 4, [Span 0 1 (B "bold red")]).
Proof. vm_compute. reflexivity. Qed.

(** ** The invariant *)

Definition plain (t : bytes) : Prop := Forall (fun c => control c = false) t.
Definition rows (s : term_screen) : list bytes := line_ids s ++ [cur_ids s].
Definition texts (s : term_screen) : list bytes := lines s ++ [cur s].
Record palette (ps : list ui_style) : Prop := {
  p_first : head ps = Some normal;
  p_size : length ps <= 256;
  p_nodup : NoDup ps;
  p_ok : Forall style_ok ps
}.
(** Ids beside the text, each in the palette; printable text; the cursor inside
    the line; the parser's bytes bounded. *)
Record sound (s : term_screen) : Prop := {
  i_rows : Forall2 (fun t ids => length ids = length t) (texts s) (rows s);
  i_ids : Forall (Forall (fun c => char_id c < length (pens s))) (rows s);
  i_plain : Forall plain (texts s);
  i_col : col s <= length (cur s);
  i_params : length (params s) <= 32;
  i_pens : palette (pens s);
  i_pen : style_ok (pen s)
}.

Lemma normal_ok : style_ok normal.
Proof. constructor; [left|left|]; simpl; lia. Qed.
Lemma new_screen_sound : sound new_screen.
Proof.
  constructor; simpl; try lia; [by repeat constructor..| |apply normal_ok].
  constructor; simpl; [done|lia|apply NoDup_singleton|by constructor; [apply normal_ok|]].
Qed.

Lemma texts_snoc (P : bytes -> bytes -> Prop) ls ids c cids : length ls = length ids ->
  Forall2 P (ls ++ [c]) (ids ++ [cids]) <-> Forall2 P ls ids /\ P c cids.
Proof.
  intros H. split.
  - intros HF. apply Forall2_app_inv in HF as [H1 H2]; [|done]. by inversion H2.
  - intros [H1 H2]. apply Forall2_app; [done|by constructor].
Qed.
Lemma rows_length s : sound s -> length (lines s) = length (line_ids s).
Proof. intros H. pose proof (Forall2_length _ _ _ (i_rows s H)) as Hl. unfold texts, rows in Hl. rewrite !length_app in Hl. simpl in Hl. lia. Qed.
Lemma sound_cur s : sound s ->
  Forall2 (fun t ids => length ids = length t) (lines s) (line_ids s) /\ length (cur_ids s) = length (cur s) /\
  Forall (Forall (fun c => char_id c < length (pens s))) (line_ids s) /\ Forall (fun c => char_id c < length (pens s)) (cur_ids s) /\
  Forall plain (lines s) /\ plain (cur s).
Proof.
  intros H. pose proof (rows_length s H) as Hl. destruct H as [H1 H2 H3 _ _ _ _]. apply texts_snoc in H1 as [H1 H1']; [|done].
  unfold rows, texts in *. apply Forall_app in H2 as [H2 H2']. apply Forall_app in H3 as [H3 H3']. inversion H2'. inversion H3'. by split_and!.
Qed.

(** The text changed, the rest kept. *)
Lemma set_text_sound s ls c ids cids n : sound s ->
  Forall2 (fun t ids => length ids = length t) ls ids -> length cids = length c ->
  Forall (Forall (fun c => char_id c < length (pens s))) ids -> Forall (fun c => char_id c < length (pens s)) cids ->
  Forall plain ls -> plain c -> n <= length c -> sound (set_text s ls c ids cids n).
Proof.
  intros [_ _ _ _ Hp Hs He] H1 H2 H3 H4 H5 H6 H7. constructor; try done; cbn [set_text texts rows lines line_ids cur cur_ids].
  - apply texts_snoc; [by eapply Forall2_length|done].
  - apply Forall_app. by split; [|constructor].
  - apply Forall_app. by split; [|constructor].
Qed.
Lemma set_cur_sound s c cids n : sound s -> length cids = length c -> Forall (fun c => char_id c < length (pens s)) cids -> plain c -> n <= length c ->
  sound (set_text s (lines s) c (line_ids s) cids n).
Proof. intros H. destruct (sound_cur s H) as (H1 & _ & H3 & _ & H5 & _). intros. by apply set_text_sound. Qed.

Lemma palette_zero ps : palette ps -> 0 < length ps.
Proof. intros [H _ _ _]. destruct ps; [done|simpl; lia]. Qed.
Lemma nul_id : char_id c_nul = 0.
Proof. done. Qed.
Lemma nuls_ids s n : sound s -> Forall (fun c => char_id c < length (pens s)) (nuls n).
Proof. intros H. apply Forall_replicate. rewrite nul_id. by apply palette_zero, i_pens. Qed.
Lemma blanks_plain n : plain (blanks n).
Proof. by apply Forall_replicate. Qed.

Lemma id_char_id n : n < 256 -> char_id (id_char n) = n.
Proof. intros H. unfold char_id, id_char. rewrite code_to_byte_small by lia. lia. Qed.

Lemma find_pen_spec x ps i : match find_pen x ps i with Some k => i <= k < i + length ps /\ ps !! (k - i) = Some x | None => x ∉ ps end.
Proof.
  revert i. induction ps as [|p ps IH]; intros i; cbn [find_pen]; [by apply not_elem_of_nil|].
  destruct (style_eqb p x) eqn:E; unfold style_eqb in E.
  - apply bool_decide_eq_true in E as ->. rewrite Nat.sub_diag. simpl. split; [lia|done].
  - apply bool_decide_eq_false in E. specialize (IH (S i)). destruct (find_pen x ps (S i)) as [k|].
    + destruct IH as [H1 H2]. split; [simpl; lia|]. replace (k - i) with (S (k - S i)) by lia. done.
    + intros [->|H]%elem_of_cons; [done|by apply IH].
Qed.

(** What interning does: the id names the style, or the palette is full. *)
Lemma pen_interned s x : palette (pens s) -> style_ok x ->
  let '(id, s') := intern s x in
  exists ps, s' = set_pens s ps /\ palette ps /\ pens s `prefix_of` ps /\ char_id id < length ps /\
    (length (pens s) < 256 \/ x ∈ pens s -> ps !! char_id id = Some x).
Proof.
  intros Hp Hx. destruct s as [ls cu co sst pa ca pe ps li ci]. unfold intern. cbn [pens] in *. unfold style_eqb.
  destruct (bool_decide_reflect (x = normal)) as [->|Hn].
  { exists ps. split_and!; [done|done|done|by apply palette_zero|]. intros _. rewrite nul_id. destruct ps; [by destruct Hp|]. destruct Hp as [Hp _ _ _]. by injection Hp as ->. }
  destruct ps as [|p ps]; [by destruct Hp|]. assert (p = normal) as -> by (destruct Hp as [Hp _ _ _]; by injection Hp).
  cbn [drop]. rewrite drop_0. pose proof (find_pen_spec x ps 1) as Hf. destruct (find_pen x ps 1) as [k|].
  - destruct Hf as [Hk1 Hk2]. exists (normal :: ps). destruct Hp as [H1 H2 H3 H4]. simpl in H2. rewrite id_char_id by lia.
    split_and!; [done|by constructor|done|simpl; lia|]. intros _. replace k with (S (k - 1)) by lia. done.
  - destruct (Nat.leb_spec 256 (length (normal :: ps))) as [Hl|Hl].
    + exists (normal :: ps). split_and!; [done|done|done|rewrite nul_id; simpl; lia|]. intros [H|H]; [lia|].
      apply elem_of_cons in H as [->|H]; done.
    + exists ((normal :: ps) ++ [x]). destruct Hp as [H1 H2 H3 H4]. rewrite id_char_id by done. split_and!; [done| |by eexists|rewrite length_app; simpl; lia|].
      * constructor; [done|rewrite length_app; simpl in *; lia| |by apply Forall_app; split; [|constructor]].
        apply NoDup_app. split_and!; [done| |apply NoDup_singleton]. intros y Hy ->%list_elem_of_singleton. apply elem_of_cons in Hy as [->|Hy]; done.
      * intros _. by rewrite list_lookup_middle.
Qed.

Lemma set_pens_sound s ps : sound s -> palette ps -> pens s `prefix_of` ps -> sound (set_pens s ps).
Proof.
  intros [H1 H2 H3 H4 H5 H6 H7] Hp Hpre. constructor; try done. cbn [set_pens rows line_ids cur_ids pens] in *.
  eapply Forall_impl; [exact H2|]. intros r Hr. eapply Forall_impl; [exact Hr|]. intros c Hc. apply prefix_length in Hpre. simpl in *. lia.
Qed.
Lemma intern_sound s x : sound s -> style_ok x -> sound (intern s x).2 /\ char_id (intern s x).1 < length (pens (intern s x).2) /\
  exists ps, (intern s x).2 = set_pens s ps.
Proof.
  intros H Hx. pose proof (pen_interned s x (i_pens s H) Hx) as Hi. destruct (intern s x) as [id s']. destruct Hi as (ps & -> & Hp & Hpre & Hid & _).
  cbn [fst snd]. split_and!; [by apply set_pens_sound|done|by exists ps].
Qed.

Lemma put_text_spec s c : sound s -> let '(id, s1) := intern s (pen s) in
  put s c = set_text s1 (lines s) (take (col s) (cur s) ++ [c] ++ drop (S (col s)) (cur s)) (line_ids s)
    (take (col s) (cur_ids s) ++ [id] ++ drop (S (col s)) (cur_ids s)) (S (col s)).
Proof.
  intros H. unfold put. pose proof (pen_interned s (pen s) (i_pens s H) (i_pen s H)) as Hi. destruct (intern s (pen s)) as [id s1].
  destruct Hi as (ps & -> & _). destruct (sound_cur s H) as (_ & Hl & _). pose proof (i_col s H) as Hc.
  cbn [set_pens col cur cur_ids]. destruct (Nat.ltb_spec (col s) (length (cur s))) as [Hlt|Hge].
  - rewrite !insert_take_drop by lia. done.
  - rewrite (proj2 (Nat.ltb_ge _ _)) by lia. rewrite !take_ge, !drop_ge by lia. done.
Qed.
Lemma put_sound s c : sound s -> control c = false -> sound (put s c) /\ col (put s c) = S (col s).
Proof.
  intros H Hc. pose proof (put_text_spec s c H) as Hp. destruct (intern_sound s (pen s) H (i_pen s H)) as (Hs & Hid & ps & Hps).
  destruct (intern s (pen s)) as [id s1]. cbn [fst snd] in *. subst s1. rewrite Hp. split; [|done].
  destruct (sound_cur _ Hs) as (_ & Hl & _ & Hci & _ & Hpl). cbn [set_pens cur cur_ids] in *. pose proof (i_col s H) as Hcol.
  change (lines s) with (lines (set_pens s ps)). change (line_ids s) with (line_ids (set_pens s ps)). apply set_cur_sound; [done|..].
  - rewrite !length_app, !length_take, !length_drop. simpl. lia.
  - apply Forall_app. split; [by apply Forall_take|]. apply Forall_app. split; [by constructor|by apply Forall_drop].
  - apply Forall_app. split; [by apply Forall_take|]. apply Forall_app. split; [by constructor|by apply Forall_drop].
  - rewrite !length_app, !length_take, !length_drop. simpl. lia.
Qed.

Lemma put_tab_spec s : sound s -> exists n, put_tab s = Nat.iter n (fun s => put s c_sp) s /\ 1 <= n <= 8 /\ (col s + n) mod 8 = 0.
Proof.
  intros H. unfold put_tab. set (next := (col s / 8 + 1) * 8).
  pose proof (Nat.div_mod_eq (col s) 8) as Hd. pose proof (Nat.mod_upper_bound (col s) 8 ltac:(lia)) as Hm.
  exists (next - col s). split_and!; [|unfold next; lia|unfold next; lia|].
  2:{ replace (col s + (next - col s)) with next by (unfold next; lia). unfold next. apply Nat.Div0.mod_mul. }
  assert (Hn : col s <= next) by (unfold next; lia). clearbody next. clear Hd Hm.
  remember (next - col s) as n eqn:En. assert (Hl : forall m, n <= m -> loop (S m) (tab_body next) s = Some (Nat.iter n (fun s => put s c_sp) s)); [|by rewrite Hl].
  revert s H Hn En. induction n as [|n IH]; intros s H Hn En m Hm.
  - cbn [loop]. unfold tab_body. by rewrite (proj2 (Nat.ltb_ge _ _)) by lia.
  - destruct m as [|m]; [lia|]. change (loop (S (S m)) (tab_body next) s) with (match tab_body next s with inl s => loop (S m) (tab_body next) s | inr r => Some r end).
    unfold tab_body at 1. rewrite (proj2 (Nat.ltb_lt _ _)) by lia. destruct (put_sound s c_sp H eq_refl) as [H1 H2].
    rewrite IH by (done || lia). f_equal. by rewrite Nat.iter_succ_r.
Qed.
Lemma puts_sound s n : sound s -> sound (Nat.iter n (fun s => put s c_sp) s).
Proof. intros H. induction n as [|n IH]; [done|]. simpl. by apply put_sound. Qed.

Lemma newline_sound s : sound s -> sound (newline s).
Proof.
  intros H. destruct (sound_cur s H) as (H1 & H2 & H3 & H4 & H5 & H6). pose proof (i_rows s H) as Hr. pose proof (i_ids s H) as Hi. pose proof (i_plain s H) as Hp.
  unfold newline. pose proof (Forall2_length _ _ _ Hr) as Hl. unfold texts, rows in *. case_if.
  - apply set_text_sound; [done| |done| |done| |constructor|simpl; lia].
    + rewrite <- Hl. by apply Forall2_drop.
    + by apply Forall_drop.
    + by apply Forall_drop.
  - apply set_text_sound; first [done|by constructor|simpl; lia].
Qed.

Lemma erase_line_sound s : sound s -> sound (erase_line s).
Proof.
  intros H. destruct (sound_cur s H) as (_ & H2 & _ & H4 & _ & H6). pose proof (i_col s H) as Hc. unfold erase_line. case_if; [|case_if; [|case_if]].
  - set (n := if _ : bool then _ else _). assert (Hn : n <= length (cur s)) by (unfold n; case_if; lia). apply set_cur_sound; [done|..].
    + rewrite !length_app, !length_drop. unfold nuls, blanks. rewrite !length_replicate. lia.
    + apply Forall_app. split; [by apply nuls_ids|by apply Forall_drop].
    + apply Forall_app. split; [apply blanks_plain|by apply Forall_drop].
    + rewrite length_app, length_drop. unfold blanks. rewrite length_replicate. lia.
  - apply set_cur_sound; [done|unfold nuls, blanks; rewrite !length_replicate; lia|by apply nuls_ids|apply blanks_plain|unfold blanks; rewrite length_replicate; lia].
  - apply set_cur_sound; [done|rewrite !length_take; lia|by apply Forall_take|by apply Forall_take|rewrite length_take; lia].
  - done.
Qed.
Lemma clear_sound s : sound s -> sound (clear s).
Proof. intros H. apply set_text_sound; first [done|by constructor|simpl; lia]. Qed.
Lemma set_col_sound s n : sound s -> n <= length (cur s) -> sound (set_col s n).
Proof. intros [] Hn. by constructor. Qed.
Lemma set_st_sound s x p : sound s -> length p <= 32 -> sound (set_st s x p).
Proof. intros [] Hp. by constructor. Qed.
Lemma set_pen_sound s p : sound s -> style_ok p -> sound (set_pen s p).
Proof. intros [] Hp. by constructor. Qed.

(** ** Bytes keep it *)

Section Codes.
#[local] Open Scope Z_scope.
Lemma xterm_range n : 0 <= ui_xterm256_rgb n < 2 ^ 24.
Proof.
  destruct (Z.ltb_spec n 0); [unfold ui_xterm256_rgb; rewrite (proj2 (Z.ltb_lt n 0)) by lia; simpl; lia|].
  destruct (Z.ltb_spec 255 n); [unfold ui_xterm256_rgb; rewrite (proj2 (Z.ltb_ge n 0)), (proj2 (Z.ltb_lt 255 n)) by lia; simpl; lia|].
  assert (Hc : forallb (fun n => (0 <=? ui_xterm256_rgb n) && (ui_xterm256_rgb n <? 2 ^ 24)) (map (fun k => 0 + Z.of_nat k) (seq 0 256)) = true) by (vm_compute; reflexivity).
  apply Z_forall_range with (z := n) in Hc; [|lia]. apply andb_true_iff in Hc as [H1 H2]. apply Z.leb_le in H1. apply Z.ltb_lt in H2. lia.
Qed.
Lemma low_byte x : 0 <= Z.land x 0xff < 256.
Proof. change 0xff with (Z.ones 8). rewrite Z_land_low by lia. apply Z.mod_pos_bound. lia. Qed.
Lemma rgb_of_value r g b : rgb_of r g b = Z.land r 0xff * 2 ^ 16 + Z.land g 0xff * 2 ^ 8 + Z.land b 0xff.
Proof.
  unfold rgb_of. pose proof (low_byte r). pose proof (low_byte g). pose proof (low_byte b). rewrite !Z.shiftl_mul_pow2 by lia.
  rewrite Z_lor_add by lia. replace (Z.land r 255 * 2 ^ 16 + Z.land g 255 * 2 ^ 8) with ((Z.land r 255 * 2 ^ 8 + Z.land g 255) * 2 ^ 8) by lia.
  rewrite Z_lor_add by lia. lia.
Qed.
Lemma rgb_of_range r g b : 0 <= rgb_of r g b < 2 ^ 24.
Proof. rewrite rgb_of_value. pose proof (low_byte r). pose proof (low_byte g). pose proof (low_byte b). lia. Qed.

Lemma set_index_ok p back c : style_ok p -> 0 <= c < 8 -> style_ok (set_index p back c).
Proof.
  intros [H1 H2 H3] Hc. unfold set_index. rewrite Z.mod_small by lia.
  destruct back; constructor; try done; left; simpl; lia.
Qed.
Lemma set_rgb_ok p back v : style_ok p -> 0 <= v < 2 ^ 24 -> style_ok (set_rgb p back v).
Proof. intros [H1 H2 H3] Hv. destruct back; constructor; try done; right; by exists v. Qed.
Lemma flags_range f b : 0 <= f < 64 -> 0 <= b < 64 -> 0 <= Z.lor f b < 64 /\ 0 <= Z.land f (255 - b) < 64.
Proof.
  intros Hf Hb. assert (H : forallb (fun f => forallb (fun b => (0 <=? Z.lor f b) && (Z.lor f b <? 64) && ((0 <=? Z.land f (255 - b)) && (Z.land f (255 - b) <? 64)))
    (map (fun k => 0 + Z.of_nat k) (seq 0 64))) (map (fun k => 0 + Z.of_nat k) (seq 0 64)) = true) by (vm_compute; reflexivity).
  apply Z_forall_range with (z := f) in H; [|lia]. apply Z_forall_range with (z := b) in H; [|lia].
  apply andb_true_iff in H as [H1 H2]. apply andb_true_iff in H1 as [H1 H1']. apply andb_true_iff in H2 as [H2 H2'].
  apply Z.leb_le in H1, H2. apply Z.ltb_lt in H1', H2'. lia.
Qed.
Lemma set_flag_ok p b : style_ok p -> 0 <= b < 64 -> style_ok (set_flag p b).
Proof. intros [H1 H2 H3] Hb. constructor; try done. by apply flags_range. Qed.
Lemma drop_flags_ok p b : style_ok p -> 0 <= b < 64 -> style_ok (drop_flags p b).
Proof. intros [H1 H2 H3] Hb. constructor; try done. by apply flags_range. Qed.
Lemma default_fg_ok p : style_ok p -> style_ok (set_fg p 0 0) /\ style_ok (set_bg p 0 0).
Proof. intros [H1 H2 H3]. split; constructor; try done; left; simpl; lia. Qed.

Lemma sgr_code_ok p n : style_ok p -> style_ok (sgr_code p n).
Proof.
  intros H. assert (Hw : forall lo hi, within lo hi n = true -> lo <= n <= hi) by (unfold within; intros; lia). unfold sgr_code.
  repeat lazymatch goal with
  | |- style_ok (if within ?lo ?hi n then _ else _) => destruct (within lo hi n) eqn:?
  | |- style_ok (if ?b then _ else _) => destruct b
  end; repeat match goal with E : within _ _ _ = true |- _ => apply Hw in E end;
  first [apply normal_ok|apply set_flag_ok; [done|by vm_compute]|apply drop_flags_ok; [done|by vm_compute]|apply set_index_ok; [done|lia]|apply set_rgb_ok; [done|apply xterm_range]|by apply default_fg_ok|done].
Qed.
Lemma sgr_codes_ok l p : style_ok p -> style_ok (sgr_codes p l).
Proof.
  revert p. induction l as [l IH] using (induction_ltof1 _ (@length Z)). unfold ltof in IH. intros p H.
  destruct l as [|n r]; [done|]. cbn [sgr_codes]. destruct ((n =? 38) || (n =? 48)).
  2:{ apply IH; [simpl; lia|by apply sgr_code_ok]. }
  cbv zeta. destruct r as [|k [|c r]]; [done|done|]. destruct (k =? 5).
  { apply IH; [simpl; lia|]. destruct (Z.leb_spec 0 c), (Z.ltb_spec c 8); cbn [andb];
      first [apply set_index_ok; [done|lia]|apply set_rgb_ok; [done|apply xterm_range]]. }
  destruct (k =? 2); [|done]. destruct r as [|g [|b r]]; [done|done|].
  apply IH; [simpl; lia|]. apply set_rgb_ok; [done|apply rgb_of_range].
Qed.
End Codes.

Lemma csi_final_sound s c : sound s -> sound (csi_final s c).
Proof.
  intros H. unfold csi_final. case_if; [by apply erase_line_sound|]. case_if; [case_if; [by apply clear_sound|done]|].
  case_if; [|done]. apply set_pen_sound; [done|]. apply sgr_codes_ok, i_pen, H.
Qed.
Lemma csi_final_params s c : params (csi_final s c) = params s.
Proof. unfold csi_final, erase_line. by repeat case_if. Qed.

Lemma feed_byte_sound s b : sound s -> sound (feed_byte s b).
Proof.
  intros H. pose proof (i_params s H) as Hp. unfold feed_byte. destruct (st s).
  - unfold normal_byte. case_if; [by apply set_st_sound|]. case_if; [by apply newline_sound|]. case_if; [apply set_col_sound; [done|lia]|].
    case_if; [case_if; [|done]; apply set_col_sound; [done|pose proof (i_col s H); lia]|]. case_if.
    + destruct (put_tab_spec s H) as (n & -> & _). by apply puts_sound.
    + destruct (control b) eqn:Ec; [done|]. by apply put_sound.
  - case_if; [apply set_st_sound; [done|simpl; lia]|]. case_if; by apply set_st_sound.
  - destruct (within _ _ _); [apply set_st_sound; [by apply csi_final_sound|by rewrite csi_final_params]|].
    destruct (Nat.ltb_spec (length (params s)) 32); apply set_st_sound; first [done|rewrite length_app; simpl; lia].
  - case_if; [by apply set_st_sound|]. case_if; [by apply set_st_sound|done].
  - by apply set_st_sound.
Qed.

(** *** The scrollback *)

Definition bounded (s : term_screen) : Prop := length (lines s) <= cap s.
Lemma put_lines s c : lines (put s c) = lines s /\ cap (put s c) = cap s.
Proof.
  unfold put. destruct (intern s (pen s)) as [id s1] eqn:E. assert (lines s1 = lines s /\ cap s1 = cap s) as [H1 H2].
  { unfold intern in E. destruct (style_eqb _ _); [by injection E as _ <-|]. destruct (find_pen _ _ _); [by injection E as _ <-|]. destruct (256 <=? _); by injection E as _ <-. }
  by repeat case_if.
Qed.
Lemma feed_byte_bounded s b : sound s -> bounded s -> bounded (feed_byte s b) /\ cap (feed_byte s b) = cap s.
Proof.
  intros Hs H. unfold bounded in *.
  assert (Hputs : forall n, lines (Nat.iter n (fun s => put s c_sp) s) = lines s /\ cap (Nat.iter n (fun s => put s c_sp) s) = cap s).
  { induction n as [|n IH]; [done|]. simpl. destruct (put_lines (Nat.iter n (fun s => put s c_sp) s) c_sp) as [-> ->]. done. }
  unfold feed_byte. destruct (st s).
  - unfold normal_byte. case_if; [done|]. case_if.
    { unfold newline. cbv zeta. destruct (Nat.ltb_spec (cap s) (length (lines s ++ [cur s]))); cbn [set_text lines cap]; (split; [|done]); [rewrite length_drop|]; lia. }
    case_if; [done|]. case_if; [by case_if|]. case_if.
    + destruct (put_tab_spec s Hs) as (n & -> & _). destruct (Hputs n) as [-> ->]. done.
    + case_if; [done|]. destruct (put_lines s b) as [-> ->]. done.
  - by repeat case_if.
  - destruct (within _ _ _); [|by case_if]. cbn [set_st lines cap]. unfold csi_final, erase_line.
    repeat case_if; first [done|split; [simpl; lia|done]].
  - by repeat case_if.
  - done.
Qed.

Lemma feed_sound_at s t : sound s -> sound (feed s t).
Proof. unfold feed. revert s. induction t as [|b t IH]; intros s Hs; [done|]. apply IH, feed_byte_sound, Hs. Qed.

(** No bytes lead the screen out of its invariant.  Whatever a program writes,
    the styles stand beside the text byte for byte and in the palette, which keeps
    its 256 entries apart; the text is printable, the cursor never past its line,
    the parameters of a sequence at most 32 bytes and the scrollback at most its
    bound. *)
Theorem feed_sound s t :
  sound s -> bounded s -> sound (feed s t) /\ bounded (feed s t) /\ cap (feed s t) = cap s.
Proof.
  unfold feed. revert s. induction t as [|b t IH]; intros s Hs Hb; [done|]. cbn [fold_left].
  destruct (feed_byte_bounded s b Hs Hb) as [Hb' Hc]. pose proof (feed_byte_sound s b Hs) as Hs'.
  rewrite <- Hc. by apply IH.
Qed.

(** ** What an owner keeps *)

(** *** The text *)

Lemma split_lines_text ls acc c : Forall (fun c => c <> c_nl) c -> Forall (fun l => Forall (fun c => c <> c_nl) l) ls ->
  split_lines acc (flat_map (fun l => l ++ [c_nl]) ls ++ c) = match ls with [] => ([], acc ++ c) | l :: ls => ((acc ++ l) :: ls, c) end.
Proof.
  assert (Hrun : forall u acc v, Forall (fun c => c <> c_nl) u -> split_lines acc (u ++ v) = split_lines (acc ++ u) v).
  { clear. intros u acc v H. revert acc. induction H as [|x u Hx _ IH]; intros acc; [by rewrite app_nil_r|]. cbn [app split_lines].
    apply byte_eqb_neq in Hx. by rewrite Hx, IH, <- app_assoc. }
  intros Hc Hl. revert acc. induction Hl as [|l ls Hl _ IH]; intros acc; cbn [flat_map].
  { rewrite <- (app_nil_r c) at 1. rewrite app_nil_l, Hrun by done. done. }
  rewrite <- !app_assoc, Hrun by done. cbn [app split_lines]. change (byte_eqb c_nl c_nl) with true. cbv iota. rewrite IH. by destruct ls.
Qed.
Lemma plain_no_nl t : plain t -> Forall (fun c => c <> c_nl) t.
Proof. intros H. eapply Forall_impl; [exact H|]. by intros c Hc ->. Qed.
Lemma split_text s : sound s -> split_lines [] (text s) = (lines s, cur s).
Proof.
  intros H. destruct (sound_cur s H) as (_ & _ & _ & _ & H1 & H2). unfold text. rewrite split_lines_text; [by destruct (lines s)|by apply plain_no_nl|].
  eapply Forall_impl; [exact H1|]. intros l. apply plain_no_nl.
Qed.

(** *** The styles *)

Definition style_of (ps : list ui_style) (c : ascii) : ui_style := nth (char_id c) ps normal.
(** The style of each byte, row by row. *)
Definition styles (s : term_screen) : list (list ui_style) := map (map (style_of (pens s))) (rows s).

(** The rows from offset [off] on show the styles [f] names. *)
Fixpoint rows_show (ps : list ui_style) (f : nat -> ui_style) (off : nat) (rs : list bytes) : Prop :=
  match rs with
  | [] => True
  | ids :: r => (forall b c, ids !! b = Some c -> style_of ps c = f (off + b)) /\ rows_show ps f (off + length ids + 1) r
  end.
Definition in_palette (ps : list ui_style) (rs : list bytes) : Prop := Forall (Forall (fun c => char_id c < length ps)) rs.

Lemma rows_show_ext ps f g off rs : (forall x, off <= x -> f x = g x) -> rows_show ps f off rs -> rows_show ps g off rs.
Proof.
  revert off. induction rs as [|ids r IH]; intros off H; [done|]. intros [H1 H2]. split.
  - intros b c Hb. rewrite <- H by lia. by apply H1.
  - apply IH; [|done]. intros x Hx. apply H. lia.
Qed.
Definition shape (rs : list bytes) : list nat := map length rs.
Lemma rows_show_styles ps ps' f off rs rs' : shape rs = shape rs' ->
  rows_show ps f off rs -> rows_show ps' f off rs' -> map (map (style_of ps)) rs = map (map (style_of ps')) rs'.
Proof.
  revert off rs'. induction rs as [|a rs IH]; intros off [|b rs'] H; [done..|]. injection H as Hab H. intros [H1 H2] [H3 H4]. rewrite Hab in H2.
  cbn [map]. f_equal; [|by eapply IH]. apply list_eq. intros i. rewrite !list_lookup_fmap.
  destruct (a !! i) as [c|] eqn:Ea, (b !! i) as [d|] eqn:Eb; cbn [fmap option_fmap option_map].
  - f_equal. by rewrite (H1 i c Ea), (H3 i d Eb).
  - apply lookup_lt_Some in Ea. apply lookup_ge_None in Eb. lia.
  - apply lookup_lt_Some in Eb. apply lookup_ge_None in Ea. lia.
  - done.
Qed.

Lemma style_of_prefix ps ps' c : ps `prefix_of` ps' -> char_id c < length ps -> style_of ps' c = style_of ps c.
Proof. intros [k ->] H. unfold style_of. by apply app_nth1. Qed.
Lemma style_of_lookup ps c x : ps !! char_id c = Some x -> style_of ps c = x.
Proof. intros H. unfold style_of. by apply nth_lookup_Some with (d := normal) in H. Qed.

Definition mark (from to : nat) (x : ui_style) (f : nat -> ui_style) (y : nat) : ui_style := if (from <=? y) && (y <? to) then x else f y.
Lemma mark_rows_show ps ps' f off from to id x rs : ps `prefix_of` ps' -> in_palette ps rs -> style_of ps' id = x ->
  rows_show ps f off rs -> rows_show ps' (mark from to x f) off (mark_rows off from to id rs).
Proof.
  intros Hp Hi Hid. assert (Hweak : forall off rs, in_palette ps rs -> rows_show ps f off rs -> rows_show ps' f off rs).
  { clear -Hp. intros off rs. revert off. induction rs as [|ids r IH]; intros off Hi; [done|]. intros [H1 H2]. apply Forall_cons_1 in Hi as [Hi1 Hi2]. split; [|by apply IH].
    intros b c Hb. rewrite (style_of_prefix ps) by (done || by eapply Forall_lookup_1 in Hi1). by apply H1. }
  revert off. induction rs as [|ids r IH]; intros off; [done|]. intros [H1 H2]. apply Forall_cons_1 in Hi as [Hi1 Hi2]. cbn [mark_rows]. cbv zeta. split.
  - intros b c Hb. unfold mark_row in Hb. rewrite list_lookup_imap in Hb. destruct (ids !! b) as [d|] eqn:Ed; [|done]. injection Hb as <-.
    unfold mark. case_if; [done|]. rewrite (style_of_prefix ps) by (done || by eapply Forall_lookup_1 in Hi1). by apply H1.
  - unfold mark_row. rewrite length_imap. destruct (Nat.ltb_spec to (off + length ids + 1)) as [Hlt|Hge].
    + apply rows_show_ext with (f := f); [|by apply Hweak]. intros y Hy. unfold mark. rewrite (proj2 (Nat.ltb_ge y to)) by lia. by rewrite andb_false_r.
    + by apply IH.
Qed.
Lemma mark_rows_shape off from to id rs : shape (mark_rows off from to id rs) = shape rs.
Proof.
  revert off. induction rs as [|ids r IH]; intros off; [done|]. cbn [mark_rows]. cbv zeta. cbn [shape map].
  f_equal; [apply length_imap|]. case_if; [done|apply IH].
Qed.
Lemma mark_rows_palette off from to id ps rs : char_id id < length ps -> in_palette ps rs -> in_palette ps (mark_rows off from to id rs).
Proof.
  intros Hid. revert off. induction rs as [|ids r IH]; intros off Hi; [constructor|]. apply Forall_cons_1 in Hi as [H1 H2]. cbn [mark_rows]. cbv zeta.
  constructor; [|case_if; [done|by apply IH]]. apply Forall_lookup_2. intros b c Hb. unfold mark_row in Hb. rewrite list_lookup_imap in Hb.
  destruct (ids !! b) as [d|] eqn:Ed; [|done]. injection Hb as <-. case_if; [done|]. by eapply Forall_lookup_1 in H1.
Qed.

(** The styles a list of runs leaves, over [acc]. *)
Definition marked (l : list span) (acc : nat -> ui_style) : nat -> ui_style :=
  fold_left (fun acc k => match ui_style_of (s_spec k) with Some x => mark (s_from k) (s_end k) x acc | None => acc end) l acc.

Record loading (target : list ui_style) (z0 z : term_screen) (f : nat -> ui_style) : Prop := {
  l_lines : lines z = lines z0;
  l_cur : cur z = cur z0;
  l_col : col z = col z0;
  l_shape : shape (rows z) = shape (rows z0);
  l_palette : palette (pens z);
  l_ids : in_palette (pens z) (rows z);
  l_pens : Forall (fun p => p ∈ target) (pens z);
  l_show : rows_show (pens z) f 0 (rows z)
}.
Lemma removelast_rows (rs : list bytes) : rs <> [] -> removelast rs ++ [default [] (last rs)] = rs.
Proof.
  intros H. destruct (exists_last H) as (l & x & ->). rewrite removelast_last, last_snoc. done.
Qed.
Lemma load_span_show target z0 z f k x :
  NoDup target -> length target <= 256 -> ui_style_of (s_spec k) = Some x -> x ∈ target -> style_ok x ->
  loading target z0 z f -> loading target z0 (load_span z k) (mark (s_from k) (s_end k) x f).
Proof.
  intros Hn Hl Hk Hx Hok [H1 H2 H3 H4 H5 H6 H7 H8]. unfold load_span. rewrite Hk.
  pose proof (pen_interned z x H5 Hok) as Hi. destruct (intern z x) as [id z'] eqn:Ei. destruct Hi as (ps & -> & Hp & Hpre & Hid & Hst).
  assert (Hin : ps !! char_id id = Some x).
  { apply Hst. destruct (decide (x ∈ pens z)) as [|Hnot]; [by right|]. left.
    assert (Hsub : x :: pens z ⊆+ target).
    { apply NoDup_submseteq; [constructor; [done|apply H5]|]. intros y [->|Hy]%elem_of_cons; [done|]. by apply (proj1 (Forall_forall _ _) H7). }
    apply submseteq_length in Hsub. simpl in Hsub. lia. }
  change (line_ids (set_pens z ps) ++ [cur_ids (set_pens z ps)]) with (rows z). set (rs := mark_rows 0 (s_from k) (s_end k) id (rows z)).
  assert (Hsh : shape rs = shape (rows z)) by apply mark_rows_shape.
  assert (Hrs : rs <> []). { intros E. rewrite E in Hsh. unfold rows in Hsh. by destruct (line_ids z). }
  assert (Hrows : removelast rs ++ [default [] (last rs)] = rs) by by apply removelast_rows.
  constructor; try done; unfold rows; cbn [set_text line_ids cur_ids set_pens pens]; rewrite ?Hrows.
  - by rewrite Hsh.
  - apply mark_rows_palette; [done|]. eapply Forall_impl; [exact H6|]. intros r Hr. eapply Forall_impl; [exact Hr|]. intros c Hc. apply prefix_length in Hpre. simpl in *. lia.
  - assert (Hps : ps = pens z \/ ps = pens z ++ [x]).
    { unfold intern in Ei. destruct (style_eqb _ _); [|destruct (find_pen _ _ _); [|destruct (256 <=? _)]];
        apply (f_equal (fun p => pens p.2)) in Ei; cbn [snd set_pens pens] in Ei; rewrite <- Ei; auto. }
    destruct Hps as [->| ->]; [done|]. apply Forall_app. by split; [|constructor].
  - eapply mark_rows_show; [done|done|by apply style_of_lookup|done].
Qed.

Lemma style_of_zero ps c : palette ps -> char_id c = 0 -> style_of ps c = normal.
Proof. intros [H _ _ _] E. unfold style_of. rewrite E. destruct ps; [done|]. by injection H as ->. Qed.
Lemma style_of_ok ps c : palette ps -> char_id c < length ps -> style_ok (style_of ps c) /\ style_of ps c ∈ ps.
Proof.
  intros [_ _ _ H] Hc. destruct (lookup_lt_is_Some_2 ps (char_id c) Hc) as [x Hx]. rewrite (style_of_lookup ps c x Hx).
  split; [by eapply Forall_lookup_1 in Hx|by eapply list_elem_of_lookup_2].
Qed.

Definition show_byte (ps : list ui_style) (c : ascii) (under : ui_style) : ui_style := if char_id c =? 0 then under else style_of ps c.
Definition run_flush (ps : list ui_style) (off from b : nat) (c : ascii) : list span :=
  if negb (char_id c =? 0) && (char_id c <? length ps) then [Span (off + from) (off + b) (ui_style_spec (nth (char_id c) ps normal))] else [].
Lemma flush_marked ps off from b c f y : palette ps -> char_id c < length ps ->
  marked (run_flush ps off from b c) f y = if (off + from <=? y) && (y <? off + b) then show_byte ps c (f y) else f y.
Proof.
  intros Hp Hc. unfold run_flush, show_byte. rewrite (proj2 (Nat.ltb_lt _ _)) by done. destruct (char_id c =? 0); [cbn [negb andb]; change (marked [] f y) with (f y); by destruct (_ && _)|].
  cbn [negb andb]. unfold marked. cbn [fold_left s_spec s_from s_end]. change (nth (char_id c) ps normal) with (style_of ps c).
  rewrite spec_roundtrip by (by apply style_of_ok). done.
Qed.
Lemma line_spans_marked ps off ids : palette ps -> Forall (fun c => char_id c < length ps) ids ->
  forall from c b f y, from <= b -> char_id c < length ps ->
  marked (line_spans ps off (Some (from, c)) b ids) f y =
    if (off + from <=? y) && (y <? off + b + length ids) then show_byte ps (if y <? off + b then c else nth (y - (off + b)) ids c_nul) (f y) else f y.
Proof.
  intros Hp. induction 1 as [|d r Hd _ IH]; intros from c b f y Hb Hc; cbn [line_spans]; cbv zeta; fold (run_flush ps off from b c).
  { rewrite flush_marked by done. simpl. rewrite Nat.add_0_r. destruct (Nat.ltb_spec y (off + b)); [done|]. by rewrite !andb_false_r. }
  destruct (byte_eqb d c) eqn:E.
  - apply byte_eqb_eq in E. subst d. rewrite IH by (lia || done). cbn [length].
    replace (off + S b + length r) with (off + b + S (length r)) by lia. destruct (_ && _); [|done]. f_equal.
    destruct (Nat.ltb_spec y (off + S b)), (Nat.ltb_spec y (off + b)); [done| |lia|].
    + by replace (y - (off + b)) with 0 by lia.
    + by replace (y - (off + b)) with (S (y - (off + S b))) by lia.
  - unfold marked. rewrite fold_left_app. fold (marked (run_flush ps off from b c) f). fold (marked (line_spans ps off (Some (b, d)) (S b) r) (marked (run_flush ps off from b c) f)).
    rewrite IH by (lia || done). rewrite !flush_marked by done. cbn [length].
    destruct (Nat.leb_spec (off + b) y); cbn [andb].
    + rewrite (proj2 (Nat.leb_le _ _)) by lia. replace (off + S b + length r) with (off + b + S (length r)) by lia. cbn [andb].
      rewrite !(proj2 (Nat.ltb_ge y (off + b))) by lia. destruct (Nat.ltb_spec y (off + b + S (length r))); [|done]. f_equal.
      destruct (Nat.ltb_spec y (off + S b)); [by replace (y - (off + b)) with 0 by lia|].
      by replace (y - (off + b)) with (S (y - (off + S b))) by lia.
    + rewrite (proj2 (Nat.ltb_lt y (off + b))), (proj2 (Nat.ltb_lt y (off + b + S (length r)))) by lia. done.
Qed.
Lemma row_spans_marked ps off ids f y : palette ps -> Forall (fun c => char_id c < length ps) ids ->
  marked (line_spans ps off None 0 ids) f y = if (off <=? y) && (y <? off + length ids) then show_byte ps (nth (y - off) ids c_nul) (f y) else f y.
Proof.
  intros Hp H. destruct H as [|c r Hc Hr]; cbn [line_spans].
  { rewrite Nat.add_0_r. change (marked [] f y) with (f y). destruct (Nat.leb_spec off y), (Nat.ltb_spec y off); [lia|done..]. }
  rewrite line_spans_marked by (done || lia). cbn [length]. rewrite Nat.add_0_r. replace (off + 1 + length r) with (off + S (length r)) by lia.
  destruct (Nat.leb_spec off y); [|done]. cbn [andb]. destruct (y <? off + S (length r)); [|done]. f_equal.
  destruct (Nat.ltb_spec y (off + 1)); [by replace (y - off) with 0 by lia|]. by replace (y - off) with (S (y - (off + 1))) by lia.
Qed.

Lemma spans_before ps off rs f y : palette ps -> in_palette ps rs -> y < off -> marked (spans_from ps off rs) f y = f y.
Proof.
  intros Hp Hi. revert off f. induction Hi as [|ids r H1 _ IH]; intros off f Hy; [done|]. cbn [spans_from]. unfold marked. rewrite fold_left_app.
  fold (marked (line_spans ps off None 0 ids) f). fold (marked (spans_from ps (off + length ids + 1) r) (marked (line_spans ps off None 0 ids) f)).
  rewrite IH by lia. rewrite row_spans_marked by done. by rewrite (proj2 (Nat.leb_gt off y)) by lia.
Qed.
(** The runs name the style of each byte. *)
Lemma spans_show ps off rs f : palette ps -> in_palette ps rs -> (forall y, off <= y -> f y = normal) ->
  rows_show ps (marked (spans_from ps off rs) f) off rs.
Proof.
  intros Hp Hi. revert off f. induction Hi as [|ids r H1 Hr IH]; intros off f Hf; [done|]. cbn [spans_from].
  assert (Happ : forall y, marked (line_spans ps off None 0 ids ++ spans_from ps (off + length ids + 1) r) f y =
    marked (spans_from ps (off + length ids + 1) r) (marked (line_spans ps off None 0 ids) f) y) by (intros y; unfold marked; by rewrite fold_left_app).
  split.
  - intros b c Hb. apply lookup_lt_Some in Hb as Hlt. rewrite Happ, spans_before by (done || lia). rewrite row_spans_marked by done.
    rewrite (proj2 (Nat.leb_le off _)), (proj2 (Nat.ltb_lt (off + b) _)) by lia. cbn [andb]. replace (off + b - off) with b by lia.
    rewrite (nth_lookup_Some _ _ c_nul c) by done. unfold show_byte. destruct (Nat.eqb_spec (char_id c) 0) as [E|E]; [|done].
    rewrite Hf by lia. by apply style_of_zero.
  - eapply rows_show_ext; [intros y _; symmetry; apply Happ|]. apply IH. intros y Hy. rewrite row_spans_marked by done.
    rewrite (proj2 (Nat.ltb_ge y _)) by lia. rewrite andb_false_r. apply Hf. lia.
Qed.
Lemma spans_styles ps off rs : palette ps -> in_palette ps rs ->
  Forall (fun k => exists x, ui_style_of (s_spec k) = Some x /\ x ∈ ps /\ style_ok x) (spans_from ps off rs).
Proof.
  intros Hp Hi. assert (Hfl : forall from b c off, Forall (fun k => exists x, ui_style_of (s_spec k) = Some x /\ x ∈ ps /\ style_ok x) (run_flush ps off from b c)).
  { intros from b c o. unfold run_flush. destruct (Nat.eqb_spec (char_id c) 0); [constructor|]. destruct (Nat.ltb_spec (char_id c) (length ps)) as [Hc|]; [|constructor].
    constructor; [|constructor]. cbn [s_spec]. destruct (style_of_ok ps c Hp Hc). exists (style_of ps c). split_and!; [by apply spec_roundtrip|done|done]. }
  assert (Hrow : forall ids off run b, Forall (fun k => exists x, ui_style_of (s_spec k) = Some x /\ x ∈ ps /\ style_ok x) (line_spans ps off run b ids)).
  { induction ids as [|d r IH]; intros o [[from c]|] b; cbn [line_spans]; cbv zeta; try fold (run_flush ps o from b c); [apply Hfl|constructor| |apply IH].
    destruct (byte_eqb d c); [apply IH|]. apply Forall_app. by split; [apply Hfl|apply IH]. }
  revert off. induction Hi as [|ids r _ _ IH]; intros off; [constructor|]. cbn [spans_from]. apply Forall_app. by split.
Qed.

Lemma load_spans_show target z0 l : NoDup target -> length target <= 256 ->
  Forall (fun k => exists x, ui_style_of (s_spec k) = Some x /\ x ∈ target /\ style_ok x) l ->
  forall z f, loading target z0 z f -> loading target z0 (load_spans z l) (marked l f).
Proof.
  intros Hn Hl. induction 1 as [|k l (x & Hx & Hin & Hok) _ IH]; intros z f Hz; [done|]. cbn [load_spans fold_left].
  unfold marked. cbn [fold_left]. rewrite Hx. apply IH. by apply load_span_show.
Qed.
Lemma load_kept s : sound s -> loading (pens s) (load new_screen (text s) (col s)) (load new_screen (text s) (col s)) (fun _ => normal) /\
  lines (load new_screen (text s) (col s)) = lines s /\ cur (load new_screen (text s) (col s)) = cur s /\
  col (load new_screen (text s) (col s)) = col s /\ shape (rows (load new_screen (text s) (col s))) = shape (rows s).
Proof.
  intros H. unfold load. rewrite split_text by done. rewrite (proj2 (Nat.leb_le _ _)) by apply i_col, H.
  set (z := set_text _ _ _ _ _ _). assert (Hnul : Forall (Forall (fun c => c = c_nul)) (rows z)).
  { unfold rows, z. cbn [set_text line_ids cur_ids]. apply Forall_app. split; [|constructor; [by apply Forall_replicate|done]].
    apply Forall_map, Forall_true. intros l. by apply Forall_replicate. }
  split_and!; try done.
  - assert (Hnew : pens z = [normal]) by done. constructor; try done.
    + rewrite Hnew. apply new_screen_sound.
    + rewrite Hnew. eapply Forall_impl; [exact Hnul|]. intros r Hr. eapply Forall_impl; [exact Hr|]. intros c ->. rewrite nul_id. simpl. lia.
    + rewrite Hnew. constructor; [|done]. destruct (i_pens s H) as [Hh _ _ _]. destruct (pens s); [done|]. injection Hh as ->. by left.
    + rewrite Hnew. clear -Hnul. generalize 0 as off. induction Hnul as [|r rs Hr _ IH]; intros off; [done|]. split; [|apply IH].
      intros b c Hb. eapply Forall_lookup_1 in Hr; [|exact Hb]. by subst c.
  - pose proof (i_rows s H) as Hr. unfold z, rows, texts in *. cbn [set_text line_ids cur_ids]. unfold shape.
    assert (Hsh : map length (lines s ++ [cur s]) = map length (line_ids s ++ [cur_ids s])).
    { clear -Hr. induction Hr as [|a b l k Hab _ IH]; [done|]. simpl. by rewrite Hab, IH. }
    rewrite <- Hsh, !map_app, map_map. f_equal; [|simpl; f_equal; apply length_replicate]. apply map_ext. intros l. apply length_replicate.
Qed.
Lemma loaded_sound target z0 z f : loading target z0 z f -> Forall2 (fun t n => n = length t) (texts z) (shape (rows z0)) ->
  Forall plain (texts z) -> col z <= length (cur z) -> length (params z) <= 32 -> style_ok (pen z) -> sound z.
Proof.
  intros [H1 H2 H3 H4 H5 H6 H7 H8] Hs Hp Hc Hpa Hpe. constructor; try done. rewrite <- H4 in Hs. clear -Hs. unfold shape in Hs.
  apply Forall2_fmap_r in Hs. exact Hs.
Qed.
Lemma load_span_other z k : lines (load_span z k) = lines z /\ cur (load_span z k) = cur z /\ col (load_span z k) = col z /\
  params (load_span z k) = params z /\ pen (load_span z k) = pen z /\ cap (load_span z k) = cap z.
Proof.
  unfold load_span. destruct (ui_style_of (s_spec k)) as [x|]; [|done]. unfold intern.
  destruct (style_eqb _ _); [done|]. destruct (find_pen _ _ _); [done|]. by destruct (256 <=? _).
Qed.
Lemma load_spans_other l z : lines (load_spans z l) = lines z /\ cur (load_spans z l) = cur z /\ col (load_spans z l) = col z /\
  params (load_spans z l) = params z /\ pen (load_spans z l) = pen z /\ cap (load_spans z l) = cap z.
Proof.
  revert z. induction l as [|k l IH]; intros z; [done|]. change (load_spans z (k :: l)) with (load_spans (load_span z k) l). destruct (IH (load_span z k)) as (-> & -> & -> & -> & -> & ->). apply load_span_other.
Qed.
Lemma load_other s t n : params (load s t n) = params s /\ pen (load s t n) = pen s /\ cap (load s t n) = cap s.
Proof. unfold load. by destruct (split_lines [] t). Qed.
Lemma load_pen_spec s z : sound s -> load_pen z (pen_spec s) = set_pen z (pen s).
Proof.
  intros H. unfold load_pen, pen_spec. pose proof (spec_roundtrip (pen s) (i_pen s H)) as Hr.
  destruct (ui_style_spec (pen s)) as [|c r] eqn:E; [done|]. cbn [is_nil]. by rewrite Hr.
Qed.

(** The text, the cursor's column and the coloured runs, loaded into a new
    screen, show the same lines and the same style for each byte. *)
Lemma kept_text_loads s :
  sound s ->
  let k := load_spans (load new_screen (text s) (col s)) (spans s) in
  lines k = lines s /\ cur k = cur s /\ col k = col s /\ styles k = styles s /\ sound k /\ pens k ⊆ pens s /\ cap k = 5000.
Proof.
  intros H. cbv zeta. destruct (load_kept s H) as (Hz & H1 & H2 & H3 & H4).
  set (z := load new_screen (text s) (col s)) in *. pose proof (i_pens s H) as Hp. pose proof (i_ids s H) as Hi.
  pose proof (load_spans_show (pens s) z (spans s) (p_nodup _ Hp) (p_size _ Hp) (spans_styles (pens s) 0 (rows s) Hp Hi) z _ Hz) as Hl.
  destruct (load_spans_other (spans s) z) as (E1 & E2 & E3 & E4 & E5 & E8). destruct (load_other new_screen (text s) (col s)) as (E6 & E7 & E9). fold z in E6, E7, E9.
  set (k := load_spans z (spans s)) in *.
  assert (Hshape : shape (rows k) = shape (rows s)) by (by rewrite (l_shape _ _ _ _ Hl)).
  split_and!; [by rewrite E1|by rewrite E2|by rewrite E3| | | |by rewrite E8].
  - unfold styles. eapply rows_show_styles; [done|apply (l_show _ _ _ _ Hl)|]. by apply (spans_show (pens s) 0 (rows s) (fun _ => normal) Hp Hi).
  - apply (loaded_sound _ _ _ _ Hl); unfold texts; rewrite ?E1, ?E2, ?E3, ?E4, ?E5, ?E6, ?E7, ?H1, ?H2, ?H3; [|apply H|apply H|simpl; lia|apply normal_ok].
    rewrite H4. apply Forall2_fmap_r. exact (i_rows s H).
  - intros y Hy. by apply (proj1 (Forall_forall _ _) (l_pens _ _ _ _ Hl)).
Qed.

(** *** Plain text *)

Definition plain_or_nl (c : ascii) : bool := negb (control c) || byte_eqb c c_nl.
Lemma plain_cases c : control c = false ->
  byte_eqb c c_esc = false /\ byte_eqb c c_nl = false /\ byte_eqb c c_cr = false /\ byte_eqb c c_bs = false /\ byte_eqb c c_tab = false.
Proof. destruct c as [[] [] [] [] [] [] [] []]; vm_compute; done. Qed.

(** Text of printable bytes and line ends, at the end of the last line, is
    appended, as long as the scrollback has room for its lines. *)
Lemma plain_text_appends s t :
  sound s -> st s = S_normal -> col s = length (cur s) -> Forall (fun c => plain_or_nl c = true) t ->
  length (lines s) + length (List.filter (byte_eqb c_nl) t) <= cap s ->
  text (feed s t) = text s ++ t /\ st (feed s t) = S_normal /\ col (feed s t) = length (cur (feed s t)).
Proof.
  intros Hs Hst Hcol Ht. revert s Hs Hst Hcol. induction Ht as [|c t Hc _ IH]; intros s Hs Hst Hcol Hcap; [by rewrite app_nil_r|].
  change (feed s (c :: t)) with (feed (feed_byte s c) t). pose proof (feed_byte_sound s c Hs) as Hs'. revert Hs'. unfold feed_byte. rewrite Hst. unfold normal_byte.
  destruct (byte_eqb c c_nl) eqn:En.
  - apply byte_eqb_eq in En. subst c. change (byte_eqb c_nl c_esc) with false. cbv iota. intros Hs'.
    cbn [List.filter] in Hcap. change (byte_eqb c_nl c_nl) with true in Hcap. cbv iota in Hcap. cbn [length] in Hcap.
    assert (Hn : newline s = set_text s (lines s ++ [cur s]) [] (line_ids s ++ [cur_ids s]) [] 0).
    { unfold newline. rewrite (proj2 (Nat.ltb_ge _ _)); [done|]. rewrite length_app. simpl. lia. }
    rewrite Hn in *. destruct (IH _ Hs') as (-> & H2 & H3); [done|done|cbn [set_text lines cap]; rewrite length_app; simpl; lia|].
    split_and!; [|done|done]. unfold text. cbn [set_text lines cur]. rewrite flat_map_app. simpl. by rewrite app_nil_r, <- !app_assoc.
  - unfold plain_or_nl in Hc. rewrite En, orb_false_r in Hc. apply negb_true_iff in Hc. destruct (plain_cases c Hc) as (-> & _ & -> & -> & ->).
    rewrite Hc. intros Hs'. pose proof (put_text_spec s c Hs) as Hp. destruct (intern_sound s (pen s) Hs (i_pen s Hs)) as (_ & _ & ps & Hps).
    destruct (intern s (pen s)) as [id s1]. cbn [snd] in Hps. subst s1. cbn [List.filter] in Hcap. assert (En' : byte_eqb c_nl c = false) by (apply byte_eqb_neq; intros E; apply byte_eqb_neq in En; congruence).
    rewrite En' in Hcap.
    rewrite take_ge, drop_ge, app_nil_r in Hp by lia. rewrite Hp in *. destruct (IH _ Hs') as (-> & H2 & H3).
    + exact Hst.
    + cbn [set_text col cur]. rewrite length_app. simpl. lia.
    + exact Hcap.
    + split_and!; [|done|done]. unfold text. cbn [set_text lines cur]. by rewrite <- !app_assoc.
Qed.

(** ** The theorems at concrete screens *)

Definition red_progress : bytes := B "ab" ++ [c_tab] ++ B "c" ++ [c_cr] ++ esc "[1;31mX" ++ esc "[0m" ++ [c_nl] ++ B "50%" ++ [c_cr] ++ B "100%" ++ esc "[K".
Lemma feed_sound_witness :
  sound new_screen /\ bounded new_screen /\ sound (feed new_screen red_progress) /\ length (lines (feed new_screen red_progress)) = 1.
Proof.
  assert (Hb : bounded new_screen) by (apply Nat.le_0_l).
  split_and!; [exact new_screen_sound|exact Hb|exact (proj1 (feed_sound new_screen red_progress new_screen_sound Hb))|vm_compute; reflexivity].
Defined.
