(* ===== verification/Sgr.v ===== *)
(** From a style to the terminal's bytes: [sgr] of [src/src/ui_term.cpp] (declared
    in [src/include/madcdis/ui_sgr.h]).

    [sgr_sets_pen]: the terminal screen of [TermScreen] reads the style back, at
    the colours of the depth. *)
From S2P Require Import Prelude Numbers UiStyle TermScreen.
#[local] Open Scope Z_scope.

Inductive ui_colour_depth := ansi16 | xterm256 | truecolor.
#[export] Instance depth_eq : EqDecision ui_colour_depth.
Proof. solve_decision. Defined.

(** [snprintf] of a list of [%d;]. *)
Definition codes_text (l : list Z) : bytes := flat_map (fun n => to_string n ++ B ";") l.
Definition colour_codes (index rgb base : Z) (depth : ui_colour_depth) : list Z :=
  if negb (rgb =? 0) && bool_decide (depth = truecolor) then [base; 2; red rgb; green rgb; blue rgb]
  else if negb (rgb =? 0) && bool_decide (depth = xterm256) then [base; 5; ui_rgb_nearest_256 (Z.land rgb 0xffffff)]
  else if negb (index =? 0) then [base - 9 + index]
  else [].
Definition sgr_colour (ps : bytes) (index rgb base : Z) (depth : ui_colour_depth) : bytes :=
  ps ++ codes_text (colour_codes index rgb base depth).

Definition attr_codes : list (Z * bytes) :=
  [(BOLD, B "1;"); (DIM, B "2;"); (ITALIC, B "3;"); (UNDERLINE, B "4;"); (BLINK, B "5;"); (INVERSE, B "7;")].
Definition attr_params (f : Z) : bytes := fold_left (fun ps x => if negb (Z.land f x.1 =? 0) then ps ++ x.2 else ps) attr_codes [].
Definition reset : bytes := esc "[0m".
Definition sgr (out : bytes) (from to : ui_style) (depth : ui_colour_depth) : bytes :=
  if is_normal to then out ++ reset
  else
    let out := if is_normal from then out else out ++ reset in
    if is_reverse to then out ++ esc "[7m"
    else
      let ps := attr_params (flags to) in
      let ps := sgr_colour ps (fg to) (fg_rgb to) 38 depth in
      let ps := sgr_colour ps (bg to) (bg_rgb to) 48 depth in
      if is_nil ps then out else out ++ esc "[" ++ removelast ps ++ B "m".

Example sgr_ex :
  let green := Style 3 0 1 (exact_colour 0x6a9955) 0 in
  (sgr [] normal green truecolor, sgr [] reverse green xterm256, sgr [] green green ansi16) =
  (esc "[1;38;2;106;153;85m", reset ++ esc "[1;38;5;65m", reset ++ esc "[1;32m").
Proof. vm_compute. reflexivity. Qed.

(** ** What a terminal of a depth shows *)

Definition shown_colour (depth : ui_colour_depth) (index rgb : Z) : Z * Z :=
  match depth with
  | truecolor => (index, rgb)
  | xterm256 =>
      if rgb =? 0 then (index, rgb)
      else let v := ui_xterm256_rgb (ui_rgb_nearest_256 (Z.land rgb 0xffffff)) in (ui_rgb_nearest_ansi v, exact_colour v)
  | ansi16 => (index, 0)
  end.
Definition shown (depth : ui_colour_depth) (s : ui_style) : ui_style :=
  let f := shown_colour depth (fg s) (fg_rgb s) in
  let b := shown_colour depth (bg s) (bg_rgb s) in Style f.1 b.1 (flags s) f.2 b.2.

(** The parameters of a transition to [s]. *)
Definition style_codes (s : ui_style) (depth : ui_colour_depth) : list Z :=
  omap (fun x => if negb (Z.land (flags s) x.1 =? 0) then Some x.2 else None) [(BOLD, 1); (DIM, 2); (ITALIC, 3); (UNDERLINE, 4); (BLINK, 5); (INVERSE, 7)] ++
  colour_codes (fg s) (fg_rgb s) 38 depth ++ colour_codes (bg s) (bg_rgb s) 48 depth.
Definition style_params (s : ui_style) (depth : ui_colour_depth) : bytes := removelast (codes_text (style_codes s depth)).

(** ** A control sequence read *)

Definition param_byte (c : ascii) : Prop := within 0x40 0x7e (code c) = false.
Lemma feed_param_bytes s p q : st s = S_csi -> Forall param_byte p -> (length (params s) + length p <= 32)%nat ->
  feed s (p ++ q) = feed (set_st s S_csi (params s ++ p)) q.
Proof.
  intros Hst H. revert s Hst. induction H as [|c p Hc _ IH]; intros s Hst Hl.
  { rewrite app_nil_r. simpl. f_equal. destruct s. simpl in *. by subst. }
  change (feed s ((c :: p) ++ q)) with (feed (feed_byte s c) (p ++ q)). unfold feed_byte. rewrite Hst. unfold param_byte in Hc. rewrite Hc.
  cbn [length] in Hl. rewrite (proj2 (Nat.ltb_lt _ _)) by lia. rewrite IH; [|done|cbn [set_st params]; rewrite length_app; simpl; lia].
  cbn [set_st params]. unfold set_st. cbn [lines cur col cap pen pens line_ids cur_ids]. by rewrite <- app_assoc.
Qed.
(** The state between control sequences. *)
Definition rest (s : term_screen) (p : bytes) (x : ui_style) : term_screen := set_st (set_pen s x) S_normal p.
Lemma feed_sgr s p q : st s = S_normal -> Forall param_byte p -> (length p <= 32)%nat ->
  feed s (esc "[" ++ p ++ B "m" ++ q) = feed (rest s p (sgr_codes (pen s) (map atoi (split_params [] p)))) q.
Proof.
  intros Hst Hp Hl. change (feed s (esc "[" ++ p ++ B "m" ++ q)) with (feed (feed_byte (feed_byte s c_esc) "["%char) (p ++ B "m" ++ q)).
  assert (H : feed_byte (feed_byte s c_esc) "["%char = set_st s S_csi []).
  { unfold feed_byte at 2. rewrite Hst. done. }
  rewrite H, feed_param_bytes by done. reflexivity.
Qed.

Lemma digits_plain_param s : digits s -> Forall param_byte s.
Proof. intros H. eapply Forall_impl; [exact H|]. intros c. by destruct c as [[] [] [] [] [] [] [] []]. Qed.
Lemma digits_no_sep s acc t : digits s -> split_params acc (s ++ t) = split_params (acc ++ s) t.
Proof.
  intros H. revert acc. induction H as [|c s Hc _ IH]; intros acc; [by rewrite app_nil_r|]. cbn [app split_params].
  replace (byte_eqb c ";"%char || byte_eqb c ":"%char) with false by (revert Hc; by destruct c as [[] [] [] [] [] [] [] []]).
  by rewrite IH, <- app_assoc.
Qed.
Definition code_ok (n : Z) : Prop := 0 <= n < 2 ^ 31.

Lemma codes_read n l : code_ok n -> Forall code_ok l ->
  map atoi (split_params [] (removelast (codes_text (n :: l)))) = n :: l /\ Forall param_byte (removelast (codes_text (n :: l))).
Proof.
  intros Hn Hl. assert (Ha : forall n, code_ok n -> atoi (to_string n) = n).
  { intros m Hm. rewrite <- (app_nil_r (to_string m)). by apply atoi_to_string. }
  revert n Hn. induction Hl as [|m l Hm _ IH]; intros n Hn.
  - unfold codes_text. cbn [flat_map]. change (B ";") with [";"%char]. rewrite app_nil_r, removelast_last. destruct (to_string_digits n Hn) as (Hd & _).
    split; [|by apply digits_plain_param]. rewrite <- (app_nil_r (to_string n)), digits_no_sep by done. cbn [split_params map app]. by rewrite Ha.
  - change (codes_text (n :: m :: l)) with ((to_string n ++ B ";") ++ codes_text (m :: l)). destruct (to_string_digits n Hn) as (Hd & _).
    rewrite removelast_app by (unfold codes_text; cbn [flat_map]; intros E; apply app_nil in E as [E _]; by apply app_nil in E as [_ E]).
    destruct (IH m Hm) as [H1 H2]. rewrite <- app_assoc. split.
    + rewrite digits_no_sep by done.
      change (split_params ([] ++ to_string n) (B ";" ++ removelast (codes_text (m :: l)))) with (to_string n :: split_params [] (removelast (codes_text (m :: l)))).
      cbn [map]. by rewrite H1, Ha.
    + apply Forall_app. split; [by apply digits_plain_param|]. by constructor.
Qed.

(** ** The codes of a style *)

Lemma attr_params_text f : attr_params f = codes_text (omap (fun x => if negb (Z.land f x.1 =? 0) then Some x.2 else None)
  [(BOLD, 1); (DIM, 2); (ITALIC, 3); (UNDERLINE, 4); (BLINK, 5); (INVERSE, 7)]).
Proof. unfold attr_params, codes_text, attr_codes. cbn [fold_left omap list_omap fst snd]. by do 6 (destruct (negb (Z.land f _ =? 0))). Qed.
Lemma params_of_codes s depth :
  sgr_colour (sgr_colour (attr_params (flags s)) (fg s) (fg_rgb s) 38 depth) (bg s) (bg_rgb s) 48 depth = codes_text (style_codes s depth).
Proof. unfold sgr_colour, style_codes, codes_text. rewrite attr_params_text, !flat_map_app. unfold codes_text. by rewrite <- app_assoc. Qed.

Definition plain_code (n : Z) : Prop := (n =? 38) || (n =? 48) = false.
Lemma sgr_codes_plain l k p : Forall plain_code l -> sgr_codes p (l ++ k) = sgr_codes (fold_left sgr_code l p) k.
Proof. intros H. revert p. induction H as [|n l Hn _ IH]; intros p; [done|]. cbn [app sgr_codes fold_left]. unfold plain_code in Hn. by rewrite Hn, IH. Qed.
Lemma attr_codes_read f k : 0 <= f < 64 ->
  sgr_codes normal (omap (fun x => if negb (Z.land f x.1 =? 0) then Some x.2 else None)
    [(BOLD, 1); (DIM, 2); (ITALIC, 3); (UNDERLINE, 4); (BLINK, 5); (INVERSE, 7)] ++ k) = sgr_codes (Style 0 0 f 0 0) k.
Proof.
  intros Hf. set (codes := omap _ _). rewrite sgr_codes_plain.
  - f_equal. unfold codes. assert (H : forallb (fun f => bool_decide (fold_left sgr_code (omap (fun x => if negb (Z.land f x.1 =? 0) then Some x.2 else None)
      [(BOLD, 1); (DIM, 2); (ITALIC, 3); (UNDERLINE, 4); (BLINK, 5); (INVERSE, 7)]) normal = Style 0 0 f 0 0)) (map (fun k => 0 + Z.of_nat k) (seq 0 64)) = true) by (vm_compute; reflexivity).
    apply Z_forall_range with (z := f) in H; [|lia]. by apply bool_decide_eq_true in H.
  - apply Forall_forall. intros n Hn. apply list_elem_of_omap in Hn as (x & Hx & Hx2). case_if_in Hx2; [|done]. injection Hx2 as <-.
    by repeat (apply elem_of_cons in Hx as [->|Hx]; [done|]); apply elem_of_nil in Hx.
Qed.

Lemma exact_parts v : 0 <= v < 2 ^ 24 ->
  (exact_colour v =? 0) = false /\ rgb_of (red (exact_colour v)) (green (exact_colour v)) (blue (exact_colour v)) = v /\ Z.land (exact_colour v) 0xffffff = v.
Proof.
  intros H. split_and!; [rewrite exact_value by done; apply Z.eqb_neq; lia| |by apply exact_low].
  rewrite rgb_of_value, exact_value by done. unfold red, green, blue. change 0xff with (Z.ones 8). rewrite !Z_land_low, !Z.shiftr_div_pow2 by lia.
  rewrite !Z.mod_mod by lia. change (2 ^ 24) with (2 ^ 16 * 2 ^ 8) in *. change (2 ^ 16) with (2 ^ 8 * 2 ^ 8) in *. set (b := 2 ^ 8) in *.
  assert (Hb : b = 256) by done. clearbody b. subst b.
  pose proof (Z.div_mod v 256 ltac:(lia)). pose proof (Z.mod_pos_bound v 256 ltac:(lia)).
  pose proof (Z.div_mod (v / 256) 256 ltac:(lia)). pose proof (Z.mod_pos_bound (v / 256) 256 ltac:(lia)).
  replace (256 * 256 * 256 + v) with (v + (256 * 256) * 256) by lia. rewrite Z.div_add by lia. rewrite Z.mod_add by lia.
  replace (v + 256 * 256 * 256) with (v + 256 * (256 * 256)) by lia. rewrite Z.div_add by lia. rewrite <- (Z.div_div v 256 256) by lia.
  assert (v / 256 / 256 < 256) by (apply Z.div_lt_upper_bound; [lia|]; apply Z.div_lt_upper_bound; lia).
  assert (0 <= v / 256 / 256) by (apply Z.div_pos; [apply Z.div_pos|]; lia).
  replace ((v / 256 / 256 + 256) mod 256) with (v / 256 / 256) by (replace (v / 256 / 256 + 256) with (v / 256 / 256 + 1 * 256) by lia; rewrite Z.mod_add by lia; by rewrite Z.mod_small by lia).
  replace (v + 256 * (256 * 256)) with (v + (256 * 256) * 256) by lia. rewrite Z.mod_add by lia. lia.
Qed.

Lemma nearest_ansi_range v : 1 <= ui_rgb_nearest_ansi v <= 8.
Proof.
  unfold ui_rgb_nearest_ansi. cbv zeta. case_if; [case_if; lia|]. set (h := Z.rem _ 6).
  assert (Hh : Z.abs h < 6) by (apply Z.rem_bound_abs; lia).
  assert (Hn : (Z.to_nat h = 0 \/ Z.to_nat h = 1 \/ Z.to_nat h = 2 \/ Z.to_nat h = 3 \/ Z.to_nat h = 4 \/ Z.to_nat h = 5)%nat) by lia.
  by destruct Hn as [->|[->|[->|[->|[->| ->]]]]].
Qed.
(** One colour read: the index and the exact colour the depth shows. *)
Lemma colour_codes_read (back : bool) i rgb depth p k : colour_ok i rgb ->
  (if back then bg p = 0 /\ bg_rgb p = 0 else fg p = 0 /\ fg_rgb p = 0) ->
  sgr_codes p (colour_codes i rgb (if back then 48 else 38) depth ++ k) =
    sgr_codes (let c := shown_colour depth i rgb in if back then set_bg p c.1 c.2 else set_fg p c.1 c.2) k.
Proof.
  intros Hc Hp.
  assert (Hindex : 0 <= i <= 8 -> sgr_codes p ((if negb (i =? 0) then [(if back then 48 else 38) - 9 + i] else []) ++ k) =
    sgr_codes (if back then set_bg p i 0 else set_fg p i 0) k).
  { intros Hi. destruct (Z.eqb_spec i 0) as [->|Hn]; cbn [negb app].
    - f_equal. destruct p, back; cbn in Hp; destruct Hp as [-> ->]; done.
    - assert (Hk : i = 1 \/ i = 2 \/ i = 3 \/ i = 4 \/ i = 5 \/ i = 6 \/ i = 7 \/ i = 8) by lia.
      by destruct back; destruct Hk as [->|[->|[->|[->|[->|[->|[->| ->]]]]]]]. }
  destruct Hc as [[-> Hi]|(v & Hv & -> & ->)].
  - unfold colour_codes. cbn [Z.eqb negb andb]. rewrite Hindex by done. by destruct depth.
  - destruct (exact_parts v Hv) as (E0 & E1 & E2). unfold colour_codes, shown_colour. rewrite E0, E2. cbn [negb andb].
    destruct depth.
    + cbn [fst snd]. change (bool_decide (ansi16 = truecolor)) with false. change (bool_decide (ansi16 = xterm256)) with false. cbv iota. apply Hindex.
      pose proof (nearest_ansi_range v). lia.
    + change (bool_decide (xterm256 = truecolor)) with false. change (bool_decide (xterm256 = xterm256)) with true. cbv iota. cbn [fst snd app].
      destruct (nearest_256_found v 16 ltac:(lia)) as (_ & Hn & _). set (n := ui_rgb_nearest_256 v) in *. cbn [sgr_codes].
      replace (((if back then 48 else 38) =? 38) || ((if back then 48 else 38) =? 48)) with true by (by destruct back). cbv zeta.
      change (5 =? 5) with true. cbv iota. replace ((0 <=? n) && (n <? 8)) with false by (symmetry; apply andb_false_iff; right; apply Z.ltb_ge; lia).
      by destruct back.
    + change (bool_decide (truecolor = truecolor)) with true. cbv iota. cbn [fst snd app sgr_codes].
      replace (((if back then 48 else 38) =? 38) || ((if back then 48 else 38) =? 48)) with true by (by destruct back). cbv zeta.
      change (2 =? 5) with false. change (2 =? 2) with true. cbv iota. rewrite E1. by destruct back.
Qed.

(** ** The style arrives *)

Lemma sgr_app out from to depth : sgr out from to depth = out ++ sgr [] from to depth.
Proof. unfold sgr. repeat case_if; by rewrite ?app_nil_l, <- ?app_assoc, ?app_nil_r. Qed.

Lemma codes_text_nil l : codes_text l = [] -> l = [].
Proof. destruct l as [|n l]; [done|]. unfold codes_text. cbn [flat_map]. intros E. apply app_nil in E as [E _]. by apply app_nil in E as [_ E]. Qed.

Lemma code_small n : 0 <= n < 256 -> code_ok n /\ (length (to_string n) <= 3)%nat.
Proof.
  intros H. split; [unfold code_ok; lia|]. assert (Hs : forallb (fun n => (length (to_string n) <=? 3)%nat) (map (fun k => 0 + Z.of_nat k) (seq 0 256)) = true) by (vm_compute; reflexivity).
  apply Z_forall_range with (z := n) in Hs; [|lia]. by apply Nat.leb_le.
Qed.
Lemma colour_codes_small (back : bool) i rgb depth : colour_ok i rgb -> Forall (fun n => 0 <= n < 256) (colour_codes i rgb (if back then 48 else 38) depth).
Proof.
  intros Hc. assert (Hi : 0 <= i <= 8) by (destruct Hc as [[_ Hi]|(v & _ & _ & ->)]; [done|pose proof (nearest_ansi_range v); lia]).
  destruct (channel_range rgb) as (H1 & H2 & H3). destruct (nearest_256_found (Z.land rgb 0xffffff) 16 ltac:(lia)) as (_ & Hn & _).
  unfold colour_codes. case_if; [destruct back; repeat constructor; lia|]. case_if; [destruct back; repeat constructor; lia|].
  case_if; [destruct back; repeat constructor; lia|constructor].
Qed.
Lemma style_codes_small s depth : style_ok s -> Forall (fun n => 0 <= n < 256) (style_codes s depth).
Proof.
  intros [Hf Hb _]. unfold style_codes. apply Forall_app. split.
  - apply Forall_forall. intros n Hn. apply list_elem_of_omap in Hn as (x & Hx & Hx2). case_if_in Hx2; [|done]. injection Hx2 as <-.
    by repeat (apply elem_of_cons in Hx as [->|Hx]; [simpl; lia|]); apply elem_of_nil in Hx.
  - apply Forall_app. split; [by apply (colour_codes_small false)|by apply (colour_codes_small true)].
Qed.
Lemma style_codes_read s depth : style_ok s -> sgr_codes normal (style_codes s depth) = shown depth s.
Proof.
  intros [Hf Hb Hl]. unfold style_codes. rewrite attr_codes_read by done.
  rewrite (colour_codes_read false) by done. rewrite <- (app_nil_r (colour_codes (bg s) _ _ _)). rewrite (colour_codes_read true) by done.
  reflexivity.
Qed.

Lemma no_colour i rgb : colour_ok i rgb -> i = 0 -> rgb = 0.
Proof. intros [[-> _]|(v & _ & _ & ->)] Hi; [done|]. pose proof (nearest_ansi_range v). lia. Qed.
Lemma plain_shown s depth : style_ok s -> fg s = 0 -> bg s = 0 -> shown depth s = Style 0 0 (flags s) 0 0.
Proof.
  intros [Hf Hb _] H1 H2. unfold shown, shown_colour. apply no_colour in Hf, Hb; [|done..]. rewrite H1, H2, Hf, Hb. by destruct depth.
Qed.
Lemma is_normal_style s : is_normal s = true -> fg s = 0 /\ bg s = 0 /\ flags s = 0.
Proof. unfold is_normal. intros H. apply andb_true_iff in H as [H H3]. apply andb_true_iff in H as [H1 H2]. by rewrite !Z.eqb_eq in *. Qed.

(** A reset. *)
Lemma feed_reset s q : st s = S_normal -> feed s (reset ++ q) = feed (rest s (B "0") normal) q.
Proof. intros H. exact (feed_sgr s (B "0") q H ltac:(by repeat constructor) ltac:(simpl; lia)). Qed.

(** C32: the terminal screen reads the styles [sgr] writes.  From the state in
    which a style [from] is shown, the bytes of the transition to [to] leave the
    text, the cursor and the palette alone and make the pen the colours of [to] at
    the terminal's depth, as long as the parameters fit the screen's 32 bytes;
    they do unless both colours are exact ones at 24 bits. *)
Theorem sgr_sets_pen s from to depth q :
  st s = S_normal -> pen s = shown depth from -> style_ok from -> style_ok to ->
  (length (style_params to depth) <= 32)%nat ->
  exists p, feed s (sgr [] from to depth ++ q) = feed (rest s p (shown depth to)) q.
Proof.
  intros Hst Hpen Hf Ht Hlen. unfold sgr. destruct (is_normal to) eqn:En.
  { apply is_normal_style in En as (E1 & E2 & E3). rewrite app_nil_l, feed_reset by done. rewrite plain_shown, E3 by done. by exists (B "0"). }
  assert (Hfrom : exists s1 p1, s1 = rest s p1 normal /\
    forall t, feed s ((if is_normal from then [] else [] ++ reset) ++ t) = feed s1 t).
  { destruct (is_normal from) eqn:Ef.
    - apply is_normal_style in Ef as (E1 & E2 & E3). rewrite plain_shown, E3 in Hpen by done.
      exists s, (params s). split; [|done]. destruct s. simpl in *. unfold rest, set_st, set_pen. cbn. by subst.
    - exists (rest s (B "0") normal), (B "0"). rewrite app_nil_l. split; [done|]. intros t. by apply feed_reset. }
  destruct Hfrom as (s1 & p1 & -> & Hfeed). cbv zeta. set (pre := if is_normal from then [] else [] ++ reset) in *.
  assert (Hrest : forall p x, rest (rest s p1 normal) p x = rest s p x) by done.
  destruct (is_reverse to) eqn:Er.
  { unfold is_reverse in Er. apply andb_true_iff in Er as [Er E3]. apply andb_true_iff in Er as [E1 E2]. rewrite !Z.eqb_eq in *.
    exists (B "7"). rewrite <- app_assoc, Hfeed, plain_shown, E3 by done. exact (feed_sgr (rest s p1 normal) (B "7") q eq_refl ltac:(by repeat constructor) ltac:(simpl; lia)). }
  rewrite params_of_codes. pose proof (style_codes_small to depth Ht) as Hsmall. pose proof (style_codes_read to depth Ht) as Hread.
  unfold style_params in Hlen. destruct (style_codes to depth) as [|n l] eqn:Ec.
  { exists p1. rewrite Hfeed, <- Hread. done. }
  destruct (is_nil (codes_text (n :: l))) eqn:Enil.
  { apply is_nil_true, codes_text_nil in Enil. done. }
  assert (Hok : Forall code_ok (n :: l)). { eapply Forall_impl; [exact Hsmall|]. intros m Hm. by apply code_small. }
  inversion Hok as [|? ? Hn Hl]. subst. destruct (codes_read n l Hn Hl) as [Hmap Hpar].
  exists (removelast (codes_text (n :: l))). rewrite <- !app_assoc, Hfeed, feed_sgr by done.
  change (pen (rest s p1 normal)) with normal. by rewrite Hmap, Hread.
Qed.

(** The parameters fit unless both colours are exact at 24 bits. *)
Lemma codes_length l : Forall (fun n => 0 <= n < 256) l -> (length (codes_text l) <= 4 * length l)%nat.
Proof.
  induction 1 as [|n l Hn _ IH]; [done|]. change (codes_text (n :: l)) with ((to_string n ++ B ";") ++ codes_text l).
  rewrite !length_app. destruct (code_small n Hn) as [_ H]. simpl in *. lia.
Qed.
Lemma codes_text_app l k : codes_text (l ++ k) = codes_text l ++ codes_text k.
Proof. apply flat_map_app. Qed.
Definition exact_twice (s : ui_style) (depth : ui_colour_depth) : Prop := depth = truecolor /\ fg_rgb s <> 0 /\ bg_rgb s <> 0.
Lemma attr_length f : (length (attr_params f) <= 12)%nat.
Proof. unfold attr_params, attr_codes. cbn [fold_left fst snd]. by do 6 (destruct (negb (Z.land f _ =? 0))); simpl; lia. Qed.
Lemma removelast_length {A} (l : list A) : length (removelast l) = (length l - 1)%nat.
Proof. destruct l as [|x l _] using rev_ind; [done|]. rewrite removelast_last, length_app. simpl. lia. Qed.
Lemma params_fit s depth : style_ok s -> ~ exact_twice s depth -> (length (style_params s depth) <= 32)%nat.
Proof.
  intros [Hf Hb _] Hx. unfold style_params. rewrite removelast_length, <- params_of_codes. unfold sgr_colour. rewrite !length_app.
  pose proof (attr_length (flags s)) as Ha.
  assert (Hcol : forall (back : bool) i rgb, colour_ok i rgb -> (length (codes_text (colour_codes i rgb (if back then 48%Z else 38%Z) depth)) <= if bool_decide (depth = truecolor) then if (rgb =? 0)%Z then 3 else 17 else 9)%nat).
  { intros back i rgb Hc. pose proof (colour_codes_small back i rgb depth Hc) as Hs. revert Hs. unfold colour_codes.
    assert (Hi : 0 <= i <= 8) by (destruct Hc as [[_ Hi]|(v & _ & _ & ->)]; [done|pose proof (nearest_ansi_range v); lia]).
    assert (Hindex : (length (codes_text (if negb (i =? 0)%Z then [((if back then 48 else 38) - 9 + i)%Z] else [])) <= 3)%nat).
    { assert (Hk : i = 0 \/ i = 1 \/ i = 2 \/ i = 3 \/ i = 4 \/ i = 5 \/ i = 6 \/ i = 7 \/ i = 8) by lia.
      destruct back; destruct Hk as [->|[->|[->|[->|[->|[->|[->|[->| ->]]]]]]]]; simpl; lia. }
    destruct (bool_decide_reflect (depth = truecolor)) as [->|Ed], (Z.eqb_spec rgb 0) as [E|E]; cbn [negb andb]; [by intros _| | |].
    - intros Hs. assert (H3 : Forall (fun n => 0 <= n < 256) [red rgb; green rgb; blue rgb]) by (by inversion Hs as [|? ? _ Hs1]; inversion Hs1).
      apply codes_length in H3. rewrite (codes_text_app [_; _] _ : codes_text (_ :: _ :: _) = _), length_app.
      assert (Hp : length (codes_text [if back then 48 else 38; 2]) = 5%nat) by (by destruct back). rewrite Hp. cbn [length] in H3. lia.
    - intros _. lia.
    - destruct (bool_decide (depth = xterm256)); [|intros _; lia].
      intros Hs. set (n := ui_rgb_nearest_256 _) in *. assert (H1 : Forall (fun n => 0 <= n < 256) [n]) by (by inversion Hs as [|? ? _ Hs1]; inversion Hs1).
      apply codes_length in H1. rewrite (codes_text_app [_; _] _ : codes_text (_ :: _ :: _) = _), length_app.
      assert (Hp : length (codes_text [if back then 48 else 38; 5]) = 5%nat) by (by destruct back). rewrite Hp. cbn [length] in H1. lia. }
  pose proof (Hcol false _ _ Hf) as H1. pose proof (Hcol true _ _ Hb) as H2. cbv iota in H1, H2. unfold exact_twice in Hx.
  destruct (bool_decide_reflect (depth = truecolor)) as [Ed|Ed]; [|lia].
  destruct (Z.eqb_spec (fg_rgb s) 0), (Z.eqb_spec (bg_rgb s) 0); [lia..|]. exfalso. by apply Hx.
Qed.

Lemma sgr_sets_pen_witness :
  let to := Style 3 8 9 (exact_colour 0x6a9955) 0 in
  exists p, feed new_screen (sgr [] normal to xterm256 ++ B "x") = feed (rest new_screen p (shown xterm256 to)) (B "x").
Proof.
  apply (sgr_sets_pen new_screen normal (Style 3 8 9 (exact_colour 0x6a9955) 0) xterm256 (B "x")).
  - reflexivity.
  - reflexivity.
  - apply normal_ok.
  - constructor.
    + right. exists 0x6a9955. split; [lia|]. split; reflexivity.
    + left. split; [reflexivity|]. cbn [bg]. lia.
    + cbn [flags]. lia.
  - vm_compute. lia.
Defined.

(** Two exact colours of three digits a channel are 33 bytes of parameters: the
    screen drops the sequence and shows its end. *)
Example exact_twice_shown :
  let to := Style 8 8 0 (exact_colour 0xffffff) (exact_colour 0xe0e0e0) in
  let s := feed new_screen (sgr [] normal to truecolor ++ B "x") in (text s, pen s) = (B "mx", normal).
Proof. vm_compute. reflexivity. Qed.
