(* ===== verification/TermFeed.v ===== *)
(** [term_feed] of [src/src/ns_ui.cpp]: a program's output reaches the screen of
    [TermScreen] in pieces, and between two pieces the screen lives in a document,
    as its text, five values and rows of spans.

    [styled_feed]: the screen with its palette of ids is a screen of styled bytes.
    [feeds_are_one]: the pieces show what the whole would. *)
From S2P Require Import Prelude Numbers UiStyle TermScreen.
#[local] Open Scope nat_scope.

(** ** The document *)

(** A span row's [s], [e] and [c]. *)
Record row := Row { r_s : Z; r_e : Z; r_c : bytes }.
(** The text, and the entity's values; [None] where the value is not set. *)
Record term_doc := Doc {
  d_text : bytes; termcol : option Z; termesc : option Z; termparams : option bytes; termpen : option bytes; termspans : option (list row)
}.
Definition new_doc : term_doc := Doc [] None None None None None.

(** [c_str()] ends at the first NUL. *)
Definition c_str (t : bytes) : bytes := take_while (fun c => negb (byte_eqb c c_nul)) t.
Definition esc_code (x : esc_state) : Z := match x with S_normal => 0 | S_esc => 1 | S_csi => 2 | S_osc => 3 | S_osc_esc => 4 end.
(** The enumerator of a number; the parser takes any other as [normal]. *)
Definition esc_of (n : Z) : esc_state := nth (Z.to_nat (n mod 256)) [S_normal; S_esc; S_csi; S_osc; S_osc_esc] S_normal.
(** The column: an integer as [size_t], or the end of the text; [load] clips it. *)
Definition column_of (d : term_doc) : nat :=
  match termcol d with Some c => if (c <? 0)%Z then length (d_text d) else Z.to_nat c | None => length (d_text d) end.
Definition runs_of (rows : list row) : list span :=
  omap (fun r => if ((r_s r <? 0) || (r_e r <=? r_s r))%Z || is_nil (r_c r) then None
                 else Some (Span (Z.to_nat (r_s r)) (Z.to_nat (r_e r)) (r_c r))) rows.
(** The screen of a document, and the document of a screen. *)
Definition screen_of_doc (d : term_doc) : term_screen :=
  let s := load new_screen (d_text d) (column_of d) in
  let s := set_st s (match termesc d with Some n => esc_of n | None => st s end) (default (params s) (termparams d)) in
  let s := match termpen d with Some p => load_pen s p | None => s end in
  match termspans d with Some rows => load_spans s (runs_of rows) | None => s end.
Definition row_of (k : span) : row := Row (Z.of_nat (s_from k)) (Z.of_nat (s_end k)) (s_spec k).
Definition doc_of (s : term_screen) : term_doc :=
  Doc (c_str (text s)) (Some (Z.of_nat (col s))) (Some (esc_code (st s))) (Some (c_str (params s))) (Some (c_str (pen_spec s)))
    (Some (map row_of (spans s))).
Definition term_feed (d : term_doc) (t : bytes) : term_doc * nat :=
  let s := feed (screen_of_doc d) t in (doc_of s, length (text s)).

Example two_pieces_ex :
  let d := (term_feed (term_feed (term_feed new_doc (esc "[1;3")).1 (B "1mX" ++ esc "[0m" ++ [c_nl] ++ B "50")).1 (B "%")).1 in
  (d_text d, termcol d, termspans d) = (B "X" ++ [c_nl] ++ B "50%", Some 3%Z, Some [Row 0 1 (B "bold red")]).
Proof. vm_compute. reflexivity. Qed.

(** ** The screen of styled bytes *)

(** Every byte has its style beside it: no ids and no palette to fill. *)
Record styled := Styled {
  v_lines : list bytes; v_cur : bytes; v_col : nat; v_st : esc_state; v_params : bytes; v_cap : nat; v_pen : ui_style;
  v_marks : list (list ui_style); v_cur_marks : list ui_style
}.
Definition v_text (v : styled) (ls : list bytes) (c : bytes) (ms : list (list ui_style)) (cms : list ui_style) (n : nat) : styled :=
  Styled ls c n (v_st v) (v_params v) (v_cap v) (v_pen v) ms cms.
Definition v_set_st (v : styled) (x : esc_state) (p : bytes) : styled :=
  Styled (v_lines v) (v_cur v) (v_col v) x p (v_cap v) (v_pen v) (v_marks v) (v_cur_marks v).
Definition v_set_pen (v : styled) (x : ui_style) : styled :=
  Styled (v_lines v) (v_cur v) (v_col v) (v_st v) (v_params v) (v_cap v) x (v_marks v) (v_cur_marks v).
Definition v_set_col (v : styled) (n : nat) : styled := v_text v (v_lines v) (v_cur v) (v_marks v) (v_cur_marks v) n.
Definition v_set_cur (v : styled) (c : bytes) (ms : list ui_style) : styled := v_text v (v_lines v) c (v_marks v) ms (v_col v).
Definition v_newline (v : styled) : styled :=
  let ls := v_lines v ++ [v_cur v] in
  v_text v (drop (length ls - v_cap v) ls) [] (drop (length ls - v_cap v) (v_marks v ++ [v_cur_marks v])) [] 0.
Definition v_put (v : styled) (c : ascii) : styled :=
  let n := v_col v in
  v_text v (v_lines v) (take n (v_cur v) ++ [c] ++ drop (S n) (v_cur v)) (v_marks v)
    (take n (v_cur_marks v) ++ [v_pen v] ++ drop (S n) (v_cur_marks v)) (S n).
Definition v_erase (v : styled) : styled :=
  let n := v_col v in
  if bytes_eqb (v_params v) (B "1") then v_set_cur v (blanks n ++ drop n (v_cur v)) (replicate n normal ++ drop n (v_cur_marks v))
  else if bytes_eqb (v_params v) (B "2") then v_set_cur v (blanks (length (v_cur v))) (replicate (length (v_cur v)) normal)
  else v_set_cur v (take n (v_cur v)) (take n (v_cur_marks v)).
Definition v_csi (v : styled) (c : ascii) : styled :=
  if byte_eqb c "K"%char then v_erase v
  else if byte_eqb c "J"%char then (if bytes_eqb (v_params v) (B "2") || bytes_eqb (v_params v) (B "3") then v_text v [] [] [] [] 0 else v)
  else if byte_eqb c "m"%char then v_set_pen v (sgr_codes (v_pen v) (map atoi (split_params [] (v_params v))))
  else v.
Definition v_normal (v : styled) (b : ascii) : styled :=
  if byte_eqb b c_esc then v_set_st v S_esc (v_params v)
  else if byte_eqb b c_nl then v_newline v
  else if byte_eqb b c_cr then v_set_col v 0
  else if byte_eqb b c_bs then v_set_col v (v_col v - 1)
  else if byte_eqb b c_tab then Nat.iter (8 - v_col v mod 8) (fun v => v_put v c_sp) v
  else if control b then v else v_put v b.
Definition v_byte (v : styled) (b : ascii) : styled :=
  match v_st v with
  | S_esc =>
      if byte_eqb b "["%char then v_set_st v S_csi []
      else if byte_eqb b "]"%char then v_set_st v S_osc (v_params v) else v_set_st v S_normal (v_params v)
  | S_csi =>
      if within 0x40 0x7e (code b) then v_set_st (v_csi v b) S_normal (v_params v)
      else if length (v_params v) <? 32 then v_set_st v S_csi (v_params v ++ [b]) else v_set_st v S_normal (v_params v)
  | S_osc => if byte_eqb b c_bel then v_set_st v S_normal (v_params v) else if byte_eqb b c_esc then v_set_st v S_osc_esc (v_params v) else v
  | S_osc_esc => v_set_st v S_normal (v_params v)
  | S_normal => v_normal v b
  end.
Definition v_feed (v : styled) (t : bytes) : styled := fold_left v_byte t v.
Definition view (s : term_screen) : styled :=
  Styled (lines s) (cur s) (col s) (st s) (params s) (cap s) (pen s)
    (map (map (style_of (pens s))) (line_ids s)) (map (style_of (pens s)) (cur_ids s)).

(** ** The palette shows it *)

Lemma marks_prefix ps ps' ids :
  ps `prefix_of` ps' -> Forall (fun c => char_id c < length ps) ids -> map (style_of ps') ids = map (style_of ps) ids.
Proof. intros Hp. induction 1 as [|c ids Hc _ IH]; [done|]. cbn [map]. by rewrite IH, (style_of_prefix ps ps'). Qed.
Lemma rows_prefix ps ps' rs :
  ps `prefix_of` ps' -> Forall (Forall (fun c => char_id c < length ps)) rs -> map (map (style_of ps')) rs = map (map (style_of ps)) rs.
Proof. intros Hp. induction 1 as [|r rs Hr _ IH]; [done|]. cbn [map]. by rewrite IH, (marks_prefix ps ps'). Qed.
Lemma view_rows s : styles s = v_marks (view s) ++ [v_cur_marks (view s)].
Proof. unfold styles, rows. by rewrite map_app. Qed.
Lemma marks_nuls ps n : palette ps -> map (style_of ps) (nuls n) = replicate n normal.
Proof. intros Hp. unfold nuls. induction n as [|n IH]; [done|]. cbn [replicate map]. rewrite IH, (style_of_zero ps) by done. done. Qed.
Lemma v_marks_cur_length s : sound s -> length (v_cur_marks (view s)) = length (cur s).
Proof. intros H. destruct (sound_cur s H) as (_ & Hl & _). cbn. by rewrite length_map. Qed.

Lemma view_put s c : sound s -> length (pens s) < 256 -> view (put s c) = v_put (view s) c.
Proof.
  intros H Hlt. pose proof (put_text_spec s c H) as Hp. pose proof (pen_interned s (pen s) (i_pens s H) (i_pen s H)) as Hi.
  destruct (intern s (pen s)) as [id s1]. destruct Hi as (ps & -> & _ & Hpre & _ & Hid). rewrite Hp.
  destruct (sound_cur s H) as (_ & _ & Hli & Hci & _). unfold view, v_put. cbn [set_text set_pens lines cur col st params cap pen pens line_ids cur_ids].
  unfold v_text. cbn [v_lines v_cur v_col v_st v_params v_cap v_pen v_marks v_cur_marks]. f_equal.
  - by apply rows_prefix.
  - rewrite !map_app, <- !firstn_map, <- !skipn_map. cbn [map]. rewrite (marks_prefix (pens s) ps) by done.
    rewrite (style_of_lookup ps id (pen s)) by (apply Hid; by left). done.
Qed.
Lemma put_pens s c : sound s -> pens s `prefix_of` pens (put s c).
Proof.
  intros H. pose proof (put_text_spec s c H) as Hp. pose proof (pen_interned s (pen s) (i_pens s H) (i_pen s H)) as Hi.
  destruct (intern s (pen s)) as [id s1]. destruct Hi as (ps & -> & _ & Hpre & _). by rewrite Hp.
Qed.
Lemma view_puts s n : sound s ->
  pens s `prefix_of` pens (Nat.iter n (fun s => put s c_sp) s) /\
  (length (pens (Nat.iter n (fun s => put s c_sp) s)) < 256 -> view (Nat.iter n (fun s => put s c_sp) s) = Nat.iter n (fun v => v_put v c_sp) (view s)).
Proof.
  intros H. induction n as [|n [IH1 IH2]]; [done|]. pose proof (puts_sound s n H) as Hn.
  change (Nat.iter (S n) (fun s => put s c_sp) s) with (put (Nat.iter n (fun s => put s c_sp) s) c_sp).
  change (Nat.iter (S n) (fun v => v_put v c_sp) (view s)) with (v_put (Nat.iter n (fun v => v_put v c_sp) (view s)) c_sp).
  set (k := Nat.iter n (fun s => put s c_sp) s) in *. pose proof (put_pens k c_sp Hn) as Hk. split; [by etrans|].
  intros Hlt. apply prefix_length in Hk as Hl. assert (length (pens k) < 256) by lia. by rewrite view_put, IH2.
Qed.
Lemma put_tab_puts s : sound s -> put_tab s = Nat.iter (8 - col s mod 8) (fun s => put s c_sp) s.
Proof.
  intros H. destruct (put_tab_spec s H) as (n & -> & Hn & Hm). f_equal.
  pose proof (Nat.div_mod_eq (col s) 8) as Hd. pose proof (Nat.mod_upper_bound (col s) 8 ltac:(lia)) as Hu.
  pose proof (Nat.div_mod_eq (col s + n) 8) as Hd2. rewrite Hm in Hd2. lia.
Qed.

Lemma view_newline s : sound s -> view (newline s) = v_newline (view s).
Proof.
  intros H. pose proof (Forall2_length _ _ _ (i_rows s H)) as Hl. unfold texts, rows in Hl. unfold newline, v_newline, view, v_text.
  cbn [v_lines v_cur v_cap v_marks v_cur_marks v_st v_params v_pen].
  change [map (style_of (pens s)) (cur_ids s)] with (map (map (style_of (pens s))) [cur_ids s]). rewrite <- map_app, skipn_map. rewrite Hl in *.
  destruct (Nat.ltb_spec (cap s) (length (line_ids s ++ [cur_ids s]))) as [Hc|Hc]; [done|].
  replace (length (line_ids s ++ [cur_ids s]) - cap s) with 0 by lia. by rewrite !drop_0.
Qed.
Lemma view_erase s : sound s -> view (erase_line s) = v_erase (view s).
Proof.
  intros H. pose proof (i_col s H) as Hc. destruct (sound_cur s H) as (_ & Hl & _). unfold erase_line, v_erase. cbn [view v_params v_col].
  destruct (bytes_eqb (params s) (B "1")).
  { replace (if col s <? length (cur s) then col s else length (cur s)) with (col s) by (destruct (Nat.ltb_spec (col s) (length (cur s))); lia).
    unfold view, v_set_cur, v_text, set_cur. cbn. f_equal. by rewrite map_app, marks_nuls, skipn_map by apply H. }
  destruct (bytes_eqb (params s) (B "2")).
  { unfold view, v_set_cur, v_text, set_cur. cbn. f_equal. by rewrite marks_nuls, Hl by apply H. }
  destruct (Nat.ltb_spec (col s) (length (cur s))).
  - unfold view, v_set_cur, v_text, set_cur. cbn. f_equal. by rewrite firstn_map.
  - unfold view, v_set_cur, v_text. cbn. rewrite !take_ge by (rewrite ?length_map; lia). done.
Qed.
Lemma view_csi s c : sound s -> view (csi_final s c) = v_csi (view s) c.
Proof.
  intros H. unfold csi_final, v_csi. cbn [view v_params v_pen].
  destruct (byte_eqb c "K"); [by apply view_erase|]. destruct (byte_eqb c "J"); [by destruct (_ || _)|]. by destruct (byte_eqb c "m").
Qed.
Lemma csi_pens s c : pens (csi_final s c) = pens s.
Proof. unfold csi_final, erase_line. by repeat case_if. Qed.
Lemma byte_pens s b : sound s -> pens s `prefix_of` pens (feed_byte s b).
Proof.
  intros H. unfold feed_byte. destruct (st s).
  - unfold normal_byte. repeat (match goal with |- context [if byte_eqb b ?k then _ else _] => destruct (byte_eqb b k) end); [done| |done|by case_if| |].
    + unfold newline. by case_if.
    + rewrite put_tab_puts by done. by apply view_puts.
    + case_if; [done|]. by apply put_pens.
  - by repeat case_if.
  - destruct (within _ _ _); [cbn [set_st pens]; by rewrite csi_pens|by case_if].
  - by repeat case_if.
  - done.
Qed.
Lemma view_set_st s x p : view (set_st s x p) = v_set_st (view s) x p.
Proof. done. Qed.
Lemma view_byte s b : sound s -> length (pens (feed_byte s b)) < 256 -> view (feed_byte s b) = v_byte (view s) b.
Proof.
  intros H. pose proof (byte_pens s b H) as Hp%prefix_length. intros Hlt. unfold feed_byte, v_byte in *. cbn [view v_st v_params]. destruct (st s).
  - unfold normal_byte, v_normal in *. destruct (byte_eqb b c_esc); [done|]. destruct (byte_eqb b c_nl); [by apply view_newline|].
    destruct (byte_eqb b c_cr); [done|]. destruct (byte_eqb b c_bs).
    { destruct (Nat.ltb_spec 0 (col s)) as [|E]; [done|]. destruct s as [? ? n]. cbn [col] in E. by assert (n = 0) as -> by lia. }
    destruct (byte_eqb b c_tab).
    { rewrite put_tab_puts in * by done. by apply view_puts. }
    destruct (control b); [done|]. apply view_put; [done|lia].
  - by repeat case_if.
  - destruct (within _ _ _); [|by case_if]. rewrite csi_final_params. by rewrite view_set_st, view_csi.
  - by repeat case_if.
  - done.
Qed.

Lemma feed_pens s t : sound s -> pens s `prefix_of` pens (feed s t).
Proof.
  unfold feed. revert s. induction t as [|b t IH]; intros s H; [done|]. cbn [fold_left]. etrans; [by apply (byte_pens s b)|]. apply IH. by apply feed_byte_sound.
Qed.
(** As long as the program has not written 256 styles, the ids and the palette
    show each byte in the style that was the pen's when it was written. *)
Theorem styled_feed s t : sound s -> length (pens (feed s t)) < 256 -> view (feed s t) = v_feed (view s) t.
Proof.
  unfold feed, v_feed. revert s. induction t as [|b t IH]; intros s H Hlt; [done|]. cbn [fold_left] in *.
  pose proof (feed_byte_sound s b H) as Hb. pose proof (feed_pens (feed_byte s b) t Hb) as Hp%prefix_length.
  rewrite IH by done. f_equal. apply view_byte; [done|]. unfold feed in Hp. lia.
Qed.

(** ** The document is the screen *)

Lemma set_pen_loads z l p : load_spans (set_pen z p) l = set_pen (load_spans z l) p.
Proof.
  revert z. induction l as [|k l IH]; intros z; [done|]. cbn [load_spans fold_left]. unfold load_spans in IH. rewrite <- IH. f_equal.
  unfold load_span. destruct (ui_style_of (s_spec k)); [|done]. unfold intern. cbn [set_pen pens].
  destruct (style_eqb _ _); [done|]. destruct (find_pen _ _ _); [done|]. by destruct (256 <=? _).
Qed.
Lemma set_st_loads z l x p : load_spans (set_st z x p) l = set_st (load_spans z l) x p.
Proof.
  revert z. induction l as [|k l IH]; intros z; [done|]. cbn [load_spans fold_left]. unfold load_spans in IH. rewrite <- IH. f_equal.
  unfold load_span. destruct (ui_style_of (s_spec k)); [|done]. unfold intern. cbn [set_st pens].
  destruct (style_eqb _ _); [done|]. destruct (find_pen _ _ _); [done|]. by destruct (256 <=? _).
Qed.
Lemma esc_of_code x : esc_of (esc_code x) = x.
Proof. by destruct x. Qed.
Definition no_nul (t : bytes) : Prop := Forall (fun c => c <> c_nul) t.
Lemma c_str_all t : no_nul t -> c_str t = t.
Proof.
  unfold c_str. induction 1 as [|c t Hc _ IH]; [done|]. cbn [take_while]. apply byte_eqb_neq in Hc. rewrite Hc. cbn [negb]. by rewrite IH.
Qed.
Lemma plain_no_nul t : plain t -> no_nul t.
Proof. intros H. eapply Forall_impl; [exact H|]. intros c Hc ->. done. Qed.
Lemma text_no_nul s : sound s -> no_nul (text s).
Proof.
  intros H. destruct (sound_cur s H) as (_ & _ & _ & _ & H1 & H2). unfold text. apply Forall_app. split; [|by apply plain_no_nul].
  clear -H1. induction H1 as [|l ls Hl _ IH]; [constructor|]. cbn [flat_map]. apply Forall_app. split; [|done].
  apply Forall_app. split; [by apply plain_no_nul|]. by repeat constructor.
Qed.
Lemma no_nul_app t u : no_nul t -> no_nul u -> no_nul (t ++ u).
Proof. intros. by apply Forall_app. Qed.
Lemma no_nul_bool t : forallb (fun c => negb (byte_eqb c c_nul)) t = true -> no_nul t.
Proof.
  intros H. apply Forall_forall. intros c Hc ->. apply list_elem_of_In in Hc. rewrite forallb_forall in H. by specialize (H _ Hc).
Qed.
Lemma no_nul_words (ws : list bytes) : forallb (forallb (fun c => negb (byte_eqb c c_nul))) ws = true -> Forall no_nul ws.
Proof. intros H. apply Forall_forall. intros w Hw. apply no_nul_bool. rewrite forallb_forall in H. by apply H, list_elem_of_In. Qed.
Lemma hex_no_nul n x : no_nul (hex_digits n x).
Proof.
  revert x. induction n as [|n IH]; intros x; [constructor|]. cbn [hex_digits]. apply no_nul_app; [apply IH|]. repeat constructor.
  change 15%Z with (Z.ones 4). rewrite Z.land_ones by lia. change (2 ^ 4)%Z with 16%Z. pose proof (Z.mod_pos_bound x 16 ltac:(lia)) as Hr.
  assert (H : forallb (fun k => negb (byte_eqb (hex_digit (Z.of_nat k)) c_nul)) (seq 0 16) = true) by (vm_compute; reflexivity).
  rewrite forallb_forall in H. specialize (H (Z.to_nat (x mod 16)) ltac:(apply in_seq; lia)). rewrite Z2Nat.id in H by lia.
  intros E. by rewrite E in H.
Qed.
Lemma colour_no_nul rgb i : no_nul (colour_spec rgb i).
Proof.
  unfold colour_spec. case_if; [constructor; [done|apply hex_no_nul]|]. case_if; [|constructor].
  unfold ui_style_colour_name. case_if; [|constructor].
  pose proof (no_nul_words colours eq_refl) as Hall.
  destruct (nth_in_or_default (Z.to_nat (i - 1)) colours []) as [Hin| ->]; [|constructor].
  apply (proj1 (Forall_forall _ _) Hall). by apply list_elem_of_In.
Qed.
Lemma add_word_no_nul out w : no_nul out -> no_nul w -> no_nul (add_word out w).
Proof. intros Ho Hw. unfold add_word. apply no_nul_app; [done|]. apply no_nul_app; [|done]. destruct (is_nil out); [constructor|by apply no_nul_bool]. Qed.
Lemma spec_no_nul s : no_nul (ui_style_spec s) /\ ui_style_spec s <> [].
Proof.
  unfold ui_style_spec. cbv zeta. set (a := fold_left _ attrs []).
  assert (Ha : no_nul a).
  { unfold a. pose proof (no_nul_words (map snd attrs) eq_refl) as Hall. clear a. assert (Ho : no_nul []) by constructor.
    revert Ho Hall. generalize (@nil ascii) as out. generalize attrs as l. induction l as [|x l IH]; intros out Ho Hall; [done|].
    apply Forall_cons_1 in Hall as [Hx Hl]. cbn [fold_left]. apply IH; [|done]. case_if; [by apply add_word_no_nul|done]. }
  set (f := colour_spec (fg_rgb s) (fg s)). assert (Hf : no_nul (if is_nil f then a else add_word a f)).
  { case_if; [done|]. apply add_word_no_nul; [done|]. apply colour_no_nul. }
  set (o := if is_nil f then _ else _) in *. set (b := colour_spec (bg_rgb s) (bg s)).
  assert (Hb : no_nul (if is_nil b then o else add_word o (bg_mark ++ b))).
  { case_if; [done|]. apply add_word_no_nul; [done|]. apply no_nul_app; [by apply no_nul_bool|apply colour_no_nul]. }
  destruct (if is_nil b then o else _) as [|c r]; [|done]. split; [by apply no_nul_bool|done].
Qed.

(** *** The runs *)

Lemma line_spans_ok ps off run b ids : match run with Some (from, _) => from < b | None => True end ->
  Forall (fun k => s_from k < s_end k /\ s_spec k <> []) (line_spans ps off run b ids).
Proof.
  assert (Hfl : forall from c b, from < b -> Forall (fun k => s_from k < s_end k /\ s_spec k <> []) (run_flush ps off from b c)).
  { intros from c b' Hb. unfold run_flush. case_if; [|constructor]. repeat constructor; [cbn; lia|]. apply spec_no_nul. }
  revert run b. induction ids as [|d r IH]; intros [[from c]|] b Hb; cbn [line_spans]; cbv zeta; try fold (run_flush ps off from b c);
    [by apply Hfl|constructor| |apply IH; lia].
  destruct (byte_eqb d c); [apply IH; lia|]. apply Forall_app. split; [by apply Hfl|apply IH; lia].
Qed.
Lemma rows_read_back s : runs_of (map row_of (spans s)) = spans s.
Proof.
  assert (H : Forall (fun k => s_from k < s_end k /\ s_spec k <> []) (spans s)).
  { unfold spans. generalize 0 as off. induction (line_ids s ++ [cur_ids s]) as [|r rs IH]; intros off; [constructor|].
    cbn [spans_from]. apply Forall_app. split; [by apply line_spans_ok|apply IH]. }
  unfold runs_of. induction H as [|k l [Hk Hs] _ IH]; [done|]. cbn [map omap list_omap]. cbn [row_of r_s r_e r_c] in *.
  replace ((Z.of_nat (s_from k) <? 0) || (Z.of_nat (s_end k) <=? Z.of_nat (s_from k)))%Z with false by (symmetry; apply orb_false_iff; split; lia).
  destruct (s_spec k) as [|c w] eqn:E; [done|]. cbn [is_nil orb]. rewrite !Nat2Z.id, IH. f_equal. destruct k. cbn in *. by subst.
Qed.

(** The runs depend on the styles alone. *)
Lemma style_of_inj ps c d : palette ps -> char_id c < length ps -> char_id d < length ps -> style_of ps c = style_of ps d -> c = d.
Proof.
  intros Hp Hc Hd He. destruct (lookup_lt_is_Some_2 ps _ Hc) as [x Hx]. destruct (lookup_lt_is_Some_2 ps _ Hd) as [y Hy].
  rewrite (style_of_lookup _ _ _ Hx), (style_of_lookup _ _ _ Hy) in He. subst y.
  assert (H : char_id c = char_id d) by (eapply NoDup_lookup; [apply Hp|done|done]).
  unfold char_id in H. apply code_inj. pose proof (code_range c). pose proof (code_range d). lia.
Qed.
Section SameStyles.
Context (ps1 ps2 : list ui_style) (Hp1 : palette ps1) (Hp2 : palette ps2).
Definition same_mark (c d : ascii) : Prop := char_id c < length ps1 /\ char_id d < length ps2 /\ style_of ps1 c = style_of ps2 d.
Lemma same_zero c d : same_mark c d -> (char_id c =? 0) = (char_id d =? 0).
Proof.
  intros (Hc & Hd & He). destruct (Nat.eqb_spec (char_id c) 0) as [E|E], (Nat.eqb_spec (char_id d) 0) as [F|F]; try done; exfalso.
  - rewrite (style_of_zero ps1 c) in He by done. apply F. rewrite <- nul_id. f_equal. apply (style_of_inj ps2); [done|done|rewrite nul_id; by apply palette_zero|].
    rewrite (style_of_zero ps2 c_nul) by done. done.
  - rewrite (style_of_zero ps2 d) in He by done. apply E. rewrite <- nul_id. f_equal. apply (style_of_inj ps1); [done|done|rewrite nul_id; by apply palette_zero|].
    rewrite (style_of_zero ps1 c_nul) by done. done.
Qed.
Lemma same_eqb c d c' d' : same_mark c d -> same_mark c' d' -> byte_eqb c c' = byte_eqb d d'.
Proof.
  intros (Hc & Hd & He) (Hc' & Hd' & He'). destruct (byte_eqb c c') eqn:E.
  - apply byte_eqb_eq in E. subst c'. symmetry. apply byte_eqb_eq. apply (style_of_inj ps2); [done..|]. by rewrite <- He, <- He'.
  - symmetry. apply byte_eqb_neq. apply byte_eqb_neq in E. intros ->. apply E. apply (style_of_inj ps1); [done..|]. by rewrite He, He'.
Qed.
Lemma same_flush off from b c d : same_mark c d -> run_flush ps1 off from b c = run_flush ps2 off from b d.
Proof.
  intros H. unfold run_flush. rewrite (same_zero c d H). destruct H as (Hc & Hd & He).
  rewrite !(proj2 (Nat.ltb_lt _ _)) by done. unfold style_of in He. by rewrite He.
Qed.
Lemma same_line off ids1 ids2 : Forall2 same_mark ids1 ids2 ->
  (forall from c d b, same_mark c d -> line_spans ps1 off (Some (from, c)) b ids1 = line_spans ps2 off (Some (from, d)) b ids2) /\
  (forall b, line_spans ps1 off None b ids1 = line_spans ps2 off None b ids2).
Proof.
  induction 1 as [|x y l1 l2 Hxy _ [IH1 IH2]]; (split; [intros from c d b Hcd|intros b]); cbn [line_spans]; cbv zeta;
    try fold (run_flush ps1 off from b c); try fold (run_flush ps2 off from b d).
  - by apply same_flush.
  - done.
  - rewrite (same_eqb x y c d) by done. destruct (byte_eqb y d); [by apply IH1|]. f_equal; [by apply same_flush|by apply IH1].
  - by apply IH1.
Qed.
Lemma same_spans off rs1 rs2 : Forall2 (Forall2 same_mark) rs1 rs2 -> spans_from ps1 off rs1 = spans_from ps2 off rs2.
Proof.
  intros H. revert off. induction H as [|r1 r2 rs1 rs2 Hr _ IH]; intros off; [done|]. cbn [spans_from].
  rewrite (proj2 (same_line off r1 r2 Hr)), (Forall2_length _ _ _ Hr). f_equal. apply IH.
Qed.
Lemma same_marks ids1 ids2 : Forall (fun c => char_id c < length ps1) ids1 -> Forall (fun c => char_id c < length ps2) ids2 ->
  map (style_of ps1) ids1 = map (style_of ps2) ids2 -> Forall2 same_mark ids1 ids2.
Proof.
  intros H1. revert ids2. induction H1 as [|c l Hc _ IH]; intros [|d l2] H2 E; [constructor|done|done|].
  injection E as E1 E2. apply Forall_cons_1 in H2 as [Hd H2]. constructor; [done|by apply IH].
Qed.
End SameStyles.
Lemma view_spans s1 s2 : sound s1 -> sound s2 -> styles s1 = styles s2 -> spans s1 = spans s2.
Proof.
  intros H1 H2 E. unfold spans. apply same_spans; [apply H1|apply H2|].
  pose proof (i_ids _ H1) as I1. pose proof (i_ids _ H2) as I2. unfold styles in E. fold (rows s1). fold (rows s2).
  revert I1 I2 E. generalize (rows s1) as rs1, (rows s2) as rs2. induction rs1 as [|r1 rs1 IH]; intros [|r2 rs2] I1 I2 E; [constructor|done|done|].
  injection E as E1 E2. apply Forall_cons_1 in I1 as [J1 I1]. apply Forall_cons_1 in I2 as [J2 I2]. constructor; [by apply same_marks|by apply IH].
Qed.

(** *** Kept and loaded *)

Lemma doc_screen s :
  sound s -> cap s = 5000 -> no_nul (params s) ->
  let z := screen_of_doc (doc_of s) in view z = view s /\ sound z /\ pens z ⊆ pens s.
Proof.
  intros H Hcap Hpar. cbv zeta. unfold screen_of_doc, doc_of, column_of. cbn [d_text termcol termesc termparams termpen termspans default].
  rewrite (c_str_all (text s)), (c_str_all (params s)), (c_str_all (pen_spec s)) by (done || by apply text_no_nul || apply spec_no_nul).
  rewrite esc_of_code, rows_read_back, (proj2 (Z.ltb_ge _ _)), Nat2Z.id, load_pen_spec, set_pen_loads, set_st_loads by (done || lia).
  destruct (kept_text_loads s H) as (E1 & E2 & E3 & E4 & E5 & E6 & E7). set (k := load_spans _ (spans s)) in *.
  split_and!; [|by apply set_pen_sound; [apply set_st_sound; [done|apply H]|apply H]|done].
  rewrite !view_rows in E4. apply app_inj_tail in E4 as [E8 E9]. unfold view in *. cbn [v_marks v_cur_marks] in E8, E9.
  cbn [set_pen set_st lines cur col st params cap pen pens line_ids cur_ids]. by rewrite E1, E2, E3, E7, E8, E9, Hcap.
Qed.

(** A palette that holds fewer styles goes on holding fewer. *)
Definition writes (v : styled) (b : ascii) : bool :=
  bool_decide (v_st v = S_normal) && negb (byte_eqb b c_esc || byte_eqb b c_nl || byte_eqb b c_cr || byte_eqb b c_bs) && (byte_eqb b c_tab || negb (control b)).
Lemma put_pens_in s c : sound s ->
  (forall x, x ∈ pens (put s c) -> x ∈ pens s \/ x = pen s) /\ (length (pens s) < 256 -> pen s ∈ pens (put s c)) /\ pen (put s c) = pen s.
Proof.
  intros H. pose proof (put_text_spec s c H) as Hp. pose proof (pen_interned s (pen s) (i_pens s H) (i_pen s H)) as Hi.
  destruct (intern s (pen s)) as [id s1] eqn:E. destruct Hi as (ps & -> & _ & _ & _ & Hst). rewrite Hp. cbn [set_text set_pens pens pen].
  split_and!; [|intros Hlt; eapply list_elem_of_lookup_2, Hst; by left|done].
  intros x Hx. unfold intern in E. destruct (style_eqb _ _); [|destruct (find_pen _ _ _); [|destruct (256 <=? _)]];
    apply (f_equal (fun p => pens p.2)) in E; cbn [snd set_pens pens] in E; rewrite <- E in Hx; auto.
  apply elem_of_app in Hx as [Hx|Hx%list_elem_of_singleton]; auto.
Qed.
Lemma puts_pens_in s n : sound s ->
  (forall x, x ∈ pens (Nat.iter n (fun s => put s c_sp) s) -> x ∈ pens s \/ x = pen s) /\
  (0 < n -> length (pens s) < 256 -> pen s ∈ pens (Nat.iter n (fun s => put s c_sp) s)) /\ pen (Nat.iter n (fun s => put s c_sp) s) = pen s.
Proof.
  intros H. induction n as [|n (IH1 & IH2 & IH3)]; [split_and!; [auto|lia|done]|].
  change (Nat.iter (S n) (fun s => put s c_sp) s) with (put (Nat.iter n (fun s => put s c_sp) s) c_sp).
  pose proof (puts_sound s n H) as Hn. set (k := Nat.iter n (fun s => put s c_sp) s) in *.
  destruct (put_pens_in k c_sp Hn) as (P1 & P2 & P3). rewrite IH3 in *. split_and!; [|intros _ Hlt|done].
  - intros x Hx. destruct (P1 x Hx) as [Hy| ->]; auto.
  - destruct n as [|n]; [by apply P2|]. pose proof (put_pens k c_sp Hn) as [l Hl]. rewrite Hl. apply elem_of_app. left. apply IH2; [lia|done].
Qed.
Lemma byte_pens_in s b : sound s ->
  (forall x, x ∈ pens (feed_byte s b) -> x ∈ pens s \/ writes (view s) b = true /\ x = pen s) /\
  (writes (view s) b = true -> length (pens s) < 256 -> pen s ∈ pens (feed_byte s b)).
Proof.
  intros H. unfold writes, feed_byte. cbn [view v_st]. destruct (st s); cbn [bool_decide decide]; try (case_bool_decide as E; [done|]; clear E).
  - case_bool_decide as E; [|done]. clear E. unfold normal_byte. cbn [andb].
    destruct (byte_eqb b c_esc); [split; [auto|done]|]. destruct (byte_eqb b c_nl); [split; [|done]; unfold newline; case_if; auto|].
    destruct (byte_eqb b c_cr); [split; [auto|done]|]. destruct (byte_eqb b c_bs); [split; [case_if; auto|done]|]. cbn [orb negb andb].
    destruct (byte_eqb b c_tab); cbn [orb].
    + rewrite put_tab_puts by done. pose proof (Nat.mod_upper_bound (col s) 8 ltac:(lia)).
      destruct (puts_pens_in s (8 - col s mod 8) H) as (P1 & P2 & _). split; [intros x Hx; destruct (P1 x Hx); auto|intros _ Hlt; apply P2; [lia|done]].
    + destruct (control b); cbn [negb]; [split; [auto|done]|]. destruct (put_pens_in s b H) as (P1 & P2 & _). split; [intros x Hx; destruct (P1 x Hx); auto|auto].
  - split; [|done]. case_if; auto. case_if; auto.
  - split; [|done]. destruct (within _ _ _); [cbn [set_st pens]; rewrite csi_pens; auto|case_if; auto].
  - split; [|done]. case_if; auto. case_if; auto.
  - split; [auto|done].
Qed.
Lemma feed_pens_fewer s z t : sound s -> sound z -> view z = view s -> pens z ⊆ pens s -> length (pens (feed s t)) < 256 ->
  length (pens (feed z t)) < 256.
Proof.
  assert (Hlen : forall a b, sound a -> pens a ⊆ pens b -> length (pens a) <= length (pens b)).
  { intros a b Ha Hab. apply submseteq_length, NoDup_submseteq; [apply Ha|exact Hab]. }
  unfold feed. revert s z. induction t as [|b t IH]; intros s z Hs Hz Hv Hsub Hlt; cbn [fold_left] in *.
  { pose proof (Hlen z s Hz Hsub). lia. }
  pose proof (feed_byte_sound s b Hs) as Hs1. pose proof (feed_byte_sound z b Hz) as Hz1.
  pose proof (feed_pens (feed_byte s b) t Hs1) as Hp%prefix_length. pose proof (byte_pens s b Hs) as Hp1%prefix_length.
  change (fold_left feed_byte t (feed_byte s b)) with (feed (feed_byte s b) t) in *.
  assert (Hsub1 : pens (feed_byte z b) ⊆ pens (feed_byte s b)).
  { intros x Hx. destruct (byte_pens_in z b Hz) as [P1 _]. destruct (byte_pens_in s b Hs) as [_ P2]. pose proof (byte_pens s b Hs) as [l Hl].
    destruct (P1 x Hx) as [Hy|[Hw ->]]; [rewrite Hl; apply elem_of_app; left; by apply Hsub|].
    rewrite Hv in Hw. assert (pen z = pen s) as -> by (apply (f_equal v_pen) in Hv; exact Hv). apply P2; [done|lia]. }
  apply (IH (feed_byte s b)); [done|done| |done|done].
  pose proof (Hlen _ _ Hz1 Hsub1). rewrite !view_byte by (done || lia). by rewrite Hv.
Qed.
Lemma doc_view s1 s2 : sound s1 -> sound s2 -> view s1 = view s2 -> doc_of s1 = doc_of s2.
Proof.
  intros H1 H2 E. pose proof (view_spans s1 s2 H1 H2 ltac:(by rewrite !view_rows, E)) as Es. unfold view in E. injection E as E1 E2 E3 E4 E5 E6 E7 E8 E9.
  unfold doc_of, text, pen_spec. by rewrite E1, E2, E3, E4, E5, E7, Es.
Qed.
Lemma v_puts_keep n v : v_cap (Nat.iter n (fun v => v_put v c_sp) v) = v_cap v /\ v_params (Nat.iter n (fun v => v_put v c_sp) v) = v_params v.
Proof. induction n as [|n IH]; [done|]. cbn. exact IH. Qed.
Lemma v_byte_keeps v b : b <> c_nul -> no_nul (v_params v) -> v_cap (v_byte v b) = v_cap v /\ no_nul (v_params (v_byte v b)).
Proof.
  intros Hb Hn. unfold v_byte. destruct (v_st v).
  - unfold v_normal. do 4 (case_if; [done|]). case_if; [destruct (v_puts_keep (8 - v_col v mod 8) v) as [-> ->]; done|]. by case_if.
  - case_if; [by split; [|constructor]|]. by case_if.
  - destruct (within _ _ _).
    + cbn [v_set_st v_cap v_params]. split; [|done]. unfold v_csi, v_erase. by repeat case_if.
    + case_if; [|done]. split; [done|]. cbn. apply no_nul_app; [done|]. by repeat constructor.
  - by repeat case_if.
  - done.
Qed.
Lemma v_feed_keeps v t : no_nul t -> no_nul (v_params v) -> v_cap (v_feed v t) = v_cap v /\ no_nul (v_params (v_feed v t)).
Proof.
  intros Ht. revert v. unfold v_feed. induction Ht as [|b t Hb _ IH]; intros v Hn; [done|]. cbn [fold_left].
  destruct (v_byte_keeps v b Hb Hn) as [<- Hn']. by apply IH.
Qed.

Lemma feed_pieces s t u : feed s (t ++ u) = feed (feed s t) u.
Proof. apply fold_left_app. Qed.

(** C29: a program's output, given to the document piece by piece, leaves it as one
    screen would be that was given all of it: the same text, cursor, parser
    state, pen and coloured runs.  The pieces hold no NUL (the parameters are kept
    as a C string) and write fewer than 256 styles (the palette of a live screen
    fills up, that of a loaded one starts again). *)
Theorem feeds_are_one s chunks :
  sound s -> cap s = 5000 -> no_nul (params s) -> Forall no_nul chunks -> length (pens (feed s (concat chunks))) < 256 ->
  fold_left (fun d t => (term_feed d t).1) chunks (doc_of s) = doc_of (feed s (concat chunks)).
Proof.
  revert s. induction chunks as [|t chunks IH]; intros s H Hcap Hpar Hn Hlt; [done|]. apply Forall_cons_1 in Hn as [Ht Hn].
  cbn [concat fold_left] in *. rewrite feed_pieces in *.
  pose proof (feed_sound_at s t H) as Hs. pose proof (feed_pens (feed s t) (concat chunks) Hs) as Hl%prefix_length.
  assert (Hlt1 : length (pens (feed s t)) < 256) by lia. pose proof (styled_feed s t H Hlt1) as Hv.
  destruct (v_feed_keeps (view s) t Ht Hpar) as [Hc1 Hp1]. rewrite <- Hv in Hc1, Hp1.
  specialize (IH (feed s t) Hs ltac:(by etrans; [apply Hc1|]) Hp1 Hn Hlt). rewrite <- IH. f_equal. unfold term_feed. cbn [fst].
  destruct (doc_screen s H Hcap Hpar) as (E1 & E2 & E3). apply doc_view; [by apply feed_sound_at|done|].
  rewrite Hv, <- E1. apply styled_feed; [done|]. by apply (feed_pens_fewer s).
Qed.

(** The first piece finds no values: the document's screen is a new one. *)
Lemma first_feed t : term_feed new_doc t = term_feed (doc_of new_screen) t.
Proof. reflexivity. Qed.

(** ** The theorems at concrete inputs *)

Definition progress : list bytes := [esc "[1;3"; B "1mX" ++ esc "[0m" ++ [c_nl] ++ B "50%" ++ [c_cr]; B "100%" ++ esc "[K"].
Lemma feeds_are_one_witness :
  sound new_screen /\ Forall no_nul progress /\ length (pens (feed new_screen (concat progress))) = 2 /\
  fold_left (fun d t => (term_feed d t).1) progress (doc_of new_screen) = doc_of (feed new_screen (concat progress)) /\
  termspans (doc_of (feed new_screen (concat progress))) = Some [Row 0 1 (B "bold red")].
Proof.
  assert (Hn : Forall no_nul progress) by (apply no_nul_words; vm_compute; reflexivity).
  assert (Hl : length (pens (feed new_screen (concat progress))) < 256) by (apply Nat.ltb_lt; vm_compute; reflexivity).
  split_and!; [exact new_screen_sound|exact Hn|vm_compute; reflexivity| |vm_compute; reflexivity].
  apply (feeds_are_one new_screen progress new_screen_sound); [reflexivity|constructor|exact Hn|exact Hl].
Defined.
Lemma styled_feed_witness :
  sound new_screen /\ view (feed new_screen (concat progress)) = v_feed (view new_screen) (concat progress) /\
  v_marks (view (feed new_screen (concat progress))) = [[set_fg (set_flag normal BOLD) 2 0]].
Proof.
  assert (Hl : length (pens (feed new_screen (concat progress))) < 256) by (apply Nat.ltb_lt; vm_compute; reflexivity).
  split_and!; [exact new_screen_sound|exact (styled_feed new_screen (concat progress) new_screen_sound Hl)|vm_compute; reflexivity].
Defined.

(** A NUL among the parameters ends them between two pieces and not inside one. *)
Example nul_parameter :
  let t1 := esc "[3" ++ [c_nul] in let t2 := B "1mX" in
  (termspans (term_feed new_doc (t1 ++ t2)).1, termspans (term_feed (term_feed new_doc t1).1 t2).1) =
  (Some [Row 0 1 (B "italic")], Some [Row 0 1 (B "red")]).
Proof. vm_compute. reflexivity. Qed.
