(* ===== verification/Grid.v ===== *)
(** The cell grid of [src/include/madcdis/tui_grid.h]: writing text into cells, the
    spans that differ between two grids, and the paint plan with its scroll.

    [plan_reproduces]: the plan's scroll and spans make the next grid of the last.
    [put_keeps_columns]: a row's glyphs fill its columns, whatever is written. *)
From S2P Require Import Prelude Utf8 UiStyle.
#[local] Open Scope nat_scope.

(** ** Cells and grids *)

Record tui_cell := Cell { ch : Z; tail : bool; attr : ui_style }.
#[export] Instance cell_eq : EqDecision tui_cell.
Proof. solve_decision. Defined.
Definition cell_eqb (a b : tui_cell) : bool := bool_decide (a = b).
Definition c_space : Z := 32.
Definition new_cell : tui_cell := Cell c_space false normal.

(** The bytes of a glyph, the first lowest. *)
Fixpoint glyph_bytes (fuel : nat) (g : Z) : bytes :=
  match fuel with
  | O => []
  | S k => if (g =? 0)%Z then [] else to_byte (Z.land g 0xFF) :: glyph_bytes k (Z.shiftr g 8)
  end.
Definition append_glyph (c : tui_cell) (out : bytes) : bytes := if tail c then out else out ++ glyph_bytes 4 (ch c).

Record tui_grid := Grid { rows : nat; cols : nat; cells : list tui_cell; cursor_row : nat; cursor_col : nat; cursor_visible : bool }.
Definition resize (r c : nat) : tui_grid := Grid r c (replicate (r * c) new_cell) 0 0 false.
Definition at_cell (g : tui_grid) (r c : nat) : tui_cell := nth (r * cols g + c) (cells g) new_cell.
Definition set_cells (g : tui_grid) (l : list tui_cell) : tui_grid := Grid (rows g) (cols g) l (cursor_row g) (cursor_col g) (cursor_visible g).
Definition set_at (g : tui_grid) (r c : nat) (x : tui_cell) : tui_grid := set_cells g (<[r * cols g + c := x]> (cells g)).
(** The cell as a space; its attributes stay. *)
Definition cleared (x : tui_cell) : tui_cell := Cell c_space false (attr x).

(** ** Text into cells *)

Definition set_glyph (g : tui_grid) (r c : nat) (glyph : Z) (w : nat) (a : ui_style) : tui_grid :=
  let g := if tail (at_cell g r c) && (0 <? c) then set_at g r (c - 1) (cleared (at_cell g r (c - 1))) else g in
  let after := c + w in
  let g := if (after <? cols g) && tail (at_cell g r after) then set_at g r after (cleared (at_cell g r after)) else g in
  let g := set_at g r c (Cell glyph false a) in
  if w =? 2 then set_at g r (c + 1) (Cell 0 true a) else g.

(** [for k = n down to 1: glyph = (glyph << 8) | text[i + k - 1]] *)
Definition pack (t : bytes) : Z := fold_right (fun b g => Z.lor (u32 (Z.shiftl g 8)) (code b)) 0%Z t.
Definition glyph_at (t : bytes) (i : nat) : nat * Z * nat :=
  let '(n, cp) := utf8_decode_at t i in
  if ((cp <? 0x20) || (cp =? 0x7f))%Z then (n, code "?"%char, 1)
  else (n, pack (substr t i n), codepoint_columns cp).
Definition put_body (r : nat) (t : bytes) (a : ui_style) (s : tui_grid * nat * nat) : tui_grid * nat * nat + tui_grid :=
  let '(g, c, i) := s in
  if (i <? length t) && (c <? cols g) then
    let '(n, glyph, w) := glyph_at t i in
    let '(glyph, w) := if cols g <? c + w then (c_space, 1) else (glyph, w) in
    inl (set_glyph g r c glyph w a, c + w, i + n)
  else inr g.
Definition put (g : tui_grid) (r c : nat) (t : bytes) (a : ui_style) : tui_grid :=
  if rows g <=? r then g else default g (loop (S (length t)) (put_body r t a) (g, c, 0)).

Definition set_attr (x : tui_cell) (a : ui_style) : tui_cell := Cell (ch x) (tail x) a.
Definition on_run (g : tui_grid) (r c len : nat) (f : tui_cell -> ui_style) : tui_grid :=
  if rows g <=? r then g
  else fold_left (fun g i => if c + i <? cols g then set_at g r (c + i) (set_attr (at_cell g r (c + i)) (f (at_cell g r (c + i)))) else g) (seq 0 len) g.
Definition fill_attr (g : tui_grid) (r c len : nat) (a : ui_style) : tui_grid := on_run g r c len (fun _ => a).
Definition overlay_attr (g : tui_grid) (r c len : nat) (a : ui_style) : tui_grid :=
  on_run g r c len (fun x => if ((bg a =? 0) && (bg_rgb a =? 0))%Z then set_bg a (bg (attr x)) (bg_rgb (attr x)) else a).

Fixpoint rtrim (t : bytes) : bytes :=
  match t with [] => [] | c :: r => let r := rtrim r in if is_nil r && byte_eqb c c_sp then [] else c :: r end.
Definition row_text (g : tui_grid) (r : nat) : bytes :=
  if rows g <=? r then [] else rtrim (fold_left (fun out c => append_glyph (at_cell g r c) out) (seq 0 (cols g)) []).
Fixpoint paint_end (g : tui_grid) (r e : nat) : nat :=
  match e with
  | O => O
  | S k => if negb (ch (at_cell g r k) =? c_space)%Z || negb (is_normal (attr (at_cell g r k))) then e else paint_end g r k
  end.
Definition row_paint_end (g : tui_grid) (r : nat) : nat := if rows g <=? r then 0 else paint_end g r (cols g).

(** ** Spans *)

Definition tui_rows_equal (a : tui_grid) (ra : nat) (b : tui_grid) (rb : nat) : bool :=
  forallb (fun c => cell_eqb (at_cell a ra c) (at_cell b rb c)) (seq 0 (cols a)).
Record tui_row_span := RowSpan { row : nat; c0 : nat; c1 : nat }.

(** The first and last cell of a row that differ. *)
Definition row_diff (prev next : tui_grid) (r : nat) : option (nat * nat) :=
  fold_left (fun s c => if cell_eqb (at_cell prev r c) (at_cell next r c) then s
                        else Some (match s with Some (a, _) => a | None => c end, c)) (seq 0 (cols next)) None.
Definition tui_diff_spans (prev next : tui_grid) : list tui_row_span :=
  if negb (rows prev =? rows next) || negb (cols prev =? cols next) then
    map (fun r => RowSpan r 0 (if cols next =? 0 then 0 else cols next - 1)) (seq 0 (rows next))
  else omap (fun r => match row_diff prev next r with Some (a, b) => Some (RowSpan r a b) | None => None end) (seq 0 (rows next)).
Definition tui_dirty_rows (prev next : tui_grid) : list nat := map row (tui_diff_spans prev next).

Definition hash_bytes (c : tui_cell) : list Z :=
  [Z.land (ch c) 0xFF; Z.land (Z.shiftr (ch c) 8) 0xFF; Z.land (Z.shiftr (ch c) 16) 0xFF; Z.land (Z.shiftr (ch c) 24) 0xFF;
   if tail c then 1 else 0; fg (attr c); bg (attr c); flags (attr c)]%Z.
Definition hash_step (h b : Z) : Z := u64 (Z.lxor h b * 1099511628211).
Definition tui_row_hash (g : tui_grid) (r : nat) : Z :=
  fold_left (fun h c => fold_left hash_step (hash_bytes (at_cell g r c)) h) (seq 0 (cols g)) 1469598103934665603%Z.

(** ** The plan *)

Record tui_paint_plan := Plan { shifted : bool; up : bool; top : nat; bot : nat; delta : nat; spans : list tui_row_span }.
Definition tui_span_cost (l : list tui_row_span) : nat := fold_left (fun cost s => cost + (c1 s - c0 s + 1 + 10)) l 0.

Record band := Band { score : nat; b_from : nat; b_to : nat; b_delta : nat; b_up : bool }.
Section Scan.
Context (prev next : tui_grid) (is_dirty : nat -> bool) (ph nh : nat -> Z).
(** Row [r] of the next grid is the row of the last one [delta] away. *)
Definition row_moved (d : nat) (u : bool) (r : nat) : bool :=
  let from := if u then r + d else r - d in
  (if u then r + d <? rows next else d <=? r) && (nh r =? ph from)%Z && tui_rows_equal next r prev from.
(** The rest of a run: the score and the row after it. *)
Fixpoint run_from (fuel d : nat) (u : bool) (r sc : nat) : nat * nat :=
  match fuel with
  | O => (sc, r)
  | S k =>
      let sc := sc + (if is_dirty r then 1 else 0) in
      let r := S r in
      if (r <? rows next) && row_moved d u r then run_from k d u r sc else (sc, r)
  end.
Definition scan_body (d : nat) (u : bool) (s : nat * band) : nat * band + band :=
  let '(r, best) := s in
  if r <? rows next then
    if row_moved d u r then
      let '(sc, r') := run_from (rows next - r) d u r 0 in
      inl (r', if score best <? sc then Band sc r (r' - 1) d u else best)
    else inl (S r, best)
  else inr best.
Definition scan_dir (d : nat) (u : bool) (best : band) : band := default best (loop (S (rows next)) (scan_body d u) (0, best)).
Definition find_band : band :=
  fold_left (fun best d => scan_dir d false (scan_dir d true best)) (seq 1 (rows next - 1)) (Band 0 0 0 0 false).
End Scan.

(** The band from [t] to [b] moved by [d] rows, blanks behind it. *)
Definition shift_cell (g : tui_grid) (u : bool) (t b d r c : nat) : tui_cell :=
  if (t <=? r) && (r <=? b) then
    let ok := if u then r + d <=? b else t + d <=? r in
    let from := if u then r + d else if ok then r - d else 0 in
    if ok then at_cell g from c else new_cell
  else at_cell g r c.
Definition shift_rows (g : tui_grid) (n : nat) (u : bool) (t b d : nat) : tui_grid :=
  fold_left (fun g' r => fold_left (fun g' c => set_at g' r c (shift_cell g u t b d r c)) (seq 0 n) g') (seq t (S b - t)) g.

Definition tui_diff_plan (prev next : tui_grid) : tui_paint_plan :=
  let plain := Plan false false 0 0 0 (tui_diff_spans prev next) in
  if negb (rows prev =? rows next) || negb (cols prev =? cols next) || (length (spans plain) <? 4) then plain
  else
    let is_dirty r := existsb (fun s => row s =? r) (spans plain) in
    let best := find_band prev next is_dirty (tui_row_hash prev) (tui_row_hash next) in
    if score best =? 0 then plain
    else
      let t := if b_up best then b_from best else b_from best - b_delta best in
      let b := if b_up best then b_to best + b_delta best else b_to best in
      let after := tui_diff_spans (shift_rows prev (cols next) (b_up best) t b (b_delta best)) next in
      if tui_span_cost (spans plain) <=? tui_span_cost after + 30 then plain
      else Plan true (b_up best) t b (b_delta best) after.

Definition grid_of (l : list string) : tui_grid :=
  fold_left (fun g x => put g x.1 0 (B x.2) normal) (zip (seq 0 (length l)) l) (resize (length l) 12).
Example plan_ex :
  let a := grid_of ["title"; "one is here"; "two is here"; "three here"; "four here"; "five here"; "status"]%string in
  let b := grid_of ["title"; "two is here"; "three here"; "four here"; "five here"; "six is here"; "status"]%string in
  (map (row_text b) [1; 5], tui_diff_plan a b, map (row_paint_end b) [0; 1; 7]) =
  ([B "two is here"; B "six is here"], Plan true true 1 5 1 [RowSpan 5 0 10], [5; 11; 0]).
Proof. vm_compute. reflexivity. Qed.

(** ** The screen, as rows of cells *)

Definition row_cells (g : tui_grid) (r : nat) : list tui_cell := map (at_cell g r) (seq 0 (cols g)).
Definition grid_rows (g : tui_grid) : list (list tui_cell) := map (row_cells g) (seq 0 (rows g)).
(** A target emits a span: the cells of the next grid, over the row. *)
Definition paint_span (next : tui_grid) (scr : list (list tui_cell)) (s : tui_row_span) : list (list tui_cell) :=
  alter (fun line => take (c0 s) line ++ take (S (c1 s) - c0 s) (drop (c0 s) (row_cells next (row s))) ++ drop (S (c1 s)) line) (row s) scr.
(** A terminal deletes or inserts [d] lines at the top of a scroll region. *)
Definition scroll (w : nat) (u : bool) (t b d : nat) (scr : list (list tui_cell)) : list (list tui_cell) :=
  let band := take (S b - t) (drop t scr) in
  let blanks := replicate d (replicate w new_cell) in
  take t scr ++ (if u then drop d band ++ blanks else blanks ++ take (length band - d) band) ++ drop (S b) scr.
Definition paint_plan (prev next : tui_grid) (p : tui_paint_plan) : list (list tui_cell) :=
  fold_left (paint_span next) (spans p)
    (if shifted p then scroll (cols prev) (up p) (top p) (bot p) (delta p) (grid_rows prev) else grid_rows prev).

Lemma length_row_cells g r : length (row_cells g r) = cols g.
Proof. unfold row_cells. by rewrite length_map, length_seq. Qed.
Lemma length_grid_rows g : length (grid_rows g) = rows g.
Proof. unfold grid_rows. by rewrite length_map, length_seq. Qed.
Lemma lookup_row_cells g r c : c < cols g -> row_cells g r !! c = Some (at_cell g r c).
Proof. intros H. unfold row_cells. by rewrite list_lookup_fmap, lookup_seq_lt. Qed.
Lemma lookup_grid_rows g r : r < rows g -> grid_rows g !! r = Some (row_cells g r).
Proof. intros H. unfold grid_rows. by rewrite list_lookup_fmap, lookup_seq_lt. Qed.
#[local] Hint Rewrite length_row_cells length_grid_rows : len.

(** *** Spans cover what differs *)

(** A fold over a prefix of the columns finds the first and last that differ. *)
Definition diff_upto (prev next : tui_grid) (r n : nat) (s : option (nat * nat)) : Prop :=
  match s with
  | None => forall c, c < n -> at_cell prev r c = at_cell next r c
  | Some (a, b) => a <= b < n /\ at_cell prev r a <> at_cell next r a /\ at_cell prev r b <> at_cell next r b /\
                   forall c, c < n -> c < a \/ b < c -> at_cell prev r c = at_cell next r c
  end.
Lemma row_diff_spec prev next r : diff_upto prev next r (cols next) (row_diff prev next r).
Proof.
  unfold row_diff. generalize (cols next) as n. induction n as [|n IH]; [intros c H; lia|].
  rewrite seq_S, fold_left_app. cbn [fold_left plus]. set (s := fold_left _ (seq 0 n) None) in *.
  unfold cell_eqb. case_bool_decide as He.
  - destruct s as [[a b]|]; cbn in *.
    + destruct IH as (H1 & H2 & H3 & H4). split_and!; [lia..|done|done|].
      intros c Hc Ho. destruct (decide (c = n)) as [->|]; [done|]. apply H4; lia.
    + intros c Hc. destruct (decide (c = n)) as [->|]; [done|]. apply IH. lia.
  - destruct s as [[a b]|]; cbn in *.
    + destruct IH as (H1 & H2 & H3 & H4). split_and!; [lia..|done|done|]. intros c Hc Ho. apply H4; lia.
    + split_and!; [lia..|done|done|]. intros c Hc Ho. apply IH. lia.
Qed.

(** Painting the span of a row makes it the next one's. *)
Lemma span_paints prev next r a b :
  cols prev = cols next -> diff_upto prev next r (cols next) (Some (a, b)) ->
  take a (row_cells prev r) ++ take (S b - a) (drop a (row_cells next r)) ++ drop (S b) (row_cells prev r) = row_cells next r.
Proof.
  intros Hc (Hab & _ & _ & He). apply list_eq. intros c.
  destruct (Nat.lt_ge_cases c (cols next)) as [Hlt|Hge].
  2: { rewrite !lookup_ge_None_2; [done|by autorewrite with len|]. repeat rewrite ?length_app, ?length_take, ?length_drop. autorewrite with len. lia. }
  rewrite lookup_row_cells by done.
  destruct (Nat.lt_ge_cases c a) as [H1|H1].
  { rewrite lookup_app_l by (rewrite length_take; autorewrite with len; lia).
    rewrite lookup_take_lt by done. rewrite lookup_row_cells by lia. f_equal. apply He; lia. }
  rewrite lookup_app_r by (rewrite length_take; autorewrite with len; lia).
  rewrite length_take, length_row_cells. replace (c - a `min` cols prev) with (c - a) by lia.
  destruct (Nat.lt_ge_cases b c) as [H2|H2].
  - rewrite lookup_app_r by (rewrite length_take, length_drop; autorewrite with len; lia).
    rewrite length_take, length_drop, length_row_cells, lookup_drop.
    replace (S b + (c - a - (S b - a) `min` (cols next - a))) with c by lia.
    rewrite lookup_row_cells by lia. f_equal. apply He; lia.
  - rewrite lookup_app_l by (rewrite length_take, length_drop; autorewrite with len; lia).
    rewrite lookup_take_lt by lia. rewrite lookup_drop. replace (a + (c - a)) with c by lia.
    by rewrite lookup_row_cells.
Qed.

Lemma row_cells_eq prev next r :
  cols prev = cols next -> (forall c, c < cols next -> at_cell prev r c = at_cell next r c) -> row_cells prev r = row_cells next r.
Proof. intros Hc H. unfold row_cells. rewrite Hc. apply map_ext_in. intros c Hin%in_seq. apply H. lia. Qed.

Lemma alter_app_mid {A} (f : A -> A) (l : list A) x r : alter f (length l) (l ++ x :: r) = l ++ f x :: r.
Proof. induction l as [|y l IH]; [done|]. cbn. f_equal. exact IH. Qed.
Lemma alter_row {A} (f : A -> A) (l1 l2 : list A) k x :
  k < length l1 -> k < length l2 -> l2 !! k = Some x -> forall y, l1 !! k = Some y -> f x = y ->
  alter f k (take k l1 ++ drop k l2) = take (S k) l1 ++ drop (S k) l2.
Proof.
  intros H1 H2 Hx y Hy <-. rewrite (drop_S _ _ _ Hx).
  replace k with (length (take k l1)) at 1 by (rewrite length_take; lia).
  rewrite alter_app_mid, (take_S_r _ _ _ Hy), <- app_assoc. done.
Qed.

(** A screen of the last grid's rows, the spans of the two grids painted. *)
Definition scr_upto (prev next : tui_grid) (k : nat) : list (list tui_cell) := take k (grid_rows next) ++ drop k (grid_rows prev).
Lemma diff_spans_paint_from prev next m k :
  rows prev = rows next -> cols prev = cols next -> k + m = rows next ->
  fold_left (paint_span next) (omap (fun r => match row_diff prev next r with Some (a, b) => Some (RowSpan r a b) | None => None end) (seq k m))
    (scr_upto prev next k) = grid_rows next.
Proof.
  intros Hr Hc. revert k. induction m as [|m IH]; intros k Hk.
  { cbn. unfold scr_upto. rewrite take_ge, drop_ge, app_nil_r by (rewrite length_grid_rows; lia). done. }
  cbn [seq omap list_omap]. rewrite <- (IH (S k)) by lia.
  pose proof (row_diff_spec prev next k) as Hd. destruct (row_diff prev next k) as [[a b]|]; cbn [fold_left].
  - f_equal. unfold paint_span, scr_upto. cbn [row c0 c1].
    eapply alter_row; [rewrite length_grid_rows; lia..| | |].
    + apply lookup_grid_rows. lia.
    + apply lookup_grid_rows. lia.
    + by apply span_paints.
  - f_equal. unfold scr_upto. rewrite (drop_S (grid_rows prev) (row_cells prev k) k) by (apply lookup_grid_rows; lia).
    rewrite (take_S_r _ _ _ (lookup_grid_rows next k ltac:(lia))), <- app_assoc. cbn.
    by rewrite (row_cells_eq prev next k Hc Hd).
Qed.
Lemma diff_spans_paint prev next :
  rows prev = rows next -> cols prev = cols next ->
  fold_left (paint_span next) (tui_diff_spans prev next) (grid_rows prev) = grid_rows next.
Proof.
  intros Hr Hc. unfold tui_diff_spans. rewrite Hr, Hc, !Nat.eqb_refl. cbn [negb orb].
  by apply (diff_spans_paint_from prev next (rows next) 0).
Qed.

(** *** The simulated shift is the terminal's *)

Lemma length_set_at g r c x : length (cells (set_at g r c x)) = length (cells g).
Proof. cbn. by rewrite length_insert. Qed.
(** A grid has a cell for every place. *)
Definition sized (g : tui_grid) : Prop := length (cells g) = rows g * cols g.
Lemma place_in (R C r c : nat) : r < R -> c < C -> r * C + c < R * C.
Proof. nia. Qed.
Lemma place_inj (C r c r' c' : nat) : c < C -> c' < C -> r * C + c = r' * C + c' -> r = r' /\ c = c'.
Proof. intros H1 H2 H. assert (r = r') by nia. nia. Qed.
Lemma at_set_at g r c x r' c' :
  sized g -> r < rows g -> c < cols g -> c' < cols g ->
  at_cell (set_at g r c x) r' c' = if decide (r' = r /\ c' = c) then x else at_cell g r' c'.
Proof.
  intros Hs Hr Hc Hc'. unfold at_cell, set_at. cbn. rewrite !nth_lookup.
  case_decide as Hd.
  - destruct Hd as [-> ->]. rewrite list_lookup_insert_eq; [done|]. rewrite Hs. by apply place_in.
  - rewrite list_lookup_insert_ne; [done|]. intros H. apply Hd. apply place_inj in H; [|done..]. lia.
Qed.

Lemma shift_row_cells g' h r n :
  sized g' -> r < rows g' -> n <= cols g' ->
  let g2 := fold_left (fun g' c => set_at g' r c (h c)) (seq 0 n) g' in
  rows g2 = rows g' /\ cols g2 = cols g' /\ sized g2 /\
  forall r' c', c' < cols g' -> at_cell g2 r' c' = if decide (r' = r /\ c' < n) then h c' else at_cell g' r' c'.
Proof.
  intros Hs Hr Hn. induction n as [|n IH]; cbn zeta.
  { cbn. split_and!; [done..|]. intros r' c' _. case_decide; [lia|done]. }
  rewrite seq_S, fold_left_app. cbn [fold_left plus].
  destruct IH as (H1 & H2 & H3 & H4); [lia|]. set (g2 := fold_left _ (seq 0 n) g') in *.
  split_and!; [done..| |].
  - unfold sized in *. rewrite length_set_at. exact H3.
  - intros r' c' Hc'. rewrite at_set_at by (rewrite ?H1, ?H2; done || lia). rewrite H4 by done.
    repeat case_decide; try done; try lia; (replace c' with n by lia); done.
Qed.
Lemma shift_rows_cells g u t b d n :
  sized g -> b < rows g -> n = cols g ->
  let g2 := shift_rows g n u t b d in
  rows g2 = rows g /\ cols g2 = cols g /\ sized g2 /\
  forall r c, c < cols g -> at_cell g2 r c = shift_cell g u t b d r c.
Proof.
  intros Hs Hb ->. unfold shift_rows.
  assert (Hk : forall k, t + k <= rows g ->
    let g2 := fold_left (fun g' r => fold_left (fun g' c => set_at g' r c (shift_cell g u t b d r c)) (seq 0 (cols g)) g') (seq t k) g in
    rows g2 = rows g /\ cols g2 = cols g /\ sized g2 /\
    forall r c, c < cols g -> at_cell g2 r c = if decide (t <= r < t + k) then shift_cell g u t b d r c else at_cell g r c).
  { induction k as [|k IH]; intros Hle; cbn zeta.
    { cbn. split_and!; [done..|]. intros r c _. case_decide; [lia|done]. }
    rewrite seq_S, fold_left_app. cbn [fold_left].
    destruct IH as (H1 & H2 & H3 & H4); [lia|]. set (g2 := fold_left _ (seq t k) g) in *.
    destruct (shift_row_cells g2 (shift_cell g u t b d (t + k)) (t + k) (cols g)) as (G1 & G2 & G3 & G4); [done|lia|lia|].
    split_and!; [lia|lia|done|]. intros r c Hc. rewrite G4, H4 by lia.
    repeat case_decide; try done; try lia. replace r with (t + k) by lia. done. }
  destruct (decide (t <= S b)) as [Ht|Ht].
  - destruct (Hk (S b - t)) as (H1 & H2 & H3 & H4); [lia|]. split_and!; [done..|].
    intros r c Hc. rewrite H4 by done. case_decide as Hd; [done|].
    unfold shift_cell. destruct (t <=? r) eqn:E1, (r <=? b) eqn:E2; cbn [andb]; try done. reflect_bool. lia.
  - replace (S b - t) with 0 by lia. cbn. split_and!; [done..|]. intros r c Hc.
    unfold shift_cell. destruct (t <=? r) eqn:E1, (r <=? b) eqn:E2; cbn [andb]; try done. reflect_bool. lia.
Qed.
Definition shift_row (g : tui_grid) (u : bool) (t b d r : nat) : list tui_cell :=
  if decide (t <= r <= b) then
    if u then (if decide (r + d <= b) then row_cells g (r + d) else replicate (cols g) new_cell)
    else (if decide (t + d <= r) then row_cells g (r - d) else replicate (cols g) new_cell)
  else row_cells g r.
Lemma replicate_as_map {A B} (x : B) (l : list A) : replicate (length l) x = map (fun _ => x) l.
Proof. induction l as [|y l IH]; [done|]. cbn. by f_equal. Qed.
Lemma shift_row_spec g u t b d r : map (shift_cell g u t b d r) (seq 0 (cols g)) = shift_row g u t b d r.
Proof.
  unfold shift_row, shift_cell, row_cells.
  assert (Hb : replicate (cols g) new_cell = map (fun _ => new_cell) (seq 0 (cols g))) by (by rewrite <- replicate_as_map, length_seq).
  destruct (t <=? r) eqn:E1, (r <=? b) eqn:E2; cbn [andb]; reflect_bool; (case_decide; [|try lia; done]); try lia.
  destruct u.
  - destruct (r + d <=? b) eqn:E3; reflect_bool; case_decide; try lia; done.
  - destruct (t + d <=? r) eqn:E3; reflect_bool; case_decide; try lia; done.
Qed.

Lemma lookup_scroll g u t b d r :
  t <= b < rows g -> d <= S b - t -> r < rows g ->
  scroll (cols g) u t b d (grid_rows g) !! r = Some (shift_row g u t b d r).
Proof.
  intros Htb Hd Hr. unfold scroll, shift_row.
  assert (Hband : forall k, k < S b - t -> take (S b - t) (drop t (grid_rows g)) !! k = Some (row_cells g (t + k))).
  { intros k Hk. rewrite lookup_take_lt, lookup_drop, lookup_grid_rows by lia. done. }
  assert (Hlen : length (take (S b - t) (drop t (grid_rows g))) = S b - t).
  { rewrite length_take, length_drop, length_grid_rows. lia. }
  set (band := take (S b - t) (drop t (grid_rows g))) in *.
  assert (Hmid : length (if u then drop d band ++ replicate d (replicate (cols g) new_cell)
                         else replicate d (replicate (cols g) new_cell) ++ take (length band - d) band) = S b - t).
  { destruct u; rewrite length_app, length_replicate; rewrite ?length_drop, ?length_take, Hlen; lia. }
  set (mid := if u then _ else _) in *.
  destruct (Nat.lt_ge_cases r t) as [H1|H1].
  { rewrite lookup_app_l by (rewrite length_take, length_grid_rows; lia).
    rewrite lookup_take_lt, lookup_grid_rows by lia. case_decide; [lia|done]. }
  rewrite lookup_app_r by (rewrite length_take, length_grid_rows; lia).
  rewrite length_take, length_grid_rows. replace (r - t `min` rows g) with (r - t) by lia.
  destruct (Nat.lt_ge_cases b r) as [H2|H2].
  { rewrite lookup_app_r by lia. rewrite Hmid, lookup_drop. replace (S b + (r - t - (S b - t))) with r by lia.
    rewrite lookup_grid_rows by done. case_decide; [lia|done]. }
  rewrite lookup_app_l by lia. case_decide; [|lia]. unfold mid. destruct u; case_decide.
  - rewrite lookup_app_l by (rewrite length_drop; lia). rewrite lookup_drop, Hband by lia. do 2 f_equal. lia.
  - rewrite lookup_app_r by (rewrite length_drop; lia). rewrite length_drop, Hlen. apply lookup_replicate_2. lia.
  - rewrite lookup_app_r by (rewrite length_replicate; lia). rewrite length_replicate, Hlen, lookup_take_lt, Hband by lia. do 2 f_equal. lia.
  - rewrite lookup_app_l by (rewrite length_replicate; lia). apply lookup_replicate_2. lia.
Qed.

Lemma shift_rows_scroll g u t b d :
  sized g -> t <= b < rows g -> d <= S b - t ->
  grid_rows (shift_rows g (cols g) u t b d) = scroll (cols g) u t b d (grid_rows g).
Proof.
  intros Hs Htb Hd. destruct (shift_rows_cells g u t b d (cols g) Hs ltac:(lia) eq_refl) as (H1 & H2 & _ & H4).
  apply list_eq. intros r. destruct (Nat.lt_ge_cases r (rows g)) as [Hlt|Hge].
  - rewrite lookup_scroll by done. rewrite lookup_grid_rows by lia. f_equal.
    rewrite <- shift_row_spec. unfold row_cells. rewrite H2. apply map_ext_in. intros c Hin%in_seq. apply H4. lia.
  - rewrite !lookup_ge_None_2; [done| |rewrite length_grid_rows; lia].
    unfold scroll. destruct u; repeat rewrite ?length_app, ?length_take, ?length_drop, ?length_replicate; autorewrite with len; lia.
Qed.

(** *** The band the scan settles on *)

Section BandInv.
Context (prev next : tui_grid) (is_dirty : nat -> bool) (ph nh : nat -> Z).
Definition band_ok (b : band) : Prop :=
  score b = 0 \/
  1 <= b_delta b /\ b_from b <= b_to b /\ b_to b < rows next /\
  (forall r, b_from b <= r <= b_to b -> row_moved prev next ph nh (b_delta b) (b_up b) r = true).
Lemma run_from_spec fuel d u r sc sc' r' :
  row_moved prev next ph nh d u r = true -> r < rows next ->
  run_from prev next is_dirty ph nh fuel d u r sc = (sc', r') ->
  r <= r' /\ r' <= rows next /\ (0 < fuel -> r < r') /\
  forall k, r <= k < r' -> row_moved prev next ph nh d u k = true.
Proof.
  revert r sc. induction fuel as [|fuel IH]; intros r sc Hm Hr; cbn [run_from].
  { intros [= <- <-]. split_and!; [done|lia|lia|]. intros; lia. }
  destruct ((S r <? rows next) && row_moved prev next ph nh d u (S r)) eqn:E.
  - reflect_bool. intros Hrun. apply IH in Hrun as (G1 & G2 & G3 & G4); [|done..].
    split_and!; [lia..|]. intros k Hk. destruct (decide (k = r)) as [->|]; [done|]. apply G4. lia.
  - intros [= <- <-]. split_and!; [lia..|]. intros k Hk. by replace k with r by lia.
Qed.
Lemma scan_dir_ok d u best : 1 <= d -> band_ok best -> band_ok (scan_dir prev next is_dirty ph nh d u best).
Proof.
  intros Hd Hb. unfold scan_dir.
  destruct (loop_total (fun s => band_ok s.2) band_ok (fun s : nat * band => rows next - s.1) (scan_body prev next is_dirty ph nh d u))
    with (fuel := S (rows next)) (s := (0, best)) as (res & -> & Hres).
  - intros [r b]. cbn [snd]. intros Hbok. unfold scan_body. destruct (r <? rows next) eqn:Er; [|done]. reflect_bool.
    destruct (row_moved _ _ _ _ d u r) eqn:Em; [|split; [done|cbn; lia]].
    destruct (run_from _ _ _ _ _ _ d u r 0) as [sc r'] eqn:Erun.
    apply run_from_spec in Erun as (H1 & H2 & H3 & H4); [|done..]. specialize (H3 ltac:(lia)).
    split; [|cbn; lia]. cbn [snd]. case_if; [|done]. right. cbn. split_and!; [lia..|]. intros k Hk. apply H4. lia.
  - done.
  - cbn. lia.
  - done.
Qed.
Lemma find_band_ok : band_ok (find_band prev next is_dirty ph nh).
Proof.
  unfold find_band.
  assert (H : forall l b, Forall (le 1) l -> band_ok b -> band_ok (fold_left
    (fun best d => scan_dir prev next is_dirty ph nh d false (scan_dir prev next is_dirty ph nh d true best)) l b)).
  { induction l as [|d l IH]; intros b Hl Hb; [done|]. inversion Hl; subst. cbn. apply IH; [done|]. by do 2 (apply scan_dir_ok; [done|]). }
  apply H; [|by left]. apply Forall_forall. intros d Hd%elem_of_seq. lia.
Qed.
End BandInv.

(** C30: whatever the last and the next grid, scrolling as the plan says (if it
    does) and painting its spans from the next grid turns the last screen into
    the next; the region lies on the screen, and a scroll is planned only where
    it is cheaper by more than its own cost. *)
Theorem plan_reproduces prev next :
  sized prev -> rows prev = rows next -> cols prev = cols next ->
  let p := tui_diff_plan prev next in
  paint_plan prev next p = grid_rows next /\
  (shifted p = true -> top p <= bot p < rows next /\ 1 <= delta p <= S (bot p) - top p /\
                       tui_span_cost (spans p) + 30 < tui_span_cost (tui_diff_spans prev next)).
Proof.
  intros Hs Hr Hc. cbn zeta. unfold tui_diff_plan.
  assert (Hplain : paint_plan prev next (Plan false false 0 0 0 (tui_diff_spans prev next)) = grid_rows next)
    by (by apply diff_spans_paint).
  cbn [spans] in *. destruct (_ || _); [done|].
  set (best := find_band _ _ _ _ _).
  assert (Hb : band_ok prev next (tui_row_hash prev) (tui_row_hash next) best) by apply find_band_ok.
  destruct (score best =? 0) eqn:E0; [done|]. reflect_bool.
  destruct Hb as [|(Hd & Hft & Hto & Hm)]; [lia|].
  set (t := if b_up best then b_from best else b_from best - b_delta best).
  set (b := if b_up best then b_to best + b_delta best else b_to best).
  assert (Hreg : t <= b < rows prev /\ b_delta best <= S b - t).
  { pose proof (Hm (b_from best) ltac:(lia)) as M1. pose proof (Hm (b_to best) ltac:(lia)) as M2.
    unfold row_moved in M1, M2. unfold t, b. destruct (b_up best); reflect_bool; lia. }
  cbn zeta. destruct (_ <=? _) eqn:Ecost; [done|]. reflect_bool. cbn [shifted top bot delta spans].
  split; [|intros _; split_and!; lia].
  unfold paint_plan. cbn [shifted up top bot delta spans]. rewrite <- Hc, <- shift_rows_scroll by tauto.
  destruct (shift_rows_cells prev (b_up best) t b (b_delta best) (cols prev)) as (G1 & G2 & _ & _); [done|lia|done|].
  apply diff_spans_paint; lia.
Qed.

(** ** A row's glyphs fill its columns *)

Definition glyph_columns (x : tui_cell) : nat := if tail x then 0 else codepoint_columns (utf8_decode_at (glyph_bytes 4 (ch x)) 0).2.
Definition leads (x : tui_cell) : bool := negb (tail x) && (glyph_columns x =? 2).
Definition shows (x : tui_cell) : Prop := tail x = false -> Forall printable (glyph_bytes 4 (ch x)).
(** A tail stands right after a wide glyph and nowhere else. *)
Record row_ok (n : nat) (f : nat -> tui_cell) : Prop := {
  ro_first : 0 < n -> tail (f 0) = false;
  ro_tail : forall k, S k < n -> tail (f (S k)) = leads (f k);
  ro_last : forall k, S k = n -> leads (f k) = false;
  ro_shows : forall k, k < n -> shows (f k)
}.
Definition columned (g : tui_grid) : Prop := sized g /\ forall r, r < rows g -> row_ok (cols g) (at_cell g r).

(** The grids the drawing calls build. *)
Inductive drawn : tui_grid -> Prop :=
  | drawn_resize r c : drawn (resize r c)
  | drawn_put g r c t a : drawn g -> drawn (put g r c t a)
  | drawn_fill g r c len a : drawn g -> drawn (fill_attr g r c len a)
  | drawn_overlay g r c len a : drawn g -> drawn (overlay_attr g r c len a).

Lemma codepoint_columns_range cp : codepoint_columns cp = 1 \/ codepoint_columns cp = 2.
Proof. unfold codepoint_columns. case_if; [by right|by left]. Qed.
Lemma row_ok_columns n f k :
  row_ok n f -> k <= n ->
  list_sum (map (fun c => glyph_columns (f c)) (seq 0 k)) = k + match k with O => 0 | S j => if leads (f j) then 1 else 0 end.
Proof.
  intros [H0 H1 H2 _] Hk. induction k as [|k IH]; [done|].
  rewrite seq_S, map_app, list_sum_app. cbn [map list_sum plus fold_right]. rewrite Nat.add_0_r, IH by lia.
  replace (match k with O => 0 | S j => if leads (f j) then 1 else 0 end) with (if tail (f k) then 1 else 0)
    by (destruct k; [rewrite H0 by lia; done|rewrite H1 by lia; done]).
  pose proof (codepoint_columns_range (utf8_decode_at (glyph_bytes 4 (ch (f k))) 0).2) as Hw.
  unfold leads, glyph_columns. destruct (tail (f k)); [cbn; lia|]. destruct Hw as [->| ->]; cbn; lia.
Qed.

Definition glyph_cell (f : nat -> tui_cell) (c : nat) (glyph : Z) (w : nat) (a : ui_style) (c' : nat) : tui_cell :=
  if decide (c' = c) then Cell glyph false a
  else if decide (w = 2 /\ c' = c + 1) then Cell 0 true a
  else if decide (S c' = c /\ tail (f c) = true) then cleared (f c')
  else if decide (c' = c + w /\ tail (f c') = true) then cleared (f c')
  else f c'.
Lemma sized_set_at g r c x : sized g -> sized (set_at g r c x).
Proof. unfold sized. by rewrite length_set_at. Qed.
#[local] Hint Resolve sized_set_at : core.
Lemma set_glyph_cells g r c glyph w a :
  sized g -> r < rows g -> c + w <= cols g -> 1 <= w ->
  let g' := set_glyph g r c glyph w a in
  rows g' = rows g /\ cols g' = cols g /\ sized g' /\
  forall r' c', c' < cols g -> at_cell g' r' c' = if decide (r' = r) then glyph_cell (at_cell g r) c glyph w a c' else at_cell g r' c'.
Proof.
  intros Hs Hr Hc Hw. cbn zeta. unfold set_glyph.
  set (g1 := if tail (at_cell g r c) && (0 <? c) then _ else _).
  assert (H1 : rows g1 = rows g /\ cols g1 = cols g /\ sized g1 /\
    forall r' c', c' < cols g -> at_cell g1 r' c' = if decide (r' = r /\ S c' = c /\ tail (at_cell g r c) = true) then cleared (at_cell g r' c') else at_cell g r' c').
  { unfold g1. destruct (tail (at_cell g r c)) eqn:Et; cbn [andb].
    - destruct (0 <? c) eqn:E0; reflect_bool; split_and!; try done; auto; intros r' c' Hc'.
      + rewrite at_set_at by (done || lia). repeat case_decide; try done; try lia. destruct_and!. by subst.
      + rewrite decide_False by (intros (_ & ? & _); lia). done.
    - split_and!; [done..|]. intros r' c' _. case_decide; [naive_solver|done]. }
  destruct H1 as (R1 & C1 & S1 & A1). clearbody g1.
  set (g2 := if (c + w <? cols g1) && _ then _ else _).
  assert (H2 : rows g2 = rows g /\ cols g2 = cols g /\ sized g2 /\
    forall r' c', c' < cols g -> at_cell g2 r' c' = if decide (r' = r /\ c' = c + w /\ tail (at_cell g r c') = true) then cleared (at_cell g r' c') else at_cell g1 r' c').
  { unfold g2. rewrite C1. destruct (c + w <? cols g) eqn:Ew; cbn [andb]; reflect_bool.
    - rewrite A1 by done. rewrite decide_False by (intros (_ & ? & _); lia). destruct (tail (at_cell g r (c + w))) eqn:Et.
      + split_and!; try done; auto. intros r' c' Hc'. rewrite at_set_at by (done || lia). rewrite A1 by done.
        repeat case_decide; try done; try lia; destruct_and?; subst; try done; naive_solver.
      + split_and!; try done. intros r' c' Hc'. rewrite decide_False by (intros (-> & -> & ?); congruence). done.
    - split_and!; try done. intros r' c' Hc'. rewrite decide_False by (intros (_ & ? & _); lia). done. }
  destruct H2 as (R2 & C2 & S2 & A2). clearbody g2.
  assert (H3 : forall r' c', c' < cols g -> at_cell (set_at g2 r c (Cell glyph false a)) r' c' = if decide (r' = r /\ c' = c) then Cell glyph false a else at_cell g2 r' c')
    by (intros r' c' Hc'; apply at_set_at; done || lia).
  destruct (w =? 2) eqn:E2; reflect_bool; (split_and!; [done|done|by auto|]); intros r' c' Hc';
    [rewrite at_set_at by (cbn; auto || lia)|]; rewrite H3, A2, A1 by done; unfold glyph_cell;
    repeat case_decide; destruct_and?; subst; try done; try lia; naive_solver lia.
Qed.

(** *** Glyphs *)

Lemma glyph_bytes_pack n l :
  length l <= n -> Forall (fun b => code b <> 0%Z) l ->
  (length l <= 4) -> glyph_bytes n (pack l) = l /\ (0 <= pack l < 256 ^ Z.of_nat (length l))%Z.
Proof.
  revert n. induction l as [|b l IH]; intros n Hn Hz H4; [destruct n; by cbn|].
  inversion Hz as [|? ? Hb Hl]; subst. destruct n as [|n]; [cbn in Hn; lia|]. cbn in Hn, H4.
  destruct (IH n ltac:(lia) Hl ltac:(lia)) as (E & B1 & B2).
  pose proof (code_range b) as Hr. set (k := length l) in *.
  assert (Hk : (256 * 256 ^ Z.of_nat k <= 256 ^ 4)%Z).
  { rewrite <- Z.pow_succ_r by lia. apply Z.pow_le_mono_r; lia. }
  assert (Hp : pack (b :: l) = (256 * pack l + code b)%Z).
  { cbn [pack fold_right]. fold (pack l). rewrite Z.shiftl_mul_pow2 by lia. change (2 ^ 8)%Z with 256%Z.
    unfold u32. rewrite Z.mod_small by lia. pose proof (Z_lor_add (pack l) (code b) 8 ltac:(lia) ltac:(lia)) as E2.
    change (2 ^ 8)%Z with 256%Z in E2. lia. }
  rewrite Hp. cbn [length]. rewrite Nat2Z.inj_succ, Z.pow_succ_r by lia. fold k. split; [|nia].
  cbn [glyph_bytes]. destruct (_ =? 0)%Z eqn:E0; [reflect_bool; lia|].
  rewrite Z.shiftr_div_pow2 by lia. change (2 ^ 8)%Z with 256%Z. change 0xFF%Z with (Z.ones 8). rewrite Z.land_ones by lia. change (2 ^ 8)%Z with 256%Z.
  replace ((256 * pack l + code b) / 256)%Z with (pack l) by (apply (Z.div_unique_pos _ _ _ (code b)); lia).
  replace ((256 * pack l + code b) mod 256)%Z with (code b) by (apply (Z.mod_unique_pos _ _ (pack l)); lia).
  rewrite E. f_equal. apply to_byte_code.
Qed.

(** The decoder on the glyph alone reads what it read in the text. *)
Lemma decode_glyph t i n cp :
  i < length t -> utf8_decode_at t i = (n, cp) -> utf8_decode_at (substr t i n) 0 = (n, cp).
Proof.
  intros Hi Hd. pose proof (utf8_decode_at_step t i Hi) as Hstep. rewrite Hd in Hstep. destruct Hstep as (H1 & Hn & _).
  assert (Hat : at_ (substr t i n) 0 = at_ t i).
  { unfold substr. rewrite drop_at by done. destruct n; [lia|]. done. }
  assert (Hlen : length (substr t i n) = n) by (unfold substr; rewrite length_take, length_drop; lia).
  unfold utf8_decode_at in *. rewrite Hat, Hlen. destruct ((utf8_seq_len (at_ t i) =? 1) || _) eqn:E1.
  - injection Hd as <- <-. destruct (_ =? 1) eqn:E2; [done|]. pose proof (utf8_seq_len_range (at_ t i)). reflect_bool.
    replace (1 <? 0 + utf8_seq_len (at_ t i)) with true by (symmetry; apply Nat.ltb_lt; lia). done.
  - destruct (_ =? 1) eqn:E2; [done|]. cbn [orb] in *.
    destruct (decode_tail _ _) as [v|] eqn:Et; injection Hd as <- <-.
    + rewrite Nat.ltb_irrefl. replace (substr (substr t i (utf8_seq_len (at_ t i))) (0 + 1) (utf8_seq_len (at_ t i) - 1)) with (substr t (i + 1) (utf8_seq_len (at_ t i) - 1)); [by rewrite Et|].
      unfold substr. rewrite skipn_firstn_comm, drop_drop, take_take. f_equal. lia.
    + pose proof (utf8_seq_len_range (at_ t i)). reflect_bool.
      replace (1 <? 0 + utf8_seq_len (at_ t i)) with true by (symmetry; apply Nat.ltb_lt; lia). done.
Qed.
Lemma seq_len_lead c : utf8_seq_len c <> 1 -> (0xC0 <= code c)%Z.
Proof.
  unfold utf8_seq_len. destruct (code c <? 0x80)%Z; [done|]. destruct (code c <? 0xC0)%Z eqn:E; [done|]. reflect_bool. lia.
Qed.
Lemma glyph_at_spec t i :
  i < length t ->
  let '(n, glyph, w) := glyph_at t i in
  1 <= n /\ i + n <= length t /\ Forall printable (glyph_bytes 4 glyph) /\
  w = codepoint_columns (utf8_decode_at (glyph_bytes 4 glyph) 0).2.
Proof.
  intros Hi. unfold glyph_at. pose proof (utf8_decode_at_step t i Hi) as Hstep.
  destruct (utf8_decode_at t i) as [n cp] eqn:Hd. destruct Hstep as (H1 & Hn & Hc).
  destruct ((cp <? 0x20)%Z || (cp =? 0x7f)%Z) eqn:E.
  { split_and!; [done|done| |done]. by repeat constructor. }
  assert (Hp : printable (at_ t i)).
  { unfold utf8_decode_at in Hd. destruct ((utf8_seq_len (at_ t i) =? 1) || _) eqn:E1.
    - injection Hd as <- <-. unfold printable. reflect_bool. lia.
    - destruct (decode_tail _ _) as [v|]; injection Hd as <- <-; [|unfold printable; reflect_bool; lia].
      reflect_bool. pose proof (seq_len_lead (at_ t i) ltac:(done)). unfold printable. lia. }
  assert (Hall : Forall printable (substr t i n)) by (by eapply glyph_printable).
  assert (Hl4 : n <= 4).
  { unfold utf8_decode_at in Hd. pose proof (utf8_seq_len_range (at_ t i)).
    destruct (_ || _); [injection Hd as <- _; lia|]. destruct (decode_tail _ _); injection Hd as <- _; lia. }
  destruct (glyph_bytes_pack 4 (substr t i n)) as [-> _].
  - unfold substr. rewrite length_take. lia.
  - eapply Forall_impl; [exact Hall|]. intros b [Hb _] ?. lia.
  - unfold substr. rewrite length_take. lia.
  - split_and!; [done..|]. by rewrite (decode_glyph t i n cp).
Qed.

(** *** Every drawing call keeps the rows *)

(** The tails and the leads of a row a glyph of [w] columns is set in. *)
Definition reset_half (T : nat -> bool) (c w k : nat) : Prop := S k = c /\ T c = true \/ k = c + w /\ T k = true.
#[local] Instance reset_half_dec T c w k : Decision (reset_half T c w k).
Proof. unfold reset_half. apply _. Defined.
Definition tail_after (T : nat -> bool) (c w k : nat) : bool :=
  if decide (k = c) then false else if decide (w = 2 /\ k = c + 1) then true else if decide (reset_half T c w k) then false else T k.
Definition lead_after (T L : nat -> bool) (c w k : nat) : bool :=
  if decide (k = c) then w =? 2 else if decide (w = 2 /\ k = c + 1) then false else if decide (reset_half T c w k) then false else L k.
Lemma tails_follow_leads T L c w k :
  (w = 1 \/ w = 2) -> (forall j, T j = true -> L j = false) -> T (S k) = L k -> (S (S k) = c -> T c = L (S k)) ->
  tail_after T c w (S k) = lead_after T L c w k.
Proof.
  intros Hw HTL H1 H2. unfold tail_after, lead_after.
  destruct (decide (S k = c)) as [Ec|Ec].
  { subst c. rewrite decide_False by lia. rewrite decide_False by lia.
    destruct (T (S k)) eqn:Et; [rewrite decide_True by (left; done); done|].
    case_decide; [done|congruence]. }
  destruct (decide (k = c)) as [Ek|Ek].
  { subst k. destruct (w =? 2) eqn:E2; reflect_bool; [by rewrite decide_True by lia|].
    rewrite decide_False by lia. destruct (T (S c)) eqn:Et; [rewrite decide_True by (right; split; [lia|done]); done|].
    case_decide; done. }
  rewrite (decide_False (P := w = 2 /\ S k = c + 1)) by lia.
  destruct (decide (w = 2 /\ k = c + 1)) as [Ew|Ew].
  { destruct (T (S k)) eqn:Et; [rewrite decide_True by (right; split; [lia|done]); done|]. case_decide; done. }
  destruct (decide (reset_half T c w (S k))) as [[[E Et]|[E Et]]|E]; [|lia|].
  - case_decide; [done|]. symmetry. rewrite <- H1. destruct (T (S k)) eqn:Et2; [|done].
    rewrite H2 in Et by done. rewrite (HTL _ Et2) in Et. done.
  - destruct (decide (reset_half T c w k)) as [[[E2 Et]|[E2 Et]]|E2]; [lia| |done].
    rewrite H1. by apply HTL.
Qed.

Lemma leads_tail x : tail x = true -> leads x = false.
Proof. unfold leads. by intros ->. Qed.
Lemma leads_cleared x : leads (cleared x) = false.
Proof. reflexivity. Qed.
Section GlyphCell.
Context (n : nat) (f : nat -> tui_cell) (c : nat) (glyph : Z) (w : nat) (a : ui_style).
Hypotheses (Hp : Forall printable (glyph_bytes 4 glyph)) (Hw : w = codepoint_columns (utf8_decode_at (glyph_bytes 4 glyph) 0).2).
Lemma leads_glyph : leads (Cell glyph false a) = (w =? 2).
Proof. unfold leads, glyph_columns. cbn [tail ch negb andb]. by rewrite <- Hw. Qed.
Lemma glyph_cell_tail k : tail (glyph_cell f c glyph w a k) = tail_after (fun j => tail (f j)) c w k.
Proof.
  unfold glyph_cell, tail_after. destruct (decide (k = c)); [done|]. destruct (decide (w = 2 /\ k = c + 1)); [done|].
  destruct (decide (S k = c /\ _)) as [E|E].
  { rewrite decide_True by (by left). done. }
  destruct (decide (k = c + w /\ _)) as [E2|E2].
  { rewrite decide_True by (by right). done. }
  rewrite decide_False; [done|]. by intros [?|?].
Qed.
Lemma glyph_cell_lead k : leads (glyph_cell f c glyph w a k) = lead_after (fun j => tail (f j)) (fun j => leads (f j)) c w k.
Proof.
  unfold glyph_cell, lead_after. destruct (decide (k = c)); [apply leads_glyph|].
  destruct (decide (w = 2 /\ k = c + 1)); [by apply leads_tail|].
  destruct (decide (S k = c /\ _)) as [E|E].
  { rewrite decide_True by (by left). apply leads_cleared. }
  destruct (decide (k = c + w /\ _)) as [E2|E2].
  { rewrite decide_True by (by right). apply leads_cleared. }
  rewrite decide_False; [done|]. by intros [?|?].
Qed.
Lemma glyph_cell_shows k : shows (f k) -> shows (glyph_cell f c glyph w a k).
Proof.
  intros H. unfold glyph_cell. repeat case_decide; [by intros _|by intros [=]| | |done].
  all: intros _; by repeat constructor.
Qed.
Lemma glyph_cell_row : row_ok n f -> c + w <= n -> row_ok n (glyph_cell f c glyph w a).
Proof.
  intros [H0 H1 H2 H3] Hc. assert (Hw12 : w = 1 \/ w = 2) by (rewrite Hw; apply codepoint_columns_range).
  split.
  - intros Hn. rewrite glyph_cell_tail. unfold tail_after. repeat case_decide; try done; [lia|]. by apply H0.
  - intros k Hk. rewrite glyph_cell_tail, glyph_cell_lead. apply tails_follow_leads; [done| |by apply H1|].
    + intros j. apply leads_tail.
    + intros <-. apply H1. lia.
  - intros k Hk. rewrite glyph_cell_lead. unfold lead_after. case_decide; [apply Nat.eqb_neq; lia|]. repeat case_decide; try done. by apply H2.
  - intros k Hk. apply glyph_cell_shows, H3, Hk.
Qed.
End GlyphCell.

Lemma row_ok_ext n f f' : (forall k, k < n -> f' k = f k) -> row_ok n f -> row_ok n f'.
Proof.
  intros He [H0 H1 H2 H3]. split.
  - intros Hn. rewrite He by done. by apply H0.
  - intros k Hk. rewrite !He by lia. by apply H1.
  - intros k Hk. rewrite He by lia. by apply H2.
  - intros k Hk. rewrite He by done. by apply H3.
Qed.
(** A call that changes attributes only. *)
Lemma row_ok_attr n f f' :
  (forall k, k < n -> ch (f' k) = ch (f k) /\ tail (f' k) = tail (f k)) -> row_ok n f -> row_ok n f'.
Proof.
  intros He [H0 H1 H2 H3].
  assert (Hl : forall k, k < n -> leads (f' k) = leads (f k)).
  { intros k Hk. destruct (He k Hk) as [E1 E2]. unfold leads, glyph_columns. by rewrite E1, E2. }
  split.
  - intros Hn. rewrite (proj2 (He 0 Hn)). by apply H0.
  - intros k Hk. rewrite (proj2 (He (S k) Hk)), Hl by lia. by apply H1.
  - intros k Hk. rewrite Hl by lia. by apply H2.
  - intros k Hk. destruct (He k Hk) as [E1 E2]. unfold shows. rewrite E1, E2. by apply H3.
Qed.

Lemma columned_resize r c : columned (resize r c).
Proof.
  split; [unfold sized; cbn; by rewrite length_replicate|]. intros r' _.
  assert (He : forall k, at_cell (resize r c) r' k = new_cell).
  { intros k. unfold at_cell, resize. cbn [cells cols]. rewrite nth_lookup.
    destruct (replicate _ _ !! _) eqn:E; [|done]. by apply lookup_replicate in E as [-> _]. }
  split; intros; rewrite ?He; try done. intros _. by repeat constructor.
Qed.
Lemma columned_set_glyph g r c glyph w a :
  columned g -> r < rows g -> c + w <= cols g ->
  Forall printable (glyph_bytes 4 glyph) -> w = codepoint_columns (utf8_decode_at (glyph_bytes 4 glyph) 0).2 ->
  columned (set_glyph g r c glyph w a) /\ rows (set_glyph g r c glyph w a) = rows g /\ cols (set_glyph g r c glyph w a) = cols g.
Proof.
  intros [Hs Hrow] Hr Hc Hp Hw.
  assert (H1 : 1 <= w) by (pose proof (codepoint_columns_range (utf8_decode_at (glyph_bytes 4 glyph) 0).2); lia).
  destruct (set_glyph_cells g r c glyph w a Hs Hr Hc H1) as (E1 & E2 & E3 & E4).
  split_and!; [|done|done]. split; [done|]. rewrite E1, E2. intros r' Hr'.
  apply (row_ok_ext _ (fun k => if decide (r' = r) then glyph_cell (at_cell g r) c glyph w a k else at_cell g r' k)).
  { intros k Hk. by rewrite E4. }
  destruct (decide (r' = r)) as [->|]; [|by apply Hrow]. apply glyph_cell_row; auto.
Qed.
Lemma columned_put g r c t a : columned g -> columned (put g r c t a) /\ rows (put g r c t a) = rows g /\ cols (put g r c t a) = cols g.
Proof.
  intros Hg. unfold put. destruct (rows g <=? r) eqn:Er; [done|]. reflect_bool.
  pose (I := fun s : tui_grid * nat * nat => columned s.1.1 /\ rows s.1.1 = rows g /\ cols s.1.1 = cols g).
  destruct (loop_total I (fun g' => columned g' /\ rows g' = rows g /\ cols g' = cols g) (fun s => length t - s.2) (put_body r t a))
    with (fuel := S (length t)) (s := (g, c, 0)) as (res & -> & Hres); [|done|cbn; lia|done].
  intros [[g1 c1] i] (H1 & H2 & H3). cbn [fst snd] in *. unfold put_body.
  destruct ((i <? length t) && (c1 <? cols g1)) eqn:E; [|done]. reflect_bool.
  pose proof (glyph_at_spec t i ltac:(done)) as Hgl. destruct (glyph_at t i) as [[n glyph] w]. destruct Hgl as (G1 & G2 & G3 & G4).
  destruct (cols g1 <? c1 + w) eqn:Ew; reflect_bool; (split; [|cbn [snd]; lia]); unfold I; cbn [fst snd].
  - destruct (columned_set_glyph g1 r c1 c_space 1 a) as (K1 & K2 & K3); [done|lia|lia|by repeat constructor|done|]. split_and!; [done|lia|lia].
  - destruct (columned_set_glyph g1 r c1 glyph w a) as (K1 & K2 & K3); [done|lia|lia|done|done|]. split_and!; [done|lia|lia].
Qed.
Lemma columned_on_run g r c len f : columned g -> columned (on_run g r c len f) /\ rows (on_run g r c len f) = rows g /\ cols (on_run g r c len f) = cols g.
Proof.
  intros Hg. unfold on_run. destruct (rows g <=? r) eqn:Er; [done|]. reflect_bool.
  assert (H : forall l g1, columned g1 /\ rows g1 = rows g /\ cols g1 = cols g ->
    let g2 := fold_left (fun g i => if c + i <? cols g then set_at g r (c + i) (set_attr (at_cell g r (c + i)) (f (at_cell g r (c + i)))) else g) l g1 in
    columned g2 /\ rows g2 = rows g /\ cols g2 = cols g); [|by apply H].
  induction l as [|i l IH]; intros g1 (H1 & H2 & H3); [done|]. cbn [fold_left]. apply IH.
  destruct (c + i <? cols g1) eqn:E; [|done]. reflect_bool. split_and!; [|done|done].
  destruct H1 as [Hs Hrow]. split; [by apply sized_set_at|]. intros r' Hr'. cbn [rows cols set_at set_cells] in *.
  eapply row_ok_attr; [|apply Hrow, Hr']. intros k Hk. rewrite at_set_at by (done || lia).
  case_decide as Hd; [|done]. destruct Hd as [-> ->]. done.
Qed.
Lemma drawn_columned g : drawn g -> columned g.
Proof.
  induction 1; [apply columned_resize|by apply columned_put|by apply columned_on_run|by apply columned_on_run].
Qed.

(** C31: whatever is drawn, every row shows glyphs whose columns add up to the
    grid's, none of them a control byte: a wide glyph has its tail, a tail its
    glyph, and none passes the right edge. *)
Theorem put_keeps_columns g r :
  drawn g -> r < rows g ->
  list_sum (map glyph_columns (row_cells g r)) = cols g /\
  Forall printable (fold_left (fun out c => append_glyph (at_cell g r c) out) (seq 0 (cols g)) []) /\
  (forall c, c < cols g -> tail (at_cell g r c) = match c with O => false | S k => leads (at_cell g r k) end).
Proof.
  intros Hd%drawn_columned Hr. destruct Hd as [Hs Hrow]. specialize (Hrow r Hr). split_and!.
  - unfold row_cells. rewrite map_map, (row_ok_columns _ _ _ Hrow) by lia. destruct (cols g) as [|n] eqn:En; [done|].
    rewrite (ro_last _ _ Hrow) by done. lia.
  - assert (H : forall n out, n <= cols g -> Forall printable out -> Forall printable (fold_left (fun out c => append_glyph (at_cell g r c) out) (seq 0 n) out)); [|by apply H].
    induction n as [|n IH]; intros out Hn Ho; [done|]. rewrite seq_S, fold_left_app. cbn [fold_left plus].
    specialize (IH out ltac:(lia) Ho). unfold append_glyph at 1. destruct (tail (at_cell g r n)) eqn:Et; [done|].
    apply Forall_app_2; [done|]. by apply (ro_shows _ _ Hrow).
  - intros c Hc. destruct c as [|k]; [by apply (ro_first _ _ Hrow)|by apply (ro_tail _ _ Hrow)].
Qed.

(** A wide glyph over the halves of two others, cut at the edge. *)
Definition wide_grid : tui_grid :=
  let u := append_utf8_codepoint [] 0x4E16 in put (put (resize 2 5) 1 0 (u ++ u ++ u) normal) 1 1 u reverse.
Lemma put_keeps_columns_witness :
  drawn wide_grid /\ (1 < rows wide_grid) /\ list_sum (map glyph_columns (row_cells wide_grid 1)) = 5 /\
  map tail (row_cells wide_grid 1) = [false; false; true; false; false].
Proof.
  assert (Hd : drawn wide_grid) by (unfold wide_grid; cbn zeta; apply drawn_put, drawn_put, drawn_resize).
  assert (Hr : 1 < rows wide_grid) by (apply Nat.ltb_lt; vm_compute; reflexivity).
  split_and!; [exact Hd|exact Hr|exact (proj1 (put_keeps_columns wide_grid 1 Hd Hr))|vm_compute; reflexivity].
Defined.
Lemma plan_reproduces_witness :
  let a := grid_of ["title"; "one is here"; "two is here"; "three here"; "four here"; "five here"; "status"]%string in
  let b := grid_of ["title"; "two is here"; "three here"; "four here"; "five here"; "six is here"; "status"]%string in
  sized a /\ rows a = rows b /\ cols a = cols b /\ shifted (tui_diff_plan a b) = true /\ paint_plan a b (tui_diff_plan a b) = grid_rows b.
Proof.
  cbn zeta. set (a := grid_of _). set (b := grid_of ["title"; "two is here"; "three here"; "four here"; "five here"; "six is here"; "status"]%string).
  assert (Hs : sized a) by (vm_compute; reflexivity). assert (Hr : rows a = rows b) by (vm_compute; reflexivity).
  assert (Hc : cols a = cols b) by (vm_compute; reflexivity).
  split_and!; [exact Hs|exact Hr|exact Hc|vm_compute; reflexivity|exact (proj1 (plan_reproduces a b Hs Hr Hc))].
Defined.
