(* ===== verification/Spelling.v ===== *)
(** Type spellings, [src/include/spelling_delim.h]: the trackers that cut a C++
    name or type at its top-level [::], commas and angles, and the reference
    declarator of a parameter.  The depth counts are those of [MacroCalls].

    [scope_joined]: a name's pieces, joined at [::], are the name.  [part]: a piece
    stands in the spelling it was cut from, behind a delimiter; [argument_part],
    [template_part], [scope_part] say so of each cut, and [grouped_part] carries
    well-formed brackets over to the piece. *)
From S2P Require Import Prelude MacroCalls.
#[local] Open Scope nat_scope.

(** ** Cutting *)

Definition new_depth : SpellingDelimDepth := Depth 0 0 0 0 Ascii.zero.
Definition top (d : SpellingDelimDepth) : bool := only_angle d && (angle d =? 0)%Z.
Definition trim_blank (c : ascii) : bool := byte_eqb c c_sp || byte_eqb c c_tab.
Fixpoint trim_front (s : bytes) : bytes := match s with c :: r => if trim_blank c then trim_front r else s | [] => [] end.
Fixpoint trim_back (s : bytes) : bytes :=
  match s with [] => [] | c :: r => let r := trim_back r in if is_nil r && trim_blank c then [] else c :: r end.
Definition spelling_trim (s : bytes) : bytes := trim_back (trim_front s).

Inductive SpellingTail := Reject | Ignore.
(** The first ['<'] that opens a template-argument list: what is before it, the
    depth behind it, the rest. *)
Fixpoint find_open (d : SpellingDelimDepth) (pre s : bytes) : option (bytes * SpellingDelimDepth * bytes) :=
  match s with
  | [] => None
  | c :: r =>
      let d := update d c in
      if byte_eqb c "<"%char && (angle d =? 1)%Z then Some (pre, d, r) else find_open d (pre ++ [c]) r
  end.
(** The arguments up to the closing ['>'] and what is behind it. *)
Fixpoint scan_args (a : SpellingDelimDepth) (piece : bytes) (args : list bytes) (s : bytes) : list bytes * option bytes :=
  match s with
  | [] => (args, None)
  | c :: r =>
      let before := angle a in
      let a := update a c in
      if byte_eqb c ">"%char && (before =? 1)%Z && (angle a =? 0)%Z then (args ++ [spelling_trim piece], Some r)
      else if byte_eqb c ","%char && (angle a =? 1)%Z && only_angle a then scan_args a [] (args ++ [spelling_trim piece]) r
      else scan_args a (piece ++ [c]) args r
  end.
(** The verdict, the head and the arguments. *)
Definition split_template_id_parts (s : bytes) (tail : SpellingTail) : bool * bytes * list bytes :=
  match find_open new_depth [] s with
  | None => (false, spelling_trim s, [])
  | Some (pre, d, r) =>
      match scan_args d [] [] r with
      | (args, None) => (false, spelling_trim pre, args)
      | (args, Some r) =>
          (match tail with Reject => is_nil (spelling_trim r) | Ignore => true end, spelling_trim pre, args)
      end
  end.

(** The pieces between top-level ["::"]; the last byte is not tracked. *)
Fixpoint scope_from (d : SpellingDelimDepth) (piece s : bytes) : list bytes :=
  match s with
  | c :: ((c' :: r) as t) =>
      let d := update d c in
      if byte_eqb c ":"%char && byte_eqb c' ":"%char && top d then piece :: scope_from (update d c') [] r
      else scope_from d (piece ++ [c]) t
  | _ => [piece ++ s]
  end.
Definition split_scope_spelling (s : bytes) : list bytes := scope_from new_depth [] s.

Fixpoint args_from (d : SpellingDelimDepth) (piece s : bytes) : list bytes :=
  match s with
  | [] => if is_nil (spelling_trim piece) then [] else [spelling_trim piece]
  | c :: r =>
      let d := update d c in
      if byte_eqb c ","%char && top d then spelling_trim piece :: args_from d [] r else args_from d (piece ++ [c]) r
  end.
Definition split_template_args_spelling (s : bytes) : list bytes := args_from new_depth [] s.

(** ** References *)

Record SpelledReference := Spelled { is_ref : bool; rvalue : bool; referent_const : bool; referent : bytes }.
Fixpoint drop_spaces_back (s : bytes) : bytes :=
  match s with [] => [] | c :: r => let r := drop_spaces_back r in if is_nil r && byte_eqb c c_sp then [] else c :: r end.
Definition ends_with (s suf : bytes) : bool := (length suf <=? length s) && bytes_eqb (drop (length s - length suf) s) suf.
Definition cut_end (n : nat) (s : bytes) : bytes := take (length s - n) s.
(** One past the last top-level ['*']. *)
Fixpoint after_star (d : SpellingDelimDepth) (i from : nat) (s : bytes) : nat :=
  match s with
  | [] => from
  | c :: r => after_star (update d c) (S i) (if top d && byte_eqb c "*"%char then S i else from) r
  end.
Fixpoint const_from (t : bytes) (d : SpellingDelimDepth) (i from : nat) (s : bytes) : bool :=
  match s with
  | [] => false
  | c :: r =>
      let starts := (i =? 0) || negb (name_char (at_ t (i - 1))) in
      let ends := (length t <=? i + 5) || negb (name_char (at_ t (i + 5))) in
      if negb (i <? from) && top d && bytes_eqb (substr t i 5) (B "const") && starts && ends then true
      else const_from t (update d c) (S i) from r
  end.
Definition spelled_reference (sp : bytes) : SpelledReference :=
  let s := drop_spaces_back sp in
  let s := if ends_with s (B "...") then drop_spaces_back (cut_end 3 s) else s in
  if ends_with s (B "&") then
    let s := cut_end 1 s in
    let rv := ends_with s (B "&") in
    let t := spelling_trim (if rv then cut_end 1 s else s) in
    Spelled true rv (const_from t new_depth 0 (after_star new_depth 0 0 t) t) t
  else Spelled false false false [].
Definition spelling_is_forwarding_reference (sp : bytes) (typeparams : list bytes) : bool :=
  let r := spelled_reference sp in
  if negb (rvalue r) || referent_const r then false else existsb (bytes_eqb (referent r)) typeparams.

Example split_ex :
  (split_template_id_parts (B " A<B<int>, (x<y) > tail") Ignore, split_scope_spelling (B "a::b<c::d>::e"), split_template_args_spelling (B "int, f(a,b) ,"),
   map (fun t => let r := spelled_reference (B t) in (rvalue r, referent_const r, referent r)) ["const char*&"; "W<const T>&&"; "T* const &&..."]%string,
   map (fun t => spelling_is_forwarding_reference (B t) [B "T"]) ["T &&"; "const T &&"; "T&"]%string) =
  ((true, B "A", [B "B<int>"; B "(x<y)"]), [B "a"; B "b<c::d>"; B "e"], [B "int"; B "f(a,b)"],
   [(false, false, B "const char*"); (true, false, B "W<const T>"); (true, true, B "T* const")], [true; false; false]).
Proof. vm_compute. reflexivity. Qed.

(** ** What is cut is what was there *)

Fixpoint join (sep : bytes) (l : list bytes) : bytes :=
  match l with [] => [] | [x] => x | x :: r => x ++ sep ++ join sep r end.
Lemma scope_from_eq d piece c c' r :
  scope_from d piece (c :: c' :: r) =
    if byte_eqb c ":"%char && byte_eqb c' ":"%char && top (update d c) then piece :: scope_from (update (update d c) c') [] r
    else scope_from (update d c) (piece ++ [c]) (c' :: r).
Proof. done. Qed.
Lemma scope_from_some d piece s : scope_from d piece s <> [].
Proof.
  revert d piece. induction s as [|c s IH]; intros d piece; [done|].
  destruct s as [|c' r]; [done|]. rewrite scope_from_eq. by destruct (_ && _).
Qed.
Lemma join_cons sep x l : l <> [] -> join sep (x :: l) = x ++ sep ++ join sep l.
Proof. by destruct l. Qed.
Lemma scope_joined_from n s d piece : length s <= n -> join (B "::") (scope_from d piece s) = piece ++ s.
Proof.
  revert s d piece. induction n as [|n IH]; intros s d piece Hn; (destruct s as [|c [|c' r]]; [done|done|]); cbn [length] in Hn; [lia|].
  rewrite scope_from_eq. destruct (_ && _) eqn:E.
  - apply andb_prop in E as [[->%byte_eqb_eq ->%byte_eqb_eq]%andb_prop _].
    rewrite join_cons by apply scope_from_some. by rewrite (IH r) by lia.
  - rewrite IH by (cbn [length]; lia). by rewrite <- app_assoc.
Qed.
(** The pieces of a qualified name, joined at [::], are the name. *)
Lemma scope_joined s : join (B "::") (split_scope_spelling s) = s.
Proof. by apply (scope_joined_from (length s)). Qed.

(** A delimiter a cut is made behind. *)
Definition stop_char (c : ascii) : bool := trim_blank c || byte_eqb c "("%char || byte_eqb c ","%char || byte_eqb c "<"%char.
Inductive clean : bytes -> Prop :=
| clean_start : clean []
| clean_stop l c : stop_char c = true -> clean (l ++ [c])
| clean_scope l : clean (l ++ B "::").
Definition part (s' s : bytes) : Prop := exists l r, s = l ++ s' ++ r /\ clean l.
Lemma clean_app l1 l2 : clean l1 -> clean l2 -> clean (l1 ++ l2).
Proof. intros H1 [|l c Hc|l]; [by rewrite app_nil_r| |]; rewrite app_assoc; by constructor. Qed.
#[export] Instance part_preorder : PreOrder part.
Proof.
  split.
  - intros s. exists [], []. rewrite app_nil_r. split; [done|constructor].
  - intros a b c (l1 & r1 & -> & H1) (l2 & r2 & -> & H2). exists (l2 ++ l1), (r1 ++ r2).
    split; [by rewrite !app_assoc|by apply clean_app].
Qed.
Lemma part_length a b : part a b -> length a <= length b.
Proof. intros (l & r & -> & _). rewrite !length_app. lia. Qed.
Lemma part_front a r : part a (a ++ r).
Proof. exists [], r. split; [done|constructor]. Qed.
Lemma part_take n s : part (take n s) s.
Proof. rewrite <- (take_drop n s) at 2. apply part_front. Qed.
Lemma part_behind l s : clean l -> part s (l ++ s).
Proof. intros H. exists l, []. by rewrite app_nil_r. Qed.
Lemma trim_front_part s : part (trim_front s) s.
Proof.
  induction s as [|c s IH]; [done|]. cbn [trim_front]. destruct (trim_blank c) eqn:Ec; [|done]. etrans; [exact IH|].
  apply (part_behind [c]), (clean_stop []). unfold stop_char. by rewrite Ec.
Qed.
Lemma trim_back_part s : part (trim_back s) s.
Proof.
  assert (H : exists r, s = trim_back s ++ r).
  { induction s as [|c s [r IH]]; [by exists []|]. cbn [trim_back]. destruct (_ && _) eqn:E; [by exists (c :: s)|].
    exists r. cbn [app]. by rewrite <- IH. }
  destruct H as [r H]. rewrite H at 2. apply part_front.
Qed.
Lemma trim_part s : part (spelling_trim s) s.
Proof. unfold spelling_trim. etrans; [apply trim_back_part|apply trim_front_part]. Qed.

(** A piece still being collected behind a clean front. *)
Lemma part_open l piece s : clean l -> part piece (l ++ piece ++ s).
Proof. intros H. by exists l, s. Qed.
Lemma args_from_part d l piece s a : clean l -> a ∈ args_from d piece s -> part a (l ++ piece ++ s).
Proof.
  revert d l piece. induction s as [|c s IH]; intros d l piece Hl; cbn [args_from].
  - destruct (is_nil _); [by intros ?%not_elem_of_nil|]. intros ->%list_elem_of_singleton. etrans; [apply trim_part|by apply part_open].
  - destruct (_ && _) eqn:E.
    + apply andb_prop in E as [Hc _]. intros [->|H]%elem_of_cons; [etrans; [apply trim_part|by apply part_open]|].
      replace (l ++ piece ++ c :: s) with ((l ++ piece ++ [c]) ++ [] ++ s) by (by rewrite <- !app_assoc).
      apply (IH (update d c)); [|done]. rewrite app_assoc. apply clean_stop. unfold stop_char. rewrite Hc. by rewrite !orb_true_r.
    + intros H. replace (piece ++ c :: s) with ((piece ++ [c]) ++ s) by (by rewrite <- app_assoc). by apply (IH (update d c)).
Qed.
Lemma argument_part s a : a ∈ split_template_args_spelling s -> part a s.
Proof. apply (args_from_part new_depth [] [] s). constructor. Qed.
Lemma scope_from_part n s d l piece a : length s <= n -> clean l -> a ∈ scope_from d piece s -> part a (l ++ piece ++ s).
Proof.
  revert s d l piece. induction n as [|n IH]; intros s d l piece Hn Hl.
  - destruct s; [|cbn in Hn; lia]. intros ->%list_elem_of_singleton. by apply (part_open l (piece ++ []) []) in Hl; rewrite !app_nil_r in *.
  - destruct s as [|c [|c' r]]; [..|rewrite scope_from_eq; destruct (_ && _) eqn:E].
    1,2: intros ->%list_elem_of_singleton; apply part_behind; exact Hl.
    + apply andb_prop in E as [[->%byte_eqb_eq ->%byte_eqb_eq]%andb_prop _]. cbn [length] in Hn.
      intros [->|H]%elem_of_cons; [by apply part_open|].
      replace (l ++ piece ++ ":"%char :: ":"%char :: r) with ((l ++ piece ++ B "::") ++ [] ++ r) by (by rewrite <- !app_assoc).
      eapply (IH r _ (l ++ piece ++ B "::") []); [lia| |exact H]. rewrite app_assoc. apply clean_scope.
    + intros H. cbn [length] in Hn. replace (piece ++ c :: c' :: r) with ((piece ++ [c]) ++ c' :: r) by (by rewrite <- app_assoc).
      apply (IH (c' :: r) (update d c)); [cbn [length]; lia|done|done].
Qed.
Lemma scope_part s a : a ∈ split_scope_spelling s -> part a s.
Proof. apply (scope_from_part (length s) s new_depth [] []); [done|constructor]. Qed.
Lemma find_open_cut d pre s p d' r : find_open d pre s = Some (p, d', r) -> pre ++ s = p ++ "<"%char :: r.
Proof.
  revert d pre. induction s as [|c s IH]; intros d pre; [done|]. cbn [find_open]. destruct (_ && _) eqn:E.
  - apply andb_prop in E as [->%byte_eqb_eq _]. by intros [= <- _ <-].
  - intros H%IH. by rewrite <- app_assoc in H.
Qed.
Lemma scan_args_part d l piece s args0 args r a : clean l ->
  scan_args d piece args0 s = (args, r) -> a ∈ args -> a ∈ args0 \/ part a (l ++ piece ++ s).
Proof.
  revert d l piece args0. induction s as [|c s IH]; intros d l piece args0 Hl; cbn [scan_args]; [intros [= <- <-]; by left|].
  assert (Hp : part (spelling_trim piece) (l ++ piece ++ c :: s)) by (etrans; [apply trim_part|by apply part_open]).
  assert (Hadd : a ∈ args0 ++ [spelling_trim piece] -> a ∈ args0 \/ part a (l ++ piece ++ c :: s)).
  { rewrite elem_of_app, list_elem_of_singleton. intros [H| ->]; [by left|by right]. }
  destruct (_ && _); [intros [= <- <-]; exact Hadd|]. destruct (byte_eqb c ","%char && _ && _) eqn:E.
  - apply andb_prop in E as [[Hc _]%andb_prop _]. intros H Ha.
    replace (l ++ piece ++ c :: s) with ((l ++ piece ++ [c]) ++ [] ++ s) in * by (by rewrite <- !app_assoc).
    eapply (IH (update d c) (l ++ piece ++ [c])) in H; [|shelve|exact Ha]. destruct H as [H|H]; [by apply Hadd|by right].
    Unshelve. rewrite app_assoc. apply clean_stop. unfold stop_char. rewrite Hc. by rewrite !orb_true_r.
  - intros H Ha. replace (piece ++ c :: s) with ((piece ++ [c]) ++ s) in * by (by rewrite <- app_assoc).
    eapply (IH (update d c)) in H; [|exact Hl|exact Ha]. exact H.
Qed.
(** A template argument stands inside its template-id, behind the ['<']. *)
Lemma template_part s tail head args a : split_template_id_parts s tail = (true, head, args) -> a ∈ args -> part a s /\ length a < length s.
Proof.
  unfold split_template_id_parts. destruct (find_open new_depth [] s) as [[[pre d] r]|] eqn:E; [|done].
  apply find_open_cut in E. cbn [app] in E. destruct (scan_args d [] [] r) as [args' [r'|]] eqn:Es; [|done]. intros [= _ _ <-] Ha.
  eapply (scan_args_part d [] []) in Es as [[]%not_elem_of_nil|Hr]; [|constructor|exact Ha]. cbn [app] in Hr. subst s. split.
  - etrans; [exact Hr|]. replace (pre ++ "<"%char :: r) with ((pre ++ ["<"%char]) ++ r) by (by rewrite <- app_assoc).
    apply part_behind. by apply clean_stop.
  - apply part_length in Hr. rewrite length_app. cbn [length]. lia.
Qed.

(** *** Bracket groups *)

(** Every [']'] closes a ['['] with no delimiter between them, as array bounds and
    ABI tags are spelled. *)
Definition group_body (w : bytes) : Prop := Forall (fun c => stop_char c = false) w /\ ~ (exists a b, w = a ++ B "::" ++ b).
Definition grouped (s : bytes) : Prop := forall a b, s = a ++ "]"%char :: b -> exists a' w, a = a' ++ "["%char :: w /\ group_body w.
(** The executable form: what stands since the last ['['], if nothing cut it. *)
Fixpoint grouped_from (open : bool) (colon : bool) (s : bytes) : bool :=
  match s with
  | [] => true
  | c :: r =>
      if byte_eqb c "["%char then grouped_from true false r
      else if byte_eqb c "]"%char then open && grouped_from open false r
      else if stop_char c then grouped_from false false r
      else if byte_eqb c ":"%char then if colon then grouped_from false false r else grouped_from open true r
      else grouped_from open false r
  end.
Definition groupedb (s : bytes) : bool := grouped_from false false s.
Lemma grouped_front a b : grouped (a ++ b) -> grouped a.
Proof. intros H x y ->. apply (H x (y ++ b)). by rewrite <- app_assoc. Qed.
Lemma clean_in_group x k : clean (x ++ "["%char :: k) ->
  (exists k0 c, k = k0 ++ [c] /\ stop_char c = true) \/ exists k0, k = k0 ++ B "::".
Proof.
  intros H. inversion H as [E|l c Hc E|l E]; [by destruct x| |].
  - left. destruct k as [|b k _] using rev_ind.
    + apply app_inj_tail in E as [_ ->]. done.
    + rewrite app_comm_cons, app_assoc in E. apply app_inj_tail in E as [_ ->]. by exists k, b.
  - right. change (B "::") with ([":"%char] ++ [":"%char]) in E. rewrite app_assoc in E. destruct k as [|b k _] using rev_ind.
    + by apply app_inj_tail in E as [_ ?].
    + rewrite app_comm_cons, app_assoc in E. apply app_inj_tail in E as [E <-]. destruct k as [|b k _] using rev_ind.
      * by apply app_inj_tail in E as [_ ?].
      * rewrite app_comm_cons, app_assoc in E. apply app_inj_tail in E as [_ <-]. exists k. by rewrite <- app_assoc.
Qed.
Lemma grouped_behind l s : clean l -> grouped (l ++ s) -> grouped s.
Proof.
  intros Hl H a b ->. destruct (H (l ++ a) b) as (x & w & E & Hw & Hc); [by rewrite <- app_assoc|].
  apply app_eq_app in E as [k [[-> E]|[-> ->]]]; [|by exists k, w].
  destruct k as [|c k]; [cbn in E; subst a; by exists [], w|]. cbn [app] in E. injection E as <- ->. exfalso.
  apply clean_in_group in Hl as [(k0 & c & -> & Hs)|[k0 ->]].
  - rewrite !Forall_app, Forall_singleton in Hw. destruct Hw as [[_ Hw] _]. congruence.
  - apply Hc. exists k0, a. by rewrite <- app_assoc.
Qed.
Lemma grouped_part a b : part a b -> grouped b -> grouped a.
Proof. intros (l & r & -> & Hl) H. by apply (grouped_front a r), (grouped_behind l). Qed.
(** What stands behind the last ['['], while nothing has cut it. *)
Definition open_group (col : bool) (p : bytes) : Prop :=
  exists a w, p = a ++ "["%char :: w /\ group_body w /\ (col = false -> ~ exists w', w = w' ++ [":"%char]).
Lemma open_group_more (col col' : bool) p c : open_group col p -> stop_char c = false -> (c = ":"%char -> col = false) ->
  (col' = false -> c <> ":"%char) -> open_group col' (p ++ [c]).
Proof.
  intros (a & w & -> & [Hw Hn] & Hcol) Hs Hc Hc'. exists a, (w ++ [c]). split_and!; [by rewrite <- app_assoc|split|].
  - apply Forall_app. split; [done|by apply Forall_singleton].
  - intros (x & y & E). destruct y as [|d y _] using rev_ind.
    + rewrite app_nil_r in E. change (B "::") with ([":"%char] ++ [":"%char]) in E. rewrite app_assoc in E.
      apply app_inj_tail in E as [-> ->]. by apply Hcol; [apply Hc|exists x].
    + rewrite !app_assoc in E. apply app_inj_tail in E as [-> _]. apply Hn. exists x, y. by rewrite <- app_assoc.
  - intros H (w' & [_ ->]%app_inj_tail). by apply Hc'.
Qed.
Lemma grouped_snoc p c : grouped p -> (c = "]"%char -> exists col, open_group col p) -> grouped (p ++ [c]).
Proof.
  intros Hp Hc a b E. destruct b as [|d b _] using rev_ind.
  - apply app_inj_tail in E as [<- ->]. destruct (Hc eq_refl) as (_ & x & w & E & Hw & _). by exists x, w.
  - rewrite app_comm_cons, app_assoc in E. apply app_inj_tail in E as [-> _]. exact (Hp a b eq_refl).
Qed.
Lemma grouped_from_sound p (op col : bool) s :
  (op = true -> open_group col p) -> grouped p -> grouped_from op col s = true -> grouped (p ++ s).
Proof.
  revert p op col. induction s as [|c s IH]; intros p op col Hop Hp; [by rewrite app_nil_r|]. cbn [grouped_from]. intros H.
  replace (p ++ c :: s) with ((p ++ [c]) ++ s) by (by rewrite <- app_assoc).
  destruct (byte_eqb c "["%char) eqn:E1; [|destruct (byte_eqb c "]"%char) eqn:E2; [|destruct (stop_char c) eqn:E3; [|destruct (byte_eqb c ":"%char) eqn:E4]]].
  - apply byte_eqb_eq in E1 as ->. eapply IH; [|by apply grouped_snoc|exact H]. intros _. exists p, []. split_and!; [done|split; [constructor|]|].
    + by intros (x & y & E%eq_sym%app_eq_nil%proj2).
    + by intros _ ([|] & ?).
  - apply byte_eqb_eq in E2 as ->. apply andb_prop in H as [-> H]. specialize (Hop eq_refl).
    eapply IH; [|apply grouped_snoc; [done|by exists col]|exact H]. intros _. by eapply open_group_more.
  - apply byte_eqb_neq in E2. eapply IH; [|by apply grouped_snoc|exact H]. done.
  - apply byte_eqb_neq in E2. apply byte_eqb_eq in E4 as ->. destruct col; (eapply IH; [|by apply grouped_snoc|exact H]); [done|].
    intros Ho. by eapply open_group_more; [apply Hop| | |].
  - apply byte_eqb_neq in E2, E4. eapply IH; [|by apply grouped_snoc|exact H]. intros Ho. by eapply open_group_more; [apply Hop| | |].
Qed.
Lemma grouped_sound s : groupedb s = true -> grouped s.
Proof. apply (grouped_from_sound [] false false s); [done|]. intros a b E. by destruct a. Qed.
