(* ===== verification/MangleType.v ===== *)
(** The type grammar of the name mangler, [src/src/madc_mangle.cpp]: its code
    tables, and [parse_type], which reads a C++ spelling into the tree the
    encoder of [Mangle] writes.

    [parse_ends]: reading a spelling with well-formed brackets ends, with fuel for
    its length; [bracket_unread] shows one that never does.  The loops inside
    have fuel enough as well ([peel_loop_ends] and the three after it). *)
From S2P Require Import Prelude Numbers MacroCalls Spelling.
#[local] Open Scope nat_scope.

(** ** Code tables *)

(** The data model of the target, [datadef.h]. *)
Class Target := target_llp64 : bool.
Definition decimal (n : nat) : bytes := digits_of 20 (Z.of_nat n) [].
Definition source_name (name : bytes) : bytes := decimal (length name) ++ name.

Fixpoint lookup_code (t : bytes) (rows : list (bytes * bytes)) : bytes :=
  match rows with [] => [] | (k, v) :: r => if bytes_eqb t k then v else lookup_code t r end.
Definition rows_of (l : list (string * string)) : list (bytes * bytes) := map (fun r => (B r.1, B r.2)) l.
Definition nontype_literal_code (t : bytes) : bytes := lookup_code t (rows_of [("false", "Lb0E"); ("true", "Lb1E")]%string).
Definition builtin_rows `{!Target} : list (bytes * bytes) :=
  let l := if target_llp64 then "x"%string else "l"%string in
  let m := if target_llp64 then "y"%string else "m"%string in
  rows_of [("void", "v"); ("bool", "b"); ("char", "c"); ("signed char", "a"); ("unsigned char", "h"); ("short", "s"); ("short int", "s");
    ("unsigned short", "t"); ("unsigned short int", "t"); ("int", "i"); ("unsigned int", "j"); ("unsigned", "j"); ("long", "l");
    ("long int", "l"); ("unsigned long", "m"); ("unsigned long int", "m"); ("long long", "x"); ("long long int", "x");
    ("unsigned long long", "y"); ("float", "f"); ("double", "d"); ("long double", "e"); ("wchar_t", "w"); ("char16_t", "Ds");
    ("char32_t", "Di"); ("...", "z"); ("int8_t", "a"); ("uint8_t", "h"); ("int16_t", "s"); ("uint16_t", "t"); ("int32_t", "i");
    ("uint32_t", "j"); ("int64_t", l); ("uint64_t", m); ("size_t", m); ("std::size_t", m); ("ssize_t", l); ("ptrdiff_t", l);
    ("std::ptrdiff_t", l)]%string.
Definition builtin_code `{!Target} (t : bytes) : bytes := lookup_code t builtin_rows.
Definition unary_rows : list (bytes * bytes) := rows_of [("+", "ps"); ("-", "ng"); ("*", "de"); ("&", "ad")]%string.
Definition operator_rows : list (bytes * bytes) :=
  rows_of [("===", "v23eq3"); ("!==", "v23ne3"); ("==", "eq"); ("!=", "ne"); ("<", "lt"); (">", "gt"); ("<=", "le"); (">=", "ge"); ("<=>", "ss");
    ("+", "pl"); ("-", "mi"); ("*", "ml"); ("/", "dv"); ("%", "rm"); ("=", "aS"); ("+=", "pL"); ("-=", "mI"); ("*=", "mL"); ("/=", "dV");
    ("%=", "rM"); ("&=", "aN"); ("|=", "oR"); ("^=", "eO"); ("<<=", "lS"); (">>=", "rS"); ("<<", "ls"); (">>", "rs"); ("[]", "ix"); ("()", "cl");
    ("++", "pp"); ("--", "mm"); ("!", "nt"); ("~", "co"); ("&", "an"); ("|", "or"); ("^", "eo"); ("&&", "aa"); ("||", "oo"); (",", "cm");
    ("->", "pt"); ("->*", "pm"); ("new", "nw"); ("new[]", "na"); ("delete", "dl"); ("delete[]", "da")]%string.
Definition operator_code (op : bytes) (unary : bool) : bytes :=
  let u := if unary then lookup_code op unary_rows else [] in if is_nil u then lookup_code op operator_rows else u.

(** ** The tree *)

(** A name component: its identifier (abi tags included) and, for a template-id,
    its arguments. *)
Record name_component (A : Type) := Component { ident : bytes; targs : option (list A) }.
Arguments Component {A} _ _.
Arguments ident {A} _.
Arguments targs {A} _.
(** A core under decorations, outermost first.  A placeholder's number is one
    behind [$T]; a negative one, which no caller writes, the code takes for a name
    with no component. *)
Inductive TypeNode :=
| Builtin (decos : list bytes) (code : bytes)
| Tparam (decos : list bytes) (n : Z)
| Funcptr (decos : list bytes) (ret : TypeNode) (params : list TypeNode)
| Named (decos : list bytes) (name : list (name_component TypeNode)) (invalid : bool).
Definition decos (t : TypeNode) : list bytes := match t with Builtin d _ | Tparam d _ | Funcptr d _ _ | Named d _ _ => d end.
Definition set_decos (t : TypeNode) (d : list bytes) : TypeNode :=
  match t with Builtin _ c => Builtin d c | Tparam _ n => Tparam d n | Funcptr _ r p => Funcptr d r p | Named _ n i => Named d n i end.

(** ** ABI tags and array dimensions *)

Definition abi_tag_group (s : bytes) (ob : nat) : bool := bytes_eqb (substr s (ob + 1) 4) (B "abi:").
Definition ends_in_array_dims (s : bytes) : bool :=
  ends_with s (B "]") && negb (match rfind_char "["%char s with Some ob => abi_tag_group s ob | None => bytes_eqb (take 4 s) (B "abi:") end).
(** [ident.rfind('[', end - 1)] *)
Definition untagged_body (s : bytes) : bytes + nat :=
  if ends_with s (B "]") then
    match rfind_char "["%char s with
    | Some ob => if abi_tag_group s ob then inl (trim_back (take ob s)) else inr (length s)
    | None => inr (length s)
    end
  else inr (length s).
Definition untagged_length (s : bytes) : nat := default 0 (loop (S (length s)) untagged_body s).
(** The groups from a ['['] on, each to the next [']']. *)
Fixpoint tag_groups (fuel : nat) (s : bytes) : bytes :=
  match fuel with
  | O => []
  | S k =>
      match find_char "["%char s with
      | None => []
      | Some ob =>
          let s := drop ob s in
          let cb := default (length s) (find_char "]"%char s) in
          let tag := substr s 5 (cb - 5) in
          B "B" ++ decimal (length tag) ++ tag ++ tag_groups k (drop 1 s)
      end
  end.
Definition component_source_name (s : bytes) : bytes :=
  if ends_with s (B "]") then
    let len := untagged_length s in source_name (take len s) ++ tag_groups (S (length s)) (drop len s)
  else source_name s.

(** ** Reading a spelling *)

(** What reading gives: a tree; the exception of [std::stoi]; no fuel left. *)
Inductive parsed (A : Type) := Parsed (a : A) | Throws | No_fuel.
Arguments Parsed {A} _.
Arguments Throws {A}.
Arguments No_fuel {A}.
Definition pbind {A C} (m : parsed A) (f : A -> parsed C) : parsed C := match m with Parsed a => f a | Throws => Throws | No_fuel => No_fuel end.
Fixpoint pmap {A C} (f : A -> parsed C) (l : list A) : parsed (list C) :=
  match l with [] => Parsed [] | x :: r => pbind (f x) (fun y => pbind (pmap f r) (fun l => Parsed (y :: l))) end.

(** [std::stoi]: blanks, a sign, digits; no digits or a value past an [int] throw. *)
Fixpoint digit_run (s : bytes) : bytes := match s with c :: r => if isdigit c then c :: digit_run r else [] | [] => [] end.
Fixpoint skip_space (s : bytes) : bytes := match s with c :: r => if isspace c then skip_space r else s | [] => [] end.
Definition stoi (s : bytes) : option Z :=
  let s := skip_space s in
  let '(neg, s) := match s with c :: r => if byte_eqb c "-"%char then (true, r) else if byte_eqb c "+"%char then (false, r) else (false, s) | [] => (false, []) end in
  let ds := digit_run s in
  let v := if neg : bool then (- digits_value 0 ds)%Z else digits_value 0 ds in
  if is_nil ds || (v <? -2147483648)%Z || (2147483647 <? v)%Z then None else Some v.

(** The first place of [sub]. *)
Fixpoint find_text (sub t : bytes) : option nat :=
  if starts_with t sub then Some 0 else match t with [] => None | _ :: r => match find_text sub r with Some i => Some (S i) | None => None end end.
Definition has_text (sub t : bytes) : bool := match find_text sub t with Some _ => true | None => false end.

(** Bit 0 is const, bit 1 volatile. *)
Definition cv_deco (cv : Z) : bytes := (if negb (Z.land cv 2 =? 0)%Z then B "V" else []) ++ (if negb (Z.land cv 1 =? 0)%Z then B "K" else []).
Definition flush_cv (cv : Z) (d : list bytes) : list bytes := if (cv =? 0)%Z then d else d ++ [cv_deco cv].
Definition peel_body (x : bytes * Z * list bytes) : bytes * Z * list bytes + bytes * Z * list bytes :=
  let '(s, cv, d) := x in
  let s := spelling_trim s in
  if ends_with s (B "*") then inl (cut_end 1 s, 0%Z, flush_cv cv d ++ [B "P"])
  else if ends_with s (B "&&") then inl (cut_end 2 s, 0%Z, flush_cv cv d ++ [B "O"])
  else if ends_with s (B "&") then inl (cut_end 1 s, 0%Z, flush_cv cv d ++ [B "R"])
  else if ends_with s (B " const") then inl (cut_end 6 s, Z.lor cv 1, d)
  else if ends_with s (B " volatile") then inl (cut_end 9 s, Z.lor cv 2, d)
  else inr (s, cv, d).
Definition lead_body (x : bytes * Z) : bytes * Z + bytes * Z :=
  let '(s, cv) := x in
  if starts_with s (B "const ") then inl (spelling_trim (drop 6 s), Z.lor cv 1)
  else if starts_with s (B "volatile ") then inl (spelling_trim (drop 9 s), Z.lor cv 2)
  else if starts_with s (B "typename ") then inl (spelling_trim (drop 9 s), cv)
  else inr (s, cv).
Definition composite (s : bytes) : bool := has_text (B "(*)") s || has_text (B "(&)") s || ends_in_array_dims s.
Definition peel (raw : bytes) : bytes * list bytes :=
  let '(s, cv, d) := default (raw, 0%Z, []) (loop (S (length raw)) peel_body (raw, 0%Z, [])) in
  let '(s, cv) := if composite s then (s, cv) else default (s, cv) (loop (S (length s)) lead_body (s, cv)) in
  (s, flush_cv cv d).

(** The dimensions at the end, outer first, and the element's spelling. *)
Definition dims_body (x : bytes * list bytes) : bytes * list bytes + bytes * list bytes :=
  let '(s, ds) := x in
  if ends_with s (B "]") then
    match rfind_char "["%char s with
    | Some ob => if abi_tag_group s ob then inr x else inl (spelling_trim (take ob s), spelling_trim (substr s (ob + 1) (length s - ob - 2)) :: ds)
    | None => inr x
    end
  else inr x.
Definition array_dims (s : bytes) : bytes * list bytes := default (s, []) (loop (S (length s)) dims_body (s, [])).

Definition ident_ok (id : bytes) : bool := let n := untagged_length id in negb (n =? 0) && forallb name_char (take n id).
(** Where a function pointer or reference is spelled. *)
Definition find_fn (s : bytes) : option (nat * bytes) :=
  match find_text (B "(*)(") s with
  | Some i => Some (i, B "P")
  | None => match find_text (B "(&)(") s with Some i => Some (i, B "R") | None => None end
  end.
Section Parse.
Context `{!Target}.
Definition parse_component_with (parse : bytes -> parsed TypeNode) (raw : bytes) : parsed (name_component TypeNode) :=
  let '(ok, head, args) := split_template_id_parts (spelling_trim raw) Ignore in
  if ok : bool then pbind (pmap parse args) (fun l => Parsed (Component head (Some l))) else Parsed (Component head None).
Fixpoint parse_fuel (fuel : nat) (raw : bytes) : parsed TypeNode :=
  match fuel with
  | O => No_fuel
  | S k =>
      let '(s, d) := peel (spelling_trim raw) in
      if (3 <=? length s) && starts_with s (B "$T") then
        match stoi (drop 2 s) with Some n => Parsed (Tparam d n) | None => Throws end
      else match find_fn s with
      | Some (fp, deco) =>
          let n := match rfind_char ")"%char s with Some e => if e <? fp + 4 then length s else e - (fp + 4) | None => length s end in
          pbind (parse_fuel k (spelling_trim (take fp s))) (fun r =>
          pbind (pmap (parse_fuel k) (List.filter (fun a => negb (is_nil a || bytes_eqb a (B "void")))
                   (split_template_args_spelling (substr s (fp + 4) n)))) (fun ps =>
          Parsed (Funcptr (d ++ [deco]) r ps)))
      | None =>
          if ends_in_array_dims s then
            let '(rest, dims) := array_dims s in
            let '(rest, d) := if ends_with rest (B "(*)") then (spelling_trim (cut_end 3 rest), d ++ [B "P"]) else (rest, d) in
            pbind (parse_fuel k rest) (fun t => Parsed (set_decos t (d ++ map (fun n => B "A" ++ n ++ B "_") dims ++ decos t)))
          else if negb (is_nil (nontype_literal_code s)) then Parsed (Builtin d (nontype_literal_code s))
          else if negb (is_nil (builtin_code s)) then Parsed (Builtin d (builtin_code s))
          else
            pbind (pmap (parse_component_with (parse_fuel k)) (split_scope_spelling s)) (fun name =>
            Parsed (Named d name (negb (forallb (fun c => ident_ok (ident c)) name))))
      end
  end.
Definition parse_type (raw : bytes) : parsed TypeNode := parse_fuel (S (length raw)) raw.
Definition parse_component (raw : bytes) : parsed (name_component TypeNode) := parse_component_with parse_type raw.
(** The top-level cv of a parameter is no part of its type. *)
Definition cv_only (q : bytes) : bool := forallb (fun c => byte_eqb c "V"%char || byte_eqb c "K"%char) q.
Definition parse_param_type (raw : bytes) : parsed TypeNode :=
  pbind (parse_type raw) (fun t => Parsed (match decos t with q :: r => if cv_only q then set_decos t r else t | [] => t end)).
End Parse.

(** ** Reading ends *)

Lemma ends_with_inv s suf : ends_with s suf = true -> s = take (length s - length suf) s ++ suf.
Proof.
  unfold ends_with. intros [_ H%bytes_eqb_eq]%andb_prop. rewrite <- H at 2. by rewrite take_drop.
Qed.
Lemma cut_end_part n s : part (cut_end n s) s.
Proof. apply part_take. Qed.
Lemma cut_end_length n s suf : ends_with s suf = true -> 0 < n -> 0 < length suf -> length (cut_end n s) < length s.
Proof.
  intros [H%Nat.leb_le _]%andb_prop Hn Hs. unfold cut_end. rewrite length_take. lia.
Qed.
(** A loop state smaller than another and cut from it. *)
Lemma trim_length s : length (spelling_trim s) <= length s.
Proof. apply part_length, trim_part. Qed.
Lemma peel_loop_ends (s0 : bytes) fuel s cv d : part s s0 -> length s < fuel ->
  exists r, loop fuel peel_body (s, cv, d) = Some r /\ part r.1.1 s0.
Proof.
  intros Hp Hl.
  refine (loop_total (fun x => part x.1.1 s0) (fun r => part r.1.1 s0) (fun x => length x.1.1) peel_body _ fuel (s, cv, d) Hp Hl).
  clear. intros [[s cv] d] Hp. cbn [fst snd] in *. unfold peel_body. pose proof (trim_length s) as Ht. pose proof (trim_part s) as Hs.
  set (t := spelling_trim s) in *.
  assert (Hcut : forall n suf, ends_with t suf = true -> 0 < n -> 0 < length suf -> part (cut_end n t) s0 /\ length (cut_end n t) < length s).
  { intros n suf He Hn Hsuf. pose proof (cut_end_length n t suf He Hn Hsuf). split; [|lia]. etrans; [apply cut_end_part|by etrans]. }
  repeat (match goal with |- context [if ends_with t ?x then _ else _] => destruct (ends_with t x) eqn:E end;
    [cbn [fst]; eapply Hcut; [exact E|lia|by apply Nat.ltb_lt]|clear E]).
  cbn [fst]. by etrans.
Qed.
Lemma clean_last c s : last s = Some c -> stop_char c = true -> clean s.
Proof. intros [l ->]%last_Some Hc. by apply clean_stop. Qed.
Lemma lead_part n p s : starts_with s p = true -> n = length p -> clean p -> 0 < n -> part (spelling_trim (drop n s)) s /\ length (spelling_trim (drop n s)) < length s.
Proof.
  intros H -> Hc Hn. apply starts_with_inv in H. assert (Hd : part (drop (length p) s) s) by (rewrite H at 2; by apply part_behind).
  split; [etrans; [apply trim_part|done]|]. eapply Nat.le_lt_trans; [apply trim_length|]. rewrite length_drop.
  apply (f_equal length) in H. rewrite length_app in H. lia.
Qed.
Lemma lead_loop_ends (s0 : bytes) fuel s cv : part s s0 -> length s < fuel ->
  exists r, loop fuel lead_body (s, cv) = Some r /\ part r.1 s0.
Proof.
  intros Hp Hl.
  refine (loop_total (fun x => part x.1 s0) (fun r => part r.1 s0) (fun x => length x.1) lead_body _ fuel (s, cv) Hp Hl).
  clear. intros [s cv] Hp. cbn [fst snd] in *. unfold lead_body.
  repeat (match goal with |- context [if starts_with s ?x then _ else _] => destruct (starts_with s x) eqn:E end;
    [eapply lead_part in E as [H1 H2]; [split; cbn [fst]; [by etrans|exact H2]|done|by apply (clean_last c_sp)|lia]|clear E]).
  exact Hp.
Qed.
Lemma rfind_char_some c s ob : rfind_char c s = Some ob -> ob < length s.
Proof. intros H. pose proof (rfind_char_spec c s) as Hs. rewrite H in Hs. apply Hs. Qed.
Lemma untagged_loop_ends fuel s : length s < fuel -> exists n, loop fuel untagged_body s = Some n /\ n <= length s.
Proof.
  intros Hl. refine (loop_total (fun x => length x <= length s) (fun n => n <= length s) length untagged_body _ fuel s (Nat.le_refl _) Hl).
  clear. intros t Ht. unfold untagged_body. destruct (ends_with t _); [|done]. destruct (rfind_char _ t) as [ob|] eqn:E; [|done].
  destruct (abi_tag_group t ob); [|done]. apply rfind_char_some in E. pose proof (part_length _ _ (trim_back_part (take ob t))) as Hb.
  rewrite length_take in Hb. lia.
Qed.
(** Where a bound is cut off, the element is shorter. *)
Definition dims_left (s0 : bytes) (strict : bool) (s : bytes) : Prop := part s s0 /\ (strict = true -> length s < length s0).
Lemma dims_step s s0 b x ds : dims_left s0 b s -> dims_body (s, x) = inl ds -> dims_left s0 true ds.1 /\ length ds.1 < length s.
Proof.
  intros [Hp _]. unfold dims_body. destruct (ends_with s _); [|done]. destruct (rfind_char _ s) as [ob|] eqn:E; [|done].
  destruct (abi_tag_group s ob); [done|]. intros [= <-]. cbn [fst]. apply rfind_char_some in E.
  assert (Hl : length (spelling_trim (take ob s)) < length s).
  { eapply Nat.le_lt_trans; [apply trim_length|]. rewrite length_take. lia. }
  pose proof (part_length _ _ Hp). repeat split; [|lia|done]. etrans; [apply trim_part|]. by etrans; [apply part_take|].
Qed.
Lemma dims_loop_ends s0 b fuel s ds : dims_left s0 b s -> length s < fuel -> exists r, loop fuel dims_body (s, ds) = Some r /\ dims_left s0 b r.1.
Proof.
  intros Hp Hl.
  refine (loop_total (fun x => dims_left s0 b x.1) (fun r => dims_left s0 b r.1) (fun x => length x.1) dims_body _ fuel (s, ds) Hp Hl).
  clear. intros [s ds] Hp. cbn [fst] in *. destruct (dims_body (s, ds)) as [x|x] eqn:E.
  - destruct (dims_step _ _ _ _ _ Hp E) as [[H1 H2] H3]. split; [|done]. by split; [|intros _; apply H2].
  - unfold dims_body in E. repeat case_match; by simplify_eq/=.
Qed.
Lemma array_shorter s : ends_in_array_dims s = true -> grouped s -> part (array_dims s).1 s /\ length (array_dims s).1 < length s.
Proof.
  intros [He Ha]%andb_prop Hg. pose proof (ends_with_inv _ _ He) as Hs.
  destruct (Hg _ [] Hs) as (a & w & Ew & _). pose proof (rfind_char_spec "["%char s) as Hr. unfold array_dims.
  destruct (rfind_char "["%char s) as [ob|] eqn:E.
  2:{ destruct Hr. rewrite Hs, Ew. rewrite !elem_of_app, elem_of_cons. tauto. }
  destruct (dims_body (s, [])) as [x|x] eqn:Ed.
  - destruct (dims_step s s false [] x) as [Hx Hlt]; [by split|done|].
    assert (Hloop : loop (S (length s)) dims_body (s, []) = loop (length s) dims_body x) by (cbn [loop]; by rewrite Ed).
    destruct (dims_loop_ends s true (length s) x.1 x.2 Hx Hlt) as (r & E1 & Hp & Hl). rewrite <- surjective_pairing in E1.
    rewrite Hloop, E1. split; [exact Hp|by apply Hl].
  - unfold dims_body in Ed. rewrite He, E in Ed. by rewrite (proj1 (negb_true_iff _) Ha) in Ed.
Qed.
Lemma peel_part s : part (peel s).1 s.
Proof.
  unfold peel. destruct (peel_loop_ends s (S (length s)) s 0%Z []) as ([[t cv] d] & E & Hp); [done|lia|]. rewrite E. cbn [default from_option id fst] in *.
  destruct (composite t); [exact Hp|]. destruct (lead_loop_ends s (S (length t)) t cv) as ([t' cv'] & E' & Hp'); [done|lia|].
  rewrite E'. exact Hp'.
Qed.
Lemma pbind_fuel {A C} (m : parsed A) (f : A -> parsed C) : m <> No_fuel -> (forall a, f a <> No_fuel) -> pbind m f <> No_fuel.
Proof. destruct m; cbn [pbind]; auto. Qed.
Lemma pmap_fuel {A C} (f : A -> parsed C) l : (forall x, x ∈ l -> f x <> No_fuel) -> pmap f l <> No_fuel.
Proof.
  induction l as [|x l IH]; intros H; [done|]. cbn [pmap]. apply pbind_fuel; [apply H; left|]. intros y.
  apply pbind_fuel; [|done]. apply IH. intros z Hz. apply H. by right.
Qed.
Lemma find_text_some sub t i : find_text sub t = Some i -> i + length sub <= length t /\ bytes_eqb (substr t i (length sub)) sub = true.
Proof.
  revert i. induction t as [|c t IH]; intros i; cbn [find_text].
  - destruct (starts_with [] sub) eqn:E; [|done]. intros [= <-]. apply starts_with_inv in E as E'. destruct sub; [|done]. done.
  - destruct (starts_with (c :: t) sub) eqn:E.
    + intros [= <-]. split; [|exact E]. apply starts_with_inv, (f_equal length) in E. rewrite length_app in E. lia.
    + destruct (find_text sub t) as [j|]; [|done]. intros [= <-]. destruct (IH j eq_refl) as [H1 H2]. split; [cbn [length]; lia|exact H2].
Qed.
Lemma find_fn_some s fp deco : find_fn s = Some (fp, deco) -> fp + 4 <= length s /\ last (take (fp + 4) s) = Some "("%char.
Proof.
  assert (Hl : forall sub, length sub = 4 -> last sub = Some "("%char -> forall i, find_text sub s = Some i -> i + 4 <= length s /\ last (take (i + 4) s) = Some "("%char).
  { intros sub H4 Hsub i H. apply find_text_some in H as [H1 H2%bytes_eqb_eq]. rewrite H4 in *. split; [done|].
    rewrite <- (take_drop i (take (i + 4) s)), skipn_firstn_comm. replace (i + 4 - i) with 4 by lia. unfold substr in H2.
    rewrite H2, last_app, Hsub. done. }
  unfold find_fn. destruct (find_text (B "(*)(") s) eqn:E1.
  - intros [= <- <-]. by eapply Hl in E1.
  - destruct (find_text (B "(&)(") s) eqn:E2; [|done]. intros [= <- <-]. by eapply Hl in E2.
Qed.
Lemma fn_params_part s fp deco n : find_fn s = Some (fp, deco) -> part (substr s (fp + 4) n) s /\ length (substr s (fp + 4) n) < length s.
Proof.
  intros [H Hl]%find_fn_some. split.
  - unfold substr. etrans; [apply part_take|]. rewrite <- (take_drop (fp + 4) s) at 2. apply part_behind. by eapply clean_last.
  - unfold substr. rewrite length_take, length_drop. lia.
Qed.
Section Ends.
Context `{!Target}.
(** A piece that is shorter is read with the fuel left. *)
Definition reads (k : nat) : Prop := forall raw, length raw < k -> grouped raw -> parse_fuel k raw <> No_fuel.
Lemma reads_part k s a : reads k -> grouped s -> part a s -> length a < k -> parse_fuel k a <> No_fuel.
Proof. intros Hr Hg Ha Hl. apply Hr; [done|]. by eapply grouped_part. Qed.
Lemma reads_fn k s fp deco n d : reads k -> grouped s -> length s <= k -> find_fn s = Some (fp, deco) ->
  pbind (parse_fuel k (spelling_trim (take fp s))) (fun r =>
  pbind (pmap (parse_fuel k) (List.filter (fun a => negb (is_nil a || bytes_eqb a (B "void"))) (split_template_args_spelling (substr s (fp + 4) n)))) (fun ps =>
  Parsed (Funcptr d r ps))) <> No_fuel.
Proof.
  intros Hr Hg Hk Hf. destruct (fn_params_part s fp deco n Hf) as [Hp Hl]. apply find_fn_some in Hf as [Hf _]. apply pbind_fuel; [|intros r; apply pbind_fuel; [|done]].
  - apply (reads_part k s); [done..| |]; [etrans; [apply trim_part|apply part_take]|]. eapply Nat.le_lt_trans; [apply trim_length|].
    rewrite length_take. lia.
  - apply pmap_fuel. intros a [Ha%list_elem_of_In _]%list_elem_of_In%filter_In. apply argument_part in Ha. pose proof (part_length _ _ Ha).
    apply (reads_part k s); [done..|by etrans|lia].
Qed.
Lemma reads_component k s c : reads k -> grouped s -> length s <= k -> part c s -> parse_component_with (parse_fuel k) c <> No_fuel.
Proof.
  intros Hr Hg Hk Hc. unfold parse_component_with. destruct (split_template_id_parts _ _) as [[ok head] args] eqn:E. destruct ok; [|done].
  apply pbind_fuel; [|done]. apply pmap_fuel. intros a Ha. destruct (template_part _ _ _ _ _ E Ha) as [Hp Hl].
  pose proof (trim_length c). pose proof (part_length _ _ Hc). apply (reads_part k s); [done..| |lia].
  etrans; [exact Hp|]. by etrans; [apply trim_part|].
Qed.
Lemma reads_next k : reads k -> reads (S k).
Proof.
  intros Hr raw Hl Hg. cbn [parse_fuel]. destruct (peel (spelling_trim raw)) as [s d] eqn:Ep.
  assert (Hs : part s raw) by (pose proof (peel_part (spelling_trim raw)) as Hx; rewrite Ep in Hx; etrans; [exact Hx|apply trim_part]).
  pose proof (part_length _ _ Hs) as Hsl. apply (grouped_part _ _ Hs) in Hg. clear Hs Ep. assert (Hk : length s <= k) by lia.
  destruct (_ && _); [by destruct (stoi _)|].
  destruct (find_fn s) as [[fp deco]|] eqn:Ef; [by eapply reads_fn|].
  destruct (ends_in_array_dims s) eqn:Ea.
  - destruct (array_shorter s Ea Hg) as [Hp Hlt]. destruct (array_dims s) as [rest dims]. cbn [fst] in *.
    assert (Hc : part (spelling_trim (cut_end 3 rest)) s) by (etrans; [apply trim_part|]; by etrans; [apply cut_end_part|]).
    assert (Hcl : length (spelling_trim (cut_end 3 rest)) <= length rest).
    { etrans; [apply trim_length|]. apply part_length, cut_end_part. }
    destruct (ends_with rest _); (apply pbind_fuel; [|done]); (eapply reads_part; [done..|lia]).
  - destruct (negb _); [done|]. destruct (negb _); [done|]. apply pbind_fuel; [|done]. apply pmap_fuel. intros c Hc%scope_part. by eapply reads_component.
Qed.
Lemma reads_all k : reads k.
Proof. induction k as [|k IH]; [intros raw Hl; lia|by apply reads_next]. Qed.
(** C39: reading a type spelling ends, with fuel for its length, where each [']']
    closes a ['['] of its own declarator: it gives a tree or meets the exception
    of [std::stoi]. *)
Theorem parse_ends raw : grouped raw -> (exists t, parse_type raw = Parsed t) \/ parse_type raw = Throws.
Proof.
  intros Hg. pose proof (reads_all (S (length raw)) raw ltac:(lia) Hg) as Hx. unfold parse_type in *.
  destruct (parse_fuel _ raw) as [t| |]; [left; by exists t|by right|done].
Qed.
End Ends.
Lemma parse_ends_witness :
  let T : Target := false in
  let s := B "const Box<P[abi:v2], int (*)(char[3])>::In (&)[2][N+1]" in
  grouped s /\ ((exists t, parse_type s = Parsed t) \/ parse_type s = Throws).
Proof.
  cbv zeta. assert (H : grouped (B "const Box<P[abi:v2], int (*)(char[3])>::In (&)[2][N+1]")) by (apply grouped_sound; vm_compute; reflexivity).
  split; [exact H|exact (@parse_ends false _ H)].
Defined.
(** A [']'] with no ['['] reads itself again for ever. *)
Example bracket_unread fuel : let T : Target := false in parse_fuel fuel (B "a]") = No_fuel.
Proof.
  cbv zeta. induction fuel as [|k IH]; [done|].
  transitivity (pbind (@parse_fuel false k (B "a]")) (fun t => Parsed (set_decos t (decos t)))); [|by rewrite IH].
  done.
Qed.
