(* ===== verification/Mangle.v ===== *)
(** The Itanium name mangler of [src/src/madc_mangle.cpp]: the encoder with its
    substitution table, the entry points over it, the flavor state with the memo of
    encoded types, and the decoder of function names.

    The trees it writes are those of [MangleType]. *)
From S2P Require Import Prelude Numbers MacroCalls Spelling MangleType.
#[local] Open Scope nat_scope.

(** ** Substitution references *)

(** Base 36, the digits of a value that is not zero. *)
Definition digit36 (v : nat) : ascii := if v <? 10 then to_byte (48 + Z.of_nat v) else to_byte (55 + Z.of_nat v).
Fixpoint base36 (fuel v : nat) (acc : bytes) : bytes :=
  match fuel with O => acc | S k => if v =? 0 then acc else base36 k (v / 36) (digit36 (v mod 36) :: acc) end.
Definition numbered (c : ascii) (n : nat) : bytes :=
  match n with
  | O => [c; "_"%char]
  | S v => c :: (if v =? 0 then B "0" else base36 (S v) v []) ++ B "_"
  end.
Definition subref (n : nat) : bytes := numbered "S" n.
Definition tparam_ref (n : Z) : bytes := numbered "T" (Z.to_nat n).

(** The candidates, as canonical keys in order, and whether a tree was refused. *)
Record mangler := Mangler { keys_ : list bytes; refused_ : bool }.
Definition new_mangler : mangler := Mangler [] false.
Fixpoint key_index (k : bytes) (l : list bytes) : option nat :=
  match l with [] => None | x :: r => if bytes_eqb x k then Some 0 else match key_index k r with Some i => Some (S i) | None => None end end.
Definition find_sub (m : mangler) (k : bytes) : option bytes := match key_index k (keys_ m) with Some i => Some (subref i) | None => None end.
Definition add_sub (m : mangler) (k : bytes) : mangler :=
  match key_index k (keys_ m) with Some _ => m | None => Mangler (keys_ m ++ [k]) (refused_ m) end.
Definition settled (r : bytes * mangler) : bytes := if refused_ r.2 then [] else r.1.

(** ** Canonical keys *)

Definition canon_component {A} (f : A -> bytes) (c : name_component A) : bytes :=
  ident c ++ match targs c with None => [] | Some l => B "<" ++ join (B ",") (map f l) ++ B ">" end.
Fixpoint canon_type (t : TypeNode) : bytes :=
  match t with
  | Builtin d c => concat d ++ B "#" ++ c
  | Tparam d n => concat d ++ B "$T" ++ to_string n
  | Funcptr d r ps => concat d ++ B "F" ++ canon_type r ++ concat (map canon_type ps) ++ B "E"
  | Named d name _ => concat d ++ join (B "::") (map (canon_component canon_type) name)
  end.
Definition canon_type_core (t : TypeNode) : bytes := canon_type (set_decos t []).

(** ** Standard abbreviations *)

Definition std_abbrev (scoped : bytes) : bytes :=
  lookup_code scoped (rows_of [("std", "St"); ("std::allocator", "Sa"); ("std::basic_string", "Sb")]%string).
Definition std_complete_abbrev (scoped : bytes) (args : list TypeNode) : bytes :=
  match args with
  | [a; b] =>
      if bytes_eqb (canon_type a) (B "#c") && bytes_eqb (canon_type b) (B "std::char_traits<#c>") then
        lookup_code scoped (rows_of [("std::basic_istream", "Si"); ("std::basic_ostream", "So"); ("std::basic_iostream", "Sd")]%string)
      else []
  | [a; b; c] =>
      if bytes_eqb scoped (B "std::basic_string") && bytes_eqb (canon_type a) (B "#c") && bytes_eqb (canon_type b) (B "std::char_traits<#c>") &&
         bytes_eqb (canon_type c) (B "std::allocator<#c>") then B "Ss" else []
  | _ => []
  end.

(** ** The encoder *)

Section Encode.
Context (encode : TypeNode -> mangler -> bytes * mangler).
Fixpoint encode_list (l : list TypeNode) (m : mangler) : bytes * mangler :=
  match l with
  | [] => ([], m)
  | t :: r => let '(x, m) := encode t m in let '(y, m) := encode_list r m in (x ++ y, m)
  end.
(** The state of [encode_name]'s loop, and the canonical and argument-free
    spellings of the components before. *)
Record name_state := Name_state { n_canon : bytes; n_scoped : bytes; n_first : bool; encoded : bytes; srcNameCount : nat; refPrefixed : bool; bareRef : bool }.
Definition after_name (first : bool) (pre s : bytes) : bytes := if first then s else pre ++ B "::" ++ s.
Definition encode_component (c : name_component TypeNode) (s : name_state) (m : mangler) : name_state * mangler :=
  let scoped := after_name (n_first s) (n_scoped s) (ident c) in
  let canon := after_name (n_first s) (n_canon s) (canon_component canon_type c) in
  let next := Name_state canon scoped false in
  match targs c with
  | None =>
      match find_sub m canon with
      | Some r => (next r (srcNameCount s) false true, m)
      | None =>
          let abbr := std_abbrev scoped in
          if negb (is_nil abbr) then (next abbr (srcNameCount s) (refPrefixed s) false, m)
          else (next (encoded s ++ component_source_name (ident c)) (S (srcNameCount s)) (refPrefixed s || bareRef s) false, add_sub m canon)
      end
  | Some l =>
      let whole := std_complete_abbrev scoped l in
      if negb (is_nil whole) then (next whole (srcNameCount s) false false, m)
      else
        let '(tprefix, is_ref, n, rp, br, m) :=
          match find_sub m scoped with
          | Some r => (r, true, srcNameCount s, refPrefixed s, bareRef s, m)
          | None =>
              let abbr := std_abbrev scoped in
              if negb (is_nil abbr) then (abbr, false, srcNameCount s, refPrefixed s, bareRef s, m)
              else (encoded s ++ component_source_name (ident c), false, S (srcNameCount s), refPrefixed s || bareRef s, false, add_sub m scoped)
          end in
        let '(args, m) := encode_list l m in
        match find_sub m canon with
        | Some r => (next r n false true, m)
        | None => (next (tprefix ++ B "I" ++ args ++ B "E") n (rp || is_ref) false, add_sub m canon)
        end
  end.
Fixpoint encode_chain (chain : list (name_component TypeNode)) (s : name_state) (m : mangler) : name_state * mangler :=
  match chain with [] => (s, m) | c :: r => let '(s, m) := encode_component c s m in encode_chain r s m end.
Definition encode_name_with (chain : list (name_component TypeNode)) (standalone : bool) (m : mangler) : bytes * mangler :=
  let '(s, m) := encode_chain chain (Name_state [] [] true [] 0 false false) m in
  (if standalone && ((2 <=? srcNameCount s) || refPrefixed s) then B "N" ++ encoded s ++ B "E" else encoded s, m).
End Encode.
(** The decorations, innermost first: each layer is a candidate. *)
Fixpoint decorate (ds : list bytes) (canon enc : bytes) (m : mangler) : bytes * mangler :=
  match ds with
  | [] => (enc, m)
  | d :: r =>
      let canon := d ++ canon in
      match find_sub m canon with
      | Some ref => decorate r canon ref m
      | None => decorate r canon (d ++ enc) (add_sub m canon)
      end
  end.
Fixpoint encode_type (t : TypeNode) (m : mangler) : bytes * mangler :=
  let canon := canon_type_core t in
  let '(enc, m) :=
    match t with
    | Tparam _ n => match find_sub m canon with Some r => (r, m) | None => (tparam_ref n, add_sub m canon) end
    | Funcptr _ r ps =>
        match find_sub m canon with
        | Some ref => (ref, m)
        | None =>
            let '(x, m) := encode_type r m in
            let '(y, m) := if is_nil ps then (B "v", m) else encode_list encode_type ps m in
            (B "F" ++ x ++ y ++ B "E", add_sub m canon)
        end
    | Builtin _ c => (c, m)
    | Named _ name invalid => encode_name_with encode_type name true (if invalid then Mangler (keys_ m) true else m)
    end in
  decorate (rev (decos t)) canon enc m.
Definition encode_name := encode_name_with encode_type.

(** ** Symbols *)

(** The flavor of the standard library and the inline namespace of its ABI. *)
Inductive MangleStdlib := mstdlibGnu | mstdlibLlvm.
#[export] Instance MangleStdlib_eq : EqDecision MangleStdlib.
Proof. solve_decision. Defined.
Record flavor := Flavor { g_std_stdlib : MangleStdlib; g_std_abi_ns : bytes; g_std_abi_gen : Z }.
Definition build_flavor : flavor := Flavor mstdlibGnu (B "__cxx11") 0.
Definition std_entity_inline_ns (f : flavor) : bytes := match g_std_stdlib f with mstdlibLlvm => g_std_abi_ns f | mstdlibGnu => [] end.
Definition std_entity_scope (f : flavor) (m : mangler) : bytes * bool * mangler :=
  let ins := std_entity_inline_ns f in
  if is_nil ins then (B "St", false, m) else (B "St" ++ source_name ins, true, add_sub m (B "std::" ++ ins)).

Section Symbols.
Context `{!Target}.
(** An operation over the mangler that may meet an exception. *)
Definition mangling (A : Type) := mangler -> parsed (A * mangler).
Definition mbind {A C} (x : mangling A) (f : A -> mangling C) : mangling C := fun m => pbind (x m) (fun '(a, m) => f a m).
Definition mret {A} (a : A) : mangling A := fun m => Parsed (a, m).
Definition read_tree (parse : bytes -> parsed TypeNode) (t : bytes) : mangling bytes := fun m => pbind (parse t) (fun x => Parsed (encode_type x m)).
Fixpoint read_trees (parse : bytes -> parsed TypeNode) (l : list bytes) : mangling bytes :=
  match l with [] => mret [] | t :: r => mbind (read_tree parse t) (fun x => mbind (read_trees parse r) (fun y => mret (x ++ y))) end.
Definition params_enc (params : list bytes) : mangling bytes := if is_nil params then mret (B "v") else read_trees parse_param_type params.
(** A qualified class or a list of qualifiers as a prefix. *)
Definition name_of (t : TypeNode) : list (name_component TypeNode) := match t with Named _ n _ => n | _ => [] end.
Definition prefix_enc (chain : list (name_component TypeNode)) : mangling bytes := fun m => Parsed (encode_name chain false m).
Definition qualifiers_enc (qs : list bytes) : mangling bytes := fun m => pbind (pmap parse_component qs) (fun l => prefix_enc l m).
Definition member_prefix (qualified_class : bytes) (method_cv : Z) : mangling bytes := fun _ =>
  pbind (parse_type qualified_class) (fun cls => mbind (prefix_enc (name_of cls)) (fun p => mret (B "_ZN" ++ cv_deco method_cv ++ p)) new_mangler).
Definition mangle_member (qualified_class unqualified special : bytes) (params : list bytes) (method_cv : Z) : mangling bytes :=
  mbind (member_prefix qualified_class method_cv) (fun out => mbind (params_enc params) (fun ps =>
  mret (out ++ (if is_nil special then source_name unqualified else special) ++ B "E" ++ ps))).
Definition mangle_conversion (qualified_class target_type : bytes) (method_cv : Z) : mangling bytes :=
  mbind (member_prefix qualified_class method_cv) (fun out => mbind (read_tree parse_type target_type) (fun t => mret (out ++ B "cv" ++ t ++ B "Ev"))).
Definition add_key (k : bytes) : mangling unit := fun m => Parsed (tt, add_sub m k).
Definition mangle_member_template (qualified_class unqualified : bytes) (targs : list bytes) (ret : bytes) (params : list bytes) (method_cv : Z) : mangling bytes :=
  mbind (member_prefix qualified_class method_cv) (fun out =>
  mbind (add_key (B "@member-template:" ++ qualified_class ++ B "::" ++ unqualified)) (fun _ =>
  mbind (read_trees parse_type targs) (fun ta => mbind (read_tree parse_type ret) (fun r => mbind (params_enc params) (fun ps =>
  mret (out ++ source_name unqualified ++ B "I" ++ ta ++ B "EE" ++ r ++ ps)))))).
Definition function_template_tail (scope : bytes) (nested : bool) (opOrName : bytes) (targs : list bytes) (ret : bytes) (params : list bytes) : mangling bytes :=
  mbind (add_key (B "@fn:" ++ opOrName)) (fun _ =>
  mbind (read_trees parse_type targs) (fun ta => mbind (read_tree parse_type ret) (fun r => mbind (params_enc params) (fun ps =>
  mret ((if nested then B "_ZN" else B "_Z") ++ scope ++ opOrName ++ B "I" ++ ta ++ B "E" ++ (if nested then B "E" else []) ++ r ++ ps))))).
(** Each entry point starts a fresh table. *)
Definition fresh {A} (x : mangling A) : mangling A := fun _ => x new_mangler.
Definition mangle_std_free_template (f : flavor) (opOrName : bytes) (targs : list bytes) (ret : bytes) (params : list bytes) : mangling bytes := fresh (fun m =>
  let '(scope, nested, m) := std_entity_scope f m in function_template_tail scope nested opOrName targs ret params m).
Definition only_std (qs : list bytes) : bool := match qs with [q] => bytes_eqb q (B "std") | _ => false end.
Definition mangle_function_template (qs : list bytes) (opOrName : bytes) (targs : list bytes) (ret : bytes) (params : list bytes) : mangling bytes := fresh (
  if is_nil qs then function_template_tail [] false opOrName targs ret params
  else if only_std qs then function_template_tail (B "St") false opOrName targs ret params
  else mbind (qualifiers_enc qs) (fun scope => function_template_tail scope true opOrName targs ret params)).
Definition mangle_std_var (f : flavor) (name : bytes) : mangling bytes := fresh (fun m =>
  let '(scope, nested, m) := std_entity_scope f m in
  Parsed ((if nested then B "_ZN" else B "_Z") ++ scope ++ source_name name ++ (if nested then B "E" else []), m)).
(** The operator code of a name spelled [operator...]. *)
Definition opcode_of (name : bytes) (params : list bytes) : bytes :=
  if starts_with name (B "operator") then operator_code (drop 8 name) (length params =? 1) else [].
Definition unqualified_name (name : bytes) (params : list bytes) (internal_linkage : bool) : bytes :=
  let op := opcode_of name params in
  if negb (is_nil op) then op else if internal_linkage then B "L" ++ source_name name else source_name name.
Definition mangle_nested_function (qs : list bytes) (name : bytes) (params : list bytes) (internal_linkage : bool) : mangling bytes := fresh (
  let uname := unqualified_name name params internal_linkage in
  if is_nil qs then mbind (params_enc params) (fun ps => mret (B "_Z" ++ uname ++ ps))
  else if only_std qs then mbind (params_enc params) (fun ps => mret (B "_ZSt" ++ uname ++ ps))
  else mbind (qualifiers_enc qs) (fun scope => mbind (params_enc params) (fun ps => mret (B "_ZN" ++ scope ++ uname ++ B "E" ++ ps)))).
Definition mangle_nested_variable (qs : list bytes) (name : bytes) : mangling bytes := fresh (fun m =>
  pbind (pmap parse_component (qs ++ [name])) (fun chain => let '(x, m) := encode_name chain true m in Parsed (B "_Z" ++ x, m))).

(** The symbol, empty where a tree was refused. *)
Definition symbol (x : mangling bytes) : parsed bytes := pbind (x new_mangler) (fun r => Parsed (settled r)).
Definition encode_spelling (t : bytes) : parsed bytes := symbol (read_tree parse_type t).
Definition itanium_mangle_member_sub (cls member : bytes) (params : list bytes) (cv : Z) : parsed bytes := symbol (mangle_member cls member [] params cv).
Definition itanium_mangle_member_template_sub (cls member : bytes) (ta : list bytes) (ret : bytes) (params : list bytes) (cv : Z) : parsed bytes :=
  symbol (mangle_member_template cls member ta ret params cv).
Definition itanium_mangle_ctor_sub (cls : bytes) (params : list bytes) (fl : bytes) : parsed bytes := symbol (mangle_member cls [] fl params 0).
Definition itanium_mangle_dtor_sub (cls fl : bytes) : parsed bytes := symbol (mangle_member cls [] fl [] 0).
Definition itanium_mangle_operator_sub (cls op : bytes) (params : list bytes) (cv : Z) : parsed bytes :=
  let c := operator_code op (is_nil params) in if is_nil c then Parsed [] else symbol (mangle_member cls [] c params cv).
Definition itanium_mangle_conversion_sub (cls target : bytes) (cv : Z) : parsed bytes := symbol (mangle_conversion cls target cv).
Definition itanium_mangle_std_free_template (f : flavor) (name : bytes) (ta : list bytes) (ret : bytes) (params : list bytes) : parsed bytes :=
  let c := operator_code name (length params =? 1) in symbol (mangle_std_free_template f (if is_nil c then source_name name else c) ta ret params).
Definition itanium_mangle_function_template_sub (qs : list bytes) (name : bytes) (ta : list bytes) (ret : bytes) (params : list bytes) : parsed bytes :=
  let c := opcode_of name params in symbol (mangle_function_template qs (if is_nil c then source_name name else c) ta ret params).
Definition itanium_mangle_nested_sub (qs : list bytes) (name : bytes) (params : list bytes) (internal_linkage : bool) : parsed bytes :=
  symbol (mangle_nested_function qs name params internal_linkage).
Definition itanium_mangle_nested_var (qs : list bytes) (name : bytes) : parsed bytes := symbol (mangle_nested_variable qs name).
Definition itanium_mangle_std_var (f : flavor) (name : bytes) : parsed bytes := symbol (mangle_std_var f name).
End Symbols.

Example symbols_ex :
  let T : Target := false in
  let str := B "std::__cxx11::basic_string<char,std::char_traits<char>,std::allocator<char>>" in
  let p x := match x with Parsed s => string_of_list_ascii s | _ => "?"%string end in
  map p [itanium_mangle_nested_sub [B "ui"] (B "post_event") [B "void*"; B "const char*"; B "const char*"] false;
         itanium_mangle_member_sub str (B "size") [] 1;
         itanium_mangle_operator_sub (B "Foo") (B "-") [B "const Foo&"] 1;
         itanium_mangle_nested_sub [] (B "f") [B "int (*)[3]"; B "volatile int* volatile*"; B "const size_t"; B "void (*)(int, char)"] true;
         itanium_mangle_nested_sub [] (B "f") [B "Box<int>"; B "Box<int>::In"; B "P[abi:v2]"; B "a b"] false;
         itanium_mangle_function_template_sub [B "ns"] (B "nident") [B "int"] (B "$T0") [B "$T0"];
         itanium_mangle_conversion_sub (B "Foo") (B "const Foo&") 0;
         itanium_mangle_nested_var [B "a"; B "b"] (B "x");
         itanium_mangle_std_free_template (Flavor mstdlibLlvm (B "__1") 1) (B "+") [B "char"] (B "$T0") [B "const $T0*"; B "int"];
         itanium_mangle_std_var build_flavor (B "cout")] =
  ["_ZN2ui10post_eventEPvPKcS2_"; "_ZNKSt7__cxx1112basic_stringIcSt11char_traitsIcESaIcEE4sizeEv"; "_ZNK3FoomiERKS_";
   "_ZL1fPA3_iPVPVimPFvicE"; ""; "_ZN2ns6nidentIiEET_S1_"; "_ZN3FoocvRKS_Ev"; "_ZN1a1b1xE"; "_ZNSt3__1plIcEET_PKS1_i"; "_ZSt4cout"]%string.
Proof. vm_compute. reflexivity. Qed.
(** Six symbols the ABI spells otherwise, as the comment behind each shows. *)
Definition f_of (params : list string) : string :=
  let T : Target := false in
  match itanium_mangle_nested_sub [] (B "f") (map B params) false with Parsed s => string_of_list_ascii s | _ => "?"%string end.
(** Another specialization of a template of one source name keeps the [N..E]. *)
Example template_again : f_of ["Box<int>"; "Box<char>"]%string = "_Z1f3BoxIiENS_IcEE"%string. (* _Z1f3BoxIiES_IcE *)
Proof. vm_compute. reflexivity. Qed.
(** The keys of [A*] and of a class [PA] are one, and those of [A(B)] and [AB()]. *)
Example pointer_and_class : f_of ["A*"; "PA"]%string = "_Z1fP1AS0_"%string. (* _Z1fP1A2PA *)
Proof. vm_compute. reflexivity. Qed.
Example two_functions : f_of ["A (*)(B)"; "AB (*)()"]%string = "_Z1fPF1A1BES2_"%string. (* _Z1fPF1A1BEPF2ABvE *)
Proof. vm_compute. reflexivity. Qed.
(** A function pointer among template arguments is taken for the whole type. *)
Example function_argument : f_of ["Box<int (*)(char)>"]%string = "_Z1fPF3BoxcE"%string. (* _Z1f3BoxIPFicEE *)
Proof. vm_compute. reflexivity. Qed.
(** A name inside a class with an abbreviation has no [N..E]. *)
Example nested_in_allocator : f_of ["std::allocator<int>::V"]%string = "_Z1fSaIiE1V"%string. (* _Z1fNSaIiE1VE *)
Proof. vm_compute. reflexivity. Qed.
(** The prefix of a member template is looked up without the arguments of its class. *)
Example member_template : f_of ["A<int>::B<char>"; "A<char>::B<char>"]%string = "_Z1fN1AIiE1BIcEENS1_IcEE"%string. (* ...ENS_IcE1BIcEE *)
Proof. vm_compute. reflexivity. Qed.
