(* ===== verification/MangleNames.v ===== *)
(** Around the encoder of [Mangle], all of [src/src/madc_mangle.cpp]: the symbols of
    type information, the flavor of the standard library and the memo of encoded
    types, the spellings of its types, template parameters in a spelling, and the
    decoder of function names.

    [memo_transparent]: the memo never changes an answer.  [function_names_read_back]:
    the decoder reads the scope and name of what the encoder wrote. *)
From S2P Require Import Prelude Numbers MacroCalls Spelling MangleType Mangle.
#[local] Open Scope nat_scope.

(** ** Flavors *)

Definition next_gen (f : flavor) (lib : MangleStdlib) (ns : bytes) : flavor := Flavor lib ns (u32 (g_std_abi_gen f + 1)).
Definition set_flavor (f : flavor) (lib : MangleStdlib) (ns : bytes) : flavor :=
  if bool_decide (g_std_stdlib f = lib) && bytes_eqb (g_std_abi_ns f) ns then f else next_gen f lib ns.
Definition madc_mangle_set_stdlib_gnu (cxx11_abi : bool) (f : flavor) : flavor := set_flavor f mstdlibGnu (if cxx11_abi then B "__cxx11" else []).
Definition madc_mangle_set_stdlib_llvm (abi_ns : bytes) (f : flavor) : flavor := set_flavor f mstdlibLlvm abi_ns.
(** [MangleHostFlavorScope]: the host build's flavor for a while. *)
Definition enter_host (f : flavor) : flavor * flavor := (f, madc_mangle_set_stdlib_gnu true f).
Definition leave_host (saved f : flavor) : flavor :=
  match g_std_stdlib saved with
  | mstdlibLlvm => madc_mangle_set_stdlib_llvm (g_std_abi_ns saved) f
  | mstdlibGnu => madc_mangle_set_stdlib_gnu (bytes_eqb (g_std_abi_ns saved) (B "__cxx11")) f
  end.
Definition std_prefix_tagged (f : flavor) : bytes := if is_nil (g_std_abi_ns f) then B "std::" else B "std::" ++ g_std_abi_ns f ++ B "::".
Definition std_prefix_untagged (f : flavor) : bytes := match g_std_stdlib f with mstdlibLlvm => std_prefix_tagged f | mstdlibGnu => B "std::" end.
Definition char_template (f : flavor) (name : string) : bytes :=
  std_prefix_tagged f ++ B name ++ B "<char," ++ std_prefix_untagged f ++ B "char_traits<char>," ++ std_prefix_untagged f ++ B "allocator<char>>".
Definition std_string_type (f : flavor) : bytes := char_template f "basic_string".
Definition std_stringstream_type (f : flavor) : bytes := char_template f "basic_stringstream".
Definition std_vector_type (f : flavor) (elem : bytes) : bytes :=
  let ns := std_prefix_untagged f in ns ++ B "vector<" ++ elem ++ B "," ++ ns ++ B "allocator<" ++ elem ++ B ">>".
Definition std_map_type (f : flavor) (key val : bytes) : bytes :=
  let ns := std_prefix_untagged f in
  ns ++ B "map<" ++ key ++ B "," ++ val ++ B "," ++ ns ++ B "less<" ++ key ++ B ">," ++ ns ++ B "allocator<" ++ ns ++ B "pair<const " ++ key ++
    B "," ++ val ++ B ">>>".
Definition std_set_type (f : flavor) (elem : bytes) : bytes :=
  let ns := std_prefix_untagged f in
  ns ++ B "set<" ++ elem ++ B "," ++ ns ++ B "less<" ++ elem ++ B ">," ++ ns ++ B "allocator<" ++ elem ++ B ">>".
Definition is_std_initializer_list (f : flavor) (spelling : bytes) : bool :=
  negb (is_nil spelling) && (starts_with spelling (B "std::initializer_list<") || starts_with spelling (std_prefix_tagged f ++ B "initializer_list<")).

(** The scalars with a spelling of their own on the target. *)
Inductive DataType := dtBOOL | dtUINT8 | dtINT16 | dtUINT16 | dtINT32 | dtUINT32 | dtINT64 | dtUINT64 | dtFLOAT | dtDOUBLE | dtLDOUBLE | dtOther.
Definition target_scalar_spelling `{!Target} (d : DataType) : bytes :=
  B match d with
    | dtBOOL => "bool" | dtUINT8 => "unsigned char" | dtINT16 => "short" | dtUINT16 => "unsigned short" | dtINT32 => "int" | dtUINT32 => "unsigned int"
    | dtINT64 => if target_llp64 then "long long" else "long"
    | dtUINT64 => if target_llp64 then "unsigned long long" else "unsigned long"
    | dtFLOAT => "float" | dtDOUBLE => "double" | dtLDOUBLE => "long double" | dtOther => "" end%string.

(** Template-parameter names, whole identifiers, become [$T] and their index. *)
Fixpoint index_of (w : bytes) (l : list bytes) (i : Z) : option Z :=
  match l with [] => None | x :: r => if bytes_eqb x w then Some i else index_of w r (i + 1) end.
Definition word_head (c : ascii) : bool := isalpha c || byte_eqb c "_"%char.
Definition subst_word (tparams : list bytes) (w : bytes) : bytes := match index_of w tparams 0 with Some k => B "$T" ++ to_string k | None => w end.
Fixpoint subst_from (tparams : list bytes) (word : bytes) (s : bytes) : bytes :=
  match s with
  | [] => if is_nil word then [] else subst_word tparams word
  | c :: r =>
      if is_nil word then (if word_head c then subst_from tparams [c] r else c :: subst_from tparams [] r)
      else if name_char c then subst_from tparams (word ++ [c]) r
      else subst_word tparams word ++ c :: subst_from tparams [] r
  end.
Definition itanium_substitute_tparams (spell : bytes) (tparams : list bytes) : bytes := subst_from tparams [] spell.

(** Symbols of type information. *)
Definition itanium_typeinfo_sym (name : bytes) : bytes := B "_ZTI" ++ source_name name.
Definition itanium_typeinfo_name_sym (name : bytes) : bytes := B "_ZTS" ++ source_name name.
Definition itanium_typeinfo_name_string (name : bytes) : bytes := source_name name.
Definition prefixed `{!Target} (p : string) (t : bytes) : parsed bytes := pbind (encode_spelling t) (fun e => Parsed (B p ++ e)).
Definition itanium_vtable_sym_cpp `{!Target} (t : bytes) : parsed bytes := prefixed "_ZTV" t.
Definition itanium_typeinfo_sym_cpp `{!Target} (t : bytes) : parsed bytes := prefixed "_ZTI" t.
Definition itanium_typeinfo_name_sym_cpp `{!Target} (t : bytes) : parsed bytes := prefixed "_ZTS" t.

(** ** The memo *)

(** The process: the flavor, the data model, and what the encoder remembers with
    the generation and the model it was computed under. *)
Record process := Process { flv : flavor; model : bool; memo_gen : Z; memo_model : bool; memo : list (bytes * bytes) }.
Definition start : process := Process build_flavor false (2 ^ 32 - 1) false [].
Fixpoint memo_find (k : bytes) (l : list (bytes * bytes)) : option bytes :=
  match l with [] => None | (x, v) :: r => if bytes_eqb x k then Some v else memo_find k r end.
Definition itanium_encode_type_sub (t : bytes) (p : process) : parsed (bytes * process) :=
  let p :=
    if negb (memo_gen p =? g_std_abi_gen (flv p))%Z || negb (Bool.eqb (memo_model p) (model p))
    then Process (flv p) (model p) (g_std_abi_gen (flv p)) (model p) [] else p in
  match memo_find t (memo p) with
  | Some e => Parsed (e, p)
  | None => pbind (@encode_spelling (model p) t) (fun e => Parsed (e, Process (flv p) (model p) (memo_gen p) (memo_model p) ((t, e) :: memo p)))
  end.

Inductive memo_step : process -> process -> Prop :=
  | step_gnu b p : memo_step p (Process (madc_mangle_set_stdlib_gnu b (flv p)) (model p) (memo_gen p) (memo_model p) (memo p))
  | step_llvm ns p : memo_step p (Process (madc_mangle_set_stdlib_llvm ns (flv p)) (model p) (memo_gen p) (memo_model p) (memo p))
  | step_model b p : memo_step p (Process (flv p) b (memo_gen p) (memo_model p) (memo p))
  | step_encode t e p p' : itanium_encode_type_sub t p = Parsed (e, p') -> memo_step p p'.

(** ** The decoder of function names *)

Definition ops : list bytes :=
  map B ["==="; "!=="; "=="; "!="; "<"; ">"; "<="; ">="; "<=>"; "+"; "-"; "*"; "/"; "%"; "="; "+="; "-="; "*="; "/="; "%="; "&="; "|=";
    "^="; "<<="; ">>="; "<<"; ">>"; "[]"; "()"; "++"; "--"; "!"; "~"; "&"; "|"; "^"; "&&"; "||"; ","; "->"; "->*"; "new"; "new[]";
    "delete"; "delete[]"]%string.
Fixpoint op_of_code (c : bytes) (l : list bytes) : option bytes :=
  match l with
  | [] => None
  | op :: r => if bytes_eqb (operator_code op false) c || bytes_eqb (operator_code op true) c then Some op else op_of_code c r
  end.
Fixpoint read_len (acc : Z) (s : bytes) : Z * bytes :=
  match s with c :: r => if isdigit c then read_len (u64 (acc * 10 + (code c - 48))) r else (acc, s) | [] => (acc, []) end.
(** One unqualified name: the name, whether an operator's, the rest. *)
Definition skip_internal (s : bytes) : bytes :=
  match s with c :: ((d :: _) as r) => if byte_eqb c "L"%char && isdigit d then r else s | _ => s end.
Definition unqualified (s : bytes) : option (bytes * bool * bytes) :=
  let s := skip_internal s in
  match s with
  | c :: _ =>
      if isdigit c then
        let '(len, r) := read_len 0 s in
        if (len =? 0)%Z || (Z.of_nat (length r) <? len)%Z then None else Some (take (Z.to_nat len) r, false, drop (Z.to_nat len) r)
      else
        match s with
        | a :: b :: r => match op_of_code [a; b] ops with Some op => Some (B "operator" ++ op, true, r) | None => None end
        | _ => None
        end
  | [] => None
  end.
(** The parts up to the [E]. *)
Fixpoint nested_parts (fuel : nat) (is_operator : bool) (s : bytes) : option (list bytes) :=
  match fuel, s with
  | S k, c :: _ =>
      if byte_eqb c "E"%char then Some []
      else if is_operator then None
      else match unqualified s with
           | Some (part, op, r) => match nested_parts k op r with Some l => Some (part :: l) | None => None end
           | None => None
           end
  | _, _ => None
  end.
(** The scope and the name. *)
Definition itanium_function_name (sym : bytes) : option (bytes * bytes) :=
  if starts_with sym (B "_Z") then
    let p := drop 2 sym in
    let p := if starts_with p (B "L") then drop 1 p else p in
    let parts :=
      if starts_with p (B "N") then
        match nested_parts (length p) false (drop 1 p) with Some l => if length l <? 2 then None else Some l | None => None end
      else match unqualified p with Some (part, _, _) => Some [part] | None => None end in
    match parts with Some l => Some (join (B "::") (removelast l), List.last l []) | None => None end
  else None.

Example mangled_names_ex :
  map (fun s => itanium_function_name (B s)) ["_ZN2ui10post_eventEPvPKcS2_"; "_ZN4madclsERSoRKNS_5valueE"; "_Z5totalN4madc5valueE"; "_ZL4s_fni"; "_ZN3FooC1Ev"; "_ZNK3FoomiERKS_"]%string =
  [Some (B "ui", B "post_event"); Some (B "madc", B "operator<<"); Some ([], B "total"); Some ([], B "s_fn"); None; None].
Proof. vm_compute. reflexivity. Qed.

(** ** The memo is transparent *)

Definition memo_sound (p : process) : Prop := forall k v, (k, v) ∈ memo p -> @encode_spelling (memo_model p) k = Parsed v.
Lemma memo_find_in k l v : memo_find k l = Some v -> (k, v) ∈ l.
Proof.
  induction l as [|[x y] l IH]; [done|]. cbn [memo_find]. destruct (bytes_eqb x k) eqn:E; [|intros H; right; by apply IH].
  apply bytes_eqb_eq in E as ->. intros [= ->]. left.
Qed.
Lemma encode_type_sub_spec t p : memo_sound p ->
  match itanium_encode_type_sub t p with
  | Parsed (e, p') => @encode_spelling (model p) t = Parsed e /\ memo_sound p'
  | Throws => @encode_spelling (model p) t = Throws
  | No_fuel => @encode_spelling (model p) t = No_fuel
  end.
Proof.
  intros Hp. unfold itanium_encode_type_sub. set (q := if (_ : bool) then _ else p).
  assert (Hq : memo_sound q /\ memo_model q = model p /\ model q = model p).
  { unfold q. destruct (negb _ || negb _) eqn:E; [split_and!; [intros k v Hk; by apply not_elem_of_nil in Hk|done|done]|].
    apply orb_false_iff in E as [_ E]. apply negb_false_iff, Bool.eqb_prop in E. done. }
  clearbody q. destruct Hq as (Hq & E1 & E2). destruct (memo_find t (memo q)) as [e|] eqn:Ef.
  - apply memo_find_in, Hq in Ef. rewrite E1 in Ef. done.
  - rewrite E2. destruct (encode_spelling t) as [e| |] eqn:Ee; cbn [pbind]; [|done..]. split; [done|].
    intros k v [[= -> ->]|Hk]%elem_of_cons; [cbn [memo_model]; by rewrite E1|by apply Hq].
Qed.

Lemma memo_reached p0 p : rtc memo_step p0 p -> memo_sound p0 -> memo_sound p.
Proof.
  induction 1 as [|p0 p1 p2 Hs _ IH]; [done|]. intros H0. apply IH. destruct Hs as [b p|ns p|b p|t e p p' He]; try exact H0.
  pose proof (encode_type_sub_spec t p H0) as Hx. rewrite He in Hx. apply Hx.
Qed.

(** the memo never changes an answer: whatever was encoded before, and however
    often the library's flavor and the data model were switched in between, a
    spelling encodes to what the encoder gives under the model of now. *)
Theorem memo_transparent p t :
  rtc memo_step start p ->
  match itanium_encode_type_sub t p with
  | Parsed (e, _) => @encode_spelling (model p) t = Parsed e
  | Throws => @encode_spelling (model p) t = Throws
  | No_fuel => @encode_spelling (model p) t = No_fuel
  end.
Proof.
  intros Hp. pose proof (memo_reached start p Hp ltac:(intros k v Hk; by apply not_elem_of_nil in Hk)) as H.
  pose proof (encode_type_sub_spec t p H) as Hx. destruct (itanium_encode_type_sub t p) as [[e p']| |]; [exact (proj1 Hx)|exact Hx|exact Hx].
Qed.

(** ** Names are read back *)

Definition plain_ident (w : bytes) : Prop :=
  Forall (fun c => name_char c = true) w /\ match w with c :: _ => isdigit c = false | [] => False end /\ (Z.of_nat (length w) < 2 ^ 63)%Z.
(** The operators with a code of two letters. *)
Definition coded_op (op : bytes) : bool := existsb (bytes_eqb op) (drop 2 ops).

Lemma decimal_digits n : (Z.of_nat n < 2 ^ 63)%Z -> digits (decimal n) /\ decimal n <> [] /\ digits_value 0 (decimal n) = Z.of_nat n.
Proof.
  intros H. unfold decimal. destruct (digits_of_spec 20 (Z.of_nat n) [] ltac:(lia) ltac:(lia)) as (ds & -> & H1 & H2 & H3).
  by rewrite app_nil_r.
Qed.
Lemma read_len_digits ds r acc : digits ds -> match r with c :: _ => isdigit c = false | [] => True end ->
  (0 <= acc)%Z -> (digits_value acc ds < 2 ^ 64)%Z -> read_len acc (ds ++ r) = (digits_value acc ds, r).
Proof.
  intros H Hr. revert acc. induction H as [|c ds Hc Hds IH]; intros acc Ha Hv; cbn [app read_len digits_value] in *.
  - destruct r as [|d r]; [done|]. cbn [read_len]. by rewrite Hr.
  - rewrite Hc in *. assert (48 <= code c)%Z by (unfold isdigit, in_range in Hc; lia).
    pose proof (digits_value_mono ds (acc * 10 + (code c - 48))%Z Hds ltac:(lia)).
    unfold u64. rewrite Z.mod_small by lia. apply IH; [lia|done].
Qed.
Lemma decimal_head n : (Z.of_nat n < 2 ^ 63)%Z -> exists c r, decimal n = c :: r /\ isdigit c = true.
Proof. intros H. destruct (decimal_digits n H) as (H1 & H2 & _). destruct (decimal n) as [|c r]; [done|]. inversion H1. eauto. Qed.
Lemma skip_none s : match s with c :: _ => byte_eqb c "L"%char = false | [] => True end -> skip_internal s = s.
Proof. destruct s as [|c [|d r]]; [done|done|]. intros H. unfold skip_internal. by rewrite H. Qed.
Lemma source_name_read w r : plain_ident w -> unqualified (source_name w ++ r) = Some (w, false, r) /\ unqualified (B "L" ++ source_name w ++ r) = Some (w, false, r).
Proof.
  intros (Hw & Hh & Hl). destruct (decimal_digits (length w) Hl) as (H1 & H2 & H3). destruct (decimal_head (length w) Hl) as (c & ds & E & Hc).
  destruct w as [|x w]; [done|]. set (w' := x :: w) in *.
  assert (Hread : read_len 0 (source_name w' ++ r) = (Z.of_nat (length w'), w' ++ r)).
  { unfold source_name. rewrite <- app_assoc, <- H3. apply read_len_digits; [done|exact Hh|lia|rewrite H3; lia]. }
  assert (Hs : source_name w' ++ r = c :: (ds ++ w' ++ r)) by (unfold source_name; by rewrite E, <- app_assoc).
  assert (HcL : byte_eqb c "L"%char = false) by (apply byte_eqb_neq; by intros ->).
  assert (Hgoal : forall s, s = source_name w' ++ r ->
    match s with
    | c :: _ =>
      if isdigit c then
        let '(len, r) := read_len 0 s in
        if (len =? 0)%Z || (Z.of_nat (length r) <? len)%Z then None else Some (take (Z.to_nat len) r, false, drop (Z.to_nat len) r)
      else match s with a :: b :: r => match op_of_code [a; b] ops with Some op => Some (B "operator" ++ op, true, r) | None => None end | _ => None end
    | [] => None
    end = Some (w', false, r)).
  { intros s ->. rewrite Hread, Hs, Hc. cbn zeta. replace (Z.of_nat (length w') =? 0)%Z with false by (symmetry; apply Z.eqb_neq; unfold w'; cbn [length]; lia).
    replace (Z.of_nat (length (w' ++ r)) <? Z.of_nat (length w'))%Z with false by (symmetry; apply Z.ltb_ge; rewrite length_app; lia).
    cbn [orb]. rewrite Nat2Z.id, take_app_length, drop_app_length. done. }
  split.
  - unfold unqualified. rewrite skip_none; [by apply Hgoal|]. by rewrite Hs.
  - unfold unqualified. replace (skip_internal (B "L" ++ source_name w' ++ r)) with (source_name w' ++ r); [by apply Hgoal|].
    rewrite Hs. change (B "L" ++ c :: ds ++ w' ++ r) with ("L"%char :: c :: ds ++ w' ++ r). unfold skip_internal.
    change (byte_eqb "L" "L") with true. by rewrite Hc.
Qed.

(** *** Operators *)

Lemma op_read op u r : coded_op op = true ->
  exists a b, operator_code op u = [a; b] /\ byte_eqb a "L"%char = false /\ byte_eqb a "N"%char = false /\ byte_eqb a "E"%char = false /\
    unqualified (operator_code op u ++ r) = Some (B "operator" ++ op, true, r).
Proof.
  intros H. unfold coded_op in H. apply existsb_exists in H as (op' & Hin & E). apply bytes_eqb_eq in E. subst op'.
  assert (Hall : forallb (fun op => forallb (fun u => match operator_code op u with
    | [a; b] => negb (byte_eqb a "L"%char) && negb (byte_eqb a "N"%char) && negb (byte_eqb a "E"%char) && negb (isdigit a) &&
        match op_of_code [a; b] ops with Some op' => bytes_eqb op' op | None => false end
    | _ => false end) [true; false]) (drop 2 ops) = true) by (vm_compute; reflexivity).
  rewrite forallb_forall in Hall. specialize (Hall op Hin). rewrite forallb_forall in Hall. specialize (Hall u ltac:(destruct u; cbn; auto)).
  destruct (operator_code op u) as [|a [|b [|]]]; [done|done| |done]. exists a, b. split; [done|].
  apply andb_true_iff in Hall as [Hall Hop]. apply andb_true_iff in Hall as [Hall Hd]. apply andb_true_iff in Hall as [Hall HE].
  apply andb_true_iff in Hall as [HL HN]. apply negb_true_iff in HL, HN, HE, Hd. split_and!; [done..|].
  unfold unqualified. rewrite skip_none by done. cbn [app]. rewrite Hd.
  destruct (op_of_code [a; b] ops) as [op'|]; [|done]. apply bytes_eqb_eq in Hop. by subst.
Qed.

(** *** A chain of plain names *)

Definition plain_component (w : bytes) : name_component TypeNode := Component w None.
Lemma name_char_plain c : name_char c = true ->
  trim_blank c = false /\ byte_eqb c "<"%char = false /\ byte_eqb c ":"%char = false /\ byte_eqb c "]"%char = false /\ byte_eqb c "["%char = false.
Proof.
  intros H. assert (Hall : forallb (fun n => let c := to_byte (Z.of_nat n) in
    negb (name_char c) || (negb (trim_blank c) && negb (byte_eqb c "<"%char) && negb (byte_eqb c ":"%char) && negb (byte_eqb c "]"%char) && negb (byte_eqb c "["%char)))
    (seq 0 256) = true) by (vm_compute; reflexivity).
  rewrite forallb_forall in Hall. pose proof (code_range c) as Hr. specialize (Hall (Z.to_nat (code c)) ltac:(apply in_seq; lia)).
  cbv zeta in Hall. rewrite Z2Nat.id, to_byte_code in Hall by lia. rewrite H in Hall. cbn [negb orb] in Hall.
  repeat (apply andb_true_iff in Hall as [Hall ?]). apply negb_true_iff in Hall. repeat match goal with H : negb _ = true |- _ => apply negb_true_iff in H end.
  done.
Qed.
Lemma trim_plain w : Forall (fun c => name_char c = true) w -> spelling_trim w = w.
Proof.
  intros H. unfold spelling_trim. assert (Hf : trim_front w = w).
  { destruct H as [|c w Hc _]; [done|]. cbn [trim_front]. by rewrite (proj1 (name_char_plain c Hc)). }
  rewrite Hf. clear Hf. induction H as [|c w Hc _ IH]; [done|]. cbn [trim_back].
  by rewrite IH, (proj1 (name_char_plain c Hc)), andb_false_r.
Qed.
Lemma find_open_plain d pre w : Forall (fun c => name_char c = true) w -> find_open d pre w = None.
Proof.
  intros H. revert d pre. induction H as [|c w Hc _ IH]; intros d pre; [done|]. cbn [find_open]. cbv zeta.
  destruct (name_char_plain c Hc) as (_ & -> & _). apply IH.
Qed.
Lemma parse_plain `{!Target} w : Forall (fun c => name_char c = true) w -> parse_component w = Parsed (plain_component w).
Proof.
  intros Hw. unfold parse_component, parse_component_with, split_template_id_parts. rewrite trim_plain by done.
  rewrite find_open_plain by done. by rewrite trim_plain.
Qed.
Lemma parse_plains `{!Target} l : Forall plain_ident l -> pmap parse_component l = Parsed (map plain_component l).
Proof. induction 1 as [|w l (Hw & _) _ IH]; [done|]. cbn [pmap map]. rewrite parse_plain by done. cbn [pbind]. by rewrite IH. Qed.

(** The first component of a scoped name. *)
Fixpoint head_name (s : bytes) : bytes := match s with c :: r => if byte_eqb c ":"%char then [] else c :: head_name r | [] => [] end.
Lemma head_name_app w r : Forall (fun c => name_char c = true) w -> head_name (w ++ B "::" ++ r) = w.
Proof.
  induction 1 as [|c w Hc _ IH]; [done|]. cbn [app head_name]. destruct (name_char_plain c Hc) as (_ & _ & -> & _). by rewrite IH.
Qed.
Lemma head_name_plain w : Forall (fun c => name_char c = true) w -> head_name w = w.
Proof. induction 1 as [|c w Hc _ IH]; [done|]. cbn [head_name]. destruct (name_char_plain c Hc) as (_ & _ & -> & _). by rewrite IH. Qed.
Lemma no_abbrev s : head_name s <> B "std" -> std_abbrev s = [].
Proof.
  intros H. unfold std_abbrev, rows_of. cbn [map lookup_code fst snd].
  repeat (match goal with |- context [bytes_eqb s ?k] => destruct (bytes_eqb s k) eqn:E; [apply bytes_eqb_eq in E; subst s; exfalso; by apply H|clear E] end).
  done.
Qed.
Lemma key_index_none k l : Forall (fun x => length x < length k) l -> key_index k l = None.
Proof.
  induction 1 as [|x l Hx _ IH]; [done|]. cbn [key_index]. destruct (bytes_eqb x k) eqn:E; [apply bytes_eqb_eq in E; subst; lia|]. by rewrite IH.
Qed.
Lemma component_plain w : Forall (fun c => name_char c = true) w -> component_source_name w = source_name w.
Proof.
  intros H. unfold component_source_name, ends_with. destruct (Nat.leb_spec (length (B "]")) (length w)) as [Hl|]; [|done].
  cbn [andb]. destruct (bytes_eqb _ _) eqn:E; [|done]. apply bytes_eqb_eq in E. exfalso.
  apply (Forall_drop _ (length w - length (B "]"))) in H. rewrite E in H. inversion H as [|? ? Hc]. done.
Qed.
Lemma join_after_name ws w : join (B "::") (ws ++ [w]) = after_name (is_nil ws) (join (B "::") ws) w.
Proof.
  induction ws as [|x ws IH]; [done|]. destruct ws as [|y ws]; [done|].
  change (join (B "::") ((x :: y :: ws) ++ [w])) with (x ++ B "::" ++ join (B "::") ((y :: ws) ++ [w])). rewrite IH.
  cbn [is_nil after_name]. change (join (B "::") (x :: y :: ws)) with (x ++ B "::" ++ join (B "::") (y :: ws)). by rewrite <- !app_assoc.
Qed.
Lemma head_join w ws : Forall (fun c => name_char c = true) w -> head_name (join (B "::") (w :: ws)) = w.
Proof. intros H. destruct ws as [|x ws]; [by apply head_name_plain|]. by apply head_name_app. Qed.
Lemma find_none m k : Forall (fun x => length x < length k) (keys_ m) -> find_sub m k = None /\ add_sub m k = Mangler (keys_ m ++ [k]) (refused_ m).
Proof. intros H. unfold find_sub, add_sub. by rewrite key_index_none. Qed.
Lemma join_longer ws w : plain_ident w -> (ws <> [] -> length (join (B "::") ws) < length (join (B "::") (ws ++ [w]))) /\ 0 < length (join (B "::") (ws ++ [w])).
Proof.
  intros (_ & Hh & _). rewrite join_after_name. destruct w as [|c w]; [done|]. unfold after_name. destruct ws as [|x ws]; cbn [is_nil].
  - split; [done|cbn; lia].
  - rewrite !length_app. cbn [length]. lia.
Qed.
Lemma encode_plain_chain enc qs ws s m :
  Forall plain_ident (ws ++ qs) -> default [] (head (ws ++ qs)) <> B "std" ->
  n_canon s = join (B "::") ws -> n_scoped s = join (B "::") ws -> n_first s = is_nil ws ->
  Forall (fun k => ws <> [] /\ length k <= length (join (B "::") ws)) (keys_ m) ->
  encoded (encode_chain enc (map plain_component qs) s m).1 = encoded s ++ flat_map source_name qs /\
  refused_ (encode_chain enc (map plain_component qs) s m).2 = refused_ m.
Proof.
  revert ws s m. induction qs as [|w qs IH]; intros ws s m Hp Hstd H1 H2 H3 Hk; [cbn; by rewrite app_nil_r|].
  cbn [map encode_chain flat_map].
  assert (Hw : plain_ident w) by (apply Forall_app in Hp as [_ Hp]; by inversion Hp).
  destruct (join_longer ws w Hw) as [Hlong Hpos].
  assert (Hnone : Forall (fun x => length x < length (join (B "::") (ws ++ [w]))) (keys_ m)).
  { eapply Forall_impl; [exact Hk|]. intros k [Hn Hl]. specialize (Hlong Hn). lia. }
  destruct (find_none m _ Hnone) as [Hf Ha].
  assert (Habb : std_abbrev (join (B "::") (ws ++ [w])) = []).
  { apply no_abbrev. destruct ws as [|x ws]; cbn [app] in *.
    - apply Forall_cons_1 in Hp as [(Hx & _) _]. by rewrite head_join.
    - apply Forall_cons_1 in Hp as [(Hx & _) _]. by rewrite head_join. }
  assert (Hcanon : after_name (n_first s) (n_canon s) (canon_component canon_type (plain_component w)) = join (B "::") (ws ++ [w])).
  { rewrite join_after_name, H1, H3. unfold canon_component, plain_component. cbn [ident targs]. by rewrite app_nil_r. }
  unfold encode_component. cbn [plain_component targs ident]. fold (plain_component w). rewrite Hcanon, Hf.
  rewrite H2, H3, <- join_after_name, Habb. cbn [is_nil negb]. rewrite Ha, component_plain by apply Hw.
  destruct (IH (ws ++ [w]) (Name_state (join (B "::") (ws ++ [w])) (join (B "::") (ws ++ [w])) false (encoded s ++ source_name w) (S (srcNameCount s)) (refPrefixed s || bareRef s) false)
    (Mangler (keys_ m ++ [join (B "::") (ws ++ [w])]) (refused_ m))) as [E1 E2].
  - by rewrite <- app_assoc.
  - destruct ws; done.
  - done.
  - done.
  - by destruct ws.
  - cbn [keys_]. apply Forall_app. split.
    + eapply Forall_impl; [exact Hk|]. intros k [Hn Hl]. specialize (Hlong Hn). split; [by destruct ws|lia].
    + constructor; [|constructor]. split; [by destruct ws|lia].
  - rewrite E1, E2. cbn [encoded refused_]. by rewrite <- app_assoc.
Qed.
Lemma qualifiers_plain `{!Target} qs : Forall plain_ident qs -> default [] (head qs) <> B "std" ->
  exists ks, qualifiers_enc qs new_mangler = Parsed (flat_map source_name qs, Mangler ks false).
Proof.
  intros Hp Hstd. unfold qualifiers_enc, prefix_enc, encode_name, encode_name_with. rewrite parse_plains by done. cbn [pbind].
  destruct (encode_plain_chain encode_type qs [] (Name_state [] [] true [] 0 false false) new_mangler) as [E1 E2]; [done..|constructor|].
  destruct (encode_chain _ _ _ _) as [s [ks rf]]. cbn [fst snd refused_] in *. cbn [andb]. exists ks. by rewrite E1, E2.
Qed.

(** *** The twin *)

(** A name the decoder reads: a plain identifier that is no operator's spelling,
    or an operator with a code of two letters. *)
Definition readable (name : bytes) (params : list bytes) : Prop :=
  plain_ident name /\ opcode_of name params = [] \/ exists op, coded_op op = true /\ name = B "operator" ++ op.
Lemma unqualified_read name params il r : readable name params ->
  exists op, unqualified (unqualified_name name params il ++ r) = Some (name, op, r).
Proof.
  intros [[Hn Ho]|(op & Hop & ->)]; unfold unqualified_name.
  - rewrite Ho. cbn [is_nil negb]. destruct (source_name_read name r Hn) as [H1 H2]. exists false.
    destruct il; [by rewrite <- app_assoc|done].
  - change (opcode_of (B "operator" ++ op) params) with (operator_code op (length params =? 1)).
    destruct (op_read op (length params =? 1) r Hop) as (a & b & E & _ & _ & _ & H). rewrite E in *. cbn [is_nil negb]. by exists true.
Qed.
Definition not_end (s : bytes) : Prop := match s with c :: _ => byte_eqb c "E"%char = false /\ byte_eqb c "N"%char = false | [] => False end.
Lemma digit_not_end c : isdigit c = true -> byte_eqb c "E"%char = false /\ byte_eqb c "N"%char = false /\ byte_eqb c "L"%char = false.
Proof. intros H. split_and!; apply byte_eqb_neq; by intros ->. Qed.
Lemma source_not_end w r : plain_ident w -> not_end (source_name w ++ r) /\ starts_with (source_name w ++ r) (B "L") = false.
Proof.
  intros (_ & _ & Hl). destruct (decimal_head (length w) Hl) as (c & ds & E & Hc). unfold source_name. rewrite E.
  destruct (digit_not_end c Hc) as (H1 & H2 & H3). split; [done|]. cbn [app]. unfold starts_with. cbn.
  apply byte_eqb_neq in H3. apply not_true_iff_false. intros Hx%bytes_eqb_eq. injection Hx as ->. done.
Qed.
Lemma uname_not_end name params il r : readable name params -> not_end (unqualified_name name params il ++ r).
Proof.
  intros [[Hn Ho]|(op & Hop & ->)]; unfold unqualified_name.
  - rewrite Ho. cbn [is_nil negb]. destruct il; [done|]. by apply source_not_end.
  - change (opcode_of (B "operator" ++ op) params) with (operator_code op (length params =? 1)).
    destruct (op_read op (length params =? 1) r Hop) as (a & b & E & _ & HN & HE & _). by rewrite E.
Qed.
Lemma nested_step fuel s part op r : not_end s -> unqualified s = Some (part, op, r) ->
  nested_parts (S fuel) false s = match nested_parts fuel op r with Some l => Some (part :: l) | None => None end.
Proof. intros Hs Hu. destruct s as [|c s]; [done|]. destruct Hs as [HE _]. cbn [nested_parts]. by rewrite HE, Hu. Qed.
Lemma nested_read qs name params il ps fuel : Forall plain_ident qs -> readable name params -> length qs + 1 < fuel ->
  nested_parts fuel false (flat_map source_name qs ++ unqualified_name name params il ++ B "E" ++ ps) = Some (qs ++ [name]).
Proof.
  intros Hq Hn. revert fuel. induction Hq as [|w qs Hw _ IH]; intros fuel Hf; (destruct fuel as [|fuel]; [lia|]); cbn [flat_map length] in *.
  - destruct (unqualified_read name params il (B "E" ++ ps) Hn) as [op Hu]. cbn [app].
    rewrite (nested_step fuel _ _ _ _ (uname_not_end name params il _ Hn) Hu). destruct fuel as [|fuel]; [lia|]. done.
  - rewrite <- app_assoc. set (r := flat_map source_name qs ++ _).
    rewrite (nested_step fuel _ _ _ _ (proj1 (source_not_end w r Hw)) (proj1 (source_name_read w r Hw))). unfold r. by rewrite IH by lia.
Qed.
Lemma digits_of_longer n v acc : length acc <= length (digits_of n v acc).
Proof. revert v acc. induction n as [|n IH]; intros v acc; [done|]. cbn [digits_of]. destruct (_ =? 0)%Z; [cbn; lia|]. pose proof (IH (v / 10)%Z (to_byte (48 + v mod 10) :: acc)) as Hl. cbn [length] in Hl. lia. Qed.
Lemma digits_of_some n v acc : length acc < length (digits_of (S n) v acc).
Proof.
  cbn [digits_of]. destruct (_ =? 0)%Z; [cbn; lia|].
  pose proof (digits_of_longer n (v / 10)%Z (to_byte (48 + v mod 10) :: acc)) as Hl. cbn [length] in Hl. lia.
Qed.
Lemma source_name_positive w : 1 <= length (source_name w).
Proof. unfold source_name, decimal. rewrite length_app. pose proof (digits_of_some 19 (Z.of_nat (length w)) []) as Hl. cbn [length] in Hl. lia. Qed.
Lemma flat_source_length qs : length qs <= length (flat_map source_name qs).
Proof.
  induction qs as [|w qs IH]; [done|]. cbn [flat_map length]. rewrite length_app. pose proof (source_name_positive w). lia.
Qed.

(** The [L] of internal linkage goes, and nothing else does. *)
Lemma internal_stripped name params il r : readable name params ->
  let u := unqualified_name name params il ++ r in
  (if starts_with u (B "L") then drop 1 u else u) = unqualified_name name params false ++ r.
Proof.
  intros [[Hi Ho]|(op & Hop & ->)]; cbv zeta; unfold unqualified_name.
  - rewrite Ho. cbn [is_nil negb]. destruct il; [done|]. by destruct (source_not_end name r Hi) as [_ ->].
  - change (opcode_of (B "operator" ++ op) params) with (operator_code op (length params =? 1)).
    destruct (op_read op (length params =? 1) r Hop) as (a & b & E & HL & _). rewrite E. cbn [is_nil negb].
    destruct (starts_with ([a; b] ++ r) (B "L")) eqn:Hx; [|done]. apply bytes_eqb_eq in Hx. cbn in Hx. by injection Hx as ->.
Qed.
Lemma not_end_not_nested s : not_end s -> starts_with s (B "N") = false.
Proof.
  destruct s as [|c s]; [done|]. intros [_ Hc]. apply not_true_iff_false. intros Hx%bytes_eqb_eq. cbn in Hx. by injection Hx as ->.
Qed.
Lemma global_read name params il ps : readable name params ->
  itanium_function_name (B "_Z" ++ unqualified_name name params il ++ ps) = Some ([], name).
Proof.
  intros Hn. unfold itanium_function_name. set (u := unqualified_name name params il ++ ps).
  change (starts_with (B "_Z" ++ u) (B "_Z")) with true. change (drop 2 (B "_Z" ++ u)) with u. cbv zeta. cbn [negb].
  unfold u. rewrite (internal_stripped name params il ps Hn). rewrite (not_end_not_nested _ (uname_not_end name params false ps Hn)).
  by destruct (unqualified_read name params false ps Hn) as [op ->].
Qed.
Lemma scoped_read q qs name params il ps : Forall plain_ident (q :: qs) -> readable name params ->
  itanium_function_name (B "_ZN" ++ flat_map source_name (q :: qs) ++ unqualified_name name params il ++ B "E" ++ ps)
  = Some (join (B "::") (q :: qs), name).
Proof.
  intros Hq Hn. unfold itanium_function_name. set (body := flat_map source_name (q :: qs) ++ _).
  change (starts_with (B "_ZN" ++ body) (B "_Z")) with true. change (drop 2 (B "_ZN" ++ body)) with ("N"%char :: body). cbv zeta. cbn [negb].
  change (starts_with ("N"%char :: body) (B "L")) with false. cbv iota.
  assert (Hlen : length (q :: qs) + 1 < length ("N"%char :: body)).
  { pose proof (flat_source_length (q :: qs)) as Hf. unfold body. cbn [length]. rewrite !length_app. change (length (B "E")) with 1.
    cbn [length] in Hf. lia. }
  change (starts_with ("N"%char :: body) (B "N")) with true. cbv iota. change (drop 1 ("N"%char :: body)) with body. revert Hlen.
  generalize (length ("N"%char :: body)). intros fuel Hlen. unfold body. rewrite nested_read by assumption.
  rewrite length_app. cbn [length]. replace (S (length qs) + 1 <? 2) with false by (symmetry; apply Nat.ltb_ge; lia).
  by rewrite removelast_last, last_last.
Qed.

(** the symbol of a function in a plain scope (no template, no [std] in front)
    is read back to the scope and the name its source wrote, whatever its
    parameters, internal linkage or not. *)
Theorem function_names_read_back `{!Target} qs name params il sym :
  Forall plain_ident qs -> default [] (head qs) <> B "std" -> readable name params ->
  itanium_mangle_nested_sub qs name params il = Parsed sym -> sym <> [] ->
  itanium_function_name sym = Some (join (B "::") qs, name).
Proof.
  intros Hq Hstd Hn Hm Hs. unfold itanium_mangle_nested_sub, symbol, mangle_nested_function, fresh in Hm.
  assert (Honly : only_std qs = false).
  { destruct qs as [|q [|]]; [done| |done]. cbn [only_std]. apply not_true_iff_false. intros E%bytes_eqb_eq. by apply Hstd. }
  rewrite Honly in Hm. destruct qs as [|q qs]; cbn [is_nil] in Hm; unfold mbind in Hm.
  - destruct (params_enc params new_mangler) as [[ps m]| |]; [|done..]. cbn [pbind mret] in Hm.
    injection Hm as Hm. unfold settled in Hm. cbn [fst snd] in Hm. destruct (refused_ m); [done|]. subst sym. by apply global_read.
  - destruct (qualifiers_plain (q :: qs) Hq Hstd) as [ks Hk]. rewrite Hk in Hm. cbn [pbind] in Hm.
    destruct (params_enc params (Mangler ks false)) as [[ps m]| |]; [|done..]. cbn [pbind mret] in Hm.
    injection Hm as Hm. unfold settled in Hm. cbn [fst snd] in Hm. destruct (refused_ m); [done|]. subst sym. by apply scoped_read.
Qed.

Lemma function_names_read_back_witness :
  let T : Target := false in
  plain_ident (B "ui") /\ readable (B "operator+") [B "const A&"] /\
  itanium_mangle_nested_sub [B "ui"; B "A"] (B "operator+") [B "const A&"] false = Parsed (B "_ZN2ui1ApsERK1A") /\
  itanium_function_name (B "_ZN2ui1ApsERK1A") = Some (B "ui::A", B "operator+").
Proof.
  assert (H1 : forall w, forallb name_char w = true -> match w with c :: _ => isdigit c = false | [] => False end -> (Z.of_nat (length w) < 2 ^ 63)%Z -> plain_ident w).
  { intros w Hw Hh Hl. split_and!; [|exact Hh|exact Hl]. apply Forall_forall. intros c Hc. apply list_elem_of_In in Hc. rewrite forallb_forall in Hw. by apply Hw. }
  assert (H2 : plain_ident (B "ui")) by (apply H1; reflexivity). assert (H3 : plain_ident (B "A")) by (apply H1; reflexivity).
  assert (H4 : readable (B "operator+") [B "const A&"]) by (right; exists (B "+"); split; reflexivity).
  assert (H5 : @itanium_mangle_nested_sub false [B "ui"; B "A"] (B "operator+") [B "const A&"] false = Parsed (B "_ZN2ui1ApsERK1A")) by (vm_compute; reflexivity).
  split_and!; [exact H2|exact H4|exact H5|].
  apply (@function_names_read_back false [B "ui"; B "A"] (B "operator+") [B "const A&"] false (B "_ZN2ui1ApsERK1A")); [repeat constructor; assumption|discriminate|exact H4|exact H5|discriminate].
Defined.
Lemma memo_transparent_witness :
  let p := Process (madc_mangle_set_stdlib_llvm (B "__1") build_flavor) false (2 ^ 32 - 1) false [] in
  rtc memo_step start p /\ match itanium_encode_type_sub (B "long") p with Parsed (e, _) => @encode_spelling (model p) (B "long") = Parsed e | _ => False end.
Proof.
  cbv zeta. set (p := Process (madc_mangle_set_stdlib_llvm (B "__1") build_flavor) false (2 ^ 32 - 1) false []).
  assert (H : rtc memo_step start p) by (apply rtc_once; exact (step_llvm (B "__1") start)). split; [exact H|].
  exact (memo_transparent p (B "long") H).
Defined.
(** An identifier that begins like an operator is taken for it. *)
Example operator_identifier :
  let T : Target := false in itanium_mangle_nested_sub [] (B "operatornew") [] false = Parsed (B "_Znwv"). (* _Z11operatornewv *)
Proof. vm_compute. reflexivity. Qed.
