(* ===== verification/MangleRead.v ===== *)
(** Encoded types read back: a reader of what [Mangle.encode_type] writes, which
    numbers the candidates itself as it reads, and the proof that it finds the
    canonical key of the tree and the encoder's table, through all the
    back-references, abbreviations and [N..E] the encoder chose.

    [types_read_back]: a list of types reads back to the keys of its trees.  A tree
    is [readable_type] where the encoder writes a name of the ABI's grammar: no
    component behind the abbreviation of [std::allocator] and its kin, at most one
    template-id in a chain (see the findings at the end of [Mangle]); its entities
    are [told_apart] by their keys, as those of [A*] and a class [PA] are not. *)
From S2P Require Import Prelude Numbers MacroCalls Spelling MangleType Mangle MangleNames.
#[local] Open Scope nat_scope.

(** ** Induction over trees *)

Section Tree.
Variable P : TypeNode -> Prop.
Definition all_targs (c : name_component TypeNode) : Prop := match targs c with Some l => Forall P l | None => True end.
Hypothesis on_builtin : forall d c, P (Builtin d c).
Hypothesis on_tparam : forall d n, P (Tparam d n).
Hypothesis on_funcptr : forall d r ps, P r -> Forall P ps -> P (Funcptr d r ps).
Hypothesis on_named : forall d name inv, Forall all_targs name -> P (Named d name inv).
Fixpoint tree_ind (t : TypeNode) : P t :=
  let fix each (l : list TypeNode) : Forall P l :=
    match l with [] => @List.Forall_nil _ P | x :: r => @List.Forall_cons _ P x r (tree_ind x) (each r) end in
  match t with
  | Builtin d c => on_builtin d c
  | Tparam d n => on_tparam d n
  | Funcptr d r ps => on_funcptr d r ps (tree_ind r) (each ps)
  | Named d name inv =>
      on_named d name inv
        ((fix comps (l : list (name_component TypeNode)) : Forall all_targs l :=
            match l with
            | [] => @List.Forall_nil _ all_targs
            | (Component i ta) as c :: r =>
                @List.Forall_cons _ all_targs c r (match ta as o return all_targs (Component i o) with Some l => each l | None => I end) (comps r)
            end) name)
  end.
End Tree.

(** ** The reader *)

(** The number behind an [S] or a [T], up to its [_]. *)
Definition value36 (c : ascii) : option nat :=
  if isdigit c then Some (Z.to_nat (code c - 48)) else if in_range 65 90 c then Some (Z.to_nat (code c - 55)) else None.
Fixpoint read36 (acc : nat) (s : bytes) : option (nat * bytes) :=
  match s with
  | [] => None
  | c :: r => if byte_eqb c "_"%char then Some (S acc, r) else match value36 c with Some v => read36 (acc * 36 + v) r | None => None end
  end.
Definition read_number (s : bytes) : option (nat * bytes) :=
  match s with c :: r => if byte_eqb c "_"%char then Some (0, r) else read36 0 s | [] => None end.
(** A name with its length before it. *)
Definition read_source_name (s : bytes) : option (bytes * bytes) :=
  match unqualified s with Some (w, false, r) => Some (w, r) | _ => None end.

(** What a head leaves open: only a name, arguments or nothing. *)
Inductive follow := A_name | Arguments_ | Nothing_.
Definition abbreviations : list (ascii * (bytes * follow)) :=
  [("t"%char, (B "std", A_name)); ("a"%char, (B "std::allocator", Arguments_)); ("b"%char, (B "std::basic_string", Arguments_));
     ("s"%char, (B "std::basic_string<#c,std::char_traits<#c>,std::allocator<#c>>", Nothing_));
     ("i"%char, (B "std::basic_istream<#c,std::char_traits<#c>>", Nothing_)); ("o"%char, (B "std::basic_ostream<#c,std::char_traits<#c>>", Nothing_));
     ("d"%char, (B "std::basic_iostream<#c,std::char_traits<#c>>", Nothing_))].
Fixpoint row_of (c : ascii) (l : list (ascii * (bytes * follow))) : option (bytes * follow) :=
  match l with [] => None | (k, v) :: r => if byte_eqb k c then Some v else row_of c r end.
Definition abbreviation (c : ascii) : option (bytes * follow) := row_of c abbreviations.
Definition codes : list bytes :=
  map B ["v"; "b"; "c"; "a"; "h"; "s"; "t"; "i"; "j"; "l"; "m"; "x"; "y"; "f"; "d"; "e"; "w"; "Ds"; "Di"; "z"; "Lb0E"; "Lb1E"]%string.
Fixpoint read_code (l : list bytes) (s : bytes) : option (bytes * bytes) :=
  match l with [] => None | c :: r => if starts_with s c then Some (c, drop (length c) s) else read_code r s end.
Definition with_args (key : bytes) (ks : list bytes) : bytes := key ++ B "<" ++ join (B ",") ks ++ B ">".
(** What was read, the rest, and the candidates: each piece that is read in full,
    no reference, abbreviation or builtin, is a new one behind those inside it. *)
Definition answer : Type := bytes * bytes * list bytes.
Definition registers (key r : bytes) (T : list bytes) : option answer := Some (key, r, T ++ [key]).
Definition prefixed_by (d : bytes) (x : option answer) : option answer := match x with Some (k, r, T) => registers (d ++ k) r T | None => None end.

(** The beginning of a name: a candidate, an abbreviation or a source name. *)
Definition read_head (T : list bytes) (s : bytes) : option (bytes * follow * bytes * list bytes) :=
  match s with
  | c :: r =>
      if byte_eqb c "S"%char then
        match r with
        | a :: r' =>
            match abbreviation a with
            | Some (k, f) => Some (k, f, r', T)
            | None => match read_number r with Some (i, r) => match nth_error T i with Some k => Some (k, Arguments_, r, T) | None => None end | None => None end
            end
        | [] => None
        end
      else match read_source_name s with Some (w, r) => Some (w, Arguments_, r, T ++ [w]) | None => None end
  | [] => None
  end.
Fixpoint read_type (fuel : nat) (T : list bytes) (s : bytes) : option answer :=
  match fuel, s with
  | S k, c :: r =>
      if bool_decide ([c] ∈ map B ["P"; "R"; "O"; "K"]%string) then prefixed_by [c] (read_type k T r)
      else if byte_eqb c "V"%char then
        match r with
        | a :: r' => if byte_eqb a "K"%char then prefixed_by (B "VK") (read_type k T r') else prefixed_by (B "V") (read_type k T r)
        | [] => None
        end
      else if byte_eqb c "A"%char then
        match find_char "_"%char r with Some i => prefixed_by (c :: take (S i) r) (read_type k T (drop (S i) r)) | None => None end
      else if byte_eqb c "T"%char then match read_number r with Some (n, r) => registers (B "$T" ++ to_string (Z.of_nat n)) r T | None => None end
      else if byte_eqb c "F"%char then
        match read_type k T r with
        | Some (ret, r, T) =>
            if starts_with r (B "vE") then registers (B "F" ++ ret ++ B "E") (drop 2 r) T
            else match read_types k T r with Some (ps, r, T) => registers (B "F" ++ ret ++ concat ps ++ B "E") r T | None => None end
        | None => None
        end
      else if byte_eqb c "N"%char then match read_head T r with Some (key, _, r, T) => read_tail k T key r | None => None end
      else if byte_eqb c "S"%char || isdigit c then
        match read_head T s with
        | Some (key, A_name, r, T) =>
            match read_source_name r with Some (w, r) => read_args k (T ++ [key ++ B "::" ++ w]) (key ++ B "::" ++ w) r | None => None end
        | Some (key, Arguments_, r, T) => read_args k T key r
        | Some (key, Nothing_, r, T) => Some (key, r, T)
        | None => None
        end
      else match read_code codes s with Some (c, r) => Some (B "#" ++ c, r, T) | None => None end
  | _, _ => None
  end
(** Types up to an [E]. *)
with read_types (fuel : nat) (T : list bytes) (s : bytes) : option (list bytes * bytes * list bytes) :=
  match fuel, s with
  | S k, c :: r =>
      if byte_eqb c "E"%char then Some ([], r, T)
      else match read_type k T s with
           | Some (t, r, T) => match read_types k T r with Some (l, r, T) => Some (t :: l, r, T) | None => None end
           | None => None
           end
  | _, _ => None
  end
(** Arguments, if there are any. *)
with read_args (fuel : nat) (T : list bytes) (key s : bytes) : option answer :=
  match fuel, s with
  | S k, c :: r =>
      if byte_eqb c "I"%char then match read_types k T r with Some (l, r, T) => registers (with_args key l) r T | None => None end else Some (key, s, T)
  | S _, [] => Some (key, [], T)
  | O, _ => None
  end
(** The rest of a nested name. *)
with read_tail (fuel : nat) (T : list bytes) (key s : bytes) : option answer :=
  match fuel, s with
  | S k, c :: r =>
      if byte_eqb c "E"%char then Some (key, r, T)
      else if byte_eqb c "I"%char then
        match read_types k T r with Some (l, r, T) => read_tail k (T ++ [with_args key l]) (with_args key l) r | None => None end
      else match read_source_name s with Some (w, r) => read_tail k (T ++ [key ++ B "::" ++ w]) (key ++ B "::" ++ w) r | None => None end
  | _, _ => None
  end.
(** The parameters of a symbol, to its end, and all candidates. *)
Definition read_list (T : list bytes) (fuel : nat) (s : bytes) : option (list bytes * list bytes) :=
  match read_types fuel T (s ++ B "E") with Some (l, [], T) => Some (l, T) | _ => None end.

Example read_back_ex :
  let T : Target := false in
  let show ps := match pmap parse_param_type (map B ps) with
    | Parsed ts => let '(e, m) := encode_list encode_type ts new_mangler in
        (string_of_list_ascii e, option_map (fun '(l, T) => (map string_of_list_ascii l, bool_decide (T = keys_ m))) (read_list [] 100 e), map (fun t => string_of_list_ascii (canon_type t)) ts)
    | _ => ("?"%string, None, []) end in
  show ["const A&"; "A*"; "ui::Box<A, ui::B>"; "ui::Box<int>[3]"; "volatile ui::Box<int>*"; "void (*)(A, std::basic_string<char>)"; "std::pair<$T0, $T12>"; "$T12"]%string =
  ("RK1APS_N2ui3BoxIS_NS3_1BEEEA3_NS4_IiEEPVS7_PFvS_SbIcEESt4pairIT_TB_ESG_",
   Some (["RKA"; "PA"; "ui::Box<A,ui::B>"; "A3_ui::Box<#i>"; "PVui::Box<#i>"; "PF#vAstd::basic_string<#c>E"; "std::pair<$T0,$T12>"; "$T12"], true),
   ["RKA"; "PA"; "ui::Box<A,ui::B>"; "A3_ui::Box<#i>"; "PVui::Box<#i>"; "PF#vAstd::basic_string<#c>E"; "std::pair<$T0,$T12>"; "$T12"])%string.
Proof. vm_compute. reflexivity. Qed.

(** ** Numbers and names *)

Lemma digit36_value v : v < 36 -> value36 (digit36 v) = Some v /\ byte_eqb (digit36 v) "_"%char = false /\ row_of (digit36 v) abbreviations = None.
Proof.
  intros H. assert (Hall : forallb (fun v => match value36 (digit36 v) with Some w => w =? v | None => false end && negb (byte_eqb (digit36 v) "_"%char) &&
    match row_of (digit36 v) abbreviations with None => true | _ => false end) (seq 0 36) = true) by (vm_compute; reflexivity).
  rewrite forallb_forall in Hall. specialize (Hall v ltac:(apply in_seq; lia)). apply andb_prop in Hall as [[H1 H2]%andb_prop H3].
  apply negb_true_iff in H2. destruct (value36 _) as [w|]; [|done]. apply Nat.eqb_eq in H1 as ->. by destruct (row_of _ _).
Qed.
Fixpoint horner36 (acc : nat) (vs : list nat) : nat := match vs with [] => acc | v :: r => horner36 (acc * 36 + v) r end.
Lemma horner36_snoc vs a x : horner36 a (vs ++ [x]) = horner36 a vs * 36 + x.
Proof. revert a. induction vs as [|y vs IH]; intros a; [done|apply IH]. Qed.
Lemma read36_digits vs acc r : Forall (fun v => v < 36) vs -> read36 acc (map digit36 vs ++ "_"%char :: r) = Some (S (horner36 acc vs), r).
Proof.
  intros H. revert acc. induction H as [|v vs Hv _ IH]; intros acc; [done|]. cbn [map app read36 horner36].
  destruct (digit36_value v Hv) as (H1 & H2 & _). rewrite H1, H2. apply IH.
Qed.
Lemma base36_digits fuel v acc : v < fuel -> Forall (fun v => v < 36) acc ->
  exists vs, base36 fuel v (map digit36 acc) = map digit36 (vs ++ acc) /\ Forall (fun v => v < 36) vs /\ horner36 0 vs = v /\ (v <> 0 -> vs <> []).
Proof.
  revert v acc. induction fuel as [|k IH]; intros v acc Hv Ha; [lia|]. cbn [base36]. destruct (v =? 0) eqn:E.
  - apply Nat.eqb_eq in E as ->. exists []. by split_and!.
  - apply Nat.eqb_neq in E. assert (Hm : v mod 36 < 36) by (apply Nat.mod_upper_bound; lia).
    destruct (IH (v / 36) (v mod 36 :: acc)) as (vs & E1 & H1 & H2 & _).
    { apply Nat.le_lt_trans with (v - 1); [|lia]. pose proof (Nat.div_lt v 36). lia. }
    { by constructor. }
    exists (vs ++ [v mod 36]). cbn [map] in E1. rewrite E1, <- app_assoc. split_and!; [done| | |by destruct vs].
    + apply Forall_app. split; [done|by apply Forall_singleton].
    + clear -H2. rewrite horner36_snoc, H2. pose proof (Nat.div_mod_eq v 36). lia.
Qed.
Lemma number_read c n r : exists s, numbered c n = c :: s /\ read_number (s ++ r) = Some (n, r) /\ exists d s', s = d :: s' /\ row_of d abbreviations = None.
Proof.
  destruct n as [|v]; [exists (B "_"); split_and!; [done|done|by exists "_"%char, []]|]. cbn [numbered]. eexists. split; [done|]. destruct (v =? 0) eqn:E.
  - apply Nat.eqb_eq in E as ->. split; [done|]. by exists "0"%char, (B "_").
  - destruct (base36_digits (S v) v [] ltac:(lia) ltac:(constructor)) as (vs & E1 & H1 & H2 & H3). cbn [map] in E1. rewrite E1, app_nil_r.
    apply Nat.eqb_neq in E. specialize (H3 E). destruct vs as [|d vs]; [done|].
    pose proof (digit36_value d ltac:(by inversion H1)) as (_ & Hu & Ha). split.
    + rewrite <- app_assoc. change (B "_" ++ r) with ("_"%char :: r). change (map digit36 (d :: vs)) with (digit36 d :: map digit36 vs).
      cbn [app]. unfold read_number. rewrite Hu. change (digit36 d :: map digit36 vs ++ "_"%char :: r) with (map digit36 (d :: vs) ++ "_"%char :: r).
      rewrite read36_digits by done. by rewrite H2.
    + exists (digit36 d), (map digit36 vs ++ B "_"). done.
Qed.
Lemma source_read w r : plain_ident w -> read_source_name (source_name w ++ r) = Some (w, r).
Proof. intros H. unfold read_source_name. by rewrite (proj1 (source_name_read w r H)). Qed.
Lemma source_head w r : plain_ident w -> exists c s, source_name w ++ r = c :: s /\ isdigit c = true.
Proof.
  intros (_ & _ & Hl). destruct (decimal_head (length w) Hl) as (c & ds & E & Hc). unfold source_name. rewrite E.
  exists c, (ds ++ w ++ r). split; [by cbn [app]; rewrite <- app_assoc|done].
Qed.

(** ** With fuel enough *)

(** From some fuel on, the reader answers. *)
Definition reads {A} (f : nat -> option A) (a : A) : Prop := exists n, forall fuel, n <= fuel -> f fuel = Some a.
Lemma reads_now {A} (f : nat -> option A) a : (forall fuel, f (S fuel) = Some a) -> reads f a.
Proof. intros H. exists 1. intros [|k] Hk; [lia|apply H]. Qed.
Lemma reads_then {A C} (f : nat -> option A) (g : nat -> option C) a c : reads f a -> (forall fuel, f fuel = Some a -> g (S fuel) = Some c) -> reads g c.
Proof. intros [n H] Hg. exists (S n). intros [|k] Hk; [lia|]. apply Hg, H. lia. Qed.
Lemma reads_both {A C D} (f : nat -> option A) (h : nat -> option D) (g : nat -> option C) a c d :
  reads f a -> reads h d -> (forall fuel, f fuel = Some a -> h fuel = Some d -> g (S fuel) = Some c) -> reads g c.
Proof. intros [n H] [n' H'] Hg. exists (S (n + n')). intros [|k] Hk; [lia|]. apply Hg; [apply H|apply H']; lia. Qed.

(** ** Trees whose names the grammar has *)

Definition plain_identb (w : bytes) : bool :=
  forallb name_char w && (Z.of_nat (length w) <? 2 ^ 63)%Z && match w with c :: _ => negb (isdigit c) | [] => false end.
Lemma plain_identb_sound w : plain_identb w = true -> plain_ident w.
Proof.
  intros [[H1 H2%Z.ltb_lt]%andb_prop H3]%andb_prop. split_and!; [|destruct w; [done|by apply negb_true_iff]|done].
  apply Forall_forall. intros c Hc. rewrite forallb_forall in H1. by apply H1, list_elem_of_In.
Qed.
(** The names of [std] that an abbreviation can stand for, with or without their arguments. *)
Definition abbreviated (scoped : bytes) : bool :=
  existsb (bytes_eqb scoped) (map B ["std::allocator"; "std::basic_string"; "std::basic_istream"; "std::basic_ostream"; "std::basic_iostream"]%string).
(** A chain from where its scope is spelled [scoped]; [seen], a template-id is behind. *)
Fixpoint chain_ok {A} (seen first : bool) (scoped : bytes) (chain : list (name_component A)) : bool :=
  match chain with
  | [] => true
  | c :: r =>
      let scoped := after_name first scoped (ident c) in
      let std := bytes_eqb scoped (B "std") in
      let templ := match targs c with Some _ => true | None => false end in
      plain_identb (ident c) && negb (templ && seen) && (if std then negb (is_nil r) && negb templ && negb seen else true) &&
      (if abbreviated scoped then is_nil r && negb seen else true) && chain_ok (seen || templ) false scoped r
  end.
Definition cv (d : bytes) : bool := bool_decide (d ∈ map B ["K"; "V"; "VK"]%string).
Definition deco_ok (d : bytes) : bool :=
  cv d || bool_decide (d ∈ map B ["P"; "R"; "O"]%string) ||
  match d with
  | c :: r => byte_eqb c "A"%char && match find_char "_"%char r with Some i => S i =? length r | None => false end
  | [] => false
  end.
Fixpoint decos_ok (ds : list bytes) : bool :=
  match ds with
  | [] => true
  | d :: r => deco_ok d && negb (cv d && match r with d' :: _ => cv d' | [] => false end) && decos_ok r
  end.
Definition void_only (ps : list TypeNode) : bool := match ps with [Builtin [] c] => bytes_eqb c (B "v") | _ => false end.
Fixpoint readable_type (t : TypeNode) : bool :=
  decos_ok (decos t) &&
  match t with
  | Builtin _ c => existsb (bytes_eqb c) codes
  | Tparam _ n => (0 <=? n)%Z
  | Funcptr _ r ps => readable_type r && forallb readable_type ps && negb (void_only ps)
  | Named _ name inv =>
      negb (is_nil name) && chain_ok false true [] name && forallb (fun c => match targs c with Some l => forallb readable_type l | None => true end) name
  end.

(** ** What the encoder's pieces read as *)

Section Pieces.
Context (T : list bytes).
(** A piece that begins a name and stands for [key]; [T'] are the candidates behind it. *)
Definition begins (e key : bytes) (T' : list bytes) : Prop := forall rest res, reads (fun f => read_tail f T' key rest) res ->
  reads (fun f => match read_head T (e ++ rest) with Some (k, _, r, T1) => read_tail f T1 k r | None => None end) res.
(** A piece that stands for [key] by itself, before arguments or none. *)
Definition opens (e key : bytes) (T' : list bytes) : Prop := forall rest res, reads (fun f => read_args f T' key rest) res -> reads (fun f => read_type f T (e ++ rest)) res.
Definition not_open (rest : bytes) : Prop := match rest with c :: _ => c <> "I"%char | [] => True end.
Definition stands (e key : bytes) (T' : list bytes) : Prop := forall rest, not_open rest -> reads (fun f => read_type f T (e ++ rest)) (key, rest, T').
Definition lists (e : bytes) (ks : list bytes) (T' : list bytes) : Prop := forall rest, reads (fun f => read_types f T (e ++ "E"%char :: rest)) (ks, rest, T').

Lemma opens_stands e key T1 : opens e key T1 -> stands e key T1.
Proof.
  intros H rest Hr. apply H, reads_now. intros fuel. destruct rest as [|c r]; [done|]. cbn [read_args].
  by rewrite (proj2 (byte_eqb_neq c "I") Hr).
Qed.
(** A name behind a beginning, and one that begins. *)
Lemma begins_name e key w T1 : begins e key T1 -> plain_ident w -> begins (e ++ source_name w) (key ++ B "::" ++ w) (T1 ++ [key ++ B "::" ++ w]).
Proof.
  intros He Hw rest res Hr. rewrite <- app_assoc. apply He. destruct (source_head w rest Hw) as (c & s & E & Hc).
  pose proof (source_read w rest Hw) as Hs. rewrite E in *. eapply reads_then; [exact Hr|]. intros fuel Hf. cbn [read_tail].
  destruct (digit_not_end c Hc) as (-> & _ & _). replace (byte_eqb c "I") with false by (symmetry; apply byte_eqb_neq; by intros ->).
  by rewrite Hs.
Qed.
Lemma head_source w rest : plain_ident w -> read_head T (source_name w ++ rest) = Some (w, Arguments_, rest, T ++ [w]).
Proof.
  intros Hw. destruct (source_head w rest Hw) as (c & s & E & Hc). pose proof (source_read w rest Hw) as Hs. rewrite E in *. unfold read_head.
  replace (byte_eqb c "S") with false by (symmetry; apply byte_eqb_neq; by intros ->). by rewrite Hs.
Qed.
Lemma head_abbr a k f rest : abbreviation a = Some (k, f) -> read_head T ("S"%char :: a :: rest) = Some (k, f, rest, T).
Proof. intros H. unfold read_head. change (byte_eqb "S" "S") with true. by rewrite H. Qed.
Lemma head_ref i k rest : nth_error T i = Some k -> read_head T (subref i ++ rest) = Some (k, Arguments_, rest, T).
Proof.
  intros Hi. unfold subref. destruct (number_read "S" i rest) as (s & -> & Hn & d & s' & -> & Hd). unfold read_head. cbn [app] in *.
  change (byte_eqb "S" "S") with true. unfold abbreviation. by rewrite Hd, Hn, Hi.
Qed.
Lemma head_begins e key T1 : (forall rest, exists f, read_head T (e ++ rest) = Some (key, f, rest, T1)) -> begins e key T1.
Proof. intros H rest res [n Hr]. exists n. intros fuel Hf. destruct (H rest) as [f ->]. by apply Hr. Qed.
(** A byte that is no decoration of one letter. *)
Lemma no_letter c : forallb (fun d => negb (byte_eqb c d)) ["P"; "R"; "O"; "K"]%char = true -> bool_decide ([c] ∈ map B ["P"; "R"; "O"; "K"]%string) = false.
Proof.
  intros H. apply bool_decide_eq_false. intros Hin. repeat (apply elem_of_cons in Hin as [[= ->]|Hin]; [done|]). by apply not_elem_of_nil in Hin.
Qed.
(** A head that is no nested name begins a type too. *)
Lemma type_by_head s c r : s = c :: r -> byte_eqb c "S"%char || isdigit c = true -> forall fuel, read_type (S fuel) T s =
  match read_head T s with
  | Some (key, A_name, r, T) =>
      match read_source_name r with Some (w, r) => read_args fuel (T ++ [key ++ B "::" ++ w]) (key ++ B "::" ++ w) r | None => None end
  | Some (key, Arguments_, r, T) => read_args fuel T key r
  | Some (key, Nothing_, r, T) => Some (key, r, T)
  | None => None
  end.
Proof.
  intros -> Hc fuel. assert (H : ~ [c] ∈ map B ["P"; "R"; "O"; "K"]%string /\ Forall (fun d => byte_eqb c d = false) ["V"; "A"; "T"; "F"; "N"]%char).
  { split.
    - intros Hin. repeat (apply elem_of_cons in Hin as [[= ->]|Hin]; [by vm_compute in Hc|]). by apply not_elem_of_nil in Hin.
    - repeat (apply Forall_cons; split; [apply byte_eqb_neq; intros ->; by vm_compute in Hc|]). by apply Forall_nil. }
  destruct H as [Hin H]. cbn [read_type]. rewrite (bool_decide_eq_false_2 _ Hin). rewrite !Forall_cons in H.
  destruct H as (-> & -> & -> & -> & -> & _). by rewrite Hc.
Qed.
End Pieces.
(** Arguments, read from the candidates a beginning leaves. *)
Lemma begins_args T e key T1 args ks T2 : begins T e key T1 -> lists T1 args ks T2 ->
  begins T (e ++ B "I" ++ args ++ B "E") (with_args key ks) (T2 ++ [with_args key ks]).
Proof.
  intros He Ha rest res Hr. rewrite <- !app_assoc. apply He. eapply reads_both; [apply (Ha rest)|exact Hr|]. intros fuel Hf Hf'.
  change (B "I" ++ args ++ B "E" ++ rest) with ("I"%char :: args ++ "E"%char :: rest). cbn [read_tail].
  change (byte_eqb "I" "E") with false. change (byte_eqb "I" "I") with true. by rewrite Hf.
Qed.
Lemma opens_args T e key T1 args ks T2 : opens T e key T1 -> lists T1 args ks T2 ->
  stands T (e ++ B "I" ++ args ++ B "E") (with_args key ks) (T2 ++ [with_args key ks]).
Proof.
  intros He Ha rest _. rewrite <- !app_assoc. apply He. eapply reads_then; [apply (Ha rest)|]. intros fuel Hf.
  change (B "I" ++ args ++ B "E" ++ rest) with ("I"%char :: args ++ "E"%char :: rest). cbn [read_args]. change (byte_eqb "I" "I") with true. by rewrite Hf.
Qed.

(** *** Whole pieces *)

Section Whole.
Context (T : list bytes).
Lemma opens_source w : plain_ident w -> opens T (source_name w) w (T ++ [w]).
Proof.
  intros Hw rest res Hr. destruct (source_head w rest Hw) as (c & s & E & Hc). eapply reads_then; [exact Hr|]. intros fuel Hf.
  rewrite (type_by_head T _ c s E) by (rewrite Hc; apply orb_true_r). by rewrite head_source.
Qed.
Lemma opens_std_name w : plain_ident w -> opens T (B "St" ++ source_name w) (B "std" ++ B "::" ++ w) (T ++ [B "std" ++ B "::" ++ w]).
Proof.
  intros Hw rest res Hr. rewrite <- app_assoc. eapply reads_then; [exact Hr|]. intros fuel Hf.
  rewrite (type_by_head T _ "S"%char ("t"%char :: source_name w ++ rest)) by done.
  change (B "St" ++ source_name w ++ rest) with ("S"%char :: "t"%char :: source_name w ++ rest).
  rewrite (head_abbr T "t" (B "std") A_name) by done. by rewrite source_read.
Qed.
Lemma opens_abbr a k : abbreviation a = Some (k, Arguments_) -> opens T ["S"%char; a] k T.
Proof.
  intros Ha rest res Hr. eapply reads_then; [exact Hr|]. intros fuel Hf. rewrite (type_by_head T _ "S"%char (a :: rest)) by done.
  cbn [app]. by rewrite (head_abbr T a k Arguments_).
Qed.
Lemma stands_whole a k : abbreviation a = Some (k, Nothing_) -> stands T ["S"%char; a] k T.
Proof.
  intros Ha rest _. apply reads_now. intros fuel. rewrite (type_by_head T _ "S"%char (a :: rest)) by done.
  cbn [app]. by rewrite (head_abbr T a k Nothing_).
Qed.
Lemma subref_head i : exists s, subref i = "S"%char :: s.
Proof. destruct (number_read "S" i []) as (s & E & _). by exists s. Qed.
Lemma stands_ref i k : nth_error T i = Some k -> stands T (subref i) k T.
Proof.
  intros Hi. apply opens_stands. intros rest res Hr. eapply reads_then; [exact Hr|]. intros fuel Hf. destruct (subref_head i) as [s E].
  rewrite (type_by_head T _ "S"%char (s ++ rest)) by (try rewrite E; done). by rewrite (head_ref T i k).
Qed.
Lemma begins_ref i k : nth_error T i = Some k -> begins T (subref i) k T.
Proof. intros Hi. apply head_begins. intros rest. exists Arguments_. by apply head_ref. Qed.
Lemma begins_abbr a k f : abbreviation a = Some (k, f) -> begins T ["S"%char; a] k T.
Proof. intros Ha. apply head_begins. intros rest. exists f. by apply head_abbr. Qed.
Lemma begins_source w : plain_ident w -> begins T (source_name w) w (T ++ [w]).
Proof. intros Hw. apply head_begins. intros rest. exists Arguments_. by apply head_source. Qed.
Lemma stands_nested e key T1 : begins T e key T1 -> stands T (B "N" ++ e ++ B "E") key T1.
Proof.
  intros He rest _. destruct (He ("E"%char :: rest) (key, rest, T1)) as [n Hn]; [by apply reads_now|]. exists (S n). intros [|k] Hk; [lia|].
  rewrite <- !app_assoc. change (B "N" ++ e ++ B "E" ++ rest) with ("N"%char :: e ++ "E"%char :: rest). cbn [read_type].
  rewrite no_letter by done.
  change (byte_eqb "N" "V") with false. change (byte_eqb "N" "A") with false. change (byte_eqb "N" "T") with false.
  change (byte_eqb "N" "F") with false. change (byte_eqb "N" "N") with true. apply Hn. lia.
Qed.
End Whole.

(** ** The entities of a type

    In the order in which a symbol numbers them: each with its key and the keys of
    the entities within it. *)

Definition entity : Type := bytes * list bytes.
Definition with_key (k : bytes) (acc : list entity) : list entity := acc ++ [(k, map fst acc)].
Section Entities.
Context (under : TypeNode -> list entity).
Definition component_entities (c : name_component TypeNode) (scoped canon : bytes) (acc : list entity) : list entity :=
  match targs c with
  | None => if is_nil (std_abbrev scoped) then with_key canon acc else acc
  | Some l =>
      if is_nil (std_complete_abbrev scoped l)
      then with_key canon ((if is_nil (std_abbrev scoped) then with_key scoped acc else acc) ++ flat_map under l) else acc
  end.
Fixpoint chain_entities (chain : list (name_component TypeNode)) (first : bool) (scoped canon : bytes) (acc : list entity) : list entity :=
  match chain with
  | [] => acc
  | c :: r =>
      let scoped := after_name first scoped (ident c) in
      let canon := after_name first canon (canon_component canon_type c) in
      chain_entities r false scoped canon (component_entities c scoped canon acc)
  end.
End Entities.
Fixpoint deco_entities (ds : list bytes) (canon : bytes) (acc : list entity) : list entity :=
  match ds with [] => acc | d :: r => deco_entities r (d ++ canon) (with_key (d ++ canon) acc) end.
Fixpoint entities (t : TypeNode) : list entity :=
  let canon := canon_type_core t in
  deco_entities (rev (decos t)) canon
    match t with
    | Builtin _ _ => []
    | Tparam _ _ => [(canon, [])]
    | Funcptr _ r ps => with_key canon (entities r ++ flat_map entities ps)
    | Named _ name _ => chain_entities entities name true [] [] []
    end.
(** The keys tell the entities apart: a key is no abbreviation's nor one of an
    entity within, and entities of one key have the same entities within. *)
Definition told_apart (U : list entity) : bool :=
  forallb (fun '(k, b) => is_nil (std_abbrev k) && negb (bool_decide (k ∈ b)) &&
    forallb (fun '(k', b') => negb (bytes_eqb k k') || forallb (fun x => bool_decide (x ∈ b')) b) U) U.
(** Candidates that hold, with an entity, the entities within. *)
Definition table_ok (U : list entity) (K : list bytes) : bool :=
  forallb (fun k => is_nil (std_abbrev k)) K && forallb (fun '(k, b) => negb (bool_decide (k ∈ K)) || forallb (fun x => bool_decide (x ∈ K)) b) U.

(** Six types whose keys tell them apart; a pointer to [A] and a class [PA]. *)
Example told_apart_ex :
  let T : Target := false in
  let apart l := match pmap parse_param_type (map B l) with Parsed ts => told_apart (flat_map entities ts) | _ => false end in
  apart ["const A&"; "ui::Box<A, ui::B>"; "void (*)(A, std::basic_string<char>)"; "ui::Box<int>[3]"; "$T12"; "std::pair<ui::B, $T12>::U"]%string = true /\
  apart ["A*"; "PA"]%string = false /\ apart ["A (*)(B)"; "AB (*)()"]%string = false.
Proof. vm_compute. done. Qed.

Lemma with_key_keys k acc : map fst (with_key k acc) = map fst acc ++ [k].
Proof. unfold with_key. by rewrite map_app. Qed.
Lemma with_key_grows k acc : acc ⊆ with_key k acc.
Proof. unfold with_key. set_solver. Qed.
Lemma chain_entities_grow f l first scoped canon acc : acc ⊆ chain_entities f l first scoped canon acc.
Proof.
  revert first scoped canon acc. induction l as [|c l IH]; intros first scoped canon acc; [done|]. cbn [chain_entities]. cbv zeta.
  etrans; [|apply IH]. unfold component_entities, with_key. destruct (targs c) as [l'|]; case_if; [|done|set_solver|done]. case_if; set_solver.
Qed.
Lemma deco_entities_grow ds canon acc : acc ⊆ deco_entities ds canon acc.
Proof. revert canon acc. induction ds as [|d ds IH]; intros canon acc; [done|]. cbn [deco_entities]. etrans; [|apply IH]. apply with_key_grows. Qed.
Lemma deco_entities_app a b canon acc : deco_entities (a ++ b) canon acc = deco_entities b (concat (rev a) ++ canon) (deco_entities a canon acc).
Proof.
  revert canon acc. induction a as [|d a IH]; intros canon acc; [done|]. cbn [app deco_entities rev]. rewrite IH, concat_app. cbn [concat].
  by rewrite app_nil_r, <- app_assoc.
Qed.

(** ** The candidates *)

Lemma key_index_nth k l i : key_index k l = Some i -> nth_error l i = Some k.
Proof.
  revert i. induction l as [|x l IH]; intros i; [done|]. cbn [key_index]. destruct (bytes_eqb x k) eqn:E.
  - apply bytes_eqb_eq in E as ->. by intros [= <-].
  - destruct (key_index k l) as [j|]; [|done]. intros [= <-]. by apply IH.
Qed.
Lemma key_index_in k l i : key_index k l = Some i -> k ∈ l.
Proof. intros H%key_index_nth. apply list_elem_of_In. by eapply nth_error_In. Qed.
Lemma key_index_absent k l : key_index k l = None -> k ∉ l.
Proof.
  induction l as [|x l IH]; [intros _; apply not_elem_of_nil|]. cbn [key_index]. destruct (bytes_eqb x k) eqn:E; [done|].
  destruct (key_index k l); [done|]. intros _ [->|Hin]%elem_of_cons; [by rewrite bytes_eqb_refl in E|by apply IH].
Qed.
(** [K'] holds [K] and behind it those of [b] that [K] had not. *)
Definition adds (K b K' : list bytes) : Prop := exists new, K' = K ++ new /\ (forall k, k ∈ new -> k ∉ K /\ k ∈ b) /\ b ⊆ K'.
Lemma adds_none K : adds K [] K.
Proof. exists []. split; [by rewrite app_nil_r|]. split; [by intros k ?%not_elem_of_nil|set_solver]. Qed.
Lemma adds_known K b K' : adds K b K' -> b ⊆ K -> K' = K.
Proof.
  intros (new & -> & Hn & _) Hb. destruct new as [|k new]; [apply app_nil_r|]. destruct (Hn k) as [H1 H2]; [by left|]. by apply Hb in H2.
Qed.
Lemma adds_more K b K1 b' K2 : adds K b K1 -> adds K1 b' K2 -> adds K (b ++ b') K2.
Proof.
  intros (n1 & -> & H1 & Hb1) (n2 & -> & H2 & Hb2). exists (n1 ++ n2). rewrite app_assoc. split; [done|]. split.
  - intros k [Hk|Hk]%elem_of_app; [destruct (H1 k Hk)|destruct (H2 k Hk)]; set_solver.
  - set_solver.
Qed.
Lemma adds_within K b K' k : adds K b K' -> k ∈ K' -> k ∉ b -> k ∈ K.
Proof. intros (new & -> & Hn & _) [Hk|Hk]%elem_of_app Hb; [done|]. by destruct (Hn k Hk). Qed.

Section Apart.
Context (U : list entity) (apart : told_apart U = true).
Lemma apart_entity k b : (k, b) ∈ U -> std_abbrev k = [] /\ k ∉ b /\ forall b', (k, b') ∈ U -> b ⊆ b'.
Proof.
  intros Hin. unfold told_apart in apart. rewrite forallb_forall in apart. specialize (apart (k, b) ltac:(by apply list_elem_of_In)).
  cbv beta iota in apart. apply andb_prop in apart as [[H1 H2]%andb_prop H3]. split; [by destruct (std_abbrev k)|]. split.
  - apply negb_true_iff, bool_decide_eq_false in H2. done.
  - intros b' Hb'. rewrite forallb_forall in H3. specialize (H3 (k, b') ltac:(by apply list_elem_of_In)). cbv beta iota in H3.
    rewrite bytes_eqb_refl in H3. cbn [negb orb] in H3. rewrite forallb_forall in H3. intros x Hx. apply (bool_decide_eq_true (x ∈ b')), H3. by apply list_elem_of_In.
Qed.
Lemma table_ok_spec K : table_ok U K = true <-> (forall k, k ∈ K -> std_abbrev k = []) /\ (forall k b, (k, b) ∈ U -> k ∈ K -> b ⊆ K).
Proof.
  unfold table_ok. rewrite andb_true_iff, !forallb_forall. split.
  - intros [H1 H2]. split.
    + intros k Hk. specialize (H1 k ltac:(by apply list_elem_of_In)). by destruct (std_abbrev k).
    + intros k b Hin Hk. specialize (H2 (k, b) ltac:(by apply list_elem_of_In)). cbv beta iota in H2. rewrite bool_decide_eq_true_2 in H2 by done.
      cbn [negb orb] in H2. rewrite forallb_forall in H2. intros x Hx. apply (bool_decide_eq_true (x ∈ K)), H2. by apply list_elem_of_In.
  - intros [H1 H2]. split.
    + intros k Hk. by rewrite H1 by (by apply list_elem_of_In).
    + intros [k b] Hin. case_bool_decide as Hk; [|done]. cbn [negb orb]. apply forallb_forall. intros x Hx. apply bool_decide_eq_true.
      apply (H2 k b); [by apply list_elem_of_In|done|by apply list_elem_of_In].
Qed.
Lemma key_in_U k acc : with_key k acc ⊆ U -> (k, map fst acc) ∈ U.
Proof. intros H. apply H. unfold with_key. set_solver. Qed.
(** An entity whose inner entities are behind it: a key of the table was there
    before them, and nothing was added; any other becomes a candidate. *)
Lemma key_step K0 acc K k : table_ok U K0 = true -> table_ok U K = true -> adds K0 (map fst acc) K -> (k, map fst acc) ∈ U ->
  (key_index k K = None -> adds K0 (map fst (with_key k acc)) (K ++ [k]) /\ table_ok U (K ++ [k]) = true) /\
  (forall i, key_index k K = Some i -> K = K0 /\ nth_error K0 i = Some k /\ adds K0 (map fst (with_key k acc)) K0).
Proof.
  intros H0 HK Ha Hin. destruct (apart_entity _ _ Hin) as (Habb & Hnot & Hsame). rewrite with_key_keys. split.
  - intros Hn%key_index_absent. split.
    + eapply adds_more; [exact Ha|]. exists [k]. split; [done|]. split; [intros x Hx%list_elem_of_singleton; rewrite Hx; split; [done|by left]|set_solver].
    + apply table_ok_spec in HK as [H1 H2]. apply table_ok_spec. split.
      * intros x [Hx|Hx%list_elem_of_singleton]%elem_of_app; [by apply H1|by rewrite Hx].
      * destruct Ha as (new & -> & _ & Hb). intros x b Hxb [Hx|Hx%list_elem_of_singleton]%elem_of_app; [specialize (H2 x b Hxb Hx); set_solver|].
        subst x. destruct (apart_entity _ _ Hxb) as (_ & _ & Hsub). specialize (Hsub _ Hin). set_solver.
  - intros i Hi. pose proof (key_index_in _ _ _ Hi) as Hk. assert (Hk0 : k ∈ K0) by (by eapply adds_within).
    apply table_ok_spec in H0 as [_ H2]. specialize (H2 _ _ Hin Hk0). pose proof (adds_known _ _ _ Ha H2) as ->.
    split; [done|]. split; [by apply key_index_nth|]. exists []. split; [by rewrite app_nil_r|]. split; [by intros x ?%not_elem_of_nil|set_solver].
Qed.

(** ** Chains *)

Lemma abbr_cases scoped : std_abbrev scoped <> [] ->
  scoped = B "std" /\ std_abbrev scoped = B "St" \/
  abbreviated scoped = true /\ bytes_eqb scoped (B "std") = false /\ exists a, std_abbrev scoped = ["S"%char; a] /\ abbreviation a = Some (scoped, Arguments_).
Proof.
  unfold std_abbrev, rows_of. cbn [map lookup_code fst snd].
  destruct (bytes_eqb scoped (B "std")) eqn:E1; [apply bytes_eqb_eq in E1 as ->; by left|].
  destruct (bytes_eqb scoped (B "std::allocator")) eqn:E2; [apply bytes_eqb_eq in E2 as ->; right; split_and!; [done..|by exists "a"%char]|].
  destruct (bytes_eqb scoped (B "std::basic_string")) eqn:E3; [apply bytes_eqb_eq in E3 as ->; right; split_and!; [done..|by exists "b"%char]|done].
Qed.
Lemma complete_cases scoped l : std_complete_abbrev scoped l <> [] ->
  abbreviated scoped = true /\ exists a, std_complete_abbrev scoped l = ["S"%char; a] /\ abbreviation a = Some (with_args scoped (map canon_type l), Nothing_).
Proof.
  unfold std_complete_abbrev. destruct l as [|a [|b [|c [|]]]]; [done|done| | |done].
  - destruct (_ && _) eqn:E; [|done]. apply andb_prop in E as [Ea%bytes_eqb_eq Eb%bytes_eqb_eq]. unfold rows_of. cbn [map lookup_code fst snd]. rewrite Ea, Eb.
    destruct (bytes_eqb scoped (B "std::basic_istream")) eqn:E1; [apply bytes_eqb_eq in E1 as ->; intros _; split; [done|by exists "i"%char]|].
    destruct (bytes_eqb scoped (B "std::basic_ostream")) eqn:E2; [apply bytes_eqb_eq in E2 as ->; intros _; split; [done|by exists "o"%char]|].
    destruct (bytes_eqb scoped (B "std::basic_iostream")) eqn:E3; [apply bytes_eqb_eq in E3 as ->; intros _; split; [done|by exists "d"%char]|done].
  - destruct (_ && _) eqn:E; [|done]. apply andb_prop in E as [[[Es%bytes_eqb_eq Ea%bytes_eqb_eq]%andb_prop Eb%bytes_eqb_eq]%andb_prop Ec%bytes_eqb_eq].
    intros _. subst scoped. split; [done|]. exists "s"%char. split; [done|]. cbn [map]. by rewrite Ea, Eb, Ec.
Qed.

Lemma colon_split (a b w w' : bytes) : ":"%char ∉ w -> ":"%char ∉ w' -> a ++ B "::" ++ w = b ++ B "::" ++ w' -> a = b.
Proof.
  intros Hw Hw' E. assert (Hr : forall l l' r r' : bytes, ":"%char ∉ l -> ":"%char ∉ l' -> l ++ ":"%char :: r = l' ++ ":"%char :: r' -> r = r').
  { induction l as [|x l IH]; intros [|y l'] r r' Hl Hl' H; cbn [app] in H.
    - by injection H.
    - injection H as <- _. destruct Hl'. left.
    - injection H as -> _. destruct Hl. left.
    - injection H as _ H. eapply IH; [| |exact H]; intros ?; [apply Hl|apply Hl']; by right. }
  apply (f_equal (@rev ascii)) in E. rewrite !rev_app_distr in E. change (rev (B "::")) with [":"; ":"]%char in E. rewrite <- !app_assoc in E. cbn [app] in E.
  apply Hr in E; [|intros Hin%list_elem_of_In%in_rev%list_elem_of_In; by first [apply Hw|apply Hw']..]. injection E as E. by rewrite <- (rev_involutive a), E, rev_involutive.
Qed.
Lemma plain_colon w : plain_ident w -> ":"%char ∉ w.
Proof. intros (Hw & _ & _) Hin. rewrite Forall_forall in Hw. by specialize (Hw _ Hin). Qed.
(** A name an abbreviation can stand for is one of [std]. *)
Lemma abbreviated_in first pre w : plain_ident w -> abbreviated (after_name first pre w) = true -> first = false /\ pre = B "std".
Proof.
  intros Hw%plain_colon Ha. assert (H : exists w', ":"%char ∉ w' /\ after_name first pre w = B "std" ++ B "::" ++ w').
  { unfold abbreviated in Ha. apply existsb_exists in Ha as (x & Hin & ->%bytes_eqb_eq). cbn [map In] in Hin.
    repeat (destruct Hin as [<-|Hin]; [eexists; split; [|reflexivity]; apply (bool_decide_eq_false (_ ∈ _)); vm_compute; reflexivity|]). done. }
  destruct H as (w' & Hw' & E). destruct first; cbn [after_name] in E.
  - destruct Hw. rewrite E, !elem_of_app. right. left. left.
  - split; [done|]. by apply (colon_split _ _ w w').
Qed.

(** A list of types writes pieces that read as their keys. *)
Definition writes_list (l : list TypeNode) : Prop := forall m, flat_map entities l ⊆ U -> table_ok U (keys_ m) = true ->
  let p := encode_list encode_type l m in
  adds (keys_ m) (map fst (flat_map entities l)) (keys_ p.2) /\ table_ok U (keys_ p.2) = true /\ lists (keys_ m) p.1 (map canon_type l) (keys_ p.2).
Definition writes_targs (c : name_component TypeNode) : Prop := match targs c with Some l => writes_list l | None => True end.

(** The state of the loop before a chain, the components [r] still to come; [acc]
    the entities of those behind, [K] the candidates now. *)
Section Chain.
Context (K0 : list bytes) (start_ok : table_ok U K0 = true).
Definition start_state (s : name_state) : Prop := s = Name_state [] [] true [] 0 false false.
Definition at_std (s : name_state) : Prop := s = Name_state (B "std") (B "std") false (B "St") 0 false false.
Record named {A} (seen : bool) (r : list A) (s : name_state) (K : list bytes) : Prop := Named_state {
  nm_first : n_first s = false;
  nm_std : n_scoped s <> B "std";
  nm_begins : begins K0 (encoded s) (n_canon s) K;
  nm_stands : srcNameCount s < 2 -> refPrefixed s = false -> stands K0 (encoded s) (n_canon s) K;
  nm_open : r <> [] -> srcNameCount s = 0 -> bareRef s || refPrefixed s = true;
  nm_seen : seen = false -> n_canon s = n_scoped s }.
Definition good {A} (acc : list entity) (seen : bool) (r : list A) (s : name_state) (K : list bytes) : Prop :=
  table_ok U K = true /\ adds K0 (map fst acc) K /\
  ((seen = false /\ acc = [] /\ K = K0 /\ (start_state s \/ r <> [] /\ at_std s)) \/ named seen r s K).
Lemma good_seen {A} acc (r : list A) s K : good acc false r s K -> n_canon s = n_scoped s.
Proof. intros (_ & _ & [(_ & _ & _ & [->|[_ ->]])|H]); [done..|by apply H]. Qed.
(** A source name goes on from any state. *)
Lemma name_goes_on {A} acc seen (c : A) r s K w : good acc seen (c :: r) s K -> plain_ident w ->
  let k := after_name (n_first s) (n_canon s) w in
  begins K0 (encoded s ++ source_name w) k (K ++ [k]) /\
  (srcNameCount s = 0 -> refPrefixed s || bareRef s = false -> opens K0 (encoded s ++ source_name w) k (K ++ [k])).
Proof.
  intros (_ & _ & [(_ & _ & -> & [->|[_ ->]])|H]) Hw; cbn [encoded n_first n_canon srcNameCount refPrefixed bareRef after_name].
  - split; [by apply begins_source|intros _ _; by apply opens_source].
  - split; [|intros _ _; by apply opens_std_name]. apply begins_name; [by apply (begins_abbr K0 "t" _ A_name)|done].
  - rewrite (nm_first _ _ _ _ H). cbn [after_name]. split; [apply begins_name; [apply H|done]|].
    intros H0 Hb. pose proof (nm_open _ _ _ _ H ltac:(done) H0) as Ho. rewrite orb_comm in Ho. by rewrite Ho in Hb.
Qed.

Definition next_scoped {A} (c : name_component A) (s : name_state) : bytes := after_name (n_first s) (n_scoped s) (ident c).
Definition next_canon (c : name_component TypeNode) (s : name_state) : bytes := after_name (n_first s) (n_canon s) (canon_component canon_type c).
Definition templ {A} (c : name_component A) : bool := match targs c with Some _ => true | None => false end.
Lemma component_sets c s m : let s' := (encode_component encode_type c s m).1 in
  n_first s' = false /\ n_scoped s' = next_scoped c s /\ n_canon s' = next_canon c s.
Proof.
  unfold encode_component, next_scoped, next_canon. destruct (targs c) as [l|] eqn:E.
  - destruct (negb _); [done|]. destruct (match find_sub m _ with Some _ => _ | None => _ end) as [[[[[tp ir] n] rp] br] m1].
    destruct (encode_list encode_type l m1) as [args m2]. by destruct (find_sub m2 _).
  - destruct (find_sub m _); [done|]. by destruct (negb _).
Qed.
Lemma chain_ok_cons {A} seen first scoped (c : name_component A) r : chain_ok seen first scoped (c :: r) = true ->
  let sc := after_name first scoped (ident c) in
  plain_ident (ident c) /\ (templ c = true -> seen = false) /\ (sc = B "std" -> r <> [] /\ templ c = false /\ seen = false) /\
  (abbreviated sc = true -> r = [] /\ seen = false) /\ chain_ok (seen || templ c) false sc r = true.
Proof.
  cbn [chain_ok]. fold (templ c). cbv zeta. set (sc := after_name _ _ _). intros H.
  apply andb_prop in H as [H Hr]. apply andb_prop in H as [H Ha]. apply andb_prop in H as [H Hs]. apply andb_prop in H as [Hp Ht].
  split_and!; [by apply plain_identb_sound| | | |done].
  - intros E. rewrite E in Ht. by destruct seen.
  - intros ->. rewrite bytes_eqb_refl in Hs. destruct r; [done|]. by destruct (templ c), seen.
  - intros E. rewrite E in Ha. destruct r; [|done]. by destruct seen.
Qed.
Lemma std_is_first p w : p ++ B "::" ++ w <> B "std".
Proof.
  intros E. assert (Hin : ":"%char ∈ B "std") by (rewrite <- E, !elem_of_app; right; left; left).
  repeat (apply elem_of_cons in Hin as [[=]|Hin]). by apply not_elem_of_nil in Hin.
Qed.
Lemma good_std {A} acc seen (r : list A) s K w : good acc seen r s K -> after_name (n_first s) (n_scoped s) w = B "std" ->
  start_state s /\ acc = [] /\ K = K0.
Proof.
  intros (_ & _ & [(_ & Ha & HK & [Hs|[_ ->]])|Hn]) E; [done| |].
  - by apply std_is_first in E.
  - rewrite (nm_first _ _ _ _ Hn) in E. by apply std_is_first in E.
Qed.
Lemma good_abbreviated {A} acc seen (r : list A) s K w : good acc seen r s K -> plain_ident w ->
  abbreviated (after_name (n_first s) (n_scoped s) w) = true -> acc = [] /\ K = K0.
Proof.
  intros (_ & _ & [(_ & Ha & HK & _)|Hn]) Hw E; [done|]. destruct (abbreviated_in _ _ _ Hw E) as [_ Hs]. by destruct (nm_std _ _ _ _ Hn).
Qed.
(** A name an abbreviation stands for is no candidate. *)
Lemma good_fresh {A} acc seen (r : list A) s m k : good acc seen r s (keys_ m) -> std_abbrev k <> [] -> find_sub m k = None.
Proof.
  intros (H & _) Hk. unfold find_sub. destruct (key_index k (keys_ m)) as [i|] eqn:E; [|done].
  apply key_index_in in E. apply table_ok_spec in H as [H _]. by destruct (Hk (H k E)).
Qed.
(** A key with its entity's: there already, or a new candidate. *)
Lemma candidate acc k m : table_ok U (keys_ m) = true -> adds K0 (map fst acc) (keys_ m) -> (k, map fst acc) ∈ U ->
  match find_sub m k with
  | Some ref => keys_ m = K0 /\ adds K0 (map fst (with_key k acc)) K0 /\ begins K0 ref k K0 /\ stands K0 ref k K0
  | None => keys_ (add_sub m k) = keys_ m ++ [k] /\ adds K0 (map fst (with_key k acc)) (keys_ m ++ [k]) /\ table_ok U (keys_ m ++ [k]) = true
  end.
Proof.
  intros Hm Ha Hin. destruct (key_step K0 acc (keys_ m) k start_ok Hm Ha Hin) as [Hn Hs]. unfold find_sub, add_sub.
  destruct (key_index k (keys_ m)) as [i|].
  - destruct (Hs i eq_refl) as (HK & Hi & Had). split; [done|]. split; [done|]. split; [by apply begins_ref|by apply stands_ref].
  - destruct (Hn eq_refl). done.
Qed.
(** A component without arguments. *)
Lemma plain_step c s m acc seen r : targs c = None -> chain_ok seen (n_first s) (n_scoped s) (c :: r) = true ->
  let acc' := component_entities entities c (next_scoped c s) (next_canon c s) acc in
  acc' ⊆ U -> good acc seen (c :: r) s (keys_ m) ->
  let p := encode_component encode_type c s m in good acc' (seen || templ c) r p.1 (keys_ p.2).
Proof.
  intros Ht Hok acc' HU Hg. unfold acc', component_entities in *. clear acc'. rewrite Ht in *. apply chain_ok_cons in Hok as (Hp & _ & Hstd & Habb & _). cbv zeta.
  fold (next_scoped c s) in *.
  assert (Hcanon : canon_component canon_type c = ident c) by (unfold canon_component; rewrite Ht; apply app_nil_r).
  unfold templ, encode_component. rewrite Ht, orb_false_r. fold (next_scoped c s) (next_canon c s).
  assert (Hcs : seen = false -> next_canon c s = next_scoped c s).
  { intros ->. unfold next_canon, next_scoped. by rewrite Hcanon, (good_seen _ _ _ _ Hg). }
  destruct (is_nil (std_abbrev (next_scoped c s))) eqn:En.
  - assert (Hns : next_scoped c s <> B "std") by (intros E; by rewrite E in En). apply key_in_U in HU.
    pose proof (candidate acc (next_canon c s) m (proj1 Hg) (proj1 (proj2 Hg)) HU) as Hc. destruct (find_sub m (next_canon c s)) as [ref|]; cbn [negb fst snd].
    + destruct Hc as (HK & Ha & Hb & Hs). rewrite HK. split; [done|split; [done|right]]. by split; cbn.
    + destruct Hc as (HK & Ha & Hk). rewrite HK. split; [done|split; [done|right]].
      destruct (name_goes_on acc seen c r s (keys_ m) (ident c) Hg Hp) as [Hb Ho]. rewrite component_plain by apply Hp. unfold next_canon in *. rewrite Hcanon in *.
      split; cbn; [done|done|exact Hb| |lia|exact Hcs]. intros Hc Hrp. apply opens_stands, Ho; [lia|done].
  - assert (Hne : std_abbrev (next_scoped c s) <> []) by (by destruct (std_abbrev _)).
    destruct (abbr_cases _ Hne) as [[Es Ea]|(Ha & Es & a & Ea & Hab)].
    + destruct (Hstd Es) as (Hr & _ & Hse). rewrite (Hcs Hse), (good_fresh _ _ _ _ _ _ Hg Hne). cbn [negb fst snd].
      destruct (good_std _ _ _ _ _ _ Hg Es) as (Hst & Hacc & HK). split; [apply Hg|split; [apply Hg|left]]. split_and!; [done..|right].
      split; [done|]. unfold at_std. rewrite Ea, Es. by rewrite Hst.
    + destruct (Habb Ha) as [-> Hse]. rewrite (Hcs Hse), (good_fresh _ _ _ _ _ _ Hg Hne), Ea. cbn [negb fst snd is_nil].
      destruct (good_abbreviated _ _ _ _ _ _ Hg Hp Ha) as [Hacc HK]. rewrite HK. split; [by rewrite <- HK; apply Hg|split; [rewrite Hacc; apply adds_none|right]].
      split; cbn; [done|by intros E; rewrite E, bytes_eqb_refl in Es| | |done|done].
      * by apply (begins_abbr K0 a _ Arguments_).
      * intros _ _. by apply opens_stands, opens_abbr.
Qed.
(** The name of a template before its arguments. *)
Definition template_prefix (c : name_component TypeNode) (s : name_state) (m : mangler) : bytes * bool * nat * bool * mangler :=
  match find_sub m (next_scoped c s) with
  | Some r => (r, true, srcNameCount s, refPrefixed s, m)
  | None =>
      if negb (is_nil (std_abbrev (next_scoped c s))) then (std_abbrev (next_scoped c s), false, srcNameCount s, refPrefixed s, m)
      else (encoded s ++ component_source_name (ident c), false, S (srcNameCount s), refPrefixed s || bareRef s, add_sub m (next_scoped c s))
  end.
Lemma template_prefix_reads c s m acc r l : targs c = Some l -> chain_ok false (n_first s) (n_scoped s) (c :: r) = true ->
  let acc' := if is_nil (std_abbrev (next_scoped c s)) then with_key (next_scoped c s) acc else acc in
  acc' ⊆ U -> good acc false (c :: r) s (keys_ m) ->
  let '(tp, is_ref, n, rp, m') := template_prefix c s m in
  table_ok U (keys_ m') = true /\ adds K0 (map fst acc') (keys_ m') /\ begins K0 tp (next_scoped c s) (keys_ m') /\
  (n < 2 -> rp || is_ref = false -> opens K0 tp (next_scoped c s) (keys_ m')) /\ (r <> [] -> n = 0 -> rp || is_ref = true).
Proof.
  intros Ht Hok acc' HU Hg. apply chain_ok_cons in Hok as (Hp & _ & Hstd & Habb & _). unfold acc', template_prefix in *. clear acc'.
  fold (next_scoped c s) in *. destruct (is_nil (std_abbrev (next_scoped c s))) eqn:En.
  - apply key_in_U in HU. pose proof (candidate acc (next_scoped c s) m (proj1 Hg) (proj1 (proj2 Hg)) HU) as Hc.
    destruct (find_sub m (next_scoped c s)) as [ref|]; cbn [negb].
    + destruct Hc as (HK & Ha & Hb & Hs). rewrite HK, orb_true_r. done.
    + destruct Hc as (HK & Ha & Hk). rewrite HK. split; [done|split; [done|]].
      destruct (name_goes_on acc false c r s (keys_ m) (ident c) Hg Hp) as [Hb Ho]. rewrite component_plain by apply Hp. unfold next_scoped in *.
      rewrite <- (good_seen _ _ _ _ Hg) in *. rewrite orb_false_r. split; [exact Hb|split; [|lia]]. intros Hn Hrp. apply Ho; [lia|done].
  - assert (Hne : std_abbrev (next_scoped c s) <> []) by (by destruct (std_abbrev _)). rewrite (good_fresh _ _ _ _ _ _ Hg Hne). cbn [negb].
    destruct (abbr_cases _ Hne) as [[Es _]|(Ha & _ & a & Ea & Hab)].
    + destruct (Hstd Es) as (_ & Htc & _). unfold templ in Htc. by rewrite Ht in Htc.
    + destruct (Habb Ha) as [-> _]. destruct (good_abbreviated _ _ _ _ _ _ Hg Hp Ha) as [Hacc HK]. rewrite Ea. split; [apply Hg|split; [apply Hg|]]. rewrite HK.
      split_and!; [by apply (begins_abbr K0 a _ Arguments_)|intros _ _; by apply opens_abbr|done].
Qed.
Lemma canon_with_args c l s : targs c = Some l -> n_canon s = n_scoped s -> next_canon c s = with_args (next_scoped c s) (map canon_type l).
Proof.
  intros Ht E. unfold next_canon, next_scoped, canon_component, with_args, after_name. rewrite Ht, E.
  destruct (n_first s); by rewrite <- ?app_assoc.
Qed.
Lemma template_step c s m acc seen r l : targs c = Some l -> writes_list l -> chain_ok seen (n_first s) (n_scoped s) (c :: r) = true ->
  let acc' := component_entities entities c (next_scoped c s) (next_canon c s) acc in
  acc' ⊆ U -> good acc seen (c :: r) s (keys_ m) ->
  let p := encode_component encode_type c s m in good acc' (seen || templ c) r p.1 (keys_ p.2).
Proof.
  intros Ht Hl Hok acc' HU Hg. unfold acc', component_entities in *. clear acc'. rewrite Ht in *.
  pose proof (chain_ok_cons _ _ _ _ _ Hok) as (Hp & Hseen & Hstd & Habb & _). unfold templ in *. rewrite Ht, orb_true_r in *.
  rewrite (Hseen eq_refl) in *. clear seen Hseen. cbv zeta. fold (next_scoped c s) in *.
  unfold encode_component. rewrite Ht. cbv zeta. fold (next_scoped c s) (next_canon c s) in *.
  assert (Hns : next_scoped c s <> B "std") by (intros E; by destruct (Hstd E) as (_ & E2 & _)).
  destruct (is_nil (std_complete_abbrev (next_scoped c s) l)) eqn:En; cbn [negb].
  2:{ destruct (complete_cases (next_scoped c s) l) as (Ha & a & Ea & Hab); [by destruct (std_complete_abbrev _ _)|].
    destruct (Habb Ha) as [-> _]. destruct (good_abbreviated _ _ _ _ _ _ Hg Hp Ha) as [Hacc HK]. rewrite Ea. cbn [fst snd].
    rewrite (canon_with_args c l s Ht (good_seen _ _ _ _ Hg)). split; [apply Hg|split; [apply Hg|right]]. rewrite HK.
    split; cbn; [done|done|by eapply begins_abbr|intros _ _; by apply stands_whole|done|done]. }
  assert (HU1 : (if is_nil (std_abbrev (next_scoped c s)) then with_key (next_scoped c s) acc else acc) ⊆ U) by (etrans; [|exact HU]; unfold with_key; set_solver).
  assert (HU2 : flat_map entities l ⊆ U) by (etrans; [|exact HU]; unfold with_key; set_solver). apply key_in_U in HU.
  pose proof (template_prefix_reads c s m acc r l Ht Hok HU1 Hg) as Hpre. set (acc1 := if is_nil _ then with_key _ _ else acc) in *.
  assert (Hprefix : exists br, match find_sub m (next_scoped c s) with
     | Some r => (r, true, srcNameCount s, refPrefixed s, bareRef s, m)
     | None =>
         if negb (is_nil (std_abbrev (next_scoped c s))) then (std_abbrev (next_scoped c s), false, srcNameCount s, refPrefixed s, bareRef s, m)
         else (encoded s ++ component_source_name (ident c), false, S (srcNameCount s), refPrefixed s || bareRef s, false, add_sub m (next_scoped c s))
     end = let '(tp, is_ref, n, rp, m') := template_prefix c s m in (tp, is_ref, n, rp, br, m')).
  { unfold template_prefix. destruct (find_sub m _); [by eexists|]. by destruct (negb _); eexists. }
  destruct Hprefix as [br ->]. destruct (template_prefix c s m) as [[[[tp is_ref] n] rp] m1]. destruct Hpre as (Hok1 & Ha1 & Hb & Ho & Hz).
  destruct (Hl m1 HU2 Hok1) as (Ha2 & Hok2 & Hargs). destruct (encode_list encode_type l m1) as [args m2]. cbn [fst snd] in *.
  assert (Ha12 : adds K0 (map fst (acc1 ++ flat_map entities l)) (keys_ m2)) by (rewrite map_app; by eapply adds_more).
  pose proof (candidate _ (next_canon c s) m2 Hok2 Ha12 HU) as Hc. destruct (find_sub m2 (next_canon c s)) as [ref|]; cbn [fst snd].
  - destruct Hc as (HK & Ha & Hb' & Hs). rewrite HK. split; [done|split; [done|right]]. by split; cbn.
  - destruct Hc as (HK & Ha & Hk). rewrite HK. split; [done|split; [done|right]]. rewrite (canon_with_args c l s Ht (good_seen _ _ _ _ Hg)).
    split; cbn; [done|done| | |exact Hz|done].
    + by eapply begins_args.
    + intros Hn Hrp. eapply opens_args; [by apply Ho|done].
Qed.

(** A whole chain. *)
Lemma chain_reads l s m acc seen : Forall writes_targs l -> chain_ok seen (n_first s) (n_scoped s) l = true ->
  let acc' := chain_entities entities l (n_first s) (n_scoped s) (n_canon s) acc in
  acc' ⊆ U -> good acc seen l s (keys_ m) ->
  let p := encode_chain encode_type l s m in exists seen', good acc' seen' (@nil (name_component TypeNode)) p.1 (keys_ p.2).
Proof.
  intros Hl. revert s m acc seen. induction Hl as [|c l Hc Hl IH]; intros s m acc seen Hok acc' HU Hg; cbv zeta; cbn [encode_chain]; [by exists seen|].
  unfold acc' in *. clear acc'. cbn [chain_entities] in *. cbv zeta in HU. fold (next_scoped c s) (next_canon c s) in *.
  assert (HU1 : component_entities entities c (next_scoped c s) (next_canon c s) acc ⊆ U) by (etrans; [apply chain_entities_grow|exact HU]).
  assert (Hstep : let p := encode_component encode_type c s m in
    good (component_entities entities c (next_scoped c s) (next_canon c s) acc) (seen || templ c) l p.1 (keys_ p.2)).
  { unfold writes_targs in Hc. destruct (targs c) as [ta|] eqn:Et; [by eapply template_step|by apply plain_step]. }
  pose proof (component_sets c s m) as Hset. pose proof (chain_ok_cons _ _ _ _ _ Hok) as (_ & _ & _ & _ & Hrest).
  destruct (encode_component encode_type c s m) as [s1 m1]. cbv zeta in *. cbn [fst snd] in *. destruct Hset as (H1 & H2 & H3).
  fold (next_scoped c s) in Hrest. rewrite <- H1, <- H2 in Hrest. rewrite <- H1, <- H2, <- H3 in HU. rewrite <- H1, <- H2, <- H3.
  eapply IH; [exact Hrest|exact HU|]. by rewrite H2, H3.
Qed.
Lemma chain_canon l s m : let s' := (encode_chain encode_type l s m).1 in
  n_canon s' = if is_nil l then n_canon s else after_name (n_first s) (n_canon s) (join (B "::") (map (canon_component canon_type) l)).
Proof.
  revert s m. induction l as [|c l IH]; intros s m; cbv zeta; cbn [encode_chain is_nil]; [done|].
  pose proof (component_sets c s m) as Hset. destruct (encode_component encode_type c s m) as [s1 m1]. cbv zeta in *. cbn [fst] in *.
  destruct Hset as (H1 & _ & H3). rewrite IH, H3, H1. unfold next_canon. destruct l as [|d l]; cbn [is_nil]; [done|].
  change (map (canon_component canon_type) (c :: d :: l)) with (canon_component canon_type c :: map (canon_component canon_type) (d :: l)).
  rewrite join_cons by done. unfold after_name. destruct (n_first s); [done|]. by rewrite <- !app_assoc.
Qed.
Definition new_name : name_state := Name_state [] [] true [] 0 false false.
(** A name as a type of its own. *)
Lemma name_reads l m : keys_ m = K0 -> l <> [] -> Forall writes_targs l -> chain_ok false true [] l = true ->
  let acc := chain_entities entities l true [] [] [] in acc ⊆ U ->
  let p := encode_name_with encode_type l true m in
  adds K0 (map fst acc) (keys_ p.2) /\ table_ok U (keys_ p.2) = true /\ stands K0 p.1 (join (B "::") (map (canon_component canon_type) l)) (keys_ p.2).
Proof.
  intros HK Hne Hl Hok acc HU. cbv zeta. unfold encode_name_with. fold new_name. pose proof (chain_canon l new_name m) as Hcanon. cbv zeta in Hcanon.
  assert (Hg : good [] false l new_name (keys_ m)).
  { rewrite HK. split; [done|split; [apply adds_none|left]]. split_and!; [done..|by left]. }
  destruct (chain_reads l new_name m [] false Hl Hok HU Hg) as [seen' Hf]. change (chain_entities entities l (n_first new_name) _ _ []) with acc in Hf.
  destruct (encode_chain encode_type l new_name m) as [s m']. cbn [fst snd] in *. destruct Hf as (Htab & Hadd & Hf). split; [done|split; [done|]].
  replace (is_nil l) with false in Hcanon by (by destruct l).
  cbn [new_name n_first n_canon after_name] in Hcanon. rewrite <- Hcanon. clear Hg.
  destruct Hf as [(_ & _ & _ & [Hs|[Hx _]])|Hn]; [|done|].
  - exfalso. rewrite Hs in Hcanon. cbn [n_canon] in Hcanon. destruct l as [|c l]; [done|]. pose proof (chain_ok_cons _ _ _ _ _ Hok) as ((_ & Hi & _) & _).
    assert (Hc : canon_component canon_type c = []).
    { destruct l; [done|]. cbn [map] in Hcanon. rewrite join_cons in Hcanon by done. by apply eq_sym, app_eq_nil in Hcanon as [? _]. }
    unfold canon_component in Hc. apply app_eq_nil in Hc as [Hc _]. by rewrite Hc in Hi.
  - cbn [andb]. destruct (_ || _) eqn:E; [apply stands_nested, Hn|]. apply orb_false_iff in E as [E1 E2]. apply Hn; [|done].
    by apply Nat.leb_gt in E1.
Qed.
End Chain.

(** ** First bytes *)

Definition name_head (e : bytes) : Prop := exists c r, e = c :: r /\ (c = "S"%char \/ isdigit c = true).
Lemma name_head_app e w : e = [] \/ name_head e -> plain_ident w -> name_head (e ++ component_source_name w).
Proof.
  intros He Hw. rewrite component_plain by apply Hw. destruct He as [->|(c & r & -> & Hc)]; [|by exists c, (r ++ source_name w)].
  destruct (source_head w [] Hw) as (c & s & E & Hc). rewrite app_nil_r in E. exists c, s. tauto.
Qed.
Lemma find_sub_head m k r : find_sub m k = Some r -> name_head r.
Proof.
  unfold find_sub. destruct (key_index k (keys_ m)) as [i|]; [|done]. intros [= <-]. destruct (subref_head i) as [s ->].
  exists "S"%char, s. tauto.
Qed.
Lemma abbr_head scoped : std_abbrev scoped <> [] -> name_head (std_abbrev scoped).
Proof. intros [[_ ->]|(_ & _ & a & -> & _)]%abbr_cases; eexists "S"%char, _; split; [reflexivity|by left|reflexivity|by left]. Qed.
Lemma name_head_more e r : name_head e -> name_head (e ++ r).
Proof. intros (c & s & -> & Hc). by exists c, (s ++ r). Qed.
Lemma component_head c s m : plain_ident (ident c) -> encoded s = [] \/ name_head (encoded s) -> name_head (encoded (encode_component encode_type c s m).1).
Proof.
  intros Hp Hs. unfold encode_component. destruct (targs c) as [l|].
  - destruct (is_nil (std_complete_abbrev _ l)) eqn:En; cbn [negb].
    2:{ destruct (complete_cases (next_scoped c s) l) as (_ & a & Ea & _); [by intros E; unfold next_scoped in E; rewrite E in En|].
      unfold next_scoped in Ea. cbn [fst encoded]. rewrite Ea. exists "S"%char, [a]. tauto. }
    set (scoped := after_name _ (n_scoped s) _).
    assert (Htp : forall x, (match find_sub m scoped with
      | Some r => (r, true, srcNameCount s, refPrefixed s, bareRef s, m)
      | None => if negb (is_nil (std_abbrev scoped)) then (std_abbrev scoped, false, srcNameCount s, refPrefixed s, bareRef s, m)
                else (encoded s ++ component_source_name (ident c), false, S (srcNameCount s), refPrefixed s || bareRef s, false, add_sub m scoped)
      end) = x -> name_head x.1.1.1.1.1).
    { intros x <-. destruct (find_sub m scoped) eqn:Ef; [by eapply find_sub_head|]. destruct (is_nil (std_abbrev scoped)) eqn:Ea; cbn [negb].
      - by apply name_head_app.
      - apply abbr_head. intros E. by rewrite E in Ea. }
    cbv zeta. destruct (match find_sub m scoped with Some _ => _ | None => _ end) as [[[[[tp ir] n] rp] br] m1]. specialize (Htp _ eq_refl). cbn [fst] in Htp.
    destruct (encode_list encode_type l m1) as [args m2]. destruct (find_sub m2 _) eqn:Ef; cbn [fst encoded]; [by eapply find_sub_head|by apply name_head_more].
  - cbv zeta. set (scoped := after_name _ (n_scoped s) _). destruct (find_sub m _) eqn:Ef; cbn [fst encoded]; [by eapply find_sub_head|].
    destruct (is_nil (std_abbrev scoped)) eqn:Ea; cbn [negb fst encoded]; [by apply name_head_app|]. apply abbr_head. intros E. by rewrite E in Ea.
Qed.
Lemma chain_head l s m seen : l <> [] -> chain_ok seen (n_first s) (n_scoped s) l = true -> encoded s = [] \/ name_head (encoded s) ->
  name_head (encoded (encode_chain encode_type l s m).1).
Proof.
  revert s m seen. induction l as [|c l IH]; intros s m seen Hne Hok Hs; [done|]. cbn [encode_chain].
  pose proof (chain_ok_cons _ _ _ _ _ Hok) as (Hp & _ & _ & _ & Hrest). pose proof (component_head c s m Hp Hs) as Hh.
  pose proof (component_sets c s m) as Hset. destruct (encode_component encode_type c s m) as [s1 m1]. cbv zeta in Hset. cbn [fst] in *.
  destruct Hset as (H1 & H2 & _). unfold next_scoped in H2. rewrite <- H1, <- H2 in Hrest.
  destruct l as [|d l]; [done|]. eapply IH; [done|exact Hrest|by right].
Qed.

(** How an encoding of [t] begins: as no [I] or [E], and with [v] only for void. *)
Definition first_of (t : TypeNode) (e : bytes) : Prop :=
  match e with
  | c :: r => c <> "I"%char /\ c <> "E"%char /\ (c = "v"%char -> t = Builtin [] (B "v") /\ r = [])
  | [] => False
  end.
Definition not_K (e : bytes) : Prop := match e with c :: _ => byte_eqb c "K"%char = false | [] => False end.
Lemma name_head_first t e : name_head e -> first_of t e /\ not_K e.
Proof.
  intros (c & r & -> & [->|Hc]); [by split_and!|]. unfold first_of, not_K. rewrite byte_eqb_neq. split_and!; by intros ->.
Qed.
Lemma name_first t l m : l <> [] -> chain_ok false true [] l = true -> let e := (encode_name_with encode_type l true m).1 in first_of t e /\ not_K e.
Proof.
  intros Hne Hok. cbv zeta. unfold encode_name_with. fold new_name. pose proof (chain_head l new_name m false Hne Hok (or_introl eq_refl)) as Hh.
  destruct (encode_chain encode_type l new_name m) as [s m']. cbn [fst] in *. destruct (_ && _); [by split_and!|by apply name_head_first].
Qed.

(** ** Decorations *)

Lemma decorate_app a b canon e m : decorate (a ++ b) canon e m =
  let p := decorate a canon e m in decorate b (concat (rev a) ++ canon) p.1 p.2.
Proof.
  revert canon e m. induction a as [|d a IH]; intros canon e m; [done|]. cbn [app decorate rev].
  rewrite concat_app. cbn [concat]. rewrite app_nil_r, <- app_assoc. destruct (find_sub m _); by rewrite IH.
Qed.
Lemma find_char_app c r x i : find_char c r = Some i -> find_char c (r ++ x) = Some i.
Proof.
  revert i. induction r as [|d r IH]; intros i; [done|]. cbn [app find_char]. destruct (byte_eqb d c); [done|].
  intros H. destruct (find_char c r) as [j|]; [|done]. by rewrite (IH j).
Qed.
(** One layer more. *)
Lemma stands_deco T d e k T1 : deco_ok d = true -> (cv d = true -> not_K e) -> stands T e k T1 -> stands T (d ++ e) (d ++ k) (T1 ++ [d ++ k]).
Proof.
  intros Hd Hk He rest Hr. specialize (He rest Hr). rewrite <- app_assoc.
  assert (Hone : forall c, [c] ∈ map B ["P"; "R"; "O"; "K"]%string -> reads (fun f => read_type f T ([c] ++ e ++ rest)) ([c] ++ k, rest, T1 ++ [[c] ++ k])).
  { intros c Hin. eapply reads_then; [exact He|]. intros fuel Hf. cbn [app read_type]. rewrite (bool_decide_eq_true_2 _ Hin). by rewrite Hf. }
  unfold deco_ok in Hd. apply orb_prop in Hd as [[Hc|Hp%bool_decide_eq_true]%orb_prop|Ha].
  - specialize (Hk Hc). apply bool_decide_eq_true in Hc. apply elem_of_cons in Hc as [->|Hc]; [apply Hone; do 3 right; left|].
    apply elem_of_cons in Hc as [->|Hc].
    + destruct e as [|a e]; [done|]. eapply reads_then; [exact He|]. intros fuel Hf. change (B "V" ++ (a :: e) ++ rest) with ("V"%char :: a :: e ++ rest).
      cbn [read_type]. rewrite no_letter by done.
      change (byte_eqb "V" "V") with true. cbn in Hk. rewrite Hk. cbn [app] in Hf. by rewrite Hf.
    + apply list_elem_of_singleton in Hc as ->. eapply reads_then; [exact He|]. intros fuel Hf. change (B "VK" ++ e ++ rest) with ("V"%char :: "K"%char :: e ++ rest).
      cbn [read_type]. rewrite no_letter by done.
      change (byte_eqb "V" "V") with true. change (byte_eqb "K" "K") with true. by rewrite Hf.
  - repeat (apply elem_of_cons in Hp as [->|Hp]; [apply Hone; vm_compute; repeat constructor|]). by apply not_elem_of_nil in Hp.
  - destruct d as [|c d]; [done|]. apply andb_prop in Ha as [->%byte_eqb_eq Hi]. destruct (find_char "_"%char d) as [i|] eqn:Ei; [|done].
    apply Nat.eqb_eq in Hi. eapply reads_then; [exact He|]. intros fuel Hf. cbn [app read_type].
    rewrite no_letter by done.
    change (byte_eqb "A" "V") with false. change (byte_eqb "A" "A") with true. rewrite (find_char_app _ _ _ _ Ei), Hi, take_app_length, drop_app_length.
    by rewrite Hf.
Qed.
(** All layers: what stands for the core is turned into what stands for the type. *)
Lemma decorate_reads K0 ds canon acc e m : table_ok U K0 = true -> decos_ok ds = true -> not_K e ->
  let acc' := deco_entities (rev ds) canon acc in acc' ⊆ U ->
  table_ok U (keys_ m) = true -> adds K0 (map fst acc) (keys_ m) -> stands K0 e canon (keys_ m) ->
  let p := decorate (rev ds) canon e m in
  adds K0 (map fst acc') (keys_ p.2) /\ table_ok U (keys_ p.2) = true /\
  (ds = [] \/ (match p.1 with c :: _ => c <> "I"%char /\ c <> "E"%char /\ c <> "v"%char | [] => False end)) /\
  (match ds with d :: _ => cv d | [] => false end = false -> not_K p.1) /\
  stands K0 p.1 (concat ds ++ canon) (keys_ p.2).
Proof.
  intros H0 Hok HK acc' HU Hm Hadd Hst. unfold acc' in *. clear acc'. cbv zeta. induction ds as [|d ds IH]; [split_and!; [done|done|by left|done|done]|].
  cbn [decos_ok] in Hok. apply andb_prop in Hok as [[Hd Hadj]%andb_prop Hok]. cbn [rev] in *.
  rewrite deco_entities_app, rev_involutive in *. cbn [deco_entities] in *. rewrite decorate_app, rev_involutive. cbv zeta.
  specialize (IH Hok ltac:(etrans; [apply with_key_grows|exact HU])). set (p := decorate (rev ds) canon e m) in *. destruct IH as (Ha & Hp & _ & HpK & Hs).
  cbn [decorate]. replace (concat (d :: ds) ++ canon) with (d ++ concat ds ++ canon) by (cbn [concat]; by rewrite <- app_assoc).
  apply key_in_U in HU. pose proof (candidate K0 H0 _ (d ++ concat ds ++ canon) p.2 Hp Ha HU) as Hc.
  destruct (find_sub p.2 _) as [ref|] eqn:Ef; cbn [fst snd].
  - destruct Hc as (HKp & Ha' & _ & Hs'). rewrite HKp. destruct (find_sub_head _ _ _ Ef) as (c & r & Er & Hc). split_and!; [done|done| | |done].
    + right. rewrite Er. destruct Hc as [->|Hc]; [done|]. split_and!; by intros ->.
    + intros _. eapply (name_head_first (Builtin [] [])). exists c, r. by split.
  - destruct Hc as (HKp & Ha' & Hp'). rewrite HKp. split_and!; [done|done| | |].
    + right. unfold deco_ok, cv in Hd. destruct d as [|c d]; [by vm_compute in Hd|]. cbn [app].
      assert (Hnot : forall x, c = x -> existsb (byte_eqb x) ["K"; "V"; "P"; "R"; "O"; "A"]%char = true).
      { intros x <-. apply orb_prop in Hd as [[Hc%bool_decide_eq_true|Hq%bool_decide_eq_true]%orb_prop|[->%byte_eqb_eq _]%andb_prop]; [..|done].
        - repeat (apply elem_of_cons in Hc as [[= -> ->]|Hc]; [done|]). by apply not_elem_of_nil in Hc.
        - repeat (apply elem_of_cons in Hq as [[= -> ->]|Hq]; [done|]). by apply not_elem_of_nil in Hq. }
      split_and!; intros E; by specialize (Hnot _ E).
    + intros Hc. unfold deco_ok in Hd. rewrite Hc in Hd. cbn [orb] in Hd. apply orb_prop in Hd as [Hq%bool_decide_eq_true|Hq].
      * repeat (apply elem_of_cons in Hq as [->|Hq]; [done|]). by apply not_elem_of_nil in Hq.
      * destruct d as [|c d]; [done|]. by apply andb_prop in Hq as [->%byte_eqb_eq _].
    + apply stands_deco; [done| |done]. intros Hc. rewrite Hc in Hadj. cbn [andb] in Hadj. apply negb_true_iff in Hadj. by apply HpK.
Qed.

(** ** Types *)

Definition writes (t : TypeNode) : Prop := readable_type t = true -> entities t ⊆ U -> forall m, table_ok U (keys_ m) = true ->
  let p := encode_type t m in
  adds (keys_ m) (map fst (entities t)) (keys_ p.2) /\ table_ok U (keys_ p.2) = true /\ first_of t p.1 /\ stands (keys_ m) p.1 (canon_type t) (keys_ p.2).
(** Nothing, or a byte that neither opens arguments nor ends a list. *)
Definition goes_on (e : bytes) : Prop := match e with c :: _ => c <> "I"%char /\ c <> "E"%char | [] => True end.
Lemma list_writes l : Forall writes l -> forallb readable_type l = true -> flat_map entities l ⊆ U ->
  writes_list l /\ forall m, table_ok U (keys_ m) = true -> goes_on (encode_list encode_type l m).1 /\ (l <> [] -> (encode_list encode_type l m).1 <> []) /\
    (void_only l = false -> starts_with ((encode_list encode_type l m).1 ++ B "E") (B "vE") = false).
Proof.
  intros H. induction H as [|t l Ht _ IH]; intros Hr HU.
  { split; [|intros m _; split; [done|split; [done|intros _; reflexivity]]]. intros m _ Hm. split; [apply adds_none|]. split; [done|]. intros rest. apply reads_now. done. }
  cbn [forallb flat_map] in *. apply andb_prop in Hr as [Hrt Hrl]. destruct (IH Hrl ltac:(set_solver)) as [HL HF]. clear IH. specialize (Ht Hrt ltac:(set_solver)).
  assert (HUl : flat_map entities l ⊆ U) by set_solver.
  assert (Hsplit : forall m, let x := encode_type t m in let y := encode_list encode_type l x.2 in encode_list encode_type (t :: l) m = (x.1 ++ y.1, y.2)).
  { intros m. cbv zeta. cbn [encode_list]. destruct (encode_type t m) as [x m1]. cbn [fst snd]. by destruct (encode_list encode_type l m1). }
  split.
  - intros m _ Hm. cbv zeta. specialize (Hsplit m). specialize (Ht m Hm). cbv zeta in *. rewrite Hsplit. destruct Ht as (Ha & Htab & Hf & Hs).
    destruct (HL (encode_type t m).2 HUl Htab) as (Ha2 & Htab2 & Hl2).
    destruct (HF (encode_type t m).2 Htab) as (Hgo & _ & _). cbn [fst snd flat_map]. rewrite map_app. split; [by eapply adds_more|]. split; [done|]. intros rest. specialize (Hl2 rest).
    set (y := (encode_list encode_type l (encode_type t m).2).1) in *.
    assert (Hst : reads (fun f => read_type f (keys_ m) ((encode_type t m).1 ++ y ++ "E"%char :: rest)) (canon_type t, y ++ "E"%char :: rest, keys_ (encode_type t m).2)).
    { apply Hs. destruct y as [|c y]; [done|]. apply Hgo. }
    eapply reads_both; [exact Hst|exact Hl2|]. intros fuel E1 E2. rewrite <- app_assoc.
    destruct ((encode_type t m).1) as [|c x]; [done|]. destruct Hf as (_ & HE & _). apply byte_eqb_neq in HE. cbn [app] in *. cbn [read_types]. by rewrite HE, E1, E2.
  - intros m Hm. specialize (Hsplit m). specialize (Ht m Hm). cbv zeta in *. rewrite Hsplit. destruct Ht as (_ & Htab & Hf & _). destruct (HF (encode_type t m).2 Htab) as (Hgo & Hne & _). cbn [fst snd].
    set (y := (encode_list encode_type l (encode_type t m).2).1) in *. destruct ((encode_type t m).1) as [|c x]; [done|]. destruct Hf as (HI & HE & Hv).
    split; [done|split; [done|]]. intros Hvo. apply not_true_iff_false. intros Hx%bytes_eqb_eq. cbn [app] in Hx.
    change (take (length (B "vE")) (c :: (x ++ y) ++ B "E")) with (c :: take 1 ((x ++ y) ++ B "E")) in Hx. injection Hx as -> Hx.
    destruct (Hv eq_refl) as [-> ->]. cbn [app] in Hx. destruct y as [|a y'].
    + destruct l as [|t' l]; [done|]. by apply Hne.
    + cbn in Hx. injection Hx as ->. by destruct Hgo as [_ []].
Qed.
(** A function type. *)
Lemma fn_stands T x kr T1 y ks T2 : stands T x kr T1 -> goes_on y ->
  (y = B "v" /\ ks = [] /\ T2 = T1 \/ lists T1 y ks T2 /\ starts_with (y ++ B "E") (B "vE") = false) ->
  let key := B "F" ++ kr ++ concat ks ++ B "E" in stands T (B "F" ++ x ++ y ++ B "E") key (T2 ++ [key]).
Proof.
  intros Hx Hgo Hy key rest _. unfold key. rewrite <- !app_assoc. change (B "F" ++ x ++ y ++ B "E" ++ rest) with ("F"%char :: x ++ y ++ "E"%char :: rest).
  assert (Hr : reads (fun f => read_type f T (x ++ y ++ "E"%char :: rest)) (kr, y ++ "E"%char :: rest, T1)).
  { apply Hx. destruct y as [|c y]; [done|]. apply Hgo. }
  assert (Hstep : forall fuel, read_type (S fuel) T ("F"%char :: x ++ y ++ "E"%char :: rest) =
    match read_type fuel T (x ++ y ++ "E"%char :: rest) with
    | Some (ret, r, T) =>
        if starts_with r (B "vE") then registers (B "F" ++ ret ++ B "E") (drop 2 r) T
        else match read_types fuel T r with Some (ps, r, T) => registers (B "F" ++ ret ++ concat ps ++ B "E") r T | None => None end
    | None => None
    end) by (intros fuel; cbn [read_type]; by rewrite no_letter).
  destruct Hy as [(-> & -> & ->)|[Hl Hv]].
  - eapply reads_then; [exact Hr|]. intros fuel E. by rewrite Hstep, E.
  - eapply reads_both; [exact Hr|exact (Hl rest)|]. intros fuel E1 E2. rewrite Hstep, E1.
    replace (starts_with (y ++ "E"%char :: rest) (B "vE")) with false; [by rewrite E2|].
    transitivity (starts_with (y ++ B "E") (B "vE")); [by symmetry|]. destruct y as [|a [|b y]]; [|reflexivity..].
    symmetry. apply not_true_iff_false. by intros Hxx%bytes_eqb_eq.
Qed.
Lemma tparam_stands T n : let key := B "$T" ++ to_string (Z.of_nat n) in stands T (numbered "T" n) key (T ++ [key]).
Proof.
  intros key rest _. unfold key. apply reads_now. intros fuel. destruct (number_read "T" n rest) as (s & -> & Hn & _). cbn [app read_type].
  rewrite no_letter by done. change (byte_eqb "T" "V") with false. change (byte_eqb "T" "A") with false. change (byte_eqb "T" "T") with true. by rewrite Hn.
Qed.
Lemma code_stands T c : existsb (bytes_eqb c) codes = true ->
  stands T c (B "#" ++ c) T /\ first_of (Builtin [] c) c /\ not_K c.
Proof.
  intros Hin%existsb_exists. destruct Hin as (c' & Hin & E%bytes_eqb_eq). subst c'. unfold codes in Hin. cbn [map In] in Hin.
  repeat (destruct Hin as [<-|Hin]; [split; [intros rest _; apply reads_now; intros fuel; reflexivity|split; [by split_and!|done]]|]). done.
Qed.
(** The core under its decorations. *)
Definition core (t : TypeNode) (m : mangler) : bytes * mangler :=
  match t with
  | Tparam _ n => match find_sub m (canon_type_core t) with Some r => (r, m) | None => (tparam_ref n, add_sub m (canon_type_core t)) end
  | Funcptr _ r ps =>
      match find_sub m (canon_type_core t) with
      | Some ref => (ref, m)
      | None =>
          let '(x, m) := encode_type r m in
          let '(y, m) := if is_nil ps then (B "v", m) else encode_list encode_type ps m in
          (B "F" ++ x ++ y ++ B "E", add_sub m (canon_type_core t))
      end
  | Builtin _ c => (c, m)
  | Named _ name invalid => encode_name_with encode_type name true (if invalid then Mangler (keys_ m) true else m)
  end.
Definition core_entities (t : TypeNode) : list entity :=
  match t with
  | Builtin _ _ => []
  | Tparam _ _ => [(canon_type_core t, [])]
  | Funcptr _ r ps => with_key (canon_type_core t) (entities r ++ flat_map entities ps)
  | Named _ name _ => chain_entities entities name true [] [] []
  end.
Lemma encode_core t m : encode_type t m = let '(e, m1) := core t m in decorate (rev (decos t)) (canon_type_core t) e m1.
Proof. by destruct t. Qed.
Lemma entities_core t : entities t = deco_entities (rev (decos t)) (canon_type_core t) (core_entities t).
Proof. by destruct t. Qed.
Lemma canon_decos t : canon_type t = concat (decos t) ++ canon_type_core t.
Proof. by destruct t. Qed.
Definition writes_core (t : TypeNode) (m : mangler) (p : bytes * mangler) : Prop :=
  adds (keys_ m) (map fst (core_entities t)) (keys_ p.2) /\ table_ok U (keys_ p.2) = true /\
  first_of (set_decos t []) p.1 /\ not_K p.1 /\ stands (keys_ m) p.1 (canon_type_core t) (keys_ p.2).
(** Writing a core is enough. *)
Lemma core_writes t : (readable_type t = true -> core_entities t ⊆ U -> forall m, table_ok U (keys_ m) = true -> writes_core t m (core t m)) -> writes t.
Proof.
  intros H Hr HU m Hm. rewrite entities_core in HU. assert (HUc : core_entities t ⊆ U) by (etrans; [apply deco_entities_grow|exact HU]).
  specialize (H Hr HUc m Hm). unfold writes_core in H. cbv zeta. rewrite encode_core, entities_core, canon_decos. destruct H as (Ha & Htab & Hf & HK & Hs). destruct (core t m) as [e m1]. cbn [fst snd] in *.
  assert (Hd : decos_ok (decos t) = true) by (destruct t; cbn [readable_type] in Hr; by apply andb_prop in Hr as [? _]).
  destruct (decorate_reads (keys_ m) (decos t) (canon_type_core t) (core_entities t) e m1 Hm Hd HK HU Htab Ha Hs) as (Ha2 & Htab2 & Hh & _ & Hst).
  split; [done|]. split; [done|]. split; [|done]. destruct Hh as [E|Hh].
  - rewrite E. cbn [rev decorate fst]. destruct t; cbn in E; subst; exact Hf.
  - unfold first_of. destruct (decorate _ _ _ _).1 as [|c r]; [done|]. destruct Hh as (H1 & H2 & H3). split_and!; [done|done|by intros ->].
Qed.
(** A reference to the core. *)
Lemma found_core t acc m r : table_ok U (keys_ m) = true -> core_entities t = with_key (canon_type_core t) acc -> core_entities t ⊆ U ->
  find_sub m (canon_type_core t) = Some r -> writes_core t m (r, m).
Proof.
  intros Hm Hc HU Hf. unfold writes_core. rewrite Hc in *. pose proof (name_head_first (set_decos t []) r (find_sub_head _ _ _ Hf)) as [H1 H2].
  apply key_in_U in HU. unfold find_sub in Hf. destruct (key_index (canon_type_core t) (keys_ m)) as [i|] eqn:Ei; [|done]. injection Hf as <-.
  apply table_ok_spec in Hm as Hm'. destruct Hm' as [_ Hcl]. specialize (Hcl _ _ HU (key_index_in _ _ _ Ei)). cbn [fst snd].
  split; [|split; [done|split; [done|split; [done|]]]].
  - exists []. rewrite app_nil_r. split; [done|]. split; [by intros k ?%not_elem_of_nil|]. rewrite with_key_keys. apply key_index_in in Ei. set_solver.
  - by apply stands_ref, key_index_nth.
Qed.
(** A core that is written out becomes a candidate behind those within. *)
Lemma new_core t acc m e m1 : table_ok U (keys_ m) = true -> core_entities t = with_key (canon_type_core t) acc -> core_entities t ⊆ U ->
  find_sub m (canon_type_core t) = None -> table_ok U (keys_ m1) = true -> adds (keys_ m) (map fst acc) (keys_ m1) ->
  first_of (set_decos t []) e -> not_K e -> stands (keys_ m) e (canon_type_core t) (keys_ m1 ++ [canon_type_core t]) ->
  writes_core t m (e, add_sub m1 (canon_type_core t)).
Proof.
  intros Hm Hc HU Hf Hm1 Ha H1 H2 H3. unfold writes_core. rewrite Hc in *. apply key_in_U in HU.
  pose proof (candidate (keys_ m) Hm acc (canon_type_core t) m1 Hm1 Ha HU) as Hcand. cbn [fst snd].
  destruct (find_sub m1 _) as [ref|] eqn:Ef.
  - exfalso. destruct Hcand as (E & _). unfold find_sub in Hf, Ef. rewrite E in Ef. by destruct (key_index _ (keys_ m)).
  - destruct Hcand as (E & Had & Htab). rewrite E. done.
Qed.
Lemma tparam_writes d n m : (0 <= n)%Z -> core_entities (Tparam d n) ⊆ U -> table_ok U (keys_ m) = true -> writes_core (Tparam d n) m (core (Tparam d n) m).
Proof.
  intros Hn HU Hm. cbn [core]. destruct (find_sub m _) as [ref|] eqn:Ef; [by apply (found_core (Tparam d n) [])|].
  unfold tparam_ref. destruct (number_read "T" (Z.to_nat n) []) as (s & Es & _).
  apply (new_core (Tparam d n) []); try done; [apply adds_none|by rewrite Es..|].
  change (canon_type_core (Tparam d n)) with (B "$T" ++ to_string n). rewrite <- (Z2Nat.id n Hn) at 2 3. apply tparam_stands.
Qed.
Lemma funcptr_writes d r ps m : writes r -> Forall writes ps -> readable_type r = true -> forallb readable_type ps = true -> void_only ps = false ->
  core_entities (Funcptr d r ps) ⊆ U -> table_ok U (keys_ m) = true -> writes_core (Funcptr d r ps) m (core (Funcptr d r ps) m).
Proof.
  intros Hr Hps Hokr Hokp Hvo HU Hm. cbn [core]. destruct (find_sub m _) as [ref|] eqn:Ef; [by eapply (found_core (Funcptr d r ps))|].
  assert (HU1 : entities r ⊆ U) by (etrans; [|exact HU]; cbn [core_entities]; unfold with_key; set_solver).
  assert (HU2 : flat_map entities ps ⊆ U) by (etrans; [|exact HU]; cbn [core_entities]; unfold with_key; set_solver).
  destruct (Hr Hokr HU1 m Hm) as (Ha1 & Htab1 & _ & Hs1). destruct (encode_type r m) as [x m1]. cbn [fst snd] in *.
  destruct (list_writes ps Hps Hokp HU2) as [HL HF]. destruct (HL m1 HU2 Htab1) as (Ha2 & Htab2 & Hl2). destruct (HF m1 Htab1) as (Hgo & _ & Hv).
  assert (Hy : exists y m2, (if is_nil ps then (B "v", m1) else encode_list encode_type ps m1) = (y, m2) /\
    adds (keys_ m1) (map fst (flat_map entities ps)) (keys_ m2) /\ table_ok U (keys_ m2) = true /\ goes_on y /\
    (y = B "v" /\ map canon_type ps = [] /\ keys_ m2 = keys_ m1 \/ lists (keys_ m1) y (map canon_type ps) (keys_ m2) /\ starts_with (y ++ B "E") (B "vE") = false)).
  { destruct (is_nil ps) eqn:Ep.
    - destruct ps; [|done]. exists (B "v"), m1. split; [done|split; [apply adds_none|split; [done|split; [done|by left]]]].
    - destruct (encode_list encode_type ps m1) as [y m2]. exists y, m2. split; [done|split; [done|split; [done|split; [done|right]]]]. split; [done|by apply Hv]. }
  destruct Hy as (y & m2 & -> & Ha & Htab & Hg & Hy). eapply (new_core (Funcptr d r ps)); try done.
  - rewrite map_app. by eapply adds_more.
  - by apply (fn_stands _ _ _ (keys_ m1)).
Qed.
Lemma writes_all t : writes t.
Proof.
  induction t as [d c|d n|d r ps Hr Hps|d name inv Hn] using tree_ind; apply core_writes; cbn [readable_type]; intros [_ Hok]%andb_prop HU m Hm.
  - destruct (code_stands (keys_ m) c Hok) as (H1 & H2 & H3). split; [apply adds_none|]. done.
  - apply Z.leb_le in Hok. by apply tparam_writes.
  - apply andb_prop in Hok as [[Hokr Hokp]%andb_prop Hvo%negb_true_iff]. by apply funcptr_writes.
  - apply andb_prop in Hok as [[Hne%negb_true_iff Hch]%andb_prop Hargs]. cbn [core core_entities] in *. unfold writes_core. cbn [core_entities].
    assert (Hl : Forall writes_targs name).
    { clear -apart Hn Hargs. induction Hn as [|c l Hc _ IH]; [constructor|]. cbn [forallb] in Hargs. apply andb_prop in Hargs as [Ha Hargs].
      constructor; [|by apply IH]. unfold writes_targs, all_targs in *. destruct (targs c) as [ta|]; [|done]. intros m HU. by apply list_writes. }
    assert (Hnil : name <> []) by (by intros ->).
    set (m0 := if inv then Mangler (keys_ m) true else m). assert (Hm0 : keys_ m0 = keys_ m) by (by unfold m0; destruct inv).
    destruct (name_reads (keys_ m) Hm name m0 Hm0 Hnil Hl Hch HU) as (Ha & Htab & Hs). destruct (name_first (set_decos (Named d name inv) []) name m0 Hnil Hch) as [H1 H2].
    done.
Qed.
End Apart.

(** ** Symbols determine their types *)

(** C33: reading back what the encoder writes for a list of types, from the candidates
    before it, gives the canonical keys of its trees and the encoder's own candidates:
    the reader numbers the entities as the symbol spells them out, in the ABI's order
    and each in its place, so each back-reference has the key of the entity it
    replaced, and the [N..E] the encoder chose are in the ABI's grammar.  The trees
    are [readable_type], their keys tell their entities apart, and the candidates
    before hold with an entity those within (a fresh table does). *)
Theorem types_read_back ts m :
  forallb readable_type ts = true -> told_apart (flat_map entities ts) = true -> table_ok (flat_map entities ts) (keys_ m) = true ->
  let '(e, m') := encode_list encode_type ts m in
  (exists n, forall fuel, n <= fuel -> read_list (keys_ m) fuel e = Some (map canon_type ts, keys_ m')) /\
  forall k, k ∈ keys_ m' <-> k ∈ keys_ m \/ k ∈ map fst (flat_map entities ts).
Proof.
  intros Hr Ha Hm. assert (Hall : Forall (writes (flat_map entities ts)) ts) by (apply Forall_forall; intros t _; by apply writes_all).
  destruct (list_writes (flat_map entities ts) Ha ts Hall Hr ltac:(done)) as [HL _]. destruct (HL m ltac:(done) Hm) as (Had & _ & Hs). destruct (encode_list encode_type ts m) as [e m']. cbn [fst snd] in *. split.
  - destruct (Hs []) as [n Hn]. exists n. intros fuel Hf. unfold read_list. change (B "E") with ["E"%char]. by rewrite Hn.
  - destruct Had as (new & -> & Hnew & Hb). intros k. rewrite elem_of_app. split; [intros [Hk|Hk]; [by left|right; by apply Hnew]|].
    intros [Hk|Hk]; [by left|]. apply elem_of_app. by apply Hb.
Qed.
Lemma types_read_back_witness :
  let ts := match @pmap _ _ (@parse_param_type false) (map B ["const A&"; "ui::Box<A, ui::B>"; "void (*)(A, std::basic_string<char>)"; "ui::Box<int>[3]"; "$T12"; "std::pair<ui::B, $T12>::U"]%string) with
            | Parsed l => l | _ => [] end in
  let p := encode_list encode_type ts new_mangler in
  length ts = 6 /\ forallb readable_type ts = true /\ p.1 = B "RK1AN2ui3BoxIS_NS2_1BEEEPFvS_SbIcEEA3_NS3_IiEETB_NSt4pairIS4_SB_E1UE" /\
  exists n, forall fuel, n <= fuel -> read_list [] fuel p.1 = Some (map canon_type ts, keys_ p.2).
Proof.
  cbv zeta. set (ts := match @pmap _ _ _ _ with Parsed l => l | _ => [] end).
  assert (H : forallb readable_type ts = true) by (vm_compute; reflexivity).
  split; [vm_compute; reflexivity|split; [exact H|split; [vm_compute; reflexivity|]]].
  pose proof (types_read_back ts new_mangler H ltac:(vm_compute; reflexivity) ltac:(vm_compute; reflexivity)) as Hb.
  destruct (encode_list encode_type ts new_mangler) as [e m']. exact (proj1 Hb).
Defined.
