(* ===== verification/Format.v ===== *)
(** The engine of [std::format], [src/src/rt/rt_format.c]: format specs, the items
    of a format string, and the writers of integers, characters, strings, booleans
    and pointers.  A writer gives the sink the bytes [inr] of it, or fails with the
    message [inl] of it, before it wrote any: [said] is what the sink gets.

    [spec_reads_back]: a spec, printed, parses to itself.  [int_reads_back]: what is
    written for an integer reads back to it, past a fill no number is made of, and
    fills its width.
    [items_end]: stepping through a format string ends.  [format_reads_back]: a
    format string, its text's braces doubled, says that text and its fields. *)
From S2P Require Import Prelude Numbers.
#[local] Open Scope Z_scope.

(** ** Specs *)

Definition c0 : ascii := Ascii.zero.
Record madc_fmt_spec := Spec { fill : ascii; align : ascii; sign : ascii; alt : bool; zero : bool; width : Z; precision : Z; type : ascii }.
Definition fmt_is_align (c : ascii) : bool := byte_eqb c "<"%char || byte_eqb c ">"%char || byte_eqb c "^"%char.
Definition brace (c : ascii) : bool := byte_eqb c "{"%char || byte_eqb c "}"%char.
Definition fmt_is_digit (c : ascii) : bool := isdigit c.
(** The number and the rest; none past the cap. *)
Fixpoint fmt_parse_number (v : Z) (s : bytes) : option (Z * bytes) :=
  match s with
  | c :: r =>
      if fmt_is_digit c then let v := v * 10 + (code c - 48) in if 100000000 <? v then None else fmt_parse_number v r
      else Some (v, s)
  | [] => Some (v, [])
  end.
Definition too_large : bytes := B "format-spec width or precision is too large".
Definition head_is (p : ascii -> bool) (s : bytes) : bool := match s with c :: _ => p c | [] => false end.
Definition isb (c : ascii) : ascii -> bool := fun x => byte_eqb x c.
(** [[fill]align], then what is left. *)
Definition parse_align (s : bytes) : bytes + (ascii * ascii * bytes) :=
  match s with
  | a :: b :: r =>
      if fmt_is_align b then if brace a then inl (B "'{' and '}' cannot be fill characters") else inr (a, b, r)
      else if fmt_is_align a then inr (c_sp, a, b :: r) else inr (c_sp, c0, s)
  | [a] => if fmt_is_align a then inr (c_sp, a, []) else inr (c_sp, c0, s)
  | [] => inr (c_sp, c0, [])
  end.
Definition parse_sign (s : bytes) : ascii * bytes :=
  match s with
  | c :: r => if byte_eqb c "+"%char || byte_eqb c c_sp then (c, r) else if byte_eqb c "-"%char then (c0, r) else (c0, s)
  | [] => (c0, [])
  end.
Definition parse_flag (f : ascii) (s : bytes) : bool * bytes := match s with c :: r => if byte_eqb c f then (true, r) else (false, s) | [] => (false, []) end.
Definition parse_width (s : bytes) : bytes + (Z * bytes) :=
  if head_is (isb "{"%char) s then inl (B "width from an argument ({}) is not supported yet")
  else if head_is fmt_is_digit s then match fmt_parse_number 0 s with Some x => inr x | None => inl too_large end
  else inr (-1, s).
Definition parse_precision (s : bytes) : bytes + (Z * bytes) :=
  if head_is (isb "."%char) s then
    let s := drop 1 s in
    if head_is (isb "{"%char) s then inl (B "precision from an argument ({}) is not supported yet")
    else if negb (head_is fmt_is_digit s) then inl (B "missing precision after '.'")
    else match fmt_parse_number 0 s with Some x => inr x | None => inl too_large end
  else inr (-1, s).
Definition parse_type (s : bytes) : bytes + ascii :=
  if head_is (isb "L"%char) s then inl (B "locale-specific formatting (L) is not supported")
  else match s with [] => inr c0 | [c] => inr c | _ => inl (B "trailing characters in format-spec") end.
Definition ebind {A C} (x : bytes + A) (f : A -> bytes + C) : bytes + C := match x with inl e => inl e | inr a => f a end.
(** The error's text or the spec. *)
Definition __madc_fmt_parse_spec (s : bytes) : bytes + madc_fmt_spec :=
  ebind (parse_align s) (fun '(fill, align, s) =>
  let '(sign, s) := parse_sign s in
  let '(alt, s) := parse_flag "#"%char s in
  let '(zero, s) := parse_flag "0"%char s in
  ebind (parse_width s) (fun '(width, s) =>
  ebind (parse_precision s) (fun '(precision, s) =>
  ebind (parse_type s) (fun type => inr (Spec fill align sign alt zero width precision type))))).

(** ** Items of a format string *)

Inductive madc_fmt_item := Text (t : bytes) | Field (arg_id : Z) (spec : bytes).
Fixpoint span (p : ascii -> bool) (s : bytes) : bytes * bytes :=
  match s with c :: r => if p c then let '(a, b) := span p r in (c :: a, b) else ([], s) | [] => ([], []) end.
Definition not_brace (c : ascii) : bool := negb (brace c).
Definition unterminated : bytes := B "unterminated replacement field ('}' expected)".
Definition field_close (arg_id : Z) (spec s : bytes) : bytes + (madc_fmt_item * bytes) :=
  match s with c :: r => if byte_eqb c "}"%char then inr (Field arg_id spec, r) else inl unterminated | [] => inl unterminated end.
(** One item and the rest, from a string that is not empty; or an error. *)
Definition __madc_fmt_next (s : bytes) : bytes + (madc_fmt_item * bytes) :=
  match s with
  | [] => inl []
  | c :: r =>
      if head_is (isb c) r && brace c then inr (Text [c], drop 1 r)
      else if byte_eqb c "}"%char then inl (B "unmatched '}' in format string")
      else if negb (byte_eqb c "{"%char) then let '(t, r) := span not_brace s in inr (Text t, r)
      else
        ebind (if head_is fmt_is_digit r then match fmt_parse_number 0 r with Some x => inr x | None => inl (B "argument index is too large") end
               else inr (-1, r)) (fun '(id, r) =>
        if head_is (isb ":"%char) r then let '(spec, r) := span not_brace (drop 1 r) in field_close id spec r
        else field_close id [] r)
  end.

(** ** Emission *)

Definition fmt_fail (what : bytes) : bytes := B "[madc format failed: " ++ what ++ B "]".
Definition said (r : bytes + bytes) : bytes := match r with inl e => fmt_fail e | inr t => t end.
(** [count] fill bytes, in chunks of 64. *)
Definition pad_body (fill : ascii) (x : Z * bytes) : Z * bytes + bytes :=
  let '(count, out) := x in
  if 0 <? count then let n := if 64 <? count then 64 else count in inl (count - n, out ++ repeat fill (Z.to_nat n)) else inr out.
Definition fmt_pad (fill : ascii) (count : Z) : bytes := default [] (loop (S (Z.to_nat count)) (pad_body fill) (count, [])).
Definition len (s : bytes) : Z := Z.of_nat (length s).
Definition fmt_emit_aligned (s : madc_fmt_spec) (defalign : ascii) (body : bytes) : bytes :=
  let a := if byte_eqb (align s) c0 then defalign else align s in
  let w := if width s <? 0 then 0 else width s in
  let slack := if len body <? w then w - len body else 0 in
  let lead := if byte_eqb a "<"%char then 0 else if byte_eqb a ">"%char then slack else slack / 2 in
  let trail := if byte_eqb a "<"%char then slack else if byte_eqb a ">"%char then 0 else slack - slack / 2 in
  fmt_pad (fill s) lead ++ body ++ fmt_pad (fill s) trail.
Definition fmt_emit_zero_padded (s : madc_fmt_spec) (head digits : bytes) : bytes :=
  head ++ fmt_pad "0"%char (width s - len (head ++ digits)) ++ digits.
(** The choice between the two that integers and floats make. *)
Definition pads_zero (s : madc_fmt_spec) (body : bytes) : bool := zero s && byte_eqb (align s) c0 && (len body <? width s).
Definition emit_number (s : madc_fmt_spec) (head digits : bytes) : bytes :=
  if pads_zero s (head ++ digits) then fmt_emit_zero_padded s head digits else fmt_emit_aligned s ">"%char (head ++ digits).

(** ** Integers *)

Definition fmt_digits_lc : bytes := B "0123456789abcdef".
Definition fmt_digits_uc : bytes := B "0123456789ABCDEF".
Definition int_base (type : ascii) : option (Z * bytes) :=
  if byte_eqb type c0 || byte_eqb type "d"%char then Some (10, fmt_digits_lc)
  else if byte_eqb type "b"%char || byte_eqb type "B"%char then Some (2, fmt_digits_lc)
  else if byte_eqb type "o"%char then Some (8, fmt_digits_lc)
  else if byte_eqb type "x"%char then Some (16, fmt_digits_lc)
  else if byte_eqb type "X"%char then Some (16, fmt_digits_uc)
  else None.
(** The digits, last first in the code's [rev]. *)
Fixpoint int_digits (fuel : nat) (base : Z) (digits : bytes) (mag : Z) (acc : bytes) : bytes :=
  match fuel with
  | O => acc
  | S k =>
      let acc := at_ digits (Z.to_nat (mag mod base)) :: acc in
      if mag / base =? 0 then acc else int_digits k base digits (mag / base) acc
  end.
Definition int_head (s : madc_fmt_spec) (base mag : Z) (neg : bool) : bytes :=
  (if neg then B "-" else if negb (byte_eqb (sign s) c0) then [sign s] else []) ++
  (if alt s then if base =? 2 then ["0"%char; type s] else if base =? 16 then ["0"%char; type s] else if (base =? 8) && negb (mag =? 0) then B "0" else [] else []).
Definition fmt_int_core (s : madc_fmt_spec) (mag : Z) (neg : bool) : bytes + bytes :=
  match int_base (type s) with
  | Some (base, digits) => inr (emit_number s (int_head s base mag neg) (int_digits 64 base digits mag []))
  | None =>
      if byte_eqb (type s) "c"%char then
        if (if neg then 128 <? mag else 127 <? mag) then inl (B "integer not representable as character")
        else inr (fmt_emit_aligned s "<"%char [to_byte (if neg then - mag else mag)])
      else inl (B "invalid presentation type for an integer")
  end.
Definition signed_core (s : madc_fmt_spec) (v : Z) : bytes + bytes := if v <? 0 then fmt_int_core s (u64 (u64 (- (v + 1)) + 1)) true else fmt_int_core s v false.
Definition __madc_fmt_i64 (spec : bytes) (v : Z) : bytes + bytes := ebind (__madc_fmt_parse_spec spec) (fun s => signed_core s v).
Definition __madc_fmt_u64 (spec : bytes) (v : Z) : bytes + bytes := ebind (__madc_fmt_parse_spec spec) (fun s => fmt_int_core s v false).

(** ** Strings, characters, booleans, pointers *)

Definition __madc_fmt_str_n (spec str : bytes) : bytes + bytes := ebind (__madc_fmt_parse_spec spec) (fun s =>
  if negb (byte_eqb (type s) c0) && negb (byte_eqb (type s) "s"%char) then inl (B "invalid presentation type for a string")
  else
    let str := if (0 <=? precision s) && (precision s <? len str) then take (Z.to_nat (precision s)) str else str in
    inr (fmt_emit_aligned s "<"%char str)).
(** A C string, or none. *)
Definition __madc_fmt_cstr (spec : bytes) (str : option bytes) : bytes + bytes := __madc_fmt_str_n spec (default [] str).
Definition __madc_fmt_char (spec : bytes) (c : Z) : bytes + bytes := ebind (__madc_fmt_parse_spec spec) (fun s =>
  if byte_eqb (type s) c0 || byte_eqb (type s) "c"%char then inr (fmt_emit_aligned s "<"%char [to_byte c])
  else if c <? 0 then fmt_int_core s (u64 (- c)) true else fmt_int_core s c false).
Definition __madc_fmt_bool (spec : bytes) (v : bool) : bytes + bytes := ebind (__madc_fmt_parse_spec spec) (fun s =>
  if byte_eqb (type s) c0 || byte_eqb (type s) "s"%char then inr (fmt_emit_aligned s "<"%char (if v then B "true" else B "false"))
  else fmt_int_core s (if v then 1 else 0) false).
Definition __madc_fmt_ptr (spec : bytes) (p : Z) : bytes + bytes := ebind (__madc_fmt_parse_spec spec) (fun s =>
  if negb (byte_eqb (type s) c0) && negb (byte_eqb (type s) "p"%char) then inl (B "invalid presentation type for a pointer")
  else inr (fmt_emit_aligned s ">"%char (B "0x" ++ int_digits 16 16 fmt_digits_lc p []))).
Definition __madc_fmt_text (p : bytes) : bytes := p.

Example format_ex :
  map (fun r => string_of_list_ascii (said r))
   [__madc_fmt_i64 (B "*^+#10x") (-42); __madc_fmt_i64 (B "06") (-7); __madc_fmt_u64 (B "#b") 5; __madc_fmt_i64 (B "<4") (- 2 ^ 63); __madc_fmt_str_n (B ">6.3") (B "hello");
    __madc_fmt_char (B "#o") 8; __madc_fmt_bool (B "_^7") true; __madc_fmt_ptr (B "10") 255; __madc_fmt_i64 (B "c") 200; __madc_fmt_i64 (B "5.") 1] =
  ["**-0x2a***"; "-00007"; "0b101"; "-9223372036854775808"; "   hel"; "010"; "_true__"; "      0xff";
   "[madc format failed: integer not representable as character]"; "[madc format failed: missing precision after '.']"]%string.
Proof. vm_compute. reflexivity. Qed.

(** ** Emission fills the width *)

Lemma pad_spec f n : fmt_pad f n = repeat f (Z.to_nat n).
Proof.
  unfold fmt_pad.
  destruct (loop_total (fun x => x.2 ++ repeat f (Z.to_nat x.1) = repeat f (Z.to_nat n)) (fun r => r = repeat f (Z.to_nat n)) (fun x => Z.to_nat x.1)
    (pad_body f)) with (fuel := S (Z.to_nat n)) (s := (n, @nil ascii)) as (r & -> & Hr); [|done|cbn [fst]; lia|done].
  intros [c out] H. cbn [fst snd] in *. unfold pad_body. destruct (Z.ltb_spec 0 c) as [Hc|Hc].
  - set (k := if 64 <? c then 64 else c). assert (Hk : 0 < k <= c) by (unfold k; destruct (Z.ltb_spec 64 c); lia). cbn [fst snd]. split; [|lia].
    rewrite <- H, <- app_assoc, <- repeat_app. do 3 f_equal. lia.
  - by replace (Z.to_nat c) with 0%nat in H by lia; rewrite app_nil_r in H.
Qed.
(** Fill bytes on both sides: none before under [<], none behind under [>], the
    shorter run first under [^]. *)
Lemma aligned_spec s d body : let a := if byte_eqb (align s) c0 then d else align s in
  exists l t, fmt_emit_aligned s d body = repeat (fill s) l ++ body ++ repeat (fill s) t /\
    Z.of_nat (l + t) = Z.max 0 (width s - len body) /\
    (a = "<"%char -> l = 0%nat) /\ (a = ">"%char -> t = 0%nat) /\ (a = "^"%char -> (l <= t <= S l)%nat).
Proof.
  cbv zeta. unfold fmt_emit_aligned. set (a := if byte_eqb (align s) c0 then d else align s). set (w := if width s <? 0 then 0 else width s).
  set (slack := if len body <? w then w - len body else 0). rewrite !pad_spec. eexists _, _. split; [reflexivity|].
  assert (Hs : slack = Z.max 0 (width s - len body)).
  { unfold slack, w, len. destruct (Z.ltb_spec (width s) 0); case Z.ltb_spec; lia. }
  assert (Hp : 0 <= slack) by lia. clearbody slack. pose proof (Z.div_mod slack 2 ltac:(lia)). pose proof (Z.mod_pos_bound slack 2 ltac:(lia)).
  destruct (byte_eqb a "<"%char) eqn:E1; [|destruct (byte_eqb a ">"%char) eqn:E2].
  - apply byte_eqb_eq in E1 as ->. split_and!; [lia|done|done|done].
  - apply byte_eqb_eq in E2 as ->. split_and!; [lia|done|done|done].
  - apply byte_eqb_neq in E1, E2. split_and!; [lia|done|done|lia].
Qed.
Lemma aligned_length s d body : len (fmt_emit_aligned s d body) = Z.max (width s) (len body).
Proof.
  destruct (aligned_spec s d body) as (l & t & -> & H & _). unfold len in *. rewrite !length_app, !repeat_length. lia.
Qed.
(** What surrounds a number: fill bytes, or zeros inside. *)
Lemma number_shape s head ds : exists l z t, emit_number s head ds = repeat (fill s) l ++ head ++ repeat "0"%char z ++ ds ++ repeat (fill s) t /\
  len (emit_number s head ds) = Z.max (width s) (len (head ++ ds)).
Proof.
  unfold emit_number, pads_zero. destruct (_ && _) eqn:E.
  - apply andb_prop in E as [_ E%Z.ltb_lt]. unfold fmt_emit_zero_padded. rewrite pad_spec. exists 0%nat, (Z.to_nat (width s - len (head ++ ds))), 0%nat.
    rewrite app_nil_r. split; [done|]. unfold len in *. rewrite !length_app, repeat_length in *. lia.
  - destruct (aligned_spec s ">"%char (head ++ ds)) as (l & t & H & _). exists l, 0%nat, t. rewrite aligned_length. rewrite H, <- app_assoc. done.
Qed.

(** ** Integers read back *)

(** The value of a digit in any base up to 16. *)
Definition digit_value (c : ascii) : option Z :=
  if isdigit c then Some (code c - 48) else if in_range 97 102 c then Some (code c - 87) else if in_range 65 70 c then Some (code c - 55) else None.
Definition hexdigit (c : ascii) : bool := match digit_value c with Some _ => true | None => false end.
Fixpoint read_digits (base acc : Z) (s : bytes) : Z :=
  match s with c :: r => match digit_value c with Some v => read_digits base (acc * base + v) r | None => acc end | [] => acc end.
Fixpoint skip_fill (c : ascii) (s : bytes) : bytes := match s with x :: r => if byte_eqb x c then skip_fill c r else s | [] => [] end.
(** A number behind its fill, sign and prefix. *)
Definition read_int (s : madc_fmt_spec) (base : Z) (out : bytes) : Z :=
  let out := skip_fill (fill s) out in
  let '(neg, out) := match out with c :: r => if byte_eqb c "-"%char then (true, r) else if byte_eqb c "+"%char || byte_eqb c c_sp then (false, r) else (false, out) | [] => (false, []) end in
  let out := if alt s && ((base =? 2) || (base =? 16)) then drop 2 out else out in
  if neg : bool then - read_digits base 0 out else read_digits base 0 out.

Lemma digit_of_table dg i : dg = fmt_digits_lc \/ dg = fmt_digits_uc -> 0 <= i < 16 -> digit_value (at_ dg (Z.to_nat i)) = Some i.
Proof.
  intros Hd Hi. assert (Hall : forallb (fun n => bool_decide (digit_value (at_ fmt_digits_lc n) = Some (Z.of_nat n)) && bool_decide (digit_value (at_ fmt_digits_uc n) = Some (Z.of_nat n))) (seq 0 16) = true)
    by (vm_compute; reflexivity).
  rewrite forallb_forall in Hall. specialize (Hall (Z.to_nat i) ltac:(apply in_seq; lia)). apply andb_prop in Hall as [H1%bool_decide_eq_true H2%bool_decide_eq_true].
  rewrite Z2Nat.id in * by lia. by destruct Hd as [-> | ->].
Qed.
Lemma read_digits_app base acc ds r : Forall (fun c => hexdigit c = true) ds -> read_digits base acc (ds ++ r) = read_digits base (read_digits base acc ds) r.
Proof.
  intros H. revert acc. induction H as [|c ds Hc _ IH]; intros acc; [done|]. cbn [app read_digits]. unfold hexdigit in Hc.
  destruct (digit_value c); [apply IH|done].
Qed.
(** Digits in a base whose number is written. *)
Lemma int_digits_spec fuel base dg mag acc : dg = fmt_digits_lc \/ dg = fmt_digits_uc -> 2 <= base <= 16 -> 0 <= mag < base ^ Z.of_nat fuel -> (0 < fuel)%nat ->
  exists ds, int_digits fuel base dg mag acc = ds ++ acc /\ Forall (fun c => hexdigit c = true) ds /\ ds <> [] /\ (length ds <= fuel)%nat /\ read_digits base 0 ds = mag.
Proof.
  intros Hd Hb. revert mag acc. induction fuel as [|n IH]; [lia|]. intros mag acc Hm _. cbn [int_digits].
  pose proof (Z.div_mod mag base ltac:(lia)) as Hdm. pose proof (Z.mod_pos_bound mag base ltac:(lia)).
  assert (Hv : digit_value (at_ dg (Z.to_nat (mag mod base))) = Some (mag mod base)) by (apply digit_of_table; [done|lia]).
  assert (Hh : hexdigit (at_ dg (Z.to_nat (mag mod base))) = true) by (unfold hexdigit; by rewrite Hv).
  destruct (Z.eqb_spec (mag / base) 0) as [E|E].
  - eexists [_]. split; [reflexivity|]. split; [by constructor|]. split; [done|]. split; [cbn; lia|]. cbn [read_digits]. rewrite Hv. lia.
  - rewrite Nat2Z.inj_succ, Z.pow_succ_r in Hm by lia.
    assert (0 <= mag / base < base ^ Z.of_nat n) as Hq by (split; [apply Z.div_pos; lia|apply Z.div_lt_upper_bound; lia]).
    assert (0 < n)%nat by (destruct n; [rewrite Z.pow_0_r in Hq; lia|lia]).
    destruct (IH (mag / base) (at_ dg (Z.to_nat (mag mod base)) :: acc) Hq ltac:(done)) as (ds & -> & H1 & H2 & H3 & H4).
    exists (ds ++ [at_ dg (Z.to_nat (mag mod base))]). rewrite <- app_assoc. split; [done|]. split; [apply Forall_app; split; [done|by constructor]|].
    split; [by destruct ds|]. split; [rewrite length_app; cbn [length]; lia|]. rewrite read_digits_app by done. rewrite H4. cbn [read_digits]. rewrite Hv. lia.
Qed.

Lemma skip_fill_repeat c n r : skip_fill c (repeat c n ++ r) = skip_fill c r.
Proof. induction n as [|n IH]; [done|]. cbn [repeat app skip_fill]. by rewrite byte_eqb_refl. Qed.
Lemma skip_fill_stop c r : (forall x r', r = x :: r' -> x <> c) -> skip_fill c r = r.
Proof. intros H. destruct r as [|x r]; [done|]. cbn [skip_fill]. by rewrite (proj2 (byte_eqb_neq x c) (H x r eq_refl)). Qed.
Lemma hexdigit_plain c : hexdigit c = true -> c <> "-"%char /\ c <> "+"%char /\ c <> c_sp.
Proof. intros H. split_and!; by intros ->. Qed.
(** The digits behind sign and prefix. *)
Lemma read_body base z ds f t : Forall (fun c => hexdigit c = true) ds -> hexdigit f = false ->
  read_digits base 0 (repeat "0"%char z ++ ds ++ repeat f t) = read_digits base 0 ds.
Proof.
  intros Hd Hf. replace (read_digits base 0 (repeat "0"%char z ++ ds ++ repeat f t)) with (read_digits base 0 (ds ++ repeat f t)).
  2:{ induction z as [|z IH]; [done|]. cbn [repeat app read_digits]. change (digit_value "0") with (Some 0). exact IH. }
  rewrite read_digits_app by done. destruct t as [|t]; [done|]. cbn [repeat read_digits]. unfold hexdigit in Hf. by destruct (digit_value f).
Qed.
Definition fill_apart (f : ascii) : Prop := hexdigit f = false /\ f <> "-"%char.
Definition sign_ok (c : ascii) : Prop := c = c0 \/ c = "+"%char \/ c = c_sp.
(** Behind the fill, a sign or none leads to the same digits. *)
Lemma read_int_shape s base (neg : bool) P D l : fill_apart (fill s) -> sign_ok (sign s) -> head_is hexdigit (P ++ D) = true ->
  P = (if alt s && ((base =? 2) || (base =? 16)) then ["0"%char; type s] else []) ->
  read_int s base (repeat (fill s) l ++ (if neg then B "-" else if negb (byte_eqb (sign s) c0) then [sign s] else []) ++ P ++ D)
  = if neg then - read_digits base 0 D else read_digits base 0 D.
Proof.
  intros [Hf Hm] Hs Hh HP. unfold read_int. rewrite skip_fill_repeat.
  assert (Hstop : skip_fill (fill s) (P ++ D) = P ++ D).
  { apply skip_fill_stop. intros x r E ->. rewrite E in Hh. cbn [head_is] in Hh. congruence. }
  assert (Hdrop : (if alt s && ((base =? 2) || (base =? 16)) then drop 2 (P ++ D) else P ++ D) = D) by (rewrite HP; by destruct (_ && _)).
  assert (Hnone : (let '(neg, out) := match P ++ D with c :: r => if byte_eqb c "-"%char then (true, r) else if byte_eqb c "+"%char || byte_eqb c c_sp then (false, r) else (false, P ++ D) | [] => (false, []) end in
    let out := if alt s && ((base =? 2) || (base =? 16)) then drop 2 out else out in if neg : bool then - read_digits base 0 out else read_digits base 0 out) = read_digits base 0 D).
  { destruct (P ++ D) as [|c r] eqn:E; [done|]. cbn [head_is] in Hh. destruct (hexdigit_plain c Hh) as (H1 & H2 & H3).
    rewrite (proj2 (byte_eqb_neq _ _) H1), (proj2 (byte_eqb_neq _ _) H2), (proj2 (byte_eqb_neq _ _) H3). cbn [orb]. by rewrite Hdrop. }
  destruct neg.
  - change (B "-" ++ P ++ D) with ("-"%char :: P ++ D). rewrite skip_fill_stop by (intros x r [= <- _]; congruence).
    change (byte_eqb "-" "-") with true. cbv iota. cbv zeta. by rewrite Hdrop.
  - destruct Hs as [E|Hs]; [rewrite E; change (byte_eqb c0 c0) with true; cbn [negb app]; rewrite Hstop; exact Hnone|].
    replace (byte_eqb (sign s) c0) with false by (destruct Hs as [-> | ->]; done). cbn [negb]. change ([sign s] ++ P ++ D) with (sign s :: P ++ D).
    cbn [skip_fill]. destruct (byte_eqb (sign s) (fill s)) eqn:E; [rewrite Hstop; exact Hnone|].
    replace (byte_eqb (sign s) "-"%char) with false by (destruct Hs as [-> | ->]; done).
    replace (byte_eqb (sign s) "+"%char || byte_eqb (sign s) c_sp) with true by (destruct Hs as [-> | ->]; done).
    cbv iota zeta. by rewrite Hdrop.
Qed.
Lemma int_base_cases type base dg : int_base type = Some (base, dg) ->
  (base = 10 \/ base = 2 \/ base = 8 \/ base = 16) /\ (dg = fmt_digits_lc \/ dg = fmt_digits_uc).
Proof. unfold int_base. intros H. repeat case_match; simplify_eq; tauto. Qed.

Lemma int_head_length s base mag neg : (length (int_head s base mag neg) <= 3)%nat.
Proof.
  unfold int_head. rewrite length_app. change 3%nat with (1 + 2)%nat. apply Nat.add_le_mono.
  - destruct neg; [by apply Nat.leb_le|]. by destruct (negb _); apply Nat.leb_le.
  - destruct (alt s); [|by apply Nat.leb_le]. destruct (base =? 2); [by apply Nat.leb_le|]. destruct (base =? 16); [by apply Nat.leb_le|].
    by destruct (_ && _); apply Nat.leb_le.
Qed.
Lemma core_reads_back s base dg mag neg :
  int_base (type s) = Some (base, dg) -> 0 <= mag < 2 ^ 64 -> fill_apart (fill s) -> sign_ok (sign s) ->
  exists out, fmt_int_core s mag neg = inr out /\ read_int s base out = (if neg then - mag else mag) /\
  exists body, len out = Z.max (width s) (len body) /\ (length body <= 67)%nat.
Proof.
  intros Hb Hm Hf Hs. destruct (int_base_cases _ _ _ Hb) as [Hbase Hdg]. unfold fmt_int_core. rewrite Hb.
  destruct (int_digits_spec 64 base dg mag [] Hdg) as (ds & -> & H1 & H2 & H3 & H4); [lia| |lia|].
  { split; [lia|]. eapply Z.lt_le_trans; [apply Hm|]. apply Z.pow_le_mono_l. lia. }
  rewrite app_nil_r. set (head := int_head s base mag neg). destruct (number_shape s head ds) as (l & z & t & E & HL). eexists. split; [reflexivity|]. split.
  2:{ exists (head ++ ds). split; [done|]. rewrite length_app. pose proof (int_head_length s base mag neg : (length head <= 3)%nat). lia. }
  rewrite E. unfold head, int_head. set (sg := if neg then B "-" else _).
  assert (Hd0 : forall z' t', head_is hexdigit (repeat "0"%char z' ++ ds ++ repeat (fill s) t') = true).
  { intros z' t'. destruct z'; [|done]. destruct ds as [|d ds]; [done|]. by inversion H1. }
  assert (Hoct : exists z' P, (if alt s then if base =? 2 then ["0"%char; type s] else if base =? 16 then ["0"%char; type s] else if (base =? 8) && negb (mag =? 0) then B "0" else [] else []) ++
      repeat "0"%char z ++ ds ++ repeat (fill s) t = P ++ repeat "0"%char z' ++ ds ++ repeat (fill s) t /\
      P = (if alt s && ((base =? 2) || (base =? 16)) then ["0"%char; type s] else [])).
  { destruct (alt s); [|exists z, []; by split]. cbn [andb]. destruct (base =? 2); [by exists z, ["0"%char; type s]|]. destruct (base =? 16); [by exists z, ["0"%char; type s]|].
    cbn [orb]. destruct (_ && _); [by exists (S z), []|by exists z, []]. }
  destruct Hoct as (z' & P & E' & HP). rewrite <- app_assoc, E'. unfold sg. rewrite (read_int_shape s base neg P _ l Hf Hs).
  - rewrite read_body by (done || apply Hf). by rewrite H4.
  - rewrite HP. destruct (alt s && _); [reflexivity|]. apply Hd0.
  - exact HP.
Qed.
(** C38: what is written for any 64-bit integer, signed or not, under a spec with an
    integer presentation reads back to it, whatever sign, [#], zero padding and
    alignment the spec asks for and whatever fill that is neither a hexadecimal
    digit nor a minus ([fill_apart]; 5 under [{:0<4}] is 5000), and fills the
    spec's width; sign, prefix and digits are at most 67 bytes, of the 96 the code
    gives them. *)
Theorem int_reads_back spec s base dg v :
  __madc_fmt_parse_spec spec = inr s -> int_base (type s) = Some (base, dg) -> fill_apart (fill s) -> sign_ok (sign s) ->
  let writes r := exists out, r = inr out /\ read_int s base out = v /\ exists body, len out = Z.max (width s) (len body) /\ (length body <= 67)%nat in
  (- 2 ^ 63 <= v < 2 ^ 63 -> writes (__madc_fmt_i64 spec v)) /\ (0 <= v < 2 ^ 64 -> writes (__madc_fmt_u64 spec v)).
Proof.
  intros Hp Hb Hf Hs. cbv zeta. unfold __madc_fmt_i64, __madc_fmt_u64. rewrite Hp. cbn [ebind].
  split; intros Hv; [|exact (core_reads_back s base dg v false Hb ltac:(lia) Hf Hs)]. unfold signed_core. destruct (Z.ltb_spec v 0) as [Hn|Hn]; [|exact (core_reads_back s base dg v false Hb ltac:(lia) Hf Hs)].
  replace (u64 (u64 (- (v + 1)) + 1)) with (- v) by (unfold u64; rewrite !Z.mod_small by (rewrite ?Z.mod_small by lia; lia); lia).
  pose proof (core_reads_back s base dg (- v) true Hb ltac:(lia) Hf Hs) as Hc. by rewrite Z.opp_involutive in Hc.
Qed.
Lemma int_reads_back_witness :
  let s := Spec "*"%char "^"%char "+"%char true false 80 (-1) "b"%char in let v := - 2 ^ 63 in
  let writes r := exists out, r = inr out /\ read_int s 2 out = v /\ exists body, len out = Z.max (width s) (len body) /\ (length body <= 67)%nat in
  (- 2 ^ 63 <= v < 2 ^ 63 -> writes (__madc_fmt_i64 (B "*^+#80b") v)) /\ (0 <= v < 2 ^ 64 -> writes (__madc_fmt_u64 (B "*^+#80b") v)).
Proof.
  apply (int_reads_back (B "*^+#80b") (Spec "*"%char "^"%char "+"%char true false 80 (-1) "b"%char) 2 fmt_digits_lc (- 2 ^ 63));
    [reflexivity|reflexivity|split; [reflexivity|discriminate]|right; left; reflexivity].
Defined.

(** ** Specs read back *)

Definition optional (c : ascii) : bytes := if byte_eqb c c0 then [] else [c].
Definition print_number (v : Z) : bytes := if v <? 0 then [] else to_string v.
Definition print_spec (s : madc_fmt_spec) : bytes :=
  (if byte_eqb (align s) c0 then [] else [fill s; align s]) ++ optional (sign s) ++ (if alt s then B "#" else []) ++ (if zero s then B "0" else []) ++
  print_number (width s) ++ (if precision s <? 0 then [] else B "." ++ to_string (precision s)) ++ optional (type s).
Record spec_ok (s : madc_fmt_spec) : Prop := Spec_ok {
  ok_align : align s = c0 /\ fill s = c_sp \/ fmt_is_align (align s) = true /\ brace (fill s) = false;
  ok_sign : sign_ok (sign s);
  ok_width : width s = -1 \/ 1 <= width s <= 100000000;
  ok_precision : precision s = -1 \/ 0 <= precision s <= 100000000;
  ok_type : type s = c0 \/ isalpha (type s) = true /\ type s <> "L"%char }.

(** The first byte of what follows, if there is any. *)
Definition head_in (p : ascii -> bool) (s : bytes) : Prop := match s with c :: _ => p c = true | [] => True end.
Lemma head_in_mono (p q : ascii -> bool) s : (forall c, p c = true -> q c = true) -> head_in p s -> head_in q s.
Proof. intros H. destruct s; [done|apply H]. Qed.
Lemma head_out (p q : ascii -> bool) s : head_in p s -> (forall c, p c = true -> q c = false) -> head_is q s = false.
Proof. intros H Hpq. destruct s; [done|by apply Hpq]. Qed.
Lemma alpha_digit c : isalpha c = true -> isdigit c = false.
Proof. unfold isalpha, isupper, islower, isdigit, in_range. intros H. apply not_true_iff_false. intros H'. lia. Qed.
Lemma decimal_read ds r v : digits ds -> head_in (fun c => negb (isdigit c)) r -> 0 <= v -> digits_value v ds <= 100000000 ->
  fmt_parse_number v (ds ++ r) = Some (digits_value v ds, r).
Proof.
  intros H Hr. revert v. induction H as [|c ds Hc Hds IH]; intros v Hv Hle; cbn [app fmt_parse_number digits_value] in *.
  - destruct r as [|d r]; [done|]. cbn [fmt_parse_number]. unfold fmt_is_digit. by rewrite (proj1 (negb_true_iff _) Hr).
  - unfold fmt_is_digit. rewrite Hc in *. assert (48 <= code c) by (unfold isdigit, in_range in Hc; lia).
    pose proof (digits_value_mono ds (v * 10 + (code c - 48)) Hds ltac:(lia)). rewrite (proj2 (Z.ltb_ge _ _)) by lia. apply IH; lia.
Qed.
Lemma to_string_read v r : 0 <= v <= 100000000 -> head_in (fun c => negb (isdigit c)) r -> fmt_parse_number 0 (to_string v ++ r) = Some (v, r).
Proof. intros Hv Hr. destruct (to_string_digits v ltac:(lia)) as (H1 & _ & H3). rewrite decimal_read by (done || lia). by rewrite H3. Qed.
Lemma to_string_head v : 0 <= v <= 100000000 -> exists c r, to_string v = c :: r /\ isdigit c = true.
Proof. intros Hv. destruct (to_string_digits v ltac:(lia)) as (H1 & H2 & _). destruct (to_string v) as [|c r]; [done|]. exists c, r. by inversion H1. Qed.
Lemma to_string_head_positive v : 1 <= v <= 100000000 -> exists c r, to_string v = c :: r /\ isdigit c = true /\ c <> "0"%char.
Proof. intros Hv. unfold to_string. rewrite (proj2 (Z.ltb_ge v 0)) by lia. apply digits_of_head; lia. Qed.

(** Each part, read in front of what may follow it. *)
Lemma type_read t : t = c0 \/ isalpha t = true /\ t <> "L"%char -> parse_type (optional t) = inr t /\ head_in isalpha (optional t).
Proof.
  unfold optional, parse_type. intros [->|[Ha Hl]]; [done|]. replace (byte_eqb t c0) with false by (symmetry; apply byte_eqb_neq; by intros ->).
  cbn [head_is head_in]. unfold isb. by rewrite (proj2 (byte_eqb_neq t "L") Hl).
Qed.
Definition after_number (c : ascii) : bool := isalpha c || byte_eqb c "."%char.
Lemma precision_read p r : p = -1 \/ 0 <= p <= 100000000 -> head_in isalpha r ->
  let x := (if p <? 0 then [] else B "." ++ to_string p) ++ r in parse_precision x = inr (p, r) /\ head_in after_number x.
Proof.
  intros Hp Hr. cbv zeta. unfold parse_precision. destruct Hp as [->|Hp].
  - change (-1 <? 0) with true. cbn [app]. rewrite (head_out isalpha _ r Hr) by (intros c H; apply byte_eqb_neq; by intros ->). split; [done|].
    by eapply head_in_mono; [|exact Hr]; intros c H; unfold after_number; rewrite H.
  - rewrite (proj2 (Z.ltb_ge p 0)) by lia. change ((B "." ++ to_string p) ++ r) with ("."%char :: to_string p ++ r). cbn [head_is]. change (isb "." ".") with true.
    cbv zeta iota. change (drop 1 ("."%char :: to_string p ++ r)) with (to_string p ++ r). destruct (to_string_head p Hp) as (c & ds & E & Hc).
    assert (H1 : head_is (isb "{"%char) (to_string p ++ r) = false) by (rewrite E; cbn; apply byte_eqb_neq; by intros ->).
    assert (H2 : head_is fmt_is_digit (to_string p ++ r) = true) by (rewrite E; exact Hc). rewrite H1, H2. cbn [negb].
    rewrite to_string_read; [done|done|]. eapply head_in_mono; [|exact Hr]. intros d Hd. by rewrite alpha_digit.
Qed.
Definition positive_digit (c : ascii) : bool := isdigit c && negb (byte_eqb c "0"%char).
Lemma width_read w r : w = -1 \/ 1 <= w <= 100000000 -> head_in after_number r ->
  let x := print_number w ++ r in parse_width x = inr (w, r) /\ head_in (fun c => after_number c || positive_digit c) x.
Proof.
  intros Hw Hr. cbv zeta. unfold parse_width, print_number. destruct Hw as [->|Hw].
  - change (-1 <? 0) with true. cbn [app].
    rewrite (head_out after_number _ r Hr) by (intros c H; apply byte_eqb_neq; by intros ->).
    rewrite (head_out after_number fmt_is_digit r Hr).
    + split; [done|]. eapply head_in_mono; [|exact Hr]. intros c H. by rewrite H.
    + intros c [H| ->%byte_eqb_eq]%orb_prop; [by apply alpha_digit|done].
  - rewrite (proj2 (Z.ltb_ge w 0)) by lia. destruct (to_string_head_positive w Hw) as (c & ds & E & Hc & Hz).
    assert (H1 : head_is (isb "{"%char) (to_string w ++ r) = false) by (rewrite E; cbn; apply byte_eqb_neq; by intros ->).
    assert (H2 : head_is fmt_is_digit (to_string w ++ r) = true) by (rewrite E; exact Hc). rewrite H1, H2, to_string_read; [|lia|].
    + split; [done|]. rewrite E. cbn [app head_in]. unfold positive_digit. rewrite Hc, (proj2 (byte_eqb_neq _ _) Hz). by rewrite orb_true_r.
    + eapply head_in_mono; [|exact Hr]. intros d [H| ->%byte_eqb_eq]%orb_prop; [by rewrite alpha_digit|done].
Qed.
Lemma flag_read f (b : bool) r : head_is (isb f) r = false -> parse_flag f ((if b then [f] else []) ++ r) = (b, r).
Proof.
  intros H. destruct b; cbn [app parse_flag]; [by rewrite byte_eqb_refl|]. destruct r as [|c r]; [done|]. cbn [head_is] in H. unfold isb in H.
  cbn [parse_flag]. by rewrite H.
Qed.
Lemma parse_sign_read c r : sign_ok c -> head_is (fun d => byte_eqb d "+"%char || byte_eqb d "-"%char || byte_eqb d c_sp) r = false ->
  parse_sign (optional c ++ r) = (c, r).
Proof.
  unfold optional. intros [->|[-> | ->]] H; [|done|done]. change (byte_eqb c0 c0) with true. cbn [app]. destruct r as [|d r]; [done|]. cbn [head_is] in H.
  apply orb_false_iff in H as [[H1 H2]%orb_false_iff H3]. cbn [parse_sign]. by rewrite H1, H2, H3.
Qed.
Definition no_align (c : ascii) : Prop := fmt_is_align c = false.
Lemma parse_align_none s : Forall no_align s -> parse_align s = inr (c_sp, c0, s).
Proof.
  intros H. destruct s as [|a [|b s]]; [done| |]; cbn [parse_align]; rewrite !Forall_cons in H; unfold no_align in H.
  - by destruct H as [-> _].
  - by destruct H as (-> & -> & _).
Qed.
Lemma plain_no_align c : after_number c || isdigit c = true -> no_align c.
Proof. intros H. unfold no_align, fmt_is_align. rewrite !orb_false_iff. split_and!; apply byte_eqb_neq; by intros ->. Qed.
Lemma number_no_align v : v = -1 \/ 0 <= v <= 100000000 -> Forall no_align (print_number v).
Proof.
  intros [->|Hv]; [by constructor|]. unfold print_number. rewrite (proj2 (Z.ltb_ge v 0)) by lia. destruct (to_string_digits v ltac:(lia)) as (H & _).
  eapply Forall_impl; [exact H|]. intros c Hc. apply plain_no_align. by rewrite Hc, orb_true_r.
Qed.

(** a spec of the engine's grammar, printed, is parsed to itself. *)
Theorem spec_reads_back s : spec_ok s -> __madc_fmt_parse_spec (print_spec s) = inr s.
Proof.
  intros [Hal Hs Hw Hp Ht]. unfold print_spec, __madc_fmt_parse_spec.
  destruct (type_read (type s) Ht) as [Et H4]. set (x4 := optional (type s)) in *.
  destruct (precision_read (precision s) x4 Hp H4) as [Ep H3]. set (x3 := (if precision s <? 0 then [] else B "." ++ to_string (precision s)) ++ x4) in *.
  destruct (width_read (width s) x3 Hw H3) as [Ew H2]. set (x2 := print_number (width s) ++ x3) in *.
  pose proof (flag_read "0"%char (zero s) x2) as Ez. rewrite (head_out _ (isb "0"%char) x2 H2) in Ez.
  2:{ intros c [H|[_ H]%andb_prop]%orb_prop; [apply byte_eqb_neq; by intros ->|by apply negb_true_iff]. }
  specialize (Ez eq_refl). set (x1 := (if zero s then B "0" else []) ++ x2). change ((if zero s then ["0"%char] else []) ++ x2) with x1 in Ez.
  assert (H1 : head_in (fun c => after_number c || isdigit c) x1).
  { unfold x1. destruct (zero s); [done|]. eapply head_in_mono; [|exact H2]. intros c [H|[H _]%andb_prop]%orb_prop; rewrite H; [done|apply orb_true_r]. }
  pose proof (flag_read "#"%char (alt s) x1) as Ea. rewrite (head_out _ (isb "#"%char) x1 H1) in Ea by (intros c H; apply byte_eqb_neq; by intros ->).
  specialize (Ea eq_refl). set (x0 := (if alt s then B "#" else []) ++ x1). change ((if alt s then ["#"%char] else []) ++ x1) with x0 in Ea.
  assert (H0 : head_is (fun d => byte_eqb d "+"%char || byte_eqb d "-"%char || byte_eqb d c_sp) x0 = false).
  { unfold x0. destruct (alt s); [done|]. apply (head_out _ _ x1 H1). intros c H. rewrite !orb_false_iff. split_and!; apply byte_eqb_neq; by intros ->. }
  pose proof (parse_sign_read (sign s) x0 Hs H0) as Es.
  assert (Hgoal : parse_align ((if byte_eqb (align s) c0 then [] else [fill s; align s]) ++ optional (sign s) ++ x0) = inr (fill s, align s, optional (sign s) ++ x0)).
  { destruct Hal as [[-> ->]|[Ha Hb]].
    - change (byte_eqb c0 c0) with true. cbn [app]. apply parse_align_none. unfold x0, x1, x2, x3, x4, optional. rewrite !Forall_app. split_and!.
      + destruct Hs as [->|[-> | ->]]; repeat constructor.
      + destruct (alt s); repeat constructor.
      + destruct (zero s); repeat constructor.
      + apply number_no_align. lia.
      + destruct (precision s <? 0) eqn:E; [constructor|]. change (B "." ++ to_string (precision s)) with ("."%char :: to_string (precision s)). constructor; [done|].
        pose proof (number_no_align (precision s) Hp) as Hn. unfold print_number in Hn. by rewrite E in Hn.
      + destruct (byte_eqb (type s) c0) eqn:E; [constructor|]. apply byte_eqb_neq in E. destruct Ht as [|[Ht _]]; [done|]. constructor; [|constructor].
        apply plain_no_align. unfold after_number. by rewrite Ht.
    - replace (byte_eqb (align s) c0) with false by (symmetry; apply byte_eqb_neq; intros E; by rewrite E in Ha).
      cbn [app parse_align]. by rewrite Ha, Hb. }
  rewrite Hgoal. cbn [ebind]. rewrite Es, Ea, Ez, Ew. cbn [ebind]. rewrite Ep. cbn [ebind]. rewrite Et. cbn [ebind]. by destruct s.
Qed.
Lemma spec_reads_back_witness :
  let s := Spec "0"%char "<"%char c_sp true true 7 0 "G"%char in
  spec_ok s /\ print_spec s = B "0< #07.0G" /\ __madc_fmt_parse_spec (print_spec s) = inr s.
Proof.
  cbv zeta. assert (H : spec_ok (Spec "0"%char "<"%char c_sp true true 7 0 "G"%char)).
  { split; [right; split; reflexivity|right; right; reflexivity|right; cbn; lia|right; cbn; lia|right; split; [reflexivity|discriminate]]. }
  split; [exact H|split; [vm_compute; reflexivity|]]. exact (spec_reads_back _ H).
Defined.

(** ** A format string's items *)

(** The callers' loop: item after item to the end. *)
Fixpoint fmt_items (fuel : nat) (s : bytes) : option (bytes + list madc_fmt_item) :=
  match fuel, s with
  | _, [] => Some (inr [])
  | O, _ => None
  | S k, _ =>
      match __madc_fmt_next s with
      | inl e => Some (inl e)
      | inr (it, r) => match fmt_items k r with Some (inr l) => Some (inr (it :: l)) | x => x end
      end
  end.
Lemma span_cut p s : let '(a, b) := span p s in s = a ++ b /\ Forall (fun c => p c = true) a /\ head_is p b = false.
Proof.
  induction s as [|c s IH]; [done|]. cbn [span]. destruct (p c) eqn:E; [|by split_and!].
  destruct (span p s) as [a b]. destruct IH as (-> & Ha & Hb). split_and!; [done|by constructor|done].
Qed.
Lemma number_shorter s v id r : fmt_parse_number v s = Some (id, r) -> (length r <= length s)%nat.
Proof.
  revert v. induction s as [|c s IH]; intros v; cbn [fmt_parse_number]; [by intros [= _ <-]|].
  destruct (fmt_is_digit c); [|by intros [= _ <-]]. destruct (_ <? _); [done|]. intros H%IH. cbn [length]. lia.
Qed.
Lemma close_shorter id spec s it r : field_close id spec s = inr (it, r) -> (length r < length s)%nat.
Proof. destruct s as [|c s]; [done|]. cbn [field_close]. destruct (byte_eqb _ _); [|done]. intros [= _ <-]. cbn [length]. lia. Qed.
Lemma next_shorter s it r : __madc_fmt_next s = inr (it, r) -> (length r < length s)%nat.
Proof.
  destruct s as [|c s]; [done|]. cbn [__madc_fmt_next]. destruct (_ && _).
  { intros [= _ <-]. rewrite length_drop. cbn [length]. lia. }
  destruct (byte_eqb c "}"%char) eqn:E0; [done|]. destruct (byte_eqb c "{"%char) eqn:E; cbn [negb].
  2:{ pose proof (span_cut not_brace (c :: s)) as Hc. destruct (span not_brace (c :: s)) as [t b] eqn:Es. destruct Hc as (Hc & _ & Hb). intros [= _ <-].
      destruct t as [|d t]; [|apply (f_equal length) in Hc; rewrite length_app in Hc; cbn [length] in *; lia].
      cbn [span] in Es. unfold not_brace, brace in Es. rewrite E, E0 in Es. cbn [orb negb] in Es. by destruct (span _ s). }
  intros H. destruct (if head_is fmt_is_digit s then _ else _) as [e|[id r1]] eqn:En; [done|]. cbn [ebind] in H.
  assert (Hr1 : (length r1 <= length s)%nat).
  { destruct (head_is fmt_is_digit s); [|by injection En as _ <-]. destruct (fmt_parse_number 0 s) as [[v r']|] eqn:Ep; [|done]. injection En as _ <-.
    by eapply number_shorter. }
  destruct (head_is (isb ":"%char) r1).
  - pose proof (span_cut not_brace (drop 1 r1)) as Hc. destruct (span not_brace (drop 1 r1)) as [sp b]. destruct Hc as (Hc & _ & _).
    apply close_shorter in H. apply (f_equal length) in Hc. rewrite length_app, length_drop in Hc. cbn [length]. lia.
  - apply close_shorter in H. cbn [length]. lia.
Qed.
Lemma items_end fuel s : (length s <= fuel)%nat -> exists x, fmt_items fuel s = Some x.
Proof.
  revert s. induction fuel as [|k IH]; intros s Hl; [destruct s; [by eexists|cbn in Hl; lia]|]. destruct s as [|c s]; [by eexists|].
  cbn [fmt_items]. destruct (__madc_fmt_next (c :: s)) as [e|[it r]] eqn:E; [by eexists|]. apply next_shorter in E.
  destruct (IH r) as [[e|l] ->]; [cbn [length] in *; lia|by eexists..].
Qed.
Lemma items_more fuel fuel' s x : fmt_items fuel s = Some x -> (fuel <= fuel')%nat -> fmt_items fuel' s = Some x.
Proof.
  revert fuel' s x. induction fuel as [|k IH]; intros [|k'] s x; [by destruct s|by destruct s|by destruct s; intros; lia|].
  destruct s as [|c s]; [done|]. cbn [fmt_items]. destruct (__madc_fmt_next (c :: s)) as [e|[it r]]; [done|]. intros H Hf.
  destruct (fmt_items k r) as [y|] eqn:E; [|done]. by rewrite (IH k' r y E ltac:(lia)).
Qed.

(** *** Format strings read back *)

(** What a format string says, byte by byte and field by field. *)
Definition atom : Type := ascii + (Z * bytes).
Definition atoms_of (it : madc_fmt_item) : list atom := match it with Text t => map inl t | Field id spec => [inr (id, spec)] end.
Definition print_atom (a : atom) : bytes :=
  match a with
  | inl c => if brace c then [c; c] else [c]
  | inr (id, spec) => B "{" ++ print_number id ++ (if is_nil spec then [] else B ":" ++ spec) ++ B "}"
  end.
Definition atom_ok (a : atom) : Prop :=
  match a with inl _ => True | inr (id, spec) => (id = -1 \/ 0 <= id <= 100000000) /\ Forall (fun c => not_brace c = true) spec end.
Lemma span_app p a b : Forall (fun c => p c = true) a -> head_is p b = false -> span p (a ++ b) = (a, b).
Proof.
  intros H Hb. induction H as [|c a Hc _ IH]; cbn [app]; [destruct b as [|d b]; [done|]; cbn [span head_is] in *; by rewrite Hb|].
  cbn [span]. by rewrite Hc, IH.
Qed.
Lemma field_next id spec r : (id = -1 \/ 0 <= id <= 100000000) -> Forall (fun c => not_brace c = true) spec ->
  __madc_fmt_next (print_atom (inr (id, spec)) ++ r) = inr (Field id spec, r).
Proof.
  intros Hid Hsp. cbn [print_atom]. set (tail := (if is_nil spec then [] else B ":" ++ spec) ++ "}"%char :: r).
  assert (E : (B "{" ++ print_number id ++ (if is_nil spec then [] else B ":" ++ spec) ++ B "}") ++ r = "{"%char :: print_number id ++ tail).
  { unfold tail. rewrite <- !app_assoc. done. }
  rewrite E. cbn [__madc_fmt_next].
  assert (Ht : head_in (fun c => negb (isdigit c)) tail) by (unfold tail; destruct spec; done).
  assert (Hnb : head_is (isb "{"%char) (print_number id ++ tail) = false).
  { unfold print_number. destruct (id <? 0) eqn:En; [by unfold tail; destruct spec|]. destruct (to_string_head id) as (c & ds & -> & Hc); [apply Z.ltb_ge in En; lia|].
    cbn [app head_is]. apply byte_eqb_neq. by intros ->. }
  rewrite Hnb. change (byte_eqb "{" "}") with false. change (byte_eqb "{" "{") with true. cbn [andb negb].
  assert (Hnum : (if head_is fmt_is_digit (print_number id ++ tail) then match fmt_parse_number 0 (print_number id ++ tail) with Some x => inr x | None => inl (B "argument index is too large") end
    else inr (-1, print_number id ++ tail)) = (inr (id, tail) : bytes + (Z * bytes))).
  { unfold print_number. destruct Hid as [->|Hid].
    - change (-1 <? 0) with true. cbn [app]. by replace (head_is fmt_is_digit tail) with false by (unfold tail; destruct spec; done).
    - rewrite (proj2 (Z.ltb_ge id 0)) by lia. destruct (to_string_head id Hid) as (c & ds & Eh & Hc).
      replace (head_is fmt_is_digit (to_string id ++ tail)) with true by (rewrite Eh; done). by rewrite to_string_read. }
  rewrite Hnum. cbn [ebind]. unfold tail. destruct spec as [|c spec]; cbn [is_nil app]; [done|].
  change (head_is (isb ":"%char) ((B ":" ++ c :: spec) ++ "}"%char :: r)) with true.
  change (drop 1 ((B ":" ++ c :: spec) ++ "}"%char :: r)) with ((c :: spec) ++ "}"%char :: r). by rewrite (span_app not_brace (c :: spec)).
Qed.
Definition plain_atom (a : atom) : bool := match a with inl c => not_brace c | inr _ => false end.
Lemma plain_prefix (l : list atom) : exists t (l' : list atom), l = map (inl : ascii -> atom) t ++ l' /\ Forall (fun c => not_brace c = true) t /\ match l' with a :: _ => plain_atom a = false | [] => True end.
Proof.
  induction l as [|a l (t & l' & -> & Ht & Hl)]; [by exists [], []|]. destruct (plain_atom a) eqn:E.
  - destruct a as [c|f]; [|done]. exists (c :: t), l'. split_and!; [done|by constructor|done].
  - by exists [], (a :: map inl t ++ l').
Qed.
Lemma plain_printed t : Forall (fun c => not_brace c = true) t -> flat_map print_atom (map inl t) = t.
Proof.
  induction 1 as [|c t Hc _ IH]; [done|]. cbn [map flat_map print_atom]. unfold not_brace in Hc. apply negb_true_iff in Hc. by rewrite Hc, IH.
Qed.
Lemma atoms_head (l : list atom) : match l with a :: _ => plain_atom a = false | [] => True end -> head_is not_brace (flat_map print_atom l) = false.
Proof.
  destruct l as [|[c|[id sp]] l]; [done| |done]. intros H. cbn [plain_atom] in H. unfold not_brace in H. apply negb_false_iff in H.
  cbn [flat_map print_atom]. rewrite H. cbn [app head_is]. unfold not_brace. by rewrite H.
Qed.
Lemma atoms_read n (l : list atom) : (length l <= n)%nat -> Forall atom_ok l ->
  exists fuel its, fmt_items fuel (flat_map print_atom l) = Some (inr its) /\ flat_map atoms_of its = l.
Proof.
  revert l. induction n as [|n IH]; intros l Hn Hl; [destruct l; [by exists 0%nat, []|cbn in Hn; lia]|].
  assert (Hstep : forall it (l' : list atom), __madc_fmt_next (flat_map print_atom l) = inr (it, flat_map print_atom l') -> (length l' <= n)%nat -> Forall atom_ok l' ->
    l = atoms_of it ++ l' -> exists fuel its, fmt_items fuel (flat_map print_atom l) = Some (inr its) /\ flat_map atoms_of its = l).
  { intros it l' Hnext Hlen Hok E. destruct (IH l' Hlen Hok) as (fuel & its & Hi & Ha). exists (S fuel), (it :: its). split.
    - destruct (flat_map print_atom l) as [|c s]; [done|]. cbn [fmt_items]. by rewrite Hnext, Hi.
    - cbn [flat_map]. by rewrite Ha. }
  destruct (plain_prefix l) as (t & l' & -> & Ht & Hl'). destruct t as [|c t].
  - destruct l' as [|[c|[id sp]] l']; [by exists 0%nat, []| |]; cbn [map app] in *; apply Forall_cons in Hl as [Ha Hl]; cbn [length] in Hn.
    + cbn [plain_atom] in Hl'. unfold not_brace in Hl'. apply negb_false_iff in Hl'. apply (Hstep (Text [c]) l'); [|lia|done|done].
      cbn [flat_map print_atom]. rewrite Hl'. cbn [app __madc_fmt_next head_is]. unfold isb. by rewrite byte_eqb_refl, Hl'.
    + destruct Ha as [Hid Hsp]. apply (Hstep (Field id sp) l'); [|lia|done|done]. cbn [flat_map]. by apply field_next.
  - apply Forall_app in Hl as [_ Hl]. rewrite (@length_app atom), length_map in Hn. cbn [length] in Hn. apply (Hstep (Text (c :: t)) l'); [|unfold atom in *; lia|done|done].
    rewrite flat_map_app, plain_printed by done. pose proof (span_app not_brace (c :: t) _ Ht (atoms_head l' Hl')) as Hs.
    apply Forall_cons in Ht as [Hc _]. unfold not_brace in Hc. apply negb_true_iff in Hc. cbn [app __madc_fmt_next] in *. rewrite Hc, andb_false_r.
    unfold brace in Hc. apply orb_false_iff in Hc as [E1 E2]. rewrite E1, E2. cbn [negb]. by rewrite Hs.
Qed.
(** a format string written for text (its braces doubled) and replacement fields
    is read item by item to its end, and the items say that text and those fields
    in their order. *)
Theorem format_reads_back (l : list atom) : Forall atom_ok l ->
  exists its, fmt_items (length (flat_map print_atom l)) (flat_map print_atom l) = Some (inr its) /\ flat_map atoms_of its = l.
Proof.
  intros Hl. destruct (atoms_read (length l) l (Nat.le_refl _) Hl) as (fuel & its & Hi & Ha). exists its. split; [|done].
  destruct (items_end _ (flat_map print_atom l) (Nat.le_refl _)) as [x Hx].
  pose proof (items_more _ (fuel + length (flat_map print_atom l)) _ _ Hi ltac:(lia)) as H1.
  pose proof (items_more _ (fuel + length (flat_map print_atom l)) _ _ Hx ltac:(lia)) as H2. congruence.
Qed.
Lemma format_reads_back_witness :
  let l : list atom := map inl (B "a{}") ++ [inr (3, B ">5"); inl "}"%char; inr (-1, [])] in
  Forall atom_ok l /\ flat_map print_atom l = B "a{{}}{3:>5}}}{}" /\
  exists its, fmt_items (length (flat_map print_atom l)) (flat_map print_atom l) = Some (inr its) /\ flat_map atoms_of its = l.
Proof.
  cbv zeta. assert (H : Forall atom_ok (map inl (B "a{}") ++ [inr (3, B ">5"); inl "}"%char; inr (-1, [])])).
  { repeat (apply Forall_cons; split; [cbn; first [exact I|split; [lia|repeat (apply Forall_cons; split; [reflexivity|]); apply Forall_nil; exact I]]|]). apply Forall_nil. exact I. }
  split; [exact H|split; [vm_compute; reflexivity|]]. exact (format_reads_back _ H).
Defined.
