(* ===== verification/FormatFloat.v ===== *)
(** Floats of the engine of [std::format], [src/src/rt/rt_format.c]: the shortest
    digits, their fixed and scientific presentations, the hexadecimal presentation,
    and the writer [__madc_fmt_f64].  A double is its 64 bits.  What C's library
    prints and reads, and when [malloc] fails, is the class [Libc].

    [default_reads_back]: what [{}] prints of a double reads back as the same bits,
    fixed or scientific, from the fewest digits that do, and in the shorter form.
    [hex_exact]: the hexadecimal presentation denotes exactly the double. *)
From S2P Require Import Prelude Numbers Format.
#[local] Open Scope Z_scope.

(** The library's [snprintf] of one double (a format, a precision), [strtod],
    [strtof], the conversion to a float, and whether [malloc] gives a block of a
    size. *)
Class Libc := {
  snprintf_double : bytes -> Z -> Z -> bytes;
  strtod : bytes -> Z;
  strtof : bytes -> Z;
  to_float : Z -> Z;
  malloc_gives : Z -> bool }.

(** ** The shortest digits *)

(** The first precision from [p] on, of [n] more, whose text reads back. *)
Fixpoint shortest_from (print : Z -> bytes) (back : bytes -> bool) (n : nat) (p : Z) : bytes :=
  let sci := print (p - 1) in
  match n with O => sci | S k => if back sci then sci else shortest_from print back k (p + 1) end.
Definition print_e `{!Libc} (v p : Z) : bytes := take 63 (snprintf_double (B "%.*e") p v).
Definition fmt_shortest_sci `{!Libc} (v : Z) (as_float : bool) : bytes :=
  shortest_from (print_e v) (fun sci => if as_float then strtof sci =? to_float v else strtod sci =? v) 16 1.
(** The long double twin, over the same search. *)
Definition fmt_shortest_sci_ld (print : Z -> bytes) (back : bytes -> bool) : bytes := shortest_from (fun p => take 63 (print p)) back 20 1.

(** ** The fixed presentation *)

(** [strtoll] of the exponent: a sign and digits. *)
Definition exponent_value (s : bytes) : Z :=
  match s with
  | c :: r => if byte_eqb c "-"%char then - digits_value 0 r else if byte_eqb c "+"%char then digits_value 0 r else digits_value 0 s
  | [] => 0
  end.
Definition not_e (c : ascii) : bool := negb (byte_eqb c "e"%char).
(** The sign, the digits, the exponent. *)
Definition sci_parts (sci : bytes) : bool * bytes * Z :=
  let '(neg, s) := match sci with c :: r => if byte_eqb c "-"%char then (true, r) else (false, sci) | [] => (false, []) end in
  let '(body, r) := span not_e s in
  (neg, take 24 (List.filter (fun c => negb (byte_eqb c "."%char)) body), match r with _ :: r => exponent_value r | [] => 0 end).
Definition zeros (n : Z) : bytes := repeat "0"%char (Z.to_nat n).
Definition fixed_body (digits : bytes) (exp10 : Z) : bytes :=
  let dn := len digits in
  if dn - 1 <=? exp10 then digits ++ zeros (exp10 - (dn - 1))
  else if 0 <=? exp10 then take (Z.to_nat (exp10 + 1)) digits ++ B "." ++ drop (Z.to_nat (exp10 + 1)) digits
  else B "0." ++ zeros (- exp10 - 1) ++ digits.
Definition fixed_need (neg : bool) (digits : bytes) (exp10 : Z) : Z :=
  let dn := len digits in
  (if neg then 1 else 0) + (if dn - 1 <=? exp10 then exp10 + 1 else if 0 <=? exp10 then dn + 1 else 1 - exp10 + dn).
(** The length, and the text where it fits. *)
Definition fmt_fixed_from_sci (sci : bytes) : Z * bytes :=
  let '(neg, digits, exp10) := sci_parts sci in
  if 380 <? fixed_need neg digits exp10 then (fixed_need neg digits exp10, [])
  else let fixed := (if neg then B "-" else []) ++ fixed_body digits exp10 in (len fixed, fixed).
(** The fixed one unless the other is shorter. *)
Definition shorter (sci : bytes) (fixed : Z * bytes) : bytes := if fixed.1 <=? len sci then fixed.2 else sci.
Definition fmt_shortest_choose (sci : bytes) (fixed : Z * bytes) (cap : Z) : bytes :=
  if cap <=? 0 then [] else
    let n := if fixed.1 <=? len sci then fixed.1 else len sci in
    take (Z.to_nat (if cap - 1 <? n then cap - 1 else n)) (shorter sci fixed).
Definition __madc_fmt_shortest_text `{!Libc} (cap v : Z) (as_float : bool) : bytes :=
  let sci := fmt_shortest_sci v as_float in fmt_shortest_choose sci (fmt_fixed_from_sci sci) cap.

Definition fmt_f64_emit (s : madc_fmt_spec) (body : bytes) : bytes :=
  let head := match body with c :: _ => byte_eqb c "-"%char || byte_eqb c "+"%char || byte_eqb c c_sp | [] => false end in
  emit_number s (if head then take 1 body else []) (if head then drop 1 body else body).
Definition fmt_f64_shortest `{!Libc} (s : madc_fmt_spec) (v : Z) : bytes :=
  let sci := fmt_shortest_sci v false in
  let sel := shorter sci (fmt_fixed_from_sci sci) in
  let neg := head_is (isb "-"%char) sci in
  if negb neg && negb (byte_eqb (sign s) c0) then fmt_f64_emit s (sign s :: sel) else fmt_f64_emit s sel.

(** ** The hexadecimal presentation *)

(** The fields of a double. *)
Definition mantissa (bits : Z) : Z := Z.land bits 0xfffffffffffff.
Definition biased (bits : Z) : Z := Z.land (Z.shiftr bits 52) 0x7ff.
Definition negative (bits : Z) : bool := negb (Z.shiftr bits 63 =? 0).
(** The highest bit set, from [k] down. *)
Fixpoint top_bit (k : nat) (man : Z) : Z := if Z.land (Z.shiftr man (Z.of_nat k)) 1 =? 0 then match k with O => -1 | S j => top_bit j man end else Z.of_nat k.
(** The leading digit, the fraction, the exponent. *)
Definition hex_parts (bits : Z) : Z * Z * Z :=
  if negb (biased bits =? 0) then (1, mantissa bits, biased bits - 1023)
  else if mantissa bits =? 0 then (0, 0, 0)
  else let k := top_bit 51 (mantissa bits) in (1, Z.land (Z.shiftl (mantissa bits) (52 - k)) 0xfffffffffffff, k - 1074).
Definition nibbles (dg : bytes) (frac : Z) : bytes := map (fun i => at_ dg (Z.to_nat (Z.land (Z.shiftr frac (4 * Z.of_nat i)) 0xf))) (rev (seq 0 13)).
(** Trailing zero digits go. *)
Fixpoint strip_zeros (z : ascii) (s : bytes) : bytes := match s with [] => [] | c :: r => let r := strip_zeros z r in if is_nil r && byte_eqb c z then [] else c :: r end.
Definition hex_body (s : madc_fmt_spec) (bits : Z) (upper : bool) : bytes :=
  let dg := if upper then fmt_digits_uc else fmt_digits_lc in
  let '(lead, frac, exp2) := hex_parts bits in
  let nib := strip_zeros (at_ dg 0) (nibbles dg frac) in
  (if negative bits then B "-" else if negb (byte_eqb (sign s) c0) then [sign s] else []) ++ [at_ dg (Z.to_nat lead)] ++
  (if negb (is_nil nib) || alt s then B "." else []) ++ nib ++ [if upper then "P"%char else "p"%char] ++
  [if exp2 <? 0 then "-"%char else "+"%char] ++ int_digits 8 10 fmt_digits_lc (Z.abs exp2) [].
Definition fmt_f64_hex_shortest (s : madc_fmt_spec) (bits : Z) (upper : bool) : bytes := fmt_f64_emit s (hex_body s bits upper).

(** ** The writer *)

Definition special (bits : Z) : bool := biased bits =? 0x7ff.
Definition not_a_number (bits : Z) : bool := special bits && negb (mantissa bits =? 0).
Definition one_of (s : string) (c : ascii) : bool := existsb (byte_eqb c) (list_ascii_of_string s).
(** Printf's format: the sign, [#], a precision and the presentation. *)
Definition printf_format (s : madc_fmt_spec) (t : ascii) : bytes :=
  B "%" ++ (if byte_eqb (sign s) c0 then [] else [sign s]) ++ (if alt s then B "#" else []) ++ B ".*" ++ [t].
Definition strip_0x (body : bytes) : bytes :=
  let at_sign := match body with c :: _ => byte_eqb c "-"%char || byte_eqb c "+"%char || byte_eqb c c_sp | [] => false end in
  let n := if at_sign then 1%nat else 0%nat in take n body ++ drop (n + 2) body.
(** What [snprintf] prints for a spec with a precision or a type. *)
Definition printed `{!Libc} (s : madc_fmt_spec) (v : Z) : bytes :=
  snprintf_double (printf_format s (if byte_eqb (type s) c0 then "g"%char else type s)) (if 0 <=? precision s then precision s else 6) v.
(** Whether it fits the 352 bytes on the stack, or a block for it is given. *)
Definition fits_memory `{!Libc} (body : bytes) : bool := (len body + 1 <=? 352) || malloc_gives (len body + 1).
Definition __madc_fmt_f64 `{!Libc} (spec : bytes) (v : Z) : bytes + bytes := ebind (__madc_fmt_parse_spec spec) (fun s =>
  let t := type s in
  if negb (byte_eqb t c0) && negb (one_of "fFeEgGaA" t) then inl (B "invalid presentation type for a float")
  else if special v then
    let upper := one_of "FEGA" t in
    let word := if not_a_number v then if upper then B "NAN" else B "nan" else if upper then B "INF" else B "inf" in
    inr (fmt_emit_aligned s ">"%char ((if negative v then B "-" else if negb (byte_eqb (sign s) c0) then [sign s] else []) ++ word))
  else if byte_eqb t c0 && (precision s <? 0) then inr (fmt_f64_shortest s v)
  else if one_of "aA" t && (precision s <? 0) then inr (fmt_f64_hex_shortest s v (byte_eqb t "A"%char))
  else
    let body := printed s v in
    if negb (fits_memory body) then inl (B "out of memory")
    else inr (fmt_f64_emit s (if one_of "aA" t then strip_0x body else body))).

Example float_ex :
  let L : Libc := {| snprintf_double := fun _ p _ => if p =? 2 then B "1.25e-03" else B "1.3e-03"; strtod := fun s => if bytes_eqb s (B "1.25e-03") then 5 else 0; strtof := fun _ => 0; to_float := fun _ => 0; malloc_gives := fun _ => false |} in
  map (fun r => string_of_list_ascii (said r))
    [__madc_fmt_f64 (B "") 5; __madc_fmt_f64 (B "+010") 5; __madc_fmt_f64 (B "a") 0x400C000000000000; __madc_fmt_f64 (B "*^12A") 1; __madc_fmt_f64 (B "#a") 0x8000000000000000;
     __madc_fmt_f64 (B "06F") 0xFFF0000000000000; __madc_fmt_f64 (B "d") 0] =
  ["0.00125"; "+000.00125"; "1.cp+1"; "**1P-1074***"; "-0.p+0"; "  -INF"; "[madc format failed: invalid presentation type for a float]"]%string.
Proof. vm_compute. reflexivity. Qed.
(** A text past the stack's 352 bytes when [malloc] fails. *)
Example out_of_memory_ex :
  let L : Libc := {| snprintf_double := fun _ p _ => B "1." ++ repeat "0"%char (Z.to_nat p); strtod := fun _ => 0; strtof := fun _ => 0; to_float := fun _ => 0; malloc_gives := fun _ => false |} in
  map (fun r => match r with inl e => e | inr t => to_string (len t) end) [__madc_fmt_f64 (B ".349f") 5; __madc_fmt_f64 (B ".350f") 5] = [B "351"; B "out of memory"].
Proof. vm_compute. reflexivity. Qed.

(** ** The hexadecimal presentation is exact *)

(** What a hexadecimal text denotes: the sign, the digits as one number, how many
    stand behind the point, the exponent. *)
Definition read_hex (s : bytes) : bool * Z * Z * Z :=
  let '(neg, s) := match s with c :: r => if byte_eqb c "-"%char then (true, r) else if byte_eqb c "+"%char || byte_eqb c c_sp then (false, r) else (false, s) | [] => (false, []) end in
  let '(a, s) := span hexdigit s in
  let '(f, s) := match s with c :: r => if byte_eqb c "."%char then span hexdigit r else ([], s) | [] => ([], []) end in
  (neg, read_digits 16 0 (a ++ f), len f, match s with _ :: c :: r => if byte_eqb c "-"%char then - read_digits 10 0 r else read_digits 10 0 r | _ => 0 end).
(** The double's magnitude, in units of the least denormal, [2^-1074]. *)
Definition magnitude (bits : Z) : Z := if biased bits =? 0 then mantissa bits else (2 ^ 52 + mantissa bits) * 2 ^ (biased bits - 1).

Lemma mantissa_range bits : 0 <= mantissa bits < 2 ^ 52.
Proof. unfold mantissa. change 0xfffffffffffff with (Z.ones 52). rewrite Z.land_ones by lia. apply Z.mod_pos_bound. lia. Qed.
Lemma biased_range bits : 0 <= biased bits < 2 ^ 11.
Proof. unfold biased. change 0x7ff with (Z.ones 11). rewrite Z.land_ones by lia. apply Z.mod_pos_bound. lia. Qed.
Lemma land_one x : Z.land x 1 = x mod 2.
Proof. change 1 with (Z.ones 1). rewrite Z.land_ones by lia. done. Qed.
Lemma top_bit_spec k man : 0 < man < 2 ^ (Z.of_nat k + 1) -> let j := top_bit k man in 0 <= j <= Z.of_nat k /\ 2 ^ j <= man < 2 ^ (j + 1).
Proof.
  induction k as [|k IH]; intros Hm; cbv zeta.
  - change (2 ^ (Z.of_nat 0 + 1)) with 2 in Hm. replace man with 1 by lia. change (top_bit 0 1) with 0. split; [lia|]. change (2 ^ 0) with 1. change (2 ^ (0 + 1)) with 2. lia.
  - cbn [top_bit]. rewrite land_one, Z.shiftr_div_pow2 by lia. rewrite Nat2Z.inj_succ in *. unfold Z.succ in *. set (K := Z.of_nat k + 1) in *. assert (HK : 0 <= K) by lia.
    assert (E : 2 ^ (K + 1) = 2 * 2 ^ K) by (rewrite Z.pow_add_r by lia; lia). pose proof (Z.div_mod man (2 ^ K) ltac:(lia)) as Hdm.
    pose proof (Z.mod_pos_bound man (2 ^ K) ltac:(lia)).
    assert (Hq : 0 <= man / 2 ^ K < 2) by (split; [apply Z.div_pos; lia|apply Z.div_lt_upper_bound; lia]).
    rewrite (Z.mod_small (man / 2 ^ K) 2) by lia. destruct (Z.eqb_spec (man / 2 ^ K) 0) as [Ez|Ez].
    + destruct (IH ltac:(fold K; nia)) as [H1 H2]. split; [lia|done].
    + split; [lia|]. rewrite E. nia.
Qed.
(** The parts denote the magnitude. *)
Lemma hex_parts_spec bits : let '(lead, frac, e) := hex_parts bits in
  0 <= frac < 2 ^ 52 /\ (lead = 1 \/ lead = 0 /\ frac = 0) /\ -1074 <= e <= 1024 /\ (lead * 2 ^ 52 + frac) * 2 ^ (e + 1074) = magnitude bits * 2 ^ 52.
Proof.
  unfold hex_parts, magnitude. pose proof (mantissa_range bits) as Hm. pose proof (biased_range bits) as Hb. destruct (Z.eqb_spec (biased bits) 0) as [E|E]; cbn [negb].
  - destruct (Z.eqb_spec (mantissa bits) 0) as [E0|E0]; [rewrite E0; lia|]. destruct (top_bit_spec 51 (mantissa bits)) as [Hk H2]; [change (2 ^ (Z.of_nat 51 + 1)) with (2 ^ 52); lia|].
    cbv zeta in *. set (k := top_bit 51 (mantissa bits)) in *. change (Z.of_nat 51) with 51 in Hk. change 0xfffffffffffff with (Z.ones 52).
    rewrite Z.land_ones, Z.shiftl_mul_pow2 by lia. rewrite Z.pow_add_r in H2 by lia. change (2 ^ 1) with 2 in H2.
    assert (E52 : 2 ^ k * 2 ^ (52 - k) = 2 ^ 52) by (rewrite <- Z.pow_add_r by lia; f_equal; lia).
    assert (Hr : 2 ^ 52 <= mantissa bits * 2 ^ (52 - k) < 2 * 2 ^ 52).
    { rewrite <- E52. pose proof (Z.pow_pos_nonneg 2 (52 - k) ltac:(lia) ltac:(lia)). nia. }
    assert (Emod : (mantissa bits * 2 ^ (52 - k)) mod 2 ^ 52 = mantissa bits * 2 ^ (52 - k) - 2 ^ 52).
    { symmetry. apply (Z.mod_unique_pos _ _ 1); lia. }
    rewrite Emod. split; [lia|]. split; [by left|]. split; [lia|]. replace (k - 1074 + 1074) with k by lia. rewrite <- E52. nia.
  - split; [done|]. split; [by left|]. split; [lia|]. replace (biased bits - 1023 + 1074) with ((biased bits - 1) + 52) by lia. rewrite Z.pow_add_r by lia. lia.
Qed.
(** The fraction's digits. *)
Lemma nibble_digits dg frac n acc : dg = fmt_digits_lc \/ dg = fmt_digits_uc -> 0 <= frac ->
  let ds := map (fun i => at_ dg (Z.to_nat (Z.land (Z.shiftr frac (4 * Z.of_nat i)) 0xf))) (rev (seq 0 n)) in
  Forall (fun c => hexdigit c = true) ds /\ read_digits 16 acc ds = acc * 16 ^ Z.of_nat n + frac mod 16 ^ Z.of_nat n.
Proof.
  intros Hd Hf. cbv zeta. revert acc. induction n as [|n IH]; intros acc; [split; [constructor|]; cbn [seq rev map read_digits]; rewrite Z.mod_1_r; lia|].
  rewrite seq_S, rev_app_distr. cbn [rev app map read_digits Nat.add].
  set (d := Z.land (Z.shiftr frac (4 * Z.of_nat n)) 0xf).
  assert (Hn : d = (frac / 16 ^ Z.of_nat n) mod 16).
  { unfold d. change 0xf with (Z.ones 4). rewrite Z.land_ones, Z.shiftr_div_pow2 by lia. by rewrite Z.pow_mul_r by lia. }
  assert (Hr : 0 <= d < 16) by (rewrite Hn; apply Z.mod_pos_bound; lia). pose proof (digit_of_table dg d Hd Hr) as Hv. destruct (IH (acc * 16 + d)) as [H1 H2]. split.
  - constructor; [unfold hexdigit; by rewrite Hv|exact H1].
  - rewrite Hv, H2. rewrite Nat2Z.inj_succ, Z.pow_succ_r by lia. rewrite (Z.mul_comm 16 (16 ^ _)), Z.rem_mul_r by lia. rewrite <- Hn. lia.
Qed.
Lemma nibble_chars dg frac : Forall (fun c => exists x, 0 <= x < 16 /\ c = at_ dg (Z.to_nat x)) (nibbles dg frac).
Proof.
  unfold nibbles. apply Forall_forall. intros c Hc. apply list_elem_of_In, in_map_iff in Hc as (i & <- & _).
  eexists. split; [|reflexivity]. change 0xf with (Z.ones 4). rewrite Z.land_ones by lia. apply Z.mod_pos_bound. lia.
Qed.
Lemma strip_zeros_cut z s : exists m, s = strip_zeros z s ++ repeat z m /\ (strip_zeros z s = [] \/ last (strip_zeros z s) <> Some z).
Proof.
  induction s as [|c s (m & E & Hl)]; [exists 0%nat; split; [done|by left]|]. cbn [strip_zeros]. destruct (is_nil (strip_zeros z s)) eqn:En; cbn [andb].
  - destruct (strip_zeros z s); [|done]. destruct (byte_eqb c z) eqn:Ec.
    + apply byte_eqb_eq in Ec as ->. exists (S m). split; [cbn; by f_equal|by left].
    + exists m. split; [cbn in *; by f_equal|]. right. cbn. apply byte_eqb_neq in Ec. congruence.
  - exists m. split; [cbn [app]; by rewrite <- E|]. right. destruct Hl as [Hl|Hl]; [by rewrite Hl in En|]. destruct (strip_zeros z s); [done|exact Hl].
Qed.
Lemma read_digits_zeros acc m z : digit_value z = Some 0 -> read_digits 16 acc (repeat z m) = acc * 16 ^ Z.of_nat m.
Proof.
  intros Hz. revert acc. induction m as [|m IH]; intros acc; [cbn; lia|]. cbn [repeat read_digits]. rewrite Hz, IH, Nat2Z.inj_succ, Z.pow_succ_r by lia. lia.
Qed.
(** Reading the pieces of the text. *)
Lemma read_hex_pieces sg a nib (dot : bool) p (neg : bool) ds : (sg = [] \/ sg = B "-" \/ sg = B "+" \/ sg = [c_sp]) -> hexdigit a = true ->
  Forall (fun c => hexdigit c = true) nib -> (nib <> [] -> dot = true) -> hexdigit p = false -> p <> "."%char ->
  read_hex (sg ++ [a] ++ (if dot then B "." else []) ++ nib ++ [p] ++ [if neg then "-"%char else "+"%char] ++ ds) =
  (bytes_eqb sg (B "-"), read_digits 16 0 (a :: nib), len nib, if neg then - read_digits 10 0 ds else read_digits 10 0 ds).
Proof.
  intros Hsg Ha Hn Hdot Hp Hpd. unfold read_hex. set (tail := [p] ++ [if neg then "-"%char else "+"%char] ++ ds).
  set (rest := [a] ++ (if dot then B "." else []) ++ nib ++ tail).
  assert (Hs : (match sg ++ rest with c :: r => if byte_eqb c "-"%char then (true, r) else if byte_eqb c "+"%char || byte_eqb c c_sp then (false, r) else (false, sg ++ rest) | [] => (false, []) end) = (bytes_eqb sg (B "-"), rest)).
  { destruct Hsg as [->|[->|[-> | ->]]]; [|done|done|done]. cbn [app]. unfold rest at 1. cbn [app]. destruct (hexdigit_plain a Ha) as (H1 & H2 & H3).
    rewrite (proj2 (byte_eqb_neq _ _) H1), (proj2 (byte_eqb_neq _ _) H2), (proj2 (byte_eqb_neq _ _) H3). done. }
  rewrite Hs. unfold rest.
  assert (Htail : head_is hexdigit tail = false) by exact Hp.
  assert (Hexp : (match tail with _ :: c :: r => if byte_eqb c "-"%char then - read_digits 10 0 r else read_digits 10 0 r | _ => 0 end) = (if neg then - read_digits 10 0 ds else read_digits 10 0 ds)).
  { unfold tail. cbn [app]. by destruct neg. }
  assert (Hone : Forall (fun c => hexdigit c = true) [a]) by (by constructor). destruct dot.
  - change (B "." ++ nib ++ tail) with ("."%char :: nib ++ tail). rewrite (span_app hexdigit [a]) by done.
    change (byte_eqb "." ".") with true. cbv iota. rewrite span_app by done. cbn [app]. by rewrite Hexp.
  - destruct nib as [|x nib]; [|by specialize (Hdot ltac:(done))]. cbn [app]. change (a :: tail) with ([a] ++ tail). rewrite (span_app hexdigit [a] tail Hone Htail).
    unfold tail at 1. cbn [app]. rewrite (proj2 (byte_eqb_neq p ".") Hpd). change (p :: (if neg then "-"%char else "+"%char) :: ds) with tail. by rewrite Hexp.
Qed.

(** C37: the hexadecimal presentation of a finite double denotes exactly its value,
    sign included, is normalized (its leading digit is 1 unless the value is zero),
    and ends in no zero digit. *)
Theorem hex_exact s bits upper : 0 <= bits < 2 ^ 64 -> special bits = false -> sign_ok (sign s) ->
  let '(neg, M, n, e) := read_hex (hex_body s bits upper) in
  neg = negative bits /\ 0 <= n <= 13 /\ -1074 <= e /\ M * 2 ^ (e + 1074) = magnitude bits * 16 ^ n /\
  (magnitude bits <> 0 -> 16 ^ n <= M < 2 * 16 ^ n) /\ (0 < n -> M mod 16 <> 0).
Proof.
  intros Hb Hsp Hsg. unfold hex_body. set (dg := if upper then fmt_digits_uc else fmt_digits_lc).
  assert (Hdg : dg = fmt_digits_lc \/ dg = fmt_digits_uc) by (unfold dg; destruct upper; tauto).
  pose proof (hex_parts_spec bits) as Hp. destruct (hex_parts bits) as [[lead frac] e]. destruct Hp as (Hf & Hl & He & Hm).
  destruct (nibble_digits dg frac 13 lead Hdg ltac:(lia)) as [Hall Hval]. fold (nibbles dg frac) in Hall, Hval. change (16 ^ Z.of_nat 13) with (2 ^ 52) in Hval.
  rewrite Z.mod_small in Hval by lia. destruct (strip_zeros_cut (at_ dg 0) (nibbles dg frac)) as (m & Ecut & Hlast). set (nib := strip_zeros _ _) in *.
  assert (Hlen : (length nib + m = 13)%nat).
  { apply (f_equal length) in Ecut. rewrite length_app, repeat_length in Ecut. unfold nibbles in Ecut. rewrite length_map, length_rev, length_seq in Ecut. lia. }
  assert (Hnib : Forall (fun c => hexdigit c = true) nib) by (rewrite Ecut in Hall; by apply Forall_app in Hall as [? _]).
  assert (Hz : digit_value (at_ dg 0) = Some 0) by (apply (digit_of_table dg 0 Hdg); lia).
  assert (Hlead : digit_value (at_ dg (Z.to_nat lead)) = Some lead) by (apply digit_of_table; [done|lia]).
  destruct (int_digits_spec 8 10 fmt_digits_lc (Z.abs e) [] ltac:(by left) ltac:(lia) ltac:(lia) ltac:(lia)) as (ds & Eds & _ & _ & _ & Hds). rewrite app_nil_r in Eds. rewrite Eds.
  set (M := read_digits 16 0 (at_ dg (Z.to_nat lead) :: nib)).
  assert (HM : M * 16 ^ Z.of_nat m = lead * 2 ^ 52 + frac).
  { rewrite <- Hval. rewrite Ecut. rewrite read_digits_app by done. rewrite read_digits_zeros by done. unfold M. cbn [read_digits]. by rewrite Hlead. }
  pose proof (read_hex_pieces (if negative bits then B "-" else if negb (byte_eqb (sign s) c0) then [sign s] else []) (at_ dg (Z.to_nat lead)) nib
    (negb (is_nil nib) || alt s) (if upper then "P"%char else "p"%char) (e <? 0) ds) as Hread.
  rewrite Hread; clear Hread.
  2:{ destruct (negative bits); [tauto|]. destruct Hsg as [-> | [-> | ->]]; [by left|right; right; by left|right; right; by right]. }
  2:{ unfold hexdigit. by rewrite Hlead. }
  2:{ exact Hnib. }
  2:{ intros Hne. by destruct nib. }
  2,3: by destruct upper.
  fold M. rewrite Hds.
  assert (Ee : (if e <? 0 then - Z.abs e else Z.abs e) = e) by (destruct (Z.ltb_spec e 0); lia). rewrite Ee.
  assert (Epow : 16 ^ Z.of_nat m * 16 ^ len nib = 2 ^ 52).
  { rewrite <- Z.pow_add_r by (unfold len; lia). replace (Z.of_nat m + len nib) with 13 by (unfold len; lia). done. }
  assert (Hpm : 0 < 16 ^ Z.of_nat m) by (apply Z.pow_pos_nonneg; lia).
  assert (Hpn : 0 < 16 ^ len nib) by (apply Z.pow_pos_nonneg; unfold len; lia).
  split.
  { destruct (negative bits); [reflexivity|]. destruct Hsg as [-> | [-> | ->]]; reflexivity. }
  split; [unfold len; lia|]. split; [lia|]. split; [|split].
  - apply (Z.mul_reg_l _ _ (16 ^ Z.of_nat m)); [lia|]. transitivity (magnitude bits * 2 ^ 52); [rewrite <- Hm, <- HM; ring|rewrite <- Epow; ring].
  - intros Hmag. destruct Hl as [->|[-> ->]]; [|exfalso; apply Hmag; lia]. nia.
  - intros Hn. destruct Hlast as [Hlast|Hlast]; [rewrite Hlast in Hn; unfold len in Hn; cbn in Hn; lia|]. destruct nib as [|c nib' _] using rev_ind; [unfold len in Hn; cbn in Hn; lia|].
    rewrite last_snoc in Hlast. rewrite Forall_app, Forall_singleton in Hnib. destruct Hnib as [Hn' Hc].
    change (at_ dg (Z.to_nat lead) :: nib' ++ [c]) with ((at_ dg (Z.to_nat lead) :: nib') ++ [c]) in M. unfold M. rewrite read_digits_app by (constructor; [unfold hexdigit; by rewrite Hlead|done]).
    cbn [read_digits]. unfold hexdigit in Hc. destruct (digit_value c) as [v|] eqn:Ev; [|done].
    assert (Hv : v <> 0 /\ 0 <= v < 16).
    { pose proof (nibble_chars dg frac) as Hch. rewrite Ecut, !Forall_app, Forall_singleton in Hch. destruct Hch as [[_ (x & Hx & Ec)] _].
      rewrite Ec, (digit_of_table dg x Hdg Hx) in Ev. injection Ev as <-. split; [|done]. intros ->. apply Hlast. by rewrite Ec. }
    rewrite Z.add_comm, Z.mod_add by lia. rewrite Z.mod_small by lia. lia.
Qed.
Definition plain_spec : madc_fmt_spec := Spec c_sp c0 c0 false false (-1) (-1) "a"%char.
Lemma hex_exact_witness :
  hex_body plain_spec 0x400C000000000000 false = B "1.cp+1" /\
  let '(neg, M, n, e) := read_hex (hex_body plain_spec 0x400C000000000000 false) in
  neg = negative 0x400C000000000000 /\ 0 <= n <= 13 /\ -1074 <= e /\ M * 2 ^ (e + 1074) = magnitude 0x400C000000000000 * 16 ^ n /\
  (magnitude 0x400C000000000000 <> 0 -> 16 ^ n <= M < 2 * 16 ^ n) /\ (0 < n -> M mod 16 <> 0).
Proof.
  split; [vm_compute; reflexivity|]. apply (hex_exact plain_spec 0x400C000000000000 false); [split; [discriminate|reflexivity]|reflexivity|left; reflexivity].
Defined.

(** ** The fixed presentation denotes the same number *)

(** What a decimal text denotes: the sign, the digits as one number, the power of ten. *)
Definition read_decimal (s : bytes) : bool * Z * Z :=
  let '(neg, s) := match s with c :: r => if byte_eqb c "-"%char then (true, r) else (false, s) | [] => (false, []) end in
  let '(a, s) := span isdigit s in
  let '(f, s) := match s with c :: r => if byte_eqb c "."%char then span isdigit r else ([], s) | [] => ([], []) end in
  (neg, digits_value 0 (a ++ f), match s with c :: r => if byte_eqb c "e"%char then exponent_value r else 0 | [] => 0 end - len f).
Definition same_number (x y : bool * Z * Z) : Prop :=
  let '(n, M, e) := x in let '(n', M', e') := y in n = n' /\ M * 10 ^ Z.max 0 (e - e') = M' * 10 ^ Z.max 0 (e' - e).
(** What [%.*e] prints: a sign, a digit, a fraction, the exponent with its sign. *)
Definition sci_text (neg : bool) (d : ascii) (frac : bytes) (eneg : bool) (ds : bytes) : bytes :=
  (if neg then B "-" else []) ++ [d] ++ (if is_nil frac then [] else B "." ++ frac) ++ B "e" ++ [if eneg then "-"%char else "+"%char] ++ ds.
Definition sci_form (p : Z) (s : bytes) : Prop := exists neg d frac eneg ds, s = sci_text neg d frac eneg ds /\
  isdigit d = true /\ digits frac /\ len frac = p /\ digits ds /\ ds <> [] /\ len ds <= 3.
(** Decimal constants: a sign, digits, a fraction, an exponent. *)
Definition decimal_text (s : bytes) : Prop := exists (neg : bool) a (dot : bool) f tail,
  s = (if neg then B "-" else []) ++ a ++ (if dot then B "." ++ f else []) ++ tail /\ digits a /\ a <> [] /\ digits f /\
  (tail = [] \/ exists (eneg : bool) ds, tail = B "e" ++ [if eneg then "-"%char else "+"%char] ++ ds /\ digits ds /\ ds <> []).

Lemma digit_apart c : isdigit c = true -> byte_eqb c "-"%char = false /\ byte_eqb c "."%char = false /\ byte_eqb c "e"%char = false /\ byte_eqb c "+"%char = false.
Proof. intros H. split_and!; apply byte_eqb_neq; by intros ->. Qed.
Lemma digits_plain ds : digits ds -> Forall (fun c => not_e c = true) ds /\ List.filter (fun c => negb (byte_eqb c "."%char)) ds = ds.
Proof.
  induction 1 as [|c ds Hc _ [IH1 IH2]]; [done|]. destruct (digit_apart c Hc) as (_ & H2 & H3 & _). split; [constructor; [unfold not_e; by rewrite H3|done]|].
  cbn [List.filter]. rewrite H2. cbn [negb]. by rewrite IH2.
Qed.
Lemma exponent_read (eneg : bool) ds : exponent_value ((if eneg then "-"%char else "+"%char) :: ds) = if eneg then - digits_value 0 ds else digits_value 0 ds.
Proof. by destruct eneg. Qed.
Section Sci.
Context (neg : bool) (d : ascii) (frac : bytes) (eneg : bool) (ds : bytes) (Hd : isdigit d = true) (Hf : digits frac).
Let sci := sci_text neg d frac eneg ds.
Let E := if eneg then - digits_value 0 ds else digits_value 0 ds.
Let tail := B "e" ++ [if eneg then "-"%char else "+"%char] ++ ds.
Lemma sci_unsigned : (match sci with c :: r => if byte_eqb c "-"%char then (true, r) else (false, sci) | [] => (false, []) end) =
  (neg, [d] ++ (if is_nil frac then [] else B "." ++ frac) ++ tail).
Proof. unfold sci, sci_text. destruct neg; [done|]. cbn [app]. by destruct (digit_apart d Hd) as (-> & _). Qed.
Lemma sci_parts_read : (length frac <= 23)%nat -> sci_parts sci = (neg, d :: frac, E).
Proof.
  intros Hl. unfold sci_parts. rewrite sci_unsigned. destruct (digit_apart d Hd) as (_ & H2 & H3 & _). destruct (digits_plain frac Hf) as [Hp Hfil].
  assert (Hbody : Forall (fun c => not_e c = true) ([d] ++ (if is_nil frac then [] else B "." ++ frac))).
  { apply Forall_app. split; [constructor; [unfold not_e; by rewrite H3|constructor]|]. destruct (is_nil frac); [constructor|]. by constructor. }
  rewrite app_assoc, (span_app not_e _ tail Hbody) by done.
  replace (List.filter _ _) with (d :: frac).
  - rewrite take_ge by (cbn [length]; lia). unfold tail. cbn [app]. change (B "e" ++ (if eneg then "-"%char else "+"%char) :: ds) with ("e"%char :: (if eneg then "-"%char else "+"%char) :: ds). cbv iota. by rewrite exponent_read.
  - symmetry. cbn [app List.filter]. rewrite H2. cbn [negb]. f_equal. destruct (is_nil frac) eqn:En; [by destruct frac|]. exact Hfil.
Qed.
Lemma read_exponent : match tail with c :: r => if byte_eqb c "e"%char then exponent_value r else 0 | [] => 0 end = E.
Proof. change tail with ("e"%char :: (if eneg then "-"%char else "+"%char) :: ds). change (byte_eqb "e" "e") with true. cbv iota. apply exponent_read. Qed.
Lemma read_no_point : (match tail with c :: r => if byte_eqb c "."%char then span isdigit r else ([], tail) | [] => ([], []) end) = ([], tail).
Proof. reflexivity. Qed.
Lemma sci_value : read_decimal sci = (neg, digits_value 0 (d :: frac), E - len frac).
Proof.
  unfold read_decimal. rewrite sci_unsigned. assert (Hone : Forall (fun c => isdigit c = true) [d]) by (by constructor).
  assert (Ht : head_is isdigit tail = false) by reflexivity.
  destruct (is_nil frac) eqn:En.
  - destruct frac; [|done]. change ([d] ++ [] ++ tail) with ([d] ++ tail). rewrite (span_app isdigit [d] tail Hone Ht). rewrite read_no_point. cbv iota beta. rewrite read_exponent. by rewrite app_nil_r.
  - rewrite (span_app isdigit [d] _ Hone) by done. change ((B "." ++ frac) ++ tail) with ("."%char :: frac ++ tail). change (byte_eqb "." ".") with true. cbv iota beta.
    rewrite (span_app isdigit frac tail Hf Ht). match goal with |- context [if ?b then (frac, tail) else _] => change b with true end. cbv iota beta. by rewrite read_exponent.
Qed.
End Sci.

(** Reading a sign, digits and an optional fraction. *)
Lemma plain_value (neg : bool) a f (dot : bool) : digits a -> head_is isdigit a = true -> digits f -> (dot = false -> f = []) ->
  read_decimal ((if neg then B "-" else []) ++ a ++ (if dot then B "." ++ f else [])) = (neg, digits_value 0 (a ++ f), - len f).
Proof.
  intros Ha Hh Hf Hdot. unfold read_decimal. set (t := if dot then B "." ++ f else []).
  assert (Hs : (match (if neg then B "-" else []) ++ a ++ t with c :: r => if byte_eqb c "-"%char then (true, r) else (false, (if neg then B "-" else []) ++ a ++ t) | [] => (false, []) end) = (neg, a ++ t)).
  { destruct neg; [done|]. destruct a as [|c a]; [done|]. cbn [app]. by destruct (digit_apart c Hh) as (-> & _). }
  rewrite Hs, (span_app isdigit a t Ha) by (unfold t; by destruct dot). unfold t. destruct dot.
  - change (B "." ++ f) with ("."%char :: f). change (byte_eqb "." ".") with true. rewrite <- (app_nil_r f) at 1. rewrite (span_app isdigit f [] Hf) by done. cbv iota beta. f_equal.
  - rewrite (Hdot eq_refl). done.
Qed.
Lemma bytes_len_app (a b : bytes) : len (a ++ b) = len a + len b.
Proof. unfold len. rewrite length_app. lia. Qed.
Lemma zeros_digits n : digits (zeros n).
Proof. unfold zeros, digits. induction (Z.to_nat n); [constructor|by constructor]. Qed.
Lemma len_zeros n : 0 <= n -> len (zeros n) = n.
Proof. intros H. unfold zeros, len. rewrite repeat_length. lia. Qed.
Lemma digits_value_zeros acc n : digits_value acc (zeros n) = acc * 10 ^ Z.max 0 n.
Proof.
  unfold zeros. destruct (Z.leb_spec 0 n) as [Hn|Hn]; [|replace (Z.to_nat n) with 0%nat by lia; replace (Z.max 0 n) with 0 by lia; cbn; lia].
  replace (Z.max 0 n) with (Z.of_nat (Z.to_nat n)) by lia. generalize (Z.to_nat n) as k. clear n Hn. intros k. revert acc.
  induction k as [|k IH]; intros acc; [cbn; lia|]. cbn [repeat digits_value]. change (isdigit "0") with true. cbv iota. rewrite IH, Nat2Z.inj_succ, Z.pow_succ_r by lia. change (code "0" - 48) with 0. lia.
Qed.
Lemma fixed_value (neg : bool) d frac E : isdigit d = true -> digits frac ->
  let body := fixed_body (d :: frac) E in
  same_number (read_decimal ((if neg then B "-" else []) ++ body)) (neg, digits_value 0 (d :: frac), E - len frac) /\
  len ((if neg then B "-" else []) ++ body) = fixed_need neg (d :: frac) E /\ decimal_text ((if neg then B "-" else []) ++ body).
Proof.
  intros Hd Hf. cbv zeta. set (dg := d :: frac). assert (Hg : digits dg) by (by constructor). assert (Hlen : len dg = len frac + 1) by (unfold len; cbn [dg length]; lia).
  set (sg := if neg then B "-" else []). assert (Hsg : len sg = if neg then 1 else 0) by (unfold sg; by destruct neg). assert (Hfl : 0 <= len frac) by (unfold len; lia).
  unfold fixed_body, fixed_need. rewrite Hlen. replace (len frac + 1 - 1) with (len frac) by lia. destruct (Z.leb_spec (len frac) E) as [H1|H1]; [|destruct (Z.leb_spec 0 E) as [H2|H2]].
  - pose proof (plain_value neg (dg ++ zeros (E - len frac)) [] false) as R. cbv iota in R. rewrite !app_nil_r in R. fold sg in R. rewrite R; [|apply Forall_app; split; [done|apply zeros_digits]|exact Hd|constructor|done].
    split; [|split; [rewrite !bytes_len_app, len_zeros by lia; lia|]; exists neg, (dg ++ zeros (E - len frac)), false, [], []; rewrite !app_nil_r; split_and!; [done|apply Forall_app; split; [done|apply zeros_digits]|done|constructor|by left]].
    cbn [same_number]. split; [done|]. rewrite digits_value_app, digits_value_zeros by done. change (len []) with 0.
    replace (Z.max 0 (- 0 - (E - len frac))) with 0 by lia. replace (E - len frac - - 0) with (E - len frac) by lia. lia.
  - set (n := Z.to_nat (E + 1)). assert (Hn : (n <= length dg)%nat) by (unfold n; unfold len in *; lia).
    assert (Hcut : digits (take n dg) /\ digits (drop n dg)) by (apply Forall_app; by rewrite take_drop).
    pose proof (plain_value neg (take n dg) (drop n dg) true) as R. cbv iota in R. fold sg in R. rewrite R; [|tauto| |tauto|done]; clear R.
    2:{ unfold n. replace (Z.to_nat (E + 1)) with (S (Z.to_nat E)) by lia. exact Hd. }
    rewrite take_drop. rewrite !bytes_len_app. assert (Ht : len (take n dg) = E + 1) by (unfold len in *; rewrite length_take; unfold n in *; lia).
    assert (Hdr : len (drop n dg) = len frac - E) by (unfold len in *; rewrite length_drop; unfold n in *; lia).
    assert (Hne : take n dg <> []) by (intros E0; rewrite E0 in Ht; change (len []) with 0 in Ht; lia).
    split; [|split; [change (len (B ".")) with 1; lia|]; exists neg, (take n dg), true, (drop n dg), []; rewrite app_nil_r; tauto]. cbn [same_number]. rewrite Hdr. split; [done|]. replace (- (len frac - E)) with (E - len frac) by lia. done.
  - pose proof (plain_value neg (B "0") (zeros (- E - 1) ++ dg) true) as R. cbv iota in R. fold sg in R. change (B "0." ++ zeros (- E - 1) ++ dg) with (B "0" ++ B "." ++ zeros (- E - 1) ++ dg).
    rewrite R; [|by constructor|done|apply Forall_app; split; [apply zeros_digits|done]|done]; clear R. rewrite !bytes_len_app, !len_zeros by lia. rewrite Hlen.
    split; [|split; [change (len (B "0")) with 1; change (len (B ".")) with 1; lia|]; exists neg, (B "0"), true, (zeros (- E - 1) ++ dg), []; rewrite app_nil_r; split_and!;
      [done|by constructor|done|apply Forall_app; split; [apply zeros_digits|done]|by left]]. cbn [same_number]. split; [done|].
    rewrite (digits_value_app (B "0")) by (by constructor). change (digits_value 0 (B "0")) with 0. rewrite digits_value_app, digits_value_zeros by apply zeros_digits.
    rewrite Z.mul_0_l. f_equal; f_equal; lia.
Qed.
(** Equal numbers, in any unit small enough. *)
Lemma same_number_unit x y m : m <= x.2 -> m <= y.2 -> same_number x y <-> x.1.1 = y.1.1 /\ x.1.2 * 10 ^ (x.2 - m) = y.1.2 * 10 ^ (y.2 - m).
Proof.
  destruct x as [[n M] e], y as [[n' M'] e']. cbn [fst snd same_number]. intros H1 H2.
  assert (Ee : e - m = Z.max 0 (e - e') + (Z.min e e' - m)) by lia. assert (Ee' : e' - m = Z.max 0 (e' - e) + (Z.min e e' - m)) by lia.
  rewrite Ee, Ee'. rewrite !Z.pow_add_r by lia. assert (Hp : 0 < 10 ^ (Z.min e e' - m)) by (apply Z.pow_pos_nonneg; lia).
  split; intros [-> H']; (split; [done|]); nia.
Qed.
#[export] Instance same_number_dec x y : Decision (same_number x y).
Proof. destruct x as [[n M] e], y as [[n' M'] e']. cbn [same_number]. apply _. Defined.
#[export] Instance same_number_equiv : Equivalence same_number.
Proof.
  split.
  - intros x. apply (same_number_unit _ _ x.2); [lia|lia|done].
  - intros x y Hxy. apply (same_number_unit x y (Z.min x.2 y.2)) in Hxy; [|lia|lia]. apply (same_number_unit y x (Z.min x.2 y.2)); [lia|lia|]. destruct Hxy. done.
  - intros x y z Hxy Hyz. set (m := Z.min x.2 (Z.min y.2 z.2)). apply (same_number_unit x y m) in Hxy; [|lia|lia]. apply (same_number_unit y z m) in Hyz; [|lia|lia].
    apply (same_number_unit x z m); [lia|lia|]. destruct Hxy, Hyz. split; congruence.
Qed.

Lemma sci_decimal p s : sci_form p s -> decimal_text s.
Proof.
  intros (neg & d & frac & eneg & ds & -> & Hd & Hf & _ & Hds & Hne & _). exists neg, [d], (negb (is_nil frac)), frac, (B "e" ++ [if eneg then "-"%char else "+"%char] ++ ds).
  split_and!; [|by constructor|done|done|right; by exists eneg, ds]. unfold sci_text. by destruct (is_nil frac).
Qed.
Lemma sci_length p s : sci_form p s -> 0 <= p <= 16 -> len s <= 24.
Proof.
  intros (neg & d & frac & eneg & ds & -> & _ & _ & Hp & _ & _ & Hl) Hr. unfold sci_text. rewrite !bytes_len_app.
  assert (len (if neg then B "-" else []) <= 1) by (by destruct neg). assert (len (if is_nil frac then [] else B "." ++ frac) <= 1 + len frac).
  { destruct (is_nil frac); [change (len []) with 0; lia|]. rewrite bytes_len_app. change (len (B ".")) with 1. lia. }
  change (len (B "e")) with 1. change (len [d]) with 1. change (len [if eneg then "-"%char else "+"%char]) with 1. lia.
Qed.
(** The text chosen denotes the number of the scientific one, and is no longer. *)
Lemma shorter_same p s : sci_form p s -> 0 <= p <= 16 ->
  let t := shorter s (fmt_fixed_from_sci s) in same_number (read_decimal t) (read_decimal s) /\ len t <= len s /\ decimal_text t.
Proof.
  intros Hs Hp. pose proof (sci_length p s Hs Hp) as Hlen. pose proof (sci_decimal p s Hs) as Hdec. destruct Hs as (neg & d & frac & eneg & ds & -> & Hd & Hf & Hl & _).
  cbv zeta. unfold fmt_fixed_from_sci. rewrite sci_parts_read by (done || unfold len in Hl; lia).
  set (E := if eneg then _ else _). destruct (fixed_value neg d frac E Hd Hf) as (Hsame & Hneed & Hd'). rewrite <- sci_value with (ds := ds) (eneg := eneg) in Hsame by done.
  unfold shorter. destruct (Z.ltb_spec 380 (fixed_need neg (d :: frac) E)) as [Hbig|Hfit]; cbn [fst snd].
  - rewrite (proj2 (Z.leb_gt _ _)) by lia. split; [reflexivity|]. split; [lia|done].
  - destruct (Z.leb_spec (len ((if neg then B "-" else []) ++ fixed_body (d :: frac) E)) (len (sci_text neg d frac eneg ds))) as [Hc|Hc]; [|split; [reflexivity|]; split; [lia|done]].
    split; [exact Hsame|]. split; [lia|done].
Qed.
(** The search stops at the first precision that reads back, if one does. *)
Lemma shortest_from_first print back n p : (exists q, p <= q <= p + Z.of_nat n /\ back (print (q - 1)) = true) ->
  exists q, p <= q <= p + Z.of_nat n /\ shortest_from print back n p = print (q - 1) /\ back (print (q - 1)) = true /\ forall r, p <= r < q -> back (print (r - 1)) = false.
Proof.
  revert p. induction n as [|n IH]; intros p (q & Hq & Hb).
  - exists p. replace q with p in Hb by lia. split; [lia|]. split; [done|]. split; [done|lia].
  - cbn [shortest_from]. destruct (back (print (p - 1))) eqn:Ep.
    + exists p. split; [lia|]. split; [done|]. split; [done|lia].
    + destruct (IH (p + 1)) as (r & Hr & H1 & H2 & H3).
      { exists q. split; [|done]. assert (q <> p) by (intros ->; congruence). lia. }
      exists r. split; [lia|]. split; [done|]. split; [done|]. intros x Hx. destruct (decide (x = p)) as [->|]; [done|]. apply H3. lia.
Qed.
(** The writer under an empty specification writes the text alone. *)
Lemma default_text `{!Libc} v : special v = false -> __madc_fmt_f64 [] v = inr (shorter (fmt_shortest_sci v false) (fmt_fixed_from_sci (fmt_shortest_sci v false))).
Proof.
  intros Hs. unfold __madc_fmt_f64. change (__madc_fmt_parse_spec []) with (@inr bytes madc_fmt_spec (Spec c_sp c0 c0 false false (-1) (-1) c0)). cbn [ebind type precision].
  change (byte_eqb c0 c0) with true. cbn [negb andb]. rewrite Hs. change (-1 <? 0) with true. cbv iota. unfold fmt_f64_shortest. cbn [sign]. change (byte_eqb c0 c0) with true. cbn [negb].
  rewrite andb_false_r. f_equal. generalize (shorter (fmt_shortest_sci v false) (fmt_fixed_from_sci (fmt_shortest_sci v false))) as b. intros b.
  set (empty := Spec _ _ _ _ _ _ _ _). assert (Hplain : forall h x, emit_number empty h x = h ++ x).
  { intros h x. unfold emit_number, pads_zero, fmt_emit_aligned. cbn [empty zero width align andb]. change (-1 <? 0) with true. cbv iota.
    replace (len (h ++ x) <? 0) with false by (symmetry; apply Z.ltb_ge; unfold len; lia). cbn. by rewrite app_nil_r. }
  unfold fmt_f64_emit. rewrite Hplain. destruct b as [|c b]; [done|]. cbn [take drop]. by destruct (_ || _ || _).
Qed.

(** C36: what a finite double prints under [{}] reads back as the very same bits, is
    the number of the scientific text of the first precision that does so, and is no
    longer than that text.  The library prints a sign, one digit, a fraction of the
    precision's length and an exponent; 17 digits read back; and the reader depends
    only on the number a decimal constant denotes. *)
Theorem default_reads_back `{!Libc} v : special v = false ->
  (forall p, 0 <= p <= 16 -> sci_form p (snprintf_double (B "%.*e") p v)) ->
  strtod (snprintf_double (B "%.*e") 16 v) = v ->
  (forall a b, decimal_text a -> decimal_text b -> same_number (read_decimal a) (read_decimal b) -> strtod a = strtod b) ->
  exists text, __madc_fmt_f64 [] v = inr text /\ strtod text = v /\ exists p, 0 <= p <= 16 /\ same_number (read_decimal text) (read_decimal (snprintf_double (B "%.*e") p v)) /\
    len text <= len (snprintf_double (B "%.*e") p v) /\ forall q, 0 <= q < p -> strtod (snprintf_double (B "%.*e") q v) <> v.
Proof.
  intros Hv Hform Hback Hnum. rewrite default_text by done. eexists. split; [reflexivity|]. unfold fmt_shortest_sci.
  assert (Hprint : forall p, 1 <= p <= 17 -> print_e v (p - 1) = snprintf_double (B "%.*e") (p - 1) v).
  { intros p Hp. unfold print_e. apply take_ge. pose proof (sci_length (p - 1) _ (Hform (p - 1) ltac:(lia)) ltac:(lia)) as Hl. unfold len in Hl. lia. }
  destruct (shortest_from_first (print_e v) (fun sci => strtod sci =? v) 16 1) as (p & Hp & -> & Hb & Hleast).
  { exists 17. split; [lia|]. rewrite Hprint by lia. change (17 - 1) with 16. by apply Z.eqb_eq. }
  change (1 + Z.of_nat 16) with 17 in Hp. rewrite Hprint in * by lia. apply Z.eqb_eq in Hb. pose proof (Hform (p - 1) ltac:(lia)) as Hsci.
  destruct (shorter_same (p - 1) _ Hsci ltac:(lia)) as (Hsame & Hl & Hd). split.
  - transitivity (strtod (snprintf_double (B "%.*e") (p - 1) v)); [|exact Hb]. apply Hnum; [done|by apply (sci_decimal (p - 1))|done].
  - exists (p - 1). split; [lia|]. split; [done|]. split; [done|]. intros q Hq E. specialize (Hleast (q + 1) ltac:(lia)). rewrite Hprint in Hleast by lia.
    replace (q + 1 - 1) with q in Hleast by lia. rewrite E, Z.eqb_refl in Hleast. done.
Qed.
(** 0.00125, as its library prints and reads it. *)
Definition some_double : Z := 0x3F547AE147AE147B.
Definition some_libc : Libc := {|
  snprintf_double _ p _ := match p with 0 => B "1e-03" | 1 => B "1.2e-03" | _ => B "1.25" ++ zeros (p - 2) ++ B "e-03" end;
  strtod s := if decide (same_number (read_decimal s) (false, 125, -5)) then some_double else 0;
  strtof _ := 0; to_float _ := 0; malloc_gives n := n <? 2 ^ 63 |}.
Lemma some_form p : 0 <= p <= 16 -> sci_form p (@snprintf_double some_libc (B "%.*e") p some_double).
Proof.
  intros Hp. exists false, "1"%char, (match p with 0 => [] | 1 => B "2" | _ => B "25" ++ zeros (p - 2) end), true, (B "03").
  destruct (decide (p = 0)) as [->|]; [split_and!; try done; [constructor|by repeat constructor]|]. destruct (decide (p = 1)) as [->|]; [split_and!; try done; by repeat constructor|].
  assert (E : forall A (a b c : A), match p with 0 => a | 1 => b | _ => c end = c) by (intros; destruct p as [|[]|]; done || lia). cbn [snprintf_double some_libc]. rewrite !E.
  split_and!; [done|done|apply Forall_app; split; [by repeat constructor|apply zeros_digits]|rewrite bytes_len_app, len_zeros by lia; change (len (B "25")) with 2; lia|by repeat constructor|done|done].
Qed.
Lemma some_number a b : same_number (read_decimal a) (read_decimal b) -> @strtod some_libc a = @strtod some_libc b.
Proof. intros E. cbn [strtod some_libc]. destruct (decide (same_number (read_decimal a) _)) as [Ha|Ha], (decide (same_number (read_decimal b) _)) as [Hb|Hb]; [done| | |done]; exfalso; [apply Hb|apply Ha]; by rewrite <- Ha || (rewrite <- Hb). Qed.
Lemma default_reads_back_witness : @__madc_fmt_f64 some_libc [] some_double = inr (B "0.00125") /\
  exists text, @__madc_fmt_f64 some_libc [] some_double = inr text /\ @strtod some_libc text = some_double /\ exists p, 0 <= p <= 16 /\
    same_number (read_decimal text) (read_decimal (@snprintf_double some_libc (B "%.*e") p some_double)) /\
    len text <= len (@snprintf_double some_libc (B "%.*e") p some_double) /\ forall q, 0 <= q < p -> @strtod some_libc (@snprintf_double some_libc (B "%.*e") q some_double) <> some_double.
Proof.
  split; [vm_compute; reflexivity|]. refine (@default_reads_back some_libc some_double eq_refl some_form _ _); [vm_compute; reflexivity|].
  intros a b _ _. exact (some_number a b).
Defined.
