(* ===== verification/FormatCalls.v ===== *)
(** The callers of the format engine: the compiler's lowering of [std::format],
    [std::print] and [std::println] in [src/src/cir_format.cpp], a value's writer in
    [src/src/rt_format_value.cpp], and [python::format] in [src/src/ns_python.cpp].
    The arguments arrive bound: their kinds, then their values.  A call's statements
    stand in the order they run.

    [call_accepted]: which calls compile, and to what.  [call_writes]: what compiled
    writes; a failing field is a value's, a number no character has, or a double
    too long for the stack when [malloc] fails.
    [python_as_compiled]: [python::format] runs what the compiler would have made. *)
From S2P Require Import Prelude Numbers Format FormatFloat.
#[local] Open Scope Z_scope.

(** ** A field, checked *)

Inductive FormatKind := fkI64 | fkU64 | fkF64 | fkCstr | fkStdString | fkChar | fkBool | fkValue | fkPtr.
Definition format_type_allowed (t : ascii) (allowed : string) : bool := byte_eqb t c0 || one_of allowed t.
Definition type_refused (t : ascii) (what : string) : bytes := B "format-spec type '" ++ [t] ++ B "' is not valid for " ++ B what ++ B " argument".
Definition flags (s : madc_fmt_spec) : bool := negb (byte_eqb (sign s) c0) || alt s || zero s.
Definition is_type (c : ascii) (s : madc_fmt_spec) : bool := byte_eqb (type s) c0 || byte_eqb (type s) c.
(** Why a spec does not fit a kind. *)
Definition field_check (kind : FormatKind) (s : madc_fmt_spec) : bytes + unit :=
  let precise := 0 <=? precision s in
  match kind with
  | fkI64 | fkU64 =>
      if negb (format_type_allowed (type s) "bBcdoxX") then inl (type_refused (type s) "an integer")
      else if precise then inl (B "precision is not valid for an integer argument") else inr tt
  | fkF64 => if negb (format_type_allowed (type s) "fFeEgGaA") then inl (type_refused (type s) "a floating-point") else inr tt
  | fkCstr | fkStdString =>
      if negb (format_type_allowed (type s) "s") then inl (type_refused (type s) "a string")
      else if flags s then inl (B "sign, '#' and '0' are not valid for a string argument") else inr tt
  | fkChar =>
      if negb (format_type_allowed (type s) "cbBdoxX") then inl (type_refused (type s) "a char")
      else if precise then inl (B "precision is not valid for a char argument")
      else if is_type "c"%char s && flags s then inl (B "sign, '#' and '0' are only valid for a char's integer presentations") else inr tt
  | fkBool =>
      if negb (format_type_allowed (type s) "sbBdoxX") then inl (type_refused (type s) "a bool")
      else if precise then inl (B "precision is not valid for a bool argument")
      else if is_type "s"%char s && flags s then inl (B "sign, '#' and '0' are only valid for a bool's integer presentations") else inr tt
  | fkPtr =>
      if negb (format_type_allowed (type s) "p") then inl (type_refused (type s) "a pointer")
      else if flags s || precise then inl (B "only fill, align and width apply to a pointer argument") else inr tt
  | fkValue =>
      if negb (format_type_allowed (type s) "sbBcdoxXfFeEgGaA") then inl (B "format-spec type '" ++ [type s] ++ B "' is not valid for any value kind") else inr tt
  end.
(** The statements a call becomes: literal text, and a field of an argument. *)
Inductive stmt := Put (text : bytes) | Call (arg : nat) (spec : bytes).
Definition format_field_stmt (kind : FormatKind) (ai : nat) (spec : bytes) : bytes + stmt :=
  ebind (__madc_fmt_parse_spec spec) (fun s => ebind (field_check kind s) (fun _ => inr (Call ai spec))).

(** ** A call, lowered *)

Inductive FormatFlavor := ffFormat | ffPrint | ffPrintln.
Definition format_flavor_name (fl : FormatFlavor) : bytes := match fl with ffFormat => B "std::format" | ffPrintln => B "std::println" | ffPrint => B "std::print" end.
(** The next field's argument: numbered in the string, or in order; never both.
    [automatic] is [None] until the first field. *)
Definition pick (automatic : option bool) (next_arg : nat) (arg_id : Z) : option (option bool * nat * nat) :=
  if 0 <=? arg_id then match automatic with Some true => None | _ => Some (Some false, next_arg, Z.to_nat arg_id) end
  else match automatic with Some false => None | _ => Some (Some true, S next_arg, next_arg) end.
Definition wants (ai nargs : nat) : bytes :=
  B "the format string wants argument " ++ to_string (Z.of_nat ai) ++ B " but the call passes " ++ to_string (Z.of_nat nargs).
Definition then_stmts (l : list stmt) (x : option (bytes + list stmt)) : option (bytes + list stmt) := match x with Some (inr m) => Some (inr (l ++ m)) | _ => x end.
Definition text_stmts (t : bytes) : list stmt := if is_nil t then [] else [Put t].
Fixpoint walk (fuel : nat) (kinds : list FormatKind) (automatic : option bool) (next_arg : nat) (f : bytes) : option (bytes + list stmt) :=
  match fuel, f with
  | _, [] => Some (inr [])
  | O, _ => None
  | S k, _ =>
      match __madc_fmt_next f with
      | inl e => Some (inl e)
      | inr (Text t, f) => then_stmts (text_stmts t) (walk k kinds automatic next_arg f)
      | inr (Field id spec, f) =>
          match pick automatic next_arg id with
          | None => Some (inl (B "cannot mix manual ({0}) and automatic ({}) argument indexing"))
          | Some (automatic, next_arg, ai) =>
              match kinds !! ai with
              | None => Some (inl (wants ai (length kinds)))
              | Some kind => match format_field_stmt kind ai spec with inl why => Some (inl why) | inr st => then_stmts [st] (walk k kinds automatic next_arg f) end
              end
          end
      end
  end.
Definition lower_format_call (fl : FormatFlavor) (kinds : list FormatKind) (f : bytes) : option (bytes + list stmt) :=
  match walk (length f) kinds None 0 f with
  | Some (inl why) => Some (inl (format_flavor_name fl ++ B ": " ++ why))
  | Some (inr l) => Some (inr (l ++ match fl with ffPrintln => [Put [c_nl]] | _ => [] end))
  | None => None
  end.

(** ** A call, run *)

(** A [madc::value] of the kinds that format; the others. *)
Inductive value := VNull | VBoolean (b : bool) | VInteger (v : Z) | VReal (v : Z) | VString (s : bytes) | VOther.
Definition __madc_fmt_value `{!Libc} (spec : bytes) (v : value) : bytes + bytes :=
  match v with
  | VNull => inr []
  | VBoolean b => __madc_fmt_bool spec b
  | VInteger v => __madc_fmt_i64 spec v
  | VReal v => __madc_fmt_f64 spec v
  | VString s => __madc_fmt_str_n spec s
  | VOther => inl (B "value kind not formattable")
  end.
Definition __madc_fmt_stdstring (spec s : bytes) : bytes + bytes := __madc_fmt_str_n spec s.
(** An argument's temporary. *)
Inductive argument := AI64 (v : Z) | AU64 (v : Z) | AF64 (v : Z) | ACstr (s : option bytes) | AStdString (s : bytes) | AChar (c : Z) | ABool (b : bool) | AValue (v : value) | APtr (p : Z).
Definition kind_of (a : argument) : FormatKind :=
  match a with AI64 _ => fkI64 | AU64 _ => fkU64 | AF64 _ => fkF64 | ACstr _ => fkCstr | AStdString _ => fkStdString | AChar _ => fkChar | ABool _ => fkBool | AValue _ => fkValue | APtr _ => fkPtr end.
(** The primitive of its kind. *)
Definition run_field `{!Libc} (a : argument) (spec : bytes) : bytes + bytes :=
  match a with
  | AI64 v => __madc_fmt_i64 spec v | AU64 v => __madc_fmt_u64 spec v | AF64 v => __madc_fmt_f64 spec v
  | ACstr s => __madc_fmt_cstr spec s | AStdString s => __madc_fmt_stdstring spec s | AChar c => __madc_fmt_char spec c
  | ABool b => __madc_fmt_bool spec b | AValue v => __madc_fmt_value spec v | APtr p => __madc_fmt_ptr spec p
  end.
Definition run_stmt `{!Libc} (args : list argument) (st : stmt) : bytes :=
  match st with Put t => __madc_fmt_text t | Call ai spec => match args !! ai with Some a => said (run_field a spec) | None => [] end end.
Definition run `{!Libc} (args : list argument) (l : list stmt) : bytes := flat_map (run_stmt args) l.

(** ** [python::format] *)

Definition python_format_fail (why : bytes) : bytes := B "[python format failed: " ++ why ++ B "]".
(** The array's values, if the argument is an array. *)
Fixpoint python_format_engine `{!Libc} (fuel : nat) (data : option (list value)) (automatic : option bool) (next_arg : nat) (f : bytes) : option bytes :=
  match fuel, f with
  | _, [] => Some []
  | O, _ => None
  | S k, _ =>
      match __madc_fmt_next f with
      | inl e => Some (python_format_fail e)
      | inr (Text t, f) => option_map (app t) (python_format_engine k data automatic next_arg f)
      | inr (Field id spec, f) =>
          match pick automatic next_arg id with
          | None => Some (python_format_fail (B "cannot mix manual and automatic indexing"))
          | Some (automatic, next_arg, ai) =>
              option_map (app (match data ≫= (fun l => l !! ai) with None => python_format_fail (B "argument index out of range") | Some v => said (__madc_fmt_value spec v) end))
                (python_format_engine k data automatic next_arg f)
          end
      end
  end.
Definition python_format `{!Libc} (f : bytes) (data : option (list value)) : option bytes := python_format_engine (length f) data None 0 f.

Example calls_ex : let L : Libc := some_libc in
  let go fl args f := match lower_format_call fl (map kind_of args) (B f) with Some (inl e) => Some (string_of_list_ascii e) | Some (inr l) => Some (string_of_list_ascii (run args l)) | None => None end in
  [go ffPrint [AI64 (-5); AStdString (B "ab")] "{:>4}|{:_<4}|{{}}"; go ffFormat [AI64 1; ABool true] "{1} {0:#x} {1:d}"; go ffFormat [AI64 1] "{} {0}"; go ffPrintln [AI64 1] "{} {}";
   go ffFormat [ABool true] "{:+}"; option_map string_of_list_ascii (python_format (B "{:.2}{}{1}") (Some [VString (B "xyz"); VNull]));
   option_map string_of_list_ascii (python_format (B "{}-{}-{}!") (Some [VString (B "xyz"); VOther]))] =
  [Some "  -5|ab__|{}"; Some "true 0x1 1"; Some "std::format: cannot mix manual ({0}) and automatic ({}) argument indexing";
   Some "std::println: the format string wants argument 1 but the call passes 1"; Some "std::format: sign, '#' and '0' are only valid for a bool's integer presentations";
   Some "xy[python format failed: cannot mix manual and automatic indexing]"; Some "xyz-[madc format failed: value kind not formattable]-[python format failed: argument index out of range]!"]%string.
Proof. vm_compute. reflexivity. Qed.

(** ** The calls that compile *)

Definition ids (its : list madc_fmt_item) : list Z := flat_map (fun it => match it with Field id _ => [id] | Text _ => [] end) its.
Definition specs (its : list madc_fmt_item) : list bytes := flat_map (fun it => match it with Field _ spec => [spec] | Text _ => [] end) its.
(** The arguments the fields name: all in order, or all by number. *)
Definition indices (ids : list Z) : option (list nat) :=
  if forallb (fun id => id <? 0) ids then Some (seq 0 (length ids)) else if forallb (Z.leb 0) ids then Some (map Z.to_nat ids) else None.
Definition field_fits (kinds : list FormatKind) (ai : nat) (spec : bytes) : Prop :=
  exists kind s, kinds !! ai = Some kind /\ __madc_fmt_parse_spec spec = inr s /\ field_check kind s = inr tt.
(** The items with their arguments. *)
Fixpoint place (its : list madc_fmt_item) (ais : list nat) : list stmt :=
  match its with
  | [] => []
  | Text t :: its => text_stmts t ++ place its ais
  | Field _ spec :: its => match ais with ai :: ais => Call ai spec :: place its ais | [] => [] end
  end.

(** The picks of a run of fields. *)
Fixpoint picks (automatic : option bool) (next_arg : nat) (ids : list Z) : option (list nat) :=
  match ids with
  | [] => Some []
  | id :: ids => match pick automatic next_arg id with Some (automatic, next_arg, ai) => option_map (cons ai) (picks automatic next_arg ids) | None => None end
  end.
Lemma picks_automatic n l : picks (Some true) n l = if forallb (fun id => id <? 0) l then Some (seq n (length l)) else None.
Proof.
  revert n. induction l as [|id l IH]; intros n; [done|]. cbn [picks forallb length seq]. unfold pick. rewrite Z.ltb_antisym.
  destruct (0 <=? id); cbn [negb andb]; [done|]. rewrite IH. by destruct (forallb _ l).
Qed.
Lemma picks_manual n l : picks (Some false) n l = if forallb (Z.leb 0) l then Some (map Z.to_nat l) else None.
Proof.
  revert n. induction l as [|id l IH]; intros n; [done|]. cbn [picks forallb map]. unfold pick. destruct (0 <=? id); cbn [andb]; [|done].
  rewrite IH. by destruct (forallb _ l).
Qed.
Lemma picks_indices l : picks None 0 l = indices l.
Proof.
  unfold indices. destruct l as [|id l]; [done|]. cbn [picks forallb length seq map]. unfold pick. rewrite Z.ltb_antisym. destruct (0 <=? id); cbn [negb andb].
  - rewrite picks_manual. by destruct (forallb _ l).
  - rewrite picks_automatic. by destruct (forallb _ l).
Qed.
Lemma field_stmt_fits kinds kind ai spec st : kinds !! ai = Some kind -> format_field_stmt kind ai spec = inr st -> field_fits kinds ai spec /\ st = Call ai spec.
Proof.
  unfold format_field_stmt. intros Hk. destruct (__madc_fmt_parse_spec spec) as [e|s] eqn:Ep; [done|]. cbn [ebind]. destruct (field_check kind s) as [e|[]] eqn:Ec; [done|].
  cbn [ebind]. intros [= <-]. split; [by exists kind, s|done].
Qed.
Lemma fits_field_stmt kinds ai spec : field_fits kinds ai spec -> exists kind, kinds !! ai = Some kind /\ format_field_stmt kind ai spec = inr (Call ai spec).
Proof. intros (kind & s & Hk & Hp & Hc). exists kind. split; [done|]. unfold format_field_stmt. rewrite Hp. cbn [ebind]. by rewrite Hc. Qed.
Lemma then_stmts_ok l x m : then_stmts l x = Some (inr m) <-> exists m', x = Some (inr m') /\ m = l ++ m'.
Proof. destruct x as [[e|m']|]; cbn [then_stmts]; split; [done|by intros (? & [=] & _)|intros [= <-]; by exists m'|by intros (m1 & [= ->] & ->)|done|by intros (? & [=] & _)]. Qed.
(** What the walk makes: the items' text, and their fields with the arguments picked. *)
Lemma walk_made fuel kinds au nx f l : walk fuel kinds au nx f = Some (inr l) ->
  exists its ais, fmt_items fuel f = Some (inr its) /\ picks au nx (ids its) = Some ais /\ Forall2 (field_fits kinds) ais (specs its) /\ l = place its ais.
Proof.
  revert au nx f l. induction fuel as [|k IH]; intros au nx f l; [destruct f; [|done]; intros [= <-]; by exists [], []|].
  destruct f as [|c f]; [intros [= <-]; by exists [], []|]. cbn [walk fmt_items]. destruct (__madc_fmt_next (c :: f)) as [e|[[t|id spec] r]]; [done| |].
  - intros (m & Hm & ->)%then_stmts_ok. destruct (IH _ _ _ _ Hm) as (its & ais & Hi & Hp & Hf & ->). exists (Text t :: its), ais. by rewrite Hi.
  - destruct (pick au nx id) as [[[au' nx'] ai]|] eqn:Ep; [|done]. destruct (kinds !! ai) as [kind|] eqn:Ek; [|done].
    destruct (format_field_stmt kind ai spec) as [e|st] eqn:Es; [done|]. intros (m & Hm & ->)%then_stmts_ok. destruct (field_stmt_fits _ _ _ _ _ Ek Es) as [Hfit ->].
    destruct (IH _ _ _ _ Hm) as (its & ais & Hi & Hp & Hf & ->). exists (Field id spec :: its), (ai :: ais). rewrite Hi. split; [done|].
    split; [change (picks au nx (id :: ids its) = Some (ai :: ais)); cbn [picks]; by rewrite Ep, Hp|]. split; [by constructor|done].
Qed.
Lemma walk_makes fuel kinds au nx f its ais : fmt_items fuel f = Some (inr its) -> picks au nx (ids its) = Some ais -> Forall2 (field_fits kinds) ais (specs its) ->
  walk fuel kinds au nx f = Some (inr (place its ais)).
Proof.
  revert au nx f its ais. induction fuel as [|k IH]; intros au nx f its ais; [destruct f; [|done]; by intros [= <-]|].
  destruct f as [|c f]; [by intros [= <-]|]. cbn [walk fmt_items]. destruct (__madc_fmt_next (c :: f)) as [e|[it r]]; [done|].
  destruct (fmt_items k r) as [[e|its']|] eqn:Ei; [done| |done]. intros [= <-]. destruct it as [t|id spec]; cbn [ids specs flat_map app].
  - intros Hp Hf. apply then_stmts_ok. exists (place its' ais). split; [by apply IH|done].
  - cbn [picks]. destruct (pick au nx id) as [[[au' nx'] ai]|]; [|done]. destruct (picks au' nx' _) as [ais'|] eqn:Ep; [|done]. intros [= <-] Hf.
    apply Forall2_cons in Hf as [Hfit Hf]. destruct (fits_field_stmt _ _ _ Hfit) as (kind & -> & ->). apply then_stmts_ok. exists (place its' ais'). split; [by apply IH|done].
Qed.
Lemma walk_ends fuel kinds au nx f : (length f <= fuel)%nat -> exists x, walk fuel kinds au nx f = Some x.
Proof.
  revert au nx f. induction fuel as [|k IH]; intros au nx f Hl; [destruct f; [by eexists|cbn in Hl; lia]|]. destruct f as [|c f]; [by eexists|]. cbn [walk].
  destruct (__madc_fmt_next (c :: f)) as [e|[it r]] eqn:E; [by eexists|]. apply next_shorter in E. cbn [length] in *.
  assert (Hr : forall au nx, exists x, walk k kinds au nx r = Some x) by (intros; apply IH; lia).
  assert (Ht : forall s au nx, exists x, then_stmts s (walk k kinds au nx r) = Some x) by (intros s au' nx'; destruct (Hr au' nx') as [[e|m] ->]; by eexists).
  destruct it as [t|id spec]; [apply Ht|]. destruct (pick au nx id) as [[[au' nx'] ai]|]; [|by eexists]. destruct (kinds !! ai); [|by eexists].
  destruct (format_field_stmt _ _ _); [by eexists|apply Ht].
Qed.

(** C34: the lowering of a formatting call always ends, and it accepts exactly the
    calls whose format string reads to its end, whose fields are all numbered or all
    in order, and each of which names an argument its spec fits; the statements are
    the string's text and fields in their order, println's newline behind them. *)
Theorem call_accepted fl kinds f :
  (exists r, lower_format_call fl kinds f = Some r) /\
  forall l, lower_format_call fl kinds f = Some (inr l) <->
    exists its ais, fmt_items (length f) f = Some (inr its) /\ indices (ids its) = Some ais /\ Forall2 (field_fits kinds) ais (specs its) /\
      l = place its ais ++ match fl with ffPrintln => [Put [c_nl]] | _ => [] end.
Proof.
  unfold lower_format_call. destruct (walk_ends (length f) kinds None 0 f (Nat.le_refl _)) as [x Hx]. rewrite Hx. split; [destruct x; by eexists|].
  intros l. split.
  - destruct x as [why|m]; [done|]. intros [= <-]. apply walk_made in Hx as (its & ais & Hi & Hp & Hf & ->). rewrite picks_indices in Hp. by exists its, ais.
  - intros (its & ais & Hi & Hp & Hf & ->). rewrite <- picks_indices in Hp. rewrite (walk_makes _ _ _ _ _ _ _ Hi Hp Hf) in Hx. by injection Hx as <-.
Qed.
Lemma call_accepted_witness :
  lower_format_call ffPrintln [fkI64; fkStdString] (B "a{1:>4}{{{0:x}") = Some (inr ([Put (B "a"); Call 1 (B ">4"); Put (B "{"); Call 0 (B "x")] ++ [Put [c_nl]])).
Proof.
  apply (proj2 (call_accepted ffPrintln [fkI64; fkStdString] (B "a{1:>4}{{{0:x}"))).
  exists [Text (B "a"); Field 1 (B ">4"); Text (B "{"); Field 0 (B "x")], [1%nat; 0%nat]. split; [reflexivity|]. split; [reflexivity|]. split; [|reflexivity].
  apply Forall2_cons; split; [exists fkStdString; eexists; split; [reflexivity|]; split; reflexivity|].
  apply Forall2_cons; split; [exists fkI64; eexists; split; [reflexivity|]; split; reflexivity|apply Forall2_nil; exact I].
Defined.

(** ** What compiled, writes *)

(** The numbers of the arguments' C types. *)
Definition argument_ok (a : argument) : Prop := match a with AI64 v => - 2 ^ 63 <= v < 2 ^ 63 | AU64 v => 0 <= v < 2 ^ 64 | _ => True end.
Definition no_char : bytes := B "integer not representable as character".
(** A field of [a] under [spec] writes; but for a number no character has. *)
Definition field_writes `{!Libc} (a : argument) (spec : bytes) : Prop :=
  (exists t, run_field a spec = inr t) \/
  (run_field a spec = inl no_char /\ (exists s, __madc_fmt_parse_spec spec = inr s /\ type s = "c"%char) /\ match a with AI64 v | AU64 v => ~ -128 <= v <= 127 | _ => False end) \/
  (run_field a spec = inl (B "out of memory") /\ exists v s, a = AF64 v /\ __madc_fmt_parse_spec spec = inr s /\
     352 < len (printed s v) + 1 /\ malloc_gives (len (printed s v) + 1) = false).

Lemma one_of_in s c : one_of s c = true -> In c (list_ascii_of_string s).
Proof. unfold one_of. rewrite existsb_exists. intros (x & Hx & ->%byte_eqb_eq). done. Qed.
Lemma allowed_in t s : format_type_allowed t s = true -> In t (c0 :: list_ascii_of_string s).
Proof. unfold format_type_allowed. intros [->%byte_eqb_eq|H%one_of_in]%orb_prop; [by left|by right]. Qed.
(** One presentation of a list after the other. *)
Ltac each_type H tac := repeat (destruct H as [H|H]; [rewrite <- ?H in *; tac|]); destruct H.
(** The integer writer, under the presentations of integers. *)
Lemma int_writes s mag neg : In (type s) (c0 :: list_ascii_of_string "bBcdoxX") ->
  (exists t, fmt_int_core s mag neg = inr t) \/ fmt_int_core s mag neg = inl no_char /\ type s = "c"%char /\ if neg then 128 < mag else 127 < mag.
Proof.
  unfold fmt_int_core. intros H. each_type H ltac:(first [left; eexists; reflexivity|cbn; destruct neg; case Z.ltb_spec; intros; [by right|left; by eexists|by right|left; by eexists]]).
Qed.
Lemma int_always_writes s mag neg : In (type s) (c0 :: list_ascii_of_string "bBdoxX") -> exists t, fmt_int_core s mag neg = inr t.
Proof. unfold fmt_int_core. intros H. each_type H ltac:(by eexists). Qed.
Lemma signed_writes s v : - 2 ^ 63 <= v < 2 ^ 63 -> In (type s) (c0 :: list_ascii_of_string "bBcdoxX") ->
  (exists t, signed_core s v = inr t) \/ signed_core s v = inl no_char /\ type s = "c"%char /\ ~ -128 <= v <= 127.
Proof.
  intros Hv H. unfold signed_core. destruct (Z.ltb_spec v 0) as [Hn|Hn]; destruct (int_writes s (if v <? 0 then u64 (u64 (- (v + 1)) + 1) else v) (v <? 0) H) as [Hw|(Hw & Ht & Hr)].
  all: (rewrite (proj2 (Z.ltb_lt v 0) Hn) in * || rewrite (proj2 (Z.ltb_ge v 0) Hn) in *).
  all: try (by left).
  all: right; split; [done|]; split; [done|]; try lia.
  unfold u64 in Hr. rewrite !Z.mod_small in Hr by (rewrite ?Z.mod_small by lia; lia). lia.
Qed.
(** What the check lets through, by the kind. *)
Lemma checked_type kind s : field_check kind s = inr tt ->
  In (type s) (c0 :: list_ascii_of_string match kind with fkI64 | fkU64 => "bBcdoxX" | fkF64 => "fFeEgGaA" | fkCstr | fkStdString => "s" | fkChar => "cbBdoxX" | fkBool => "sbBdoxX" | fkPtr => "p" | fkValue => "sbBcdoxXfFeEgGaA" end).
Proof.
  intros H. apply allowed_in. destruct kind; cbn [field_check] in H; by destruct (format_type_allowed (type s) _).
Qed.
Lemma string_writes spec s str : __madc_fmt_parse_spec spec = inr s -> In (type s) [c0; "s"%char] -> exists t, __madc_fmt_str_n spec str = inr t.
Proof. intros Hp H. unfold __madc_fmt_str_n. rewrite Hp. cbn [ebind]. each_type H ltac:(by eexists). Qed.
Lemma float_writes `{!Libc} spec s v : __madc_fmt_parse_spec spec = inr s -> In (type s) (c0 :: list_ascii_of_string "fFeEgGaA") ->
  (exists t, __madc_fmt_f64 spec v = inr t) \/
  __madc_fmt_f64 spec v = inl (B "out of memory") /\ 352 < len (printed s v) + 1 /\ malloc_gives (len (printed s v) + 1) = false.
Proof.
  intros Hp Hin. unfold __madc_fmt_f64. rewrite Hp. cbn [ebind]. replace (negb (byte_eqb (type s) c0) && negb (one_of "fFeEgGaA" (type s))) with false by (symmetry; each_type Hin ltac:(done)).
  cbn [andb]. destruct (special v); [left; by eexists|]. destruct (_ && _); [left; by eexists|]. destruct (_ && _); [left; by eexists|].
  unfold fits_memory. destruct (Z.leb_spec (len (printed s v) + 1) 352) as [Hl|Hl]; [left; by eexists|].
  destruct (malloc_gives _) eqn:Em; [left; by eexists|]. right. done.
Qed.
Lemma checked_writes `{!Libc} a spec s : argument_ok a -> __madc_fmt_parse_spec spec = inr s -> field_check (kind_of a) s = inr tt -> kind_of a <> fkValue -> field_writes a spec.
Proof.
  intros Ha Hp Hc Hv. apply checked_type in Hc. unfold field_writes. destruct a; cbn [kind_of run_field argument_ok] in *.
  - unfold __madc_fmt_i64. rewrite Hp. cbn [ebind]. destruct (signed_writes s v Ha Hc) as [?|(-> & Ht & Hr)]; [by left|right; left]. split_and!; [done|by exists s|done].
  - unfold __madc_fmt_u64. rewrite Hp. cbn [ebind]. destruct (int_writes s v false Hc) as [?|(-> & Ht & Hr)]; [by left|right; left]. split_and!; [done|by exists s|lia].
  - destruct (float_writes spec s v Hp Hc) as [?|(Hw & Hl & Hm)]; [by left|right; right]. split; [done|]. by exists v, s.
  - left. by eapply string_writes.
  - left. by eapply string_writes.
  - left. unfold __madc_fmt_char. rewrite Hp. cbn [ebind]. destruct (_ || _) eqn:E; [by eexists|]. assert (Hin : In (type s) (c0 :: list_ascii_of_string "bBdoxX")).
    { destruct Hc as [Hc|[Hc|Hc]]; [by left|rewrite <- Hc in E; by rewrite orb_true_r in E|by right]. }
    destruct (c <? 0); by apply int_always_writes.
  - left. unfold __madc_fmt_bool. rewrite Hp. cbn [ebind]. destruct (_ || _) eqn:E; [by eexists|]. apply int_always_writes.
    destruct Hc as [Hc|[Hc|Hc]]; [by left|rewrite <- Hc in E; by rewrite orb_true_r in E|by right].
  - done.
  - left. unfold __madc_fmt_ptr. rewrite Hp. cbn [ebind]. each_type Hc ltac:(by eexists).
Qed.
Lemma place_each (P : nat -> bytes -> Prop) its ais : Forall2 P ais (specs its) -> Forall (fun st => match st with Put _ => True | Call ai spec => P ai spec end) (place its ais).
Proof.
  revert ais. induction its as [|[t|id spec] its IH]; intros ais H'; cbn [place].
  - constructor.
  - apply Forall_app. split; [|by apply IH]. unfold text_stmts. destruct (is_nil t); [constructor|by constructor].
  - apply Forall2_cons_inv_r in H' as (ai & ais' & Hai & Hr & ->). constructor; [done|by apply IH].
Qed.

(** C35: every field of a call that compiled names an argument of the call, and its
    writer does not fail, but for a dynamic value's, for an integer under [c] that no
    character has, and for a double whose text does not fit the 352 bytes on the
    stack when [malloc] gives no block for it. *)
Theorem call_writes `{!Libc} fl args f l : Forall argument_ok args -> lower_format_call fl (map kind_of args) f = Some (inr l) ->
  Forall (fun st => match st with
    | Put _ => True
    | Call ai spec => exists a, args !! ai = Some a /\ ((exists v, a = AValue v) \/ field_writes a spec) end) l.
Proof.
  intros Hok. unfold lower_format_call. destruct (walk _ _ _ _ f) as [[why|m]|] eqn:E; [done| |done]. intros [= <-].
  apply walk_made in E as (its & ais & _ & _ & Hfit & ->). apply Forall_app. split; [|by destruct fl; repeat constructor].
  eapply Forall_impl; [exact (place_each _ its ais Hfit)|]. intros [t|ai spec]; [done|]. intros (kind & s & Hk & Hp & Hc).
  rewrite list_lookup_fmap in Hk. destruct (args !! ai) as [a|] eqn:Ea; [|done]. injection Hk as <-. exists a. split; [done|].
  assert (Ha : argument_ok a) by (by eapply Forall_lookup_1). destruct (kind_of a) eqn:Ek; try (right; eapply checked_writes; [done|done|by rewrite Ek|by rewrite Ek]).
  left. destruct a; try done. by eexists.
Qed.
Lemma call_writes_witness : let L := some_libc in let args := [AI64 200; AF64 some_double] in
  Forall (fun st => match st with
    | Put _ => True
    | Call ai spec => exists a, args !! ai = Some a /\ ((exists v, a = AValue v) \/ field_writes a spec) end) [Call 0 (B "c"); Put (B ", "); Call 1 (B ".3")].
Proof.
  apply (@call_writes some_libc ffPrint [AI64 200; AF64 some_double] (B "{:c}, {:.3}")); [|vm_compute; reflexivity].
  apply Forall_cons. split; [cbn; lia|apply Forall_cons; split; [exact I|apply Forall_nil; exact I]].
Defined.

(** ** One engine for both *)

Lemma python_walk `{!Libc} fuel vs au nx f l : walk fuel (map (fun _ => fkValue) vs) au nx f = Some (inr l) ->
  python_format_engine fuel (Some vs) au nx f = Some (run (map AValue vs) l).
Proof.
  revert au nx f l. induction fuel as [|k IH]; intros au nx f l; [destruct f; [|done]; by intros [= <-]|].
  destruct f as [|c f]; [by intros [= <-]|]. cbn [walk python_format_engine]. destruct (__madc_fmt_next (c :: f)) as [e|[[t|id spec] r]]; [done| |].
  - intros (m & Hm & ->)%then_stmts_ok. rewrite (IH _ _ _ _ Hm). unfold run. rewrite flat_map_app. cbn [option_map]. do 2 f_equal.
    unfold text_stmts. destruct t; [done|]. cbn. by rewrite app_nil_r.
  - destruct (pick au nx id) as [[[au' nx'] ai]|]; [|done]. destruct (map _ vs !! ai) as [kind|] eqn:Ek; [|done].
    destruct (format_field_stmt kind ai spec) as [e|st] eqn:Es; [done|]. intros (m & Hm & ->)%then_stmts_ok. rewrite (IH _ _ _ _ Hm). cbn [option_map]. f_equal.
    apply (field_stmt_fits _ _ _ _ _ Ek) in Es as [_ ->]. unfold run. cbn [flat_map run_stmt app]. f_equal.
    assert (Hlk : forall B (g : value -> B), map g vs !! ai = g <$> (vs !! ai)) by (intros; apply list_lookup_fmap). rewrite Hlk in Ek. cbn. rewrite Hlk. by destruct (vs !! ai); simpl in *.
Qed.
(** where a format string compiles for arguments that are all dynamic values,
    [python::format] of the same string and values gives exactly the bytes the
    compiled call writes. *)
Theorem python_as_compiled `{!Libc} vs f l : lower_format_call ffFormat (map (fun _ => fkValue) vs) f = Some (inr l) ->
  python_format f (Some vs) = Some (run (map AValue vs) l).
Proof.
  unfold lower_format_call, python_format. destruct (walk _ _ _ _ f) as [[why|m]|] eqn:E; [done| |done]. intros [= <-]. rewrite app_nil_r. by apply python_walk.
Qed.
Lemma python_as_compiled_witness : python_format (H := some_libc) (B "{1:>3}{{{0}") (Some [VInteger 7; VString (B "x")]) = Some (run (H := some_libc) [AValue (VInteger 7); AValue (VString (B "x"))] [Call 1 (B ">3"); Put (B "{"); Call 0 []]).
Proof. refine (@python_as_compiled some_libc [VInteger 7; VString (B "x")] (B "{1:>3}{{{0}") _ _). vm_compute. reflexivity. Defined.
