(* ===== verification/Tasks.v ===== *)
(** The cooperative scheduler of [src/src/rt/rt_task.c]: the task, the FIFO
    ready queue, the timer list and its time source, and the one scheduling
    decision [task_next_or_wait].

    A pointer to a [madc_task] is a [tid] ([main_task] is [&g_main_task]) and
    a pointer to a [madc_scope] an [sid]; the heap is the two maps of [rt],
    whose other fields are the file's static variables.  The linked lists
    ([qnext], [tnext]) are lists.  The operating system's clock and sleep are
    the class [Os], the hook of the io layer the class [IoLayer]: neither is
    code of this file. *)
From stdpp Require Import gmap sorting.
From S2P Require Import Prelude.
#[local] Open Scope Z_scope.

Abbreviation tid := nat (only parsing).
Abbreviation sid := nat (only parsing).

(** [struct madc_task]: the stack, the saved registers and the exception state
    of the context are not modelled; a parked task's place in its code is the
    frame [Machine] keeps. *)
Record madc_task := Task {
  deadline : Z;
  queued : bool;
  cancel_req : bool;
  t_scope : option sid;
  cur : option sid;
  scope_err : bytes;
}.

(** [struct madc_scope]; [members] and [children] are the linked lists, newest
    first. *)
Record madc_scope := Scope {
  parent : option sid;
  opener : tid;
  members : list tid;
  children : list sid;
  live : Z;
  s_cancel_req : bool;
  joining : bool;
  err : option bytes;
}.

(** The time source: the virtual clock, or the operating system's, of which
    the model keeps the time of the last use and the number of uses. *)
Inductive time_source :=
| Virtual (g_vclock_ms : Z)
| Real (uses : nat) (now : Z).

Record rt := Rt {
  tasks : gmap tid madc_task;
  scopes : gmap sid madc_scope;
  g_current : option tid;
  g_ready : list tid;
  g_timers : list tid;
  g_live : Z;
  g_reap : option tid;
  g_main_waiting : bool;
  clock : time_source;
  g_switch_count : Z;
  next_tid : tid;
  next_sid : sid;
}.

Definition main_task : tid := 0%nat.

(** Assignments to one field. *)
Definition with_tasks m w := Rt m (scopes w) (g_current w) (g_ready w) (g_timers w) (g_live w) (g_reap w)
  (g_main_waiting w) (clock w) (g_switch_count w) (next_tid w) (next_sid w).
Definition with_scopes m w := Rt (tasks w) m (g_current w) (g_ready w) (g_timers w) (g_live w) (g_reap w)
  (g_main_waiting w) (clock w) (g_switch_count w) (next_tid w) (next_sid w).
Definition with_current c w := Rt (tasks w) (scopes w) c (g_ready w) (g_timers w) (g_live w) (g_reap w)
  (g_main_waiting w) (clock w) (g_switch_count w) (next_tid w) (next_sid w).
Definition with_ready l w := Rt (tasks w) (scopes w) (g_current w) l (g_timers w) (g_live w) (g_reap w)
  (g_main_waiting w) (clock w) (g_switch_count w) (next_tid w) (next_sid w).
Definition with_timers l w := Rt (tasks w) (scopes w) (g_current w) (g_ready w) l (g_live w) (g_reap w)
  (g_main_waiting w) (clock w) (g_switch_count w) (next_tid w) (next_sid w).
Definition with_live n w := Rt (tasks w) (scopes w) (g_current w) (g_ready w) (g_timers w) n (g_reap w)
  (g_main_waiting w) (clock w) (g_switch_count w) (next_tid w) (next_sid w).
Definition with_reap r w := Rt (tasks w) (scopes w) (g_current w) (g_ready w) (g_timers w) (g_live w) r
  (g_main_waiting w) (clock w) (g_switch_count w) (next_tid w) (next_sid w).
Definition with_main_waiting b w := Rt (tasks w) (scopes w) (g_current w) (g_ready w) (g_timers w) (g_live w)
  (g_reap w) b (clock w) (g_switch_count w) (next_tid w) (next_sid w).
Definition with_clock c w := Rt (tasks w) (scopes w) (g_current w) (g_ready w) (g_timers w) (g_live w)
  (g_reap w) (g_main_waiting w) c (g_switch_count w) (next_tid w) (next_sid w).
Definition with_switch_count n w := Rt (tasks w) (scopes w) (g_current w) (g_ready w) (g_timers w) (g_live w)
  (g_reap w) (g_main_waiting w) (clock w) n (next_tid w) (next_sid w).
Definition with_next_tid n w := Rt (tasks w) (scopes w) (g_current w) (g_ready w) (g_timers w) (g_live w)
  (g_reap w) (g_main_waiting w) (clock w) (g_switch_count w) n (next_sid w).
Definition with_next_sid n w := Rt (tasks w) (scopes w) (g_current w) (g_ready w) (g_timers w) (g_live w)
  (g_reap w) (g_main_waiting w) (clock w) (g_switch_count w) (next_tid w) n.

Definition set_deadline d x := Task d (queued x) (cancel_req x) (t_scope x) (cur x) (scope_err x).
Definition set_queued b x := Task (deadline x) b (cancel_req x) (t_scope x) (cur x) (scope_err x).
Definition set_cancel_req b x := Task (deadline x) (queued x) b (t_scope x) (cur x) (scope_err x).
Definition set_t_scope s x := Task (deadline x) (queued x) (cancel_req x) s (cur x) (scope_err x).
Definition set_cur s x := Task (deadline x) (queued x) (cancel_req x) (t_scope x) s (scope_err x).
Definition set_scope_err e x := Task (deadline x) (queued x) (cancel_req x) (t_scope x) (cur x) e.

(** [t->f = ...]. *)
Definition upd_task (f : madc_task -> madc_task) (t : tid) (w : rt) : rt :=
  with_tasks (alter f t (tasks w)) w.

(** ** The ready queue *)

Definition task_enqueue (t : tid) (w : rt) : rt :=
  match tasks w !! t with
  | Some x => if queued x then w
              else with_ready (g_ready w ++ [t]) (upd_task (set_queued true) t w)
  | None => w
  end.

Definition task_dequeue (w : rt) : option tid * rt :=
  match g_ready w with
  | t :: r => (Some t, upd_task (set_queued false) t (with_ready r w))
  | [] => (None, w)
  end.

(** [__madc_task_runnable]. *)
Definition task_runnable (w : rt) : Z := Z.of_nat (length (g_ready w)).

(** ** The time source *)

(** What the operating system does: the milliseconds that have passed at its
    [n]-th use since the one before, and how long a sleep of [ms] takes. *)
Class Os := {
  os_tick : nat -> Z;
  os_sleep : nat -> Z -> Z;
}.

Definition vtime_on (w : rt) : bool := match clock w with Virtual _ => true | Real _ _ => false end.

(** The time the source stands at. *)
Definition time_of (c : time_source) : Z := match c with Virtual t => t | Real _ t => t end.

Definition time_now_ms `{Os} (w : rt) : Z * rt :=
  match clock w with
  | Virtual t => (t, w)
  | Real n t => let t := t + os_tick n in (t, with_clock (Real (S n) t) w)
  end.

Definition time_real_sleep_ms `{Os} (ms : Z) (w : rt) : rt :=
  if ms <=? 0 then w
  else match clock w with
       | Virtual _ => w
       | Real n t => with_clock (Real (S n) (t + os_sleep n ms)) w
       end.

(** ** The timer list *)

Definition deadline_of (w : rt) (t : tid) : Z :=
  match tasks w !! t with Some x => deadline x | None => 0 end.

Fixpoint timer_place (dl : tid -> Z) (t : tid) (l : list tid) : list tid :=
  match l with
  | u :: r => if dl u <=? dl t then u :: timer_place dl t r else t :: l
  | [] => [t]
  end.

Definition timer_insert (t : tid) (w : rt) : rt :=
  with_timers (timer_place (deadline_of w) t (g_timers w)) w.

Fixpoint fire_loop (now : Z) (l : list tid) (w : rt) : rt :=
  match l with
  | t :: r => if deadline_of w t <=? now then fire_loop now r (task_enqueue t (with_timers r w)) else w
  | [] => w
  end.

Definition timer_fire_due `{Os} (w : rt) : rt :=
  match g_timers w with
  | [] => w
  | l => let '(now, w) := time_now_ms w in fire_loop now l w
  end.

(** Unlinking one element of a linked list. *)
Fixpoint unlink `{EqDecision A} (t : A) (l : list A) : list A :=
  match l with
  | u :: r => if decide (u = t) then r else u :: unlink t r
  | [] => []
  end.

Definition timer_unlink (t : tid) (w : rt) : rt := with_timers (unlink t (g_timers w)) w.

(** ** The scheduling decision *)

(** [__madc_task_io_wait_hook]: NULL until an io layer installs it.  It is
    given the timeout and may enqueue tasks; its result is [fired]. *)
Class IoLayer := io_wait_hook : option (Z -> rt -> Z * rt).

Section Decision.
Context `{Os, IoLayer}.

Definition io_timeout (w : rt) : Z * rt :=
  match g_timers w with
  | [] => (-1, w)
  | h :: _ =>
      if vtime_on w then (0, w)
      else let '(now, w) := time_now_ms w in
           let tmo := deadline_of w h - now in
           (if tmo <? 0 then 0 else tmo, w)
  end.

Definition next_or_wait_body (w : rt) : rt + (option tid * rt) :=
  let w := timer_fire_due w in
  match task_dequeue w with
  | (Some next, w) => inr (Some next, w)
  | (None, w) =>
      let '(tmo, w) := io_timeout w in
      let '(fired, w) := match io_wait_hook with Some io => io tmo w | None => (-1, w) end in
      if 0 <? fired then inl w
      else match g_timers w with
           | [] => if fired =? 0 then inl w else inr (None, w)
           | h :: _ =>
               if vtime_on w then inl (with_clock (Virtual (deadline_of w h)) w)
               else if fired <? 0 then inl (time_real_sleep_ms tmo w)
               else inl w
           end
  end.

(** [NULL] is [None]; the outer [None] is out of fuel. *)
Definition task_next_or_wait (fuel : nat) (w : rt) : option (option tid * rt) :=
  loop fuel next_or_wait_body w.

(** [__madc_task_fire_due]. *)
Definition task_fire_due (w : rt) : rt :=
  let w := timer_fire_due w in
  match io_wait_hook with Some io => (io 0 w).2 | None => w end.
End Decision.

(** * The scheduler's invariant *)

(** What the task map holds besides the [queued] marks, which follow the ready
    queue. *)
Definition core (w : rt) : gmap tid madc_task := set_queued false <$> tasks w.

(** The two lists never share a task, hold only allocated tasks, the marks say
    exactly who is on the ready queue, and the timer list is by deadline. *)
Record sched_ok (w : rt) : Prop := {
  ok_nodup : NoDup (g_ready w ++ g_timers w);
  ok_alloc : forall t, t ∈ g_ready w ++ g_timers w -> is_Some (core w !! t);
  ok_queued : forall t x, tasks w !! t = Some x -> queued x = bool_decide (t ∈ g_ready w);
  ok_sorted : StronglySorted Z.le (deadline_of w <$> g_timers w);
}.

(** [moved w w']: the scheduler went from [w] to [w'] touching only its lists,
    its marks and the clock, which it never turned back. *)
Definition moved (w w' : rt) : Prop :=
  exists m r l c, w' = with_tasks m (with_ready r (with_timers l (with_clock c w)))
    /\ set_queued false <$> m = core w
    /\ time_of (clock w) <= time_of c
    /\ (vtime_on (with_clock c w) = vtime_on w).

Lemma core_lookup w t : core w !! t = set_queued false <$> tasks w !! t.
Proof. apply lookup_fmap. Qed.

Lemma deadline_core w w' t : core w = core w' -> deadline_of w t = deadline_of w' t.
Proof.
  intros H. pose proof (f_equal (fun m => m !! t) H) as Ht. simpl in Ht. rewrite !core_lookup in Ht.
  unfold deadline_of. destruct (tasks w !! t), (tasks w' !! t); simpl in Ht; try done. by injection Ht.
Qed.

Lemma deadlines_core w w' (l : list tid) : core w = core w' -> deadline_of w <$> l = deadline_of w' <$> l.
Proof. intros H. apply list_fmap_ext. intros. by apply deadline_core. Qed.

Lemma upd_queued_core b t w : core (upd_task (set_queued b) t w) = core w.
Proof.
  apply map_eq. intros u. rewrite !core_lookup. simpl.
  destruct (decide (u = t)) as [->|Hne].
  - rewrite lookup_alter_eq. by destruct (tasks w !! t) as [[]|].
  - by rewrite lookup_alter_ne.
Qed.

Lemma moved_core w w' : moved w w' -> core w' = core w.
Proof. by intros (m & r & l & c & -> & Hm & _). Qed.

#[export] Instance moved_preorder : PreOrder moved.
Proof.
  split.
  - intros w. exists (tasks w), (g_ready w), (g_timers w), (clock w). by destruct w.
  - intros w1 w2 w3 (m & r & l & c & -> & Hm & Hc & Hv) (m' & r' & l' & c' & -> & Hm' & Hc' & Hv').
    exists m', r', l', c'. split_and!; [done| |simpl in *; lia|].
    + rewrite Hm'. exact Hm.
    + exact (eq_trans Hv' Hv).
Qed.

Lemma task_enqueue_moved t w : moved w (task_enqueue t w).
Proof.
  unfold task_enqueue. destruct (tasks w !! t) as [x|] eqn:E; [|reflexivity].
  destruct (queued x); [reflexivity|].
  exists (alter (set_queued true) t (tasks w)), (g_ready w ++ [t]), (g_timers w), (clock w).
  split_and!; [by destruct w|apply (upd_queued_core true t w)|lia|done].
Qed.

Section Queues.
Context (w : rt) (Hok : sched_ok w).

Lemma alloc_tasks t : is_Some (core w !! t) -> is_Some (tasks w !! t).
Proof. by rewrite core_lookup, fmap_is_Some. Qed.

Lemma task_enqueue_ready t :
  is_Some (core w !! t) ->
  g_ready (task_enqueue t w) = if decide (t ∈ g_ready w) then g_ready w else g_ready w ++ [t].
Proof.
  intros [x Hx]%alloc_tasks. unfold task_enqueue. rewrite Hx, (ok_queued _ Hok _ _ Hx).
  by do 2 case_decide.
Qed.

Lemma task_enqueue_timers t : g_timers (task_enqueue t w) = g_timers w.
Proof. unfold task_enqueue. destruct (tasks w !! t) as [x|]; [by destruct (queued x)|done]. Qed.

Lemma task_enqueue_ok t :
  is_Some (core w !! t) -> t ∉ g_timers w -> sched_ok (task_enqueue t w).
Proof.
  intros Ha Hnt. pose proof (moved_core _ _ (task_enqueue_moved t w)) as Hcore.
  pose proof (alloc_tasks t Ha) as [x Hx]. pose proof (ok_nodup _ Hok) as Hnd.
  destruct (decide (t ∈ g_ready w)) as [Hin|Hin].
  { replace (task_enqueue t w) with w; [done|]. unfold task_enqueue.
    by rewrite Hx, (ok_queued _ Hok _ _ Hx), bool_decide_eq_true_2. }
  constructor.
  - rewrite task_enqueue_ready, task_enqueue_timers, decide_False by done.
    apply NoDup_app in Hnd as (H1 & H2 & H3). rewrite <- app_assoc. apply NoDup_app. split_and!; [done| |].
    + intros u Hu [->%list_elem_of_singleton|Hv]%elem_of_app; [done|by eapply H2].
    + simpl. by apply NoDup_cons.
  - intros u. rewrite task_enqueue_ready, task_enqueue_timers, decide_False, Hcore by done.
    rewrite <- app_assoc, elem_of_app. simpl. rewrite elem_of_cons.
    intros [H|[->|H]]; [| done|]; apply (ok_alloc _ Hok), elem_of_app; auto.
  - intros u y. rewrite task_enqueue_ready, decide_False by done. unfold task_enqueue.
    rewrite Hx, (ok_queued _ Hok _ _ Hx), bool_decide_eq_false_2 by done. simpl.
    destruct (decide (u = t)) as [->|Hne].
    + rewrite lookup_alter_eq, Hx. simpl. intros [= <-]. simpl. symmetry. apply bool_decide_eq_true_2. set_solver.
    + rewrite lookup_alter_ne by done. intros Hy. rewrite (ok_queued _ Hok _ _ Hy).
      apply bool_decide_ext. set_solver.
  - rewrite task_enqueue_timers.
    rewrite (deadlines_core _ w) by done. apply (ok_sorted _ Hok).
Qed.
End Queues.

(** [task_dequeue] takes the head. *)
Lemma task_dequeue_spec w t r :
  g_ready w = t :: r ->
  task_dequeue w = (Some t, upd_task (set_queued false) t (with_ready r w)).
Proof. intros H. unfold task_dequeue. by rewrite H. Qed.

Lemma upd_with_ready_moved b t r w : moved w (upd_task (set_queued b) t (with_ready r w)).
Proof.
  exists (alter (set_queued b) t (tasks w)), r, (g_timers w), (clock w).
  split_and!; [by destruct w|apply (upd_queued_core b t w)|lia|done].
Qed.

Lemma task_dequeue_ok w t r :
  sched_ok w -> g_ready w = t :: r -> sched_ok (upd_task (set_queued false) t (with_ready r w)).
Proof.
  intros [Hnd Ha Hq Hs] Hr. rewrite Hr in *. simpl in Hnd. apply NoDup_cons in Hnd as [Hnt Hnd].
  assert (Hcore : core (upd_task (set_queued false) t (with_ready r w)) = core w)
    by apply moved_core, upd_with_ready_moved.
  constructor; simpl.
  - done.
  - intros u Hu. rewrite Hcore. apply Ha. simpl. apply elem_of_cons. by right.
  - intros u y Hy. destruct (decide (u = t)) as [->|Hne].
    + rewrite lookup_alter_eq in Hy. destruct (tasks w !! t); [|done]. injection Hy as <-. simpl.
      symmetry. apply bool_decide_eq_false_2. set_solver.
    + rewrite lookup_alter_ne in Hy by done. rewrite (Hq _ _ Hy). apply bool_decide_ext. set_solver.
  - by rewrite (deadlines_core _ w).
Qed.

Lemma with_timers_ok w t l :
  sched_ok w -> g_timers w = t :: l -> sched_ok (with_timers l w) /\ (t ∉ l) /\ (t ∉ g_ready w) /\ is_Some (core w !! t).
Proof.
  intros [Hnd Ha Hq Hs] Ht. rewrite Ht in *. apply NoDup_app in Hnd as (H1 & H2 & H3).
  apply NoDup_cons in H3 as [H3 H4]. split_and!.
  - constructor; simpl.
    + apply NoDup_app. split_and!; [done| |done]. set_solver.
    + intros u Hu. apply Ha. set_solver.
    + done.
    + simpl in Hs. by apply StronglySorted_inv in Hs as [? _].
  - done.
  - intros Hin. apply (H2 t Hin). set_solver.
  - apply Ha. set_solver.
Qed.

Lemma with_timers_moved l w : moved w (with_timers l w).
Proof.
  exists (tasks w), (g_ready w), l, (clock w). split_and!; [by destruct w|done|lia|done].
Qed.
Lemma with_clock_moved c w :
  time_of (clock w) <= time_of c -> vtime_on (with_clock c w) = vtime_on w -> moved w (with_clock c w).
Proof.
  intros. exists (tasks w), (g_ready w), (g_timers w), c. split_and!; [by destruct w|done|lia|done].
Qed.

Lemma with_clock_ok c w : sched_ok w -> sched_ok (with_clock c w).
Proof. intros [? ? ? ?]. by constructor. Qed.

(** ** Firing *)

(** [now] fires the prefix of the timer list that is due, in order, onto the
    end of the ready queue. *)
Lemma fire_loop_spec now w :
  sched_ok w -> let w' := fire_loop now (g_timers w) w in
  sched_ok w' /\ moved w w' /\ clock w' = clock w
  /\ exists due, g_timers w = due ++ g_timers w' /\ g_ready w' = g_ready w ++ due
     /\ Forall (fun t => deadline_of w t <= now) due
     /\ Forall (fun t => now < deadline_of w t) (g_timers w').
Proof.
  remember (g_timers w) as l eqn:Hl. revert w Hl. induction l as [|t l IH]; intros w Hl Hok; simpl.
  - split_and!; [done|reflexivity|done|]. exists []. rewrite <- Hl, !app_nil_r. split_and!; [done|done|constructor|constructor].
  - symmetry in Hl. destruct (Z.leb_spec (deadline_of w t) now) as [Hle|Hlt].
    + destruct (with_timers_ok w t l Hok Hl) as (Hok1 & Hnt & Hnr & Ha).
      set (w1 := task_enqueue t (with_timers l w)).
      assert (Hok2 : sched_ok w1) by (apply task_enqueue_ok; [done|done|done]).
      assert (Hm : moved w w1) by (transitivity (with_timers l w); [apply with_timers_moved|apply task_enqueue_moved]).
      assert (Ht1 : g_timers w1 = l) by (unfold w1; rewrite task_enqueue_timers; done).
      assert (Hr1 : g_ready w1 = g_ready w ++ [t]).
      { unfold w1. rewrite task_enqueue_ready by done. simpl. by rewrite decide_False. }
      destruct (IH w1 (eq_sym Ht1) Hok2) as (H1 & H2 & H3 & due & H4 & H5 & H6 & H7).
      assert (Hd : forall u, deadline_of w1 u = deadline_of w u) by (intros; apply deadline_core, moved_core, Hm).
      split_and!; [done|by transitivity w1| |].
      { rewrite H3. unfold w1, task_enqueue. repeat case_match; done. }
      exists (t :: due). split_and!.
      * simpl. by rewrite <- H4.
      * rewrite H5, Hr1. by rewrite <- app_assoc.
      * constructor; [done|]. eapply Forall_impl; [exact H6|]. intros u. cbv beta. by rewrite Hd.
      * eapply Forall_impl; [exact H7|]. intros u. cbv beta. by rewrite Hd.
    + split_and!; [done|reflexivity|done|]. exists []. rewrite Hl, app_nil_r. split_and!; [done|done|constructor|].
      pose proof (ok_sorted _ Hok) as Hs. rewrite Hl in Hs. simpl in Hs.
      apply StronglySorted_inv in Hs as [_ Hs]. constructor; [done|].
      rewrite Forall_fmap in Hs. eapply Forall_impl; [exact Hs|]. simpl. lia.
Qed.

(** ** Inserting and unlinking a sleeper *)

Lemma timer_place_spec dl t l :
  StronglySorted Z.le (dl <$> l) ->
  exists a b, l = a ++ b /\ timer_place dl t l = a ++ t :: b
    /\ Forall (fun u => dl u <= dl t) a /\ Forall (fun u => dl t < dl u) b.
Proof.
  induction l as [|u l IH]; simpl; intros Hs.
  - exists [], []. by split_and!; constructor.
  - apply StronglySorted_inv in Hs as [Hs Hu]. destruct (Z.leb_spec (dl u) (dl t)) as [Hle|Hlt].
    + destruct (IH Hs) as (a & b & -> & -> & Ha & Hb). exists (u :: a), b. split_and!; [done|done| |done]. by constructor.
    + exists [], (u :: l). split_and!; [done|done|constructor|]. constructor; [done|].
      rewrite Forall_fmap in Hu. eapply Forall_impl; [exact Hu|]. simpl. lia.
Qed.

(** The insertion keeps the list by deadline and walks past equals: [t] goes
    after every sleeper due no later and before the others. *)
Lemma timer_insert_spec w t :
  sched_ok w -> is_Some (core w !! t) -> t ∉ g_ready w -> t ∉ g_timers w ->
  sched_ok (timer_insert t w) /\ exists a b, g_timers w = a ++ b /\ g_timers (timer_insert t w) = a ++ t :: b
    /\ Forall (fun u => deadline_of w u <= deadline_of w t) a /\ Forall (fun u => deadline_of w t < deadline_of w u) b.
Proof.
  intros Hok Hat Hnr Hnt. destruct Hok as [Hnd Ha Hq Hs].
  destruct (timer_place_spec (deadline_of w) t (g_timers w) Hs) as (a & b & E1 & E2 & Hpa & Hpb).
  split; [|exists a, b; by split_and!]. unfold timer_insert. rewrite E2. rewrite E1 in *.
  assert (Hp : g_ready w ++ a ++ t :: b ≡ₚ t :: g_ready w ++ a ++ b) by (rewrite !app_assoc; symmetry; apply Permutation_middle).
  constructor; simpl.
  - rewrite Hp. constructor; [|done]. set_solver.
  - intros u. rewrite Hp, elem_of_cons. intros [->|Hu]; [done|by apply Ha].
  - done.
  - rewrite fmap_app, fmap_cons. change (deadline_of (with_timers (a ++ t :: b) w)) with (deadline_of w).
    rewrite fmap_app in Hs. apply StronglySorted_app in Hs as (S1 & S2 & S3).
    apply StronglySorted_app. split_and!; [|done|].
    + intros x y Hx [->|Hy]%elem_of_cons.
      * apply list_elem_of_fmap in Hx as (u & -> & Hu). rewrite Forall_forall in Hpa. by apply Hpa.
      * by apply S1.
    + constructor; [done|]. rewrite Forall_fmap. eapply Forall_impl; [exact Hpb|]. simpl. lia.
Qed.

Lemma unlink_sublist `{EqDecision A} (t : A) l : unlink t l `sublist_of` l.
Proof. induction l as [|u l IH]; simpl; [done|]. case_decide; by constructor. Qed.
Lemma unlink_elem `{EqDecision A} (t : A) l u : NoDup l -> u ∈ unlink t l <-> u ∈ l /\ u <> t.
Proof.
  induction l as [|v l IH]; simpl; [set_solver|]. intros [Hv Hl]%NoDup_cons. case_decide as E; [subst|].
  - set_solver.
  - rewrite !elem_of_cons, IH by done. naive_solver.
Qed.

Lemma timer_unlink_moved t w : moved w (timer_unlink t w).
Proof. apply with_timers_moved. Qed.

Lemma StronglySorted_sublist {A} (R : A -> A -> Prop) l l' :
  l' `sublist_of` l -> StronglySorted R l -> StronglySorted R l'.
Proof.
  induction 1 as [|x l1 l2 H IH|x l1 l2 H IH]; [done| |].
  - intros [Hs Hx]%StronglySorted_inv. constructor; [by apply IH|].
    rewrite Forall_forall in *. intros y Hy. apply Hx. eapply elem_of_submseteq; [exact Hy|]. by apply sublist_submseteq.
  - intros [Hs _]%StronglySorted_inv. by apply IH.
Qed.

Lemma timer_unlink_ok t w :
  sched_ok w -> sched_ok (timer_unlink t w) /\ (t ∉ g_timers (timer_unlink t w)).
Proof.
  intros [Hnd Ha Hq Hs]. pose proof Hnd as Hnd'. apply NoDup_app in Hnd' as (N1 & N2 & N3). split.
  - constructor; simpl.
    + eapply sublist_NoDup; [exact Hnd|]. apply sublist_app; [done|apply unlink_sublist].
    + intros u. rewrite elem_of_app, unlink_elem by done. intros Hu. apply Ha. set_solver.
    + done.
    + eapply StronglySorted_sublist; [|exact Hs]. change (deadline_of (timer_unlink t w)) with (deadline_of w).
      apply (fmap_sublist (deadline_of w)), unlink_sublist.
  - simpl. rewrite unlink_elem by done. naive_solver.
Qed.

(** ** The platform *)

(** What the operating system documents: time does not go back, and a sleep
    takes at least the time asked for. *)
Class OsLaws `{Os} : Prop := {
  os_tick_nonneg : forall n, 0 <= os_tick n;
  os_sleep_enough : forall n ms, ms <= os_sleep n ms;
}.

(** No io waiter is registered: the hook is NULL, or returns -1 without
    waiting, as [rt_task.h] documents. *)
Class NoIoWaiters `{IoLayer} : Prop :=
  no_io : forall tmo w,
    match io_wait_hook with Some io => io tmo w | None => (-1, w) end = (-1, w).

Lemma time_now_spec `{OsLaws} w now w' :
  time_now_ms w = (now, w') ->
  exists c, w' = with_clock c w /\ now = time_of c /\ time_of (clock w) <= time_of c
            /\ vtime_on (with_clock c w) = vtime_on w.
Proof.
  unfold time_now_ms. destruct (clock w) as [t|n t] eqn:E; intros [= <- <-].
  - exists (clock w). rewrite E. split_and!; [by destruct w; simpl in *; subst|done|done|]. unfold vtime_on. by rewrite E.
  - exists (Real (S n) (t + os_tick n)). pose proof (os_tick_nonneg n). simpl. split_and!; [done|done|lia|].
    unfold vtime_on. simpl. by rewrite E.
Qed.

(** Firing what is due: the due sleepers, in timer order, join the ready
    queue's tail, and nobody else does. *)
Definition due_fired (w w' : rt) : Prop :=
  sched_ok w' /\ moved w w' /\
  exists due, g_timers w = due ++ g_timers w' /\ g_ready w' = g_ready w ++ due
    /\ Forall (fun t => deadline_of w t <= time_of (clock w')) due
    /\ Forall (fun t => time_of (clock w') < deadline_of w t) (g_timers w').

Lemma timer_fire_due_spec `{OsLaws} w : sched_ok w -> due_fired w (timer_fire_due w).
Proof.
  intros Hok. unfold timer_fire_due. destruct (g_timers w) as [|t l] eqn:Ht.
  { split; [done|]. split; [reflexivity|]. exists []. rewrite Ht, !app_nil_r. split_and!; [done|done|constructor|constructor]. }
  destruct (time_now_ms w) as [now w1] eqn:E. apply time_now_spec in E as (c & -> & -> & Hc & Hv).
  pose proof (fire_loop_spec (time_of c) (with_clock c w) (with_clock_ok c w Hok)) as Hf.
  cbv zeta in Hf. change (g_timers (with_clock c w)) with (g_timers w) in Hf. rewrite Ht in Hf.
  destruct Hf as (H1 & H2 & H3 & due & H4 & H5 & H6 & H7).
  split; [done|]. split.
  - transitivity (with_clock c w); [by apply with_clock_moved|done].
  - exists due. rewrite H3, Ht. by split_and!.
Qed.

Lemma moved_deadline w w' t : moved w w' -> deadline_of w' t = deadline_of w t.
Proof. intros H%moved_core. by apply deadline_core. Qed.

(** What a scheduling decision promises: the task it picks is the first of the
    ready queue followed by the sleepers in deadline order; a sleeper is only
    ever taken once the clock has reached its deadline, and those left asleep
    are not due (unless the queue was served before the clock was read). *)
Definition decided (w : rt) (r : option tid) (w' : rt) : Prop :=
  sched_ok w' /\ moved w w' /\
  match r with
  | None => g_ready w = [] /\ g_timers w = [] /\ g_ready w' = [] /\ g_timers w' = []
  | Some t =>
      g_ready w ++ g_timers w = t :: g_ready w' ++ g_timers w'
      /\ (forall u, u ∈ g_timers w' -> u ∈ g_timers w)
      /\ (forall u, u ∈ t :: g_ready w' -> u ∈ g_ready w \/ deadline_of w u <= time_of (clock w'))
      /\ Forall (fun u => time_of (clock w') < deadline_of w u) (g_timers w')
  end.

Lemma decide_now w1 w t r :
  due_fired w w1 -> g_ready w1 = t :: r ->
  decided w (Some t) (upd_task (set_queued false) t (with_ready r w1)).
Proof.
  intros (Hok & Hm & due & H1 & H2 & H3 & H4) Hr. split; [by apply task_dequeue_ok|]. split.
  { transitivity w1; [done|apply upd_with_ready_moved]. }
  simpl. split_and!.
  - rewrite H1, app_assoc, <- H2, Hr. done.
  - intros u Hu. rewrite H1. apply elem_of_app. by right.
  - intros u Hu. rewrite <- Hr, H2, elem_of_app in Hu. destruct Hu as [Hu|Hu]; [by left|right].
    rewrite Forall_forall in H3. by apply H3.
  - done.
Qed.

Lemma decided_moved w w1 r w' :
  moved w w1 -> g_ready w1 = g_ready w -> g_timers w1 = g_timers w ->
  decided w1 r w' -> decided w r w'.
Proof.
  intros Hm Hr Ht (H1 & H2 & H3). split; [done|]. split; [by transitivity w1|].
  destruct r as [t|]; rewrite Hr, Ht in H3; [|done].
  destruct H3 as (H3 & Hsub & H4 & H5). split_and!; [done|done| |].
  - intros u Hu. rewrite <- (moved_deadline w w1) by done. by apply H4.
  - eapply Forall_impl; [exact H5|]. intros u. cbv beta. by rewrite (moved_deadline w w1).
Qed.

Section Decides.
Context `{HO : OsLaws, !IoLayer, !NoIoWaiters}.

(** One turn of the loop either decides, or moves the clock to where the next
    turn must. *)
Lemma next_or_wait_turn w :
  sched_ok w ->
  match next_or_wait_body w with
  | inr (r, w') => decided w r w'
  | inl w1 => sched_ok w1 /\ moved w w1 /\ g_ready w = [] /\ g_ready w1 = [] /\ g_timers w1 = g_timers w
              /\ exists h l, g_timers w = h :: l /\ deadline_of w h <= time_of (clock w1)
  end.
Proof.
  intros Hok. unfold next_or_wait_body. pose proof (timer_fire_due_spec w Hok) as Hd.
  set (w1 := timer_fire_due w) in *. destruct (g_ready w1) as [|t r] eqn:Hr.
  2: { rewrite (task_dequeue_spec _ _ _ Hr). by apply decide_now. }
  unfold task_dequeue. rewrite Hr. cbv beta iota zeta. destruct Hd as (Hok1 & Hm & due & K1 & K2 & K3 & K4).
  rewrite Hr in K2. symmetry in K2. apply app_eq_nil in K2 as [Hrw ->]. simpl in K1.
  unfold io_timeout. destruct (g_timers w1) as [|h l] eqn:Ht.
  { rewrite no_io. simpl. rewrite Ht. split; [done|]. split; [done|]. done. }
  apply Forall_cons in K4 as [K4 _].
  destruct (vtime_on w1) eqn:Hv.
  - rewrite no_io. simpl. rewrite Ht, Hv. rewrite (moved_deadline w w1 h Hm). split_and!; try (done || by rewrite ?K1).
    + by apply with_clock_ok.
    + transitivity w1; [done|]. apply with_clock_moved; [simpl; lia|by rewrite Hv].
    + exists h, l. split; [by rewrite K1|]. simpl. lia.
  - destruct (time_now_ms w1) as [now w2] eqn:E. apply time_now_spec in E as (c & -> & -> & Hc & Hvc).
    rewrite no_io. simpl. rewrite Ht. change (vtime_on (with_clock c w1)) with (vtime_on (with_clock c w1)).
    rewrite Hvc, Hv. unfold time_real_sleep_ms. simpl.
    change (deadline_of (with_clock c w1) h) with (deadline_of w1 h).
    rewrite (moved_deadline w w1 h Hm). set (d := deadline_of w h) in *.
    destruct (Z.ltb_spec (d - time_of c) 0) as [Hlt|Hge]; simpl.
    + split_and!; try (done || by rewrite ?K1).
      * by apply with_clock_ok.
      * transitivity w1; [done|]. by apply with_clock_moved.
      * exists h, l. split; [by rewrite K1|]. simpl. lia.
    + destruct (Z.leb_spec (d - time_of c) 0) as [Hle|Hgt].
      * split_and!; try (done || by rewrite ?K1).
        -- by apply with_clock_ok.
        -- transitivity w1; [done|]. by apply with_clock_moved.
        -- exists h, l. split; [by rewrite K1|]. simpl. lia.
      * destruct c as [t|n t]; [unfold vtime_on in Hvc; simpl in Hvc; unfold vtime_on in Hv; congruence|].
        pose proof (os_sleep_enough n (d - t)). simpl in *. split_and!; try (done || by rewrite ?K1).
        -- by do 2 apply with_clock_ok.
        -- transitivity w1; [done|]. apply (with_clock_moved (Real (S n) (t + os_sleep n (d - t))) w1); [simpl; lia|]. unfold vtime_on in *; simpl in *; done.
        -- exists h, l. split; [by rewrite K1|]. simpl. lia.
Qed.

(** The decision is always reached, within two turns: the first fires or
    waits, the second picks. *)
Lemma next_or_wait_decides w :
  sched_ok w -> exists r w', (forall fuel, (2 <= fuel)%nat -> task_next_or_wait fuel w = Some (r, w')) /\ decided w r w'.
Proof.
  intros Hok. pose proof (next_or_wait_turn w Hok) as K1.
  assert (Hstep : forall fuel w0, task_next_or_wait (S fuel) w0 =
    match next_or_wait_body w0 with inl w1 => task_next_or_wait fuel w1 | inr r => Some r end) by done.
  destruct (next_or_wait_body w) as [w1|[r w']] eqn:E1.
  2: { exists r, w'. split; [|done]. intros [|fuel] Hf; [lia|]. by rewrite Hstep, E1. }
  destruct K1 as (Hok1 & Hm & Hr0 & Hr & Ht & h & l & Hh & Hd).
  pose proof (next_or_wait_turn w1 Hok1) as K2.
  destruct (next_or_wait_body w1) as [w2|[r w']] eqn:E2.
  - exfalso. unfold next_or_wait_body in E2. pose proof (timer_fire_due_spec w1 Hok1) as (_ & _ & due & D1 & D2 & _ & D4).
    destruct (g_ready (timer_fire_due w1)) as [|t r] eqn:Hrd.
    + rewrite Hr in D2. simpl in D2. subst due. simpl in D1. rewrite Ht, Hh in D1. rewrite <- D1 in D4.
      apply Forall_cons in D4 as [D4 _]. rewrite (moved_deadline w w1) in D4 by done.
      assert (time_of (clock w1) <= time_of (clock (timer_fire_due w1))); [|lia].
      pose proof (timer_fire_due_spec w1 Hok1) as (_ & (m & r & l' & c & -> & _ & Hc & _) & _). done.
    + rewrite (task_dequeue_spec _ _ _ Hrd) in E2. done.
  - exists r, w'. split; [|by eapply decided_moved; [exact Hm|congruence|congruence|]].
    intros [|[|fuel]] Hf; [lia|lia|]. by rewrite Hstep, E1, Hstep, E2.
Qed.

(** C13: the scheduling decision [task_next_or_wait] while no waiter for io is
    registered ([NoIoWaiters]; with one it waits on, as its comment says).  From a
    well-formed scheduler it always decides (at most one wait).  It answers NULL exactly
    when nobody is ready and nobody sleeps; otherwise it removes the head of
    the ready queue followed by the sleepers in deadline order, so ready tasks
    run first-in first-out and sleepers in deadline order; no sleeper is woken
    before the clock has reached its deadline, none that is due is left
    behind, the clock never goes back, and the lists stay well-formed. *)
Theorem scheduling_decision w :
  sched_ok w ->
  exists r w', (forall fuel, (2 <= fuel)%nat -> task_next_or_wait fuel w = Some (r, w'))
    /\ decided w r w' /\ (r = None <-> g_ready w = [] /\ g_timers w = []).
Proof.
  intros Hok. destruct (next_or_wait_decides w Hok) as (r & w' & Hf & Hd).
  exists r, w'. split; [done|]. split; [done|]. destruct Hd as (_ & _ & Hd). destruct r as [t|].
  - split; [done|]. intros [Hr Ht]. destruct Hd as [Hd _]. rewrite Hr, Ht in Hd. done.
  - destruct Hd as (? & ? & _). by split.
Qed.
End Decides.
