(* ===== verification/Forest.v ===== *)
(** What structured scopes promise, as an abstract specification: a forest of
    open scopes, each opened by a task and owning member tasks.

    [forest_ok] is the discipline (a task's own open scopes are a stack on top
    of the scope it belongs to); the operations are the four ways the run time
    changes it; and the lemmas say that each keeps it, that closing a scope
    leaves nothing below it, and that no other task's chain runs through it.
    [Scopes] shows that [rt_task.c] refines it. *)
From stdpp Require Import gmap.
From S2P Require Import Prelude Tasks.

Record node := Node {
  n_parent : option sid;
  n_opener : tid;
  n_members : list tid;
  n_children : list sid;
}.

(** A task's owning scope and the innermost scope it has open. *)
Record forest := Forest {
  f_tasks : gmap tid (option sid * option sid);
  f_nodes : gmap sid node;
}.

(** [opened m t o l o']: from [o], following parents through scopes [t] opened
    (the list [l]), one comes to [o']. *)
Inductive opened (m : gmap sid node) (t : tid) : option sid -> list sid -> option sid -> Prop :=
| opened_nil o : opened m t o [] o
| opened_cons s x l o :
    m !! s = Some x -> n_opener x = t -> opened m t (n_parent x) l o -> opened m t (Some s) (s :: l) o.

(** The ancestors of a place, innermost first. *)
Inductive chain (m : gmap sid node) : option sid -> list sid -> Prop :=
| chain_nil : chain m None []
| chain_cons s x l : m !! s = Some x -> chain m (n_parent x) l -> chain m (Some s) (s :: l).

Record forest_ok (f : forest) : Prop := {
  fo_opener : forall s x, f_nodes f !! s = Some x -> is_Some (f_tasks f !! n_opener x);
  fo_parent : forall s x p, f_nodes f !! s = Some x -> n_parent x = Some p ->
    (p < s)%nat /\ exists y, f_nodes f !! p = Some y /\ s ∈ n_children y;
  fo_children : forall p y c, f_nodes f !! p = Some y -> c ∈ n_children y ->
    exists x, f_nodes f !! c = Some x /\ n_parent x = Some p;
  fo_children_nodup : forall p y, f_nodes f !! p = Some y -> NoDup (n_children y);
  fo_member : forall t s c, f_tasks f !! t = Some (Some s, c) -> exists y, f_nodes f !! s = Some y /\ t ∈ n_members y;
  fo_members : forall s y t, f_nodes f !! s = Some y -> t ∈ n_members y -> exists c, f_tasks f !! t = Some (Some s, c);
  fo_members_nodup : forall s y, f_nodes f !! s = Some y -> NoDup (n_members y);
  fo_open : forall t o c, f_tasks f !! t = Some (o, c) ->
    exists l, opened (f_nodes f) t c l o /\ forall s x, f_nodes f !! s = Some x -> n_opener x = t -> s ∈ l;
}.

(** ** The operations *)

(** [t] opens [s] inside its innermost scope. *)
Definition open_scope (s : sid) (t : tid) (f : forest) : forest :=
  let p := match f_tasks f !! t with Some (_, c) => c | None => None end in
  let m := <[s := Node p t [] []]> (f_nodes f) in
  let m := match p with
           | Some p => alter (fun y => Node (n_parent y) (n_opener y) (n_members y) (s :: n_children y)) p m
           | None => m
           end in
  Forest (alter (fun x => (x.1, Some s)) t (f_tasks f)) m.

(** A new task, owned by [o]. *)
Definition join_forest (t : tid) (o : option sid) (f : forest) : forest :=
  Forest (<[t := (o, o)]> (f_tasks f))
    match o with
    | Some s => alter (fun y => Node (n_parent y) (n_opener y) (t :: n_members y) (n_children y)) s (f_nodes f)
    | None => f_nodes f
    end.

(** A task ends. *)
Definition leave_forest (t : tid) (f : forest) : forest :=
  Forest (delete t (f_tasks f))
    match f_tasks f !! t with
    | Some (Some s, _) => alter (fun y => Node (n_parent y) (n_opener y) (unlink t (n_members y)) (n_children y)) s (f_nodes f)
    | _ => f_nodes f
    end.

(** [t] closes [s]. *)
Definition close_scope (s : sid) (t : tid) (f : forest) : forest :=
  let p := match f_nodes f !! s with Some x => n_parent x | None => None end in
  let m := match p with
           | Some p => alter (fun y => Node (n_parent y) (n_opener y) (n_members y) (unlink s (n_children y))) p (f_nodes f)
           | None => f_nodes f
           end in
  Forest (alter (fun x => (x.1, p)) t (f_tasks f)) (delete s m).

(** ** Facts about paths *)

(** Paths depend on the parents and openers of the nodes only. *)
Lemma opened_ext m m' t o l o' :
  (forall s x, s ∈ l -> m !! s = Some x -> exists x', m' !! s = Some x' /\ n_parent x' = n_parent x /\ n_opener x' = n_opener x) ->
  opened m t o l o' -> opened m' t o l o'.
Proof.
  intros He H. induction H as [|s x l o Hs Ho H IH]; [constructor|].
  destruct (He s x) as (x' & Hs' & Hp & Ho'); [set_solver|done|]. econstructor; [exact Hs'|congruence|].
  rewrite Hp. apply IH. set_solver.
Qed.

Lemma opened_parent m t o l o' s :
  opened m t o l o' -> s ∈ l -> exists x, m !! s = Some x /\ n_opener x = t.
Proof. induction 1; [set_solver|]. intros [->|]%elem_of_cons; eauto. Qed.

Section Ok.
Context (f : forest) (Hok : forest_ok f).

(** Along a path the scopes get older. *)
Lemma opened_below t l o' s :
  opened (f_nodes f) t (Some s) l o' -> forall s', s' ∈ l -> (s' <= s)%nat.
Proof.
  remember (Some s) as os eqn:E. intros H. revert s E.
  induction H as [|s0 x l o Hs Ho H IH]; intros s [= ->]; [set_solver|].
  intros s' [->|Hin]%elem_of_cons; [done|].
  inversion H as [|s1 x1 l1 o1 Hs1 Ho1 H1 E1 E2 E3]; subst; [set_solver|].
  destruct (fo_parent _ Hok _ _ s1 Hs (eq_sym E1)) as [Hlt _].
  assert (s' <= s1)%nat; [|lia]. apply IH; [done|]. exact Hin.
Qed.

(** The innermost open scope of a task is its own, or the one it belongs to. *)
Lemma cur_own_or_owner t o c :
  f_tasks f !! t = Some (o, c) ->
  c = o \/ exists s x, c = Some s /\ f_nodes f !! s = Some x /\ n_opener x = t.
Proof.
  intros Ht. destruct (fo_open _ Hok _ _ _ Ht) as (l & Hl & _). inversion Hl; subst; [by left|right; eauto].
Qed.

(** A scope that is its opener's innermost and has no members has no children
    either: nothing at all is left below it. *)
Lemma innermost_empty_leaf s x t o :
  f_nodes f !! s = Some x -> f_tasks f !! t = Some (o, Some s) -> n_opener x = t -> n_members x = [] ->
  n_children x = [].
Proof.
  intros Hs Ht Ho Hm. destruct (n_children x) as [|c r] eqn:Hc; [done|exfalso].
  destruct (fo_children _ Hok s x c Hs) as (y & Hy & Hp); [rewrite Hc; by left|].
  destruct (fo_parent _ Hok _ _ _ Hy Hp) as [Hlt _].
  destruct (fo_opener _ Hok _ _ Hy) as [[o' c'] Ht'].
  destruct (fo_open _ Hok _ _ _ Ht') as (l & Hl & Hin). specialize (Hin c y Hy eq_refl).
  destruct (decide (n_opener y = t)) as [Heq|Hne].
  - rewrite Heq, Ht in Ht'. injection Ht' as <- <-. rewrite Heq in Hl.
    pose proof (opened_below _ _ _ _ Hl c Hin). lia.
  - assert (Hgo : forall a l', opened (f_nodes f) (n_opener y) a l' o' -> c ∈ l' -> o' = Some s).
    { clear Hin Hl. intros a l' H. induction H as [|s0 x0 l0 o0 Hs0 Ho0 H IH]; [set_solver|].
      intros [<-|Hin]%elem_of_cons; [|by apply IH].
      assert (x0 = y) by congruence. subst x0. rewrite Hp in H. inversion H as [|s1 x1 l1 o1 Hs1 Ho1]; subst; [done|].
      rewrite Hs in Hs1. injection Hs1 as <-. congruence. }
    rewrite (Hgo _ _ Hl Hin) in Ht'. destruct (fo_member _ Hok _ _ _ Ht') as (z & Hz & Hmem).
    rewrite Hs in Hz. injection Hz as <-. rewrite Hm in Hmem. set_solver.
Qed.

(** Nor does it lie on any other task's chain. *)
Lemma closable_off_chains s x t o u ou cu l :
  f_nodes f !! s = Some x -> f_tasks f !! t = Some (o, Some s) -> n_opener x = t -> n_members x = [] ->
  u <> t -> f_tasks f !! u = Some (ou, cu) -> chain (f_nodes f) cu l -> s ∉ l.
Proof.
  intros Hs Ht Ho Hm Hne Hu Hl Hin. pose proof (innermost_empty_leaf s x t o Hs Ht Ho Hm) as Hleaf.
  assert (Hcu : cu = Some s).
  { clear Hu. induction Hl as [|s0 x0 l0 Hs0 Hl IH]; [set_solver|].
    apply elem_of_cons in Hin as [->|Hin]; [done|]. specialize (IH Hin).
    destruct (fo_parent _ Hok _ _ _ Hs0 IH) as (_ & y & Hy & Hc).
    rewrite Hs in Hy. injection Hy as <-. rewrite Hleaf in Hc. set_solver. }
  subst cu. destruct (cur_own_or_owner _ _ _ Hu) as [<-|(s' & x' & [= <-] & Hs' & Ho')].
  - destruct (fo_member _ Hok _ _ _ Hu) as (z & Hz & Hmem). rewrite Hs in Hz. injection Hz as <-.
    rewrite Hm in Hmem. set_solver.
  - congruence.
Qed.
End Ok.

(** ** Every operation keeps the discipline *)

(** Changing members and children leaves the paths alone. *)
Lemma opened_alter m t o l o' s g :
  (forall y, n_parent (g y) = n_parent y /\ n_opener (g y) = n_opener y) ->
  opened m t o l o' -> opened (alter g s m) t o l o'.
Proof.
  intros Hg. apply opened_ext. intros s' x _ Hx. destruct (decide (s' = s)) as [->|Hne].
  - exists (g x). rewrite lookup_alter_eq, Hx. split; [done|]. apply Hg.
  - exists x. by rewrite lookup_alter_ne.
Qed.

Lemma lookup_alter_node (g : node -> node) s (m : gmap sid node) s' y' :
  alter g s m !! s' = Some y' ->
  exists y, m !! s' = Some y /\ (s' = s /\ y' = g y \/ s' <> s /\ y' = y).
Proof.
  destruct (decide (s' = s)) as [->|Hne].
  - rewrite lookup_alter_eq. intros (y & Hy & ->)%fmap_Some. exists y. eauto.
  - rewrite lookup_alter_ne by done. exists y'. eauto.
Qed.

(** A path from a place to itself is empty. *)
Lemma opened_self f t o l : forest_ok f -> opened (f_nodes f) t o l o -> l = [].
Proof.
  intros Hok H. destruct o as [s|]; [|by inversion H].
  inversion H as [|s0 x l0 o0 Hs Ho Hl]; subst; [done|exfalso].
  inversion Hl as [o1 E1 E2 E3|s1 x1 l1 o1 Hs1 Ho1 Hl1 E1 E2 E3]; subst.
  - destruct (fo_parent _ Hok _ _ s Hs) as [Hlt _]; [done|lia].
  - destruct (fo_parent _ Hok _ _ s1 Hs (eq_sym E1)) as [Hlt _].
    assert (Hend : forall a l' b, opened (f_nodes f) (n_opener x) a l' b -> forall a', a = Some a' -> (a' < s)%nat -> b <> Some s).
    { intros a l' b H0. induction H0 as [b|s2 x2 l2 o2 Hs2 Ho2 H2 IH]; intros a' Ha Hlt'; [intros Hb; simplify_eq; lia|].
      injection Ha as ->. destruct (n_parent x2) as [p|] eqn:Hp.
      - apply (IH p eq_refl). destruct (fo_parent _ Hok _ _ p Hs2 Hp). lia.
      - by inversion H2. }
    apply (Hend (Some s1) (s1 :: l1) (Some s)) with (a' := s1); [|done|done|done]. by rewrite E1.
Qed.

Section Ops.
Context (f : forest) (Hok : forest_ok f).

Lemma cur_alloc t o c : f_tasks f !! t = Some (o, Some c) -> exists y, f_nodes f !! c = Some y.
Proof.
  intros Ht. destruct (cur_own_or_owner f Hok _ _ _ Ht) as [<-|(s & x & [= <-] & Hs & _)]; [|eauto].
  destruct (fo_member _ Hok _ _ _ Ht) as (y & Hy & _). eauto.
Qed.

(** What opening a scope does, node by node. *)
Section Open.
Context (s : sid) (t : tid) (o c : option sid) (Ht : f_tasks f !! t = Some (o, c)).
Context (Hfresh : forall s' x, f_nodes f !! s' = Some x -> (s' < s)%nat).

Lemma open_task u : f_tasks (open_scope s t f) !! u = if decide (u = t) then Some (o, Some s) else f_tasks f !! u.
Proof.
  unfold open_scope. simpl. case_decide as E; [subst; by rewrite lookup_alter_eq, Ht|by rewrite lookup_alter_ne].
Qed.

Lemma open_old s' y :
  f_nodes f !! s' = Some y -> exists y', f_nodes (open_scope s t f) !! s' = Some y' /\
    n_parent y' = n_parent y /\ n_opener y' = n_opener y /\ n_members y' = n_members y /\
    n_children y' = if decide (c = Some s') then s :: n_children y else n_children y.
Proof.
  intros Hy. assert (s' <> s) by (intros ->; apply Hfresh in Hy; lia). unfold open_scope. rewrite Ht. simpl.
  destruct c as [p|].
  - destruct (decide (s' = p)) as [->|Hne].
    + rewrite lookup_alter_eq, lookup_insert_ne, Hy by done. eexists. split; [done|]. by rewrite decide_True.
    + rewrite lookup_alter_ne, lookup_insert_ne by done. exists y. rewrite decide_False by congruence. by split_and!.
  - rewrite lookup_insert_ne by done. exists y. by split_and!.
Qed.

Lemma open_new : f_nodes (open_scope s t f) !! s = Some (Node c t [] []).
Proof.
  unfold open_scope. rewrite Ht. simpl. destruct c as [p|]; [|by rewrite lookup_insert_eq].
  destruct (cur_alloc _ _ _ Ht) as [yp Hyp]. apply Hfresh in Hyp. rewrite lookup_alter_ne by lia. by rewrite lookup_insert_eq.
Qed.

Lemma open_inv s' y' :
  f_nodes (open_scope s t f) !! s' = Some y' ->
  s' = s /\ y' = Node c t [] [] \/
  exists y, f_nodes f !! s' = Some y /\ n_parent y' = n_parent y /\ n_opener y' = n_opener y /\
    n_members y' = n_members y /\ n_children y' = if decide (c = Some s') then s :: n_children y else n_children y.
Proof.
  intros Hy'. destruct (decide (s' = s)) as [->|Hne].
  { rewrite open_new in Hy'. injection Hy' as <-. by left. }
  destruct (f_nodes f !! s') as [y|] eqn:Hy.
  - right. destruct (open_old _ _ Hy) as (y1 & Hy1 & ?). rewrite Hy' in Hy1. injection Hy1 as <-. eauto.
  - exfalso. unfold open_scope in Hy'. rewrite Ht in Hy'. simpl in Hy'.
    destruct c as [p|]; [apply lookup_alter_node in Hy' as (? & Hy' & _)|];
      by rewrite lookup_insert_ne, Hy in Hy'.
Qed.

Lemma opened_open u a l b : opened (f_nodes f) u a l b -> opened (f_nodes (open_scope s t f)) u a l b.
Proof.
  apply opened_ext. intros s' x _ Hx. destruct (open_old _ _ Hx) as (x' & ? & ? & ? & _). eauto.
Qed.

Lemma open_scope_ok : forest_ok (open_scope s t f).
Proof.
  assert (Hns : f_nodes f !! s = None) by (destruct (f_nodes f !! s) eqn:E; [apply Hfresh in E; lia|done]).
  constructor.
  - intros s' y' [[-> ->]|(y & Hy & _ & -> & _)]%open_inv; rewrite open_task; simpl; case_decide; eauto;
      by eapply fo_opener.
  - intros s' y' p [[-> ->]|(y & Hy & -> & _)]%open_inv; simpl; intros Hp.
    + pose proof Ht as Ht1. rewrite Hp in Ht1. destruct (cur_alloc _ _ _ Ht1) as [yp Hyp]. split; [by eapply Hfresh|].
      destruct (open_old _ _ Hyp) as (y' & ? & _ & _ & _ & Hch). exists y'. split; [done|].
      rewrite Hch, decide_True by done. by left.
    + destruct (fo_parent _ Hok _ _ _ Hy Hp) as (? & yp & Hyp & Hin). split; [done|].
      destruct (open_old _ _ Hyp) as (y1 & ? & _ & _ & _ & Hch). exists y1. split; [done|].
      rewrite Hch. case_decide; [by right|done].
  - intros p y' x [[-> ->]|(y & Hy & _ & _ & _ & ->)]%open_inv Hin; [by apply not_elem_of_nil in Hin|].
    assert (Hx : x = s /\ c = Some p \/ x ∈ n_children y)
      by (case_decide; [apply elem_of_cons in Hin as [->|]|]; auto).
    destruct Hx as [[-> Hcp]|Hx]; [eexists; split; [exact open_new|exact Hcp]|].
    destruct (fo_children _ Hok _ _ _ Hy Hx) as (z & Hz & Hzp). destruct (open_old _ _ Hz) as (z' & ? & Hz' & _).
    exists z'. split; [done|congruence].
  - intros p y' [[-> ->]|(y & Hy & _ & _ & _ & ->)]%open_inv; [constructor|].
    case_decide; [constructor|]; try by eapply fo_children_nodup.
    intros Hin. destruct (fo_children _ Hok _ _ _ Hy Hin) as (z & Hz & _). congruence.
  - intros u s' cu. rewrite open_task. intros Hu.
    assert (exists cu', f_tasks f !! u = Some (Some s', cu')) as [cu' Hu'] by (case_decide; naive_solver).
    destruct (fo_member _ Hok _ _ _ Hu') as (y & Hy & Hin).
    destruct (open_old _ _ Hy) as (y' & ? & _ & _ & Hm & _). exists y'. by rewrite Hm.
  - intros s' y' u [[-> ->]|(y & Hy & _ & _ & -> & _)]%open_inv Hin; [by apply not_elem_of_nil in Hin|].
    destruct (fo_members _ Hok _ _ _ Hy Hin) as [cu Hu]. rewrite open_task. case_decide; naive_solver.
  - intros s' y' [[-> ->]|(y & Hy & _ & _ & -> & _)]%open_inv; [constructor|]. by eapply fo_members_nodup.
  - intros u ou cu. rewrite open_task. case_decide as E.
    + intros [= <- <-]. subst u. destruct (fo_open _ Hok _ _ _ Ht) as (l & Hl & Hin). exists (s :: l). split.
      * by econstructor; [exact open_new| |apply opened_open].
      * intros s' y' [[-> ->]|(y & Hy & _ & -> & _)]%open_inv Ho; [by left|]. right. by eapply Hin.
    + intros Hu. destruct (fo_open _ Hok _ _ _ Hu) as (l & Hl & Hin). exists l. split; [by apply opened_open|].
      intros s' y' [[-> ->]|(y & Hy & _ & -> & _)]%open_inv Ho; [simpl in Ho; congruence|]. by eapply Hin.
Qed.
End Open.

(** Tasks come and go: only member lists change. *)
Lemma members_only (m : gmap sid node) s h s' y' :
  alter (fun y => Node (n_parent y) (n_opener y) (h (n_members y)) (n_children y)) s m !! s' = Some y' ->
  exists y, m !! s' = Some y /\ n_parent y' = n_parent y /\ n_opener y' = n_opener y /\ n_children y' = n_children y
    /\ n_members y' = if decide (s' = s) then h (n_members y) else n_members y.
Proof.
  intros (y & Hy & [[-> ->]|[Hne ->]])%lookup_alter_node; exists y; (split; [done|]); split_and!; try done;
    [by rewrite decide_True|by rewrite decide_False].
Qed.

(** Changing member lists alone keeps every clause but those on members. *)
Lemma retask_ok (ft : gmap tid (option sid * option sid)) (m : gmap sid node) :
  (forall s y', m !! s = Some y' -> exists y, f_nodes f !! s = Some y /\ n_parent y' = n_parent y /\
     n_opener y' = n_opener y /\ n_children y' = n_children y) ->
  (forall s y, f_nodes f !! s = Some y -> exists y', m !! s = Some y' /\ n_parent y' = n_parent y /\
     n_opener y' = n_opener y /\ n_children y' = n_children y) ->
  (forall s y, f_nodes f !! s = Some y -> is_Some (ft !! n_opener y)) ->
  (forall t s c, ft !! t = Some (Some s, c) -> exists y, m !! s = Some y /\ t ∈ n_members y) ->
  (forall s y t, m !! s = Some y -> t ∈ n_members y -> exists c, ft !! t = Some (Some s, c)) ->
  (forall s y, m !! s = Some y -> NoDup (n_members y)) ->
  (forall t o c, ft !! t = Some (o, c) -> f_tasks f !! t = Some (o, c) \/
     c = o /\ forall s y, f_nodes f !! s = Some y -> n_opener y <> t) ->
  forest_ok (Forest ft m).
Proof.
  intros Hinv Hold Hop Hm1 Hm2 Hm3 Hft. constructor; simpl; try done.
  - intros s y' (y & Hy & _ & -> & _)%Hinv. by eapply Hop.
  - intros s y' p (y & Hy & -> & _)%Hinv Hp. destruct (fo_parent _ Hok _ _ _ Hy Hp) as (? & z & Hz & Hin).
    split; [done|]. destruct (Hold _ _ Hz) as (z' & ? & _ & _ & Hc). exists z'. by rewrite Hc.
  - intros p y' c (y & Hy & _ & _ & ->)%Hinv Hin. destruct (fo_children _ Hok _ _ _ Hy Hin) as (z & Hz & Hp).
    destruct (Hold _ _ Hz) as (z' & ? & Hc & _). exists z'. split; [done|congruence].
  - intros p y' (y & Hy & _ & _ & ->)%Hinv. by eapply fo_children_nodup.
  - intros t o c [Ht|[-> Hno]]%Hft.
    + destruct (fo_open _ Hok _ _ _ Ht) as (l & Hl & Hin). exists l. split.
      * eapply opened_ext; [|exact Hl]. intros s x _ Hx. destruct (Hold _ _ Hx) as (x' & ? & ? & ? & _). eauto.
      * intros s y' (y & Hy & _ & -> & _)%Hinv. by apply Hin.
    + exists []. split; [constructor|]. intros s y' (y & Hy & _ & -> & _)%Hinv Ho. by destruct (Hno _ _ Hy).
Qed.

Lemma members_only_old (m : gmap sid node) s h s' y :
  m !! s' = Some y -> exists y', alter (fun y => Node (n_parent y) (n_opener y) (h (n_members y)) (n_children y)) s m !! s' = Some y'
    /\ n_parent y' = n_parent y /\ n_opener y' = n_opener y /\ n_children y' = n_children y
    /\ n_members y' = if decide (s' = s) then h (n_members y) else n_members y.
Proof.
  intros Hy. destruct (decide (s' = s)) as [->|Hne].
  - rewrite lookup_alter_eq, Hy. simpl. eexists. split; [done|]. by split_and!.
  - rewrite lookup_alter_ne by done. exists y. by split_and!.
Qed.

Lemma no_own_scope t s y : f_tasks f !! t = None -> f_nodes f !! s = Some y -> n_opener y <> t.
Proof. intros Ht Hy <-. apply (fo_opener _ Hok) in Hy as [? Hy]. congruence. Qed.
Lemma not_a_member t s y : f_tasks f !! t = None -> f_nodes f !! s = Some y -> t ∉ n_members y.
Proof. intros Ht Hy Hin. destruct (fo_members _ Hok _ _ _ Hy Hin). congruence. Qed.

Lemma join_forest_ok t o :
  f_tasks f !! t = None -> (forall s, o = Some s -> is_Some (f_nodes f !! s)) -> forest_ok (join_forest t o f).
Proof.
  intros Hnt Ho. assert (Hft : forall u, <[t := (o, o)]> (f_tasks f) !! u = if decide (u = t) then Some (o, o) else f_tasks f !! u)
    by (intros u; case_decide as E; [subst; apply lookup_insert_eq|by apply lookup_insert_ne]).
  unfold join_forest. apply retask_ok.
  - intros s y' Hy'. destruct o as [s0|]; [|eauto]. apply members_only in Hy' as (y & ? & ? & ? & ? & _). eauto.
  - intros s y Hy. destruct o as [s0|]; [|eauto]. destruct (members_only_old _ s0 (cons t) _ _ Hy) as (y' & ? & ? & ? & ? & _). eauto.
  - intros s y Hy. rewrite Hft. case_decide; [done|]. by eapply fo_opener.
  - intros u s c. rewrite Hft. case_decide as E.
    + intros [= -> <-]. destruct (Ho s eq_refl) as [y Hy].
      destruct (members_only_old _ s (cons t) _ _ Hy) as (y' & ? & _ & _ & _ & Hm). rewrite decide_True in Hm by done.
      exists y'. rewrite Hm, E. split; [done|by left].
    + intros Hu. destruct (fo_member _ Hok _ _ _ Hu) as (y & Hy & Hin). destruct o as [s0|]; [|eauto].
      destruct (members_only_old _ s0 (cons t) _ _ Hy) as (y' & ? & _ & _ & _ & Hm). exists y'. rewrite Hm.
      split; [done|]. case_decide; [by right|done].
  - intros s y' u Hy' Hin. rewrite Hft. destruct o as [s0|].
    + apply members_only in Hy' as (y & Hy & _ & _ & _ & Hm). rewrite Hm in Hin. destruct (decide (u = t)) as [->|E].
      * case_decide; [by subst; eauto|]. by apply (not_a_member _ _ _ Hnt Hy) in Hin.
      * assert (Hin' : u ∈ n_members y) by (case_decide; [apply elem_of_cons in Hin as [|]|]; done). by eapply fo_members.
    + case_decide; [subst u; by apply (not_a_member _ _ _ Hnt Hy') in Hin|]. by eapply fo_members.
  - intros s y' Hy'. destruct o as [s0|]; [|by eapply fo_members_nodup].
    apply members_only in Hy' as (y & Hy & _ & _ & _ & Hm). rewrite Hm.
    case_decide; [constructor; [by eapply not_a_member|]|]; by eapply fo_members_nodup.
  - intros u ou cu. rewrite Hft. case_decide as E; [|by left]. intros [= <- <-]. right. split; [done|].
    intros s y Hy. rewrite E. by eapply no_own_scope.
Qed.

Lemma leave_forest_ok t o : f_tasks f !! t = Some (o, o) -> forest_ok (leave_forest t f).
Proof.
  intros Ht. destruct (fo_open _ Hok _ _ _ Ht) as (l & Hl & Hown). apply (opened_self f t o l Hok) in Hl as ->.
  assert (Hno : forall s y, f_nodes f !! s = Some y -> n_opener y <> t)
    by (intros s y Hy Ho; by apply (Hown _ _ Hy), elem_of_nil in Ho).
  unfold leave_forest. rewrite Ht. apply retask_ok.
  - intros s y' Hy'. destruct o as [s0|]; [|eauto]. apply members_only in Hy' as (y & ? & ? & ? & ? & _). eauto.
  - intros s y Hy. destruct o as [s0|]; [|eauto]. destruct (members_only_old _ s0 (unlink t) _ _ Hy) as (y' & ? & ? & ? & ? & _). eauto.
  - intros s y Hy. rewrite lookup_delete_ne; [by eapply fo_opener|]. intros ->. by apply (Hno _ _ Hy).
  - intros u s c [Hne Hu]%lookup_delete_Some. destruct (fo_member _ Hok _ _ _ Hu) as (y & Hy & Hin).
    destruct o as [s0|]; [|eauto]. destruct (members_only_old _ s0 (unlink t) _ _ Hy) as (y' & ? & _ & _ & _ & Hm).
    exists y'. rewrite Hm. split; [done|]. case_decide; [|done]. apply unlink_elem; [by eapply fo_members_nodup|done].
  - intros s y' u Hy' Hin. destruct o as [s0|].
    + apply members_only in Hy' as (y & Hy & _ & _ & _ & Hm). rewrite Hm in Hin.
      pose proof (fo_members_nodup _ Hok _ _ Hy) as Hnd. case_decide as E.
      * apply unlink_elem in Hin as [Hin Hne]; [|done]. destruct (fo_members _ Hok _ _ _ Hy Hin) as [c Hu].
        exists c. by rewrite lookup_delete_ne.
      * destruct (fo_members _ Hok _ _ _ Hy Hin) as [c Hu]. exists c. rewrite lookup_delete_ne; [done|]. congruence.
    + destruct (fo_members _ Hok _ _ _ Hy' Hin) as [c Hu]. exists c. rewrite lookup_delete_ne; [done|]. congruence.
  - intros s y' Hy'. destruct o as [s0|]; [|by eapply fo_members_nodup].
    apply members_only in Hy' as (y & Hy & _ & _ & _ & Hm). rewrite Hm. pose proof (fo_members_nodup _ Hok _ _ Hy) as Hnd.
    case_decide; [|done]. eapply sublist_NoDup; [exact Hnd|apply unlink_sublist].
  - intros u ou cu [_ Hu]%lookup_delete_Some. by left.
Qed.
End Ops.

(** Closing the innermost scope of its opener, once it has no members. *)
Section Close.
Context (f : forest) (Hok : forest_ok f) (s : sid) (x : node) (t : tid) (o : option sid).
Context (Hs : f_nodes f !! s = Some x) (Ht : f_tasks f !! t = Some (o, Some s)).
Context (Hox : n_opener x = t) (Hmx : n_members x = []).

Lemma close_task u : f_tasks (close_scope s t f) !! u = if decide (u = t) then Some (o, n_parent x) else f_tasks f !! u.
Proof.
  unfold close_scope. rewrite Hs. simpl. case_decide as E; [subst u; by rewrite lookup_alter_eq, Ht|by rewrite lookup_alter_ne].
Qed.

Lemma close_old s' y :
  s' <> s -> f_nodes f !! s' = Some y -> exists y', f_nodes (close_scope s t f) !! s' = Some y' /\
    n_parent y' = n_parent y /\ n_opener y' = n_opener y /\ n_members y' = n_members y /\
    n_children y' = if decide (n_parent x = Some s') then unlink s (n_children y) else n_children y.
Proof.
  intros Hne Hy. unfold close_scope. rewrite Hs. simpl. rewrite lookup_delete_ne by done. destruct (n_parent x) as [p|].
  - destruct (decide (s' = p)) as [->|Hne'].
    + rewrite lookup_alter_eq, Hy. simpl. eexists. split; [done|]. simpl. by rewrite decide_True.
    + rewrite lookup_alter_ne by done. exists y. rewrite decide_False by congruence. by split_and!.
  - exists y. by split_and!.
Qed.

Lemma close_inv s' y' :
  f_nodes (close_scope s t f) !! s' = Some y' ->
  s' <> s /\ exists y, f_nodes f !! s' = Some y /\ n_parent y' = n_parent y /\ n_opener y' = n_opener y /\
    n_members y' = n_members y /\ n_children y' = if decide (n_parent x = Some s') then unlink s (n_children y) else n_children y.
Proof.
  intros Hy'. destruct (decide (s' = s)) as [->|Hne].
  { unfold close_scope in Hy'. simpl in Hy'. by rewrite lookup_delete_eq in Hy'. }
  split; [done|]. destruct (f_nodes f !! s') as [y|] eqn:Hy.
  - destruct (close_old _ _ Hne Hy) as (y1 & Hy1 & ?). rewrite Hy' in Hy1. injection Hy1 as <-. eauto.
  - exfalso. unfold close_scope in Hy'. rewrite Hs in Hy'. simpl in Hy'. rewrite lookup_delete_ne in Hy' by done.
    destruct (n_parent x) as [p|]; [apply lookup_alter_node in Hy' as (? & Hy' & _)|]; congruence.
Qed.

Lemma closed_no_children : n_children x = [].
Proof. by eapply innermost_empty_leaf. Qed.

Lemma opened_close u a l b : s ∉ l -> opened (f_nodes f) u a l b -> opened (f_nodes (close_scope s t f)) u a l b.
Proof.
  intros Hnin. apply opened_ext. intros s' y Hin Hy.
  destruct (close_old s' y) as (y' & ? & ? & ? & _); [congruence|done|eauto].
Qed.

(** The path of [t] starts at [s]. *)
Lemma close_path : exists l, opened (f_nodes f) t (n_parent x) l o /\ (s ∉ l)
  /\ forall s' y, f_nodes f !! s' = Some y -> n_opener y = t -> s' = s \/ s' ∈ l.
Proof.
  destruct (fo_open _ Hok _ _ _ Ht) as (l & Hl & Hown).
  inversion Hl as [o1 E1 E2 E3|s1 x1 l1 o1 Hs1 Ho1 Hl1 E1 E2 E3]; subst l.
  - exfalso. subst o. destruct (fo_member _ Hok _ _ _ Ht) as (y & Hy & Hin). rewrite Hs in Hy. injection Hy as <-.
    rewrite Hmx in Hin. by apply elem_of_nil in Hin.
  - subst s1. rewrite Hs in Hs1. injection Hs1 as <-. exists l1. split_and!; [done| |].
    + intros Hin. destruct (n_parent x) as [p|] eqn:Hp; [|by inversion Hl1; subst; apply elem_of_nil in Hin].
      destruct (fo_parent _ Hok _ _ _ Hs Hp) as [Hlt _]. pose proof (opened_below f Hok _ _ _ _ Hl1 _ Hin). lia.
    + intros s' y Hy Ho. specialize (Hown _ _ Hy Ho). by apply elem_of_cons in Hown.
Qed.

Lemma close_scope_ok : forest_ok (close_scope s t f).
Proof.
  pose proof closed_no_children as Hcx. constructor.
  - intros s' y' (_ & y & Hy & _ & -> & _)%close_inv. rewrite close_task. case_decide; [eauto|]. by eapply fo_opener.
  - intros s' y' p (Hne & y & Hy & -> & _)%close_inv Hp. destruct (fo_parent _ Hok _ _ _ Hy Hp) as (? & yp & Hyp & Hin).
    split; [done|]. assert (Hps : p <> s) by (intros ->; rewrite Hs in Hyp; injection Hyp as <-; rewrite Hcx in Hin; by apply elem_of_nil in Hin).
    destruct (close_old _ _ Hps Hyp) as (y1 & ? & _ & _ & _ & Hch). exists y1. split; [done|]. rewrite Hch.
    case_decide; [|done]. apply unlink_elem; [by eapply fo_children_nodup|done].
  - intros p y' c (Hne & y & Hy & _ & _ & _ & Hch)%close_inv Hin. rewrite Hch in Hin.
    assert (Hc : c ∈ n_children y /\ c <> s).
    { case_decide as E; [apply unlink_elem in Hin; [done|by eapply fo_children_nodup]|]. split; [done|]. intros ->.
      destruct (fo_children _ Hok _ _ _ Hy Hin) as (z & Hz & Hzp). congruence. }
    destruct Hc as [Hc Hcs]. destruct (fo_children _ Hok _ _ _ Hy Hc) as (z & Hz & Hzp).
    destruct (close_old _ _ Hcs Hz) as (z' & ? & Hz' & _). exists z'. split; [done|congruence].
  - intros p y' (_ & y & Hy & _ & _ & _ & ->)%close_inv. pose proof (fo_children_nodup _ Hok _ _ Hy).
    case_decide; [|done]. eapply sublist_NoDup; [done|apply unlink_sublist].
  - intros u s' cu. rewrite close_task. intros Hu.
    assert (exists cu', f_tasks f !! u = Some (Some s', cu')) as [cu' Hu'] by (case_decide; naive_solver).
    destruct (fo_member _ Hok _ _ _ Hu') as (y & Hy & Hin).
    assert (Hne : s' <> s) by (intros ->; rewrite Hs in Hy; injection Hy as <-; rewrite Hmx in Hin; by apply elem_of_nil in Hin).
    destruct (close_old _ _ Hne Hy) as (y' & ? & _ & _ & Hm & _). exists y'. by rewrite Hm.
  - intros s' y' u (_ & y & Hy & _ & _ & -> & _)%close_inv Hin. destruct (fo_members _ Hok _ _ _ Hy Hin) as [cu Hu].
    rewrite close_task. case_decide; naive_solver.
  - intros s' y' (_ & y & Hy & _ & _ & -> & _)%close_inv. by eapply fo_members_nodup.
  - intros u ou cu. rewrite close_task. case_decide as E.
    + intros [= <- <-]. subst u. destruct close_path as (l & Hl & Hnin & Hown). exists l. split; [by apply opened_close|].
      intros s' y' (Hne & y & Hy & _ & -> & _)%close_inv Ho. by destruct (Hown _ _ Hy Ho).
    + intros Hu. destruct (fo_open _ Hok _ _ _ Hu) as (l & Hl & Hin). exists l. split.
      * apply opened_close; [|done]. intros Hsl. apply (opened_parent _ _ _ _ _ _ Hl) in Hsl as (z & Hz & ?). congruence.
      * intros s' y' (_ & y & Hy & _ & -> & _)%close_inv. by apply Hin.
Qed.
End Close.

(** The empty forest, with one task. *)
Lemma forest_init_ok t : forest_ok (Forest {[ t := (None, None) ]} ∅).
Proof.
  constructor; simpl; try (intros *; rewrite lookup_empty; done).
  - intros u s c [_ ?]%lookup_singleton_Some. done.
  - intros u o c [_ [= <- <-]]%lookup_singleton_Some. exists []. split; [constructor|]. intros s y. by rewrite lookup_empty.
Qed.
