(* ===== verification/Scopes.v ===== *)
(** Structured scopes, cancellation and the blocking verbs of
    [src/src/rt/rt_task.c].

    A verb that can block is cut where the code calls [__madc_task_park] or
    switches contexts: what it does up to that point is one function to
    [half], and what it does when control comes back is the function of the
    [frame] it left.  A loop whose turns may block goes from frame to frame
    ([Goes]).  [Machine] runs the halves of all tasks as one machine. *)
From stdpp Require Import gmap sorting.
From S2P Require Import Prelude Tasks Forest.
#[local] Open Scope Z_scope.

(** A thrown C string: THE cancellation literal, which is told apart by its
    address, or another text. *)
Inductive exn := Cancelled | Thrown (text : bytes).

(** How a stretch of a verb ends: it returns, throws, goes on at another
    place, calls [__madc_task_park], calls [task_switch], picks the next task
    from [__madc_task_join_all], ends the task, or follows a dangling
    pointer.  [Aborts] is [abort()]. *)
Inductive half (S F R : Type) :=
| Ret (r : R) (w : S)
| Throw (e : exn) (w : S)
| Goes (f : F) (w : S)
| Parks (f : F) (w : S)
| Switches (f : F) (next : tid) (w : S)
| JoinWaits (f : F) (w : S)
| Exits (w : S)
| Aborts
| Faults.
Arguments Ret {S F R}.
Arguments Throw {S F R}.
Arguments Goes {S F R}.
Arguments Parks {S F R}.
Arguments Switches {S F R}.
Arguments JoinWaits {S F R}.
Arguments Exits {S F R}.
Arguments Aborts {S F R}.
Arguments Faults {S F R}.

(** Where a context of [rt_task.c] can stand when it is not in user code: the
    first entry, after [task_switch] in [__madc_yield], after the park of
    [__madc_task_sleep_ms], the loop
    of [__madc_task_join_all] and its return from the switch, the join loop of
    [scope_end] (of that scope), the loop of [__madc_scope_block_leave] (of
    that block) and its join, and the exit's loop and its join. *)
Inductive rt_frame :=
| FStart
| FYield
| FSleep
| FJoinLoop
| FJoinBack
| FEndJoin (s : sid)
| FLeaveLoop (block : sid)
| FLeaveJoin (block s : sid)
| FExitLoop
| FExitJoin (s : sid).

Definition set_members l x := Scope (parent x) (opener x) l (children x) (live x) (s_cancel_req x) (joining x) (err x).
Definition set_children l x := Scope (parent x) (opener x) (members x) l (live x) (s_cancel_req x) (joining x) (err x).
Definition set_live n x := Scope (parent x) (opener x) (members x) (children x) n (s_cancel_req x) (joining x) (err x).
Definition set_s_cancel_req b x := Scope (parent x) (opener x) (members x) (children x) (live x) b (joining x) (err x).
Definition set_joining b x := Scope (parent x) (opener x) (members x) (children x) (live x) (s_cancel_req x) b (err x).
Definition set_err e x := Scope (parent x) (opener x) (members x) (children x) (live x) (s_cancel_req x) (joining x) e.

(** [s->f = ...]. *)
Definition upd_scope (f : madc_scope -> madc_scope) (s : sid) (w : rt) : rt :=
  with_scopes (alter f s (scopes w)) w.

Definition cur_of (w : rt) (t : tid) : option sid := match tasks w !! t with Some x => cur x | None => None end.
Definition scope_of (w : rt) (t : tid) : option sid := match tasks w !! t with Some x => t_scope x | None => None end.

(** ** Members *)

Definition scope_attach (s : sid) (t : tid) (w : rt) : rt :=
  let w := upd_task (fun x => set_cur (Some s) (set_t_scope (Some s) x)) t w in
  let w := upd_scope (fun x => set_live (live x + 1) (set_members (t :: members x) x)) s w in
  match scopes w !! s with
  | Some x => if s_cancel_req x then upd_task (set_cancel_req true) t w else w
  | None => w
  end.

Definition scope_detach (t : tid) (w : rt) : rt :=
  match scope_of w t with
  | None => w
  | Some s =>
      let w := upd_scope (fun x => set_members (unlink t (members x)) x) s w in
      let w := upd_task (set_t_scope None) t w in
      let w := upd_scope (fun x => set_live (live x - 1) x) s w in
      match scopes w !! s with
      | Some x => if (live x =? 0) && joining x then task_enqueue (opener x) w else w
      | None => w
      end
  end.

(** ** Cancellation *)

(** [timer_unlink(t); task_enqueue(t);] unless [t] is running. *)
Definition wake_other (t : tid) (w : rt) : rt :=
  if decide (g_current w = Some t) then w else task_enqueue t (timer_unlink t w).

Definition task_cancel_request (t : tid) (w : rt) : rt :=
  wake_other t (upd_task (set_cancel_req true) t w).

(** The recursion of [scope_cancel_walk]; a child scope is younger than its
    parent, so [next_sid - s] levels are enough. *)
Fixpoint cancel_walk (fuel : nat) (s : sid) (w : rt) : rt :=
  match fuel with
  | O => w
  | S n =>
      let w := upd_scope (set_s_cancel_req true) s w in
      match scopes w !! s with
      | None => w
      | Some x =>
          let w := fold_left (fun w t => task_cancel_request t w) (members x) w in
          let w := wake_other (opener x) w in
          fold_left (fun w c => cancel_walk n c w) (children x) w
      end
  end.

Definition scope_cancel_walk (s : sid) (w : rt) : rt := cancel_walk (next_sid w - s) s w.

(** The walk of the open-scope chain in [__madc_task_cancelled]; a parent is
    older than its child. *)
Fixpoint chain_cancelled (fuel : nat) (s : option sid) (w : rt) : bool :=
  match fuel, s with
  | S n, Some s =>
      match scopes w !! s with
      | Some x => s_cancel_req x || chain_cancelled n (parent x) w
      | None => false
      end
  | _, _ => false
  end.

(** Whether [t] is cancelled: its own flag, or a scope of its chain. *)
Definition cancelled_t (w : rt) (t : tid) : bool :=
  match tasks w !! t with
  | Some x => cancel_req x || chain_cancelled (next_sid w) (cur x) w
  | None => false
  end.

Definition task_cancelled (w : rt) : bool :=
  match g_current w with Some t => cancelled_t w t | None => false end.

(** ** The surface *)

Definition zero_task : madc_task := Task 0 false false None None [].

Definition task_runtime_init (w : rt) : rt :=
  match g_current w with
  | Some _ => w
  | None => with_current (Some main_task) (with_tasks (<[main_task := zero_task]> (tasks w)) w)
  end.

(** [__madc_task_current], as the number of the running task. *)
Definition self (w : rt) : tid := match g_current w with Some t => t | None => main_task end.

(** [__madc_go]: the new task. *)
Definition madc_go (w : rt) : tid * rt :=
  let w := task_runtime_init w in
  let t := next_tid w in
  let w := with_next_tid (S t) (with_tasks (<[t := zero_task]> (tasks w)) w) in
  let w := with_live (g_live w + 1) w in
  let w := match cur_of w (self w) with Some s => scope_attach s t w | None => w end in
  (t, task_enqueue t w).

(** [__madc_scope_begin]. *)
Definition madc_scope_begin (w : rt) : sid * rt :=
  let w := task_runtime_init w in
  let s := next_sid w in
  let o := self w in
  let p := cur_of w o in
  let w := with_next_sid (S s) (with_scopes (<[s := Scope p o [] [] 0 false false None]> (scopes w)) w) in
  let w := match p with
           | Some p => upd_scope (fun x => set_children (s :: children x) x) p w
           | None => w
           end in
  (s, upd_task (set_cur (Some s)) o w).

(** The two statements of [scope_join_and_unlink] after its loop, and
    [free(s)]. *)
Definition scope_unlink (s : sid) (w : rt) : rt :=
  let w := upd_scope (set_joining false) s w in
  match scopes w !! s with
  | Some x => match parent x with
              | Some p => upd_scope (fun y => set_children (unlink s (children y)) y) p w
              | None => w
              end
  | None => w
  end.
Definition scope_free (s : sid) (w : rt) : rt := with_scopes (delete s (scopes w)) w.

Abbreviation rhalf := (half rt rt_frame unit).

Section Verbs.
Context `{Os, IoLayer}.

Definition madc_yield (w : rt) : rhalf :=
  match g_current w with
  | None => Ret tt w
  | Some self =>
      let w := task_fire_due w in
      match task_dequeue w with
      | (None, w) => Ret tt w
      | (Some next, w) => Switches FYield next (task_enqueue self w)
      end
  end.

Definition task_join_all (w : rt) : rhalf :=
  if decide (g_current w = Some main_task) then Goes FJoinLoop w else Ret tt w.

Definition join_loop (w : rt) : rhalf :=
  if 0 <? g_live w then JoinWaits FJoinBack w else Ret tt w.

Definition task_sleep_ms (ms : Z) (w : rt) : rhalf :=
  let w := task_runtime_init w in
  if task_cancelled w then Throw Cancelled w
  else let ms := if ms <? 0 then 0 else ms in
       let '(now, w) := time_now_ms w in
       let w := upd_task (set_deadline (i64 (now + ms))) (self w) w in
       Parks FSleep (timer_insert (self w) w).

Definition sleep_resume (w : rt) : rhalf :=
  if task_cancelled w then Throw Cancelled (timer_unlink (self w) w) else Ret tt w.
End Verbs.

(** [__madc_scope_end_check]. *)
Definition scope_end_check (s : sid) (w : rt) : option Z :=
  match scopes w !! s with
  | None => None
  | Some x => Some (if decide (g_current w = Some (opener x))
                    then if decide (cur_of w (self w) = Some s) then 0 else 2
                    else 1)
  end.

Definition scope_cancel (s : sid) (w : rt) : rhalf :=
  match scopes w !! s with
  | None => Faults
  | Some _ => Ret tt (scope_cancel_walk s w)
  end.

Definition scope_end (s : sid) (w : rt) : rhalf :=
  match scope_end_check s w with
  | None => Faults
  | Some 1 => Throw (Thrown (B "scope_end: only the opening task may end a scope")) w
  | Some 2 => Throw (Thrown (B "scope_end: not the innermost open scope")) w
  | Some _ => Goes (FEndJoin s) (upd_scope (set_joining true) s w)
  end.

(** [strncpy] into the 192 bytes of [scope_err], which keep their NUL. *)
Definition MADC_SCOPE_ERR_BYTES : nat := 192.

Definition end_join (s : sid) (w : rt) : rhalf :=
  match scopes w !! s with
  | None => Faults
  | Some x =>
      if 0 <? live x then Parks (FEndJoin s) w
      else
        let w := scope_unlink s w in
        let w := upd_task (set_cur (parent x)) (self w) w in
        let w := match err x with
                 | Some e => upd_task (set_scope_err (take (MADC_SCOPE_ERR_BYTES - 1) e)) (self w) w
                 | None => w
                 end in
        let w := scope_free s w in
        match err x with
        | Some e => Throw (Thrown (take (MADC_SCOPE_ERR_BYTES - 1) e)) w
        | None => if s_cancel_req x then Throw Cancelled w else Ret tt w
        end
  end.

(** [scope_abandon], up to its join and after it. *)
Definition scope_abandon (s : sid) (f : rt_frame) (w : rt) : rhalf :=
  match scopes w !! s with
  | None => Faults
  | Some _ => Goes f (upd_scope (set_joining true) s (scope_cancel_walk s w))
  end.
Definition abandon_join (s : sid) (again after : rt_frame) (w : rt) : rhalf :=
  match scopes w !! s with
  | None => Faults
  | Some x =>
      if 0 <? live x then Parks again w
      else Goes after (scope_free s (upd_task (set_cur (parent x)) (self w) (scope_unlink s w)))
  end.

(** ** The [scope { ... }] block: the slot holds the scope, or NULL once the
    block's end has emptied it. *)

Definition scope_block_enter (w : rt) : sid * rt := madc_scope_begin w.

Definition scope_block_leave (slot : option sid) (w : rt) : rhalf :=
  match slot, g_current w with
  | Some s, Some _ => Goes (FLeaveLoop s) w
  | _, _ => Ret tt w
  end.

Definition leave_loop (block : sid) (w : rt) : rhalf :=
  match cur_of w (self w) with
  | None => Ret tt w
  | Some c => scope_abandon c (FLeaveJoin block c) w
  end.

(** After the abandoned scope: the loop goes on, or the block was the last. *)
Definition leave_join (block s : sid) (w : rt) : rhalf :=
  match abandon_join s (FLeaveJoin block s) (FLeaveLoop block) w with
  | Goes f w => if decide (s = block) then Ret tt w else Goes f w
  | h => h
  end.

Definition scope_block_exit (slot : option sid) (w : rt) : rhalf :=
  match slot with
  | None => Ret tt w
  | Some s =>
      match scope_end_check s w with
      | None => Faults
      | Some 1 => Throw (Thrown (B "scope block: not the opening task")) w
      | Some 2 => Throw (Thrown (B "scope block: an inner scope is still open")) w
      | Some _ => scope_end s w
      end
  end.

(** ** The end of a task: [task_run_body] from the return of the body, or from
    its catch-all frame, and the trampoline's tail.  A root task has no
    catch-all: its uncaught throw aborts. *)

Definition task_body_done (caught : option exn) (w : rt) : rhalf :=
  match scope_of w (self w), caught with
  | Some s, Some e =>
      match e with
      | Cancelled => Goes FExitLoop w
      | Thrown text =>
          let w := upd_scope (fun x => match err x with
                                       | None => set_err (Some (take (MADC_SCOPE_ERR_BYTES - 1) text)) x
                                       | Some _ => x
                                       end) s w in
          Goes FExitLoop (scope_cancel_walk s w)
      end
  | None, Some _ => Aborts
  | _, None => Goes FExitLoop w
  end.

Definition exit_loop (w : rt) : rhalf :=
  if decide (cur_of w (self w) = scope_of w (self w))
  then let w := scope_detach (self w) w in Exits (with_live (g_live w - 1) w)
  else match cur_of w (self w) with
       | Some c => scope_abandon c (FExitJoin c) w
       | None => Faults
       end.

(** What a context does when control comes back to it at [f]. *)
Definition rt_resume `{Os} (f : rt_frame) (w : rt) : rhalf :=
  match f with
  | FStart | FYield => Ret tt w
  | FSleep => sleep_resume w
  | FJoinLoop => join_loop w
  | FJoinBack => Goes FJoinLoop (with_main_waiting false w)
  | FEndJoin s => end_join s w
  | FLeaveLoop b => leave_loop b w
  | FLeaveJoin b s => leave_join b s w
  | FExitLoop => exit_loop w
  | FExitJoin s => abandon_join s (FExitJoin s) FExitLoop w
  end.

(** * Refinement of the forest *)

Definition node_of (x : madc_scope) : node := Node (parent x) (opener x) (members x) (children x).
Definition place_of (x : madc_task) : option sid * option sid := (t_scope x, cur x).
Definition forest_of (w : rt) : forest := Forest (place_of <$> tasks w) (node_of <$> scopes w).

(** The well-formed run-time states. *)
Record rt_ok (w : rt) : Prop := {
  ro_sched : sched_ok w;
  ro_forest : forest_ok (forest_of w);
  ro_sid : forall s x, scopes w !! s = Some x -> (s < next_sid w)%nat;
  ro_tid : forall t x, tasks w !! t = Some x -> (t < next_tid w)%nat;
  ro_live : forall s x, scopes w !! s = Some x -> live x = Z.of_nat (length (members x));
}.

(** What [rt_ok] depends on besides the scheduler. *)
Definition stamp (w : rt) := (forest_of w, live <$> scopes w, next_sid w, next_tid w).

Lemma fmap_alter_same {A B} (f : A -> B) (g : A -> A) k (m : gmap nat A) :
  (forall x, f (g x) = f x) -> f <$> alter g k m = f <$> m.
Proof.
  intros H. apply map_eq. intros i. rewrite !lookup_fmap. destruct (decide (i = k)) as [->|Hne].
  - rewrite lookup_alter_eq. by destruct (m !! k); simpl; rewrite ?H.
  - by rewrite lookup_alter_ne.
Qed.

Lemma rt_ok_stamp w w' : stamp w' = stamp w -> sched_ok w' -> rt_ok w -> rt_ok w'.
Proof.
  unfold stamp, forest_of. intros E Hs [_ Hf H1 H2 H3].
  assert (E1 : place_of <$> tasks w' = place_of <$> tasks w) by congruence.
  assert (E2 : node_of <$> scopes w' = node_of <$> scopes w) by congruence.
  assert (E3 : live <$> scopes w' = live <$> scopes w) by congruence.
  assert (E4 : next_sid w' = next_sid w) by congruence.
  assert (E5 : next_tid w' = next_tid w) by congruence. clear E.
  assert (Hsc : forall s x, scopes w' !! s = Some x -> exists y, scopes w !! s = Some y /\ node_of x = node_of y /\ live x = live y).
  { intros s x Hx. apply (f_equal (fun m => m !! s)) in E2. apply (f_equal (fun m => m !! s)) in E3.
    rewrite !lookup_fmap, Hx in E2. rewrite !lookup_fmap, Hx in E3.
    destruct (scopes w !! s) as [y|]; simpl in *; [|done]. exists y. split_and!; congruence. }
  constructor; [done| | | |].
  - unfold forest_of. by rewrite E1, E2.
  - intros s x (y & Hy & _)%Hsc. rewrite E4. by eapply H1.
  - intros t x Hx. apply (f_equal (fun m => m !! t)) in E1. rewrite !lookup_fmap, Hx in E1.
    destruct (tasks w !! t) eqn:E; [|done]. rewrite E5. by eapply H2.
  - intros s x (y & Hy & Hn & ->)%Hsc. rewrite (H3 _ _ Hy). by replace (members x) with (members y) by (unfold node_of in Hn; congruence).
Qed.

(** Steps that change no scope, no task's place. *)
Lemma upd_task_stamp g t w : (forall x, place_of (g x) = place_of x) -> stamp (upd_task g t w) = stamp w.
Proof. intros H. unfold stamp, forest_of. simpl. by rewrite fmap_alter_same. Qed.
Lemma upd_scope_stamp g s w :
  (forall x, node_of (g x) = node_of x /\ live (g x) = live x) -> stamp (upd_scope g s w) = stamp w.
Proof. intros H. unfold stamp, forest_of. simpl. rewrite !fmap_alter_same; [done|intros; apply H..]. Qed.
Lemma core_stamp w w' :
  core w' = core w -> scopes w' = scopes w -> next_sid w' = next_sid w -> next_tid w' = next_tid w -> stamp w' = stamp w.
Proof.
  intros Hc Hs E1 E2. unfold stamp, forest_of. rewrite Hs, E1, E2.
  assert (E : forall w0, place_of <$> tasks w0 = place_of <$> core w0).
  { intros w0. unfold core. by rewrite <- map_fmap_compose. }
  by rewrite (E w'), (E w), Hc.
Qed.
Lemma moved_stamp w w' : moved w w' -> stamp w' = stamp w.
Proof.
  intros H. pose proof (moved_core _ _ H) as Hc. destruct H as (m & r & l & c & -> & _).
  by apply core_stamp.
Qed.

Lemma sched_upd_task g t w :
  (forall x, queued (g x) = queued x) -> (t ∉ g_timers w \/ forall x, deadline (g x) = deadline x) ->
  sched_ok w -> sched_ok (upd_task g t w).
Proof.
  intros Hq Hd [H1 H2 H3 H4].
  assert (Hdl : forall u, u ∈ g_timers w -> deadline_of (upd_task g t w) u = deadline_of w u).
  { intros u Hu. unfold deadline_of, upd_task. simpl. destruct (decide (u = t)) as [->|Hne]; [|by rewrite lookup_alter_ne].
    rewrite lookup_alter_eq. destruct (tasks w !! t); [|done]. simpl. destruct Hd as [Hd|Hd]; [done|apply Hd]. }
  constructor; simpl; [done| | |].
  - intros u [x Hx]%H2. rewrite core_lookup in *. simpl. destruct (decide (u = t)) as [->|Hne]; [|by rewrite lookup_alter_ne, Hx].
    rewrite lookup_alter_eq. destruct (tasks w !! t); done.
  - intros u x. destruct (decide (u = t)) as [->|Hne]; [|rewrite lookup_alter_ne by done; apply H3].
    rewrite lookup_alter_eq. intros (y & Hy & ->)%fmap_Some. rewrite Hq. by apply H3.
  - replace (deadline_of (upd_task g t w) <$> g_timers w) with (deadline_of w <$> g_timers w); [done|].
    apply list_fmap_ext. intros i u Hu. symmetry. apply Hdl. by eapply list_elem_of_lookup_2.
Qed.
Lemma sched_upd_scope g s w : sched_ok w -> sched_ok (upd_scope g s w).
Proof. intros [? ? ? ?]. by constructor. Qed.

(** * Cancellation *)

(** The walk up the chain finds a cancelled scope exactly when the chain has one. *)
Lemma chain_exists w o :
  rt_ok w -> (forall s, o = Some s -> is_Some (scopes w !! s)) -> exists l, chain (f_nodes (forest_of w)) o l.
Proof.
  intros Hok. destruct o as [s|]; [|exists []; constructor]. induction (lt_wf s) as [s _ IH]. intros Hs.
  destruct (Hs s eq_refl) as [x Hx]. assert (Hn : f_nodes (forest_of w) !! s = Some (node_of x)) by (simpl; by rewrite lookup_fmap, Hx).
  destruct (parent x) as [p|] eqn:Hp.
  - destruct (fo_parent _ (ro_forest _ Hok) _ _ p Hn Hp) as (Hlt & y & Hy & _).
    destruct (IH p Hlt) as [l Hl].
    { intros ? [= <-]. simpl in Hy. rewrite lookup_fmap in Hy. by apply fmap_Some in Hy as (? & -> & _). }
    exists (s :: l). econstructor; [exact Hn|]. simpl. by rewrite Hp.
  - exists [s]. econstructor; [exact Hn|]. simpl. rewrite Hp. constructor.
Qed.

Definition flagged (w : rt) (s : sid) : bool :=
  match scopes w !! s with Some x => s_cancel_req x | None => false end.

Lemma chain_cancelled_ext w w' : scopes w' = scopes w -> forall fuel o, chain_cancelled fuel o w' = chain_cancelled fuel o w.
Proof.
  intros E fuel. induction fuel as [|n IH]; intros o; [done|]. simpl. rewrite E. destruct o as [s|]; [|done].
  destruct (scopes w !! s); [|done]. by rewrite IH.
Qed.

Lemma chain_cancelled_spec w o l fuel :
  rt_ok w -> chain (f_nodes (forest_of w)) o l -> (forall s, o = Some s -> (s < fuel)%nat) ->
  chain_cancelled fuel o w = existsb (flagged w) l.
Proof.
  intros Hok H. revert fuel. induction H as [|s x l Hs Hc IH]; intros fuel Hf; [by destruct fuel|].
  pose proof (Hf s eq_refl). destruct fuel as [|fuel]; [lia|]. simpl in *. rewrite lookup_fmap in Hs.
  apply fmap_Some in Hs as (y & Hy & ->). unfold flagged at 1. rewrite Hy. f_equal. apply IH. intros p Hp.
  assert (Hn : f_nodes (forest_of w) !! s = Some (node_of y)) by (simpl; by rewrite lookup_fmap, Hy).
  destruct (fo_parent _ (ro_forest _ Hok) _ _ p Hn Hp). lia.
Qed.

Lemma cancelled_t_spec w t x l :
  rt_ok w -> tasks w !! t = Some x -> chain (f_nodes (forest_of w)) (cur x) l ->
  cancelled_t w t = cancel_req x || existsb (flagged w) l.
Proof.
  intros Hok Ht Hl. unfold cancelled_t. rewrite Ht. f_equal. apply (chain_cancelled_spec _ _ _ _ Hok Hl).
  intros s Hs. rewrite Hs in Hl. inversion Hl as [|s0 y l0 Hn _]; subst. simpl in Hn. rewrite lookup_fmap in Hn.
  apply fmap_Some in Hn as (z & Hz & _). by eapply ro_sid.
Qed.

(** [b] is one of [a]'s child scopes. *)
Definition child_of (w : rt) (a b : sid) : Prop := exists n, f_nodes (forest_of w) !! a = Some n /\ b ∈ n_children n.
Definition member_of (w : rt) (s : sid) (t : tid) : Prop := exists n, f_nodes (forest_of w) !! s = Some n /\ t ∈ n_members n.
Definition opener_of (w : rt) (s : sid) (t : tid) : Prop := exists n, f_nodes (forest_of w) !! s = Some n /\ n_opener n = t.

(** What a cancel walk over the scopes [D] is made of: it flags one of them,
    flags a member of one, and wakes a parked member or opener that is now
    cancelled. *)
Inductive cancel_step (D : sid -> Prop) (w : rt) : rt -> Prop :=
| cs_scope s : D s -> is_Some (scopes w !! s) -> cancel_step D w (upd_scope (set_s_cancel_req true) s w)
| cs_task s t : D s -> member_of w s t -> is_Some (tasks w !! t) -> cancel_step D w (upd_task (set_cancel_req true) t w)
| cs_wake s t : D s -> member_of w s t \/ opener_of w s t ->
    g_current w <> Some t -> is_Some (tasks w !! t) -> cancelled_t w t = true ->
    cancel_step D w (task_enqueue t (timer_unlink t w)).

Section Steps.
Context (D : sid -> Prop).
Abbreviation cancel_step := (cancel_step D).

Lemma cancel_step_stamp w w' : cancel_step w w' -> stamp w' = stamp w.
Proof.
  destruct 1; [by apply upd_scope_stamp|by apply upd_task_stamp|].
  rewrite (moved_stamp _ _ (task_enqueue_moved _ _)). apply moved_stamp, timer_unlink_moved.
Qed.

Lemma cancel_step_sched w w' : sched_ok w -> cancel_step w w' -> sched_ok w'.
Proof.
  intros Hok [s _ _|s t _ _ _|s t _ _ _ Ha _]; [by apply sched_upd_scope|by apply sched_upd_task; auto|].
  destruct (timer_unlink_ok t w Hok) as [H1 H2]. apply task_enqueue_ok; [done| |done].
  rewrite core_lookup. by apply fmap_is_Some.
Qed.

Lemma cancel_step_ok w w' : rt_ok w -> cancel_step w w' -> rt_ok w'.
Proof.
  intros Hok Hc. eapply rt_ok_stamp; [by eapply cancel_step_stamp| |done].
  eapply cancel_step_sched; [apply Hok|done].
Qed.

Lemma cancel_steps_ok w w' : rt_ok w -> rtc cancel_step w w' -> rt_ok w'.
Proof. intros Hok H. induction H; [done|]. eauto using cancel_step_ok. Qed.
Lemma cancel_steps_stamp w w' : rtc cancel_step w w' -> stamp w' = stamp w.
Proof. induction 1; [done|]. etransitivity; [done|]. by apply cancel_step_stamp. Qed.

(** Flags and wake-ups are never undone by a walk, and nobody else's are touched. *)
Definition task_flag (w : rt) (t : tid) : bool := match tasks w !! t with Some x => cancel_req x | None => false end.
Lemma moved_lookup w w' t : moved w w' -> forall x, tasks w !! t = Some x ->
  exists x', tasks w' !! t = Some x' /\ set_queued false x' = set_queued false x.
Proof.
  intros H%moved_core x Hx. apply (f_equal (fun m => m !! t)) in H. rewrite !core_lookup, Hx in H.
  destruct (tasks w' !! t) as [x'|]; [|done]. exists x'. split; [done|]. simpl in H. congruence.
Qed.
Lemma moved_alloc w w' t : moved w w' -> is_Some (tasks w !! t) -> is_Some (tasks w' !! t).
Proof. intros Hm [x Hx]. destruct (moved_lookup _ _ _ Hm _ Hx) as (x' & -> & _). eauto. Qed.

Lemma enqueue_ready_mono t w u : u ∈ g_ready w -> u ∈ g_ready (task_enqueue t w).
Proof.
  intros Hu. unfold task_enqueue. destruct (tasks w !! t) as [x|]; [|done]. destruct (queued x); [done|]. simpl.
  apply elem_of_app. by left.
Qed.
Lemma enqueue_in_ready t w : sched_ok w -> is_Some (tasks w !! t) -> t ∈ g_ready (task_enqueue t w).
Proof.
  intros Hok Ha. rewrite task_enqueue_ready; [|done|by rewrite core_lookup, fmap_is_Some]. case_decide; [done|]. apply elem_of_app. right. by apply list_elem_of_singleton.
Qed.

Lemma moved_flags w w' : moved w w' -> scopes w' = scopes w /\ (forall t, task_flag w' t = task_flag w t)
  /\ g_current w' = g_current w /\ next_sid w' = next_sid w /\ g_live w' = g_live w /\ g_reap w' = g_reap w
  /\ g_main_waiting w' = g_main_waiting w /\ next_tid w' = next_tid w /\ g_switch_count w' = g_switch_count w.
Proof.
  intros H. pose proof H as (m & r & l & c & -> & Hm & _). split_and!; try done.
  intros t. unfold task_flag. simpl. apply (f_equal (fun m => m !! t)) in Hm. rewrite core_lookup, lookup_fmap in Hm.
  destruct (m !! t), (tasks w !! t); simpl in Hm; try done. injection Hm. done.
Qed.
End Steps.

(** ** A walk only adds flags and wake-ups *)

Definition awake (w : rt) (t : tid) : Prop := g_current w = Some t \/ t ∈ g_ready w.

Record grows (w w' : rt) : Prop := {
  gr_stamp : stamp w' = stamp w;
  gr_current : g_current w' = g_current w;
  gr_scope : forall s, flagged w s = true -> flagged w' s = true;
  gr_task : forall t, task_flag w t = true -> task_flag w' t = true;
  gr_ready : forall t, t ∈ g_ready w -> t ∈ g_ready w';
}.

#[export] Instance grows_preorder : PreOrder grows.
Proof. split; [by constructor|]. intros ? ? ? [] []. constructor; try congruence; eauto. Qed.

Lemma flagged_upd w g s s' :
  (forall x, s_cancel_req (g x) = true \/ s_cancel_req (g x) = s_cancel_req x) ->
  flagged w s' = true -> flagged (upd_scope g s w) s' = true.
Proof.
  intros Hg. unfold flagged. simpl. destruct (decide (s' = s)) as [->|Hne]; [|by rewrite lookup_alter_ne].
  rewrite lookup_alter_eq. destruct (scopes w !! s) as [x|]; [|done]. simpl. intros Hx. destruct (Hg x) as [->| ->]; done.
Qed.
Lemma flag_upd w g t t' :
  (forall x, cancel_req (g x) = true \/ cancel_req (g x) = cancel_req x) ->
  task_flag w t' = true -> task_flag (upd_task g t w) t' = true.
Proof.
  intros Hg. unfold task_flag. simpl. destruct (decide (t' = t)) as [->|Hne]; [|by rewrite lookup_alter_ne].
  rewrite lookup_alter_eq. destruct (tasks w !! t) as [x|]; [|done]. simpl. intros Hx. destruct (Hg x) as [->| ->]; done.
Qed.

Lemma cancel_step_grows D w w' : cancel_step D w w' -> grows w w'.
Proof.
  intros H. pose proof (cancel_step_stamp _ _ _ H) as Hst. destruct H as [s _ _|s t _ _ _|s t _ _ Hne Ha _].
  - constructor; try done. intros. apply flagged_upd; [by left|done].
  - constructor; try done. intros. apply flag_upd; [by left|done].
  - assert (Hm : moved w (task_enqueue t (timer_unlink t w)))
      by (transitivity (timer_unlink t w); [apply timer_unlink_moved|apply task_enqueue_moved]).
    destruct (moved_flags _ _ Hm) as (Hs & Hf & Hc & _). constructor; [done|done| | |].
    + intros s0. unfold flagged. by rewrite Hs.
    + intros t0. by rewrite Hf.
    + intros t0 Hin. by apply enqueue_ready_mono.
Qed.
Lemma cancel_steps_grow D w w' : rtc (cancel_step D) w w' -> grows w w'.
Proof. induction 1; [done|]. etransitivity; [by eapply cancel_step_grows|done]. Qed.

(** Only what belongs to [D] is flagged. *)
Lemma cancel_step_only D w w' : cancel_step D w w' ->
  (forall c, flagged w' c = true -> flagged w c = true \/ D c) /\
  (forall t, task_flag w' t = true -> task_flag w t = true \/ exists s, D s /\ member_of w s t).
Proof.
  destruct 1 as [s HD _|s t HD Hmem _|s t _ _ _ _ _].
  - split; [|by left]. intros c. unfold flagged. simpl. destruct (decide (c = s)) as [->|Hne]; [by right|].
    rewrite lookup_alter_ne by done. by left.
  - split; [by left|]. intros u. unfold task_flag. simpl. destruct (decide (u = t)) as [->|Hne]; [by right; eauto|].
    rewrite lookup_alter_ne by done. by left.
  - assert (Hm : moved w (task_enqueue t (timer_unlink t w)))
      by (transitivity (timer_unlink t w); [apply timer_unlink_moved|apply task_enqueue_moved]).
    destruct (moved_flags _ _ Hm) as (Hs & Hf & _). split; [|intros u; rewrite Hf; by left].
    intros c. unfold flagged. rewrite Hs. by left.
Qed.

Lemma stamp_forest w w' : stamp w' = stamp w -> forest_of w' = forest_of w.
Proof. unfold stamp. congruence. Qed.

Lemma cancel_steps_only D w w' : rtc (cancel_step D) w w' ->
  (forall c, flagged w' c = true -> flagged w c = true \/ D c) /\
  (forall t, task_flag w' t = true -> task_flag w t = true \/ exists s, D s /\ member_of w s t).
Proof.
  induction 1 as [|w1 w2 w3 H H' [I1 I2]]; [by split; left|].
  destruct (cancel_step_only _ _ _ H) as [J1 J2]. split.
  - intros c [Hc|Hc]%I1; [by apply J1|by right].
  - intros t [Hc|(s & Hs & Hm)]%I2; [by apply J2|right]. exists s. split; [done|]. unfold member_of in *.
    by rewrite <- (stamp_forest _ _ (cancel_step_stamp _ _ _ H)).
Qed.

Lemma lookup_node w s x : scopes w !! s = Some x -> f_nodes (forest_of w) !! s = Some (node_of x).
Proof. intros H. simpl. by rewrite lookup_fmap, H. Qed.
Lemma node_lookup w s n : f_nodes (forest_of w) !! s = Some n -> exists x, scopes w !! s = Some x /\ n = node_of x.
Proof. simpl. rewrite lookup_fmap. intros (x & Hx & ->)%fmap_Some. eauto. Qed.
Lemma lookup_place w t x : tasks w !! t = Some x -> f_tasks (forest_of w) !! t = Some (t_scope x, cur x).
Proof. intros H. simpl. by rewrite lookup_fmap, H. Qed.
Lemma place_lookup w t p : f_tasks (forest_of w) !! t = Some p -> exists x, tasks w !! t = Some x /\ p = (t_scope x, cur x).
Proof. simpl. rewrite lookup_fmap. intros (x & Hx & ->)%fmap_Some. eauto. Qed.

Lemma member_alloc w s t : rt_ok w -> member_of w s t -> is_Some (tasks w !! t).
Proof.
  intros Hok (n & Hn & Hin). destruct (fo_members _ (ro_forest _ Hok) _ _ _ Hn Hin) as [c Hc].
  apply place_lookup in Hc as (x & -> & _). eauto.
Qed.
Lemma opener_alloc w s t : rt_ok w -> opener_of w s t -> is_Some (tasks w !! t).
Proof.
  intros Hok (n & Hn & <-). destruct (fo_opener _ (ro_forest _ Hok) _ _ Hn) as [p Hp].
  apply place_lookup in Hp as (x & -> & _). eauto.
Qed.

(** The opener of a flagged scope is cancelled: the scope is on its chain. *)
Lemma opened_chain m t o l o' l' : opened m t o l o' -> chain m o l' -> forall s, s ∈ l -> s ∈ l'.
Proof.
  intros H. revert l'. induction H as [|s x l o Hs Ho H IH]; intros l' Hc s' Hin; [set_solver|].
  inversion Hc as [|s0 x0 l0 Hs0 Hc0]; subst. rewrite Hs in Hs0. injection Hs0 as <-. set_solver.
Qed.
Lemma cur_exists w t x s : rt_ok w -> tasks w !! t = Some x -> cur x = Some s -> is_Some (scopes w !! s).
Proof.
  intros Hok Ht Hc. apply lookup_place in Ht. rewrite Hc in Ht.
  destruct (cur_alloc _ (ro_forest _ Hok) _ _ _ Ht) as [n Hn]. apply node_lookup in Hn as (y & -> & _). eauto.
Qed.
Lemma task_chain w t x : rt_ok w -> tasks w !! t = Some x -> exists l, chain (f_nodes (forest_of w)) (cur x) l.
Proof. intros Hok Ht. apply chain_exists; [done|]. intros s Hs. by eapply cur_exists. Qed.

Lemma opener_cancelled w s t : rt_ok w -> opener_of w s t -> flagged w s = true -> cancelled_t w t = true.
Proof.
  intros Hok (n & Hn & Ho) Hf. destruct (fo_opener _ (ro_forest _ Hok) _ _ Hn) as [p Hp]. rewrite Ho in Hp.
  destruct (place_lookup _ _ _ Hp) as (x & Hx & ->).
  destruct (fo_open _ (ro_forest _ Hok) _ _ _ Hp) as (l & Hl & Hown). specialize (Hown _ _ Hn Ho).
  destruct (task_chain _ _ _ Hok Hx) as [l' Hl']. rewrite (cancelled_t_spec _ _ _ _ Hok Hx Hl').
  apply orb_true_iff. right. apply existsb_exists. exists s. split; [|done].
  apply list_elem_of_In. by eapply opened_chain.
Qed.
Lemma flag_cancelled w t : task_flag w t = true -> cancelled_t w t = true.
Proof. unfold task_flag, cancelled_t. destruct (tasks w !! t); [|done]. by intros ->. Qed.

Section Walk.
Context (D : sid -> Prop).

Lemma wake_other_steps s t w :
  rt_ok w -> D s -> member_of w s t \/ opener_of w s t -> is_Some (tasks w !! t) -> cancelled_t w t = true ->
  rtc (cancel_step D) w (wake_other t w) /\ awake (wake_other t w) t.
Proof.
  intros Hok HD Hmem Ha Hc. unfold wake_other. case_decide as E; [by split; [|left]|]. split.
  - apply rtc_once. by econstructor.
  - right. destruct (timer_unlink_ok t w (ro_sched _ Hok)) as [H1 _]. by apply enqueue_in_ready.
Qed.

Lemma cancel_request_steps s t w :
  rt_ok w -> D s -> member_of w s t ->
  rtc (cancel_step D) w (task_cancel_request t w)
  /\ task_flag (task_cancel_request t w) t = true /\ awake (task_cancel_request t w) t.
Proof.
  intros Hok HD Hmem. pose proof (member_alloc _ _ _ Hok Hmem) as Ha. unfold task_cancel_request.
  assert (H1 : cancel_step D w (upd_task (set_cancel_req true) t w)) by by econstructor.
  assert (Hf : task_flag (upd_task (set_cancel_req true) t w) t = true).
  { unfold task_flag. simpl. rewrite lookup_alter_eq. by destruct Ha as [x ->]. }
  assert (Hm : member_of (upd_task (set_cancel_req true) t w) s t).
  { unfold member_of. by rewrite (stamp_forest _ _ (cancel_step_stamp _ _ _ H1)). }
  destruct (wake_other_steps s t (upd_task (set_cancel_req true) t w)) as [H2 H3].
  - by eapply cancel_step_ok.
  - done.
  - by left.
  - eapply member_alloc; [by eapply cancel_step_ok|done].
  - by apply flag_cancelled.
  - split_and!; [by eapply rtc_l| |done]. by apply (gr_task _ _ (cancel_steps_grow _ _ _ H2)).
Qed.

(** A loop of such steps over a list, each turn leaving something that stays. *)
Lemma fold_steps {A} (f : rt -> A -> rt) (Q : A -> rt -> Prop) (l : list A) (w : rt) :
  rt_ok w ->
  (forall a w1 w2, Q a w1 -> grows w1 w2 -> Q a w2) ->
  (forall a w', a ∈ l -> rt_ok w' -> grows w w' -> rtc (cancel_step D) w' (f w' a) /\ Q a (f w' a)) ->
  rtc (cancel_step D) w (fold_left f l w) /\ forall a, a ∈ l -> Q a (fold_left f l w).
Proof.
  intros Hok HQ. revert w Hok. induction l as [|a l IH]; intros w Hok Hf; simpl; [by split; [|set_solver]|].
  destruct (Hf a w) as [H1 H2]; [by left|done|done|].
  destruct (IH (f w a)) as [H3 H4].
  - by eapply cancel_steps_ok.
  - intros b w' Hb Hok' Hg. apply Hf; [by right|done|]. transitivity (f w a); [by eapply cancel_steps_grow|done].
  - split; [by etransitivity|]. intros b [->|Hb]%elem_of_cons; [|by apply H4].
    eapply HQ; [done|]. by eapply cancel_steps_grow.
Qed.

(** A scope that the walk has dealt with. *)
Definition reached (w : rt) (c : sid) : Prop :=
  flagged w c = true
  /\ (forall t, member_of w c t -> task_flag w t = true /\ awake w t)
  /\ (forall t, opener_of w c t -> awake w t).

Lemma awake_grows w w' t : awake w t -> grows w w' -> awake w' t.
Proof. intros [H|H] Hg; [left|right]; [by rewrite (gr_current _ _ Hg)|by apply (gr_ready _ _ Hg)]. Qed.
Lemma reached_grows w w' c : reached w c -> grows w w' -> reached w' c.
Proof.
  intros (H1 & H2 & H3) Hg. pose proof (stamp_forest _ _ (gr_stamp _ _ Hg)) as Hf.
  split_and!; [by apply (gr_scope _ _ Hg)| |]; unfold member_of, opener_of in *; rewrite Hf.
  - intros t Ht. destruct (H2 t Ht). split; [by apply (gr_task _ _ Hg)|by eapply awake_grows].
  - intros t Ht. eapply awake_grows; [by apply H3|done].
Qed.

Lemma grows_forest w w' : grows w w' -> forest_of w' = forest_of w.
Proof. intros Hg. apply stamp_forest, Hg. Qed.
Lemma grows_next_sid w w' : grows w w' -> next_sid w' = next_sid w.
Proof. intros Hg. pose proof (gr_stamp _ _ Hg) as E. unfold stamp in E. congruence. Qed.

(** One level of the walk: the scope, its members, its opener. *)
Lemma walk_one s x w :
  rt_ok w -> D s -> scopes w !! s = Some x ->
  let w0 := upd_scope (set_s_cancel_req true) s w in
  let w' := wake_other (opener x) (fold_left (fun w t => task_cancel_request t w) (members x) w0) in
  rtc (cancel_step D) w w' /\ reached w' s.
Proof.
  intros Hok HD Hx w0. pose proof (lookup_node _ _ _ Hx) as Hn.
  assert (H0 : cancel_step D w w0) by (apply cs_scope; [done|by rewrite Hx]).
  assert (Hok0 : rt_ok w0) by by eapply cancel_step_ok.
  pose proof (grows_forest _ _ (cancel_step_grows _ _ _ H0)) as Hf0.
  assert (Hfl0 : flagged w0 s = true) by (unfold flagged, w0; simpl; by rewrite lookup_alter_eq, Hx).
  destruct (fold_steps (fun w t => task_cancel_request t w) (fun t w => task_flag w t = true /\ awake w t) (members x) w0 Hok0)
    as [H1 R1].
  { intros t w1 w2 [? ?] Hg. split; [by apply (gr_task _ _ Hg)|by eapply awake_grows]. }
  { intros t w' Ht Hok' Hg. apply (cancel_request_steps s); [done|done|]. exists (node_of x).
    rewrite (grows_forest _ _ Hg), Hf0. by split. }
  set (w1 := fold_left _ (members x) w0) in *. pose proof (cancel_steps_grow _ _ _ H1) as Hg1.
  assert (Hok1 : rt_ok w1) by by eapply cancel_steps_ok.
  assert (Hop : opener_of w1 s (opener x)) by (exists (node_of x); by rewrite (grows_forest _ _ Hg1), Hf0).
  destruct (wake_other_steps s (opener x) w1 Hok1 HD (or_intror Hop)) as [H2 R2].
  { by eapply opener_alloc. }
  { eapply opener_cancelled; [done|done|]. by apply (gr_scope _ _ Hg1). }
  pose proof (cancel_steps_grow _ _ _ H2) as Hg2. simpl. split.
  { eapply rtc_l; [done|]. by etransitivity. }
  unfold reached, member_of, opener_of. rewrite (grows_forest _ _ Hg2), (grows_forest _ _ Hg1), Hf0, Hn. split_and!.
  - apply (gr_scope _ _ Hg2), (gr_scope _ _ Hg1), Hfl0.
  - intros t (m & [= <-] & Ht). destruct (R1 t Ht) as [Rf Ra].
    split; [by apply (gr_task _ _ Hg2)|]. by eapply awake_grows.
  - by intros t (m & [= <-] & <-).
Qed.

Lemma cancel_walk_spec fuel s w :
  rt_ok w -> D s -> is_Some (scopes w !! s) -> (forall a b, D a -> child_of w a b -> D b) ->
  rtc (cancel_step D) w (cancel_walk fuel s w)
  /\ ((next_sid w - s <= fuel)%nat -> forall c, rtc (child_of w) s c -> reached (cancel_walk fuel s w) c).
Proof.
  revert s w. induction fuel as [|n IH]; intros s w Hok HD [x Hx] Hcl; simpl.
  { split; [done|]. intros Hf. apply (ro_sid _ Hok) in Hx. lia. }
  destruct (walk_one s x w Hok HD Hx) as [H2 R2]. rewrite lookup_alter_eq, Hx. simpl. pose proof (lookup_node _ _ _ Hx) as Hn.
  set (w2 := wake_other (opener x) _) in *. pose proof (cancel_steps_grow _ _ _ H2) as Hg2.
  assert (Hok2 : rt_ok w2) by by eapply cancel_steps_ok.
  destruct (fold_steps (fun w c => cancel_walk n c w)
     (fun c w' => (next_sid w - s <= S n)%nat -> forall d, rtc (child_of w) c d -> reached w' d) (children x) w2 Hok2) as [H3 R3].
  { intros c w3 w4 HQ Hg Hf d Hd. eapply reached_grows; [by apply HQ|done]. }
  { intros c w' Hc Hok' Hg'. assert (Hg : grows w w') by by etransitivity. pose proof (grows_forest _ _ Hg) as Hf'.
    destruct (fo_children _ (ro_forest _ Hok) _ _ c Hn Hc) as (y & Hy & Hp).
    destruct (fo_parent _ (ro_forest _ Hok) _ _ _ Hy Hp) as [Hlt _].
    assert (Hsc : child_of w s c) by (by exists (node_of x)).
    destruct (IH c w') as [J1 J2]; [done|by eapply Hcl| | |].
    - rewrite <- Hf' in Hy. apply node_lookup in Hy as (z & -> & _). eauto.
    - intros a b Ha Hab. eapply Hcl; [exact Ha|]. unfold child_of in *. by rewrite <- Hf'.
    - split; [done|]. rewrite (grows_next_sid _ _ Hg) in J2. intros Hfu d Hd. apply J2; [lia|]. eapply rtc_subrel; [|exact Hd].
      intros a b. unfold child_of. by rewrite Hf'. }
  split; [by etransitivity|]. intros Hfu c Hc. inversion Hc as [|a b c' Hsb Hbc]; subst.
  - eapply reached_grows; [exact R2|]. by eapply cancel_steps_grow.
  - destruct Hsb as (m & Hm & Hb). rewrite Hn in Hm. injection Hm as <-. by eapply R3.
Qed.
End Walk.

(** The scopes below [s], itself included. *)
Definition below (w : rt) (s : sid) : sid -> Prop := rtc (child_of w) s.

Lemma scope_cancel_walk_steps s w :
  rt_ok w -> is_Some (scopes w !! s) -> rtc (cancel_step (below w s)) w (scope_cancel_walk s w).
Proof.
  intros Hok Hs. apply cancel_walk_spec; [done|apply rtc_refl|done|]. intros a b Ha Hab. by eapply rtc_r.
Qed.
Lemma scope_cancel_walk_reached s w :
  rt_ok w -> is_Some (scopes w !! s) -> forall c, below w s c -> reached (scope_cancel_walk s w) c.
Proof.
  intros Hok Hs. apply (cancel_walk_spec (below w s)); [done|apply rtc_refl|done| |done].
  intros a b Ha Hab. by eapply rtc_r.
Qed.

(** C12: [scope_cancel_walk] cancels exactly the scope's subtree.  Afterwards
    every scope below [s] and every member of one is flagged, every member and
    every opener is running or on the ready queue and off the timer list (a
    sleeper wakes now), and polls as cancelled; no other task or scope is
    flagged; and the tree and the scheduler stay well-formed. *)
Theorem cancel_reaches_subtree s w :
  rt_ok w -> is_Some (scopes w !! s) ->
  let w' := scope_cancel_walk s w in
  rt_ok w' /\ forest_of w' = forest_of w
  /\ (forall c, below w s c ->
        flagged w' c = true
        /\ (forall t, member_of w c t -> task_flag w' t = true)
        /\ (forall t, member_of w c t \/ opener_of w c t ->
              awake w' t /\ cancelled_t w' t = true /\ (t ∈ g_ready w' -> t ∉ g_timers w')))
  /\ (forall c, flagged w' c = true -> flagged w c = true \/ below w s c)
  /\ (forall t, task_flag w' t = true -> task_flag w t = true \/ exists c, below w s c /\ member_of w c t).
Proof.
  intros Hok Hs w'. pose proof (scope_cancel_walk_steps s w Hok Hs) as Hst. fold w' in Hst.
  pose proof (cancel_steps_ok _ _ _ Hok Hst) as Hok'. pose proof (cancel_steps_grow _ _ _ Hst) as Hg.
  pose proof (grows_forest _ _ Hg) as Hf. destruct (cancel_steps_only _ _ _ Hst) as [O1 O2].
  split_and!; [done|done| |done|done]. intros c Hc.
  destruct (scope_cancel_walk_reached s w Hok Hs c Hc) as (R1 & R2 & R3). fold w' in R1, R2, R3.
  unfold member_of, opener_of in R2, R3. rewrite Hf in R2, R3. split_and!; [done|by intros; apply R2|].
  intros t Ht. split_and!.
  - destruct Ht; [by apply R2|by apply R3].
  - destruct Ht as [Ht|Ht]; [by apply flag_cancelled, R2|].
    eapply opener_cancelled; [done| |done]. unfold opener_of. by rewrite Hf.
  - intros Hr Htm. pose proof (ok_nodup _ (ro_sched _ Hok')) as Hnd. apply NoDup_app in Hnd as (_ & Hd & _). by eapply Hd.
Qed.
