(* ===== verification/Channels.v ===== *)
(** Value channels, select and the scope handles of
    [src/src/madc_task_chan.cpp].

    The payload [madc::value] is a parameter [V] with the null value.  A
    waiter record lives on the stack of the task that parked, so a
    [ChanWaiter *] is the pair of that task and the record's index in its
    frame, a [SelectGroup *] is the selecting task, and so is the address of
    the caller's [out]; the three maps of [cs] are those stacks.  A lookup
    that fails is a dangling pointer.  Channels are never freed, so a
    [MadcChan *] is its handle.  Byte endpoints and readiness sources, the
    other two kinds of select case, belong to the io layer and are not
    modelled. *)
From stdpp Require Import gmap.
From S2P Require Import Prelude Tasks Forest Scopes.
#[local] Open Scope Z_scope.

Abbreviation wid := (nat * nat)%type (only parsing).

Section Channels.
Context {V : Type} (null : V).

Record ChanWaiter := Waiter {
  w_task : tid;
  w_slot : option tid;
  w_val : option V;
  w_ok : bool;
  woken_closed : bool;
  w_group : option tid;
  w_index : nat;
}.

Record SelectGroup := Group {
  fired_index : Z;
  woken : bool;
}.

Record MadcChan := Chan {
  q : list V;
  cap : Z;
  closed : bool;
  recv_waiters : list wid;
  send_waiters : list wid;
}.

Record cs := Cs {
  c_rt : rt;
  g_chans : gmap Z MadcChan;
  g_next_chan : Z;
  waiters : gmap wid ChanWaiter;
  groups : gmap tid SelectGroup;
  outs : gmap tid V;
  g_scopes : gmap Z sid;
  g_next_scope : Z;
}.

Definition with_rt w c := Cs w (g_chans c) (g_next_chan c) (waiters c) (groups c) (outs c) (g_scopes c) (g_next_scope c).
Definition with_chans m c := Cs (c_rt c) m (g_next_chan c) (waiters c) (groups c) (outs c) (g_scopes c) (g_next_scope c).
Definition with_next_chan n c := Cs (c_rt c) (g_chans c) n (waiters c) (groups c) (outs c) (g_scopes c) (g_next_scope c).
Definition with_waiters m c := Cs (c_rt c) (g_chans c) (g_next_chan c) m (groups c) (outs c) (g_scopes c) (g_next_scope c).
Definition with_groups m c := Cs (c_rt c) (g_chans c) (g_next_chan c) (waiters c) m (outs c) (g_scopes c) (g_next_scope c).
Definition with_outs m c := Cs (c_rt c) (g_chans c) (g_next_chan c) (waiters c) (groups c) m (g_scopes c) (g_next_scope c).
Definition with_g_scopes m n c := Cs (c_rt c) (g_chans c) (g_next_chan c) (waiters c) (groups c) (outs c) m n.

Definition set_q l x := Chan l (cap x) (closed x) (recv_waiters x) (send_waiters x).
Definition set_closed b x := Chan (q x) (cap x) b (recv_waiters x) (send_waiters x).
Definition set_recv_waiters l x := Chan (q x) (cap x) (closed x) l (send_waiters x).
Definition set_send_waiters l x := Chan (q x) (cap x) (closed x) (recv_waiters x) l.
Definition set_w_ok x := Waiter (w_task x) (w_slot x) (w_val x) true (woken_closed x) (w_group x) (w_index x).
Definition set_woken_closed x := Waiter (w_task x) (w_slot x) (w_val x) (w_ok x) true (w_group x) (w_index x).

Definition upd_chan (f : MadcChan -> MadcChan) (h : Z) (c : cs) : cs := with_chans (alter f h (g_chans c)) c.
Definition upd_waiter (f : ChanWaiter -> ChanWaiter) (p : wid) (c : cs) : cs := with_waiters (alter f p (waiters c)) c.
Definition on_rt (f : rt -> rt) (c : cs) : cs := with_rt (f (c_rt c)) c.
(** [__madc_task_unpark]. *)
Definition unpark (t : tid) (c : cs) : cs := on_rt (task_enqueue t) c.
Definition me (c : cs) : tid := self (c_rt c).
(** [__madc_task_current]. *)
Definition current (c : cs) : tid * cs := let c := on_rt task_runtime_init c in (me c, c).

(** ** Waking and firing *)

Definition wake_recv_waiter (w : ChanWaiter) (c : cs) : option cs :=
  match w_group w with
  | None => Some (unpark (w_task w) c)
  | Some g =>
      x ← groups c !! g;
      Some (if woken x then c
            else unpark (w_task w) (with_groups (<[g := Group (fired_index x) true]> (groups c)) c))
  end.

Definition select_fire (group : option tid) (index : nat) (task : tid) (c : cs) : option (bool * cs) :=
  match group with
  | None => Some (true, unpark task c)
  | Some g =>
      x ← groups c !! g;
      let fired := Group (Z.of_nat index) true in
      Some (if woken x then (false, with_groups (<[g := fired]> (groups c)) c)
            else (true, unpark task (with_groups (<[g := fired]> (groups c)) c)))
  end.

Definition remove_waiter (p : wid) (l : list wid) : list wid := unlink p l.

(** A select waiter whose group already fired. *)
Definition husk (c : cs) (w : ChanWaiter) : option bool :=
  match w_group w with
  | None => Some false
  | Some g => x ← groups c !! g; Some (0 <=? fired_index x)
  end.

(** The loop of [pop_recv_waiter] over the queue: the waiter found, and what
    is left of the queue. *)
Fixpoint pop_waiters (c : cs) (l : list wid) : option (option wid * list wid) :=
  match l with
  | [] => Some (None, [])
  | p :: r => w ← waiters c !! p; b ← husk c w;
              if (b : bool) then pop_waiters c r else Some (Some p, r)
  end.

Definition pop_recv_waiter (h : Z) (c : cs) : option (option wid * cs) :=
  x ← g_chans c !! h; '(p, l) ← pop_waiters c (recv_waiters x);
  Some (p, upd_chan (set_recv_waiters l) h c).

(** [chan_poll_recv]: 1 with the value, 0, or -1. *)
Inductive poll := Got (v : V) | WouldBlock | Drained.

(** The sender is done: [w->ok = true; __madc_task_unpark(w->task);]. *)
Definition complete_sender (p : wid) (w : ChanWaiter) (c : cs) : cs := unpark (w_task w) (upd_waiter set_w_ok p c).

Definition chan_poll_recv (h : Z) (c : cs) : option (poll * cs) :=
  x ← g_chans c !! h;
  match q x with
  | v :: r =>
      let c := upd_chan (set_q r) h c in
      match send_waiters x with
      | [] => Some (Got v, c)
      | p :: ps =>
          w ← waiters c !! p; v' ← w_val w;
          Some (Got v, complete_sender p w (upd_chan (fun x => set_q (q x ++ [v']) (set_send_waiters ps x)) h c))
      end
  | [] =>
      match send_waiters x with
      | p :: ps =>
          w ← waiters c !! p; v ← w_val w;
          Some (Got v, complete_sender p w (upd_chan (set_send_waiters ps) h c))
      | [] => Some (if closed x then Drained else WouldBlock, c)
      end
  end.

(** ** The verbs *)

(** What a verb gives back: nothing, a number, chan_recv's truth and what it
    left in [out] ([None]: untouched), or an index or code and [out]. *)
Inductive res :=
| RUnit
| RInt (n : Z)
| RBool (b : bool)
| RRecv (ok : bool) (out : option V)
| ROut (r : Z) (out : option V).

(** Where a context can stand in this file: parked in [chan_send], in
    [chan_recv], at the head of the loop of [chan_select], parked in it. *)
Inductive frame :=
| FRt (f : rt_frame)
| FSend (h : Z)
| FRecv (h : Z)
| FSelectLoop (hs : list Z)
| FSelect (hs : list Z).

Abbreviation chalf := (half cs frame res).

Definition bad_handle (who : bytes) : exn := Thrown (who ++ B ": bad channel handle").

Definition orFault (o : option chalf) : chalf := match o with Some h => h | None => Faults end.

Definition chan_make (capacity : Z) (c : cs) : chalf :=
  if capacity <? 0 then Throw (Thrown (B "chan_make: negative capacity")) c
  else let h := g_next_chan c in
       Ret (RInt h) (with_chans (<[h := Chan [] capacity false [] []]> (g_chans c)) (with_next_chan (h + 1) c)).

Definition chan_send (h : Z) (v : V) (c : cs) : chalf :=
  if task_cancelled (c_rt c) then Throw Cancelled c
  else match g_chans c !! h with
  | None => Throw (bad_handle (B "chan_send")) c
  | Some x =>
      if closed x then Throw (Thrown (B "send on closed channel")) c
      else orFault (
        '(p, c) ← pop_recv_waiter h c;
        match p with
        | Some p =>
            w ← waiters c !! p; s ← w_slot w;
            let c := upd_waiter set_w_ok p (with_outs (<[s := v]> (outs c)) c) in
            '(_, c) ← select_fire (w_group w) (w_index w) (w_task w) c;
            Some (Ret (RBool true) c)
        | None =>
            if Z.of_nat (length (q x)) <? cap x
            then Some (Ret (RBool true) (upd_chan (fun x => set_q (q x ++ [v]) x) h c))
            else
              let '(t, c) := current c in
              let c := with_waiters (<[(t, 0%nat) := Waiter t None (Some v) false false None 0]> (waiters c)) c in
              Some (Parks (FSend h) (upd_chan (fun x => set_send_waiters (send_waiters x ++ [(t, 0%nat)]) x) h c))
        end)
  end.

(** The frame of a returning verb dies, its records with it. *)
Definition drop_waiter (p : wid) (c : cs) : cs := with_waiters (delete p (waiters c)) c.

Definition send_resume (h : Z) (c : cs) : chalf :=
  let p := (me c, 0%nat) in
  orFault (w ← waiters c !! p;
    let c' := drop_waiter p c in
    Some (if w_ok w then Ret (RBool true) c'
          else if task_cancelled (c_rt c)
          then Throw Cancelled (upd_chan (fun x => set_send_waiters (remove_waiter p (send_waiters x)) x) h c')
          else if woken_closed w then Throw (Thrown (B "send on closed channel")) c'
          else Ret (RBool true) c')).

Definition chan_recv (h : Z) (c : cs) : chalf :=
  if task_cancelled (c_rt c) then Throw Cancelled c
  else match g_chans c !! h with
  | None => Throw (bad_handle (B "chan_recv")) c
  | Some x =>
      orFault ('(r, c) ← chan_poll_recv h c;
        Some (match r with
        | Got v => Ret (RRecv true (Some v)) c
        | Drained => Ret (RRecv false (Some null)) c
        | WouldBlock =>
            let '(t, c) := current c in
            let c := with_waiters (<[(t, 0%nat) := Waiter t (Some t) None false false None 0]> (waiters c)) c in
            Parks (FRecv h) (upd_chan (fun x => set_recv_waiters (recv_waiters x ++ [(t, 0%nat)]) x) h c)
        end))
  end.

Definition drop_out (t : tid) (c : cs) : cs := with_outs (delete t (outs c)) c.

Definition recv_resume (h : Z) (c : cs) : chalf :=
  let p := (me c, 0%nat) in
  orFault (w ← waiters c !! p;
    let out := outs c !! me c in
    let c' := drop_out (me c) (drop_waiter p c) in
    Some (if w_ok w then Ret (RRecv true out) c'
          else if task_cancelled (c_rt c)
          then Throw Cancelled (upd_chan (fun x => set_recv_waiters (remove_waiter p (recv_waiters x)) x) h c')
          else if woken_closed w then Ret (RRecv false (Some null)) c'
          else Ret (RRecv true out) c')).

(** [chan_close]: the loop over the receivers, and over the senders. *)
Fixpoint close_recvs (l : list wid) (c : cs) : option cs :=
  match l with
  | [] => Some c
  | p :: r => w ← waiters c !! p; b ← husk c w;
              if (b : bool) then close_recvs r c
              else c ← wake_recv_waiter w (upd_waiter set_woken_closed p c); close_recvs r c
  end.
Fixpoint close_sends (l : list wid) (c : cs) : option cs :=
  match l with
  | [] => Some c
  | p :: r => w ← waiters c !! p; close_sends r (unpark (w_task w) (upd_waiter set_woken_closed p c))
  end.

Definition chan_close (h : Z) (c : cs) : chalf :=
  match g_chans c !! h with
  | None => Throw (bad_handle (B "chan_close")) c
  | Some x =>
      if closed x then Throw (Thrown (B "close of closed channel")) c
      else orFault (
        let c := upd_chan (set_closed true) h c in
        c ← close_recvs (recv_waiters x) (upd_chan (set_recv_waiters []) h c);
        c ← close_sends (send_waiters x) (upd_chan (set_send_waiters []) h c);
        Some (Ret RUnit c))
  end.

Definition chan_len (h : Z) (c : cs) : chalf :=
  match g_chans c !! h with
  | None => Throw (bad_handle (B "chan_len")) c
  | Some x => Ret (RInt (Z.of_nat (length (q x)))) c
  end.

Definition chan_try_recv (h : Z) (c : cs) : chalf :=
  match g_chans c !! h with
  | None => Throw (bad_handle (B "chan_try_recv")) c
  | Some _ =>
      orFault ('(r, c) ← chan_poll_recv h c;
        Some (match r with
              | Got v => Ret (ROut 1 (Some v)) c
              | WouldBlock => Ret (ROut 0 None) c
              | Drained => Ret (ROut (-1) (Some null)) c
              end))
  end.

(** [chan_select]: the argument is not an array ([None]) or its elements. *)
Definition chan_select (chans : option (list Z)) (c : cs) : chalf :=
  match chans with
  | None => Throw (Thrown (B "chan_select: cases must be an array of channel handles")) c
  | Some [] => Throw (Thrown (B "chan_select: empty case list")) c
  | Some hs =>
      if forallb (fun h => match g_chans c !! h with Some _ => true | None => false end) hs
      then Goes (FSelectLoop hs) c
      else Throw (bad_handle (B "chan_select")) c
  end.

(** The ready scan from case [i] on: the case that can receive, or whether any
    is still open. *)
Fixpoint select_scan (i : Z) (hs : list Z) (any_open : bool) (c : cs) : option ((Z * V + bool) * cs) :=
  match hs with
  | [] => Some (inr any_open, c)
  | h :: r => '(p, c) ← chan_poll_recv h c;
              match p with
              | Got v => Some (inl (i, v), c)
              | WouldBlock => select_scan (i + 1) r true c
              | Drained => select_scan (i + 1) r any_open c
              end
  end.

(** [ws] is made with all its records; those of open cases are registered. *)
Fixpoint select_register (t : tid) (i : nat) (hs : list Z) (c : cs) : option cs :=
  match hs with
  | [] => Some c
  | h :: r =>
      x ← g_chans c !! h;
      select_register t (S i) r
        (if closed x then c
         else upd_chan (fun x => set_recv_waiters (recv_waiters x ++ [(t, i)]) x) h
                (with_waiters (<[(t, i) := Waiter t (Some t) None false false (Some t) i]> (waiters c)) c))
  end.

Definition select_loop (hs : list Z) (c : cs) : chalf :=
  orFault ('(r, c) ← select_scan 0 hs false c;
    match r with
    | inl (i, v) => Some (Ret (ROut i (Some v)) c)
    | inr false => Some (Ret (ROut (-1) (Some null)) c)
    | inr true =>
        let '(t, c) := current c in
        c ← select_register t 0 hs (with_groups (<[t := Group (-1) false]> (groups c)) c);
        Some (Parks (FSelect hs) c)
    end).

(** The eager removal: every record of this call leaves its case's queue. *)
Fixpoint select_remove (t : tid) (i : nat) (hs : list Z) (c : cs) : cs :=
  match hs with
  | [] => c
  | h :: r =>
      select_remove t (S i) r
        (drop_waiter (t, i) (upd_chan (fun x => set_recv_waiters (filter (fun p => p <> (t, i)) (recv_waiters x)) x) h c))
  end.

Definition select_resume (hs : list Z) (c : cs) : chalf :=
  let t := me c in
  orFault (g ← groups c !! t;
    let out := outs c !! t in
    let c := with_groups (delete t (groups c)) (drop_out t (select_remove t 0 hs c)) in
    Some (if 0 <=? fired_index g then Ret (ROut (fired_index g) out) c
          else if task_cancelled (c_rt c) then Throw Cancelled c
          else Goes (FSelectLoop hs) c)).

(** ** The scope handles *)

(** A verb of [rt_task.c] run on the whole state. *)
Definition lift_half (c : cs) (h : rhalf) : chalf :=
  match h with
  | Ret _ w => Ret RUnit (with_rt w c)
  | Throw e w => Throw e (with_rt w c)
  | Goes f w => Goes (FRt f) (with_rt w c)
  | Parks f w => Parks (FRt f) (with_rt w c)
  | Switches f n w => Switches (FRt f) n (with_rt w c)
  | JoinWaits f w => JoinWaits (FRt f) (with_rt w c)
  | Exits w => Exits (with_rt w c)
  | Aborts => Aborts
  | Faults => Faults
  end.

Definition chan_scope_begin (c : cs) : chalf :=
  let '(s, w) := madc_scope_begin (c_rt c) in
  let h := g_next_scope c in
  Ret (RInt h) (with_g_scopes (<[h := s]> (g_scopes c)) (h + 1) (with_rt w c)).

Definition chan_scope_end (h : Z) (c : cs) : chalf :=
  match g_scopes c !! h with
  | None => Throw (Thrown (B "scope_end: bad scope handle")) c
  | Some s =>
      match scope_end_check s (c_rt c) with
      | None => Faults
      | Some 1 => Throw (Thrown (B "scope_end: only the opening task may end a scope")) c
      | Some 2 => Throw (Thrown (B "scope_end: not the innermost open scope")) c
      | Some _ => lift_half (with_g_scopes (delete h (g_scopes c)) (g_next_scope c) c) (scope_end s (c_rt c))
      end
  end.

Definition chan_scope_cancel (h : Z) (c : cs) : chalf :=
  match g_scopes c !! h with
  | None => Throw (Thrown (B "scope_cancel: bad scope handle")) c
  | Some s => lift_half c (scope_cancel s (c_rt c))
  end.
End Channels.
