(* ===== verification/Switch.v ===== *)
(** What one task's stretch of execution means to the others: the relation
    [env], and a proof that each operation of [rt_task.c] keeps the run time
    well formed and satisfies it.

    A task runs undisturbed until it parks, so a property of a parked task
    survives exactly when it is stable under [env] of whoever runs. *)
From stdpp Require Import gmap sorting.
From S2P Require Import Prelude Tasks Forest Scopes.
#[local] Open Scope Z_scope.

(** [task_reap]: the next context frees the finished one. *)
Definition task_reap (w : rt) : rt :=
  match g_reap w with
  | Some t => with_reap None (with_tasks (delete t (tasks w)) w)
  | None => w
  end.

(** [task_switch], up to the arrival in [to]. *)
Definition task_switch (to : tid) (w : rt) : rt :=
  task_reap (with_current (Some to) (with_switch_count (g_switch_count w + 1) w)).

(** Why a parked task was woken: its deadline has come, it is cancelled, it
    joins a scope, or ([K]) a channel had something for it. *)
Definition wake_reason (K : tid -> Prop) (w w' : rt) (u : tid) : Prop :=
  (u ∈ g_timers w /\ deadline_of w u <= time_of (clock w'))
  \/ cancelled_t w' u = true
  \/ (exists s x, scopes w !! s = Some x /\ joining x = true /\ opener x = u)
  \/ K u.

Record env (K : tid -> Prop) (t : tid) (w w' : rt) : Prop := {
  e_alloc : forall u, u <> t -> is_Some (tasks w !! u) -> is_Some (tasks w' !! u);
  e_awake : forall u, u <> t -> awake w u -> awake w' u;
  e_sleep : forall u, u <> t -> u ∈ g_timers w -> u ∈ g_timers w' \/ awake w' u;
  e_timers : forall u, u <> t -> u ∈ g_timers w' -> u ∈ g_timers w;
  e_wake : forall u, u <> t -> is_Some (tasks w !! u) -> awake w' u -> awake w u \/ wake_reason K w w' u;
  e_time : time_of (clock w) <= time_of (clock w');
  e_deadline : forall u, u <> t -> is_Some (tasks w !! u) -> deadline_of w' u = deadline_of w u;
  e_cancel : forall u, u <> t -> is_Some (tasks w !! u) -> cancelled_t w u = true -> cancelled_t w' u = true;
  e_cur : forall u, u <> t -> is_Some (tasks w !! u) -> cur_of w' u = cur_of w u /\ scope_of w' u = scope_of w u;
  e_scope : forall s x, scopes w !! s = Some x -> opener x <> t ->
    exists x', scopes w' !! s = Some x' /\ opener x' = opener x /\ joining x' = joining x
      /\ (joining x = true -> live x' = 0 -> live x = 0 \/ awake w' (opener x));
  e_scope_inv : forall s x', scopes w' !! s = Some x' -> opener x' <> t ->
    exists x, scopes w !! s = Some x /\ opener x = opener x' /\ joining x = joining x';
  e_waiting : t <> main_task -> g_main_waiting w' = g_main_waiting w;
}.

Section Env.
Context (K : tid -> Prop).

Lemma env_refl t w : env K t w w.
Proof. constructor; eauto 10; lia. Qed.

Lemma env_trans t w1 w2 w3 : env K t w1 w2 -> env K t w2 w3 -> env K t w1 w3.
Proof.
  intros E F. constructor.
  - intros u Hu Ha. by apply F, E.
  - intros u Hu Ha. by apply F, E.
  - intros u Hu Hs. destruct (e_sleep _ _ _ _ E u Hu Hs) as [H|H]; [by apply (e_sleep _ _ _ _ F)|right; by apply F].
  - intros u Hu Hs. by apply E, F.
  - intros u Hu Ha H3. destruct (e_wake _ _ _ _ F u Hu (e_alloc _ _ _ _ E u Hu Ha) H3)
      as [H2|[[H2 H2']|[H2|[(s & x & Hs & Hj & <-)|H2]]]].
    + destruct (e_wake _ _ _ _ E u Hu Ha H2) as [|[[H1 H1']|[H1|H1]]]; [by left| | |]; right.
      * left. split; [done|]. pose proof (e_time _ _ _ _ F). lia.
      * right. left. apply F; [done|by apply E|done].
      * by right; right.
    + right. left. split; [by apply E|]. by rewrite <- (e_deadline _ _ _ _ E).
    + right. by right; left.
    + right. right. right. left. destruct (e_scope_inv _ _ _ _ E s x Hs Hu) as (x1 & ? & ? & ?). exists s, x1. split_and!; congruence.
    + by right; right; right; right.
  - pose proof (e_time _ _ _ _ E). pose proof (e_time _ _ _ _ F). lia.
  - intros u Hu Ha. rewrite (e_deadline _ _ _ _ F), (e_deadline _ _ _ _ E); [done..|by apply E].
  - intros u Hu Ha Hc. apply F; [done|by apply E|by apply E].
  - intros u Hu Ha. destruct (e_cur _ _ _ _ E u Hu Ha) as [<- <-]. apply F; [done|by apply E].
  - intros s x Hs Ho. destruct (e_scope _ _ _ _ E s x Hs Ho) as (x2 & Hs2 & Ho2 & Hj2 & Hl2).
    destruct (e_scope _ _ _ _ F s x2 Hs2) as (x3 & Hs3 & Ho3 & Hj3 & Hl3); [congruence|].
    exists x3. split_and!; [done|congruence|congruence|]. intros Hj H0. rewrite <- Ho2.
    destruct Hl3 as [H|H]; [congruence|done| |by right].
    destruct (Hl2 Hj H); [by left|right]. apply F; congruence.
  - intros s x Hs Ho. destruct (e_scope_inv _ _ _ _ F s x Hs Ho) as (x2 & Hs2 & Ho2 & Hj2).
    destruct (e_scope_inv _ _ _ _ E s x2 Hs2) as (x1 & ? & ? & ?); [congruence|]. exists x1. split_and!; congruence.
  - intros Ht. by rewrite (e_waiting _ _ _ _ F), (e_waiting _ _ _ _ E).
Qed.

#[export] Instance env_preorder t : PreOrder (env K t).
Proof. split; [intros ?; apply env_refl|intros ???; apply env_trans]. Qed.

(** A cancelled task stays cancelled while its flag and its chain stay. *)
Lemma cancelled_mono w w' u x x' l :
  rt_ok w -> rt_ok w' -> tasks w !! u = Some x -> tasks w' !! u = Some x' ->
  cur x' = cur x -> (cancel_req x = true -> cancel_req x' = true) ->
  chain (f_nodes (forest_of w)) (cur x) l ->
  (forall s y, s ∈ l -> scopes w !! s = Some y -> exists y', scopes w' !! s = Some y' /\ parent y' = parent y
      /\ (s_cancel_req y = true -> s_cancel_req y' = true)) ->
  cancelled_t w u = true -> cancelled_t w' u = true.
Proof.
  intros Hok Hok' Hu Hu' Hcur Hreq Hl Hsc.
  assert (Hl' : chain (f_nodes (forest_of w')) (cur x') l).
  { rewrite Hcur. clear Hcur Hu Hu' Hreq. induction Hl as [|s n l Hn Hl IH]; [constructor|].
    apply node_lookup in Hn as (y & Hy & ->). destruct (Hsc s y) as (y' & Hy' & Hp & _); [by left|done|].
    econstructor; [by apply lookup_node|]. simpl in *. rewrite Hp. apply IH. intros. apply Hsc; [by right|done]. }
  rewrite (cancelled_t_spec _ _ _ _ Hok Hu Hl), (cancelled_t_spec _ _ _ _ Hok' Hu' Hl'), !orb_true_iff.
  intros [H|H]; [left; auto|right]. apply existsb_exists in H as (s & Hs & Hf). apply existsb_exists. exists s.
  split; [done|]. apply list_elem_of_In in Hs. unfold flagged in *. destruct (scopes w !! s) as [y|] eqn:Hy; [|done].
  destruct (Hsc s y Hs Hy) as (y' & -> & _ & Hf'). auto.
Qed.

Lemma stamp_parts w w' : stamp w' = stamp w ->
  forest_of w' = forest_of w /\ next_sid w' = next_sid w /\ next_tid w' = next_tid w
  /\ (forall s x, scopes w !! s = Some x -> exists x', scopes w' !! s = Some x' /\ node_of x' = node_of x /\ live x' = live x)
  /\ (forall u x, tasks w !! u = Some x -> exists x', tasks w' !! u = Some x' /\ place_of x' = place_of x).
Proof.
  intros E. assert (Ef : forest_of w' = forest_of w) by by apply stamp_forest.
  unfold stamp in E. split_and!; [done|congruence|congruence| |].
  - intros s x Hx. assert (El : live <$> scopes w' = live <$> scopes w) by congruence.
    pose proof (lookup_node _ _ _ Hx) as Hn. rewrite <- Ef in Hn. apply node_lookup in Hn as (x' & Hx' & Hn).
    exists x'. split_and!; [done|done|]. apply (f_equal (fun m => m !! s)) in El. rewrite !lookup_fmap, Hx, Hx' in El.
    simpl in El. congruence.
  - intros u x Hx. pose proof (lookup_place _ _ _ Hx) as Hn. rewrite <- Ef in Hn. apply place_lookup in Hn as (x' & Hx' & Hn).
    exists x'. split; [done|]. unfold place_of. congruence.
Qed.

(** A step that changes no place and no scope but for flags. *)
Lemma env_quiet t w w' :
  rt_ok w -> rt_ok w' -> stamp w' = stamp w ->
  (forall s x, scopes w !! s = Some x -> opener x <> t -> joining <$> scopes w' !! s = Some (joining x)) ->
  (forall u, u <> t -> awake w u -> awake w' u) ->
  (forall u, u <> t -> u ∈ g_timers w -> u ∈ g_timers w' \/ awake w' u) ->
  (forall u, u <> t -> u ∈ g_timers w' -> u ∈ g_timers w) ->
  (forall u, u <> t -> is_Some (tasks w !! u) -> awake w' u -> awake w u \/ wake_reason K w w' u) ->
  time_of (clock w) <= time_of (clock w') ->
  (forall u, u <> t -> deadline_of w' u = deadline_of w u) ->
  (forall u, u <> t -> task_flag w u = true -> task_flag w' u = true) ->
  (forall s, flagged w s = true -> flagged w' s = true) ->
  g_main_waiting w' = g_main_waiting w -> env K t w w'.
Proof.
  intros Hok Hok' Hst Hj Ha Hs Ht Hw Hc Hd Htf Hf Hm.
  destruct (stamp_parts _ _ Hst) as (Ef & _ & _ & Hsc & Htk). destruct (stamp_parts _ _ (eq_sym Hst)) as (_ & _ & _ & Hsc' & _).
  constructor; try done; try (intros; by eauto).
  - intros u _ [x Hx]. destruct (Htk _ _ Hx) as (x' & -> & _). done.
  - intros u Hu [x Hx] Hcu. destruct (Htk _ _ Hx) as (x' & Hx' & Hpl). destruct (task_chain _ _ _ Hok Hx) as [l Hl].
    eapply (cancelled_mono w w' u x x' l); try done.
    + unfold place_of in Hpl. congruence.
    + specialize (Htf u Hu). unfold task_flag in Htf. by rewrite Hx, Hx' in Htf.
    + intros s y Hin Hy. destruct (Hsc _ _ Hy) as (y' & Hy' & Hn & _). exists y'. split_and!; [done|unfold node_of in Hn; congruence|].
      specialize (Hf s). unfold flagged in Hf. by rewrite Hy, Hy' in Hf.
  - intros u Hu [x Hx]. destruct (Htk _ _ Hx) as (x' & Hx' & Hpl). unfold cur_of, scope_of. rewrite Hx, Hx'.
    unfold place_of in Hpl. split; congruence.
  - intros s x Hx Ho. destruct (Hsc _ _ Hx) as (x' & Hx' & Hn & Hl). exists x'.
    specialize (Hj s x Hx Ho). rewrite Hx' in Hj. simpl in Hj. split_and!; [done|unfold node_of in Hn; congruence|congruence|]. intros _ H0. left. congruence.
  - intros s x' Hx' Ho. destruct (Hsc' _ _ Hx') as (x & Hx & Hn & Hl). exists x.
    assert (Ho' : opener x <> t) by (unfold node_of in Hn; congruence).
    specialize (Hj s x Hx Ho'). rewrite Hx' in Hj. simpl in Hj. split_and!; [done|unfold node_of in Hn; congruence|congruence].
Qed.

Lemma env_moved t w w' :
  rt_ok w -> sched_ok w' -> moved w w' ->
  (forall u, u <> t -> awake w u -> awake w' u) ->
  (forall u, u <> t -> u ∈ g_timers w -> u ∈ g_timers w' \/ awake w' u) ->
  (forall u, u <> t -> u ∈ g_timers w' -> u ∈ g_timers w) ->
  (forall u, u <> t -> is_Some (tasks w !! u) -> awake w' u -> awake w u \/ wake_reason K w w' u) ->
  rt_ok w' /\ env K t w w'.
Proof.
  intros Hok Hs Hm Ha Hsl Ht Hw. assert (Hok' : rt_ok w') by (eapply rt_ok_stamp; [by apply moved_stamp|done|done]).
  split; [done|]. destruct (moved_flags _ _ Hm) as (Esc & Hf & Hc & _ & _ & _ & Hmw & _).
  apply env_quiet; try done.
  - by apply moved_stamp.
  - intros s x Hx _. by rewrite Esc, Hx.
  - by destruct Hm as (m & r & l & c & -> & _ & Hcl & _).
  - intros u _. by apply moved_deadline.
  - intros u _. by rewrite Hf.
  - intros s. unfold flagged. by rewrite Esc.
Qed.

(** ** The scheduler's operations *)

(** The running task puts itself on a list, or leaves one. *)
Lemma enqueue_self_env t w :
  rt_ok w -> is_Some (tasks w !! t) -> t ∉ g_timers w -> rt_ok (task_enqueue t w) /\ env K t w (task_enqueue t w).
Proof.
  intros Hok Ha Hnt. assert (Hcore : is_Some (core w !! t)) by (by rewrite core_lookup, fmap_is_Some).
  pose proof (task_enqueue_ready w (ro_sched _ Hok) t Hcore) as Hr.
  destruct (moved_flags _ _ (task_enqueue_moved t w)) as (_ & _ & Hc & _).
  apply env_moved; [done|by apply task_enqueue_ok; [apply Hok|..]|apply task_enqueue_moved| | | |];
    unfold awake; rewrite ?Hc, ?Hr, ?task_enqueue_timers.
  - intros u Hu [H|H]; [by left|right]. case_decide; [done|]. apply elem_of_app. by left.
  - intros u Hu H. by left.
  - done.
  - intros u Hu _ [H|H]; [by left; left|left; right]. case_decide; [done|]. apply elem_of_app in H as [H|H]; [done|].
    apply list_elem_of_singleton in H. done.
Qed.

Lemma timer_unlink_env t w : rt_ok w -> rt_ok (timer_unlink t w) /\ env K t w (timer_unlink t w).
Proof.
  intros Hok. pose proof (ok_nodup _ (ro_sched _ Hok)) as Hnd. apply NoDup_app in Hnd as (_ & _ & Hnd).
  apply env_moved; [done|by apply timer_unlink_ok, Hok|apply timer_unlink_moved|done| | |by left].
  - intros u Hu H. left. simpl. by apply unlink_elem.
  - intros u Hu H. simpl in H. by apply unlink_elem in H as [H _].
Qed.

Lemma timer_insert_env t w :
  rt_ok w -> is_Some (tasks w !! t) -> t ∉ g_ready w -> t ∉ g_timers w ->
  rt_ok (timer_insert t w) /\ env K t w (timer_insert t w) /\ t ∈ g_timers (timer_insert t w).
Proof.
  intros Hok Ha Hr Ht. destruct (timer_insert_spec w t (ro_sched _ Hok)) as (Hs & a & b & E1 & E2 & _); [|done|done|].
  { by rewrite core_lookup, fmap_is_Some. }
  assert (HH : rt_ok (timer_insert t w) /\ env K t w (timer_insert t w)); [|destruct HH; split_and!; [done|done|rewrite E2; set_solver]].
  apply env_moved; [done|done|apply with_timers_moved|done| | |by left]; rewrite E1, E2; set_solver.
Qed.

Lemma due_fired_env t w w' : rt_ok w -> due_fired w w' -> rt_ok w' /\ env K t w w'.
Proof.
  intros Hok (Hs & Hm & due & H1 & H2 & H3 & H4). destruct (moved_flags _ _ Hm) as (_ & _ & Hc & _).
  apply env_moved; [done|done|done|..]; unfold awake; rewrite ?Hc, ?H1, ?H2.
  - set_solver.
  - set_solver.
  - set_solver.
  - intros u Hu _ [H|H]; [by left; left|]. apply elem_of_app in H as [H|H]; [by left; right|right; left].
    rewrite H1. split; [set_solver|]. rewrite Forall_forall in H3. by apply H3.
Qed.

Lemma with_clock_env t c w :
  rt_ok w -> time_of (clock w) <= time_of c -> vtime_on (with_clock c w) = vtime_on w ->
  rt_ok (with_clock c w) /\ env K t w (with_clock c w).
Proof.
  intros Hok Hc Hv. apply env_moved; [done|by apply with_clock_ok, Hok|by apply with_clock_moved|done|by left|done|by left].
Qed.

(** The running task changes its own record. *)
Lemma upd_self_env t g w :
  rt_ok w -> t ∉ g_timers w -> (forall x, place_of (g x) = place_of x) -> (forall x, queued (g x) = queued x) ->
  rt_ok (upd_task g t w) /\ env K t w (upd_task g t w).
Proof.
  intros Hok Ht Hp Hq.
  assert (Hok' : rt_ok (upd_task g t w)).
  { eapply rt_ok_stamp; [by apply upd_task_stamp| |done]. apply sched_upd_task; [done|by left|apply Hok]. }
  split; [done|]. apply env_quiet; try done.
  - by apply upd_task_stamp.
  - intros s x Hx _. simpl. by rewrite Hx.
  - by left.
  - by left.
  - intros u Hu. unfold deadline_of. simpl. by rewrite lookup_alter_ne.
  - intros u Hu. unfold task_flag. simpl. by rewrite lookup_alter_ne.
Qed.

(** ** Cancellation and the scopes' bookkeeping *)

Lemma cancel_step_env D t w w' : rt_ok w -> cancel_step D w w' -> rt_ok w' /\ env K t w w'.
Proof.
  intros Hok H. pose proof (cancel_step_ok _ _ _ Hok H) as Hok'. pose proof (cancel_step_stamp _ _ _ H) as Hst.
  pose proof (cancel_step_grows _ _ _ H) as Hg. split; [done|].
  destruct H as [s _ Hs|s v _ _ Hv|s v _ _ Hne Hv Hcv].
  - apply env_quiet; try done; try by left.
    + intros s' x Hx _. simpl. destruct (decide (s' = s)) as [->|Hn]; [by rewrite lookup_alter_eq, Hx|by rewrite lookup_alter_ne, Hx].
    + intros s'. apply (gr_scope _ _ Hg).
  - apply env_quiet; try done; try by left.
    + intros s0 x Hx _. simpl. by rewrite Hx.
    + intros u _. unfold deadline_of. simpl. destruct (decide (u = v)) as [->|Hn]; [|by rewrite lookup_alter_ne].
      rewrite lookup_alter_eq. by destruct (tasks w !! v).
    + intros u _. apply (gr_task _ _ Hg).
  - destruct (timer_unlink_ok v w (ro_sched _ Hok)) as [Hok1 Hnt]. pose proof (ok_nodup _ (ro_sched _ Hok)) as Hnd.
    apply NoDup_app in Hnd as (_ & _ & Hnd). assert (Hin : v ∈ g_ready (task_enqueue v (timer_unlink v w))) by by apply enqueue_in_ready.
    assert (Hr : forall u, u ∈ g_ready (task_enqueue v (timer_unlink v w)) -> u = v \/ u ∈ g_ready w).
    { intros u. rewrite task_enqueue_ready; [|done|by rewrite core_lookup, fmap_is_Some]. case_decide; [by right|]. set_solver. }
    apply env_moved; [done|apply Hok'|transitivity (timer_unlink v w); [apply timer_unlink_moved|apply task_enqueue_moved]|..].
    + intros u _ Ha. by eapply awake_grows.
    + intros u _ Hu. rewrite task_enqueue_timers. simpl. destruct (decide (u = v)) as [->|Hn]; [right; by right|left].
      by apply unlink_elem.
    + intros u _. rewrite task_enqueue_timers. simpl. rewrite unlink_elem by done. by intros [? _].
    + intros u _ _ [Ha|Ha]; [left; left; by rewrite <- (gr_current _ _ Hg)|].
      destruct (Hr u Ha) as [->|Hu]; [right; right; left|by left; right].
      destruct Hv as [y Hy]. destruct (stamp_parts _ _ Hst) as (_ & _ & _ & Hsc & Htk). destruct (Htk _ _ Hy) as (y' & Hy' & Hpl).
      destruct (task_chain _ _ _ Hok Hy) as [l Hl]. eapply (cancelled_mono w _ v y y' l); try done.
      * unfold place_of in Hpl. congruence.
      * pose proof (gr_task _ _ Hg v) as Hf. unfold task_flag in Hf. by rewrite Hy, Hy' in Hf.
      * intros s' z _ Hz. destruct (Hsc _ _ Hz) as (z' & Hz' & Hn & _). exists z'. split_and!; [done|unfold node_of in Hn; congruence|].
        pose proof (gr_scope _ _ Hg s') as Hf. unfold flagged in Hf. by rewrite Hz, Hz' in Hf.
Qed.

Lemma cancel_steps_env D t w w' : rt_ok w -> rtc (cancel_step D) w w' -> rt_ok w' /\ env K t w w'.
Proof.
  intros Hok H. induction H as [w|w1 w2 w3 H H' IH]; [by split|].
  destruct (cancel_step_env _ t _ _ Hok H) as [Hok2 He]. destruct (IH Hok2) as [Hok3 He']. split; [done|by transitivity w2].
Qed.
Lemma scope_cancel_walk_env t s w :
  rt_ok w -> is_Some (scopes w !! s) -> rt_ok (scope_cancel_walk s w) /\ env K t w (scope_cancel_walk s w).
Proof. intros Hok Hs. by eapply cancel_steps_env, scope_cancel_walk_steps. Qed.

(** Marking a scope: [joining] by its opener, an error by a member. *)
Lemma upd_scope_env t g s w :
  rt_ok w -> (forall x, node_of (g x) = node_of x /\ live (g x) = live x /\ s_cancel_req (g x) = s_cancel_req x) ->
  (forall x, scopes w !! s = Some x -> opener x = t \/ joining (g x) = joining x) ->
  rt_ok (upd_scope g s w) /\ env K t w (upd_scope g s w).
Proof.
  intros Hok Hg Hj. assert (Hst : stamp (upd_scope g s w) = stamp w) by (apply upd_scope_stamp; intros x; split; apply Hg).
  assert (Hok' : rt_ok (upd_scope g s w)) by (eapply rt_ok_stamp; [done|by apply sched_upd_scope, Hok|done]).
  split; [done|]. apply env_quiet; try done; try by left.
  - intros s' x Hx Ho. simpl. destruct (decide (s' = s)) as [->|Hn]; [|by rewrite lookup_alter_ne, Hx].
    rewrite lookup_alter_eq, Hx. simpl. f_equal. by destruct (Hj x Hx).
  - intros s'. apply flagged_upd. intros x. right. apply Hg.
Qed.

(** A step that changes the forest: what it must leave of it to the others. *)
Lemma env_struct (gone : sid -> Prop) t w w' :
  rt_ok w -> rt_ok w' ->
  (forall u x, u <> t -> tasks w !! u = Some x -> exists x', tasks w' !! u = Some x' /\ set_queued false x' = set_queued false x) ->
  (forall u, u <> t -> awake w u -> awake w' u) ->
  (forall u, u <> t -> is_Some (tasks w !! u) -> awake w' u -> awake w u \/ wake_reason K w w' u) ->
  g_timers w' = g_timers w -> clock w' = clock w -> g_main_waiting w' = g_main_waiting w ->
  (forall s x, scopes w !! s = Some x -> ~ gone s -> exists x', scopes w' !! s = Some x' /\ parent x' = parent x
     /\ opener x' = opener x /\ joining x' = joining x /\ s_cancel_req x' = s_cancel_req x
     /\ (joining x = true -> live x' = 0 -> live x = 0 \/ awake w' (opener x))) ->
  (forall s x', scopes w' !! s = Some x' -> opener x' <> t ->
     exists x, scopes w !! s = Some x /\ opener x = opener x' /\ joining x = joining x') ->
  (forall s x, gone s -> scopes w !! s = Some x -> opener x = t) ->
  (forall u x l s, u <> t -> tasks w !! u = Some x -> chain (f_nodes (forest_of w)) (cur x) l -> s ∈ l -> ~ gone s) ->
  env K t w w'.
Proof.
  intros Hok Hok' Htk Haw Hwk Htm Hcl Hmw Hsc Hinv Hgone Hch. constructor; try done; rewrite ?Htm, ?Hcl; try done; try by left.
  - intros u Hu [x Hx]. destruct (Htk u x Hu Hx) as (x' & -> & _). done.
  - intros u Hu [x Hx]. destruct (Htk u x Hu Hx) as (x' & Hx' & E). unfold deadline_of. rewrite Hx, Hx'.
    unfold set_queued in E. congruence.
  - intros u Hu [x Hx] Hcu. destruct (Htk u x Hu Hx) as (x' & Hx' & E). destruct (task_chain _ _ _ Hok Hx) as [l Hl].
    eapply (cancelled_mono w w' u x x' l); try done; try (unfold set_queued in E; congruence).
    intros s y Hin Hy. destruct (Hsc s y Hy) as (y' & ? & ? & _ & _ & Hr & _); [by eapply Hch|].
    exists y'. split_and!; [done|done|congruence].
  - intros u Hu [x Hx]. destruct (Htk u x Hu Hx) as (x' & Hx' & E). unfold cur_of, scope_of. rewrite Hx, Hx'.
    unfold set_queued in E. split; congruence.
  - intros s x Hx Ho. destruct (Hsc s x Hx) as (x' & ? & _ & ? & ? & _ & ?); [intros Hg; by apply Ho, (Hgone s)|].
    exists x'. by split_and!.
Qed.

Lemma fmap_alter_comm {A B} (f : A -> B) g g' k (m : gmap nat A) :
  (forall x, f (g x) = g' (f x)) -> f <$> alter g k m = alter g' k (f <$> m).
Proof.
  intros H. apply map_eq. intros i. rewrite lookup_fmap. destruct (decide (i = k)) as [->|Hne].
  - rewrite !lookup_alter_eq, lookup_fmap. destruct (m !! k); simpl; by rewrite ?H.
  - by rewrite !lookup_alter_ne, lookup_fmap.
Qed.

Lemma live_nonneg w s x : rt_ok w -> scopes w !! s = Some x -> 0 <= live x.
Proof. intros Hok Hx. rewrite (ro_live _ Hok _ _ Hx). lia. Qed.

(** *** Opening a scope *)

Lemma scope_begin_forest w t x s w' :
  g_current w = Some t -> tasks w !! t = Some x -> madc_scope_begin w = (s, w') ->
  forest_of w' = open_scope (next_sid w) t (forest_of w) /\ s = next_sid w.
Proof.
  intros Hc Ht E. unfold madc_scope_begin, task_runtime_init in E. rewrite Hc in E. cbv zeta in E.
  assert (Hcur : cur_of w (self w) = cur x) by (unfold cur_of, self; by rewrite Hc, Ht). rewrite Hcur in E.
  replace (self w) with t in E by (unfold self; by rewrite Hc).
  injection E as <- <-. split; [|done]. unfold open_scope, forest_of. simpl. rewrite lookup_fmap, Ht. simpl.
  assert (Ea : forall m : gmap nat madc_task, place_of <$> alter (set_cur (Some (next_sid w))) t m =
     alter (fun x => (x.1, Some (next_sid w))) t (place_of <$> m)) by (intros m; by apply fmap_alter_comm).
  destruct (cur x) as [p|]; simpl; rewrite Ea; f_equal.
  - erewrite fmap_alter_comm; [by rewrite fmap_insert|done].
  - by rewrite fmap_insert.
Qed.

(** A scope's record after a change to its list of children. *)
Lemma alter_children_lookup (m : gmap nat madc_scope) p h s x :
  alter (fun y => set_children (h (children y)) y) p m !! s = Some x ->
  exists y, m !! s = Some y /\ parent x = parent y /\ opener x = opener y /\ members x = members y /\ live x = live y
    /\ joining x = joining y /\ s_cancel_req x = s_cancel_req y.
Proof.
  destruct (decide (s = p)) as [->|Hne].
  - rewrite lookup_alter_eq. intros (y & Hy & ->)%fmap_Some. exists y. by split_and!.
  - rewrite lookup_alter_ne by done. intros Hx. exists x. by split_and!.
Qed.
Lemma alter_children_old (m : gmap nat madc_scope) p h s y :
  m !! s = Some y -> exists x, alter (fun y => set_children (h (children y)) y) p m !! s = Some x
    /\ parent x = parent y /\ opener x = opener y /\ members x = members y /\ live x = live y
    /\ joining x = joining y /\ s_cancel_req x = s_cancel_req y.
Proof.
  intros Hy. destruct (decide (s = p)) as [->|Hne].
  - rewrite lookup_alter_eq, Hy. eexists. split; [done|]. by split_and!.
  - rewrite lookup_alter_ne by done. exists y. by split_and!.
Qed.

Lemma scope_begin_scopes w t x s w' :
  g_current w = Some t -> tasks w !! t = Some x -> madc_scope_begin w = (s, w') ->
  w' = with_tasks (alter (set_cur (Some s)) t (tasks w)) (with_next_sid (S s) (with_scopes
        match cur x with
        | Some p => alter (fun y => set_children (s :: children y) y) p (<[s := Scope (cur x) t [] [] 0 false false None]> (scopes w))
        | None => <[s := Scope (cur x) t [] [] 0 false false None]> (scopes w)
        end w)).
Proof.
  intros Hc Ht E. unfold madc_scope_begin, task_runtime_init in E. rewrite Hc in E. cbv zeta in E.
  assert (Hcur : cur_of w (self w) = cur x) by (unfold cur_of, self; by rewrite Hc, Ht). rewrite Hcur in E.
  replace (self w) with t in E by (unfold self; by rewrite Hc).
  injection E as <- <-. by destruct (cur x).
Qed.

Lemma scope_begin_env w t x s w' :
  rt_ok w -> g_current w = Some t -> tasks w !! t = Some x -> madc_scope_begin w = (s, w') ->
  rt_ok w' /\ env K t w w'.
Proof.
  intros Hok Hc Ht E. destruct (scope_begin_forest _ _ _ _ _ Hc Ht E) as [Hf Hs].
  pose proof (scope_begin_scopes _ _ _ _ _ Hc Ht E) as Ew. clear E. subst s.
  set (s := next_sid w) in *. set (nw := Scope (cur x) t [] [] 0 false false None) in *.
  assert (Hns : scopes w !! s = None) by (destruct (scopes w !! s) eqn:E; [apply (ro_sid _ Hok) in E; lia|done]).
  assert (Hinv : forall s' y', scopes w' !! s' = Some y' -> exists y, <[s := nw]> (scopes w) !! s' = Some y /\ parent y' = parent y
      /\ opener y' = opener y /\ members y' = members y /\ live y' = live y /\ joining y' = joining y /\ s_cancel_req y' = s_cancel_req y).
  { rewrite Ew. simpl. intros s' y' Hy'. destruct (cur x) as [p|]; [by apply alter_children_lookup in Hy'|exists y'; by split_and!]. }
  assert (Hold : forall s' y, <[s := nw]> (scopes w) !! s' = Some y -> exists y', scopes w' !! s' = Some y' /\ parent y' = parent y
      /\ opener y' = opener y /\ members y' = members y /\ live y' = live y /\ joining y' = joining y /\ s_cancel_req y' = s_cancel_req y).
  { rewrite Ew. simpl. intros s' y Hy. destruct (cur x) as [p|]; [by apply (alter_children_old _ p (cons s)) in Hy|exists y; by split_and!]. }
  assert (Hok' : rt_ok w').
  { constructor.
    - rewrite Ew. apply (sched_upd_task (set_cur (Some s)) t (with_next_sid (S s) (with_scopes _ w)));
        [done|by right|]. by destruct (ro_sched _ Hok); constructor.
    - rewrite Hf. eapply open_scope_ok; [apply Hok|by apply lookup_place|].
      intros s' y (z & Hz & _)%node_lookup. by eapply ro_sid.
    - intros s' y' (y & Hy & _)%Hinv. rewrite Ew. simpl. destruct (decide (s' = s)) as [->|Hne]; [lia|].
      rewrite lookup_insert_ne in Hy by done. apply (ro_sid _ Hok) in Hy. unfold s in *. lia.
    - intros u y. rewrite Ew. simpl. intros Hy. destruct (decide (u = t)) as [->|Hne]; [by eapply (ro_tid _ Hok)|].
      rewrite lookup_alter_ne in Hy by done. by eapply (ro_tid _ Hok).
    - intros s' y' (y & Hy & _ & _ & -> & -> & _)%Hinv. destruct (decide (s' = s)) as [->|Hne].
      + rewrite lookup_insert_eq in Hy. by injection Hy as <-.
      + rewrite lookup_insert_ne in Hy by done. by apply (ro_live _ Hok s'). }
  split; [done|]. apply (env_struct (fun _ => False)); try done; try (by rewrite Ew).
  - intros u y Hu Hy. rewrite Ew. simpl. rewrite lookup_alter_ne by done. eauto.
  - intros u _ _ H. rewrite Ew in H. left. exact H.
  - intros s' y Hy _. assert (s' <> s) by congruence. destruct (Hold s' y) as (y' & ? & ? & ? & ? & Hl & ? & ?).
    { by rewrite lookup_insert_ne. } exists y'. split_and!; try done. intros _ Hz. left. congruence.
  - intros s' y' (y & Hy & _ & -> & _ & _ & -> & _)%Hinv Ho. destruct (decide (s' = s)) as [->|Hne].
    + rewrite lookup_insert_eq in Hy. injection Hy as <-. done.
    + rewrite lookup_insert_ne in Hy by done. eauto.
  - by intros u y l s' _ _ _ _ [].
Qed.

(** *** Closing one *)

(** [scope_join_and_unlink] past its loop, [cur = s->parent] and [free(s)]. *)
Definition closed_rt (s : sid) (x : madc_scope) (t : tid) (w : rt) : rt :=
  scope_free s (upd_task (set_cur (parent x)) t (scope_unlink s w)).

Section Close.
Context (w : rt) (Hok : rt_ok w) (t : tid) (y : madc_task) (s : sid) (x : madc_scope).
Context (Ht : tasks w !! t = Some y) (Hs : scopes w !! s = Some x) (Ho : opener x = t) (Hc : cur y = Some s).
Context (Hl : live x <= 0).
#[local] Abbreviation w' := (closed_rt s x t w).

Lemma closed_members : members x = [].
Proof. rewrite (ro_live _ Hok _ _ Hs) in Hl. destruct (members x); [done|simpl in Hl; lia]. Qed.

Lemma closed_eq : w' = with_tasks (alter (set_cur (parent x)) t (tasks w)) (with_scopes (delete s
   match parent x with
   | Some p => alter (fun y => set_children (unlink s (children y)) y) p (alter (set_joining false) s (scopes w))
   | None => alter (set_joining false) s (scopes w)
   end) w).
Proof.
  unfold closed_rt, scope_unlink, scope_free, upd_scope, upd_task. simpl. rewrite lookup_alter_eq, Hs. simpl.
  by destruct (parent x).
Qed.

Lemma closed_forest : forest_of w' = close_scope s t (forest_of w).
Proof.
  rewrite closed_eq. unfold close_scope, forest_of. simpl. rewrite lookup_fmap, Hs. simpl. f_equal.
  - by apply fmap_alter_comm.
  - rewrite fmap_delete. destruct (parent x) as [p|]; [|by rewrite (fmap_alter_same node_of)].
    erewrite fmap_alter_comm; [by rewrite (fmap_alter_same node_of)|done].
Qed.

Lemma closed_old s' z : s' <> s -> scopes w !! s' = Some z -> exists z', scopes w' !! s' = Some z'
    /\ parent z' = parent z /\ opener z' = opener z /\ members z' = members z /\ live z' = live z
    /\ joining z' = joining z /\ s_cancel_req z' = s_cancel_req z.
Proof.
  intros Hne Hz. rewrite closed_eq. simpl. rewrite lookup_delete_ne by done.
  assert (Ha : alter (set_joining false) s (scopes w) !! s' = Some z) by by rewrite lookup_alter_ne.
  destruct (parent x) as [p|]; [by apply (alter_children_old _ p (unlink s))|exists z; by split_and!].
Qed.
Lemma closed_inv s' z' : scopes w' !! s' = Some z' -> s' <> s /\ exists z, scopes w !! s' = Some z
    /\ parent z' = parent z /\ opener z' = opener z /\ members z' = members z /\ live z' = live z
    /\ joining z' = joining z /\ s_cancel_req z' = s_cancel_req z.
Proof.
  rewrite closed_eq. simpl. intros [Hne Hz']%lookup_delete_Some. split; [done|]. destruct (parent x) as [p|].
  - apply alter_children_lookup in Hz' as (z & Hz & E). rewrite lookup_alter_ne in Hz by done. exists z. by split.
  - rewrite lookup_alter_ne in Hz' by done. exists z'. by split_and!.
Qed.

Lemma closed_chains : f_nodes (forest_of w) !! s = Some (node_of x) /\ f_tasks (forest_of w) !! t = Some (t_scope y, Some s).
Proof. split; [by apply lookup_node|]. rewrite <- Hc. by apply lookup_place. Qed.

Lemma closed_env : rt_ok w' /\ env K t w w'.
Proof.
  destruct closed_chains as [Hn Hp]. pose proof closed_members as Hm.
  assert (Hok' : rt_ok w').
  { constructor.
    - rewrite closed_eq. apply (sched_upd_task (set_cur (parent x)) t (with_scopes _ w)); [done|by right|].
      by destruct (ro_sched _ Hok); constructor.
    - rewrite closed_forest. by eapply close_scope_ok; [apply Hok|..].
    - intros s' z' (_ & z & Hz & _)%closed_inv. rewrite closed_eq. by apply (ro_sid _ Hok s' z).
    - intros u z. rewrite closed_eq. simpl. intros Hz. destruct (decide (u = t)) as [->|Hne]; [by eapply (ro_tid _ Hok)|].
      rewrite lookup_alter_ne in Hz by done. by eapply (ro_tid _ Hok).
    - intros s' z' (_ & z & Hz & _ & _ & -> & -> & _)%closed_inv. by eapply (ro_live _ Hok). }
  split; [done|]. apply (env_struct (fun s' => s' = s)); try done; try (by rewrite closed_eq).
  - intros u z Hu Hz. rewrite closed_eq. simpl. rewrite lookup_alter_ne by done. eauto.
  - intros u _ _ H. rewrite closed_eq in H. left. exact H.
  - intros s' z Hz Hne. destruct (closed_old s' z Hne Hz) as (z' & E1 & E2 & E3 & _ & E4 & E5 & E6).
    exists z'. split_and!; try done. intros _ E. left. congruence.
  - intros s' z' (_ & z & Hz & _ & -> & _ & _ & -> & _)%closed_inv _. eauto.
  - intros s' z -> Hz. congruence.
  - intros u z l s' Hu Hz Hch Hin ->. eapply (closable_off_chains _ (ro_forest _ Hok) s); try done. by apply lookup_place.
Qed.

(** Nothing is left below a scope whose join has completed. *)
Lemma closed_below : (forall c, below w s c -> c = s) /\ forall u z, tasks w !! u = Some z -> t_scope z <> Some s.
Proof.
  destruct closed_chains as [Hn Hp]. split.
  - intros c Hb. inversion Hb as [|a b c' (n & Hn' & Hin)]; [done|]. rewrite Hn in Hn'. injection Hn' as <-.
    rewrite (innermost_empty_leaf _ (ro_forest _ Hok) s (node_of x) t _ Hn Hp Ho closed_members) in Hin. set_solver.
  - intros u z Hz E. apply lookup_place in Hz. rewrite E in Hz. destruct (fo_member _ (ro_forest _ Hok) _ _ _ Hz) as (n & Hn' & Hin).
    rewrite Hn in Hn'. injection Hn' as <-. simpl in Hin. rewrite closed_members in Hin. set_solver.
Qed.
End Close.

(** *** Spawning *)

Definition add_member (t : tid) (y : madc_scope) : madc_scope := set_live (live y + 1) (set_members (t :: members y) y).

(** The new task before it is queued: owned by the spawner's innermost scope,
    and born cancelled if that is. *)
Definition spawned (t' : tid) (o : option sid) (w : rt) : rt :=
  let b := match o with Some s => flagged w s | None => false end in
  with_tasks (<[t' := Task 0 false b o o []]> (tasks w))
   (with_scopes match o with Some s => alter (add_member t') s (scopes w) | None => scopes w end
     (with_live (g_live w + 1) (with_next_tid (S t') w))).

Section Spawn.
Context (w : rt) (Hok : rt_ok w) (t : tid) (x : madc_task) (Hc : g_current w = Some t) (Ht : tasks w !! t = Some x).
#[local] Abbreviation t' := (next_tid w).
#[local] Abbreviation w2 := (spawned t' (cur x) w).

Lemma fresh_task : tasks w !! t' = None.
Proof. destruct (tasks w !! t') eqn:E; [apply (ro_tid _ Hok) in E; lia|done]. Qed.
Lemma fresh_unlisted : t' ∉ g_ready w ++ g_timers w.
Proof.
  intros Hin. apply (ok_alloc _ (ro_sched _ Hok)) in Hin. rewrite core_lookup, fresh_task in Hin. by destruct Hin.
Qed.

Lemma madc_go_eq : madc_go w = (t', task_enqueue t' w2).
Proof.
  unfold madc_go, task_runtime_init, spawned. rewrite Hc. cbv zeta. f_equal. f_equal.
  set (w1 := with_live _ _). assert (Hcur : cur_of w1 (self w1) = cur x).
  { unfold cur_of, self, w1. simpl. rewrite Hc. rewrite lookup_insert_ne, Ht; [done|]. intros E.
    pose proof fresh_task as Hf. by rewrite E, Ht in Hf. }
  rewrite Hcur. destruct (cur x) as [s|]; [|done]. unfold scope_attach, upd_scope, upd_task, flagged. simpl.
  rewrite lookup_alter_eq. destruct (scopes w !! s) as [y|] eqn:Hs; simpl.
  - destruct (s_cancel_req y); unfold w1, with_tasks, with_scopes, with_live, with_next_tid; simpl; f_equal;
      rewrite ?alter_insert_eq; done.
  - unfold w1, with_tasks, with_scopes, with_live, with_next_tid; simpl; f_equal; by rewrite alter_insert_eq.
Qed.

Lemma spawned_inv s y' : scopes w2 !! s = Some y' -> exists y, scopes w !! s = Some y /\ parent y' = parent y /\ opener y' = opener y
    /\ joining y' = joining y /\ s_cancel_req y' = s_cancel_req y
    /\ (live y' = live y /\ members y' = members y \/ live y' = live y + 1 /\ members y' = t' :: members y).
Proof.
  unfold spawned. simpl. destruct (cur x) as [s0|]; [|intros Hy; exists y'; split_and!; auto].
  destruct (decide (s = s0)) as [->|Hne].
  - rewrite lookup_alter_eq. intros (y & Hy & ->)%fmap_Some. exists y. split_and!; auto.
  - rewrite lookup_alter_ne by done. intros Hy. exists y'. split_and!; auto.
Qed.
Lemma spawned_old s y : scopes w !! s = Some y -> exists y', scopes w2 !! s = Some y' /\ parent y' = parent y /\ opener y' = opener y
    /\ joining y' = joining y /\ s_cancel_req y' = s_cancel_req y /\ (live y' = live y \/ live y' = live y + 1).
Proof.
  intros Hy. unfold spawned. simpl. destruct (cur x) as [s0|]; [|exists y; split_and!; auto].
  destruct (decide (s = s0)) as [->|Hne].
  - rewrite lookup_alter_eq, Hy. eexists. split; [done|]. split_and!; auto.
  - rewrite lookup_alter_ne by done. exists y. split_and!; auto.
Qed.

Lemma spawned_forest : forest_of w2 = join_forest t' (cur x) (forest_of w).
Proof.
  unfold forest_of, join_forest, spawned. simpl. f_equal; [by rewrite fmap_insert|].
  destruct (cur x) as [s|]; [|done]. by apply fmap_alter_comm.
Qed.

Lemma spawned_ok : rt_ok w2.
Proof.
  pose proof fresh_task as Hf. pose proof fresh_unlisted as Hu. destruct (ro_sched _ Hok) as [S1 S2 S3 S4]. constructor.
  - assert (Hd : forall u, u <> t' -> deadline_of w2 u = deadline_of w u)
      by (intros u Hne; unfold deadline_of, spawned; simpl; by rewrite lookup_insert_ne).
    constructor; [done| | |].
    + intros u Hin. rewrite core_lookup. simpl. destruct (decide (u = t')) as [->|Hne]; [done|].
      rewrite lookup_insert_ne, <- core_lookup by done. by apply S2.
    + intros u y. simpl. destruct (decide (u = t')) as [->|Hne]; [|rewrite lookup_insert_ne by done; apply S3].
      rewrite lookup_insert_eq. intros [= <-]. simpl. symmetry. apply bool_decide_eq_false_2. set_solver.
    + replace (deadline_of w2 <$> g_timers w2) with (deadline_of w <$> g_timers w); [done|].
      apply list_fmap_ext. intros i u Hi. symmetry. apply Hd. intros ->. apply Hu, elem_of_app. right. by eapply list_elem_of_lookup_2.
  - rewrite spawned_forest. apply join_forest_ok; [apply Hok|simpl; by rewrite lookup_fmap, Hf|].
    intros s E. destruct (cur_exists _ _ _ _ Hok Ht E) as [y Hy]. apply lookup_node in Hy. by rewrite Hy.
  - intros s y' (y & Hy & _)%spawned_inv. by eapply (ro_sid _ Hok).
  - intros u y. simpl. destruct (decide (u = t')) as [->|Hne]; [lia|]. rewrite lookup_insert_ne by done.
    intros Hy. apply (ro_tid _ Hok) in Hy. lia.
  - intros s y' (y & Hy & _ & _ & _ & _ & [[-> ->]|[-> ->]])%spawned_inv; pose proof (ro_live _ Hok _ _ Hy); simpl; lia.
Qed.

Lemma madc_go_env : let w' := task_enqueue t' w2 in
  rt_ok w' /\ env K t w w' /\ t' ∈ g_ready w' /\ is_Some (tasks w' !! t') /\ t' <> t /\ g_live w' = g_live w + 1
  /\ (dom (tasks w') = {[ t' ]} ∪ dom (tasks w)).
Proof.
  intros w'. pose proof spawned_ok as Hok2. pose proof fresh_task as Hf. pose proof fresh_unlisted as Hu.
  assert (Ha : is_Some (tasks w2 !! t')) by (simpl; by rewrite lookup_insert_eq).
  assert (Hac : is_Some (core w2 !! t')) by (by rewrite core_lookup, fmap_is_Some).
  assert (Htm : t' ∉ g_timers w2) by (simpl; set_solver).
  pose proof (task_enqueue_moved t' w2) as Hm. fold w' in Hm.
  pose proof (task_enqueue_ok w2 (ro_sched _ Hok2) t' Hac Htm) as Hs.
  assert (Hok' : rt_ok w') by (eapply rt_ok_stamp; [by apply moved_stamp|done|done]).
  assert (Hr : g_ready w' = g_ready w ++ [t']).
  { unfold w'. rewrite task_enqueue_ready by (done || apply Hok2). rewrite decide_False; [done|]. simpl. set_solver. }
  destruct (moved_flags _ _ Hm) as (Esc & _ & Ecu & _ & Eli & _ & Emw & _).
  assert (Hne : t' <> t) by (intros E; rewrite E, Ht in Hf; done).
  assert (Htk : forall u y, tasks w !! u = Some y -> exists y', tasks w' !! u = Some y' /\ set_queued false y' = set_queued false y).
  { intros u y Hy. apply (moved_lookup _ _ _ Hm). simpl. rewrite lookup_insert_ne; [done|]. congruence. }
  split_and!; [done| |rewrite Hr; set_solver|by eapply moved_alloc|done|by rewrite Eli|].
  - apply (env_struct (fun _ => False)); try done.
    + intros u y _. apply Htk.
    + intros u _ [H|H]; [left; by rewrite Ecu|right; rewrite Hr; set_solver].
    + intros u _ Hau [H|H]; left; [left; by rewrite Ecu in H|right]. rewrite Hr in H. apply elem_of_app in H as [H|H]; [done|].
      apply list_elem_of_singleton in H as ->. rewrite Hf in Hau. by destruct Hau.
    + unfold w'. by rewrite task_enqueue_timers.
    + unfold w', task_enqueue. destruct (tasks w2 !! t') as [z|]; [by destruct (queued z)|done].
    + intros s y Hy _. destruct (spawned_old _ _ Hy) as (y' & E1 & E2 & E3 & E4 & E5 & E6). exists y'. rewrite Esc.
      split_and!; try done. intros _ Hz. left. pose proof (live_nonneg _ _ _ Hok Hy). lia.
    + intros s y' Hy' _. rewrite Esc in Hy'. apply spawned_inv in Hy' as (y & E1 & E2 & E3 & E4 & _). eauto.
    + by intros u y l s _ _ _ _ [].
  - apply set_eq. intros u. rewrite elem_of_union, elem_of_singleton, !elem_of_dom.
    apply moved_core in Hm. apply (f_equal (fun m => m !! u)) in Hm. rewrite !core_lookup in Hm. simpl in Hm.
    destruct (decide (u = t')) as [->|Hn]; [split; [by left|]|].
    + intros _. rewrite lookup_insert_eq in Hm. by destruct (tasks w' !! t').
    + rewrite lookup_insert_ne in Hm by done. destruct (tasks w' !! u), (tasks w !! u); simpl in Hm; try done; naive_solver.
Qed.
End Spawn.

(** ** Leaving the processor *)

(** The picked task becomes the current one. *)
Lemma pick_env t w next w2 n :
  rt_ok w -> g_current w = Some t -> decided w (Some next) w2 ->
  let w3 := with_current (Some next) (with_switch_count n w2) in
  rt_ok w3 /\ env K t w w3 /\ (next ∉ g_ready w3) /\ (next ∉ g_timers w3) /\ is_Some (tasks w3 !! next)
  /\ (next ∈ g_ready w \/ next ∈ g_timers w).
Proof.
  intros Hok Hc (Hs & Hm & Hseq & Hsub & Hdue & _) w3. pose proof (ok_nodup _ (ro_sched _ Hok)) as Hnd.
  assert (Hnext : next ∈ g_ready w ++ g_timers w) by (rewrite Hseq; by left).
  pose proof Hnd as Hnd2. rewrite Hseq in Hnd2. apply NoDup_cons in Hnd2 as [Hnn Hnd2].
  assert (Ha : is_Some (tasks w2 !! next)).
  { eapply moved_alloc; [exact Hm|]. apply (ok_alloc _ (ro_sched _ Hok)) in Hnext. by rewrite core_lookup, fmap_is_Some in Hnext. }
  assert (Hok2 : rt_ok w2) by (eapply rt_ok_stamp; [by apply moved_stamp|done|done]).
  assert (Hok3 : rt_ok w3).
  { eapply rt_ok_stamp; [| |exact Hok2]; [done|]. destruct Hs; by constructor. }
  destruct (moved_flags _ _ Hm) as (Esc & Hf & Ec & _ & _ & _ & Emw & _).
  apply NoDup_app in Hnd as (_ & Hdisj & _).
  split; [done|]. split; [|split_and!; [set_solver|set_solver|done|by apply elem_of_app in Hnext]].
  apply env_quiet; try done.
  - by rewrite <- (moved_stamp _ _ Hm).
  - intros s x Hx _. simpl. by rewrite Esc, Hx.
  - intros u Hu [Hcu|Hin]; [congruence|]. assert (Hin' : u ∈ next :: g_ready w2 ++ g_timers w2) by (rewrite <- Hseq; set_solver).
    apply elem_of_cons in Hin' as [->|Hin']; [by left|]. apply elem_of_app in Hin' as [Hin'|Hin']; [by right|].
    by apply Hsub, (Hdisj _ Hin) in Hin'.
  - intros u Hu Hin. assert (Hin' : u ∈ next :: g_ready w2 ++ g_timers w2) by (rewrite <- Hseq; set_solver).
    apply elem_of_cons in Hin' as [->|Hin']; [right; by left|]. apply elem_of_app in Hin' as [Hin'|Hin']; [right; by right|by left].
  - intros u _. apply Hsub.
  - intros u Hu _ Haw. assert (Hin : u ∈ next :: g_ready w2) by (destruct Haw as [E|E]; [injection E as <-; by left|by right]).
    destruct (Hdue u Hin) as [H|H]; [by left; right|]. destruct (decide (u ∈ g_ready w)) as [Hr|Hr]; [by left; right|].
    right. left. split; [|done]. assert (Hin' : u ∈ g_ready w ++ g_timers w) by (rewrite Hseq, app_comm_cons; set_solver).
    by apply elem_of_app in Hin' as [?|?].
  - by destruct Hm as (m & r & l & c & -> & _ & Hcl & _).
  - intros u _. by apply (moved_deadline w w2).
  - intros u _. simpl. by rewrite <- Hf.
  - intros s. unfold flagged. simpl. by rewrite Esc.
Qed.

(** *** The end of a task *)

Definition rem_member (t : tid) (y : madc_scope) : madc_scope := set_live (live y - 1) (set_members (unlink t (members y)) y).

(** The task detached and freed. *)
Definition left_rt (t : tid) (w : rt) : rt := with_tasks (delete t (tasks (scope_detach t w))) (scope_detach t w).

Section Leave.
Context (w : rt) (Hok : rt_ok w) (t : tid) (x : madc_task) (Hc : g_current w = Some t) (Ht : tasks w !! t = Some x).
Context (Hcur : cur x = t_scope x) (Hnr : t ∉ g_ready w) (Hnt : t ∉ g_timers w).
Context (Hjoin : forall s y, scopes w !! s = Some y -> joining y = true -> opener y ∉ g_timers w).
#[local] Abbreviation w1 := (scope_detach t w).
#[local] Abbreviation wl := (left_rt t w).

Definition detach_base : rt :=
  match t_scope x with
  | Some s => with_tasks (alter (set_t_scope None) t (tasks w)) (with_scopes (alter (rem_member t) s (scopes w)) w)
  | None => w
  end.

(** The last member out wakes the joiner. *)
Definition detach_wakes : option tid :=
  s ← t_scope x; y ← scopes w !! s; if (live y - 1 =? 0) && joining y then Some (opener y) else None.

Lemma detach_eq : w1 = match detach_wakes with Some o => task_enqueue o detach_base | None => detach_base end.
Proof.
  unfold scope_detach, scope_of, detach_base, detach_wakes. rewrite Ht. destruct (t_scope x) as [s|]; [|done]. cbv zeta.
  unfold upd_scope, upd_task. simpl. rewrite !lookup_alter_eq.
  assert (E : alter (fun y => set_live (live y - 1) y) s (alter (fun y => set_members (unlink t (members y)) y) s (scopes w))
     = alter (rem_member t) s (scopes w)).
  { apply map_eq. intros s'. destruct (decide (s' = s)) as [->|Hne]; [|by rewrite !lookup_alter_ne].
    rewrite !lookup_alter_eq. by destruct (scopes w !! s). }
  rewrite E. destruct (scopes w !! s) as [y|] eqn:Hs; simpl; [|done]. by destruct ((live y - 1 =? 0) && joining y).
Qed.

Lemma detach_wakes_spec o :
  detach_wakes = Some o <-> exists s y, t_scope x = Some s /\ scopes w !! s = Some y /\ joining y = true /\ live y = 1 /\ opener y = o.
Proof.
  unfold detach_wakes. destruct (t_scope x) as [s|]; simpl; [|naive_solver].
  destruct (scopes w !! s) as [y|] eqn:Hs; simpl; [|naive_solver].
  destruct (Z.eqb_spec (live y - 1) 0) as [Hl|Hl]; destruct (joining y) eqn:Hj; simpl; split; try done.
  - intros [= <-]. exists s, y. split_and!; try done. lia.
  - intros (s' & y' & [= <-] & Hy' & _ & _ & <-). congruence.
  - intros (s' & y' & [= <-] & Hy' & Hj' & _). congruence.
  - intros (s' & y' & [= <-] & Hy' & _ & Hl' & _). simplify_eq. lia.
  - intros (s' & y' & [= <-] & Hy' & Hj' & _). congruence.
Qed.

Lemma no_scopes_of_leaver s y : scopes w !! s = Some y -> opener y <> t.
Proof.
  intros Hs Ho. pose proof (lookup_place _ _ _ Ht) as Hp. rewrite Hcur in Hp.
  destruct (fo_open _ (ro_forest _ Hok) _ _ _ Hp) as (l & Hl & Hown). apply opened_self in Hl as ->; [|apply Hok].
  specialize (Hown s (node_of y) (lookup_node _ _ _ Hs) Ho). by apply elem_of_nil in Hown.
Qed.

Lemma detach_base_sched : sched_ok detach_base.
Proof.
  unfold detach_base. destruct (t_scope x) as [s|]; [|apply Hok].
  apply (sched_upd_task (set_t_scope None) t (with_scopes _ w)); [done|by right|]. by destruct (ro_sched _ Hok); constructor.
Qed.
Lemma detach_base_lists : g_ready detach_base = g_ready w /\ g_timers detach_base = g_timers w /\ clock detach_base = clock w
  /\ g_main_waiting detach_base = g_main_waiting w /\ next_sid detach_base = next_sid w /\ next_tid detach_base = next_tid w
  /\ g_current detach_base = g_current w /\ g_live detach_base = g_live w /\ g_reap detach_base = g_reap w.
Proof. unfold detach_base. by destruct (t_scope x). Qed.
Lemma detach_base_task u : u <> t -> tasks detach_base !! u = tasks w !! u.
Proof. intros Hu. unfold detach_base. destruct (t_scope x); [|done]. simpl. by rewrite lookup_alter_ne. Qed.

(** Everything about the detached state in one place. *)
Lemma detach_facts :
  sched_ok w1 /\ moved detach_base w1 /\ g_timers w1 = g_timers w /\ clock w1 = clock w
  /\ (forall u, u ∈ g_ready w1 -> u ∈ g_ready w \/ exists s y, scopes w !! s = Some y /\ joining y = true /\ opener y = u)
  /\ (forall u, u ∈ g_ready w -> u ∈ g_ready w1)
  /\ (forall s y, t_scope x = Some s -> scopes w !! s = Some y -> joining y = true -> live y = 1 -> opener y ∈ g_ready w1).
Proof.
  pose proof detach_base_sched as Hs. destruct detach_base_lists as (L1 & L2 & L3 & _). rewrite detach_eq.
  destruct detach_wakes as [o|] eqn:Ew.
  - pose proof Ew as Ew'. apply detach_wakes_spec in Ew' as (s & y & Hsc & Hy & Hj & Hlv & Ho).
    assert (Ha : is_Some (tasks detach_base !! o)).
    { rewrite detach_base_task by (rewrite <- Ho; by eapply no_scopes_of_leaver).
      eapply opener_alloc; [exact Hok|]. exists (node_of y). split; [by apply lookup_node|done]. }
    assert (Hac : is_Some (core detach_base !! o)) by (by rewrite core_lookup, fmap_is_Some).
    assert (Hno : o ∉ g_timers detach_base) by (rewrite L2, <- Ho; by eapply Hjoin).
    pose proof (task_enqueue_ready _ Hs o Hac) as Hr. split_and!.
    + by apply task_enqueue_ok.
    + apply task_enqueue_moved.
    + by rewrite task_enqueue_timers.
    + rewrite <- L3. unfold task_enqueue. destruct (tasks detach_base !! o) as [z|]; [by destruct (queued z)|done].
    + intros u. rewrite Hr. case_decide; rewrite L1; [by auto|]. intros [Hu|Hu]%elem_of_app; [by left|right].
      apply list_elem_of_singleton in Hu as ->. eauto.
    + intros u Hu. apply enqueue_ready_mono. by rewrite L1.
    + intros s' y' Hsc' Hy' _ _. assert (y' = y) as -> by congruence. rewrite Ho. by apply enqueue_in_ready.
  - rewrite L1. split_and!; try done; [by left|]. intros s y Hsc Hy Hj Hlv.
    assert (detach_wakes = Some (opener y)); [|congruence]. apply detach_wakes_spec. eauto 10.
Qed.

Lemma left_task u : tasks wl !! u = if decide (u = t) then None else tasks w1 !! u.
Proof. unfold left_rt. simpl. case_decide as E; [subst; apply lookup_delete_eq|by apply lookup_delete_ne]. Qed.
Lemma detach_task u y : u <> t -> tasks w !! u = Some y ->
  exists y', tasks w1 !! u = Some y' /\ set_queued false y' = set_queued false y.
Proof.
  intros Hu Hy. destruct detach_facts as (_ & Hm & _). apply (moved_lookup _ _ _ Hm). by rewrite detach_base_task.
Qed.
Lemma detach_task_inv u y' : u <> t -> tasks w1 !! u = Some y' ->
  exists y, tasks w !! u = Some y /\ set_queued false y' = set_queued false y.
Proof.
  intros Hu Hy'. destruct detach_facts as (_ & Hm & _). apply moved_core in Hm. apply (f_equal (fun m => m !! u)) in Hm.
  rewrite !core_lookup, Hy', detach_base_task in Hm by done. destruct (tasks w !! u) as [y|]; [|done]. exists y.
  split; [done|]. simpl in Hm. congruence.
Qed.

Lemma left_scopes : scopes wl = match t_scope x with Some s => alter (rem_member t) s (scopes w) | None => scopes w end.
Proof.
  destruct detach_facts as (_ & Hm & _). unfold left_rt. simpl. destruct (moved_flags _ _ Hm) as [-> _].
  unfold detach_base. by destruct (t_scope x).
Qed.

Lemma left_forest : forest_of wl = leave_forest t (forest_of w).
Proof.
  unfold forest_of at 1, leave_forest. rewrite left_scopes. f_equal.
  - apply map_eq. intros u. rewrite lookup_fmap, left_task. unfold forest_of. simpl. case_decide as E.
    + subst u. by rewrite lookup_delete_eq.
    + rewrite lookup_delete_ne, lookup_fmap by done. destruct (tasks w !! u) as [y|] eqn:Hy.
      * destruct (detach_task u y E Hy) as (y' & -> & Hq). simpl. unfold set_queued, place_of in *. congruence.
      * destruct (tasks w1 !! u) as [y'|] eqn:Hy'; [|done]. destruct (detach_task_inv u y' E Hy') as (y & ? & _). congruence.
  - unfold forest_of. simpl. rewrite lookup_fmap, Ht. simpl. destruct (t_scope x) as [s|]; [|done]. by apply fmap_alter_comm.
Qed.

Lemma left_scope_inv s y' : scopes wl !! s = Some y' -> exists y, scopes w !! s = Some y /\ parent y' = parent y /\ opener y' = opener y
    /\ joining y' = joining y /\ s_cancel_req y' = s_cancel_req y
    /\ (t_scope x <> Some s /\ live y' = live y /\ members y' = members y
        \/ t_scope x = Some s /\ live y' = live y - 1 /\ members y' = unlink t (members y)).
Proof.
  rewrite left_scopes. destruct (t_scope x) as [s0|]; [|intros Hy; exists y'; split_and!; auto].
  destruct (decide (s = s0)) as [->|Hne].
  - rewrite lookup_alter_eq. intros (y & Hy & ->)%fmap_Some. exists y. split_and!; auto.
  - rewrite lookup_alter_ne by done. intros Hy. exists y'. split_and!; auto. left. split_and!; [congruence|done|done].
Qed.
Lemma left_scope_old s y : scopes w !! s = Some y -> exists y', scopes wl !! s = Some y'.
Proof.
  intros Hy. rewrite left_scopes. destruct (t_scope x) as [s0|]; [|eauto].
  destruct (decide (s = s0)) as [->|Hne]; [rewrite lookup_alter_eq, Hy; eauto|rewrite lookup_alter_ne by done; eauto].
Qed.

Lemma left_unlisted : t ∉ g_ready w1 ++ g_timers w1.
Proof.
  destruct detach_facts as (_ & _ & Htm & _ & Hr & _). rewrite elem_of_app, Htm. intros [Hin|Hin]; [|done].
  destruct (Hr _ Hin) as [?|(s & y & Hy & _ & Ho)]; [done|]. by eapply no_scopes_of_leaver.
Qed.

(** Deleting an unlisted task keeps the scheduler well formed. *)
Lemma delete_sched u w0 : sched_ok w0 -> u ∉ g_ready w0 ++ g_timers w0 -> sched_ok (with_tasks (delete u (tasks w0)) w0).
Proof.
  intros [S1 S2 S3 S4] Hu. constructor; simpl; [done| | |].
  - intros v Hv. rewrite core_lookup. simpl. rewrite lookup_delete_ne, <- core_lookup by (intros ->; done). by apply S2.
  - intros v y [_ Hy]%lookup_delete_Some. by apply S3.
  - replace (deadline_of (with_tasks (delete u (tasks w0)) w0) <$> g_timers w0) with (deadline_of w0 <$> g_timers w0); [done|].
    apply list_fmap_ext. intros i v Hv. unfold deadline_of. simpl. rewrite lookup_delete_ne; [done|]. intros ->.
    apply Hu, elem_of_app. right. by eapply list_elem_of_lookup_2.
Qed.

Lemma left_ok : rt_ok wl.
Proof.
  destruct detach_facts as (Hs & Hm & _). destruct (moved_flags _ _ Hm) as (_ & _ & _ & Ens & _ & _ & _ & Ent & _).
  destruct detach_base_lists as (_ & _ & _ & _ & Eb1 & Eb2 & _). constructor.
  - apply delete_sched; [done|apply left_unlisted].
  - rewrite left_forest. apply (leave_forest_ok _ (ro_forest _ Hok) t (t_scope x)). rewrite <- Hcur at 2. by apply lookup_place.
  - intros s y' (y & Hy & _)%left_scope_inv. unfold left_rt. simpl. rewrite Ens, Eb1. by eapply (ro_sid _ Hok).
  - intros u y'. rewrite left_task. case_decide as E; [done|]. intros Hy'. unfold left_rt. simpl. rewrite Ent, Eb2.
    destruct (detach_task_inv u y' E Hy') as (y & Hy & _). by eapply (ro_tid _ Hok).
  - intros s y' (y & Hy & _ & _ & _ & _ & [(_ & -> & ->)|(Hsc & -> & ->)])%left_scope_inv; [by eapply (ro_live _ Hok)|].
    rewrite (ro_live _ Hok _ _ Hy). pose proof (lookup_place _ _ _ Ht) as Hp. rewrite Hsc in Hp.
    destruct (fo_member _ (ro_forest _ Hok) _ _ _ Hp) as (n & Hn & Hin). rewrite (lookup_node _ _ _ Hy) in Hn. injection Hn as <-.
    simpl in Hin. clear -Hin. induction (members y) as [|u l IH]; [by apply elem_of_nil in Hin|]. simpl.
    case_decide as E; simpl; [lia|]. apply elem_of_cons in Hin as [->|Hin]; [done|]. specialize (IH Hin). lia.
Qed.

Lemma left_env : env K t w wl.
Proof.
  destruct detach_facts as (Hs & Hm & Htm & Hcl & Hr & Hr' & Hlast).
  destruct (moved_flags _ _ Hm) as (_ & _ & Ecu & _ & _ & _ & Emw & _).
  destruct detach_base_lists as (_ & _ & _ & Eb1 & _ & _ & Eb2 & _).
  assert (Hcu : g_current wl = g_current w) by (unfold left_rt; simpl; congruence).
  apply (env_struct (fun _ => False)); try done.
  - exact left_ok.
  - intros u y Hu Hy. rewrite left_task, decide_False by done. by apply detach_task.
  - intros u Hu [H|H]; [left; congruence|right]. by apply Hr'.
  - intros u Hu _ [H|H]; [left; left; congruence|]. destruct (Hr u H) as [?|?]; [by left; right|right]. by right; right; left.
  - unfold left_rt. simpl. congruence.
  - intros s y Hy _. destruct (left_scope_old s y Hy) as [y' Hy']. exists y'.
    destruct (left_scope_inv s y' Hy') as (z & Hz & E1 & E2 & E3 & E4 & E5). simplify_eq. split_and!; try done.
    intros Hj Hz0. destruct E5 as [(_ & E5 & _)|(Hsc & E5 & _)]; [left; congruence|]. right. right. eapply Hlast; try done. lia.
  - intros s y' Hy' _. destruct (left_scope_inv s y' Hy') as (y & E1 & _ & E2 & E3 & _). eauto.
  - by intros u y l s _ _ _ _ [].
Qed.
End Leave.

(** A channel wakes a task that waits on it. *)
Lemma enqueue_other_env u t w :
  K u -> rt_ok w -> is_Some (tasks w !! u) -> u ∉ g_timers w ->
  rt_ok (task_enqueue u w) /\ env K t w (task_enqueue u w) /\ u ∈ g_ready (task_enqueue u w).
Proof.
  intros HK Hok Ha Hnt. assert (Hcore : is_Some (core w !! u)) by (by rewrite core_lookup, fmap_is_Some).
  pose proof (task_enqueue_ready w (ro_sched _ Hok) u Hcore) as Hr.
  destruct (moved_flags _ _ (task_enqueue_moved u w)) as (_ & _ & Hc & _).
  assert (HH : rt_ok (task_enqueue u w) /\ env K t w (task_enqueue u w));
    [|destruct HH; split_and!; [done|done|by apply enqueue_in_ready; [apply Hok|]]].
  apply env_moved; [done|by apply task_enqueue_ok; [apply Hok|..]|apply task_enqueue_moved| | | |];
    unfold awake; rewrite ?Hc, ?Hr, ?task_enqueue_timers.
  - intros v Hv [H|H]; [by left|right]. case_decide; [done|]. apply elem_of_app. by left.
  - intros v Hv H. by left.
  - done.
  - intros v Hv _ [H|H]; [by left; left|]. case_decide; [by left; right|]. apply elem_of_app in H as [H|H]; [by left; right|].
    apply list_elem_of_singleton in H as ->. by right; right; right; right.
Qed.

(** The exit's decision is taken before the task is freed; it is the same. *)
Lemma decided_delete t w1 next w2 :
  t ∉ g_ready w1 ++ g_timers w1 -> decided w1 (Some next) w2 ->
  decided (with_tasks (delete t (tasks w1)) w1) (Some next) (with_tasks (delete t (tasks w2)) w2).
Proof.
  intros Hnt (Hs & Hm & Hseq & Hsub & Hdue & Hlate). pose proof Hnt as Hnt'. rewrite Hseq in Hnt'.
  assert (Hne : forall u, u ∈ next :: g_ready w2 ++ g_timers w2 -> u <> t) by (intros u Hu ->; done).
  assert (Hd : forall u w0, u <> t -> deadline_of (with_tasks (delete t (tasks w0)) w0) u = deadline_of w0 u)
    by (intros u w0 Hu; unfold deadline_of; simpl; by rewrite lookup_delete_ne).
  split; [apply delete_sched; [done|set_solver]|]. split.
  { destruct Hm as (m & r & l & c & -> & Em & Hc & Hv). exists (delete t m), r, l, c. split_and!; try done.
    rewrite fmap_delete, Em. unfold core. simpl. by rewrite fmap_delete. }
  split; [done|]. split; [done|]. split.
  - intros u Hu. simpl. rewrite Hd by (apply Hne; rewrite app_comm_cons; set_solver). by apply Hdue.
  - simpl. rewrite Forall_forall in Hlate |- *. intros u Hu. rewrite Hd by (apply Hne; rewrite app_comm_cons; set_solver).
    by apply Hlate.
Qed.

(** Main marks whether it waits in the root join. *)
Lemma cancelled_main_waiting b w u : cancelled_t (with_main_waiting b w) u = cancelled_t w u.
Proof.
  unfold cancelled_t. simpl. destruct (tasks w !! u); [|done]. by rewrite (chain_cancelled_ext w (with_main_waiting b w)).
Qed.
Lemma env_main_waiting b w w1 : env K main_task w w1 -> env K main_task w (with_main_waiting b w1).
Proof.
  intros E. constructor; try (by apply E); try done.
  - intros u Hu Ha Haw. unfold wake_reason. rewrite cancelled_main_waiting. by apply E.
  - intros u Hu Ha Hc. rewrite cancelled_main_waiting. by apply E.
Qed.
End Env.
