(* ===== verification/Machine.v ===== *)
(** The task machine: the verbs of [rt_task.c] and of [madc_task_chan.cpp] run
    by many tasks on one processor.

    [call] is what the running task's code calls next, [continue] what a
    context does when control comes back to the place it left; between the
    two stand exactly the switch points of the code, [__madc_task_park],
    [task_switch], the loop of [__madc_task_join_all] and [task_exit_switch].
    User code is not modelled: any task may call any verb at any time. *)
From stdpp Require Import gmap.
From S2P Require Import Prelude Tasks Forest Scopes Channels Switch.
#[local] Open Scope Z_scope.

Section Machine.
Context {V : Type} (null : V) `{Os, IoLayer}.

(** The surface a task's code calls.  [VBodyDone] is the return of the task's
    function, or the exception its catch-all frame caught. *)
Inductive verb :=
| VGo
| VYield
| VSleep (ms : Z)
| VDrain
| VCancelled
| VScopeBegin
| VScopeEnd (h : Z)
| VScopeCancel (h : Z)
| VBlockEnter
| VBlockExit (slot : option sid)
| VBlockLeave (slot : option sid)
| VMake (cap : Z)
| VSend (h : Z) (v : V)
| VRecv (h : Z)
| VTryRecv (h : Z)
| VSelect (hs : option (list Z))
| VClose (h : Z)
| VLen (h : Z)
| VBodyDone (caught : option exn).

Abbreviation chalf := (half (cs (V := V)) frame (res (V := V))).

(** A verb up to its first park. *)
Definition start (v : verb) (c : cs) : chalf :=
  match v with
  | VGo => let '(_, w) := madc_go (c_rt c) in Ret RUnit (with_rt w c)
  | VYield => lift_half c (madc_yield (c_rt c))
  | VSleep ms => lift_half c (task_sleep_ms ms (c_rt c))
  | VDrain => lift_half c (task_join_all (c_rt c))
  | VCancelled => Ret (RBool (task_cancelled (c_rt c))) c
  | VScopeBegin => chan_scope_begin c
  | VScopeEnd h => chan_scope_end h c
  | VScopeCancel h => chan_scope_cancel h c
  | VBlockEnter => let '(s, w) := scope_block_enter (c_rt c) in Ret (RInt (Z.of_nat s)) (with_rt w c)
  | VBlockExit slot => lift_half c (scope_block_exit slot (c_rt c))
  | VBlockLeave slot => lift_half c (scope_block_leave slot (c_rt c))
  | VMake n => chan_make n c
  | VSend h x => chan_send h x c
  | VRecv h => chan_recv null h c
  | VTryRecv h => chan_try_recv null h c
  | VSelect hs => chan_select hs c
  | VClose h => chan_close h c
  | VLen h => chan_len h c
  | VBodyDone e => lift_half c (task_body_done e (c_rt c))
  end.

(** A verb from the place it left. *)
Definition resume (f : frame) (c : cs) : chalf :=
  match f with
  | FRt f => lift_half c (rt_resume f (c_rt c))
  | FSend h => send_resume h c
  | FRecv h => recv_resume null h c
  | FSelectLoop hs => select_loop null hs c
  | FSelect hs => select_resume hs c
  end.

(** The whole state: the statics and the heap, and for every context that is
    not in user code the place it stands at. *)
Record mach := Mach {
  st : cs (V := V);
  frames : gmap tid frame;
}.

Inductive outcome :=
| Running (m : mach) (r : option (res (V := V) + exn))
| Aborted
| Undefined
| OutOfFuel.

Section Fuel.
Context (fuel : nat).

(** [__madc_task_park] with the continuation [f]. *)
Definition task_park (f : frame) (c : cs) (fr : gmap tid frame) : outcome :=
  match task_next_or_wait fuel (c_rt c) with
  | None => OutOfFuel
  | Some (None, _) => Aborted
  | Some (Some next, w) =>
      let fr := <[me c := f]> fr in
      if decide (next = me c) then Running (Mach (with_rt w c) fr) None
      else Running (Mach (with_rt (task_switch next w) c) fr) None
  end.

Definition join_wait (f : frame) (c : cs) (fr : gmap tid frame) : outcome :=
  match task_next_or_wait fuel (c_rt c) with
  | None => OutOfFuel
  | Some (None, _) => Aborted
  | Some (Some next, w) =>
      Running (Mach (with_rt (task_switch next (with_main_waiting true w)) c) (<[me c := f]> fr)) None
  end.

Definition task_exit_switch (c : cs) (fr : gmap tid frame) : outcome :=
  match task_next_or_wait fuel (c_rt c) with
  | None => OutOfFuel
  | Some (next, w) =>
      match match next with Some n => Some n | None => if g_main_waiting w then Some main_task else None end with
      | None => Aborted
      | Some n => Running (Mach (with_rt (task_reap (with_current (Some n) (with_reap (Some (me c)) w))) c) fr) None
      end
  end.

(** The end of a half; [fr] has no place for the running task. *)
Definition finish (h : chalf) (fr : gmap tid frame) : outcome :=
  match h with
  | Ret r c => Running (Mach c fr) (Some (inl r))
  | Throw e c => Running (Mach c fr) (Some (inr e))
  | Goes f c => Running (Mach c (<[me c := f]> fr)) None
  | Parks f c => task_park f c fr
  | Switches f next c => Running (Mach (on_rt (task_switch next) c) (<[me c := f]> fr)) None
  | JoinWaits f c => join_wait f c fr
  | Exits c => task_exit_switch c fr
  | Aborts => Aborted
  | Faults => Undefined
  end.

(** A new context stands at its first entry. *)
Definition new_frames (v : verb) (c : cs (V := V)) (fr : gmap tid frame) : gmap tid frame :=
  match v with VGo => <[(madc_go (c_rt c)).1 := FRt FStart]> fr | _ => fr end.

Definition call (v : verb) (m : mach) : outcome := finish (start v (st m)) (new_frames v (st m) (frames m)).
Definition continue (f : frame) (m : mach) : outcome := finish (resume f (st m)) (delete (me (st m)) (frames m)).
End Fuel.

(** What the caller of a verb guarantees: a block's slot is the task's own, a
    handle's scope has not been freed under it, a body that ends is a task's
    (main ends through [VDrain]). *)
Definition own_scope (c : cs (V := V)) (s : sid) : bool :=
  match scopes (c_rt c) !! s with Some x => bool_decide (opener x = me c) | None => false end.
Definition fresh_handle (c : cs (V := V)) (h : Z) : bool :=
  match g_scopes c !! h with Some s => bool_decide (is_Some (scopes (c_rt c) !! s)) | None => true end.
Definition allowed (v : verb) (c : cs (V := V)) : bool :=
  match v with
  | VScopeEnd h | VScopeCancel h => fresh_handle c h
  | VBlockExit (Some s) | VBlockLeave (Some s) => own_scope c s
  | VBodyDone _ => bool_decide (me c <> main_task)
  | _ => true
  end.

(** One step of the machine. *)
Inductive mstep (m : mach) : outcome -> Prop :=
| step_call v fuel o : frames m !! me (st m) = None -> allowed v (st m) = true ->
    call fuel v m = o -> o <> OutOfFuel -> mstep m o
| step_continue f fuel o : frames m !! me (st m) = Some f ->
    continue fuel f m = o -> o <> OutOfFuel -> mstep m o.

Definition mnext (m m' : mach) : Prop := exists r, mstep m (Running m' r).

(** The start of a program: main runs, nothing else exists. *)
Definition initial (c : time_source) : mach :=
  Mach (Cs (Rt {[ main_task := zero_task ]} ∅ (Some main_task) [] [] 0 None false c 0 1 0) ∅ 1 ∅ ∅ ∅ ∅ 1) ∅.

Definition reachable (c : time_source) (m : mach) : Prop := rtc mnext (initial c) m.

(** A closed run: [script] says which task calls what next; a task that stands
    somewhere is continued first.  The run ends with the script, or when the
    scripted call is not the running task's to make. *)
Fixpoint play (n : nat) (script : list (tid * verb)) (m : mach) : outcome * list (tid * verb) :=
  match n with
  | O => (OutOfFuel, script)
  | S n =>
      match frames m !! me (st m), script with
      | Some f, _ => match continue 3 f m with Running m _ => play n script m | o => (o, script) end
      | None, (t, v) :: r =>
          if decide (t = me (st m) /\ allowed v (st m) = true)
          then match call 3 v m with Running m x => match r with [] => (Running m x, []) | _ => play n r m end | o => (o, r) end
          else (Running m None, script)
      | None, [] => (Running m None, [])
      end
  end.

Lemma play_reachable c n : forall script m m' x r,
  reachable c m -> play n script m = (Running m' x, r) -> reachable c m'.
Proof.
  induction n as [|n IH]; intros script m m' x r Hm Hp; [done|]. simpl in Hp.
  destruct (frames m !! me (st m)) as [f|] eqn:Hf.
  - destruct (continue 3 f m) as [m1 r1| | |] eqn:Hc; try done. eapply IH; [|exact Hp].
    eapply rtc_r; [exact Hm|]. exists r1. by eapply (step_continue _ f 3).
  - destruct script as [|[t v] script]; [by injection Hp as <- <- <-|]. case_decide as Hd; [|by injection Hp as <- <- <-].
    destruct (call 3 v m) as [m1 r1| | |] eqn:Hc; try done.
    assert (Hm1 : reachable c m1) by (eapply rtc_r; [exact Hm|]; exists r1; eapply (step_call _ v 3); tauto || done).
    destruct script; [by injection Hp as <- <- <-|]. by eapply IH.
Qed.
End Machine.
