(* ===== verification/Parked.v ===== *)
(** What must be true of a context that is not running, for the places of
    [rt_task.c]: the invariant of the machine's run-time part, and its
    preservation by every stretch of execution ([Switch.env]).

    [rmid] is the invariant while a task is running; [rinv] the one between
    steps, when the running task too stands at a place or is in user code. *)
From stdpp Require Import gmap.
From S2P Require Import Prelude Tasks Forest Scopes Channels Switch Machine.
#[local] Open Scope Z_scope.

(** [u] waits for the members of [s]. *)
Definition joins (w : rt) (u : tid) (s : sid) : Prop :=
  exists x, scopes w !! s = Some x /\ opener x = u /\ joining x = true /\ cur_of w u = Some s
    /\ (live x = 0 -> awake w u).

Definition opens (w : rt) (u : tid) (s : sid) : Prop := exists x, scopes w !! s = Some x /\ opener x = u.

(** The place [f] of [u] is one [u] can be at, nothing [u] waits for has
    happened without waking it, and nothing else has woken it. *)
Definition ctx_rt (w : rt) (u : tid) (f : rt_frame) : Prop :=
  match f with
  | FStart => awake w u /\ u <> main_task
  | FYield => awake w u
  | FSleep => (u ∈ g_timers w \/ awake w u)
              /\ (awake w u -> deadline_of w u <= time_of (clock w) \/ cancelled_t w u = true)
  | FJoinLoop => g_current w = Some u /\ u = main_task
  | FJoinBack => u = main_task /\ g_main_waiting w = true
  | FEndJoin s => joins w u s
  | FLeaveLoop b => g_current w = Some u /\ opens w u b
  | FLeaveJoin b s => joins w u s /\ opens w u b
  | FExitLoop => g_current w = Some u /\ u <> main_task
  | FExitJoin s => joins w u s /\ u <> main_task
  end.

Definition joins_at (f : frame) : option sid :=
  match f with
  | FRt (FEndJoin s) | FRt (FLeaveJoin _ s) | FRt (FExitJoin s) => Some s
  | _ => None
  end.

(** [t] runs; [j] is the scope it is joining, if any, [b] whether it is main
    back in [__madc_task_join_all]. *)
Record rmid (t : tid) (j : option sid) (b : bool) (w : rt) (fr : gmap tid frame) : Prop := {
  r_ok : rt_ok w;
  r_current : g_current w = Some t;
  r_alloc : is_Some (tasks w !! t);
  r_ready : t ∉ g_ready w;
  r_sleep : t ∉ g_timers w;
  r_reap : g_reap w = None;
  r_main : exists x, tasks w !! main_task = Some x /\ t_scope x = None;
  r_here : fr !! t = None;
  r_place : forall u, u <> t -> is_Some (tasks w !! u) <-> is_Some (fr !! u);
  r_timers : forall u, u ∈ g_timers w -> fr !! u = Some (FRt FSleep);
  r_joining : forall s x, scopes w !! s = Some x -> joining x = true -> opener x <> t ->
    exists f, fr !! opener x = Some f /\ joins_at f = Some s;
  r_own : forall s x, scopes w !! s = Some x -> joining x = true -> opener x = t -> j = Some s;
  r_waiting : g_main_waiting w = true -> fr !! main_task = Some (FRt FJoinBack) \/ t = main_task /\ b = true;
  r_ctx : forall u f, fr !! u = Some (FRt f) -> ctx_rt w u f;
  r_live : g_live w = Z.of_nat (size (tasks w)) - 1;
}.

Record rinv (w : rt) (fr : gmap tid frame) : Prop := {
  v_ok : rt_ok w;
  v_current : exists t, g_current w = Some t /\ is_Some (tasks w !! t) /\ (t ∉ g_ready w) /\ (t ∉ g_timers w);
  v_reap : g_reap w = None;
  v_main : exists x, tasks w !! main_task = Some x /\ t_scope x = None;
  v_place : forall u, g_current w <> Some u -> is_Some (tasks w !! u) -> is_Some (fr !! u);
  v_alloc : forall u, is_Some (fr !! u) -> is_Some (tasks w !! u);
  v_timers : forall u, u ∈ g_timers w -> fr !! u = Some (FRt FSleep);
  v_joining : forall s x, scopes w !! s = Some x -> joining x = true ->
    exists f, fr !! opener x = Some f /\ joins_at f = Some s;
  v_waiting : g_main_waiting w = true -> fr !! main_task = Some (FRt FJoinBack);
  v_ctx : forall u f, fr !! u = Some (FRt f) -> ctx_rt w u f;
  v_live : g_live w = Z.of_nat (size (tasks w)) - 1;
}.

(** ** From the one to the other *)

Definition is_back (f : frame) : bool := match f with FRt FJoinBack => true | _ => false end.

(** The running task leaves its place. *)
Lemma rinv_run w fr t f :
  rinv w fr -> g_current w = Some t -> fr !! t = Some f ->
  rmid t (joins_at f) (is_back f) w (delete t fr).
Proof.
  intros I Hc Hf. destruct (v_current _ _ I) as (t' & Hc' & Ha & Hr & Hs). rewrite Hc in Hc'. injection Hc' as <-.
  constructor; try (by apply I); try done.
  - by rewrite lookup_delete_eq.
  - intros u Hu. rewrite lookup_delete_ne by done. split; [|apply I]. intros Hau. apply I; [congruence|done].
  - intros u Hu. rewrite lookup_delete_ne by (intros ->; done). by apply I.
  - intros s x Hx Hj Ho. rewrite lookup_delete_ne by done. by apply I.
  - intros s x Hx Hj Ho. destruct (v_joining _ _ I s x Hx Hj) as (f' & Hf' & Hjs). congruence.
  - intros Hw. apply (v_waiting _ _ I) in Hw. destruct (decide (t = main_task)) as [->|Hne]; [right|left; by rewrite lookup_delete_ne].
    split; [done|]. rewrite Hf in Hw. injection Hw as ->. done.
  - intros u f' [_ Hu]%lookup_delete_Some. by apply I.
Qed.

Lemma rinv_free w fr t : rinv w fr -> g_current w = Some t -> fr !! t = None -> rmid t None false w fr.
Proof.
  intros I Hc Hf. destruct (v_current _ _ I) as (t' & Hc' & Ha & Hr & Hs). rewrite Hc in Hc'. injection Hc' as <-.
  constructor; try (by apply I); try done.
  - intros u Hu. split; [|apply I]. intros Hau. apply I; [congruence|done].
  - intros s x Hx Hj _. by apply I.
  - intros s x Hx Hj Ho. destruct (v_joining _ _ I s x Hx Hj) as (f' & Hf' & Hjs). congruence.
  - intros Hw. left. by apply I.
Qed.

(** It is back in user code. *)
Lemma rmid_ret w fr t : rmid t None false w fr -> rinv w fr.
Proof.
  intros M. pose proof (r_current _ _ _ _ _ M) as Hc. constructor; try (by apply M).
  - exists t. split_and!; apply M.
  - intros u Hu Ha. apply (r_place _ _ _ _ _ M); [congruence|done].
  - intros u Hu. destruct (decide (u = t)) as [->|Hne]; [apply M|by apply (r_place _ _ _ _ _ M)].
  - intros s x Hx Hj. apply (r_joining _ _ _ _ _ M s x Hx Hj). intros Ho. by pose proof (r_own _ _ _ _ _ M s x Hx Hj Ho).
  - intros Hw. by destruct (r_waiting _ _ _ _ _ M Hw) as [?|[_ ?]].
Qed.

(** It goes to a place without giving up the processor. *)
Lemma rmid_goes w fr t j f :
  rmid t j false w fr -> (forall f', f = FRt f' -> ctx_rt w t f') -> (j = None \/ joins_at f = j) -> rinv w (<[t := f]> fr).
Proof.
  intros M Hctx Hj. pose proof (r_current _ _ _ _ _ M) as Hc. pose proof (r_here _ _ _ _ _ M) as Hh. constructor; try (by apply M).
  - exists t. split_and!; apply M.
  - intros u Hu Ha. rewrite lookup_insert_ne by congruence. apply (r_place _ _ _ _ _ M); [congruence|done].
  - intros u Hu. destruct (decide (u = t)) as [->|Hne]; [apply M|]. rewrite lookup_insert_ne in Hu by done. by apply (r_place _ _ _ _ _ M).
  - intros u Hu. rewrite lookup_insert_ne; [by apply M|]. intros ->. by apply M in Hu.
  - intros s x Hx Hjo. destruct (decide (opener x = t)) as [Ho|Ho].
    + rewrite Ho, lookup_insert_eq. exists f. split; [done|]. pose proof (r_own _ _ _ _ _ M s x Hx Hjo Ho) as Hj'.
      destruct Hj as [Hj|Hj]; congruence.
    + rewrite lookup_insert_ne by done. by apply (r_joining _ _ _ _ _ M).
  - intros Hw. destruct (r_waiting _ _ _ _ _ M Hw) as [Hw'|[_ ?]]; [|done]. rewrite lookup_insert_ne; [done|]. congruence.
  - intros u f'. destruct (decide (u = t)) as [->|Hne]; [rewrite lookup_insert_eq; intros [= ->]; by apply Hctx|].
    rewrite lookup_insert_ne by done. apply M.
Qed.

(** ** Stability *)

Lemma awake_self w t : g_current w = Some t -> awake w t.
Proof. by left. Qed.

Lemma joins_env K t w w' u s :
  env K t w w' -> u <> t -> is_Some (tasks w !! u) -> joins w u s -> joins w' u s.
Proof.
  intros E Hu Ha (x & Hx & Ho & Hj & Hc & Hl). destruct (e_scope _ _ _ _ E s x Hx) as (x' & Hx' & Ho' & Hj' & Hl'); [congruence|].
  exists x'. split_and!; [done|congruence|congruence| |].
  - destruct (e_cur _ _ _ _ E u Hu Ha) as [-> _]. done.
  - intros H0. destruct (Hl' Hj H0) as [H|H]; [apply (e_awake _ _ _ _ E u Hu); auto|by rewrite <- Ho].
Qed.

Lemma opens_env K t w w' u s : env K t w w' -> u <> t -> opens w u s -> opens w' u s.
Proof.
  intros E Hu (x & Hx & Ho). destruct (e_scope _ _ _ _ E s x Hx) as (x' & Hx' & Ho' & _); [congruence|].
  exists x'. split; [done|congruence].
Qed.

(** A place of another task survives what the running task does. *)
Lemma ctx_env (K : tid -> Prop) t w w' (fr : gmap tid frame) u f :
  env K t w w' -> g_current w = Some t -> u <> t -> is_Some (tasks w !! u) -> fr !! u = Some (FRt f) -> (f = FSleep -> ~ K u) ->
  (forall s x, scopes w !! s = Some x -> joining x = true -> opener x <> t -> exists f, fr !! opener x = Some f /\ joins_at f = Some s) ->
  (t = main_task \/ g_main_waiting w' = g_main_waiting w) ->
  ctx_rt w u f -> ctx_rt w' u f.
Proof.
  intros E Hc Hu Ha Hf HK Hjo Hmw Hx. destruct f; simpl in *; try (destruct Hx as [Hx _]; congruence).
  - destruct Hx as [Hx1 Hx2]. split; [by apply (e_awake _ _ _ _ E)|done].
  - by apply (e_awake _ _ _ _ E).
  - destruct Hx as [H1 H2]. split.
    + destruct H1 as [H1|H1]; [by apply (e_sleep _ _ _ _ E)|right; by apply (e_awake _ _ _ _ E)].
    + rewrite (e_deadline _ _ _ _ E) by done. pose proof (e_time _ _ _ _ E).
      intros Haw. destruct (e_wake _ _ _ _ E u Hu Ha Haw) as [Haw'|[[_ Hd]|[Hcu|[(s & x & Hsx & Hj & Ho)|HK']]]]; [|by left|by right| |by destruct (HK eq_refl)].
      * destruct (H2 Haw') as [Hd|Hcu]; [left; lia|right; by apply (e_cancel _ _ _ _ E)].
      * destruct (Hjo s x Hsx Hj) as (f & Hf' & Hjf); [congruence|]. rewrite Ho, Hf in Hf'. by injection Hf' as <-.
  - destruct Hx as [-> Hx]. split; [done|]. destruct Hmw as [->| ->]; done.
  - by eapply joins_env.
  - destruct Hx. split; [by eapply joins_env|by eapply opens_env].
  - destruct Hx. split; [by eapply joins_env|done].
Qed.

(** What a stretch keeps besides [env]: who exists, and to whom the stretch belongs. *)
Record keeps (t : tid) (w w' : rt) : Prop := {
  k_ok : rt_ok w';
  k_dom : forall u, is_Some (tasks w' !! u) <-> is_Some (tasks w !! u);
  k_size : size (tasks w') = size (tasks w);
  k_live : g_live w' = g_live w;
  k_reap : g_reap w' = g_reap w;
  k_scope : scope_of w' t = scope_of w t;
}.

Lemma keeps_refl t w : rt_ok w -> keeps t w w.
Proof. by constructor. Qed.
Lemma keeps_trans t w1 w2 w3 : keeps t w1 w2 -> keeps t w2 w3 -> keeps t w1 w3.
Proof. intros [] []. constructor; try done; try congruence. intros u. naive_solver. Qed.

Lemma dom_size (m m' : gmap tid madc_task) : dom m = dom m' -> size m = size m'.
Proof. intros H. by rewrite <- !size_dom, H. Qed.

Lemma core_keeps t w w' :
  rt_ok w' -> core w' = core w -> g_live w' = g_live w -> g_reap w' = g_reap w -> keeps t w w'.
Proof.
  intros Hok Hc Hl Hr. assert (Hd : dom (tasks w') = dom (tasks w)).
  { rewrite <- (dom_fmap_L (set_queued false) (tasks w')), <- (dom_fmap_L (set_queued false) (tasks w)).
    change (dom (core w') = dom (core w)). by rewrite Hc. }
  constructor; try done.
  - intros u. by rewrite <- !elem_of_dom, Hd.
  - by apply dom_size.
  - apply (f_equal (fun m => m !! t)) in Hc. rewrite !core_lookup in Hc. unfold scope_of.
    destruct (tasks w' !! t), (tasks w !! t); simpl in Hc; try done. unfold set_queued in Hc. congruence.
Qed.
Lemma moved_keeps t w w' : rt_ok w' -> moved w w' -> keeps t w w'.
Proof.
  intros Hok Hm. destruct (moved_flags _ _ Hm) as (_ & _ & _ & _ & ? & ? & _). apply core_keeps; try done. by apply moved_core.
Qed.
Lemma upd_task_keeps t g u w :
  rt_ok (upd_task g u w) -> (forall x, t_scope (g x) = t_scope x) -> keeps t w (upd_task g u w).
Proof.
  intros Hok Hg. constructor; try done.
  - intros v. simpl. destruct (decide (v = u)) as [->|Hn]; [|by rewrite lookup_alter_ne].
    rewrite lookup_alter_eq. by destruct (tasks w !! u); simpl; split; intros []; eauto.
  - simpl. apply dom_size. apply dom_alter_L.
  - unfold scope_of. simpl. destruct (decide (t = u)) as [->|Hn]; [|by rewrite lookup_alter_ne].
    rewrite lookup_alter_eq. by destruct (tasks w !! u); simpl.
Qed.
Lemma with_scopes_keeps t m w : rt_ok (with_scopes m w) -> keeps t w (with_scopes m w).
Proof. by constructor. Qed.

Section Mid.
Context (K : tid -> Prop) (t : tid) (j : option sid) (b : bool) (w w' : rt) (fr : gmap tid frame).
Context (M : rmid t j b w fr) (E : env K t w w') (Hk : keeps t w w').
Context (HK : forall u, K u -> fr !! u <> Some (FRt FSleep)).

Lemma mid_ctx u f :
  (t = main_task \/ g_main_waiting w' = g_main_waiting w) -> fr !! u = Some (FRt f) -> ctx_rt w' u f.
Proof.
  intros Hm Hu. assert (Hne : u <> t) by (intros ->; rewrite (r_here _ _ _ _ _ M) in Hu; done).
  eapply ctx_env; try done; [apply M|by apply (r_place _ _ _ _ _ M)|intros -> Hku; by eapply HK|apply M|by apply M].
Qed.

Lemma mid_timers u : u <> t -> u ∈ g_timers w' -> fr !! u = Some (FRt FSleep).
Proof. intros Hu Hin. apply M. by apply (e_timers _ _ _ _ E). Qed.

Lemma mid_joining s x : scopes w' !! s = Some x -> joining x = true -> opener x <> t ->
  exists f, fr !! opener x = Some f /\ joins_at f = Some s.
Proof.
  intros Hs Hj Ho. destruct (e_scope_inv _ _ _ _ E s x Hs Ho) as (y & Hy & Eo & Ej). rewrite <- Eo.
  apply (r_joining _ _ _ _ _ M s y Hy); congruence.
Qed.

Lemma mid_main : exists x, tasks w' !! main_task = Some x /\ t_scope x = None.
Proof.
  destruct (r_main _ _ _ _ _ M) as (x & Hx & Hs).
  assert (Ha : is_Some (tasks w' !! main_task)) by (apply (k_dom _ _ _ Hk); by rewrite Hx).
  destruct Ha as [x' Hx']. exists x'. split; [done|].
  assert (Hsc : scope_of w' main_task = scope_of w main_task).
  { destruct (decide (main_task = t)) as [->|Hne]; [apply Hk|]. apply (e_cur _ _ _ _ E); [done|by rewrite Hx]. }
  unfold scope_of in Hsc. rewrite Hx, Hx' in Hsc. congruence.
Qed.

(** The stretch goes on. *)
Lemma rmid_env j' b' :
  g_current w' = Some t -> (t ∉ g_ready w') -> (t ∉ g_timers w') ->
  (forall s x, scopes w' !! s = Some x -> joining x = true -> opener x = t -> j' = Some s) ->
  (g_main_waiting w' = g_main_waiting w /\ b' = b \/ t = main_task /\ (g_main_waiting w' = true -> b' = true)) ->
  rmid t j' b' w' fr.
Proof.
  intros Hc Hr Hs Hj Hw. constructor; try done.
  - apply Hk.
  - apply Hk, M.
  - rewrite (k_reap _ _ _ Hk). apply M.
  - exact mid_main.
  - apply M.
  - intros u Hu. rewrite (k_dom _ _ _ Hk). by apply M.
  - intros u Hu. apply mid_timers; [|done]. intros ->. done.
  - exact mid_joining.
  - intros Hmw. destruct Hw as [[Hw ->]|[-> Hw]]; [rewrite Hw in Hmw; by apply M|right; auto].
  - intros u f. apply mid_ctx. destruct Hw as [[Hw _]|[Hw _]]; auto.
  - rewrite (k_live _ _ _ Hk), (k_size _ _ _ Hk). apply M.
Qed.

(** The stretch ends at a place, and [n] runs. *)
Lemma rmid_leave f n :
  g_current w' = Some n -> is_Some (tasks w' !! n) -> (n ∉ g_ready w') -> (n ∉ g_timers w') ->
  (t ∈ g_timers w' -> f = FRt FSleep) ->
  (forall s x, scopes w' !! s = Some x -> joining x = true -> opener x = t -> joins_at f = Some s) ->
  (g_main_waiting w' = true -> b = false /\ g_main_waiting w = true /\ t <> main_task \/ t = main_task /\ f = FRt FJoinBack) ->
  (t = main_task \/ g_main_waiting w' = g_main_waiting w) ->
  (forall f', f = FRt f' -> ctx_rt w' t f') -> rinv w' (<[t := f]> fr).
Proof.
  intros Hc Ha Hr Hs Ht Hj Hw Hw' Hctx. constructor.
  - apply Hk.
  - exists n. split_and!; done.
  - rewrite (k_reap _ _ _ Hk). apply M.
  - exact mid_main.
  - intros u _ Hu. destruct (decide (u = t)) as [->|Hne]; [by rewrite lookup_insert_eq|]. rewrite lookup_insert_ne by done.
    apply (r_place _ _ _ _ _ M); [done|]. by apply (k_dom _ _ _ Hk).
  - intros u Hu. apply (k_dom _ _ _ Hk). destruct (decide (u = t)) as [->|Hne]; [apply M|]. rewrite lookup_insert_ne in Hu by done.
    by apply (r_place _ _ _ _ _ M).
  - intros u Hu. destruct (decide (u = t)) as [->|Hne]; [rewrite lookup_insert_eq; f_equal; auto|].
    rewrite lookup_insert_ne by done. by apply mid_timers.
  - intros s x Hx Hjo. destruct (decide (opener x = t)) as [Ho|Ho]; [rewrite Ho, lookup_insert_eq; eauto|].
    rewrite lookup_insert_ne by done. by apply mid_joining.
  - intros Hmw. destruct (Hw Hmw) as [(Hb & Hmw' & Hne)|[-> ->]]; [|by rewrite lookup_insert_eq].
    rewrite lookup_insert_ne by done. by destruct (r_waiting _ _ _ _ _ M Hmw') as [?|[? _]].
  - intros u f'. destruct (decide (u = t)) as [->|Hne]; [rewrite lookup_insert_eq; intros [= ->]; by apply Hctx|].
    rewrite lookup_insert_ne by done. by apply mid_ctx.
  - rewrite (k_live _ _ _ Hk), (k_size _ _ _ Hk). apply M.
Qed.
End Mid.

(** ** Parking *)

Definition NoK : tid -> Prop := fun _ => False.

(** What a place needs of a scope its context waits on, besides the wake-up. *)
Definition waits_for (w : rt) (t : tid) (f : frame) : Prop :=
  match f with
  | FRt (FEndJoin s) | FRt (FLeaveJoin _ s) | FRt (FExitJoin s) =>
      exists x, scopes w !! s = Some x /\ opener x = t /\ joining x = true /\ cur_of w t = Some s /\ 0 < live x
  | _ => True
  end.

(** The state in which [t] calls [__madc_task_park] with the continuation [f]:
    the invariant held at [w0], since when only [t]'s own doings happened. *)
Definition pre_park (t : tid) (f : frame) (w : rt) (fr : gmap tid frame) : Prop :=
  exists w0 j, rmid t j false w0 fr /\ env NoK t w0 w /\ keeps t w0 w /\ g_current w = Some t /\ (t ∉ g_ready w)
    /\ (t ∈ g_timers w <-> f = FRt FSleep) /\ g_main_waiting w = g_main_waiting w0
    /\ (forall s x, scopes w !! s = Some x -> joining x = true -> opener x = t -> joins_at f = Some s)
    /\ waits_for w t f
    /\ match f with
       | FRt (FLeaveJoin b _) => opens w t b
       | FRt (FExitJoin _) => t <> main_task
       | FRt FSleep | FRt (FEndJoin _) => True
       | FRt _ => False
       | _ => True
       end.

(** The context of the parked task, once another has been picked. *)
Lemma parked_ctx t f w fr n w2 m :
  pre_park t f w fr -> decided w (Some n) w2 ->
  forall f', f = FRt f' -> ctx_rt (with_current (Some n) (with_switch_count m w2)) t f'.
Proof.
  intros (w0 & j & M & E & Hk & Hc & Hr & Ht & Hmw & Hj & Hwf & Hx) (Hs & Hm & Hseq & Hsub & Hdue & _) f' ->.
  set (w3 := with_current (Some n) (with_switch_count m w2)).
  destruct (moved_flags _ _ Hm) as (Esc & _).
  assert (Hcur : cur_of w3 t = cur_of w t).
  { pose proof (moved_core _ _ Hm) as Hco. apply (f_equal (fun m => m !! t)) in Hco. rewrite !core_lookup in Hco.
    unfold cur_of, w3. simpl. destruct (tasks w2 !! t), (tasks w !! t); simpl in Hco; try done. unfold set_queued in Hco. congruence. }
  assert (Hjoin : forall s, (exists x, scopes w !! s = Some x /\ opener x = t /\ joining x = true /\ cur_of w t = Some s /\ 0 < live x) -> joins w3 t s).
  { intros s (x & Hsx & Ho & Hjo & Hcs & Hl). exists x. rewrite Hcur. simpl. rewrite Esc. split_and!; try done. lia. }
  destruct f'; try done; simpl in Hwf.
  - assert (Hin : t ∈ g_timers w) by by apply Ht. split.
    + assert (Hin' : t ∈ n :: g_ready w2 ++ g_timers w2) by (rewrite <- Hseq; set_solver).
      apply elem_of_cons in Hin' as [->|[Hin'|Hin']%elem_of_app]; [right; by left|right; by right|by left].
    + intros Haw. left. change (deadline_of w3 t) with (deadline_of w2 t). rewrite (moved_deadline w w2) by done.
      assert (Hin' : t ∈ n :: g_ready w2) by (destruct Haw as [Haw|Haw]; [injection Haw as ->; by left|by right]).
      by destruct (Hdue t Hin').
  - by apply Hjoin.
  - split; [by apply Hjoin|]. destruct Hx as (x & Hx & Ho). exists x. simpl. by rewrite Esc.
  - split; [by apply Hjoin|done].
Qed.

(** Parking: whoever is picked, the invariant holds again. *)
Lemma park_rinv t f w fr n w2 m :
  pre_park t f w fr -> decided w (Some n) w2 ->
  let w3 := with_current (Some n) (with_switch_count m w2) in
  rinv w3 (<[t := f]> fr) /\ env NoK t w w3 /\ g_reap w3 = None.
Proof.
  intros P D w3. pose proof (parked_ctx t f w fr n w2 m P D) as Hctx. fold w3 in Hctx.
  destruct P as (w0 & j & M & E & Hk & Hc & Hr & Ht & Hmw & Hj & Hwf & Hx).
  destruct (pick_env NoK t w n w2 m (k_ok _ _ _ Hk) Hc D) as (Hok3 & E3 & Hn1 & Hn2 & Ha & _). fold w3 in Hok3, E3, Hn1, Hn2, Ha.
  pose proof D as (_ & Hm & _ & Hsub & _). destruct (moved_flags _ _ Hm) as (Esc & _ & _ & _ & El & Er & Emw & _).
  assert (Hk3 : keeps t w w3) by (apply core_keeps; [done|apply (moved_core _ _ Hm)|done|done]).
  split_and!; [|done|simpl; rewrite Er, (k_reap _ _ _ Hk); apply M].
  apply (rmid_leave NoK t j false w0 w3 fr M) with (n := n); try done.
  - by transitivity w.
  - by eapply keeps_trans.
  - intros Hin. apply Ht. by apply Hsub.
  - intros s x. simpl. rewrite Esc. apply Hj.
  - simpl. rewrite Emw, Hmw. intros Hw. destruct (decide (t = main_task)) as [->|Hne]; [|by left].
    exfalso. destruct (r_waiting _ _ _ _ _ M Hw) as [Hf|[_ ?]]; [|done]. by rewrite (r_here _ _ _ _ _ M) in Hf.
  - right. simpl. by rewrite Emw, Hmw.
Qed.

(** ** The halves of [rt_task.c] *)

(** What a half must establish, by the way it ends. *)
Definition half_ok (w : rt) (t : tid) (fr : gmap tid frame) (h : rhalf) : Prop :=
  match h with
  | Ret _ w' | Throw _ w' => rmid t None false w' fr /\ env NoK t w w'
  | Goes f w' => rinv w' (<[t := FRt f]> fr) /\ g_current w' = Some t /\ env NoK t w w'
  | Parks f w' => pre_park t (FRt f) w' fr /\ env NoK t w w'
  | Switches f n w' => rinv (task_switch n w') (<[t := FRt f]> fr) /\ self w' = t /\ env NoK t w (task_switch n w')
  | JoinWaits f w' => rmid t None false w' fr /\ env NoK t w w' /\ t = main_task /\ f = FJoinBack
  | Exits w' => exists w0 x, rmid t None false w0 fr /\ env NoK t w w0 /\ tasks w0 !! t = Some x /\ cur x = t_scope x
                 /\ t <> main_task /\ w' = with_live (g_live w0 - 1) (scope_detach t w0)
  | Aborts => True
  | Faults => False
  end.

Lemma half_ok_env w w0 t fr h : env NoK t w w0 -> half_ok w0 t fr h -> half_ok w t fr h.
Proof.
  intros E. destruct h; simpl; try done.
  - intros [? ?]. split; [done|by transitivity w0].
  - intros [? ?]. split; [done|by transitivity w0].
  - intros (? & ? & ?). split_and!; [done|done|by transitivity w0].
  - intros [? ?]. split; [done|by transitivity w0].
  - intros (? & ? & ?). split_and!; [done|done|by transitivity w0].
  - intros (? & ? & ? & ?). split_and!; [done|by transitivity w0|done|done].
  - intros (w2 & x & ? & ? & ? & ? & ? & ?). exists w2, x. split_and!; try done. by transitivity w0.
Qed.

Section Halves.
Context (t : tid) (fr : gmap tid frame).
#[local] Abbreviation mid := (rmid t None false).

Lemma mid_self w j b : rmid t j b w fr -> self w = t.
Proof. intros M. unfold self. by rewrite (r_current _ _ _ _ _ M). Qed.
Lemma mid_init w j b : rmid t j b w fr -> task_runtime_init w = w.
Proof. intros M. unfold task_runtime_init. by rewrite (r_current _ _ _ _ _ M). Qed.
Lemma mid_task w j b : rmid t j b w fr -> exists x, tasks w !! t = Some x.
Proof. intros M. destruct (r_alloc _ _ _ _ _ M) as [x Hx]. eauto. Qed.
Lemma mid_not_joining w s x : mid w fr -> scopes w !! s = Some x -> opener x = t -> joining x = false.
Proof.
  intros M Hs Ho. destruct (joining x) eqn:Hj; [|done]. by pose proof (r_own _ _ _ _ _ M s x Hs Hj Ho).
Qed.

(** A stretch of quiet steps: the scheduler's lists, flags, own fields. *)
Lemma mid_quiet w w' j b :
  rmid t j b w fr -> env NoK t w w' -> keeps t w w' -> g_current w' = Some t -> (t ∉ g_ready w') -> (t ∉ g_timers w') ->
  (forall s x, scopes w' !! s = Some x -> joining x = true -> opener x = t -> j = Some s) ->
  g_main_waiting w' = g_main_waiting w -> rmid t j b w' fr.
Proof. intros M E Hk Hc Hr Hs Hj Hw. apply (rmid_env NoK t j b w w' fr M E Hk); try done. by left. Qed.

Lemma ret_ok w : mid w fr -> half_ok w t fr (Ret tt w).
Proof. intros M. split; [done|reflexivity]. Qed.
Lemma throw_ok w e : mid w fr -> half_ok w t fr (Throw e w).
Proof. intros M. split; [done|reflexivity]. Qed.
Lemma goes_ok w j f :
  rmid t j false w fr -> ctx_rt w t f -> (j = None \/ joins_at (FRt f) = j) -> half_ok w t fr (Goes f w).
Proof.
  intros M Hx Hj. split; [|split; [apply M|reflexivity]]. eapply rmid_goes; [done| |done]. by intros f' [= <-].
Qed.

(** Firing what is due. *)
Lemma fire_due_mid `{OsLaws} w j b :
  rmid t j b w fr -> rmid t j b (timer_fire_due w) fr /\ env NoK t w (timer_fire_due w).
Proof.
  intros M. pose proof (timer_fire_due_spec w (ro_sched _ (r_ok _ _ _ _ _ M))) as D.
  destruct (due_fired_env NoK t _ _ (r_ok _ _ _ _ _ M) D) as [Hok E]. split; [|done].
  destruct D as (_ & Hm & due & D1 & D2 & _). destruct (moved_flags _ _ Hm) as (Esc & _ & Ec & _ & _ & _ & Emw & _).
  pose proof (r_ready _ _ _ _ _ M). pose proof (r_sleep _ _ _ _ _ M) as Hns. rewrite D1 in Hns.
  apply (mid_quiet w); try done.
  - by apply moved_keeps.
  - rewrite Ec. apply M.
  - rewrite D2. set_solver.
  - set_solver.
  - intros s x. rewrite Esc. apply M.
Qed.

(** Reading the clock. *)
Lemma time_now_mid `{OsLaws} w now w' j b :
  rmid t j b w fr -> time_now_ms w = (now, w') -> rmid t j b w' fr /\ env NoK t w w'.
Proof.
  intros M E. apply time_now_spec in E as (c & -> & _ & Hc & Hv).
  destruct (with_clock_env NoK t c w (r_ok _ _ _ _ _ M) Hc Hv) as [Hok E]. split; [|done].
  apply (mid_quiet w); try done; try (by apply M).
Qed.

(** An assignment to one of the running task's own fields. *)
Lemma upd_self_mid g w j b :
  rmid t j b w fr -> (forall x, place_of (g x) = place_of x) -> (forall x, queued (g x) = queued x) ->
  rmid t j b (upd_task g t w) fr /\ env NoK t w (upd_task g t w).
Proof.
  intros M Hp Hq. destruct (upd_self_env NoK t g w (r_ok _ _ _ _ _ M) (r_sleep _ _ _ _ _ M) Hp Hq) as [Hok E].
  split; [|done]. apply (mid_quiet w); try done; try apply M.
  apply upd_task_keeps; [done|]. intros x. specialize (Hp x). unfold place_of in Hp. congruence.
Qed.

(** Cancelling a scope's subtree. *)
Lemma cancel_step_static D w w' :
  rt_ok w -> cancel_step D w w' -> g_current w = Some t ->
  keeps t w w' /\ g_current w' = g_current w /\ g_main_waiting w' = g_main_waiting w
  /\ (t ∈ g_ready w' -> t ∈ g_ready w) /\ (t ∈ g_timers w' -> t ∈ g_timers w)
  /\ (forall c, (fun x => (opener x, joining x)) <$> scopes w' !! c = (fun x => (opener x, joining x)) <$> scopes w !! c).
Proof.
  intros Hok H Hc. pose proof (cancel_step_ok _ _ _ Hok H) as Hok'. destruct H as [s _ _|s v _ _ _|s v _ _ Hne Hv _].
  - split_and!; try done. intros c. simpl. destruct (decide (c = s)) as [->|Hn]; [|by rewrite lookup_alter_ne].
    rewrite lookup_alter_eq. by destruct (scopes w !! s).
  - split_and!; try done. by apply upd_task_keeps.
  - assert (Hm : moved w (task_enqueue v (timer_unlink v w)))
      by (transitivity (timer_unlink v w); [apply timer_unlink_moved|apply task_enqueue_moved]).
    destruct (moved_flags _ _ Hm) as (Esc & _ & Ec & _ & _ & _ & Emw & _). split_and!; try done.
    + by apply moved_keeps.
    + rewrite task_enqueue_ready; [|by apply timer_unlink_ok, Hok|by rewrite core_lookup, fmap_is_Some]. case_decide; [done|].
      intros [Hin|Hin]%elem_of_app; [done|]. apply list_elem_of_singleton in Hin. congruence.
    + rewrite task_enqueue_timers. simpl. pose proof (ok_nodup _ (ro_sched _ Hok)) as Hnd.
      apply NoDup_app in Hnd as (_ & _ & Hnd). rewrite unlink_elem by done. by intros [? _].
    + intros c. by rewrite Esc.
Qed.

Lemma cancel_steps_mid D w w' j b :
  rmid t j b w fr -> rtc (cancel_step D) w w' ->
  rmid t j b w' fr /\ env NoK t w w'
  /\ (forall c, (fun x => (opener x, joining x)) <$> scopes w' !! c = (fun x => (opener x, joining x)) <$> scopes w !! c).
Proof.
  intros M H. induction H as [w|w w2 w' H H' IH]; [by split; [|split; [reflexivity|]]|].
  destruct (cancel_step_env NoK D t _ _ (r_ok _ _ _ _ _ M) H) as [Hok2 E].
  destruct (cancel_step_static D w w2 (r_ok _ _ _ _ _ M) H (r_current _ _ _ _ _ M)) as (Hk & Hc & Hmw & Hr & Ht & Hsc).
  destruct IH as (M' & E' & Hsc').
  - apply (mid_quiet w); try done.
    + rewrite Hc. apply M.
    + intros Hin%Hr. by apply (r_ready _ _ _ _ _ M).
    + intros Hin%Ht. by apply (r_sleep _ _ _ _ _ M).
    + intros s x Hs Hj Ho. specialize (Hsc s). rewrite Hs in Hsc. simpl in Hsc.
      destruct (scopes w !! s) as [y|] eqn:Hy; [|done]. simpl in Hsc. eapply (r_own _ _ _ _ _ M s y); congruence.
  - split_and!; [done|by transitivity w2|]. intros c. by rewrite Hsc'.
Qed.

Lemma cancel_walk_mid s w j b :
  rmid t j b w fr -> is_Some (scopes w !! s) ->
  let w' := scope_cancel_walk s w in
  rmid t j b w' fr /\ env NoK t w w' /\ forest_of w' = forest_of w
  /\ (forall c x, scopes w !! c = Some x -> exists x', scopes w' !! c = Some x' /\ opener x' = opener x /\ joining x' = joining x).
Proof.
  intros M Hs w'. pose proof (scope_cancel_walk_steps s w (r_ok _ _ _ _ _ M) Hs) as Hst. fold w' in Hst.
  destruct (cancel_steps_mid _ _ _ _ _ M Hst) as (M' & E & Hsc). split_and!; try done.
  - apply grows_forest. by eapply cancel_steps_grow.
  - intros c x Hx. specialize (Hsc c). rewrite Hx in Hsc. simpl in Hsc. destruct (scopes w' !! c) as [x'|]; [|done].
    exists x'. simpl in Hsc. split_and!; congruence.
Qed.

Context `{HO : OsLaws, !IoLayer, !NoIoWaiters}.

(** [__madc_task_sleep_ms], and its return. *)
Lemma sleep_ok ms w : mid w fr -> half_ok w t fr (task_sleep_ms ms w).
Proof.
  intros M. unfold task_sleep_ms. rewrite (mid_init _ _ _ M). destruct (task_cancelled w); [by apply throw_ok|].
  destruct (time_now_ms w) as [now w1] eqn:En. destruct (time_now_mid _ _ _ _ _ M En) as [M1 E1].
  rewrite (mid_self _ _ _ M1). set (g := set_deadline _).
  destruct (upd_self_mid g w1 _ _ M1) as [M2 E2]; [done|done|]. set (w2 := upd_task g t w1) in *.
  rewrite (mid_self _ _ _ M2). destruct (timer_insert_env NoK t w2) as (Hok3 & E3 & Hin); try apply M2. simpl. split.
  - exists w2, None. split_and!; try done; try apply M2.
  - transitivity w1; [done|]. by transitivity w2.
Qed.

Lemma sleep_resume_ok w : mid w fr -> half_ok w t fr (sleep_resume w).
Proof.
  intros M. unfold sleep_resume. destruct (task_cancelled w); [|by apply ret_ok]. rewrite (mid_self _ _ _ M).
  destruct (timer_unlink_env NoK t w (r_ok _ _ _ _ _ M)) as [Hok E]. simpl. split; [|done].
  destruct (timer_unlink_ok t w (ro_sched _ (r_ok _ _ _ _ _ M))) as [_ Hnt].
  apply (mid_quiet w); try done; try (by apply M).
Qed.

(** [__madc_task_join_all]. *)
Lemma join_all_ok w : mid w fr -> half_ok w t fr (task_join_all w).
Proof.
  intros M. unfold task_join_all. rewrite (r_current _ _ _ _ _ M). case_decide as E; [|by apply ret_ok].
  injection E as E. eapply goes_ok; [done| |by left]. split; [apply M|done].
Qed.
Lemma join_loop_ok w : t = main_task -> mid w fr -> half_ok w t fr (join_loop w).
Proof.
  intros Ht M. unfold join_loop. destruct (0 <? g_live w); [|by apply ret_ok]. split_and!; [done|reflexivity|done|done].
Qed.
Lemma join_back_ok w b : t = main_task -> rmid t None b w fr -> half_ok w t fr (Goes FJoinLoop (with_main_waiting false w)).
Proof.
  intros Ht M. assert (Hok : rt_ok (with_main_waiting false w)).
  { eapply rt_ok_stamp; [|by destruct (ro_sched _ (r_ok _ _ _ _ _ M)); constructor|apply M]. done. }
  assert (E : env NoK t w (with_main_waiting false w)).
  { rewrite Ht. by apply env_main_waiting. }
  apply (half_ok_env w (with_main_waiting false w)); [done|].
  eapply (goes_ok _ None); [|split; [apply M|done]|by left].
  apply (rmid_env NoK t None b w _ fr M E); try done; try (by apply M). by right.
Qed.

(** The closing of a scope whose members are gone. *)
Lemma close_mid s x w j :
  rmid t j false w fr -> scopes w !! s = Some x -> opener x = t -> cur_of w t = Some s -> live x <= 0 -> (j = None \/ j = Some s) ->
  mid (closed_rt s x t w) fr /\ env NoK t w (closed_rt s x t w).
Proof.
  intros M Hs Ho Hc Hl Hj. destruct (mid_task _ _ _ M) as [y Hy].
  assert (Hcy : cur y = Some s) by (unfold cur_of in Hc; by rewrite Hy in Hc).
  pose proof (r_ok _ _ _ _ _ M) as Hok. destruct (closed_env NoK w Hok t y s x Hy Hs Ho Hcy Hl) as [Hok' E]. split; [|done].
  pose proof (closed_eq w t s x Hs) as Ew.
  apply (rmid_env NoK t j false w _ fr M E); try done; try (by rewrite Ew; apply M).
  - rewrite Ew in *. constructor; try done.
    + intros v. simpl. destruct (decide (v = t)) as [->|Hn]; [rewrite lookup_alter_eq, Hy; simpl; split; eauto|by rewrite lookup_alter_ne].
    + simpl. apply dom_size, dom_alter_L.
    + unfold scope_of. simpl. by rewrite lookup_alter_eq, Hy.
  - intros s' x' Hs' Hj' Ho'. destruct (closed_inv w t s x Hs s' x' Hs') as (Hne & z & Hz & _ & E2 & _ & _ & E3 & _).
    pose proof (r_own _ _ _ _ _ M s' z Hz ltac:(congruence) ltac:(congruence)) as Ej. destruct Hj; congruence.
  - left. by rewrite Ew.
Qed.

(** [scope_end]: its checks, its join loop, its outcome. *)
Lemma end_check_spec s w j b : rmid t j b w fr -> is_Some (scopes w !! s) ->
  scope_end_check s w = Some 1 \/ scope_end_check s w = Some 2
  \/ scope_end_check s w = Some 0 /\ exists x, scopes w !! s = Some x /\ opener x = t /\ cur_of w t = Some s.
Proof.
  intros M [x Hx]. unfold scope_end_check. rewrite Hx, (r_current _ _ _ _ _ M), (mid_self _ _ _ M).
  case_decide as E1; [|by left]. case_decide as E2; [|by right; left]. right. right. split; [done|]. exists x.
  split_and!; [done|congruence|done].
Qed.

Lemma set_joining_mid s x w :
  mid w fr -> scopes w !! s = Some x -> opener x = t ->
  rmid t (Some s) false (upd_scope (set_joining true) s w) fr /\ env NoK t w (upd_scope (set_joining true) s w).
Proof.
  intros M Hs Ho. destruct (upd_scope_env NoK t (set_joining true) s w (r_ok _ _ _ _ _ M)) as [Hok E].
  { by intros y. } { intros y Hy. left. congruence. }
  split; [|done]. apply (rmid_env NoK t None false w _ fr M E); try done; try (by apply M).
  - intros s' y Hs' Hj Ho'. simpl in Hs'. destruct (decide (s' = s)) as [->|Hne]; [done|]. rewrite lookup_alter_ne in Hs' by done.
    by pose proof (r_own _ _ _ _ _ M s' y Hs' Hj Ho').
  - by left.
Qed.

Lemma joining_now s x w :
  mid w fr -> scopes w !! s = Some x -> opener x = t -> cur_of w t = Some s -> joins (upd_scope (set_joining true) s w) t s.
Proof.
  intros M Hs Ho Hc. exists (set_joining true x). simpl. rewrite lookup_alter_eq, Hs. split_and!; try done.
  intros _. left. apply M.
Qed.

Lemma scope_end_ok s w : mid w fr -> is_Some (scopes w !! s) -> half_ok w t fr (scope_end s w).
Proof.
  intros M Hs. unfold scope_end. destruct (end_check_spec s w _ _ M Hs) as [->|[->|[-> (x & Hx & Ho & Hc)]]];
    [by apply throw_ok|by apply throw_ok|]. destruct (set_joining_mid s x w M Hx Ho) as [M1 E1].
  eapply half_ok_env; [exact E1|]. eapply goes_ok; [done| |by right]. by eapply joining_now.
Qed.

(** Still waiting: back to the park. *)
Lemma wait_ok s x w f :
  rmid t (Some s) false w fr -> scopes w !! s = Some x -> opener x = t -> joining x = true -> cur_of w t = Some s -> 0 < live x ->
  f = FEndJoin s \/ (exists b, f = FLeaveJoin b s /\ opens w t b) \/ f = FExitJoin s /\ t <> main_task ->
  half_ok w t fr (Parks f w).
Proof.
  intros M Hx Ho Hj Hc Hl Hf. pose proof (r_sleep _ _ _ _ _ M) as Hns. split; [|reflexivity].
  exists w, (Some s). split_and!; try done; try (by apply M).
  - apply keeps_refl, M.
  - split; [done|]. by destruct Hf as [->|[(b & -> & _)|[-> _]]].
  - intros s' x' Hs' Hj' Ho'. pose proof (r_own _ _ _ _ _ M s' x' Hs' Hj' Ho') as E. injection E as <-.
    by destruct Hf as [->|[(b & -> & _)|[-> _]]].
  - assert (Hex : exists x, scopes w !! s = Some x /\ opener x = t /\ joining x = true /\ cur_of w t = Some s /\ 0 < live x) by eauto 10.
    by destruct Hf as [->|[(b & -> & _)|[-> _]]].
  - by destruct Hf as [->|[(b & -> & ?)|[-> ?]]].
Qed.

Lemma end_join_ok s w : rmid t (Some s) false w fr -> joins w t s -> half_ok w t fr (end_join s w).
Proof.
  intros M (x & Hx & Ho & Hj & Hc & _). unfold end_join. rewrite Hx. destruct (Z.ltb_spec 0 (live x)) as [Hl|Hl].
  { eapply wait_ok; try done. by left. }
  destruct (close_mid s x w _ M Hx Ho Hc ltac:(lia) (or_intror eq_refl)) as [M1 E1].
  assert (Hself : forall g, self (upd_task g (self (scope_unlink s w)) (scope_unlink s w)) = t).
  { intros g. unfold self, scope_unlink, upd_task, upd_scope. simpl. rewrite lookup_alter_eq, Hx. simpl.
    by destruct (parent x); simpl; rewrite (r_current _ _ _ _ _ M). }
  assert (Hs : self (scope_unlink s w) = t).
  { unfold self, scope_unlink, upd_scope. simpl. rewrite lookup_alter_eq, Hx. simpl.
    by destruct (parent x); simpl; rewrite (r_current _ _ _ _ _ M). }
  rewrite Hself, Hs. eapply half_ok_env; [exact E1|]. destruct (err x) as [e|].
  - change (scope_free s (upd_task ?g t (upd_task ?h t ?v))) with (upd_task g t (closed_rt s x t w)).
    destruct (upd_self_mid (set_scope_err (take (MADC_SCOPE_ERR_BYTES - 1) e)) _ _ _ M1) as [M2 E2]; [done|done|].
    eapply half_ok_env; [exact E2|]. by apply throw_ok.
  - fold (closed_rt s x t w). destruct (s_cancel_req x); [by apply throw_ok|by apply ret_ok].
Qed.

(** [scope_abandon] of the running task's innermost scope. *)
Lemma abandon_ok s x w f :
  mid w fr -> scopes w !! s = Some x -> opener x = t -> cur_of w t = Some s ->
  (exists b, f = FLeaveJoin b s /\ opens w t b) \/ f = FExitJoin s /\ t <> main_task ->
  half_ok w t fr (scope_abandon s f w).
Proof.
  intros M Hx Ho Hc Hf. unfold scope_abandon. rewrite Hx.
  destruct (cancel_walk_mid s w _ _ M ltac:(by rewrite Hx)) as (M1 & E1 & Hf1 & Hsc).
  set (w1 := scope_cancel_walk s w) in *. destruct (Hsc s x Hx) as (x1 & Hx1 & Ho1 & Hj1).
  assert (Hc1 : cur_of w1 t = Some s).
  { destruct (mid_task _ _ _ M) as [y Hy]. unfold cur_of in Hc. rewrite Hy in Hc. pose proof (lookup_place _ _ _ Hy) as Hp.
    rewrite <- Hf1 in Hp. apply place_lookup in Hp as (y1 & Hy1 & E). unfold cur_of. rewrite Hy1. congruence. }
  destruct (set_joining_mid s x1 w1 M1 Hx1 ltac:(congruence)) as [M2 E2].
  apply (half_ok_env w w1); [done|]. eapply half_ok_env; [exact E2|].
  assert (Hjn : joins (upd_scope (set_joining true) s w1) t s) by (eapply joining_now; [done|done|congruence|done]).
  destruct Hf as [(b & -> & z & Hz & Hoz)|[-> Hm]]; (eapply goes_ok; [done| |by right]); [|done]. split; [done|].
  destruct (Hsc b z Hz) as (z1 & Hz1 & Hoz1 & _). destruct (decide (b = s)) as [->|Hne].
  - destruct Hjn as (y & ? & ? & _). by exists y.
  - exists z1. simpl. rewrite lookup_alter_ne by done. split; [done|congruence].
Qed.

Lemma abandon_join_ok s w again after :
  rmid t (Some s) false w fr -> joins w t s ->
  (exists b, again = FLeaveJoin b s /\ opens w t b) \/ again = FExitJoin s /\ t <> main_task ->
  match abandon_join s again after w with
  | Parks f w' => half_ok w t fr (Parks f w')
  | Goes f w' => f = after /\ mid w' fr /\ env NoK t w w' /\ exists x, scopes w !! s = Some x /\ w' = closed_rt s x t w
  | _ => False
  end.
Proof.
  intros M (x & Hx & Ho & Hj & Hc & _) Hf. unfold abandon_join. rewrite Hx. destruct (Z.ltb_spec 0 (live x)) as [Hl|Hl].
  { eapply wait_ok; try done. by right. }
  destruct (close_mid s x w _ M Hx Ho Hc ltac:(lia) (or_intror eq_refl)) as [M1 E1]. rewrite (mid_self _ _ _ M).
  fold (closed_rt s x t w). split_and!; [done|done|done|eauto].
Qed.

(** [__madc_scope_block_leave]. *)
Lemma own_top w b : mid w fr -> opens w t b -> exists c x, cur_of w t = Some c /\ scopes w !! c = Some x /\ opener x = t.
Proof.
  intros M (z & Hz & Ho). destruct (mid_task _ _ _ M) as [y Hy]. pose proof (ro_forest _ (r_ok _ _ _ _ _ M)) as Hf.
  pose proof (lookup_place _ _ _ Hy) as Hp. destruct (fo_open _ Hf _ _ _ Hp) as (l & Hl & Hown).
  specialize (Hown b (node_of z) (lookup_node _ _ _ Hz) Ho). inversion Hl as [o E1 E2 E3|c n l0 o Hn Hon Hl0 E1 E2 E3]; subst.
  - by apply elem_of_nil in Hown.
  - apply node_lookup in Hn as (x & Hx & ->). exists c, x. unfold cur_of. rewrite Hy. by split_and!.
Qed.

Lemma leave_loop_ok b w : mid w fr -> opens w t b -> half_ok w t fr (leave_loop b w).
Proof.
  intros M Hb. destruct (own_top _ _ M Hb) as (c & x & Hc & Hx & Ho). unfold leave_loop. rewrite (mid_self _ _ _ M), Hc.
  eapply abandon_ok; try done. left. eauto.
Qed.

Lemma leave_join_ok b s w : rmid t (Some s) false w fr -> joins w t s -> opens w t b -> half_ok w t fr (leave_join b s w).
Proof.
  intros M Hj Hb. unfold leave_join.
  assert (Hf : (exists b0, FLeaveJoin b s = FLeaveJoin b0 s /\ opens w t b0) \/ FLeaveJoin b s = FExitJoin s /\ t <> main_task) by eauto.
  pose proof (abandon_join_ok s w (FLeaveJoin b s) (FLeaveLoop b) M Hj Hf) as A.
  destruct (abandon_join s (FLeaveJoin b s) (FLeaveLoop b) w); try done.
  destruct A as (-> & M1 & E1 & x & Hx & Ew). eapply half_ok_env; [exact E1|]. case_decide as E; [by apply ret_ok|].
  eapply goes_ok; [done| |by left]. split; [apply M1|]. destruct Hb as (z & Hz & Hoz).
  assert (Hne : b <> s) by done. subst w0.
  destruct (closed_old w t s x Hx b z Hne Hz) as (z' & Hz' & _ & Hoz' & _). exists z'. split; [done|congruence].
Qed.

Lemma block_leave_ok slot w : mid w fr -> (forall b, slot = Some b -> opens w t b) -> half_ok w t fr (scope_block_leave slot w).
Proof.
  intros M Hb. unfold scope_block_leave. rewrite (r_current _ _ _ _ _ M). destruct slot as [b|]; [|by apply ret_ok].
  eapply goes_ok; [done| |by left]. split; [apply M|by apply Hb].
Qed.
Lemma block_exit_ok slot w : mid w fr -> (forall b, slot = Some b -> opens w t b) -> half_ok w t fr (scope_block_exit slot w).
Proof.
  intros M Hb. unfold scope_block_exit. destruct slot as [b|]; [|by apply ret_ok].
  assert (Hs : is_Some (scopes w !! b)) by (destruct (Hb b eq_refl) as (x & -> & _); done).
  destruct (end_check_spec b w _ _ M Hs) as [->|[->|[-> _]]]; [by apply throw_ok|by apply throw_ok|by apply scope_end_ok].
Qed.

Lemma cancel_ok s w : mid w fr -> is_Some (scopes w !! s) -> half_ok w t fr (scope_cancel s w).
Proof.
  intros M [x Hx]. unfold scope_cancel. rewrite Hx. destruct (cancel_walk_mid s w _ _ M ltac:(by rewrite Hx)) as (M1 & E1 & _).
  by split.
Qed.

(** The end of a task's body. *)
Lemma body_done_ok e w : mid w fr -> t <> main_task -> half_ok w t fr (task_body_done e w).
Proof.
  intros M Ht. assert (Hx : forall w1, mid w1 fr -> half_ok w1 t fr (Goes FExitLoop w1)).
  { intros w1 M1. eapply goes_ok; [done| |by left]. split; [apply M1|done]. }
  unfold task_body_done. rewrite (mid_self _ _ _ M). destruct (scope_of w t) as [s|] eqn:Hs; destruct e as [[|text]|]; try done;
    try by apply Hx.
  set (g := fun x : madc_scope => _). destruct (upd_scope_env NoK t g s w (r_ok _ _ _ _ _ M)) as [Hok E].
  { intros x. unfold g. by destruct (err x). } { intros x _. right. unfold g. by destruct (err x). }
  assert (M1 : mid (upd_scope g s w) fr).
  { apply (rmid_env NoK t None false w _ fr M E); try done; try (by apply M); [|by left].
    intros s' y Hy Hj Ho. simpl in Hy. destruct (decide (s' = s)) as [->|Hne].
    - rewrite lookup_alter_eq in Hy. apply fmap_Some in Hy as (z & Hz & ->).
      assert (Eg : opener (g z) = opener z /\ joining (g z) = joining z) by (unfold g; by destruct (err z)).
      destruct Eg as [Eg1 Eg2]. eapply (r_own _ _ _ _ _ M s z); congruence.
    - rewrite lookup_alter_ne in Hy by done. by eapply (r_own _ _ _ _ _ M s' y). }
  assert (Hsa : is_Some (scopes (upd_scope g s w) !! s)).
  { destruct (mid_task _ _ _ M) as [y Hy]. unfold scope_of in Hs. rewrite Hy in Hs. pose proof (lookup_place _ _ _ Hy) as Hp.
    rewrite Hs in Hp. destruct (fo_member _ (ro_forest _ (r_ok _ _ _ _ _ M)) _ _ _ Hp) as (n & Hn & _).
    apply node_lookup in Hn as (z & Hz & _). simpl. rewrite lookup_alter_eq, Hz. done. }
  destruct (cancel_walk_mid s _ _ _ M1 Hsa) as (M2 & E2 & _). eapply half_ok_env; [exact E|]. eapply half_ok_env; [exact E2|].
  by apply Hx.
Qed.

Lemma exit_loop_ok w : mid w fr -> t <> main_task -> half_ok w t fr (exit_loop w).
Proof.
  intros M Ht. unfold exit_loop. rewrite (mid_self _ _ _ M). destruct (mid_task _ _ _ M) as [y Hy].
  assert (Hc : cur_of w t = cur y /\ scope_of w t = t_scope y) by (unfold cur_of, scope_of; by rewrite Hy).
  destruct Hc as [Hc Hsc]. rewrite Hc, Hsc. case_decide as E.
  - exists w, y. split_and!; try done. f_equal. f_equal.
    unfold scope_detach. rewrite Hsc. destruct (t_scope y) as [s|]; [|done]. cbv zeta.
    destruct (scopes (upd_scope _ s _) !! s) as [z|]; [|done]. destruct ((live z =? 0) && joining z); [|done].
    unfold task_enqueue. destruct (tasks _ !! opener z) as [q|]; [by destruct (queued q)|done].
  - destruct (cur_own_or_owner _ (ro_forest _ (r_ok _ _ _ _ _ M)) _ _ _ (lookup_place _ _ _ Hy)) as [Heq|(c & n & Hcc & Hn & Hon)]; [done|].
    rewrite Hcc. apply node_lookup in Hn as (x & Hx & ->). eapply abandon_ok; try done; [congruence|]. right. by split.
Qed.

Lemma exit_join_ok s w : rmid t (Some s) false w fr -> joins w t s -> t <> main_task ->
  half_ok w t fr (abandon_join s (FExitJoin s) FExitLoop w).
Proof.
  intros M Hj Ht.
  assert (Hf : (exists b0, FExitJoin s = FLeaveJoin b0 s /\ opens w t b0) \/ FExitJoin s = FExitJoin s /\ t <> main_task) by eauto.
  pose proof (abandon_join_ok s w (FExitJoin s) FExitLoop M Hj Hf) as A.
  destruct (abandon_join s (FExitJoin s) FExitLoop w); try done.
  destruct A as (-> & M1 & E1 & _). eapply half_ok_env; [exact E1|]. eapply goes_ok; [done| |by left]. split; [apply M1|done].
Qed.

(** [task_switch] between two states without a corpse. *)
Lemma task_switch_eq n w : g_reap w = None -> task_switch n w = with_current (Some n) (with_switch_count (g_switch_count w + 1) w).
Proof. intros Hr. unfold task_switch, task_reap. simpl. by rewrite Hr. Qed.

(** A pick by a task that stands nowhere in particular, parked at [f]. *)
Lemma pick_leave w w2 n m f :
  mid w fr -> decided w (Some n) w2 ->
  let w3 := with_current (Some n) (with_switch_count m w2) in
  env NoK t w w3 /\ keeps t w w3 /\ g_main_waiting w3 = g_main_waiting w /\ is_Some (tasks w3 !! n) /\ n <> t
  /\ (t ∉ g_ready w3) /\ (t ∉ g_timers w3) /\ (n ∉ g_ready w3) /\ (n ∉ g_timers w3) /\ (n ∈ g_ready w \/ n ∈ g_timers w)
  /\ scopes w3 = scopes w /\ g_reap w2 = None /\ joins_at (FRt f) = joins_at (FRt f).
Proof.
  intros M D w3. destruct (pick_env NoK t w n w2 m (r_ok _ _ _ _ _ M) (r_current _ _ _ _ _ M) D) as (Hok3 & E3 & Hn1 & Hn2 & Ha & Hn).
  fold w3 in Hok3, E3, Hn1, Hn2, Ha. destruct D as (_ & Hm & Hseq & Hsub & _). pose proof (r_ready _ _ _ _ _ M) as Hnr.
  pose proof (r_sleep _ _ _ _ _ M) as Hns. destruct (moved_flags _ _ Hm) as (Esc & _ & _ & _ & El & Er & Emw & _).
  assert (Ht : t ∉ n :: g_ready w2 ++ g_timers w2) by (rewrite <- Hseq; set_solver).
  split_and!; try done.
  - apply core_keeps; [done|apply (moved_core _ _ Hm)|done|done].
  - intros ->. apply Ht. by left.
  - intros Hin. apply Ht. apply elem_of_cons. right. apply elem_of_app. by left.
  - intros Hin. apply Ht. apply elem_of_cons. right. apply elem_of_app. by right.
  - rewrite Er. apply M.
Qed.

Lemma enqueue_switch n w : g_reap w = None -> task_switch n (task_enqueue t w) = task_enqueue t (task_switch n w).
Proof.
  intros Hr. assert (Hr' : g_reap (task_enqueue t w) = None) by (destruct (moved_flags _ _ (task_enqueue_moved t w)) as (_ & _ & _ & _ & _ & -> & _); done).
  rewrite !task_switch_eq by done. unfold task_enqueue. simpl. destruct (tasks w !! t) as [x|]; [|done]. by destruct (queued x).
Qed.

(** [__madc_yield]. *)
Lemma yield_ok w : mid w fr -> half_ok w t fr (madc_yield w).
Proof.
  intros M. unfold madc_yield, task_fire_due. rewrite (r_current _ _ _ _ _ M).
  pose proof (timer_fire_due_spec w (ro_sched _ (r_ok _ _ _ _ _ M))) as D. destruct (fire_due_mid w _ _ M) as [M1 E1].
  set (w1 := timer_fire_due w) in *.
  assert (Hio : match io_wait_hook with Some io => (io 0 w1).2 | None => w1 end = w1).
  { pose proof (no_io 0 w1) as Hn. destruct io_wait_hook; [by rewrite Hn|done]. }
  rewrite Hio. destruct (g_ready w1) as [|n r] eqn:Hr.
  { unfold task_dequeue. rewrite Hr. apply (half_ok_env w w1); [done|]. by apply ret_ok. }
  rewrite (task_dequeue_spec _ _ _ Hr). set (w2 := upd_task (set_queued false) n (with_ready r w1)).
  pose proof (decide_now w1 w n r D Hr) as Dec. fold w2 in Dec.
  destruct (pick_leave w w2 n (g_switch_count w2 + 1) FYield M Dec)
    as (E3 & Hk3 & Emw & Ha & Hne & Htr & Htt & Hnr & Hnt & Hn & Esc & Hrp & _).
  set (w3 := with_current (Some n) (with_switch_count (g_switch_count w2 + 1) w2)) in *.
  assert (Hw3 : task_switch n (task_enqueue t w2) = task_enqueue t w3) by (rewrite enqueue_switch, task_switch_eq by done; done).
  assert (Hat : is_Some (tasks w3 !! t)) by (apply (k_dom _ _ _ Hk3), M).
  destruct (enqueue_self_env NoK t w3 (k_ok _ _ _ Hk3) Hat Htt) as [Hok4 E4].
  pose proof (task_enqueue_moved t w3) as Hm4. destruct (moved_flags _ _ Hm4) as (Esc4 & _ & Ec4 & _ & _ & _ & Emw4 & _).
  simpl. split; [|split].
  - rewrite Hw3. apply (rmid_leave NoK t None false w _ fr M) with (n := n); try done.
    + by transitivity w3.
    + eapply keeps_trans; [done|]. by apply moved_keeps.
    + eapply moved_alloc; [exact Hm4|done].
    + rewrite task_enqueue_ready; [|apply (k_ok _ _ _ Hk3)|by rewrite core_lookup, fmap_is_Some].
      case_decide; [done|]. rewrite elem_of_app, list_elem_of_singleton. naive_solver.
    + by rewrite task_enqueue_timers.
    + by rewrite task_enqueue_timers.
    + intros s x. rewrite Esc4, Esc. intros Hs Hj Ho. by pose proof (r_own _ _ _ _ _ M s x Hs Hj Ho).
    + rewrite Emw4, Emw. intros Hw. left. split_and!; [done|done|]. intros ->.
      destruct (r_waiting _ _ _ _ _ M Hw) as [Hf|[_ ?]]; [|done]. by rewrite (r_here _ _ _ _ _ M) in Hf.
    + right. by rewrite Emw4, Emw.
    + intros f' [= <-]. right. apply enqueue_in_ready; [apply (k_ok _ _ _ Hk3)|done].
  - unfold self. destruct (moved_flags _ _ (task_enqueue_moved t w2)) as (_ & _ & -> & _). unfold w2. simpl.
    by rewrite (r_current _ _ _ _ _ M1).
  - rewrite Hw3. by transitivity w3.
Qed.

(** Main gives the processor away in [__madc_task_join_all]. *)
Lemma join_wait_rinv w w2 n :
  t = main_task -> mid w fr -> decided w (Some n) w2 ->
  rinv (task_switch n (with_main_waiting true w2)) (<[t := FRt FJoinBack]> fr)
  /\ env NoK t w (task_switch n (with_main_waiting true w2)).
Proof.
  intros Ht M D. destruct (pick_leave w w2 n (g_switch_count w2 + 1) FJoinBack M D)
    as (E3 & Hk3 & Emw & Ha & Hne & Htr & Htt & Hnr & Hnt & Hn & Esc & Hrp & _).
  set (w3 := with_current (Some n) (with_switch_count (g_switch_count w2 + 1) w2)) in *.
  rewrite task_switch_eq by done.
  set (w4 := with_current _ _). assert (Hok4 : rt_ok w4).
  { pose proof (k_ok _ _ _ Hk3) as Hok3. eapply rt_ok_stamp; [|by destruct (ro_sched _ Hok3); constructor|exact Hok3]. done. }
  assert (E4 : env NoK t w w4).
  { subst t. exact (env_main_waiting NoK true w w3 E3). }
  split; [|done].
  apply (rmid_leave NoK t None false w w4 fr M E4) with (n := n); try done.
  - destruct Hk3. by constructor.
  - intros s x. simpl. change (scopes w2) with (scopes w3). rewrite Esc. intros Hs Hj Ho. by pose proof (r_own _ _ _ _ _ M s x Hs Hj Ho).
  - by right.
  - by left.
  - by intros f' [= <-].
Qed.

(** The end of a task: it is freed, and the picked task, or main waiting in the
    root join, runs. *)
Lemma rmid_gone (K : tid -> Prop) w w' n :
  mid w fr -> env K t w w' -> rt_ok w' -> (forall u, K u -> fr !! u <> Some (FRt FSleep)) ->
  g_current w' = Some n -> is_Some (tasks w' !! n) -> (n ∉ g_ready w') -> (n ∉ g_timers w') -> g_reap w' = None ->
  (forall u, is_Some (tasks w' !! u) <-> u <> t /\ is_Some (tasks w !! u)) ->
  g_live w' = Z.of_nat (size (tasks w')) - 1 -> t <> main_task -> (t ∉ g_timers w') ->
  (forall s x, scopes w' !! s = Some x -> opener x <> t) -> g_main_waiting w' = g_main_waiting w -> rinv w' fr.
Proof.
  intros M E Hok HK Hc Ha Hr Hs Hrp Hdom Hlive Hm Ht Hop Hmw.
  assert (Hctx : forall u f, fr !! u = Some (FRt f) -> ctx_rt w' u f).
  { intros u f Hu. assert (Hne : u <> t) by (intros ->; rewrite (r_here _ _ _ _ _ M) in Hu; done).
    eapply (ctx_env K t w w' fr); try done; [apply M|by apply (r_place _ _ _ _ _ M)|intros -> Hku; by eapply HK|apply M|by right|by apply M]. }
  constructor; try done.
  - exists n. by split_and!.
  - destruct (r_main _ _ _ _ _ M) as (x & Hx & Hsx).
    assert (Ham : is_Some (tasks w' !! main_task)) by (apply Hdom; rewrite Hx; split; [congruence|done]).
    destruct Ham as [x' Hx']. exists x'. split; [done|].
    destruct (e_cur _ _ _ _ E main_task) as [_ Hsc]; [congruence|by rewrite Hx|]. unfold scope_of in Hsc. rewrite Hx, Hx' in Hsc. congruence.
  - intros u _ [Hne Hu]%Hdom. by apply (r_place _ _ _ _ _ M).
  - intros u Hu. assert (Hne : u <> t) by (intros ->; rewrite (r_here _ _ _ _ _ M) in Hu; by destruct Hu).
    apply Hdom. split; [done|]. by apply (r_place _ _ _ _ _ M).
  - intros u Hu. apply M. apply (e_timers _ _ _ _ E); [by intros ->|done].
  - intros s x Hsx Hj. destruct (e_scope_inv _ _ _ _ E s x Hsx) as (y & Hy & Eo & Ej); [by eapply Hop|].
    rewrite <- Eo. apply (r_joining _ _ _ _ _ M s y Hy); [congruence|]. rewrite Eo. by eapply Hop.
  - rewrite Hmw. intros Hw. by destruct (r_waiting _ _ _ _ _ M Hw) as [?|[? _]].
Qed.

Lemma env_live K w w1 l : env K t w w1 -> env K t w (with_live l w1).
Proof.
  assert (Hcc : forall u, cancelled_t (with_live l w1) u = cancelled_t w1 u).
  { intros u. unfold cancelled_t. simpl. destruct (tasks w1 !! u); [|done]. by rewrite (chain_cancelled_ext w1 (with_live l w1)). }
  intros E. constructor; try (by apply E); try done.
  - intros u Hu Ha Haw. unfold wake_reason. rewrite Hcc. by apply E.
  - intros u Hu Ha Hc. rewrite Hcc. by apply E.
Qed.

Lemma env_weaken (K K' : tid -> Prop) w w1 : (forall u, K u -> K' u) -> env K t w w1 -> env K' t w w1.
Proof.
  intros HK E. constructor; try (by apply E). intros u Hu Ha Haw.
  destruct (e_wake _ _ _ _ E u Hu Ha Haw) as [?|[?|[?|[?|?]]]]; [by left| | | |]; right; [by left|by right; left|by right; right; left|].
  right. right. right. by apply HK.
Qed.

Section Exit.
Context (w0 : rt) (x : madc_task) (M : mid w0 fr) (Hx : tasks w0 !! t = Some x) (Hcur : cur x = t_scope x) (Hm : t <> main_task).
#[local] Abbreviation w := (with_live (g_live w0 - 1) (scope_detach t w0)).
#[local] Abbreviation wl := (with_live (g_live w0 - 1) (left_rt t w0)).

Lemma exit_join_not_sleeping s y : scopes w0 !! s = Some y -> joining y = true -> opener y ∉ g_timers w0.
Proof.
  intros Hs Hj Hin. destruct (decide (opener y = t)) as [E|Hne]; [rewrite E in Hin; by apply (r_sleep _ _ _ _ _ M)|].
  destruct (r_joining _ _ _ _ _ M s y Hs Hj Hne) as (f & Hf & Hjf). apply M in Hin. rewrite Hin in Hf. by injection Hf as <-.
Qed.

Lemma exit_left : rt_ok wl /\ env NoK t w0 wl /\ g_current wl = Some t /\ g_main_waiting wl = g_main_waiting w0
  /\ (t ∉ g_ready w ++ g_timers w) /\ sched_ok w /\ g_reap w = None.
Proof.
  pose proof exit_join_not_sleeping as Hj. pose proof (r_ok _ _ _ _ _ M) as Hok. pose proof (r_current _ _ _ _ _ M) as Hc.
  pose proof (r_ready _ _ _ _ _ M) as Hr. pose proof (r_sleep _ _ _ _ _ M) as Hs.
  pose proof (left_ok NoK w0 Hok t x Hx Hcur Hr Hs Hj) as Hokl.
  pose proof (left_env NoK w0 Hok t x Hx Hcur Hr Hs Hj) as El.
  pose proof (left_unlisted NoK w0 Hok t x Hx Hcur Hr Hs Hj) as Hu.
  destruct (detach_facts NoK w0 Hok t x Hx Hcur Hj) as (Hsd & Hmv & _).
  destruct (moved_flags _ _ Hmv) as (_ & _ & Ec & _ & _ & Er & Emw & _).
  destruct (detach_base_lists w0 t x Hcur) as (_ & _ & _ & Eb1 & _ & _ & Eb2 & _ & Eb3). split_and!; try done.
  - eapply rt_ok_stamp; [|by destruct (ro_sched _ Hokl); constructor|exact Hokl]. done.
  - by apply env_live.
  - unfold left_rt. simpl. congruence.
  - unfold left_rt. simpl. congruence.
  - by destruct Hsd; constructor.
  - simpl. rewrite Er, Eb3. apply M.
Qed.

Lemma exit_dom u : is_Some (tasks wl !! u) <-> u <> t /\ is_Some (tasks w0 !! u).
Proof.
  pose proof exit_join_not_sleeping as Hj. pose proof (r_ok _ _ _ _ _ M) as Hok. change (tasks wl !! u) with (tasks (left_rt t w0) !! u).
  rewrite left_task. case_decide as E; [split; [intros []; done|by intros []]|]. split.
  - intros [y' Hy']. destruct (detach_task_inv NoK w0 Hok t x Hx Hcur Hj u y' E Hy') as (y & -> & _). done.
  - intros [_ [y Hy]]. destruct (detach_task NoK w0 Hok t x Hx Hcur Hj u y E Hy) as (y' & -> & _). done.
Qed.

Lemma exit_size w' : (forall u, is_Some (tasks w' !! u) <-> is_Some (tasks wl !! u)) -> g_live w' = g_live w0 - 1 ->
  g_live w' = Z.of_nat (size (tasks w')) - 1.
Proof.
  intros Hd ->. rewrite (r_live _ _ _ _ _ M).
  assert (Ed : dom (tasks w') = dom (tasks w0) ∖ {[t]}).
  { apply set_eq. intros u. rewrite elem_of_difference, elem_of_singleton, !elem_of_dom, Hd, exit_dom. naive_solver. }
  assert (Hin : {[t]} ⊆ dom (tasks w0)) by (apply singleton_subseteq_l, elem_of_dom; by rewrite Hx).
  rewrite <- (size_dom (tasks w')), Ed, size_difference, size_singleton, size_dom by done.
  pose proof (subseteq_size _ _ Hin) as Hsz. rewrite size_singleton, size_dom in Hsz. lia.
Qed.

(** Whoever is chosen, the invariant holds of what is left. *)
Lemma exit_rinv next w2 n :
  decided w next w2 -> next = Some n \/ next = None /\ g_main_waiting w2 = true /\ n = main_task ->
  let w3 := task_reap (with_current (Some n) (with_reap (Some t) w2)) in
  rinv w3 fr /\ exists K, env K t w0 w3 /\ forall u, K u -> fr !! u = Some (FRt FJoinBack).
Proof.
  intros D Hn w3. destruct exit_left as (Hokl & El & Hcl & Hmwl & Hun & Hsw & Hrp).
  pose proof D as (_ & Hm2 & Hcase). destruct (moved_flags _ _ Hm2) as (Esc & _ & _ & _ & Eli & Er & Emw & _).
  set (wd := with_tasks (delete t (tasks w2)) w2).
  assert (Hw3 : w3 = with_current (Some n) (with_switch_count (g_switch_count wd) wd)).
  { assert (Hr2 : g_reap w2 = None) by congruence. destruct w2. simpl in Hr2. by subst. }
  assert (Hmd : moved wl wd).
  { destruct Hm2 as (m & r & l & c & -> & Em & Hc & Hv). exists (delete t m), r, l, c. split_and!; try done.
    rewrite fmap_delete, Em. unfold core. simpl. by rewrite fmap_delete. }
  assert (Hdw : forall u, is_Some (tasks w3 !! u) <-> is_Some (tasks wl !! u)).
  { intros u. rewrite Hw3. simpl. pose proof (moved_core _ _ Hmd) as Hco. apply (f_equal (fun m => m !! u)) in Hco.
    rewrite !core_lookup in Hco. simpl in *. by rewrite <- (fmap_is_Some (set_queued false)), Hco, fmap_is_Some. }
  assert (Hsc3 : scopes w3 = scopes wl) by (rewrite Hw3; simpl; by rewrite Esc).
  assert (Hno : forall s y, scopes w3 !! s = Some y -> opener y <> t).
  { rewrite Hsc3. intros s y Hy. destruct (left_scope_inv NoK w0 (r_ok _ _ _ _ _ M) t x Hx Hcur exit_join_not_sleeping s y Hy)
      as (z & Hz & _ & -> & _). exact (no_scopes_of_leaver w0 (r_ok _ _ _ _ _ M) t x Hx Hcur s z Hz). }
  assert (Hgone : forall K, env K t w0 w3 -> (forall u, K u -> fr !! u = Some (FRt FJoinBack)) -> rt_ok w3 ->
     is_Some (tasks w3 !! n) -> (n ∉ g_ready w3) -> (n ∉ g_timers w3) -> (t ∉ g_timers w3) ->
     rinv w3 fr /\ exists K, env K t w0 w3 /\ forall u, K u -> fr !! u = Some (FRt FJoinBack)).
  { intros K E3 HK Hok3 Ha J1 J2 J3. split; [|by exists K].
    apply (rmid_gone K w0 w3 n M E3 Hok3); try done.
    - intros u Hu Hf. rewrite (HK u Hu) in Hf. done.
    - intros u. by rewrite Hdw, exit_dom.
    - apply exit_size; [done|]. rewrite Hw3. simpl. by rewrite Eli.
    - rewrite Hw3. simpl. rewrite Emw. exact Hmwl. }
  destruct Hn as [->|(-> & Hmw & ->)].
  - pose proof (decided_delete NoK t w n w2 Hun D) as Dl.
    destruct (pick_env NoK t wl n wd (g_switch_count wd) Hokl Hcl Dl) as (Hok3 & E3 & Hn1 & Hn2 & Ha & _). rewrite <- Hw3 in *.
    apply (Hgone NoK); try done; [eapply env_trans; [exact El|done]|].
    intros Hin. apply Hun, elem_of_app. right. destruct D as (_ & _ & _ & Hsub & _). apply Hsub. rewrite Hw3 in Hin. exact Hin.
  - destruct Hcase as (Hr1 & Ht1 & Hr2 & Ht2).
    assert (Hfm : fr !! main_task = Some (FRt FJoinBack)).
    { rewrite Emw in Hmw. change (g_main_waiting wl = true) in Hmw. rewrite Hmwl in Hmw.
      by destruct (r_waiting _ _ _ _ _ M Hmw) as [?|[? _]]. }
    assert (Hokd : rt_ok wd).
    { eapply rt_ok_stamp; [by apply moved_stamp|apply delete_sched; [by destruct D|]|exact Hokl]. rewrite Hr2, Ht2. apply not_elem_of_nil. }
    assert (Hok3 : rt_ok w3).
    { rewrite Hw3. eapply rt_ok_stamp; [|by destruct (ro_sched _ Hokd); constructor|exact Hokd]. done. }
    apply (Hgone (fun u => u = main_task)); try done.
    + eapply env_trans; [by eapply env_weaken; [|exact El]|]. rewrite Hw3.
      assert (Htl : g_timers wl = []) by exact Ht1. assert (Hrl : g_ready wl = []) by exact Hr1.
      destruct (moved_flags _ _ Hmd) as (Escd & Hfd & _ & _ & _ & _ & Emd & _).
      apply env_quiet; try done.
      * by rewrite <- Hw3.
      * by rewrite <- (moved_stamp _ _ Hmd).
      * intros s y Hy _. simpl. change (scopes w2) with (scopes wd). by rewrite Escd, Hy.
      * intros u Hu [Hcu|Hin]; [congruence|]. rewrite Hrl in Hin. by apply not_elem_of_nil in Hin.
      * intros u Hu Hin. rewrite Htl in Hin. by apply not_elem_of_nil in Hin.
      * intros u Hu Hin. change (u ∈ g_timers w2) in Hin. rewrite Ht2 in Hin. by apply not_elem_of_nil in Hin.
      * intros u Hu _ [Hcu|Hin]; [injection Hcu as <-; by right; right; right; right|].
        change (u ∈ g_ready w2) in Hin. rewrite Hr2 in Hin. by apply not_elem_of_nil in Hin.
      * by destruct Hmd as (m & r & l & c & -> & _ & Hcl' & _).
      * intros u _. by apply (moved_deadline wl wd).
      * intros u _ Hfl. change (task_flag wd u = true). by rewrite Hfd.
      * intros s. unfold flagged. simpl. change (scopes w2) with (scopes wd). by rewrite Escd.
    + by intros u ->.
    + apply Hdw, exit_dom. split; [congruence|]. destruct (r_main _ _ _ _ _ M) as (y & -> & _). done.
    + rewrite Hw3. simpl. rewrite Hr2. apply not_elem_of_nil.
    + rewrite Hw3. simpl. rewrite Ht2. apply not_elem_of_nil.
    + rewrite Hw3. simpl. rewrite Ht2. apply not_elem_of_nil.
Qed.
End Exit.

(** [__madc_go]: the new context stands at its entry. *)
Lemma go_rinv w :
  mid w fr -> let '(t', w') := madc_go w in
  rinv w' (<[t' := FRt FStart]> fr) /\ g_current w' = Some t /\ t' <> t /\ env NoK t w w' /\ fr !! t' = None.
Proof.
  intros M. destruct (mid_task _ _ _ M) as [x Hx]. pose proof (r_ok _ _ _ _ _ M) as Hok. pose proof (r_current _ _ _ _ _ M) as Hc.
  rewrite (madc_go_eq w Hok t x Hc Hx). set (t' := next_tid w) in *.
  destruct (madc_go_env NoK w Hok t x Hc Hx) as (Hok' & E & Hr' & Ha' & Hne & Hlive & Hdom). fold t' in Hok', E, Hr', Ha', Hne, Hlive, Hdom.
  set (w' := task_enqueue t' (spawned t' (cur x) w)) in *.
  destruct (moved_flags _ _ (task_enqueue_moved t' (spawned t' (cur x) w))) as (Esc & _ & Ec & _ & _ & Erp & Emw & _).
  pose proof (fresh_task w Hok) as Hf. fold t' in Hf. pose proof (fresh_unlisted w Hok) as Hfnu. fold t' in Hfnu.
  assert (Htm : g_timers w' = g_timers w) by (unfold w'; by rewrite task_enqueue_timers).
  assert (Hd : forall u, is_Some (tasks w' !! u) <-> u = t' \/ is_Some (tasks w !! u)).
  { intros u. rewrite <- !elem_of_dom, Hdom, elem_of_union, elem_of_singleton. done. }
  assert (Hfr : fr !! t' = None).
  { destruct (fr !! t') eqn:E'; [|done]. assert (His : is_Some (tasks w !! t')) by (apply (r_place _ _ _ _ _ M); [done|by rewrite E']).
    rewrite Hf in His. by destruct His. }
  assert (Hinv : forall s y, scopes w' !! s = Some y -> exists z, scopes w !! s = Some z /\ opener y = opener z /\ joining y = joining z).
  { unfold w'. rewrite Esc. intros s y Hy. destruct (spawned_inv w x s y Hy) as (z & ? & _ & ? & ? & _). eauto. }
  assert (Hcur : g_current w' = Some t) by (unfold w'; by rewrite Ec).
  assert (Hctx : forall u f, fr !! u = Some (FRt f) -> ctx_rt w' u f).
  { intros u f Hfu. assert (Hut : u <> t) by (intros ->; rewrite (r_here _ _ _ _ _ M) in Hfu; done).
    eapply (ctx_env NoK t w w' fr); try done; [by apply (r_place _ _ _ _ _ M)|by intros _ []|apply M|right; by unfold w'; rewrite Emw|by apply M]. }
  split_and!; try done. constructor; try done.
  - exists t. split_and!; [done|apply Hd; right; apply M| |rewrite Htm; apply M].
    unfold w'. rewrite task_enqueue_ready; [|exact (ro_sched _ (spawned_ok NoK w Hok t x Hc Hx))|by rewrite core_lookup, fmap_is_Some; simpl; rewrite lookup_insert_eq].
    pose proof (r_ready _ _ _ _ _ M) as Hnr. case_decide; simpl; set_solver.
  - unfold w'. rewrite Erp. simpl. apply M.
  - destruct (r_main _ _ _ _ _ M) as (y & Hy & Hs). assert (Hmm : main_task <> t') by congruence.
    assert (Hlk : exists y', tasks w' !! main_task = Some y' /\ set_queued false y' = set_queued false y).
    { apply (moved_lookup _ _ _ (task_enqueue_moved t' _)). simpl. by rewrite lookup_insert_ne. }
    destruct Hlk as (y' & Hy' & Hq). exists y'. split; [done|]. unfold set_queued in Hq. congruence.
  - intros u Hnu Ha. destruct (decide (u = t')) as [->|Hn]; [by rewrite lookup_insert_eq|]. rewrite lookup_insert_ne by done.
    apply Hd in Ha as [->|Ha]; [done|]. apply (r_place _ _ _ _ _ M); [congruence|done].
  - intros u Hu. apply Hd. destruct (decide (u = t')) as [->|Hn]; [by left|right]. rewrite lookup_insert_ne in Hu by done.
    destruct (decide (u = t)) as [->|Hn']; [apply M|by apply (r_place _ _ _ _ _ M)].
  - intros u. rewrite Htm. intros Hin. rewrite lookup_insert_ne; [by apply M|]. intros ->. apply Hfnu, elem_of_app. by right.
  - intros s y Hy Hj. destruct (Hinv s y Hy) as (z & Hz & -> & Ej).
    assert (Hot : opener z <> t) by (intros Ho; rewrite Ej in Hj; by pose proof (r_own _ _ _ _ _ M s z Hz Hj Ho)).
    destruct (r_joining _ _ _ _ _ M s z Hz ltac:(congruence) Hot) as (f & Hff & Hjf). exists f. rewrite lookup_insert_ne; [done|congruence].
  - unfold w'. rewrite Emw. simpl. intros Hw. destruct (r_waiting _ _ _ _ _ M Hw) as [Hfm|[_ ?]]; [|done].
    rewrite lookup_insert_ne; [done|congruence].
  - intros u f. destruct (decide (u = t')) as [->|Hn]; [rewrite lookup_insert_eq|rewrite lookup_insert_ne by done; apply Hctx].
    intros [= <-]. split; [by right|]. intros ->. destruct (r_main _ _ _ _ _ M) as (y & Hy & _). congruence.
  - rewrite Hlive, (r_live _ _ _ _ _ M), <- !size_dom, Hdom, size_union, size_singleton; [lia|].
    apply disjoint_singleton_l, not_elem_of_dom. exact Hf.
Qed.

(** [__madc_scope_begin]. *)
Lemma begin_mid w : mid w fr -> let '(s, w') := madc_scope_begin w in mid w' fr /\ env NoK t w w' /\ opens w' t s.
Proof.
  intros M. destruct (mid_task _ _ _ M) as [x Hx]. pose proof (r_ok _ _ _ _ _ M) as Hok. pose proof (r_current _ _ _ _ _ M) as Hc.
  destruct (madc_scope_begin w) as [s w'] eqn:Eb. destruct (scope_begin_env NoK w t x s w' Hok Hc Hx Eb) as [Hok' E].
  destruct (scope_begin_forest w t x s w' Hc Hx Eb) as [_ Hs]. pose proof (scope_begin_scopes w t x s w' Hc Hx Eb) as Ew.
  set (nw := Scope (cur x) t [] [] 0 false false None) in *.
  assert (Hns : scopes w !! s = None) by (destruct (scopes w !! s) eqn:En; [apply (ro_sid _ Hok) in En; lia|done]).
  assert (Hinv : forall s' y, scopes w' !! s' = Some y -> exists z, <[s := nw]> (scopes w) !! s' = Some z /\ opener y = opener z /\ joining y = joining z).
  { rewrite Ew. simpl. intros s' y Hy. destruct (cur x) as [p|]; [|eauto].
    destruct (alter_children_lookup _ p (cons s) _ _ Hy) as (z & Hz & _ & ? & _ & _ & ? & _). eauto. }
  split_and!; [|done|].
  - apply (rmid_env NoK t None false w w' fr M E); try done; try (by rewrite Ew; apply M).
    + constructor; try done; try by rewrite Ew.
      * intros u. rewrite Ew. simpl. destruct (decide (u = t)) as [->|Hn]; [rewrite lookup_alter_eq, Hx; simpl; split; eauto|by rewrite lookup_alter_ne].
      * rewrite Ew. simpl. apply dom_size, dom_alter_L.
      * rewrite Ew. unfold scope_of. simpl. by rewrite lookup_alter_eq, Hx.
    + intros s' y Hy Hj Ho. destruct (Hinv s' y Hy) as (z & Hz & Eo & Ej). destruct (decide (s' = s)) as [->|Hn].
      * rewrite lookup_insert_eq in Hz. injection Hz as <-. rewrite Hj in Ej. done.
      * rewrite lookup_insert_ne in Hz by done. eapply (r_own _ _ _ _ _ M s' z); congruence.
    + left. by rewrite Ew.
  - rewrite Ew. unfold opens. simpl. destruct (cur x) as [p|] eqn:Ecu; [|exists nw; by rewrite lookup_insert_eq].
    destruct (alter_children_old (<[s := nw]> (scopes w)) p (cons s) s nw) as (y & Hy & _ & Ho & _); [by rewrite lookup_insert_eq|].
    exists y. by split.
Qed.

(** Control comes back to a context at [f]. *)
Lemma resume_ok w f :
  rmid t (joins_at (FRt f)) (is_back (FRt f)) w fr -> ctx_rt w t f -> half_ok w t fr (rt_resume f w).
Proof.
  intros M Hx. destruct f; simpl in *.
  - by apply ret_ok.
  - by apply ret_ok.
  - by apply sleep_resume_ok.
  - destruct Hx. by apply join_loop_ok.
  - destruct Hx. by eapply join_back_ok.
  - by apply end_join_ok.
  - destruct Hx. by apply leave_loop_ok.
  - destruct Hx. by apply leave_join_ok.
  - destruct Hx. by apply exit_loop_ok.
  - destruct Hx. by apply exit_join_ok.
Qed.
End Halves.
