(* ===== verification/Waiters.v ===== *)
(** What the channels of [madc_task_chan.cpp] keep true.

    [cinv] is the invariant between two steps of the machine: every queued
    waiter record belongs to a context that stands where it parked, a context
    that stands in a channel verb is armed (its record is queued, and it is
    awake only when cancelled) or completed and awake, a deliverable receiver
    and something to deliver never meet in one channel, buffers keep their
    capacity, and closed channels have no waiters. *)
From stdpp Require Import gmap list.
From S2P Require Import Prelude Tasks Forest Scopes Channels Switch Machine Parked.
#[local] Open Scope Z_scope.

Section Waiters.
Context {V : Type}.
#[local] Abbreviation state := (cs (V := V)).

(** ** Views of the state *)

Definition recvq (c : state) (h : Z) : list wid := match g_chans c !! h with Some x => recv_waiters x | None => [] end.
Definition sendq (c : state) (h : Z) : list wid := match g_chans c !! h with Some x => send_waiters x | None => [] end.
Definition buf (c : state) (h : Z) : list V := match g_chans c !! h with Some x => q x | None => [] end.
Definition shut (c : state) (h : Z) : Prop := exists x, g_chans c !! h = Some x /\ closed x = true.
Definition drained (c : state) (h : Z) : Prop := shut c h /\ buf c h = [].

(** A record a value can still be delivered to. *)
Definition live_waiter (c : state) (p : wid) : Prop := exists w, waiters c !! p = Some w /\ husk c w = Some false.

(** ** The invariant *)

Definition recv_entry (c : state) (fr : gmap tid frame) (h : Z) (p : wid) : Prop :=
  exists w, waiters c !! p = Some w /\ w_task w = p.1 /\ w_slot w = Some p.1 /\ w_index w = p.2
    /\ w_ok w = false /\ woken_closed w = false
    /\ (w_group w = None /\ p.2 = 0%nat /\ fr !! p.1 = Some (FRecv h)
        \/ w_group w = Some p.1 /\ is_Some (groups c !! p.1)
           /\ exists hs, fr !! p.1 = Some (FSelect hs) /\ hs !! p.2 = Some h).

Definition send_entry (c : state) (fr : gmap tid frame) (h : Z) (p : wid) : Prop :=
  exists w, waiters c !! p = Some w /\ w_task w = p.1 /\ p.2 = 0%nat /\ is_Some (w_val w)
    /\ w_ok w = false /\ woken_closed w = false /\ w_group w = None /\ fr !! p.1 = Some (FSend h).

(** Where a context stands; [a] says whether it is awake. *)
Definition wctx (a : Prop) (c : state) (u : tid) (f : frame) : Prop :=
  match f with
  | FRt _ => True
  | FSend h => exists w, waiters c !! (u, 0%nat) = Some w /\ is_Some (g_chans c !! h)
      /\ ((u, 0%nat) ∈ sendq c h /\ (a -> cancelled_t (c_rt c) u = true)
          \/ a /\ (w_ok w = true \/ w_ok w = false /\ woken_closed w = true /\ shut c h))
  | FRecv h => exists w, waiters c !! (u, 0%nat) = Some w /\ is_Some (g_chans c !! h)
      /\ ((u, 0%nat) ∈ recvq c h /\ (a -> cancelled_t (c_rt c) u = true)
          \/ a /\ (w_ok w = true /\ is_Some (outs c !! u) \/ w_ok w = false /\ woken_closed w = true /\ drained c h))
  | FSelectLoop hs => a /\ hs <> [] /\ forall h, h ∈ hs -> is_Some (g_chans c !! h)
  | FSelect hs => exists g, groups c !! u = Some g /\ hs <> [] /\ (forall h, h ∈ hs -> is_Some (g_chans c !! h))
      /\ (0 <= fired_index g -> woken g = true /\ fired_index g < Z.of_nat (length hs) /\ is_Some (outs c !! u))
      /\ (woken g = true -> a /\ (0 <= fired_index g \/ exists h, h ∈ hs /\ shut c h))
      /\ (woken g = false -> (a -> cancelled_t (c_rt c) u = true)
           /\ (forall i h, hs !! i = Some h -> (u, i) ∈ recvq c h \/ drained c h)
           /\ exists i h, hs !! i = Some h /\ (u, i) ∈ recvq c h)
  end.

Record chan_fine (c : state) (h : Z) (x : MadcChan (V := V)) : Prop := {
  cf_recv : NoDup (recv_waiters x);
  cf_send : NoDup (send_waiters x);
  cf_cap : 0 <= cap x;
  cf_full : Z.of_nat (length (q x)) <= cap x;
  cf_wait : send_waiters x <> [] -> Z.of_nat (length (q x)) = cap x;
  cf_live : forall p, p ∈ recv_waiters x -> live_waiter c p -> q x = [] /\ send_waiters x = [];
}.

(** [A] says who is awake; [E] holds of a channel that is being closed. *)
Record cinv_gen (A : tid -> Prop) (E : Z -> Prop) (c : state) (fr : gmap tid frame) : Prop := {
  i_recv : forall h p, p ∈ recvq c h -> recv_entry c fr h p;
  i_send : forall h p, p ∈ sendq c h -> send_entry c fr h p;
  i_fine : forall h x, g_chans c !! h = Some x -> chan_fine c h x;
  i_shut : forall h x, g_chans c !! h = Some x -> ~ E h -> closed x = true -> recv_waiters x = [] /\ send_waiters x = [];
  i_next : forall h, is_Some (g_chans c !! h) -> h < g_next_chan c;
  i_ctx : forall u f, fr !! u = Some f -> wctx (A u) c u f;
}.

Definition settled : Z -> Prop := fun _ => False.
Definition cinv (c : state) (fr : gmap tid frame) : Prop := cinv_gen (awake (c_rt c)) settled c fr.

(** ** Stability *)

(** A select that has fired no longer needs its records. *)
Definition armed (c : state) (u : tid) (f : frame) : Prop :=
  match f with FSelect _ => exists g, groups c !! u = Some g /\ fired_index g < 0 | _ => True end.

Record unmoved (a a' : Prop) (c c' : state) (u : tid) (f : frame) : Prop := {
  u_waiters : forall i, waiters c' !! (u, i) = waiters c !! (u, i);
  u_groups : groups c' !! u = groups c !! u;
  u_outs : outs c' !! u = outs c !! u;
  u_awake : a -> a';
  u_wake : a' -> a \/ cancelled_t (c_rt c') u = true;
  u_cancel : cancelled_t (c_rt c) u = true -> cancelled_t (c_rt c') u = true;
  u_send : forall h i, (u, i) ∈ sendq c h -> (u, i) ∈ sendq c' h;
  u_recv : armed c u f -> forall h i, (u, i) ∈ recvq c h -> (u, i) ∈ recvq c' h;
  u_chan : forall h, is_Some (g_chans c !! h) -> is_Some (g_chans c' !! h);
  u_shut : forall h, shut c h -> shut c' h;
  u_drained : forall h, drained c h -> drained c' h;
}.

Lemma wctx_unmoved a a' c c' u f : (match f with FRt _ => True | _ => unmoved a a' c c' u f end) -> wctx a c u f -> wctx a' c' u f.
Proof.
  intros U Hx. destruct f as [r|h|h|hs|hs]; [done|..]; simpl in *.
  - destruct Hx as (w & Hw & Hch & Hx). exists w. rewrite (u_waiters _ _ _ _ _ _ U). split_and!; [done|by apply U|].
    destruct Hx as [[Hq Ha]|[Ha Hx]].
    + left. split; [by apply U|]. intros Ha'. destruct (u_wake _ _ _ _ _ _ U Ha') as [H|H]; [by apply U, Ha|done].
    + right. split; [by apply U|]. destruct Hx as [Hx|(? & ? & ?)]; [by left|right]. split_and!; try done. by apply U.
  - destruct Hx as (w & Hw & Hch & Hx). exists w. rewrite (u_waiters _ _ _ _ _ _ U). split_and!; [done|by apply U|].
    destruct Hx as [[Hq Ha]|[Ha Hx]].
    + left. split; [by apply U|]. intros Ha'. destruct (u_wake _ _ _ _ _ _ U Ha') as [H|H]; [by apply U, Ha|done].
    + right. split; [by apply U|]. rewrite (u_outs _ _ _ _ _ _ U). destruct Hx as [Hx|(? & ? & ?)]; [by left|right]. split_and!; try done. by apply U.
  - destruct Hx as (Ha & Hne & Hx). split_and!; [by apply U|done|]. intros h Hh. by apply U, Hx.
  - destruct Hx as (g & Hg & Hne & Hch & Hf & Hwk & Hx). exists g. rewrite (u_groups _ _ _ _ _ _ U), (u_outs _ _ _ _ _ _ U).
    split_and!; try done.
    + intros h Hh. by apply U, Hch.
    + intros H. destruct (Hwk H) as [Ha [?|(h & Hh & Hs)]]; (split; [by apply U|]); [by left|right]. exists h. split; [done|by apply U].
    + intros H. destruct (Hx H) as (Hca & Hall & i & h & Hi & Hr).
      assert (Harm : armed c u (FSelect hs)).
      { exists g. split; [done|]. destruct (Z.lt_ge_cases (fired_index g) 0) as [?|Hge]; [done|]. destruct (Hf Hge) as [Hw _]. congruence. }
      split_and!.
      * intros Ha'. destruct (u_wake _ _ _ _ _ _ U Ha') as [Ha|Ha]; [by apply U, Hca|done].
      * intros i' h' Hi'. destruct (Hall i' h' Hi') as [Hq|Hq]; [left; by apply U|right; by apply U].
      * exists i, h. split; [done|by apply U].
Qed.

(** ** The scheduler's part *)

Definition in_chan (f : frame) : Prop := match f with FRt _ => False | _ => True end.

Definition calm (A A' : tid -> Prop) (w w' : rt) (u : tid) : Prop :=
  (A u -> A' u) /\ (A' u -> A u \/ cancelled_t w' u = true) /\ (cancelled_t w u = true -> cancelled_t w' u = true).

Lemma cinv_rt A A' E c w' fr :
  cinv_gen A E c fr -> (forall u f, fr !! u = Some f -> in_chan f -> calm A A' (c_rt c) w' u) -> cinv_gen A' E (with_rt w' c) fr.
Proof.
  intros I Hc. constructor; try apply I.
  - intros h x Hx. destruct (i_fine _ _ _ _ I h x Hx). by constructor.
  - intros u f Hf. eapply wctx_unmoved; [|by apply (i_ctx _ _ _ _ I)].
    destruct f; [done|..]; (destruct (Hc u _ Hf) as (H1 & H2 & H3); [done|]; by constructor; intros; auto).
Qed.

Lemma cinv_frames A E c fr fr' :
  cinv_gen A E c fr -> (forall u f, in_chan f -> fr !! u = Some f <-> fr' !! u = Some f) -> cinv_gen A E c fr'.
Proof.
  intros I Hf. constructor; try apply I.
  - intros h p Hp. destruct (i_recv _ _ _ _ I h p Hp) as (w & ? & ? & ? & ? & ? & ? & Hx). exists w. split_and!; try done.
    destruct Hx as [(? & ? & ?)|(? & ? & hs & ? & ?)]; [left|right]; split_and!; try done; [by apply Hf|].
    exists hs. split; [by apply Hf|done].
  - intros h p Hp. destruct (i_send _ _ _ _ I h p Hp) as (w & ? & ? & ? & ? & ? & ? & ? & ?). exists w. split_and!; try done. by apply Hf.
  - intros u f Hu. destruct f; [done|..]; apply (i_ctx _ _ _ _ I); by apply Hf.
Qed.

Lemma others_calm K t j b w w' fr u f :
  rmid t j b w fr -> env K t w w' -> fr !! u = Some f -> in_chan f ->
  (awake w u -> awake w' u) /\ (awake w' u -> awake w u \/ cancelled_t w' u = true \/ K u)
  /\ (cancelled_t w u = true -> cancelled_t w' u = true).
Proof.
  intros M E Hf Hi. assert (Hu : u <> t) by (intros ->; rewrite (r_here _ _ _ _ _ M) in Hf; done).
  assert (Ha : is_Some (tasks w !! u)) by (by apply (r_place _ _ _ _ _ M); [|rewrite Hf]).
  split_and!; [by apply E| |by apply E].
  intros Haw. destruct (e_wake _ _ _ _ E u Hu Ha Haw) as [?|[[Hin _]|[?|[(s & x & Hs & Hj & Ho)|?]]]]; [by left| |by right; left| |by right; right].
  - apply M in Hin. rewrite Hf in Hin. injection Hin as ->. done.
  - destruct (r_joining _ _ _ _ _ M s x Hs Hj) as (f' & Hf' & Hjf); [congruence|]. rewrite Ho, Hf in Hf'. injection Hf' as <-.
    by destruct f.
Qed.

Lemma cinv_env t j b c w' fr :
  rmid t j b (c_rt c) fr -> env NoK t (c_rt c) w' -> cinv c fr -> cinv (with_rt w' c) fr.
Proof.
  intros M E I. apply (cinv_rt (awake (c_rt c))); [done|]. intros u f Hf Hi.
  destruct (others_calm _ _ _ _ _ _ _ _ _ M E Hf Hi) as (? & H2 & ?). split_and!; [done| |done].
  intros Ha. destruct (H2 Ha) as [?|[?|[]]]; [by left|by right].
Qed.

(** A channel wakes the context [u], which stands in a channel verb. *)
Lemma unpark_mid t w fr u f :
  rmid t None false w fr -> fr !! u = Some f -> in_chan f ->
  rmid t None false (task_enqueue u w) fr /\ env (eq u) t w (task_enqueue u w) /\ awake (task_enqueue u w) u.
Proof.
  intros M Hf Hi. assert (Hu : u <> t) by (intros ->; rewrite (r_here _ _ _ _ _ M) in Hf; done).
  assert (Ha : is_Some (tasks w !! u)) by (by apply (r_place _ _ _ _ _ M); [|rewrite Hf]).
  assert (Hnt : u ∉ g_timers w) by (intros Hin; apply M in Hin; rewrite Hf in Hin; injection Hin as ->; done).
  destruct (enqueue_other_env (eq u) u t w eq_refl (r_ok _ _ _ _ _ M) Ha Hnt) as (Hok & E & Hin).
  destruct (moved_flags _ _ (task_enqueue_moved u w)) as (Esc & _ & Ec & _ & _ & _ & Emw & _).
  split_and!; [|done|by right]. apply (rmid_env (eq u) t None false w _ fr M E); try done.
  - apply moved_keeps; [done|apply task_enqueue_moved].
  - intros v <- Hv. rewrite Hf in Hv. injection Hv as ->. done.
  - rewrite Ec. apply M.
  - rewrite task_enqueue_ready; [|apply (ro_sched _ (r_ok _ _ _ _ _ M))|by rewrite core_lookup, fmap_is_Some].
    pose proof (r_ready _ _ _ _ _ M). case_decide; [done|]. intros [?|Hx]%elem_of_app; [done|]. apply list_elem_of_singleton in Hx. done.
  - rewrite task_enqueue_timers. apply M.
  - intros s x. rewrite Esc. apply M.
  - left. by rewrite Emw.
Qed.

(** ** Between two calls *)

Record cmid (t : tid) (c : state) (fr : gmap tid frame) : Prop := {
  cm_rt : rmid t None false (c_rt c) fr;
  cm_inv : cinv c fr;
}.

(** ** One change of one channel *)

(** What a change of channel [h] is to the invariant: at most the record [po]
    is completed, and leaves the queue with the husks in front of it. *)
Record chan_step (po : option wid) (c c' : state) (h : Z) (x x' : MadcChan (V := V)) : Prop := {
  s_at : g_chans c !! h = Some x;
  s_chans : g_chans c' = <[h := x']> (g_chans c);
  s_next : g_next_chan c' = g_next_chan c;
  s_waiters : forall p, po <> Some p -> waiters c' !! p = waiters c !! p;
  s_groups : forall u, fst <$> po <> Some u -> groups c' !! u = groups c !! u;
  s_outs : forall u, fst <$> po <> Some u -> outs c' !! u = outs c !! u;
  s_fired : forall u g, groups c !! u = Some g -> exists g', groups c' !! u = Some g' /\ (0 <= fired_index g -> 0 <= fired_index g');
  s_recv : forall p, p ∈ recv_waiters x' -> p ∈ recv_waiters x /\ po <> Some p;
  s_send : forall p, p ∈ send_waiters x' -> p ∈ send_waiters x /\ po <> Some p;
  s_only : forall p h', po = Some p -> h' <> h -> (p ∉ recvq c h') /\ (p ∉ sendq c h');
  s_keep_send : forall u i, fst <$> po <> Some u -> (u, i) ∈ send_waiters x -> (u, i) ∈ send_waiters x';
  s_keep_recv : forall u i, fst <$> po <> Some u -> live_waiter c (u, i) -> (u, i) ∈ recv_waiters x -> (u, i) ∈ recv_waiters x';
  s_closed : closed x = true -> closed x' = true /\ (q x = [] -> q x' = []);
  s_fine : chan_fine c h x';
}.

Section Step.
Context (A A' : tid -> Prop) (E : Z -> Prop) (po : option wid) (c c' : state) (h : Z) (x x' : MadcChan (V := V)) (fr : gmap tid frame).
Context (I : cinv_gen A E c fr) (S : chan_step po c c' h x x').

Lemma step_recv_in h' p : p ∈ recvq c' h' -> p ∈ recvq c h' /\ po <> Some p.
Proof.
  unfold recvq at 1. rewrite (s_chans _ _ _ _ _ _ S). destruct (decide (h' = h)) as [->|Hn].
  - rewrite lookup_insert_eq. unfold recvq. rewrite (s_at _ _ _ _ _ _ S). apply S.
  - rewrite lookup_insert_ne by done. intros Hp. split; [done|]. intros Hpo. by destruct (s_only _ _ _ _ _ _ S p h' Hpo Hn).
Qed.
Lemma step_send_in h' p : p ∈ sendq c' h' -> p ∈ sendq c h' /\ po <> Some p.
Proof.
  unfold sendq at 1. rewrite (s_chans _ _ _ _ _ _ S). destruct (decide (h' = h)) as [->|Hn].
  - rewrite lookup_insert_eq. unfold sendq. rewrite (s_at _ _ _ _ _ _ S). apply S.
  - rewrite lookup_insert_ne by done. intros Hp. split; [done|]. intros Hpo. by destruct (s_only _ _ _ _ _ _ S p h' Hpo Hn).
Qed.

(** What can still take a value could before. *)
Lemma step_live h' p : p ∈ recvq c' h' -> live_waiter c' p -> live_waiter c p.
Proof.
  intros Hp (w & Hw & Hh). destruct (step_recv_in h' p Hp) as [Hp' Hne]. rewrite (s_waiters _ _ _ _ _ _ S) in Hw by done.
  exists w. split; [done|]. destruct (i_recv _ _ _ _ I h' p Hp') as (w' & Hw' & _ & _ & _ & _ & _ & Hg). simplify_eq.
  unfold husk in *. destruct Hg as [(Eg & _)|(Eg & [g Hg] & _)]; rewrite Eg in *; [done|].
  destruct (s_fired _ _ _ _ _ _ S _ _ Hg) as (g' & Hg' & Hf). simpl in *. rewrite Hg' in Hh. rewrite Hg. simpl in *.
  injection Hh as Hh. f_equal. apply Z.leb_gt in Hh. apply Z.leb_gt. lia.
Qed.

Lemma armed_live u f i h' : fr !! u = Some f -> armed c u f -> (u, i) ∈ recvq c h' -> live_waiter c (u, i).
Proof using I.
  intros Hf Ha Hp. destruct (i_recv _ _ _ _ I h' _ Hp) as (w & Hw & _ & _ & _ & _ & _ & Hg). exists w. split; [done|].
  unfold husk. destruct Hg as [(-> & _)|(-> & _ & hs & Hs & _)]; [done|]. simpl in Hs. rewrite Hf in Hs. injection Hs as ->.
  destruct Ha as (g & Hg & Hlt). simpl. rewrite Hg. simpl. f_equal. by apply Z.leb_gt.
Qed.

Lemma step_shut h' : shut c h' -> shut c' h'.
Proof.
  intros (y & Hy & Hc). unfold shut. rewrite (s_chans _ _ _ _ _ _ S). destruct (decide (h' = h)) as [->|Hn].
  - rewrite lookup_insert_eq. exists x'. split; [done|]. rewrite (s_at _ _ _ _ _ _ S) in Hy. injection Hy as <-. by apply S.
  - rewrite lookup_insert_ne by done. eauto.
Qed.
Lemma step_drained h' : drained c h' -> drained c' h'.
Proof.
  intros [Hs Hb]. split; [by apply step_shut|]. destruct Hs as (y & Hy & Hc). unfold buf in *. rewrite Hy in Hb.
  rewrite (s_chans _ _ _ _ _ _ S). destruct (decide (h' = h)) as [->|Hn].
  - rewrite lookup_insert_eq. rewrite (s_at _ _ _ _ _ _ S) in Hy. injection Hy as <-. by apply S.
  - rewrite lookup_insert_ne by done. by rewrite Hy.
Qed.
Lemma step_chan h' : is_Some (g_chans c !! h') <-> is_Some (g_chans c' !! h').
Proof.
  rewrite (s_chans _ _ _ _ _ _ S). destruct (decide (h' = h)) as [->|Hn]; [|by rewrite lookup_insert_ne].
  rewrite lookup_insert_eq, (s_at _ _ _ _ _ _ S). split; eauto.
Qed.

Lemma step_unmoved u f : fr !! u = Some f -> fst <$> po <> Some u -> calm A A' (c_rt c) (c_rt c') u -> unmoved (A u) (A' u) c c' u f.
Proof using I S.
  intros Hf Hu (H1 & H2 & H3). constructor; try done.
  - intros i. apply (s_waiters _ _ _ _ _ _ S). intros ->. by apply Hu.
  - by apply S.
  - by apply S.
  - intros h' i. unfold sendq. rewrite (s_chans _ _ _ _ _ _ S). destruct (decide (h' = h)) as [->|Hn]; [|by rewrite lookup_insert_ne].
    rewrite lookup_insert_eq, (s_at _ _ _ _ _ _ S). by apply S.
  - intros Ha h' i Hi. pose proof (armed_live u f i h' Hf Ha Hi) as Hl. revert Hi.
    unfold recvq. rewrite (s_chans _ _ _ _ _ _ S). destruct (decide (h' = h)) as [->|Hn]; [|by rewrite lookup_insert_ne].
    rewrite lookup_insert_eq, (s_at _ _ _ _ _ _ S). by apply S.
  - intros h' Hh. by apply step_chan.
  - apply step_shut.
  - apply step_drained.
Qed.

Lemma step_inv :
  (~ E h -> closed x' = true -> recv_waiters x' = [] /\ send_waiters x' = []) ->
  (forall u f, fr !! u = Some f -> in_chan f -> if decide (fst <$> po = Some u) then wctx (A' u) c' u f else calm A A' (c_rt c) (c_rt c') u) ->
  cinv_gen A' E c' fr.
Proof.
  intros Hsh Hctx. constructor.
  - intros h' p Hp. destruct (step_recv_in h' p Hp) as [Hp' Hne].
    destruct (i_recv _ _ _ _ I h' p Hp') as (w & Hw & ? & ? & ? & ? & ? & Hg). exists w. rewrite (s_waiters _ _ _ _ _ _ S) by done.
    split_and!; try done. destruct Hg as [?|(? & [g Hgg] & ?)]; [by left|right]. split_and!; try done.
    destruct (s_fired _ _ _ _ _ _ S _ _ Hgg) as (g' & -> & _). by eexists.
  - intros h' p Hp. destruct (step_send_in h' p Hp) as [Hp' Hne].
    destruct (i_send _ _ _ _ I h' p Hp') as (w & Hw & Hr). exists w. by rewrite (s_waiters _ _ _ _ _ _ S).
  - intros h' y. rewrite (s_chans _ _ _ _ _ _ S). destruct (decide (h' = h)) as [->|Hn].
    + rewrite lookup_insert_eq. intros [= <-]. destruct (s_fine _ _ _ _ _ _ S). constructor; try done.
      intros p Hp Hl. apply cf_live0 with p; [done|]. apply (step_live h); [|done].
      unfold recvq. by rewrite (s_chans _ _ _ _ _ _ S), lookup_insert_eq.
    + rewrite lookup_insert_ne by done. intros Hy. destruct (i_fine _ _ _ _ I h' y Hy). constructor; try done.
      intros p Hp Hl. apply cf_live0 with p; [done|]. apply (step_live h'); [|done].
      unfold recvq. rewrite (s_chans _ _ _ _ _ _ S), lookup_insert_ne by done. by rewrite Hy.
  - intros h' y. rewrite (s_chans _ _ _ _ _ _ S). destruct (decide (h' = h)) as [->|Hn].
    + rewrite lookup_insert_eq. intros [= <-]. done.
    + rewrite lookup_insert_ne by done. apply I.
  - intros h' Hh. rewrite (s_next _ _ _ _ _ _ S). by apply I, step_chan.
  - intros u f Hf. destruct f as [r|h1|h1|hs|hs]; [done|..]; pose proof (Hctx u _ Hf Logic.I) as Hx; case_decide; try done;
      (eapply wctx_unmoved; [|by apply I]); by apply step_unmoved.
Qed.
End Step.

(** ** Queues *)

Lemma recv_only A E c fr h p h' : cinv_gen A E c fr -> p ∈ recvq c h -> h' <> h -> (p ∉ recvq c h') /\ (p ∉ sendq c h').
Proof.
  intros I Hp Hn. destruct (i_recv _ _ _ _ I h p Hp) as (w & _ & _ & _ & _ & _ & _ & Hg). split; intros Hp'.
  - destruct (i_recv _ _ _ _ I h' p Hp') as (w' & _ & _ & _ & _ & _ & _ & Hg').
    destruct Hg as [(_ & _ & Hf)|(_ & _ & hs & Hf & Hi)], Hg' as [(_ & _ & Hf')|(_ & _ & hs' & Hf' & Hi')]; congruence.
  - destruct (i_send _ _ _ _ I h' p Hp') as (w' & _ & _ & _ & _ & _ & _ & _ & Hf').
    destruct Hg as [(_ & _ & Hf)|(_ & _ & hs & Hf & Hi)]; congruence.
Qed.
Lemma send_only A E c fr h p h' : cinv_gen A E c fr -> p ∈ sendq c h -> h' <> h -> (p ∉ recvq c h') /\ (p ∉ sendq c h').
Proof.
  intros I Hp Hn. destruct (i_send _ _ _ _ I h p Hp) as (w & _ & _ & _ & _ & _ & _ & _ & Hf). split; intros Hp'.
  - destruct (i_recv _ _ _ _ I h' p Hp') as (w' & _ & _ & _ & _ & _ & _ & Hg').
    destruct Hg' as [(_ & _ & Hf')|(_ & _ & hs' & Hf' & Hi')]; congruence.
  - destruct (i_send _ _ _ _ I h' p Hp') as (w' & _ & _ & _ & _ & _ & _ & _ & Hf'). congruence.
Qed.

(** The queues of a channel share no record. *)
Lemma recv_not_send A E c fr h p : cinv_gen A E c fr -> p ∈ recvq c h -> p ∉ sendq c h.
Proof.
  intros I Hp Hp'. destruct (i_recv _ _ _ _ I h p Hp) as (w & _ & _ & _ & _ & _ & _ & Hg).
  destruct (i_send _ _ _ _ I h p Hp') as (w' & _ & _ & _ & _ & _ & _ & _ & Hf').
  destruct Hg as [(_ & _ & Hf)|(_ & _ & hs & Hf & Hi)]; congruence.
Qed.

Lemma entry_husk c fr h p : recv_entry c fr h p -> exists w b, waiters c !! p = Some w /\ husk c w = Some b.
Proof.
  intros (w & Hw & _ & _ & _ & _ & _ & Hg). exists w. unfold husk.
  destruct Hg as [(-> & _)|(-> & [g Hg] & _)]; [by exists false|]. exists (0 <=? fired_index g). by rewrite Hg.
Qed.

Lemma pop_waiters_spec c l :
  (forall p, p ∈ l -> exists w b, waiters c !! p = Some w /\ husk c w = Some b) ->
  exists o l', pop_waiters c l = Some (o, l') /\
    match o with
    | Some p => exists hk, l = hk ++ p :: l' /\ live_waiter c p /\ forall p', p' ∈ hk -> ~ live_waiter c p'
    | None => l' = [] /\ forall p, p ∈ l -> ~ live_waiter c p
    end.
Proof.
  induction l as [|p l IH]; intros Hl; [exists None, []; split_and!; try done; by intros p Hp%not_elem_of_nil|].
  destruct (Hl p) as (w & b & Hw & Hb); [by left|]. simpl. rewrite Hw. simpl. rewrite Hb. simpl. destruct b.
  - destruct IH as (o & l' & -> & Ho); [intros p' Hp'; apply Hl; by right|]. exists o, l'. split; [done|].
    assert (Hp : ~ live_waiter c p) by (intros (w' & Hw' & Hh'); simplify_eq). destruct o as [p'|].
    + destruct Ho as (hk & -> & ? & Hhk). exists (p :: hk). split_and!; try done. intros p2 [->|?]%elem_of_cons; auto.
    + destruct Ho as [-> Ho]. split; [done|]. intros p2 [->|?]%elem_of_cons; auto.
  - exists (Some p), l. split; [done|]. exists []. split_and!; [done|by exists w|]. by intros p' Hp'%not_elem_of_nil.
Qed.

Lemma calm_others u t w fr v f w' :
  rmid t None false w fr -> env (eq u) t w w' -> fr !! v = Some f -> in_chan f -> v <> u -> calm (awake w) (awake w') w w' v.
Proof.
  intros M E Hf Hi Hn. destruct (others_calm _ _ _ _ _ _ _ _ _ M E Hf Hi) as (H1 & H2 & H3). split_and!; try done.
  intros Ha. destruct (H2 Ha) as [?|[?|?]]; [by left|by right|congruence].
Qed.
Lemma calm_refl A w v : calm A A w w v.
Proof. split_and!; auto. Qed.

(** ** A value finds a receiver *)

Lemma live_not_fired c p w g : waiters c !! p = Some w -> live_waiter c p -> w_group w = Some p.1 -> groups c !! p.1 = Some g -> fired_index g < 0.
Proof.
  intros Hw (w' & Hw' & Hh) Hg Hgg. simplify_eq. unfold husk in Hh. rewrite Hg in Hh. simpl in Hh. rewrite Hgg in Hh.
  injection Hh as Hh. by apply Z.leb_gt in Hh.
Qed.

Lemma upd_chan_at f h x (c : state) : g_chans c !! h = Some x -> g_chans (upd_chan f h c) = <[h := f x]> (g_chans c).
Proof.
  intros Hx. simpl. apply map_eq. intros k. destruct (decide (k = h)) as [->|Hn].
  - by rewrite lookup_alter_eq, lookup_insert_eq, Hx.
  - by rewrite lookup_alter_ne, lookup_insert_ne.
Qed.

Lemma recv_step A E c c' fr h x p hk l :
  cinv_gen A E c fr -> g_chans c !! h = Some x -> recv_waiters x = hk ++ p :: l -> (forall p', p' ∈ hk -> ~ live_waiter c p') ->
  g_chans c' = <[h := set_recv_waiters l x]> (g_chans c) -> g_next_chan c' = g_next_chan c ->
  (forall p', p' <> p -> waiters c' !! p' = waiters c !! p') ->
  (forall u, u <> p.1 -> groups c' !! u = groups c !! u /\ outs c' !! u = outs c !! u) ->
  (forall g, groups c !! p.1 = Some g -> exists g', groups c' !! p.1 = Some g' /\ (0 <= fired_index g -> 0 <= fired_index g')) ->
  chan_step (Some p) c c' h x (set_recv_waiters l x).
Proof.
  intros I Hx Hq Hhk Hch Hnx Hw Hgo Hgr. assert (Hp : p ∈ recvq c h).
  { unfold recvq. rewrite Hx, Hq. apply elem_of_app. right. by left. }
  pose proof (i_fine _ _ _ _ I h x Hx) as [F1 F2 F3 F4 F5 F6]. pose proof F1 as Hnd. rewrite Hq in Hnd.
  apply NoDup_app in Hnd as (_ & Hdis & [Hpl Hl]%NoDup_cons).
  constructor; simpl; try done.
  - intros p' Hne. apply Hw. congruence.
  - intros u Hu. apply Hgo. congruence.
  - intros u Hu. apply Hgo. congruence.
  - intros u g Hg. destruct (decide (u = p.1)) as [->|Hn]; [by apply Hgr|]. destruct (Hgo u Hn) as [-> _]. eauto.
  - intros p' Hp'. rewrite Hq. split; [apply elem_of_app; right; by right|]. congruence.
  - intros p' Hp'. split; [done|]. intros [= <-]. eapply recv_not_send; [done| |]; [exact Hp|]. unfold sendq. by rewrite Hx.
  - intros p' h' [= <-] Hn. by eapply recv_only.
  - intros u i Hu Hlive. rewrite Hq. intros [Hi|[Hi|Hi]%elem_of_cons]%elem_of_app; [by destruct (Hhk _ Hi)| |done].
    subst p. simpl in Hu. congruence.
  - constructor; simpl; try done. intros p' Hp'. apply F6. rewrite Hq. apply elem_of_app. right. by right.
Qed.

Lemma deliver t c fr h x p hk l w v :
  cmid t c fr -> g_chans c !! h = Some x -> recv_waiters x = hk ++ p :: l -> (forall p', p' ∈ hk -> ~ live_waiter c p') ->
  live_waiter c p -> waiters c !! p = Some w ->
  exists b c', select_fire (w_group w) (w_index w) (w_task w)
      (upd_waiter set_w_ok p (with_outs (<[p.1 := v]> (outs c)) (upd_chan (set_recv_waiters l) h c))) = Some (b, c')
    /\ w_slot w = Some p.1 /\ cmid t c' fr /\ g_chans c' = <[h := set_recv_waiters l x]> (g_chans c)
    /\ outs c' = <[p.1 := v]> (outs c) /\ awake (c_rt c') p.1.
Proof.
  intros [M I] Hx Hq Hhk Hl Hw. assert (Hp : p ∈ recvq c h).
  { unfold recvq. rewrite Hx, Hq. apply elem_of_app. right. by left. }
  destruct (i_recv _ _ _ _ I h p Hp) as (w' & Hw' & Ht & Hs & Hi & Hok & Hwc & Hg). rewrite Hw in Hw'. injection Hw' as <-.
  set (c2 := upd_waiter _ _ _). pose proof (upd_chan_at (set_recv_waiters l) h x c Hx) as Hch.
  assert (Hw2 : waiters c2 !! p = Some (set_w_ok w)) by (simpl; by rewrite lookup_alter_eq, Hw).
  assert (Hw3 : forall p', p' <> p -> waiters c2 !! p' = waiters c !! p') by (intros p' Hn; simpl; by rewrite lookup_alter_ne).
  assert (Ho2 : outs c2 !! p.1 = Some v) by (simpl; by rewrite lookup_insert_eq).
  assert (Hchs : is_Some (<[h:=set_recv_waiters l x]> (g_chans c) !! h)) by (rewrite lookup_insert_eq; eauto).
  assert (Hsh : ~ settled h -> closed x = true -> l = [] /\ send_waiters x = []).
  { intros Hs' Hc. destruct (i_shut _ _ _ _ I h x Hx Hs' Hc) as [Hn _]. rewrite Hq in Hn. by destruct hk. }
  rewrite Ht. unfold select_fire. destruct Hg as [(Eg & Hp2 & Hf)|(Eg & [g Hgg] & hs & Hf & Hhs)]; rewrite Eg.
  - destruct (unpark_mid t (c_rt c) fr p.1 _ M Hf Logic.I) as (M' & E' & Haw).
    exists true, (unpark p.1 c2). split_and!; try done. split; [done|].
    assert (S : chan_step (Some p) c (unpark p.1 c2) h x (set_recv_waiters l x)).
    { eapply recv_step; try done; [|by eauto]. intros u Hu. simpl. by rewrite lookup_insert_ne. }
    apply (step_inv _ _ _ _ _ _ _ _ _ _ I S); [done|]. intros u f Hfu Hin. simpl. case_decide as Hd.
    + injection Hd as <-. rewrite Hf in Hfu. injection Hfu as <-. destruct p as [u i]. simpl in *. subst i.
      exists (set_w_ok w). split_and!; [done|by rewrite Hch|]. right. split; [done|]. left. by rewrite lookup_insert_eq.
    + eapply calm_others; try done. congruence.
  - pose proof (live_not_fired _ _ _ _ Hw Hl Eg Hgg) as Hlt. rewrite Hi.
    change (groups c2 !! p.1) with (groups c !! p.1). rewrite Hgg. simpl.
    pose proof (i_ctx _ _ _ _ I _ _ Hf) as (g' & Hg' & Hne & Hchan & Hfi & Hwk & Hnw). rewrite Hgg in Hg'. injection Hg' as <-.
    assert (Hlen : Z.of_nat p.2 < Z.of_nat (length hs)) by (apply lookup_lt_Some in Hhs; lia).
    set (c3 := with_groups _ c2).
    assert (S : forall c4, waiters c4 = waiters c3 -> groups c4 = groups c3 -> outs c4 = outs c3 -> g_chans c4 = g_chans c3 ->
       g_next_chan c4 = g_next_chan c -> chan_step (Some p) c c4 h x (set_recv_waiters l x)).
    { intros c4 E1 E2 E3 E4 E5. eapply recv_step; try done; rewrite ?E1, ?E2, ?E3, ?E4; try done.
      - intros u Hu. simpl. by rewrite !lookup_insert_ne.
      - intros g0 Hg0. simpl. rewrite lookup_insert_eq. eexists. split; [done|]. simpl. lia. }
    assert (Hctx : forall c4 (a : Prop), groups c4 = groups c3 -> outs c4 = outs c3 -> g_chans c4 = g_chans c3 -> a -> wctx a c4 p.1 (FSelect hs)).
    { intros c4 a E2 E3 E4 Ha. exists (Group (Z.of_nat p.2) true). rewrite E2, E3, E4. simpl. rewrite lookup_insert_eq. split_and!; try done.
      - intros h' Hh'. rewrite lookup_alter_is_Some. by apply Hchan.
      - intros _. split; [done|]. left. simpl. lia. }
    destruct (woken g) eqn:Ewk.
    + exists false, c3. split_and!; try done; [|by apply Hwk]. split; [done|].
      apply (step_inv _ _ _ _ _ _ _ _ _ _ I (S c3 eq_refl eq_refl eq_refl eq_refl eq_refl)); [done|].
      intros u f Hfu Hin. simpl. case_decide as Hd; [|apply calm_refl]. injection Hd as <-. rewrite Hf in Hfu. injection Hfu as <-.
      apply Hctx; try done. by apply Hwk.
    + destruct (unpark_mid t (c_rt c) fr p.1 _ M Hf Logic.I) as (M' & E' & Haw).
      exists true, (unpark p.1 c3). split_and!; try done. split; [done|].
      apply (step_inv _ _ _ _ _ _ _ _ _ _ I (S (unpark p.1 c3) eq_refl eq_refl eq_refl eq_refl eq_refl)); [done|].
      intros u f Hfu Hin. simpl. case_decide as Hd.
      * injection Hd as <-. rewrite Hf in Hfu. injection Hfu as <-. by apply Hctx.
      * eapply calm_others; try done. congruence.
Qed.

(** ** A sender is done *)

Lemma send_step A E c c' fr h x p ps q' :
  cinv_gen A E c fr -> g_chans c !! h = Some x -> send_waiters x = p :: ps -> length q' = length (q x) ->
  g_chans c' = <[h := set_q q' (set_send_waiters ps x)]> (g_chans c) -> g_next_chan c' = g_next_chan c ->
  (forall p', p' <> p -> waiters c' !! p' = waiters c !! p') -> groups c' = groups c -> outs c' = outs c ->
  chan_step (Some p) c c' h x (set_q q' (set_send_waiters ps x)).
Proof.
  intros I Hx Hq Hlen Hch Hnx Hw Hg Ho. assert (Hp : p ∈ sendq c h).
  { unfold sendq. rewrite Hx, Hq. by left. }
  pose proof (i_fine _ _ _ _ I h x Hx) as [F1 F2 F3 F4 F5 F6]. pose proof F2 as Hnd. rewrite Hq in Hnd. apply NoDup_cons in Hnd as [Hps Hnd].
  rewrite Hq in F5. constructor; simpl; try done.
  - intros p' Hne. apply Hw. congruence.
  - intros u _. by rewrite Hg.
  - intros u _. by rewrite Ho.
  - intros u g Hgg. rewrite Hg. eauto.
  - intros p' Hp'. split; [done|]. intros [= <-]. eapply recv_not_send; [done| |exact Hp]. unfold recvq. by rewrite Hx.
  - intros p' Hp'. rewrite Hq. split; [by right|]. congruence.
  - intros p' h' [= <-] Hn. by eapply send_only.
  - intros u i Hu. rewrite Hq. intros [Hi|Hi]%elem_of_cons; [subst p; simpl in Hu; congruence|done].
  - intros Hc. split; [done|]. intros Hqq. rewrite Hqq in Hlen. by destruct q'.
  - constructor; simpl; try done; try (rewrite Hlen; auto).
    intros p' Hp' Hl. destruct (F6 p' Hp' Hl) as [_ Hn]. congruence.
Qed.

(** [g] marks the record of the first sender as completed. *)
Lemma finish_sender t E c fr h x p ps q' w g :
  rmid t None false (c_rt c) fr -> cinv_gen (awake (c_rt c)) E c fr ->
  g_chans c !! h = Some x -> send_waiters x = p :: ps -> length q' = length (q x) -> waiters c !! p = Some w ->
  (w_ok (g w) = true \/ w_ok (g w) = false /\ woken_closed (g w) = true /\ closed x = true) ->
  (~ E h -> closed x = true -> ps = []) ->
  let c' := unpark (w_task w) (upd_waiter g p (upd_chan (fun x => set_q q' (set_send_waiters ps x)) h c)) in
  rmid t None false (c_rt c') fr /\ cinv_gen (awake (c_rt c')) E c' fr
  /\ env (eq p.1) t (c_rt c) (c_rt c') /\ awake (c_rt c') p.1.
Proof.
  intros M I Hx Hq Hlen Hw Hg Hsh c'. assert (Hp : p ∈ sendq c h).
  { unfold sendq. rewrite Hx, Hq. by left. }
  destruct (i_send _ _ _ _ I h p Hp) as (w' & Hw' & Ht & Hp2 & Hv & Hok & Hwc & Hgr & Hf). rewrite Hw in Hw'. injection Hw' as <-.
  unfold c'. rewrite Ht in *. clear c'. set (c' := unpark _ _).
  destruct (unpark_mid t (c_rt c) fr p.1 _ M Hf Logic.I) as (M' & E' & Haw). split_and!; try done.
  pose proof (upd_chan_at (fun x => set_q q' (set_send_waiters ps x)) h x c Hx) as Hch.
  assert (S : chan_step (Some p) c c' h x (set_q q' (set_send_waiters ps x))).
  { eapply send_step; try done. intros p' Hn. simpl. by rewrite lookup_alter_ne. }
  apply (step_inv _ _ _ _ _ _ _ _ _ _ I S).
  - simpl. intros Hs Hc. split; [|auto]. by apply (i_shut _ _ _ _ I h x Hx Hs Hc).
  - intros u f Hfu Hin. simpl. case_decide as Hd.
    + injection Hd as <-. rewrite Hf in Hfu. injection Hfu as <-. destruct p as [u i]. simpl in *. subst i.
      exists (g w). split_and!; [by rewrite lookup_alter_eq, Hw|by rewrite Hch, lookup_insert_eq; eauto|]. right. split; [done|].
      destruct Hg as [?|(? & ? & ?)]; [by left|right]. split_and!; try done. unfold shut. simpl. rewrite lookup_alter_eq, Hx.
      simpl. eexists. by split.
    + eapply calm_others; try done. congruence.
Qed.

(** A buffer changes, and no record does. *)
Lemma buffer_step A E c fr h x q' :
  cinv_gen A E c fr -> g_chans c !! h = Some x -> send_waiters x = [] -> Z.of_nat (length q') <= cap x ->
  (forall p, p ∈ recv_waiters x -> live_waiter c p -> q' = []) -> (closed x = true -> q x = [] -> q' = []) ->
  cinv_gen A E (upd_chan (set_q q') h c) fr.
Proof.
  intros I Hx Hs Hlen Hl Hcl. pose proof (upd_chan_at (set_q q') h x c Hx) as Hch.
  assert (S : chan_step None c (upd_chan (set_q q') h c) h x (set_q q' x)).
  { destruct (i_fine _ _ _ _ I h x Hx). constructor; simpl; try done; eauto.
    constructor; simpl; try done. intros p Hp Hlp. split; [by eapply Hl|done]. }
  apply (step_inv _ _ _ _ _ _ _ _ _ _ I S).
  - simpl. by apply I.
  - intros u f Hfu Hin. simpl. apply calm_refl.
Qed.

(** What is in a channel: its buffer, and behind it the values of the senders
    that wait. *)
Definition contents (c : state) (h : Z) : list V := buf c h ++ omap (fun p => waiters c !! p ≫= w_val) (sendq c h).

Lemma omap_ext_in {A B} (f g : A -> option B) (l : list A) : (forall a, a ∈ l -> f a = g a) -> omap f l = omap g l.
Proof. induction l as [|a l IH]; intros Hfg; [done|]. csimpl. rewrite Hfg by by left. rewrite IH; [done|]. intros b Hb. apply Hfg. by right. Qed.

Lemma contents_at h x c : g_chans c !! h = Some x -> contents c h = q x ++ omap (fun p => waiters c !! p ≫= w_val) (send_waiters x).
Proof. intros Hx. unfold contents, buf, sendq. by rewrite Hx. Qed.

(** The value of a waiting sender is there. *)
Lemma sender_value A E c fr h x p ps :
  cinv_gen A E c fr -> g_chans c !! h = Some x -> send_waiters x = p :: ps ->
  exists w v, waiters c !! p = Some w /\ w_val w = Some v /\ (p ∉ ps).
Proof.
  intros I Hx Hq. destruct (i_send _ _ _ _ I h p) as (w & Hw & _ & _ & [v Hv] & _); [unfold sendq; rewrite Hx, Hq; by left|].
  exists w, v. split_and!; try done. destruct (i_fine _ _ _ _ I h x Hx) as [_ F2 _ _ _ _]. rewrite Hq in F2. by apply NoDup_cons in F2 as [? _].
Qed.

(** [chan_poll_recv] takes the oldest value there is. *)
Definition polled (c : state) (h : Z) (r : poll (V := V)) (c' : state) : Prop :=
  match r with
  | Got v => contents c h = v :: contents c' h
  | WouldBlock => c' = c /\ contents c h = [] /\ ~ shut c h
  | Drained => c' = c /\ contents c h = [] /\ shut c h
  end.

Lemma finished_contents c h x p ps q' v v' t w g :
  g_chans c !! h = Some x -> send_waiters x = p :: ps -> (p ∉ ps) -> waiters c !! p = Some w -> w_val w = Some v' ->
  q x ++ [v'] = v :: q' ->
  contents c h = v :: contents (unpark t (upd_waiter g p (upd_chan (fun x => set_q q' (set_send_waiters ps x)) h c))) h.
Proof.
  intros Hx Hs Hp Hw Hv Hq. rewrite (contents_at _ _ _ Hx), Hs. csimpl. rewrite Hw. simpl. rewrite Hv.
  erewrite contents_at by (simpl; by rewrite lookup_alter_eq, Hx). simpl.
  rewrite (omap_ext_in (fun p' => alter g p (waiters c) !! p' ≫= w_val) (fun p' => waiters c !! p' ≫= w_val) ps).
  - by rewrite cons_middle, app_assoc, Hq.
  - intros p2 Hp2. rewrite lookup_alter_ne; [done|]. by intros ->.
Qed.

Lemma poll_ok t c fr h x :
  cmid t c fr -> g_chans c !! h = Some x ->
  exists r c', chan_poll_recv h c = Some (r, c') /\ cmid t c' fr /\ polled c h r c'
    /\ forall h', is_Some (g_chans c !! h') -> is_Some (g_chans c' !! h').
Proof.
  intros [M I] Hx. unfold chan_poll_recv. rewrite Hx. simpl.
  destruct (i_fine _ _ _ _ I h x Hx) as [F1 F2 F3 F4 F5 F6].
  assert (Hrecv : forall p, p ∈ recv_waiters x -> live_waiter c p -> q x = []) by (intros p Hp Hl; by apply (F6 p)).
  destruct (q x) as [|v r] eqn:Eq.
  - destruct (send_waiters x) as [|p ps] eqn:Es.
    + exists (if closed x then Drained else WouldBlock), c. split_and!; try done. unfold polled. rewrite (contents_at _ _ _ Hx), Eq, Es.
      unfold shut. destruct (closed x) eqn:Ec; split_and!; eauto. intros (y & Hy & Hc). congruence.
    + destruct (sender_value _ _ _ _ _ _ _ _ I Hx Es) as (w & v & Hw & Hv & Hp). rewrite Hw. simpl. rewrite Hv. simpl.
      assert (Hsame : upd_chan (set_send_waiters ps) h c = upd_chan (fun x => set_q [] (set_send_waiters ps x)) h c).
      { unfold upd_chan. f_equal. apply map_eq. intros k. destruct (decide (k = h)) as [->|Hn]; [|by rewrite !lookup_alter_ne].
        rewrite !lookup_alter_eq, Hx. simpl. f_equal. unfold set_q, set_send_waiters. simpl. by rewrite Eq. }
      unfold complete_sender. rewrite Hsame.
      destruct (finish_sender t settled c fr h x p ps [] w set_w_ok M I Hx Es) as (M' & I' & _); try done; [by rewrite Eq|by left| |].
      { intros Hs Hc. destruct (i_shut _ _ _ _ I h x Hx Hs Hc) as [_ Hn]. congruence. }
      eexists _, _. split_and!; [done|by split| |].
      * eapply (finished_contents c h x p ps [] v v); try done. by rewrite Eq.
      * intros h' Hh'. simpl. by rewrite lookup_alter_is_Some.
  - destruct (send_waiters x) as [|p ps] eqn:Es.
    + eexists _, _. split_and!; [done|split; [exact M|]| |].
      * apply (buffer_step _ _ _ _ _ x); try done.
        -- simpl in F4. lia.
        -- intros p Hp Hl. by pose proof (Hrecv p Hp Hl).
        -- intros _ Hn. by rewrite Eq in Hn.
      * simpl. rewrite (contents_at _ _ _ Hx), Eq, Es. unfold contents, buf, sendq. simpl. rewrite lookup_alter_eq, Hx. simpl. by rewrite Es.
      * intros h' Hh'. simpl. by rewrite lookup_alter_is_Some.
    + destruct (sender_value _ _ _ _ _ _ _ _ I Hx Es) as (w & v' & Hw & Hv & Hp). rewrite Hw. simpl. rewrite Hv. simpl.
      set (c1 := upd_chan _ h (upd_chan _ h c)).
      assert (Hsame : c1 = upd_chan (fun x => set_q (r ++ [v']) (set_send_waiters ps x)) h c).
      { unfold c1, upd_chan, with_chans. simpl. f_equal. apply map_eq. intros k. destruct (decide (k = h)) as [->|Hn]; [|by rewrite !lookup_alter_ne].
        by rewrite !lookup_alter_eq, Hx. }
      unfold complete_sender. rewrite Hsame.
      destruct (finish_sender t settled c fr h x p ps (r ++ [v']) w set_w_ok M I Hx Es) as (M' & I' & _); try done; [|by left| |].
      { rewrite Eq, length_app. simpl. lia. }
      { intros Hs Hc. destruct (i_shut _ _ _ _ I h x Hx Hs Hc) as [_ Hn]. congruence. }
      eexists _, _. split_and!; [done|by split| |].
      * eapply (finished_contents c h x p ps (r ++ [v']) v v'); try done. by rewrite Eq.
      * intros h' Hh'. simpl. by rewrite lookup_alter_is_Some.
Qed.

(** ** Parking in a channel *)

(** The records of one call join the queues of the channels it waits on. *)
Record joins_queues (t : tid) (f : frame) (c c' : state) (fr : gmap tid frame) (h : Z) (x : MadcChan (V := V)) (rs ss : list wid) : Prop := {
  j_at : g_chans c' !! h = Some (set_recv_waiters (recv_waiters x ++ rs) (set_send_waiters (send_waiters x ++ ss) x));
  j_recv : forall p, p ∈ rs -> p.1 = t /\ recv_entry c' (<[t := f]> fr) h p;
  j_send : forall p, p ∈ ss -> p.1 = t /\ send_entry c' (<[t := f]> fr) h p;
  j_nodup : NoDup rs /\ NoDup ss;
  j_rs : rs <> [] -> q x = [] /\ send_waiters x = [] /\ ss = [] /\ closed x = false;
  j_ss : ss <> [] -> Z.of_nat (length (q x)) = cap x /\ closed x = false /\ rs = [] /\ forall p, p ∈ recv_waiters x -> ~ live_waiter c p;
}.

Section Join.
Context (t : tid) (f : frame) (c c' : state) (fr : gmap tid frame).
Context (I : cinv c fr) (Ht : fr !! t = None).
Context (J1 : forall p, p.1 <> t -> waiters c' !! p = waiters c !! p).
Context (J2 : forall u, u <> t -> groups c' !! u = groups c !! u /\ outs c' !! u = outs c !! u).
Context (J3 : forall h x, g_chans c !! h = Some x -> exists rs ss, joins_queues t f c c' fr h x rs ss).
Context (J4 : forall h, is_Some (g_chans c' !! h) -> is_Some (g_chans c !! h)).
Context (J5 : g_next_chan c' = g_next_chan c) (J6 : c_rt c' = c_rt c).

Lemma join_old_recv h p : p ∈ recvq c h -> p.1 <> t /\ recv_entry c' (<[t := f]> fr) h p.
Proof using I Ht J1 J2.
  intros Hp. destruct (i_recv _ _ _ _ I h p Hp) as (w & Hw & ? & ? & ? & ? & ? & Hg).
  assert (Hn : p.1 <> t) by (intros E; rewrite E in Hg; rewrite Ht in Hg; destruct Hg as [(_ & _ & ?)|(_ & _ & hs & ? & _)]; done).
  split; [done|]. exists w. rewrite J1 by done. destruct (J2 _ Hn) as [-> _]. rewrite lookup_insert_ne by done. by split_and!.
Qed.
Lemma join_old_send h p : p ∈ sendq c h -> p.1 <> t /\ send_entry c' (<[t := f]> fr) h p.
Proof using I Ht J1.
  intros Hp. destruct (i_send _ _ _ _ I h p Hp) as (w & Hw & ? & ? & ? & ? & ? & ? & Hg).
  assert (Hn : p.1 <> t) by (intros E; rewrite E in Hg; rewrite Ht in Hg; done).
  split; [done|]. exists w. rewrite J1 by done. rewrite lookup_insert_ne by done. by split_and!.
Qed.

Lemma join_at h x' : g_chans c' !! h = Some x' -> exists x rs ss, g_chans c !! h = Some x /\ joins_queues t f c c' fr h x rs ss
  /\ x' = set_recv_waiters (recv_waiters x ++ rs) (set_send_waiters (send_waiters x ++ ss) x).
Proof using J3 J4.
  intros Hx'. destruct (J4 h) as [x Hx]; [by rewrite Hx'|]. destruct (J3 h x Hx) as (rs & ss & J). exists x, rs, ss. split_and!; try done.
  rewrite (j_at _ _ _ _ _ _ _ _ _ J) in Hx'. by injection Hx'.
Qed.

Lemma join_live h p : p ∈ recvq c h -> live_waiter c' p -> live_waiter c p.
Proof using f I Ht J1 J2.
  intros Hp (w & Hw & Hh). destruct (join_old_recv h p Hp) as [Hn _]. rewrite J1 in Hw by done. exists w. split; [done|].
  destruct (i_recv _ _ _ _ I h p Hp) as (w' & Hw' & _ & _ & _ & _ & _ & Hg). simplify_eq. unfold husk in *.
  destruct Hg as [(Eg & _)|(Eg & _)]; rewrite Eg in *; [done|]. simpl in *. by destruct (J2 _ Hn) as [<- _].
Qed.

Lemma join_inv : wctx False c' t f -> cinv_gen (fun u => u <> t /\ awake (c_rt c) u) settled c' (<[t := f]> fr).
Proof.
  intros Hctx. constructor.
  - intros h p. unfold recvq. destruct (g_chans c' !! h) as [x'|] eqn:Hx'; [|by intros ?%not_elem_of_nil].
    destruct (join_at h x' Hx') as (x & rs & ss & Hx & J & ->). simpl. intros [Hp|Hp]%elem_of_app.
    + apply join_old_recv. unfold recvq. by rewrite Hx.
    + by apply (j_recv _ _ _ _ _ _ _ _ _ J).
  - intros h p. unfold sendq. destruct (g_chans c' !! h) as [x'|] eqn:Hx'; [|by intros ?%not_elem_of_nil].
    destruct (join_at h x' Hx') as (x & rs & ss & Hx & J & ->). simpl. intros [Hp|Hp]%elem_of_app.
    + apply join_old_send. unfold sendq. by rewrite Hx.
    + by apply (j_send _ _ _ _ _ _ _ _ _ J).
  - intros h x' Hx'. destruct (join_at h x' Hx') as (x & rs & ss & Hx & J & ->).
    destruct (i_fine _ _ _ _ I h x Hx) as [F1 F2 F3 F4 F5 F6]. destruct J as [_ Jr Js [Jn1 Jn2] Jrs Jss].
    assert (Hold : forall p, p ∈ recv_waiters x -> p.1 <> t /\ p ∈ recvq c h).
    { intros p Hp. assert (Hq : p ∈ recvq c h) by (unfold recvq; by rewrite Hx). split; [by apply (join_old_recv h)|done]. }
    constructor; simpl; try done.
    + apply NoDup_app. split_and!; try done. intros p Hp Hp'. destruct (Hold p Hp). by destruct (Jr p Hp').
    + apply NoDup_app. split_and!; try done. intros p Hp Hp'. destruct (Js p Hp').
      destruct (join_old_send h p); [unfold sendq; by rewrite Hx|done].
    + intros Hne. destruct ss as [|s0 ss0]; [apply F5; by rewrite app_nil_r in Hne|]. by destruct Jss.
    + intros p [Hp|Hp]%elem_of_app Hl.
      * destruct (Hold p Hp) as [_ Hq]. pose proof (join_live h p Hq Hl) as Hl'. destruct (F6 p Hp Hl') as [-> ->].
        destruct ss as [|s0 ss0]; [done|]. destruct Jss as (_ & _ & _ & Hno); [done|]. by destruct (Hno p Hp).
      * destruct Jrs as (-> & -> & -> & _); [|done]. by intros ->; apply not_elem_of_nil in Hp.
  - intros h x' Hx' Hs. destruct (join_at h x' Hx') as (x & rs & ss & Hx & J & ->). simpl. intros Hc.
    destruct (i_shut _ _ _ _ I h x Hx Hs Hc) as [-> ->]. destruct J as [_ _ _ _ Jrs Jss].
    destruct rs; [|destruct Jrs as (_ & _ & _ & ?); [done|congruence]]. destruct ss; [done|]. destruct Jss as (_ & ? & _); [done|congruence].
  - intros h Hh. rewrite J5. by apply I, J4.
  - intros u g. destruct (decide (u = t)) as [->|Hn].
    + rewrite lookup_insert_eq. intros [= <-]. eapply wctx_unmoved; [|exact Hctx]. destruct f; [done|..]; constructor; intros; by auto || tauto.
    + rewrite lookup_insert_ne by done. intros Hg. eapply wctx_unmoved; [|by apply I].
      assert (Hk : forall h x, g_chans c !! h = Some x -> exists x', g_chans c' !! h = Some x' /\ q x' = q x /\ closed x' = closed x
                 /\ (forall p, p ∈ recv_waiters x -> p ∈ recv_waiters x') /\ (forall p, p ∈ send_waiters x -> p ∈ send_waiters x')).
      { intros h x Hx. destruct (J3 h x Hx) as (rs & ss & J). eexists. split; [apply J|]. split_and!; try done; intros p Hp; simpl; apply elem_of_app; by left. }
      assert (Hsh : forall h, shut c h -> shut c' h).
      { intros h (x & Hx & Hc). destruct (Hk h x Hx) as (x' & ? & ? & ? & _). exists x'. split; [done|congruence]. }
      destruct g; [done|..]; (constructor;
        [intros i; by apply J1|by apply J2|by apply J2|intros Ha; by split|intros [_ Ha]; by left|by rewrite J6
        |intros h' i|intros _ h' i|intros h' [x Hx]; destruct (Hk h' x Hx) as (x' & -> & _); by eexists|by apply Hsh|intros h' [Hs Hb]; split; [by apply Hsh|]]).
      all: try (unfold sendq, recvq; destruct (g_chans c !! h') as [x|] eqn:Hx; [|by intros ?%not_elem_of_nil];
                destruct (Hk h' x Hx) as (x' & -> & _ & _ & ? & ?); by auto).
      all: destruct Hs as (x & Hx & _); unfold buf in *; destruct (Hk h' x Hx) as (x' & -> & -> & _); by rewrite Hx in Hb.
Qed.
End Join.

Lemma park_chan t f w fr : rmid t None false w fr -> in_chan f -> pre_park t f w fr.
Proof.
  intros M Hi. exists w, None. split_and!; try done; try (by apply M).
  - by apply keeps_refl, M.
  - split; [intros Hin; by apply (r_sleep _ _ _ _ _ M) in Hin|]. intros ->. done.
  - intros s x Hs Hj Ho. by pose proof (r_own _ _ _ _ _ M s x Hs Hj Ho).
  - by destruct f.
  - by destruct f.
Qed.

Lemma me_mid t c fr : cmid t c fr -> me c = t.
Proof. intros [M _]. by eapply mid_self. Qed.
Lemma init_mid t c fr : cmid t c fr -> on_rt task_runtime_init c = c.
Proof. intros C. unfold on_rt. rewrite (mid_init _ _ _ _ _ (cm_rt _ _ _ C)). by destruct c. Qed.

(** What a half of this file must establish. *)
Definition parks_ok (t : tid) (fr : gmap tid frame) (f : frame) (c : state) : Prop :=
  pre_park t f (c_rt c) fr /\ cinv_gen (fun u => u <> t /\ awake (c_rt c) u) settled c (<[t := f]> fr).

Definition chalf_ok (t : tid) (fr : gmap tid frame) (h : half state frame (res (V := V))) : Prop :=
  match h with
  | Ret _ c | Throw _ c => cmid t c fr
  | Goes f c => rinv (c_rt c) (<[t := f]> fr) /\ g_current (c_rt c) = Some t /\ cinv c (<[t := f]> fr)
  | Parks f c => parks_ok t fr f c
  | Switches f n c => rinv (task_switch n (c_rt c)) (<[t := f]> fr) /\ me c = t /\ cinv (on_rt (task_switch n) c) (<[t := f]> fr)
  | JoinWaits f c => cmid t c fr /\ t = main_task /\ f = FRt FJoinBack
  | Exits c => exists w0 x, rmid t None false w0 fr /\ tasks w0 !! t = Some x /\ cur x = t_scope x
                 /\ t <> main_task /\ c_rt c = with_live (g_live w0 - 1) (scope_detach t w0) /\ cinv (with_rt w0 c) fr
  | Aborts => True
  | Faults => False
  end.

(** ** [chan_send] *)

(** Husks at the front of a queue are discarded. *)
Lemma drop_husks t c fr h x :
  cmid t c fr -> g_chans c !! h = Some x -> (forall p, p ∈ recv_waiters x -> ~ live_waiter c p) -> cmid t (upd_chan (set_recv_waiters []) h c) fr.
Proof.
  intros [M I] Hx Hno. split; [done|]. pose proof (upd_chan_at (set_recv_waiters []) h x c Hx) as Hch.
  assert (S : chan_step None c (upd_chan (set_recv_waiters []) h c) h x (set_recv_waiters [] x)).
  { destruct (i_fine _ _ _ _ I h x Hx). constructor; simpl; try done; eauto.
    - by intros p ?%not_elem_of_nil.
    - intros u i _ Hl Hp. by destruct (Hno _ Hp).
    - constructor; simpl; try done; [by constructor|]. by intros p ?%not_elem_of_nil. }
  apply (step_inv _ _ _ _ _ _ _ _ _ _ I S).
  - simpl. intros Hs Hc. split; [done|]. by apply (i_shut _ _ _ _ I h x Hx).
  - intros u f Hfu Hin. simpl. apply calm_refl.
Qed.

Lemma not_queued t c fr h x i : cinv c fr -> fr !! t = None -> g_chans c !! h = Some x -> ((t, i) ∉ recv_waiters x) /\ ((t, i) ∉ send_waiters x).
Proof.
  intros I Ht Hx. split; intros Hp.
  - destruct (i_recv _ _ _ _ I h (t, i)) as (w & _ & _ & _ & _ & _ & _ & Hg); [unfold recvq; by rewrite Hx|]. simpl in Hg. rewrite Ht in Hg.
    by destruct Hg as [(_ & _ & ?)|(_ & _ & hs & ? & _)].
  - destruct (i_send _ _ _ _ I h (t, i)) as (w & _ & _ & _ & _ & _ & _ & _ & Hg); [unfold sendq; by rewrite Hx|]. simpl in Hg. by rewrite Ht in Hg.
Qed.

(** The sender's record joins the queue. *)
Lemma send_parks t c fr h x v :
  cmid t c fr -> g_chans c !! h = Some x -> closed x = false -> Z.of_nat (length (q x)) = cap x ->
  (forall p, p ∈ recv_waiters x -> ~ live_waiter c p) ->
  let c' := upd_chan (fun x => set_send_waiters (send_waiters x ++ [(t, 0%nat)]) x) h
              (with_waiters (<[(t, 0%nat) := Waiter t None (Some v) false false None 0]> (waiters c)) c) in
  parks_ok t fr (FSend h) c' /\ contents c' h = contents c h ++ [v].
Proof.
  intros [M I] Hx Hc Hfull Hno c'. pose proof (r_here _ _ _ _ _ M) as Ht.
  assert (Hch : g_chans c' = <[h := set_send_waiters (send_waiters x ++ [(t, 0%nat)]) x]> (g_chans c))
    by exact (upd_chan_at (fun x => set_send_waiters (send_waiters x ++ [(t, 0%nat)]) x) h x (with_waiters _ c) Hx).
  assert (Hw : waiters c' !! (t, 0%nat) = Some (Waiter t None (Some v) false false None 0)) by (unfold c'; simpl; by rewrite lookup_insert_eq).
  split; [split; [by apply park_chan|]|].
  - apply join_inv with (c := c); try done.
    + intros p Hp. simpl. rewrite lookup_insert_ne; [done|]. by intros <-.
    + intros h' y Hy. destruct (decide (h' = h)) as [->|Hn].
      * rewrite Hx in Hy. injection Hy as <-. exists [], [(t, 0%nat)]. constructor; try done.
        -- rewrite Hch, lookup_insert_eq, app_nil_r. by destruct x.
        -- by intros p ?%not_elem_of_nil.
        -- intros p ->%list_elem_of_singleton. split; [done|]. eexists. split; [done|]. simpl. rewrite lookup_insert_eq. split_and!; eauto.
        -- split; [constructor|apply NoDup_singleton].
      * exists [], []. constructor; try done.
        -- rewrite Hch, lookup_insert_ne, !app_nil_r, Hy by done. by destruct y.
        -- by intros p ?%not_elem_of_nil.
        -- by intros p ?%not_elem_of_nil.
        -- split; constructor.
    + intros h'. rewrite Hch. destruct (decide (h' = h)) as [->|Hn]; [rewrite Hx; eauto|by rewrite lookup_insert_ne].
    + eexists. split; [done|]. rewrite Hch, lookup_insert_eq. split; [by eexists|]. left. split; [|done].
      unfold sendq. rewrite Hch, lookup_insert_eq. simpl. apply elem_of_app. right. by left.
  - rewrite (contents_at _ _ _ Hx). erewrite contents_at by (by rewrite Hch, lookup_insert_eq). simpl.
    rewrite omap_app, <- app_assoc. f_equal. f_equal.
    + apply omap_ext_in. intros p Hp. simpl. rewrite lookup_insert_ne; [done|]. intros <-. by destruct (not_queued t c fr h x 0 I Ht Hx).
    + csimpl. by rewrite lookup_insert_eq.
Qed.

(** What [chan_send] does, branch by branch. *)
Inductive sent (t : tid) (h : Z) (v : V) (c : state) (fr : gmap tid frame) : half state frame (res (V := V)) -> Prop :=
| sent_cancelled : task_cancelled (c_rt c) = true -> sent t h v c fr (Throw Cancelled c)
| sent_bad : task_cancelled (c_rt c) = false -> g_chans c !! h = None -> sent t h v c fr (Throw (bad_handle (B "chan_send")) c)
| sent_closed : task_cancelled (c_rt c) = false -> shut c h -> sent t h v c fr (Throw (Thrown (B "send on closed channel")) c)
| sent_handed x p hk l c' : task_cancelled (c_rt c) = false -> g_chans c !! h = Some x -> closed x = false ->
    recv_waiters x = hk ++ p :: l -> live_waiter c p -> (forall p', p' ∈ hk -> ~ live_waiter c p') ->
    cmid t c' fr -> contents c h = [] -> contents c' h = [] -> outs c' !! p.1 = Some v -> awake (c_rt c') p.1 ->
    sent t h v c fr (Ret (RBool true) c')
| sent_buffered x c' : task_cancelled (c_rt c) = false -> g_chans c !! h = Some x -> closed x = false ->
    (forall p, p ∈ recv_waiters x -> ~ live_waiter c p) -> Z.of_nat (length (q x)) < cap x ->
    cmid t c' fr -> contents c' h = contents c h ++ [v] -> sent t h v c fr (Ret (RBool true) c')
| sent_parked x c' : task_cancelled (c_rt c) = false -> g_chans c !! h = Some x -> closed x = false ->
    (forall p, p ∈ recv_waiters x -> ~ live_waiter c p) -> Z.of_nat (length (q x)) = cap x ->
    parks_ok t fr (FSend h) c' -> contents c' h = contents c h ++ [v] -> sent t h v c fr (Parks (FSend h) c').

Lemma pop_recv_spec t c fr h x :
  cmid t c fr -> g_chans c !! h = Some x ->
  exists o l, pop_recv_waiter h c = Some (o, upd_chan (set_recv_waiters l) h c) /\
    match o with
    | Some p => exists hk, recv_waiters x = hk ++ p :: l /\ live_waiter c p /\ forall p', p' ∈ hk -> ~ live_waiter c p'
    | None => l = [] /\ forall p, p ∈ recv_waiters x -> ~ live_waiter c p
    end.
Proof.
  intros [M I] Hx. unfold pop_recv_waiter. rewrite Hx. simpl.
  destruct (pop_waiters_spec c (recv_waiters x)) as (o & l & -> & Ho).
  - intros p Hp. eapply entry_husk, (i_recv _ _ _ _ I h). unfold recvq. by rewrite Hx.
  - by exists o, l.
Qed.

Lemma send_cases t h v c fr : cmid t c fr -> sent t h v c fr (chan_send h v c).
Proof.
  intros C. destruct C as [M I] eqn:EC. clear EC. unfold chan_send.
  destruct (task_cancelled (c_rt c)) eqn:Hcan; [by constructor|].
  destruct (g_chans c !! h) as [x|] eqn:Hx; [|by constructor].
  destruct (closed x) eqn:Hc; [constructor; [done|by exists x]|].
  destruct (pop_recv_spec t c fr h x C Hx) as (o & l & -> & Ho). simpl. destruct o as [p|].
  - destruct Ho as (hk & Hq & Hl & Hhk). pose proof Hl as (w & Hw & _). rewrite Hw. simpl.
    destruct (deliver t c fr h x p hk l w v C Hx Hq Hhk Hl Hw) as (b & c' & Hf & Hs & C' & Hch & Ho' & Haw).
    rewrite Hs. simpl. simpl in Hf. rewrite Hf. simpl.
    assert (Hp : p ∈ recv_waiters x) by (rewrite Hq; apply elem_of_app; right; by left).
    destruct (i_fine _ _ _ _ I h x Hx) as [_ _ _ _ _ F6]. destruct (F6 p Hp Hl) as [Eq Es].
    eapply sent_handed; try done.
    + by rewrite (contents_at _ _ _ Hx), Eq, Es.
    + erewrite contents_at by (by rewrite Hch, lookup_insert_eq). simpl. by rewrite Eq, Es.
    + by rewrite Ho', lookup_insert_eq.
  - destruct Ho as [-> Hno]. destruct (i_fine _ _ _ _ I h x Hx) as [_ _ _ F4 F5 _].
    pose proof (drop_husks t c fr h x C Hx Hno) as C1. set (c1 := upd_chan _ h c) in *.
    assert (Hx1 : g_chans c1 !! h = Some (set_recv_waiters [] x)) by (simpl; by rewrite lookup_alter_eq, Hx).
    assert (Hct : contents c1 h = contents c h) by (by rewrite (contents_at _ _ _ Hx), (contents_at _ _ _ Hx1)).
    destruct (Z.ltb_spec (Z.of_nat (length (q x))) (cap x)) as [Hlt|Hge].
    + assert (Es : send_waiters x = []) by (destruct (send_waiters x); [done|]; by specialize (F5 ltac:(done)); lia).
      eapply sent_buffered; try done.
      * split; [apply C1|]. change (fun x0 : MadcChan => set_q (q x0 ++ [v]) x0) with (fun x0 : MadcChan (V := V) => set_q (q x0 ++ [v]) x0).
        replace (upd_chan (fun x0 => set_q (q x0 ++ [v]) x0) h c1) with (upd_chan (set_q (q x ++ [v])) h c1).
        -- apply (buffer_step _ _ _ _ _ (set_recv_waiters [] x)); try done; [apply C1|simpl; rewrite length_app; simpl; lia| |].
           ++ by intros p ?%not_elem_of_nil.
           ++ simpl. congruence.
        -- unfold upd_chan. f_equal. apply map_eq. intros k. destruct (decide (k = h)) as [->|Hn]; [|by rewrite !lookup_alter_ne].
           by rewrite !lookup_alter_eq, Hx1.
      * rewrite <- Hct, (contents_at _ _ _ Hx1). erewrite contents_at by (simpl; rewrite !lookup_alter_eq, Hx; done). simpl.
        by rewrite Es, !app_nil_r.
    + rewrite (init_mid t c1 fr C1), (me_mid t c1 fr C1).
      destruct (send_parks t c1 fr h (set_recv_waiters [] x) v C1 Hx1 Hc) as [P Hct']; [simpl; lia|by intros p ?%not_elem_of_nil|].
      eapply sent_parked; try done; [lia|]. rewrite <- Hct. exact Hct'.
Qed.

Lemma send_ok t h v c fr : cmid t c fr -> chalf_ok t fr (chan_send h v c).
Proof. intros C. by destruct (send_cases t h v c fr C). Qed.

(** ** [chan_recv] *)

Lemma recv_parks t c fr h x :
  cmid t c fr -> g_chans c !! h = Some x -> closed x = false -> q x = [] -> send_waiters x = [] ->
  let c' := upd_chan (fun x => set_recv_waiters (recv_waiters x ++ [(t, 0%nat)]) x) h
              (with_waiters (<[(t, 0%nat) := Waiter t (Some t) None false false None 0]> (waiters c)) c) in
  parks_ok t fr (FRecv h) c' /\ contents c' h = [].
Proof.
  intros [M I] Hx Hc Eq Es c'. pose proof (r_here _ _ _ _ _ M) as Ht.
  assert (Hch : g_chans c' = <[h := set_recv_waiters (recv_waiters x ++ [(t, 0%nat)]) x]> (g_chans c))
    by exact (upd_chan_at (fun x => set_recv_waiters (recv_waiters x ++ [(t, 0%nat)]) x) h x (with_waiters _ c) Hx).
  assert (Hw : waiters c' !! (t, 0%nat) = Some (Waiter t (Some t) None false false None 0)) by (unfold c'; simpl; by rewrite lookup_insert_eq).
  split; [split; [by apply park_chan|]|].
  - apply join_inv with (c := c); try done.
    + intros p Hp. simpl. rewrite lookup_insert_ne; [done|]. by intros <-.
    + intros h' y Hy. destruct (decide (h' = h)) as [->|Hn].
      * rewrite Hx in Hy. injection Hy as <-. exists [(t, 0%nat)], []. constructor; try done.
        -- rewrite Hch, lookup_insert_eq, app_nil_r. by destruct x.
        -- intros p ->%list_elem_of_singleton. split; [done|]. eexists. split; [done|]. simpl. rewrite lookup_insert_eq. split_and!; eauto.
        -- by intros p ?%not_elem_of_nil.
        -- split; [apply NoDup_singleton|constructor].
      * exists [], []. constructor; try done.
        -- rewrite Hch, lookup_insert_ne, !app_nil_r, Hy by done. by destruct y.
        -- by intros p ?%not_elem_of_nil.
        -- by intros p ?%not_elem_of_nil.
        -- split; constructor.
    + intros h'. rewrite Hch. destruct (decide (h' = h)) as [->|Hn]; [rewrite Hx; eauto|by rewrite lookup_insert_ne].
    + eexists. split; [done|]. rewrite Hch, lookup_insert_eq. split; [by eexists|]. left. split; [|done].
      unfold recvq. rewrite Hch, lookup_insert_eq. simpl. apply elem_of_app. right. by left.
  - erewrite contents_at by (by rewrite Hch, lookup_insert_eq). simpl. by rewrite Eq, Es.
Qed.

Context (null : V).

Inductive received (t : tid) (h : Z) (c : state) (fr : gmap tid frame) : half state frame (res (V := V)) -> Prop :=
| received_cancelled : task_cancelled (c_rt c) = true -> received t h c fr (Throw Cancelled c)
| received_bad : task_cancelled (c_rt c) = false -> g_chans c !! h = None -> received t h c fr (Throw (bad_handle (B "chan_recv")) c)
| received_got v c' : task_cancelled (c_rt c) = false -> cmid t c' fr -> contents c h = v :: contents c' h ->
    received t h c fr (Ret (RRecv true (Some v)) c')
| received_drained : task_cancelled (c_rt c) = false -> cmid t c fr -> shut c h -> contents c h = [] ->
    received t h c fr (Ret (RRecv false (Some null)) c)
| received_parked c' : task_cancelled (c_rt c) = false -> is_Some (g_chans c !! h) -> ~ shut c h -> contents c h = [] ->
    parks_ok t fr (FRecv h) c' -> contents c' h = [] -> received t h c fr (Parks (FRecv h) c').

Lemma contents_nil A E c fr h x : cinv_gen A E c fr -> g_chans c !! h = Some x -> contents c h = [] -> q x = [] /\ send_waiters x = [].
Proof.
  intros I Hx. rewrite (contents_at _ _ _ Hx). intros [Eq Es]%app_nil. split; [done|].
  destruct (send_waiters x) as [|p ps] eqn:E0; [done|]. destruct (sender_value _ _ _ _ _ _ _ _ I Hx E0) as (w & v & Hw & Hv & _).
  revert Es. csimpl. rewrite Hw. simpl. by rewrite Hv.
Qed.

Lemma recv_cases t h c fr : cmid t c fr -> received t h c fr (chan_recv null h c).
Proof.
  intros C. unfold chan_recv. destruct (task_cancelled (c_rt c)) eqn:Hcan; [by constructor|].
  destruct (g_chans c !! h) as [x|] eqn:Hx; [|by constructor].
  destruct (poll_ok t c fr h x C Hx) as (r & c' & -> & C' & Hp & _). simpl. destruct r as [v| |]; simpl in Hp.
  - by constructor.
  - destruct Hp as (-> & Hct & Hns). rewrite (init_mid t c fr C), (me_mid t c fr C).
    destruct (contents_nil _ _ _ _ _ _ (cm_inv _ _ _ C) Hx Hct) as [Eq Es].
    assert (Hcl : closed x = false) by (destruct (closed x) eqn:Ec; [|done]; destruct Hns; by exists x).
    destruct (recv_parks t c fr h x C Hx Hcl Eq Es) as [P Hct']. by apply received_parked.
  - destruct Hp as (-> & Hct & Hs). by constructor.
Qed.

Lemma recv_ok t h c fr : cmid t c fr -> chalf_ok t fr (chan_recv null h c).
Proof. intros C. by destruct (recv_cases t h c fr C). Qed.

(** ** Coming back *)

Section Part.
Context (A A' : tid -> Prop) (t : tid) (c c' : state) (fr : gmap tid frame).
Context (I : cinv_gen A settled c fr).
Context (L1 : forall p, p.1 <> t -> waiters c' !! p = waiters c !! p).
Context (L2 : forall u, u <> t -> groups c' !! u = groups c !! u /\ outs c' !! u = outs c !! u).
Context (L3 : forall h x, g_chans c !! h = Some x -> exists rq sq, g_chans c' !! h = Some (set_recv_waiters rq (set_send_waiters sq x))
  /\ NoDup rq /\ NoDup sq /\ (forall p, p ∈ rq <-> p ∈ recv_waiters x /\ p.1 <> t) /\ (forall p, p ∈ sq <-> p ∈ send_waiters x /\ p.1 <> t)).
Context (L4 : forall h, is_Some (g_chans c' !! h) -> is_Some (g_chans c !! h)).
Context (L5 : g_next_chan c' = g_next_chan c) (L6 : c_rt c' = c_rt c) (L7 : forall u, u <> t -> A u <-> A' u).

Lemma part_at h x' : g_chans c' !! h = Some x' -> exists x rq sq, g_chans c !! h = Some x /\ x' = set_recv_waiters rq (set_send_waiters sq x)
  /\ NoDup rq /\ NoDup sq /\ (forall p, p ∈ rq <-> p ∈ recv_waiters x /\ p.1 <> t) /\ (forall p, p ∈ sq <-> p ∈ send_waiters x /\ p.1 <> t).
Proof using L3 L4.
  intros Hx'. destruct (L4 h) as [x Hx]; [by rewrite Hx'|]. destruct (L3 h x Hx) as (rq & sq & E & ?). exists x, rq, sq.
  rewrite E in Hx'. by injection Hx' as <-.
Qed.

Lemma part_recv h p : p ∈ recvq c' h <-> p ∈ recvq c h /\ p.1 <> t.
Proof using L3 L4.
  unfold recvq. destruct (g_chans c !! h) as [x|] eqn:Hx.
  - destruct (L3 h x Hx) as (rq & sq & -> & _ & _ & H1 & H2). apply H1.
  - destruct (g_chans c' !! h) as [x'|] eqn:Hx'; [|by split; [intros ?%not_elem_of_nil|intros [?%not_elem_of_nil _]]].
    destruct (part_at h x' Hx') as (? & ? & ? & ? & _). congruence.
Qed.
Lemma part_send h p : p ∈ sendq c' h <-> p ∈ sendq c h /\ p.1 <> t.
Proof using L3 L4.
  unfold sendq. destruct (g_chans c !! h) as [x|] eqn:Hx.
  - destruct (L3 h x Hx) as (rq & sq & -> & _ & _ & H1 & H2). apply H2.
  - destruct (g_chans c' !! h) as [x'|] eqn:Hx'; [|by split; [intros ?%not_elem_of_nil|intros [?%not_elem_of_nil _]]].
    destruct (part_at h x' Hx') as (? & ? & ? & ? & _). congruence.
Qed.

Lemma part_inv : cinv_gen A' settled c' (delete t fr).
Proof.
  assert (Hl : forall h p, p ∈ recvq c' h -> live_waiter c' p -> live_waiter c p).
  { intros h p [Hp Hn]%part_recv (w & Hw & Hh). rewrite L1 in Hw by done. exists w. split; [done|].
    destruct (i_recv _ _ _ _ I h p Hp) as (w' & Hw' & _ & _ & _ & _ & _ & Hg). simplify_eq. unfold husk in *.
    destruct Hg as [(Eg & _)|(Eg & _)]; rewrite Eg in *; [done|]. simpl in *. by destruct (L2 _ Hn) as [<- _]. }
  constructor.
  - intros h p [Hp Hn]%part_recv. destruct (i_recv _ _ _ _ I h p Hp) as (w & Hr). exists w.
    rewrite L1 by done. destruct (L2 _ Hn) as [-> _]. rewrite lookup_delete_ne; done.
  - intros h p [Hp Hn]%part_send. destruct (i_send _ _ _ _ I h p Hp) as (w & Hr). exists w. rewrite L1 by done. rewrite lookup_delete_ne; done.
  - intros h x' Hx'. destruct (part_at h x' Hx') as (x & rq & sq & Hx & -> & N1 & N2 & R1 & R2).
    destruct (i_fine _ _ _ _ I h x Hx) as [F1 F2 F3 F4 F5 F6]. constructor; simpl; try done.
    + intros Hne. apply F5. intros En. destruct sq as [|p sq]; [done|]. destruct (R2 p) as [R2' _]. destruct R2' as [Hin _]; [by left|].
      rewrite En in Hin. by apply not_elem_of_nil in Hin.
    + intros p Hp Hlp. destruct (F6 p) as [-> Es].
      * by apply R1.
      * apply (Hl h); [|done]. unfold recvq. by rewrite Hx'.
      * split; [done|]. destruct sq as [|p' sq]; [done|]. destruct (R2 p') as [R2' _]. destruct R2' as [Hin _]; [by left|].
        rewrite Es in Hin. by apply not_elem_of_nil in Hin.
  - intros h x' Hx' Hs Hc. destruct (part_at h x' Hx') as (x & rq & sq & Hx & -> & N1 & N2 & R1 & R2). simpl in *.
    destruct (i_shut _ _ _ _ I h x Hx Hs Hc) as [E1 E2]. rewrite E1 in R1. rewrite E2 in R2.
    split; [destruct rq as [|p rq]; [done|]; destruct (R1 p) as [R _]|destruct sq as [|p sq]; [done|]; destruct (R2 p) as [R _]];
      (destruct R as [Hin _]; [by left|]; by apply not_elem_of_nil in Hin).
  - intros h Hh. rewrite L5. by apply I, L4.
  - intros u g Hg. assert (Hn : u <> t) by (intros ->; by rewrite lookup_delete_eq in Hg). rewrite lookup_delete_ne in Hg by done.
    eapply wctx_unmoved; [|by apply I].
    assert (Hch : forall h x, g_chans c !! h = Some x -> exists x', g_chans c' !! h = Some x' /\ q x' = q x /\ closed x' = closed x).
    { intros h x Hx. destruct (L3 h x Hx) as (rq & sq & -> & _). by eexists. }
    assert (Hsh : forall h, shut c h -> shut c' h).
    { intros h (x & Hx & Hc). destruct (Hch h x Hx) as (x' & ? & _ & ?). exists x'. split; [done|congruence]. }
    destruct g; [done|..]; (constructor;
      [intros i; by apply L1|by apply L2|by apply L2|by apply L7|intros Ha; left; by apply L7|by rewrite L6
      |intros h' i Hi; by apply part_send|intros _ h' i Hi; by apply part_recv
      |intros h' [x Hx]; destruct (Hch h' x Hx) as (x' & -> & _); by eexists|by apply Hsh|intros h' [Hs Hb]; split; [by apply Hsh|]]).
    all: destruct Hs as (x & Hx & _); unfold buf in *; destruct (Hch h' x Hx) as (x' & -> & -> & _); by rewrite Hx in Hb.
Qed.
End Part.

(** The records of a context are those of the verb it stands in. *)
Lemma own_recv A E c fr h p f : cinv_gen A E c fr -> p ∈ recvq c h -> fr !! p.1 = Some f ->
  match f with FRecv h' => h' = h /\ p.2 = 0%nat | FSelect hs => hs !! p.2 = Some h | _ => False end.
Proof.
  intros I Hp Hf. destruct (i_recv _ _ _ _ I h p Hp) as (w & _ & _ & _ & _ & _ & _ & [(_ & ? & Hf')|(_ & _ & hs & Hf' & ?)]); rewrite Hf in Hf'; by injection Hf' as ->.
Qed.
Lemma own_send A E c fr h p f : cinv_gen A E c fr -> p ∈ sendq c h -> fr !! p.1 = Some f -> f = FSend h /\ p.2 = 0%nat.
Proof.
  intros I Hp Hf. destruct (i_send _ _ _ _ I h p Hp) as (w & _ & _ & ? & _ & _ & _ & _ & Hf'). rewrite Hf in Hf'. by injection Hf' as ->.
Qed.

Lemma chan_self (x : MadcChan (V := V)) : x = set_recv_waiters (recv_waiters x) (set_send_waiters (send_waiters x) x).
Proof. by destruct x. Qed.

Lemma unlink_notin (p : wid) l : p ∉ l -> unlink p l = l.
Proof.
  induction l as [|a l IH]; intros Hp; [done|]. simpl. rewrite decide_False by (intros ->; apply Hp; by left).
  f_equal. apply IH. intros Hin. apply Hp. by right.
Qed.

(** A context comes back from a plain receive or send: its record dies, and
    leaves the queue if it is still there. *)
Lemma part_plain t c c' fr f h :
  rmid t None false (c_rt c) (delete t fr) -> cinv c fr -> fr !! t = Some f -> f = FSend h \/ f = FRecv h ->
  c_rt c' = c_rt c -> g_next_chan c' = g_next_chan c -> waiters c' = delete (t, 0%nat) (waiters c) -> groups c' = groups c ->
  (forall u, u <> t -> outs c' !! u = outs c !! u) ->
  (forall h', is_Some (g_chans c' !! h') -> is_Some (g_chans c !! h')) ->
  (forall h' x, g_chans c !! h' = Some x ->
     g_chans c' !! h' = Some x /\ (h' = h -> ((t, 0%nat) ∉ recv_waiters x) /\ ((t, 0%nat) ∉ send_waiters x))
     \/ h' = h /\ g_chans c' !! h' = Some (set_recv_waiters (unlink (t, 0%nat) (recv_waiters x)) (set_send_waiters (unlink (t, 0%nat) (send_waiters x)) x))) ->
  cmid t c' (delete t fr).
Proof.
  intros M I Hf Hff Hrt Hnx Hw Hg Ho Hdom Hch. split; [by rewrite Hrt|]. unfold cinv. rewrite Hrt.
  assert (Hnr : forall h' p, p ∈ recvq c h' -> p.1 = t -> h' = h /\ p = (t, 0%nat)).
  { intros h' [u i] Hp Ht. simpl in Ht. subst u. pose proof (own_recv _ _ _ _ _ _ _ I Hp Hf) as Hr. destruct Hff as [-> | ->]; [done|].
    destruct Hr as [-> Hr]. simpl in Hr. by subst. }
  assert (Hns : forall h' p, p ∈ sendq c h' -> p.1 = t -> h' = h /\ p = (t, 0%nat)).
  { intros h' [u i] Hp Ht. simpl in Ht. subst u. destruct (own_send _ _ _ _ _ _ _ I Hp Hf) as [-> Hi]. simpl in Hi. subst.
    destruct Hff as [[= ->]|?]; done. }
  apply (part_inv (awake (c_rt c)) (awake (c_rt c)) t c c' fr I); try done.
  - intros p Hp. rewrite Hw, lookup_delete_ne; [done|]. by intros <-.
  - intros u Hu. rewrite Hg. by split; [|apply Ho].
  - intros h' x Hx. destruct (i_fine _ _ _ _ I h' x Hx) as [F1 F2 _ _ _ _].
    assert (Hr : forall p, p ∈ recv_waiters x -> p.1 = t -> h' = h /\ p = (t, 0%nat)) by (intros p Hp; apply Hnr; unfold recvq; by rewrite Hx).
    assert (Hs : forall p, p ∈ send_waiters x -> p.1 = t -> h' = h /\ p = (t, 0%nat)) by (intros p Hp; apply Hns; unfold sendq; by rewrite Hx).
    destruct (Hch h' x Hx) as [[E Hn]|[-> E]]; rewrite E.
    + exists (recv_waiters x), (send_waiters x). split_and!; try done.
      * by rewrite <- chan_self.
      * intros p. split; [|by intros [? _]]. intros Hp. split; [done|]. intros Ht. destruct (Hr p Hp Ht) as [-> ->]. by destruct Hn.
      * intros p. split; [|by intros [? _]]. intros Hp. split; [done|]. intros Ht. destruct (Hs p Hp Ht) as [-> ->]. by destruct Hn.
    + eexists _, _. split_and!; [done|eapply sublist_NoDup; [exact F1|apply unlink_sublist]|eapply sublist_NoDup; [exact F2|apply unlink_sublist]|..].
      * intros p. rewrite unlink_elem by done. split; intros [Hp Hne]; (split; [done|]); [|by intros ->].
        intros Ht. apply Hne. by apply Hr.
      * intros p. rewrite unlink_elem by done. split; intros [Hp Hne]; (split; [done|]); [|by intros ->].
        intros Ht. apply Hne. by apply Hs.
Qed.

(** A completed record is in no queue. *)
Lemma not_waiting A E c fr h p x w :
  cinv_gen A E c fr -> g_chans c !! h = Some x -> waiters c !! p = Some w -> w_ok w = true \/ woken_closed w = true ->
  (p ∉ recv_waiters x) /\ (p ∉ send_waiters x).
Proof.
  intros I Hx Hw Hd. split; intros Hp.
  - destruct (i_recv _ _ _ _ I h p) as (w' & ? & _ & _ & _ & ? & ? & _); [unfold recvq; by rewrite Hx|]. destruct Hd; congruence.
  - destruct (i_send _ _ _ _ I h p) as (w' & ? & _ & _ & _ & ? & ? & _); [unfold sendq; by rewrite Hx|]. destruct Hd; congruence.
Qed.

(** How [chan_send] comes back. *)
Definition send_back (t : tid) (h : Z) (c : state) (r : half state frame (res (V := V))) : Prop :=
  exists w, waiters c !! (t, 0%nat) = Some w /\
  match r with
  | Ret x _ => x = RBool true /\ w_ok w = true
  | Throw Cancelled c' => w_ok w = false /\ task_cancelled (c_rt c) = true /\ ((t, 0%nat) ∉ sendq c' h)
  | Throw e _ => w_ok w = false /\ task_cancelled (c_rt c) = false /\ e = Thrown (B "send on closed channel") /\ shut c h
  | _ => False
  end.

Lemma task_cancelled_mid t w j b fr : rmid t j b w fr -> task_cancelled w = cancelled_t w t.
Proof.
  intros M. unfold task_cancelled, cancelled_t, self. rewrite (r_current _ _ _ _ _ M). simpl.
  destruct (r_alloc _ _ _ _ _ M) as [x Hx]. rewrite Hx. done.
Qed.

Lemma send_resume_ok t h c fr :
  rmid t None false (c_rt c) (delete t fr) -> cinv c fr -> fr !! t = Some (FSend h) ->
  chalf_ok t (delete t fr) (send_resume h c) /\ send_back t h c (send_resume h c).
Proof.
  intros M I Hf. unfold send_resume. assert (Hme : me c = t) by (by eapply mid_self). rewrite Hme.
  destruct (i_ctx _ _ _ _ I t _ Hf) as (w & Hw & [x Hx] & Hc). rewrite Hw. simpl.
  assert (Haw : awake (c_rt c) t) by (left; apply M).
  rewrite (task_cancelled_mid _ _ _ _ _ M).
  assert (Hplain : w_ok w = true \/ woken_closed w = true -> cmid t (drop_waiter (t, 0%nat) c) (delete t fr)).
  { intros Hd. eapply (part_plain t c _ fr (FSend h) h); try done; [by left|]. intros h' y Hy. left. split; [done|]. intros ->.
    rewrite Hx in Hy. injection Hy as <-. by eapply not_waiting. }
  destruct (w_ok w) eqn:Hok; [split; [apply Hplain; by left|by exists w]|].
  destruct (cancelled_t (c_rt c) t) eqn:Hcan.
  - split.
    + simpl. eapply (part_plain t c _ fr (FSend h) h); try done; [by left|intros h'; simpl; by rewrite lookup_alter_is_Some|].
      intros h' y Hy. simpl. destruct (decide (h' = h)) as [->|Hn]; [|left; by rewrite lookup_alter_ne].
      right. split; [done|]. rewrite lookup_alter_eq, Hy. simpl. rewrite (unlink_notin _ (recv_waiters y)); [by destruct y|].
      intros Hp. by destruct (own_recv _ _ _ _ _ _ (FSend h) I ltac:(unfold recvq; rewrite Hy; exact Hp) Hf).
    + exists w. split; [done|]. split; [done|]. split; [by rewrite (task_cancelled_mid _ _ _ _ _ M)|]. unfold sendq. simpl. rewrite lookup_alter_eq, Hx. simpl.
      destruct (i_fine _ _ _ _ I h x Hx). unfold remove_waiter. rewrite unlink_elem by done. tauto.
  - destruct Hc as [[_ Hc]|[_ [?|(_ & Hwc & Hs)]]]; [by specialize (Hc Haw)|done|]. rewrite Hwc.
    split; [apply Hplain; by right|]. exists w. by rewrite (task_cancelled_mid _ _ _ _ _ M).
Qed.

(** How [chan_recv] comes back. *)
Definition recv_back (t : tid) (h : Z) (c : state) (r : half state frame (res (V := V))) : Prop :=
  exists w, waiters c !! (t, 0%nat) = Some w /\
  match r with
  | Ret x _ => (exists v, w_ok w = true /\ outs c !! t = Some v /\ x = RRecv true (Some v))
               \/ w_ok w = false /\ task_cancelled (c_rt c) = false /\ x = RRecv false (Some null) /\ drained c h
  | Throw e c' => w_ok w = false /\ e = Cancelled /\ task_cancelled (c_rt c) = true /\ ((t, 0%nat) ∉ recvq c' h)
  | _ => False
  end.

Lemma recv_resume_ok t h c fr :
  rmid t None false (c_rt c) (delete t fr) -> cinv c fr -> fr !! t = Some (FRecv h) ->
  chalf_ok t (delete t fr) (recv_resume null h c) /\ recv_back t h c (recv_resume null h c).
Proof.
  intros M I Hf. unfold recv_resume. assert (Hme : me c = t) by (by eapply mid_self). rewrite Hme.
  destruct (i_ctx _ _ _ _ I t _ Hf) as (w & Hw & [x Hx] & Hc). rewrite Hw. simpl.
  assert (Haw : awake (c_rt c) t) by (left; apply M).
  assert (Ho : forall u, u <> t -> delete t (outs c) !! u = outs c !! u) by (intros u Hu; by rewrite lookup_delete_ne).
  rewrite (task_cancelled_mid _ _ _ _ _ M).
  assert (Hplain : w_ok w = true \/ woken_closed w = true -> cmid t (drop_out t (drop_waiter (t, 0%nat) c)) (delete t fr)).
  { intros Hd. eapply (part_plain t c _ fr (FRecv h) h); try done; [by right|]. intros h' y Hy. left. split; [done|]. intros ->.
    rewrite Hx in Hy. injection Hy as <-. by eapply not_waiting. }
  destruct (w_ok w) eqn:Hok.
  - split; [apply Hplain; by left|]. exists w. split; [done|]. left. destruct Hc as [[Hq _]|[_ [[_ [v Hv]]|(? & _)]]]; [|by exists v; rewrite Hv|done].
    destruct (i_recv _ _ _ _ I h _ Hq) as (w' & ? & _ & _ & _ & ? & _). congruence.
  - destruct (cancelled_t (c_rt c) t) eqn:Hcan.
    + split.
      * simpl. eapply (part_plain t c _ fr (FRecv h) h); try done; [by right|intros h'; simpl; by rewrite lookup_alter_is_Some|].
        intros h' y Hy. simpl. destruct (decide (h' = h)) as [->|Hn]; [|left; by rewrite lookup_alter_ne].
        right. split; [done|]. rewrite lookup_alter_eq, Hy. simpl. rewrite (unlink_notin _ (send_waiters y)); [by destruct y|].
        intros Hp. by destruct (own_send _ _ _ _ _ _ (FRecv h) I ltac:(unfold sendq; rewrite Hy; exact Hp) Hf).
      * exists w. split; [done|]. split_and!; [done|done|by rewrite (task_cancelled_mid _ _ _ _ _ M)|]. unfold recvq. simpl. rewrite lookup_alter_eq, Hx. simpl.
        destruct (i_fine _ _ _ _ I h x Hx). unfold remove_waiter. rewrite unlink_elem by done. tauto.
    + destruct Hc as [[_ Hc]|[_ [[? _]|(_ & Hwc & Hs)]]]; [by specialize (Hc Haw)|done|]. rewrite Hwc.
      split; [apply Hplain; by right|]. exists w. split; [done|]. right. by rewrite (task_cancelled_mid _ _ _ _ _ M).
Qed.

(** ** [chan_close] *)

Lemma cinv_weaken A (E E' : Z -> Prop) c fr : (forall h, E h -> E' h) -> cinv_gen A E c fr -> cinv_gen A E' c fr.
Proof. intros HE I. constructor; try apply I. intros h x Hx Hn. apply (i_shut _ _ _ _ I h x Hx). auto. Qed.

Lemma upd_chan_twice f g k h (c : state) : (forall x, f (g x) = k x) -> upd_chan f h (upd_chan g h c) = upd_chan k h c.
Proof.
  intros Hfg. unfold upd_chan, with_chans. simpl. f_equal. apply map_eq. intros i. destruct (decide (i = h)) as [->|Hn].
  - rewrite !lookup_alter_eq. destruct (g_chans c !! h); simpl; by rewrite ?Hfg.
  - by rewrite !lookup_alter_ne.
Qed.
Lemma wake_upd_chan w f h (c : state) : wake_recv_waiter w (upd_chan f h c) = upd_chan f h <$> wake_recv_waiter w c.
Proof.
  unfold wake_recv_waiter. destruct (w_group w) as [g|]; [|done]. simpl. destruct (groups c !! g) as [y|]; [|done]. simpl. by destruct (woken y).
Qed.
Lemma husk_upd_chan w f h (c : state) : husk (upd_chan f h c) w = husk c w.
Proof. done. Qed.

Section Close.
Context (t : tid) (fr : gmap tid frame) (h : Z).
#[local] Abbreviation closing c := (rmid t None false (c_rt c) fr /\ cinv_gen (awake (c_rt c)) (eq h) c fr).

(** A receiver is told. *)
Lemma close_one c x p l w :
  closing c -> g_chans c !! h = Some x -> closed x = true -> recv_waiters x = p :: l -> live_waiter c p -> waiters c !! p = Some w ->
  exists c', wake_recv_waiter w (upd_waiter set_woken_closed p (upd_chan (set_recv_waiters l) h c)) = Some c'
    /\ closing c' /\ g_chans c' = <[h := set_recv_waiters l x]> (g_chans c) /\ g_scopes c' = g_scopes c /\ awake (c_rt c') p.1.
Proof.
  intros [M I] Hx Hcl Hq Hl Hw. assert (Hp : p ∈ recvq c h) by (unfold recvq; rewrite Hx, Hq; by left).
  destruct (i_recv _ _ _ _ I h p Hp) as (w' & Hw' & Ht & Hs & Hi & Hok & Hwc & Hg). rewrite Hw in Hw'. injection Hw' as <-.
  pose proof (upd_chan_at (set_recv_waiters l) h x c Hx) as Hch.
  destruct (i_fine _ _ _ _ I h x Hx) as [_ _ _ _ _ F6]. destruct (F6 p ltac:(rewrite Hq; by left) Hl) as [Eq Es].
  set (c2 := upd_waiter _ _ _). assert (Hw2 : waiters c2 !! p = Some (set_woken_closed w)) by (simpl; by rewrite lookup_alter_eq, Hw).
  assert (Hstep : forall c4 (g' : SelectGroup), waiters c4 = waiters c2 -> outs c4 = outs c -> g_chans c4 = g_chans c2 -> g_next_chan c4 = g_next_chan c ->
     (groups c4 = groups c \/ groups c4 = <[p.1 := g']> (groups c) /\ forall g, groups c !! p.1 = Some g -> fired_index g' = fired_index g) ->
     chan_step (Some p) c c4 h x (set_recv_waiters l x)).
  { intros c4 g' E1 E2 E3 E4 E5. eapply (recv_step _ _ _ _ _ _ _ _ []); try done.
    - by intros p' ?%not_elem_of_nil.
    - by rewrite E3.
    - intros p' Hn. rewrite E1. simpl. by rewrite lookup_alter_ne.
    - intros u Hu. rewrite E2. split; [|done]. destruct E5 as [->|[-> _]]; [done|]. by rewrite lookup_insert_ne.
    - intros g0 Hg0. destruct E5 as [->|[-> E5]]; [eauto|]. rewrite lookup_insert_eq. eexists. split; [done|]. by rewrite (E5 _ Hg0). }
  assert (Hfine : ~ h = h -> closed (set_recv_waiters l x) = true -> recv_waiters (set_recv_waiters l x) = [] /\ send_waiters (set_recv_waiters l x) = []) by done.
  unfold wake_recv_waiter. rewrite Ht. destruct Hg as [(Eg & Hp2 & Hf)|(Eg & [g Hgg] & hs & Hf & Hhs)]; rewrite Eg.
  - destruct (unpark_mid t (c_rt c) fr p.1 _ M Hf Logic.I) as (M' & E' & Haw).
    exists (unpark p.1 c2). split_and!; try done.
    apply (step_inv _ _ _ _ _ _ _ _ _ _ I (Hstep (unpark p.1 c2) (Group 0 true) eq_refl eq_refl eq_refl eq_refl (or_introl eq_refl))); [done|].
    intros u f Hfu Hin. simpl. case_decide as Hd.
    + injection Hd as <-. rewrite Hf in Hfu. injection Hfu as <-. destruct p as [u i]. simpl in *. subst i.
      exists (set_woken_closed w). split_and!; [done|rewrite Hch, lookup_insert_eq; eauto|]. right. split; [done|]. right. split_and!; try done.
      unfold drained, shut, buf. simpl. rewrite Hch, lookup_insert_eq. split; [by eexists|done].
    + eapply calm_others; try done. congruence.
  - pose proof (live_not_fired _ _ _ _ Hw Hl Eg Hgg) as Hlt.
    change (groups c2 !! p.1) with (groups c !! p.1). rewrite Hgg. simpl.
    pose proof (i_ctx _ _ _ _ I _ _ Hf) as (g' & Hg' & Hne & Hchan & Hfi & Hwk & Hnw). rewrite Hgg in Hg'. injection Hg' as <-.
    assert (Hctx : forall c4 (a : Prop), groups c4 !! p.1 = Some (Group (fired_index g) true) -> g_chans c4 = g_chans c2 -> a -> wctx a c4 p.1 (FSelect hs)).
    { intros c4 a E2 E4 Ha. exists (Group (fired_index g) true). rewrite E2, E4. simpl. split_and!; try done.
      - intros h' Hh'. rewrite lookup_alter_is_Some. by apply Hchan.
      - lia.
      - intros _. split; [done|]. right. exists h. split; [by eapply list_elem_of_lookup_2|]. unfold shut. rewrite E4. change (g_chans c2) with (g_chans (upd_chan (set_recv_waiters l) h c)).
        rewrite Hch, lookup_insert_eq. by eexists. }
    destruct (woken g) eqn:Ewk.
    + exists c2. split_and!; try done; [|by apply Hwk].
      apply (step_inv _ _ _ _ _ _ _ _ _ _ I (Hstep c2 g eq_refl eq_refl eq_refl eq_refl (or_introl eq_refl))); [done|].
      intros u f Hfu Hin. simpl. case_decide as Hd; [|apply calm_refl]. injection Hd as <-. rewrite Hf in Hfu. injection Hfu as <-.
      apply Hctx; try done; [|by apply Hwk]. simpl. rewrite Hgg. destruct g. by simpl in *; subst.
    + destruct (unpark_mid t (c_rt c) fr p.1 _ M Hf Logic.I) as (M' & E' & Haw). set (c3 := unpark _ _).
      exists c3. split_and!; try done.
      assert (S : chan_step (Some p) c c3 h x (set_recv_waiters l x)).
      { apply (Hstep c3 (Group (fired_index g) true)); try done. right. split; [done|]. intros g0 Hg0. by simplify_eq. }
      apply (step_inv _ _ _ _ _ _ _ _ _ _ I S); [done|].
      intros u f Hfu Hin. simpl. case_decide as Hd.
      * injection Hd as <-. rewrite Hf in Hfu. injection Hfu as <-. apply Hctx; try done. simpl. by rewrite lookup_insert_eq.
      * eapply calm_others; try done. congruence.
Qed.

(** A husk in front is discarded. *)
Lemma close_husk c x p l :
  closing c -> g_chans c !! h = Some x -> recv_waiters x = p :: l -> ~ live_waiter c p -> closing (upd_chan (set_recv_waiters l) h c).
Proof.
  intros [M I] Hx Hq Hno. split; [done|]. pose proof (upd_chan_at (set_recv_waiters l) h x c Hx) as Hch.
  assert (S : chan_step None c (upd_chan (set_recv_waiters l) h c) h x (set_recv_waiters l x)).
  { destruct (i_fine _ _ _ _ I h x Hx) as [F1 F2 F3 F4 F5 F6]. rewrite Hq in F1, F6. constructor; simpl; try done; eauto.
    - intros p' Hp'. rewrite Hq. split; [by right|done].
    - intros u i _ Hl. rewrite Hq. intros [Hp|?]%elem_of_cons; [by rewrite Hp in Hl|done].
    - constructor; simpl; try done; [by apply NoDup_cons in F1 as [_ ?]|]. intros p' Hp'. apply F6. by right. }
  apply (step_inv _ _ _ _ _ _ _ _ _ _ I S); [done|]. intros u f Hfu Hin. simpl. apply calm_refl.
Qed.

Lemma close_recvs_ok l c x :
  closing c -> g_chans c !! h = Some x -> closed x = true -> recv_waiters x = l ->
  exists c', close_recvs l (upd_chan (set_recv_waiters []) h c) = Some c' /\ closing c'
    /\ g_chans c' = <[h := set_recv_waiters [] x]> (g_chans c).
Proof.
  revert c x. induction l as [|p l IH]; intros c x Hc Hx Hcl Hq.
  - exists (upd_chan (set_recv_waiters []) h c). split_and!; [done| | |by apply upd_chan_at].
    + apply Hc.
    + replace (upd_chan (set_recv_waiters []) h c) with c; [apply Hc|]. unfold upd_chan, with_chans.
      replace (alter (set_recv_waiters []) h (g_chans c)) with (g_chans c); [by destruct c|].
      apply map_eq. intros i. destruct (decide (i = h)) as [->|Hn]; [|by rewrite lookup_alter_ne].
      rewrite lookup_alter_eq, Hx. simpl. f_equal. destruct x. by simpl in *; subst.
  - assert (Hp : p ∈ recvq c h) by (unfold recvq; rewrite Hx, Hq; by left).
    destruct Hc as [M I]. destruct (entry_husk _ _ _ _ (i_recv _ _ _ _ I h p Hp)) as (w & b & Hw & Hh).
    set (c1 := upd_chan (set_recv_waiters l) h c).
    assert (E1 : upd_chan (set_recv_waiters []) h c = upd_chan (set_recv_waiters []) h c1).
    { symmetry. by apply upd_chan_twice. }
    rewrite E1. simpl. rewrite Hw. simpl. change (husk _ w) with (husk c w). rewrite Hh. simpl. destruct b.
    + destruct (IH c1 (set_recv_waiters l x)) as (c' & Hc' & Hcc & Hch); try done.
      * eapply close_husk; [done|exact Hx|exact Hq|]. intros (w' & Hw' & Hh'). simplify_eq.
      * simpl. by rewrite lookup_alter_eq, Hx.
      * exists c'. split_and!; try apply Hcc; [done|]. rewrite Hch. unfold c1. rewrite (upd_chan_at _ _ _ _ Hx). by rewrite insert_insert_eq.
    + destruct (close_one c x p l w (conj M I) Hx Hcl Hq ltac:(by exists w) Hw) as (c2 & Hwk & Hc2 & Hch2 & _ & _).
      destruct (IH c2 (set_recv_waiters l x)) as (c' & Hc' & Hcc & Hch); try done; [by rewrite Hch2, lookup_insert_eq|].
      exists c'. change (upd_waiter set_woken_closed p (upd_chan (set_recv_waiters []) h c1))
        with (upd_chan (set_recv_waiters []) h (upd_waiter set_woken_closed p c1)).
      rewrite wake_upd_chan. fold c1 in Hwk. rewrite Hwk. simpl. split_and!; try apply Hcc; [done|]. by rewrite Hch, Hch2, insert_insert_eq.
Qed.

Lemma close_sends_ok l c x :
  closing c -> g_chans c !! h = Some x -> closed x = true -> send_waiters x = l ->
  exists c', close_sends l (upd_chan (set_send_waiters []) h c) = Some c' /\ closing c'
    /\ g_chans c' = <[h := set_send_waiters [] x]> (g_chans c).
Proof.
  revert c x. induction l as [|p l IH]; intros c x Hc Hx Hcl Hq.
  - exists (upd_chan (set_send_waiters []) h c). split_and!; [done| | |by apply upd_chan_at].
    + apply Hc.
    + replace (upd_chan (set_send_waiters []) h c) with c; [apply Hc|]. unfold upd_chan, with_chans.
      replace (alter (set_send_waiters []) h (g_chans c)) with (g_chans c); [by destruct c|].
      apply map_eq. intros i. destruct (decide (i = h)) as [->|Hn]; [|by rewrite lookup_alter_ne].
      rewrite lookup_alter_eq, Hx. simpl. f_equal. destruct x. by simpl in *; subst.
  - destruct Hc as [M I]. destruct (sender_value _ _ _ _ _ _ _ _ I Hx Hq) as (w & v & Hw & Hv & _). simpl. rewrite Hw. simpl.
    destruct (finish_sender t (eq h) c fr h x p l (q x) w set_woken_closed M I Hx Hq eq_refl Hw) as (M' & I' & _).
    { right. split_and!; try done. destruct (i_send _ _ _ _ I h p) as (w' & ? & _ & _ & _ & Hok & _); [unfold sendq; rewrite Hx, Hq; by left|]. simpl. congruence. }
    { done. }
    set (c2 := unpark _ _) in *. destruct (IH c2 (set_q (q x) (set_send_waiters l x))) as (c' & Hc' & Hcc & Hch); try done.
    { unfold c2. simpl. by rewrite lookup_alter_eq, Hx. }
    exists c'. split_and!; try apply Hcc.
    + rewrite <- Hc'. f_equal. unfold c2.
      change (upd_chan (set_send_waiters []) h (unpark (w_task w) (upd_waiter set_woken_closed p (upd_chan (fun x0 => set_q (q x) (set_send_waiters l x0)) h c))))
        with (unpark (w_task w) (upd_waiter set_woken_closed p (upd_chan (set_send_waiters []) h (upd_chan (fun x0 => set_q (q x) (set_send_waiters l x0)) h c)))).
      f_equal. f_equal. unfold upd_chan, with_chans. simpl. f_equal. apply map_eq. intros i. destruct (decide (i = h)) as [->|Hn]; [|by rewrite !lookup_alter_ne].
      rewrite !lookup_alter_eq, Hx. by destruct x.
    + rewrite Hch. apply map_eq. intros i. destruct (decide (i = h)) as [->|Hn]; [by rewrite !lookup_insert_eq|].
      rewrite !lookup_insert_ne by done. unfold c2. simpl. by rewrite lookup_alter_ne.
Qed.
End Close.

(** What [chan_close] does, branch by branch. *)
Inductive shuts (t : tid) (h : Z) (c : state) (fr : gmap tid frame) : half state frame (res (V := V)) -> Prop :=
| shuts_bad : g_chans c !! h = None -> shuts t h c fr (Throw (bad_handle (B "chan_close")) c)
| shuts_again : shut c h -> shuts t h c fr (Throw (Thrown (B "close of closed channel")) c)
| shuts_now x c' : g_chans c !! h = Some x -> closed x = false -> cmid t c' fr ->
    g_chans c' = <[h := Chan (q x) (cap x) true [] []]> (g_chans c) -> shuts t h c fr (Ret RUnit c').

Lemma close_cases t h c fr : cmid t c fr -> shuts t h c fr (chan_close h c).
Proof.
  intros C. destruct C as [M I] eqn:EC. clear EC. unfold chan_close. destruct (g_chans c !! h) as [x|] eqn:Hx; [|by constructor].
  destruct (closed x) eqn:Hcl; [constructor; by exists x|].
  set (c1 := upd_chan (set_closed true) h c).
  assert (Hx1 : g_chans c1 !! h = Some (set_closed true x)) by (simpl; by rewrite lookup_alter_eq, Hx).
  assert (Hc1 : rmid t None false (c_rt c1) fr /\ cinv_gen (awake (c_rt c1)) (eq h) c1 fr).
  { split; [done|]. pose proof (upd_chan_at (set_closed true) h x c Hx) as Hch.
    assert (S : chan_step None c c1 h x (set_closed true x)).
    { destruct (i_fine _ _ _ _ I h x Hx). constructor; simpl; try done; eauto. }
    eapply (step_inv _ _ _ _ _ _ _ _ _ _ _ S); [done|]. intros u f Hfu Hin. simpl. apply calm_refl. Unshelve.
    eapply cinv_weaken; [|exact I]. by intros ? []. }
  destruct (close_recvs_ok t fr h (recv_waiters x) c1 _ Hc1 Hx1 eq_refl eq_refl) as (c2 & -> & Hc2 & Hch2). simpl.
  assert (Hx2 : g_chans c2 !! h = Some (set_recv_waiters [] (set_closed true x))) by (by rewrite Hch2, lookup_insert_eq).
  destruct (close_sends_ok t fr h (send_waiters x) c2 _ Hc2 Hx2 eq_refl eq_refl) as (c3 & -> & [M3 I3] & Hch3). simpl.
  assert (Hch : g_chans c3 = <[h := Chan (q x) (cap x) true [] []]> (g_chans c)).
  { rewrite Hch3, Hch2. unfold c1. rewrite (upd_chan_at _ _ _ _ Hx), !insert_insert_eq. done. }
  eapply shuts_now; try done. split; [done|]. constructor; try apply I3. intros h' y Hy _. destruct (decide (h' = h)) as [->|Hn].
  - rewrite Hch, lookup_insert_eq in Hy. by injection Hy as <-.
  - apply (i_shut _ _ _ _ I3 h' y Hy). by intros ->.
Qed.

Lemma close_ok t h c fr : cmid t c fr -> chalf_ok t fr (chan_close h c).
Proof. intros C. by destruct (close_cases t h c fr C). Qed.

(** ** [chan_make], [chan_len], [chan_try_recv] *)

Lemma make_ok t n c fr : cmid t c fr -> chalf_ok t fr (chan_make n c).
Proof.
  intros [M I]. unfold chan_make. destruct (Z.ltb_spec n 0); [by split|]. split; [done|].
  assert (Hnew : g_chans c !! g_next_chan c = None).
  { destruct (g_chans c !! g_next_chan c) eqn:E; [|done]. pose proof (i_next _ _ _ _ I (g_next_chan c)) as Hl. rewrite E in Hl.
    specialize (Hl ltac:(by eexists)). lia. }
  set (c' := with_chans _ _).
  assert (Hold : forall h, g_chans c' !! h = g_chans c !! h \/ h = g_next_chan c /\ g_chans c' !! h = Some (Chan [] n false [] [])).
  { intros h. simpl. destruct (decide (h = g_next_chan c)) as [->|Hn]; [right; by rewrite lookup_insert_eq|left; by rewrite lookup_insert_ne]. }
  assert (Hk : forall h x, g_chans c !! h = Some x -> g_chans c' !! h = Some x).
  { intros h x Hx. destruct (Hold h) as [->|[-> _]]; [done|congruence]. }
  constructor.
  - intros h p. unfold recvq. destruct (Hold h) as [->|[_ ->]]; [apply (i_recv _ _ _ _ I h)|by intros ?%not_elem_of_nil].
  - intros h p. unfold sendq. destruct (Hold h) as [->|[_ ->]]; [apply (i_send _ _ _ _ I h)|by intros ?%not_elem_of_nil].
  - intros h x. destruct (Hold h) as [->|[_ ->]].
    + intros Hx. destruct (i_fine _ _ _ _ I h x Hx). by constructor.
    + intros [= <-]. constructor; simpl; try done; try constructor.
  - intros h x. destruct (Hold h) as [->|[_ ->]]; [apply I|]. by intros [= <-].
  - intros h [x Hx]. simpl in Hx |- *. destruct (Hold h) as [E|[-> _]]; [|lia]. simpl in E. rewrite E in Hx.
    pose proof (i_next _ _ _ _ I h ltac:(by eexists)). lia.
  - intros u f Hf. eapply wctx_unmoved; [|by apply I].
    assert (Hsh : forall h, shut c h -> shut c' h) by (intros h (x & Hx & Hc); exists x; by split; [apply Hk|]).
    destruct f; [done|..]; (constructor; try done;
      [by left|intros h' i|intros _ h' i|intros h' [x Hx]; exists x; by apply Hk|intros h' [Hs Hb]; split; [by apply Hsh|]]).
    all: try (unfold sendq, recvq; destruct (g_chans c !! h') as [x|] eqn:Hx; [|by intros ?%not_elem_of_nil]; by rewrite (Hk h' x Hx)).
    all: destruct Hs as (x & Hx & _); unfold buf in *; rewrite (Hk h' x Hx); by rewrite Hx in Hb.
Qed.

Lemma len_ok t h c fr : cmid t c fr -> chalf_ok t fr (chan_len h c).
Proof. intros C. unfold chan_len. by destruct (g_chans c !! h). Qed.

Inductive tried (t : tid) (h : Z) (c : state) (fr : gmap tid frame) : half state frame (res (V := V)) -> Prop :=
| tried_bad : g_chans c !! h = None -> tried t h c fr (Throw (bad_handle (B "chan_try_recv")) c)
| tried_got v c' : cmid t c' fr -> contents c h = v :: contents c' h -> tried t h c fr (Ret (ROut 1 (Some v)) c')
| tried_empty : is_Some (g_chans c !! h) -> contents c h = [] -> ~ shut c h -> tried t h c fr (Ret (ROut 0 None) c)
| tried_drained : contents c h = [] -> shut c h -> tried t h c fr (Ret (ROut (-1) (Some null)) c).

Lemma try_cases t h c fr : cmid t c fr -> tried t h c fr (chan_try_recv null h c).
Proof.
  intros C. unfold chan_try_recv. destruct (g_chans c !! h) as [x|] eqn:Hx; [|by constructor].
  destruct (poll_ok t c fr h x C Hx) as (r & c' & -> & C' & Hp & _). simpl.
  destruct r as [v| |]; simpl in Hp; [by constructor| |]; destruct Hp as (-> & ? & ?); constructor; done.
Qed.
Lemma try_ok t h c fr : cmid t c fr -> chalf_ok t fr (chan_try_recv null h c).
Proof. intros C. by destruct (try_cases t h c fr C). Qed.

(** ** [chan_select] *)

(** A context may go on at once at the head of the loop. *)
Lemma goes_loop t c fr hs :
  cmid t c fr -> hs <> [] -> (forall h, h ∈ hs -> is_Some (g_chans c !! h)) -> chalf_ok t fr (Goes (FSelectLoop hs) c).
Proof.
  intros [M I] Hne Hch. split; [|split; [apply M|]].
  - eapply rmid_goes; [exact M|by intros f'|by left].
  - pose proof (r_here _ _ _ _ _ M) as Ht. constructor; try apply I.
    + intros h p Hp. destruct (i_recv _ _ _ _ I h p Hp) as (w & Hw & ? & ? & ? & ? & ? & Hg). exists w. split_and!; try done.
      assert (Hn : p.1 <> t) by (intros E; rewrite E, Ht in Hg; destruct Hg as [(_ & _ & ?)|(_ & _ & ? & ? & _)]; done).
      by rewrite lookup_insert_ne.
    + intros h p Hp. destruct (i_send _ _ _ _ I h p Hp) as (w & Hw & ? & ? & ? & ? & ? & ? & Hg). exists w. split_and!; try done.
      rewrite lookup_insert_ne; [done|]. intros E. rewrite <- E, Ht in Hg. done.
    + intros u f. destruct (decide (u = t)) as [->|Hn]; [|rewrite lookup_insert_ne by done; apply I].
      rewrite lookup_insert_eq. intros [= <-]. split_and!; try done. left. apply M.
Qed.

Lemma select_ok t hs c fr : cmid t c fr -> chalf_ok t fr (chan_select hs c).
Proof.
  intros C. unfold chan_select. destruct hs as [[|h hs]|]; [done| |done].
  destruct (forallb _ (h :: hs)) eqn:E; [|done]. apply goes_loop; try done.
  intros h' Hh'. rewrite forallb_forall in E. specialize (E h' ltac:(by apply list_elem_of_In)). destruct (g_chans c !! h'); [by eexists|done].
Qed.

(** The scan takes from the first case that has something. *)
Lemma scan_ok t fr hs c i b :
  cmid t c fr -> (forall h, h ∈ hs -> is_Some (g_chans c !! h)) ->
  exists r c', select_scan i hs b c = Some (r, c') /\ cmid t c' fr /\
    match r with
    | inl (k, v) => exists j h, k = i + Z.of_nat j /\ hs !! j = Some h /\ contents c h = v :: contents c' h
        /\ forall j' h', (j' < j)%nat -> hs !! j' = Some h' -> contents c h' = []
    | inr o => c' = c /\ (forall h, h ∈ hs -> contents c h = []) /\ (o = true <-> b = true \/ exists h, h ∈ hs /\ ~ shut c h)
    end.
Proof.
  revert c i b. induction hs as [|h hs IH]; intros c i b C Hch.
  - exists (inr b), c. split_and!; try done; [by intros h ?%not_elem_of_nil|]. split; [by left|].
    intros [?|(h & ?%not_elem_of_nil & _)]; done.
  - destruct (Hch h) as [x Hx]; [by left|]. destruct (poll_ok t c fr h x C Hx) as (r & c' & Hp & C' & Hpo & Hch').
    simpl. rewrite Hp. simpl. destruct r as [v| |]; simpl in Hpo.
    + exists (inl (i, v)), c'. split_and!; try done. exists 0%nat, h. split_and!; [lia|done|done|lia].
    + destruct Hpo as (-> & Hct & Hns). destruct (IH c (i + 1) true C) as (r & c' & -> & C'' & Hr); [intros h' Hh'; apply Hch; by right|].
      exists r, c'. split_and!; try done. destruct r as [[k v]|o].
      * destruct Hr as (j & h' & -> & Hj & Hv & Hlt). exists (S j), h'. split_and!; [lia|done|done|].
        intros [|j'] h2 Hj' Hh2; [simpl in Hh2; congruence|]. apply (Hlt j'); [lia|done].
      * destruct Hr as (-> & Hall & Ho). split_and!; [done|intros h' [->|?]%elem_of_cons; auto|].
        rewrite Ho. split; [intros _; right; exists h; split; [by left|done]|by intros _; left].
    + destruct Hpo as (-> & Hct & Hsh). destruct (IH c (i + 1) b C) as (r & c' & -> & C'' & Hr); [intros h' Hh'; apply Hch; by right|].
      exists r, c'. split_and!; try done. destruct r as [[k v]|o].
      * destruct Hr as (j & h' & -> & Hj & Hv & Hlt). exists (S j), h'. split_and!; [lia|done|done|].
        intros [|j'] h2 Hj' Hh2; [simpl in Hh2; congruence|]. apply (Hlt j'); [lia|done].
      * destruct Hr as (-> & Hall & Ho). split_and!; [done|intros h' [->|?]%elem_of_cons; auto|].
        rewrite Ho. split; intros [?|(h' & Hh' & Hn)]; [by left|right; exists h'; split; [by right|done]|by left|].
        apply elem_of_cons in Hh' as [->|Hh']; [done|right; by exists h'].
Qed.

(** The records a select registers with the channel [h]. *)
Fixpoint regs (t : tid) (i : nat) (hs : list Z) (h : Z) : list wid :=
  match hs with
  | [] => []
  | h' :: r => (if decide (h' = h) then [(t, i)] else []) ++ regs t (S i) r h
  end.

Lemma regs_elem t hs h : forall i p, p ∈ regs t i hs h <-> exists j, p = (t, (i + j)%nat) /\ hs !! j = Some h.
Proof.
  induction hs as [|h' r IH]; intros i p; simpl.
  - split; [by intros ?%not_elem_of_nil|]. by intros (j & _ & ?).
  - rewrite elem_of_app, IH. split.
    + intros [Hp|(j & -> & Hj)]; [|exists (S j); split; [f_equal; lia|done]].
      case_decide; [|by apply not_elem_of_nil in Hp]. apply list_elem_of_singleton in Hp as ->. exists 0%nat. subst. split; [f_equal; lia|done].
    + intros ([|j] & -> & Hj); simpl in Hj.
      * injection Hj as ->. left. rewrite decide_True by done. apply list_elem_of_singleton. f_equal. lia.
      * right. exists j. split; [f_equal; lia|done].
Qed.
Lemma regs_nodup t hs h : forall i, NoDup (regs t i hs h).
Proof.
  induction hs as [|h' r IH]; intros i; simpl; [constructor|]. apply NoDup_app. split_and!; [case_decide; [apply NoDup_singleton|constructor]| |done].
  intros p Hp (j & -> & _)%regs_elem. case_decide; [|by apply not_elem_of_nil in Hp]. apply list_elem_of_singleton in Hp. injection Hp. lia.
Qed.

Lemma register_spec t hs : forall i c, (forall h, h ∈ hs -> is_Some (g_chans c !! h)) ->
  exists c', select_register t i hs c = Some c'
    /\ (forall h x, g_chans c !! h = Some x -> g_chans c' !! h = Some (if closed x then x else set_recv_waiters (recv_waiters x ++ regs t i hs h) x))
    /\ (forall h, is_Some (g_chans c' !! h) -> is_Some (g_chans c !! h))
    /\ (forall p, p.1 <> t \/ (p.2 < i)%nat -> waiters c' !! p = waiters c !! p)
    /\ (forall j h, hs !! j = Some h -> ~ shut c h -> waiters c' !! (t, (i + j)%nat) = Some (Waiter t (Some t) None false false (Some t) (i + j)))
    /\ groups c' = groups c /\ outs c' = outs c /\ g_next_chan c' = g_next_chan c /\ c_rt c' = c_rt c.
Proof.
  induction hs as [|h hs IH]; intros i c Hch.
  - exists c. split_and!; try done. intros h x ->. simpl. rewrite app_nil_r. destruct (closed x) eqn:E; [done|]. by destruct x.
  - destruct (Hch h) as [x Hx]; [by left|]. simpl. rewrite Hx. simpl. set (c1 := if closed x then c else _).
    assert (Hc1 : forall h' y, g_chans c !! h' = Some y ->
      g_chans c1 !! h' = Some (if closed y then y else set_recv_waiters (recv_waiters y ++ if decide (h = h') then [(t, i)] else []) y)).
    { intros h' y Hy. unfold c1. case_decide as Hd.
      - subst h'. rewrite Hx in Hy. injection Hy as <-. destruct (closed x); [done|]. simpl. by rewrite lookup_alter_eq, Hx.
      - rewrite app_nil_r. destruct (closed x); simpl; [rewrite Hy|rewrite lookup_alter_ne, Hy by done]; destruct (closed y) eqn:E; try done; by destruct y. }
    assert (Hdom : forall h', is_Some (g_chans c1 !! h') <-> is_Some (g_chans c !! h')).
    { intros h'. unfold c1. destruct (closed x); [done|]. simpl. by rewrite lookup_alter_is_Some. }
    assert (Hsh : forall h', shut c1 h' -> shut c h').
    { intros h' (y' & Hy' & Hcl). assert (Hy : is_Some (g_chans c !! h')) by (apply Hdom; by rewrite Hy'). destruct Hy as [y Hy].
      exists y. split; [done|]. rewrite (Hc1 h' y Hy) in Hy'. destruct (closed y) eqn:E; [done|]. injection Hy' as <-. simpl in Hcl. congruence. }
    destruct (IH (S i) c1) as (c' & Hc' & H1 & H2 & H3 & H4 & H5 & H6 & H7 & H8).
    { intros h' Hh'. apply Hdom, Hch. by right. }
    exists c'. split_and!; try done.
    + intros h' y Hy. rewrite (H1 h' _ (Hc1 h' y Hy)). f_equal. destruct (closed y) eqn:E; [by rewrite E|]. simpl. rewrite E.
      unfold set_recv_waiters. simpl. by rewrite <- app_assoc.
    + intros h' Hh'. by apply Hdom, H2.
    + intros p Hp. rewrite H3 by (destruct Hp; [by left|right; lia]). unfold c1. destruct (closed x); [done|]. simpl.
      rewrite lookup_insert_ne; [done|]. intros <-. simpl in Hp. destruct Hp; [done|lia].
    + intros [|j] h' Hj Hns; simpl in Hj.
      * injection Hj as <-. rewrite Nat.add_0_r, H3 by (right; simpl; lia). unfold c1. destruct (closed x) eqn:E; [destruct Hns; by exists x|].
        simpl. by rewrite lookup_insert_eq.
      * replace (i + S j)%nat with (S i + j)%nat by lia. apply (H4 j h'); [done|]. intros Hs. by apply Hns, Hsh.
    + rewrite H5. unfold c1. by destruct (closed x).
    + rewrite H6. unfold c1. by destruct (closed x).
    + rewrite H7. unfold c1. by destruct (closed x).
    + rewrite H8. unfold c1. by destruct (closed x).
Qed.

Lemma remove_spec t hs : forall i (c : state), let c' := select_remove t i hs c in
  (forall h x, g_chans c !! h = Some x -> exists rq, g_chans c' !! h = Some (set_recv_waiters rq x)
     /\ rq `sublist_of` recv_waiters x /\ forall p, p ∈ rq <-> p ∈ recv_waiters x /\ p ∉ regs t i hs h)
  /\ (forall h, is_Some (g_chans c' !! h) -> is_Some (g_chans c !! h))
  /\ (forall p, p.1 <> t -> waiters c' !! p = waiters c !! p)
  /\ groups c' = groups c /\ outs c' = outs c /\ g_next_chan c' = g_next_chan c /\ c_rt c' = c_rt c.
Proof.
  induction hs as [|h hs IH]; intros i c; simpl.
  - split_and!; try done. intros h x ->. exists (recv_waiters x). split_and!; [by destruct x|done|]. intros p. split; [|by intros [? _]].
    intros Hp. split; [done|]. by apply not_elem_of_nil.
  - set (c1 := drop_waiter _ _). destruct (IH (S i) c1) as (H1 & H2 & H3 & H4 & H5 & H6 & H7). split_and!; try done.
    + intros h' x Hx.
      assert (Hc1 : exists r1, g_chans c1 !! h' = Some (set_recv_waiters r1 x) /\ r1 `sublist_of` recv_waiters x
        /\ forall p, p ∈ r1 <-> p ∈ recv_waiters x /\ p ∉ (if decide (h = h') then [(t, i)] else [])).
      { simpl. case_decide as Hd.
        - subst h'. exists (filter (fun p => p <> (t, i)) (recv_waiters x)). split_and!; [by rewrite lookup_alter_eq, Hx|apply sublist_filter|].
          intros p. rewrite list_elem_of_filter, list_elem_of_singleton. tauto.
        - exists (recv_waiters x). split_and!; [rewrite lookup_alter_ne, Hx by done; by destruct x|done|].
          intros p. split; [|by intros [? _]]. intros Hp. split; [done|]. by apply not_elem_of_nil. }
      destruct Hc1 as (r1 & E1 & S1 & R1). destruct (H1 h' _ E1) as (rq & E2 & S2 & R2). exists rq. split_and!; [done|by transitivity r1|].
      intros p. rewrite R2. simpl. rewrite R1, elem_of_app. tauto.
    + intros h' Hh'. specialize (H2 h' Hh'). simpl in H2. by rewrite lookup_alter_is_Some in H2.
    + intros p Hp. rewrite H3 by done. simpl. rewrite lookup_delete_ne; [done|]. by intros <-.
Qed.

(** What the head of the loop does: a value of the first case that has one, the
    end of all cases, or the context parks on those that are open. *)
Inductive selected (t : tid) (hs : list Z) (c : state) (fr : gmap tid frame) : half state frame (res (V := V)) -> Prop :=
| selected_got j h v c' : hs !! j = Some h -> contents c h = v :: contents c' h ->
    (forall j' h', (j' < j)%nat -> hs !! j' = Some h' -> contents c h' = []) -> cmid t c' fr ->
    selected t hs c fr (Ret (ROut (Z.of_nat j) (Some v)) c')
| selected_dead : (forall h, h ∈ hs -> shut c h /\ contents c h = []) -> cmid t c fr ->
    selected t hs c fr (Ret (ROut (-1) (Some null)) c)
| selected_parked c' : (forall h, h ∈ hs -> contents c h = []) -> (exists h, h ∈ hs /\ ~ shut c h) -> parks_ok t fr (FSelect hs) c' ->
    selected t hs c fr (Parks (FSelect hs) c').

Lemma loop_cases t hs c fr :
  cmid t c fr -> hs <> [] -> (forall h, h ∈ hs -> is_Some (g_chans c !! h)) -> selected t hs c fr (select_loop null hs c).
Proof.
  intros C Hne Hch. unfold select_loop. destruct (scan_ok t fr hs c 0 false C Hch) as (r & c' & -> & C' & Hr). simpl.
  destruct r as [[k v]|o].
  { destruct Hr as (j & h & -> & Hj & Hv & Hlt). simpl. eapply selected_got; eauto. }
  destruct Hr as (-> & Hall & Ho). destruct o.
  2:{ simpl. apply selected_dead; [|done]. intros h Hh. split; [|auto]. destruct (Hch h Hh) as [x Hx].
      destruct (closed x) eqn:E; [by exists x|]. destruct Ho as [_ Ho]. assert (false = true); [|done]. apply Ho. right. exists h. split; [done|].
      intros (y & Hy & Hcl). congruence. }
  destruct Ho as [Ho _]. destruct (Ho eq_refl) as [?|(ho & Hho & Hopen)]; [done|]. clear Ho.
  rewrite (init_mid t c fr C), (me_mid t c fr C). set (c1 := with_groups _ c).
  destruct (register_spec t hs 0 c1 Hch) as (c2 & -> & H1 & H2 & H3 & H4 & H5 & H6 & H7 & H8). simpl.
  apply selected_parked; [done|by exists ho|]. destruct C as [M I]. pose proof (r_here _ _ _ _ _ M) as Ht.
  assert (Hg : groups c2 !! t = Some (Group (-1) false)) by (rewrite H5; simpl; by rewrite lookup_insert_eq).
  assert (Hin : forall h i, h ∈ hs -> ~ shut c h -> hs !! i = Some h -> (t, i) ∈ recvq c2 h).
  { intros h i Hh Hns Hi. destruct (Hch h Hh) as [x Hx]. unfold recvq. rewrite (H1 h x Hx). destruct (closed x) eqn:E; [destruct Hns; by exists x|].
    simpl. apply elem_of_app. right. apply regs_elem. by exists i. }
  split; [rewrite H8; by apply park_chan|]. rewrite H8. apply (join_inv t (FSelect hs) c c2 fr I Ht); try done.
  - intros p Hp. by apply H3; left.
  - intros u Hu. rewrite H5, H6. simpl. by rewrite lookup_insert_ne.
  - intros h x Hx. exists (if closed x then [] else regs t 0 hs h), []. constructor.
    + rewrite (H1 h x Hx). f_equal. destruct (closed x); destruct x; simpl; by rewrite ?app_nil_r.
    + intros p. destruct (closed x) eqn:E; [by intros ?%not_elem_of_nil|]. intros (j & -> & Hj)%regs_elem. split; [done|].
      eexists. split; [apply (H4 j h Hj); intros (y & Hy & Hc); simpl in Hy; congruence|]. split_and!; try done. right.
      split_and!; [done|simpl; by rewrite Hg|]. exists hs. simpl. by rewrite lookup_insert_eq.
    + by intros p ?%not_elem_of_nil.
    + split; [|constructor]. destruct (closed x); [constructor|apply regs_nodup].
    + destruct (closed x) eqn:E; [done|]. intros Hr. destruct (regs t 0 hs h) as [|p rs] eqn:Er; [done|].
      assert (Hp : p ∈ regs t 0 hs h) by (rewrite Er; by left). apply regs_elem in Hp as (j & _ & Hj).
      apply list_elem_of_lookup_2 in Hj. destruct (contents_nil _ _ _ _ _ _ I Hx (Hall h Hj)) as [-> ->]. done.
    + done.
  - exists (Group (-1) false). split_and!; try done.
    + intros h Hh. destruct (Hch h Hh) as [x Hx]. by rewrite (H1 h x Hx).
    + intros _. split_and!; [done| |].
      * intros i h Hi. pose proof (list_elem_of_lookup_2 _ _ _ Hi) as Hh. destruct (Hch h Hh) as [x Hx]. destruct (closed x) eqn:E.
        -- right. destruct (contents_nil _ _ _ _ _ _ I Hx (Hall h Hh)) as [Eq _]. unfold drained, shut, buf. rewrite (H1 h x Hx), E. split; [by exists x|done].
        -- left. apply Hin; [done| |done]. intros (y & Hy & Hc). congruence.
      * apply list_elem_of_lookup in Hho as [i Hi]. exists i, ho. split; [done|]. apply Hin; try done. by apply list_elem_of_lookup_2 in Hi.
Qed.
Lemma loop_ok t hs c fr : cmid t c fr -> hs <> [] -> (forall h, h ∈ hs -> is_Some (g_chans c !! h)) -> chalf_ok t fr (select_loop null hs c).
Proof. intros C Hne Hch. by destruct (loop_cases t hs c fr C Hne Hch). Qed.

(** How a parked [chan_select] comes back. *)
Definition select_back (t : tid) (hs : list Z) (c : state) (r : half state frame (res (V := V))) : Prop :=
  (exists g, groups c !! t = Some g /\
  match r with
  | Ret x _ => exists v i, fired_index g = Z.of_nat i /\ is_Some (hs !! i) /\ outs c !! t = Some v /\ x = ROut (Z.of_nat i) (Some v)
  | Throw e _ => fired_index g < 0 /\ e = Cancelled /\ task_cancelled (c_rt c) = true
  | Goes f c' => fired_index g < 0 /\ task_cancelled (c_rt c) = false /\ f = FSelectLoop hs
  | _ => False
  end) /\
  match r with Ret _ c' | Throw _ c' | Goes _ c' => forall h p, p ∈ recvq c' h -> p.1 <> t | _ => True end.

Lemma select_resume_ok t hs c fr :
  rmid t None false (c_rt c) (delete t fr) -> cinv c fr -> fr !! t = Some (FSelect hs) ->
  chalf_ok t (delete t fr) (select_resume hs c) /\ select_back t hs c (select_resume hs c).
Proof.
  intros M I Hf. unfold select_resume. assert (Hme : me c = t) by (by eapply mid_self). rewrite Hme.
  destruct (i_ctx _ _ _ _ I t _ Hf) as (g & Hg & Hne & Hch & Hfi & Hwk & Hnw). rewrite Hg. simpl.
  assert (Haw : awake (c_rt c) t) by (left; apply M).
  destruct (remove_spec t hs 0 c) as (H1 & H2 & H3 & H4 & H5 & H6 & H7).
  set (c1 := with_groups _ _). assert (C1 : cmid t c1 (delete t fr)).
  { split; [by simpl; rewrite H7|]. unfold cinv. simpl. rewrite H7. apply (part_inv (awake (c_rt c)) _ t c c1 fr I); try done.
    - intros u Hu. simpl. rewrite H5. by rewrite !lookup_delete_ne.
    - intros h x Hx. destruct (H1 h x Hx) as (rq & E & Hsub & Hrq). exists rq, (send_waiters x).
      destruct (i_fine _ _ _ _ I h x Hx) as [F1 F2 _ _ _ _]. split_and!; [simpl; rewrite E; by destruct x| | |..].
      + eapply sublist_NoDup; [exact F1|exact Hsub].
      + done.
      + intros p. rewrite Hrq. split; intros [Hp Hn]; (split; [done|]).
        * intros Ht. apply Hn. destruct p as [u i]. simpl in Ht. subst u.
          pose proof (own_recv _ _ _ _ _ _ (FSelect hs) I ltac:(unfold recvq; rewrite Hx; exact Hp) Hf) as Hi. simpl in Hi. apply regs_elem. by exists i.
        * intros (j & -> & _)%regs_elem. done.
      + intros p. split; [|by intros [? _]]. intros Hp. split; [done|]. intros Ht. destruct p as [u i]. simpl in Ht. subst u.
        by destruct (own_send _ _ _ _ _ _ (FSelect hs) I ltac:(unfold sendq; rewrite Hx; exact Hp) Hf). }
  assert (Hgone : forall h p, p ∈ recvq c1 h -> p.1 <> t).
  { intros h p Hp Ht. destruct (i_recv _ _ _ _ (cm_inv _ _ _ C1) h p Hp) as (w & _ & _ & _ & _ & _ & _ & Hx). rewrite Ht, lookup_delete_eq in Hx.
    by destruct Hx as [(_ & _ & ?)|(_ & _ & ? & ? & _)]. }
  destruct (Z.leb_spec 0 (fired_index g)) as [Hge|Hlt].
  - split; [done|]. destruct (Hfi Hge) as (_ & Hlen & [v Hv]). split; [|done]. exists g. split; [done|]. exists v, (Z.to_nat (fired_index g)).
    rewrite Z2Nat.id by done. split_and!; try done. { apply lookup_lt_is_Some. lia. } by rewrite Hv.
  - rewrite H7, (task_cancelled_mid _ _ _ _ _ M). destruct (cancelled_t (c_rt c) t) eqn:Hcan.
    + split; [done|]. split; [|done]. exists g. by rewrite (task_cancelled_mid _ _ _ _ _ M).
    + split; [|split; [exists g; by rewrite (task_cancelled_mid _ _ _ _ _ M)|done]]. apply goes_loop; [done|done|]. intros h Hh. destruct (Hch h Hh) as [x Hx]. destruct (H1 h x Hx) as (rq & E & _).
      simpl. rewrite E. by eexists.
Qed.

End Waiters.
