(* ===== verification/Coop.v ===== *)
(** The task machine keeps its invariant.

    [minv] joins the two invariants, [Parked.rinv] of the scheduler and the
    scopes and [Waiters.cinv] of the channels; every step from a state that
    satisfies it ends in one that does, or in the deadlock abort, and never in
    undefined behaviour.  The theorems at the end read off what that means to
    programs. *)

From stdpp Require Import gmap list sorting.
From S2P Require Import Prelude Tasks Forest Scopes Channels Switch Machine Parked Waiters.
#[local] Open Scope Z_scope.

Section Coop.
Context {V : Type} (null : V) `{HO : OsLaws, !IoLayer, !NoIoWaiters}.
#[local] Abbreviation state := (cs (V := V)).

Record minv (m : mach (V := V)) : Prop := {
  m_rt : rinv (c_rt (st m)) (frames m);
  m_inv : cinv (st m) (frames m);
}.

(** ** The scheduler's verbs on the whole state *)

Lemma cinv_scopes A E (c : state) fr m n : cinv_gen A E c fr -> cinv_gen A E (with_g_scopes m n c) fr.
Proof. intros I. constructor; try apply I. intros h x Hx. destruct (i_fine _ _ _ _ I h x Hx). by constructor. Qed.
Lemma cmid_scopes t (c : state) fr m n : cmid t c fr -> cmid t (with_g_scopes m n c) fr.
Proof. intros [M I]. split; [done|by apply cinv_scopes]. Qed.

Lemma frames_place t (fr : gmap tid frame) r u f : fr !! t = None -> in_chan f -> fr !! u = Some f <-> <[t := FRt r]> fr !! u = Some f.
Proof.
  intros Ht Hi. destruct (decide (u = t)) as [->|Hn]; [|by rewrite lookup_insert_ne].
  rewrite lookup_insert_eq, Ht. split; [done|]. by intros [= <-].
Qed.

Lemma cinv_goes t j b (c : state) w' fr r :
  rmid t j b (c_rt c) fr -> env NoK t (c_rt c) w' -> cinv c fr -> cinv (with_rt w' c) (<[t := FRt r]> fr).
Proof.
  intros M E I. eapply cinv_frames; [by eapply cinv_env|]. intros u f Hi. apply frames_place; [apply M|done].
Qed.

Lemma lift_ok t j b (c : state) fr h :
  rmid t j b (c_rt c) fr -> cinv c fr -> half_ok (c_rt c) t fr h -> chalf_ok t fr (lift_half c h).
Proof.
  intros M I Hh. destruct h as [r w'|e w'|f w'|f w'|f n w'|f w'|w'| |]; simpl in *; try done.
  - destruct Hh as [M' E]. split; [done|by eapply cinv_env].
  - destruct Hh as [M' E]. split; [done|by eapply cinv_env].
  - destruct Hh as (R & Hc & E). split_and!; [done|done|by eapply cinv_goes].
  - destruct Hh as [P E]. split; [done|]. eapply cinv_frames; [|intros u g Hi; by apply frames_place; [apply M|]].
    apply (cinv_rt (awake (c_rt c))); [done|]. intros u g Hg Hi.
    assert (Hu : u <> t) by (intros ->; rewrite (r_here _ _ _ _ _ M) in Hg; done).
    destruct (others_calm _ _ _ _ _ _ _ _ _ M E Hg Hi) as (? & H2 & ?). split_and!; [by split; auto| |done].
    intros [_ Ha]. destruct (H2 Ha) as [?|[?|[]]]; [by left|by right].
  - destruct Hh as (R & Hs & E). split_and!; [done|done|]. change (on_rt (task_switch n) (with_rt w' c)) with (with_rt (task_switch n w') c).
    by eapply cinv_goes.
  - destruct Hh as (M' & E & -> & ->). split_and!; [|done|done]. split; [done|by eapply cinv_env].
  - destruct Hh as (w0 & x & M0 & E & Hx & Hcx & Hm & ->). exists w0, x. split_and!; try done. change (cinv (with_rt w0 c) fr). by eapply cinv_env.
Qed.

(** ** A verb is called *)

Lemma opens_own (c : state) t s : me c = t -> own_scope c s = true -> opens (c_rt c) t s.
Proof.
  intros Hm. unfold own_scope, opens. destruct (scopes (c_rt c) !! s) as [x|]; [|done]. intros Ho%bool_decide_eq_true.
  exists x. split; [done|congruence].
Qed.

Lemma lift_mid t (c : state) fr h : cmid t c fr -> half_ok (c_rt c) t fr h -> chalf_ok t fr (lift_half c h).
Proof. intros [M I]. by eapply lift_ok. Qed.

Lemma chan_scope_begin_ok t (c : state) fr : cmid t c fr -> chalf_ok t fr (chan_scope_begin c).
Proof.
  intros [M I]. unfold chan_scope_begin. pose proof (begin_mid t fr (c_rt c) M) as Hb. destruct (madc_scope_begin (c_rt c)) as [s w].
  destruct Hb as (M' & E & _). apply cmid_scopes. split; [done|by eapply cinv_env].
Qed.

Lemma chan_scope_end_ok t h (c : state) fr : cmid t c fr -> fresh_handle c h = true -> chalf_ok t fr (chan_scope_end h c).
Proof.
  intros C Hf. unfold chan_scope_end, fresh_handle in *. destruct (g_scopes c !! h) as [s|]; [|done].
  apply bool_decide_eq_true in Hf. destruct (end_check_spec t fr s (c_rt c) None false (cm_rt _ _ _ C) Hf) as [->|[->|[-> _]]]; [done|done|].
  apply (lift_mid t (with_g_scopes _ _ c)); [by apply cmid_scopes|]. apply scope_end_ok; [apply C|done].
Qed.

Lemma chan_scope_cancel_ok t h (c : state) fr : cmid t c fr -> fresh_handle c h = true -> chalf_ok t fr (chan_scope_cancel h c).
Proof.
  intros C Hf. unfold chan_scope_cancel, fresh_handle in *. destruct (g_scopes c !! h) as [s|]; [|done].
  apply bool_decide_eq_true in Hf. apply lift_mid; [done|]. apply cancel_ok; [apply C|done].
Qed.

Lemma block_enter_ok t (c : state) fr :
  cmid t c fr -> chalf_ok t fr (let '(s, w) := scope_block_enter (c_rt c) in Ret (RInt (Z.of_nat s)) (with_rt w c)).
Proof.
  intros [M I]. unfold scope_block_enter. pose proof (begin_mid t fr (c_rt c) M) as Hb. destruct (madc_scope_begin (c_rt c)) as [s w].
  destruct Hb as (M' & E & _). split; [done|by eapply cinv_env].
Qed.

(** [__madc_go]: the spawned context stands at its entry. *)
Lemma go_ok t (c : state) fr :
  cmid t c fr -> chalf_ok t (<[(madc_go (c_rt c)).1 := FRt FStart]> fr) (let '(_, w) := madc_go (c_rt c) in Ret RUnit (with_rt w c)).
Proof.
  intros [M I]. pose proof (go_rinv t fr (c_rt c) M) as Hg. destruct (madc_go (c_rt c)) as [t' w].
  destruct Hg as (R & Hc & Hne & E & Hf). split.
  - apply rinv_free; [done|done|]. rewrite lookup_insert_ne by done. apply M.
  - eapply cinv_frames; [by eapply cinv_env|]. intros u f Hi. by apply frames_place.
Qed.

Lemma start_ok t v (c : state) fr :
  cmid t c fr -> allowed v c = true -> chalf_ok t (new_frames v c fr) (start null v c).
Proof.
  intros C Hv. pose proof (me_mid _ _ _ C) as Hme. pose proof (cm_rt _ _ _ C) as M.
  assert (Hslot : forall slot, match slot with Some s => own_scope c s | None => true end = true -> forall b, slot = Some b -> opens (c_rt c) t b).
  { intros slot Hs b ->. by apply opens_own. }
  destruct v as [| |ms| | | |h|h| |slot|slot|n|h x|h|h|hs|h|h|e]; cbn [start new_frames allowed] in *.
  - by apply go_ok.
  - apply lift_mid; [done|]. by apply yield_ok.
  - apply lift_mid; [done|]. by apply sleep_ok.
  - apply lift_mid; [done|]. by apply join_all_ok.
  - done.
  - by apply chan_scope_begin_ok.
  - by apply chan_scope_end_ok.
  - by apply chan_scope_cancel_ok.
  - by apply block_enter_ok.
  - apply lift_mid; [done|]. apply block_exit_ok; [done|]. apply Hslot. by destruct slot.
  - apply lift_mid; [done|]. apply block_leave_ok; [done|]. apply Hslot. by destruct slot.
  - by apply make_ok.
  - by apply send_ok.
  - by apply recv_ok.
  - by apply try_ok.
  - by apply select_ok.
  - by apply close_ok.
  - by apply len_ok.
  - apply lift_mid; [done|]. apply body_done_ok; [done|]. apply bool_decide_eq_true in Hv. congruence.
Qed.

(** ** A context comes back *)

(** A context at the head of a select's loop has no record. *)
Lemma loop_place t hs (c : state) fr : fr !! t = Some (FSelectLoop hs) -> cinv c fr -> cinv c (delete t fr).
Proof.
  intros Hf I. pose proof (i_recv _ _ _ _ I) as I1. pose proof (i_send _ _ _ _ I) as I2. constructor; try apply I.
  - intros h p Hp. destruct (I1 h p Hp) as (w & Hw & ? & ? & ? & ? & ? & Hg). exists w. split_and!; try done.
    assert (Hn : p.1 <> t) by (intros E; rewrite E, Hf in Hg; destruct Hg as [(_ & _ & ?)|(_ & _ & ? & ? & _)]; done).
    by rewrite lookup_delete_ne.
  - intros h p Hp. destruct (I2 h p Hp) as (w & Hw & ? & ? & ? & ? & ? & ? & Hg). exists w. split_and!; try done.
    rewrite lookup_delete_ne; [done|]. intros E. rewrite <- E, Hf in Hg. done.
  - intros u g Hg. apply (i_ctx _ _ _ _ I). apply lookup_delete_Some in Hg. by destruct Hg.
Qed.

Lemma back_ok t f (c : state) fr :
  rinv (c_rt c) fr -> cinv c fr -> g_current (c_rt c) = Some t -> fr !! t = Some f -> chalf_ok t (delete t fr) (resume null f c).
Proof.
  intros R I Hc Hf. pose proof (rinv_run _ _ _ _ R Hc Hf) as M. destruct f as [r|h|h|hs|hs]; cbn [resume joins_at is_back] in *.
  - eapply lift_ok; [exact M| |apply resume_ok; [done|by apply R]]. eapply cinv_frames; [done|]. intros u g Hi.
    destruct (decide (u = t)) as [->|Hn]; [|by rewrite lookup_delete_ne]. rewrite lookup_delete_eq, Hf. split; [by intros [= <-]|done].
  - by apply send_resume_ok.
  - by apply recv_resume_ok.
  - pose proof (i_ctx _ _ _ _ I t _ Hf) as (_ & Hne & Hch). apply loop_ok; [|done|done]. split; [done|]. by eapply loop_place.
  - by apply select_resume_ok.
Qed.

(** ** The end of a half *)

Lemma next_or_wait_more n w x : task_next_or_wait n w = Some x -> task_next_or_wait (S n) w = Some x.
Proof.
  revert w. induction n as [|n IH]; intros w; [done|].
  assert (Hstep : forall k w0, task_next_or_wait (S k) w0 =
    match next_or_wait_body w0 with inl w1 => task_next_or_wait k w1 | inr r => Some r end) by done.
  rewrite (Hstep (S n)), (Hstep n). destruct (next_or_wait_body w); [apply IH|done].
Qed.
Lemma next_or_wait_mono n m w x : (n <= m)%nat -> task_next_or_wait n w = Some x -> task_next_or_wait m w = Some x.
Proof. induction 1 as [|m _ IH]; [done|]. intros Hx. by apply next_or_wait_more, IH. Qed.

(** Whatever the fuel, an answer is the decision. *)
Lemma next_or_wait_cases fuel w :
  sched_ok w -> match task_next_or_wait fuel w with None => (fuel < 2)%nat | Some (r, w') => decided w r w' end.
Proof.
  intros Hok. destruct (next_or_wait_decides w Hok) as (r & w' & Hf & Hd). destruct (decide (2 <= fuel)%nat) as [Hl|Hl]; [by rewrite Hf|].
  destruct (task_next_or_wait fuel w) as [[r2 w2]|] eqn:E; [|lia].
  apply (next_or_wait_mono fuel 2) in E; [|lia]. rewrite Hf in E by lia. by injection E as <- <-.
Qed.

Lemma pick_eta w n : g_current w = Some n -> w = with_current (Some n) (with_switch_count (g_switch_count w) w).
Proof. destruct w. simpl. by intros ->. Qed.

Lemma moved_cancelled w w' u : moved w w' -> cancelled_t w' u = cancelled_t w u.
Proof.
  intros Hm. destruct (moved_flags _ _ Hm) as (Esc & _ & _ & En & _). pose proof (moved_core _ _ Hm) as Hco.
  apply (f_equal (fun m => m !! u)) in Hco. rewrite !core_lookup in Hco. unfold cancelled_t. rewrite En.
  destruct (tasks w' !! u) as [y|], (tasks w !! u) as [x|]; simpl in Hco; try done. destruct x, y; simplify_eq/=.
  by rewrite (chain_cancelled_ext w w').
Qed.

Lemma cancelled_pick n m w u : cancelled_t (with_current n (with_switch_count m w)) u = cancelled_t w u.
Proof. unfold cancelled_t. simpl. destruct (tasks w !! u); [|done]. by rewrite (chain_cancelled_ext w). Qed.

Lemma park_cinv t f (c : state) fr n w2 m :
  parks_ok t fr f c -> decided (c_rt c) (Some n) w2 ->
  let w3 := with_current (Some n) (with_switch_count m w2) in
  rinv w3 (<[t := f]> fr) /\ cinv (with_rt w3 c) (<[t := f]> fr).
Proof.
  intros [P I] D w3. destruct (park_rinv t f (c_rt c) fr n w2 m P D) as (R & E & _). fold w3 in R, E. split; [done|].
  destruct P as (w0 & j & M & E0 & Hk & Hc & Hr & Ht & _).
  apply (cinv_rt _ _ _ _ _ _ I). intros u g Hg Hi. destruct (decide (u = t)) as [->|Hu].
  - split_and!; [by intros [? _]| |].
    + intros Ha. exfalso. rewrite lookup_insert_eq in Hg. injection Hg as ->.
      destruct D as (_ & _ & Hseq & _). assert (Hin : t ∈ g_ready (c_rt c) ++ g_timers (c_rt c)).
      { rewrite Hseq. destruct Ha as [Ha|Ha]; [simpl in Ha; injection Ha as ->; by left|]. right. apply elem_of_app. by left. }
      apply elem_of_app in Hin as [?|Hin]; [done|]. apply Ht in Hin. by subst g.
    + destruct D as (_ & Hm & _). rewrite (cancelled_pick _ _ w2 t : cancelled_t w3 t = _). by rewrite (moved_cancelled _ _ _ Hm).
  - rewrite lookup_insert_ne in Hg by done.
    assert (Ha0 : is_Some (tasks w0 !! u)) by (by apply (r_place _ _ _ _ _ M); [|rewrite Hg]).
    assert (Ha : is_Some (tasks (c_rt c) !! u)) by (by apply E0).
    split_and!; [intros [_ Hx]; by apply E| |by apply E].
    intros Hx. destruct (e_wake _ _ _ _ E u Hu Ha Hx) as [?|[[Hin _]|[?|[(s & x & Hs & Hj & Ho)|[]]]]]; [by left; split| |by right|].
    + apply (e_timers _ _ _ _ E0 u Hu) in Hin. apply M in Hin. rewrite Hg in Hin. by injection Hin as ->.
    + destruct (e_scope_inv _ _ _ _ E0 s x Hs) as (y & Hy & Eo & Ej); [congruence|].
      destruct (r_joining _ _ _ _ _ M s y Hy) as (f' & Hf' & Hjf); [congruence|congruence|].
      rewrite Eo, Ho, Hg in Hf'. injection Hf' as <-. by destruct g.
Qed.

Definition outcome_ok (fuel : nat) (o : outcome (V := V)) : Prop :=
  match o with Running m _ => minv m | Aborted => True | Undefined => False | OutOfFuel => (fuel < 2)%nat end.

Lemma parks_ok_sched t f (c : state) fr : parks_ok t fr f c -> sched_ok (c_rt c) /\ me c = t.
Proof.
  intros [(w0 & j & M & E0 & Hk & Hc & _) _]. split; [apply (k_ok _ _ _ Hk)|]. unfold me, self. by rewrite Hc.
Qed.

Lemma parks_reap t f (c : state) fr n w2 : parks_ok t fr f c -> decided (c_rt c) (Some n) w2 -> g_reap w2 = None.
Proof. intros [P _] D. by destruct (park_rinv t f (c_rt c) fr n w2 0 P D) as (_ & _ & Hr). Qed.

Lemma task_park_ok fuel t f (c : state) fr : parks_ok t fr f c -> outcome_ok fuel (task_park fuel f c fr).
Proof.
  intros P. destruct (parks_ok_sched _ _ _ _ P) as [Hs Hme]. unfold task_park. pose proof (next_or_wait_cases fuel (c_rt c) Hs) as D.
  destruct (task_next_or_wait fuel (c_rt c)) as [[[n|] w2]|]; [|done|done]. rewrite Hme.
  pose proof (parks_reap _ _ _ _ _ _ P D) as Hrp.
  destruct (park_cinv t f c fr n w2 (if decide (n = t) then g_switch_count w2 else g_switch_count w2 + 1) P D) as [R I].
  case_decide as Hn; simpl.
  - subst n. assert (Hc2 : g_current w2 = Some t).
    { destruct D as (_ & Hm & _). destruct (moved_flags _ _ Hm) as (_ & _ & -> & _). by destruct P as [(w0 & j & M & E0 & Hk & Hc & _) _]. }
    rewrite <- (pick_eta w2 t Hc2) in R, I. by split.
  - rewrite (task_switch_eq n w2 Hrp). by split.
Qed.

Lemma join_wait_ok fuel t (c : state) fr : cmid t c fr -> t = main_task -> outcome_ok fuel (join_wait fuel (FRt FJoinBack) c fr).
Proof.
  intros [M I] Ht. unfold join_wait. pose proof (next_or_wait_cases fuel (c_rt c) (ro_sched _ (r_ok _ _ _ _ _ M))) as D.
  destruct (task_next_or_wait fuel (c_rt c)) as [[[n|] w2]|]; [|done|done].
  destruct (join_wait_rinv t fr (c_rt c) w2 n Ht M D) as [R E]. rewrite (me_mid t c fr) by (by split). split; [done|]. simpl. by eapply cinv_goes.
Qed.

Lemma exit_switch_ok fuel t (c : state) fr w0 x :
  rmid t None false w0 fr -> tasks w0 !! t = Some x -> cur x = t_scope x -> t <> main_task ->
  c_rt c = with_live (g_live w0 - 1) (scope_detach t w0) -> cinv (with_rt w0 c) fr -> outcome_ok fuel (task_exit_switch fuel c fr).
Proof.
  intros M Hx Hcx Hm Hw I. destruct (exit_left t fr w0 x M Hx Hcx) as (_ & _ & Hcl & _ & _ & Hs & _).
  unfold task_exit_switch. assert (Hme : me c = t).
  { unfold me, self. rewrite Hw. unfold left_rt in Hcl. simpl in *. by rewrite Hcl. }
  rewrite Hw. pose proof (next_or_wait_cases fuel _ Hs) as D. destruct (task_next_or_wait fuel _) as [[next w2]|]; [|done].
  assert (Hpick : forall n, next = Some n \/ next = None /\ g_main_waiting w2 = true /\ n = main_task ->
     minv (Mach (with_rt (task_reap (with_current (Some n) (with_reap (Some (me c)) w2))) c) fr)).
  { intros n Hn. rewrite Hme. destruct (exit_rinv t fr w0 x M Hx Hcx Hm next w2 n D Hn) as (R & K & E & HK). split; [done|]. simpl.
    set (w3 := task_reap _) in *. change (cinv (with_rt w3 (with_rt w0 c)) fr). apply (cinv_rt _ _ _ _ _ _ I). intros u f Hf Hi.
    destruct (others_calm _ _ _ _ _ _ _ _ _ M E Hf Hi) as (? & H2 & ?). split_and!; [done| |done].
    intros Ha. destruct (H2 Ha) as [?|[?|HKu]]; [by left|by right|]. apply HK in HKu. rewrite Hf in HKu. injection HKu as ->. done. }
  destruct next as [n|]; [apply Hpick; by left|]. destruct (g_main_waiting w2) eqn:Hmw; [|done]. apply Hpick. by right.
Qed.

Lemma finish_ok fuel t h fr :
  chalf_ok t fr h -> outcome_ok fuel (finish fuel h fr).
Proof.
  destruct h as [r c|e c|f c|f c|f n c|f c|c| |]; simpl.
  - intros [M I]. split; [by eapply rmid_ret|done].
  - intros [M I]. split; [by eapply rmid_ret|done].
  - intros (R & Hc & I). assert (Hme : me c = t) by (unfold me, self; by rewrite Hc). rewrite Hme. by split.
  - intros P. by eapply task_park_ok.
  - intros (R & Hme & I). rewrite Hme. by split.
  - intros (C & Ht & ->). by eapply join_wait_ok.
  - intros (w0 & x & M & Hx & Hcx & Hm & Hw & I). by eapply exit_switch_ok.
  - done.
  - done.
Qed.

(** ** One step *)

Lemma step_ok m o : minv m -> mstep null m o -> match o with Running m' _ => minv m' | Aborted => True | _ => False end.
Proof.
  intros [R I] Hs. destruct (v_current _ _ R) as (t & Hc & _). assert (Hme : me (st m) = t) by (unfold me, self; by rewrite Hc).
  assert (Ho : exists fuel, outcome_ok fuel o /\ o <> OutOfFuel).
  { destruct Hs as [v fuel o Hf Hv <- Hn|f fuel o Hf <- Hn]; exists fuel; (split; [|done]); rewrite Hme in *; unfold call, continue; eapply finish_ok.
    - eapply start_ok; [|done]. split; [by apply rinv_free|done].
    - rewrite Hme. by apply back_ok. }
  destruct Ho as (fuel & Ho & Hne). by destruct o.
Qed.

Lemma initial_ok c : minv (initial c).
Proof.
  assert (Hf : forest_of (c_rt (st (initial (V := V) c))) = Forest {[ main_task := (None, None) ]} ∅).
  { unfold forest_of. simpl. by rewrite map_fmap_singleton, fmap_empty. }
  split; constructor; simpl; try done.
  - constructor; simpl; try done.
    + constructor; simpl; try constructor.
      * by intros t ?%not_elem_of_nil.
      * intros t x [<- <-]%lookup_singleton_Some. done.
    + simpl in Hf. rewrite Hf. apply forest_init_ok.
    + intros t x [<- <-]%lookup_singleton_Some. unfold main_task. lia.
  - exists main_task. split_and!; try apply not_elem_of_nil; [done|by rewrite lookup_singleton_eq].
  - exists zero_task. by rewrite lookup_singleton_eq.
  - intros u Hu [x [<- _]%lookup_singleton_Some]. done.
  - by intros u [? ?].
  - by intros u ?%not_elem_of_nil.
  - by intros h p ?%not_elem_of_nil.
  - by intros h p ?%not_elem_of_nil.
  - by intros h [? ?].
Qed.

Lemma next_ok m m' : minv m -> mnext null m m' -> minv m'.
Proof. intros I [r Hs]. exact (step_ok m _ I Hs). Qed.

Lemma reachable_ok c m : reachable null c m -> minv m.
Proof.
  unfold reachable. intros Hr. assert (I : minv (initial c)) by apply initial_ok.
  induction Hr as [m|m m1 m2 Hs Hr IH]; [done|]. apply IH. by eapply next_ok.
Qed.
(** * What programs may rely on *)

(** The end of a step that is neither undefined nor short of fuel. *)
Definition runs (o : outcome (V := V)) : Prop := match o with Running _ _ | Aborted => True | Undefined | OutOfFuel => False end.

(** C3: memory safety and progress of the task runtime, for programs within
    [allowed]: no verb is given the handle of a scope that has been freed
    ([Runs.stale_handle] is such a call, and a finding), a block exit names a scope
    the task itself opened, and main does not end as a body.  While no waiter for
    io is registered, from the start of such a program, in whatever order the
    scheduler runs its tasks: the running task's next verb, or its return from the
    verb it is parked in, always ends, two turns of the scheduler's decision are
    enough, and it never follows a dangling scope, task, waiter, group or channel
    pointer. *)
Theorem machine_is_safe t0 m fuel :
  reachable null t0 m -> (2 <= fuel)%nat ->
  match frames m !! me (st m) with
  | Some f => runs (continue null fuel f m)
  | None => forall v, allowed v (st m) = true -> runs (call null fuel v m)
  end.
Proof.
  intros Hr Hf. destruct (reachable_ok _ _ Hr) as [R I]. destruct (v_current _ _ R) as (t & Hc & _).
  assert (Hme : me (st m) = t) by (unfold me, self; by rewrite Hc). rewrite Hme.
  assert (Hok : forall o, outcome_ok fuel o -> runs o) by (intros [] Ho; simpl in *; done || lia).
  destruct (frames m !! t) as [f|] eqn:E.
  - apply Hok. unfold continue. rewrite Hme. eapply finish_ok. by apply back_ok.
  - intros v Hv. apply Hok. unfold call. eapply finish_ok. apply start_ok; [|done]. split; [by apply rinv_free|done].
Qed.

(** a task is in one place.  In every reachable state no task is queued
    twice, none is queued and asleep, the running task is neither, everything
    queued exists, and the count of live tasks is that of the tasks besides
    main. *)
Theorem one_place_each t0 m :
  reachable null t0 m ->
  let w := c_rt (st m) in
  NoDup (g_ready w ++ g_timers w) /\ (me (st m) ∉ g_ready w ++ g_timers w)
  /\ (forall t, t ∈ me (st m) :: g_ready w ++ g_timers w -> is_Some (tasks w !! t))
  /\ StronglySorted Z.le (deadline_of w <$> g_timers w)
  /\ g_live w = Z.of_nat (size (tasks w)) - 1
  /\ (forall t, t ∈ g_timers w -> frames m !! t = Some (FRt FSleep)).
Proof.
  intros Hr w. destruct (reachable_ok _ _ Hr) as [R I]. destruct (v_current _ _ R) as (t & Hc & Ha & Hnr & Hnt).
  assert (Hme : me (st m) = t) by (unfold me, self; by rewrite Hc). rewrite Hme. pose proof (ro_sched _ (v_ok _ _ R)) as Hs.
  split_and!; try (by apply Hs); try (by apply R).
  - intros [?|?]%elem_of_app; done.
  - intros u [->|Hu]%elem_of_cons; [done|]. apply (ok_alloc _ Hs) in Hu. by rewrite core_lookup, fmap_is_Some in Hu.
Qed.

(** What keeps a context that is not awake where it stands. *)
Definition blocked (c : state) (u : tid) (f : frame) : Prop :=
  match f with
  | FSend h => ~ shut c h /\ (exists x, g_chans c !! h = Some x /\ Z.of_nat (length (q x)) = cap x) /\ forall p, p ∈ recvq c h -> ~ live_waiter c p
  | FRecv h => ~ shut c h /\ contents c h = []
  | FSelect hs => (forall h, h ∈ hs -> contents c h = []) /\ exists h, h ∈ hs /\ ~ shut c h
  | FRt FSleep => u ∈ g_timers (c_rt c)
  | FRt (FEndJoin s) | FRt (FLeaveJoin _ s) | FRt (FExitJoin s) =>
      exists x, scopes (c_rt c) !! s = Some x /\ opener x = u /\ 0 < live x
  | FRt FJoinBack => u = main_task /\ g_main_waiting (c_rt c) = true
  | _ => False
  end.

Lemma joins_blocked w u s : rt_ok w -> joins w u s -> ~ awake w u -> exists x, scopes w !! s = Some x /\ opener x = u /\ 0 < live x.
Proof.
  intros Hok (x & Hx & Ho & _ & _ & Hl) Hn. exists x. split_and!; try done. rewrite (ro_live _ Hok s x Hx).
  destruct (members x) as [|a l] eqn:E; [|simpl; lia]. exfalso. apply Hn, Hl. by rewrite (ro_live _ Hok s x Hx), E.
Qed.

Lemma queued_open (c : state) fr h x : cinv c fr -> g_chans c !! h = Some x -> recv_waiters x <> [] \/ send_waiters x <> [] -> closed x = false.
Proof.
  intros I Hx Hne. destruct (closed x) eqn:E; [|done]. destruct (i_shut _ _ _ _ I h x Hx ltac:(by intros []) E) as [E1 E2].
  rewrite E1, E2 in Hne. by destruct Hne.
Qed.

Lemma recvq_at (c : state) h p : p ∈ recvq c h -> exists x : MadcChan (V := V), g_chans c !! h = Some x /\ p ∈ recv_waiters x.
Proof. unfold recvq. destruct (g_chans c !! h) as [x|]; [eauto|by intros ?%not_elem_of_nil]. Qed.
Lemma sendq_at (c : state) h p : p ∈ sendq c h -> exists x : MadcChan (V := V), g_chans c !! h = Some x /\ p ∈ send_waiters x.
Proof. unfold sendq. destruct (g_chans c !! h) as [x|]; [eauto|by intros ?%not_elem_of_nil]. Qed.

Lemma elem_nonnil {A} (p : A) l : p ∈ l -> l <> [].
Proof. by destruct l; [intros ?%not_elem_of_nil|]. Qed.

Lemma live_empty (c : state) fr h p : cinv c fr -> p ∈ recvq c h -> live_waiter c p -> contents c h = [] /\ ~ shut c h.
Proof.
  intros I Hp Hl. destruct (recvq_at _ _ _ Hp) as (x & Hx & Hin). destruct (i_fine _ _ _ _ I h x Hx) as [_ _ _ _ _ F6].
  destruct (F6 p Hin Hl) as [Eq Es]. split; [by rewrite (contents_at _ _ _ Hx), Eq, Es|].
  intros (y & Hy & Hc). pose proof (queued_open c fr h x I Hx (or_introl (elem_nonnil _ _ Hin))). congruence.
Qed.

(** C2: no wake-up is lost.  In every reachable state a context that stands in
    a verb and is neither running nor ready really has to wait: nothing is in
    the open channel it receives from, the open channel it sends to is full
    and nobody is there to take from it, no case of its select has anything
    and one is open, its timer is armed, its scope still has members, or it is
    main in the root join. *)
Theorem no_lost_wakeup t0 m u f :
  reachable null t0 m -> frames m !! u = Some f -> ~ awake (c_rt (st m)) u -> blocked (st m) u f.
Proof.
  intros Hr Hf Hn. destruct (reachable_ok _ _ Hr) as [R I]. destruct f as [r|h|h|hs|hs].
  - pose proof (v_ctx _ _ R u r Hf) as Hx. pose proof (v_ok _ _ R) as Hok.
    destruct r; simpl in Hx |- *; try (by destruct Hx as [Hx _]; apply Hn; (done || left)); try done.
    + by destruct Hx as [[?|?] _].
    + by apply joins_blocked.
    + destruct Hx. by apply joins_blocked.
    + destruct Hx. by apply joins_blocked.
  - destruct (i_ctx _ _ _ _ I u _ Hf) as (w & Hw & _ & [[Hq _]|[? _]]); [|done]. destruct (sendq_at _ _ _ Hq) as (x & Hx & Hin).
    pose proof (queued_open _ _ _ _ I Hx (or_intror (elem_nonnil _ _ Hin))) as Hop.
    destruct (i_fine _ _ _ _ I h x Hx) as [_ _ _ _ F5 F6]. pose proof (elem_nonnil _ _ Hin) as Hne. split_and!.
    + intros (y & Hy & Hc). congruence.
    + exists x. auto.
    + intros p Hp Hl. destruct (recvq_at _ _ _ Hp) as (y & Hy & Hpin). rewrite Hx in Hy. injection Hy as <-. by destruct (F6 p Hpin Hl).
  - destruct (i_ctx _ _ _ _ I u _ Hf) as (w & Hw & _ & [[Hq _]|[? _]]); [|done].
    assert (Hl : live_waiter (st m) (u, 0%nat)).
    { eapply (armed_live _ _ _ _ I u _ 0 h Hf); [done|exact Hq]. }
    destruct (live_empty _ _ _ _ I Hq Hl). by split.
  - by destruct (i_ctx _ _ _ _ I u _ Hf) as [? _].
  - pose proof (i_ctx _ _ _ _ I u _ Hf) as (g & Hg & _ & Hch & Hfi & Hwk & Hnw). destruct (woken g) eqn:E; [by destruct (Hwk eq_refl)|].
    destruct (Hnw eq_refl) as (_ & Hall & i & h & Hi & Hq).
    assert (Harm : armed (st m) u (FSelect hs)).
    { exists g. split; [done|]. destruct (Z.lt_ge_cases (fired_index g) 0) as [?|Hge]; [done|]. by destruct (Hfi Hge). }
    assert (Hlive : forall i h, (u, i) ∈ recvq (st m) h -> live_waiter (st m) (u, i)) by (intros i' h' Hq'; by eapply (armed_live _ _ _ _ I u _ i' h' Hf)).
    split.
    + intros h' Hh'. apply list_elem_of_lookup in Hh' as [i' Hi']. destruct (Hall i' h' Hi') as [Hq'|[(x & Hx & Hc) Hb]].
      * by destruct (live_empty _ _ _ _ I Hq' (Hlive _ _ Hq')).
      * unfold contents. rewrite Hb. unfold sendq. rewrite Hx. by destruct (i_shut _ _ _ _ I h' x Hx ltac:(by intros []) Hc) as [_ ->].
    + exists h. split; [by eapply list_elem_of_lookup_2|]. by destruct (live_empty _ _ _ _ I Hq (Hlive _ _ Hq)).
Qed.

(** What may have woken a context. *)
Definition has_cause (c : state) (u : tid) (f : frame) : Prop :=
  match f with
  | FSend h => (exists w, waiters c !! (u, 0%nat) = Some w /\ w_ok w = true) \/ shut c h
  | FRecv h => (exists w v, waiters c !! (u, 0%nat) = Some w /\ w_ok w = true /\ outs c !! u = Some v) \/ drained c h
  | FSelect hs => exists g, groups c !! u = Some g /\
      (0 <= fired_index g < Z.of_nat (length hs) /\ is_Some (outs c !! u) \/ exists h, h ∈ hs /\ shut c h)
  | FRt FSleep => deadline_of (c_rt c) u <= time_of (clock (c_rt c))
  | _ => True
  end.

(** no wake-up is spurious.  A context that stands in a channel verb or in a
    sleep is awake only because its value was taken, a value was put into its
    [out], a channel it waits on was closed (drained, for a receive), its
    deadline has passed, or it was cancelled. *)
Theorem every_wake_has_a_cause t0 m u f :
  reachable null t0 m -> frames m !! u = Some f -> awake (c_rt (st m)) u -> has_cause (st m) u f \/ cancelled_t (c_rt (st m)) u = true.
Proof.
  intros Hr Hf Ha. destruct (reachable_ok _ _ Hr) as [R I]. destruct f as [r|h|h|hs|hs]; simpl.
  - destruct r; try (by left). destruct (v_ctx _ _ R u _ Hf) as [_ H2]. destruct (H2 Ha); [by left|by right].
  - destruct (i_ctx _ _ _ _ I u _ Hf) as (w & Hw & _ & [[_ Hc]|[_ [Hok|(_ & _ & Hs)]]]); [right; auto|left; left; eauto|left; by right].
  - destruct (i_ctx _ _ _ _ I u _ Hf) as (w & Hw & _ & [[_ Hc]|[_ [[Hok [v Hv]]|(_ & _ & Hs)]]]); [right; auto|left; left; eauto 6|left; by right].
  - by left.
  - pose proof (i_ctx _ _ _ _ I u _ Hf) as (g & Hg & _ & Hch & Hfi & Hwk & Hnw). destruct (woken g) eqn:E.
    + left. exists g. split; [done|]. destruct (Hwk eq_refl) as [_ [Hge|Hs]]; [left|by right]. destruct (Hfi Hge) as (_ & ? & ?). done.
    + destruct (Hnw eq_refl) as (Hc & _). right. auto.
Qed.
End Coop.
