(* ===== verification/Verbs.v ===== *)
(** What each verb of the task runtime promises to the task that calls it.

    The theorems speak about any state a program can reach ([Machine.reachable])
    and about the code of the verb alone, up to the point where it returns or
    parks; [Coop.v] says what happens between. *)
From stdpp Require Import gmap list.
From S2P Require Import Prelude Tasks Forest Scopes Channels Switch Machine Parked Waiters Coop.
#[local] Open Scope Z_scope.

Section Verbs.
Context {V : Type} (null : V) `{HO : OsLaws, !IoLayer, !NoIoWaiters}.
#[local] Abbreviation state := (cs (V := V)).

Lemma running t0 m : reachable null t0 m -> frames m !! me (st m) = None -> cmid (me (st m)) (st m) (frames m).
Proof.
  intros Hr Hf. destruct (reachable_ok null _ _ Hr) as [R I]. destruct (v_current _ _ R) as (t & Hc & _).
  assert (Hme : me (st m) = t) by (unfold me, self; by rewrite Hc). rewrite Hme in *. split; [by apply rinv_free|done].
Qed.

Lemma returning t0 m f : reachable null t0 m -> frames m !! me (st m) = Some f ->
  rmid (me (st m)) (joins_at f) (is_back f) (c_rt (st m)) (delete (me (st m)) (frames m)) /\ cinv (st m) (frames m).
Proof.
  intros Hr Hf. destruct (reachable_ok null _ _ Hr) as [R I]. destruct (v_current _ _ R) as (t & Hc & _).
  assert (Hme : me (st m) = t) by (unfold me, self; by rewrite Hc). rewrite Hme in *. split; [by apply rinv_run|done].
Qed.

(** ** Channels *)

(** the state of every channel.  Its buffer holds at most [cap] values; a
    sender waits only while the buffer is full, and a receiver that can still
    be given a value only while there is none and nobody offers one; a waiter
    is in a queue once; a closed channel has no waiters and its buffer stays
    to be drained. *)
Theorem channels_well_formed t0 m h x :
  reachable null t0 m -> g_chans (st m) !! h = Some x ->
  0 <= Z.of_nat (length (q x)) <= cap x
  /\ NoDup (recv_waiters x) /\ NoDup (send_waiters x) /\ (forall p, p ∈ recv_waiters x -> p ∉ send_waiters x)
  /\ (send_waiters x <> [] -> Z.of_nat (length (q x)) = cap x)
  /\ (forall p, p ∈ recv_waiters x -> live_waiter (st m) p -> contents (st m) h = [])
  /\ (closed x = true -> recv_waiters x = [] /\ send_waiters x = [] /\ contents (st m) h = q x).
Proof.
  intros Hr Hx. destruct (reachable_ok null _ _ Hr) as [R I]. destruct (i_fine _ _ _ _ I h x Hx) as [F1 F2 F3 F4 F5 F6].
  split_and!; try done; [lia| | |].
  - intros p Hp. pose proof (recv_not_send _ _ _ _ h p I) as Hn. unfold recvq, sendq in Hn. rewrite Hx in Hn. auto.
  - intros p Hp Hl. destruct (F6 p Hp Hl) as [Eq Es]. by rewrite (contents_at _ _ _ Hx), Eq, Es.
  - intros Hc. destruct (i_shut _ _ _ _ I h x Hx ltac:(by intros []) Hc) as [-> Es]. split_and!; [done|done|].
    by rewrite (contents_at _ _ _ Hx), Es, app_nil_r.
Qed.

(** C8: [chan_send], branch by branch.  A value goes to the first waiting
    receiver that can still take one, which then is awake with the value in
    its [out], exactly when there is such a receiver (and then nothing was in
    the channel); otherwise it joins the end of what is in the channel, in the
    buffer while there is room, as a parked sender's value when there is not. *)
Theorem chan_send_spec t0 m h v :
  reachable null t0 m -> frames m !! me (st m) = None ->
  match chan_send h v (st m) with
  | Ret r c => r = RBool true /\ ~ shut (st m) h /\
      ((exists hk p l, recvq (st m) h = hk ++ p :: l /\ live_waiter (st m) p /\ (forall p', p' ∈ hk -> ~ live_waiter (st m) p')
          /\ contents (st m) h = [] /\ contents c h = [] /\ outs c !! p.1 = Some v /\ awake (c_rt c) p.1)
       \/ (forall p, p ∈ recvq (st m) h -> ~ live_waiter (st m) p)
          /\ (exists x, g_chans (st m) !! h = Some x /\ Z.of_nat (length (q x)) < cap x) /\ contents c h = contents (st m) h ++ [v])
  | Parks f c => f = FSend h /\ ~ shut (st m) h /\ (forall p, p ∈ recvq (st m) h -> ~ live_waiter (st m) p)
      /\ (exists x, g_chans (st m) !! h = Some x /\ Z.of_nat (length (q x)) = cap x) /\ contents c h = contents (st m) h ++ [v]
  | Throw e c => c = st m
  | _ => False
  end.
Proof.
  intros Hr Hf. pose proof (send_cases _ h v _ _ (running _ _ Hr Hf)) as S. remember (chan_send h v (st m)) as r eqn:Er. clear Er.
  assert (Hns : forall x, g_chans (st m) !! h = Some x -> closed x = false -> ~ shut (st m) h) by (intros x Hx Hc (y & Hy & Hcy); congruence).
  assert (Hq : forall x, g_chans (st m) !! h = Some x -> recvq (st m) h = recv_waiters x) by (intros x Hx; unfold recvq; by rewrite Hx).
  destruct S as [| | |x p hk l c' Hcan Hx Hc Hq' Hl Hhk C Hct Hct' Ho Haw|x c' Hcan Hx Hc Hno Hlt C Hct|x c' Hcan Hx Hc Hno Hfull P Hct]; try done.
  - split_and!; [done|by eapply Hns|]. left. exists hk, p, l. rewrite (Hq x Hx). done.
  - split_and!; [done|by eapply Hns|]. right. rewrite (Hq x Hx). split_and!; eauto.
  - rewrite (Hq x Hx). split_and!; eauto.
Qed.

(** C9: [chan_recv], branch by branch.  It takes the oldest value in the
    channel, buffered or a waiting sender's, and nothing else moves in the
    queue; with nothing there it ends at once on a closed channel and parks on
    an open one.  So a channel is first-in first-out. *)
Theorem chan_recv_spec t0 m h :
  reachable null t0 m -> frames m !! me (st m) = None ->
  match chan_recv null h (st m) with
  | Ret (RRecv true (Some v)) c => contents (st m) h = v :: contents c h
  | Ret (RRecv false (Some v)) c => v = null /\ c = st m /\ shut c h /\ contents c h = []
  | Parks f c => f = FRecv h /\ ~ shut (st m) h /\ contents (st m) h = [] /\ contents c h = []
  | Throw e c => c = st m
  | _ => False
  end.
Proof.
  intros Hr Hf. by destruct (recv_cases null _ h _ _ (running _ _ Hr Hf)).
Qed.

(** [chan_select] decides by the lowest index.  At the head of its loop it
    takes the oldest value of the first case that has one, all earlier cases
    being empty; it answers -1 exactly when every case is closed and drained;
    otherwise it parks. *)
Theorem chan_select_lowest t0 m hs :
  reachable null t0 m -> frames m !! me (st m) = Some (FSelectLoop hs) ->
  match select_loop null hs (st m) with
  | Ret (ROut i (Some v)) c =>
      i = -1 /\ v = null /\ c = st m /\ (forall h, h ∈ hs -> shut c h /\ contents c h = [])
      \/ exists j h, i = Z.of_nat j /\ hs !! j = Some h /\ contents (st m) h = v :: contents c h
           /\ forall j' h', (j' < j)%nat -> hs !! j' = Some h' -> contents (st m) h' = []
  | Parks f c => f = FSelect hs /\ (forall h, h ∈ hs -> contents (st m) h = []) /\ exists h, h ∈ hs /\ ~ shut (st m) h
  | _ => False
  end.
Proof.
  intros Hr Hf. destruct (returning _ _ _ Hr Hf) as [M I].
  pose proof (i_ctx _ _ _ _ I _ _ Hf) as (_ & Hne & Hch).
  assert (C : cmid (me (st m)) (st m) (delete (me (st m)) (frames m))).
  { split; [done|]. by apply loop_place with (hs := hs). }
  destruct (loop_cases null _ hs _ _ C Hne Hch) as [j h v c' Hj Hv Hlt _|Hall _|c' Hall Hop _].
  - right. exists j, h. done.
  - by left.
  - done.
Qed.
(** C11: completion wins.  A parked send whose value was taken comes back true, a
    parked receive that was given a value comes back true with it, a parked select
    one case of which fired comes back with that case and its value, whether or not
    the task was cancelled meanwhile; and only an uncompleted one throws (for the
    cancellation, leaving no record in the channel, or for the close), ends on the
    drained channel, or looks at its cases again.  The fall-through of [chan_send]
    and [chan_recv] is never reached. *)
Theorem completion_wins t0 m f :
  reachable null t0 m -> frames m !! me (st m) = Some f ->
  let t := me (st m) in
  match f with
  | FSend h => send_back t h (st m) (send_resume h (st m))
  | FRecv h => recv_back null t h (st m) (recv_resume null h (st m))
  | FSelect hs => select_back t hs (st m) (select_resume hs (st m))
  | _ => True
  end.
Proof.
  intros Hr Hf t. destruct (returning _ _ _ Hr Hf) as [M I]. destruct f; try done.
  - by apply send_resume_ok with (fr := frames m).
  - by apply recv_resume_ok with (fr := frames m).
  - by apply select_resume_ok with (fr := frames m).
Qed.

(** [chan_close] wakes everybody.  Closing keeps the buffered values, leaves
    no waiter in the channel, and afterwards every context that stood in a
    send to it or in a receive from it is awake, and so is a select that has no
    open case left; other channels are as they were. *)
Theorem chan_close_wakes t0 m h c r :
  reachable null t0 m -> frames m !! me (st m) = None -> chan_close h (st m) = Ret r c ->
  shut c h /\ buf c h = buf (st m) h /\ recvq c h = [] /\ sendq c h = []
  /\ (forall h', h' <> h -> g_chans c !! h' = g_chans (st m) !! h')
  /\ forall u f, frames m !! u = Some f -> f = FSend h \/ f = FRecv h \/ (exists hs, f = FSelect hs /\ forall h', h' ∈ hs -> shut c h') ->
       awake (c_rt c) u.
Proof.
  intros Hr Hf Hc. pose proof (running _ _ Hr Hf) as C. pose proof (close_cases _ h _ _ C) as S. rewrite Hc in S.
  inversion S as [| |x c' Hx Hcl C' Hch]; subst.
  assert (Hat : g_chans c !! h = Some (Chan (q x) (cap x) true [] [])) by (by rewrite Hch, lookup_insert_eq).
  assert (Er : recvq c h = []) by (unfold recvq; by rewrite Hat). assert (Es : sendq c h = []) by (unfold sendq; by rewrite Hat).
  split_and!; try done.
  - eexists. by split.
  - unfold buf. by rewrite Hat, Hx.
  - intros h' Hn. by rewrite Hch, lookup_insert_ne.
  - intros u f Hu Hcase. pose proof (cm_inv _ _ _ C') as I'. pose proof (i_ctx _ _ _ _ I' u f Hu) as Hctx.
    destruct Hcase as [->|[->|(hs & -> & Hall)]]; simpl in Hctx.
    + destruct Hctx as (w & _ & _ & [[Hq _]|[? _]]); [|done]. rewrite Es in Hq. by apply not_elem_of_nil in Hq.
    + destruct Hctx as (w & _ & _ & [[Hq _]|[? _]]); [|done]. rewrite Er in Hq. by apply not_elem_of_nil in Hq.
    + destruct Hctx as (g & Hg & _ & _ & _ & Hwk & Hnw). destruct (woken g) eqn:E; [by apply Hwk|]. exfalso.
      destruct (Hnw eq_refl) as (_ & _ & i & h' & Hi & Hq). destruct (recvq_at _ _ _ Hq) as (y & Hy & Hin).
      destruct (Hall h') as (z & Hz & Hcz); [by eapply list_elem_of_lookup_2|].
      pose proof (queued_open _ _ _ _ I' Hy (or_introl (elem_nonnil _ _ Hin))). congruence.
Qed.

(** ** Refusals *)

(** The decision table of the verbs that can be refused: what is thrown before
    anything is done, in the order the checks come. *)
Definition handle_check (who : bytes) (h : Z) (c : state) : option exn :=
  match g_chans c !! h with None => Some (bad_handle who) | Some _ => None end.
Definition closed_check (msg : bytes) (h : Z) (c : state) : option exn :=
  match g_chans c !! h with Some x => if closed x then Some (Thrown msg) else None | None => None end.
Definition first_of (l : list (option exn)) : option exn := match omap id l with e :: _ => Some e | [] => None end.

Definition refusal (v : verb (V := V)) (c : state) : option exn :=
  let cancel := if task_cancelled (c_rt c) then Some Cancelled else None in
  match v with
  | VMake n => if n <? 0 then Some (Thrown (B "chan_make: negative capacity")) else None
  | VSend h _ => first_of [cancel; handle_check (B "chan_send") h c; closed_check (B "send on closed channel") h c]
  | VRecv h => first_of [cancel; handle_check (B "chan_recv") h c]
  | VTryRecv h => handle_check (B "chan_try_recv") h c
  | VClose h => first_of [handle_check (B "chan_close") h c; closed_check (B "close of closed channel") h c]
  | VLen h => handle_check (B "chan_len") h c
  | VSelect None => Some (Thrown (B "chan_select: cases must be an array of channel handles"))
  | VSelect (Some []) => Some (Thrown (B "chan_select: empty case list"))
  | VSelect (Some hs) => first_of (cancel :: ((fun h => handle_check (B "chan_select") h c) <$> hs))
  | VScopeCancel h => match g_scopes c !! h with None => Some (Thrown (B "scope_cancel: bad scope handle")) | Some _ => None end
  | VScopeEnd h =>
      match g_scopes c !! h with
      | None => Some (Thrown (B "scope_end: bad scope handle"))
      | Some s => match scopes (c_rt c) !! s with
                  | None => None
                  | Some x => if decide (opener x <> me c) then Some (Thrown (B "scope_end: only the opening task may end a scope"))
                              else if decide (cur_of (c_rt c) (me c) <> Some s) then Some (Thrown (B "scope_end: not the innermost open scope"))
                              else None
                  end
      end
  | _ => None
  end.

(** The verbs of the table. *)
Definition refusable (v : verb (V := V)) : bool :=
  match v with
  | VMake _ | VSend _ _ | VRecv _ | VTryRecv _ | VClose _ | VLen _ | VSelect _ | VScopeCancel _ | VScopeEnd _ => true
  | _ => false
  end.

Lemma select_refusal (c : state) hs :
  first_of (None :: ((fun h => handle_check (B "chan_select") h c) <$> hs))
  = if forallb (fun h => match g_chans c !! h with Some _ => true | None => false end) hs then None else Some (bad_handle (B "chan_select")).
Proof.
  unfold first_of. csimpl. induction hs as [|h hs IH]; [done|]. csimpl. unfold handle_check at 1. destruct (g_chans c !! h); [by csimpl|done].
Qed.

(** ** Scopes *)

(** Everything below the scope has ended, and the scope is gone. *)
Definition ended (t : tid) (s : sid) (x : madc_scope) (w w' : rt) : Prop :=
  (forall c, below w s c -> c = s) /\ (forall u, t_scope <$> tasks w !! u <> Some (Some s))
  /\ scopes w' !! s = None /\ cur_of w' t = parent x.

Lemma end_join_eq t s x w j b fr :
  rmid t j b w fr -> scopes w !! s = Some x -> live x <= 0 ->
  end_join s w = match err x with
                 | Some e => Throw (Thrown (take 191 e)) (upd_task (set_scope_err (take 191 e)) t (closed_rt s x t w))
                 | None => if s_cancel_req x then Throw Cancelled (closed_rt s x t w) else Ret tt (closed_rt s x t w)
                 end.
Proof.
  intros M Hx Hl. unfold end_join. rewrite Hx. destruct (Z.ltb_spec 0 (live x)); [lia|].
  assert (Hs : self (scope_unlink s w) = t).
  { unfold self, scope_unlink, upd_scope. simpl. rewrite lookup_alter_eq, Hx. simpl.
    by destruct (parent x); simpl; rewrite (r_current _ _ _ _ _ M). }
  rewrite Hs. replace (self (upd_task (set_cur (parent x)) t (scope_unlink s w))) with t by exact (eq_sym Hs). by destruct (err x).
Qed.

Lemma closed_ended t s x y w :
  rt_ok w -> tasks w !! t = Some y -> scopes w !! s = Some x -> opener x = t -> cur y = Some s -> live x <= 0 ->
  ended t s x w (closed_rt s x t w).
Proof.
  intros Hok Hy Hx Ho Hc Hl. destruct (closed_below w Hok t y s x Hy Hx Ho Hc Hl) as [Hb Hm]. split_and!; [done| | |].
  - intros u. destruct (tasks w !! u) as [z|] eqn:Hz; [|done]. simpl. intros [= E]. by apply (Hm u z Hz).
  - apply lookup_delete_eq.
  - unfold cur_of. rewrite (closed_eq w t s x Hx). simpl. by rewrite lookup_alter_eq, Hy.
Qed.

(** C7: [scope_end] joins.  When it comes back, with a return or a throw, every
    task started in the scope and in every scope below it has ended, and the
    scope is gone; what it throws is the first error of a member, cut to the
    191 bytes that are kept, else the cancellation, and otherwise it returns.
    As long as it parks, a member of the scope is alive. *)
Theorem scope_end_joins t0 m s :
  reachable null t0 m -> frames m !! me (st m) = Some (FRt (FEndJoin s)) ->
  let w := c_rt (st m) in
  exists x, scopes w !! s = Some x /\ opener x = me (st m) /\
  match end_join s w with
  | Ret _ w' => err x = None /\ s_cancel_req x = false /\ ended (me (st m)) s x w w'
  | Throw e w' =>
      match err x with Some msg => e = Thrown (take 191 msg) | None => s_cancel_req x = true /\ e = Cancelled end
      /\ ended (me (st m)) s x w w'
  | Parks f w' => f = FEndJoin s /\ w' = w /\ exists u, t_scope <$> tasks w !! u = Some (Some s)
  | _ => False
  end.
Proof.
  intros Hr Hf w. set (t := me (st m)) in *. destruct (returning _ _ _ Hr Hf) as [M I]. fold t in M. fold w in M. simpl in M.
  destruct (reachable_ok null _ _ Hr) as [R _]. pose proof (v_ctx _ _ R t _ Hf) as (x & Hx & Ho & Hj & Hc & _).
  pose proof (v_ok _ _ R) as Hok. fold w in Hx, Hc, Hok.
  exists x. split_and!; [done|done|]. destruct (Z.ltb_spec 0 (live x)) as [Hl|Hl].
  - unfold end_join. rewrite Hx. destruct (Z.ltb_spec 0 (live x)) as [_|]; [|lia]. split_and!; [done|done|].
    rewrite (ro_live _ Hok s x Hx) in Hl. destruct (members x) as [|u l] eqn:Em; [simpl in Hl; lia|].
    destruct (fo_members _ (ro_forest _ Hok) s (node_of x) u (lookup_node _ _ _ Hx)) as [c Hu]; [simpl; rewrite Em; by left|].
    apply place_lookup in Hu as (y & Hy & Hp). exists u. rewrite Hy. simpl. unfold place_of in Hp. congruence.
  - destruct (mid_task _ _ _ _ _ M) as [y Hy]. assert (Hcy : cur y = Some s) by (unfold cur_of in Hc; by rewrite Hy in Hc).
    pose proof (closed_ended t s x y w Hok Hy Hx Ho Hcy Hl) as He. rewrite (end_join_eq t s x w _ _ _ M Hx Hl).
    destruct (err x) as [e|].
    + split; [done|]. destruct He as (J1 & J2 & J3 & J4). split_and!; try done. unfold cur_of in *. simpl.
      rewrite lookup_alter_eq. revert J4. by destruct (tasks (closed_rt s x t w) !! t) as [z|] eqn:Ez; simpl in *; rewrite Ez.
    + by destruct (s_cancel_req x).
Qed.
End Verbs.
