(* ===== verification/Runs.v ===== *)
(** Concrete runs of the task machine: the theorems of [Coop.v] and [Verbs.v]
    at states a program reaches, and what modelling the task runtime showed.
    The payload is a number, the clock is the virtual one, time stands still
    between readings, and no io waiter is registered. *)
From stdpp Require Import gmap list sorting.
From S2P Require Import Prelude Tasks Forest Scopes Channels Switch Machine Parked Waiters Coop Verbs.
#[local] Open Scope Z_scope.

#[local] Instance os0 : Os := {| os_tick _ := 0; os_sleep _ ms := ms |}.
#[local] Instance io0 : IoLayer := None.
#[local] Instance os0_laws : OsLaws.
Proof. by constructor. Qed.
#[local] Instance io0_none : NoIoWaiters.
Proof. by intros tmo w. Qed.

Definition script : Type := list (tid * verb (V := nat)).
Definition run (s : script) := play 0%nat 200 s (initial (Virtual 0)).
Definition after (s : script) : mach := match run s with (Running m _, _) => m | _ => initial (Virtual 0) end.

Lemma after_reachable s : reachable 0%nat (Virtual 0) (after s).
Proof.
  unfold after, run. assert (Hi : reachable 0%nat (Virtual 0) (initial (V := nat) (Virtual 0))) by apply rtc_refl.
  destruct (play 0%nat 200 s (initial (Virtual 0))) as [[m r| | |] l] eqn:E; try done. eapply play_reachable; [exact Hi|exact E].
Qed.

(** ** A receiver parked on an empty channel, main running again *)
Definition receiver : script := [(0, VMake 0); (0, VGo); (0, VYield); (1, VRecv 1); (0, VLen 1)]%nat.

Example receiver_parked : frames (after receiver) !! 1%nat = Some (FRecv 1) /\ frames (after receiver) !! 0%nat = None.
Proof. by vm_compute. Qed.

Lemma machine_is_safe_witness : runs (call 0%nat 2 (VSend 1 7%nat) (after receiver)).
Proof.
  pose proof (machine_is_safe 0%nat (Virtual 0) (after receiver) 2 (after_reachable receiver) ltac:(lia)) as Hs.
  exact (Hs (VSend 1 7%nat) eq_refl).
Defined.

Lemma one_place_each_witness : NoDup (g_ready (c_rt (st (after receiver))) ++ g_timers (c_rt (st (after receiver)))).
Proof. apply (one_place_each 0%nat (Virtual 0) (after receiver) (after_reachable receiver)). Defined.

Lemma no_lost_wakeup_witness : blocked (st (after receiver)) 1 (FRecv 1).
Proof.
  apply (no_lost_wakeup 0%nat (Virtual 0) (after receiver) 1 (FRecv 1) (after_reachable receiver)); [by vm_compute|].
  intros [Ha|Ha]; vm_compute in Ha; [done|by apply not_elem_of_nil in Ha].
Defined.

Lemma scheduling_decision_witness : exists r w', decided (c_rt (st (after receiver))) r w'.
Proof.
  destruct (scheduling_decision (c_rt (st (after receiver)))) as (r & w' & _ & Hd & _); [|by exists r, w'].
  apply (ro_sched _ (v_ok _ _ (m_rt _ (reachable_ok 0%nat _ _ (after_reachable receiver))))).
Defined.

Lemma channels_well_formed_witness : exists x, g_chans (st (after receiver)) !! 1 = Some x /\ NoDup (recv_waiters x).
Proof.
  destruct (g_chans (st (after receiver)) !! 1) as [x|] eqn:Hx; [|by vm_compute in Hx].
  exists x. split; [done|]. apply (channels_well_formed 0%nat (Virtual 0) (after receiver) 1 x (after_reachable receiver) Hx).
Defined.

(** The parked receiver is given the value. *)
Lemma chan_send_spec_witness : exists c, chan_send 1 7%nat (st (after receiver)) = Ret (RBool true) c /\ outs c !! 1%nat = Some 7%nat.
Proof.
  pose proof (chan_send_spec 0%nat (Virtual 0) (after receiver) 1 7%nat (after_reachable receiver) ltac:(by vm_compute)) as Hs.
  destruct (chan_send 1 7%nat (st (after receiver))) as [r c| | | | | | | |] eqn:E; try (by vm_compute in E). destruct Hs as (-> & _ & _).
  exists c. split; [done|]. vm_compute in E. injection E as <-. by vm_compute.
Defined.


(** ** The value is on its way *)
Definition delivered : script := receiver ++ [(0, VSend 1 7)]%nat.

Lemma every_wake_has_a_cause_witness : has_cause (st (after delivered)) 1 (FRecv 1) \/ cancelled_t (c_rt (st (after delivered))) 1 = true.
Proof.
  apply (every_wake_has_a_cause 0%nat (Virtual 0) (after delivered) 1 (FRecv 1) (after_reachable delivered)); [by vm_compute|].
  right. vm_compute. by left.
Defined.

Definition arrived : script := delivered ++ [(0, VYield)]%nat.

Lemma completion_wins_witness : recv_back 0%nat 1 1 (st (after arrived)) (recv_resume 0%nat 1 (st (after arrived))).
Proof. exact (completion_wins 0%nat (Virtual 0) (after arrived) (FRecv 1) (after_reachable arrived) ltac:(by vm_compute)). Defined.

Example receive_returns : match recv_resume 0%nat 1 (st (after arrived)) with Ret r _ => r = RRecv true (Some 7%nat) | _ => False end.
Proof. by vm_compute. Qed.

(** ** A value in a buffer *)
Definition buffered : script := [(0, VMake 2); (0, VMake 2); (0, VSend 2 5); (0, VSend 2 6)]%nat.

Lemma chan_recv_spec_witness : exists c, chan_recv 0%nat 2 (st (after buffered)) = Ret (RRecv true (Some 5%nat)) c
  /\ contents (st (after buffered)) 2 = 5%nat :: contents c 2.
Proof.
  pose proof (chan_recv_spec 0%nat (Virtual 0) (after buffered) 2 (after_reachable buffered) ltac:(by vm_compute)) as Hs.
  destruct (chan_recv 0%nat 2 (st (after buffered))) as [r c| | | | | | | |] eqn:E; try (by vm_compute in E).
  assert (Er : r = RRecv true (Some 5%nat)) by (vm_compute in E; by injection E as <- _). subst r. by exists c.
Defined.

Definition selecting : script := buffered ++ [(0%nat, VSelect (Some [1; 2]))].

Lemma chan_select_lowest_witness : exists c, select_loop 0%nat [1; 2] (st (after selecting)) = Ret (ROut 1 (Some 5%nat)) c
  /\ contents (st (after selecting)) 1 = [].
Proof.
  pose proof (chan_select_lowest 0%nat (Virtual 0) (after selecting) [1; 2] (after_reachable selecting) ltac:(by vm_compute)) as Hs.
  destruct (select_loop 0%nat [1; 2] (st (after selecting))) as [r c| | | | | | | |] eqn:E; try (by vm_compute in E).
  assert (Er : r = ROut 1 (Some 5%nat)) by (vm_compute in E; by injection E as <- _). subst r. exists c. split; [done|].
  destruct Hs as [[? _]|(j & h & Hj & _ & _ & Hlt)]; [done|]. apply (Hlt 0%nat); [lia|done].
Defined.

Lemma chan_close_wakes_witness : exists c, chan_close 1 (st (after receiver)) = Ret RUnit c /\ awake (c_rt c) 1%nat.
Proof.
  destruct (chan_close 1 (st (after receiver))) as [r c| | | | | | | |] eqn:E; try (by vm_compute in E).
  pose proof (chan_close_wakes 0%nat (Virtual 0) (after receiver) 1 c r (after_reachable receiver) ltac:(by vm_compute) E) as Hs.
  assert (Er : r = RUnit) by (vm_compute in E; by injection E as <- _). subst r. exists c. split; [done|].
  destruct Hs as (_ & _ & _ & _ & _ & Hw). apply (Hw 1%nat (FRecv 1)); [by vm_compute|by right; left].
Defined.

(** ** A scope with a sleeping member *)
Definition sleeper : script := [(0, VScopeBegin); (0, VGo); (0, VYield); (1, VSleep 100); (0, VLen 1)]%nat.

Lemma cancel_reaches_subtree_witness :
  let w := c_rt (st (after sleeper)) in
  g_timers w = [1%nat] /\ awake (scope_cancel_walk 0%nat w) 1%nat /\ cancelled_t (scope_cancel_walk 0%nat w) 1%nat = true.
Proof.
  intros w. pose proof (v_ok _ _ (m_rt _ (reachable_ok 0%nat _ _ (after_reachable sleeper)))) as Hok.
  destruct (cancel_reaches_subtree 0%nat w Hok) as (_ & _ & Hc & _); [vm_compute; eauto|]. split; [by vm_compute|].
  destruct (Hc 0%nat) as (_ & _ & Hm); [unfold below; constructor|]. destruct (Hm 1%nat) as (Ha & Hcc & _); [|exact (conj Ha Hcc)].
  left. eexists. split; [by vm_compute|]. vm_compute. by left.
Defined.

Definition ending : script := sleeper ++ [(0, VScopeEnd 1)]%nat.

Lemma scope_end_joins_witness : exists x, scopes (c_rt (st (after ending))) !! 0%nat = Some x /\ opener x = 0%nat.
Proof.
  destruct (scope_end_joins 0%nat (Virtual 0) (after ending) 0%nat (after_reachable ending) ltac:(by vm_compute)) as (x & Hx & Ho & _).
  exists x. split; [exact Hx|]. rewrite Ho. vm_compute. reflexivity.
Defined.

(** ** What modelling showed *)

(** A member that cancels its own scope throws from the next receive before it
    parks, and its scope ends; from the next select it does not throw, parks
    for good, and the program dies of a deadlock in [scope_end]. *)
Definition cancels_then (l : script) : script :=
  [(0, VMake 0); (0, VScopeBegin); (0, VGo); (0, VYield); (1, VScopeCancel 1)]%nat ++ l ++ [(0, VScopeEnd 1); (0, VLen 1)]%nat.

Example receive_sees_the_cancel : exists m r, run (cancels_then [(1, VRecv 1); (1, VBodyDone (Some Cancelled))]%nat) = (Running m r, []).
Proof. vm_compute. eauto. Qed.
Example select_misses_the_cancel : (run (cancels_then [(1%nat, VSelect (Some [1]))])).1 = Aborted.
Proof. by vm_compute. Qed.

(** A scope its opener leaves by a throw is freed, and its handle is not
    forgotten: the next [scope_cancel] of the handle follows it. *)
Definition abandons : script :=
  [(0, VScopeBegin); (0, VGo); (0, VScopeEnd 1); (1, VScopeBegin); (1, VBodyDone (Some (Thrown []))); (0, VLen 1)]%nat.

Example stale_handle : g_scopes (st (after abandons)) !! 2 = Some 1%nat /\ scopes (c_rt (st (after abandons))) !! 1%nat = None
  /\ call 0%nat 2 (VScopeCancel 2) (after abandons) = Undefined.
Proof. by vm_compute. Qed.

(** The deadline of a sleep is computed in 64 bits: the longest sleep there is,
    asked for at any later time than the clock's zero, is over at once. *)
Example longest_sleep_wraps :
  match task_sleep_ms (2 ^ 63 - 1) (with_clock (Virtual 1) (c_rt (st (initial (V := nat) (Virtual 0))))) with
  | Parks FSleep w => deadline_of w 0%nat = - 2 ^ 63
  | _ => False
  end.
Proof. by vm_compute. Qed.
